(* ===== verification/_CoqProject ===== *)
-Q . S2P
Prelude.v
Slice.v
Bits.v
BitsArith.v
BitsCounting.v
Pdqsort.v
SortOrder.v
SimpleSorts.v
Partition.v
Quicksort.v
StableSort.v
SortTheorems.v
Abt.v
AbtTree.v
AbtOps.v
AbtInsert.v
AbtDelete.v
AbtQuery.v
AbtMap.v
AbtSets.v
AbtTheorems.v
Utf8.v
Utf8Spec.v
Utf8Text.v
Utf8Theorems.v
Text.v
Strconv.v
StrconvFormat.v
StrconvParse.v
StrconvTheorems.v
FdMutex.v
FdMutexBits.v
FdMutexInv.v
FdMutexTheorems.v
Buffer.v
BufferSpec.v
BufferOps.v
BufferTheorems.v
BufferTransfer.v
Varint.v
VarintTheorems.v
Heap.v
HeapTheorems.v
Gover.v
GoverTheorems.v
Semver.v
Utf16.v
Utf16Theorems.v
Links.v
LinkedList.v
LinkedListSpec.v
LinkedListRep.v
LinkedListTheorems.v
Ring.v
RingTheorems.v
Sort.v
SortInterface.v
Path.v
PathTheorems.v
PathMatch.v
PathMatchSpec.v
PathMatchChunk.v
PathMatchTheorems.v
Hex.v
HexSpec.v
HexStream.v
HexDump.v
HexTheorems.v
ModGover.v
MvsGraph.v
MvsGraphInv.v
MvsSearch.v
MvsGraphTheorems.v
ParWork.v
ParWorkTheorems.v
Mvs.v
MvsTheorems.v
MvsReq.v
SemverTheorems.v
MvsDowngrade.v
