(* ===== verification/Prelude.v ===== *)
(** * Verification of Go standard-library and toolchain components

    The repository is a fork of the Go toolchain; paths below are relative to
    [src/src/], its Go source tree.  The tree is far too large to verify as a whole.
    This development takes packages of it that carry algorithms or state of their
    own and that other packages build on, translates every function of each
    to Gallina the way it is written, and proves what its documentation promises.

    ** Modelling

    A Go function that reads or writes a slice, an object or a heap is a
    computation [M S A] below: it takes the store [S] to a result and a new store,
    panics, or runs out of the fuel of one of its loops.  [wp] is total
    correctness: a theorem stated with it, or with an equation to [Done], says that
    the function returns.  Fuel is always an expression of the arguments,
    computed by the function itself and shown to be enough; only
    [Buffer.ReadFrom], whose number of rounds depends on the reader, and [Mvs.Req] and
    [MvsDowngrade.Downgrade], whose recursion depends on the modules there are, take it as an
    argument: the theorems of the last two say how much is enough, that of the first that
    there is enough for every reader that returns an error in the end.  Pure Go functions are pure functions.  Integers
    are [Z] with the wrap-around of their width written where the code can reach it;
    [int], [uint] and [uintptr] have 64 bits.  A string or a byte slice is the list of
    its bytes.

    ** Components and files

    - [Prelude], [Slice], [Text]: machine integers, the monad and its rules, the
      operators of Go; slices as lists indexed by [Z]; strings.
    - slices ([slices/sort.go], [slices/zsortanyfunc.go]): [Pdqsort] has the code
      of pattern-defeating quicksort, heapsort, insertion sort, the stable merge
      sort and the searches; [SortOrder] the vocabulary of orders; [SimpleSorts]
      (insertion sort and heapsort), [Partition], [Quicksort], [StableSort] the algorithms' lemmas;
      [SortTheorems] the theorems: sorted permutations for every strict weak
      order, safety for every comparison function whatever it answers,
      stability, search.  Lengths are below 2^62, so that the child index of a
      heap does not wrap.  The bad-pattern counter and the recursion are bounded by
      fuel derived from the range.
    - math/bits ([math/bits/bits.go], [bits_tables.go]): [Bits] has every function
      at every width; [BitsArith] multi-word arithmetic against exact integers,
      [BitsCounting] counts, reversals and rotations bit by bit.
    - cmd/compile/internal/abt ([avlint32.go]): [Abt] has the nodes in a store
      with pointers, so that the sharing of applicative trees is explicit; [AbtTree]
      relates a pointer to a finite map ([tree] and balance), [AbtOps], [AbtInsert],
      [AbtDelete], [AbtQuery], [AbtMap] and [AbtSets] prove the operations, [AbtTheorems] states the refinement of finite maps and that no
      operation changes another tree.  The recursion depth of 128 is enough for
      balanced trees of fewer than 2^59 nodes.
    - unicode/utf8 ([utf8.go]) and unicode/utf16 ([utf16.go]): [Utf8] and [Utf16] have
      the code; [Utf8Spec] relates the tables and bit operations to the arithmetic
      of RFC 3629, [Utf8Text] treats whole texts, [Utf8Theorems] and
      [Utf16Theorems] their ends, the round trips and exactness.
    - internal/strconv ([itoa.go], [atoi.go], [uscale.go] in part): [Strconv] has
      the integer conversions; [StrconvFormat] and [StrconvParse] the lemmas,
      [StrconvTheorems] the numerals printed, the values and errors parsed and the
      round trip.
    - internal/poll ([fd_mutex.go]): [FdMutex] has each method as atomic steps
      of goroutines on a state word and two semaphores; [FdMutexBits] reads the
      word as fields, [FdMutexInv] proves the invariant of all interleavings,
      [FdMutexTheorems] exclusion, a single destruction, and that no wake-up
      is lost.  The runtime's semaphores are counters.
    - bytes ([buffer.go]): [Buffer] has the methods of [bytes.Buffer] over an array
      with spare room; [BufferSpec] and [BufferOps] prove each on the unread
      bytes, [BufferTheorems] that a buffer refines a queue of bytes and what
      unreading does, [BufferTransfer] the transfers, against the classes [Reader]
      and [Writer] that state what [io] documents; that a reader ends is a
      hypothesis of its own ([stops]).  The allocator is a
      parameter: whether an allocation succeeds and how much [append] rounds up.
    - encoding/binary ([varint.go]): [Varint] and [VarintTheorems], the round
      trip, also through the [ReadByte] of a [bytes.Buffer].
    - container/heap ([heap.go]): [Heap] is written over the class [HeapInterface]
      of the methods and [HeapTheorems] proved against their laws [HeapLaws],
      which slices satisfy.
    - internal/gover ([gover.go], and [cmp.Compare] on strings): [Gover] and
      [GoverTheorems], the order of toolchain versions.
    - container/list ([list.go]) and container/ring ([ring.go]): [LinkedList] and
      [Ring] have the code over stores of elements with pointers; [Links] is the
      theory of doubly linked runs and cycles that both need;
      [LinkedListSpec] says what the operations are on sequences of elements,
      [LinkedListRep] how a store represents sequences and that each
      operation refines its sequence operation, [LinkedListTheorems] that every
      program of calls does that uses no element an [Init] cleared away; [RingTheorems] states the ring operations on cyclic
      sequences.
    - sort ([sort.go], [zsortinterface.go], [slice.go], [search.go]) and the ordered
      types of slices ([zsortordered.go]): [Sort] is written over the class of data
      with the methods of [sort.Interface]; [SortInterface] shows that its algorithms
      simulate those of [Pdqsort] on the list the data stands for, gets their
      theorems from that, for [Slice] and the ordered types as instances, and treats
      the searches.
    - path ([path.go], [match.go]): [Path] and [PathTheorems], [Clean] against the
      reading of a path as its elements and the other functions against it;
      [PathMatch] has [Match], [PathMatchSpec] the grammar of patterns and what
      they match and lemmas on the scanning, [PathMatchChunk] those on chunks, and
      [PathMatchTheorems] when [Match] agrees with them.
    - encoding/hex ([hex.go]): [Hex] has the code; [HexSpec] hexadecimal text and the
      functions on slices, [HexStream] the encoder and decoder against the classes
      [Sink] and [Source] of writers and readers, [HexDump] the text of a dump and the
      dumper, [HexTheorems] the theorems.
    - cmd/go/internal/gover ([mod.go], and [toolchain.go] in part) and
      golang.org/x/mod/semver ([semver.go]): [Semver] and [ModGover] have the versions
      of modules and how they are compared, [SemverTheorems] that this is the precedence of
      semver.org and a total preorder.
    - cmd/internal/par ([work.go]): [ParWork] has the runners of [Work] as atomic
      steps under a mutex and a condition variable, over any function on shared
      state; [ParWorkTheorems] that every schedule ends with each item done once.
    - cmd/go/internal/mvs ([graph.go], [mvs.go], [errors.go]): [MvsGraph] has the graph,
      [MvsGraphInv] its invariant, [MvsSearch] breadth-first search, and
      [MvsGraphTheorems] what it selects and finds; [Mvs] has [buildList] as the
      function that the runners of [ParWork] run, the upgrades and [Req].  [MvsTheorems]
      shows that the result depends on no schedule and is the minimal version
      selection; [MvsReq] that [Req] returns a minimal list of requirements; [MvsDowngrade]
      has [Downgrade], and shows what it lowers and what it keeps.  What
      the modules require is a parameter, and the comment of [Reqs] on [Max] the
      class [MaxLaws].

    [Utf8] is used by [Buffer] and [PathMatch] (runes), [Bits] by [Strconv] and [Utf8]
    (table lookups), [Buffer] by [Varint], [Pdqsort] and its lemmas by [Sort], [Sort] by
    [ModGover], [Gover] and [Semver] by [ModGover], [ModGover] by [MvsGraph], and that and
    [ParWork] by [Mvs].

    ** What is not modelled

    [slices]: [Min] and [Max] of predeclared types.  [sort]: the wrappers for the
    three predeclared slice types; the text of [zsortfunc.go] is that of
    [zsortinterface.go] over a struct with two functions.  [abt]: [String].
    [bytes.Buffer]: [AvailableBuffer], and writes of a caller through a slice that
    aliases the buffer.  [internal/strconv]: floating point and the texts of errors.
    [encoding/hex]: a destination that overlaps its source, and the texts of errors.
    [mvs]: the text of a [BuildListError].  [par]: the caches and the
    queue.  [semver]: [Sort].  [gover]: the choice of a toolchain.
    [internal/poll]: the methods of [FD], which are system calls between the
    operations modelled here.  Among the packages not begun, [encoding/base64], the
    checksums of [hash] and the decimals of [internal/strconv] come next.  The
    runtime, the commands, the compiler's passes, cryptography, networking and the
    packages driven by reflection are left out: they are assembly and generated
    code, system calls, or need models of memory and of floating point that a
    shallow embedding does not have. *)

From Stdlib Require Export ZArith Lia.
From stdpp Require Export base numbers list sorting sets.

#[global] Open Scope Z_scope.

(** ** Machine integers *)

(** Conversion to the unsigned and signed machine integers of Go: the
    wrap-around is the one of the language specification. *)
Definition u8 (z : Z) : Z := z mod 2 ^ 8.
Definition u16 (z : Z) : Z := z mod 2 ^ 16.
Definition u32 (z : Z) : Z := z mod 2 ^ 32.
Definition u64 (z : Z) : Z := z mod 2 ^ 64.
Definition int8 (z : Z) : Z := (z + 2 ^ 7) mod 2 ^ 8 - 2 ^ 7.
Definition int32 (z : Z) : Z := (z + 2 ^ 31) mod 2 ^ 32 - 2 ^ 31.
Definition int64 (z : Z) : Z := (z + 2 ^ 63) mod 2 ^ 64 - 2 ^ 63.

Definition is_u8 (z : Z) : Prop := 0 <= z < 2 ^ 8.
Definition is_u32 (z : Z) : Prop := 0 <= z < 2 ^ 32.
Definition is_u64 (z : Z) : Prop := 0 <= z < 2 ^ 64.
Definition is_int32 (z : Z) : Prop := - 2 ^ 31 <= z < 2 ^ 31.
Definition is_int64 (z : Z) : Prop := - 2 ^ 63 <= z < 2 ^ 63.

Lemma u8_id z : 0 <= z < 2 ^ 8 -> u8 z = z.
Proof. apply Z.mod_small. Qed.
Lemma u16_id z : 0 <= z < 2 ^ 16 -> u16 z = z.
Proof. apply Z.mod_small. Qed.
Lemma u32_id z : 0 <= z < 2 ^ 32 -> u32 z = z.
Proof. apply Z.mod_small. Qed.
Lemma u64_id z : 0 <= z < 2 ^ 64 -> u64 z = z.
Proof. apply Z.mod_small. Qed.
Lemma int8_id z : - 2 ^ 7 <= z < 2 ^ 7 -> int8 z = z.
Proof. unfold int8. intros. rewrite Z.mod_small; lia. Qed.
Lemma int32_id z : - 2 ^ 31 <= z < 2 ^ 31 -> int32 z = z.
Proof. unfold int32. intros. rewrite Z.mod_small; lia. Qed.
Lemma int64_id z : - 2 ^ 63 <= z < 2 ^ 63 -> int64 z = z.
Proof. unfold int64. intros. rewrite Z.mod_small; lia. Qed.

Lemma u8_range z : 0 <= u8 z < 2 ^ 8.
Proof. apply Z.mod_pos_bound. lia. Qed.
Lemma u32_range z : 0 <= u32 z < 2 ^ 32.
Proof. apply Z.mod_pos_bound. lia. Qed.
Lemma u64_range z : 0 <= u64 z < 2 ^ 64.
Proof. apply Z.mod_pos_bound. lia. Qed.
Lemma int64_range z : - 2 ^ 63 <= int64 z < 2 ^ 63.
Proof. unfold int64. pose proof (Z.mod_pos_bound (z + 2 ^ 63) (2 ^ 64)). lia. Qed.

(** [wrap] removes the wrap-arounds that provably do nothing. *)
Ltac wrap :=
  repeat match goal with
  | |- context [u8 ?z] => rewrite (u8_id z) by lia
  | |- context [u16 ?z] => rewrite (u16_id z) by lia
  | |- context [u32 ?z] => rewrite (u32_id z) by lia
  | |- context [u64 ?z] => rewrite (u64_id z) by lia
  | |- context [int8 ?z] => rewrite (int8_id z) by lia
  | |- context [int32 ?z] => rewrite (int32_id z) by lia
  | |- context [int64 ?z] => rewrite (int64_id z) by lia
  end.

(** ** Go computations

    A computation over a store of type [S] either returns a value and a new
    store, panics, or runs out of the fuel given to one of its loops.  The last
    outcome is not one of Go's: every theorem below excludes it. *)

Inductive panic : Type :=
| IndexOutOfRange
| SliceBounds
| NilDereference
| DivideByZero
| Explicit (code : nat).

Inductive outcome (A : Type) : Type :=
| Done (a : A)
| Panic (p : panic)
| NoFuel.
Arguments Done {A} a.
Arguments Panic {A} p.
Arguments NoFuel {A}.

Definition M (S A : Type) : Type := S -> outcome (A * S).

Definition mret {S A} (a : A) : M S A := fun s => Done (a, s).
Definition mbind {S A B} (m : M S A) (k : A -> M S B) : M S B :=
  fun s =>
    match m s with
    | Done (a, s') => k a s'
    | Panic p => Panic p
    | NoFuel => NoFuel
    end.
Definition mpanic {S A} (p : panic) : M S A := fun _ => Panic p.
Definition mnofuel {S A} : M S A := fun _ => NoFuel.
Definition mget {S} : M S S := fun s => Done (s, s).
Definition mput {S} (s : S) : M S unit := fun _ => Done (tt, s).
Definition mgets {S A} (f : S -> A) : M S A := fun s => Done (f s, s).
Definition mmodify {S} (f : S -> S) : M S unit := fun s => Done (tt, f s).

Declare Scope go_scope.
Delimit Scope go_scope with go.
Notation "x <- m ;; k" := (mbind m (fun x => k))
  (at level 100, m at next level, right associativity) : go_scope.
Notation "' p <- m ;; k" := (mbind m (fun p => k))
  (at level 20, p pattern, m at level 99, k at level 200) : go_scope.
Notation "m ;; k" := (mbind m (fun _ => k))
  (at level 100, right associativity) : go_scope.
#[global] Open Scope go_scope.

(** Go's operators on integers, with Go's precedences: shifts and [&] bind as
    multiplication does, [|] and [^] as addition does. *)
Infix "<<" := Z.shiftl (at level 40, left associativity) : go_scope.
Infix ">>" := Z.shiftr (at level 40, left associativity) : go_scope.
Infix ".&" := Z.land (at level 40, left associativity) : go_scope.
Infix ".|" := Z.lor (at level 50, left associativity) : go_scope.
Infix ".^" := Z.lxor (at level 50, left associativity) : go_scope.

(** A Go loop over local variables of type [A]: the body either goes on with
    new local variables ([continue]) or leaves the loop with a result
    ([break]). *)
Definition continue {S A B} (a : A) : M S (A + B) := mret (inl a).
Definition break {S A B} (b : B) : M S (A + B) := mret (inr b).

Fixpoint loop {S A B} (fuel : nat) (body : A -> M S (A + B)) (a : A) : M S B :=
  match fuel with
  | O => mnofuel
  | S n =>
      r <- body a ;;
      match r with
      | inl a' => loop n body a'
      | inr b => mret b
      end
  end.

(** ** Total-correctness reasoning

    [wp m Q s]: started in [s], [m] returns without a panic and within its
    fuel, and [Q] holds of the result and the final store. *)

Definition wp {S A} (m : M S A) (Q : A -> S -> Prop) (s : S) : Prop :=
  match m s with
  | Done (a, s') => Q a s'
  | Panic _ | NoFuel => False
  end.

Section WP.
Context {S : Type}.

Lemma wp_elim {A} (m : M S A) Q s :
  wp m Q s -> exists a s', m s = Done (a, s') /\ Q a s'.
Proof. unfold wp. destruct (m s) as [[a s']| |]; naive_solver. Qed.

Lemma wp_intro {A} (m : M S A) (Q : A -> S -> Prop) s a s' :
  m s = Done (a, s') -> Q a s' -> wp m Q s.
Proof. unfold wp. by intros ->. Qed.

Lemma wp_mono {A} (m : M S A) (Q Q' : A -> S -> Prop) s :
  wp m Q s -> (forall a s', Q a s' -> Q' a s') -> wp m Q' s.
Proof. unfold wp. destruct (m s) as [[a s']| |]; naive_solver. Qed.

Lemma wp_ret {A} (a : A) (Q : A -> S -> Prop) s : Q a s -> wp (mret a) Q s.
Proof. done. Qed.

Lemma wp_bind {A B} (m : M S A) (k : A -> M S B) Q s :
  wp m (fun a s' => wp (k a) Q s') s -> wp (mbind m k) Q s.
Proof. unfold wp, mbind. by destruct (m s) as [[a s']| |]. Qed.

(** A call is replaced by its specification, framed by what the caller
    still has to show. *)
Lemma wp_call {A B} (m : M S A) (k : A -> M S B) P Q s :
  wp m P s -> (forall a s', P a s' -> wp (k a) Q s') -> wp (mbind m k) Q s.
Proof. intros Hm Hk. apply wp_bind. by eapply wp_mono. Qed.

Lemma wp_assoc {A B C} (m : M S A) (f : A -> M S B) (k : B -> M S C) Q s :
  wp (mbind (mbind m f) k) Q s -> wp (mbind m (fun x => mbind (f x) k)) Q s.
Proof. unfold wp, mbind. by destruct (m s) as [[a s']| |]. Qed.

Lemma wp_continue {A B} (a : A) (Q : A + B -> S -> Prop) s :
  Q (inl a) s -> wp (continue a) Q s.
Proof. done. Qed.

Lemma wp_break {A B} (b : B) (Q : A + B -> S -> Prop) s :
  Q (inr b) s -> wp (break b) Q s.
Proof. done. Qed.

Lemma wp_get Q s : Q s s -> wp (mget : M S S) Q s.
Proof. done. Qed.
Lemma wp_put (Q : unit -> S -> Prop) s s' : Q tt s' -> wp (mput s') Q s.
Proof. done. Qed.
Lemma wp_gets {A} (f : S -> A) (Q : A -> S -> Prop) s :
  Q (f s) s -> wp (mgets f) Q s.
Proof. done. Qed.
Lemma wp_modify f (Q : unit -> S -> Prop) s : Q tt (f s) -> wp (mmodify f) Q s.
Proof. done. Qed.

(** The loop rule: an invariant [I] over local variables and store, and a
    measure that each continuing iteration decreases. *)
Lemma wp_loop {A B} (I : A -> S -> Prop) (m : A -> nat) fuel
    (body : A -> M S (A + B)) (Q : B -> S -> Prop) a s :
  I a s -> (m a < fuel)%nat ->
  (forall a s, I a s ->
     wp (body a)
        (fun r s' => match r with
                     | inl a' => I a' s' /\ (m a' < m a)%nat
                     | inr b => Q b s'
                     end) s) ->
  wp (loop fuel body a) Q s.
Proof.
  intros HI Hm Hbody. revert a s HI Hm.
  induction fuel as [|fuel IH]; intros a s HI Hm; [lia|]; cbn [loop].
  eapply wp_call; [by apply Hbody|]. intros [a'|b] s'; [|done].
  intros [HI' Hm']. apply IH; [done|lia].
Qed.

(** One iteration of a loop, for proofs by induction on the fuel. *)
Lemma wp_loop_S {A B} fuel (body : A -> M S (A + B)) (Q : B -> S -> Prop) a s :
  wp (body a)
     (fun r s' => match r with inl a' => wp (loop fuel body a') Q s' | inr b => Q b s' end) s ->
  wp (loop (Datatypes.S fuel) body a) Q s.
Proof. intros H. cbn [loop]. eapply wp_call; [exact H|]. by intros [a'|b] s'. Qed.

(** More fuel never changes an outcome that did not run out of fuel. *)
Lemma loop_fuel_mono {A B} (body : A -> M S (A + B)) n n' a s r :
  loop n body a s = Done r -> (n <= n')%nat -> loop n' body a s = Done r.
Proof.
  revert n' a s. induction n as [|n IH]; intros [|n'] a s; try done; [lia|].
  cbn [loop]. unfold mbind. destruct (body a s) as [[[a'|b] s']| |]; try done.
  intros H Hle. eapply IH; [done|lia].
Qed.
End WP.

Create HintDb wp.
#[export] Hint Resolve wp_ret wp_continue wp_break wp_get wp_put wp_gets wp_modify : wp.

(** [wp_step] runs one administrative step of a computation; [wp_go] runs all
    of them and the conditionals, naming the outcome of each test. *)
Ltac wp_step :=
  lazymatch goal with
  | |- wp (mbind _ _) _ _ => apply wp_bind
  | |- wp (mret _) _ _ => apply wp_ret
  | |- wp (continue _) _ _ => apply wp_continue
  | |- wp (break _) _ _ => apply wp_break
  | |- wp mget _ _ => apply wp_get
  | |- wp (mput _) _ _ => apply wp_put
  | |- wp (mgets _) _ _ => apply wp_gets
  | |- wp (mmodify _) _ _ => apply wp_modify
  | |- wp (if ?b then _ else _) _ _ => let E := fresh "E" in destruct b eqn:E
  | |- wp (match ?x with _ => _ end) _ _ => let E := fresh "E" in destruct x eqn:E
  | |- wp (let _ := _ in _) _ _ => cbv zeta
  end.
Ltac wp_steps := repeat (wp_step; cbv beta iota).

(** Boolean tests of the code as the propositions they decide. *)
Ltac reflect :=
  repeat match goal with
  | H : _ && _ = true |- _ => apply andb_prop in H; destruct H
  | H : _ && _ = false |- _ => apply andb_false_iff in H
  | H : _ || _ = false |- _ => apply orb_false_iff in H; destruct H
  | H : _ || _ = true |- _ => apply orb_true_iff in H
  | H : negb _ = true |- _ => apply negb_true_iff in H
  | H : negb _ = false |- _ => apply negb_false_iff in H
  | H : (_ =? _) = true |- _ => apply Z.eqb_eq in H
  | H : (_ =? _) = false |- _ => apply Z.eqb_neq in H
  | H : (_ <? _) = true |- _ => apply Z.ltb_lt in H
  | H : (_ <? _) = false |- _ => apply Z.ltb_ge in H
  | H : (_ <=? _) = true |- _ => apply Z.leb_le in H
  | H : (_ <=? _) = false |- _ => apply Z.leb_gt in H
  | H : (_ >? _) = true |- _ => rewrite Z.gtb_ltb in H
  | H : (_ >? _) = false |- _ => rewrite Z.gtb_ltb in H
  | H : (_ >=? _) = true |- _ => rewrite Z.geb_leb in H
  | H : (_ >=? _) = false |- _ => rewrite Z.geb_leb in H
  end.

(** ** Go's truncated division on [int] *)
Definition quot (a b : Z) : Z := Z.quot a b.

Lemma quot_2 a : 0 <= a -> quot a 2 = a / 2.
Proof. intros. apply Z.quot_div_nonneg; lia. Qed.

(** ** Finite case analysis and bits *)

(** A decidable statement about all integers below a literal bound is checked
    by evaluation. *)
Lemma forall_below (n : Z) (f : Z -> bool) :
  forallb f (seqZ 0 n) = true -> forall x, 0 <= x < n -> f x = true.
Proof.
  intros H x Hx. rewrite forallb_forall in H. apply H.
  apply list_elem_of_In, elem_of_seqZ. lia.
Qed.

Lemma bits_above (n x i : Z) : 0 <= x < 2 ^ n -> n <= i -> Z.testbit x i = false.
Proof.
  intros Hx Hi. destruct (Z.ltb_spec i 0); [by apply Z.testbit_neg_r|].
  destruct (decide (x = 0)) as [->|]; [apply Z.bits_0|].
  apply Z.bits_above_log2; [lia|]. eapply Z.lt_le_trans; [|exact Hi].
  apply Z.log2_lt_pow2; lia.
Qed.

(** A number all of whose bits from [n] on are clear is below [2 ^ n]. *)
Lemma bits_bound (n x : Z) :
  0 <= n -> 0 <= x -> (forall i, n <= i -> Z.testbit x i = false) -> x < 2 ^ n.
Proof.
  intros Hn Hx H. destruct (decide (x = 0)) as [->|]; [lia|].
  apply Z.log2_lt_pow2; [lia|]. destruct (Z.ltb_spec (Z.log2 x) n); [done|].
  specialize (H (Z.log2 x) ltac:(lia)). rewrite Z.bit_log2 in H by lia. done.
Qed.

Lemma land_bound (n x y : Z) : 0 <= n -> 0 <= x < 2 ^ n -> 0 <= x .& y < 2 ^ n.
Proof.
  intros Hn Hx. assert (0 <= x .& y) by (apply Z.land_nonneg; lia). split; [done|].
  apply bits_bound; [done..|]. intros i Hi.
  rewrite Z.land_spec, (bits_above n x i) by done. done.
Qed.

Lemma lor_bound (n x y : Z) :
  0 <= n -> 0 <= x < 2 ^ n -> 0 <= y < 2 ^ n -> 0 <= x .| y < 2 ^ n.
Proof.
  intros Hn Hx Hy. assert (0 <= x .| y) by (apply Z.lor_nonneg; lia). split; [done|].
  apply bits_bound; [done..|]. intros i Hi.
  rewrite Z.lor_spec, (bits_above n x i), (bits_above n y i) by done. done.
Qed.

Lemma lxor_bound (n x y : Z) :
  0 <= n -> 0 <= x < 2 ^ n -> 0 <= y < 2 ^ n -> 0 <= x .^ y < 2 ^ n.
Proof.
  intros Hn Hx Hy. assert (0 <= x .^ y) by (apply Z.lxor_nonneg; lia). split; [done|].
  apply bits_bound; [done..|]. intros i Hi.
  rewrite Z.lxor_spec, (bits_above n x i), (bits_above n y i) by done. done.
Qed.

Lemma shiftr_bound (n k x : Z) : 0 <= k -> 0 <= x < 2 ^ (n + k) -> 0 <= n -> 0 <= x >> k < 2 ^ n.
Proof.
  intros Hk Hx Hn. rewrite Z.shiftr_div_pow2 by done. rewrite Z.pow_add_r in Hx by lia.
  split; [apply Z.div_pos; lia|]. apply Z.div_lt_upper_bound; lia.
Qed.

(** Linear arithmetic with divisions and remainders by literals. *)
Ltac divlia := Z.to_euclidean_division_equations; lia.
