(* ===== verification/Slice.v ===== *)
(** * Go slices as mutable arrays

    A slice held by a computation is its list of elements; indices are Go
    [int]s.  Reads and writes out of range panic, as in Go.  The second half is
    the vocabulary of the array algorithms: permutations framed by an index
    range ([rperm]), predicates on a range ([range_all]) and sorted ranges. *)

From S2P Require Import Prelude.

Section Slice.
Context {A : Type}.
Implicit Types (l : list A) (i j a b : Z) (x y : A).

Definition zlen l : Z := Z.of_nat (length l).

(** [at_ l i] is [l[i]], when the index is in range. *)
Definition at_ l i : option A := if 0 <=? i then l !! Z.to_nat i else None.
Definition upd l i x : list A := <[Z.to_nat i := x]> l.

Definition load i : M (list A) A :=
  fun l => match at_ l i with
           | Some x => Done (x, l)
           | None => Panic IndexOutOfRange
           end.
Definition store i x : M (list A) unit :=
  fun l => if (0 <=? i) && (i <? zlen l) then Done (tt, upd l i x)
           else Panic IndexOutOfRange.
(** [data[i], data[j] = data[j], data[i]] *)
Definition swap i j : M (list A) unit :=
  x <- load j ;;
  y <- load i ;;
  store i x ;;
  store j y.

Lemma zlen_nonneg l : 0 <= zlen l.
Proof. unfold zlen. lia. Qed.

Lemma at_range l i x : at_ l i = Some x -> 0 <= i < zlen l.
Proof.
  unfold at_, zlen. destruct (Z.leb_spec 0 i); [|done].
  intros ?%lookup_lt_Some. lia.
Qed.

Lemma at_lookup l i : 0 <= i -> at_ l i = l !! Z.to_nat i.
Proof. unfold at_. intros. by destruct (Z.leb_spec 0 i); [|lia]. Qed.

Lemma at_None l i : ~ (0 <= i < zlen l) -> at_ l i = None.
Proof. intros Hi. destruct (at_ l i) eqn:E; [|done]. by apply at_range in E. Qed.

Lemma at_ex l i : 0 <= i < zlen l -> exists x, at_ l i = Some x.
Proof.
  unfold zlen. intros. rewrite at_lookup by lia. apply lookup_lt_is_Some. lia.
Qed.

Lemma zlen_upd l i x : zlen (upd l i x) = zlen l.
Proof. unfold zlen, upd. by rewrite length_insert. Qed.

Lemma at_upd l i x j :
  0 <= i < zlen l -> at_ (upd l i x) j = if decide (i = j) then Some x else at_ l j.
Proof.
  unfold at_, upd, zlen. intros Hi. destruct (Z.leb_spec 0 j); case_decide; try lia; subst.
  - apply list_lookup_insert_eq. lia.
  - apply list_lookup_insert_ne. lia.
  - done.
Qed.

Lemma at_ext l l' : (forall i, at_ l i = at_ l' i) -> l = l'.
Proof.
  intros H. apply list_eq. intros i. specialize (H (Z.of_nat i)).
  rewrite !at_lookup, !Nat2Z.id in H by lia. done.
Qed.

Lemma at_elem_of l i x : at_ l i = Some x -> x ∈ l.
Proof.
  intros H. pose proof (at_range _ _ _ H). rewrite at_lookup in H by lia.
  by eapply list_elem_of_lookup_2.
Qed.

Lemma elem_of_at l x : x ∈ l -> exists i, at_ l i = Some x.
Proof.
  intros [i H]%list_elem_of_lookup_1. exists (Z.of_nat i).
  rewrite at_lookup by lia. by rewrite Nat2Z.id.
Qed.

Lemma at_app_l l1 l2 i : i < zlen l1 -> at_ (l1 ++ l2) i = at_ l1 i.
Proof.
  unfold at_, zlen. destruct (Z.leb_spec 0 i); [|done]. intros.
  apply lookup_app_l. lia.
Qed.
Lemma at_app_r l1 l2 i : zlen l1 <= i -> at_ (l1 ++ l2) i = at_ l2 (i - zlen l1).
Proof.
  unfold at_, zlen. intros. destruct (Z.leb_spec 0 i); [|lia].
  destruct (Z.leb_spec 0 (i - Z.of_nat (length l1))); [|lia].
  rewrite lookup_app_r by lia. f_equal. lia.
Qed.
Lemma zlen_app l1 l2 : zlen (l1 ++ l2) = zlen l1 + zlen l2.
Proof. unfold zlen. rewrite length_app. lia. Qed.
Lemma zlen_perm l l' : l ≡ₚ l' -> zlen l = zlen l'.
Proof. unfold zlen. by intros ->%Permutation_length. Qed.

Lemma zlen_cons x l : zlen (x :: l) = zlen l + 1.
Proof. unfold zlen. cbn. lia. Qed.
Lemma zlen_nil : zlen (@nil A) = 0.
Proof. done. Qed.

(** *** Specifications of the memory operations *)

Lemma wp_load i (Q : A -> list A -> Prop) l :
  0 <= i < zlen l -> (forall x, at_ l i = Some x -> Q x l) -> wp (load i) Q l.
Proof. intros [x Hx]%at_ex HQ. unfold wp, load. rewrite Hx. by apply HQ. Qed.

Lemma wp_store i x (Q : unit -> list A -> Prop) l :
  0 <= i < zlen l -> Q tt (upd l i x) -> wp (store i x) Q l.
Proof.
  intros Hi HQ. unfold wp, store.
  destruct (Z.leb_spec 0 i), (Z.ltb_spec i (zlen l)); cbn; try lia; done.
Qed.

(** The effect of a swap, as a list. *)
Definition swapped l i j : list A :=
  match at_ l i, at_ l j with
  | Some x, Some y => upd (upd l i y) j x
  | _, _ => l
  end.

Lemma wp_swap i j (Q : unit -> list A -> Prop) l :
  0 <= i < zlen l -> 0 <= j < zlen l -> Q tt (swapped l i j) -> wp (swap i j) Q l.
Proof.
  intros Hi Hj HQ. unfold swap. wp_steps. apply wp_load; [lia|]. intros y Hy. wp_steps.
  apply wp_load; [lia|]. intros x Hx. wp_steps. apply wp_store; [lia|]. wp_steps.
  apply wp_store; [by rewrite zlen_upd|].
  unfold swapped in HQ. by rewrite Hx, Hy in HQ.
Qed.

Lemma zlen_swapped l i j : zlen (swapped l i j) = zlen l.
Proof. unfold swapped. destruct (at_ l i), (at_ l j); rewrite ?zlen_upd; done. Qed.

Lemma at_swapped l i j k :
  0 <= i < zlen l -> 0 <= j < zlen l ->
  at_ (swapped l i j) k =
    if decide (k = j) then at_ l i else if decide (k = i) then at_ l j else at_ l k.
Proof.
  intros Hi Hj. destruct (at_ex _ _ Hi) as [x Hx], (at_ex _ _ Hj) as [y Hy].
  unfold swapped. rewrite Hx, Hy, !at_upd by (rewrite ?zlen_upd; lia).
  repeat case_decide; congruence.
Qed.

Lemma swapped_perm l i j : swapped l i j ≡ₚ l.
Proof.
  unfold swapped. destruct (at_ l i) as [x|] eqn:Hx; [|done].
  destruct (at_ l j) as [y|] eqn:Hy; [|done].
  pose proof (at_range _ _ _ Hx). pose proof (at_range _ _ _ Hy).
  rewrite at_lookup in Hx, Hy by lia. by apply Permutation_insert_swap.
Qed.

(** *** Range-framed permutations *)

Definition same_outside a b l l' : Prop :=
  forall i, ~ (a <= i < b) -> at_ l' i = at_ l i.
Definition rperm a b l l' : Prop := l' ≡ₚ l /\ same_outside a b l l'.
Definition range_all (P : A -> Prop) a b l : Prop :=
  forall i x, a <= i < b -> at_ l i = Some x -> P x.
(** [sub a b l] is the Go expression [l[a:b]]. *)
Definition sub a b l : list A :=
  take (Z.to_nat b - Z.to_nat a) (drop (Z.to_nat a) l).

Lemma sub_split a b l :
  l = take (Z.to_nat a) l ++ sub a b l ++ drop (Z.to_nat b `max` Z.to_nat a) l.
Proof.
  unfold sub. rewrite <- (take_drop (Z.to_nat a) l) at 1. f_equal.
  rewrite <- (take_drop (Z.to_nat b - Z.to_nat a) (drop (Z.to_nat a) l)) at 1.
  rewrite drop_drop. do 2 f_equal. lia.
Qed.

Lemma elem_of_sub a b l x :
  x ∈ sub a b l <-> exists i, a <= i < b /\ at_ l i = Some x.
Proof.
  unfold sub. rewrite list_elem_of_lookup. split.
  - intros [k Hk]. apply lookup_take_Some in Hk as [Hk ?].
    rewrite lookup_drop in Hk. exists (Z.of_nat (Z.to_nat a + k)).
    rewrite at_lookup, Nat2Z.id by lia. split; [lia|done].
  - intros (i & Hi & Hx). pose proof (at_range _ _ _ Hx).
    exists (Z.to_nat i - Z.to_nat a)%nat. rewrite lookup_take_lt by lia.
    rewrite lookup_drop. rewrite at_lookup in Hx by lia. rewrite <- Hx. f_equal. lia.
Qed.

Lemma range_all_sub P a b l : range_all P a b l <-> Forall P (sub a b l).
Proof.
  rewrite Forall_forall. setoid_rewrite elem_of_sub. unfold range_all. naive_solver.
Qed.

Lemma same_outside_refl a b l : same_outside a b l l.
Proof. by intros i. Qed.
Lemma same_outside_trans a b l1 l2 l3 :
  same_outside a b l1 l2 -> same_outside a b l2 l3 -> same_outside a b l1 l3.
Proof. intros H1 H2 i Hi. by rewrite H2, H1. Qed.

Lemma same_outside_take a b l l' :
  same_outside a b l l' -> take (Z.to_nat a) l' = take (Z.to_nat a) l.
Proof.
  intros H. apply list_eq. intros i. destruct (decide (i < Z.to_nat a)%nat).
  - rewrite !lookup_take_lt by lia. specialize (H (Z.of_nat i)).
    rewrite !at_lookup, !Nat2Z.id in H by lia. apply H. lia.
  - by rewrite !lookup_take_ge by lia.
Qed.
Lemma same_outside_drop a b l l' :
  same_outside a b l l' ->
  drop (Z.to_nat b `max` Z.to_nat a) l' = drop (Z.to_nat b `max` Z.to_nat a) l.
Proof.
  intros H. apply list_eq. intros i. rewrite !lookup_drop.
  specialize (H (Z.of_nat (Z.to_nat b `max` Z.to_nat a + i))).
  rewrite !at_lookup, !Nat2Z.id in H by lia. apply H. lia.
Qed.

Lemma rperm_sub a b l l' : rperm a b l l' -> sub a b l' ≡ₚ sub a b l.
Proof.
  intros [Hp Ho]. rewrite (sub_split a b l), (sub_split a b l') in Hp.
  rewrite (same_outside_take _ _ _ _ Ho), (same_outside_drop _ _ _ _ Ho) in Hp.
  apply Permutation_app_inv_l in Hp. by apply Permutation_app_inv_r in Hp.
Qed.

(** What holds of all elements of a range still does after permuting it. *)
Lemma range_all_rperm P a b l l' :
  rperm a b l l' -> range_all P a b l -> range_all P a b l'.
Proof. rewrite !range_all_sub. by intros ->%rperm_sub. Qed.

Lemma rperm_refl a b l : rperm a b l l.
Proof. split; [done|apply same_outside_refl]. Qed.
Lemma rperm_trans a b l1 l2 l3 : rperm a b l1 l2 -> rperm a b l2 l3 -> rperm a b l1 l3.
Proof.
  intros [H1 ?] [H2 ?]. split; [by rewrite H2|by eapply same_outside_trans].
Qed.
Lemma rperm_mono a b a' b' l l' :
  rperm a b l l' -> a' <= a -> b <= b' -> rperm a' b' l l'.
Proof. intros [? H] ??. split; [done|]. intros i Hi. apply H. lia. Qed.
Lemma rperm_zlen a b l l' : rperm a b l l' -> zlen l' = zlen l.
Proof. intros [H _]. by apply zlen_perm. Qed.
Lemma rperm_swapped a b l i j :
  a <= i < b -> a <= j < b -> 0 <= i < zlen l -> 0 <= j < zlen l ->
  rperm a b l (swapped l i j).
Proof.
  intros. split; [apply swapped_perm|]. intros k Hk. rewrite at_swapped by lia.
  repeat case_decide; try lia. done.
Qed.
Lemma range_all_outside P a b c d l l' :
  same_outside a b l l' -> d <= a \/ b <= c -> range_all P c d l -> range_all P c d l'.
Proof. intros Ho Hd H i x Hi Hx. apply (H i); [done|]. rewrite <- Ho; [done|lia]. Qed.
Lemma range_all_sub_range P a b a' b' l :
  range_all P a b l -> a <= a' -> b' <= b -> range_all P a' b' l.
Proof. intros H ?? i x Hi. apply H. lia. Qed.
Lemma range_all_impl (P Q : A -> Prop) a b l :
  (forall x, P x -> Q x) -> range_all P a b l -> range_all Q a b l.
Proof. intros HPQ H i x Hi Hx. by eapply HPQ, H. Qed.
End Slice.

Create HintDb slice.
Create Rewrite HintDb slice_rw.
#[export] Hint Resolve rperm_refl rperm_trans rperm_mono : slice.
#[export] Hint Rewrite @zlen_upd @zlen_swapped @zlen_app @zlen_cons @zlen_nil : slice_rw.
