(* ===== verification/Bits.v ===== *)
(** * math/bits: counting, reversing and multi-word arithmetic

    The pure Go implementations of [src/src/math/bits/bits.go] on a 64-bit
    platform ([UintSize] = 64), over the tables of [bits_tables.go].  A [uintN]
    is the [Z] it denotes; every operation whose result may leave its width is
    followed by the wrap-around of that width. *)

From S2P Require Import Prelude.

(** ** Tables *)

Definition ntz8tab : list Z :=
  [8;0;1;0;2;0;1;0;3;0;1;0;2;0;1;0;4;0;1;0;2;0;1;0;3;0;1;0;2;0;1;0;
   5;0;1;0;2;0;1;0;3;0;1;0;2;0;1;0;4;0;1;0;2;0;1;0;3;0;1;0;2;0;1;0;
   6;0;1;0;2;0;1;0;3;0;1;0;2;0;1;0;4;0;1;0;2;0;1;0;3;0;1;0;2;0;1;0;
   5;0;1;0;2;0;1;0;3;0;1;0;2;0;1;0;4;0;1;0;2;0;1;0;3;0;1;0;2;0;1;0;
   7;0;1;0;2;0;1;0;3;0;1;0;2;0;1;0;4;0;1;0;2;0;1;0;3;0;1;0;2;0;1;0;
   5;0;1;0;2;0;1;0;3;0;1;0;2;0;1;0;4;0;1;0;2;0;1;0;3;0;1;0;2;0;1;0;
   6;0;1;0;2;0;1;0;3;0;1;0;2;0;1;0;4;0;1;0;2;0;1;0;3;0;1;0;2;0;1;0;
   5;0;1;0;2;0;1;0;3;0;1;0;2;0;1;0;4;0;1;0;2;0;1;0;3;0;1;0;2;0;1;0].

Definition pop8tab : list Z :=
  [0;1;1;2;1;2;2;3;1;2;2;3;2;3;3;4;1;2;2;3;2;3;3;4;2;3;3;4;3;4;4;5;
   1;2;2;3;2;3;3;4;2;3;3;4;3;4;4;5;2;3;3;4;3;4;4;5;3;4;4;5;4;5;5;6;
   1;2;2;3;2;3;3;4;2;3;3;4;3;4;4;5;2;3;3;4;3;4;4;5;3;4;4;5;4;5;5;6;
   2;3;3;4;3;4;4;5;3;4;4;5;4;5;5;6;3;4;4;5;4;5;5;6;4;5;5;6;5;6;6;7;
   1;2;2;3;2;3;3;4;2;3;3;4;3;4;4;5;2;3;3;4;3;4;4;5;3;4;4;5;4;5;5;6;
   2;3;3;4;3;4;4;5;3;4;4;5;4;5;5;6;3;4;4;5;4;5;5;6;4;5;5;6;5;6;6;7;
   2;3;3;4;3;4;4;5;3;4;4;5;4;5;5;6;3;4;4;5;4;5;5;6;4;5;5;6;5;6;6;7;
   3;4;4;5;4;5;5;6;4;5;5;6;5;6;6;7;4;5;5;6;5;6;6;7;5;6;6;7;6;7;7;8].

Definition rev8tab : list Z :=
  [0;128;64;192;32;160;96;224;16;144;80;208;48;176;112;240;8;136;72;200;40;168;104;232;24;152;88;216;56;184;120;248;
   4;132;68;196;36;164;100;228;20;148;84;212;52;180;116;244;12;140;76;204;44;172;108;236;28;156;92;220;60;188;124;252;
   2;130;66;194;34;162;98;226;18;146;82;210;50;178;114;242;10;138;74;202;42;170;106;234;26;154;90;218;58;186;122;250;
   6;134;70;198;38;166;102;230;22;150;86;214;54;182;118;246;14;142;78;206;46;174;110;238;30;158;94;222;62;190;126;254;
   1;129;65;193;33;161;97;225;17;145;81;209;49;177;113;241;9;137;73;201;41;169;105;233;25;153;89;217;57;185;121;249;
   5;133;69;197;37;165;101;229;21;149;85;213;53;181;117;245;13;141;77;205;45;173;109;237;29;157;93;221;61;189;125;253;
   3;131;67;195;35;163;99;227;19;147;83;211;51;179;115;243;11;139;75;203;43;171;107;235;27;155;91;219;59;187;123;251;
   7;135;71;199;39;167;103;231;23;151;87;215;55;183;119;247;15;143;79;207;47;175;111;239;31;159;95;223;63;191;127;255].

Definition len8tab : list Z :=
  [0;1;2;2;3;3;3;3;4;4;4;4;4;4;4;4;5;5;5;5;5;5;5;5;5;5;5;5;5;5;5;5;
   6;6;6;6;6;6;6;6;6;6;6;6;6;6;6;6;6;6;6;6;6;6;6;6;6;6;6;6;6;6;6;6;
   7;7;7;7;7;7;7;7;7;7;7;7;7;7;7;7;7;7;7;7;7;7;7;7;7;7;7;7;7;7;7;7;
   7;7;7;7;7;7;7;7;7;7;7;7;7;7;7;7;7;7;7;7;7;7;7;7;7;7;7;7;7;7;7;7;
   8;8;8;8;8;8;8;8;8;8;8;8;8;8;8;8;8;8;8;8;8;8;8;8;8;8;8;8;8;8;8;8;
   8;8;8;8;8;8;8;8;8;8;8;8;8;8;8;8;8;8;8;8;8;8;8;8;8;8;8;8;8;8;8;8;
   8;8;8;8;8;8;8;8;8;8;8;8;8;8;8;8;8;8;8;8;8;8;8;8;8;8;8;8;8;8;8;8;
   8;8;8;8;8;8;8;8;8;8;8;8;8;8;8;8;8;8;8;8;8;8;8;8;8;8;8;8;8;8;8;8].

Definition deBruijn32tab : list Z :=
  [0; 1; 28; 2; 29; 14; 24; 3; 30; 22; 20; 15; 25; 17; 4; 8;
   31; 27; 13; 23; 21; 19; 16; 7; 26; 12; 18; 6; 11; 5; 10; 9].
Definition deBruijn32 : Z := 0x077CB531.

Definition deBruijn64tab : list Z :=
  [0; 1; 56; 2; 57; 49; 28; 3; 61; 58; 42; 50; 38; 29; 17; 4;
   62; 47; 59; 36; 45; 43; 51; 22; 53; 39; 33; 30; 24; 18; 12; 5;
   63; 55; 48; 27; 60; 41; 37; 16; 46; 35; 44; 21; 52; 32; 23; 11;
   54; 26; 40; 15; 34; 20; 31; 10; 25; 14; 19; 9; 13; 8; 7; 6].
Definition deBruijn64 : Z := 0x03f79d71b4ca8b09.

Definition m0 : Z := 0x5555555555555555.
Definition m1 : Z := 0x3333333333333333.
Definition m2 : Z := 0x0f0f0f0f0f0f0f0f.
Definition m3 : Z := 0x00ff00ff00ff00ff.
Definition m4 : Z := 0x0000ffff0000ffff.

Definition UintSize : Z := 64.

(** [tab[i]]; the indices of this file are below the lengths of the tables. *)
Definition tab (t : list Z) (i : Z) : Z := nth (Z.to_nat i) t 0.

(** ** Len and LeadingZeros *)

Definition Len8 (x : Z) : Z := tab len8tab x.
Definition Len16 (x : Z) : Z :=
  let '(x, n) := if x >=? 1 << 8 then (x >> 8, 8) else (x, 0) in
  n + tab len8tab (u8 x).
Definition Len32 (x : Z) : Z :=
  let '(x, n) := if x >=? 1 << 16 then (x >> 16, 16) else (x, 0) in
  let '(x, n) := if x >=? 1 << 8 then (x >> 8, n + 8) else (x, n) in
  n + tab len8tab (u8 x).
Definition Len64 (x : Z) : Z :=
  let '(x, n) := if x >=? 1 << 32 then (x >> 32, 32) else (x, 0) in
  let '(x, n) := if x >=? 1 << 16 then (x >> 16, n + 16) else (x, n) in
  let '(x, n) := if x >=? 1 << 8 then (x >> 8, n + 8) else (x, n) in
  n + tab len8tab (u8 x).
Definition Len (x : Z) : Z := if UintSize =? 32 then Len32 (u32 x) else Len64 (u64 x).

Definition LeadingZeros (x : Z) : Z := UintSize - Len x.
Definition LeadingZeros8 (x : Z) : Z := 8 - Len8 x.
Definition LeadingZeros16 (x : Z) : Z := 16 - Len16 x.
Definition LeadingZeros32 (x : Z) : Z := 32 - Len32 x.
Definition LeadingZeros64 (x : Z) : Z := 64 - Len64 x.

(** ** TrailingZeros *)

Definition TrailingZeros8 (x : Z) : Z := tab ntz8tab x.
Definition TrailingZeros16 (x : Z) : Z :=
  if x =? 0 then 16
  else tab deBruijn32tab (u32 (u32 (x .& u16 (- x)) * deBruijn32) >> (32 - 5)).
Definition TrailingZeros32 (x : Z) : Z :=
  if x =? 0 then 32
  else tab deBruijn32tab (u32 ((x .& u32 (- x)) * deBruijn32) >> (32 - 5)).
Definition TrailingZeros64 (x : Z) : Z :=
  if x =? 0 then 64
  else tab deBruijn64tab (u64 ((x .& u64 (- x)) * deBruijn64) >> (64 - 6)).
Definition TrailingZeros (x : Z) : Z :=
  if UintSize =? 32 then TrailingZeros32 (u32 x) else TrailingZeros64 (u64 x).

(** ** OnesCount *)

Definition OnesCount8 (x : Z) : Z := tab pop8tab x.
Definition OnesCount16 (x : Z) : Z :=
  u8 (tab pop8tab (x >> 8) + tab pop8tab (x .& 0xff)).
Definition OnesCount32 (x : Z) : Z :=
  u8 (u8 (u8 (tab pop8tab (x >> 24) + tab pop8tab (x >> 16 .& 0xff))
          + tab pop8tab (x >> 8 .& 0xff)) + tab pop8tab (x .& 0xff)).
Definition OnesCount64 (x : Z) : Z :=
  let m := 2 ^ 64 - 1 in
  let x := u64 ((x >> 1 .& (m0 .& m)) + (x .& (m0 .& m))) in
  let x := u64 ((x >> 2 .& (m1 .& m)) + (x .& (m1 .& m))) in
  let x := u64 ((x >> 4) + x) .& (m2 .& m) in
  let x := u64 (x + (x >> 8)) in
  let x := u64 (x + (x >> 16)) in
  let x := u64 (x + (x >> 32)) in
  x .& (1 << 7 - 1).
Definition OnesCount (x : Z) : Z :=
  if UintSize =? 32 then OnesCount32 (u32 x) else OnesCount64 (u64 x).

(** ** RotateLeft

    A Go shift whose count reaches the width gives zero: [x << s] wraps and
    [x >> s] of a value below [2^n] is zero. *)

Definition RotateLeft8 (x k : Z) : Z :=
  let n := 8 in let s := u64 k .& (n - 1) in u8 (x << s) .| (x >> (n - s)).
Definition RotateLeft16 (x k : Z) : Z :=
  let n := 16 in let s := u64 k .& (n - 1) in u16 (x << s) .| (x >> (n - s)).
Definition RotateLeft32 (x k : Z) : Z :=
  let n := 32 in let s := u64 k .& (n - 1) in u32 (x << s) .| (x >> (n - s)).
Definition RotateLeft64 (x k : Z) : Z :=
  let n := 64 in let s := u64 k .& (n - 1) in u64 (x << s) .| (x >> (n - s)).
Definition RotateLeft (x k : Z) : Z :=
  if UintSize =? 32 then RotateLeft32 (u32 x) k else RotateLeft64 (u64 x) k.

(** ** Reverse and ReverseBytes *)

Definition ReverseBytes16 (x : Z) : Z := x >> 8 .| u16 (x << 8).
Definition ReverseBytes32 (x : Z) : Z :=
  let m := 2 ^ 32 - 1 in
  let x := (x >> 8 .& (m3 .& m)) .| u32 ((x .& (m3 .& m)) << 8) in
  x >> 16 .| u32 (x << 16).
Definition ReverseBytes64 (x : Z) : Z :=
  let m := 2 ^ 64 - 1 in
  let x := (x >> 8 .& (m3 .& m)) .| u64 ((x .& (m3 .& m)) << 8) in
  let x := (x >> 16 .& (m4 .& m)) .| u64 ((x .& (m4 .& m)) << 16) in
  x >> 32 .| u64 (x << 32).
Definition ReverseBytes (x : Z) : Z :=
  if UintSize =? 32 then ReverseBytes32 (u32 x) else ReverseBytes64 (u64 x).

Definition Reverse8 (x : Z) : Z := tab rev8tab x.
Definition Reverse16 (x : Z) : Z :=
  tab rev8tab (x >> 8) .| u16 (tab rev8tab (x .& 0xff) << 8).
Definition Reverse32 (x : Z) : Z :=
  let m := 2 ^ 32 - 1 in
  let x := (x >> 1 .& (m0 .& m)) .| u32 ((x .& (m0 .& m)) << 1) in
  let x := (x >> 2 .& (m1 .& m)) .| u32 ((x .& (m1 .& m)) << 2) in
  let x := (x >> 4 .& (m2 .& m)) .| u32 ((x .& (m2 .& m)) << 4) in
  ReverseBytes32 x.
Definition Reverse64 (x : Z) : Z :=
  let m := 2 ^ 64 - 1 in
  let x := (x >> 1 .& (m0 .& m)) .| u64 ((x .& (m0 .& m)) << 1) in
  let x := (x >> 2 .& (m1 .& m)) .| u64 ((x .& (m1 .& m)) << 2) in
  let x := (x >> 4 .& (m2 .& m)) .| u64 ((x .& (m2 .& m)) << 4) in
  ReverseBytes64 x.
Definition Reverse (x : Z) : Z :=
  if UintSize =? 32 then Reverse32 (u32 x) else Reverse64 (u64 x).

(** ** Addition, subtraction and multiplication over two words *)

Definition Add32 (x y carry : Z) : Z * Z :=
  let sum64 := u64 (u64 (x + y) + carry) in
  (u32 sum64, u32 (sum64 >> 32)).
Definition Add64 (x y carry : Z) : Z * Z :=
  let sum := u64 (u64 (x + y) + carry) in
  (sum, ((x .& y) .| Z.ldiff (x .| y) sum) >> 63).
Definition Add (x y carry : Z) : Z * Z :=
  if UintSize =? 32 then Add32 (u32 x) (u32 y) (u32 carry)
  else Add64 (u64 x) (u64 y) (u64 carry).

(** [^x] of an unsigned [n]-bit integer. *)
Definition not32 (x : Z) : Z := u32 (Z.lnot x).
Definition not64 (x : Z) : Z := u64 (Z.lnot x).

Definition Sub32 (x y borrow : Z) : Z * Z :=
  let diff := u32 (u32 (x - y) - borrow) in
  (diff, ((not32 x .& y) .| (not32 (x .^ y) .& diff)) >> 31).
Definition Sub64 (x y borrow : Z) : Z * Z :=
  let diff := u64 (u64 (x - y) - borrow) in
  (diff, ((not64 x .& y) .| (not64 (x .^ y) .& diff)) >> 63).
Definition Sub (x y borrow : Z) : Z * Z :=
  if UintSize =? 32 then Sub32 (u32 x) (u32 y) (u32 borrow)
  else Sub64 (u64 x) (u64 y) (u64 borrow).

Definition Mul32 (x y : Z) : Z * Z :=
  let tmp := u64 (x * y) in (u32 (tmp >> 32), u32 tmp).
Definition Mul64 (x y : Z) : Z * Z :=
  let mask32 := 2 ^ 32 - 1 in
  let x0 := x .& mask32 in
  let x1 := x >> 32 in
  let y0 := y .& mask32 in
  let y1 := y >> 32 in
  let w0 := u64 (x0 * y0) in
  let t := u64 (u64 (x1 * y0) + (w0 >> 32)) in
  let w1 := t .& mask32 in
  let w2 := t >> 32 in
  let w1 := u64 (w1 + u64 (x0 * y1)) in
  let hi := u64 (u64 (u64 (x1 * y1) + w2) + (w1 >> 32)) in
  let lo := u64 (x * y) in
  (hi, lo).
Definition Mul (x y : Z) : Z * Z :=
  if UintSize =? 32 then Mul32 (u32 x) (u32 y) else Mul64 (u64 x) (u64 y).

(** ** Division of two words by one *)

(** [panic(overflowError)] *)
Definition overflowError : panic := Explicit 1.

Definition Div32 (hi lo y : Z) : outcome (Z * Z) :=
  if negb (y =? 0) && (y <=? hi) then Panic overflowError
  else
    let z := u64 (hi << 32) .| lo in
    if y =? 0 then Panic DivideByZero
    else Done (u32 (z / y), u32 (z mod y)).

(** The correction loop of [Div64], run once for each of the two digits of the
    quotient:
    [for q >= two32 || q*yn0 > two32*rhat+un { q--; rhat += yn1; if rhat >= two32 { break } }].
    It goes round at most twice, so three steps of fuel are enough. *)
Fixpoint div64_fix (fuel : nat) (yn1 yn0 un q rhat : Z) : option Z :=
  match fuel with
  | O => None
  | S n =>
      let two32 := 1 << 32 in
      if (q >=? two32) || (u64 (q * yn0) >? u64 (u64 (two32 * rhat) + un)) then
        let q := u64 (q - 1) in
        let rhat := u64 (rhat + yn1) in
        if rhat >=? two32 then Some q else div64_fix n yn1 yn0 un q rhat
      else Some q
  end.

Definition Div64 (hi lo y : Z) : outcome (Z * Z) :=
  if y =? 0 then Panic DivideByZero
  else if y <=? hi then Panic overflowError
  else if hi =? 0 then Done (lo / y, lo mod y)
  else
    let s := LeadingZeros64 y in
    let y := u64 (y << s) in
    let two32 := 1 << 32 in
    let mask32 := two32 - 1 in
    let yn1 := y >> 32 in
    let yn0 := y .& mask32 in
    let un32 := u64 (hi << s) .| (lo >> (64 - s)) in
    let un10 := u64 (lo << s) in
    let un1 := un10 >> 32 in
    let un0 := un10 .& mask32 in
    let q1 := un32 / yn1 in
    let rhat := u64 (un32 - u64 (q1 * yn1)) in
    match div64_fix 3 yn1 yn0 un1 q1 rhat with
    | None => NoFuel
    | Some q1 =>
        let un21 := u64 (u64 (u64 (un32 * two32) + un1) - u64 (q1 * y)) in
        let q0 := un21 / yn1 in
        let rhat := u64 (un21 - u64 (q0 * yn1)) in
        match div64_fix 3 yn1 yn0 un0 q0 rhat with
        | None => NoFuel
        | Some q0 =>
            Done (u64 (u64 (q1 * two32) + q0),
                  u64 (u64 (u64 (un21 * two32) + un0) - u64 (q0 * y)) >> s)
        end
    end.

Definition Div (hi lo y : Z) : outcome (Z * Z) :=
  if UintSize =? 32 then Div32 (u32 hi) (u32 lo) (u32 y)
  else Div64 (u64 hi) (u64 lo) (u64 y).

Definition Rem32 (hi lo y : Z) : outcome Z :=
  if y =? 0 then Panic DivideByZero
  else Done (u32 ((u64 (hi << 32) .| lo) mod y)).
Definition Rem64 (hi lo y : Z) : outcome Z :=
  if y =? 0 then Panic DivideByZero
  else
    match Div64 (hi mod y) lo y with
    | Done (_, rem) => Done rem
    | Panic p => Panic p
    | NoFuel => NoFuel
    end.
Definition Rem (hi lo y : Z) : outcome Z :=
  if UintSize =? 32 then
    match Rem32 (u32 hi) (u32 lo) (u32 y) with Done r => Done r | o => o end
  else Rem64 (u64 hi) (u64 lo) (u64 y).

(** * Specifications *)

(** ** Bit length *)

(** The number of binary digits of [x]. *)
Definition bitlen (x : Z) : Z := if x =? 0 then 0 else Z.log2 x + 1.

Lemma bitlen_bound x : 0 <= x -> x < 2 ^ bitlen x.
Proof.
  unfold bitlen. intros. destruct (Z.eqb_spec x 0); [subst; lia|].
  pose proof (Z.log2_spec x). unfold Z.succ in *. lia.
Qed.

Lemma bitlen_pow x : 0 < x -> 2 ^ (bitlen x - 1) <= x.
Proof.
  unfold bitlen. intros. destruct (Z.eqb_spec x 0); [lia|].
  pose proof (Z.log2_spec x). replace (Z.log2 x + 1 - 1) with (Z.log2 x) by lia. lia.
Qed.

Lemma bitlen_nonneg x : 0 <= bitlen x.
Proof. unfold bitlen. pose proof (Z.log2_nonneg x). destruct (x =? 0); lia. Qed.

Lemma bitlen_le n x : 0 <= n -> 0 <= x < 2 ^ n -> bitlen x <= n.
Proof.
  unfold bitlen. intros. destruct (Z.eqb_spec x 0); [lia|].
  assert (Z.log2 x < n) by (apply Z.log2_lt_pow2; lia). lia.
Qed.

Lemma bitlen_shiftr k x : 0 <= k -> 2 ^ k <= x -> bitlen x = k + bitlen (x >> k).
Proof.
  intros Hk Hx. assert (0 < 2 ^ k) by lia. assert (1 <= x >> k).
  { rewrite Z.shiftr_div_pow2 by lia. apply Z.div_le_lower_bound; lia. }
  unfold bitlen. destruct (Z.eqb_spec x 0), (Z.eqb_spec (x >> k) 0); try lia.
  rewrite Z.log2_shiftr by lia. pose proof (Z.log2_le_pow2 x k). lia.
Qed.

Lemma len8tab_spec x : 0 <= x < 2 ^ 8 -> tab len8tab x = bitlen x.
Proof.
  intros Hx. apply Z.eqb_eq, (forall_below 256 (fun x => tab len8tab x =? bitlen x)); [|lia].
  by vm_compute.
Qed.

(** One halving step of the [Len] functions. *)
Lemma len_step k n x y m :
  0 <= k -> 0 <= x < 2 ^ (k + k) -> (y, m) = (if x >=? 1 << k then (x >> k, n + k) else (x, n)) ->
  0 <= y < 2 ^ k /\ n + bitlen x = m + bitlen y.
Proof.
  intros Hk Hx E. rewrite Z.shiftl_1_l, Z.geb_leb in E.
  destruct (Z.leb_spec (2 ^ k) x); injection E as -> ->.
  - split; [by apply shiftr_bound|]. rewrite (bitlen_shiftr k x) by done. lia.
  - split; [lia|done].
Qed.

Lemma Len64_bitlen x : is_u64 x -> Len64 x = bitlen x.
Proof.
  unfold is_u64, Len64. intros Hx.
  destruct (if x >=? 1 << 32 then _ else _) as [x1 n1] eqn:E1.
  destruct (if x1 >=? 1 << 16 then _ else _) as [x2 n2] eqn:E2.
  destruct (if x2 >=? 1 << 8 then _ else _) as [x3 n3] eqn:E3.
  symmetry in E1, E2, E3.
  apply (len_step 32 0) in E1 as [B1 H1]; [|lia..]. apply (len_step 16) in E2 as [B2 H2]; [|lia..].
  apply (len_step 8) in E3 as [B3 H3]; [|lia..].
  rewrite len8tab_spec by (wrap; lia). wrap. lia.
Qed.

Lemma Len32_bitlen x : is_u32 x -> Len32 x = bitlen x.
Proof.
  unfold is_u32, Len32. intros Hx.
  destruct (if x >=? 1 << 16 then _ else _) as [x2 n2] eqn:E2.
  destruct (if x2 >=? 1 << 8 then _ else _) as [x3 n3] eqn:E3.
  symmetry in E2, E3. apply (len_step 16 0) in E2 as [B2 H2]; [|lia..].
  apply (len_step 8) in E3 as [B3 H3]; [|lia..].
  rewrite len8tab_spec by (wrap; lia). wrap. lia.
Qed.

Lemma Len_bitlen x : is_u64 x -> Len x = bitlen x.
Proof. intros H. unfold Len. cbn. unfold is_u64 in H. wrap. by apply Len64_bitlen. Qed.
