(* ===== verification/BitsArith.v ===== *)
(** * math/bits: multi-word arithmetic

    [Add64], [Sub64], [Mul64], [Div64] and [Rem64] compute the exact sums,
    differences, products, quotients and remainders of two-word integers. *)

From S2P Require Import Prelude.
From S2P Require Import Bits.

(** ** Masks, shifts and sign bits as arithmetic *)

Lemma land_mask n x : 0 <= n -> x .& (2 ^ n - 1) = x mod 2 ^ n.
Proof.
  intros Hn. replace (2 ^ n - 1) with (Z.ones n) by (rewrite Z.ones_equiv; lia).
  by apply Z.land_ones.
Qed.

Lemma shiftr_pow n x : 0 <= n -> x >> n = x / 2 ^ n.
Proof. apply Z.shiftr_div_pow2. Qed.
Lemma shiftl_pow n x : 0 <= n -> x << n = x * 2 ^ n.
Proof. apply Z.shiftl_mul_pow2. Qed.

(** The top bit of an [n + 1]-bit integer. *)
Lemma top_bit n x : 0 <= n -> 0 <= x < 2 ^ (n + 1) -> x >> n = Z.b2z (2 ^ n <=? x).
Proof.
  intros Hn Hx. rewrite shiftr_pow by done. rewrite Z.pow_add_r in Hx by lia.
  assert (0 < 2 ^ n) by lia. destruct (Z.leb_spec (2 ^ n) x); cbn.
  - symmetry. apply (Z.div_unique _ _ _ (x - 2 ^ n)); lia.
  - apply Z.div_small. lia.
Qed.

Lemma testbit_top n x : 0 <= n -> 0 <= x < 2 ^ (n + 1) -> Z.testbit x n = (2 ^ n <=? x).
Proof.
  intros Hn Hx. pose proof (top_bit n x Hn Hx) as H.
  pose proof (Z.shiftr_spec x n 0 ltac:(lia)) as Hs. rewrite Z.add_0_l in Hs. rewrite <- Hs, H.
  by destruct (2 ^ n <=? x).
Qed.

(** A right shift by [n] of an [n + 1]-bit integer is its bit [n]. *)
Lemma shiftr_top_testbit n x : 0 <= n -> 0 <= x < 2 ^ (n + 1) -> x >> n = Z.b2z (Z.testbit x n).
Proof. intros. by rewrite testbit_top, top_bit. Qed.

Lemma u64_add_l a b : u64 (u64 a + b) = u64 (a + b).
Proof. unfold u64. apply Zplus_mod_idemp_l. Qed.
Lemma u64_sub_l a b : u64 (u64 a - b) = u64 (a - b).
Proof. unfold u64. apply Zminus_mod_idemp_l. Qed.
Lemma u64_sub_r a b : u64 (a - u64 b) = u64 (a - b).
Proof. unfold u64. apply Zminus_mod_idemp_r. Qed.

Create Rewrite HintDb word.
#[export] Hint Rewrite u64_add_l u64_sub_l u64_sub_r : word.

(** ** Add64 and Sub64 *)

Lemma Add64_exact x y c :
  is_u64 x -> is_u64 y -> 0 <= c <= 1 ->
  let '(sum, carry) := Add64 x y c in
  is_u64 sum /\ 0 <= carry <= 1 /\ sum + 2 ^ 64 * carry = x + y + c.
Proof.
  unfold is_u64, Add64. intros Hx Hy Hc. cbv zeta. rewrite u64_add_l.
  pose proof (u64_range (x + y + c)) as Hs. set (s := u64 (x + y + c)) in *.
  rewrite (shiftr_top_testbit 63).
  - rewrite Z.lor_spec, Z.land_spec, Z.ldiff_spec, Z.lor_spec.
    rewrite !(testbit_top 63) by lia. unfold s, u64 in *.
    destruct (Z.leb_spec (2 ^ 63) x), (Z.leb_spec (2 ^ 63) y),
      (Z.leb_spec (2 ^ 63) ((x + y + c) mod 2 ^ 64)); cbn [andb orb negb Z.b2z]; divlia.
  - lia.
  - apply lor_bound; [lia|by apply land_bound|].
    rewrite Z.ldiff_land. apply land_bound; [lia|]. by apply lor_bound.
Qed.

Lemma not64_spec x i : 0 <= i < 64 -> Z.testbit (not64 x) i = negb (Z.testbit x i).
Proof.
  intros Hi. unfold not64, u64. rewrite Z.mod_pow2_bits_low by lia. apply Z.lnot_spec. lia.
Qed.
Lemma not64_range x : 0 <= not64 x < 2 ^ 64.
Proof. apply u64_range. Qed.

Lemma Sub64_exact x y b :
  is_u64 x -> is_u64 y -> 0 <= b <= 1 ->
  let '(diff, borrow) := Sub64 x y b in
  is_u64 diff /\ 0 <= borrow <= 1 /\ diff - 2 ^ 64 * borrow = x - y - b.
Proof.
  unfold is_u64, Sub64. intros Hx Hy Hc. cbv zeta. rewrite u64_sub_l.
  pose proof (u64_range (x - y - b)) as Hs. set (s := u64 (x - y - b)) in *.
  pose proof (lxor_bound 64 x y ltac:(lia) Hx Hy).
  rewrite (shiftr_top_testbit 63).
  - rewrite Z.lor_spec, !Z.land_spec, !not64_spec, Z.lxor_spec by lia.
    rewrite !(testbit_top 63) by lia. unfold s, u64 in *.
    destruct (Z.leb_spec (2 ^ 63) x), (Z.leb_spec (2 ^ 63) y),
      (Z.leb_spec (2 ^ 63) ((x - y - b) mod 2 ^ 64)); cbn [andb orb negb xorb Z.b2z]; divlia.
  - lia.
  - apply lor_bound; [lia|..]; (apply land_bound; [lia|apply not64_range]).
Qed.

(** ** Mul64 *)

Lemma Mul64_exact x y :
  is_u64 x -> is_u64 y ->
  let '(hi, lo) := Mul64 x y in is_u64 hi /\ is_u64 lo /\ hi * 2 ^ 64 + lo = x * y.
Proof.
  unfold is_u64, Mul64. intros Hx Hy. cbv zeta. rewrite !land_mask, !shiftr_pow by lia.
  set (x0 := x mod 2 ^ 32). set (x1 := x / 2 ^ 32). set (y0 := y mod 2 ^ 32). set (y1 := y / 2 ^ 32).
  assert (Ex : x = x1 * 2 ^ 32 + x0) by (unfold x0, x1; divlia).
  assert (Ey : y = y1 * 2 ^ 32 + y0) by (unfold y0, y1; divlia).
  assert (Bx0 : 0 <= x0 <= 2 ^ 32 - 1) by (unfold x0; divlia).
  assert (Bx1 : 0 <= x1 <= 2 ^ 32 - 1) by (unfold x1; divlia).
  assert (By0 : 0 <= y0 <= 2 ^ 32 - 1) by (unfold y0; divlia).
  assert (By1 : 0 <= y1 <= 2 ^ 32 - 1) by (unfold y1; divlia).
  clearbody x0 x1 y0 y1.
  assert (Exy : x * y = x1 * y1 * 2 ^ 64 + (x1 * y0 + x0 * y1) * 2 ^ 32 + x0 * y0) by (subst; ring).
  assert (P00 : 0 <= x0 * y0 <= (2 ^ 32 - 1) * (2 ^ 32 - 1)) by nia.
  assert (P01 : 0 <= x0 * y1 <= (2 ^ 32 - 1) * (2 ^ 32 - 1)) by nia.
  assert (P10 : 0 <= x1 * y0 <= (2 ^ 32 - 1) * (2 ^ 32 - 1)) by nia.
  assert (P11 : 0 <= x1 * y1 <= (2 ^ 32 - 1) * (2 ^ 32 - 1)) by nia.
  rewrite Exy. generalize dependent (x0 * y0). generalize dependent (x0 * y1).
  generalize dependent (x1 * y0). generalize dependent (x1 * y1). clear.
  intros. unfold u64. divlia.
Qed.

(** ** Div64 *)

(** The correction loop ends within its fuel with the exact digit: [B] is
    [2^32], the divisor is [yn1 * B + yn0] and normalised ([2^31 <= yn1]), and
    [un32 * B + un] is the part of the dividend the digit is computed from. *)
Lemma div64_fix_exact fuel yn1 yn0 un un32 q :
  2 ^ 31 <= yn1 < 2 ^ 32 -> 0 <= yn0 < 2 ^ 32 -> 0 <= un < 2 ^ 32 ->
  0 <= un32 < yn1 * 2 ^ 32 + yn0 ->
  0 <= q -> 0 <= un32 - q * yn1 < 2 ^ 32 ->
  un32 * 2 ^ 32 + un < (q + 1) * (yn1 * 2 ^ 32 + yn0) ->
  un32 - q * yn1 + yn1 * (Z.of_nat fuel - 1) >= 2 ^ 32 -> (0 < fuel)%nat ->
  div64_fix fuel yn1 yn0 un q (un32 - q * yn1) =
    Some ((un32 * 2 ^ 32 + un) / (yn1 * 2 ^ 32 + yn0)).
Proof.
  intros Hy1 Hy0 Hun Hu. revert q. induction fuel as [|fuel IH]; intros q Hq Hr Hup Hf Hpos; [lia|].
  cbn [div64_fix]. cbv zeta. change (1 << 32) with (2 ^ 32).
  assert (Hqm : q <= 2 ^ 32 + 1) by nia.
  assert (Bq : 0 <= q * yn0 < 2 ^ 64) by nia.
  rewrite (u64_id (q * yn0)), (u64_id (2 ^ 32 * _)), (u64_id (2 ^ 32 * _ + un)) by lia.
  destruct ((q >=? 2 ^ 32) || (q * yn0 >? 2 ^ 32 * (un32 - q * yn1) + un)) eqn:Htest.
  - assert (Hq1 : 1 <= q).
    { apply orb_true_iff in Htest as [Ht|Ht]; reflect; [lia|].
      destruct (decide (q = 0)) as [->|]; lia. }
    assert (Hnew : un32 * 2 ^ 32 + un < q * (yn1 * 2 ^ 32 + yn0)).
    { apply orb_true_iff in Htest as [Ht|Ht]; reflect; nia. }
    rewrite !u64_id by lia. replace (un32 - q * yn1 + yn1) with (un32 - (q - 1) * yn1) by lia.
    destruct (un32 - (q - 1) * yn1 >=? 2 ^ 32) eqn:Hbr; reflect.
    + f_equal. apply (Z.div_unique _ _ _ (un32 * 2 ^ 32 + un - (q - 1) * (yn1 * 2 ^ 32 + yn0))); [|lia].
      assert (q - 1 < 2 ^ 32) by nia. left. split; [|nia]. nia.
    + apply IH; [lia|lia|by replace (q - 1 + 1) with q by lia|nia|].
      destruct fuel; [nia|lia].
  - apply orb_false_iff in Htest as [Ht1 Ht2]. reflect.
    f_equal. apply (Z.div_unique _ _ _ (un32 * 2 ^ 32 + un - q * (yn1 * 2 ^ 32 + yn0))); [|lia].
    left. split; nia.
Qed.

(** The quotient digit computed from [un32 / yn1]. *)
Lemma div64_digit yn1 yn0 un un32 :
  2 ^ 31 <= yn1 < 2 ^ 32 -> 0 <= yn0 < 2 ^ 32 -> 0 <= un < 2 ^ 32 ->
  0 <= un32 < yn1 * 2 ^ 32 + yn0 ->
  let q := un32 / yn1 in
  div64_fix 3 yn1 yn0 un q (u64 (un32 - u64 (q * yn1))) =
    Some ((un32 * 2 ^ 32 + un) / (yn1 * 2 ^ 32 + yn0)).
Proof.
  intros Hy1 Hy0 Hun Hu q. assert (Hq : un32 = yn1 * q + un32 mod yn1) by (apply Z.div_mod; lia).
  pose proof (Z.mod_pos_bound un32 yn1 ltac:(lia)).
  assert (0 <= q) by (apply Z.div_pos; lia).
  rewrite (u64_id (q * yn1)), u64_id by nia.
  apply div64_fix_exact; [lia..|nia|nia|lia|lia].
Qed.

(** Long division in base [B], one digit at a time. *)
Lemma long_division B u d1 d0 y :
  0 < B -> 0 < y -> 0 <= d0 < B -> 0 <= u ->
  let r := u * B + d1 - (u * B + d1) / y * y in
  ((u * B + d1) * B + d0) / y = (u * B + d1) / y * B + (r * B + d0) / y /\
  ((u * B + d1) * B + d0) mod y = (r * B + d0) mod y.
Proof.
  intros HB Hy Hd Hu r.
  replace ((u * B + d1) * B + d0) with (r * B + d0 + (u * B + d1) / y * B * y) by (unfold r; ring).
  rewrite Z.div_add, Z.mod_add by lia. split; [lia|done].
Qed.

Lemma div_scaled u y k : 0 < k -> 0 < y -> (u * k) / (y * k) = u / y /\ (u * k) mod (y * k) = u mod y * k.
Proof.
  intros. split; [apply Z.div_mul_cancel_r; lia|]. apply Z.mul_mod_distr_r; lia.
Qed.

(** The normalisation of the divisor and of the dividend. *)
Lemma normalise_spec hi lo y :
  is_u64 hi -> is_u64 lo -> 0 < y < 2 ^ 64 -> hi < y ->
  let s := LeadingZeros64 y in
  let un32 := u64 (hi << s) .| (lo >> (64 - s)) in
  let un10 := u64 (lo << s) in
  0 <= s < 64 /\ u64 (y << s) = y * 2 ^ s /\ 2 ^ 63 <= y * 2 ^ s < 2 ^ 64 /\
  0 <= un10 < 2 ^ 64 /\ 0 <= un32 < y * 2 ^ s /\
  un32 * 2 ^ 64 + un10 = (hi * 2 ^ 64 + lo) * 2 ^ s.
Proof.
  intros Hhi Hlo Hy Hlt s un32 un10. unfold is_u64 in Hhi, Hlo.
  assert (Hbl : 0 < bitlen y <= 64).
  { split; [|apply bitlen_le; lia]. unfold bitlen. destruct (Z.eqb_spec y 0); [lia|].
    pose proof (Z.log2_nonneg y). lia. }
  assert (Hs : s = 64 - bitlen y) by (unfold s, LeadingZeros64; by rewrite Len64_bitlen by (unfold is_u64; lia)).
  pose proof (bitlen_bound y ltac:(lia)) as B1. pose proof (bitlen_pow y ltac:(lia)) as B2.
  assert (P1 : 2 ^ bitlen y * 2 ^ s = 2 ^ 64) by (rewrite <- Z.pow_add_r by lia; f_equal; lia).
  assert (P2 : 2 ^ (bitlen y - 1) * 2 ^ s = 2 ^ 63) by (rewrite <- Z.pow_add_r by lia; f_equal; lia).
  assert (P3 : 2 ^ (64 - s) * 2 ^ s = 2 ^ 64) by (rewrite <- Z.pow_add_r by lia; f_equal; lia).
  assert (P4 : 0 < 2 ^ s) by lia. assert (P5 : 0 < 2 ^ (64 - s)) by lia.
  assert (Hy1 : 2 ^ 63 <= y * 2 ^ s < 2 ^ 64) by nia.
  assert (Hhi2 : 0 <= hi * 2 ^ s < 2 ^ 64) by nia.
  assert (Hun10 : un10 = lo * 2 ^ s - lo / 2 ^ (64 - s) * 2 ^ 64).
  { unfold un10, u64. rewrite shiftl_pow by lia. rewrite Z.mod_eq by lia.
    replace (lo * 2 ^ s / 2 ^ 64) with (lo / 2 ^ (64 - s)); [lia|].
    rewrite <- P3, Z.div_mul_cancel_r by lia. done. }
  assert (Hlow : 0 <= lo / 2 ^ (64 - s) < 2 ^ s).
  { split; [apply Z.div_pos; lia|]. apply Z.div_lt_upper_bound; lia. }
  assert (Hor : un32 = hi * 2 ^ s + lo / 2 ^ (64 - s)).
  { unfold un32. rewrite shiftl_pow, shiftr_pow by lia. rewrite u64_id by lia.
    rewrite <- (Z.lxor_lor), <- Z.add_nocarry_lxor; [done|..];
    (apply Z.bits_inj'; intros i Hi; rewrite Z.land_spec, Z.bits_0;
     destruct (Z.lt_ge_cases i s);
     [rewrite Z.mul_pow2_bits_low by lia; done
     |rewrite (bits_above s (lo / 2 ^ (64 - s)) i) by lia; apply andb_false_r]). }
  split_and!; [lia|lia| |lia|lia|apply u64_range|apply u64_range|nia| |].
  - rewrite shiftl_pow by lia. apply u64_id. lia.
  - rewrite Hor. nia.
  - rewrite Hor, Hun10. lia.
Qed.

Lemma Div64_exact hi lo y :
  is_u64 hi -> is_u64 lo -> 0 < y < 2 ^ 64 -> hi < y ->
  Div64 hi lo y = Done ((hi * 2 ^ 64 + lo) / y, (hi * 2 ^ 64 + lo) mod y).
Proof.
  intros Hhi Hlo Hy Hlt. unfold Div64. unfold is_u64 in Hhi.
  destruct (Z.eqb_spec y 0); [lia|]. destruct (Z.leb_spec y hi); [lia|].
  destruct (Z.eqb_spec hi 0) as [->|]; [done|].
  pose proof (normalise_spec hi lo y Hhi Hlo Hy Hlt) as HN. cbv zeta in HN |- *.
  set (s := LeadingZeros64 y) in *. destruct HN as (Hs & -> & Hyn & Hun10 & Hun32 & Hscale).
  set (un32 := u64 (hi << s) .| (lo >> (64 - s))) in *. set (un10 := u64 (lo << s)) in *.
  set (yy := y * 2 ^ s) in *. change (1 << 32) with (2 ^ 32).
  rewrite !land_mask, !(shiftr_pow 32) by lia.
  set (yn1 := yy / 2 ^ 32). set (yn0 := yy mod 2 ^ 32).
  set (un1 := un10 / 2 ^ 32). set (un0 := un10 mod 2 ^ 32).
  assert (Eyy : yy = yn1 * 2 ^ 32 + yn0) by (unfold yn1, yn0; divlia).
  assert (Eun : un10 = un1 * 2 ^ 32 + un0) by (unfold un1, un0; divlia).
  assert (Byn : 2 ^ 31 <= yn1 < 2 ^ 32 /\ 0 <= yn0 < 2 ^ 32) by (unfold yn1, yn0; divlia).
  assert (Bun : 0 <= un1 < 2 ^ 32 /\ 0 <= un0 < 2 ^ 32) by (unfold un1, un0; divlia).
  clearbody yn1 yn0 un1 un0. rewrite div64_digit by lia. rewrite <- Eyy.
  set (N1 := un32 * 2 ^ 32 + un1). set (q1 := N1 / yy).
  assert (Hq1 : 0 <= q1 < 2 ^ 32).
  { split; [apply Z.div_pos; unfold N1; lia|]. apply Z.div_lt_upper_bound; unfold N1; nia. }
  assert (Hr1 : 0 <= N1 - q1 * yy < yy).
  { unfold q1. pose proof (Z.div_mod N1 yy). pose proof (Z.mod_pos_bound N1 yy). lia. }
  rewrite u64_add_l, u64_sub_l, u64_sub_r, (u64_id (un32 * 2 ^ 32 + un1 - q1 * yy)) by (fold N1; lia).
  fold N1. set (un21 := N1 - q1 * yy) in *.
  rewrite div64_digit by lia. rewrite <- Eyy. set (N0 := un21 * 2 ^ 32 + un0). set (q0 := N0 / yy).
  assert (Hq0 : 0 <= q0 < 2 ^ 32).
  { split; [apply Z.div_pos; unfold N0; lia|]. apply Z.div_lt_upper_bound; unfold N0; nia. }
  assert (Hr0 : 0 <= N0 - q0 * yy < yy).
  { unfold q0. pose proof (Z.div_mod N0 yy). pose proof (Z.mod_pos_bound N0 yy). lia. }
  rewrite u64_add_l, (u64_id (q1 * 2 ^ 32 + q0)) by nia.
  rewrite u64_add_l, u64_sub_l, u64_sub_r, (u64_id (un21 * 2 ^ 32 + un0 - q0 * yy)) by (fold N0; lia).
  fold N0.
  pose proof (long_division (2 ^ 32) un32 un1 un0 yy ltac:(lia) ltac:(lia) ltac:(lia) ltac:(lia)) as [HD HM].
  cbv zeta in HD, HM. fold N1 in HD, HM. fold q1 in HD, HM. fold un21 in HD, HM. fold N0 q0 in HD, HM.
  replace (N1 * 2 ^ 32 + un0) with ((hi * 2 ^ 64 + lo) * 2 ^ s) in HD, HM by (unfold N1; lia).
  destruct (div_scaled (hi * 2 ^ 64 + lo) y (2 ^ s)) as [SD SM]; [lia..|].
  unfold yy in HD, HM. rewrite SD in HD. rewrite SM in HM. fold yy in HD, HM. rewrite HD.
  do 2 f_equal. rewrite shiftr_pow by lia.
  replace (N0 - q0 * yy) with (N0 mod yy) by (rewrite Z.mod_eq by lia; unfold q0; lia).
  rewrite <- HM. apply Z.div_mul. lia.
Qed.

(** ** Theorems *)

(** C11: [Div64] divides 128 bits by 64 exactly: it panics with a division by
    zero for [y = 0], with an overflow when the quotient needs more than 64
    bits ([y <= hi]), and otherwise returns quotient and remainder; the
    correction loop never runs out of its three rounds.  [Rem64] returns the
    remainder in the overflow case too.  [Div] and [Rem], of the 64-bit [uint], are
    these functions. *)
Theorem Div64_Rem64_correct hi lo y (Hhi : is_u64 hi) (Hlo : is_u64 lo) (Hy : is_u64 y) :
  Div64 hi lo y =
    (if decide (y = 0) then Panic DivideByZero
     else if decide (y <= hi) then Panic overflowError
     else Done ((hi * 2 ^ 64 + lo) / y, (hi * 2 ^ 64 + lo) mod y)) /\
  Rem64 hi lo y =
    (if decide (y = 0) then Panic DivideByZero else Done ((hi * 2 ^ 64 + lo) mod y)) /\
  Div hi lo y = Div64 hi lo y /\ Rem hi lo y = Rem64 hi lo y.
Proof.
  unfold is_u64 in *. split; [|split; [|by unfold Div, Rem; cbn [Z.eqb UintSize]; wrap]]; [|unfold Rem64].
  - case_decide; [by subst|]. case_decide.
    + unfold Div64. destruct (Z.eqb_spec y 0); [lia|]. by destruct (Z.leb_spec y hi); [|lia].
    + apply Div64_exact; unfold is_u64; lia.
  - case_decide; [by subst|]. destruct (Z.eqb_spec y 0); [lia|].
    pose proof (Z.mod_pos_bound hi y ltac:(lia)).
    rewrite Div64_exact by (unfold is_u64; lia). f_equal.
    rewrite Z.add_mod, (Z.mul_mod (hi mod y)), Z.mod_mod, <- Z.mul_mod, <- Z.add_mod by lia. done.
Qed.

Lemma Div64_Rem64_correct_witness :
  Div64 (2 ^ 63) 12345 (2 ^ 64 - 5) = Done (9223372036854775810, 9223372036854788163) /\
  (Div64 (2 ^ 63) 12345 (2 ^ 64 - 5) =
    (if decide (2 ^ 64 - 5 = 0) then Panic DivideByZero
     else if decide (2 ^ 64 - 5 <= 2 ^ 63) then Panic overflowError
     else Done ((2 ^ 63 * 2 ^ 64 + 12345) / (2 ^ 64 - 5), (2 ^ 63 * 2 ^ 64 + 12345) mod (2 ^ 64 - 5))) /\
   Rem64 (2 ^ 63) 12345 (2 ^ 64 - 5) =
    (if decide (2 ^ 64 - 5 = 0) then Panic DivideByZero
     else Done ((2 ^ 63 * 2 ^ 64 + 12345) mod (2 ^ 64 - 5)))).
Proof.
  split; [vm_compute; reflexivity|].
  destruct (Div64_Rem64_correct (2 ^ 63) 12345 (2 ^ 64 - 5)) as (H1 & H2 & _); [unfold is_u64; lia..|]. exact (conj H1 H2).
Defined.

(** ** The 32-bit versions *)

Lemma Add32_exact x y c :
  is_u32 x -> is_u32 y -> 0 <= c <= 1 ->
  let '(sum, carry) := Add32 x y c in
  is_u32 sum /\ 0 <= carry <= 1 /\ sum + 2 ^ 32 * carry = x + y + c.
Proof.
  unfold is_u32, Add32. intros Hx Hy Hc. cbv zeta. rewrite shiftr_pow by lia.
  unfold u32, u64. divlia.
Qed.

Lemma Sub32_exact x y b :
  is_u32 x -> is_u32 y -> 0 <= b <= 1 ->
  let '(diff, borrow) := Sub32 x y b in
  is_u32 diff /\ 0 <= borrow <= 1 /\ diff - 2 ^ 32 * borrow = x - y - b.
Proof.
  unfold is_u32, Sub32. intros Hx Hy Hc. cbv zeta.
  replace (u32 (u32 (x - y) - b)) with (u32 (x - y - b)) by (unfold u32; by rewrite Zminus_mod_idemp_l).
  pose proof (u32_range (x - y - b)) as Hs. set (s := u32 (x - y - b)) in *.
  assert (N : forall z, Z.testbit (not32 z) 31 = negb (Z.testbit z 31)).
  { intros z. unfold not32, u32. rewrite Z.mod_pow2_bits_low by lia. apply Z.lnot_spec. lia. }
  rewrite (shiftr_top_testbit 31).
  - rewrite Z.lor_spec, !Z.land_spec, !N, Z.lxor_spec.
    rewrite !(testbit_top 31) by lia. unfold s, u32 in *.
    destruct (Z.leb_spec (2 ^ 31) x), (Z.leb_spec (2 ^ 31) y),
      (Z.leb_spec (2 ^ 31) ((x - y - b) mod 2 ^ 32)); cbn [andb orb negb xorb Z.b2z]; divlia.
  - lia.
  - apply lor_bound; [lia|..]; (apply land_bound; [lia|apply u32_range]).
Qed.

(** [uint64(hi)<<32 | uint64(lo)] is the two-word number. *)
Lemma lor_words hi lo : is_u32 hi -> is_u32 lo -> u64 (hi << 32) .| lo = hi * 2 ^ 32 + lo.
Proof.
  unfold is_u32. intros Hhi Hlo. rewrite shiftl_pow by lia. wrap.
  assert (L : hi * 2 ^ 32 .& lo = 0).
  { apply Z.bits_inj'. intros i Hi. rewrite Z.land_spec, Z.bits_0. destruct (Z.lt_ge_cases i 32).
    - by rewrite Z.mul_pow2_bits_low.
    - rewrite (bits_above 32 lo i) by lia. apply andb_false_r. }
  by rewrite <- Z.lxor_lor, <- Z.add_nocarry_lxor.
Qed.

(** C12: the multi-word operations are exact.  [Add64], [Sub64] and [Mul64]: the
    carry, the borrow and the high word account for everything the 64-bit result wraps
    away; [Add], [Sub] and [Mul], of the 64-bit [uint], are these functions.  [Add32],
    [Sub32] and [Mul32] likewise; [Div32] panics exactly for a zero divisor or
    an overflowing quotient and otherwise divides the two-word number, and
    [Rem32] is its remainder. *)
Theorem multiword_exact x y z c (Hc : 0 <= c <= 1) :
  (is_u64 x -> is_u64 y ->
   (let '(sum, carry) := Add64 x y c in
    is_u64 sum /\ 0 <= carry <= 1 /\ sum + 2 ^ 64 * carry = x + y + c) /\
   (let '(diff, borrow) := Sub64 x y c in
    is_u64 diff /\ 0 <= borrow <= 1 /\ diff - 2 ^ 64 * borrow = x - y - c) /\
   (let '(hi, lo) := Mul64 x y in
    is_u64 hi /\ is_u64 lo /\ hi * 2 ^ 64 + lo = x * y) /\
   Add x y c = Add64 x y c /\ Sub x y c = Sub64 x y c /\ Mul x y = Mul64 x y) /\
  (is_u32 x -> is_u32 y -> is_u32 z ->
   (let '(sum, carry) := Add32 x y c in
    is_u32 sum /\ 0 <= carry <= 1 /\ sum + 2 ^ 32 * carry = x + y + c) /\
   (let '(diff, borrow) := Sub32 x y c in
    is_u32 diff /\ 0 <= borrow <= 1 /\ diff - 2 ^ 32 * borrow = x - y - c) /\
   (let '(hi, lo) := Mul32 x y in is_u32 hi /\ is_u32 lo /\ hi * 2 ^ 32 + lo = x * y) /\
   Div32 x y z =
     (if decide (z = 0) then Panic DivideByZero
      else if decide (z <= x) then Panic overflowError
      else Done ((x * 2 ^ 32 + y) / z, (x * 2 ^ 32 + y) mod z)) /\
   Rem32 x y z = (if decide (z = 0) then Panic DivideByZero else Done ((x * 2 ^ 32 + y) mod z))).
Proof.
  split.
  { intros Hx Hy. split_and!; [by apply Add64_exact|by apply Sub64_exact|by apply Mul64_exact|..];
      unfold is_u64, Add, Sub, Mul in *; cbn [Z.eqb UintSize]; by wrap. }
  intros Hx Hy Hz.
  split; [by apply Add32_exact|]. split; [by apply Sub32_exact|]. unfold is_u32 in *. split; [|split].
  - unfold Mul32. cbv zeta. rewrite shiftr_pow by lia. assert (x * y < 2 ^ 64) by nia.
    assert (0 <= x * y) by nia. rewrite (u64_id (x * y)) by lia. unfold u32. divlia.
  - unfold Div32. rewrite lor_words by done. cbv zeta. case_decide as Hz0; [by subst|].
    destruct (Z.eqb_spec z 0); [lia|]. case_decide; destruct (Z.leb_spec z x); try lia; [done|]. cbn [negb andb].
    pose proof (Z.mod_pos_bound (x * 2 ^ 32 + y) z ltac:(lia)).
    assert (0 <= (x * 2 ^ 32 + y) / z < 2 ^ 32) by (split; [apply Z.div_pos|apply Z.div_lt_upper_bound]; nia).
    by wrap.
  - unfold Rem32. rewrite lor_words by done. case_decide as Hz0; [by subst|].
    destruct (Z.eqb_spec z 0); [lia|]. pose proof (Z.mod_pos_bound (x * 2 ^ 32 + y) z ltac:(lia)). by wrap.
Qed.

Lemma multiword_exact_witness :
  Sub32 0 (2 ^ 32 - 1) 1 = (0, 1) /\ Div32 1 7 3 = Done (1431655767, 2) /\ Rem32 9 7 3 = Done (1) /\
  Add64 (2 ^ 64 - 1) 1 1 = (1, 1) /\
  (let '(diff, borrow) := Sub64 (2 ^ 64 - 1) 1 1 in
   is_u64 diff /\ 0 <= borrow <= 1 /\ diff - 2 ^ 64 * borrow = 2 ^ 64 - 1 - 1 - 1).
Proof.
  destruct (multiword_exact 1 7 3 1) as [_ H32]; [lia|]. destruct H32 as (_ & _ & _ & D & _); [unfold is_u32; lia..|].
  destruct (multiword_exact (2 ^ 64 - 1) 1 0 1) as [H64 _]; [lia|]. destruct H64 as (_ & H & _); [unfold is_u64; lia..|].
  split; [reflexivity|]. split; [rewrite D; reflexivity|]. split; [reflexivity|]. split; [reflexivity|exact H].
Defined.
