(* ===== verification/BitsCounting.v ===== *)
(** * math/bits: counting and reversing

    [Len64], [TrailingZeros64] (de Bruijn multiplication), [OnesCount64]
    (parallel summing), [Reverse64] and [ReverseBytes64] (swapping of bit
    blocks) against what the bits of the argument say. *)

From S2P Require Import Prelude.
From S2P Require Import Bits.
From S2P Require Import BitsArith.

(** ** Trailing zeros *)

(** Every positive integer is a power of two times an odd number. *)
Lemma odd_part x : 0 < x -> exists k q, 0 <= k /\ x = 2 ^ k * (2 * q + 1).
Proof.
  destruct x as [|p|p]; try lia. intros _. induction p as [p IH|p IH|].
  - exists 0, (Z.pos p). lia.
  - destruct IH as (k & q & Hk & E). exists (k + 1), q. split; [lia|].
    rewrite Z.pow_add_r by lia. change (Z.pos p~0) with (2 * Z.pos p). rewrite E. lia.
  - by exists 0, 0.
Qed.

Lemma odd_land_opp q : Z.land (2 * q + 1) (- (2 * q + 1)) = 1.
Proof.
  apply Z.bits_inj'. intros i Hi. rewrite Z.land_spec.
  replace (- (2 * q + 1)) with (2 * (- q - 1) + 1) by lia.
  destruct (decide (i = 0)) as [->|].
  - by rewrite !Z.testbit_odd_0.
  - rewrite (bits_above 1 1 i) by lia. replace i with (Z.succ (i - 1)) by lia.
    rewrite !Z.testbit_odd_succ by lia.
    replace (- q - 1) with (Z.lnot q) by (unfold Z.lnot; lia).
    rewrite Z.lnot_spec by lia. apply andb_negb_r.
Qed.

Lemma land_opp_pow k q : 0 <= k -> Z.land (2 ^ k * (2 * q + 1)) (- (2 ^ k * (2 * q + 1))) = 2 ^ k.
Proof.
  intros Hk. rewrite <- Z.mul_opp_r, !(Z.mul_comm (2 ^ k)), <- !Z.shiftl_mul_pow2 by done.
  rewrite <- Z.shiftl_land, odd_land_opp. apply Z.shiftl_1_l.
Qed.

(** Wrapping one operand does not change what [&] sees of a small one. *)
Lemma land_wrap n x y : 0 <= n -> 0 <= x < 2 ^ n -> x .& (y mod 2 ^ n) = x .& y.
Proof.
  intros Hn Hx. apply Z.bits_inj'. intros i Hi. rewrite !Z.land_spec.
  destruct (Z.lt_ge_cases i n).
  - by rewrite Z.mod_pow2_bits_low by lia.
  - by rewrite (bits_above n x i) by done.
Qed.

Lemma low_bit n x : 0 <= n -> 0 < x < 2 ^ n ->
  exists k q, 0 <= k < n /\ x = 2 ^ k * (2 * q + 1) /\ x .& ((- x) mod 2 ^ n) = 2 ^ k.
Proof.
  intros Hn Hx. destruct (odd_part x) as (k & q & Hk & E); [lia|]. exists k, q. split; [|split; [done|]].
  - assert (0 < 2 ^ k) by lia. assert (0 <= q) by nia. assert (2 ^ k < 2 ^ n) by nia.
    split; [done|]. apply (Z.pow_lt_mono_r_iff 2); lia.
  - rewrite land_wrap by lia. rewrite E. by apply land_opp_pow.
Qed.

Lemma deBruijn64_table k : 0 <= k < 64 -> tab deBruijn64tab (u64 (2 ^ k * deBruijn64) >> (64 - 6)) = k.
Proof.
  intros Hk. apply Z.eqb_eq.
  apply (forall_below 64 (fun k => tab deBruijn64tab (u64 (2 ^ k * deBruijn64) >> (64 - 6)) =? k)); [|done].
  by vm_compute.
Qed.
Lemma deBruijn32_table k : 0 <= k < 32 -> tab deBruijn32tab (u32 (2 ^ k * deBruijn32) >> (32 - 5)) = k.
Proof.
  intros Hk. apply Z.eqb_eq.
  apply (forall_below 32 (fun k => tab deBruijn32tab (u32 (2 ^ k * deBruijn32) >> (32 - 5)) =? k)); [|done].
  by vm_compute.
Qed.

(** [k] is the number of trailing zeros of the nonzero [x]. *)
Definition trailing_zeros (x k : Z) : Prop := 0 <= k /\ (2 ^ k | x) /\ Z.testbit x k = true.

Lemma trailing_zeros_intro k q : 0 <= k -> trailing_zeros (2 ^ k * (2 * q + 1)) k.
Proof.
  intros Hk. split; [done|]. split; [by exists (2 * q + 1); lia|].
  rewrite Z.mul_comm, Z.mul_pow2_bits by done. rewrite Z.sub_diag. apply Z.testbit_odd_0.
Qed.

Lemma TrailingZeros64_spec x : 0 < x < 2 ^ 64 -> trailing_zeros x (TrailingZeros64 x).
Proof.
  intros Hx. unfold TrailingZeros64. destruct (Z.eqb_spec x 0); [lia|].
  destruct (low_bit 64 x) as (k & q & Hk & E & L); [lia..|]. unfold u64 at 2. rewrite L.
  rewrite deBruijn64_table, E by done. apply trailing_zeros_intro. lia.
Qed.
Lemma TrailingZeros32_spec x : 0 < x < 2 ^ 32 -> trailing_zeros x (TrailingZeros32 x).
Proof.
  intros Hx. unfold TrailingZeros32. destruct (Z.eqb_spec x 0); [lia|].
  destruct (low_bit 32 x) as (k & q & Hk & E & L); [lia..|]. unfold u32 at 2. rewrite L.
  rewrite deBruijn32_table, E by done. apply trailing_zeros_intro. lia.
Qed.
Lemma TrailingZeros16_spec x : 0 < x < 2 ^ 16 -> trailing_zeros x (TrailingZeros16 x).
Proof.
  intros Hx. unfold TrailingZeros16. destruct (Z.eqb_spec x 0); [lia|].
  destruct (low_bit 16 x) as (k & q & Hk & E & L); [lia..|]. unfold u16. rewrite L.
  rewrite (u32_id (2 ^ k)).
  - rewrite deBruijn32_table, E by lia. apply trailing_zeros_intro. lia.
  - split; [lia|]. apply Z.pow_lt_mono_r; lia.
Qed.
Lemma TrailingZeros8_spec x : 0 < x < 2 ^ 8 -> trailing_zeros x (TrailingZeros8 x).
Proof.
  intros Hx. assert (H : TrailingZeros8 x = TrailingZeros16 x).
  { pose proof (forall_below 256 (fun x => (x =? 0) || (TrailingZeros8 x =? TrailingZeros16 x))
      ltac:(by vm_compute) x ltac:(lia)) as E. cbn beta in E. reflect. destruct E; reflect; lia. }
  rewrite H. apply TrailingZeros16_spec. lia.
Qed.

(** ** Population count *)

(** The number of bits set among the lowest [n]. *)
Fixpoint ones (n : nat) (x : Z) : Z :=
  match n with
  | O => 0
  | S n => Z.b2z (Z.testbit x 0) + ones n (x >> 1)
  end.

Lemma ones_app n m x : ones (n + m) x = ones n x + ones m (x >> Z.of_nat n).
Proof.
  revert x. induction n as [|n IH]; intros x; cbn [ones Nat.add].
  - by rewrite Z.shiftr_0_r.
  - rewrite IH, Z.shiftr_shiftr by lia. replace (1 + Z.of_nat n) with (Z.of_nat (S n)) by lia. lia.
Qed.

Lemma ones_low n x y : (forall i, 0 <= i < Z.of_nat n -> Z.testbit x i = Z.testbit y i) -> ones n x = ones n y.
Proof.
  revert x y. induction n as [|n IH]; intros x y H; [done|]. cbn [ones]. rewrite (H 0) by lia.
  rewrite (IH (x >> 1) (y >> 1)); [done|]. intros i Hi. rewrite !Z.shiftr_spec by lia. apply H. lia.
Qed.

(** A number by its bytes, the lowest first. *)
Fixpoint val (ds : list Z) : Z :=
  match ds with
  | [] => 0
  | d :: ds => d + 256 * val ds
  end.
Fixpoint digits (n : nat) (x : Z) : list Z :=
  match n with
  | O => []
  | S n => x mod 256 :: digits n (x / 256)
  end.

Lemma val_digits n x : 0 <= x < 256 ^ Z.of_nat n -> val (digits n x) = x.
Proof.
  revert x. induction n as [|n IH]; intros x Hx; cbn [digits val].
  - change (256 ^ Z.of_nat 0) with 1 in Hx. lia.
  - rewrite Nat2Z.inj_succ, Z.pow_succ_r in Hx by lia. rewrite IH; [|split; [apply Z.div_pos; lia|apply Z.div_lt_upper_bound; lia]].
    pose proof (Z.div_mod x 256). lia.
Qed.

Lemma digits_byte n x : Forall (fun d => 0 <= d < 256) (digits n x).
Proof. revert x. induction n as [|n IH]; intros x; constructor; [apply Z.mod_pos_bound; lia|done]. Qed.

Lemma byte_testbit d y i :
  0 <= d < 256 -> 0 <= i -> Z.testbit (d + 256 * y) i = if i <? 8 then Z.testbit d i else Z.testbit y (i - 8).
Proof.
  intros Hd Hi. destruct (Z.ltb_spec i 8).
  - rewrite <- (Z.mod_pow2_bits_low _ 8 i) by lia. f_equal. change (2 ^ 8) with 256. divlia.
  - replace i with (i - 8 + 8) at 1 by lia. rewrite <- Z.div_pow2_bits by lia. f_equal.
    change (2 ^ 8) with 256. divlia.
Qed.

Lemma byte_land d y c z :
  0 <= d < 256 -> 0 <= c < 256 -> (d + 256 * y) .& (c + 256 * z) = (d .& c) + 256 * (y .& z).
Proof.
  intros Hd Hc. apply Z.bits_inj'. intros i Hi.
  rewrite Z.land_spec, !byte_testbit by first [done | by apply (land_bound 8)].
  destruct (i <? 8); by rewrite Z.land_spec.
Qed.

(** Shifting within the bytes: the bits that come in from the next byte are
    masked out. *)
Lemma byte_shift_land k d y c z :
  0 <= k <= 8 -> 0 <= d < 256 -> 0 <= c < 2 ^ (8 - k) ->
  ((d + 256 * y) >> k) .& (c + 256 * z) = ((d >> k) .& c) + 256 * ((y >> k) .& z).
Proof.
  intros Hk Hd Hc. assert (E : 2 ^ k * 2 ^ (8 - k) = 256) by (rewrite <- Z.pow_add_r by lia; by replace (k + (8 - k)) with 8 by lia).
  assert (0 < 2 ^ k) by lia. rewrite !shiftr_pow by lia. set (p := 2 ^ k) in *. set (q := 2 ^ (8 - k)) in *.
  replace ((d + 256 * y) / p) with ((d / p + q * (y mod p)) + 256 * (y / p)).
  - assert (0 <= d / p < q) by (split; [apply Z.div_pos; lia|apply Z.div_lt_upper_bound; lia]).
    pose proof (Z.mod_pos_bound y p). rewrite byte_land by nia. f_equal.
    rewrite !(Z.land_comm _ c), <- (land_wrap (8 - k) c (_ + _)) by lia. fold q. f_equal.
    rewrite Z.mul_comm, Z.mod_add by lia. apply Z.mod_small. lia.
  - rewrite <- E. replace (d + p * q * y) with (d + q * y * p) by lia. rewrite Z.div_add by lia.
    rewrite (Z.div_mod y p) at 3 by lia. lia.
Qed.

(** The first two steps add neighbouring fields of [k] bits. *)
Lemma val_fields k c (f : Z -> Z) ds :
  0 <= k <= 8 -> 0 <= c < 2 ^ (8 - k) -> c < 256 -> Forall (fun d => 0 <= d < 256) ds ->
  (forall d, 0 <= d < 256 -> f d = ((d >> k) .& c) + (d .& c)) ->
  ((val ds >> k) .& val (replicate (length ds) c)) + (val ds .& val (replicate (length ds) c)) = val (f <$> ds).
Proof.
  intros Hk Hc Hc8 Hds Hf. induction Hds as [|d ds Hd Hds IH].
  - cbn. by rewrite Z.land_0_r.
  - cbn [val length replicate fmap list_fmap]. rewrite byte_shift_land, byte_land, Hf by lia. rewrite <- IH. lia.
Qed.

(** The third adds the nibbles, none of which exceeds 4. *)
Definition nibbles (d : Z) : Prop := 0 <= d /\ d mod 16 <= 4 /\ d / 16 <= 4.

Lemma val_nibbles ds :
  Forall nibbles ds ->
  ((val ds >> 4) + val ds) .& val (replicate (length ds) 15) = val ((fun d => d mod 16 + d / 16) <$> ds).
Proof.
  intros H. assert (Hlow : forall ds, Forall nibbles ds -> 0 <= val ds mod 16 <= 4).
  { intros ? [|d l (H1 & H2 & H3) _]; cbn [val]; divlia. }
  induction H as [|d ds (H1 & H2 & H3) Hds IH]; [done|].
  cbn [val length replicate fmap list_fmap]. rewrite <- IH. specialize (Hlow ds Hds).
  replace (_ + _) with ((d / 16 + 16 * (val ds mod 16) + d) + 256 * ((val ds >> 4) + val ds)).
  - rewrite byte_land by (clear IH Hds; divlia). f_equal.
    change 15 with (2 ^ 4 - 1). rewrite land_mask by lia. clear IH. divlia.
  - rewrite !shiftr_pow by lia. divlia.
Qed.

Lemma ones_val ds : Forall (fun d => 0 <= d < 256) ds -> ones (8 * length ds) (val ds) = foldr Z.add 0 (ones 8 <$> ds).
Proof.
  induction 1 as [|d ds Hd Hds IH]; [done|]. cbn [length val fmap list_fmap foldr].
  replace (8 * S (length ds))%nat with (8 + 8 * length ds)%nat by lia. rewrite ones_app. f_equal.
  - apply ones_low. intros i Hi. rewrite byte_testbit by lia. by destruct (Z.ltb_spec i 8); [|lia].
  - rewrite <- IH. f_equal. rewrite shiftr_pow by lia. change (2 ^ Z.of_nat 8) with 256. divlia.
Qed.

(** The three steps on one byte. *)
Definition byte_pairs (d : Z) : Z := ((d >> 1) .& 0x55) + (d .& 0x55).
Definition byte_quads (d : Z) : Z := ((d >> 2) .& 0x33) + (d .& 0x33).

Lemma byte_steps d : 0 <= d < 256 ->
  0 <= byte_pairs d < 256 /\ nibbles (byte_quads (byte_pairs d)) /\
  byte_quads (byte_pairs d) mod 16 + byte_quads (byte_pairs d) / 16 = ones 8 d /\
  0 <= byte_quads (byte_pairs d) < 256 /\ tab pop8tab d = ones 8 d /\ 0 <= ones 8 d <= 8.
Proof.
  intros Hd. unfold nibbles.
  pose proof (forall_below 256 (fun d =>
    let p := byte_pairs d in let q := byte_quads p in
    (0 <=? p) && (p <? 256) && (0 <=? q) && (q <? 256) && (q mod 16 <=? 4) && (q / 16 <=? 4)
    && (q mod 16 + q / 16 =? ones 8 d) && (tab pop8tab d =? ones 8 d) && (0 <=? ones 8 d) && (ones 8 d <=? 8))
    ltac:(by vm_compute) d Hd) as E. cbn beta zeta in E. reflect. lia.
Qed.

(** The horizontal sums of the last three steps. *)
Lemma val_shiftr d ds k : 0 <= d < 256 -> 0 <= k -> val (d :: ds) >> (8 + k) = val ds >> k.
Proof.
  intros Hd Hk. rewrite <- Z.shiftr_shiftr by lia. f_equal. rewrite shiftr_pow by lia. cbn [val].
  change (2 ^ 8) with 256. divlia.
Qed.

Ltac shift_val :=
  repeat match goal with
  | |- context [val (?d :: ?ds) >> ?k] =>
      let b := eval compute in (8 <=? k) in constr_eq b true;
      let j := eval compute in (k - 8) in change k with (8 + j); rewrite (val_shiftr d ds j) by lia
  end; rewrite ?Z.shiftr_0_r.

Lemma horizontal_sum c0 c1 c2 c3 c4 c5 c6 c7 x :
  Forall (fun c => 0 <= c <= 8) [c0;c1;c2;c3;c4;c5;c6;c7] ->
  x = val [c0;c1;c2;c3;c4;c5;c6;c7] ->
  let x := u64 (x + (x >> 8)) in
  let x := u64 (x + (x >> 16)) in
  let x := u64 (x + (x >> 32)) in
  x .& (1 << 7 - 1) = c0 + c1 + c2 + c3 + c4 + c5 + c6 + c7.
Proof.
  rewrite !Forall_cons. intros (H0 & H1 & H2 & H3 & H4 & H5 & H6 & H7 & _) ->. cbv beta zeta in *.
  assert (E1 : u64 (val [c0;c1;c2;c3;c4;c5;c6;c7] + (val [c0;c1;c2;c3;c4;c5;c6;c7] >> 8))
    = val [c0+c1;c1+c2;c2+c3;c3+c4;c4+c5;c5+c6;c6+c7;c7]).
  { shift_val. rewrite u64_id; cbn [val]; lia. }
  rewrite E1. clear E1.
  assert (E2 : u64 (val [c0+c1;c1+c2;c2+c3;c3+c4;c4+c5;c5+c6;c6+c7;c7]
                    + (val [c0+c1;c1+c2;c2+c3;c3+c4;c4+c5;c5+c6;c6+c7;c7] >> 16))
    = val [c0+c1+c2+c3;c1+c2+c3+c4;c2+c3+c4+c5;c3+c4+c5+c6;c4+c5+c6+c7;c5+c6+c7;c6+c7;c7]).
  { shift_val. rewrite u64_id; cbn [val]; lia. }
  rewrite E2. clear E2. shift_val. change (1 << 7 - 1) with (2 ^ 7 - 1). rewrite land_mask by lia.
  rewrite u64_id by (cbn [val]; lia). cbn [val].
  match goal with |- (?a + 256 * ?r + (?b + 256 * ?t)) mod _ = _ =>
    symmetry; apply (Z.mod_unique _ _ (2 * (r + t))) end; lia.
Qed.

Lemma val_bound ds : Forall (fun d => 0 <= d < 256) ds -> 0 <= val ds < 256 ^ Z.of_nat (length ds).
Proof.
  induction 1 as [|d ds Hd Hds IH]; cbn [val length]; [lia|].
  rewrite Nat2Z.inj_succ, Z.pow_succ_r by lia. lia.
Qed.

Lemma val_u64 ds : length ds = 8%nat -> Forall (fun d => 0 <= d < 256) ds -> u64 (val ds) = val ds.
Proof. intros Hl H%val_bound. apply u64_id. rewrite Hl in H. exact H. Qed.

Definition bytes8 (ds : list Z) : Prop := length ds = 8%nat /\ Forall (fun d => 0 <= d < 256) ds.

Lemma count_fields k c f ds :
  bytes8 ds -> bytes8 (f <$> ds) -> 0 <= k <= 8 -> 0 <= c < 2 ^ (8 - k) -> c < 256 ->
  (forall d, f d = ((d >> k) .& c) + (d .& c)) ->
  u64 ((val ds >> k .& val (replicate 8 c)) + (val ds .& val (replicate 8 c))) = val (f <$> ds).
Proof.
  intros [Hl Hd] [Hl' Hf] Hk Hc Hc' E. rewrite <- Hl.
  rewrite (val_fields k c f ds) by auto. by apply val_u64; [rewrite length_fmap|].
Qed.

Lemma bytes8_fmap f ds : bytes8 ds -> (forall d, 0 <= d < 256 -> 0 <= f d < 256) -> bytes8 (f <$> ds).
Proof.
  intros [Hl Hd] Hf. split; [by rewrite length_fmap|]. rewrite Forall_fmap.
  eapply Forall_impl; [exact Hd|]. intros d Hd'. by apply Hf.
Qed.

(** The first three steps leave in each byte its number of ones. *)
Lemma OnesCount64_bytes ds :
  bytes8 ds ->
  let m := 2 ^ 64 - 1 in
  let x := u64 ((val ds >> 1 .& (m0 .& m)) + (val ds .& (m0 .& m))) in
  let x := u64 ((x >> 2 .& (m1 .& m)) + (x .& (m1 .& m))) in
  u64 ((x >> 4) + x) .& (m2 .& m) = val (ones 8 <$> ds).
Proof.
  intros Hd. cbv zeta. change (m0 .& (2 ^ 64 - 1)) with (val (replicate 8 0x55)).
  change (m1 .& (2 ^ 64 - 1)) with (val (replicate 8 0x33)).
  change (m2 .& (2 ^ 64 - 1)) with (val (replicate 8 15)).
  assert (Hp : bytes8 (byte_pairs <$> ds)) by (apply bytes8_fmap; [done|intros; by apply byte_steps]).
  rewrite (count_fields 1 0x55 byte_pairs) by (done || lia).
  rewrite (count_fields 2 0x33 byte_quads); [|done| |lia..|done].
  2: { rewrite <- list_fmap_compose. apply bytes8_fmap; [done|]. intros d ?. by apply byte_steps. }
  unfold u64. rewrite Z.land_comm, (land_wrap 64); [|lia|by apply (val_bound (replicate 8 15)); repeat constructor].
  rewrite Z.land_comm. rewrite <- list_fmap_compose. destruct Hd as [Hl Hd].
  replace 8%nat with (length ((byte_quads ∘ byte_pairs) <$> ds)) at 1 by (by rewrite length_fmap).
  rewrite val_nibbles.
  - rewrite <- list_fmap_compose. f_equal. apply list_fmap_ext. intros i d Hi.
    apply byte_steps. exact (Forall_lookup_1 _ _ _ _ Hd Hi).
  - rewrite Forall_fmap. eapply Forall_impl; [exact Hd|]. intros d ?. by apply byte_steps.
Qed.

Lemma OnesCount64_ones x : is_u64 x -> OnesCount64 x = ones 64 x.
Proof.
  unfold is_u64. intros Hx. pose proof (digits_byte 8 x) as Hd.
  rewrite <- (val_digits 8 x) by (change (256 ^ Z.of_nat 8) with (2 ^ 64); lia).
  change 64%nat with (8 * length (digits 8 x))%nat. rewrite ones_val by done.
  assert (Hl : length (digits 8 x) = 8%nat) by done. revert Hd Hl. generalize (digits 8 x) as ds.
  clear x Hx. intros ds Hd Hl. unfold OnesCount64. cbv zeta. rewrite OnesCount64_bytes by done.
  do 8 (destruct ds as [|?d ds]; [done|]). destruct ds; [|done].
  rewrite (horizontal_sum (ones 8 d) (ones 8 d0) (ones 8 d1) (ones 8 d2) (ones 8 d3) (ones 8 d4) (ones 8 d5) (ones 8 d6)).
  - cbn [fmap list_fmap foldr]. lia.
  - rewrite !Forall_cons in *. repeat split; try apply byte_steps; naive_solver.
  - done.
Qed.

Lemma pop8tab_low y : tab pop8tab (y .& 0xff) = ones 8 y /\ 0 <= ones 8 y <= 8.
Proof.
  change 0xff with (2 ^ 8 - 1). rewrite land_mask by lia.
  replace (ones 8 y) with (ones 8 (y mod 2 ^ 8)).
  - apply byte_steps. apply Z.mod_pos_bound. lia.
  - apply ones_low. intros i Hi. apply Z.mod_pow2_bits_low. lia.
Qed.

Lemma land_ff_id y : 0 <= y < 2 ^ 8 -> y .& 0xff = y.
Proof. intros. change 0xff with (2 ^ 8 - 1). rewrite land_mask by lia. by apply Z.mod_small. Qed.

Lemma OnesCount32_ones x : is_u32 x -> OnesCount32 x = ones 32 x.
Proof.
  unfold is_u32. intros Hx. unfold OnesCount32. rewrite <- (land_ff_id (x >> 24)) by (apply shiftr_bound; lia).
  destruct (pop8tab_low x), (pop8tab_low (x >> 8)), (pop8tab_low (x >> 16)), (pop8tab_low (x >> 24)).
  wrap. change 32%nat with (8 + (8 + (8 + 8)))%nat.
  rewrite !ones_app, !Z.shiftr_shiftr by lia.
  change (Z.of_nat 8 + Z.of_nat 8 + Z.of_nat 8) with 24. change (Z.of_nat 8 + Z.of_nat 8) with 16.
  change (Z.of_nat 8) with 8. lia.
Qed.

Lemma OnesCount16_ones x : 0 <= x < 2 ^ 16 -> OnesCount16 x = ones 16 x.
Proof.
  intros Hx. unfold OnesCount16. rewrite <- (land_ff_id (x >> 8)) by (apply shiftr_bound; lia).
  destruct (pop8tab_low x), (pop8tab_low (x >> 8)). wrap.
  change 16%nat with (8 + 8)%nat. rewrite ones_app. change (Z.of_nat 8) with 8. lia.
Qed.

(** ** Reversal: exchanging blocks of bits *)

(** The bit of the argument that the exchange of the blocks selected by [m]
    (and their neighbours, [k] further up) moves to position [i]. *)
Definition swap_idx (k m i : Z) : Z := if Z.testbit m i then i + k else i - k.

(** [m] selects every other block of [k] bits among the lowest [w]. *)
Definition alternates (w k m : Z) : bool :=
  forallb (fun i => if Z.testbit m i then (i + k <? w) && negb ((k <=? i) && Z.testbit m (i - k))
                    else (k <=? i) && Z.testbit m (i - k)) (seqZ 0 w).

Definition swap_blocks (w k m x : Z) : Z := (x >> k .& m) .| ((x .& m) << k) mod 2 ^ w.

Lemma testbit_swap_blocks w k m x i :
  alternates w k m = true -> 0 <= k -> 0 <= i < w ->
  Z.testbit (swap_blocks w k m x) i = Z.testbit x (swap_idx k m i) /\ 0 <= swap_idx k m i < w.
Proof.
  intros Hm Hk Hi. apply (forall_below w) with (x := i) in Hm; [|done]. unfold swap_blocks, swap_idx.
  rewrite Z.lor_spec, Z.land_spec, Z.mod_pow2_bits_low, Z.shiftr_spec, Z.shiftl_spec, Z.land_spec by lia.
  destruct (Z.testbit m i); rewrite ?andb_true_r, ?andb_false_r.
  - apply andb_prop in Hm as [Hw Hn]. reflect. split; [|lia]. destruct (Z.leb_spec k i).
    + destruct Hn as [?|Hn]; [reflect; lia|]. by rewrite Hn, andb_false_r, orb_false_r.
    + by rewrite (Z.testbit_neg_r x (i - k)), orb_false_r by lia.
  - apply andb_prop in Hm as [Hw ->]. reflect. split; [|lia]. by rewrite andb_true_r.
Qed.

Lemma swap_blocks_range w k m x : 0 <= w -> 0 <= k -> 0 <= x < 2 ^ w -> 0 <= swap_blocks w k m x < 2 ^ w.
Proof.
  intros Hw Hk Hx. apply lor_bound; [done| |apply Z.mod_pos_bound; lia].
  apply land_bound; [done|]. apply shiftr_bound; [done| |done].
  split; [lia|]. eapply Z.lt_le_trans; [apply Hx|]. apply Z.pow_le_mono_r; lia.
Qed.

(** The last exchange of halves needs no mask. *)
Lemma swap_halves w k x :
  0 <= k -> w = k + k -> 0 <= x < 2 ^ w -> x >> k .| (x << k) mod 2 ^ w = swap_blocks w k (2 ^ k - 1) x.
Proof.
  intros Hk -> Hx. unfold swap_blocks. rewrite !land_mask by done. f_equal.
  - symmetry. apply Z.mod_small. by apply shiftr_bound.
  - rewrite !shiftl_pow by done. rewrite Z.pow_add_r, !Z.mul_mod_distr_r by lia.
    by rewrite Z.mod_mod by lia.
Qed.

(** Composing exchanges composes their movements of the bits. *)
Definition swap_all (w : Z) (steps : list (Z * Z)) (x : Z) : Z :=
  foldl (fun x '(k, m) => swap_blocks w k m x) x steps.
Definition swap_all_idx (steps : list (Z * Z)) (i : Z) : Z :=
  foldr (fun '(k, m) i => swap_idx k m i) i steps.
Definition swap_steps_ok (w : Z) (steps : list (Z * Z)) : bool :=
  forallb (fun '(k, m) => (0 <=? k) && alternates w k m) steps.

Lemma testbit_swap_all w steps x i :
  swap_steps_ok w steps = true -> 0 <= i < w ->
  Z.testbit (swap_all w steps x) i = Z.testbit x (swap_all_idx steps i) /\ 0 <= swap_all_idx steps i < w.
Proof.
  intros H Hi. revert x H. induction steps as [|[k m] steps IH]; intros x H; [done|].
  cbn [swap_steps_ok forallb] in H. reflect.
  destruct (IH (swap_blocks w k m x) H0) as [E R].
  destruct (testbit_swap_blocks w k m x (swap_all_idx steps i)) as [E' R']; [done|lia|done|].
  split; [|exact R']. cbn [swap_all foldl]. etrans; [exact E|exact E'].
Qed.

Definition rev64_steps : list (Z * Z) :=
  [(1, m0); (2, m1); (4, m2); (8, m3); (16, m4); (32, 2 ^ 32 - 1)].
Definition rev32_steps : list (Z * Z) :=
  [(1, m0 .& (2 ^ 32 - 1)); (2, m1 .& (2 ^ 32 - 1)); (4, m2 .& (2 ^ 32 - 1)); (8, m3 .& (2 ^ 32 - 1)); (16, 2 ^ 16 - 1)].

Lemma Reverse64_steps x : is_u64 x -> Reverse64 x = swap_all 64 rev64_steps x.
Proof.
  intros Hx. unfold Reverse64, ReverseBytes64. cbv zeta.
  change (m0 .& (2 ^ 64 - 1)) with m0. change (m1 .& (2 ^ 64 - 1)) with m1.
  change (m2 .& (2 ^ 64 - 1)) with m2. change (m3 .& (2 ^ 64 - 1)) with m3.
  change (m4 .& (2 ^ 64 - 1)) with m4. unfold u64. rewrite (swap_halves 64 32); [done|lia|done|].
  repeat (apply (swap_blocks_range 64); [lia|lia|]). exact Hx.
Qed.
Lemma Reverse32_steps x : is_u32 x -> Reverse32 x = swap_all 32 rev32_steps x.
Proof.
  intros Hx. unfold Reverse32, ReverseBytes32. cbv zeta. unfold u32. rewrite (swap_halves 32 16); [done|lia|done|].
  repeat (apply (swap_blocks_range 32); [lia|lia|]). exact Hx.
Qed.
Lemma ReverseBytes64_steps x : is_u64 x -> ReverseBytes64 x = swap_all 64 (drop 3 rev64_steps) x.
Proof.
  intros Hx. unfold ReverseBytes64. cbv zeta. change (m3 .& (2 ^ 64 - 1)) with m3.
  change (m4 .& (2 ^ 64 - 1)) with m4. unfold u64. rewrite (swap_halves 64 32); [done|lia|done|].
  repeat (apply (swap_blocks_range 64); [lia|lia|]). exact Hx.
Qed.
Lemma ReverseBytes32_steps x : is_u32 x -> ReverseBytes32 x = swap_all 32 (drop 3 rev32_steps) x.
Proof.
  intros Hx. unfold ReverseBytes32. cbv zeta. unfold u32. rewrite (swap_halves 32 16); [done|lia|done|].
  repeat (apply (swap_blocks_range 32); [lia|lia|]). exact Hx.
Qed.

(** Where the bits go, decided for every position. *)
Lemma swap_all_idx_spec w steps (f : Z -> Z) x i :
  swap_steps_ok w steps = true -> forallb (fun i => swap_all_idx steps i =? f i) (seqZ 0 w) = true ->
  0 <= i < w -> Z.testbit (swap_all w steps x) i = Z.testbit x (f i).
Proof.
  intros Hs Hf Hi. destruct (testbit_swap_all w steps x i) as [-> _]; [done..|].
  f_equal. apply Z.eqb_eq. by apply (forall_below w (fun i => swap_all_idx steps i =? f i)).
Qed.

(** ** Rotation *)
Lemma rotate_testbit w x s i :
  0 <= s < w -> 0 <= x < 2 ^ w -> 0 <= i < w ->
  Z.testbit ((x << s) mod 2 ^ w .| (x >> (w - s))) i = Z.testbit x ((i - s) mod w).
Proof.
  intros Hs Hx Hi. rewrite Z.lor_spec, Z.mod_pow2_bits_low, Z.shiftl_spec, Z.shiftr_spec by lia.
  destruct (Z.ltb_spec i s).
  - rewrite (Z.testbit_neg_r x (i - s)) by lia. cbn. f_equal. rewrite <- (Z.mod_add _ 1) by lia.
    rewrite Z.mod_small; lia.
  - rewrite (bits_above w x (i + (w - s))), orb_false_r by lia. f_equal. rewrite Z.mod_small; lia.
Qed.

Lemma rotate_count w k : 0 <= w <= 63 -> u64 k .& (2 ^ w - 1) = k mod 2 ^ w.
Proof.
  intros Hw. rewrite land_mask by lia. unfold u64. rewrite (Z.mod_eq k (2 ^ 64)) by lia.
  replace (2 ^ 64 * (k / 2 ^ 64)) with ((2 ^ (64 - w) * (k / 2 ^ 64)) * 2 ^ w).
  - rewrite Zminus_mod, Z.mod_mul, Z.sub_0_r, Z.mod_mod by lia. done.
  - rewrite <- Z.mul_assoc, (Z.mul_comm _ (2 ^ w)), Z.mul_assoc, <- Z.pow_add_r by lia.
    by replace (64 - w + w) with 64 by lia.
Qed.

Lemma RotateLeft64_testbit x k i :
  is_u64 x -> 0 <= i < 64 -> Z.testbit (RotateLeft64 x k) i = Z.testbit x ((i - k) mod 64).
Proof.
  intros Hx Hi. unfold RotateLeft64. cbv zeta. change (64 - 1) with (2 ^ 6 - 1). rewrite rotate_count by lia.
  change (2 ^ 6) with 64. pose proof (Z.mod_pos_bound k 64). unfold u64, is_u64 in *. rewrite (rotate_testbit 64) by (done || lia).
  f_equal. apply Zminus_mod_idemp_r.
Qed.
Lemma RotateLeft32_testbit x k i :
  is_u32 x -> 0 <= i < 32 -> Z.testbit (RotateLeft32 x k) i = Z.testbit x ((i - k) mod 32).
Proof.
  intros Hx Hi. unfold RotateLeft32. cbv zeta. change (32 - 1) with (2 ^ 5 - 1). rewrite rotate_count by lia.
  change (2 ^ 5) with 32. pose proof (Z.mod_pos_bound k 32). unfold u32, is_u32 in *. rewrite (rotate_testbit 32) by (done || lia).
  f_equal. apply Zminus_mod_idemp_r.
Qed.

Lemma RotateLeft16_testbit x k i :
  0 <= x < 2 ^ 16 -> 0 <= i < 16 -> Z.testbit (RotateLeft16 x k) i = Z.testbit x ((i - k) mod 16).
Proof.
  intros Hx Hi. unfold RotateLeft16. cbv zeta. change (16 - 1) with (2 ^ 4 - 1). rewrite rotate_count by lia.
  change (2 ^ 4) with 16. pose proof (Z.mod_pos_bound k 16). unfold u16. rewrite (rotate_testbit 16) by (done || lia).
  f_equal. apply Zminus_mod_idemp_r.
Qed.
Lemma RotateLeft8_testbit x k i :
  0 <= x < 2 ^ 8 -> 0 <= i < 8 -> Z.testbit (RotateLeft8 x k) i = Z.testbit x ((i - k) mod 8).
Proof.
  intros Hx Hi. unfold RotateLeft8. cbv zeta. change (8 - 1) with (2 ^ 3 - 1). rewrite rotate_count by lia.
  change (2 ^ 3) with 8. pose proof (Z.mod_pos_bound k 8). unfold u8. rewrite (rotate_testbit 8) by (done || lia).
  f_equal. apply Zminus_mod_idemp_r.
Qed.

Lemma Reverse8_testbit x i : 0 <= x < 256 -> 0 <= i < 8 -> Z.testbit (Reverse8 x) i = Z.testbit x (7 - i).
Proof.
  intros Hx Hi. apply eqb_true_iff. revert i Hi. apply forall_below.
  by apply (forall_below 256 (fun x => forallb (fun i => eqb (Z.testbit (Reverse8 x) i) (Z.testbit x (7 - i))) (seqZ 0 8)));
    [vm_compute|].
Qed.
Lemma Reverse8_range x : 0 <= x < 256 -> 0 <= Reverse8 x < 256.
Proof.
  intros Hx. pose proof (forall_below 256 (fun x => (0 <=? Reverse8 x) && (Reverse8 x <? 256)) ltac:(by vm_compute) x Hx) as E.
  cbn beta in E. reflect. lia.
Qed.

Lemma Reverse16_testbit x i :
  0 <= x < 2 ^ 16 -> 0 <= i < 16 -> Z.testbit (Reverse16 x) i = Z.testbit x (15 - i).
Proof.
  intros Hx Hi. unfold Reverse16. change (tab rev8tab) with Reverse8.
  assert (0 <= x >> 8 < 2 ^ 8) by (apply shiftr_bound; lia).
  assert (0 <= x .& 0xff < 2 ^ 8) by (rewrite Z.land_comm; apply land_bound; lia).
  unfold u16. rewrite Z.lor_spec, Z.mod_pow2_bits_low, Z.shiftl_spec by lia. destruct (Z.lt_ge_cases i 8).
  - rewrite (Z.testbit_neg_r _ (i - 8)), orb_false_r, Reverse8_testbit, Z.shiftr_spec by lia. f_equal. lia.
  - rewrite (bits_above 8 (Reverse8 _) i) by (try apply Reverse8_range; done). cbn [orb].
    rewrite Reverse8_testbit by (done || lia). change 0xff with (2 ^ 8 - 1).
    rewrite land_mask, Z.mod_pow2_bits_low by lia. f_equal. lia.
Qed.

Lemma ReverseBytes16_testbit x i :
  0 <= x < 2 ^ 16 -> 0 <= i < 16 -> Z.testbit (ReverseBytes16 x) i = Z.testbit x (8 * (1 - i / 8) + i mod 8).
Proof.
  intros Hx Hi. unfold ReverseBytes16, u16. rewrite (swap_halves 16 8) by done.
  by apply (swap_all_idx_spec 16 [(8, 2 ^ 8 - 1)] (fun i => 8 * (1 - i / 8) + i mod 8)).
Qed.

Lemma Len16_bitlen x : 0 <= x < 2 ^ 16 -> Len16 x = bitlen x.
Proof.
  unfold Len16. intros Hx. destruct (if x >=? 1 << 8 then _ else _) as [x3 n3] eqn:E3.
  symmetry in E3. apply (len_step 8 0) in E3 as [B3 H3]; [|lia..].
  rewrite len8tab_spec by (wrap; lia). wrap. lia.
Qed.

(** What the counting functions of one width promise about [x]. *)
Definition counts (w : nat) (x len lead trail pop : Z) : Prop :=
  len = bitlen x /\ lead = Z.of_nat w - bitlen x /\
  (x = 0 -> trail = Z.of_nat w) /\ (x <> 0 -> trailing_zeros x trail) /\ pop = ones w x.

Lemma all_counts x : is_u64 x ->
  counts 64 x (Len64 x) (LeadingZeros64 x) (TrailingZeros64 x) (OnesCount64 x) /\
  counts 64 x (Len x) (LeadingZeros x) (TrailingZeros x) (OnesCount x) /\
  (x < 2 ^ 32 -> counts 32 x (Len32 x) (LeadingZeros32 x) (TrailingZeros32 x) (OnesCount32 x)) /\
  (x < 2 ^ 16 -> counts 16 x (Len16 x) (LeadingZeros16 x) (TrailingZeros16 x) (OnesCount16 x)) /\
  (x < 2 ^ 8 -> counts 8 x (Len8 x) (LeadingZeros8 x) (TrailingZeros8 x) (OnesCount8 x)).
Proof.
  unfold is_u64. intros Hx.
  assert (H64 : counts 64 x (Len64 x) (LeadingZeros64 x) (TrailingZeros64 x) (OnesCount64 x)).
  { split_and!; [by apply Len64_bitlen|by unfold LeadingZeros64; rewrite Len64_bitlen| |
      intros; apply TrailingZeros64_spec; lia|by apply OnesCount64_ones]. by intros ->. }
  split; [done|]. split.
  { unfold LeadingZeros, Len, TrailingZeros, OnesCount. cbn [UintSize Z.eqb Pos.eqb]. by wrap. }
  split_and!; intros H.
  - assert (is_u32 x) by (unfold is_u32; lia). unfold counts, LeadingZeros32. rewrite Len32_bitlen, OnesCount32_ones by done.
    split_and!; [done..|by intros ->| |done]. intros. apply TrailingZeros32_spec. lia.
  - assert (0 <= x < 2 ^ 16) by lia. unfold counts, LeadingZeros16. rewrite Len16_bitlen, OnesCount16_ones by done.
    split_and!; [done..|by intros ->| |done]. intros. apply TrailingZeros16_spec. lia.
  - assert (0 <= x < 2 ^ 8) by lia. unfold counts, LeadingZeros8, Len8, OnesCount8. rewrite len8tab_spec by done.
    split_and!; [done..|by intros ->| |by apply byte_steps]. intros. apply TrailingZeros8_spec. lia.
Qed.

(** C13: for every 64-bit value, Len64, LeadingZeros64, TrailingZeros64 and
    OnesCount64 return its bit length, the number of zeros above it, the
    position of its lowest set bit (64 for zero) and the number of its set
    bits; likewise at the widths 32, 16 and 8, and for the [uint] versions.
    Bit by bit, Reverse64 and Reverse32 turn the bits of their argument
    around, ReverseBytes64 and ReverseBytes32 its bytes, and RotateLeft64 and
    RotateLeft32 rotate it by any count, negative ones to the right; likewise
    the 16- and 8-bit reversals, which look bytes up in a table, and the 16- and
    8-bit rotations.  [Reverse], [ReverseBytes] and [RotateLeft], of the 64-bit
    [uint], are the 64-bit functions. *)
Theorem bits_correct x k :
  is_u64 x ->
  counts 64 x (Len64 x) (LeadingZeros64 x) (TrailingZeros64 x) (OnesCount64 x) /\
  counts 64 x (Len x) (LeadingZeros x) (TrailingZeros x) (OnesCount x) /\
  (x < 2 ^ 32 -> counts 32 x (Len32 x) (LeadingZeros32 x) (TrailingZeros32 x) (OnesCount32 x)) /\
  (x < 2 ^ 16 -> counts 16 x (Len16 x) (LeadingZeros16 x) (TrailingZeros16 x) (OnesCount16 x)) /\
  (x < 2 ^ 8 -> counts 8 x (Len8 x) (LeadingZeros8 x) (TrailingZeros8 x) (OnesCount8 x)) /\
  (forall i, 0 <= i < 64 ->
     Z.testbit (Reverse64 x) i = Z.testbit x (63 - i) /\
     Z.testbit (ReverseBytes64 x) i = Z.testbit x (8 * (7 - i / 8) + i mod 8) /\
     Z.testbit (RotateLeft64 x k) i = Z.testbit x ((i - k) mod 64)) /\
  (x < 2 ^ 32 -> forall i, 0 <= i < 32 ->
     Z.testbit (Reverse32 x) i = Z.testbit x (31 - i) /\
     Z.testbit (ReverseBytes32 x) i = Z.testbit x (8 * (3 - i / 8) + i mod 8) /\
     Z.testbit (RotateLeft32 x k) i = Z.testbit x ((i - k) mod 32)) /\
  (x < 2 ^ 16 -> forall i, 0 <= i < 16 ->
     Z.testbit (Reverse16 x) i = Z.testbit x (15 - i) /\
     Z.testbit (ReverseBytes16 x) i = Z.testbit x (8 * (1 - i / 8) + i mod 8) /\
     Z.testbit (RotateLeft16 x k) i = Z.testbit x ((i - k) mod 16)) /\
  (x < 2 ^ 8 -> forall i, 0 <= i < 8 ->
     Z.testbit (Reverse8 x) i = Z.testbit x (7 - i) /\ Z.testbit (RotateLeft8 x k) i = Z.testbit x ((i - k) mod 8)) /\
  Reverse x = Reverse64 x /\ ReverseBytes x = ReverseBytes64 x /\ RotateLeft x k = RotateLeft64 x k.
Proof.
  intros Hx. destruct (all_counts x Hx) as (C64 & C & C32 & C16 & C8). do 5 (split; [done|]). clear C64 C C32 C16 C8.
  assert (R32 : forall i, is_u32 x -> 0 <= i < 32 ->
     Z.testbit (Reverse32 x) i = Z.testbit x (31 - i) /\
     Z.testbit (ReverseBytes32 x) i = Z.testbit x (8 * (3 - i / 8) + i mod 8)).
  { intros i H Hi. rewrite Reverse32_steps, ReverseBytes32_steps by done. split.
    - by apply (swap_all_idx_spec 32 _ (fun i => 31 - i)).
    - by apply (swap_all_idx_spec 32 _ (fun i => 8 * (3 - i / 8) + i mod 8)). }
  unfold is_u64, is_u32 in *. split_and!.
  - intros i Hi. rewrite Reverse64_steps, ReverseBytes64_steps, RotateLeft64_testbit by done. split_and!; [..|done].
    + by apply (swap_all_idx_spec 64 _ (fun i => 63 - i)).
    + by apply (swap_all_idx_spec 64 _ (fun i => 8 * (7 - i / 8) + i mod 8)).
  - intros H i Hi. rewrite RotateLeft32_testbit by (unfold is_u32; lia).
    destruct (R32 i) as [-> ->]; [lia..|done].
  - intros H i Hi. rewrite Reverse16_testbit, ReverseBytes16_testbit, RotateLeft16_testbit by lia. done.
  - intros H i Hi. rewrite Reverse8_testbit, RotateLeft8_testbit by lia. done.
  - unfold Reverse. cbn [Z.eqb UintSize]. by wrap.
  - unfold ReverseBytes. cbn [Z.eqb UintSize]. by wrap.
  - unfold RotateLeft. cbn [Z.eqb UintSize]. by wrap.
Qed.

Lemma bits_correct_witness :
  counts 64 0xb0 (Len64 0xb0) (LeadingZeros64 0xb0) (TrailingZeros64 0xb0) (OnesCount64 0xb0) /\ OnesCount8 0xb0 = 3 /\
  Z.testbit (Reverse64 5) 61 = true /\ Z.testbit (RotateLeft64 5 (-1)) 63 = true /\ Reverse8 5 = 160.
Proof.
  pose proof (bits_correct 5 (-1) ltac:(unfold is_u64; lia)) as (_ & _ & _ & _ & _ & H & _).
  split; [apply (bits_correct 0xb0 0); unfold is_u64; lia|]. split; [reflexivity|]. split; [|split; [|reflexivity]].
  - destruct (H 61 ltac:(lia)) as (-> & _). reflexivity.
  - destruct (H 63 ltac:(lia)) as (_ & _ & ->). reflexivity.
Defined.
