(* ===== verification/Pdqsort.v ===== *)
(** * slices: pattern-defeating quicksort, stable sort and binary search

    [src/src/slices/zsortanyfunc.go] and the functions of [src/src/slices/sort.go]
    that call it, over an arbitrary element type and comparison function.  A
    slice being sorted is the store of the computation; Go's [int] indices are
    integers, with their wrap-around where the code guards against it or where
    it could matter (heap children, midpoints). *)

From S2P Require Import Prelude.
From S2P Require Import Slice.
From S2P Require Import Bits.

(** [sortedHint] of sort.go. *)
Inductive sortedHint : Type := unknownHint | increasingHint | decreasingHint.

#[global] Instance sortedHint_eq_dec : EqDecision sortedHint.
Proof. solve_decision. Defined.

(** [func (r *xorshift) Next() uint64]: the new state is the result. *)
Definition xorshift_Next (r : Z) : Z :=
  let r := r .^ u64 (r << 13) in
  let r := r .^ (r >> 7) in
  r .^ u64 (r << 17).

Definition nextPowerOfTwo (length : Z) : Z := u64 (1 << Len (u64 length)).

(** [int(uint(i+j) >> 1)] *)
Definition avg (i j : Z) : Z := int64 (u64 (i + j) >> 1).

Section Pdqsort.
Context {E : Type} (cmp : E -> E -> Z).

(** [cmp(x, y) < 0] *)
Definition less (x y : E) : bool := cmp x y <? 0.
(** [cmp(data[i], data[j]) < 0] *)
Definition less_at (i j : Z) : M (list E) bool :=
  x <- load i ;;
  y <- load j ;;
  mret (less x y).

(** Fuel for a loop that crosses the range [a, b) once. *)
Definition span (a b : Z) : nat := S (Z.to_nat (b - a)).

(** The loop [for ; guard(j) && less(data[j], data[j-1]); j-- { swap }] that
    shifts one element to the left, shared by the insertion sorts.  A bound
    on the number of its rounds is the number of elements before [j]. *)
Definition shift_left (guard : Z -> bool) (j : Z) : M (list E) unit :=
  loop (span 0 j)
    (fun j =>
       if guard j then
         lt <- less_at j (j - 1) ;;
         if lt then (swap j (j - 1) ;; continue (j - 1)) else break tt
       else break tt) j.

Definition insertionSortCmpFunc (a b : Z) : M (list E) unit :=
  loop (span a b)
    (fun i =>
       if i <? b then
         (shift_left (fun j => j >? a) i ;; continue (i + 1))
       else break tt) (a + 1).

Definition siftDownCmpFunc (lo hi first : Z) : M (list E) unit :=
  loop (span lo hi)
    (fun root =>
       let child := int64 (2 * root + 1) in
       if child >=? hi then break tt
       else
         bigger <- (if child + 1 <? hi
                    then less_at (first + child) (first + child + 1)
                    else mret false) ;;
         let child := if (bigger : bool) then child + 1 else child in
         lt <- less_at (first + root) (first + child) ;;
         if negb lt then break tt
         else (swap (first + root) (first + child) ;; continue child)) lo.

Definition heapSortCmpFunc (a b : Z) : M (list E) unit :=
  let first := a in
  let lo := 0 in
  let hi := b - a in
  loop (span 0 (hi + 1))
    (fun i =>
       if i >=? 0 then (siftDownCmpFunc i hi first ;; continue (i - 1))
       else break tt) (quot (hi - 1) 2) ;;
  loop (span 0 (hi + 1))
    (fun i =>
       if i >=? 0 then
         (swap first (first + i) ;;
          siftDownCmpFunc lo i first ;;
          continue (i - 1))
       else break tt) (hi - 1).

(** The scanning loops [for i <= j && p(i) { i++ }] and
    [for i <= j && p(j) { j-- }] of the partition functions. *)
Definition scan_up (p : Z -> M (list E) bool) (i j : Z) : M (list E) Z :=
  loop (span i (j + 1))
    (fun i =>
       if i <=? j then
         ok <- p i ;;
         if (ok : bool) then continue (i + 1) else break i
       else break i) i.
Definition scan_down (p : Z -> M (list E) bool) (i j : Z) : M (list E) Z :=
  loop (span i (j + 1))
    (fun j =>
       if i <=? j then
         ok <- p j ;;
         if (ok : bool) then continue (j - 1) else break j
       else break j) j.

Definition not_less_at (i j : Z) : M (list E) bool :=
  lt <- less_at i j ;; mret (negb lt).

Definition partitionCmpFunc (a b pivot : Z) : M (list E) (Z * bool) :=
  swap a pivot ;;
  i <- scan_up (fun i => less_at i a) (a + 1) (b - 1) ;;
  j <- scan_down (fun j => not_less_at j a) i (b - 1) ;;
  if i >? j then (swap j a ;; mret (j, true))
  else
    (swap i j ;;
     j <- loop (span a b)
            (fun '(i, j) =>
               i <- scan_up (fun i => less_at i a) i j ;;
               j <- scan_down (fun j => not_less_at j a) i j ;;
               if i >? j then break j
               else (swap i j ;; continue (i + 1, j - 1))) (i + 1, j - 1) ;;
     swap j a ;;
     mret (j, false)).

Definition partitionEqualCmpFunc (a b pivot : Z) : M (list E) Z :=
  swap a pivot ;;
  loop (span a b)
    (fun '(i, j) =>
       i <- scan_up (fun i => not_less_at a i) i j ;;
       j <- scan_down (fun j => less_at a j) i j ;;
       if i >? j then break i
       else (swap i j ;; continue (i + 1, j - 1))) (a + 1, b - 1).

(** Shift [data[i]] to the right while it is greater than its successor. *)
Definition shift_right (b j : Z) : M (list E) unit :=
  loop (span j b)
    (fun j =>
       if j <? b then
         lt <- less_at j (j - 1) ;;
         if negb lt then break tt
         else (swap j (j - 1) ;; continue (j + 1))
       else break tt) j.

Definition partialInsertionSortCmpFunc (a b : Z) : M (list E) bool :=
  let maxSteps := 5 in
  let shortestShifting := 50 in
  loop 6
    (fun '(j, i) =>
       if j <? maxSteps then
         i <- loop (span i b)
                (fun i =>
                   if i <? b then
                     lt <- less_at i (i - 1) ;;
                     if negb lt then continue (i + 1) else break i
                   else break i) i ;;
         if i =? b then break true
         else if b - a <? shortestShifting then break false
         else
           (swap i (i - 1) ;;
            (if i - a >=? 2 then shift_left (fun j => j >=? 1) (i - 1) else mret tt) ;;
            (if b - i >=? 2 then shift_right b (i + 1) else mret tt) ;;
            continue (j + 1, i))
       else break false) (0, a + 1).

Definition breakPatternsCmpFunc (a b : Z) : M (list E) unit :=
  let length := b - a in
  if length >=? 8 then
    let random := u64 length in
    let modulus := nextPowerOfTwo length in
    loop 4
      (fun '(idx, random) =>
         if idx <=? a + quot length 4 * 2 + 1 then
           let random := xorshift_Next random in
           let other := int64 (random .& u64 (modulus - 1)) in
           let other := if other >=? length then other - length else other in
           (swap idx (a + other) ;; continue (idx + 1, random))
         else break tt) (a + quot length 4 * 2 - 1, random)
  else mret tt.

(** The [swaps] counter, an [*int] of the Go functions, is threaded. *)
Definition order2CmpFunc (a b swaps : Z) : M (list E) (Z * Z * Z) :=
  lt <- less_at b a ;;
  if (lt : bool) then mret (b, a, swaps + 1) else mret (a, b, swaps).

Definition medianCmpFunc (a b c swaps : Z) : M (list E) (Z * Z) :=
  '(a, b, swaps) <- order2CmpFunc a b swaps ;;
  '(b, c, swaps) <- order2CmpFunc b c swaps ;;
  '(a, b, swaps) <- order2CmpFunc a b swaps ;;
  mret (b, swaps).

Definition medianAdjacentCmpFunc (a swaps : Z) : M (list E) (Z * Z) :=
  medianCmpFunc (a - 1) a (a + 1) swaps.

Definition choosePivotCmpFunc (a b : Z) : M (list E) (Z * sortedHint) :=
  let shortestNinther := 50 in
  let maxSwaps := 4 * 3 in
  let l := b - a in
  let swaps := 0 in
  let i := a + quot l 4 * 1 in
  let j := a + quot l 4 * 2 in
  let k := a + quot l 4 * 3 in
  '(j, swaps) <-
    (if l >=? 8 then
       '(i, j, k, swaps) <-
         (if l >=? shortestNinther then
            '(i, swaps) <- medianAdjacentCmpFunc i swaps ;;
            '(j, swaps) <- medianAdjacentCmpFunc j swaps ;;
            '(k, swaps) <- medianAdjacentCmpFunc k swaps ;;
            mret (i, j, k, swaps)
          else mret (i, j, k, swaps)) ;;
       medianCmpFunc i j k swaps
     else mret (j, swaps)) ;;
  if swaps =? 0 then mret (j, increasingHint)
  else if swaps =? maxSwaps then mret (j, decreasingHint)
  else mret (j, unknownHint).

Definition reverseRangeCmpFunc (a b : Z) : M (list E) unit :=
  loop (span a b)
    (fun '(i, j) =>
       if i <? j then (swap i j ;; continue (i + 1, j - 1)) else break tt) (a, b - 1).

(** The loop of [pdqsortCmpFunc] is the recursion of [pdqsort]: [continue] and
    the recursive call both start it again, the latter with the initial
    values of [wasBalanced] and [wasPartitioned].  Each round works on a
    strictly smaller range, so [b - a] rounds of fuel are enough. *)
Fixpoint pdqsort (fuel : nat) (a b limit : Z) (wasBalanced wasPartitioned : bool) : M (list E) unit :=
  match fuel with
  | O => mnofuel
  | S fuel =>
      let maxInsertion := 12 in
      let length := b - a in
      if length <=? maxInsertion then insertionSortCmpFunc a b
      else if limit =? 0 then heapSortCmpFunc a b
      else
        limit <- (if negb wasBalanced
                  then (breakPatternsCmpFunc a b ;; mret (limit - 1))
                  else mret limit) ;;
        '(pivot, hint) <- choosePivotCmpFunc a b ;;
        '(pivot, hint) <-
          (if decide (hint = decreasingHint) then
             (reverseRangeCmpFunc a b ;;
              mret (b - 1 - (pivot - a), increasingHint))
           else mret (pivot, hint)) ;;
        done <- (if wasBalanced && wasPartitioned && bool_decide (hint = increasingHint)
                 then partialInsertionSortCmpFunc a b else mret false) ;;
        if (done : bool) then mret tt
        else
          equal <- (if a >? 0 then not_less_at (a - 1) pivot else mret false) ;;
          if (equal : bool) then
            mid <- partitionEqualCmpFunc a b pivot ;;
            pdqsort fuel mid b limit wasBalanced wasPartitioned
          else
            '(mid, alreadyPartitioned) <- partitionCmpFunc a b pivot ;;
            let wasPartitioned := alreadyPartitioned in
            let leftLen := mid - a in
            let rightLen := b - mid in
            let balanceThreshold := quot length 8 in
            if leftLen <? rightLen then
              let wasBalanced := leftLen >=? balanceThreshold in
              (pdqsort fuel a mid limit true true ;;
               pdqsort fuel (mid + 1) b limit wasBalanced wasPartitioned)
            else
              let wasBalanced := rightLen >=? balanceThreshold in
              (pdqsort fuel (mid + 1) b limit true true ;;
               pdqsort fuel a mid limit wasBalanced wasPartitioned)
  end.

Definition pdqsortCmpFunc (a b limit : Z) : M (list E) unit :=
  pdqsort (span a b) a b limit true true.

Definition SortFunc : M (list E) unit :=
  n <- mgets zlen ;;
  pdqsortCmpFunc 0 n (Len (u64 n)).

(** ** Stable sorting *)

Definition swapRangeCmpFunc (a b n : Z) : M (list E) unit :=
  loop (span 0 n)
    (fun i =>
       if i <? n then (swap (a + i) (b + i) ;; continue (i + 1)) else break tt) 0.

Definition rotateCmpFunc (a m b : Z) : M (list E) unit :=
  let i := m - a in
  let j := b - m in
  i <- loop (span a b)
         (fun '(i, j) =>
            if negb (i =? j) then
              if i >? j then (swapRangeCmpFunc (m - i) m j ;; continue (i - j, j))
              else (swapRangeCmpFunc (m - i) (m + j - i) i ;; continue (i, j - i))
            else break i) (i, j) ;;
  swapRangeCmpFunc (m - i) m i.

(** [for i < j { h := (i+j)/2; if p(h) { i = h + 1 } else { j = h } }] *)
Definition bisect {S} (p : Z -> M S bool) (i j : Z) : M S Z :=
  loop (span i j)
    (fun '(i, j) =>
       if i <? j then
         let h := avg i j in
         ok <- p h ;;
         if (ok : bool) then continue (h + 1, j) else continue (i, h)
       else break i) (i, j).

Fixpoint symMerge (fuel : nat) (a m b : Z) : M (list E) unit :=
  match fuel with
  | O => mnofuel
  | S fuel =>
      if m - a =? 1 then
        i <- bisect (fun h => less_at h a) m b ;;
        loop (span a b)
          (fun k => if k <? i - 1 then (swap k (k + 1) ;; continue (k + 1)) else break tt) a
      else if b - m =? 1 then
        i <- bisect (fun h => not_less_at m h) a m ;;
        loop (span a b)
          (fun k => if k >? i then (swap k (k - 1) ;; continue (k - 1)) else break tt) m
      else
        let mid := avg a b in
        let n := mid + m in
        let '(start, r) := if m >? mid then (n - b, mid) else (a, m) in
        let p := n - 1 in
        start <- bisect (fun c => not_less_at (p - c) c) start r ;;
        let end_ := n - start in
        (if (start <? m) && (m <? end_) then rotateCmpFunc start m end_ else mret tt) ;;
        (if (a <? start) && (start <? mid) then symMerge fuel a start mid else mret tt) ;;
        (if (mid <? end_) && (end_ <? b) then symMerge fuel mid end_ b else mret tt)
  end.
Definition symMergeCmpFunc (a m b : Z) : M (list E) unit := symMerge (span a b) a m b.

Definition stableCmpFunc (n : Z) : M (list E) unit :=
  let blockSize := 20 in
  a <- loop (span 0 n)
         (fun '(a, b) =>
            if b <=? n then (insertionSortCmpFunc a b ;; continue (b, b + blockSize))
            else break a) (0, blockSize) ;;
  insertionSortCmpFunc a n ;;
  loop (span 0 n)
    (fun blockSize =>
       if blockSize <? n then
         (a <- loop (span 0 n)
                 (fun '(a, b) =>
                    if b <=? n then
                      (symMergeCmpFunc a (a + blockSize) b ;;
                       continue (b, b + 2 * blockSize))
                    else break a) (0, 2 * blockSize) ;;
          let m := a + blockSize in
          (if m <? n then symMergeCmpFunc a m n else mret tt) ;;
          continue (blockSize * 2))
       else break tt) blockSize.

Definition SortStableFunc : M (list E) unit :=
  n <- mgets zlen ;; stableCmpFunc n.

Definition IsSortedFunc : M (list E) bool :=
  n <- mgets zlen ;;
  loop (span 0 n)
    (fun i =>
       if i >? 0 then
         lt <- less_at i (i - 1) ;;
         if (lt : bool) then break false else continue (i - 1)
       else break true) (n - 1).

Definition MinFunc : M (list E) E :=
  n <- mgets zlen ;;
  if n <? 1 then mpanic (Explicit 2)
  else
    m <- load 0 ;;
    loop (span 1 n)
      (fun '(i, m) =>
         if i <? n then
           x <- load i ;;
           continue (i + 1, if cmp x m <? 0 then x else m)
         else break m) (1, m).

Definition MaxFunc : M (list E) E :=
  n <- mgets zlen ;;
  if n <? 1 then mpanic (Explicit 3)
  else
    m <- load 0 ;;
    loop (span 1 n)
      (fun '(i, m) =>
         if i <? n then
           x <- load i ;;
           continue (i + 1, if cmp x m >? 0 then x else m)
         else break m) (1, m).
End Pdqsort.

(** [BinarySearchFunc] compares elements with a target of another type. *)
Definition BinarySearchFunc {E T : Type} (target : T) (cmp : E -> T -> Z) : M (list E) (Z * bool) :=
  n <- mgets zlen ;;
  i <- bisect (fun h => x <- load h ;; mret (cmp x target <? 0)) 0 n ;;
  found <- (if i <? n then x <- load i ;; mret (cmp x target =? 0) else mret false) ;;
  mret (i, found).
