(* ===== verification/SortOrder.v ===== *)
(** * Orders, sorted ranges and stability

    What the sorting algorithms promise, stated over the Z-indexed slices of
    [Slice]: strict weak orders, ranges sorted by one, and the relation that
    keeps the relative order of equivalent elements. *)

From S2P Require Import Prelude.
From S2P Require Import Slice.
From S2P Require Import Pdqsort.

(** The requirement that the documentation of [SortFunc] puts on [cmp]. *)
Class StrictWeak {E} (lt : E -> E -> bool) : Prop := {
  sw_irrefl : forall x, lt x x = false;
  sw_trans : forall x y z, lt x y = true -> lt y z = true -> lt x z = true;
  sw_incomp : forall x y z,
    lt x y = false -> lt y x = false -> lt y z = false -> lt z y = false ->
    lt x z = false /\ lt z x = false
}.

Section Order.
Context {E : Type} (lt : E -> E -> bool).
Implicit Types (l : list E) (x y z : E).

(** [x] may stand before [y] in a sorted slice. *)
Definition le x y : Prop := lt y x = false.
(** [x] and [y] are equal or incomparable. *)
Definition eqv x y : bool := negb (lt x y) && negb (lt y x).

Definition sorted_range a b l : Prop :=
  forall i j x y, a <= i -> i < j -> j < b ->
    at_ l i = Some x -> at_ l j = Some y -> le x y.

(** Relative order of equivalent elements is kept. *)
Definition stable l l' : Prop :=
  forall z, List.filter (eqv z) l' = List.filter (eqv z) l.

#[export] Instance stable_refl : Reflexive stable.
Proof. by intros l z. Qed.
#[export] Instance stable_trans : Transitive stable.
Proof. intros l1 l2 l3 H1 H2 z. by rewrite H2, H1. Qed.

Lemma sorted_range_empty a b l : b <= a + 1 -> sorted_range a b l.
Proof. intros H i j x y ???. lia. Qed.

Lemma sorted_range_mono a b a' b' l :
  sorted_range a b l -> a <= a' -> b' <= b -> sorted_range a' b' l.
Proof. intros H ?? i j x y ???. apply H; lia. Qed.

Lemma sorted_range_outside a b c d l l' :
  same_outside a b l l' -> d <= a \/ b <= c -> sorted_range c d l -> sorted_range c d l'.
Proof.
  intros Ho Hd Hs i j x y ??? Hx Hy.
  rewrite Ho in Hx by lia. rewrite Ho in Hy by lia. eapply (Hs i j); done.
Qed.

Lemma sorted_range_snoc a b l y :
  a < b -> sorted_range a b l -> at_ l b = Some y ->
  (forall i x, a <= i < b -> at_ l i = Some x -> le x y) ->
  sorted_range a (b + 1) l.
Proof.
  intros ? Hs Hy Hle i j x z ??? Hx Hz. destruct (decide (j = b)) as [->|].
  - rewrite Hy in Hz. injection Hz as <-. apply (Hle i); [lia|done].
  - eapply (Hs i j); [lia..|done|done].
Qed.

Section Laws.
Context {sw : StrictWeak lt}.

Lemma le_refl x : le x x.
Proof. apply sw_irrefl. Qed.
Lemma lt_le x y : lt x y = true -> le x y.
Proof.
  intros H. unfold le. destruct (lt y x) eqn:H'; [|done].
  pose proof (sw_trans _ _ _ H H') as Hxx. by rewrite sw_irrefl in Hxx.
Qed.
Lemma le_trans x y z : le x y -> le y z -> le x z.
Proof.
  unfold le. intros H1 H2. destruct (lt z x) eqn:H3; [|done].
  destruct (lt x y) eqn:H4; [by rewrite (sw_trans z x y) in H2|].
  destruct (lt y z) eqn:H5; [by rewrite (sw_trans y z x) in H1|].
  destruct (sw_incomp x y z); congruence.
Qed.
Lemma lt_le_trans x y z : lt x y = true -> le y z -> lt x z = true.
Proof.
  unfold le. intros H1 H2. destruct (lt x z) eqn:H3; [done|].
  pose proof (le_trans y z x H2 H3) as H. unfold le in H. congruence.
Qed.
Lemma le_lt_trans x y z : le x y -> lt y z = true -> lt x z = true.
Proof.
  unfold le. intros H1 H2. destruct (lt x z) eqn:H3; [done|].
  pose proof (le_trans z x y H3 H1) as H. unfold le in H. congruence.
Qed.

(** Adjacent comparisons are enough. *)
Lemma sorted_range_adjacent a b l :
  0 <= a -> b <= zlen l ->
  (forall i x y, a < i < b -> at_ l (i - 1) = Some x -> at_ l i = Some y -> le x y) ->
  sorted_range a b l.
Proof.
  intros Ha Hb H i j x y Hi Hij Hj Hx. revert y.
  replace j with (i + 1 + Z.of_nat (Z.to_nat (j - i - 1))) in * by lia.
  induction (Z.to_nat (j - i - 1)) as [|k IH]; intros y Hy.
  - apply (H (i + 1)); [lia| |by rewrite Z.add_0_r in Hy].
    by replace (i + 1 - 1) with i by lia.
  - destruct (at_ex l (i + 1 + Z.of_nat k)) as [w Hw]; [lia|].
    eapply le_trans; [apply IH; [lia..|done]|].
    apply (H (i + 1 + Z.of_nat (S k))); [lia| |done].
    by replace (i + 1 + Z.of_nat (S k) - 1) with (i + 1 + Z.of_nat k) by lia.
Qed.

(** Two sorted ranges side by side. *)
Lemma sorted_range_glue a m b l :
  sorted_range a m l -> sorted_range m b l ->
  (forall x y, x ∈ sub a m l -> y ∈ sub m b l -> le x y) ->
  sorted_range a b l.
Proof.
  intros H1 H2 H i j x y Hi Hij Hj Hx Hy.
  destruct (Z.lt_ge_cases j m); [by eapply (H1 i j)|].
  destruct (Z.lt_ge_cases i m); [|by eapply (H2 i j)].
  apply H; apply elem_of_sub; eauto.
Qed.

(** Exchanging a block [u] with a block [v] of strictly smaller elements
    keeps the order of equivalent ones. *)
Lemma stable_exchange p u v s :
  (forall x y, x ∈ u -> y ∈ v -> lt y x = true) ->
  stable (p ++ u ++ v ++ s) (p ++ v ++ u ++ s).
Proof.
  intros H z. rewrite !List.filter_app. f_equal. rewrite !app_assoc. f_equal.
  assert (List.filter (eqv z) u = [] \/ List.filter (eqv z) v = []) as [-> | ->];
    [|by rewrite app_nil_r..].
  destruct (List.filter (eqv z) u) as [|x u'] eqn:Eu; [by left|].
  destruct (List.filter (eqv z) v) as [|y v'] eqn:Ev; [by right|].
  assert (In x (List.filter (eqv z) u)) as [Hx Hzx]%filter_In by (rewrite Eu; by left).
  assert (In y (List.filter (eqv z) v)) as [Hy Hzy]%filter_In by (rewrite Ev; by left).
  unfold eqv in Hzx, Hzy. reflect.
  destruct (sw_incomp y z x) as [Hyx _]; [naive_solver..|].
  rewrite H in Hyx; [done|by apply list_elem_of_In..].
Qed.

Lemma stable_swapped l i x y :
  at_ l (i - 1) = Some x -> at_ l i = Some y -> lt y x = true ->
  stable l (swapped l i (i - 1)).
Proof.
  intros Hx Hy Hlt. pose proof (at_range _ _ _ Hx). pose proof (at_range _ _ _ Hy).
  assert (l = take (Z.to_nat (i - 1)) l ++ [x] ++ [y] ++ drop (S (Z.to_nat i)) l) as E1.
  { rewrite at_lookup in Hx, Hy by lia. cbn.
    rewrite <- (take_drop (Z.to_nat (i - 1)) l) at 1. f_equal.
    rewrite (drop_S _ _ _ Hx). f_equal. replace (S (Z.to_nat (i - 1))) with (Z.to_nat i) by lia.
    by apply drop_S. }
  assert (swapped l i (i - 1) =
          take (Z.to_nat (i - 1)) l ++ [y] ++ [x] ++ drop (S (Z.to_nat i)) l) as E2.
  { set (d := drop _ l) in *. set (p := take _ l) in *. assert (zlen p = i - 1) as Hp.
    { unfold zlen in *. subst p. rewrite length_take. lia. }
    apply at_ext. intros k. rewrite at_swapped by lia.
    destruct (Z.lt_ge_cases k (i - 1)).
    { rewrite at_app_l by lia. rewrite !decide_False by lia.
      rewrite E1. by rewrite at_app_l by lia. }
    rewrite at_app_r by lia. rewrite Hp. case_decide as Hk1; [|case_decide as Hk2].
    - subst k. rewrite Hy. by replace (i - 1 - (i - 1)) with 0 by lia.
    - subst k. rewrite Hx. by replace (i - (i - 1)) with 1 by lia.
    - rewrite E1, at_app_r, Hp by lia. rewrite !(app_assoc [_] [_]).
      rewrite !(at_app_r (_ ++ _)); [done|unfold zlen; cbn; lia..]. }
  rewrite E2, E1 at 1. apply stable_exchange. set_solver.
Qed.
End Laws.
End Order.
