(* ===== verification/SimpleSorts.v ===== *)
(** * Insertion sort and heapsort of [slices]

    Every specification has the same shape: what holds for any comparison function (the
    call returns, does not panic and permutes), then what a strict weak order adds
    (sorted ranges, stability).  [siftDownCmpFunc] restores the max-heap property below
    one node; [heapSortCmpFunc], the fallback of the quicksort, sorts with it. *)

From S2P Require Import Prelude.
From S2P Require Import Slice.
From S2P Require Import Bits.
From S2P Require Import Pdqsort.
From S2P Require Import SortOrder.

Section InsertionSort.
Context {E : Type} (cmp : E -> E -> Z).
#[local] Abbreviation lt := (less cmp).
#[local] Abbreviation slice := (list E).
Implicit Types (l : list E) (i j a b : Z).

Lemma wp_less_at i j (Q : bool -> slice -> Prop) l :
  0 <= i < zlen l -> 0 <= j < zlen l ->
  (forall x y, at_ l i = Some x -> at_ l j = Some y -> Q (lt x y) l) ->
  wp (less_at cmp i j) Q l.
Proof.
  intros Hi Hj HQ. unfold less_at. wp_steps. apply wp_load; [done|]. intros x Hx.
  wp_steps. apply wp_load; [done|]. intros y Hy. wp_steps. by apply HQ.
Qed.

Lemma wp_not_less_at i j (Q : bool -> slice -> Prop) l :
  0 <= i < zlen l -> 0 <= j < zlen l ->
  (forall x y, at_ l i = Some x -> at_ l j = Some y -> Q (negb (lt x y)) l) ->
  wp (not_less_at cmp i j) Q l.
Proof.
  intros Hi Hj HQ. unfold not_less_at. wp_steps. apply wp_less_at; [done..|].
  intros x y Hx Hy. wp_steps. by apply HQ.
Qed.

(** The element before the range [a, b) is not greater than any of it, when
    the code may look at it ([lo < a]). *)
Definition bounded_below lo a b l : Prop :=
  lo < a -> forall x, at_ l (a - 1) = Some x -> range_all (le lt x) a b l.

Lemma bounded_below_rperm lo a b l l' :
  rperm a b l l' -> bounded_below lo a b l -> bounded_below lo a b l'.
Proof.
  intros Hr H Hlo x Hx. eapply range_all_rperm; [done|]. apply H; [done|].
  destruct Hr as [_ Ho]. rewrite <- Ho; [done|lia].
Qed.

Lemma bounded_below_mono lo a b b' l :
  bounded_below lo a b l -> b' <= b -> bounded_below lo a b' l.
Proof. intros H ? Hlo x Hx. eapply range_all_sub_range; [by apply H|lia..]. Qed.

(** [shift_inv j l]: the range [a, j0] is sorted but for the element at [j],
    which is below all that follow it. *)
Definition shift_inv a j0 j l : Prop :=
  (forall i k x y, a <= i -> i < k -> k <= j0 -> i <> j -> k <> j ->
     at_ l i = Some x -> at_ l k = Some y -> le lt x y) /\
  (forall k x y, j < k <= j0 -> at_ l j = Some x -> at_ l k = Some y -> le lt x y).

Lemma shift_inv_init a j0 l : sorted_range lt a j0 l -> shift_inv a j0 j0 l.
Proof.
  intros H. split; [|lia]. intros i k x y ?????. apply H; lia.
Qed.

Lemma shift_inv_step {sw : StrictWeak lt} a j0 j l x y :
  0 <= a < j -> j <= j0 < zlen l ->
  at_ l j = Some x -> at_ l (j - 1) = Some y -> lt x y = true ->
  shift_inv a j0 j l -> shift_inv a j0 (j - 1) (swapped l j (j - 1)).
Proof.
  intros Hj Hj0 Hx Hy Hlt [H1 H2]. split.
  - intros i k v w ????? Hv Hw. rewrite at_swapped in Hv, Hw by lia.
    rewrite (decide_False (P := i = j - 1)) in Hv by lia.
    rewrite (decide_False (P := k = j - 1)) in Hw by lia.
    destruct (decide (i = j)), (decide (k = j)); [lia| | |];
      [apply (H1 (j - 1) k)|apply (H1 i (j - 1))|apply (H1 i k)]; (done || lia).
  - intros k v w ? Hv Hw. rewrite at_swapped in Hv, Hw by lia.
    rewrite decide_True in Hv by done.
    rewrite (decide_False (P := k = j - 1)) in Hw by lia.
    destruct (decide (k = j)); [simplify_eq; by apply lt_le|].
    apply (H2 k); [lia|done..].
Qed.

Lemma shift_inv_done {sw : StrictWeak lt} a j0 j l x y :
  0 < j <= j0 -> j0 < zlen l ->
  at_ l j = Some x -> at_ l (j - 1) = Some y -> lt x y = false ->
  shift_inv a j0 j l -> sorted_range lt a (j0 + 1) l.
Proof.
  intros Hj Hj0 Hx Hy Hle [H1 H2] i k v w ??? Hv Hw.
  destruct (decide (i = j)) as [->|]; [by eapply (H2 k); [lia|..]|].
  destruct (decide (k = j)) as [->|]; [|by eapply (H1 i k); [lia..|done|done]].
  destruct (decide (i = j - 1)) as [->|]; [simplify_eq; done|].
  eapply (le_trans lt v y); [|simplify_eq; done]. eapply (H1 i (j - 1)); eauto; lia.
Qed.

Definition shift_post lo a j0 l0 l : Prop :=
  rperm lo (j0 + 1) l0 l /\
  (StrictWeak lt -> stable lt l0 l /\
     (bounded_below lo a (j0 + 1) l0 -> sorted_range lt a j0 l0 ->
      rperm a (j0 + 1) l0 l /\ sorted_range lt a (j0 + 1) l)).

Lemma wp_shift_left guard lo a j0 l0 :
  (forall j, guard j = (j >? lo)) -> 0 <= lo <= a -> a <= j0 < zlen l0 ->
  wp (shift_left cmp guard j0) (fun _ => shift_post lo a j0 l0) l0.
Proof.
  intros Hg Hlo Hj0. unfold shift_left.
  apply (wp_loop
    (fun j l => lo <= j <= j0 /\ rperm lo (j0 + 1) l0 l /\
       (StrictWeak lt -> stable lt l0 l /\
         (bounded_below lo a (j0 + 1) l0 -> sorted_range lt a j0 l0 ->
          a <= j /\ rperm a (j0 + 1) l0 l /\ shift_inv a j0 j l)))
    (fun j => Z.to_nat j)).
  - split_and!; [lia..|apply rperm_refl|]. intros sw. split; [done|]. intros Hb Hs.
    split_and!; [lia|apply rperm_refl|by apply shift_inv_init].
  - unfold span. lia.
  - intros j l (Hj & Hr & Hc). pose proof (rperm_zlen _ _ _ _ Hr) as Hlen.
    rewrite Hg. wp_steps; reflect; cycle 1.
    { split; [done|]. intros sw. destruct (Hc sw) as [Hst Hc']. split; [done|].
      intros Hb Hs. destruct (Hc' Hb Hs) as (? & ? & [H1 H2]). split; [done|].
      intros i k x y ??? Hx Hy. destruct (decide (i = j)) as [->|].
      - by eapply (H2 k); [lia|..].
      - eapply (H1 i k); eauto; lia. }
    apply wp_less_at; [lia..|]. intros x y Hx Hy. wp_steps.
    + apply wp_swap; [lia..|]. wp_steps. split; [|lia].
      split_and!; [lia..| |].
      { eapply rperm_trans; [done|]. apply rperm_swapped; lia. }
      intros sw. destruct (Hc sw) as [Hst Hc']. split.
      { etransitivity; [done|]. by eapply stable_swapped. }
      intros Hb Hs. destruct (Hc' Hb Hs) as (? & Hra & Hi).
      assert (a <= j - 1).
      { destruct (decide (j = a)) as [->|]; [|lia].
        assert (lt x y = false); [|congruence].
        eapply (bounded_below_rperm _ _ _ _ _ Hra Hb ltac:(lia) y Hy a); [lia|done]. }
      split_and!; [lia| |by eapply shift_inv_step; [lia..|done|done|done|]].
      eapply rperm_trans; [done|]. apply rperm_swapped; lia.
    + split; [done|]. intros sw. destruct (Hc sw) as [Hst Hc']. split; [done|].
      intros Hb Hs. destruct (Hc' Hb Hs) as (? & Hra & Hi). split; [done|].
      by apply (shift_inv_done a j0 j l x y); [lia..|done|done|done|].
Qed.

(** ** insertionSortCmpFunc *)

Definition sorts a b l0 l : Prop :=
  rperm a b l0 l /\ (StrictWeak lt -> sorted_range lt a b l).

Lemma wp_insertionSort a b l0 :
  0 <= a -> b <= zlen l0 ->
  wp (insertionSortCmpFunc cmp a b)
     (fun _ l => sorts a b l0 l /\ (StrictWeak lt -> stable lt l0 l)) l0.
Proof.
  intros Ha Hb. unfold insertionSortCmpFunc.
  apply (wp_loop
    (fun i l => a < i /\ rperm a b l0 l /\
       (StrictWeak lt -> stable lt l0 l /\ sorted_range lt a (i `min` b) l))
    (fun i => Z.to_nat (b - i))).
  - split_and!; [lia|apply rperm_refl|]. intros sw. split; [done|].
    apply sorted_range_empty. lia.
  - unfold span. lia.
  - intros i l (Hi & Hr & Hc). pose proof (rperm_zlen _ _ _ _ Hr) as Hlen.
    wp_steps; reflect.
    + eapply wp_mono; [apply (wp_shift_left _ a a); [done|lia..]|].
      intros [] l' [Hr' Hc']. wp_steps. split; [|lia]. split_and!; [lia| |].
      { eapply rperm_trans; [done|]. eapply rperm_mono; [done|lia..]. }
      intros sw. destruct (Hc sw) as [Hst Hs], (Hc' sw) as [Hst' Hs'].
      split; [by etransitivity|]. rewrite Z.min_l in Hs by lia.
      destruct Hs' as [_ ?]; [intros ?; lia|done|]. by rewrite Z.min_l by lia.
    + unfold sorts. split_and!; [done| |naive_solver]. intros sw.
      destruct (Hc sw) as [_ Hs]. by rewrite Z.min_r in Hs by lia.
Qed.
End InsertionSort.

Section HeapSort.
Context {E : Type} (cmp : E -> E -> Z).
#[local] Abbreviation lt := (less cmp).
Implicit Types (l : list E) (i j a b c : Z).

(** The parent of node [c] of a heap; the heap starts at index [first]. *)
Definition par c : Z := (c - 1) / 2.

Definition heap_at first c l : Prop :=
  forall x y, at_ l (first + c) = Some x -> at_ l (first + par c) = Some y -> le lt x y.

(** Every node in [(lo, hi)] whose parent is at least [lo] is not greater
    than its parent. *)
Definition heap first lo hi l : Prop :=
  forall c, 0 < c < hi -> lo <= par c -> heap_at first c l.

(** The heap property but for the children of [r], which are not greater
    than the parent of [r]. *)
Definition heap_but first lo hi r l : Prop :=
  (forall c, 0 < c < hi -> lo <= par c -> par c <> r -> heap_at first c l) /\
  (lo < r -> forall c x y, 0 < c < hi -> par c = r ->
     at_ l (first + c) = Some x -> at_ l (first + par r) = Some y -> le lt x y).

Lemma par_child r c : par c = r <-> c = 2 * r + 1 \/ c = 2 * r + 2.
Proof. unfold par. divlia. Qed.

Lemma heap_but_init first lo hi l : heap first (lo + 1) hi l -> heap_but first lo hi lo l.
Proof. intros H. split; [|intros ?; lia]. intros c ???. apply H; lia. Qed.

Lemma heap_but_step {sw : StrictWeak lt} first lo hi r c l x y :
  0 <= first -> 0 <= lo -> first + hi <= zlen l ->
  lo <= r -> par c = r -> r < c < hi -> (r = lo \/ lo <= par r) ->
  at_ l (first + r) = Some x -> at_ l (first + c) = Some y -> lt x y = true ->
  (forall d z, par d = r -> 0 < d < hi -> at_ l (first + d) = Some z -> le lt z y) ->
  heap_but first lo hi r l ->
  heap_but first lo hi c (swapped l (first + r) (first + c)).
Proof.
  intros Hf Hlo Hlen Hr Hpc Hc Hpr Hx Hy Hlt Hmax [H1 H2].
  assert (Hpar : forall d, 0 < d -> par d < d) by (unfold par; intros; divlia).
  split.
  - intros d Hd Hld Hdc v w Hv Hw. pose proof (Hpar d ltac:(lia)).
    rewrite at_swapped in Hv, Hw by lia.
    rewrite (decide_False (P := first + par d = first + c)) in Hw by lia.
    destruct (decide (first + d = first + c)).
    { replace d with c in * by lia. rewrite decide_True in Hw by lia.
      simplify_eq. by apply lt_le. }
    destruct (decide (first + d = first + r)).
    { replace d with r in * by lia. rewrite decide_False in Hw by lia. simplify_eq.
      apply (H2 ltac:(lia) c); [lia|done..]. }
    destruct (decide (first + par d = first + r)).
    { simplify_eq. apply (Hmax d); [lia..|done]. }
    apply (H1 d); [lia..|done|done].
  - intros _ d v w Hd Hpd Hv Hw. pose proof (Hpar d ltac:(lia)).
    rewrite at_swapped in Hv, Hw by lia. rewrite Hpc in Hw.
    rewrite (decide_False (P := first + d = _)) in Hv by lia.
    rewrite (decide_False (P := first + d = _)) in Hv by lia.
    rewrite decide_False, decide_True in Hw by lia. simplify_eq.
    apply (H1 d); [lia..|done|done].
Qed.

Lemma heap_but_done first lo hi r l :
  heap_but first lo hi r l ->
  (forall c, 0 < c < hi -> par c = r -> heap_at first c l) ->
  heap first lo hi l.
Proof.
  intros [H1 _] H c Hc Hl. destruct (decide (par c = r)) as [Hp|Hp]; [by apply H|by apply H1].
Qed.

Lemma wp_siftDown lo hi first l0 :
  0 <= first -> 0 <= lo -> 0 <= hi -> first + hi <= zlen l0 -> zlen l0 < 2 ^ 62 ->
  lo <= hi ->
  wp (siftDownCmpFunc cmp lo hi first)
     (fun _ l => rperm first (first + hi) l0 l /\
        (StrictWeak lt -> heap first (lo + 1) hi l0 -> heap first lo hi l)) l0.
Proof.
  intros Hf Hlo Hhi Hlen Hmax Hlohi. unfold siftDownCmpFunc.
  apply (wp_loop
    (fun r l => lo <= r /\ (r = lo \/ lo <= par r < hi /\ r < hi) /\ rperm first (first + hi) l0 l /\
       (StrictWeak lt -> heap first (lo + 1) hi l0 -> heap_but first lo hi r l))
    (fun r => Z.to_nat (hi - r))).
  - split_and!; [lia|by left|apply rperm_refl|]. intros _. apply heap_but_init.
  - unfold span. lia.
  - intros r l (Hr & Hpr & Hp & Hc). pose proof (rperm_zlen _ _ _ _ Hp) as Hl.
    assert (r < 2 ^ 62) by lia.
    assert (0 <= r) by lia. rewrite int64_id by lia. cbv zeta. wp_step; reflect.
    { wp_steps. split; [done|]. intros sw Hh. apply (heap_but_done _ _ _ r); [by apply Hc|].
      intros c Hcc ?%par_child. lia. }
    (* the greater child *)
    set (child := 2 * r + 1) in *.
    eapply (wp_call _ _ (fun big l' => l' = l /\
      let c := if (big : bool) then child + 1 else child in
      c < hi /\ (StrictWeak lt -> forall d z y, par d = r -> 0 < d < hi ->
        at_ l (first + d) = Some z -> at_ l (first + c) = Some y -> le lt z y))).
    { wp_steps; reflect.
      - apply wp_less_at; [lia..|]. intros x y Hx Hy. split; [done|].
        destruct (lt x y) eqn:Hxy; cbn; (split; [lia|]);
          intros sw d z w Hd%par_child Hdh Hz Hw; subst child;
          destruct Hd as [-> | ->].
        + rewrite <- (Z.add_assoc first) in Hy. simplify_eq. by apply lt_le.
        + replace (2 * r + 2) with (2 * r + 1 + 1) in Hz by lia. simplify_eq. by apply le_refl.
        + simplify_eq. by apply le_refl.
        + replace (first + (2 * r + 2)) with (first + (2 * r + 1) + 1) in Hz by lia.
          by simplify_eq.
      - split; [done|]. split; [lia|]. intros sw d z w Hd%par_child Hdh Hz Hw.
        assert (d = child) as -> by lia. simplify_eq. by apply le_refl. }
    intros big ? [-> [Hch Hbig]]. cbv zeta.
    set (c := if (big : bool) then child + 1 else child) in *.
    assert (Hpc : par c = r) by (apply par_child; subst c child; destruct big; lia).
    assert (Hrc : r < c) by (subst c child; destruct big; lia).
    wp_steps. apply wp_less_at; [lia..|]. intros x y Hx Hy. wp_steps; reflect.
    + split; [done|]. intros sw Hh. apply (heap_but_done _ _ _ r); [by apply Hc|].
      intros d Hd Hpd v w Hv Hw. rewrite Hpd in Hw. simplify_eq.
      apply (le_trans lt v y); [by apply (Hbig sw d)|done].
    + apply wp_swap; [lia..|]. wp_steps. split; [|lia]. split_and!; [lia| | |].
      { right. rewrite Hpc. lia. }
      { eapply rperm_trans; [done|]. apply rperm_swapped; lia. }
      intros sw Hh. apply (heap_but_step _ _ _ r c l x y); try done; try lia.
      * intros d z Hd Hdh Hz. by apply (Hbig sw d).
      * by apply Hc.
Qed.


(** The root of a heap is a greatest element. *)
Lemma heap_root {sw : StrictWeak lt} first hi l x :
  0 <= first -> first + hi <= zlen l ->
  heap first 0 hi l -> at_ l first = Some x ->
  range_all (fun y => le lt y x) first (first + hi) l.
Proof.
  intros Hf Hlen Hh Hx.
  assert (H : forall n c y, c < Z.of_nat n -> 0 <= c < hi ->
            at_ l (first + c) = Some y -> le lt y x).
  { induction n as [|n IH]; intros c y Hn Hc Hy; [lia|].
    destruct (decide (c = 0)) as [->|].
    { rewrite Z.add_0_r in Hy. simplify_eq. by apply le_refl. }
    assert (0 <= par c < c) by (unfold par; divlia).
    destruct (at_ex l (first + par c)) as [z Hz]; [lia|].
    eapply (le_trans lt); [apply (Hh c); [lia..|done|done]|].
    apply (IH (par c)); [lia..|done]. }
  intros i y Hi Hy. apply (H (S (Z.to_nat hi)) (i - first)); [lia..|].
  by replace (first + (i - first)) with i by lia.
Qed.

(** The invariant of the second loop of [heapSortCmpFunc]: a heap up to [i],
    then the greatest elements, sorted. *)
Definition pop_inv a b i l : Prop :=
  heap a 0 (i + 1) l /\ sorted_range lt (a + i + 1) b l /\
  (forall x, x ∈ sub (a + i + 1) b l -> range_all (fun y => le lt y x) a (a + i + 1) l).

Lemma pop_inv_step {sw : StrictWeak lt} a b i l l' :
  0 <= a -> 0 <= i -> a + i < b -> b <= zlen l ->
  pop_inv a b i l ->
  rperm a (a + i) (swapped l a (a + i)) l' -> heap a 0 i l' ->
  pop_inv a b (i - 1) l'.
Proof.
  intros Ha Hi Hb Hlen (Hheap & Hs & Hbig) Hr Hh'.
  destruct (at_ex l a) as [x Hx]; [lia|].
  pose proof (heap_root a (i + 1) l x ltac:(lia) ltac:(lia) Hheap Hx) as Hroot.
  set (l1 := swapped l a (a + i)) in *.
  assert (Hsw : rperm a (a + i + 1) l l1) by (apply rperm_swapped; lia).
  assert (Hx1 : at_ l1 (a + i) = Some x).
  { unfold l1. by rewrite at_swapped, decide_True by lia. }
  assert (Hx' : at_ l' (a + i) = Some x) by (destruct Hr as [_ Ho]; rewrite Ho; [done|lia]).
  assert (Hr2 : rperm a (a + i + 1) l l').
  { eapply rperm_trans; [done|]. eapply rperm_mono; [done|lia..]. }
  assert (Hle : range_all (fun y => le lt y x) a (a + i + 1) l').
  { eapply range_all_rperm; [done|]. by replace (a + i + 1) with (a + (i + 1)) by lia. }
  assert (Hout : same_outside a (a + i + 1) l l') by apply Hr2.
  unfold pop_inv. replace (i - 1 + 1) with i by lia.
  replace (a + (i - 1) + 1) with (a + i) by lia. split_and!; [done| |].
  - apply (sorted_range_glue lt _ (a + i + 1)).
    + apply sorted_range_empty. lia.
    + eapply sorted_range_outside; [done|by right|done].
    + intros y z (k & Hk & Hy)%elem_of_sub (m & Hm & Hz)%elem_of_sub.
      replace k with (a + i) in Hy by lia. simplify_eq. rewrite Hout in Hz by lia.
      apply (Hbig z) with a; [|lia|done]. apply elem_of_sub. eauto.
  - intros z (k & Hk & Hz)%elem_of_sub. apply range_all_sub_range with a (a + i + 1); [|lia..].
    destruct (decide (k = a + i)) as [->|]; [by simplify_eq|].
    eapply range_all_rperm; [done|]. apply Hbig. rewrite Hout in Hz by lia.
    apply elem_of_sub. exists k. split; [lia|done].
Qed.

(** ** heapSortCmpFunc *)

Lemma wp_heapSort a b l0 :
  0 <= a -> a <= b <= zlen l0 -> zlen l0 < 2 ^ 62 ->
  wp (heapSortCmpFunc cmp a b) (fun _ l => sorts cmp a b l0 l) l0.
Proof.
  intros Ha Hb Hmax. unfold heapSortCmpFunc. cbv zeta.
  assert (Hq : -1 <= quot (b - a - 1) 2 <= b - a /\
               (forall c, 0 < c < b - a -> par c <= quot (b - a - 1) 2)).
  { unfold quot, par. split; [divlia|]. intros. divlia. }
  destruct Hq as [Hq1 Hq2].
  apply (wp_call _ _ (fun _ l => rperm a b l0 l /\ (StrictWeak lt -> heap a 0 (b - a) l))).
  { apply (wp_loop (fun i l => -1 <= i <= b - a /\ rperm a b l0 l /\
        (StrictWeak lt -> heap a (i + 1) (b - a) l)) (fun i => Z.to_nat (i + 1))).
    - split_and!; [lia..|apply rperm_refl|]. intros _ c Hc Hp. specialize (Hq2 c Hc). lia.
    - unfold span. lia.
    - intros i l (Hi & Hr & Hh). pose proof (rperm_zlen _ _ _ _ Hr).
      wp_step; reflect; cycle 1.
      { wp_steps. split; [done|]. by replace (i + 1) with 0 in Hh by lia. }
      eapply wp_call; [apply wp_siftDown; lia|]. intros [] l' [Hr' Hh']. wp_steps.
      split; [|lia]. split_and!; [lia..| |].
      + eapply rperm_trans; [done|]. by replace (a + (b - a)) with b in Hr' by lia.
      + intros sw. replace (i - 1 + 1) with i by lia. auto. }
  intros [] l1 [Hr1 Hh1].
  apply (wp_loop (fun i l => -1 <= i < b - a /\ rperm a b l0 l /\
      (StrictWeak lt -> pop_inv a b i l)) (fun i => Z.to_nat (i + 1))).
  - split_and!; [lia..|done|]. intros sw. unfold pop_inv.
    replace (b - a - 1 + 1) with (b - a) by lia. split_and!; [auto| |].
    + apply sorted_range_empty. lia.
    + intros x (k & Hk & _)%elem_of_sub. lia.
  - unfold span. lia.
  - intros i l (Hi & Hr & Hinv). pose proof (rperm_zlen _ _ _ _ Hr).
    wp_step; reflect; cycle 1.
    { wp_steps. split; [done|]. intros sw. destruct (Hinv sw) as (_ & Hs & _).
      by replace (a + i + 1) with a in Hs by lia. }
    wp_steps. apply wp_swap; [lia..|]. wp_steps.
    eapply wp_mono; [apply wp_siftDown; rewrite ?zlen_swapped; lia|].
    intros [] l' [Hr' Hh']. wp_steps. split; [|lia]. split_and!; [lia..| |].
    + eapply rperm_trans; [done|]. eapply rperm_trans.
      * apply (rperm_swapped a b l a (a + i)); lia.
      * eapply rperm_mono; [done|lia..].
    + intros sw. specialize (Hinv sw). apply (pop_inv_step a b i l); [lia..|done|done|].
      apply Hh'; [done|]. intros c Hc Hp. destruct Hinv as [Hheap _].
      assert (0 < par c < c) by (unfold par in *; divlia).
      intros x y Hx Hy. rewrite at_swapped in Hx, Hy by lia.
      rewrite !decide_False in Hx by lia. rewrite !decide_False in Hy by lia.
      by apply (Hheap c); [lia..| |].
Qed.
End HeapSort.
