(* ===== verification/Partition.v ===== *)
(** * The partition steps of quicksort

    [partitionCmpFunc] and [partitionEqualCmpFunc] of [slices] move the elements
    that pass a test in front of those that do not; the test compares with the
    pivot, kept at the start of the range meanwhile. *)

From S2P Require Import Prelude.
From S2P Require Import Slice.
From S2P Require Import Bits.
From S2P Require Import Pdqsort.
From S2P Require Import SortOrder.
From S2P Require Import SimpleSorts.

Section Partition.
Context {E : Type} (cmp : E -> E -> Z).
#[local] Abbreviation lt := (less cmp).
Implicit Types (l : list E) (i j a b : Z).

(** A test [p] of the code that answers [f] for the element at an index. *)
Definition tests (p : Z -> M (list E) bool) (f : E -> bool) l : Prop :=
  forall k, 0 <= k < zlen l ->
    wp (p k) (fun r l' => l' = l /\ forall x, at_ l k = Some x -> r = f x) l.

Lemma wp_scan_up p f i j l :
  tests p f l -> 0 <= i -> j < zlen l ->
  wp (scan_up p i j)
     (fun i' l' => l' = l /\ i <= i' /\ (i <= j + 1 -> i' <= j + 1) /\
        range_all (fun x => f x = true) i i' l /\
        (i' <= j -> forall x, at_ l i' = Some x -> f x = false)) l.
Proof.
  intros Hp Hi Hj. unfold scan_up.
  apply (wp_loop (fun i' l' => l' = l /\ i <= i' /\ (i <= j + 1 -> i' <= j + 1) /\
           range_all (fun x => f x = true) i i' l) (fun i' => Z.to_nat (j + 1 - i'))).
  - split_and!; [done|lia..|]. intros k x ?. lia.
  - unfold span. lia.
  - intros i' l' (-> & Hi' & Hij & Hr). wp_step; reflect.
    + eapply wp_call; [apply Hp; lia|]. intros r ? [-> Hrx]. wp_steps.
      * split; [|lia]. split_and!; [done|lia..|]. intros k x Hk Hx.
        destruct (decide (k = i')) as [->|]; [symmetry; auto|]. apply (Hr k); [lia|done].
      * split_and!; [done..|]. intros _ x Hx. symmetry. auto.
    + wp_steps. split_and!; [done..|lia].
Qed.

Lemma wp_scan_down p f i j l :
  tests p f l -> 0 <= i -> j < zlen l ->
  wp (scan_down p i j)
     (fun j' l' => l' = l /\ j' <= j /\ (i <= j + 1 -> i <= j' + 1) /\
        range_all (fun x => f x = true) (j' + 1) (j + 1) l /\
        (i <= j' -> forall x, at_ l j' = Some x -> f x = false)) l.
Proof.
  intros Hp Hi Hj. unfold scan_down.
  apply (wp_loop (fun j' l' => l' = l /\ j' <= j /\ (i <= j + 1 -> i <= j' + 1) /\
           range_all (fun x => f x = true) (j' + 1) (j + 1) l)
           (fun j' => Z.to_nat (j' + 1 - i))).
  - split_and!; [done|lia..|]. intros k x ?. lia.
  - unfold span. lia.
  - intros j' l' (-> & Hj' & Hij & Hr). wp_step; reflect.
    + eapply wp_call; [apply Hp; lia|]. intros r ? [-> Hrx]. wp_steps.
      * split; [|lia]. split_and!; [done|lia..|]. intros k x Hk Hx.
        destruct (decide (k = j')) as [->|]; [symmetry; auto|]. apply (Hr k); [lia|done].
      * split_and!; [done..|]. intros _ x Hx. symmetry. auto.
    + wp_steps. split_and!; [done..|lia].
Qed.

(** Elements in [(a, i)] pass the test [f], those in [(j, b)] do not. *)
Definition part_inv (f : E -> bool) a b i j l : Prop :=
  a < i <= j + 1 /\ j < b /\
  range_all (fun x => f x = true) (a + 1) i l /\
  range_all (fun x => f x = false) (j + 1) b l.

(** A pair of scans: it stops with nothing left to look at, or at two
    elements on the wrong sides. *)
Lemma wp_part_scan (pu pd : Z -> M (list E) bool) f a b i j l {B}
    (k : Z -> Z -> M (list E) B) Q :
  0 <= a -> b <= zlen l -> tests pu f l -> tests pd (fun x => negb (f x)) l ->
  part_inv f a b i j l ->
  (forall i' j', i <= i' -> j' <= j -> part_inv f a b i' j' l ->
     (i' <= j' -> i' < j' /\ part_inv f a b (i' + 1) (j' - 1) (swapped l i' j')) ->
     wp (k i' j') Q l) ->
  wp (i <- scan_up pu i j ;; j <- scan_down pd i j ;; k i j) Q l.
Proof.
  intros Ha Hb Hu Hd (Hi & Hj & H1 & H2) Hk.
  eapply wp_call; [apply wp_scan_up; [done|lia..]|].
  intros i' ? (-> & Hi1 & Hi2 & Hi3 & Hi4).
  eapply wp_call; [apply wp_scan_down; [done|lia..]|].
  intros j' ? (-> & Hj1 & Hj2 & Hj3 & Hj4).
  assert (Hinv : part_inv f a b i' j' l).
  { split_and!; [lia..| |]; intros c x Hc Hx.
    - destruct (Z.lt_ge_cases c i); [apply (H1 c)|apply (Hi3 c)]; (lia || done).
    - destruct (Z.lt_ge_cases c (j + 1)); [|apply (H2 c); [lia|done]].
      apply negb_true_iff, (Hj3 c); [lia|done]. }
  apply Hk; [done..|]. intros Hij.
  destruct (at_ex l i') as [x Hx]; [lia|]. destruct (at_ex l j') as [y Hy]; [lia|].
  pose proof (Hi4 ltac:(lia) x Hx) as Hfx.
  pose proof (proj1 (negb_false_iff _) (Hj4 ltac:(lia) y Hy)) as Hfy.
  assert (i' <> j') by (intros ->; congruence). split; [lia|].
  destruct Hinv as (_ & _ & G1 & G2). split_and!; [lia..| |]; intros c z Hc Hz;
    rewrite at_swapped in Hz by lia.
  - destruct (decide (c = i')).
    + rewrite decide_False in Hz by lia. congruence.
    + rewrite !decide_False in Hz by lia. apply (G1 c); [lia|done].
  - destruct (decide (c = j')).
    + congruence.
    + rewrite !decide_False in Hz by lia. apply (G2 c); [lia|done].
Qed.

Lemma tests_less_pivot a l p :
  0 <= a < zlen l -> at_ l a = Some p -> tests (fun i => less_at cmp i a) (fun x => lt x p) l.
Proof.
  intros Ha Hp k Hk. apply wp_less_at; [done..|]. intros x y Hx Hy. split; [done|].
  intros z Hz. congruence.
Qed.
Lemma tests_not_less_pivot a l p :
  0 <= a < zlen l -> at_ l a = Some p ->
  tests (fun i => not_less_at cmp i a) (fun x => negb (lt x p)) l.
Proof.
  intros Ha Hp k Hk. apply wp_not_less_at; [done..|]. intros x y Hx Hy. split; [done|].
  intros z Hz. congruence.
Qed.
Lemma tests_pivot_less a l p :
  0 <= a < zlen l -> at_ l a = Some p -> tests (fun i => less_at cmp a i) (fun x => lt p x) l.
Proof.
  intros Ha Hp k Hk. apply wp_less_at; [done..|]. intros x y Hx Hy. split; [done|].
  intros z Hz. congruence.
Qed.
Lemma tests_pivot_not_less a l p :
  0 <= a < zlen l -> at_ l a = Some p ->
  tests (fun i => not_less_at cmp a i) (fun x => negb (lt p x)) l.
Proof.
  intros Ha Hp k Hk. apply wp_not_less_at; [done..|]. intros x y Hx Hy. split; [done|].
  intros z Hz. congruence.
Qed.

(** ** partitionCmpFunc *)

Definition partitioned a b mid l : Prop :=
  a <= mid < b /\ exists p, at_ l mid = Some p /\
    range_all (fun x => lt x p = true) a mid l /\
    range_all (fun x => lt x p = false) (mid + 1) b l.

Lemma partitioned_intro a b j l p :
  0 <= a -> b <= zlen l -> at_ l a = Some p ->
  part_inv (fun x => lt x p) a b (j + 1) j l -> partitioned a b j (swapped l j a).
Proof.
  intros Ha Hb Hp (Hi & Hj & H1 & H2). split; [lia|]. exists p. split_and!.
  - rewrite at_swapped by lia. repeat case_decide; congruence || done.
  - intros c x Hc Hx. rewrite at_swapped in Hx by lia. destruct (decide (c = a)).
    + apply (H1 j); [lia|done].
    + rewrite decide_False in Hx by lia. apply (H1 c); [lia|done].
  - intros c x Hc Hx. rewrite at_swapped in Hx by lia. rewrite !decide_False in Hx by lia.
    apply (H2 c); [lia|done].
Qed.

Lemma wp_partition a b pivot l0 :
  0 <= a -> a <= pivot < b -> b <= zlen l0 ->
  wp (partitionCmpFunc cmp a b pivot)
     (fun '(mid, _) l => rperm a b l0 l /\ partitioned a b mid l) l0.
Proof.
  intros Ha Hpv Hb. unfold partitionCmpFunc. wp_step. apply wp_swap; [lia..|].
  set (l1 := swapped l0 a pivot).
  assert (Hr1 : rperm a b l0 l1) by (apply rperm_swapped; lia).
  assert (Hlen : zlen l1 = zlen l0) by apply zlen_swapped.
  destruct (at_ex l1 a) as [p Hp]; [lia|].
  apply (wp_part_scan _ _ (fun x => lt x p) a b (a + 1) (b - 1) l1
    (fun i j => if i >? j then (swap j a ;; mret (j, true)) else _)); [lia..| | | |].
  { apply tests_less_pivot; [lia|done]. } { apply tests_not_less_pivot; [lia|done]. }
  { split_and!; [lia..| |]; intros c x ?; lia. }
  intros i j Hi Hj Hinv Hswap. wp_step; reflect.
  { wp_step. apply wp_swap; [destruct Hinv; lia|lia|]. wp_steps. split.
    - eapply rperm_trans; [done|]. apply rperm_swapped; destruct Hinv; lia.
    - apply partitioned_intro with p; [lia..|done|].
      by replace (j + 1) with i by (destruct Hinv; lia). }
  destruct Hswap as [Hij Hinv']; [lia|]. wp_step. apply wp_swap; [destruct Hinv; lia..|].
  wp_step. eapply (wp_mono _ (fun j l => rperm a b l0 l /\ at_ l a = Some p /\
                      part_inv (fun x => lt x p) a b (j + 1) j l)).
  { apply (wp_loop (fun '(i, j) l => rperm a b l0 l /\ at_ l a = Some p /\
                      part_inv (fun x => lt x p) a b i j l)
             (fun '(i, j) => Z.to_nat (j - i + 2))).
    - split_and!; [|rewrite at_swapped by (destruct Hinv; lia)|done].
      + eapply rperm_trans; [done|]. apply rperm_swapped; destruct Hinv; lia.
      + by rewrite !decide_False by (destruct Hinv; lia).
    - unfold span. destruct Hinv. lia.
    - clear dependent i j. intros [i j] l (Hr & Hpl & Hinv).
      pose proof (rperm_zlen _ _ _ _ Hr).
      apply (wp_part_scan _ _ (fun x => lt x p) a b i j l); [lia..| | |done|].
      { apply tests_less_pivot; [lia|done]. } { apply tests_not_less_pivot; [lia|done]. }
      intros i' j' Hi' Hj' Hinv2 Hswap. wp_step; reflect.
      + wp_steps. split_and!; [done..|]. by replace (j' + 1) with i' by (destruct Hinv2; lia).
      + destruct Hswap as [Hij Hinv']; [lia|]. wp_step.
        apply wp_swap; [destruct Hinv2; lia..|]. wp_steps. split; [|lia].
        split_and!; [|rewrite at_swapped by (destruct Hinv2; lia)|done].
        * eapply rperm_trans; [done|]. apply rperm_swapped; destruct Hinv2; lia.
        * by rewrite !decide_False by (destruct Hinv2; lia). }
  clear dependent i j. intros j l (Hr & Hpl & Hinv). pose proof (rperm_zlen _ _ _ _ Hr).
  wp_step. apply wp_swap; [destruct Hinv; lia..|]. wp_steps. split.
  - eapply rperm_trans; [done|]. apply rperm_swapped; destruct Hinv; lia.
  - apply partitioned_intro with p; [lia..|done|done].
Qed.

(** ** partitionEqualCmpFunc *)

Lemma wp_partitionEqual a b pivot l0 :
  0 <= a -> a <= pivot < b -> b <= zlen l0 ->
  wp (partitionEqualCmpFunc cmp a b pivot)
     (fun mid l => rperm a b l0 l /\ a < mid <= b /\
        exists p, at_ l0 pivot = Some p /\ at_ l a = Some p /\
          range_all (fun x => lt p x = false) (a + 1) mid l /\
          range_all (fun x => lt p x = true) mid b l) l0.
Proof.
  intros Ha Hpv Hb. unfold partitionEqualCmpFunc. wp_step. apply wp_swap; [lia..|].
  destruct (at_ex l0 pivot) as [p Hp]; [lia|].
  assert (Hp1 : at_ (swapped l0 a pivot) a = Some p).
  { rewrite at_swapped by lia. repeat case_decide; congruence || done. }
  apply (wp_loop (fun '(i, j) l => rperm a b l0 l /\ at_ l a = Some p /\
                    part_inv (fun x => negb (lt p x)) a b i j l)
           (fun '(i, j) => Z.to_nat (j - i + 2))).
  - split_and!; [apply rperm_swapped; lia|done|]. split_and!; [lia..| |]; intros c x ?; lia.
  - unfold span. lia.
  - intros [i j] l (Hr & Hpl & Hinv). pose proof (rperm_zlen _ _ _ _ Hr).
    apply (wp_part_scan _ _ (fun x => negb (lt p x)) a b i j l); [lia..| | |done|].
    { apply tests_pivot_not_less; [lia|done]. }
    { intros k Hk. eapply wp_mono; [by apply (tests_pivot_less a l p); [lia|..]|].
      intros r ? [-> Hx]. split; [done|]. intros x Hkx. by rewrite negb_involutive, (Hx x). }
    intros i' j' Hi' Hj' Hinv2 Hswap. wp_step; reflect.
    + wp_steps. destruct Hinv2 as (? & ? & H1 & H2). split_and!; [done|lia..|].
      exists p. split_and!; [done..| |].
      * eapply range_all_impl; [|done]. intros x Hx. by apply negb_true_iff.
      * replace i' with (j' + 1) by lia.
        eapply range_all_impl; [|done]. intros x Hx. by apply negb_false_iff.
    + destruct Hswap as [Hij Hinv']; [lia|]. wp_step.
      apply wp_swap; [destruct Hinv2; lia..|]. wp_steps. split; [|lia].
      split_and!; [|rewrite at_swapped by (destruct Hinv2; lia)|done].
      * eapply rperm_trans; [done|]. apply rperm_swapped; destruct Hinv2; lia.
      * by rewrite !decide_False by (destruct Hinv2; lia).
Qed.
End Partition.
