(* ===== verification/Quicksort.v ===== *)
(** * pdqsort: the helpers and the main loop

    Pattern breaking, pivot choice, reversal, the bounded insertion sort, and
    the theorems about [SortFunc]. *)

From S2P Require Import Prelude.
From S2P Require Import Slice.
From S2P Require Import Bits.
From S2P Require Import Pdqsort.
From S2P Require Import SortOrder.
From S2P Require Import SimpleSorts.
From S2P Require Import Partition.

(** The loop of [IsSortedFunc] and the list-level notion of sortedness. *)
Definition sorted_list {E} (lt : E -> E -> bool) (l : list E) : Prop :=
  StronglySorted (le lt) l.

Section Helpers.
Context {E : Type} (cmp : E -> E -> Z).
#[local] Abbreviation lt := (less cmp).
Implicit Types (l : list E) (i j a b : Z).

Lemma wp_reverseRange a b l0 :
  0 <= a -> b <= zlen l0 ->
  wp (reverseRangeCmpFunc a b) (fun _ l => rperm a b l0 l) l0.
Proof.
  intros Ha Hb. unfold reverseRangeCmpFunc.
  apply (wp_loop (fun '(i, j) l => a <= i /\ j < b /\ rperm a b l0 l)
           (fun '(i, j) => Z.to_nat (j - i + 1))).
  - split_and!; [lia..|apply rperm_refl].
  - unfold span. lia.
  - intros [i j] l (Hi & Hj & Hr). pose proof (rperm_zlen _ _ _ _ Hr).
    wp_step; reflect; [|by wp_steps]. wp_step. apply wp_swap; [lia..|]. wp_steps.
    split; [|lia]. split_and!; [lia..|]. eapply rperm_trans; [done|]. apply rperm_swapped; lia.
Qed.

Lemma bitlen_bounds n :
  0 < n < 2 ^ 62 -> 0 < bitlen n <= 62 /\ n < 2 ^ bitlen n <= 2 * n.
Proof.
  intros Hn. pose proof (bitlen_bound n ltac:(lia)). pose proof (bitlen_pow n ltac:(lia)) as Hp.
  pose proof (bitlen_le 62 n ltac:(lia) ltac:(lia)).
  assert (0 < bitlen n).
  { pose proof (Z.log2_nonneg n). unfold bitlen. destruct (Z.eqb_spec n 0); lia. }
  split; [lia|]. split; [done|]. rewrite Z.pow_sub_r in Hp by lia.
  replace (bitlen n) with (1 + (bitlen n - 1)) at 1 by lia. rewrite Z.pow_add_r by lia.
  rewrite <- Z.pow_sub_r in Hp by lia. lia.
Qed.

Lemma nextPowerOfTwo_spec n :
  0 < n < 2 ^ 62 -> nextPowerOfTwo n = 2 ^ bitlen n.
Proof.
  intros Hn. unfold nextPowerOfTwo. rewrite Len_bitlen by (unfold is_u64; wrap; lia). wrap.
  rewrite Z.shiftl_1_l. pose proof (bitlen_bounds n Hn). wrap. done.
Qed.

Lemma wp_breakPatterns a b l0 :
  0 <= a -> b <= zlen l0 -> zlen l0 < 2 ^ 62 ->
  wp (breakPatternsCmpFunc a b) (fun _ l => rperm a b l0 l) l0.
Proof.
  intros Ha Hb Hmax. unfold breakPatternsCmpFunc. cbv zeta.
  wp_step; reflect; [|wp_steps; apply rperm_refl].
  pose proof (bitlen_bounds (b - a)) as Hpow. rewrite nextPowerOfTwo_spec by lia.
  assert (Hq : 4 * quot (b - a) 4 <= b - a /\ 2 <= quot (b - a) 4) by (unfold quot; divlia).
  apply (wp_loop (fun '(idx, _) l => a + quot (b - a) 4 * 2 - 1 <= idx
                    <= a + quot (b - a) 4 * 2 + 2 /\ rperm a b l0 l)
           (fun '(idx, _) => Z.to_nat (a + quot (b - a) 4 * 2 + 2 - idx))).
  - split; [lia|apply rperm_refl].
  - lia.
  - intros [idx random] l (Hi & Hr). pose proof (rperm_zlen _ _ _ _ Hr).
    wp_step; reflect; [|by wp_steps]. cbv zeta.
    set (o := int64 _). assert (Ho : 0 <= o < 2 ^ bitlen (b - a)).
    { unfold o. rewrite u64_id, Z.land_comm by lia.
      pose proof (land_bound (bitlen (b - a)) (2 ^ bitlen (b - a) - 1)
                    (xorshift_Next random)).
      rewrite int64_id; lia. }
    assert (0 <= (if o >=? b - a then o - (b - a) else o) < b - a).
    { destruct (o >=? b - a) eqn:Hge; reflect; lia. }
    wp_step. apply wp_swap; [lia..|]. wp_steps. split; [|lia]. split; [lia|].
    eapply rperm_trans; [done|]. apply rperm_swapped; lia.
Qed.

(** ** choosePivotCmpFunc *)

Lemma wp_order2 lo hi x y s l :
  0 <= lo -> hi <= zlen l -> lo <= x < hi -> lo <= y < hi ->
  wp (order2CmpFunc cmp x y s)
     (fun '(x', y', _) l' => l' = l /\ lo <= x' < hi /\ lo <= y' < hi) l.
Proof.
  intros. unfold order2CmpFunc. wp_step. apply wp_less_at; [lia..|].
  intros v w _ _. by wp_steps.
Qed.

Lemma wp_median lo hi x y z s l :
  0 <= lo -> hi <= zlen l -> lo <= x < hi -> lo <= y < hi -> lo <= z < hi ->
  wp (medianCmpFunc cmp x y z s) (fun '(r, _) l' => l' = l /\ lo <= r < hi) l.
Proof.
  intros. unfold medianCmpFunc.
  eapply wp_call; [by apply (wp_order2 lo hi)|]. intros [[x1 y1] s1] ? (-> & ? & ?).
  eapply wp_call; [by apply (wp_order2 lo hi)|]. intros [[y2 z2] s2] ? (-> & ? & ?).
  eapply wp_call; [by apply (wp_order2 lo hi)|]. intros [[x3 y3] s3] ? (-> & ? & ?).
  by wp_steps.
Qed.

Lemma wp_choosePivot a b l :
  0 <= a -> a + 8 <= b -> b <= zlen l ->
  wp (choosePivotCmpFunc cmp a b) (fun '(p, _) l' => l' = l /\ a <= p < b) l.
Proof.
  intros Ha Hab Hb. unfold choosePivotCmpFunc. cbv zeta.
  assert (Hq : 4 * quot (b - a) 4 <= b - a < 4 * quot (b - a) 4 + 4) by (unfold quot; divlia).
  apply (wp_call _ _ (fun '(j, _) l' => l' = l /\ a <= j < b)).
  - wp_step; reflect; [|lia].
    apply (wp_call _ _ (fun '(i, j, k, _) l' =>
      l' = l /\ a <= i < b /\ a <= j < b /\ a <= k < b)).
    + wp_step; reflect; [|wp_steps; split_and!; (done || lia)]. unfold medianAdjacentCmpFunc.
      eapply wp_call; [apply (wp_median a b); lia|]. intros [i s1] ? (-> & ?).
      eapply wp_call; [apply (wp_median a b); lia|]. intros [j s2] ? (-> & ?).
      eapply wp_call; [apply (wp_median a b); lia|]. intros [k s3] ? (-> & ?).
      wp_steps. done.
    + intros [[[i j] k] s] ? (-> & ? & ? & ?). apply (wp_median a b); lia.
  - intros [j s] ? (-> & ?). by wp_steps.
Qed.

(** ** partialInsertionSortCmpFunc *)

Lemma wp_shift_right b j0 l0 :
  0 < j0 -> b <= zlen l0 ->
  wp (shift_right cmp b j0) (fun _ l => rperm (j0 - 1) b l0 l) l0.
Proof.
  intros Hj Hb. unfold shift_right.
  apply (wp_loop (fun j l => j0 <= j /\ rperm (j0 - 1) b l0 l) (fun j => Z.to_nat (b - j))).
  - split; [lia|apply rperm_refl].
  - unfold span. lia.
  - intros j l (Hij & Hr). pose proof (rperm_zlen _ _ _ _ Hr).
    wp_step; reflect; [|by wp_steps]. wp_step. apply wp_less_at; [lia..|]. intros x y _ _.
    wp_step; [by wp_steps|]. wp_step. apply wp_swap; [lia..|]. wp_steps. split; [|lia].
    split; [lia|]. eapply rperm_trans; [done|]. apply rperm_swapped; lia.
Qed.

(** The scan for the next out-of-order pair extends the sorted prefix. *)
Lemma wp_scan_sorted a b i l :
  0 <= a < i -> i <= b <= zlen l ->
  wp (loop (span i b)
        (fun i => if i <? b then
                    lt <- less_at cmp i (i - 1) ;;
                    if negb lt then continue (i + 1) else break i
                  else break i) i)
     (fun i' l' => l' = l /\ i <= i' <= b /\
        (StrictWeak lt -> sorted_range lt a i l -> sorted_range lt a i' l)) l.
Proof.
  intros Ha Hi.
  apply (wp_loop (fun i' l' => l' = l /\ i <= i' <= b /\
      (StrictWeak lt -> sorted_range lt a i l -> sorted_range lt a i' l))
      (fun i' => Z.to_nat (b - i'))).
  - split_and!; [done|lia..|done].
  - unfold span. lia.
  - intros i' l' (-> & Hi' & Hs). wp_step; reflect; [|by wp_steps; split_and!; [|lia..|]].
    wp_step. apply wp_less_at; [lia..|]. intros x y Hx Hy. wp_step; reflect.
    + wp_steps. split; [|lia]. split_and!; [done|lia..|]. intros sw Hsi.
      apply (sorted_range_snoc lt a i' l x); [lia|by apply Hs|done|].
      intros k z Hk Hz. destruct (decide (k = i' - 1)) as [->|]; [by simplify_eq|].
      apply (le_trans lt z y); [|done]. apply (Hs sw Hsi k (i' - 1)); [lia..|done|done].
    + wp_steps. split_and!; [done|lia..|done].
Qed.

Definition pdq_post a b l0 l : Prop :=
  rperm 0 b l0 l /\
  (StrictWeak lt -> bounded_below cmp 0 a b l0 ->
   rperm a b l0 l /\ sorted_range lt a b l).

Lemma wp_partialInsertionSort a b l0 :
  0 <= a < b -> b <= zlen l0 ->
  wp (partialInsertionSortCmpFunc cmp a b)
     (fun ok l => rperm 0 b l0 l /\
        (StrictWeak lt -> bounded_below cmp 0 a b l0 ->
         rperm a b l0 l /\ (ok = true -> sorted_range lt a b l))) l0.
Proof.
  intros Ha Hb. unfold partialInsertionSortCmpFunc. cbv zeta.
  apply (wp_loop (fun '(j, i) l => 0 <= j <= 5 /\ a < i <= b /\ rperm 0 b l0 l /\
      (StrictWeak lt -> bounded_below cmp 0 a b l0 ->
       rperm a b l0 l /\ sorted_range lt a i l)) (fun '(j, _) => Z.to_nat (5 - j))).
  - split_and!; [lia..|apply rperm_refl|]. intros _ _. split; [apply rperm_refl|].
    apply sorted_range_empty. lia.
  - lia.
  - intros [j i] l (Hj & Hi & Hr & Hc). pose proof (rperm_zlen _ _ _ _ Hr) as Hl.
    wp_step; reflect; [|wp_steps; split; [done|]; intros sw Hbb; by destruct (Hc sw Hbb)].
    eapply wp_call; [apply (wp_scan_sorted a); lia|]. intros i' ? (-> & Hi' & Hs).
    assert (Hc' : StrictWeak lt -> bounded_below cmp 0 a b l0 ->
                  rperm a b l0 l /\ sorted_range lt a i' l)
      by (intros sw Hbb; destruct (Hc sw Hbb); split; [done|by apply Hs]).
    assert (a < i') by lia. clear Hc Hs Hi. wp_step; reflect; [subst i'; wp_steps; split; [done|]; intros sw Hbb; by destruct (Hc' sw Hbb)|].
    wp_step; reflect; [wp_steps; split; [done|]; intros sw Hbb; by destruct (Hc' sw Hbb)|].
    wp_step. apply wp_swap; [lia..|]. set (l1 := swapped l i' (i' - 1)).
    assert (Hl1 : zlen l1 = zlen l) by apply zlen_swapped.
    assert (Hr1 : rperm a b l l1) by (apply rperm_swapped; lia).
    assert (Hout : same_outside (i' - 1) (i' + 1) l l1)
      by (apply (rperm_swapped (i' - 1) (i' + 1)); lia).
    apply (wp_call _ _ (fun _ l2 => rperm 0 b l1 l2 /\
      (StrictWeak lt -> bounded_below cmp 0 a b l0 -> rperm a b l1 l2 /\ sorted_range lt a i' l2))).
    { wp_step; reflect.
      - eapply wp_mono; [apply (wp_shift_left cmp _ 0 a)|].
        + intros k. rewrite Z.geb_leb, Z.gtb_ltb. destruct (Z.leb_spec 1 k), (Z.ltb_spec 0 k); lia.
        + lia.
        + lia.
        + intros [] l2 [Hp1 Hp2]. replace (i' - 1 + 1) with i' in * by lia.
          split; [eapply rperm_mono; [done|lia..]|]. intros sw Hbb.
          destruct (Hc' sw Hbb) as [Hra Hsi], (Hp2 sw) as [_ Hp3].
          destruct Hp3 as [Hp4 Hp5].
          * apply bounded_below_mono with b; [|lia].
            eapply bounded_below_rperm; [exact Hr1|]. by eapply bounded_below_rperm.
          * eapply sorted_range_outside; [done|left; lia|].
            eapply sorted_range_mono; [done|lia..].
          * split; [|done]. eapply rperm_mono; [done|lia..].
      - wp_steps. split; [apply rperm_refl|]. intros _ _. split; [apply rperm_refl|].
        apply sorted_range_empty. lia. }
    intros [] l2 [Hr2 Hc2]. pose proof (rperm_zlen _ _ _ _ Hr2).
    apply (wp_call _ _ (fun _ l3 => rperm i' b l2 l3)).
    { wp_step; reflect; [|wp_steps; apply rperm_refl].
      eapply wp_mono; [apply wp_shift_right; lia|].
      intros []. by replace (i' + 1 - 1) with i' by lia. }
    intros [] l3 Hr3. wp_steps. split; [|lia]. split_and!; [lia..| |].
    + eapply rperm_trans; [done|]. eapply rperm_trans; [apply (rperm_mono a b); [done|lia..]|].
      eapply rperm_trans; [done|]. eapply rperm_mono; [done|lia..].
    + intros sw Hbb. destruct (Hc' sw Hbb), (Hc2 sw Hbb). split.
      * eapply rperm_trans; [done|]. eapply rperm_trans; [done|]. eapply rperm_trans; [done|].
        eapply rperm_mono; [done|lia..].
      * eapply sorted_range_outside; [apply Hr3|left; lia|done].
Qed.
End Helpers.

(** ** The main loop *)

Section Main.
Context {E : Type} (cmp : E -> E -> Z).
#[local] Abbreviation lt := (less cmp).
Implicit Types (l : list E) (i j a b : Z).

Lemma partitioned_left a b mid l l' :
  partitioned cmp a b mid l -> rperm a mid l l' -> partitioned cmp a b mid l'.
Proof.
  intros (Hm & p & Hp & H1 & H2) Hr. split; [done|]. exists p. destruct Hr as [Hpm Ho].
  split_and!; [by rewrite Ho by lia|by eapply range_all_rperm|].
  eapply range_all_outside; [done|lia|done].
Qed.
Lemma partitioned_right a b mid l l' :
  partitioned cmp a b mid l -> rperm (mid + 1) b l l' -> partitioned cmp a b mid l'.
Proof.
  intros (Hm & p & Hp & H1 & H2) Hr. split; [done|]. exists p. destruct Hr as [Hpm Ho].
  split_and!; [by rewrite Ho by lia| |by eapply range_all_rperm].
  eapply range_all_outside; [done|lia|done].
Qed.

Lemma partitioned_glue {sw : StrictWeak lt} a b mid l :
  partitioned cmp a b mid l -> sorted_range lt a mid l -> sorted_range lt (mid + 1) b l ->
  sorted_range lt a b l.
Proof.
  intros (Hm & p & Hp & H1 & H2) Hs1 Hs2. apply (sorted_range_glue lt a (mid + 1)); [|done|].
  - destruct (decide (a = mid)) as [->|]; [apply sorted_range_empty; lia|].
    apply (sorted_range_snoc lt a mid l p); [lia|done..|].
    intros i x Hi Hx. apply lt_le; [done|]. by apply (H1 i).
  - intros x y (i & Hi & Hx)%elem_of_sub (j & Hj & Hy)%elem_of_sub.
    assert (le lt x p).
    { destruct (decide (i = mid)) as [->|]; [simplify_eq; by apply le_refl|].
      apply lt_le; [done|]. apply (H1 i); [lia|done]. }
    apply (le_trans lt x p); [done|]. by apply (H2 j).
Qed.

(** The range before and the pivot bound what is right of it. *)
Lemma partitioned_below a b mid l :
  partitioned cmp a b mid l -> bounded_below cmp 0 (mid + 1) b l.
Proof.
  intros (Hm & p & Hp & H1 & H2) _ x Hx. replace (mid + 1 - 1) with mid in Hx by lia.
  simplify_eq. exact H2.
Qed.

(** Sorting both sides of a partition, in either order, sorts the range. *)
Lemma sort_sides_left a b mid l0 l1 l2 :
  partitioned cmp a b mid l0 -> 0 <= a ->
  pdq_post cmp a mid l0 l1 -> pdq_post cmp (mid + 1) b l1 l2 -> pdq_post cmp a b l0 l2.
Proof.
  intros Hp Ha [Hr1 Hc1] [Hr2 Hc2]. destruct (Hp) as [Hm _]. split.
  { eapply rperm_trans; [|done]. eapply rperm_mono; [done|lia..]. }
  intros sw Hb. destruct (Hc1 sw) as [Hr1' Hs1].
  { eapply bounded_below_mono; [done|lia]. }
  assert (Hp1 : partitioned cmp a b mid l1) by by eapply partitioned_left.
  destruct (Hc2 sw) as [Hr2' Hs2]; [by eapply partitioned_below|]. split.
  - eapply rperm_trans; (eapply rperm_mono; [done|lia..]).
  - eapply partitioned_glue; [by eapply partitioned_right| |done].
    eapply sorted_range_outside; [apply Hr2'|left; lia|done].
Qed.

Lemma sort_sides_right a b mid l0 l1 l2 :
  partitioned cmp a b mid l0 -> 0 <= a ->
  pdq_post cmp (mid + 1) b l0 l1 -> pdq_post cmp a mid l1 l2 -> pdq_post cmp a b l0 l2.
Proof.
  intros Hp Ha [Hr1 Hc1] [Hr2 Hc2]. destruct (Hp) as [Hm _]. split.
  { eapply rperm_trans; [done|]. eapply rperm_mono; [done|lia..]. }
  intros sw Hb. destruct (Hc1 sw) as [Hr1' Hs1]; [by eapply partitioned_below|].
  assert (Hp1 : partitioned cmp a b mid l1) by by eapply partitioned_right.
  assert (Hr1a : rperm a b l0 l1) by (eapply rperm_mono; [done|lia..]).
  destruct (Hc2 sw) as [Hr2' Hs2].
  { eapply bounded_below_mono; [by eapply bounded_below_rperm|lia]. }
  split; [eapply rperm_trans; [done|]; eapply rperm_mono; [done|lia..]|].
  eapply partitioned_glue; [by eapply partitioned_left|done|].
  eapply sorted_range_outside; [apply Hr2'|right; lia|done].
Qed.

(** After [partitionEqualCmpFunc], with a pivot not above the element before
    the range, only the right side is left to sort. *)
Lemma sort_equal a b mid pivot p q l0 l1 l2 :
  0 < a -> a <= pivot < b -> a < mid <= b ->
  at_ l0 (a - 1) = Some q -> at_ l0 pivot = Some p -> lt q p = false ->
  rperm a b l0 l1 -> at_ l1 a = Some p ->
  range_all (fun x => lt p x = false) (a + 1) mid l1 ->
  range_all (fun x => lt p x = true) mid b l1 ->
  pdq_post cmp mid b l1 l2 -> pdq_post cmp a b l0 l2.
Proof.
  intros Ha Hpv Hm Hq Hp Hqp Hr1 Hp1 H1 H2 [Hr2 Hc2]. split.
  { eapply rperm_trans; [|done]. eapply rperm_mono; [done|lia..]. }
  intros sw Hb.
  assert (Hle : range_all (fun x => le lt x p) a mid l1).
  { intros i x Hi Hx. destruct (decide (i = a)) as [->|]; [simplify_eq; by apply le_refl|].
    apply (H1 i); [lia|done]. }
  assert (Hge : range_all (le lt p) a b l1).
  { eapply range_all_rperm; [done|]. intros i x Hi Hx. apply (le_trans lt p q); [done|].
    apply (Hb ltac:(lia) q Hq i); done. }
  destruct (Hc2 sw) as [Hr2' Hs2].
  { intros _ x Hx i y Hi Hy. apply (le_trans lt x p).
    - apply (Hle (mid - 1)); [lia|done].
    - apply lt_le; [done|]. by apply (H2 i). }
  split; [eapply rperm_trans; [done|]; eapply rperm_mono; [done|lia..]|].
  apply (sorted_range_glue lt a mid); [|done|].
  - eapply sorted_range_outside; [apply Hr2'|left; lia|].
    intros i j x y ??? Hx Hy. apply (le_trans lt x p).
    + apply (Hle i); [lia|done].
    + apply (Hge j); [lia|done].
  - intros x y (i & Hi & Hx)%elem_of_sub (j & Hj & Hy)%elem_of_sub.
    destruct Hr2' as [? Ho]. rewrite Ho in Hx by lia. apply (le_trans lt x p).
    + apply (Hle i); [lia|done].
    + apply lt_le; [done|]. by apply (range_all_rperm (fun x => lt p x = true) mid b l1 l2 (conj H Ho) H2 j).
Qed.

Lemma pdq_post_pre a b l0 l1 l2 :
  0 <= a -> rperm a b l0 l1 -> pdq_post cmp a b l1 l2 -> pdq_post cmp a b l0 l2.
Proof.
  intros Ha Hr [H1 H2]. split.
  - eapply rperm_trans; [|done]. eapply rperm_mono; [done|lia..].
  - intros sw Hb. destruct (H2 sw) as [? ?]; [by eapply bounded_below_rperm|].
    split; [by eapply rperm_trans|done].
Qed.

Lemma pdq_post_pre0 a b l0 l1 l2 :
  rperm 0 b l0 l1 ->
  (StrictWeak lt -> bounded_below cmp 0 a b l0 -> rperm a b l0 l1) ->
  pdq_post cmp a b l1 l2 -> pdq_post cmp a b l0 l2.
Proof.
  intros Hr Hc [H1 H2]. split; [by eapply rperm_trans|]. intros sw Hb.
  pose proof (Hc sw Hb). destruct (H2 sw) as [? ?]; [by eapply bounded_below_rperm|].
  split; [by eapply rperm_trans|done].
Qed.

Lemma wp_pdqsort fuel a b limit wb wpt l0 :
  0 <= a <= b -> b <= zlen l0 -> zlen l0 < 2 ^ 62 -> b - a < Z.of_nat fuel ->
  wp (pdqsort cmp fuel a b limit wb wpt) (fun _ => pdq_post cmp a b l0) l0.
Proof.
  revert a b limit wb wpt l0.
  induction fuel as [|fuel IH]; intros a b limit wb wpt l0 Ha Hb Hmax Hf; [lia|].
  cbn [pdqsort]. cbv zeta. wp_step; reflect.
  { eapply wp_mono; [apply wp_insertionSort; lia|]. intros [] l [[Hr Hs] _].
    split; [eapply rperm_mono; [done|lia..]|]. intros sw _. auto. }
  wp_step; reflect.
  { eapply wp_mono; [apply wp_heapSort; lia|]. intros [] l [Hr Hs].
    split; [eapply rperm_mono; [done|lia..]|]. intros sw _. auto. }
  (* break patterns *)
  apply (wp_call _ _ (fun _ l => rperm a b l0 l)).
  { wp_step; [|wp_steps; apply rperm_refl].
    eapply wp_call; [apply wp_breakPatterns; lia|]. intros [] l Hr. by wp_steps. }
  clear dependent limit. intros limit l1 Hr1. pose proof (rperm_zlen _ _ _ _ Hr1).
  (* choose the pivot *)
  eapply wp_call; [apply wp_choosePivot; lia|]. intros [pivot hint] ? [-> Hpv].
  apply (wp_call _ _ (fun '(p, _) l => rperm a b l0 l /\ a <= p < b)).
  { wp_step; [|by wp_steps]. eapply wp_call; [apply wp_reverseRange; lia|].
    intros [] l Hr. wp_steps. split; [by eapply rperm_trans|lia]. }
  clear dependent pivot. clear dependent hint. intros [pivot hint] l2 [Hr2 Hpv].
  pose proof (rperm_zlen _ _ _ _ Hr2).
  apply (wp_mono _ (fun _ => pdq_post cmp a b l2)); [|intros [] l; apply pdq_post_pre; [lia|done]].
  (* insertion sort of an almost sorted range *)
  apply (wp_call _ _ (fun ok l => rperm 0 b l2 l /\
    (StrictWeak lt -> bounded_below cmp 0 a b l2 ->
     rperm a b l2 l /\ (ok = true -> sorted_range lt a b l)))).
  { wp_step; [apply wp_partialInsertionSort; lia|]. wp_steps. split; [apply rperm_refl|].
    intros _ _. split; [apply rperm_refl|done]. }
  intros ok l3 [Hr3 Hc3]. pose proof (rperm_zlen _ _ _ _ Hr3).
  wp_step; [wp_steps; split; [done|]; intros sw Hbb; destruct (Hc3 sw Hbb); auto|].
  apply (wp_mono _ (fun _ => pdq_post cmp a b l3));
    [|intros [] l; apply pdq_post_pre0; [done|intros sw Hbb; by destruct (Hc3 sw Hbb)]].
  (* many equal elements *)
  apply (wp_call _ _ (fun eq l => l = l3 /\ (eq = true -> 0 < a /\
     exists q p, at_ l3 (a - 1) = Some q /\ at_ l3 pivot = Some p /\ lt q p = false))).
  { wp_step; reflect; [|by wp_steps]. apply wp_not_less_at; [lia..|].
    intros q p Hq Hp. split; [done|]. intros Hn. reflect. split; [lia|]. by exists q, p. }
  intros eq ? [-> Heq]. wp_step.
  { destruct (Heq eq_refl) as (Ha' & q & p & Hq & Hp & Hqp).
    eapply wp_call; [apply wp_partitionEqual; lia|].
    intros mid l4 (Hr4 & Hm & p' & Hp' & Hpa & Hq1 & Hq2). simplify_eq.
    pose proof (rperm_zlen _ _ _ _ Hr4).
    eapply wp_mono; [apply IH; lia|]. intros [] l5 Hp5. by eapply (sort_equal a b mid pivot). }
  clear Heq. eapply wp_call; [apply wp_partition; lia|].
  intros [mid already] l4 [Hr4 Hp4]. pose proof (rperm_zlen _ _ _ _ Hr4).
  apply (wp_mono _ (fun _ => pdq_post cmp a b l4)); [|intros [] l; apply pdq_post_pre; [lia|done]].
  destruct (Hp4) as [Hm _]. wp_step.
  - eapply wp_call; [apply IH; lia|]. intros [] l5 H5.
    pose proof (rperm_zlen _ _ _ _ (proj1 H5)).
    eapply wp_mono; [apply IH; lia|]. intros [] l6 H6. eapply sort_sides_left; [done|lia|done|done].
  - eapply wp_call; [apply IH; lia|]. intros [] l5 H5.
    pose proof (rperm_zlen _ _ _ _ (proj1 H5)).
    eapply wp_mono; [apply IH; lia|]. intros [] l6 H6. eapply sort_sides_right; [done|lia|done|done].
Qed.

(** ** SortFunc *)

Lemma bounded_below_zero b l : bounded_below cmp 0 0 b l.
Proof. intros ?. lia. Qed.

Lemma sorted_range_list l : sorted_range lt 0 (zlen l) l -> sorted_list lt l.
Proof.
  unfold sorted_list. induction l as [|x l IH]; intros Hs; [constructor|]. constructor.
  - apply IH. intros i j y z ??? Hy Hz.
    apply (Hs (i + 1) (j + 1)); [lia..|rewrite zlen_cons; lia| |].
    + rewrite <- Hy. rewrite (at_app_r [x] l) by (unfold zlen; cbn; lia).
      f_equal. unfold zlen; cbn; lia.
    + rewrite <- Hz. rewrite (at_app_r [x] l) by (unfold zlen; cbn; lia).
      f_equal. unfold zlen; cbn; lia.
  - apply List.Forall_forall. intros y [i Hi]%list_elem_of_In%list_elem_of_lookup_1.
    apply (Hs 0 (Z.of_nat i + 1)); [lia..| |done|].
    + rewrite zlen_cons. apply lookup_lt_Some in Hi. unfold zlen. lia.
    + rewrite at_lookup by lia. by replace (Z.to_nat (Z.of_nat i + 1)) with (S i) by lia.
Qed.

Lemma wp_SortFunc l0 :
  zlen l0 < 2 ^ 62 ->
  wp (SortFunc cmp) (fun _ l => l ≡ₚ l0 /\ (StrictWeak lt -> sorted_list lt l)) l0.
Proof.
  intros Hmax. unfold SortFunc, pdqsortCmpFunc. wp_step. wp_step.
  pose proof (zlen_nonneg l0).
  eapply wp_mono; [apply wp_pdqsort; unfold span; lia|]. intros [] l [[Hp _] Hc].
  split; [done|]. intros sw. destruct (Hc sw (bounded_below_zero _ _)) as [_ Hs].
  rewrite <- (zlen_perm _ _ Hp) in Hs. by apply sorted_range_list.
Qed.
End Main.
