(* ===== verification/StableSort.v ===== *)
(** * SymMerge and the stable sort of [slices]

    Block exchanges ([swapRangeCmpFunc], [rotateCmpFunc]) as list equations,
    the in-place merge [symMergeCmpFunc] and the bottom-up [stableCmpFunc]. *)

From S2P Require Import Prelude.
From S2P Require Import Slice.
From S2P Require Import Bits.
From S2P Require Import Pdqsort.
From S2P Require Import SortOrder.
From S2P Require Import SimpleSorts.
From S2P Require Import Quicksort.

Section Rotate.
Context {E : Type}.
Implicit Types (l p u v : list E) (s m e i j k a b n : Z).

(** [l] with the adjacent blocks [l[s:m]] and [l[m:e]] exchanged. *)
Definition rotated s m e l : list E :=
  take (Z.to_nat s) l ++ sub m e l ++ sub s m l ++ drop (Z.to_nat e) l.

Lemma zlen_take i l : 0 <= i <= zlen l -> zlen (take (Z.to_nat i) l) = i.
Proof. unfold zlen. rewrite length_take. lia. Qed.
Lemma zlen_sub a b l : 0 <= a <= b -> b <= zlen l -> zlen (sub a b l) = b - a.
Proof. unfold zlen, sub. rewrite length_take, length_drop. lia. Qed.

Lemma at_take l n k : k < n -> at_ (take (Z.to_nat n) l) k = at_ l k.
Proof.
  intros Hk. unfold at_. destruct (Z.leb_spec 0 k); [|done]. apply lookup_take_lt. lia.
Qed.
Lemma at_drop l n k : 0 <= n -> 0 <= k -> at_ (drop (Z.to_nat n) l) k = at_ l (n + k).
Proof.
  intros Hn Hk. rewrite !at_lookup by lia. rewrite lookup_drop. f_equal. lia.
Qed.
Lemma at_sub l a b k : 0 <= a -> 0 <= k < b - a -> at_ (sub a b l) k = at_ l (a + k).
Proof.
  intros Ha Hk. unfold sub. rewrite <- Z2Nat.inj_sub by lia. rewrite at_take by lia.
  by apply at_drop; lia.
Qed.

Lemma blocks_split s m e l :
  0 <= s <= m -> m <= e ->
  l = take (Z.to_nat s) l ++ sub s m l ++ sub m e l ++ drop (Z.to_nat e) l.
Proof.
  intros Hs He. unfold sub. rewrite <- (take_drop (Z.to_nat s) l) at 1. f_equal.
  rewrite <- (take_drop (Z.to_nat m - Z.to_nat s) (drop (Z.to_nat s) l)) at 1. f_equal.
  rewrite drop_drop. replace (Z.to_nat s + (Z.to_nat m - Z.to_nat s))%nat with (Z.to_nat m) by lia.
  rewrite <- (take_drop (Z.to_nat e - Z.to_nat m) (drop (Z.to_nat m) l)) at 1. f_equal.
  rewrite drop_drop. f_equal. lia.
Qed.

Lemma at_rotated s m e l k :
  0 <= s <= m -> m <= e <= zlen l ->
  at_ (rotated s m e l) k =
    if decide (s <= k < s + (e - m)) then at_ l (k - s + m)
    else if decide (s + (e - m) <= k < e) then at_ l (k - (e - m)) else at_ l k.
Proof.
  intros Hs He. unfold rotated.
  pose proof (zlen_take s l ltac:(lia)) as L1. pose proof (zlen_sub m e l ltac:(lia) ltac:(lia)) as L2.
  pose proof (zlen_sub s m l ltac:(lia) ltac:(lia)) as L3.
  destruct (Z.lt_ge_cases k s).
  { rewrite !decide_False, at_app_l, at_take by lia. done. }
  rewrite at_app_r, L1 by lia. case_decide.
  { rewrite at_app_l, at_sub by lia. f_equal. lia. }
  rewrite at_app_r, L2 by lia. case_decide.
  { rewrite at_app_l, at_sub by lia. f_equal. lia. }
  rewrite at_app_r, L3, at_drop by lia. f_equal. lia.
Qed.

Lemma rotated_perm s m e l : 0 <= s <= m -> m <= e -> rotated s m e l ≡ₚ l.
Proof.
  intros. rewrite (blocks_split s m e l) at 2 by done. unfold rotated.
  apply Permutation_app_head. rewrite !app_assoc. apply Permutation_app_tail.
  apply Permutation_app_comm.
Qed.

Lemma rotated_rperm s m e l :
  0 <= s <= m -> m <= e <= zlen l -> rperm s e l (rotated s m e l).
Proof.
  intros. split; [apply rotated_perm; lia|]. intros k Hk.
  rewrite at_rotated, !decide_False by lia. done.
Qed.

Lemma rotated_l s e l : 0 <= s <= e -> e <= zlen l -> rotated s s e l = l.
Proof.
  intros. apply at_ext. intros k. rewrite at_rotated by lia.
  repeat case_decide; try lia; f_equal; lia.
Qed.
Lemma rotated_r s e l : 0 <= s <= e -> e <= zlen l -> rotated s e e l = l.
Proof.
  intros. apply at_ext. intros k. rewrite at_rotated by lia.
  repeat case_decide; try lia; f_equal; lia.
Qed.

Lemma rotated_stable (lt : E -> E -> bool) {sw : StrictWeak lt} s m e l :
  0 <= s <= m -> m <= e ->
  (forall x y, x ∈ sub s m l -> y ∈ sub m e l -> lt y x = true) ->
  stable lt l (rotated s m e l).
Proof.
  intros Hs He H. rewrite (blocks_split s m e l) at 1 by done. by apply stable_exchange.
Qed.

(** ** swapRangeCmpFunc and rotateCmpFunc *)

Lemma wp_swapRange p (x q y s : list E) n (Q : unit -> list E -> Prop) :
  zlen x = n -> zlen y = n -> Q tt (p ++ y ++ q ++ x ++ s) ->
  wp (swapRangeCmpFunc (zlen p) (zlen p + n + zlen q) n) Q (p ++ x ++ q ++ y ++ s).
Proof.
  intros Hx Hy HQ. set (a := zlen p). set (b := a + n + zlen q).
  set (l0 := p ++ x ++ q ++ y ++ s).
  pose proof (zlen_nonneg p). pose proof (zlen_nonneg q). pose proof (zlen_nonneg x).
  pose proof (zlen_nonneg s).
  assert (Hlen : zlen l0 = b + n + zlen s) by (unfold l0, b; rewrite !zlen_app; lia).
  unfold swapRangeCmpFunc.
  apply (wp_loop (fun i l => 0 <= i <= n /\ zlen l = zlen l0 /\ forall k, at_ l k =
      if decide (a <= k < a + i) then at_ l0 (k - a + b)
      else if decide (b <= k < b + i) then at_ l0 (k - b + a) else at_ l0 k)
    (fun i => Z.to_nat (n - i))).
  - split_and!; [lia..|]. intros k. by rewrite !decide_False by lia.
  - unfold span. lia.
  - intros i l (Hi & Hl & Hk). wp_step; reflect.
    + wp_step. apply wp_swap; [lia..|]. wp_steps. split; [|lia].
      split_and!; [lia..|by rewrite zlen_swapped|]. intros k. rewrite at_swapped, !Hk by lia.
      repeat case_decide; try lia; f_equal; lia.
    + wp_steps. assert (i = n) as -> by lia.
      replace l with (p ++ y ++ q ++ x ++ s); [done|]. apply at_ext. intros k. rewrite Hk.
      unfold l0, b, a in *. clear Hk Hlen Hl HQ.
      destruct (decide (k < zlen p)).
      { rewrite !decide_False, !at_app_l by lia. done. }
      rewrite at_app_r by lia. destruct (decide (k < zlen p + n)).
      { rewrite at_app_l, decide_True by lia.
        rewrite !(at_app_r p), (at_app_r x), (at_app_r q), at_app_l by lia. f_equal. lia. }
      rewrite at_app_r by lia. destruct (decide (k < zlen p + n + zlen q)).
      { rewrite at_app_l, !decide_False by lia.
        rewrite (at_app_r p), (at_app_r x), at_app_l by lia. f_equal. lia. }
      rewrite at_app_r by lia. rewrite decide_False by lia. case_decide.
      { rewrite at_app_l by lia. rewrite (at_app_r p), (at_app_l x) by lia. f_equal. lia. }
      rewrite at_app_r by lia.
      rewrite (at_app_r p), (at_app_r x), (at_app_r q), at_app_r by lia. f_equal. lia.
Qed.

Lemma wp_rotate a m b l0 (Q : unit -> list E -> Prop) :
  0 <= a < m -> m < b -> b <= zlen l0 -> Q tt (rotated a m b l0) ->
  wp (rotateCmpFunc a m b) Q l0.
Proof.
  intros Ha Hm Hb HQ. unfold rotateCmpFunc. cbv zeta.
  apply (wp_call _ _ (fun i l => 0 < i /\ exists pre u v post,
    l = pre ++ u ++ v ++ post /\ zlen pre = m - i /\ zlen u = i /\ zlen v = i /\
    rotated a m b l0 = pre ++ v ++ u ++ post)).
  { apply (wp_loop (fun '(i, j) l => 0 < i /\ 0 < j /\ exists pre u v post,
      l = pre ++ u ++ v ++ post /\ zlen pre = m - i /\ zlen u = i /\ zlen v = j /\
      rotated a m b l0 = pre ++ v ++ u ++ post) (fun '(i, j) => Z.to_nat (i + j))).
    - split_and!; [lia..|].
      exists (take (Z.to_nat a) l0), (sub a m l0), (sub m b l0), (drop (Z.to_nat b) l0).
      rewrite zlen_take, !zlen_sub by lia. split_and!; [|lia..|done].
      apply blocks_split; lia.
    - unfold span. lia.
    - intros [i j] l (Hi & Hj & pre & u & v & post & -> & Lp & Lu & Lv & HR).
      set (R := rotated a m b l0) in *. wp_step; reflect; [wp_step; reflect|].
      + wp_step. rewrite <- (take_drop (Z.to_nat j) u) in HR |- *.
        set (u1 := take _ u) in *. set (u2 := drop _ u) in *.
        assert (zlen u1 = j) by (apply zlen_take; lia).
        assert (zlen u2 = i - j).
        { pose proof (f_equal zlen (take_drop (Z.to_nat j) u)) as Hz.
          rewrite zlen_app in Hz. fold u1 u2 in Hz. lia. }
        rewrite <- (app_assoc u1). rewrite <- Lp.
        replace m with (zlen pre + j + zlen u2) by lia.
        apply wp_swapRange; [done..|]. wp_steps. split; [|lia]. split_and!; [lia..|].
        exists (pre ++ v), u2, u1, post. rewrite zlen_app. split_and!; [|lia..|].
        * by rewrite <- app_assoc.
        * by rewrite HR, <- !app_assoc.
      + wp_step. rewrite <- (take_drop (Z.to_nat (j - i)) v) in HR |- *.
        set (v1 := take _ v) in *. set (v2 := drop _ v) in *.
        assert (zlen v1 = j - i) by (apply zlen_take; lia).
        assert (zlen v2 = i).
        { pose proof (f_equal zlen (take_drop (Z.to_nat (j - i)) v)) as Hz.
          rewrite zlen_app in Hz. fold v1 v2 in Hz. lia. }
        rewrite <- (app_assoc v1). rewrite <- Lp.
        replace (m + j - i) with (zlen pre + i + zlen v1) by lia.
        apply wp_swapRange; [done..|]. wp_steps. split; [|lia]. split_and!; [lia..|].
        exists pre, v2, v1, (u ++ post). split_and!; [done|lia..|].
        by rewrite HR, <- !app_assoc.
      + wp_steps. split; [done|]. exists pre, u, v, post. split_and!; (done || lia). }
  intros i l (Hi & pre & u & v & post & -> & Lp & Lu & Lv & HR).
  rewrite <- Lp. replace m with (zlen pre + i + zlen (@nil E)) at 1 by (cbn; unfold zlen in *; cbn; lia).
  apply (wp_swapRange pre u [] v post i); [done..|]. by rewrite HR in HQ.
Qed.
End Rotate.

(** ** Bisection *)

Lemma avg_spec i j : 0 <= i < j -> j < 2 ^ 62 -> i <= avg i j < j.
Proof.
  intros Hi Hj. unfold avg. rewrite Z.shiftr_div_pow2 by lia. wrap.
  assert (i <= (i + j) / 2 ^ 1 < j) by divlia. wrap. done.
Qed.

(** The result of a bisection: a boundary between an index where the test
    succeeded and one where it failed; the test need not be monotone. *)
Lemma wp_bisect {St} (p : Z -> M St bool) (f : Z -> bool) i j (st : St) :
  0 <= i <= j -> j < 2 ^ 62 ->
  (forall h, i <= h < j -> wp (p h) (fun r st' => st' = st /\ r = f h) st) ->
  wp (bisect p i j)
     (fun r st' => st' = st /\ i <= r <= j /\
        (r = i \/ f (r - 1) = true) /\ (r = j \/ f r = false)) st.
Proof.
  intros Hi Hj Hp. unfold bisect.
  apply (wp_loop (fun '(i', j') st' => st' = st /\ i <= i' <= j' /\ j' <= j /\
      (i' = i \/ f (i' - 1) = true) /\ (j' = j \/ f j' = false))
      (fun '(i', j') => Z.to_nat (j' - i'))).
  - split_and!; [done|lia..|by left|by left].
  - unfold span. lia.
  - intros [i' j'] l' (-> & Hi' & Hj' & H1 & H2). wp_step; reflect; cbv zeta.
    + pose proof (avg_spec i' j' ltac:(lia) ltac:(lia)).
      eapply wp_call; [apply Hp; lia|]. intros r ? [-> Hr]. wp_steps.
      * split; [|lia]. split_and!; [done|lia..| |done]. right.
        by replace (avg i' j' + 1 - 1) with (avg i' j') by lia.
      * split; [|lia]. split_and!; [done|lia..|done|by right].
    + wp_steps. assert (i' = j') as <- by lia. split_and!; [done|lia..|done|done].
Qed.

Section Merge.
Context {E : Type} (cmp : E -> E -> Z).
#[local] Abbreviation lt := (less cmp).
Implicit Types (l : list E) (i j a b m s e : Z).

(** [lt] at two indices of a slice. *)
Definition lt_at l i j : bool :=
  match at_ l i, at_ l j with Some x, Some y => lt x y | _, _ => false end.

Lemma lt_at_eq l i j x y : at_ l i = Some x -> at_ l j = Some y -> lt_at l i j = lt x y.
Proof. unfold lt_at. by intros -> ->. Qed.

(** Shifting one element to the right or to the left by adjacent swaps. *)
Lemma wp_move_right a c b l0 :
  0 <= a <= c -> c < zlen l0 -> c < b ->
  wp (loop (span a b)
        (fun k => if k <? c then (swap k (k + 1) ;; continue (k + 1)) else break tt) a)
     (fun _ l => l = rotated a (a + 1) (c + 1) l0) l0.
Proof.
  intros Ha Hc Hb.
  apply (wp_loop (fun k l => a <= k <= c /\ l = rotated a (a + 1) (k + 1) l0)
           (fun k => Z.to_nat (b - k))).
  - split; [lia|]. by rewrite rotated_r by lia.
  - unfold span. lia.
  - intros k l (Hk & ->). pose proof (zlen_perm _ _ (rotated_perm a (a + 1) (k + 1) l0 ltac:(lia) ltac:(lia))).
    wp_step; reflect.
    + wp_step. apply wp_swap; [lia..|]. wp_steps. split; [|lia]. split; [lia|].
      apply at_ext. intros i. rewrite at_swapped by lia. rewrite !at_rotated by lia.
      repeat case_decide; try lia; f_equal; lia.
    + wp_steps. by replace k with c by lia.
Qed.

Lemma wp_move_left a i m l0 :
  0 <= a <= i -> i <= m -> m < zlen l0 ->
  wp (loop (span a (m + 1))
        (fun k => if k >? i then (swap k (k - 1) ;; continue (k - 1)) else break tt) m)
     (fun _ l => l = rotated i m (m + 1) l0) l0.
Proof.
  intros Ha Hi Hm.
  apply (wp_loop (fun k l => i <= k <= m /\ l = rotated k m (m + 1) l0)
           (fun k => Z.to_nat (k - a))).
  - split; [lia|]. by rewrite rotated_l by lia.
  - unfold span. lia.
  - intros k l (Hk & ->). pose proof (zlen_perm _ _ (rotated_perm k m (m + 1) l0 ltac:(lia) ltac:(lia))).
    wp_step; reflect.
    + wp_step. apply wp_swap; [lia..|]. wp_steps. split; [|lia]. split; [lia|].
      apply at_ext. intros j. rewrite at_swapped by lia. rewrite !at_rotated by lia.
      repeat case_decide; try lia; f_equal; lia.
    + wp_steps. by replace i with k by lia.
Qed.

(** What an exchange of [l[s:m]] and [l[m:e]] inside two sorted runs
    [l[a:m]] and [l[m:b]] achieves, when it separates the smaller elements
    from the greater ones: four sorted pieces, the first two below the others. *)
Definition separates a s m e b l : Prop :=
  a <= s <= m /\ m <= e <= b /\
  (forall x y, x ∈ sub s m l -> y ∈ sub m e l -> lt y x = true) /\
  (forall x y, x ∈ sub a s l -> y ∈ sub e b l -> le lt x y).

(** Boundary conditions of the bisections are enough for [separates]. *)
Lemma separates_intro {sw : StrictWeak lt} a s m e b l :
  0 <= a <= s -> s <= m <= e -> e <= b <= zlen l ->
  sorted_range lt a m l -> sorted_range lt m b l ->
  (s = m \/ m = e \/ lt_at l (e - 1) s = true) ->
  (a = s \/ e = b \/ lt_at l e (s - 1) = false) ->
  separates a s m e b l.
Proof.
  intros Ha Hs He S1 S2 H1 H2. split_and!; [lia..| |];
    intros x y (i & Hi & Hx)%elem_of_sub (j & Hj & Hy)%elem_of_sub.
  - destruct H1 as [|[|H1]]; [lia..|].
    destruct (at_ex l (e - 1)) as [v Hv]; [lia|]. destruct (at_ex l s) as [w Hw]; [lia|].
    rewrite (lt_at_eq _ _ _ v w) in H1 by done.
    assert (le lt y v).
    { destruct (decide (j = e - 1)) as [->|]; [simplify_eq; by apply le_refl|].
      apply (S2 j (e - 1)); [lia..|done|done]. }
    apply (le_lt_trans lt y v); [done|].
    destruct (decide (i = s)) as [->|]; [by simplify_eq|].
    apply (lt_le_trans lt v w); [done|]. apply (S1 s i); [lia..|done|done].
  - destruct H2 as [|[|H2]]; [lia..|].
    destruct (at_ex l e) as [v Hv]; [lia|]. destruct (at_ex l (s - 1)) as [w Hw]; [lia|].
    rewrite (lt_at_eq _ _ _ v w) in H2 by done.
    assert (le lt x w).
    { destruct (decide (i = s - 1)) as [->|]; [simplify_eq; by apply le_refl|].
      apply (S1 i (s - 1)); [lia..|done|done]. }
    apply (le_trans lt x w); [done|]. apply (le_trans lt w v); [done|].
    destruct (decide (j = e)) as [->|]; [simplify_eq; by apply le_refl|].
    apply (S2 e j); [lia..|done|done].
Qed.

Lemma rotated_pieces a s m e b l :
  0 <= a <= s -> s <= m <= e -> e <= b <= zlen l ->
  sorted_range lt a m l -> sorted_range lt m b l ->
  let l' := rotated s m e l in let mid := s + (e - m) in
  sorted_range lt a s l' /\ sorted_range lt s mid l' /\
  sorted_range lt mid e l' /\ sorted_range lt e b l'.
Proof.
  intros Ha Hs He S1 S2. cbv zeta.
  split_and!; intros i j x y ??? Hx Hy; rewrite at_rotated in Hx, Hy by lia;
    (rewrite ?decide_False in Hx by lia); (rewrite ?decide_False in Hy by lia);
    (rewrite ?decide_True in Hx by lia); (rewrite ?decide_True in Hy by lia).
  - apply (S1 i j); [lia..|done|done].
  - apply (S2 (i - s + m) (j - s + m)); [lia..|done|done].
  - apply (S1 (i - (e - m)) (j - (e - m))); [lia..|done|done].
  - apply (S2 i j); [lia..|done|done].
Qed.

Lemma rotated_halves {sw : StrictWeak lt} a s m e b l :
  0 <= a <= s -> s <= m <= e -> e <= b <= zlen l ->
  sorted_range lt a m l -> sorted_range lt m b l -> separates a s m e b l ->
  let l' := rotated s m e l in let mid := s + (e - m) in
  forall x y, x ∈ sub a mid l' -> y ∈ sub mid b l' -> le lt x y.
Proof.
  intros Ha Hs He S1 S2 (_ & _ & H1 & H2). cbv zeta.
  intros x y (i & Hi & Hx)%elem_of_sub (j & Hj & Hy)%elem_of_sub.
  rewrite at_rotated in Hx, Hy by lia.
  rewrite (decide_False (P := s <= j < _)) in Hy by lia.
  destruct (decide (s <= i < s + (e - m))), (decide (s + (e - m) <= j < e)).
  - apply lt_le; [done|]. apply H1; apply elem_of_sub; [eexists (j - (e - m))|eexists (i - s + m)];
      (split; [lia|done]).
  - apply (S2 (i - s + m) j); [lia..|done|done].
  - rewrite decide_False in Hx by lia. apply (S1 i (j - (e - m))); [lia..|done|done].
  - rewrite decide_False in Hx by lia. apply H2; apply elem_of_sub; eexists; (split; [|done]); lia.
Qed.
End Merge.

(** ** symMergeCmpFunc *)

Section SymMerge.
Context {E : Type} (cmp : E -> E -> Z).
#[local] Abbreviation lt := (less cmp).
Implicit Types (l : list E) (i j a b m s e : Z).

Definition merges a m b l0 l : Prop :=
  rperm a b l0 l /\
  (StrictWeak lt -> sorted_range lt a m l0 -> sorted_range lt m b l0 ->
   sorted_range lt a b l /\ stable lt l0 l).

(** The first run is one element, inserted before position [i]. *)
Lemma merges_insert_right a i b l :
  0 <= a -> a + 1 <= i <= b -> b <= zlen l ->
  (i = a + 1 \/ lt_at cmp l (i - 1) a = true) -> (i = b \/ lt_at cmp l i a = false) ->
  merges a (a + 1) b l (rotated a (a + 1) i l).
Proof.
  intros Ha Hi Hb H1 H2. split.
  { eapply rperm_mono; [apply rotated_rperm|..]; lia. }
  intros sw S1 S2.
  assert (Hsep : separates cmp a a (a + 1) i b l).
  { apply separates_intro; try lia; try done. destruct H1; [right; left; lia|auto]. }
  split; [|apply (rotated_stable lt); [lia..|apply Hsep]].
  pose proof (rotated_pieces cmp a a (a + 1) i b l ltac:(lia) ltac:(lia) ltac:(lia) S1 S2) as (_ & P2 & _ & P4).
  pose proof (rotated_halves cmp a a (a + 1) i b l ltac:(lia) ltac:(lia) ltac:(lia) S1 S2 Hsep) as PH.
  cbv zeta in *. apply (sorted_range_glue lt a (a + (i - (a + 1)))); [done| |done].
  apply (sorted_range_glue lt _ i); [apply sorted_range_empty; lia|done|].
  intros x y (k & Hk & Hx)%elem_of_sub (j & Hj & Hy)%elem_of_sub.
  rewrite at_rotated in Hx, Hy by lia. rewrite !decide_False in Hy by lia.
  rewrite decide_False, decide_True in Hx by lia.
  replace (k - (i - (a + 1))) with a in Hx by lia.
  destruct H2 as [|H2]; [lia|]. destruct (at_ex l i) as [v Hv]; [lia|].
  rewrite (lt_at_eq _ _ _ _ v x) in H2 by done. apply (le_trans lt x v); [done|].
  destruct (decide (j = i)) as [->|]; [simplify_eq; by apply le_refl|].
  apply (S2 i j); [lia..|done|done].
Qed.

(** The second run is one element, inserted at position [i]. *)
Lemma merges_insert_left a i m l :
  0 <= a <= i -> i <= m -> m + 1 <= zlen l ->
  (i = a \/ lt_at cmp l m (i - 1) = false) -> (i = m \/ lt_at cmp l m i = true) ->
  merges a m (m + 1) l (rotated i m (m + 1) l).
Proof.
  intros Ha Hi Hb H1 H2. split.
  { eapply rperm_mono; [apply rotated_rperm|..]; lia. }
  intros sw S1 S2.
  assert (Hsep : separates cmp a i m (m + 1) (m + 1) l).
  { apply separates_intro; try lia; try done.
    replace (m + 1 - 1) with m by lia. destruct H2; auto. }
  split; [|apply (rotated_stable lt); [lia..|apply Hsep]].
  pose proof (rotated_pieces cmp a i m (m + 1) (m + 1) l ltac:(lia) ltac:(lia) ltac:(lia) S1 S2)
    as (P1 & _ & P3 & _).
  pose proof (rotated_halves cmp a i m (m + 1) (m + 1) l ltac:(lia) ltac:(lia) ltac:(lia) S1 S2 Hsep) as PH.
  cbv zeta in *. apply (sorted_range_glue lt a (i + (m + 1 - m))); [|done|done].
  apply (sorted_range_glue lt _ i); [done|apply sorted_range_empty; lia|].
  intros x y (k & Hk & Hx)%elem_of_sub (j & Hj & Hy)%elem_of_sub.
  rewrite at_rotated in Hx, Hy by lia. rewrite !decide_False in Hx by lia.
  rewrite decide_True in Hy by lia. replace (j - i + m) with m in Hy by lia.
  destruct H1 as [|H1]; [lia|]. destruct (at_ex l (i - 1)) as [v Hv]; [lia|].
  rewrite (lt_at_eq _ _ _ _ y v) in H1 by done. apply (le_trans lt x v); [|done].
  destruct (decide (k = i - 1)) as [->|]; [simplify_eq; by apply le_refl|].
  apply (S1 k (i - 1)); [lia..|done|done].
Qed.

Lemma wp_lt_at_test i j l :
  0 <= i < zlen l -> 0 <= j < zlen l ->
  wp (less_at cmp i j) (fun r l' => l' = l /\ r = lt_at cmp l i j) l.
Proof.
  intros Hi Hj. apply wp_less_at; [done..|]. intros x y Hx Hy. split; [done|].
  symmetry. by apply lt_at_eq.
Qed.
Lemma wp_not_lt_at_test i j l :
  0 <= i < zlen l -> 0 <= j < zlen l ->
  wp (not_less_at cmp i j) (fun r l' => l' = l /\ r = negb (lt_at cmp l i j)) l.
Proof.
  intros Hi Hj. apply wp_not_less_at; [done..|]. intros x y Hx Hy. split; [done|].
  f_equal. symmetry. by apply lt_at_eq.
Qed.

(** One level of the recursion: the rotation separates, then both halves are
    merged (or are already one run). *)
Lemma merges_step a s m e b l l2 l3 :
  0 <= a <= s -> s <= m <= e -> e <= b <= zlen l ->
  let mid := s + (e - m) in
  (StrictWeak lt -> sorted_range lt a m l -> sorted_range lt m b l -> separates cmp a s m e b l) ->
  (l2 = rotated s m e l /\ (s <= a \/ mid <= s) \/ merges a s mid (rotated s m e l) l2) ->
  (l3 = l2 /\ (e <= mid \/ b <= e) \/ merges mid e b l2 l3) ->
  merges a m b l l3.
Proof.
  intros Ha Hs He mid Hsep H2 H3. set (l1 := rotated s m e l) in *.
  assert (R1 : rperm a b l l1) by (eapply rperm_mono; [apply rotated_rperm|..]; lia).
  assert (R2 : rperm a mid l1 l2).
  { destruct H2 as [[-> _]|[H2 _]]; [apply rperm_refl|done]. }
  assert (R3 : rperm mid b l2 l3).
  { destruct H3 as [[-> _]|[H3 _]]; [apply rperm_refl|done]. }
  split.
  { eapply rperm_trans; [done|]. eapply rperm_trans; (eapply rperm_mono; [done|lia..]). }
  intros sw S1 S2. specialize (Hsep sw S1 S2).
  pose proof (rotated_pieces cmp a s m e b l ltac:(lia) ltac:(lia) ltac:(lia) S1 S2) as (P1 & P2 & P3 & P4).
  pose proof (rotated_halves cmp a s m e b l ltac:(lia) ltac:(lia) ltac:(lia) S1 S2 Hsep) as PH.
  cbv zeta in P1, P2, P3, P4, PH. fold l1 mid in P1, P2, P3, P4, PH.
  assert (T1 : stable lt l l1) by (apply (rotated_stable lt); [lia..|apply Hsep]).
  assert (S2a : sorted_range lt a mid l2 /\ stable lt l1 l2).
  { destruct H2 as [[-> Hd]|[_ H2]]; [|by apply H2]. split; [|done].
    destruct Hd; [by eapply sorted_range_mono; [exact P2|lia..]
                 |by eapply sorted_range_mono; [exact P1|lia..]]. }
  assert (Q3 : sorted_range lt mid e l2).
  { eapply sorted_range_outside; [apply R2|right; lia|done]. }
  assert (Q4 : sorted_range lt e b l2).
  { eapply sorted_range_outside; [apply R2|right; lia|done]. }
  assert (S3 : sorted_range lt mid b l3 /\ stable lt l2 l3).
  { destruct H3 as [[-> Hd]|[_ H3]]; [|by apply H3]. split; [|done].
    destruct Hd; [by eapply sorted_range_mono; [exact Q4|lia..]
                 |by eapply sorted_range_mono; [exact Q3|lia..]]. }
  destruct S2a as [S2a T2], S3 as [S3 T3]. split; [|by do 2 (etransitivity; [done|])].
  apply (sorted_range_glue lt a mid); [|done|].
  - eapply sorted_range_outside; [apply R3|left; lia|done].
  - intros x y (i & Hi & Hx)%elem_of_sub Hy. rewrite (rperm_sub _ _ _ _ R3) in Hy.
    destruct R3 as [_ O3]. rewrite O3 in Hx by lia. apply PH.
    + rewrite <- (rperm_sub _ _ _ _ R2). apply elem_of_sub. eauto.
    + apply elem_of_sub in Hy as (j & Hj & Hy). destruct R2 as [_ O2].
      rewrite O2 in Hy by lia. apply elem_of_sub. eauto.
Qed.

Lemma wp_symMerge fuel a m b l0 :
  0 <= a < m -> m < b -> b <= zlen l0 -> zlen l0 < 2 ^ 62 -> b - a < Z.of_nat fuel ->
  wp (symMerge cmp fuel a m b) (fun _ => merges a m b l0) l0.
Proof.
  revert a m b l0. induction fuel as [|fuel IH]; intros a m b l0 Ha Hm Hb Hmax Hf; [lia|].
  cbn [symMerge]. wp_step; reflect.
  { eapply wp_call.
    { apply (wp_bisect _ (fun h => lt_at cmp l0 h a)); [lia..|]. intros h Hh.
      apply wp_lt_at_test; lia. }
    intros i ? (-> & Hi & H1 & H2). eapply wp_mono; [apply (wp_move_right a (i - 1) b); lia|].
    cbn beta. intros [] l ->. replace (i - 1 + 1) with i by lia. replace m with (a + 1) in * by lia.
    apply merges_insert_right; (lia || done). }
  wp_step; reflect.
  { eapply wp_call.
    { apply (wp_bisect _ (fun h => negb (lt_at cmp l0 m h))); [lia..|]. intros h Hh.
      apply wp_not_lt_at_test; lia. }
    intros i ? (-> & Hi & H1 & H2). replace b with (m + 1) in * by lia.
    eapply wp_mono; [apply (wp_move_left a i m); lia|]. cbn beta. intros [] l ->.
    rewrite negb_true_iff in H1. rewrite negb_false_iff in H2.
    apply merges_insert_left; (lia || done). }
  cbv zeta. set (mid := avg a b).
  assert (Hmid : 2 * mid <= a + b < 2 * mid + 2).
  { unfold mid, avg. rewrite Z.shiftr_div_pow2 by lia. wrap.
    assert (0 <= (a + b) / 2 ^ 1 < 2 ^ 62) by divlia. wrap. divlia. }
  set (sr := if m >? mid then (mid + m - b, mid) else (a, m)).
  assert (Hsr : exists s0 r0, sr = (s0, r0) /\ a <= s0 <= r0 /\ r0 <= m /\ r0 <= mid /\
    mid + m - s0 <= b /\ (s0 = a \/ mid + m - s0 = b) /\ (r0 = m \/ r0 = mid)).
  { unfold sr. destruct (m >? mid) eqn:Hgt; reflect; eexists _, _; (split; [done|]); lia. }
  clearbody sr. destruct Hsr as (s0 & r0 & -> & Hs0 & Hr0 & Hr0' & Hs0b & Hs0c & Hr0c).
  eapply wp_call.
  { apply (wp_bisect _ (fun c => negb (lt_at cmp l0 (mid + m - 1 - c) c))); [lia..|].
    intros c Hc. apply wp_not_lt_at_test; lia. }
  intros s ? (-> & Hs & H1 & H2). set (e := mid + m - s).
  rewrite negb_true_iff in H1. rewrite negb_false_iff in H2.
  assert (He : mid = s + (e - m)) by lia.
  apply (wp_call _ _ (fun _ l => l = rotated s m e l0)).
  { wp_step; reflect.
    - apply wp_rotate; (lia || done).
    - wp_steps. destruct (decide (s = m)) as [->|]; [by rewrite rotated_l by lia|].
      replace e with m by lia. by rewrite rotated_r by lia. }
  intros [] l1 ->. pose proof (zlen_perm _ _ (rotated_perm s m e l0 ltac:(lia) ltac:(lia))) as Hz.
  apply (wp_call _ _ (fun _ l2 => zlen l2 = zlen l0 /\
    (l2 = rotated s m e l0 /\ (s <= a \/ mid <= s) \/ merges a s mid (rotated s m e l0) l2))).
  { wp_step; reflect.
    - eapply wp_mono; [apply IH; lia|]. intros [] l2 Hl2. split; [|by right].
      by rewrite (rperm_zlen _ _ _ _ (proj1 Hl2)).
    - wp_steps. split; [done|left]. split; [done|lia]. }
  intros [] l2 [Hz2 Hl2].
  apply (wp_mono _ (fun _ l3 => l3 = l2 /\ (e <= mid \/ b <= e) \/ merges mid e b l2 l3)).
  { wp_step; reflect.
    - eapply wp_mono; [apply IH; lia|]. intros [] l3 Hl3. by right.
    - wp_steps. left. split; [done|lia]. }
  intros [] l3 Hl3. rewrite He in Hl2, Hl3.
  apply (merges_step a s m e b l0 l2 l3); [lia..| |done|done].
  intros sw S1 S2. apply separates_intro; [done|lia..|done|done| |].
  - destruct H2 as [|H2]; [lia|]. right; right. by replace (e - 1) with (mid + m - 1 - s) by lia.
  - destruct H1 as [|H1]; [lia|]. right; right.
    by replace e with (mid + m - 1 - (s - 1)) by lia.
Qed.

Lemma wp_symMergeCmpFunc a m b l0 :
  0 <= a < m -> m < b -> b <= zlen l0 -> zlen l0 < 2 ^ 62 ->
  wp (symMergeCmpFunc cmp a m b) (fun _ => merges a m b l0) l0.
Proof. intros. apply wp_symMerge; unfold span; lia. Qed.
End SymMerge.

(** ** stableCmpFunc *)

Section Stable.
Context {E : Type} (cmp : E -> E -> Z).
#[local] Abbreviation lt := (less cmp).
Implicit Types (l : list E) (i j a b m : Z).

(** Every block [t] of [bs] elements with its start in [lo, hi) is sorted. *)
Definition blocks bs n lo hi l : Prop :=
  forall t, 0 <= t -> lo <= t * bs < hi -> sorted_range lt (t * bs) (Z.min ((t + 1) * bs) n) l.

Lemma blocks_outside bs n lo hi a b l l' :
  0 < bs -> same_outside a b l l' -> (b <= lo \/ hi <= a /\ exists t, a = t * bs) ->
  blocks bs n lo hi l -> blocks bs n lo hi l'.
Proof.
  intros Hbs Ho Hd H t Ht Hlo. eapply sorted_range_outside; [done| |by apply H].
  destruct Hd as [|[? [u ->]]]; [right; lia|left].
  assert (t < u) by nia. nia.
Qed.

Lemma stable_refl_swo l : StrictWeak lt -> stable lt l l.
Proof. done. Qed.

(** First pass: blocks of 20 elements. *)
Lemma wp_stable_blocks bs n l0 :
  0 < bs -> 0 <= n -> n = zlen l0 ->
  wp (a <- loop (span 0 n)
             (fun '(a, b) =>
                if b <=? n then (insertionSortCmpFunc cmp a b ;; continue (b, b + bs))
                else break a) (0, bs) ;;
      insertionSortCmpFunc cmp a n)
     (fun _ l => l ≡ₚ l0 /\ (StrictWeak lt -> stable lt l0 l /\ blocks bs n 0 n l)) l0.
Proof.
  intros Hbs Hn Hlen.
  apply (wp_call _ _ (fun a l => 0 <= a <= n /\ n < a + bs /\ (exists t, a = t * bs) /\ l ≡ₚ l0 /\
    (StrictWeak lt -> stable lt l0 l /\ blocks bs n 0 a l))).
  { apply (wp_loop (fun '(a, b) l => b = a + bs /\ 0 <= a <= n /\ (exists t, a = t * bs) /\ l ≡ₚ l0 /\
      (StrictWeak lt -> stable lt l0 l /\ blocks bs n 0 a l)) (fun '(a, _) => Z.to_nat (n - a))).
    - split_and!; [lia..|by exists 0|done|]. intros _. split; [done|]. intros t Ht Hlo. lia.
    - unfold span. lia.
    - intros [a b] l (-> & Ha & [t Ht] & Hp & Hc). pose proof (zlen_perm _ _ Hp).
      wp_step; reflect; [|wp_steps; split_and!; [lia..|by exists t|done|done]].
      wp_step. eapply wp_mono; [apply wp_insertionSort; lia|]. intros [] l1 [[[Hp1 Ho1] Hs1] Hst1].
      wp_steps. split; [|lia]. split_and!; [lia..|exists (t + 1); lia|by rewrite Hp1|].
      intros sw. destruct (Hc sw) as [T B]. split; [etransitivity; [done|auto]|].
      intros u Hu Hlo. destruct (decide (u = t)) as [->|].
      + eapply sorted_range_mono; [by apply Hs1|lia || nia..].
      + assert (u < t) by nia. eapply sorted_range_outside; [done|left; nia|].
        apply B; nia. }
  intros a l (Ha & Hn' & [t Ht] & Hp & Hc). pose proof (zlen_perm _ _ Hp).
  eapply wp_mono; [apply wp_insertionSort; lia|]. intros [] l1 [[[Hp1 Ho1] Hs1] Hst1].
  split; [by rewrite Hp1|]. intros sw. destruct (Hc sw) as [T B].
  split; [etransitivity; [done|auto]|]. intros u Hu Hlo. destruct (decide (u = t)) as [->|].
  - eapply sorted_range_mono; [by apply Hs1|lia || nia..].
  - assert (u < t) by nia. eapply sorted_range_outside; [done|left; nia|]. apply B; nia.
Qed.

(** Merging the blocks [2u] and [2u+1] gives block [u] of twice the size. *)
Lemma blocks_merge bs n a m b l0 l :
  0 < bs -> (exists t, 0 <= t /\ a = t * (2 * bs)) -> m = a + bs -> m < b -> b = a + Z.min (2 * bs) (n - a) ->
  StrictWeak lt -> merges cmp a m b l0 l ->
  blocks (2 * bs) n 0 a l0 -> blocks bs n a n l0 ->
  blocks (2 * bs) n 0 (a + 2 * bs) l /\ blocks bs n (a + 2 * bs) n l /\ stable lt l0 l.
Proof.
  intros Hbs [t [Ht0 Ht]] -> Hm -> sw [Hr Hmg] B2 B1.
  destruct (Hmg sw) as [Hs T].
  { eapply sorted_range_mono; [apply (B1 (2 * t)); lia|lia..]. }
  { eapply sorted_range_mono; [apply (B1 (2 * t + 1)); lia|lia..]. }
  split_and!; [| |done].
  - intros u Hu Hlo. destruct (decide (u = t)) as [->|].
    + eapply sorted_range_mono; [done|lia..].
    + assert (u < t) by nia. eapply sorted_range_outside; [apply Hr|left; nia|]. apply B2; nia.
  - intros u Hu Hlo. eapply sorted_range_outside; [apply Hr|right; lia|]. apply B1; lia.
Qed.

Definition merge_pass (bs n : Z) : M (list E) unit :=
  a <- loop (span 0 n)
         (fun '(a, b) =>
            if b <=? n then (symMergeCmpFunc cmp a (a + bs) b ;; continue (b, b + 2 * bs))
            else break a) (0, 2 * bs) ;;
  let m := a + bs in
  if m <? n then symMergeCmpFunc cmp a m n else mret tt.

Lemma wp_merge_pass bs n l0 :
  0 < bs -> 0 <= n -> n = zlen l0 -> n < 2 ^ 62 ->
  wp (merge_pass bs n)
     (fun _ l => l ≡ₚ l0 /\ (StrictWeak lt -> blocks bs n 0 n l0 ->
        stable lt l0 l /\ blocks (2 * bs) n 0 n l)) l0.
Proof.
  intros Hbs Hn Hlen Hmax. unfold merge_pass.
  apply (wp_call _ _ (fun a l => 0 <= a <= n /\ n < a + 2 * bs /\
    (exists t, 0 <= t /\ a = t * (2 * bs)) /\ l ≡ₚ l0 /\
    (StrictWeak lt -> blocks bs n 0 n l0 ->
     stable lt l0 l /\ blocks (2 * bs) n 0 a l /\ blocks bs n a n l))).
  { apply (wp_loop (fun '(a, b) l => b = a + 2 * bs /\ 0 <= a <= n /\
      (exists t, 0 <= t /\ a = t * (2 * bs)) /\ l ≡ₚ l0 /\
      (StrictWeak lt -> blocks bs n 0 n l0 ->
       stable lt l0 l /\ blocks (2 * bs) n 0 a l /\ blocks bs n a n l))
      (fun '(a, _) => Z.to_nat (n - a))).
    - split_and!; [lia..|by exists 0|done|]. intros _ H. split_and!; [done| |done].
      intros t Ht Hlo. lia.
    - unfold span. lia.
    - intros [a b] l (-> & Ha & [t [Ht0 Ht]] & Hp & Hc). pose proof (zlen_perm _ _ Hp).
      wp_step; reflect; [|wp_steps; split_and!; [lia..|by exists t|done|done]].
      wp_step. eapply wp_mono; [apply wp_symMergeCmpFunc; lia|]. intros [] l1 Hm1. wp_steps.
      split; [|lia]. split_and!; [lia..|exists (t + 1); lia|by rewrite (proj1 (proj1 Hm1))|].
      intros sw B. destruct (Hc sw B) as (T & B2 & B1).
      destruct (blocks_merge bs n a (a + bs) (a + 2 * bs) l l1) as (? & ? & ?);
        [done|by exists t|lia|lia|lia|done|done|done|done|].
      split_and!; [by etransitivity|done|done]. }
  intros a l (Ha & Hn' & [t [Ht0 Ht]] & Hp & Hc). pose proof (zlen_perm _ _ Hp).
  cbv zeta. wp_step; reflect.
  - eapply wp_mono; [apply wp_symMergeCmpFunc; lia|]. intros [] l1 Hm1.
    split; [by rewrite (proj1 (proj1 Hm1))|]. intros sw B. destruct (Hc sw B) as (T & B2 & B1).
    destruct (blocks_merge bs n a (a + bs) n l l1) as (H1 & ? & ?);
      [done|by exists t|lia|lia|lia|done|done|done|done|].
    split; [by etransitivity|]. intros u Hu Hlo. apply H1; lia.
  - wp_steps. split; [done|]. intros sw B. destruct (Hc sw B) as (T & B2 & B1). split; [done|].
    intros u Hu Hlo. destruct (decide (u = t)) as [->|].
    + eapply sorted_range_mono; [apply (B1 (2 * t)); lia|lia..].
    + assert (u < t) by nia. apply B2; nia.
Qed.

Lemma wp_stableCmpFunc l0 :
  zlen l0 < 2 ^ 62 ->
  wp (stableCmpFunc cmp (zlen l0))
     (fun _ l => l ≡ₚ l0 /\ (StrictWeak lt -> sorted_list lt l /\ stable lt l0 l)) l0.
Proof.
  intros Hmax. unfold stableCmpFunc. cbv zeta. set (n := zlen l0).
  assert (Hn : 0 <= n) by apply zlen_nonneg.
  pose proof (wp_stable_blocks 20 n l0 ltac:(lia) Hn eq_refl) as HB.
  unfold wp, mbind in HB |- *. destruct (loop _ _ (0, 20) l0) as [[a l1]| |]; [|done..].
  destruct (insertionSortCmpFunc cmp a n l1) as [[[] l2]| |]; [|done..].
  destruct HB as [Hp2 HB].
  lazymatch goal with |- match ?m l2 with _ => _ end => change (wp m
    (fun _ l => l ≡ₚ l0 /\ (StrictWeak lt -> sorted_list lt l /\ stable lt l0 l)) l2) end.
  apply (wp_loop (fun bs l => 0 < bs /\ l ≡ₚ l0 /\
      (StrictWeak lt -> stable lt l0 l /\ blocks bs n 0 n l)) (fun bs => Z.to_nat (n - bs))).
  - split_and!; [lia|done|done].
  - unfold span. lia.
  - intros bs l (Hbs & Hp & Hc). pose proof (zlen_perm _ _ Hp).
    wp_step; reflect; cycle 1.
    { wp_steps. split; [done|]. intros sw. destruct (Hc sw) as [T B]. split; [|done].
      apply sorted_range_list. intros i j x y ??? Hx Hy.
      apply (B 0 ltac:(lia) ltac:(lia) i j); [lia..|done|done]. }
    pose proof (wp_merge_pass bs n l Hbs Hn ltac:(lia) ltac:(lia)) as HM.
    unfold merge_pass in HM. unfold wp, mbind in HM |- *.
    destruct (loop _ _ (0, 2 * bs) l) as [[a' l3]| |]; [|done..]. cbv zeta in *.
    lazymatch type of HM with match ?m with _ => _ end =>
      destruct m as [[[] l4]| |]; [|done..] end.
    destruct HM as [Hp4 HM]. unfold continue, mret. split; [|lia].
    split_and!; [lia|by rewrite Hp4|]. intros sw. destruct (Hc sw) as [T B].
    destruct (HM sw B). split; [by etransitivity|]. by replace (bs * 2) with (2 * bs) by lia.
Qed.

Lemma wp_SortStableFunc l0 :
  zlen l0 < 2 ^ 62 ->
  wp (SortStableFunc cmp)
     (fun _ l => l ≡ₚ l0 /\ (StrictWeak lt -> sorted_list lt l /\ stable lt l0 l)) l0.
Proof. intros. unfold SortStableFunc. wp_step. wp_step. by apply wp_stableCmpFunc. Qed.
End Stable.
