(* ===== verification/SortTheorems.v ===== *)
(** * slices: what sorting and searching promise

    The theorems about [SortFunc], [SortStableFunc], [heapSortCmpFunc],
    [BinarySearchFunc], [IsSortedFunc], [MinFunc] and [MaxFunc], each with a
    witness at a concrete slice. *)

From S2P Require Import Prelude.
From S2P Require Import Slice.
From S2P Require Import Bits.
From S2P Require Import Pdqsort.
From S2P Require Import SortOrder.
From S2P Require Import SimpleSorts.
From S2P Require Import Partition.
From S2P Require Import Quicksort.
From S2P Require Import StableSort.

(** Integers under subtraction: the comparison of the witnesses. *)
#[export] Instance StrictWeak_Zsub : StrictWeak (less Z.sub).
Proof.
  split; unfold less; [intros x|intros x y z|intros x y z]; rewrite ?Z.ltb_lt, ?Z.ltb_ge; lia.
Qed.

(** Pairs of integers compared by their first component. *)
Definition cmp_fst (x y : Z * Z) : Z := fst x - fst y.
#[export] Instance StrictWeak_fst : StrictWeak (less cmp_fst).
Proof.
  split; unfold less, cmp_fst; [intros [x1 x2]|intros [x1 x2] [y1 y2] [z1 z2]|intros [x1 x2] [y1 y2] [z1 z2]];
    cbn; rewrite ?Z.ltb_lt, ?Z.ltb_ge; lia.
Qed.

Section Scans.
Context {E : Type} (cmp : E -> E -> Z).
#[local] Abbreviation lt := (less cmp).
Implicit Types (l : list E) (i j k n : Z).

Lemma wp_IsSortedFunc l :
  wp (IsSortedFunc cmp) (fun r l' => l' = l /\ (r = true <->
      forall i x y, 0 < i < zlen l -> at_ l (i - 1) = Some x -> at_ l i = Some y -> le lt x y)) l.
Proof.
  unfold IsSortedFunc. wp_step. wp_step. pose proof (zlen_nonneg l).
    apply (wp_loop (fun i l' => l' = l /\ -1 <= i < zlen l /\
        (forall k x y, i < k < zlen l -> at_ l (k - 1) = Some x -> at_ l k = Some y -> le lt x y))
        (fun i => Z.to_nat i)).
    - split_and!; [done|lia..|intros; lia].
    - unfold span. lia.
    - intros i l' (-> & Hi & Hs). wp_step; reflect.
      + wp_step. apply wp_less_at; [lia..|]. intros x y Hx Hy. wp_steps.
        * split; [done|]. split; [done|]. intros Ha. specialize (Ha i y x ltac:(lia) Hy Hx).
          unfold le in Ha. congruence.
        * split; [|lia]. split_and!; [done|lia..|]. intros k v w Hk Hv Hw.
          destruct (decide (k = i)) as [->|]; [by simplify_eq|]. by apply (Hs k); [lia|..].
      + wp_steps. split; [done|]. split; [|done]. intros _ k v w Hk. apply Hs. lia.
Qed.

(** The scan of [MinFunc] and [MaxFunc]: keep the element that a test
    [better x m] prefers to the current one. *)
Lemma wp_best_scan (better : E -> E -> bool) {sw : StrictWeak better} n l m0 :
  n = zlen l -> at_ l 0 = Some m0 ->
  wp (loop (span 1 n)
        (fun '(i, m) => if i <? n then x <- load i ;; continue (i + 1, if better x m then x else m)
                        else break m) (1, m0))
     (fun m l' => l' = l /\ exists i, 0 <= i < n /\ at_ l i = Some m /\
        (forall j x, at_ l j = Some x -> better x m = false) /\
        (forall j x, j < i -> at_ l j = Some x -> better m x = true)) l.
Proof.
  intros Hn Hm0.
  assert (H0 : 0 < n) by (apply at_range in Hm0; lia).
  apply (wp_loop (fun '(k, m) l' => l' = l /\ 1 <= k <= n /\ exists i, 0 <= i < k /\ at_ l i = Some m /\
      (forall j x, j < k -> at_ l j = Some x -> better x m = false) /\
      (forall j x, j < i -> at_ l j = Some x -> better m x = true)) (fun '(k, _) => Z.to_nat (n - k))).
  - split_and!; [done|lia..|]. exists 0. split_and!; [lia..|done| |].
    + intros j x Hj Hx. pose proof (at_range _ _ _ Hx). replace j with 0 in Hx by lia.
      simplify_eq. apply sw_irrefl.
    + intros j x Hj Hx. apply at_range in Hx. lia.
  - unfold span. lia.
  - intros [k m] l' (-> & Hk & i & Hi & Hm & Hbest & Hfirst). wp_step; reflect.
    + wp_step. apply wp_load; [lia|]. intros x Hx. wp_step. split; [|lia].
      split_and!; [done|lia..|]. destruct (better x m) eqn:Hb.
      * exists k. split_and!; [lia..|done| |].
        -- intros j y Hj Hy. destruct (decide (j = k)) as [->|]; [simplify_eq; apply sw_irrefl|].
           pose proof (Hbest j y ltac:(lia) Hy). apply (le_trans better x m y); [|done].
           by apply lt_le.
        -- intros j y Hj Hy. apply (lt_le_trans better x m y); [done|].
           by apply (Hbest j).
      * exists i. split_and!; [lia..|done| |done].
        intros j y Hj Hy. destruct (decide (j = k)) as [->|]; [by simplify_eq|].
        apply (Hbest j); [lia|done].
    + wp_steps. split; [done|]. exists i. split_and!; [lia..|done| |done].
      intros j x Hx. pose proof (at_range _ _ _ Hx). apply (Hbest j); [lia|done].
Qed.
End Scans.

Lemma sorted_list_range {E} (lt : E -> E -> bool) l :
  sorted_list lt l -> sorted_range lt 0 (zlen l) l.
Proof.
  intros H i j x y Hi Hij Hj Hx Hy. rewrite at_lookup in Hx, Hy by lia.
  unfold sorted_list in H. rewrite <- (take_drop (Z.to_nat j) l) in H.
  eapply StronglySorted_app_1_elem_of; [exact H| |].
  - apply list_elem_of_lookup. exists (Z.to_nat i). rewrite lookup_take_lt by lia. done.
  - apply list_elem_of_lookup. exists 0%nat. rewrite lookup_drop, Nat.add_0_r. done.
Qed.

Section Theorems.
Context {E : Type}.
Implicit Types (l : list E) (i j k a b : Z).

(** C1: [SortFunc] sorts.  For every comparison function, even an inconsistent
    one, and every slice, the call returns (no index goes out of range, every loop
    and the recursion end) and leaves a permutation of the slice, which is
    sorted when the comparison is a strict weak order. *)
Theorem SortFunc_sorts (cmp : E -> E -> Z) l (Hlen : zlen l < 2 ^ 62) :
  exists l', SortFunc cmp l = Done (tt, l') /\ l' ≡ₚ l /\ (StrictWeak (less cmp) -> sorted_list (less cmp) l').
Proof.
  destruct (wp_elim _ _ _ (wp_SortFunc cmp l Hlen)) as ([] & l' & H & Hp & Hs). eauto.
Qed.

(** C9: [SortStableFunc] sorts and is stable: for every element [z], the
    elements equivalent to [z] stand in the result in their original order.
    The call returns for every slice. *)
Theorem SortStableFunc_stable (cmp : E -> E -> Z) (sw : StrictWeak (less cmp)) l
    (Hlen : zlen l < 2 ^ 62) :
  exists l', SortStableFunc cmp l = Done (tt, l') /\ l' ≡ₚ l /\ sorted_list (less cmp) l' /\
    forall z, List.filter (eqv (less cmp) z) l' = List.filter (eqv (less cmp) z) l.
Proof.
  destruct (wp_elim _ _ _ (wp_SortStableFunc cmp l Hlen)) as ([] & l' & H & Hp & Hs).
  destruct (Hs sw). eauto.
Qed.

Lemma wp_BinarySearchFunc {T : Type} (cmp : E -> T -> Z) (t : T) l :
  zlen l < 2 ^ 62 ->
  (forall i j x y, i < j -> at_ l i = Some x -> at_ l j = Some y -> Z.sgn (cmp x t) <= Z.sgn (cmp y t)) ->
  wp (BinarySearchFunc t cmp) (fun '(i, found) l' => l' = l /\ 0 <= i <= zlen l /\
    (forall j x, at_ l j = Some x -> (j < i <-> cmp x t < 0)) /\
    (found = true <-> exists j x, at_ l j = Some x /\ cmp x t = 0)) l.
Proof.
  intros Hlen Hmono.
  set (f := fun h => match at_ l h with Some x => cmp x t <? 0 | None => false end).
  unfold BinarySearchFunc. wp_step. wp_step. pose proof (zlen_nonneg l).
  eapply wp_call.
  { apply (wp_bisect _ f); [lia..|]. intros h Hh. wp_step. apply wp_load; [lia|].
    intros x Hx. wp_step. split; [done|]. unfold f. by rewrite Hx. }
  intros i ? (-> & Hi & H1 & H2).
  assert (Hpos : forall j x, at_ l j = Some x -> (j < i <-> cmp x t < 0)).
  { intros j x Hx. pose proof (at_range _ _ _ Hx). split; intros Hlt.
    - destruct H1 as [->|H1]; [lia|]. unfold f in H1.
      destruct (at_ l (i - 1)) as [y|] eqn:Hy; [|done]. reflect.
      destruct (decide (j = i - 1)) as [->|]; [congruence|].
      pose proof (Hmono j (i - 1) x y ltac:(lia) Hx Hy). lia.
    - destruct (Z.lt_ge_cases j i); [done|]. destruct H2 as [->|H2]; [lia|]. unfold f in H2.
      destruct (at_ex l i) as [y Hy]; [lia|]. rewrite Hy in H2. reflect.
      destruct (decide (j = i)) as [->|]; [replace y with x in * by congruence; lia|].
      pose proof (Hmono i j y x ltac:(lia) Hy Hx). lia. }
  apply (wp_call _ _ (fun r l' => l' = l /\ r = match at_ l i with Some x => cmp x t =? 0 | None => false end)).
  { wp_step; reflect.
    - wp_step. apply wp_load; [lia|]. intros x Hx. wp_step. by rewrite Hx.
    - wp_step. by rewrite at_None by lia. }
  intros r ? [-> ->]. wp_step. split_and!; [done|lia..|done|].
  destruct (at_ l i) as [x|] eqn:Hx.
  - rewrite Z.eqb_eq. split; [eauto|]. intros (j & y & Hy & Hz).
    assert (~ j < i) by (rewrite (Hpos j y Hy); lia).
    assert (~ cmp x t < 0) by (rewrite <- (Hpos i x Hx); lia).
    destruct (decide (i = j)) as [->|]; [congruence|].
    pose proof (Hmono i j x y ltac:(lia) Hx Hy). lia.
  - split; [done|]. intros (j & y & Hy & Hz). pose proof (at_range _ _ _ Hy).
    assert (j < i); [|rewrite (Hpos j y Hy) in *; lia].
    destruct (Z.lt_ge_cases j i); [done|]. destruct (at_ex l i); [lia|congruence].
Qed.
Lemma wp_MinFunc (cmp : E -> E -> Z) l : StrictWeak (less cmp) -> l <> [] ->
  wp (MinFunc cmp) (fun m l' => l' = l /\ exists i, 0 <= i < zlen l /\ at_ l i = Some m /\
    (forall j x, at_ l j = Some x -> less cmp x m = false) /\
    (forall j x, j < i -> at_ l j = Some x -> less cmp m x = true)) l.
Proof.
  intros sw Hne. assert (0 < zlen l) by (destruct l; [done|unfold zlen; cbn; lia]).
  unfold MinFunc. wp_step. wp_step. wp_step; reflect; [lia|]. wp_step. apply wp_load; [lia|]. intros m Hm. by apply wp_best_scan.
Qed.
Lemma wp_MaxFunc (cmp : E -> E -> Z) l : StrictWeak (fun x y => cmp x y >? 0) -> l <> [] ->
  wp (MaxFunc cmp) (fun m l' => l' = l /\ exists i, 0 <= i < zlen l /\ at_ l i = Some m /\
    (forall j x, at_ l j = Some x -> (cmp x m >? 0) = false) /\
    (forall j x, j < i -> at_ l j = Some x -> (cmp m x >? 0) = true)) l.
Proof.
  intros gw Hne. assert (0 < zlen l) by (destruct l; [done|unfold zlen; cbn; lia]).
  unfold MaxFunc. wp_step. wp_step. wp_step; reflect; [lia|]. wp_step. apply wp_load; [lia|]. intros m Hm.
  apply (wp_best_scan (fun x y => cmp x y >? 0)); done.
Qed.

(** C10: [BinarySearchFunc] on a slice whose comparisons with the target do
    not decrease returns the first position not before the target and tells
    exactly whether the target is in the slice.  [IsSortedFunc] decides sortedness
    under a strict weak order, and [MinFunc] and [MaxFunc] return the first smallest
    and the first greatest element.  None of them changes the slice. *)
Theorem search_and_select {T : Type} (cmpT : E -> T -> Z) (t : T) (cmp : E -> E -> Z) l :
  (zlen l < 2 ^ 62 ->
   (forall i j x y, i < j -> at_ l i = Some x -> at_ l j = Some y -> Z.sgn (cmpT x t) <= Z.sgn (cmpT y t)) ->
   exists i found, BinarySearchFunc t cmpT l = Done ((i, found), l) /\ 0 <= i <= zlen l /\
     (forall j x, at_ l j = Some x -> (j < i <-> cmpT x t < 0)) /\
     (found = true <-> exists j x, at_ l j = Some x /\ cmpT x t = 0)) /\
  (StrictWeak (less cmp) -> exists r, IsSortedFunc cmp l = Done (r, l) /\ (r = true <-> sorted_list (less cmp) l)) /\
  (StrictWeak (less cmp) -> StrictWeak (fun x y => cmp x y >? 0) -> l <> [] ->
   (exists m i, MinFunc cmp l = Done (m, l) /\ at_ l i = Some m /\
      (forall j x, at_ l j = Some x -> cmp x m >= 0) /\
      (forall j x, j < i -> at_ l j = Some x -> cmp m x < 0)) /\
   (exists m i, MaxFunc cmp l = Done (m, l) /\ at_ l i = Some m /\
      (forall j x, at_ l j = Some x -> cmp x m <= 0) /\
      (forall j x, j < i -> at_ l j = Some x -> cmp m x > 0))).
Proof.
  split; [|split; [intros sw|intros sw gw Hne; split]].
  - intros Hlen Hmono. destruct (wp_elim _ _ _ (wp_BinarySearchFunc cmpT t l Hlen Hmono)) as ([i found] & l' & HD & -> & ?). eauto.
  - pose proof (zlen_nonneg l) as Hpos. destruct (wp_elim _ _ _ (wp_IsSortedFunc cmp l)) as (r & l' & HD & -> & Hr). exists r. split; [done|]. rewrite Hr. split; intros H.
    + apply sorted_range_list, sorted_range_adjacent; [done|lia..|done].
    + intros i x y Hi Hx Hy. apply (sorted_list_range _ _ H (i - 1) i); [lia..|done|done].
  - destruct (wp_elim _ _ _ (wp_MinFunc cmp l sw Hne)) as (m & l' & HD & -> & i & Hi & Hm & H1 & H2). exists m, i. split_and!; [done|done| |].
    + intros j x Hx. specialize (H1 j x Hx). unfold less in H1. reflect. lia.
    + intros j x Hj Hx. specialize (H2 j x Hj Hx). unfold less in H2. by reflect.
  - destruct (wp_elim _ _ _ (wp_MaxFunc cmp l gw Hne)) as (m & l' & HD & -> & i & Hi & Hm & H1 & H2). exists m, i. split_and!; [done|done| |].
    + intros j x Hx. specialize (H1 j x Hx). reflect. lia.
    + intros j x Hj Hx. specialize (H2 j x Hj Hx). reflect. lia.
Qed.
End Theorems.

(** ** Witnesses *)

Definition sample : list Z := [5; 3; 8; 3; 1; 9; 2; 7; 6; 4; 0; 5; 8; 2; 6; 1].
Definition sample_pairs : list (Z * Z) := [(2, 1); (1, 2); (2, 3); (1, 4); (0, 5)].

Lemma SortFunc_sorts_witness :
  SortFunc Z.sub sample = Done (tt, [0; 1; 1; 2; 2; 3; 3; 4; 5; 5; 6; 6; 7; 8; 8; 9]) /\
  (exists l', SortFunc Z.sub sample = Done (tt, l') /\ l' ≡ₚ sample /\ sorted_list (less Z.sub) l') /\
  exists l', SortFunc (fun _ _ : Z => -1) sample = Done (tt, l') /\ l' ≡ₚ sample.
Proof.
  split; [vm_compute; reflexivity|]. split.
  - destruct (SortFunc_sorts Z.sub sample) as (l' & E & Hp & Hs); [vm_compute; reflexivity|]. exists l'. split; [exact E|]. split; [exact Hp|exact (Hs StrictWeak_Zsub)].
  - destruct (SortFunc_sorts (fun _ _ : Z => -1) sample) as (l' & E & Hp & _); [vm_compute; reflexivity|]. exists l'. split; [exact E|exact Hp].
Defined.

Lemma SortStableFunc_stable_witness :
  SortStableFunc cmp_fst sample_pairs = Done (tt, [(0, 5); (1, 2); (1, 4); (2, 1); (2, 3)]) /\
  exists l', SortStableFunc cmp_fst sample_pairs = Done (tt, l') /\ l' ≡ₚ sample_pairs /\
    sorted_list (less cmp_fst) l' /\
    forall z, List.filter (eqv (less cmp_fst) z) l' = List.filter (eqv (less cmp_fst) z) sample_pairs.
Proof.
  split; [vm_compute; reflexivity|].
  apply (SortStableFunc_stable cmp_fst StrictWeak_fst sample_pairs). vm_compute. reflexivity.
Defined.

Lemma search_and_select_witness :
  (exists i found, BinarySearchFunc 5 Z.sub [1; 3; 5; 5; 8] = Done ((i, found), [1; 3; 5; 5; 8]) /\
    0 <= i <= zlen [1; 3; 5; 5; 8] /\
    (forall j x, at_ [1; 3; 5; 5; 8] j = Some x -> (j < i <-> x - 5 < 0)) /\
    (found = true <-> exists j x, at_ [1; 3; 5; 5; 8] j = Some x /\ x - 5 = 0)) /\
  (exists r, IsSortedFunc Z.sub sample = Done (r, sample) /\ (r = true <-> sorted_list (less Z.sub) sample)) /\
  exists m, MinFunc Z.sub sample = Done (m, sample).
Proof.
  split.
  - apply (search_and_select Z.sub 5 Z.sub [1; 3; 5; 5; 8]); [vm_compute; reflexivity|].
    intros i j x y Hij Hx Hy. pose proof (at_range _ _ _ Hx). pose proof (at_range _ _ _ Hy).
    unfold zlen in *. cbn [length Z.of_nat] in *.
    assert (i = 0 \/ i = 1 \/ i = 2 \/ i = 3 \/ i = 4) as [->|[->|[->|[->| ->]]]] by lia;
    assert (j = 1 \/ j = 2 \/ j = 3 \/ j = 4) as [->|[->|[->| ->]]] by lia;
    try lia; vm_compute in Hx; vm_compute in Hy; simplify_eq; vm_compute; discriminate.
  - split; [apply (search_and_select Z.sub 5 Z.sub sample), StrictWeak_Zsub|].
    destruct (search_and_select Z.sub 5 Z.sub sample) as (_ & _ & H). destruct H as [(m & i & H & _) _]; [exact StrictWeak_Zsub| |discriminate|exists m; exact H].
    split; [intros x|intros x y z|intros x y z]; rewrite ?Z.gtb_lt, ?Z.gtb_ltb, ?Z.ltb_ge; lia.
Defined.
