(* ===== verification/Abt.v ===== *)
(** * cmd/compile/internal/abt: applicative balanced trees

    [src/src/cmd/compile/internal/abt/avlint32.go] at the level of its pointers:
    a store holds the [node32] objects and the [T] objects, [*node32] and [*T]
    are locations in it, and every allocation, field read and field write of the
    source is one here.  [any] is an optional value, [nil] being [None].

    Recursion and loops that descend a tree take the constant fuel [depth]: the
    height of a tree is an [int8].  Loops over all elements take their fuel from
    the recorded size. *)

From stdpp Require Import gmap.
From S2P Require Import Prelude.

Section Abt.
Context {D : Type} `{EqDecision D}.

(** [any]: comparisons [c != d] are those of the comparable type [D]. *)
Abbreviation any := (option D).
Definition loc : Type := positive.
(** [*node32]; [None] is [nil]. *)
Definition ptr : Type := option loc.

Definition LEAF_HEIGHT : Z := 1.
Definition ZERO_HEIGHT : Z := 0.
Definition NOT_KEY32 : Z := -0x80000000.

Record node32 : Type := Node32 { left : ptr; right : ptr; data : any; key : Z; height_ : Z }.
Record T : Type := MkT { root : ptr; size : Z }.
Record store : Type := Store { nodes : gmap loc node32; trees : gmap loc T }.

(** ** The store *)

(** Allocation returns a location above all those in use. *)
Definition fresh_loc {A} (m : gmap loc A) : loc := Pos.succ (map_fold (fun k _ a => Pos.max k a) 1%positive m).

Definition alloc_node (n : node32) : M store ptr := fun s =>
  let a := fresh_loc (nodes s) in
  Done (Some a, Store (<[a := n]> (nodes s)) (trees s)).
Definition deref (p : ptr) : M store node32 := fun s =>
  match p with
  | None => Panic NilDereference
  | Some a => match nodes s !! a with Some n => Done (n, s) | None => Panic NilDereference end
  end.
Definition update (p : ptr) (f : node32 -> node32) : M store unit := fun s =>
  match p with
  | None => Panic NilDereference
  | Some a =>
      match nodes s !! a with
      | Some n => Done (tt, Store (<[a := f n]> (nodes s)) (trees s))
      | None => Panic NilDereference
      end
  end.
Definition set_left (p q : ptr) : M store unit :=
  update p (fun n => Node32 q (right n) (data n) (key n) (height_ n)).
Definition set_right (p q : ptr) : M store unit :=
  update p (fun n => Node32 (left n) q (data n) (key n) (height_ n)).
Definition set_data (p : ptr) (d : any) : M store unit :=
  update p (fun n => Node32 (left n) (right n) d (key n) (height_ n)).
Definition set_key (p : ptr) (k : Z) : M store unit :=
  update p (fun n => Node32 (left n) (right n) (data n) k (height_ n)).
Definition set_height (p : ptr) (h : Z) : M store unit :=
  update p (fun n => Node32 (left n) (right n) (data n) (key n) h).

Definition alloc_T (t : T) : M store loc := fun s =>
  let a := fresh_loc (trees s) in Done (a, Store (nodes s) (<[a := t]> (trees s))).
Definition deref_T (t : loc) : M store T := fun s =>
  match trees s !! t with Some v => Done (v, s) | None => Panic NilDereference end.
Definition assign_T (t : loc) (v : T) : M store unit := fun s =>
  match trees s !! t with
  | Some _ => Done (tt, Store (nodes s) (<[t := v]> (trees s)))
  | None => Panic NilDereference
  end.

(** The height of a tree is at most [127]. *)
Definition depth : nat := 128.

(** ** Methods of [*node32] *)

Definition makeNode (key : Z) : M store ptr := alloc_node (Node32 None None None key LEAF_HEIGHT).

Definition nilOrData (n : ptr) : M store any :=
  match n with None => mret None | Some _ => n <- deref n ;; mret (data n) end.

Definition nilOrKeyAndData (n : ptr) : M store (Z * any) :=
  match n with
  | None => mret (NOT_KEY32, None)
  | Some _ => n <- deref n ;; mret (key n, data n)
  end.

Definition height (n : ptr) : M store Z :=
  match n with None => mret 0 | Some _ => n <- deref n ;; mret (height_ n) end.

Definition isLeaf (t : ptr) : M store bool :=
  n <- deref t ;;
  mret (bool_decide (left n = None) && bool_decide (right n = None) && (height_ n =? LEAF_HEIGHT)).

Definition copy (t : ptr) : M store ptr :=
  u <- deref t ;;
  alloc_node u.

Definition find (t : ptr) (key : Z) : M store ptr :=
  loop depth (fun t : ptr =>
    match t with
    | None => break None
    | Some _ =>
        n <- deref t ;;
        if key <? Abt.key n then continue (left n)
        else if key >? Abt.key n then continue (right n)
        else break t
    end) t.

Definition min (t : ptr) : M store ptr :=
  match t with
  | None => mret t
  | Some _ =>
      loop depth (fun t : ptr =>
        n <- deref t ;;
        if bool_decide (left n <> None) then continue (left n) else break t) t
  end.

Definition max (t : ptr) : M store ptr :=
  match t with
  | None => mret t
  | Some _ =>
      loop depth (fun t : ptr =>
        n <- deref t ;;
        if bool_decide (right n <> None) then continue (right n) else break t) t
  end.

Definition glb (t : ptr) (key : Z) (allow_eq : bool) : M store ptr :=
  loop depth (fun '(t, best) =>
    match t with
    | None => break best
    | Some _ =>
        n <- deref t ;;
        if key <=? Abt.key n then
          if allow_eq && (key =? Abt.key n) then break t else continue (left n, best)
        else continue (right n, t)
    end) (t, None : ptr).

Definition lub (t : ptr) (key : Z) (allow_eq : bool) : M store ptr :=
  loop depth (fun '(t, best) =>
    match t with
    | None => break best
    | Some _ =>
        n <- deref t ;;
        if key >=? Abt.key n then
          if allow_eq && (key =? Abt.key n) then break t else continue (right n, best)
        else continue (left n, t)
    end) (t, None : ptr).

(** [visitInOrder] with the state [X] the callback works on. *)
Fixpoint visitInOrder {X} (fuel : nat) (f : Z -> any -> X -> X) (t : ptr) (x : X) : M store X :=
  match fuel with
  | O => mnofuel
  | S fuel =>
      n <- deref t ;;
      x <- (if bool_decide (left n <> None) then visitInOrder fuel f (left n) x else mret x) ;;
      let x := f (key n) (data n) x in
      if bool_decide (right n <> None) then visitInOrder fuel f (right n) x else mret x
  end.

(** *** Rotations *)

Definition rightToRoot (t : ptr) : M store ptr :=
  tn <- deref t ;;
  let right := Abt.right tn in
  rn <- deref right ;;
  let rl := left rn in
  set_left right t ;;
  set_right t rl ;;
  hrl <- height rl ;;
  tn <- deref t ;;
  hl <- height (left tn) ;;
  set_height t (int8 (1 + Z.max hrl hl)) ;;
  ht <- height t ;;
  rn <- deref right ;;
  hrr <- height (Abt.right rn) ;;
  set_height right (int8 (1 + Z.max ht hrr)) ;;
  mret right.

Definition leftToRoot (t : ptr) : M store ptr :=
  tn <- deref t ;;
  let left := Abt.left tn in
  ln <- deref left ;;
  let lr := right ln in
  set_right left t ;;
  set_left t lr ;;
  hlr <- height lr ;;
  tn <- deref t ;;
  hr <- height (right tn) ;;
  set_height t (int8 (1 + Z.max hlr hr)) ;;
  ht <- height t ;;
  ln <- deref left ;;
  hll <- height (Abt.left ln) ;;
  set_height left (int8 (1 + Z.max ht hll)) ;;
  mret left.

Definition aRightIsHigh (t newnode : ptr) : M store ptr :=
  tn <- deref t ;;
  let right := Abt.right tn in
  rn <- deref right ;;
  hrr <- height (Abt.right rn) ;;
  hrl <- height (left rn) ;;
  (if hrr <? hrl then
     (if bool_decide (newnode <> left rn) then
        c <- copy (left rn) ;;
        set_left right c
      else mret tt) ;;
     right' <- leftToRoot right ;;
     set_right t right'
   else mret tt) ;;
  rightToRoot t.

Definition aLeftIsHigh (t newnode : ptr) : M store ptr :=
  tn <- deref t ;;
  let left := Abt.left tn in
  ln <- deref left ;;
  hll <- height (Abt.left ln) ;;
  hlr <- height (right ln) ;;
  (if hll <? hlr then
     (if bool_decide (newnode <> right ln) then
        c <- copy (right ln) ;;
        set_right left c
      else mret tt) ;;
     left' <- rightToRoot left ;;
     set_left t left'
   else mret tt) ;;
  leftToRoot t.

Definition aRebalanceAfterLeftDeletion (t : ptr) (oldLeftHeight : Z) (tleft : ptr) : M store ptr :=
  set_left t tleft ;;
  hl <- height tleft ;;
  n <- deref t ;;
  hr <- height (right n) ;;
  if (oldLeftHeight =? hl) || (oldLeftHeight =? hr) then mret t
  else if oldLeftHeight >? hr then
    set_height t (int8 (height_ n - 1)) ;;
    mret t
  else
    c <- copy (right n) ;;
    set_right t c ;;
    aRightIsHigh t None.

Definition aRebalanceAfterRightDeletion (t : ptr) (oldRightHeight : Z) (tright : ptr) : M store ptr :=
  set_right t tright ;;
  hr <- height tright ;;
  n <- deref t ;;
  hl <- height (left n) ;;
  if (oldRightHeight =? hr) || (oldRightHeight =? hl) then mret t
  else if oldRightHeight >? hl then
    set_height t (int8 (height_ n - 1)) ;;
    mret t
  else
    c <- copy (left n) ;;
    set_left t c ;;
    aLeftIsHigh t None.

(** *** Insertion and deletion *)

(** Returns [newroot], [newnode] and [oldnode]. *)
Fixpoint aInsert (fuel : nat) (t : ptr) (x : Z) : M store (ptr * ptr * ptr) :=
  match fuel with
  | O => mnofuel
  | S fuel =>
      n <- deref t ;;
      if x =? key n then
        newnode <- copy t ;;
        mret (newnode, newnode, t)
      else if x <? key n then
        if bool_decide (left n = None) then
          t <- copy t ;;
          n <- makeNode x ;;
          set_left t n ;;
          set_height t 2 ;;
          mret (t, n, None)
        else
          '(new_l, newnode, oldnode) <- aInsert fuel (left n) x ;;
          t <- copy t ;;
          set_left t new_l ;;
          hl <- height new_l ;;
          n <- deref t ;;
          hr <- height (right n) ;;
          if hl >? int8 (1 + hr) then
            newroot <- aLeftIsHigh t newnode ;;
            mret (newroot, newnode, oldnode)
          else
            hl <- height (left n) ;;
            set_height t (int8 (1 + Z.max hl hr)) ;;
            mret (t, newnode, oldnode)
      else
        if bool_decide (right n = None) then
          t <- copy t ;;
          n <- makeNode x ;;
          set_right t n ;;
          set_height t 2 ;;
          mret (t, n, None)
        else
          '(new_r, newnode, oldnode) <- aInsert fuel (right n) x ;;
          t <- copy t ;;
          set_right t new_r ;;
          hr <- height new_r ;;
          n <- deref t ;;
          hl <- height (left n) ;;
          if hr >? int8 (1 + hl) then
            newroot <- aRightIsHigh t newnode ;;
            mret (newroot, newnode, oldnode)
          else
            hr <- height (right n) ;;
            set_height t (int8 (1 + Z.max hl hr)) ;;
            mret (t, newnode, oldnode)
  end.

Fixpoint aDeleteMin (fuel : nat) (t : ptr) : M store (ptr * ptr) :=
  match fuel with
  | O => mnofuel
  | S fuel =>
      match t with
      | None => mret (None, None)
      | Some _ =>
          n <- deref t ;;
          if bool_decide (left n = None) then mret (t, right n)
          else
            oh <- height (left n) ;;
            '(d, tleft) <- aDeleteMin fuel (left n) ;;
            if bool_decide (tleft = left n) then mret (d, t)
            else
              c <- copy t ;;
              r <- aRebalanceAfterLeftDeletion c oh tleft ;;
              mret (d, r)
      end
  end.

Fixpoint aDeleteMax (fuel : nat) (t : ptr) : M store (ptr * ptr) :=
  match fuel with
  | O => mnofuel
  | S fuel =>
      match t with
      | None => mret (None, None)
      | Some _ =>
          n <- deref t ;;
          if bool_decide (right n = None) then mret (t, left n)
          else
            oh <- height (right n) ;;
            '(d, tright) <- aDeleteMax fuel (right n) ;;
            if bool_decide (tright = right n) then mret (d, t)
            else
              c <- copy t ;;
              r <- aRebalanceAfterRightDeletion c oh tright ;;
              mret (d, r)
      end
  end.

Fixpoint aDelete (fuel : nat) (t : ptr) (key : Z) : M store (ptr * ptr) :=
  match fuel with
  | O => mnofuel
  | S fuel =>
      match t with
      | None => mret (None, None)
      | Some _ =>
          n <- deref t ;;
          if key <? Abt.key n then
            oh <- height (left n) ;;
            '(d, tleft) <- aDelete fuel (left n) key ;;
            if bool_decide (tleft = left n) then mret (d, t)
            else
              c <- copy t ;;
              r <- aRebalanceAfterLeftDeletion c oh tleft ;;
              mret (d, r)
          else if key >? Abt.key n then
            oh <- height (right n) ;;
            '(d, tright) <- aDelete fuel (right n) key ;;
            if bool_decide (tright = right n) then mret (d, t)
            else
              c <- copy t ;;
              r <- aRebalanceAfterRightDeletion c oh tright ;;
              mret (d, r)
          else if height_ n =? LEAF_HEIGHT then mret (t, None)
          else
            hl <- height (left n) ;;
            hr <- height (right n) ;;
            if hl >? hr then
              oh <- height (left n) ;;
              '(d, tleft) <- aDeleteMax fuel (left n) ;;
              c <- copy t ;;
              dn <- deref d ;;
              set_data c (data dn) ;;
              set_key c (Abt.key dn) ;;
              r <- aRebalanceAfterLeftDeletion c oh tleft ;;
              mret (t, r)
            else
              oh <- height (right n) ;;
              '(d, tright) <- aDeleteMin fuel (right n) ;;
              c <- copy t ;;
              dn <- deref d ;;
              set_data c (data dn) ;;
              set_key c (Abt.key dn) ;;
              r <- aRebalanceAfterRightDeletion c oh tright ;;
              mret (t, r)
      end
  end.

(** *** Iterators

    The stack of parents, its top first.  An iterator owns its slice. *)

Definition iterator_t : Type := list ptr.

Definition leftmost (it : iterator_t) (t : ptr) : M store iterator_t :=
  loop depth (fun '(it, t) =>
    match t with
    | None => break it
    | Some _ => n <- deref t ;; continue (t :: it, left n)
    end) (it, t).

Definition iterator (t : ptr) : M store iterator_t :=
  match t with None => mret [] | Some _ => leftmost [] t end.

Definition it_done (it : iterator_t) : bool := match it with [] => true | _ => false end.

(** [for l > 0 && y == it.parents[l-1].right { y = it.parents[l-1]; l-- }] *)
Fixpoint pop_visited (y : ptr) (parents : iterator_t) : M store iterator_t :=
  match parents with
  | [] => mret []
  | p :: rest =>
      n <- deref p ;;
      if bool_decide (y = right n) then pop_visited p rest else mret parents
  end.

(** Returns the node visited and the new state of the iterator. *)
Definition next (it : iterator_t) : M store (ptr * iterator_t) :=
  match it with
  | [] => mret (None, [])
  | x :: parents =>
      n <- deref x ;;
      if bool_decide (right n <> None) then
        it <- leftmost it (right n) ;;
        mret (x, it)
      else
        it <- pop_visited x parents ;;
        mret (x, it)
  end.

(** ** Methods of [*T] *)

Definition IsEmpty (t : loc) : M store bool := v <- deref_T t ;; mret (bool_decide (root v = None)).
Definition IsSingle (t : loc) : M store bool :=
  v <- deref_T t ;;
  if bool_decide (root v <> None) then isLeaf (root v) else mret false.
Definition VisitInOrder {X} (t : loc) (f : Z -> any -> X -> X) (x : X) : M store X :=
  v <- deref_T t ;;
  if bool_decide (root v = None) then mret x else visitInOrder depth f (root v) x.
Definition Find (t : loc) (x : Z) : M store any :=
  v <- deref_T t ;;
  n <- find (root v) x ;;
  nilOrData n.

Definition sentinelError : panic := Explicit 2.

Definition Insert (t : loc) (x : Z) (data : any) : M store any :=
  if x =? NOT_KEY32 then mpanic sentinelError
  else
    v <- deref_T t ;;
    let n := root v in
    '(newroot, n, o) <- (if bool_decide (n = None) then n <- makeNode x ;; mret (n, n, None)
                         else aInsert depth n x) ;;
    r <- (if bool_decide (o <> None) then on <- deref o ;; mret (Abt.data on)
          else
            v <- deref_T t ;;
            assign_T t (MkT (root v) (int64 (size v + 1))) ;;
            mret None) ;;
    set_data n data ;;
    v <- deref_T t ;;
    assign_T t (MkT newroot (size v)) ;;
    mret r.

Definition Copy (t : loc) : M store loc := u <- deref_T t ;; alloc_T u.

Definition Delete (t : loc) (x : Z) : M store any :=
  v <- deref_T t ;;
  let n := root v in
  if bool_decide (n = None) then mret None
  else
    '(d, s) <- aDelete depth n x ;;
    if bool_decide (d = None) then mret None
    else
      assign_T t (MkT s (int64 (size v - 1))) ;;
      dn <- deref d ;;
      mret (data dn).

Definition DeleteMin (t : loc) : M store (Z * any) :=
  v <- deref_T t ;;
  let n := root v in
  if bool_decide (n = None) then mret (NOT_KEY32, None)
  else
    '(d, s) <- aDeleteMin depth n ;;
    if bool_decide (d = None) then mret (NOT_KEY32, None)
    else
      assign_T t (MkT s (int64 (size v - 1))) ;;
      dn <- deref d ;;
      mret (key dn, data dn).

Definition DeleteMax (t : loc) : M store (Z * any) :=
  v <- deref_T t ;;
  let n := root v in
  if bool_decide (n = None) then mret (NOT_KEY32, None)
  else
    '(d, s) <- aDeleteMax depth n ;;
    if bool_decide (d = None) then mret (NOT_KEY32, None)
    else
      assign_T t (MkT s (int64 (size v - 1))) ;;
      dn <- deref d ;;
      mret (key dn, data dn).

Definition Size (t : loc) : M store Z := v <- deref_T t ;; mret (size v).

Definition Min (t : loc) : M store (Z * any) :=
  v <- deref_T t ;; n <- min (root v) ;; nilOrKeyAndData n.
Definition Max (t : loc) : M store (Z * any) :=
  v <- deref_T t ;; n <- max (root v) ;; nilOrKeyAndData n.
Definition Glb (t : loc) (x : Z) : M store (Z * any) :=
  v <- deref_T t ;; n <- glb (root v) x false ;; nilOrKeyAndData n.
Definition GlbEq (t : loc) (x : Z) : M store (Z * any) :=
  v <- deref_T t ;; n <- glb (root v) x true ;; nilOrKeyAndData n.
Definition Lub (t : loc) (x : Z) : M store (Z * any) :=
  v <- deref_T t ;; n <- lub (root v) x false ;; nilOrKeyAndData n.
Definition LubEq (t : loc) (x : Z) : M store (Z * any) :=
  v <- deref_T t ;; n <- lub (root v) x true ;; nilOrKeyAndData n.

Definition Iterator (t : loc) : M store iterator_t := v <- deref_T t ;; iterator (root v).
Definition Done_ (it : iterator_t) : bool := it_done it.
Definition Next (it : iterator_t) : M store (Z * any * iterator_t) :=
  '(x, it) <- next it ;;
  match x with
  | None => mret (NOT_KEY32, None, it)
  | Some _ => n <- deref x ;; mret (key n, data n, it)
  end.

(** [for it := t.Iterator(); !it.Done(); { k, d := it.Next(); body }] for the
    [n] elements of a tree. *)
Definition for_each (t : loc) (n : Z) (body : Z -> any -> M store unit) : M store unit :=
  it <- Iterator t ;;
  loop (S (Z.to_nat n)) (fun it =>
    if negb (Done_ it) then
      '(k, d, it) <- Next it ;;
      body k d ;;
      continue it
    else break tt) it.

(** The lines with which the loops below end, [c] being [f(d, e)]:
    [if c != d { if c == nil { v.Delete(k) } else { v.Insert(k, c) } }].  All
    four compare with [t]'s data [d], also the two whose [v] is a copy of [u]. *)
Definition put_result (v : loc) (k : Z) (c d : any) : M store unit :=
  if bool_decide (c <> d) then
    if bool_decide (c = None) then Delete v k ;; mret tt
    else Insert v k c ;; mret tt
  else mret tt.

Definition Intersection (t u : loc) (f : option (any -> any -> any)) : M store loc :=
  st <- Size t ;;
  su <- Size u ;;
  if (st =? 0) || (su =? 0) then alloc_T (MkT None 0)
  else if st <=? su then
    v <- Copy t ;;
    for_each t st (fun k d =>
      e <- Find u k ;;
      if bool_decide (e = None) then Delete v k ;; mret tt
      else match f with
           | None => mret tt
           | Some f => put_result v k (f d e) d
           end) ;;
    mret v
  else
    v <- Copy u ;;
    for_each u su (fun k e =>
      d <- Find t k ;;
      if bool_decide (d = None) then Delete v k ;; mret tt
      else match f with
           | None => mret tt
           | Some f => put_result v k (f d e) d
           end) ;;
    mret v.

Definition Union (t u : loc) (f : option (any -> any -> any)) : M store loc :=
  st <- Size t ;;
  su <- Size u ;;
  if st =? 0 then mret u
  else if su =? 0 then mret t
  else if st >=? su then
    v <- Copy t ;;
    for_each u su (fun k e =>
      d <- Find t k ;;
      if bool_decide (d = None) then Insert v k e ;; mret tt
      else match f with
           | None => mret tt
           | Some f => put_result v k (f d e) d
           end) ;;
    mret v
  else
    v <- Copy u ;;
    for_each t st (fun k d =>
      e <- Find u k ;;
      if bool_decide (e = None) then Insert v k d ;; mret tt
      else match f with
           | None => mret tt
           | Some f => put_result v k (f d e) d
           end) ;;
    mret v.

Definition Difference (t u : loc) (f : option (any -> any -> any)) : M store loc :=
  st <- Size t ;;
  su <- Size u ;;
  if st =? 0 then alloc_T (MkT None 0)
  else if su =? 0 then mret t
  else
    v <- Copy t ;;
    for_each t st (fun k d =>
      e <- Find u k ;;
      if bool_decide (e <> None) then
        match f with
        | None => Delete v k ;; mret tt
        | Some f =>
            let c := f d e in
            if bool_decide (c = None) then Delete v k ;; mret tt
            else if bool_decide (c <> d) then Insert v k c ;; mret tt
            else mret tt
        end
      else mret tt) ;;
    mret v.

(** [equals] is [equiv] with the equality of the data. *)
Definition equiv (fuel : nat) (t u : ptr) (eqv : any -> any -> bool) : M store bool :=
  if bool_decide (t = u) then mret true
  else
    it <- iterator t ;;
    iu <- iterator u ;;
    loop fuel (fun '(it, iu) =>
      if negb (it_done it) && negb (it_done iu) then
        '(nt, it) <- next it ;;
        '(nu, iu) <- next iu ;;
        if bool_decide (nt = nu) then continue (it, iu)
        else
          tn <- deref nt ;;
          un <- deref nu ;;
          if negb (key tn =? key un) then break false
          else if negb (eqv (data tn) (data un)) then break false
          else continue (it, iu)
      else break (eqb (it_done it) (it_done iu))) (it, iu).
Definition equals (fuel : nat) (t u : ptr) : M store bool :=
  equiv fuel t u (fun x y => bool_decide (x = y)).

Definition Equiv (t u : loc) (eqv : any -> any -> bool) : M store bool :=
  if bool_decide (t = u) then mret true
  else
    st <- Size t ;;
    su <- Size u ;;
    if negb (st =? su) then mret false
    else
      tv <- deref_T t ;;
      uv <- deref_T u ;;
      equiv (S (Z.to_nat st)) (root tv) (root uv) eqv.
Definition Equals (t u : loc) : M store bool :=
  if bool_decide (t = u) then mret true
  else
    st <- Size t ;;
    su <- Size u ;;
    if negb (st =? su) then mret false
    else
      tv <- deref_T t ;;
      uv <- deref_T u ;;
      equals (S (Z.to_nat st)) (root tv) (root uv).
End Abt.
