(* ===== verification/AbtTree.v ===== *)
(** * abt: the trees a store represents

    A pointer of the store represents a finite tree whose nodes are labelled
    with their locations ([rep]).  Nodes may be shared between trees; within an
    ordered tree they are not, because a location determines its key. *)

From stdpp Require Import gmap.
From S2P Require Import Prelude.
From S2P Require Import Abt.

Section Tree.
Context {D : Type}.
Abbreviation any := (option D).

Inductive tree : Type :=
| E
| N (a : loc) (l : tree) (k : Z) (d : any) (h : Z) (r : tree).

#[export] Instance tree_empty_dec (t : tree) : Decision (t = E).
Proof. destruct t; [by left|by right]. Defined.

Definition rt (t : tree) : ptr := match t with E => None | N a _ _ _ _ _ => Some a end.
(** The recorded height. *)
Definition hf (t : tree) : Z := match t with E => 0 | N _ _ _ _ h _ => h end.

Fixpoint rep (m : gmap loc (node32 (D:=D))) (t : tree) : Prop :=
  match t with
  | E => True
  | N a l k d h r => m !! a = Some (Node32 (rt l) (rt r) d k h) /\ rep m l /\ rep m r
  end.

Fixpoint elements (t : tree) : list (Z * any) :=
  match t with
  | E => []
  | N _ l k d _ r => elements l ++ (k, d) :: elements r
  end.

Definition keys (t : tree) : list Z := (elements t).*1.
Definition bst (t : tree) : Prop := StronglySorted Z.lt (keys t).

Fixpoint avl (t : tree) : Prop :=
  match t with
  | E => True
  | N _ l _ _ h r => h = 1 + Z.max (hf l) (hf r) /\ hf l - hf r <= 1 /\ hf r - hf l <= 1 /\ avl l /\ avl r
  end.

(** The node at [c] is in the tree and has key [x]. *)
Fixpoint at_key (c : loc) (x : Z) (t : tree) : Prop :=
  match t with
  | E => False
  | N a l k _ _ r => (a = c /\ k = x) \/ at_key c x l \/ at_key c x r
  end.
Definition on (c : loc) (t : tree) : Prop := exists x, at_key c x t.

(** ** Ordered association lists *)

Fixpoint ins (x : Z) (d : any) (l : list (Z * any)) : list (Z * any) :=
  match l with
  | [] => [(x, d)]
  | (k, e) :: l' => if x <? k then (x, d) :: l else if x =? k then (x, d) :: l' else (k, e) :: ins x d l'
  end.
Fixpoint del (x : Z) (l : list (Z * any)) : list (Z * any) :=
  match l with
  | [] => []
  | (k, e) :: l' => if x =? k then l' else (k, e) :: del x l'
  end.
Fixpoint assoc (x : Z) (l : list (Z * any)) : option any :=
  match l with
  | [] => None
  | (k, e) :: l' => if x =? k then Some e else assoc x l'
  end.

Definition below (l : list (Z * any)) (x : Z) : Prop := forall k, k ∈ l.*1 -> k < x.
Definition above (l : list (Z * any)) (x : Z) : Prop := forall k, k ∈ l.*1 -> x < k.

Lemma below_cons k d l x : below ((k, d) :: l) x <-> k < x /\ below l x.
Proof. unfold below. cbn. setoid_rewrite elem_of_cons. naive_solver. Qed.
Lemma below_trans l x y : below l x -> x <= y -> below l y.
Proof. intros H ? k Hk. specialize (H k Hk). lia. Qed.
Lemma above_trans l x y : above l x -> y <= x -> above l y.
Proof. intros H ? k Hk. specialize (H k Hk). lia. Qed.

Lemma ins_l x d l k e r : x < k -> ins x d (l ++ (k, e) :: r) = ins x d l ++ (k, e) :: r.
Proof.
  intros Hx. induction l as [|[k' e'] l IH]; cbn.
  - by destruct (Z.ltb_spec x k); [|lia].
  - destruct (x <? k'), (x =? k'); try done. by rewrite IH.
Qed.
Lemma ins_r x d l r : below l x -> ins x d (l ++ r) = l ++ ins x d r.
Proof.
  intros Hl. induction l as [|[k' e'] l IH]; [done|]. apply below_cons in Hl as [? Hl]. cbn.
  destruct (Z.ltb_spec x k'), (Z.eqb_spec x k'); try lia. by rewrite IH.
Qed.
Lemma ins_ins x d d' l : ins x d (ins x d' l) = ins x d l.
Proof.
  induction l as [|[k e] l IH]; cbn.
  - by rewrite Z.ltb_irrefl, Z.eqb_refl.
  - destruct (Z.ltb_spec x k); cbn; [by rewrite Z.ltb_irrefl, Z.eqb_refl|].
    destruct (Z.eqb_spec x k); cbn; [by rewrite Z.ltb_irrefl, Z.eqb_refl|].
    destruct (Z.ltb_spec x k), (Z.eqb_spec x k); try lia. by rewrite IH.
Qed.
Lemma del_notin x l : x ∉ l.*1 -> del x l = l.
Proof.
  induction l as [|[k e] l IH]; [done|]. cbn. rewrite not_elem_of_cons. intros [? ?].
  destruct (Z.eqb_spec x k); [done|]. by rewrite IH.
Qed.
Lemma del_l x l r : x ∉ r.*1 -> del x (l ++ r) = del x l ++ r.
Proof.
  intros H. induction l as [|[k e] l IH]; cbn; [by apply del_notin|].
  destruct (x =? k); [done|]. by rewrite IH.
Qed.
Lemma del_r x l r : x ∉ l.*1 -> del x (l ++ r) = l ++ del x r.
Proof.
  induction l as [|[k e] l IH]; [done|]. cbn. rewrite not_elem_of_cons. intros [? ?].
  destruct (Z.eqb_spec x k); [done|]. by rewrite IH.
Qed.
Lemma assoc_app x l r : assoc x (l ++ r) = match assoc x l with Some d => Some d | None => assoc x r end.
Proof. induction l as [|[k e] l IH]; cbn; [done|]. by destruct (x =? k). Qed.
Lemma assoc_None x l : x ∉ l.*1 <-> assoc x l = None.
Proof.
  induction l as [|[k e] l IH]; cbn; [split; [done|by intros _ ?%not_elem_of_nil]|].
  rewrite not_elem_of_cons, IH. destruct (Z.eqb_spec x k); naive_solver.
Qed.

Lemma below_notin l x : below l x -> x ∉ l.*1.
Proof. intros H Hx. specialize (H x Hx). lia. Qed.
Lemma above_notin l x : above l x -> x ∉ l.*1.
Proof. intros H Hx. specialize (H x Hx). lia. Qed.

Lemma elem_of_ins x d l k : k ∈ (ins x d l).*1 <-> k = x \/ k ∈ l.*1.
Proof.
  induction l as [|[k' e] l IH]; cbn; [set_solver|].
  destruct (x <? k'); [set_solver|]. destruct (Z.eqb_spec x k'); cbn; set_solver.
Qed.
Lemma elem_of_del x l k : k ∈ (del x l).*1 -> k ∈ l.*1.
Proof. induction l as [|[k' e] l IH]; cbn; [done|]. destruct (x =? k'); cbn; set_solver. Qed.

Lemma ins_sorted x d l : StronglySorted Z.lt l.*1 -> StronglySorted Z.lt (ins x d l).*1.
Proof.
  induction l as [|[k e] l IH]; cbn; intros H; [repeat constructor|].
  apply StronglySorted_inv in H as [H Hf]. rewrite Forall_forall in Hf.
  destruct (Z.ltb_spec x k); [|destruct (Z.eqb_spec x k)]; cbn; constructor; cbn.
  - constructor; [done|by rewrite Forall_forall].
  - constructor; [done|]. rewrite Forall_forall. intros y Hy. specialize (Hf y Hy). lia.
  - done.
  - subst. by rewrite Forall_forall.
  - by apply IH.
  - rewrite Forall_forall. intros y Hy%elem_of_ins. destruct Hy; [lia|by apply Hf].
Qed.
Lemma del_sorted x l : StronglySorted Z.lt l.*1 -> StronglySorted Z.lt (del x l).*1.
Proof.
  induction l as [|[k e] l IH]; cbn; intros H; [constructor|].
  apply StronglySorted_inv in H as [H Hf]. rewrite Forall_forall in Hf.
  destruct (x =? k); cbn; [done|]. constructor; [by apply IH|].
  rewrite Forall_forall. intros y Hy%elem_of_del. by apply Hf.
Qed.

(** ** Ordered trees *)

Lemma keys_N a l k d h r : keys (N a l k d h r) = keys l ++ k :: keys r.
Proof. unfold keys. cbn. by rewrite fmap_app. Qed.

Lemma bst_elements t t' : elements t' = elements t -> bst t -> bst t'.
Proof. unfold bst, keys. by intros ->. Qed.

Lemma bst_N a l k d h r :
  bst (N a l k d h r) <-> bst l /\ bst r /\ below (elements l) k /\ above (elements r) k.
Proof.
  unfold bst. rewrite keys_N, StronglySorted_app. unfold below, above. fold (keys l) (keys r). split.
  - intros (Hlt & Hl & Hr). apply StronglySorted_inv in Hr as [Hr Hk]. rewrite Forall_forall in Hk.
    split; [done|]. split; [done|]. split; [|done]. intros k' ?. apply Hlt; [done|constructor].
  - intros (Hl & Hr & Hb & Ha). split; [|split; [done|constructor; [done|by apply Forall_forall]]].
    intros x y Hx [->|Hy]%elem_of_cons; [by apply Hb|]. specialize (Hb x Hx). specialize (Ha y Hy). lia.
Qed.

Lemma bst_left a l k d h r : bst (N a l k d h r) -> bst l.
Proof. rewrite bst_N. naive_solver. Qed.
Lemma bst_right a l k d h r : bst (N a l k d h r) -> bst r.
Proof. rewrite bst_N. naive_solver. Qed.

Lemma at_key_keys c x t : at_key c x t -> x ∈ keys t.
Proof.
  induction t as [|a l IHl k d h r IHr]; [done|]. rewrite keys_N, elem_of_app, elem_of_cons.
  intros [[_ <-]|[?|?]]; auto.
Qed.

(** ** Representation *)

Implicit Types (m : gmap loc (node32 (D:=D))) (t : tree).

Lemma rep_N m a l k d h r :
  m !! a = Some (Node32 (rt l) (rt r) d k h) -> rep m l -> rep m r -> rep m (N a l k d h r).
Proof. by intros. Qed.

Lemma rep_at_key m t c x : rep m t -> at_key c x t -> exists n, m !! c = Some n /\ key n = x.
Proof.
  induction t as [|a l IHl k d h r IHr]; [done|]. cbn. intros (Ha & Hl & Hr) [[<- <-]|[?|?]]; eauto.
Qed.

Lemma rep_on m t c : rep m t -> on c t -> is_Some (m !! c).
Proof. intros Hr [x Hx]. destruct (rep_at_key m t c x) as (n & ? & _); [done..|]. by exists n. Qed.

Lemma rep_fresh m t c : rep m t -> m !! c = None -> ~ on c t.
Proof. intros Hr Hc Ho. destruct (rep_on m t c Hr Ho). congruence. Qed.

(** Only the nodes of the tree matter. *)
Lemma rep_agree m m' t : rep m t -> (forall c, on c t -> m' !! c = m !! c) -> rep m' t.
Proof.
  induction t as [|a l IHl k d h r IHr]; [done|]. cbn. intros (Ha & Hl & Hr) H. split_and!.
  - rewrite H; [done|]. exists k. by left.
  - apply IHl; [done|]. intros c [x Hx]. apply H. exists x. cbn. auto.
  - apply IHr; [done|]. intros c [x Hx]. apply H. exists x. cbn. auto.
Qed.
Lemma rep_mono m m' t : m ⊆ m' -> rep m t -> rep m' t.
Proof.
  intros Hm H. eapply rep_agree; [exact H|]. intros c Hc. destruct (rep_on m t c H Hc) as [n Hn].
  rewrite Hn. by eapply lookup_weaken.
Qed.
Lemma rep_insert m t a n : ~ on a t -> rep m t -> rep (<[a := n]> m) t.
Proof.
  intros Ha H. eapply rep_agree; [exact H|]. intros c Hc. apply lookup_insert_ne. by intros ->.
Qed.

Lemma on_N c a l k d h r : on c (N a l k d h r) <-> a = c \/ on c l \/ on c r.
Proof. unfold on. cbn. naive_solver. Qed.

(** A location of an ordered tree occurs once. *)
Lemma bst_unshared m a l k d h r :
  rep m (N a l k d h r) -> bst (N a l k d h r) ->
  ~ on a l /\ ~ on a r /\ forall c, on c l -> ~ on c r.
Proof.
  intros (Ha & Hl & Hr) (_ & _ & Hb & Hab)%bst_N. split_and!.
  - intros [x Hx]. destruct (rep_at_key m l a x) as (n & E1 & E2); [done..|].
    rewrite Ha in E1. injection E1 as <-. cbn in E2. apply at_key_keys, Hb in Hx. lia.
  - intros [x Hx]. destruct (rep_at_key m r a x) as (n & E1 & E2); [done..|].
    rewrite Ha in E1. injection E1 as <-. cbn in E2. apply at_key_keys, Hab in Hx. lia.
  - intros c [x Hx] [y Hy]. destruct (rep_at_key m l c x) as (n & E1 & <-); [done..|].
    destruct (rep_at_key m r c y) as (n' & E2 & <-); [done..|]. rewrite E1 in E2. injection E2 as <-.
    apply at_key_keys, Hb in Hx. apply at_key_keys, Hab in Hy. lia.
Qed.

(** ** Heights *)

Lemma avl_hf_pos t : avl t -> 0 <= hf t /\ (t <> E -> 1 <= hf t).
Proof. induction t as [|a l IHl k d h r IHr]; cbn; [naive_solver lia|]. intros (-> & ? & ? & Hl & Hr). naive_solver lia. Qed.
Lemma avl_nonneg t : avl t -> 0 <= hf t.
Proof. apply avl_hf_pos. Qed.
Lemma avl_leaf t : avl t -> hf t = 0 -> t = E.
Proof. intros H. destruct (avl_hf_pos t H). destruct t; [done|]. intros. assert (1 <= 0) by naive_solver lia. lia. Qed.

(** A balanced tree of [n] elements has a height logarithmic in [n]. *)
Lemma avl_height t : avl t -> 2 ^ hf t <= (Z.of_nat (length (elements t)) + 1) ^ 2.
Proof.
  induction t as [|a l IHl k d h r IHr]; [done|]. cbn [avl hf elements]. intros (-> & H1 & H2 & Hl & Hr).
  specialize (IHl Hl). specialize (IHr Hr). apply avl_nonneg in Hl, Hr.
  rewrite length_app. cbn [length]. set (x := Z.of_nat (length (elements l))) in *.
  set (y := Z.of_nat (length (elements r))) in *.
  replace (Z.of_nat (_ + S _)) with (x + y + 1) by (unfold x, y; lia).
  assert (0 <= x) by (unfold x; lia). assert (0 <= y) by (unfold y; lia). clearbody x y.
  assert (K : forall p q hp hq, 0 <= p -> 0 <= q -> 0 <= hp -> hq - hp <= 1 -> hp <= hq ->
     2 ^ hp <= (p + 1) ^ 2 -> 2 ^ hq <= (q + 1) ^ 2 -> 2 ^ (1 + hq) <= (p + q + 2) ^ 2).
  { intros p q hp hq Hp Hq Hhp Hd Hle Ep Eq. rewrite !Z.pow_2_r in *.
    assert (2 ^ (1 + hq) = 2 * 2 ^ hq) as -> by (rewrite Z.pow_add_r by lia; lia).
    assert (2 ^ hq <= 2 * 2 ^ hp).
    { replace (2 * 2 ^ hp) with (2 ^ (1 + hp)) by (rewrite Z.pow_add_r by lia; lia).
      apply Z.pow_le_mono_r; lia. }
    assert (0 < 2 ^ hp) by lia. destruct (Z.le_ge_cases p q); nia. }
  destruct (Z.le_ge_cases (hf l) (hf r)).
  - rewrite Z.max_r by lia. replace (x + y + 1 + 1) with (x + y + 2) by lia. by apply (K x y (hf l) (hf r)); try lia.
  - rewrite Z.max_l by lia. replace (x + y + 1 + 1) with (y + x + 2) by lia. by apply (K y x (hf r) (hf l)); try lia.
Qed.

Lemma avl_height_bound t : avl t -> Z.of_nat (length (elements t)) < 2 ^ 60 -> hf t <= 120.
Proof.
  intros H Hn. apply avl_height in H. destruct (Z.le_gt_cases (hf t) 120) as [|G]; [done|].
  assert (2 ^ 121 <= 2 ^ hf t) by (apply Z.pow_le_mono_r; lia).
  rewrite Z.pow_2_r in H. nia.
Qed.
End Tree.
