(* ===== verification/AbtOps.v ===== *)
(** * abt: rotations, insertion and deletion on represented trees

    Each operation is described by the tree its result represents.  [hp] is the
    heap an update started from: everything that may be shared lies in it, and
    it is never written to. *)

From stdpp Require Import gmap.
From S2P Require Import Prelude.
From S2P Require Import Abt.
From S2P Require Import AbtTree.

Section Ops.
Context {D : Type} `{EqDecision D}.
Abbreviation any := (option D).
Implicit Types (m hp : gmap loc (node32 (D:=D))) (ts : gmap loc T) (t l r : tree (D:=D)).

Lemma fresh_loc_spec {A} (g : gmap loc A) : g !! fresh_loc g = None.
Proof.
  unfold fresh_loc.
  assert (H : forall a, is_Some (g !! a) -> (a <= map_fold (fun k _ a => Pos.max k a) 1 g)%positive).
  { apply (map_fold_weak_ind (fun acc (g : gmap loc A) => forall a, is_Some (g !! a) -> (a <= acc)%positive)).
    - intros a [x Hx]. by rewrite lookup_empty in Hx.
    - intros k x g' acc Hk IH a [y Hy]. destruct (decide (a = k)) as [->|Hne]; [lia|].
      rewrite lookup_insert_ne in Hy by done. specialize (IH a (ex_intro _ y Hy)). lia. }
  destruct (g !! _) eqn:G; [|done]. specialize (H _ (ex_intro _ _ G)). lia.
Qed.

(** ** Rules for the store *)

Lemma wp_alloc_node m ts n (Q : ptr -> store -> Prop) :
  (forall a, m !! a = None -> Q (Some a) (Store (<[a := n]> m) ts)) -> wp (alloc_node n) Q (Store m ts).
Proof. intros H. apply H, fresh_loc_spec. Qed.
Lemma wp_deref m ts a n (Q : node32 -> store -> Prop) :
  m !! a = Some n -> Q n (Store m ts) -> wp (deref (Some a)) Q (Store m ts).
Proof. intros H HQ. unfold wp, deref. cbn. by rewrite H. Qed.
Lemma wp_update m ts a n f (Q : unit -> store -> Prop) :
  m !! a = Some n -> Q tt (Store (<[a := f n]> m) ts) -> wp (update (Some a) f) Q (Store m ts).
Proof. intros H HQ. unfold wp, update. cbn. by rewrite H. Qed.
Lemma wp_height m ts t (Q : Z -> store -> Prop) :
  rep m t -> Q (hf t) (Store m ts) -> wp (height (rt t)) Q (Store m ts).
Proof.
  destruct t as [|a l k d h r]; cbn; [done|]. intros (Ha & _ & _) HQ. unfold height.
  apply wp_bind. by eapply wp_deref.
Qed.
Lemma wp_height_at m ts a n (Q : Z -> store -> Prop) :
  m !! a = Some n -> Q (height_ n) (Store m ts) -> wp (height (Some a)) Q (Store m ts).
Proof. intros Ha HQ. unfold height. apply wp_bind. by eapply wp_deref. Qed.
Lemma wp_copy m ts a n (Q : ptr -> store -> Prop) :
  m !! a = Some n -> (forall c, m !! c = None -> Q (Some c) (Store (<[c := n]> m) ts)) ->
  wp (copy (Some a)) Q (Store m ts).
Proof. intros Ha HQ. unfold copy. apply wp_bind. eapply wp_deref; [done|]. by apply wp_alloc_node. Qed.

Lemma wp_deref_T m ts a v (Q : T -> store -> Prop) :
  ts !! a = Some v -> Q v (Store m ts) -> wp (deref_T a) Q (Store m ts).
Proof. intros H HQ. unfold wp, deref_T. cbn. by rewrite H. Qed.
Lemma wp_assign_T m ts a v v' (Q : unit -> store -> Prop) :
  ts !! a = Some v -> Q tt (Store m (<[a := v']> ts)) -> wp (assign_T a v') Q (Store m ts).
Proof. intros H HQ. unfold wp, assign_T. cbn. by rewrite H. Qed.
Lemma wp_alloc_T m ts v (Q : loc -> store -> Prop) :
  (forall a, ts !! a = None -> Q a (Store m (<[a := v]> ts))) -> wp (alloc_T v) Q (Store m ts).
Proof. intros H. apply H, fresh_loc_spec. Qed.
End Ops.

(** [abt_lookup] reads a location of an updated heap, [abt_step] runs one
    operation on the store. *)
Ltac abt_lookup :=
  repeat first [rewrite lookup_insert_eq | rewrite lookup_insert_ne by congruence]; first [reflexivity | eassumption].
Ltac abt_rep := first [assumption | apply rep_insert; [assumption|abt_rep]].
Ltac abt_step :=
  lazymatch goal with
  | |- wp (mbind _ _) _ _ => apply wp_bind
  | |- wp (mret _) _ _ => apply wp_ret
  | |- wp (deref (Some _)) _ _ => eapply wp_deref; [abt_lookup|]
  | |- wp (height (Some _)) _ _ => eapply wp_height_at; [abt_lookup|]
  | |- wp (height (rt ?t)) _ _ => apply (wp_height _ _ t); [abt_rep|]
  | |- wp (set_left (Some _) _) _ _ => eapply wp_update; [abt_lookup|]
  | |- wp (set_right (Some _) _) _ _ => eapply wp_update; [abt_lookup|]
  | |- wp (set_data (Some _) _) _ _ => eapply wp_update; [abt_lookup|]
  | |- wp (set_key (Some _) _) _ _ => eapply wp_update; [abt_lookup|]
  | |- wp (set_height (Some _) _) _ _ => eapply wp_update; [abt_lookup|]
  end; cbn [left right data key height_ rt].
Ltac abt_steps := repeat abt_step.

(** The heights after a rotation do not wrap around. *)
Ltac unwrap h :=
  lazymatch goal with
  | h := int8 ?z |- _ =>
      let E := fresh "E" in
      cbn [hf] in *; assert (E : h = z) by (apply int8_id; cbn [hf]; lia); clearbody h; subst h;
      rewrite int8_id in * by (cbn [hf]; lia)
  end.

(** [conclude HQ H] hands the tree that [H] says is represented to [HQ]. *)
Ltac conclude HQ H := match type of H with rep ?m ?t => apply (HQ m t) end.

Section Rotations.
Context {D : Type} `{EqDecision D}.
Abbreviation any := (option D).
Implicit Types (m hp : gmap loc (node32 (D:=D))) (ts : gmap loc T) (t l r : tree (D:=D)).

(** The facts about the locations of the two nodes a rotation writes. *)
Lemma unshared_left m a b ll kb db hb lr k d h r :
  rep m (N a (N b ll kb db hb lr) k d h r) -> bst (N a (N b ll kb db hb lr) k d h r) ->
  a <> b /\ ~ on a ll /\ ~ on a lr /\ ~ on a r /\ ~ on b ll /\ ~ on b lr /\ ~ on b r.
Proof.
  intros Hr Hb. destruct (bst_unshared _ _ _ _ _ _ _ Hr Hb) as (H1 & H2 & H3).
  destruct Hr as (_ & Hl & _). destruct (bst_unshared _ _ _ _ _ _ _ Hl (bst_left _ _ _ _ _ _ Hb)) as (H4 & H5 & _).
  specialize (H3 b). rewrite on_N in H1. rewrite on_N in H3. naive_solver.
Qed.
Lemma unshared_right m a b rl kb db hb rr k d h l :
  rep m (N a l k d h (N b rl kb db hb rr)) -> bst (N a l k d h (N b rl kb db hb rr)) ->
  a <> b /\ ~ on a rl /\ ~ on a rr /\ ~ on a l /\ ~ on b rl /\ ~ on b rr /\ ~ on b l.
Proof.
  intros Hr Hb. destruct (bst_unshared _ _ _ _ _ _ _ Hr Hb) as (H1 & H2 & H3).
  destruct Hr as (_ & _ & Hl). destruct (bst_unshared _ _ _ _ _ _ _ Hl (bst_right _ _ _ _ _ _ Hb)) as (H4 & H5 & _).
  pose proof (fun H => H3 b H (proj2 (on_N _ _ _ _ _ _ _) (or_introl eq_refl))) as H6. rewrite on_N in H2. naive_solver.
Qed.

(** What a rotation (and every later operation) leaves: a heap that extends
    [hp] and represents the tree. *)
Definition gives hp m t : Prop := hp ⊆ m /\ rep m t.

Lemma wp_leftToRoot hp m ts a b ll kb db hb lr k d h r (Q : ptr -> store -> Prop) :
  rep m (N a (N b ll kb db hb lr) k d h r) -> bst (N a (N b ll kb db hb lr) k d h r) ->
  hp ⊆ m -> hp !! a = None -> hp !! b = None ->
  (forall m', let h' := int8 (1 + Z.max (hf lr) (hf r)) in
     (forall c, c <> a -> c <> b -> m' !! c = m !! c) ->
     gives hp m' (N b ll kb db (int8 (1 + Z.max h' (hf ll))) (N a lr k d h' r)) -> Q (Some b) (Store m' ts)) ->
  wp (leftToRoot (Some a)) Q (Store m ts).
Proof.
  intros Hrep Hbst Hhp Ha0 Hb0 HQ. destruct (unshared_left _ _ _ _ _ _ _ _ _ _ _ _ Hrep Hbst) as (Hab & ? & ? & ? & ? & ? & ?).
  destruct Hrep as (Ha & (Hb & Hll & Hlr) & Hr). cbn [rt] in *. unfold leftToRoot. abt_steps.
  apply HQ; [|split; [|cbn [rep rt]; split_and!]].
  - intros c ? ?. by rewrite !lookup_insert_ne.
  - by repeat (apply insert_subseteq_r; [done|]).
  - abt_lookup.
  - abt_rep.
  - abt_lookup.
  - abt_rep.
  - abt_rep.
Qed.

Lemma wp_rightToRoot hp m ts a b rl kb db hb rr k d h l (Q : ptr -> store -> Prop) :
  rep m (N a l k d h (N b rl kb db hb rr)) -> bst (N a l k d h (N b rl kb db hb rr)) ->
  hp ⊆ m -> hp !! a = None -> hp !! b = None ->
  (forall m', let h' := int8 (1 + Z.max (hf rl) (hf l)) in
     (forall c, c <> a -> c <> b -> m' !! c = m !! c) ->
     gives hp m' (N b (N a l k d h' rl) kb db (int8 (1 + Z.max h' (hf rr))) rr) -> Q (Some b) (Store m' ts)) ->
  wp (rightToRoot (Some a)) Q (Store m ts).
Proof.
  intros Hrep Hbst Hhp Ha0 Hb0 HQ. destruct (unshared_right _ _ _ _ _ _ _ _ _ _ _ _ Hrep Hbst) as (Hab & ? & ? & ? & ? & ? & ?).
  destruct Hrep as (Ha & Hl & (Hb & Hrl & Hrr)). cbn [rt] in *. unfold rightToRoot. abt_steps.
  apply HQ; [|split; [|cbn [rep rt]; split_and!]].
  - intros c ? ?. by rewrite !lookup_insert_ne.
  - by repeat (apply insert_subseteq_r; [done|]).
  - abt_lookup.
  - abt_lookup.
  - abt_rep.
  - abt_rep.
  - abt_rep.
Qed.
End Rotations.

Section Rebalancing.
Context {D : Type} `{EqDecision D}.
Abbreviation any := (option D).
Implicit Types (m hp : gmap loc (node32 (D:=D))) (ts : gmap loc T) (t l r : tree (D:=D)) (p newnode : ptr).

(** The location [p], if any, is not one of the old heap. *)
Definition new_in hp p : Prop := forall c, p = Some c -> hp !! c = None.
(** The new node keeps its place: rebalancing never copies it. *)
Definition keeps p t t' : Prop := forall c x, p = Some c -> at_key c x t -> at_key c x t'.

Lemma new_in_Some hp a : hp !! a = None -> new_in hp (Some a).
Proof. by intros H c [= <-]. Qed.
Lemma new_in_None hp : new_in hp None.
Proof. done. Qed.
Lemma fresh_in_sub hp m a : hp ⊆ m -> m !! a = None -> hp !! a = None.
Proof. intros H Ha. by eapply lookup_weaken_None. Qed.

(** [if newnode != left.right { left.right = left.right.copy() }] *)
Lemma wp_own_right hp m ts a b ll kb db hb c lrl kc dc hc lrr k d h r newnode (Q : unit -> store -> Prop) :
  let t0 c := N a (N b ll kb db hb (N c lrl kc dc hc lrr)) k d h r in
  rep m (t0 c) -> bst (t0 c) -> hp ⊆ m -> hp !! b = None -> new_in hp newnode ->
  (forall m' c', gives hp m' (t0 c') -> hp !! c' = None -> keeps newnode (t0 c) (t0 c') -> Q tt (Store m' ts)) ->
  wp (if bool_decide (newnode <> Some c) then c' <- copy (Some c) ;; set_right (Some b) c' else mret tt) Q (Store m ts).
Proof.
  intros t0 Hrep Hbst Hhp Hb0 Hnew HQ. destruct (bool_decide_reflect (newnode <> Some c)) as [Hne|Heq].
  - pose proof (unshared_left _ _ _ _ _ _ _ _ _ _ _ _ Hrep Hbst) as (Hab & ? & ? & ? & ? & ? & ?).
    pose proof Hrep as (Ha & (Hb & Hll & Hc & Hlrl & Hlrr) & Hr). cbn [rt] in *. abt_step.
    eapply wp_copy; [done|]. intros c' Hc'. assert (b <> c') by congruence. assert (a <> c') by congruence.
    abt_steps. rewrite on_N in *. apply (HQ _ c').
    + split; [repeat (apply insert_subseteq_r; [by eauto using fresh_in_sub|]); done|].
      assert (~ on c' r /\ ~ on c' ll /\ ~ on c' lrl /\ ~ on c' lrr) as (? & ? & ? & ?) by (split_and!; by eapply rep_fresh).
      cbn [rep rt t0]. assert (~ on b lrl /\ ~ on b lrr) as [? ?] by naive_solver. split_and!; try abt_lookup; abt_rep.
    + by eapply fresh_in_sub.
    + intros c0 x Hc0. cbn. subst newnode. assert (c <> c0) by congruence. naive_solver.
  - apply dec_stable in Heq as ->. abt_step. apply (HQ m c); [by split|by apply Hnew|by intros ? ?].
Qed.

(** [if newnode != right.left { right.left = right.left.copy() }] *)
Lemma wp_own_left hp m ts a b c rll kc dc hc rlr kb db hb rr k d h l newnode (Q : unit -> store -> Prop) :
  let t0 c := N a l k d h (N b (N c rll kc dc hc rlr) kb db hb rr) in
  rep m (t0 c) -> bst (t0 c) -> hp ⊆ m -> hp !! b = None -> new_in hp newnode ->
  (forall m' c', gives hp m' (t0 c') -> hp !! c' = None -> keeps newnode (t0 c) (t0 c') -> Q tt (Store m' ts)) ->
  wp (if bool_decide (newnode <> Some c) then c' <- copy (Some c) ;; set_left (Some b) c' else mret tt) Q (Store m ts).
Proof.
  intros t0 Hrep Hbst Hhp Hb0 Hnew HQ. destruct (bool_decide_reflect (newnode <> Some c)) as [Hne|Heq].
  - pose proof (unshared_right _ _ _ _ _ _ _ _ _ _ _ _ Hrep Hbst) as (Hab & ? & ? & ? & ? & ? & ?).
    pose proof Hrep as (Ha & Hl & (Hb & (Hc & Hrll & Hrlr) & Hrr)). cbn [rt] in *. abt_step.
    eapply wp_copy; [done|]. intros c' Hc'. assert (b <> c') by congruence. assert (a <> c') by congruence.
    abt_steps. rewrite on_N in *. apply (HQ _ c').
    + split; [repeat (apply insert_subseteq_r; [by eauto using fresh_in_sub|]); done|].
      assert (~ on c' l /\ ~ on c' rll /\ ~ on c' rlr /\ ~ on c' rr) as (? & ? & ? & ?) by (split_and!; by eapply rep_fresh).
      cbn [rep rt t0]. assert (~ on b rll /\ ~ on b rlr) as [? ?] by naive_solver. split_and!; try abt_lookup; abt_rep.
    + by eapply fresh_in_sub.
    + intros c0 x Hc0. cbn. subst newnode. assert (c <> c0) by congruence. naive_solver.
  - apply dec_stable in Heq as ->. abt_step. apply (HQ m c); [by split|by apply Hnew|by intros ? ?].
Qed.

(** What rebalancing promises about a tree whose higher child exceeds the lower
    one, of height [n], by two. *)
Definition rebalanced hp newnode t0 n m' t' : Prop :=
  gives hp m' t' /\ elements t' = elements t0 /\ avl t' /\ n + 2 <= hf t' <= n + 3 /\
  new_in hp (rt t') /\ keeps newnode t0 t'.

Lemma wp_aLeftIsHigh hp m ts a b ll kb db hb lr k d h r newnode (Q : ptr -> store -> Prop) :
  let t0 := N a (N b ll kb db hb lr) k d h r in
  rep m t0 -> bst t0 -> hp ⊆ m -> hp !! a = None -> hp !! b = None -> new_in hp newnode ->
  avl (N b ll kb db hb lr) -> avl r -> hb = hf r + 2 -> hf r <= 120 ->
  (forall m' t', rebalanced hp newnode t0 (hf r) m' t' -> Q (rt t') (Store m' ts)) ->
  wp (aLeftIsHigh (Some a) newnode) Q (Store m ts).
Proof.
  intros t0 Hrep Hbst Hhp Ha0 Hb0 Hnew (Ehb & Hd1 & Hd2 & Hll & Hlr) Hr Hhb Hbound HQ.
  pose proof Hrep as (Ha & (Hb & Rll & Rlr) & Rr). cbn [rt] in *.
  pose proof (avl_nonneg r Hr). unfold aLeftIsHigh. do 8 abt_step. destruct (Z.ltb_spec (hf ll) (hf lr)).
  - destruct lr as [|c lrl kc dc hc lrr]; [pose proof (avl_nonneg _ Hll); cbn in *; lia|].
    destruct Hlr as (Ehc & ? & ? & Hlrl & Hlrr). pose proof (avl_nonneg _ Hlrl). pose proof (avl_nonneg _ Hlrr).
    cbn [hf] in *. do 2 abt_step. eapply (wp_own_right hp m ts a b); [done..|].
    clear m Hrep Hhp Ha Hb Rll Rlr Rr. intros m c' [Hhp Hrep] Hc0 Hk. pose proof Hrep as (Ha & Rl & Rr).
    pose proof (bst_elements _ _ eq_refl Hbst : bst (N a (N b ll kb db hb (N c' lrl kc dc hc lrr)) k d h r)) as Hbst'.
    pose proof (unshared_left _ _ _ _ _ _ _ _ _ _ _ _ Hrep Hbst') as (Hab & ? & Hac & ? & ? & ? & ?).
    destruct (bst_unshared _ _ _ _ _ _ _ Hrep Hbst') as (_ & _ & Hdis).
    abt_step. apply (wp_rightToRoot hp m ts b c' lrl kc dc hc lrr kb db hb ll); [done|by eapply bst_left|done..|].
    intros m1 h1 Hsame [Hhp1 Hrep1]. rewrite on_N in Hac.
    assert (Hac' : a <> c') by naive_solver.
    eapply wp_update; [rewrite Hsame by done; exact Ha|]. cbn [left right data key height_ rt].
    assert (Rr1 : rep m1 r).
    { eapply rep_agree; [exact Rr|]. intros x Hx. apply Hsame; intros ->; [done|].
      apply (Hdis c'); [|done]. rewrite !on_N. auto. }
    assert (Han : ~ on a (N c' (N b ll kb db h1 lrl) kc dc (int8 (1 + Z.max h1 (hf lrr))) lrr)).
    { rewrite !on_N. naive_solver. }
    unwrap h1.
    eapply (wp_leftToRoot hp); [| |by apply insert_subseteq_r|done|done|].
    + apply rep_N; [cbn [rt]; abt_lookup|by apply rep_insert|by apply rep_insert].
    + apply (bst_elements t0); [|exact Hbst]. subst t0. cbn [elements]. by simplify_list_eq.
    + intros m2 h2 _ [Hhp2 Hrep2]. unwrap h2. conclude HQ Hrep2.
      split_and!; [by split| | | | |by apply new_in_Some|].
      * cbn [elements]. simplify_list_eq. done.
      * cbn [avl hf]. split_and!; done || lia.
      * cbn [hf]. lia.
      * cbn [hf]. lia.
      * intros c0 x -> Hk0. specialize (Hk c0 x eq_refl Hk0). cbn in *. tauto.
  - do 2 abt_step. eapply (wp_leftToRoot hp); [done..|].
    intros m2 h2 _ [Hhp2 Hrep2]. unwrap h2. conclude HQ Hrep2.
    split_and!; [by split| | | | |by apply new_in_Some|].
    + cbn [elements]. by simplify_list_eq.
    + cbn [avl hf]. split_and!; done || lia.
    + cbn [hf]. lia.
    + cbn [hf]. lia.
    + intros c0 x ->. cbn. tauto.
Qed.
Lemma wp_aRightIsHigh hp m ts a b rl kb db hb rr k d h l newnode (Q : ptr -> store -> Prop) :
  let t0 := N a l k d h (N b rl kb db hb rr) in
  rep m t0 -> bst t0 -> hp ⊆ m -> hp !! a = None -> hp !! b = None -> new_in hp newnode ->
  avl (N b rl kb db hb rr) -> avl l -> hb = hf l + 2 -> hf l <= 120 ->
  (forall m' t', rebalanced hp newnode t0 (hf l) m' t' -> Q (rt t') (Store m' ts)) ->
  wp (aRightIsHigh (Some a) newnode) Q (Store m ts).
Proof.
  intros t0 Hrep Hbst Hhp Ha0 Hb0 Hnew (Ehb & Hd1 & Hd2 & Hrl & Hrr) Hl Hhb Hbound HQ.
  pose proof Hrep as (Ha & Rl & (Hb & Rrl & Rrr)). cbn [rt] in *.
  pose proof (avl_nonneg l Hl). unfold aRightIsHigh. do 8 abt_step. destruct (Z.ltb_spec (hf rr) (hf rl)).
  - destruct rl as [|c rll kc dc hc rlr]; [pose proof (avl_nonneg _ Hrr); cbn in *; lia|].
    destruct Hrl as (Ehc & ? & ? & Hrll & Hrlr). pose proof (avl_nonneg _ Hrll). pose proof (avl_nonneg _ Hrlr).
    cbn [hf] in *. do 2 abt_step. eapply (wp_own_left hp m ts a b); [done..|].
    clear m Hrep Hhp Ha Hb Rrl Rrr Rl. intros m c' [Hhp Hrep] Hc0 Hk. pose proof Hrep as (Ha & Rl & Rr).
    pose proof (bst_elements _ _ eq_refl Hbst : bst (N a l k d h (N b (N c' rll kc dc hc rlr) kb db hb rr))) as Hbst'.
    pose proof (unshared_right _ _ _ _ _ _ _ _ _ _ _ _ Hrep Hbst') as (Hab & Hac & ? & ? & ? & ? & ?).
    destruct (bst_unshared _ _ _ _ _ _ _ Hrep Hbst') as (_ & _ & Hdis).
    abt_step. apply (wp_leftToRoot hp m ts b c' rll kc dc hc rlr kb db hb rr); [done|by eapply bst_right|done..|].
    intros m1 h1 Hsame [Hhp1 Hrep1]. rewrite on_N in Hac.
    assert (Hac' : a <> c') by naive_solver.
    eapply wp_update; [rewrite Hsame by done; exact Ha|]. cbn [left right data key height_ rt].
    assert (Rl1 : rep m1 l).
    { eapply rep_agree; [exact Rl|]. intros x Hx. apply Hsame; intros ->; [done|].
      apply (Hdis c' Hx). rewrite !on_N. auto. }
    assert (Han : ~ on a (N c' rll kc dc (int8 (1 + Z.max h1 (hf rll))) (N b rlr kb db h1 rr))).
    { rewrite !on_N. naive_solver. }
    unwrap h1.
    eapply (wp_rightToRoot hp); [| |by apply insert_subseteq_r|done|done|].
    + apply rep_N; [cbn [rt]; abt_lookup|by apply rep_insert|by apply rep_insert].
    + apply (bst_elements t0); [|exact Hbst]. subst t0. cbn [elements]. by simplify_list_eq.
    + intros m2 h2 _ [Hhp2 Hrep2]. unwrap h2. conclude HQ Hrep2.
      split_and!; [by split| | | | |by apply new_in_Some|].
      * cbn [elements]. simplify_list_eq. done.
      * cbn [avl hf]. split_and!; done || lia.
      * cbn [hf]. lia.
      * cbn [hf]. lia.
      * intros c0 x -> Hk0. specialize (Hk c0 x eq_refl Hk0). cbn in *. tauto.
  - do 2 abt_step. eapply (wp_rightToRoot hp); [done..|].
    intros m2 h2 _ [Hhp2 Hrep2]. unwrap h2. conclude HQ Hrep2.
    split_and!; [by split| | | | |by apply new_in_Some|].
    + cbn [elements]. by simplify_list_eq.
    + cbn [avl hf]. split_and!; done || lia.
    + cbn [hf]. lia.
    + cbn [hf]. lia.
    + intros c0 x ->. cbn. tauto.
Qed.
End Rebalancing.
