(* ===== verification/AbtInsert.v ===== *)
(** * abt: insertion builds a new tree and leaves the old one alone *)

From stdpp Require Import gmap.
From S2P Require Import Prelude.
From S2P Require Import Abt.
From S2P Require Import AbtTree.
From S2P Require Import AbtOps.

Section Insert.
Context {D : Type} `{EqDecision D}.
Abbreviation any := (option D).
Implicit Types (m hp : gmap loc (node32 (D:=D))) (ts : gmap loc T) (t l r : tree (D:=D)) (p newnode : ptr).

Definition old_data (x : Z) (t : tree) : any := default None (assoc x (elements t)).

Lemma assoc_lt x a l k d h r :
  bst (N a l k d h r) -> x < k -> assoc x (elements (N a l k d h r)) = assoc x (elements l).
Proof.
  intros (_ & _ & _ & Hr)%bst_N Hx. cbn [elements]. rewrite assoc_app. cbn [assoc].
  destruct (Z.eqb_spec x k); [lia|]. assert (assoc x (elements r) = None) as ->.
  { apply assoc_None, above_notin. by eapply above_trans; [|apply Z.lt_le_incl]. }
  by destruct (assoc x (elements l)).
Qed.
Lemma assoc_gt x a l k d h r :
  bst (N a l k d h r) -> k < x -> assoc x (elements (N a l k d h r)) = assoc x (elements r).
Proof.
  intros (_ & _ & Hl & _)%bst_N Hx. cbn [elements]. rewrite assoc_app. cbn [assoc].
  destruct (Z.eqb_spec x k); [lia|]. assert (assoc x (elements l) = None) as ->; [|done].
  apply assoc_None, below_notin. by eapply below_trans; [|apply Z.lt_le_incl].
Qed.
Lemma assoc_eq a l k d h r : bst (N a l k d h r) -> assoc k (elements (N a l k d h r)) = Some d.
Proof.
  intros (_ & _ & Hl & _)%bst_N. cbn [elements]. rewrite assoc_app. cbn [assoc]. rewrite Z.eqb_refl.
  by rewrite (proj1 (assoc_None _ _) (below_notin _ _ Hl)).
Qed.

Lemma ins_N_l x v a l k d h r :
  x < k -> ins x v (elements (N a l k d h r)) = ins x v (elements l) ++ (k, d) :: elements r.
Proof. intros. by apply ins_l. Qed.
Lemma ins_N_r x v a l k d h r :
  bst (N a l k d h r) -> k < x -> ins x v (elements (N a l k d h r)) = elements l ++ (k, d) :: ins x v (elements r).
Proof.
  intros (_ & _ & Hl & _)%bst_N Hx. cbn [elements]. rewrite ins_r by (by eapply below_trans; [|apply Z.lt_le_incl]).
  cbn [ins]. by destruct (Z.ltb_spec x k), (Z.eqb_spec x k); try lia.
Qed.
Lemma ins_N_eq v a l k d h r :
  bst (N a l k d h r) -> ins k v (elements (N a l k d h r)) = elements l ++ (k, v) :: elements r.
Proof.
  intros (_ & _ & Hl & _)%bst_N. cbn [elements]. rewrite ins_r by done. cbn [ins].
  by rewrite Z.ltb_irrefl, Z.eqb_refl.
Qed.

Lemma bst_ins x v t t' : bst t -> elements t' = ins x v (elements t) -> bst t'.
Proof. unfold bst, keys. intros H ->. by apply ins_sorted. Qed.

(** The result of [aInsert]: a balanced tree with [x] in it, whose new node
    [c] is still to receive the data. *)
Definition inserted m t x m' t' c (on : ptr) : Prop :=
  gives m m' t' /\ elements t' = ins x (old_data x t) (elements t) /\ avl t' /\
  (hf t <= hf t' <= hf t + 1) /\ new_in m (rt t') /\ m !! c = None /\ at_key c x t' /\
  match assoc x (elements t) with
  | Some d => exists o n, on = Some o /\ m !! o = Some n /\ data n = d
  | None => on = None
  end.

(** The copy of a node, linked to its new left child. *)
Lemma linked_left m0 m a l k d h r a' l' :
  rep m0 (N a l k d h r) -> gives m0 m l' -> m !! a' = None ->
  let m' := <[a' := Node32 (rt l') (rt r) d k h]> (<[a' := Node32 (rt l) (rt r) d k h]> m) in
  gives m0 m' (N a' l' k d h r) /\ ~ on a' l' /\ ~ on a' r /\ m0 !! a' = None.
Proof.
  intros (_ & _ & Hr) [Hm Hl'] Ha' m'.
  assert (m0 !! a' = None) by (by apply (lookup_weaken_None m0 m)). assert (~ on a' l') by (by apply (rep_fresh m)).
  assert (rep m r) by (by apply (rep_mono m0)). assert (~ on a' r) by (by apply (rep_fresh m)).
  split_and!; try done.
  - subst m'. split; [by repeat (apply insert_subseteq_r; [done|])|]. apply rep_N; [abt_lookup|abt_rep|abt_rep].
Qed.
Lemma linked_right m0 m a l k d h r a' r' :
  rep m0 (N a l k d h r) -> gives m0 m r' -> m !! a' = None ->
  let m' := <[a' := Node32 (rt l) (rt r') d k h]> (<[a' := Node32 (rt l) (rt r) d k h]> m) in
  gives m0 m' (N a' l k d h r') /\ ~ on a' r' /\ ~ on a' l /\ m0 !! a' = None.
Proof.
  intros (_ & Hl & _) [Hm Hr'] Ha' m'.
  assert (m0 !! a' = None) by (by apply (lookup_weaken_None m0 m)). assert (~ on a' r') by (by apply (rep_fresh m)).
  assert (rep m l) by (by apply (rep_mono m0)). assert (~ on a' l) by (by apply (rep_fresh m)).
  split_and!; try done.
  - subst m'. split; [by repeat (apply insert_subseteq_r; [done|])|]. apply rep_N; [abt_lookup|abt_rep|abt_rep].
Qed.

(** From the child's result to the node's, once the child is linked. *)
Lemma inserted_left m0 m l l' x c on a k d h r m' t' :
  bst (N a l k d h r) -> x < k -> inserted m0 l x m l' c on ->
  gives m0 m' t' -> elements t' = elements (N a l' k d h r) -> avl t' ->
  hf (N a l k d h r) <= hf t' <= hf (N a l k d h r) + 1 -> new_in m0 (rt t') ->
  at_key c x t' -> inserted m0 (N a l k d h r) x m' t' c on.
Proof.
  intros Hbst Hx (_ & El & _ & _ & _ & Hc & _ & Hold) Hg E Ht' Hh Hn Hat.
  unfold inserted, old_data in *. rewrite assoc_lt by done. split_and!; try done; [|by destruct Hh..].
  rewrite E, ins_N_l by done. cbn [elements]. by rewrite El.
Qed.
Lemma inserted_right m0 m r r' x c on a k d h l m' t' :
  bst (N a l k d h r) -> k < x -> inserted m0 r x m r' c on ->
  gives m0 m' t' -> elements t' = elements (N a l k d h r') -> avl t' ->
  hf (N a l k d h r) <= hf t' <= hf (N a l k d h r) + 1 -> new_in m0 (rt t') ->
  at_key c x t' -> inserted m0 (N a l k d h r) x m' t' c on.
Proof.
  intros Hbst Hx (_ & El & _ & _ & _ & Hc & _ & Hold) Hg E Ht' Hh Hn Hat.
  unfold inserted, old_data in *. rewrite assoc_gt by done. split_and!; try done; [|by destruct Hh..].
  rewrite E, ins_N_r by done. cbn [elements]. by rewrite El.
Qed.

Lemma bst_linked_left m0 m l l' x c on a k d h r a' h' :
  bst (N a l k d h r) -> x < k -> inserted m0 l x m l' c on -> bst (N a' l' k d h' r).
Proof.
  intros Hb Hx (_ & El & _). apply (bst_ins x (old_data x l) (N a l k d h r)); [done|].
  rewrite ins_N_l by done. cbn [elements]. by rewrite El.
Qed.
Lemma bst_linked_right m0 m r r' x c on a k d h l a' h' :
  bst (N a l k d h r) -> k < x -> inserted m0 r x m r' c on -> bst (N a' l k d h' r').
Proof.
  intros Hb Hx (_ & El & _). apply (bst_ins x (old_data x r) (N a l k d h r)); [done|].
  rewrite ins_N_r by done. cbn [elements]. by rewrite El.
Qed.

(** The second half of [aInsert] when [x < t.key]. *)
Lemma wp_insert_left m0 m ts a l k d h r l' c on x (Q : ptr * ptr * ptr -> store -> Prop) :
  let t0 := N a l k d h r in
  rep m0 t0 -> bst t0 -> avl t0 -> hf t0 <= 120 -> x < k -> inserted m0 l x m l' c on ->
  (forall m' t', inserted m0 t0 x m' t' c on -> Q (rt t', Some c, on) (Store m' ts)) ->
  wp (t <- copy (Some a) ;;
      set_left t (rt l') ;;
      hl <- height (rt l') ;;
      n <- deref t ;;
      hr <- height (right n) ;;
      if hl >? int8 (1 + hr) then
        newroot <- aLeftIsHigh t (Some c) ;;
        mret (newroot, Some c, on)
      else
        hl <- height (left n) ;;
        set_height t (int8 (1 + Z.max hl hr)) ;;
        mret (t, Some c, on)) Q (Store m ts).
Proof.
  intros t0 Hrep Hbst Havl Hh Hx Hins HQ. subst t0. pose proof Havl as (Eh & Hd1 & Hd2 & Hl & Hr).
  pose proof Hins as (Hg & El & Hl' & Hhl & Hnl & Hc & Hat & _). cbn [hf] in Hh. subst h.
  pose proof (avl_nonneg _ Hl). pose proof (avl_nonneg _ Hr). pose proof Hrep as (Ha & Rl & Rr).
  abt_step. eapply wp_copy; [eapply lookup_weaken; [exact Ha|apply Hg]|]. intros a' Ha'. abt_steps.
  destruct (linked_left m0 m a l k d (1 + Z.max (hf l) (hf r)) r a' l') as ([Hm2 Hrep2] & Hal & Har & Ha0); [done..|].
  pose proof (fun h' => bst_linked_left _ _ _ _ _ _ _ _ _ _ _ _ a' h' Hbst Hx Hins) as Hbst2.
  pose proof Hrep2 as (_ & Rl2 & Rr2).
  abt_steps. rewrite insert_insert_eq in *. abt_steps.
  rewrite Z.gtb_ltb, int8_id by lia. destruct (Z.ltb_spec (1 + hf r) (hf l')).
  - destruct l' as [|b ll kb db hb lr]; [cbn in *; lia|]. abt_step. cbn [hf rt] in *.
    eapply (wp_aLeftIsHigh m0); [exact Hrep2|apply Hbst2|done|done|by apply Hnl|by apply new_in_Some|done|done|lia|lia|].
    intros m' t' (Hg' & E' & Ht' & Hh' & Hn' & Hk'). abt_step. apply HQ.
    eapply inserted_left; try done; [cbn [hf]; lia|]. apply Hk'; [done|]. right. left. exact Hat.
  - abt_steps. rewrite int8_id by lia. rewrite insert_insert_eq in *. apply (HQ _ (N a' l' k d (1 + Z.max (hf l') (hf r)) r)).
    eapply inserted_left; try done.
    + split; [by apply insert_subseteq_r; [|apply Hg]|]. assert (rep m r) by (apply (rep_mono m0); [apply Hg|done]).
      destruct Hg as [Hg Rl'].
      apply rep_N; [abt_lookup|by apply rep_insert|by apply rep_insert].
    + cbn [avl hf]. split_and!; done || lia.
    + cbn [hf]. lia.
    + by apply new_in_Some.
    + right. left. exact Hat.
Qed.

(** The second half of [aInsert] when [x > t.key]. *)
Lemma wp_insert_right m0 m ts a l k d h r r' c on x (Q : ptr * ptr * ptr -> store -> Prop) :
  let t0 := N a l k d h r in
  rep m0 t0 -> bst t0 -> avl t0 -> hf t0 <= 120 -> k < x -> inserted m0 r x m r' c on ->
  (forall m' t', inserted m0 t0 x m' t' c on -> Q (rt t', Some c, on) (Store m' ts)) ->
  wp (t <- copy (Some a) ;;
      set_right t (rt r') ;;
      hr <- height (rt r') ;;
      n <- deref t ;;
      hl <- height (left n) ;;
      if hr >? int8 (1 + hl) then
        newroot <- aRightIsHigh t (Some c) ;;
        mret (newroot, Some c, on)
      else
        hr <- height (right n) ;;
        set_height t (int8 (1 + Z.max hl hr)) ;;
        mret (t, Some c, on)) Q (Store m ts).
Proof.
  intros t0 Hrep Hbst Havl Hh Hx Hins HQ. subst t0. pose proof Havl as (Eh & Hd1 & Hd2 & Hl & Hr).
  pose proof Hins as (Hg & El & Hr' & Hhr & Hnr & Hc & Hat & _). cbn [hf] in Hh. subst h.
  pose proof (avl_nonneg _ Hl). pose proof (avl_nonneg _ Hr). pose proof Hrep as (Ha & Rl & Rr).
  abt_step. eapply wp_copy; [eapply lookup_weaken; [exact Ha|apply Hg]|]. intros a' Ha'. abt_steps.
  destruct (linked_right m0 m a l k d (1 + Z.max (hf l) (hf r)) r a' r') as ([Hm2 Hrep2] & Har & Hal & Ha0); [done..|].
  pose proof (fun h' => bst_linked_right _ _ _ _ _ _ _ _ _ _ _ _ a' h' Hbst Hx Hins) as Hbst2.
  pose proof Hrep2 as (_ & Rl2 & Rr2).
  abt_steps. rewrite insert_insert_eq in *. abt_steps.
  rewrite Z.gtb_ltb, int8_id by lia. destruct (Z.ltb_spec (1 + hf l) (hf r')).
  - destruct r' as [|b rl kb db hb rr]; [cbn in *; lia|]. abt_step. cbn [hf rt] in *.
    eapply (wp_aRightIsHigh m0); [exact Hrep2|apply Hbst2|done|done|by apply Hnr|by apply new_in_Some|done|done|lia|lia|].
    intros m' t' (Hg' & E' & Ht' & Hh' & Hn' & Hk'). abt_step. apply HQ.
    eapply inserted_right; try done; [cbn [hf]; lia|]. apply Hk'; [done|]. right. right. exact Hat.
  - abt_steps. rewrite int8_id by lia. rewrite insert_insert_eq in *. apply (HQ _ (N a' l k d (1 + Z.max (hf l) (hf r')) r')).
    eapply inserted_right; try done.
    + split; [by apply insert_subseteq_r; [|apply Hg]|]. assert (rep m l) by (apply (rep_mono m0); [apply Hg|done]).
      destruct Hg as [Hg Rr'].
      apply rep_N; [abt_lookup|by apply rep_insert|by apply rep_insert].
    + cbn [avl hf]. split_and!; done || lia.
    + cbn [hf]. lia.
    + by apply new_in_Some.
    + right. right. exact Hat.
Qed.

(** A leaf for [x] below a node without a child on that side. *)
Lemma wp_insert_leaf m ts a l k d h r x (Q : ptr * ptr * ptr -> store -> Prop) :
  let t0 := N a l k d h r in
  rep m t0 -> bst t0 -> avl t0 -> (x < k /\ l = E \/ k < x /\ r = E) ->
  (forall m' t' c, inserted m t0 x m' t' c None -> Q (rt t', Some c, None) (Store m' ts)) ->
  wp (t <- copy (Some a) ;;
      n <- makeNode x ;;
      (if x <? k then set_left t n else set_right t n) ;;
      set_height t 2 ;;
      mret (t, n, None)) Q (Store m ts).
Proof.
  intros t0 (Ha & Rl & Rr) Hbst Havl Hcase HQ. subst t0. pose proof Havl as (Eh & Hd1 & Hd2 & Hl & Hr).
  pose proof (avl_nonneg _ Hl). pose proof (avl_nonneg _ Hr).
  abt_step. eapply wp_copy; [exact Ha|]. intros a' Ha'. abt_step. unfold makeNode.
  apply wp_alloc_node. intros c Hc. destruct (decide (c = a')) as [->|Hne]; [by rewrite lookup_insert_eq in Hc|].
  rewrite lookup_insert_ne in Hc by congruence.
  assert (~ on a' l /\ ~ on a' r /\ ~ on c l /\ ~ on c r) as (? & ? & ? & ?) by (split_and!; by apply (rep_fresh m)).
  assert (Hon : assoc x (elements (N a l k d h r)) = None).
  { destruct Hcase as [[? ->]|[? ->]]; [by rewrite assoc_lt|by rewrite assoc_gt]. }
  assert (Hsub : forall n n', m ⊆ <[a' := n]> (<[c := n']> m)) by (intros; by repeat (apply insert_subseteq_r; [done|])).
  destruct Hcase as [[Hx ->]|[Hx ->]]; destruct (Z.ltb_spec x k); try lia; abt_steps;
    rewrite !insert_insert_eq, (insert_insert_ne _ c a') , insert_insert_eq by done; cbn [hf] in *.
  - apply (HQ _ (N a' (N c E x None 1 E) k d 2 r)). unfold inserted, old_data. rewrite Hon.
    refine (conj (conj _ _) (conj _ (conj _ (conj _ (conj _ (conj _ (conj _ _))))))); try done.
    + cbn [rep rt]. split_and!; try abt_lookup; done || abt_rep.
    + by rewrite ins_N_l.
    + cbn [avl hf]. split_and!; done || lia.
    + cbn [hf]. lia.
    + by apply new_in_Some.
    + right. left. by left.
  - apply (HQ _ (N a' l k d 2 (N c E x None 1 E))). unfold inserted, old_data. rewrite Hon.
    refine (conj (conj _ _) (conj _ (conj _ (conj _ (conj _ (conj _ (conj _ _))))))); try done.
    + cbn [rep rt]. split_and!; try abt_lookup; done || abt_rep.
    + by rewrite ins_N_r.
    + cbn [avl hf]. split_and!; done || lia.
    + cbn [hf]. lia.
    + by apply new_in_Some.
    + right. right. by left.
Qed.

Lemma wp_aInsert fuel m ts t x (Q : ptr * ptr * ptr -> store -> Prop) :
  t <> E -> rep m t -> bst t -> avl t -> hf t <= 120 -> hf t <= Z.of_nat fuel ->
  (forall m' t' c on, inserted m t x m' t' c on -> Q (rt t', Some c, on) (Store m' ts)) ->
  wp (aInsert fuel (rt t) x) Q (Store m ts).
Proof.
  revert t Q. induction fuel as [|fuel IH]; intros t Q Hne Hrep Hbst Havl Hh Hfuel HQ.
  { exfalso. apply avl_hf_pos in Havl as [_ Hp]. specialize (Hp Hne). lia. }
  destruct t as [|a l k d h r]; [done|]. pose proof Hrep as (Ha & Rl & Rr).
  pose proof Havl as (Eh & Hd1 & Hd2 & Hl & Hr). cbn [aInsert rt]. abt_steps. cbn [hf] in Hh, Hfuel.
  pose proof (avl_nonneg _ Hl). pose proof (avl_nonneg _ Hr).
  destruct (Z.eqb_spec x k) as [->|Hxk].
  - abt_step. eapply wp_copy; [exact Ha|]. intros c Hc. abt_step. apply (HQ _ (N c l k d h r)).
    assert (~ on c l /\ ~ on c r) as [? ?] by (split_and!; by apply (rep_fresh m)).
    unfold inserted, old_data. rewrite assoc_eq by done.
    refine (conj (conj _ _) (conj _ (conj _ (conj _ (conj _ (conj _ (conj _ _))))))); try done.
    + by apply insert_subseteq.
    + apply rep_N; [abt_lookup|by apply rep_insert|by apply rep_insert].
    + by rewrite ins_N_eq.
    + cbn [hf]. lia.
    + by apply new_in_Some.
    + by left.
    + by exists a, (Node32 (rt l) (rt r) d k h).
  - destruct (Z.ltb_spec x k) as [Hlt|Hge].
    + destruct l as [|al ll kl dl hl lr]; cbn [rt].
      * rewrite bool_decide_true by done. pose proof (wp_insert_leaf m ts a E k d h r x Q Hrep Hbst Havl) as W.
        destruct (Z.ltb_spec x k); [|lia]. apply W; [auto|]. intros. by apply HQ.
      * rewrite bool_decide_false by done. apply wp_bind. apply (IH (N al ll kl dl hl lr)); try done.
        -- by eapply bst_left.
        -- lia.
        -- lia.
        -- intros m' l' c on Hins. cbn [fst snd]. eapply wp_insert_left; [done..|]. intros. by apply HQ.
    + destruct r as [|ar rl kr dr hr rr]; cbn [rt].
      * rewrite bool_decide_true by done. pose proof (wp_insert_leaf m ts a l k d h E x Q Hrep Hbst Havl) as W.
        destruct (Z.ltb_spec x k); [lia|]. apply W; [right; split; [lia|done]|]. intros. by apply HQ.
      * rewrite bool_decide_false by done. apply wp_bind. apply (IH (N ar rl kr dr hr rr)); try done.
        -- by eapply bst_right.
        -- lia.
        -- lia.
        -- intros m' r' c on Hins. cbn [fst snd]. assert (Hgt : k < x) by lia. eapply wp_insert_right; [done..|]. intros. by apply HQ.
Qed.
End Insert.
