(* ===== verification/AbtDelete.v ===== *)
(** * abt: deletion builds a new tree and leaves the old one alone *)

From stdpp Require Import gmap.
From S2P Require Import Prelude.
From S2P Require Import Abt.
From S2P Require Import AbtTree.
From S2P Require Import AbtOps.
From S2P Require Import AbtInsert.

Section Delete.
Context {D : Type} `{EqDecision D}.
Abbreviation any := (option D).
Implicit Types (m hp : gmap loc (node32 (D:=D))) (ts : gmap loc T) (t l r : tree (D:=D)) (p : ptr).

(** What rebalancing after a deletion promises about the tree [t0] with the
    smaller child linked in: the height may fall by one. *)
Definition settled hp t0 m' t' : Prop :=
  gives hp m' t' /\ elements t' = elements t0 /\ avl t' /\ hf t0 - 1 <= hf t' <= hf t0 /\ new_in hp (rt t').

Lemma wp_aRebalanceAfterLeftDeletion hp m ts a p0 k d h r l' oh (Q : ptr -> store -> Prop) :
  let t0 := N a l' k d h r in
  m !! a = Some (Node32 p0 (rt r) d k h) -> rep m l' -> rep m r -> ~ on a l' -> ~ on a r -> bst t0 ->
  hp ⊆ m -> hp !! a = None -> avl l' -> avl r -> h = 1 + Z.max oh (hf r) -> -1 <= oh - hf r <= 1 ->
  oh - 1 <= hf l' <= oh -> h <= 120 ->
  (forall m' t', settled hp t0 m' t' -> Q (rt t') (Store m' ts)) ->
  wp (aRebalanceAfterLeftDeletion (Some a) oh (rt l')) Q (Store m ts).
Proof.
  intros t0 Ha Rl Rr Hal Har Hbst Hhp Ha0 Hl Hr Eh Hd Hoh Hb HQ. subst t0.
  pose proof (avl_nonneg _ Hl). pose proof (avl_nonneg _ Hr).
  unfold aRebalanceAfterLeftDeletion. abt_steps. set (m1 := <[a := _]> m).
  assert (Hm1 : hp ⊆ m1) by (by apply insert_subseteq_r).
  assert (R1 : rep m1 (N a l' k d h r)) by (apply rep_N; [unfold m1; abt_lookup|by apply rep_insert|by apply rep_insert]).
  destruct ((oh =? hf l') || (oh =? hf r)) eqn:E1; [|rewrite Z.gtb_ltb; destruct (Z.ltb_spec (hf r) oh)].
  - abt_steps. apply (HQ m1 (N a l' k d h r)). split_and!; try done; [..|cbn [hf]; lia|by apply new_in_Some].
    cbn [avl]. reflect. destruct E1; reflect; split_and!; done || lia.
  - reflect. pose proof (proj1 R1) as Ra. abt_steps. rewrite int8_id by lia. unfold m1. rewrite insert_insert_eq.
    apply (HQ _ (N a l' k d (h - 1) r)). refine (conj (conj _ _) (conj _ (conj _ (conj _ _)))); try done.
    + by apply insert_subseteq_r.
    + apply rep_N; [abt_lookup|by apply rep_insert|by apply rep_insert].
    + cbn [avl]. split_and!; done || lia.
    + cbn [hf]. lia.
    + by apply new_in_Some.
  - reflect. destruct r as [|b rl kb db hb rr]; [cbn in *; lia|]. destruct R1 as (Ra & Rl1 & (Rb & Rrl & Rrr)).
    abt_step. eapply wp_copy; [exact Rb|]. intros c Hc. assert (c <> a) by congruence.
    assert (~ on c l' /\ ~ on c rl /\ ~ on c rr) as (? & ? & ?) by (split_and!; by apply (rep_fresh m1)).
    rewrite !on_N in Har. assert (~ on a rl /\ ~ on a rr) as [? ?] by naive_solver.
    do 1 abt_step. eapply wp_update; [abt_lookup|]. cbn [left right data key height_].
    assert (hp !! c = None) by (by apply (lookup_weaken_None hp m1)).
    eapply (wp_aRightIsHigh hp _ ts a c rl kb db hb rr k d h l').
    + cbn [rep rt]. split_and!; try abt_lookup; abt_rep.
    + exact (bst_elements _ _ eq_refl Hbst).
    + by repeat (apply insert_subseteq_r; [done|]).
    + done.
    + done.
    + apply new_in_None.
    + exact Hr.
    + done.
    + cbn [hf] in *. lia.
    + cbn [hf] in *. lia.
    + intros m' t' (Hg' & E' & Ht' & Hh' & Hn' & _). apply HQ. cbn [hf] in *. unfold settled. cbn [hf].
      split_and!; try done; lia.
Qed.

Lemma wp_aRebalanceAfterRightDeletion hp m ts a p0 k d h l r' oh (Q : ptr -> store -> Prop) :
  let t0 := N a l k d h r' in
  m !! a = Some (Node32 (rt l) p0 d k h) -> rep m l -> rep m r' -> ~ on a l -> ~ on a r' -> bst t0 ->
  hp ⊆ m -> hp !! a = None -> avl l -> avl r' -> h = 1 + Z.max (hf l) oh -> -1 <= oh - hf l <= 1 ->
  oh - 1 <= hf r' <= oh -> h <= 120 ->
  (forall m' t', settled hp t0 m' t' -> Q (rt t') (Store m' ts)) ->
  wp (aRebalanceAfterRightDeletion (Some a) oh (rt r')) Q (Store m ts).
Proof.
  intros t0 Ha Rl Rr Hal Har Hbst Hhp Ha0 Hl Hr Eh Hd Hoh Hb HQ. subst t0.
  pose proof (avl_nonneg _ Hl). pose proof (avl_nonneg _ Hr).
  unfold aRebalanceAfterRightDeletion. abt_steps. set (m1 := <[a := _]> m).
  assert (Hm1 : hp ⊆ m1) by (by apply insert_subseteq_r).
  assert (R1 : rep m1 (N a l k d h r')) by (apply rep_N; [unfold m1; abt_lookup|by apply rep_insert|by apply rep_insert]).
  destruct ((oh =? hf r') || (oh =? hf l)) eqn:E1; [|rewrite Z.gtb_ltb; destruct (Z.ltb_spec (hf l) oh)].
  - abt_steps. apply (HQ m1 (N a l k d h r')). split_and!; try done; [..|cbn [hf]; lia|by apply new_in_Some].
    cbn [avl]. reflect. destruct E1; reflect; split_and!; done || lia.
  - reflect. pose proof (proj1 R1) as Ra. abt_steps. rewrite int8_id by lia. unfold m1. rewrite insert_insert_eq.
    apply (HQ _ (N a l k d (h - 1) r')). refine (conj (conj _ _) (conj _ (conj _ (conj _ _)))); try done.
    + by apply insert_subseteq_r.
    + apply rep_N; [abt_lookup|by apply rep_insert|by apply rep_insert].
    + cbn [avl]. split_and!; done || lia.
    + cbn [hf]. lia.
    + by apply new_in_Some.
  - reflect. destruct l as [|b ll kb db hb lr]; [cbn in *; lia|]. destruct R1 as (Ra & (Rb & Rll & Rlr) & Rr1).
    abt_step. eapply wp_copy; [exact Rb|]. intros c Hc. assert (c <> a) by congruence.
    assert (~ on c r' /\ ~ on c ll /\ ~ on c lr) as (? & ? & ?) by (split_and!; by apply (rep_fresh m1)).
    rewrite !on_N in Hal. assert (~ on a ll /\ ~ on a lr) as [? ?] by naive_solver.
    do 1 abt_step. eapply wp_update; [abt_lookup|]. cbn [left right data key height_].
    assert (hp !! c = None) by (by apply (lookup_weaken_None hp m1)).
    eapply (wp_aLeftIsHigh hp _ ts a c ll kb db hb lr k d h r').
    + cbn [rep rt]. split_and!; try abt_lookup; abt_rep.
    + exact (bst_elements _ _ eq_refl Hbst).
    + by repeat (apply insert_subseteq_r; [done|]).
    + done.
    + done.
    + apply new_in_None.
    + exact Hl.
    + done.
    + cbn [hf] in *. lia.
    + cbn [hf] in *. lia.
    + intros m' t' (Hg' & E' & Ht' & Hh' & Hn' & _). apply HQ. cbn [hf] in *. unfold settled. cbn [hf].
      split_and!; try done; lia.
Qed.

(** A smaller tree, reached through another root. *)
Definition removed m t m' t' : Prop :=
  gives m m' t' /\ avl t' /\ hf t - 1 <= hf t' <= hf t /\ rt t' <> rt t.

Lemma removed_child m a l k d h r m' t' :
  rep m (N a l k d h r) -> settled m t' m' t' -> rt t' <> Some a.
Proof.
  intros (Ha & _) (_ & _ & _ & _ & Hn) E. rewrite (Hn a E) in Ha. done.
Qed.

(** Copying the node [a], whose child has been replaced by [l'], and settling
    the copy: the part the three deletions share. *)
Lemma wp_settle_left m0 m ts a l k d h r l' kc dc (Q : ptr -> store -> Prop) :
  rep m0 (N a l k d h r) -> avl (N a l k d h r) -> h <= 120 ->
  removed m0 l m l' -> (forall c h', bst (N c l' kc dc h' r)) ->
  (forall m' t', removed m0 (N a l k d h r) m' t' -> elements t' = elements l' ++ (kc, dc) :: elements r -> Q (rt t') (Store m' ts)) ->
  forall c, m !! c = None ->
  wp (aRebalanceAfterLeftDeletion (Some c) (hf l) (rt l')) Q (Store (<[c := Node32 (rt l) (rt r) dc kc h]> m) ts).
Proof.
  intros Hrep Havl Hh ([Hm Rl'] & Hl' & Hhl & _) Hbst HQ c Hc.
  pose proof Havl as (Eh & Hd1 & Hd2 & Hl & Hr). pose proof Hrep as (Ha & Rl & Rr).
  assert (m0 !! c = None) by (by apply (lookup_weaken_None m0 m)).
  assert (rep m r) by (by apply (rep_mono m0)).
  assert (~ on c l' /\ ~ on c r) as [? ?] by (split; by apply (rep_fresh m)).
  eapply (wp_aRebalanceAfterLeftDeletion m0 _ ts c (rt l) kc dc h r l' (hf l)); try done.
  - abt_lookup.
  - by apply rep_insert.
  - by apply rep_insert.
  - by apply insert_subseteq_r.
  - lia.
  - intros m' t' (Hg & E & Ht & Hh' & Hn). cbn [hf] in Hh'. apply HQ; [|done]. unfold removed. cbn [hf].
    split_and!; try done; try lia. cbn [rt]. intros E'. rewrite (Hn a E') in Ha. done.
Qed.
Lemma wp_settle_right m0 m ts a l k d h r r' kc dc (Q : ptr -> store -> Prop) :
  rep m0 (N a l k d h r) -> avl (N a l k d h r) -> h <= 120 ->
  removed m0 r m r' -> (forall c h', bst (N c l kc dc h' r')) ->
  (forall m' t', removed m0 (N a l k d h r) m' t' -> elements t' = elements l ++ (kc, dc) :: elements r' -> Q (rt t') (Store m' ts)) ->
  forall c, m !! c = None ->
  wp (aRebalanceAfterRightDeletion (Some c) (hf r) (rt r')) Q (Store (<[c := Node32 (rt l) (rt r) dc kc h]> m) ts).
Proof.
  intros Hrep Havl Hh ([Hm Rr'] & Hr' & Hhr & _) Hbst HQ c Hc.
  pose proof Havl as (Eh & Hd1 & Hd2 & Hl & Hr). pose proof Hrep as (Ha & Rl & Rr).
  assert (m0 !! c = None) by (by apply (lookup_weaken_None m0 m)).
  assert (rep m l) by (by apply (rep_mono m0)).
  assert (~ on c l /\ ~ on c r') as [? ?] by (split; by apply (rep_fresh m)).
  eapply (wp_aRebalanceAfterRightDeletion m0 _ ts c (rt r) kc dc h l r' (hf r)); try done.
  - abt_lookup.
  - by apply rep_insert.
  - by apply rep_insert.
  - by apply insert_subseteq_r.
  - lia.
  - intros m' t' (Hg & E & Ht & Hh' & Hn). cbn [hf] in Hh'. apply HQ; [|done]. unfold removed. cbn [hf].
    split_and!; try done; try lia. cbn [rt]. intros E'. rewrite (Hn a E') in Ha. done.
Qed.

(** The node [o] of the old heap holds the key and the data. *)
Definition holds m (o : loc) (kd : Z * any) : Prop :=
  exists n, m !! o = Some n /\ key n = kd.1 /\ data n = kd.2.

Lemma rt_ne_child m a l k d h r : rep m (N a l k d h r) -> bst (N a l k d h r) -> rt l <> Some a /\ rt r <> Some a.
Proof.
  intros Hrep Hbst. destruct (bst_unshared _ _ _ _ _ _ _ Hrep Hbst) as (H1 & H2 & _). split; intros E1.
  - destruct l as [|]; [done|]. injection E1 as ->. apply H1, on_N. auto.
  - destruct r as [|]; [done|]. injection E1 as ->. apply H2, on_N. auto.
Qed.

Lemma wp_aDeleteMin fuel m ts t (Q : ptr * ptr -> store -> Prop) :
  t <> E -> rep m t -> bst t -> avl t -> hf t <= 120 -> hf t <= Z.of_nat fuel ->
  (forall m' t' o kd, removed m t m' t' -> elements t = kd :: elements t' -> holds m o kd ->
     Q (Some o, rt t') (Store m' ts)) ->
  wp (aDeleteMin fuel (rt t)) Q (Store m ts).
Proof.
  revert t Q. induction fuel as [|fuel IH]; intros t Q Hne Hrep Hbst Havl Hh Hfuel HQ.
  { exfalso. apply avl_hf_pos in Havl as [_ Hp]. specialize (Hp Hne). lia. }
  destruct t as [|a l k d h r]; [done|]. pose proof Hrep as (Ha & Rl & Rr). cbn [hf] in Hh, Hfuel.
  pose proof Havl as (Eh & Hd1 & Hd2 & Hl & Hr). pose proof (avl_nonneg _ Hl). pose proof (avl_nonneg _ Hr).
  destruct (rt_ne_child _ _ _ _ _ _ _ Hrep Hbst) as [Hla Hra].
  cbn [aDeleteMin]. cbn [rt]. abt_steps. destruct l as [|al ll kl dl hl lr].
  - rewrite bool_decide_true by done. abt_steps. apply (HQ m r a (k, d)); [|done|by eexists; split; [exact Ha|]].
    cbn [hf] in *. split_and!; [by split|done|cbn [hf]; lia|cbn [hf]; lia|done].
  - set (l := N al ll kl dl hl lr) in *. rewrite bool_decide_false by done. abt_steps. apply (IH l); try done; [by eapply bst_left|lia..|].
    intros m' l' o kd Hrem El Hkd. pose proof Hrem as ([Hm Rl'] & Hl' & Hhl & Hnl).
    rewrite bool_decide_false by done. abt_step.
    eapply wp_copy; [by eapply lookup_weaken|]. intros c Hc. abt_step.
    eapply (wp_settle_left m); [exact Hrep|done..| | |done].
    + intros c' h'. assert (El' : elements l = [kd] ++ elements l') by done.
      assert (Hb : bst (N a l k d h r)) by done. clear -Hb El'.
      unfold bst in *. rewrite keys_N in *. unfold keys in *. rewrite El', fmap_app in Hb. cbn in Hb.
      by apply StronglySorted_inv in Hb as [Hb _].
    + intros m2 t' Hrem' E'. abt_step. apply (HQ m2 t' o kd); [done| |done].
      rewrite E'. cbn [elements]. by rewrite El.
Qed.

Lemma wp_aDeleteMax fuel m ts t (Q : ptr * ptr -> store -> Prop) :
  t <> E -> rep m t -> bst t -> avl t -> hf t <= 120 -> hf t <= Z.of_nat fuel ->
  (forall m' t' o kd, removed m t m' t' -> elements t = elements t' ++ [kd] -> holds m o kd ->
     Q (Some o, rt t') (Store m' ts)) ->
  wp (aDeleteMax fuel (rt t)) Q (Store m ts).
Proof.
  revert t Q. induction fuel as [|fuel IH]; intros t Q Hne Hrep Hbst Havl Hh Hfuel HQ.
  { exfalso. apply avl_hf_pos in Havl as [_ Hp]. specialize (Hp Hne). lia. }
  destruct t as [|a l k d h r]; [done|]. pose proof Hrep as (Ha & Rl & Rr). cbn [hf] in Hh, Hfuel.
  pose proof Havl as (Eh & Hd1 & Hd2 & Hl & Hr). pose proof (avl_nonneg _ Hl). pose proof (avl_nonneg _ Hr).
  destruct (rt_ne_child _ _ _ _ _ _ _ Hrep Hbst) as [Hla Hra].
  cbn [aDeleteMax]. cbn [rt]. abt_steps. destruct r as [|ar rl kr dr hr rr].
  - rewrite bool_decide_true by done. abt_steps. apply (HQ m l a (k, d)); [|done|by eexists; split; [exact Ha|]].
    cbn [hf] in *. split_and!; [by split|done|cbn [hf]; lia|cbn [hf]; lia|done].
  - set (r := N ar rl kr dr hr rr) in *. rewrite bool_decide_false by done. abt_steps. apply (IH r); try done; [by eapply bst_right|lia..|].
    intros m' r' o kd Hrem Er Hkd. pose proof Hrem as ([Hm Rr'] & Hr' & Hhr & Hnr).
    rewrite bool_decide_false by done. abt_step.
    eapply wp_copy; [by eapply lookup_weaken|]. intros c Hc. abt_step.
    eapply (wp_settle_right m); [exact Hrep|done..| | |done].
    + intros c' h'. assert (Hb : bst (N a l k d h r)) by done. clear -Hb Er.
      unfold bst in *. rewrite keys_N in *. unfold keys in *. rewrite Er, fmap_app in Hb.
      rewrite app_comm_cons, app_assoc in Hb.
      by apply StronglySorted_app in Hb as (_ & Hb & _).
    + intros m2 t' Hrem' E'. abt_step. apply (HQ m2 t' o kd); [done| |done].
      rewrite E'. cbn [elements]. rewrite Er. by simplify_list_eq.
Qed.

Lemma del_N_l x a l k d h r :
  bst (N a l k d h r) -> x < k -> del x (elements (N a l k d h r)) = del x (elements l) ++ (k, d) :: elements r.
Proof.
  intros (_ & _ & _ & Hr)%bst_N Hx. cbn [elements]. apply del_l. cbn. apply not_elem_of_cons. split; [lia|].
  apply above_notin. by eapply above_trans; [|apply Z.lt_le_incl].
Qed.
Lemma del_N_r x a l k d h r :
  bst (N a l k d h r) -> k < x -> del x (elements (N a l k d h r)) = elements l ++ (k, d) :: del x (elements r).
Proof.
  intros (_ & _ & Hl & _)%bst_N Hx. cbn [elements].
  rewrite del_r by (apply below_notin; by eapply below_trans; [|apply Z.lt_le_incl]).
  cbn [del]. by destruct (Z.eqb_spec x k); [lia|].
Qed.
Lemma del_N_eq a l k d h r :
  bst (N a l k d h r) -> del k (elements (N a l k d h r)) = elements l ++ elements r.
Proof.
  intros (_ & _ & Hl & _)%bst_N. cbn [elements]. rewrite del_r by (by apply below_notin).
  cbn [del]. by rewrite Z.eqb_refl.
Qed.
Lemma bst_del x t t' : bst t -> elements t' = del x (elements t) -> bst t'.
Proof. unfold bst, keys. intros H ->. by apply del_sorted. Qed.

(** The result of [aDelete] when the key is there. *)
Definition deleted m t x m' t' (o : loc) : Prop :=
  removed m t m' t' /\ elements t' = del x (elements t) /\
  exists d, assoc x (elements t) = Some d /\ holds m o (x, d).

Lemma wp_aDelete_left m ts a l k d h r x m' l' o (Q : ptr * ptr -> store -> Prop) :
  let t := N a l k d h r in
  rep m t -> bst t -> avl t -> h <= 120 -> x < k -> deleted m l x m' l' o ->
  (forall m' t' o, deleted m t x m' t' o -> Q (Some o, rt t') (Store m' ts)) ->
  wp (c <- copy (Some a) ;;
      r <- aRebalanceAfterLeftDeletion c (hf l) (rt l') ;;
      mret (Some o, r)) Q (Store m' ts).
Proof.
  intros t Hrep Hbst Havl Hh Hx (Hrem & El & v & Ev & Hv) HQ. pose proof Hrem as ([Hm _] & _). abt_step.
  eapply wp_copy; [eapply lookup_weaken; [apply Hrep|done]|]. intros c Hc. abt_step.
  eapply (wp_settle_left m); [exact Hrep|done..| | |done].
  - intros c' h'. eapply (bst_del x t); [done|]. unfold t. rewrite del_N_l by done. cbn [elements]. by rewrite El.
  - intros m2 t' Hrem' E'. abt_step. apply (HQ m2 t' o). split; [done|]. split.
    + rewrite E'. unfold t. rewrite del_N_l by done. by rewrite El.
    + exists v. split; [|done]. by rewrite <- Ev, <- (assoc_lt x a l k d h r).
Qed.
Lemma wp_aDelete_right m ts a l k d h r x m' r' o (Q : ptr * ptr -> store -> Prop) :
  let t := N a l k d h r in
  rep m t -> bst t -> avl t -> h <= 120 -> k < x -> deleted m r x m' r' o ->
  (forall m' t' o, deleted m t x m' t' o -> Q (Some o, rt t') (Store m' ts)) ->
  wp (c <- copy (Some a) ;;
      r <- aRebalanceAfterRightDeletion c (hf r) (rt r') ;;
      mret (Some o, r)) Q (Store m' ts).
Proof.
  intros t Hrep Hbst Havl Hh Hx (Hrem & Er & v & Ev & Hv) HQ. pose proof Hrem as ([Hm _] & _). abt_step.
  eapply wp_copy; [eapply lookup_weaken; [apply Hrep|done]|]. intros c Hc. abt_step.
  eapply (wp_settle_right m); [exact Hrep|done..| | |done].
  - intros c' h'. eapply (bst_del x t); [done|]. unfold t. rewrite del_N_r by done. cbn [elements]. by rewrite Er.
  - intros m2 t' Hrem' E'. abt_step. apply (HQ m2 t' o). split; [done|]. split.
    + rewrite E'. unfold t. rewrite del_N_r by done. by rewrite Er.
    + exists v. split; [|done]. by rewrite <- Ev, <- (assoc_gt x a l k d h r).
Qed.

(** Deleting the key of an inner node: its neighbour's contents move up. *)
Lemma wp_aDelete_here m ts a l k d h r (Q : ptr * ptr -> store -> Prop) fuel :
  let t := N a l k d h r in
  rep m t -> bst t -> avl t -> h <= 120 -> h <= Z.of_nat fuel -> h <> 1 ->
  (forall m' t', deleted m t k m' t' a -> Q (Some a, rt t') (Store m' ts)) ->
  wp (if hf l >? hf r then
        oh <- height (rt l) ;;
        '(d, tleft) <- aDeleteMax fuel (rt l) ;;
        c <- copy (Some a) ;;
        dn <- deref d ;;
        set_data c (data dn) ;;
        set_key c (Abt.key dn) ;;
        r <- aRebalanceAfterLeftDeletion c oh tleft ;;
        mret (Some a, r)
      else
        oh <- height (rt r) ;;
        '(d, tright) <- aDeleteMin fuel (rt r) ;;
        c <- copy (Some a) ;;
        dn <- deref d ;;
        set_data c (data dn) ;;
        set_key c (Abt.key dn) ;;
        r <- aRebalanceAfterRightDeletion c oh tright ;;
        mret (Some a, r)) Q (Store m ts).
Proof.
  intros t Hrep Hbst Havl Hh Hfuel Hh1 HQ. pose proof Hrep as (Ha & Rl & Rr).
  pose proof Havl as (Eh & Hd1 & Hd2 & Hl & Hr). pose proof (avl_nonneg _ Hl). pose proof (avl_nonneg _ Hr).
  assert (Hdel : forall m' t', removed m t m' t' -> elements t' = elements l ++ elements r -> deleted m t k m' t' a).
  { intros m' t' Hrem E'. split; [done|]. split; [by unfold t; rewrite del_N_eq|]. exists d.
    split; [by apply assoc_eq|]. by eexists; split; [exact Ha|]. }
  rewrite Z.gtb_ltb. destruct (Z.ltb_spec (hf r) (hf l)).
  - abt_steps. apply wp_aDeleteMax; try done; [by destruct l; cbn in *; [lia|]|by eapply bst_left|lia..|].
    intros m' l' o kd Hrem El (n & Hn & Ek & Ed). pose proof Hrem as ([Hm _] & _). abt_step.
    eapply wp_copy; [by eapply lookup_weaken|]. intros c Hc.
    assert (c <> o) by (intros ->; rewrite (lookup_weaken m m' _ _ Hn) in Hc by done; done).
    abt_step. eapply wp_deref; [rewrite lookup_insert_ne by done; by eapply lookup_weaken|]. abt_steps.
    rewrite !insert_insert_eq. destruct kd as [kc dc]. cbn in Ek, Ed. rewrite Ek, Ed.
    eapply (wp_settle_left m); [exact Hrep|done..| | |done].
    + intros c' h'. eapply (bst_del k t); [done|]. unfold t. rewrite del_N_eq by done. rewrite El. by simplify_list_eq.
    + intros m2 t' Hrem' E'. abt_step. apply HQ, Hdel; [done|]. rewrite E', El. by simplify_list_eq.
  - abt_steps. apply wp_aDeleteMin; try done; [by destruct r; cbn in *; [lia|]|by eapply bst_right|lia..|].
    intros m' r' o kd Hrem Er (n & Hn & Ek & Ed). pose proof Hrem as ([Hm _] & _). abt_step.
    eapply wp_copy; [by eapply lookup_weaken|]. intros c Hc.
    assert (c <> o) by (intros ->; rewrite (lookup_weaken m m' _ _ Hn) in Hc by done; done).
    abt_step. eapply wp_deref; [rewrite lookup_insert_ne by done; by eapply lookup_weaken|]. abt_steps.
    rewrite !insert_insert_eq. destruct kd as [kc dc]. cbn in Ek, Ed. rewrite Ek, Ed.
    eapply (wp_settle_right m); [exact Hrep|done..| | |done].
    + intros c' h'. eapply (bst_del k t); [done|]. unfold t. rewrite del_N_eq by done. by rewrite Er.
    + intros m2 t' Hrem' E'. abt_step. apply HQ, Hdel; [done|]. by rewrite E', Er.
Qed.

Lemma wp_aDelete fuel m ts t x (Q : ptr * ptr -> store -> Prop) :
  rep m t -> bst t -> avl t -> hf t <= 120 -> hf t < Z.of_nat fuel ->
  (assoc x (elements t) = None -> Q (None, rt t) (Store m ts)) ->
  (forall m' t' o, deleted m t x m' t' o -> Q (Some o, rt t') (Store m' ts)) ->
  wp (aDelete fuel (rt t) x) Q (Store m ts).
Proof.
  revert t Q. induction fuel as [|fuel IH]; intros t Q Hrep Hbst Havl Hh Hfuel HN HS.
  { apply avl_nonneg in Havl. lia. }
  destruct t as [|a l k d h r]; [by apply HN|]. pose proof Hrep as (Ha & Rl & Rr). cbn [hf] in Hh, Hfuel.
  pose proof Havl as (Eh & Hd1 & Hd2 & Hl & Hr). pose proof (avl_nonneg _ Hl). pose proof (avl_nonneg _ Hr).
  cbn [aDelete]. cbn [rt]. abt_steps. rewrite Z.gtb_ltb. destruct (Z.ltb_spec x k); [|destruct (Z.ltb_spec k x)].
  - abt_steps. apply IH; [done|by eapply bst_left|done|lia|lia| |].
    + intros Hno. rewrite bool_decide_true by done. abt_steps. apply HN. by rewrite assoc_lt.
    + intros m' l' o Hdel. pose proof Hdel as ((_ & _ & _ & Hne) & _). rewrite bool_decide_false by done.
      by eapply (wp_aDelete_left m ts a l k d h r).
  - abt_steps. apply IH; [done|by eapply bst_right|done|lia|lia| |].
    + intros Hno. rewrite bool_decide_true by done. abt_steps. apply HN. by rewrite assoc_gt.
    + intros m' r' o Hdel. pose proof Hdel as ((_ & _ & _ & Hne) & _). rewrite bool_decide_false by done.
      by eapply (wp_aDelete_right m ts a l k d h r).
  - assert (x = k) as -> by lia. unfold LEAF_HEIGHT. destruct (Z.eqb_spec h 1) as [->|Hh1].
    + assert (l = E) as -> by (apply avl_leaf; [done|lia]). assert (r = E) as -> by (apply avl_leaf; [done|lia]).
      abt_step. apply (HS m E a). split; [split_and!; done || by split|].
      split; [by rewrite del_N_eq|]. exists d. split; [by apply assoc_eq|]. by eexists; split; [exact Ha|].
    + abt_steps. apply (wp_aDelete_here m ts a l k d h r Q fuel); try done; [lia|]. intros. by apply HS.
Qed.
End Delete.
