(* ===== verification/AbtQuery.v ===== *)
(** * abt: searching and enumerating a tree

    First the searches and the traversal by recursion, then the iterators.  The stack of
    an iterator is a path of the tree; a parent on it has been visited when the path
    leaves it to the right, which the code finds out by comparing pointers. *)

From stdpp Require Import gmap.
From S2P Require Import Prelude.
From S2P Require Import Abt.
From S2P Require Import AbtTree.
From S2P Require Import AbtOps.
From S2P Require Import AbtInsert.
From S2P Require Import AbtDelete.

Section Query.
Context {D : Type} `{EqDecision D}.
Abbreviation any := (option D).
Implicit Types (m : gmap loc (node32 (D:=D))) (ts : gmap loc T) (t l r : tree (D:=D)) (p : ptr) (kd : Z * any).

(** [p] points to a node of the heap holding the entry, or is [nil]. *)
Definition points m p (e : option (Z * any)) : Prop :=
  match e with Some kd => exists a, p = Some a /\ holds m a kd | None => p = None end.

Lemma wp_nilOrData m ts p e (Q : any -> store -> Prop) :
  points m p e -> Q (match e with Some (_, d) => d | None => None end) (Store m ts) -> wp (nilOrData p) Q (Store m ts).
Proof.
  destruct e as [[k d]|]; cbn.
  - intros (a & -> & n & Ha & Ek & Ed) HQ. cbn in Ek, Ed. unfold nilOrData. abt_steps. by rewrite Ed.
  - by intros ->.
Qed.
Lemma wp_nilOrKeyAndData m ts p e (Q : Z * any -> store -> Prop) :
  points m p e -> Q (default (NOT_KEY32, None) e) (Store m ts) -> wp (nilOrKeyAndData p) Q (Store m ts).
Proof.
  destruct e as [[k d]|]; cbn.
  - intros (a & -> & n & Ha & Ek & Ed) HQ. cbn in Ek, Ed. unfold nilOrKeyAndData. abt_steps. by rewrite Ek, Ed.
  - by intros ->.
Qed.

Lemma holds_root m a l k d h r : rep m (N a l k d h r) -> holds m a (k, d).
Proof. intros (Ha & _). by exists (Node32 (rt l) (rt r) d k h). Qed.

Lemma find_loop m ts t x fuel (Q : ptr -> store -> Prop) :
  rep m t -> bst t -> avl t -> hf t < Z.of_nat fuel ->
  (forall p, points m p ((x,.) <$> assoc x (elements t)) -> Q p (Store m ts)) ->
  wp (loop fuel (fun t : ptr =>
    match t with
    | None => break None
    | Some _ =>
        n <- deref t ;;
        if x <? Abt.key n then continue (left n)
        else if x >? Abt.key n then continue (right n)
        else break t
    end) (rt t)) Q (Store m ts).
Proof.
  revert t. induction fuel as [|fuel IH]; intros t Hrep Hbst Havl Hf HQ; [apply avl_nonneg in Havl; lia|].
  apply wp_loop_S. destruct t as [|a l k d h r]; [by apply wp_break, HQ|].
  pose proof Hrep as (Ha & Rl & Rr). pose proof Havl as (Eh & Hd1 & Hd2 & Hl & Hr). cbn [rt hf] in *. abt_steps.
  rewrite Z.gtb_ltb. destruct (Z.ltb_spec x k); [|destruct (Z.ltb_spec k x)].
  - apply wp_continue, IH; [done|by eapply bst_left|done|lia|]. intros p Hp. apply HQ. by rewrite assoc_lt.
  - apply wp_continue, IH; [done|by eapply bst_right|done|lia|]. intros p Hp. apply HQ. by rewrite assoc_gt.
  - assert (x = k) as -> by lia. apply wp_break, HQ. rewrite assoc_eq by done. exists a.
    split; [done|]. by eapply holds_root.
Qed.

Lemma last_app_ne {A} x (l1 l2 : list A) : l2 <> [] -> last (l1 ++ x :: l2) = last l2.
Proof. intros H. destruct l2 as [|y l2]; [done|]. by rewrite last_app_cons. Qed.
Lemma elements_ne t : t <> E -> elements t <> [].
Proof. destruct t as [|? l]; [done|]. intros _. cbn. by destruct (elements l). Qed.

(** The first and the last entry. *)
Lemma min_loop m ts t fuel (Q : ptr -> store -> Prop) :
  t <> E -> rep m t -> avl t -> hf t <= Z.of_nat fuel ->
  (forall p, points m p (head (elements t)) -> Q p (Store m ts)) ->
  wp (loop fuel (fun t : ptr =>
        n <- deref t ;;
        if bool_decide (left n <> None) then continue (left n) else break t) (rt t)) Q (Store m ts).
Proof.
  revert t. induction fuel as [|fuel IH]; intros t Hne Hrep Havl Hf HQ.
  { apply avl_hf_pos in Havl as [_ Hp]. specialize (Hp Hne). lia. }
  destruct t as [|a l k d h r]; [done|]. pose proof Hrep as (Ha & Rl & Rr).
  pose proof Havl as (Eh & Hd1 & Hd2 & Hl & Hr). cbn [rt hf] in *.
  pose proof (avl_nonneg _ Hr). apply wp_loop_S. abt_steps. destruct l as [|al ll kl dl hl lr].
  - rewrite bool_decide_false by (cbn; tauto). apply wp_break, HQ. exists a. split; [done|]. by eapply holds_root.
  - rewrite bool_decide_true by done. apply wp_continue. apply (IH (N al ll kl dl hl lr)); try done; [lia|].
    intros p Hp. apply HQ. cbn [elements] in *. by destruct (elements ll).
Qed.
Lemma max_loop m ts t fuel (Q : ptr -> store -> Prop) :
  t <> E -> rep m t -> avl t -> hf t <= Z.of_nat fuel ->
  (forall p, points m p (last (elements t)) -> Q p (Store m ts)) ->
  wp (loop fuel (fun t : ptr =>
        n <- deref t ;;
        if bool_decide (right n <> None) then continue (right n) else break t) (rt t)) Q (Store m ts).
Proof.
  revert t. induction fuel as [|fuel IH]; intros t Hne Hrep Havl Hf HQ.
  { apply avl_hf_pos in Havl as [_ Hp]. specialize (Hp Hne). lia. }
  destruct t as [|a l k d h r]; [done|]. pose proof Hrep as (Ha & Rl & Rr).
  pose proof Havl as (Eh & Hd1 & Hd2 & Hl & Hr). cbn [rt hf] in *.
  pose proof (avl_nonneg _ Hl). apply wp_loop_S. abt_steps. destruct r as [|ar rl kr dr hr rr].
  - rewrite bool_decide_false by (cbn; tauto). apply wp_break, HQ. cbn [elements]. rewrite last_snoc.
    exists a. split; [done|]. by eapply holds_root.
  - rewrite bool_decide_true by done. apply wp_continue. apply (IH (N ar rl kr dr hr rr)); try done; [lia|].
    intros p Hp. apply HQ. cbn [elements] in *. rewrite last_app_ne; [done|].
    by apply (elements_ne (N ar rl kr dr hr rr)).
Qed.

(** *** Bounds *)

Definition glb_ok (x : Z) (eq : bool) (kd : Z * any) : Prop := kd.1 < x \/ (eq = true /\ kd.1 = x).
Definition lub_ok (x : Z) (eq : bool) (kd : Z * any) : Prop := x < kd.1 \/ (eq = true /\ kd.1 = x).
#[export] Instance glb_ok_dec x eq kd : Decision (glb_ok x eq kd).
Proof. unfold glb_ok. apply _. Defined.
#[export] Instance lub_ok_dec x eq kd : Decision (lub_ok x eq kd).
Proof. unfold lub_ok. apply _. Defined.

Definition glb_entry x eq (l : list (Z * any)) : option (Z * any) := last (filter (glb_ok x eq) l).
Definition lub_entry x eq (l : list (Z * any)) : option (Z * any) := head (filter (lub_ok x eq) l).
Definition or_else {A} (o o' : option A) : option A := match o with Some a => Some a | None => o' end.

Lemma filter_none {A} (P : A -> Prop) `{forall x, Decision (P x)} (l : list A) : (forall x, x ∈ l -> ~ P x) -> filter P l = [].
Proof.
  induction l as [|x l IH]; intros Hl; [done|]. rewrite filter_cons_False by (apply Hl; left).
  apply IH. intros y Hy. apply Hl. by right.
Qed.

Lemma above_elem (l : list (Z * any)) x kd : above l x -> kd ∈ l -> x < kd.1.
Proof. intros H Hkd. apply H, list_elem_of_fmap. by exists kd. Qed.
Lemma below_elem (l : list (Z * any)) x kd : below l x -> kd ∈ l -> kd.1 < x.
Proof. intros H Hkd. apply H, list_elem_of_fmap. by exists kd. Qed.

Lemma glb_entry_N x eq a l k d h r :
  bst (N a l k d h r) ->
  glb_entry x eq (elements (N a l k d h r)) =
    if k <? x then or_else (glb_entry x eq (elements r)) (Some (k, d))
    else if eq && (x =? k) then Some (k, d) else glb_entry x eq (elements l).
Proof.
  intros (_ & _ & Hl & Hr)%bst_N. unfold glb_entry. cbn [elements]. rewrite filter_app.
  destruct (Z.ltb_spec k x).
  - rewrite filter_cons_True by (by left). unfold or_else. by rewrite last_app_cons, last_cons.
  - assert (filter (glb_ok x eq) (elements r) = []) as Er.
    { apply filter_none. intros kd Hkd%(above_elem _ _ _ Hr) [|[_ ?]]; lia. }
    destruct (eq && (x =? k)) eqn:Ex; reflect.
    + rewrite filter_cons_True by (right; cbn; lia || (split; [done|lia])). by rewrite Er, last_snoc.
    + rewrite filter_cons_False, Er, app_nil_r; [done|]. intros [?|[-> ?]]; cbn in *; [lia|]. destruct Ex; reflect; [done|lia].
Qed.
Lemma lub_entry_N x eq a l k d h r :
  bst (N a l k d h r) ->
  lub_entry x eq (elements (N a l k d h r)) =
    if x <? k then or_else (lub_entry x eq (elements l)) (Some (k, d))
    else if eq && (x =? k) then Some (k, d) else lub_entry x eq (elements r).
Proof.
  intros (_ & _ & Hl & Hr)%bst_N. unfold lub_entry. cbn [elements]. rewrite filter_app.
  destruct (Z.ltb_spec x k).
  - rewrite filter_cons_True by (by left). unfold or_else. by destruct (filter _ (elements l)).
  - assert (filter (lub_ok x eq) (elements l) = []) as ->.
    { apply filter_none. intros kd Hkd%(below_elem _ _ _ Hl) [|[_ ?]]; lia. }
    destruct (eq && (x =? k)) eqn:Ex; reflect.
    + by rewrite filter_cons_True by (right; split; [done|cbn; lia]).
    + rewrite filter_cons_False; [done|]. intros [?|[-> ?]]; cbn in *; [lia|]. destruct Ex; reflect; [done|lia].
Qed.

Lemma or_else_assoc {A} (o1 o2 o3 : option A) : or_else (or_else o1 o2) o3 = or_else o1 (or_else o2 o3).
Proof. by destruct o1. Qed.

Lemma glb_loop m ts t x eq fuel best e (Q : ptr -> store -> Prop) :
  rep m t -> bst t -> avl t -> hf t < Z.of_nat fuel -> points m best e ->
  (forall p, points m p (or_else (glb_entry x eq (elements t)) e) -> Q p (Store m ts)) ->
  wp (loop fuel (fun '(t, best) =>
    match t with
    | None => break best
    | Some _ =>
        n <- deref t ;;
        if x <=? Abt.key n then
          if eq && (x =? Abt.key n) then break t else continue (left n, best)
        else continue (right n, t)
    end) (rt t, best)) Q (Store m ts).
Proof.
  revert t best e. induction fuel as [|fuel IH]; intros t best e Hrep Hbst Havl Hf Hp HQ; [apply avl_nonneg in Havl; lia|].
  apply wp_loop_S. destruct t as [|a l k d h r]; [by apply wp_break, HQ|]. rewrite glb_entry_N in HQ by done.
  pose proof Hrep as (Ha & Rl & Rr). pose proof Havl as (Eh & Hd1 & Hd2 & Hl & Hr). cbn [rt hf] in *. abt_steps.
  destruct (Z.leb_spec x k), (Z.ltb_spec k x); try lia; [destruct (eq && (x =? k))|].
  - apply wp_break, HQ. exists a. split; [done|]. by eapply holds_root.
  - apply wp_continue. by eapply IH; [done|eapply bst_left|done|lia|done|].
  - apply wp_continue. eapply (IH r _ (Some (k, d))); [done|by eapply bst_right|done|lia| |].
    + exists a. split; [done|]. by eapply holds_root.
    + intros p Hp'. apply HQ. by rewrite or_else_assoc.
Qed.
Lemma lub_loop m ts t x eq fuel best e (Q : ptr -> store -> Prop) :
  rep m t -> bst t -> avl t -> hf t < Z.of_nat fuel -> points m best e ->
  (forall p, points m p (or_else (lub_entry x eq (elements t)) e) -> Q p (Store m ts)) ->
  wp (loop fuel (fun '(t, best) =>
    match t with
    | None => break best
    | Some _ =>
        n <- deref t ;;
        if x >=? Abt.key n then
          if eq && (x =? Abt.key n) then break t else continue (right n, best)
        else continue (left n, t)
    end) (rt t, best)) Q (Store m ts).
Proof.
  revert t best e. induction fuel as [|fuel IH]; intros t best e Hrep Hbst Havl Hf Hp HQ; [apply avl_nonneg in Havl; lia|].
  apply wp_loop_S. destruct t as [|a l k d h r]; [by apply wp_break, HQ|]. rewrite lub_entry_N in HQ by done.
  pose proof Hrep as (Ha & Rl & Rr). pose proof Havl as (Eh & Hd1 & Hd2 & Hl & Hr). cbn [rt hf] in *. abt_steps.
  rewrite Z.geb_leb. destruct (Z.leb_spec k x), (Z.ltb_spec x k); try lia; [destruct (eq && (x =? k))|].
  - apply wp_break, HQ. exists a. split; [done|]. by eapply holds_root.
  - apply wp_continue. by eapply IH; [done|eapply bst_right|done|lia|done|].
  - apply wp_continue. eapply (IH l _ (Some (k, d))); [done|by eapply bst_left|done|lia| |].
    + exists a. split; [done|]. by eapply holds_root.
    + intros p Hp'. apply HQ. by rewrite or_else_assoc.
Qed.

(** *** In-order visits *)

Lemma wp_visitInOrder {X} fuel m ts t (f : Z -> any -> X -> X) x (Q : X -> store -> Prop) :
  t <> E -> rep m t -> avl t -> hf t <= Z.of_nat fuel ->
  Q (foldl (fun x kd => f kd.1 kd.2 x) x (elements t)) (Store m ts) -> wp (visitInOrder fuel f (rt t) x) Q (Store m ts).
Proof.
  revert t x Q. induction fuel as [|fuel IH]; intros t x Q Hne Hrep Havl Hf HQ.
  { apply avl_hf_pos in Havl as [_ Hp]. specialize (Hp Hne). lia. }
  destruct t as [|a l k d h r]; [done|]. pose proof Hrep as (Ha & Rl & Rr).
  pose proof Havl as (Eh & Hd1 & Hd2 & Hl & Hr). cbn [rt hf] in *.
  pose proof (avl_nonneg _ Hl). pose proof (avl_nonneg _ Hr). cbn [visitInOrder elements] in *. abt_steps.
  rewrite foldl_app in HQ. cbn [foldl] in HQ.
  assert (HR : forall x, Q (foldl (fun x kd => f kd.1 kd.2 x) x (elements r)) (Store m ts) ->
    wp (if bool_decide (rt r <> None) then visitInOrder fuel f (rt r) x else mret x) Q (Store m ts)).
  { intros x' Hx. destruct r as [|]; [exact Hx|]. rewrite bool_decide_true by done. apply IH; try done. cbn in *. lia. }
  destruct l as [|al ll kl dl hl lr].
  - abt_steps. apply HR, HQ.
  - rewrite bool_decide_true by done. apply (IH (N al ll kl dl hl lr)); try done; [lia|]. apply HR, HQ.
Qed.
End Query.

Section Iter.
Context {D : Type} `{EqDecision D}.
Abbreviation any := (option D).
Implicit Types (m : gmap loc (node32 (D:=D))) (ts : gmap loc T) (t l r : tree (D:=D)) (ps : list (tree (D:=D))) (rest : list (Z * any)).

(** [up t ps rest]: [t] hangs below the path [ps], and [rest] is what is left to
    visit once [t] is done. *)
Inductive up : tree (D:=D) -> list (tree (D:=D)) -> list (Z * any) -> Prop :=
| up_nil t : up t [] []
| up_left a t k d h r ps rest :
    up (N a t k d h r) ps rest -> up t (N a t k d h r :: ps) ((k, d) :: elements r ++ rest)
| up_right a l k d h t ps rest :
    up (N a l k d h t) ps rest -> up t (N a l k d h t :: ps) rest.

(** A tree of the store, ordered and balanced. *)
Definition good m t : Prop := rep m t /\ bst t /\ avl t /\ hf t <= 120.

Lemma good_mono m m' t : m ⊆ m' -> good m t -> good m' t.
Proof. intros Hm (? & ? & ? & ?). split_and!; [by eapply rep_mono|done..]. Qed.
Lemma good_left m a l k d h r : good m (N a l k d h r) -> good m l.
Proof.
  intros ((_ & ? & _) & Hb & (Eh & ? & ? & ? & Hr) & Hh). cbn [hf] in Hh. pose proof (avl_nonneg _ Hr).
  split_and!; [done|by eapply bst_left|done|lia].
Qed.
Lemma good_right m a l k d h r : good m (N a l k d h r) -> good m r.
Proof.
  intros ((_ & _ & ?) & Hb & (Eh & ? & ? & Hl & ?) & Hh). cbn [hf] in Hh. pose proof (avl_nonneg _ Hl).
  split_and!; [done|by eapply bst_right|done|lia].
Qed.

(** The state of an iterator that still has to visit [rest]. *)
Definition ready m (it : iterator_t) rest : Prop :=
  exists ps, it = rt <$> ps /\ Forall (good m) ps /\
    match ps with
    | [] => rest = []
    | E :: _ => False
    | N a l k d h r as t :: ps => exists rest', up t ps rest' /\ rest = (k, d) :: elements r ++ rest'
    end.

Lemma ready_mono m m' it rest : m ⊆ m' -> ready m it rest -> ready m' it rest.
Proof.
  intros Hm (ps & E1 & Hps & H). exists ps. split_and!; [done| |done].
  eapply Forall_impl; [exact Hps|]. intros t. by apply good_mono.
Qed.

Lemma ready_done m it rest : ready m it rest -> it_done it = match rest with [] => true | _ => false end.
Proof. intros ([|[|a l k d h r] ps] & -> & _ & H); [by subst|done|]. by destruct H as (? & _ & ->). Qed.

Lemma wp_leftmost_loop fuel m ts t ps rest (Q : iterator_t -> store -> Prop) :
  t <> E -> good m t -> Forall (good m) ps -> up t ps rest -> hf t < Z.of_nat fuel ->
  (forall it, ready m it (elements t ++ rest) -> Q it (Store m ts)) ->
  wp (loop fuel (fun '(it, t) =>
    match t with
    | None => break it
    | Some _ => n <- deref t ;; continue (t :: it, left n)
    end) (rt <$> ps, rt t)) Q (Store m ts).
Proof.
  revert t ps rest. induction fuel as [|fuel IH]; intros t ps rest Hne Ht Hps Hup Hf HQ.
  { destruct Ht as (_ & _ & Havl & _). apply avl_nonneg in Havl. lia. }
  destruct t as [|a l k d h r]; [done|]. pose proof Ht as ((Ha & Rl & Rr) & Hbst & (Eh & Hd1 & Hd2 & Hl & Hr) & Hh).
  cbn [hf] in *. pose proof (avl_nonneg _ Hl). pose proof (avl_nonneg _ Hr).
  apply wp_loop_S. cbn [rt]. abt_steps. apply wp_continue.
  destruct l as [|al ll kl dl hl lr].
  - destruct fuel as [|fuel]; [lia|]. apply wp_loop_S, wp_break. apply HQ.
    exists (N a E k d h r :: ps). split_and!; [done|by constructor|]. by exists rest.
  - apply (IH (N al ll kl dl hl lr) (N a (N al ll kl dl hl lr) k d h r :: ps) ((k, d) :: elements r ++ rest)); try done.
    + by eapply good_left.
    + by constructor.
    + by constructor.
    + lia.
    + intros it Hit. apply HQ. cbn [elements] in *. by rewrite <- app_assoc.
Qed.

Lemma wp_iterator m ts t (Q : iterator_t -> store -> Prop) :
  good m t -> (forall it, ready m it (elements t) -> Q it (Store m ts)) -> wp (iterator (rt t)) Q (Store m ts).
Proof.
  intros Ht HQ. destruct t as [|a l k d h r]; cbn [rt iterator].
  - apply wp_ret, HQ. by exists [].
  - apply (wp_leftmost_loop depth m ts (N a l k d h r) [] []); [done|done|constructor|apply up_nil|destruct Ht as (_ & _ & _ & ?); unfold depth; lia|].
    intros it Hit. apply HQ. by rewrite app_nil_r in Hit.
Qed.

Lemma wp_pop_visited m ts t ps rest (Q : iterator_t -> store -> Prop) :
  up t ps rest -> t <> E -> Forall (good m) ps ->
  (forall it, ready m it rest -> Q it (Store m ts)) -> wp (pop_visited (rt t) (rt <$> ps)) Q (Store m ts).
Proof.
  intros Hup. revert Q. induction Hup as [t|a t k d h r ps rest Hup IH|a l k d h t ps rest Hup IH]; intros Q Hne Hps HQ.
  - apply wp_ret, HQ. by exists [].
  - cbn [fmap list_fmap pop_visited rt]. apply Forall_cons in Hps as [Hp Hps]. pose proof Hp as ((Ha & Rl & Rr) & Hbst & _).
    abt_steps. destruct (bst_unshared _ _ _ _ _ _ _ (conj Ha (conj Rl Rr)) Hbst) as (_ & _ & Hdis).
    rewrite bool_decide_false.
    + apply wp_ret, HQ. exists (N a t k d h r :: ps). split_and!; [done|by constructor|]. by exists rest.
    + intros Er. destruct t as [|b]; [done|]. destruct r as [|c]; [done|]. injection Er as ->.
      apply (Hdis c); apply on_N; auto.
  - cbn [fmap list_fmap pop_visited rt]. apply Forall_cons in Hps as [Hp Hps]. pose proof Hp as ((Ha & Rl & Rr) & Hbst & _).
    abt_steps. rewrite bool_decide_true by done. by apply IH.
Qed.

Lemma wp_next m ts it kd rest (Q : ptr * iterator_t -> store -> Prop) :
  ready m it (kd :: rest) ->
  (forall a it', holds m a kd -> ready m it' rest -> Q (Some a, it') (Store m ts)) -> wp (next it) Q (Store m ts).
Proof.
  intros ([|[|a l k d h r] ps] & -> & Hps & H) HQ; [done|done|]. destruct H as (rest' & Hup & [= -> ->]).
  pose proof Hps as [Hg Hps']%Forall_cons. pose proof Hg as (Hrep & _). pose proof Hrep as (Ha & _ & _).
  assert (Hh : holds m a (k, d)) by (by eapply holds_root).
  cbn [fmap list_fmap next rt]. abt_steps. destruct r as [|b rl kr dr hr rr].
  - rewrite bool_decide_false by (cbn; tauto). abt_step. apply (wp_pop_visited m ts (N a l k d h E) ps rest'); [done..|].
    intros it' Hit'. abt_step. by apply HQ.
  - rewrite bool_decide_true by done. abt_step.
    apply (wp_leftmost_loop depth m ts (N b rl kr dr hr rr) (N a l k d h (N b rl kr dr hr rr) :: ps) rest'); try done.
    + by eapply good_right.
    + by constructor.
    + apply good_right in Hg as (_ & _ & _ & ?). unfold depth. lia.
    + intros it' Hit'. abt_step. by apply HQ.
Qed.
End Iter.
