(* ===== verification/AbtMap.v ===== *)
(** * abt: a [T] is a finite map

    [wf s t M]: in the store [s] the object [t] is a balanced search tree of the
    map [M].  [only t s s']: from [s] to [s'] no node was written to and no
    object but [t] (and new ones) changed, which is what makes every other tree
    keep its map.  The rules of the methods of [*T] are the laws of the class
    [TreeMap], against which the set operations are verified; the second half proves
    the remaining rules and the laws. *)

From stdpp Require Import gmap.
From S2P Require Import Prelude.
From S2P Require Import Abt.
From S2P Require Import AbtTree.
From S2P Require Import AbtOps.
From S2P Require Import AbtInsert.
From S2P Require Import AbtDelete.
From S2P Require Import AbtQuery.

(** ** Association lists as maps *)
Section Assoc.
Context {D : Type}.
Implicit Types (l : list (Z * option D)) (M : gmap Z (option D)).

Lemma lookup_assoc l x : (list_to_map l : gmap Z (option D)) !! x = assoc x l.
Proof.
  induction l as [|[k e] l IH]; cbn; [apply lookup_empty|]. destruct (Z.eqb_spec x k) as [->|].
  - apply lookup_insert_eq.
  - by rewrite lookup_insert_ne.
Qed.
Lemma assoc_ins x d l y : assoc y (ins x d l) = if y =? x then Some d else assoc y l.
Proof.
  induction l as [|[k e] l IH]; cbn; [by destruct (Z.eqb_spec y x)|].
  destruct (Z.ltb_spec x k), (Z.eqb_spec x k); cbn; rewrite ?IH; destruct (Z.eqb_spec y x), (Z.eqb_spec y k); try lia; done.
Qed.
Lemma assoc_del x l y : NoDup l.*1 -> assoc y (del x l) = if y =? x then None else assoc y l.
Proof.
  induction l as [|[k e] l IH]; cbn; [by destruct (y =? x)|]. intros [Hk Hl]%NoDup_cons.
  apply assoc_None in Hk.
  destruct (Z.eqb_spec x k); cbn; [|rewrite IH by done]; destruct (Z.eqb_spec y x), (Z.eqb_spec y k); try lia; congruence.
Qed.
Lemma sorted_NoDup (l : list Z) : StronglySorted Z.lt l -> NoDup l.
Proof.
  induction 1 as [|x l Hs IH Hf]; constructor; [|done]. intros Hx. rewrite Forall_forall in Hf.
  specialize (Hf x Hx). lia.
Qed.

Lemma map_ins x d l : list_to_map (ins x d l) =@{gmap Z (option D)} <[x := d]> (list_to_map l).
Proof.
  apply map_eq. intros y. rewrite lookup_assoc, assoc_ins. destruct (Z.eqb_spec y x) as [->|].
  - by rewrite lookup_insert_eq.
  - by rewrite lookup_insert_ne, lookup_assoc.
Qed.
Lemma map_del x l : NoDup l.*1 -> list_to_map (del x l) =@{gmap Z (option D)} delete x (list_to_map l).
Proof.
  intros Hl. apply map_eq. intros y. rewrite lookup_assoc, assoc_del by done. destruct (Z.eqb_spec y x) as [->|].
  - by rewrite lookup_delete_eq.
  - by rewrite lookup_delete_ne, lookup_assoc.
Qed.
Lemma map_length l : NoDup l.*1 -> base.size (list_to_map l : gmap Z (option D)) = length l.
Proof. intros Hl. by rewrite <- length_map_to_list, map_to_list_to_map. Qed.
End Assoc.

Section Map.
Context {D : Type} `{EqDecision D}.
Abbreviation any := (option D).
Implicit Types (m : gmap loc (node32 (D:=D))) (ts : gmap loc T) (s : store (D:=D)) (M : gmap Z any) (t u v : loc) (tr : tree (D:=D)).

Definition msize M : Z := Z.of_nat (base.size M).
Definition key_ok (x : Z) : Prop := NOT_KEY32 < x < 2 ^ 31.
Definition entries tr : gmap Z any := list_to_map (elements tr).
(** Fewer than [2^59] entries: more would not fit into memory, and the heights
    would leave [int8] only far beyond. *)
Definition bounded M : Prop := msize M < 2 ^ 59.

Definition wf s t M : Prop :=
  exists tr, trees s !! t = Some (MkT (rt tr) (msize M)) /\ rep (nodes s) tr /\ bst tr /\ avl tr /\
    entries tr = M /\ bounded M /\ forall k, k ∈ keys tr -> key_ok k.

Definition only t s s' : Prop :=
  nodes s ⊆ nodes s' /\ forall t', t' <> t -> is_Some (trees s !! t') -> trees s' !! t' = trees s !! t'.

Lemma only_refl t s : only t s s.
Proof. by split. Qed.
Lemma only_trans t s1 s2 s3 : only t s1 s2 -> only t s2 s3 -> only t s1 s3.
Proof.
  intros [H1 H2] [H3 H4]. split; [by etrans|]. intros t' Hne Hs. rewrite H4, H2; [done..|].
  by rewrite H2.
Qed.
Lemma wf_only s s' t t' M : only t s s' -> t' <> t -> wf s t' M -> wf s' t' M.
Proof.
  intros [H1 H2] Hne (tr & Ht & Hrep & H). exists tr. split_and!; [|by eapply rep_mono|apply H..].
  by rewrite H2.
Qed.

Lemma bst_NoDup tr : bst tr -> NoDup (elements tr).*1.
Proof. apply sorted_NoDup. Qed.
Lemma entries_lookup tr x : entries tr !! x = assoc x (elements tr).
Proof. apply lookup_assoc. Qed.
Lemma entries_size tr : bst tr -> msize (entries tr) = Z.of_nat (length (elements tr)).
Proof. intros H. unfold msize, entries. by rewrite map_length by (by apply bst_NoDup). Qed.
Lemma wf_height tr : bst tr -> avl tr -> bounded (entries tr) -> hf tr <= 120.
Proof. intros Hb Ha H. apply avl_height_bound; [done|]. rewrite <- entries_size by done. unfold bounded in H. lia. Qed.
Lemma entries_E : entries E = ∅.
Proof. done. Qed.
Lemma entries_empty tr : entries tr = ∅ -> tr = E.
Proof.
  destruct tr as [|a l k d h r]; [done|]. intros Hemp.
  assert (Hk : entries (N a l k d h r) !! k <> None); [|by rewrite Hemp, lookup_empty in Hk].
  rewrite entries_lookup. intros Hn. apply assoc_None in Hn. apply Hn. fold (keys (N a l k d h r)).
  rewrite keys_N. apply elem_of_app. right. left.
Qed.

Lemma msize_insert M x d : msize (<[x := d]> M) = msize M + match M !! x with Some _ => 0 | None => 1 end.
Proof. unfold msize. rewrite map_size_insert. destruct (M !! x); unfold id; lia. Qed.
Lemma msize_delete M x : msize (delete x M) = msize M - match M !! x with Some _ => 1 | None => 0 end.
Proof.
  unfold msize. rewrite map_size_delete. destruct (M !! x) eqn:Hx; [|unfold id; lia].
  assert (base.size M <> 0%nat); [|lia]. rewrite map_size_non_empty_iff. intros ->. by rewrite lookup_empty in Hx.
Qed.

(** *** Writing the data of the new node *)
Lemma rep_set_data m tr c x d :
  rep m tr -> bst tr -> at_key c x tr ->
  exists n tr', m !! c = Some n /\ rep (<[c := Node32 (left n) (right n) d (key n) (height_ n)]> m) tr' /\
    elements tr' = ins x d (elements tr) /\ rt tr' = rt tr /\ hf tr' = hf tr /\ (avl tr -> avl tr').
Proof.
  induction tr as [|a l IHl k e h r IHr]; [done|]. intros Hrep Hbst Hat.
  pose proof Hrep as (Ha & Rl & Rr). destruct (bst_unshared _ _ _ _ _ _ _ Hrep Hbst) as (Hal & Har & Hlr).
  pose proof Hbst as (Bl & Br & Hb & Hab)%bst_N.
  destruct Hat as [[<- <-]|[Hat|Hat]].
  - exists (Node32 (rt l) (rt r) e k h), (N a l k d h r). cbn [left right key height_ data].
    split_and!; [done| |by rewrite ins_N_eq|done|done|done].
    apply rep_N; [abt_lookup|by apply rep_insert|by apply rep_insert].
  - destruct (IHl Rl Bl Hat) as (n & l' & Hn & Rl' & El & Erl & Ehl & Hav).
    pose proof (at_key_keys _ _ _ Hat) as Hx. apply Hb in Hx.
    assert (~ on c r) by (apply Hlr; by exists x). assert (c <> a) by (intros ->; apply Hal; by exists x).
    exists n, (N a l' k e h r). split_and!; [done| | |done|done|].
    + apply rep_N; [rewrite Erl; abt_lookup|done|by apply rep_insert].
    + rewrite ins_N_l by done. cbn [elements]. by rewrite El.
    + cbn [avl]. rewrite Ehl. naive_solver.
  - destruct (IHr Rr Br Hat) as (n & r' & Hn & Rr' & Er & Err & Ehr & Hav).
    pose proof (at_key_keys _ _ _ Hat) as Hx. apply Hab in Hx.
    assert (~ on c l) by (intros Hl; apply (Hlr c Hl); by exists x). assert (c <> a) by (intros ->; apply Har; by exists x).
    exists n, (N a l k e h r'). split_and!; [done| | |done|done|].
    + apply rep_N; [rewrite Err; abt_lookup|by apply rep_insert|done].
    + rewrite ins_N_r by done. cbn [elements]. by rewrite Er.
    + cbn [avl]. rewrite Ehr. naive_solver.
Qed.

(** *** Insert *)
Definition data_at M x : any := default None (M !! x).

Lemma wf_inserted m ts t tr M x d m' c tr' n old sz :
  wf (Store m ts) t M -> trees (Store m ts) !! t = Some (MkT (rt tr) (msize M)) -> bst tr -> avl tr -> entries tr = M ->
  (forall k, k ∈ keys tr -> key_ok k) -> key_ok x -> bounded (<[x := d]> M) ->
  m ⊆ m' -> rep m' tr' -> bst tr' -> avl tr' -> m !! c = None -> at_key c x tr' ->
  elements tr' = ins x old (elements tr) -> m' !! c = Some n -> sz = msize (<[x := d]> M) ->
  let s' := Store (<[c := Node32 (left n) (right n) d (key n) (height_ n)]> m') (<[t := MkT (rt tr') sz]> ts) in
  only t (Store m ts) s' /\ wf s' t (<[x := d]> M).
Proof.
  intros Hwf Ht Hbst Havl HM Hk Hx Hb Hm Hrep' Hbst' Havl' Hc Hat Hel Hn -> s'. subst s'. split.
  - split; [by apply insert_subseteq_r|]. intros t' Hne _. by apply lookup_insert_ne.
  - destruct (rep_set_data m' tr' c x d) as (n' & tr2 & Hn' & R2 & E2 & Ert & _ & Hav); [done..|].
    rewrite Hn in Hn'. injection Hn' as <-. assert (EM : entries tr2 = <[x := d]> M).
    { unfold entries in *. by rewrite E2, Hel, ins_ins, map_ins, HM. }
    exists tr2. cbn [nodes trees]. rewrite lookup_insert_eq, <- Ert.
    split_and!; [done|done| |by apply Hav|done|done|].
    + unfold bst, keys. rewrite E2. by apply ins_sorted.
    + intros k. unfold keys. rewrite E2, elem_of_ins, Hel, elem_of_ins. naive_solver.
Qed.

Lemma bounded_insert M x d : msize M < 2 ^ 59 - 1 -> bounded (<[x := d]> M).
Proof. unfold bounded. rewrite msize_insert. destruct (M !! x); lia. Qed.

Lemma wp_Insert s t M x d (Q : any -> store -> Prop) :
  wf s t M -> key_ok x -> bounded (<[x := d]> M) ->
  (forall s', only t s s' -> wf s' t (<[x := d]> M) -> Q (data_at M x) s') -> wp (Insert t x d) Q s.
Proof.
  destruct s as [m ts]. intros Hwf Hx Hb HQ. pose proof Hwf as (tr & Ht & Hrep & Hbst & Havl & HM & HbM & Hk).
  cbn [nodes trees] in *. unfold Insert. destruct (Z.eqb_spec x NOT_KEY32); [unfold key_ok in Hx; lia|].
  assert (Hsz : 0 <= msize M) by (unfold msize; lia). unfold bounded in *. pose proof (msize_insert M x d) as Es.
  apply wp_bind. eapply wp_deref_T; [exact Ht|]. cbn [root]. destruct tr as [|a l k e h r] eqn:Etr.
  - rewrite bool_decide_true by done. unfold makeNode. do 2 apply wp_bind. apply wp_alloc_node. intros c Hc. abt_steps.
    rewrite bool_decide_false by naive_solver. apply wp_bind. eapply wp_deref_T; [exact Ht|]. apply wp_bind.
    eapply wp_assign_T; [exact Ht|]. abt_steps. cbn [root Abt.size]. eapply wp_deref_T; [by rewrite lookup_insert_eq|].
    cbn [root Abt.size]. apply wp_bind. eapply wp_assign_T; [by rewrite lookup_insert_eq|]. abt_step.
    rewrite entries_E in HM. subst M. unfold data_at in HQ. rewrite lookup_empty in Es, HQ. cbn in HQ.
    rewrite !insert_insert_eq.
    destruct (wf_inserted m ts t E ∅ x d (<[c := Node32 None None None x LEAF_HEIGHT]> m) c (N c E x None LEAF_HEIGHT E)
      (Node32 None None None x LEAF_HEIGHT) None (int64 (msize ∅ + 1))) as [H1 H2]; try done.
    + by apply insert_subseteq.
    + cbn. by rewrite lookup_insert_eq.
    + repeat constructor.
    + by left.
    + by rewrite lookup_insert_eq.
    + cbn [left right key height_ data rt] in H1, H2. rewrite insert_insert_eq in H1, H2. by apply HQ.
  - rewrite <- Etr in *. rewrite bool_decide_false by (by rewrite Etr). apply wp_bind.
    apply wp_aInsert; [by rewrite Etr|done..| | |].
    { apply wf_height; [done..|by rewrite HM]. }
    { assert (hf tr <= 120) by (apply wf_height; [done..|by rewrite HM]). unfold depth. lia. }
    intros m' tr' c on ([Hm Hrep'] & Hel & Havl' & _ & _ & Hc & Hat & Hold).
    assert (Hbst' : bst tr') by (by eapply bst_ins).
    destruct (rep_at_key m' tr' c x) as (n0 & Hn0 & _); [done..|].
    assert (Hgen : forall sz, sz = msize (<[x := d]> M) -> Q (data_at M x)
       (Store (<[c := Node32 (left n0) (right n0) d (key n0) (height_ n0)]> m') (<[t := MkT (rt tr') sz]> ts))).
    { intros sz Hsz'. destruct (wf_inserted m ts t tr M x d m' c tr' n0 (old_data x tr) sz) as [G1 G2]; try done. by apply HQ. }
    unfold data_at in *. rewrite <- HM, entries_lookup in Es, Hgen. destruct (assoc x (elements tr)) as [v|] eqn:Ea.
    + destruct Hold as (o & n1 & -> & Hn1 & <-). rewrite bool_decide_true by done. apply wp_bind, wp_bind.
      eapply wp_deref; [by eapply lookup_weaken|]. abt_steps.
      eapply wp_deref_T; [exact Ht|]. apply wp_bind. eapply wp_assign_T; [exact Ht|]. abt_step. cbn [Abt.size].
      apply Hgen. by rewrite HM in *; lia.
    + subst on. rewrite bool_decide_false by naive_solver. apply wp_bind, wp_bind. eapply wp_deref_T; [exact Ht|].
      apply wp_bind. eapply wp_assign_T; [exact Ht|]. abt_steps. cbn [root Abt.size].
      eapply wp_deref_T; [by rewrite lookup_insert_eq|]. cbn [Abt.size]. apply wp_bind.
      eapply wp_assign_T; [by rewrite lookup_insert_eq|]. abt_step. rewrite insert_insert_eq.
      apply Hgen. rewrite int64_id by lia. rewrite HM in *. lia.
Qed.

(** *** Delete *)

Lemma wf_removed m ts t M tr m' tr' M' sz :
  trees (Store m ts) !! t = Some (MkT (rt tr) (msize M)) -> (forall k, k ∈ keys tr -> key_ok k) -> bounded M ->
  gives m m' tr' -> bst tr' -> avl tr' -> entries tr' = M' -> (forall k, k ∈ keys tr' -> k ∈ keys tr) ->
  msize M' <= msize M -> sz = msize M' ->
  let s' := Store m' (<[t := MkT (rt tr') sz]> ts) in only t (Store m ts) s' /\ wf s' t M'.
Proof.
  intros Ht Hk Hb [Hm Hrep'] Hbst' Havl' HM' Hk' Hle -> s'. subst s'. split.
  - split; [done|]. intros t' Hne _. by apply lookup_insert_ne.
  - exists tr'. cbn [nodes trees]. rewrite lookup_insert_eq. unfold bounded in *.
    split_and!; try done; [lia|]. intros k Hin. by apply Hk, Hk'.
Qed.

Lemma wp_Delete s t M x (Q : any -> store -> Prop) :
  wf s t M -> (forall s', only t s s' -> wf s' t (delete x M) -> Q (data_at M x) s') -> wp (Delete t x) Q s.
Proof.
  destruct s as [m ts]. intros Hwf HQ. pose proof Hwf as (tr & Ht & Hrep & Hbst & Havl & HM & HbM & Hk).
  cbn [nodes trees] in *. pose proof (msize_delete M x) as Es. assert (Hsz : 0 <= msize M) by (unfold msize; lia).
  assert (Hh : hf tr <= 120) by (apply wf_height; [done..|by rewrite HM]).
  assert (Hsame : M !! x = None -> Q None (Store m ts)).
  { intros Hx. unfold data_at in HQ. rewrite Hx in HQ. apply HQ; [apply only_refl|]. by rewrite delete_id. }
  assert (Hlook : M !! x = assoc x (elements tr)) by (by rewrite <- HM, entries_lookup).
  unfold Delete. apply wp_bind. eapply wp_deref_T; [exact Ht|]. cbn [root Abt.size].
  destruct (decide (tr = E)) as [->|Hne].
  { rewrite bool_decide_true by done. abt_step. apply Hsame. by rewrite Hlook. }
  rewrite bool_decide_false by (by destruct tr). apply wp_bind. apply wp_aDelete; [done..|unfold depth; lia| |].
  - intros Hno. rewrite bool_decide_true by done. abt_step. apply Hsame. by rewrite Hlook.
  - intros m' tr' o ((Hg & Havl' & _ & _) & Hel & v & Ev & n & Hn & _ & Ed). cbn in Ed.
    rewrite bool_decide_false by done. apply wp_bind. eapply wp_assign_T; [exact Ht|]. abt_step.
    eapply wp_deref; [eapply lookup_weaken; [exact Hn|apply Hg]|]. abt_step.
    unfold data_at in HQ. rewrite Hlook, Ev in Es, HQ. cbn in HQ. rewrite Ed.
    unfold bounded in HbM. assert (Hp : 0 <= msize (delete x M)) by (unfold msize; lia).
    destruct (wf_removed m ts t M tr m' tr' (delete x M) (int64 (msize M - 1))) as [G1 G2]; try done.
    + by eapply bst_del.
    + unfold entries in *. by rewrite Hel, map_del, HM by (by apply bst_NoDup).
    + intros k. unfold keys. rewrite Hel. apply elem_of_del.
    + lia.
    + rewrite int64_id; lia.
    + by apply HQ.
Qed.

Definition least M (P : Z -> Prop) (res : Z * any) : Prop :=
  (res = (NOT_KEY32, None) /\ forall k, is_Some (M !! k) -> ~ P k) \/
  (M !! res.1 = Some res.2 /\ P res.1 /\ forall k, is_Some (M !! k) -> P k -> res.1 <= k).
Definition greatest M (P : Z -> Prop) (res : Z * any) : Prop :=
  (res = (NOT_KEY32, None) /\ forall k, is_Some (M !! k) -> ~ P k) \/
  (M !! res.1 = Some res.2 /\ P res.1 /\ forall k, is_Some (M !! k) -> P k -> k <= res.1).

Lemma assoc_elem (l : list (Z * any)) k d : StronglySorted Z.lt l.*1 -> (k, d) ∈ l <-> assoc k l = Some d.
Proof.
  induction l as [|[k' e] l IH]; cbn; intros Hs.
  - split; [by intros ?%not_elem_of_nil|done].
  - apply StronglySorted_inv in Hs as [Hs Hf]. rewrite Forall_forall in Hf. rewrite elem_of_cons, IH by done.
    destruct (Z.eqb_spec k k') as [->|]; [|naive_solver]. split; [|naive_solver]. intros [|Ha]; [naive_solver|].
    assert (k' ∈ l.*1) as Hin; [|apply Hf in Hin; lia]. apply IH in Ha; [|done]. apply list_elem_of_fmap. by exists (k', d).
Qed.

Lemma sorted_above (l : list (Z * any)) kd : StronglySorted Z.lt (kd :: l).*1 -> forall k, k ∈ l.*1 -> kd.1 < k.
Proof. intros Hs. cbn in Hs. apply StronglySorted_inv in Hs as [_ Hf]. by rewrite Forall_forall in Hf. Qed.

(** Filtering a sorted list keeps it sorted, so its ends are the extremes. *)
Lemma sorted_filter (P : Z * any -> Prop) `{forall x, Decision (P x)} (l : list (Z * any)) :
  StronglySorted Z.lt l.*1 -> StronglySorted Z.lt (filter P l).*1.
Proof.
  induction l as [|kd l IH]; [done|]. intros Hs. pose proof (sorted_above _ _ Hs) as Ha.
  cbn in Hs. apply StronglySorted_inv in Hs as [Hs _]. destruct (decide (P kd)).
  - rewrite filter_cons_True by done. cbn. constructor; [by apply IH|]. rewrite Forall_forall.
    intros k (kd' & -> & Hin)%list_elem_of_fmap. apply list_elem_of_filter in Hin as [_ Hin].
    apply Ha. apply list_elem_of_fmap. by exists kd'.
  - rewrite filter_cons_False by done. by apply IH.
Qed.

Lemma head_least (l : list (Z * any)) kd : StronglySorted Z.lt l.*1 -> head l = Some kd -> forall kd', kd' ∈ l -> kd.1 <= kd'.1.
Proof.
  destruct l as [|kd0 l]; [done|]. intros Hs [= ->] kd' [->|Hin]%elem_of_cons; [lia|].
  apply Z.lt_le_incl, (sorted_above _ _ Hs). apply list_elem_of_fmap. by exists kd'.
Qed.
Lemma last_greatest (l : list (Z * any)) kd : StronglySorted Z.lt l.*1 -> last l = Some kd -> forall kd', kd' ∈ l -> kd'.1 <= kd.1.
Proof.
  intros Hs (l' & ->)%last_Some kd' [Hin|Hin%list_elem_of_singleton]%elem_of_app; [|subst; lia].
  rewrite fmap_app in Hs. apply Z.lt_le_incl. eapply StronglySorted_app_1_elem_of; [exact Hs| |cbn; left].
  apply list_elem_of_fmap. by exists kd'.
Qed.

Lemma least_filter (P : Z * any -> Prop) (P' : Z -> Prop) `{forall x, Decision (P x)} tr :
  bst tr -> (forall kd, P kd <-> P' kd.1) ->
  least (entries tr) P' (default (NOT_KEY32, None) (head (filter P (elements tr)))).
Proof.
  intros Hbst HP. pose proof (sorted_filter P (elements tr) Hbst) as Hs.
  assert (Hall : forall k, is_Some (entries tr !! k) -> P' k -> exists d, (k, d) ∈ filter P (elements tr)).
  { intros k [d Hd] Hk. exists d. rewrite entries_lookup in Hd. apply list_elem_of_filter. split; [by apply HP|by apply assoc_elem]. }
  destruct (head (filter P (elements tr))) as [[k d]|] eqn:Eh; cbn.
  - right. assert (Hin : (k, d) ∈ filter P (elements tr)) by (destruct (filter P _); [done|]; injection Eh as ->; left).
    apply list_elem_of_filter in Hin as [Hk Hin]. cbn. split_and!.
    + rewrite entries_lookup. by apply assoc_elem.
    + by apply (HP (k, d)).
    + intros k' Hk' HP'. destruct (Hall k' Hk' HP') as [d' Hin']. by apply (head_least _ _ Hs Eh (k', d')).
  - left. split; [done|]. intros k Hk HP'. destruct (Hall k Hk HP') as [d' Hin']. apply head_None in Eh.
    rewrite Eh in Hin'. by apply not_elem_of_nil in Hin'.
Qed.
Lemma greatest_filter (P : Z * any -> Prop) (P' : Z -> Prop) `{forall x, Decision (P x)} tr :
  bst tr -> (forall kd, P kd <-> P' kd.1) ->
  greatest (entries tr) P' (default (NOT_KEY32, None) (last (filter P (elements tr)))).
Proof.
  intros Hbst HP. pose proof (sorted_filter P (elements tr) Hbst) as Hs.
  assert (Hall : forall k, is_Some (entries tr !! k) -> P' k -> exists d, (k, d) ∈ filter P (elements tr)).
  { intros k [d Hd] Hk. exists d. rewrite entries_lookup in Hd. apply list_elem_of_filter. split; [by apply HP|by apply assoc_elem]. }
  destruct (last (filter P (elements tr))) as [[k d]|] eqn:Eh; cbn.
  - right. assert (Hin : (k, d) ∈ filter P (elements tr)) by (by apply last_Some_elem_of).
    apply list_elem_of_filter in Hin as [Hk Hin]. cbn. split_and!.
    + rewrite entries_lookup. by apply assoc_elem.
    + by apply (HP (k, d)).
    + intros k' Hk' HP'. destruct (Hall k' Hk' HP') as [d' Hin']. by apply (last_greatest _ _ Hs Eh (k', d')).
  - left. split; [done|]. intros k Hk HP'. destruct (Hall k Hk HP') as [d' Hin']. apply last_None in Eh.
    rewrite Eh in Hin'. by apply not_elem_of_nil in Hin'.
Qed.
End Map.

(** [open Hwf] names the tree behind a well-formed object. *)
Ltac open Hwf :=
  let tr := fresh "tr" in let Ht := fresh "Ht" in let Hrep := fresh "Hrep" in let Hbst := fresh "Hbst" in
  let Havl := fresh "Havl" in let HM := fresh "HM" in let HbM := fresh "HbM" in let Hk := fresh "Hk" in
  let Hh := fresh "Hh" in
  pose proof Hwf as (tr & Ht & Hrep & Hbst & Havl & HM & HbM & Hk); cbn [nodes trees] in *;
  assert (Hh : hf tr <= 120) by (apply wf_height; [done..|by rewrite HM]).

Section Methods.
Context {D : Type} `{EqDecision D}.
Abbreviation any := (option D).
Implicit Types (s : store (D:=D)) (M : gmap Z any) (t u v : loc) (tr : tree (D:=D)).

Lemma filter_true {A} (l : list A) : filter (fun _ => True) l = l.
Proof. induction l as [|x l IH]; [done|]. by rewrite filter_cons_True, IH. Qed.
Lemma least_head tr : bst tr -> least (entries tr) (fun _ => True) (default (NOT_KEY32, None) (head (elements tr))).
Proof. intros Hb. rewrite <- (filter_true (elements tr)). by apply least_filter. Qed.
Lemma greatest_last tr : bst tr -> greatest (entries tr) (fun _ => True) (default (NOT_KEY32, None) (last (elements tr))).
Proof. intros Hb. rewrite <- (filter_true (elements tr)). by apply greatest_filter. Qed.

(** Taking one entry off a tree. *)
Lemma wf_minus m ts t M tr m' tr' kd :
  wf (Store m ts) t M -> ts !! t = Some (MkT (rt tr) (msize M)) -> bst tr -> entries tr = M ->
  (forall k, k ∈ keys tr -> key_ok k) ->
  gives m m' tr' -> avl tr' -> kd ∈ elements tr -> elements tr' = del kd.1 (elements tr) ->
  let s' := Store m' (<[t := MkT (rt tr') (int64 (msize M - 1))]> ts) in
  only t (Store m ts) s' /\ wf s' t (delete kd.1 M).
Proof.
  intros Hwf Ht Hbst HM Hk Hg Havl' Hin Hel. assert (HbM : bounded M) by (by destruct Hwf as (? & _ & _ & _ & _ & _ & ? & _)).
  destruct kd as [k d]. cbn [fst] in *. pose proof (msize_delete M k) as Es.
  assert (Hlook : M !! k = Some d) by (rewrite <- HM, entries_lookup; by apply assoc_elem). rewrite Hlook in Es.
  unfold bounded in *. assert (0 <= msize (delete k M)) by (unfold msize; lia).
  eapply wf_removed; try done.
  - by eapply bst_del.
  - unfold entries in *. by rewrite Hel, map_del, HM by (by apply bst_NoDup).
  - intros k'. unfold keys. rewrite Hel. apply elem_of_del.
  - lia.
  - rewrite int64_id; lia.
Qed.

Lemma wp_DeleteMin s t M (Q : Z * any -> store -> Prop) :
  wf s t M ->
  (forall res s', least M (fun _ => True) res -> only t s s' -> wf s' t (delete res.1 M) -> Q res s') -> wp (DeleteMin t) Q s.
Proof.
  destruct s as [m ts]. intros Hwf HQ. open Hwf. pose proof (least_head tr Hbst) as Hl. rewrite HM in Hl.
  unfold DeleteMin. apply wp_bind. eapply wp_deref_T; [exact Ht|]. cbn [root Abt.size]. destruct (decide (tr = E)) as [->|Hne].
  - rewrite bool_decide_true by done. abt_step. apply HQ; [done|apply only_refl|]. cbn. rewrite delete_id; [done|]. by rewrite <- HM, entries_E.
  - rewrite bool_decide_false by (by destruct tr). apply wp_bind. apply wp_aDeleteMin; [done..|unfold depth; lia|].
    intros m' tr' o kd (Hg & Havl' & _) Hel (n & Hn & Ek & Ed). rewrite bool_decide_false by done. apply wp_bind.
    eapply wp_assign_T; [exact Ht|]. abt_step. eapply wp_deref; [eapply lookup_weaken; [exact Hn|apply Hg]|]. abt_step.
    rewrite Hel in Hl. cbn in Hl. rewrite Ek, Ed, <- surjective_pairing.
    destruct (wf_minus m ts t M tr m' tr' kd) as [G1 G2]; try done; [rewrite Hel; left|by destruct kd; rewrite Hel; cbn; rewrite Z.eqb_refl|].
    by apply HQ.
Qed.

Lemma del_last kd (l : list (Z * any)) : StronglySorted Z.lt (l ++ [kd]).*1 -> del kd.1 (l ++ [kd]) = l.
Proof.
  intros Hs. destruct kd as [k d]. rewrite del_r; [cbn; by rewrite Z.eqb_refl, app_nil_r|]. rewrite fmap_app in Hs. intros Hin. cbn in *.
  assert (k < k); [|lia]. eapply StronglySorted_app_1_elem_of; [exact Hs|done|left].
Qed.

Lemma wp_DeleteMax s t M (Q : Z * any -> store -> Prop) :
  wf s t M ->
  (forall res s', greatest M (fun _ => True) res -> only t s s' -> wf s' t (delete res.1 M) -> Q res s') -> wp (DeleteMax t) Q s.
Proof.
  destruct s as [m ts]. intros Hwf HQ. open Hwf. pose proof (greatest_last tr Hbst) as Hl. rewrite HM in Hl.
  unfold DeleteMax. apply wp_bind. eapply wp_deref_T; [exact Ht|]. cbn [root Abt.size]. destruct (decide (tr = E)) as [->|Hne].
  - rewrite bool_decide_true by done. abt_step. apply HQ; [done|apply only_refl|]. cbn. rewrite delete_id; [done|]. by rewrite <- HM, entries_E.
  - rewrite bool_decide_false by (by destruct tr). apply wp_bind. apply wp_aDeleteMax; [done..|unfold depth; lia|].
    intros m' tr' o kd (Hg & Havl' & _) Hel (n & Hn & Ek & Ed). rewrite bool_decide_false by done. apply wp_bind.
    eapply wp_assign_T; [exact Ht|]. abt_step. eapply wp_deref; [eapply lookup_weaken; [exact Hn|apply Hg]|]. abt_step.
    rewrite Hel, last_snoc in Hl. cbn in Hl. rewrite Ek, Ed, <- surjective_pairing.
    destruct (wf_minus m ts t M tr m' tr' kd) as [G1 G2]; try done.
    + rewrite Hel. apply elem_of_app. right. left.
    + unfold bst, keys in Hbst. rewrite Hel in *. by rewrite del_last.
    + by apply HQ.
Qed.

(** *** Queries: they return and leave the store as it is *)

Lemma wp_Find s t M x (Q : any -> store -> Prop) : wf s t M -> Q (data_at M x) s -> wp (Find t x) Q s.
Proof.
  destruct s as [m ts]. intros Hwf HQ. open Hwf. unfold Find. apply wp_bind. eapply wp_deref_T; [exact Ht|]. cbn [root].
  apply wp_bind. apply find_loop; [done..|unfold depth; lia|]. intros p Hp. eapply wp_nilOrData; [exact Hp|].
  unfold data_at in HQ. rewrite <- HM, entries_lookup in HQ. by destruct (assoc x (elements tr)).
Qed.
Lemma wp_Size s t M (Q : Z -> store -> Prop) : wf s t M -> Q (msize M) s -> wp (Size t) Q s.
Proof. destruct s as [m ts]. intros Hwf HQ. open Hwf. unfold Size. apply wp_bind. by eapply wp_deref_T. Qed.
Lemma wp_Copy s t M (Q : loc -> store -> Prop) :
  wf s t M -> (forall u s', trees s !! u = None -> only u s s' -> wf s' u M -> Q u s') -> wp (Copy t) Q s.
Proof.
  destruct s as [m ts]. intros Hwf HQ. open Hwf. unfold Copy. apply wp_bind. eapply wp_deref_T; [exact Ht|].
  apply wp_alloc_T. intros u Hu. apply HQ; [done| |].
  - split; [done|]. intros t' Hne _. by apply lookup_insert_ne.
  - exists tr. cbn [nodes trees]. by rewrite lookup_insert_eq.
Qed.
Lemma wp_new s (Q : loc -> store -> Prop) :
  (forall u s', trees s !! u = None -> only u s s' -> wf s' u ∅ -> Q u s') -> wp (alloc_T (MkT None 0)) Q s.
Proof.
  destruct s as [m ts]. intros HQ. apply wp_alloc_T. intros u Hu. apply HQ; [done| |].
  - split; [done|]. intros t' Hne _. by apply lookup_insert_ne.
  - exists E. cbn [nodes trees]. rewrite lookup_insert_eq. split_and!; try done; [constructor|].
    by intros k ?%not_elem_of_nil.
Qed.

Lemma wp_Min s t M (Q : Z * any -> store -> Prop) :
  wf s t M -> (forall res, least M (fun _ => True) res -> Q res s) -> wp (Min t) Q s.
Proof.
  destruct s as [m ts]. intros Hwf HQ. open Hwf. unfold Min. apply wp_bind. eapply wp_deref_T; [exact Ht|]. cbn [root].
  pose proof (least_head tr Hbst) as Hl. rewrite HM in Hl. unfold min. apply wp_bind. destruct (decide (tr = E)) as [->|Hne].
  - cbn [rt]. abt_step. eapply (wp_nilOrKeyAndData _ _ _ None); [done|]. by apply HQ.
  - destruct (rt tr) as [a|] eqn:Ea; [|by destruct tr]. rewrite <- Ea. apply min_loop; [done..|unfold depth; lia|].
    intros p Hp. eapply wp_nilOrKeyAndData; [exact Hp|]. by apply HQ.
Qed.
Lemma wp_Max s t M (Q : Z * any -> store -> Prop) :
  wf s t M -> (forall res, greatest M (fun _ => True) res -> Q res s) -> wp (Max t) Q s.
Proof.
  destruct s as [m ts]. intros Hwf HQ. open Hwf. unfold Max. apply wp_bind. eapply wp_deref_T; [exact Ht|]. cbn [root].
  pose proof (greatest_last tr Hbst) as Hl. rewrite HM in Hl. unfold max. apply wp_bind. destruct (decide (tr = E)) as [->|Hne].
  - cbn [rt]. abt_step. eapply (wp_nilOrKeyAndData _ _ _ None); [done|]. by apply HQ.
  - destruct (rt tr) as [a|] eqn:Ea; [|by destruct tr]. rewrite <- Ea. apply max_loop; [done..|unfold depth; lia|].
    intros p Hp. eapply wp_nilOrKeyAndData; [exact Hp|]. by apply HQ.
Qed.

Lemma wp_glb s t M x eq (P : Z -> Prop) (Q : Z * any -> store -> Prop) :
  wf s t M -> (forall kd : Z * any, glb_ok x eq kd <-> P kd.1) -> (forall res, greatest M P res -> Q res s) ->
  wp (v <- deref_T t ;; n <- glb (root v) x eq ;; nilOrKeyAndData n) Q s.
Proof.
  destruct s as [m ts]. intros Hwf HP HQ. open Hwf. apply wp_bind. eapply wp_deref_T; [exact Ht|]. cbn [root].
  apply wp_bind. apply (glb_loop m ts tr x eq depth None None); [done..|unfold depth; lia|done|].
  intros p Hp. eapply wp_nilOrKeyAndData; [exact Hp|]. apply HQ. rewrite <- HM.
  pose proof (greatest_filter (glb_ok x eq) P tr Hbst HP) as G. unfold glb_entry. by destruct (last _).
Qed.
Lemma wp_lub s t M x eq (P : Z -> Prop) (Q : Z * any -> store -> Prop) :
  wf s t M -> (forall kd : Z * any, lub_ok x eq kd <-> P kd.1) -> (forall res, least M P res -> Q res s) ->
  wp (v <- deref_T t ;; n <- lub (root v) x eq ;; nilOrKeyAndData n) Q s.
Proof.
  destruct s as [m ts]. intros Hwf HP HQ. open Hwf. apply wp_bind. eapply wp_deref_T; [exact Ht|]. cbn [root].
  apply wp_bind. apply (lub_loop m ts tr x eq depth None None); [done..|unfold depth; lia|done|].
  intros p Hp. eapply wp_nilOrKeyAndData; [exact Hp|]. apply HQ. rewrite <- HM.
  pose proof (least_filter (lub_ok x eq) P tr Hbst HP) as G. unfold lub_entry. by destruct (head _).
Qed.

(** *** Enumeration *)

(** [l] lists the entries of [M] in ascending order of their keys. *)
Definition ordered (l : list (Z * any)) M : Prop := StronglySorted Z.lt l.*1 /\ list_to_map l = M.

Lemma ordered_length l M : ordered l M -> Z.of_nat (length l) = msize M.
Proof. intros [Hs <-]. unfold msize. by rewrite map_length by (by apply sorted_NoDup). Qed.

Lemma wp_VisitInOrder {X} s t M (f : Z -> any -> X -> X) x (Q : X -> store -> Prop) :
  wf s t M -> (forall l, ordered l M -> Q (foldl (fun x kd => f kd.1 kd.2 x) x l) s) -> wp (VisitInOrder t f x) Q s.
Proof.
  destruct s as [m ts]. intros Hwf HQ. open Hwf. unfold VisitInOrder. apply wp_bind. eapply wp_deref_T; [exact Ht|]. cbn [root].
  specialize (HQ (elements tr) (conj Hbst HM)). destruct (decide (tr = E)) as [->|Hne]; [done|].
  rewrite bool_decide_false by (by destruct tr). apply wp_visitInOrder; [done..|unfold depth; lia|done].
Qed.

Lemma wp_for_each s t M n body (I : list (Z * any) -> store -> Prop) (Q : unit -> store -> Prop) :
  wf s t M -> n = msize M -> (forall l, ordered l M -> I l s) ->
  (forall k d rest s', I ((k, d) :: rest) s' -> wp (body k d) (fun _ s'' => nodes s' ⊆ nodes s'' /\ I rest s'') s') ->
  (forall s', I [] s' -> Q tt s') -> wp (for_each t n body) Q s.
Proof.
  destruct s as [m ts]. intros Hwf -> HI Hbody HQ. open Hwf. unfold for_each, Iterator. do 2 apply wp_bind.
  eapply wp_deref_T; [exact Ht|]. cbn [root]. apply wp_iterator; [by split_and!|]. intros it Hit.
  specialize (HI (elements tr) (conj Hbst HM)). rewrite <- (ordered_length (elements tr) M), Nat2Z.id by (by split).
  revert it m Hit HI Hwf Ht Hrep. generalize (elements tr) as l. intros l.
  assert (G : forall l it s, ready (nodes s) it l -> I l s ->
    wp (loop (S (length l)) (fun it => if negb (Done_ it) then '(k, d, it) <- Next it ;; body k d ;; continue it else break tt) it) Q s);
    [|intros it m Hit HI _ _ _; by apply (G l it (Store m ts))].
  clear -Hbody HQ. induction l as [|[k d] rest IH]; intros it [m ts] Hit HI; apply wp_loop_S.
  - unfold Done_. rewrite (ready_done _ _ _ Hit). by apply wp_break, HQ.
  - unfold Done_. rewrite (ready_done _ _ _ Hit). cbn [negb]. apply wp_bind. unfold Next. apply wp_bind.
    eapply wp_next; [exact Hit|]. intros a it' (n & Hn & Ek & Ed) Hit'. cbn in Ek, Ed. abt_steps. subst.
    eapply wp_mono; [by apply Hbody|]. intros _ s' [Hsub HI']. apply wp_continue. apply IH; [|done]. by eapply ready_mono.
Qed.
End Methods.
