(* ===== verification/AbtSets.v ===== *)
(** * abt: Intersection, Union and Difference

    Verified against the laws of a tree map alone. *)

From stdpp Require Import gmap.
From S2P Require Import Prelude.
From S2P Require Import Abt.
From S2P Require Import AbtMap.

(** What the set operations rely on: [W s t M] says that the object [t] of the
    store [s] is the map [M]. *)
Class TreeMap {D} `{EqDecision D} (W : store (D:=D) -> loc -> gmap Z (option D) -> Prop) := {
  tm_only s s' u t M : only u s s' -> t <> u -> W s t M -> W s' t M;
  tm_live s t M : W s t M -> is_Some (trees s !! t);
  tm_bounded s t M : W s t M -> bounded M;
  tm_key s t M k : W s t M -> is_Some (M !! k) -> key_ok k;
  tm_Size s t M Q : W s t M -> Q (msize M) s -> wp (Size t) Q s;
  tm_Find s t M x Q : W s t M -> Q (data_at M x) s -> wp (Find t x) Q s;
  tm_Insert s t M x d Q :
    W s t M -> key_ok x -> bounded (<[x := d]> M) ->
    (forall s', only t s s' -> W s' t (<[x := d]> M) -> Q (data_at M x) s') -> wp (Insert t x d) Q s;
  tm_Delete s t M x Q :
    W s t M -> (forall s', only t s s' -> W s' t (delete x M) -> Q (data_at M x) s') -> wp (Delete t x) Q s;
  tm_Copy s t M Q :
    W s t M -> (forall u s', trees s !! u = None -> only u s s' -> W s' u M -> Q u s') -> wp (Copy t) Q s;
  tm_new s Q :
    (forall u s', trees s !! u = None -> only u s s' -> W s' u ∅ -> Q u s') -> wp (alloc_T (MkT None 0)) Q s;
  tm_for_each s t M n body (I : list (Z * option D) -> store -> Prop) Q :
    W s t M -> n = msize M -> (forall l, ordered l M -> I l s) ->
    (forall k d rest s', I ((k, d) :: rest) s' -> wp (body k d) (fun _ s'' => nodes s' ⊆ nodes s'' /\ I rest s'') s') ->
    (forall s', I [] s' -> Q tt s') -> wp (for_each t n body) Q s
}.

#[export] Instance wf_TreeMap {D} `{EqDecision D} : TreeMap (wf (D:=D)).
Proof.
  split; eauto using wp_Size, wp_Find, wp_Insert, wp_Delete, wp_Copy, wp_new, wp_for_each, wf_only.
  - intros s t M (tr & -> & _). by eexists.
  - by intros s t M (tr & _ & _ & _ & _ & _ & ? & _).
  - intros s t M k (tr & _ & _ & Hb & _ & <- & _ & Hk) [d Hd]. rewrite entries_lookup in Hd. apply Hk.
    apply assoc_elem in Hd; [|done]. apply list_elem_of_fmap. by exists (k, d).
Qed.

Section Sets.
Context {D : Type} `{EqDecision D} (W : store (D:=D) -> loc -> gmap Z (option D) -> Prop) `{!TreeMap W}.
Abbreviation any := (option D).
Implicit Types (s : store (D:=D)) (M : gmap Z any) (t u v : loc) (f : option (any -> any -> any)).

Definition no_nil M : Prop := forall k d, M !! k = Some d -> d <> None.

Lemma data_at_nil M k : no_nil M -> data_at M k = None <-> M !! k = None.
Proof.
  intros H. unfold data_at. destruct (M !! k) as [d|] eqn:Hk; cbn; [|done].
  specialize (H k d Hk). naive_solver.
Qed.

(** A loop over the entries of [t] whose body sets the entry of [v] for the
    visited key to [R]. *)
Lemma wp_pointwise s t v Mt Mv body (R : Z -> any -> option any) (Q : unit -> store -> Prop) :
  W s t Mt -> W s v Mv -> v <> t ->
  (forall k d s' M, Mt !! k = Some d -> only v s s' -> W s' v M -> M !! k = Mv !! k -> dom M ⊆ dom Mt ∪ dom Mv ->
     wp (body k d) (fun _ s'' => only v s' s'' /\ exists M', W s'' v M' /\ M' !! k = R k d /\
        forall k', k' <> k -> M' !! k' = M !! k') s') ->
  (forall s' M, only v s s' -> W s' v M ->
     (forall k, M !! k = match Mt !! k with Some d => R k d | None => Mv !! k end) -> Q tt s') ->
  wp (for_each t (msize Mt) body) Q s.
Proof.
  intros Ht Hv Hne Hbody HQ.
  set (goal rest k := match Mt !! k with Some d => if decide (k ∈ (rest : list (Z * any)).*1) then Mv !! k else R k d | None => Mv !! k end).
  set (I := fun (rest : list (Z * any)) s' => only v s s' /\ NoDup rest.*1 /\ (forall kd, kd ∈ rest -> Mt !! kd.1 = Some kd.2) /\
     exists M, W s' v M /\ forall k, M !! k = goal rest k).
  apply (tm_for_each s t Mt _ body I); [done..| | |].
  - intros l [Hs Hl]. split_and!; [apply only_refl|by apply sorted_NoDup| |].
    + intros [k d] Hin. cbn. rewrite <- Hl, lookup_assoc. by apply assoc_elem.
    + exists Mv. split; [done|]. intros k. unfold goal. destruct (Mt !! k) as [d|] eqn:Hk; [|done].
      rewrite decide_True; [done|]. rewrite <- Hl, lookup_assoc in Hk. apply assoc_elem in Hk; [|done].
      apply list_elem_of_fmap. by exists (k, d).
  - intros k d rest s' (Ho & Hnd & Hrest & M & HM & HMk). cbn in Hnd. apply NoDup_cons in Hnd as [Hk Hnd].
    assert (Hkd : Mt !! k = Some d) by (apply (Hrest (k, d)); left).
    eapply wp_mono; [apply (Hbody k d s' M)|]; [done..| | |].
    + rewrite HMk. unfold goal. rewrite Hkd, decide_True; [done|left].
    + intros k'. rewrite elem_of_union, !elem_of_dom, HMk. unfold goal. destruct (Mt !! k'); [by eauto|auto].
    + intros _ s'' (Ho' & M' & HM' & Ek & Eo). split; [apply Ho'|]. split_and!; [by eapply only_trans|done| |].
      * intros kd Hin. apply Hrest. by right.
      * exists M'. split; [done|]. intros k'. destruct (decide (k' = k)) as [->|Hne'].
        -- rewrite Ek. unfold goal. by rewrite Hkd, decide_False.
        -- rewrite Eo, HMk by done. unfold goal. destruct (Mt !! k'); [|done]. cbn.
           destruct (decide (k' ∈ rest.*1)); [rewrite decide_True by (by right)|rewrite decide_False]; try done.
           intros [?|?]%elem_of_cons; done.
  - intros s' (Ho & _ & _ & M & HM & HMk). apply (HQ s' M); [done..|]. intros k. rewrite HMk. unfold goal.
    destruct (Mt !! k); [|done]. rewrite decide_False; [done|]. by intros ?%not_elem_of_nil.
Qed.

Definition opt (c : any) : option any := match c with None => None | Some _ => Some c end.

(** How the code combines the data of a common key, [old] being what the copy
    it works on has. *)
Definition combine f (old d e : any) : option any :=
  match f with
  | None => Some old
  | Some f => if bool_decide (f d e = d) then Some old else opt (f d e)
  end.

Lemma bounded_present M k c : bounded M -> is_Some (M !! k) -> bounded (<[k := c]> M).
Proof. unfold bounded. rewrite msize_insert. intros ? [d ->]. lia. Qed.

(** One key of [v] set to [r], the rest as it was. *)
Definition sets v s s' M k (r : option any) : Prop :=
  only v s s' /\ exists M', W s' v M' /\ M' !! k = r /\ forall k', k' <> k -> M' !! k' = M !! k'.

Lemma wp_sets_Delete s v M k (Q : unit -> store -> Prop) :
  W s v M -> (forall s', sets v s s' M k None -> Q tt s') -> wp (Delete v k ;; mret tt) Q s.
Proof.
  intros Hv HQ. apply wp_bind. eapply tm_Delete; [done|]. intros s' Ho Hv'. apply wp_ret, HQ.
  split; [done|]. exists (delete k M). split_and!; [done|apply lookup_delete_eq|]. intros k' ?. by apply lookup_delete_ne.
Qed.
Lemma wp_sets_Insert s v M k c (Q : unit -> store -> Prop) :
  W s v M -> key_ok k -> bounded (<[k := c]> M) -> (forall s', sets v s s' M k (Some c) -> Q tt s') ->
  wp (Insert v k c ;; mret tt) Q s.
Proof.
  intros Hv Hk Hb HQ. apply wp_bind. eapply tm_Insert; [done..|]. intros s' Ho Hv'. apply wp_ret, HQ.
  split; [done|]. exists (<[k := c]> M). split_and!; [done|apply lookup_insert_eq|]. intros k' ?. by apply lookup_insert_ne.
Qed.
Lemma sets_same v s M k : W s v M -> sets v s s M k (M !! k).
Proof. intros Hv. split; [apply only_refl|]. by exists M. Qed.

Lemma wp_combine s v M k f old d e (Q : unit -> store -> Prop) :
  W s v M -> M !! k = Some old -> (forall s', sets v s s' M k (combine f old d e) -> Q tt s') ->
  wp (match f with None => mret tt | Some f => put_result v k (f d e) d end) Q s.
Proof.
  intros Hv Hk HQ. assert (Hkey : key_ok k) by (by eapply tm_key). pose proof (sets_same v s M k Hv) as Hs. rewrite Hk in Hs.
  destruct f as [f|]; cbn [combine] in HQ; [|by apply wp_ret, HQ]. unfold put_result.
  destruct (bool_decide_reflect (f d e <> d)) as [Hne|Heq].
  - rewrite bool_decide_false in HQ by done. destruct (bool_decide_reflect (f d e = None)) as [En|Hn].
    + eapply wp_sets_Delete; [done|]. intros s' Hs'. apply HQ. by rewrite En.
    + eapply wp_sets_Insert; [done|done| |].
      * apply bounded_present; [by eapply tm_bounded|by eexists].
      * intros s' Hs'. apply HQ. unfold opt. by destruct (f d e).
  - apply dec_stable in Heq. rewrite bool_decide_true in HQ by done. by apply wp_ret, HQ.
Qed.

Lemma msize_0 M : msize M = 0 -> M = ∅.
Proof. unfold msize. intros H. apply map_size_empty_inv. lia. Qed.

(** The objects in use keep their maps. *)
Definition kept s s' : Prop := forall t M, W s t M -> W s' t M.
Lemma only_new s s' v : trees s !! v = None -> only v s s' -> kept s s'.
Proof.
  intros Hv Ho t M Ht. eapply tm_only; [done| |done]. intros ->.
  destruct (tm_live s v M Ht). congruence.
Qed.

(** ** Results, key by key *)

Definition inter_at f (Mt Mu : gmap Z any) (k : Z) : option any :=
  match Mt !! k, Mu !! k with
  | Some d, Some e => combine f (if msize Mt <=? msize Mu then d else e) d e
  | _, _ => None
  end.
Definition union_at f (Mt Mu : gmap Z any) (k : Z) : option any :=
  match Mt !! k, Mu !! k with
  | Some d, Some e => combine f (if msize Mt >=? msize Mu then d else e) d e
  | Some d, None => Some d
  | None, o => o
  end.
Definition diff_at f (Mt Mu : gmap Z any) (k : Z) : option any :=
  match Mt !! k, Mu !! k with
  | Some d, Some e => match f with None => None | Some f => opt (f d e) end
  | o, _ => o
  end.

(** [v] is a new object that holds the result. *)
Definition returns s s' v (res : Z -> option any) : Prop :=
  kept s s' /\ exists M, W s' v M /\ forall k, M !! k = res k.

Lemma wp_empty_result s (res : Z -> option any) (Q : loc -> store -> Prop) :
  (forall k, res k = None) -> (forall v s', returns s s' v res -> Q v s') -> wp (alloc_T (MkT None 0)) Q s.
Proof.
  intros Hres HQ. eapply tm_new. intros v s' Hv Ho HW. apply HQ. split; [by eapply only_new|].
  exists ∅. split; [done|]. intros k. by rewrite Hres, lookup_empty.
Qed.

(** The common shape: copy [x], then visit the entries of [y]. *)
Lemma wp_copy_and_visit s x y Mx My body (R : Z -> any -> option any) (res : Z -> option any) (Q : loc -> store -> Prop) :
  W s x Mx -> W s y My ->
  (forall v s0 s' M k d, kept s s' -> My !! k = Some d -> v <> x -> v <> y -> W s' v M -> M !! k = Mx !! k ->
     dom M ⊆ dom My ∪ dom Mx -> (forall Q', (forall s'', sets v s' s'' M k (R k d) -> Q' tt s'') -> wp (body v k d) Q' s')) ->
  (forall k, match My !! k with Some d => R k d | None => Mx !! k end = res k) ->
  (forall v s', returns s s' v res -> Q v s') ->
  wp (v <- Copy x ;; for_each y (msize My) (body v) ;; mret v) Q s.
Proof.
  intros Hx Hy Hbody Hres HQ. apply wp_bind. eapply tm_Copy; [done|]. intros v s0 Hv Ho Hv0.
  assert (Hk0 : kept s s0) by (by eapply only_new).
  assert (Hvx : v <> x) by (intros ->; destruct (tm_live s x Mx Hx); congruence).
  assert (Hvy : v <> y) by (intros ->; destruct (tm_live s y My Hy); congruence).
  assert (Hkept : forall s', only v s0 s' -> kept s s').
  { intros s' Ho'. eapply only_new; [done|]. by eapply only_trans. }
  apply wp_bind. eapply (wp_pointwise s0 y v My Mx _ R); [by apply Hk0|done|done| |].
  - intros k d s' M Hkd Ho' HM HMk Hdom. eapply (Hbody v s0 s' M k d); [by apply Hkept|done..|].
    intros s'' [Ho'' Hex]. by split.
  - intros s' M Ho' HM HMk. apply wp_ret, HQ. split; [by apply Hkept|]. exists M. split; [done|].
    intros k. by rewrite HMk.
Qed.

Lemma wp_Intersection s t u Mt Mu f (Q : loc -> store -> Prop) :
  W s t Mt -> W s u Mu -> no_nil Mt -> no_nil Mu ->
  (forall v s', returns s s' v (inter_at f Mt Mu) -> Q v s') -> wp (Intersection t u f) Q s.
Proof.
  intros Ht Hu Nt Nu HQ. unfold Intersection. apply wp_bind. eapply tm_Size; [done|]. apply wp_bind. eapply tm_Size; [done|].
  destruct ((msize Mt =? 0) || (msize Mu =? 0)) eqn:E0.
  - apply (wp_empty_result s (inter_at f Mt Mu)); [|exact HQ]. intros k. unfold inter_at. reflect.
    destruct E0 as [E0|E0]; reflect; [by rewrite (msize_0 Mt E0), lookup_empty|].
    rewrite (msize_0 Mu E0), lookup_empty. by destruct (Mt !! k).
  - clear E0. destruct (Z.leb_spec (msize Mt) (msize Mu)) as [Hle|Hgt].
    + apply (wp_copy_and_visit s t t Mt Mt _ (fun k d => match Mu !! k with Some e => combine f d d e | None => None end) (inter_at f Mt Mu)); try done.
      * intros v s0 s' M k d Hkept Hkd Hvt _ HM HMk _ Q' HQ'. apply wp_bind. eapply tm_Find; [by apply Hkept|].
        destruct (bool_decide_reflect (data_at Mu k = None)) as [Hn|Hn].
        -- apply data_at_nil in Hn; [|done]. rewrite Hn in HQ'. by eapply wp_sets_Delete.
        -- unfold data_at in *. destruct (Mu !! k) as [e|]; [|done]. eapply (wp_combine s' v M); [done|by rewrite HMk|done].
      * intros k. unfold inter_at. destruct (Z.leb_spec (msize Mt) (msize Mu)); [|lia]. by destruct (Mt !! k).
    + apply (wp_copy_and_visit s u u Mu Mu _ (fun k e => match Mt !! k with Some d => combine f e d e | None => None end) (inter_at f Mt Mu)); try done.
      * intros v s0 s' M k e Hkept Hke Hvu _ HM HMk _ Q' HQ'. apply wp_bind. eapply tm_Find; [by apply Hkept|].
        destruct (bool_decide_reflect (data_at Mt k = None)) as [Hn|Hn].
        -- apply data_at_nil in Hn; [|done]. rewrite Hn in HQ'. by eapply wp_sets_Delete.
        -- unfold data_at in *. destruct (Mt !! k) as [d|]; [|done]. eapply (wp_combine s' v M); [done|by rewrite HMk|done].
      * intros k. unfold inter_at. destruct (Z.leb_spec (msize Mt) (msize Mu)); [lia|]. by destruct (Mt !! k), (Mu !! k).
Qed.

Lemma bounded_sub M M1 M2 k c :
  dom M ⊆ dom M1 ∪ dom M2 -> k ∈ dom M1 ∪ dom M2 -> msize M1 + msize M2 < 2 ^ 59 -> bounded (<[k := c]> M).
Proof.
  intros Hd Hk Hb. unfold bounded, msize in *. rewrite <- (size_dom (D:=gset Z) (<[k := c]> M)). rewrite dom_insert_L.
  assert (Hs : {[k]} ∪ dom M ⊆ dom M1 ∪ dom M2) by set_solver. apply subseteq_size in Hs.
  pose proof (size_union_alt (dom M1) (dom M2)) as Hu. pose proof (subseteq_size (dom M2 ∖ dom M1) (dom M2) ltac:(set_solver)).
  rewrite !size_dom in *. lia.
Qed.

Lemma wp_Union s t u Mt Mu f (Q : loc -> store -> Prop) :
  W s t Mt -> W s u Mu -> no_nil Mt -> no_nil Mu -> msize Mt + msize Mu < 2 ^ 59 ->
  (forall v s', returns s s' v (union_at f Mt Mu) -> Q v s') -> wp (Union t u f) Q s.
Proof.
  intros Ht Hu Nt Nu Hb HQ. unfold Union. apply wp_bind. eapply tm_Size; [done|]. apply wp_bind. eapply tm_Size; [done|].
  destruct (Z.eqb_spec (msize Mt) 0) as [E0|_]; [|destruct (Z.eqb_spec (msize Mu) 0) as [E0|_]].
  - apply wp_ret, HQ. split; [by intros ? ?|]. exists Mu. split; [done|]. intros k. unfold union_at.
    by rewrite (msize_0 Mt E0), lookup_empty.
  - apply wp_ret, HQ. split; [by intros ? ?|]. exists Mt. split; [done|]. intros k. unfold union_at.
    rewrite (msize_0 Mu E0), lookup_empty. by destruct (Mt !! k).
  - rewrite Z.geb_leb. destruct (Z.leb_spec (msize Mu) (msize Mt)) as [Hle|Hgt].
    + apply (wp_copy_and_visit s t u Mt Mu _ (fun k e => match Mt !! k with Some d => combine f d d e | None => Some e end) (union_at f Mt Mu)); try done.
      * intros v s0 s' M k e Hkept Hke Hvt Hvu HM HMk Hdom Q' HQ'. apply wp_bind. eapply tm_Find; [by apply Hkept|].
        destruct (bool_decide_reflect (data_at Mt k = None)) as [Hn|Hn].
        -- apply data_at_nil in Hn; [|done]. rewrite Hn in HQ'. eapply wp_sets_Insert; [done| | |done].
           ++ eapply tm_key; [exact Hu|by eexists].
           ++ eapply bounded_sub; [exact Hdom| |lia]. apply elem_of_union_l, elem_of_dom. by eexists.
        -- unfold data_at in *. destruct (Mt !! k) as [d|]; [|done]. eapply (wp_combine s' v M); [done|by rewrite HMk|done].
      * intros k. unfold union_at. rewrite Z.geb_leb. destruct (Z.leb_spec (msize Mu) (msize Mt)); [|lia].
        by destruct (Mt !! k), (Mu !! k).
    + apply (wp_copy_and_visit s u t Mu Mt _ (fun k d => match Mu !! k with Some e => combine f e d e | None => Some d end) (union_at f Mt Mu)); try done.
      * intros v s0 s' M k d Hkept Hke Hvt Hvu HM HMk Hdom Q' HQ'. apply wp_bind. eapply tm_Find; [by apply Hkept|].
        destruct (bool_decide_reflect (data_at Mu k = None)) as [Hn|Hn].
        -- apply data_at_nil in Hn; [|done]. rewrite Hn in HQ'. eapply wp_sets_Insert; [done| | |done].
           ++ eapply tm_key; [exact Ht|by eexists].
           ++ eapply bounded_sub; [exact Hdom| |lia]. apply elem_of_union_l, elem_of_dom. by eexists.
        -- unfold data_at in *. destruct (Mu !! k) as [e|]; [|done]. eapply (wp_combine s' v M); [done|by rewrite HMk|done].
      * intros k. unfold union_at. rewrite Z.geb_leb. destruct (Z.leb_spec (msize Mu) (msize Mt)); [lia|].
        by destruct (Mt !! k), (Mu !! k).
Qed.

Lemma wp_Difference s t u Mt Mu f (Q : loc -> store -> Prop) :
  W s t Mt -> W s u Mu -> no_nil Mt -> no_nil Mu ->
  (forall v s', returns s s' v (diff_at f Mt Mu) -> Q v s') -> wp (Difference t u f) Q s.
Proof.
  intros Ht Hu Nt Nu HQ. unfold Difference. apply wp_bind. eapply tm_Size; [done|]. apply wp_bind. eapply tm_Size; [done|].
  destruct (Z.eqb_spec (msize Mt) 0) as [E0|_]; [|destruct (Z.eqb_spec (msize Mu) 0) as [E0|_]].
  - apply (wp_empty_result s (diff_at f Mt Mu)); [|exact HQ]. intros k. unfold diff_at. by rewrite (msize_0 Mt E0), lookup_empty.
  - apply wp_ret, HQ. split; [by intros ? ?|]. exists Mt. split; [done|]. intros k. unfold diff_at.
    rewrite (msize_0 Mu E0), lookup_empty. by destruct (Mt !! k).
  - apply (wp_copy_and_visit s t t Mt Mt _ (fun k d => match Mu !! k with
      | Some e => match f with None => None | Some f => opt (f d e) end | None => Some d end) (diff_at f Mt Mu)); try done.
    + intros v s0 s' M k d Hkept Hkd Hvt _ HM HMk _ Q' HQ'. apply wp_bind. eapply tm_Find; [by apply Hkept|].
      pose proof (sets_same v s' M k HM) as Hsame. rewrite HMk, Hkd in Hsame.
      destruct (bool_decide_reflect (data_at Mu k <> None)) as [Hn|Hn].
      * unfold data_at in *. destruct (Mu !! k) as [e|]; [|done]. cbn in *. destruct f as [f|]; [|by eapply wp_sets_Delete].
        cbv zeta. destruct (bool_decide_reflect (f d e = None)) as [Hc|Hc]; [rewrite Hc in HQ'; by eapply wp_sets_Delete|].
        assert (Eo : opt (f d e) = Some (f d e)) by (by destruct (f d e)). rewrite Eo in HQ'.
        destruct (bool_decide_reflect (f d e <> d)) as [Hd|Hd].
        -- eapply wp_sets_Insert; [done|eapply tm_key; [exact Ht|by eexists]|apply bounded_present; [by eapply tm_bounded|by rewrite HMk; eexists]|done].
        -- apply dec_stable in Hd. rewrite Hd in HQ'. by apply wp_ret, HQ'.
      * apply dec_stable, data_at_nil in Hn; [|done]. rewrite Hn in HQ'. by apply wp_ret, HQ'.
    + intros k. unfold diff_at. by destruct (Mt !! k), (Mu !! k).
Qed.
End Sets.
