(* ===== verification/AbtTheorems.v ===== *)
(** * abt: what the package promises

    Persistence, the map operations, the queries, the enumeration and the set
    operations of [T]. *)

From stdpp Require Import gmap.
From S2P Require Import Prelude.
From S2P Require Import Abt.
From S2P Require Import AbtTree.
From S2P Require Import AbtOps.
From S2P Require Import AbtInsert.
From S2P Require Import AbtDelete.
From S2P Require Import AbtQuery.
From S2P Require Import AbtMap.
From S2P Require Import AbtSets.

Section Theorems.
Context {D : Type} `{EqDecision D}.
Abbreviation any := (option D).
Implicit Types (s : store (D:=D)) (M : gmap Z any) (t u v : loc) (tr : tree (D:=D)).

(** ** Comparing trees *)

Fixpoint eq_entries (eqv : any -> any -> bool) (l1 l2 : list (Z * any)) : bool :=
  match l1, l2 with
  | [], [] => true
  | (k1, d1) :: l1, (k2, d2) :: l2 => (k1 =? k2) && eqv d1 d2 && eq_entries eqv l1 l2
  | _, _ => false
  end.

Lemma eq_entries_refl eqv l : (forall d, eqv d d = true) -> eq_entries eqv l l = true.
Proof. intros H. induction l as [|[k d] l IH]; [done|]. cbn. by rewrite Z.eqb_refl, H, IH. Qed.
Lemma eq_entries_length eqv l1 l2 : length l1 <> length l2 -> eq_entries eqv l1 l2 = false.
Proof.
  revert l2. induction l1 as [|[k d] l1 IH]; intros [|[k' d'] l2] H; cbn in *; try done.
  rewrite IH by lia. apply andb_false_r.
Qed.
Lemma eq_entries_eq l1 l2 : eq_entries (fun x y => bool_decide (x = y)) l1 l2 = true <-> l1 = l2.
Proof.
  revert l2. induction l1 as [|[k d] l1 IH]; intros [|[k' d'] l2]; cbn; try done.
  rewrite !andb_true_iff, IH, Z.eqb_eq, bool_decide_eq_true. naive_solver.
Qed.

Lemma wp_equiv_loop fuel eqv m ts it iu l1 l2 (Q : bool -> store -> Prop) :
  (forall d, eqv d d = true) -> ready m it l1 -> ready m iu l2 -> (length l1 < fuel)%nat ->
  Q (eq_entries eqv l1 l2) (Store m ts) ->
  wp (loop fuel (fun '(it, iu) =>
      if negb (it_done it) && negb (it_done iu) then
        '(nt, it) <- next it ;;
        '(nu, iu) <- next iu ;;
        if bool_decide (nt = nu) then continue (it, iu)
        else
          tn <- deref nt ;;
          un <- deref nu ;;
          if negb (key tn =? key un) then break false
          else if negb (eqv (data tn) (data un)) then break false
          else continue (it, iu)
      else break (eqb (it_done it) (it_done iu))) (it, iu)) Q (Store m ts).
Proof.
  intros Hrefl. revert it iu l1 l2. induction fuel as [|fuel IH]; intros it iu l1 l2 H1 H2 Hf HQ; [lia|].
  apply wp_loop_S. rewrite (ready_done _ _ _ H1), (ready_done _ _ _ H2).
  destruct l1 as [|[k1 d1] l1], l2 as [|[k2 d2] l2]; cbn [negb andb]; try (apply wp_break; exact HQ).
  apply wp_bind. eapply wp_next; [exact H1|]. intros a1 it' (n1 & Hn1 & Ek1 & Ed1) H1'.
  apply wp_bind. eapply wp_next; [exact H2|]. intros a2 iu' (n2 & Hn2 & Ek2 & Ed2) H2'. cbn in Ek1, Ed1, Ek2, Ed2, HQ, Hf.
  cbv beta iota. case_bool_decide as Ha.
  - injection Ha as ->. rewrite Hn1 in Hn2. injection Hn2 as <-. subst. apply wp_continue. eapply IH; [done..|lia|].
    by rewrite Z.eqb_refl, Hrefl in HQ.
  - abt_steps. rewrite Ek1, Ed1, Ek2, Ed2. destruct (k1 =? k2); [|by apply wp_break]. cbn [negb].
    destruct (eqv d1 d2); [|by apply wp_break]. cbn [negb]. apply wp_continue. eapply IH; [done..|lia|done].
Qed.

Lemma wp_equiv fuel eqv m ts tr1 tr2 (Q : bool -> store -> Prop) :
  (forall d, eqv d d = true) -> good m tr1 -> good m tr2 -> (length (elements tr1) < fuel)%nat ->
  Q (eq_entries eqv (elements tr1) (elements tr2)) (Store m ts) ->
  wp (equiv fuel (rt tr1) (rt tr2) eqv) Q (Store m ts).
Proof.
  intros Hrefl H1 H2 Hf HQ. unfold equiv. destruct (bool_decide_reflect (rt tr1 = rt tr2)) as [Heq|Hne].
  - apply wp_ret. enough (elements tr1 = elements tr2) as E1 by (by rewrite E1, eq_entries_refl in HQ).
    clear -Heq H1 H2. destruct H1 as (R1 & _), H2 as (R2 & _). revert tr2 Heq R2.
    induction tr1 as [|a l IHl k d h r IHr]; intros [|a' l' k' d' h' r'] Heq R2; try done. injection Heq as <-.
    destruct R1 as (Ha & Rl & Rr), R2 as (Ha' & Rl' & Rr'). rewrite Ha in Ha'. injection Ha' as El Er -> -> ->.
    cbn. by rewrite (IHl Rl l' El Rl'), (IHr Rr r' Er Rr').
  - apply wp_bind, wp_iterator; [done|]. intros it Hit. apply wp_bind, wp_iterator; [done|]. intros iu Hiu.
    by eapply wp_equiv_loop.
Qed.

Lemma ordered_elem l M k d : ordered l M -> (k, d) ∈ l <-> M !! k = Some d.
Proof. intros [Hs <-]. rewrite lookup_assoc. by apply assoc_elem. Qed.

Lemma ordered_unique l1 l2 M : ordered l1 M -> ordered l2 M -> l1 = l2.
Proof.
  revert l2 M. induction l1 as [|[k1 d1] l1 IH]; intros [|[k2 d2] l2] M O1 O2; try done.
  - pose proof (ordered_length _ _ O1). pose proof (ordered_length _ _ O2). cbn in *. lia.
  - pose proof (ordered_length _ _ O1). pose proof (ordered_length _ _ O2). cbn in *. lia.
  - assert (k1 = k2 /\ d1 = d2) as [<- <-].
    { assert (H1 : (k1, d1) ∈ (k2, d2) :: l2) by (apply (ordered_elem _ M); [done|]; apply (ordered_elem _ _ _ _ O1); left).
      assert (H2 : (k2, d2) ∈ (k1, d1) :: l1) by (apply (ordered_elem _ M); [done|]; apply (ordered_elem _ _ _ _ O2); left).
      apply elem_of_cons in H1 as [|H1]; [naive_solver|]. apply elem_of_cons in H2 as [|H2]; [naive_solver|].
      assert (Hk1 : k2 < k1) by (apply (sorted_above _ _ (proj1 O2)), list_elem_of_fmap; by exists (k1, d1)).
      assert (Hk2 : k1 < k2) by (apply (sorted_above _ _ (proj1 O1)), list_elem_of_fmap; by exists (k2, d2)). lia. }
    f_equal. destruct O1 as [S1 E1], O2 as [S2 E2]. cbn in S1, S2. apply StronglySorted_inv in S1 as [S1 F1].
    apply StronglySorted_inv in S2 as [S2 F2]. rewrite Forall_forall in F1, F2.
    assert (N1 : k1 ∉ l1.*1) by (intros Hin; apply F1 in Hin; lia).
    assert (N2 : k1 ∉ l2.*1) by (intros Hin; apply F2 in Hin; lia).
    apply (IH l2 (delete k1 M)); split; try done.
    + rewrite <- E1. cbn. rewrite delete_insert_id; [done|]. rewrite lookup_assoc. by apply assoc_None.
    + rewrite <- E2. cbn. rewrite delete_insert_id; [done|]. rewrite lookup_assoc. by apply assoc_None.
Qed.

Lemma wp_Equiv eqv s t u Mt Mu lt lu (Q : bool -> store -> Prop) :
  (forall d, eqv d d = true) -> wf s t Mt -> wf s u Mu -> ordered lt Mt -> ordered lu Mu ->
  Q (eq_entries eqv lt lu) s -> wp (Equiv t u eqv) Q s.
Proof.
  destruct s as [m ts]. intros Hrefl Ht Hu Ot Ou HQ. unfold Equiv. case_bool_decide as Htu.
  - subst u. apply wp_ret. assert (Mt = Mu) as <-.
    { destruct Ht as (tr1 & E1 & R1 & _ & _ & <- & _), Hu as (tr2 & E2 & R2 & _ & _ & <- & _). rewrite E1 in E2.
      injection E2 as Er _. f_equal. clear -Er R1 R2. revert tr2 Er R2.
      induction tr1 as [|a l IHl k d h r IHr]; intros [|a' l' k' d' h' r'] Heq R2; try done. injection Heq as <-.
      destruct R1 as (Ha & Rl & Rr), R2 as (Ha' & Rl' & Rr'). rewrite Ha in Ha'. injection Ha' as El Er -> -> ->.
      by rewrite (IHl Rl l' El Rl'), (IHr Rr r' Er Rr'). }
    rewrite (ordered_unique _ _ _ Ou Ot), eq_entries_refl in HQ; done.
  - apply wp_bind. eapply wp_Size; [done|]. apply wp_bind. eapply wp_Size; [done|].
    pose proof (ordered_length _ _ Ot) as Lt. pose proof (ordered_length _ _ Ou) as Lu.
    destruct (Z.eqb_spec (msize Mt) (msize Mu)) as [Es|Es]; cbn [negb].
    + open Ht. open Hu. apply wp_bind. eapply wp_deref_T; [exact Ht0|]. apply wp_bind. eapply wp_deref_T; [exact Ht1|].
      cbn [root]. rewrite <- (ordered_unique (elements tr) lt Mt) in * by (done || by split).
      rewrite <- (ordered_unique (elements tr0) lu Mu) in * by (done || by split).
      apply wp_equiv; [done|by split_and!..| |done]. lia.
    + apply wp_ret. by rewrite eq_entries_length in HQ by lia.
Qed.

Lemma Equals_Equiv t u : Equals (D:=D) t u = Equiv t u (fun x y => bool_decide (x = y)).
Proof. done. Qed.

(** ** Theorems *)

(** C4: updates refine those of a finite map.  [Insert] returns the previous data
    and leaves the extended map, [Delete] returns the data and deletes the key,
    and [DeleteMin] and [DeleteMax] the least and greatest key, or
    [(NOT_KEY32, nil)] for an empty tree; deleting an absent key changes nothing.  The
    tree stays ordered and balanced with heights far inside [int8], and every other tree keeps
    its map although they share nodes, since no existing node is written to.  The
    sentinel key panics. *)
Theorem updates_refine_map s t M :
  wf s t M ->
  (forall x d, key_ok x -> bounded (<[x := d]> M) ->
     exists s', Insert t x d s = Done (data_at M x, s') /\ wf s' t (<[x := d]> M) /\ nodes s ⊆ nodes s' /\
       forall u Mu, u <> t -> wf s u Mu -> wf s' u Mu) /\
  (forall d, Insert t NOT_KEY32 d s = Panic sentinelError) /\
  (forall x, exists s', Delete t x s = Done (data_at M x, s') /\ wf s' t (delete x M) /\
     forall u Mu, u <> t -> wf s u Mu -> wf s' u Mu) /\
  (exists res s', DeleteMin t s = Done (res, s') /\ least M (fun _ => True) res /\ wf s' t (delete res.1 M) /\
     forall u Mu, u <> t -> wf s u Mu -> wf s' u Mu) /\
  (exists res s', DeleteMax t s = Done (res, s') /\ greatest M (fun _ => True) res /\ wf s' t (delete res.1 M) /\
     forall u Mu, u <> t -> wf s u Mu -> wf s' u Mu).
Proof.
  intros Hwf. split_and!; [| |intros x|..].
  - intros x d Hx Hb. destruct (wp_elim (Insert t x d) (fun r s' => r = data_at M x /\ only t s s' /\ wf s' t (<[x := d]> M)) s) as (r & s' & E1 & -> & Ho & H').
    { by apply (wp_Insert s t M). }
    exists s'. split_and!; [done|done|apply Ho|]. intros u Mu Hne. by apply wf_only with t.
  - done.
  - destruct (wp_elim (Delete t x) (fun r s' => r = data_at M x /\ only t s s' /\ wf s' t (delete x M)) s) as (r & s' & E1 & -> & Ho & H').
    { by apply (wp_Delete s t M). }
    exists s'. split_and!; [done..|]. intros u Mu Hne. by apply wf_only with t.
  - destruct (wp_elim (DeleteMin t) (fun r s' => least M (fun _ => True) r /\ only t s s' /\ wf s' t (delete r.1 M)) s) as (r & s' & E1 & Hl & Ho & H').
    { by apply (wp_DeleteMin s t M). }
    exists r, s'. split_and!; [done..|]. intros u Mu Hne. by apply wf_only with t.
  - destruct (wp_elim (DeleteMax t) (fun r s' => greatest M (fun _ => True) r /\ only t s s' /\ wf s' t (delete r.1 M)) s) as (r & s' & E1 & Hl & Ho & H').
    { by apply (wp_DeleteMax s t M). }
    exists r, s'. split_and!; [done..|]. intros u Mu Hne. by apply wf_only with t.
Qed.

(** [m] returns a result satisfying [P] and leaves the store alone. *)
Definition reads {A} (m : M store A) s (P : A -> Prop) : Prop := exists r, m s = Done (r, s) /\ P r.
Lemma reads_wp {A} (m : Prelude.M store A) s (P : A -> Prop) : wp m (fun r s' => s' = s /\ P r) s -> reads m s P.
Proof. intros (r & s' & E1 & -> & H)%wp_elim. by exists r. Qed.

Lemma wp_IsEmpty s t M (Q : bool -> store -> Prop) : wf s t M -> Q (bool_decide (M = ∅)) s -> wp (IsEmpty t) Q s.
Proof.
  destruct s as [m ts]. intros Hwf HQ. open Hwf. unfold IsEmpty. apply wp_bind. eapply wp_deref_T; [exact Ht|]. apply wp_ret.
  cbn [root]. rewrite (bool_decide_ext _ (M = ∅)); [done|]. rewrite <- HM. split; [by destruct tr|]. by intros ->%entries_empty.
Qed.
Lemma wp_IsSingle s t M (Q : bool -> store -> Prop) : wf s t M -> Q (msize M =? 1) s -> wp (IsSingle t) Q s.
Proof.
  destruct s as [m ts]. intros Hwf HQ. open Hwf. unfold IsSingle. apply wp_bind. eapply wp_deref_T; [exact Ht|]. cbn [root].
  rewrite <- (ordered_length (elements tr) M) in HQ by (by split). destruct tr as [|a l k d h r]; [by apply wp_ret|].
  rewrite bool_decide_true by done. unfold isLeaf. cbn [rt]. destruct Hrep as (Ha & _). abt_steps.
  destruct Havl as (Eh & _ & _ & Hl & Hr). cbn [elements] in HQ. rewrite length_app in HQ. cbn [length] in HQ.
  destruct l as [|al ll kl dl hl lr]; [destruct r as [|ar rl kr dr hr rr]|].
  - cbn [hf] in *. subst h. exact HQ.
  - rewrite bool_decide_true, (bool_decide_false (rt (N _ _ _ _ _ _) = None)) by done. cbn in HQ |- *.
    rewrite length_app in HQ. cbn [length] in HQ. destruct (Z.eqb_spec (Z.of_nat (S (length (elements rl) + S (length (elements rr))))) 1); [lia|done].
  - rewrite (bool_decide_false (rt (N _ _ _ _ _ _) = None)) by done. cbn in HQ |- *.
    rewrite length_app in HQ. cbn [length] in HQ.
    match type of HQ with Q (?x =? 1) _ => destruct (Z.eqb_spec x 1); [lia|done] end.
Qed.

(** The entries an iterator returns in [n] calls of [Next]. *)
Fixpoint drain (n : nat) (it : iterator_t) : M store (list (Z * any) * iterator_t) :=
  match n with
  | O => mret ([], it)
  | S n =>
      '(k, d, it) <- Next it ;;
      '(l, it) <- drain n it ;;
      mret ((k, d) :: l, it)
  end.

Lemma wp_drain m ts it l (Q : list (Z * any) * iterator_t -> store -> Prop) :
  ready m it l -> (forall it', ready m it' [] -> Q (l, it') (Store m ts)) -> wp (drain (length l) it) Q (Store m ts).
Proof.
  revert it Q. induction l as [|[k d] l IH]; intros it Q Hit HQ; cbn [drain length]; [by apply wp_ret, HQ|].
  apply wp_bind. unfold Next. apply wp_bind. eapply wp_next; [exact Hit|]. intros a it' (n & Hn & Ek & Ed) Hit'. cbn in Ek, Ed.
  abt_steps. subst. apply IH; [done|]. intros it2 Hit2. abt_steps. by apply HQ.
Qed.

(** What [VisitInOrder] and the iterators enumerate. *)
Lemma enumeration_spec {X} s t M (f : Z -> any -> X -> X) (x : X) :
  wf s t M ->
  exists l, ordered l M /\
    VisitInOrder t f x s = Done (foldl (fun x kd => f kd.1 kd.2 x) x l, s) /\
    exists it it', Iterator t s = Done (it, s) /\ drain (length l) it s = Done (l, it', s) /\
      Done_ it = bool_decide (l = []) /\ Done_ it' = true.
Proof.
  destruct s as [m ts]. intros Hwf. pose proof Hwf as (tr & Ht & Hrep & Hbst & Havl & HM & HbM & _).
  assert (Hh : hf tr <= 120) by (apply wf_height; [done..|by rewrite HM]).
  assert (Ol : ordered (elements tr) M) by (by split). exists (elements tr). split; [done|]. split.
  - destruct (wp_elim (VisitInOrder t f x) (fun r s' => s' = Store m ts /\ forall l, ordered l M -> r = foldl (fun x kd => f kd.1 kd.2 x) x l) (Store m ts))
      as (r & s' & E1 & -> & Hr).
    { apply (wp_VisitInOrder _ t M); [done|]. intros l Hl. split; [done|]. intros l' Hl'. by rewrite (ordered_unique _ _ _ Hl Hl'). }
    by rewrite E1, (Hr _ Ol).
  - destruct (wp_elim (Iterator t) (fun it s' => s' = Store m ts /\ ready m it (elements tr)) (Store m ts)) as (it & s' & E1 & -> & Hit).
    { unfold Iterator. apply wp_bind. eapply wp_deref_T; [exact Ht|]. apply wp_iterator; [by split_and!|done]. }
    destruct (wp_elim (drain (length (elements tr)) it) (fun r s' => s' = Store m ts /\ r.1 = elements tr /\ ready m r.2 []) (Store m ts))
      as ([l' it'] & s' & E2 & -> & Hl' & Hit').
    { by apply wp_drain. }
    cbn in Hl', Hit'. subst l'. exists it, it'. split_and!; [done..| |].
    + unfold Done_. rewrite (ready_done _ _ _ Hit). by destruct (elements tr).
    + apply (ready_done _ _ _ Hit').
Qed.





(** [Equals] decides equality of the maps, and [Equiv] compares the entries in order. *)
Lemma equality_ok s t u Mt Mu (eqv : any -> any -> bool) :
  wf s t Mt -> wf s u Mu -> (forall d, eqv d d = true) ->
  Equals t u s = Done (bool_decide (Mt = Mu), s) /\
  exists lt lu, ordered lt Mt /\ ordered lu Mu /\ Equiv t u eqv s = Done (eq_entries eqv lt lu, s).
Proof.
  intros Ht Hu Hrefl.
  assert (Hex : forall t M, wf s t M -> exists l, ordered l M) by (intros t' M (tr & _ & _ & ? & _ & <- & _); by exists (elements tr)).
  destruct (Hex t Mt Ht) as [lt Ol]. destruct (Hex u Mu Hu) as [lu Ou].
  assert (Hgen : forall eqv, (forall d, eqv d d = true) -> Equiv t u eqv s = Done (eq_entries eqv lt lu, s)).
  { intros eqv' Hr. destruct (wp_elim (Equiv t u eqv') (fun r s' => s' = s /\ r = eq_entries eqv' lt lu) s) as (r & s' & -> & -> & ->); [|done].
    by eapply wp_Equiv. }
  split; [|by exists lt, lu; split_and!; [..|apply Hgen]]. rewrite Equals_Equiv, Hgen by (intros; by apply bool_decide_true).
  do 2 f_equal. apply eq_true_iff_eq. rewrite eq_entries_eq, bool_decide_eq_true. split.
  - intros ->. destruct Ol as [_ <-], Ou as [_ <-]. done.
  - intros <-. by eapply ordered_unique.
Qed.
(** C14: the queries agree with the map and change nothing: [Find] returns the
    data or [nil], [Size], [IsEmpty] and [IsSingle] count, and [Min], [Max],
    [Glb], [GlbEq], [Lub] and [LubEq] return the extreme entry on their side of
    the key, or [(NOT_KEY32, nil)] when there is none.  Against another tree, whatever
    nodes the two share, [Equals] decides equality of the maps, and [Equiv] compares the
    entries in order with a reflexive [eqv].  [VisitInOrder] and the iterators enumerate exactly
    the entries of the map, each once, in ascending order of the keys; an iterator is
    done after as many calls of [Next] as the tree has entries, and not before. *)
Theorem queries_correct s t M x :
  wf s t M ->
  Find t x s = Done (data_at M x, s) /\
  Size t s = Done (msize M, s) /\
  IsEmpty t s = Done (bool_decide (M = ∅), s) /\
  IsSingle t s = Done (msize M =? 1, s) /\
  reads (Min t) s (least M (fun _ => True)) /\
  reads (Max t) s (greatest M (fun _ => True)) /\
  reads (Glb t x) s (greatest M (fun k => k < x)) /\
  reads (GlbEq t x) s (greatest M (fun k => k <= x)) /\
  reads (Lub t x) s (least M (fun k => x < k)) /\
  reads (LubEq t x) s (least M (fun k => x <= k)) /\
  (forall u Mu (eqv : any -> any -> bool), wf s u Mu -> (forall d, eqv d d = true) ->
   Equals t u s = Done (bool_decide (M = Mu), s) /\
   exists lt lu, ordered lt M /\ ordered lu Mu /\ Equiv t u eqv s = Done (eq_entries eqv lt lu, s)) /\
  (forall X (f : Z -> any -> X -> X) (a : X), exists l, ordered l M /\
     VisitInOrder t f a s = Done (foldl (fun a kd => f kd.1 kd.2 a) a l, s) /\
     exists it it', Iterator t s = Done (it, s) /\ drain (length l) it s = Done (l, it', s) /\
       Done_ it = bool_decide (l = []) /\ Done_ it' = true).
Proof.
  intros Hwf. assert (Hdet : forall A (m : Prelude.M store A) r, wp m (fun r' s' => s' = s /\ r' = r) s -> m s = Done (r, s)).
  { intros A m r (r' & s' & E1 & -> & ->)%wp_elim. done. }
  split_and!; try apply Hdet; try apply reads_wp.
  - by apply (wp_Find s t M).
  - by apply (wp_Size s t M).
  - by apply (wp_IsEmpty s t M).
  - by apply (wp_IsSingle s t M).
  - by apply (wp_Min s t M).
  - by apply (wp_Max s t M).
  - apply (wp_glb s t M x false (fun k => k < x)); [done| |done]. intros kd. unfold glb_ok. naive_solver.
  - apply (wp_glb s t M x true (fun k => k <= x)); [done| |done]. intros kd. unfold glb_ok. split; [intros [|[_ ?]]; lia|].
    intros ?. destruct (decide (kd.1 = x)); [by right|left; lia].
  - apply (wp_lub s t M x false (fun k => x < k)); [done| |done]. intros kd. unfold lub_ok. naive_solver.
  - apply (wp_lub s t M x true (fun k => x <= k)); [done| |done]. intros kd. unfold lub_ok. split; [intros [|[_ ?]]; lia|].
    intros ?. destruct (decide (kd.1 = x)); [by right|left; lia].
  - intros u Mu eqv Hu Hr. by apply equality_ok.
  - intros X f a. by apply enumeration_spec.
Qed.
End Theorems.

(** ** Witnesses *)

(** Two trees: [1] with the keys 3 and 5, [2] with the key 5. *)
Definition ex_store : store (D:=Z) :=
  Store {[1%positive := Node32 (Some 2%positive) None (Some 10) 5 2;
          2%positive := Node32 None None (Some 30) 3 1;
          3%positive := Node32 None None (Some 20) 5 1]}
        {[1%positive := MkT (Some 1%positive) 2; 2%positive := MkT (Some 3%positive) 1]}.
Definition ex_map1 : gmap Z (option Z) := {[3 := Some 30; 5 := Some 10]}.
Definition ex_map2 : gmap Z (option Z) := {[5 := Some 20]}.

Lemma ex_wf1 : wf ex_store 1%positive ex_map1.
Proof.
  exists (N 1%positive (N 2%positive E 3 (Some 30) 1 E) 5 (Some 10) 2 E). split_and!; try done.
  - repeat constructor.
  - intros k Hk. vm_compute in Hk. unfold key_ok, NOT_KEY32.
    repeat (apply elem_of_cons in Hk as [->|Hk]; [lia|]). by apply not_elem_of_nil in Hk.
Defined.
Lemma ex_wf2 : wf ex_store 2%positive ex_map2.
Proof.
  exists (N 3%positive E 5 (Some 20) 1 E). split_and!; try done.
  - repeat constructor.
  - intros k Hk. vm_compute in Hk. unfold key_ok, NOT_KEY32.
    repeat (apply elem_of_cons in Hk as [->|Hk]; [lia|]). by apply not_elem_of_nil in Hk.
Defined.

Lemma updates_refine_map_witness :
  (exists s', Insert 1%positive 4 (Some 40) ex_store = Done (None, s') /\ wf s' 1%positive (<[4 := Some 40]> ex_map1) /\
     wf s' 2%positive ex_map2) /\
  exists s', Delete 1%positive 5 ex_store = Done (Some 10, s') /\ wf s' 1%positive (delete 5 ex_map1) /\ wf s' 2%positive ex_map2.
Proof.
  destruct (updates_refine_map ex_store 1%positive ex_map1 ex_wf1) as (HI & _ & HD & _). split.
  - destruct (HI 4 (Some 40)) as (s' & E1 & H1 & _ & H2).
    + unfold key_ok, NOT_KEY32. lia.
    + reflexivity.
    + exists s'. split; [exact E1|]. split; [exact H1|]. by apply H2; [|exact ex_wf2].
  - destruct (HD 5) as (s' & E1 & H1 & H2). exists s'. split; [exact E1|]. split; [exact H1|]. by apply H2; [|exact ex_wf2].
Defined.

Lemma queries_correct_witness :
  Find 1%positive 5 ex_store = Done (Some 10, ex_store) /\ reads (Lub 1%positive 3) ex_store (least ex_map1 (fun k => 3 < k)) /\
  Lub 1%positive 3 ex_store = Done ((5, Some 10), ex_store) /\
  Equals 1%positive 2%positive ex_store = Done (bool_decide (ex_map1 = ex_map2), ex_store) /\ bool_decide (ex_map1 = ex_map2) = false /\
  (exists l, ordered l ex_map1 /\ VisitInOrder 1%positive (fun k _ n => k + n) 0 ex_store = Done (foldl (fun n kd => kd.1 + n) 0 l, ex_store)) /\
  VisitInOrder 1%positive (fun k _ n => k + n) 0 ex_store = Done (8, ex_store).
Proof.
  destruct (queries_correct ex_store 1%positive ex_map1 3 ex_wf1) as (_ & _ & _ & _ & _ & _ & _ & _ & H & _ & He & Hv).
  split; [reflexivity|]. split; [exact H|]. split; [reflexivity|]. split; [exact (proj1 (He 2%positive ex_map2 (fun _ _ => true) ex_wf2 (fun _ => eq_refl)))|].
  split; [reflexivity|]. split; [|reflexivity]. destruct (Hv _ (fun k _ n => k + n) 0) as (l & H1 & H2 & _). exists l. by split.
Defined.

