(* ===== verification/Utf8.v ===== *)
(** * unicode/utf8: encoding and decoding

    [src/src/unicode/utf8/utf8.go].  Strings and [[]byte] are both their lists of
    bytes; a [rune] is the [Z] of an [int32].  Reads use [tab]: each of them is
    guarded by a test of the length just before it. *)

From S2P Require Import Prelude.
From S2P Require Import Slice.
From S2P Require Import Bits.

Definition RuneError : Z := 0xFFFD.
Definition RuneSelf : Z := 0x80.
Definition MaxRune : Z := 0x10FFFF.
Definition UTFMax : Z := 4.
Definition surrogateMin : Z := 0xD800.
Definition surrogateMax : Z := 0xDFFF.
Definition tx : Z := 128.
Definition t2 : Z := 192.
Definition t3 : Z := 224.
Definition t4 : Z := 240.
Definition maskx : Z := 63.
Definition mask2 : Z := 31.
Definition mask3 : Z := 15.
Definition mask4 : Z := 7.
Definition rune1Max : Z := 1 << 7 - 1.
Definition rune2Max : Z := 1 << 11 - 1.
Definition rune3Max : Z := 1 << 16 - 1.
Definition locb : Z := 128.
Definition hicb : Z := 191.
Definition xx : Z := 0xF1.
Definition as_ : Z := 0xF0.
Definition s1 : Z := 0x02.
Definition s2 : Z := 0x13.
Definition s3 : Z := 0x03.
Definition s4 : Z := 0x23.
Definition s5 : Z := 0x34.
Definition s6 : Z := 0x04.
Definition s7 : Z := 0x44.
Definition runeErrorByte0 : Z := t3 .| (RuneError >> 12).
Definition runeErrorByte1 : Z := tx .| (RuneError >> 6) .& maskx.
Definition runeErrorByte2 : Z := tx .| RuneError .& maskx.

(** The rows of the table, 16 entries each. *)
Definition first : list Z :=
  replicate 128 as_ ++ replicate 64 xx ++
  [xx; xx] ++ replicate 14 s1 ++ replicate 16 s1 ++
  [s2; s3; s3; s3; s3; s3; s3; s3; s3; s3; s3; s3; s3; s4; s3; s3] ++
  [s5; s6; s6; s6; s7; xx; xx; xx; xx; xx; xx; xx; xx; xx; xx; xx].

Record acceptRange : Type := AcceptRange { lo : Z; hi : Z }.
Definition acceptRanges : list acceptRange :=
  [AcceptRange locb hicb; AcceptRange 0xA0 hicb; AcceptRange locb 0x9F; AcceptRange 0x90 hicb; AcceptRange locb 0x8F]
  ++ replicate 11 (AcceptRange 0 0).
Definition accept_at (i : Z) : acceptRange := nth (Z.to_nat i) acceptRanges (AcceptRange 0 0).

(** ** Decoding *)

Definition FullRune (p : list Z) : bool :=
  let n := zlen p in
  if n =? 0 then false
  else
    let x := tab first (tab p 0) in
    if n >=? x .& 7 then true
    else
      let accept := accept_at (x >> 4) in
      if (n >? 1) && ((tab p 1 <? lo accept) || (hi accept <? tab p 1)) then true
      else if (n >? 2) && ((tab p 2 <? locb) || (hicb <? tab p 2)) then true
      else false.
Definition FullRuneInString (s : list Z) : bool :=
  let n := zlen s in
  if n =? 0 then false
  else
    let x := tab first (tab s 0) in
    if n >=? x .& 7 then true
    else
      let accept := accept_at (x >> 4) in
      if (n >? 1) && ((tab s 1 <? lo accept) || (hi accept <? tab s 1)) then true
      else if (n >? 2) && ((tab s 2 <? locb) || (hicb <? tab s 2)) then true
      else false.

Definition decodeRuneSlow (p : list Z) : Z * Z :=
  let n := zlen p in
  if n <? 1 then (RuneError, 0)
  else
    let p0 := tab p 0 in
    let x := tab first p0 in
    if x >=? as_ then
      let mask := int32 (x << 31) >> 31 in
      (Z.ldiff p0 mask .| RuneError .& mask, 1)
    else
      let sz := x .& 7 in
      let accept := accept_at (x >> 4) in
      if n <? sz then (RuneError, 1)
      else
        let b1 := tab p 1 in
        if (b1 <? lo accept) || (hi accept <? b1) then (RuneError, 1)
        else if sz <=? 2 then ((p0 .& mask2) << 6 .| (b1 .& maskx), 2)
        else
          let b2 := tab p 2 in
          if (b2 <? locb) || (hicb <? b2) then (RuneError, 1)
          else if sz <=? 3 then ((p0 .& mask3) << 12 .| (b1 .& maskx) << 6 .| (b2 .& maskx), 3)
          else
            let b3 := tab p 3 in
            if (b3 <? locb) || (hicb <? b3) then (RuneError, 1)
            else ((p0 .& mask4) << 18 .| (b1 .& maskx) << 12 .| (b2 .& maskx) << 6 .| (b3 .& maskx), 4).

(** [for _, b := range p { if b < RuneSelf { return rune(b), 1 }; break }] *)
Definition DecodeRune (p : list Z) : Z * Z :=
  match p with
  | b :: _ => if b <? RuneSelf then (b, 1) else decodeRuneSlow p
  | [] => decodeRuneSlow p
  end.

Definition decodeRuneInStringSlow (s : list Z) : Z * Z :=
  let n := zlen s in
  if n <? 1 then (RuneError, 0)
  else
    let s0 := tab s 0 in
    let x := tab first s0 in
    if x >=? as_ then
      let mask := int32 (x << 31) >> 31 in
      (Z.ldiff s0 mask .| RuneError .& mask, 1)
    else
      let sz := x .& 7 in
      let accept := accept_at (x >> 4) in
      if n <? sz then (RuneError, 1)
      else
        let s1 := tab s 1 in
        if (s1 <? lo accept) || (hi accept <? s1) then (RuneError, 1)
        else if sz <=? 2 then ((s0 .& mask2) << 6 .| (s1 .& maskx), 2)
        else
          let s2 := tab s 2 in
          if (s2 <? locb) || (hicb <? s2) then (RuneError, 1)
          else if sz <=? 3 then ((s0 .& mask3) << 12 .| (s1 .& maskx) << 6 .| (s2 .& maskx), 3)
          else
            let s3 := tab s 3 in
            if (s3 <? locb) || (hicb <? s3) then (RuneError, 1)
            else ((s0 .& mask4) << 18 .| (s1 .& maskx) << 12 .| (s2 .& maskx) << 6 .| (s3 .& maskx), 4).
Definition DecodeRuneInString (s : list Z) : Z * Z :=
  if negb (zlen s =? 0) && (tab s 0 <? RuneSelf) then (tab s 0, 1)
  else decodeRuneInStringSlow s.

Definition RuneStart (b : Z) : bool := negb (b .& 0xC0 =? 0x80).

(** [for start--; start >= lim; start-- { if RuneStart(p[start]) { break } }],
    from the decremented [start]; at most [UTFMax] rounds. *)
Fixpoint back_to_start (fuel : nat) (p : list Z) (lim start : Z) : Z :=
  match fuel with
  | O => start
  | S fuel =>
      if start >=? lim then
        if RuneStart (tab p start) then start else back_to_start fuel p lim (start - 1)
      else start
  end.

Definition DecodeLastRune (p : list Z) : Z * Z :=
  let end_ := zlen p in
  if end_ =? 0 then (RuneError, 0)
  else
    let start := end_ - 1 in
    let r := tab p start in
    if r <? RuneSelf then (r, 1)
    else
      let lim := Z.max (end_ - UTFMax) 0 in
      let start := back_to_start 4 p lim (start - 1) in
      let start := if start <? 0 then 0 else start in
      let '(r, size) := DecodeRune (sub start end_ p) in
      if negb (start + size =? end_) then (RuneError, 1) else (r, size).
Definition DecodeLastRuneInString (s : list Z) : Z * Z :=
  let end_ := zlen s in
  if end_ =? 0 then (RuneError, 0)
  else
    let start := end_ - 1 in
    let r := tab s start in
    if r <? RuneSelf then (r, 1)
    else
      let lim := Z.max (end_ - UTFMax) 0 in
      let start := back_to_start 4 s lim (start - 1) in
      let start := if start <? 0 then 0 else start in
      let '(r, size) := DecodeRuneInString (sub start end_ s) in
      if negb (start + size =? end_) then (RuneError, 1) else (r, size).

(** ** Encoding *)

Definition RuneLen (r : Z) : Z :=
  if r <? 0 then -1
  else if r <=? rune1Max then 1
  else if r <=? rune2Max then 2
  else if (surrogateMin <=? r) && (r <=? surrogateMax) then -1
  else if r <=? rune3Max then 3
  else if r <=? MaxRune then 4
  else -1.

(** The buffer [p] is the store; [_ = p[1]] is a read. *)
Definition encodeRuneNonASCII (r : Z) : M (list Z) Z :=
  let i := u32 r in
  if i <=? rune2Max then
    load 1 ;;
    store 0 (t2 .| u8 (r >> 6)) ;;
    store 1 (tx .| u8 r .& maskx) ;;
    mret 2
  else if (i <? surrogateMin) || ((surrogateMax <? i) && (i <=? rune3Max)) then
    load 2 ;;
    store 0 (t3 .| u8 (r >> 12)) ;;
    store 1 (tx .| u8 (r >> 6) .& maskx) ;;
    store 2 (tx .| u8 r .& maskx) ;;
    mret 3
  else if (i >? rune3Max) && (i <=? MaxRune) then
    load 3 ;;
    store 0 (t4 .| u8 (r >> 18)) ;;
    store 1 (tx .| u8 (r >> 12) .& maskx) ;;
    store 2 (tx .| u8 (r >> 6) .& maskx) ;;
    store 3 (tx .| u8 r .& maskx) ;;
    mret 4
  else
    load 2 ;;
    store 0 runeErrorByte0 ;;
    store 1 runeErrorByte1 ;;
    store 2 runeErrorByte2 ;;
    mret 3.
Definition EncodeRune (r : Z) : M (list Z) Z :=
  if u32 r <=? rune1Max then store 0 (u8 r) ;; mret 1 else encodeRuneNonASCII r.

Definition appendRuneNonASCII (p : list Z) (r : Z) : list Z :=
  let i := u32 r in
  if i <=? rune2Max then p ++ [t2 .| u8 (r >> 6); tx .| u8 r .& maskx]
  else if (i <? surrogateMin) || ((surrogateMax <? i) && (i <=? rune3Max)) then
    p ++ [t3 .| u8 (r >> 12); tx .| u8 (r >> 6) .& maskx; tx .| u8 r .& maskx]
  else if (i >? rune3Max) && (i <=? MaxRune) then
    p ++ [t4 .| u8 (r >> 18); tx .| u8 (r >> 12) .& maskx; tx .| u8 (r >> 6) .& maskx; tx .| u8 r .& maskx]
  else p ++ [runeErrorByte0; runeErrorByte1; runeErrorByte2].
Definition AppendRune (p : list Z) (r : Z) : list Z :=
  if u32 r <=? rune1Max then p ++ [u8 r] else appendRuneNonASCII p r.

(** ** Counting and validation *)

(** [for range s { n++ }]: the language decodes one rune per iteration, as
    [DecodeRuneInString] does. *)
Fixpoint range_count (fuel : nat) (s : list Z) (n : Z) : option Z :=
  match fuel with
  | O => None
  | S fuel =>
      match s with
      | [] => Some n
      | _ => range_count fuel (drop (Z.to_nat (DecodeRuneInString s).2) s) (n + 1)
      end
  end.
Definition RuneCountInString (s : list Z) : option Z := range_count (S (length s)) s 0.

Fixpoint count_ascii (p : list Z) (n : Z) : Z * list Z :=
  match p with
  | c :: p' => if c >=? RuneSelf then (n, p) else count_ascii p' (n + 1)
  | [] => (n, [])
  end.
Definition RuneCount (p : list Z) : option Z :=
  match count_ascii p 0 with
  | (n, []) => Some n
  | (n, rest) => match RuneCountInString rest with Some c => Some (n + c) | None => None end
  end.

Definition ptrSize : Z := 4 << 1.
Definition hiBits : Z := 0x8080808080808080 >> (64 - 8 * ptrSize).
Definition word (s : list Z) : Z :=
  tab s 0 .| tab s 1 << 8 .| tab s 2 << 16 .| tab s 3 << 24 .| tab s 4 << 32 .| tab s 5 << 40 .| tab s 6 << 48 .| tab s 7 << 56.
(** [p[k:]] *)
Definition from (k : Z) (p : list Z) : list Z := drop (Z.to_nat k) p.

(** The innermost loop of [Valid]: four words at a time. *)
Fixpoint skip_words (fuel : nat) (p : list Z) : option (list Z) :=
  match fuel with
  | O => None
  | S fuel =>
      if (zlen p >? 4 * ptrSize) &&
         (((word p .| word (from ptrSize p)) .| (word (from (2 * ptrSize) p) .| word (from (3 * ptrSize) p))) .& hiBits =? 0)
      then skip_words fuel (from (4 * ptrSize) p)
      else Some p
  end.

(** One iteration of the loop of [Valid]: the rest of the input, or the
    result. *)
Definition valid_step (p : list Z) : option (list Z + bool) :=
  let p0 := tab p 0 in
  if p0 <? RuneSelf then
    let p := from 1 p in
    if (zlen p >? ptrSize) && (word p .& hiBits =? 0) then
      let p := from ptrSize p in
      if (zlen p >? 2 * ptrSize) && ((word p .| word (from ptrSize p)) .& hiBits =? 0) then
        match skip_words (S (length p)) (from (2 * ptrSize) p) with
        | Some p => Some (inl p)
        | None => None
        end
      else Some (inl p)
    else Some (inl p)
  else
    let x := tab first p0 in
    let size := x .& 7 in
    let accept := accept_at (x >> 4) in
    if size =? 2 then
      if (zlen p <? 2) || (tab p 1 <? lo accept) || (hi accept <? tab p 1) then Some (inr false)
      else Some (inl (from 2 p))
    else if size =? 3 then
      if (zlen p <? 3) || (tab p 1 <? lo accept) || (hi accept <? tab p 1) || (tab p 2 <? locb) || (hicb <? tab p 2)
      then Some (inr false)
      else Some (inl (from 3 p))
    else if size =? 4 then
      if (zlen p <? 4) || (tab p 1 <? lo accept) || (hi accept <? tab p 1) || (tab p 2 <? locb) || (hicb <? tab p 2)
         || (tab p 3 <? locb) || (hicb <? tab p 3)
      then Some (inr false)
      else Some (inl (from 4 p))
    else Some (inr false).
Fixpoint valid_loop (fuel : nat) (p : list Z) : option bool :=
  match fuel with
  | O => None
  | S fuel =>
      if zlen p >? 0 then
        match valid_step p with
        | Some (inl p) => valid_loop fuel p
        | Some (inr b) => Some b
        | None => None
        end
      else Some true
  end.
(** [Valid] and [ValidString] are the same text over [[]byte] and [string]. *)
Definition Valid (p : list Z) : option bool := valid_loop (S (length p)) p.
Definition ValidString (s : list Z) : option bool := valid_loop (S (length s)) s.

Definition ValidRune (r : Z) : bool :=
  if (0 <=? r) && (r <? surrogateMin) then true
  else if (surrogateMax <? r) && (r <=? MaxRune) then true
  else false.

Example decode_euro : DecodeRune [0xE2; 0x82; 0xAC; 0x41] = (0x20AC, 3).
Proof. reflexivity. Qed.
Example append_smile : AppendRune [] 0x1F600 = [0xF0; 0x9F; 0x98; 0x80].
Proof. reflexivity. Qed.
Example valid_mixed : Valid (replicate 40 0x41 ++ [0xE2; 0x82; 0xAC] ++ replicate 9 0x42) = Some true.
Proof. reflexivity. Qed.
