(* ===== verification/Utf8Spec.v ===== *)
(** * unicode/utf8 against the encoding of RFC 3629

    [utf8_bytes r] is the encoding of a valid code point, in arithmetic.  The
    lemmas relate to it the bit operations of the encoder and the tables and bit
    operations of the decoder. *)

From S2P Require Import Prelude.
From S2P Require Import Slice.
From S2P Require Import Bits.
From S2P Require Import BitsArith.
From S2P Require Import Utf8.

Definition utf8_bytes (r : Z) : list Z :=
  if r <? 0x80 then [r]
  else if r <? 0x800 then [0xC0 + r / 64; 0x80 + r mod 64]
  else if r <? 0x10000 then [0xE0 + r / 4096; 0x80 + r / 64 mod 64; 0x80 + r mod 64]
  else [0xF0 + r / 262144; 0x80 + r / 4096 mod 64; 0x80 + r / 64 mod 64; 0x80 + r mod 64].

Definition byte (b : Z) : Prop := 0 <= b < 256.
Definition valid_rune (r : Z) : Prop := 0 <= r < 0xD800 \/ 0xDFFF < r <= 0x10FFFF.

#[export] Instance valid_rune_dec r : Decision (valid_rune r).
Proof. unfold valid_rune. apply _. Defined.

Lemma ValidRune_spec r : ValidRune r = bool_decide (valid_rune r).
Proof.
  unfold ValidRune, valid_rune, surrogateMin, surrogateMax, MaxRune. case_bool_decide as H.
  - destruct (Z.leb_spec 0 r), (Z.ltb_spec r 0xD800), (Z.ltb_spec 0xDFFF r), (Z.leb_spec r 0x10FFFF); cbn; try done; lia.
  - destruct (Z.leb_spec 0 r), (Z.ltb_spec r 0xD800), (Z.ltb_spec 0xDFFF r), (Z.leb_spec r 0x10FFFF); cbn; try done; lia.
Qed.

(** [|] of numbers without a common bit. *)
Lemma lor_add n w z : 0 <= n -> 0 <= z < 2 ^ n -> w mod 2 ^ n = 0 -> w .| z = w + z.
Proof.
  intros Hn Hz Hw. assert (L : w .& z = 0).
  { apply Z.bits_inj'. intros i Hi. rewrite Z.land_spec, Z.bits_0. destruct (Z.lt_ge_cases i n).
    - rewrite <- (Z.mod_pow2_bits_low w n i) by lia. by rewrite Hw, Z.bits_0.
    - rewrite (bits_above n z i) by lia. apply andb_false_r. }
  by rewrite <- Z.lxor_lor, <- Z.add_nocarry_lxor.
Qed.

Lemma land_low n m x : 0 <= n -> m = 2 ^ n - 1 -> x .& m = x mod 2 ^ n.
Proof. intros Hn ->. by apply land_mask. Qed.

(** ** The encoder *)

Lemma byte_masked x : u8 x .& maskx = x mod 64.
Proof.
  rewrite (land_low 6) by done. unfold u8. change (2 ^ 8) with 256. change (2 ^ 6) with 64. divlia.
Qed.

Ltac arith_bits :=
  unfold tx, t2, t3, t4; rewrite ?byte_masked, ?shiftr_pow by lia;
  rewrite ?(lor_add 6 128), ?(lor_add 5 192), ?(lor_add 4 224), ?(lor_add 3 240)
    by first [done | apply Z.mod_pos_bound; lia | unfold u8; divlia].

Lemma AppendRune_valid p r : valid_rune r -> AppendRune p r = p ++ utf8_bytes r.
Proof.
  intros Hr. unfold valid_rune in Hr. unfold AppendRune, appendRuneNonASCII, utf8_bytes.
  rewrite !(u32_id r) by lia. unfold rune1Max, rune2Max, rune3Max, surrogateMin, surrogateMax, MaxRune.
  change (1 << 7 - 1) with 127. change (1 << 11 - 1) with 2047. change (1 << 16 - 1) with 65535. cbv zeta.
  destruct (Z.leb_spec r 127), (Z.ltb_spec r 0x80); try lia; [by rewrite u8_id by lia|].
  destruct (Z.leb_spec r 2047), (Z.ltb_spec r 0x800); try lia.
  { arith_bits. rewrite u8_id by divlia. done. }
  destruct (Z.ltb_spec r 0xD800), (Z.ltb_spec 0xDFFF r), (Z.leb_spec r 65535), (Z.ltb_spec r 0x10000); try lia; cbn [andb orb];
    try (arith_bits; rewrite u8_id by divlia; done).
  rewrite Z.gtb_ltb. destruct (Z.ltb_spec 65535 r), (Z.leb_spec r 0x10FFFF); try lia. cbn [andb].
  arith_bits. rewrite u8_id by divlia. done.
Qed.

Lemma u32_negative r : - 2 ^ 31 <= r < 0 -> 2 ^ 31 <= u32 r < 2 ^ 32.
Proof. unfold u32. intros. divlia. Qed.

Lemma AppendRune_invalid p r : is_int32 r -> ~ valid_rune r -> AppendRune p r = p ++ utf8_bytes RuneError.
Proof.
  unfold is_int32, valid_rune. intros Hb Hr. unfold AppendRune, appendRuneNonASCII.
  assert (Hu : 0xD800 <= u32 r <= 0xDFFF \/ 0x10FFFF < u32 r).
  { destruct (Z.lt_ge_cases r 0); [pose proof (u32_negative r); lia|rewrite u32_id by lia; lia]. }
  unfold rune1Max, rune2Max, rune3Max, surrogateMin, surrogateMax, MaxRune.
  change (1 << 7 - 1) with 127. change (1 << 11 - 1) with 2047. change (1 << 16 - 1) with 65535. cbv zeta. rewrite Z.gtb_ltb.
  destruct (Z.leb_spec (u32 r) 127); [lia|]. destruct (Z.leb_spec (u32 r) 2047); [lia|].
  destruct (Z.ltb_spec (u32 r) 0xD800), (Z.ltb_spec 0xDFFF (u32 r)), (Z.leb_spec (u32 r) 65535),
    (Z.ltb_spec 65535 (u32 r)), (Z.leb_spec (u32 r) 0x10FFFF); try lia; done.
Qed.

Definition encoded (r : Z) : list Z := utf8_bytes (if decide (valid_rune r) then r else RuneError).

Lemma AppendRune_spec p r : is_int32 r -> AppendRune p r = p ++ encoded r.
Proof.
  intros Hr. unfold encoded. case_decide; [by apply AppendRune_valid|by apply AppendRune_invalid].
Qed.

Lemma utf8_bytes_length r : 0 <= r -> 1 <= zlen (utf8_bytes r) <= 4.
Proof. unfold utf8_bytes, zlen. intros. repeat case_match; cbn; lia. Qed.
Lemma utf8_bytes_ne r : utf8_bytes r <> [].
Proof. unfold utf8_bytes. by repeat case_match. Qed.

Lemma utf8_bytes_byte r : valid_rune r -> Forall byte (utf8_bytes r).
Proof.
  unfold valid_rune, byte. intros Hr. unfold utf8_bytes.
  destruct (Z.ltb_spec r 0x80); [|destruct (Z.ltb_spec r 0x800); [|destruct (Z.ltb_spec r 0x10000)]]; repeat constructor; divlia.
Qed.

Lemma RuneLen_spec r : is_int32 r -> RuneLen r = if decide (valid_rune r) then zlen (utf8_bytes r) else -1.
Proof.
  unfold RuneLen, valid_rune, rune1Max, rune2Max, rune3Max, surrogateMin, surrogateMax, MaxRune, utf8_bytes.
  change (1 << 7 - 1) with 127. change (1 << 11 - 1) with 2047. change (1 << 16 - 1) with 65535. intros Hr.
  case_decide as Hv; destruct (Z.ltb_spec r 0), (Z.leb_spec r 127), (Z.leb_spec r 2047), (Z.leb_spec 0xD800 r), (Z.leb_spec r 0xDFFF),
    (Z.leb_spec r 65535), (Z.leb_spec r 0x10FFFF); try lia; try done;
    destruct (Z.ltb_spec r 0x80), (Z.ltb_spec r 0x800), (Z.ltb_spec r 0x10000); try lia; done.
Qed.

(** ** The decoder *)

Definition class_of (b : Z) : Z :=
  if b <? 0x80 then as_ else if b <? 0xC2 then xx else if b <? 0xE0 then s1
  else if b =? 0xE0 then s2 else if b =? 0xED then s4 else if b <? 0xF0 then s3
  else if b =? 0xF0 then s5 else if b <? 0xF4 then s6 else if b =? 0xF4 then s7 else xx.

Lemma first_class b : byte b -> tab first b = class_of b.
Proof.
  intros Hb. apply Z.eqb_eq. apply (forall_below 256 (fun b => tab first b =? class_of b)); [|exact Hb].
  by vm_compute.
Qed.

(** The second byte allowed after [b]. *)
Definition lo_after (b : Z) : Z := if b =? 0xE0 then 0xA0 else if b =? 0xF0 then 0x90 else 0x80.
Definition hi_after (b : Z) : Z := if b =? 0xED then 0x9F else if b =? 0xF4 then 0x8F else 0xBF.
Definition in_range (l h b : Z) : bool := (l <=? b) && (b <=? h).

(** The decoder in arithmetic. *)
Definition decode_arith (p : list Z) : Z * Z :=
  match p with
  | [] => (RuneError, 0)
  | b0 :: p =>
      if b0 <? 0x80 then (b0, 1)
      else if b0 <? 0xC2 then (RuneError, 1)
      else if b0 <? 0xE0 then
        match p with
        | b1 :: _ => if in_range 0x80 0xBF b1 then ((b0 - 0xC0) * 64 + (b1 - 0x80), 2) else (RuneError, 1)
        | _ => (RuneError, 1)
        end
      else if b0 <? 0xF0 then
        match p with
        | b1 :: b2 :: _ =>
            if in_range (lo_after b0) (hi_after b0) b1 && in_range 0x80 0xBF b2
            then ((b0 - 0xE0) * 4096 + (b1 - 0x80) * 64 + (b2 - 0x80), 3) else (RuneError, 1)
        | _ => (RuneError, 1)
        end
      else if b0 <? 0xF5 then
        match p with
        | b1 :: b2 :: b3 :: _ =>
            if in_range (lo_after b0) (hi_after b0) b1 && in_range 0x80 0xBF b2 && in_range 0x80 0xBF b3
            then ((b0 - 0xF0) * 262144 + (b1 - 0x80) * 4096 + (b2 - 0x80) * 64 + (b3 - 0x80), 4) else (RuneError, 1)
        | _ => (RuneError, 1)
        end
      else (RuneError, 1)
  end.

Lemma in_range_neg l h b : (b <? l) || (h <? b) = negb (in_range l h b).
Proof. unfold in_range. destruct (Z.ltb_spec b l), (Z.ltb_spec h b), (Z.leb_spec l b), (Z.leb_spec b h); cbn; try done; lia. Qed.
Lemma in_range_spec l h b : in_range l h b = true <-> l <= b <= h.
Proof. unfold in_range. rewrite andb_true_iff, !Z.leb_le. lia. Qed.

Lemma compose2 b0 b1 : 0xC0 <= b0 < 0xE0 -> 0x80 <= b1 <= 0xBF ->
  (b0 .& mask2) << 6 .| (b1 .& maskx) = (b0 - 0xC0) * 64 + (b1 - 0x80).
Proof.
  intros. rewrite (land_low 5 mask2), (land_low 6 maskx), shiftl_pow by done.
  rewrite (lor_add 6 (_ * _)); change (2 ^ 5) with 32; change (2 ^ 6) with 64; divlia.
Qed.
Lemma compose3 b0 b1 b2 : 0xE0 <= b0 < 0xF0 -> 0x80 <= b1 <= 0xBF -> 0x80 <= b2 <= 0xBF ->
  (b0 .& mask3) << 12 .| (b1 .& maskx) << 6 .| (b2 .& maskx) = (b0 - 0xE0) * 4096 + (b1 - 0x80) * 64 + (b2 - 0x80).
Proof.
  intros. rewrite (land_low 4 mask3), !(land_low 6 maskx), !shiftl_pow by done.
  change (2 ^ 12) with 4096. change (2 ^ 6) with 64. change (2 ^ 4) with 16.
  rewrite (lor_add 12 (_ * 4096)), (lor_add 6 (_ + _)); change (2 ^ 12) with 4096; change (2 ^ 6) with 64; divlia.
Qed.
Lemma compose4 b0 b1 b2 b3 : 0xF0 <= b0 < 0xF8 -> 0x80 <= b1 <= 0xBF -> 0x80 <= b2 <= 0xBF -> 0x80 <= b3 <= 0xBF ->
  (b0 .& mask4) << 18 .| (b1 .& maskx) << 12 .| (b2 .& maskx) << 6 .| (b3 .& maskx)
  = (b0 - 0xF0) * 262144 + (b1 - 0x80) * 4096 + (b2 - 0x80) * 64 + (b3 - 0x80).
Proof.
  intros. rewrite (land_low 3 mask4), !(land_low 6 maskx), !shiftl_pow by done.
  change (2 ^ 18) with 262144. change (2 ^ 12) with 4096. change (2 ^ 6) with 64. change (2 ^ 3) with 8.
  rewrite (lor_add 18 (_ * 262144)), (lor_add 12 (_ + _)), (lor_add 6 (_ + _));
    change (2 ^ 18) with 262144; change (2 ^ 12) with 4096; change (2 ^ 6) with 64; divlia.
Qed.

(** Closed arithmetic on the table entries. *)
Ltac entry :=
  repeat match goal with
  | |- context [accept_at ?x] => let v := eval vm_compute in (accept_at x) in change (accept_at x) with v
  | |- context [?c >=? as_] => let v := eval vm_compute in (c >=? as_) in change (c >=? as_) with v
  | |- context [?c .& 7] => let v := eval vm_compute in (c .& 7) in change (c .& 7) with v
  end; cbn [lo hi].

Lemma zlen_cons_pos {A} (x : A) l : (zlen (x :: l) <? 1) = false.
Proof. apply Z.ltb_ge. rewrite zlen_cons. pose proof (zlen_nonneg l). lia. Qed.
Lemma short_ge {A} k (l : list A) : (k <= length l)%nat -> (zlen l <? Z.of_nat k) = false.
Proof. intros. apply Z.ltb_ge. unfold zlen. lia. Qed.
Lemma short_lt {A} k (l : list A) : (length l < k)%nat -> (zlen l <? Z.of_nat k) = true.
Proof. intros. apply Z.ltb_lt. unfold zlen. lia. Qed.

Lemma tab_byte p i : Forall byte p -> byte (tab p i).
Proof.
  intros H. unfold tab. destruct (decide (Z.to_nat i < length p)%nat).
  - rewrite Forall_forall in H. apply H. apply list_elem_of_In. by apply nth_In.
  - rewrite nth_overflow by lia. unfold byte. lia.
Qed.

(** The branches for three and four bytes, for any range of the second byte. *)
Lemma tail3 b0 p l h :
  0xE0 <= b0 < 0xF0 -> 0x80 <= l -> h <= 0xBF ->
    (if zlen (b0 :: p) <? 3 then (RuneError, 1)
     else if (tab (b0 :: p) 1 <? l) || (h <? tab (b0 :: p) 1) then (RuneError, 1)
     else if 3 <=? 2 then ((b0 .& mask2) << 6 .| (tab (b0 :: p) 1 .& maskx), 2)
     else if (tab (b0 :: p) 2 <? locb) || (hicb <? tab (b0 :: p) 2) then (RuneError, 1)
     else if 3 <=? 3 then ((b0 .& mask3) << 12 .| (tab (b0 :: p) 1 .& maskx) << 6 .| (tab (b0 :: p) 2 .& maskx), 3)
     else if (tab (b0 :: p) 3 <? locb) || (hicb <? tab (b0 :: p) 3) then (RuneError, 1)
     else ((b0 .& mask4) << 18 .| (tab (b0 :: p) 1 .& maskx) << 12 .| (tab (b0 :: p) 2 .& maskx) << 6 .| (tab (b0 :: p) 3 .& maskx), 4)) =
    match p with
    | b1 :: b2 :: _ => if in_range l h b1 && in_range 0x80 0xBF b2
            then ((b0 - 0xE0) * 4096 + (b1 - 0x80) * 64 + (b2 - 0x80), 3) else (RuneError, 1)
    | _ => (RuneError, 1) end.
Proof.
  intros Hb1 Hl Hh. destruct p as [|b1 [|b2 p]]; [done..|]. rewrite (short_ge 3) by (cbn; lia).
  change (tab (b0 :: b1 :: b2 :: p) 1) with b1. change (tab (b0 :: b1 :: b2 :: p) 2) with b2. rewrite !in_range_neg.
  destruct (in_range l h b1) eqn:E1; [|done]. unfold locb, hicb. destruct (in_range 128 191 b2) eqn:E2; [|done].
  apply in_range_spec in E1, E2. cbn [negb andb]. by rewrite compose3 by lia.
Qed.

Lemma tail4 b0 p l h :
  0xF0 <= b0 < 0xF5 -> 0x80 <= l -> h <= 0xBF ->
    (if zlen (b0 :: p) <? 4 then (RuneError, 1)
     else if (tab (b0 :: p) 1 <? l) || (h <? tab (b0 :: p) 1) then (RuneError, 1)
     else if 4 <=? 2 then ((b0 .& mask2) << 6 .| (tab (b0 :: p) 1 .& maskx), 2)
     else if (tab (b0 :: p) 2 <? locb) || (hicb <? tab (b0 :: p) 2) then (RuneError, 1)
     else if 4 <=? 3 then ((b0 .& mask3) << 12 .| (tab (b0 :: p) 1 .& maskx) << 6 .| (tab (b0 :: p) 2 .& maskx), 3)
     else if (tab (b0 :: p) 3 <? locb) || (hicb <? tab (b0 :: p) 3) then (RuneError, 1)
     else ((b0 .& mask4) << 18 .| (tab (b0 :: p) 1 .& maskx) << 12 .| (tab (b0 :: p) 2 .& maskx) << 6 .| (tab (b0 :: p) 3 .& maskx), 4)) =
    match p with
    | b1 :: b2 :: b3 :: _ => if in_range l h b1 && in_range 0x80 0xBF b2 && in_range 0x80 0xBF b3
            then ((b0 - 0xF0) * 262144 + (b1 - 0x80) * 4096 + (b2 - 0x80) * 64 + (b3 - 0x80), 4) else (RuneError, 1)
    | _ => (RuneError, 1) end.
Proof.
  intros Hb1 Hl Hh. destruct p as [|b1 [|b2 [|b3 p]]]; [done..|]. rewrite (short_ge 4) by (cbn; lia).
  change (tab (b0 :: b1 :: b2 :: b3 :: p) 1) with b1. change (tab (b0 :: b1 :: b2 :: b3 :: p) 2) with b2.
  change (tab (b0 :: b1 :: b2 :: b3 :: p) 3) with b3. rewrite !in_range_neg.
  destruct (in_range l h b1) eqn:E1; [|done]. unfold locb, hicb. destruct (in_range 128 191 b2) eqn:E2; [|done].
  destruct (in_range 128 191 b3) eqn:E3; [|done]. apply in_range_spec in E1, E2, E3. cbn [negb andb]. by rewrite compose4 by lia.
Qed.

(** The mask is all ones for an invalid first byte. *)
Lemma invalid_result b0 :
  (let mask := int32 (xx << 31) >> 31 in (Z.ldiff b0 mask .| RuneError .& mask, 1)) = (RuneError, 1).
Proof. change (int32 (xx << 31) >> 31) with (-1). cbv zeta. by rewrite Z.ldiff_m1_r. Qed.

Lemma decodeRuneSlow_arith b0 p :
  Forall byte (b0 :: p) -> 0x80 <= b0 -> decodeRuneSlow (b0 :: p) = decode_arith (b0 :: p).
Proof.
  intros Hp Hb0. pose proof Hp as [Hb Hp']%Forall_cons. unfold byte in Hb.
  unfold decodeRuneSlow. rewrite zlen_cons_pos. change (tab (b0 :: p) 0) with b0. cbv zeta. rewrite first_class by done.
  unfold class_of, decode_arith, lo_after, hi_after.
  destruct (Z.ltb_spec b0 0x80); [lia|]. destruct (Z.ltb_spec b0 0xC2); [entry; by apply invalid_result|].
  destruct (Z.ltb_spec b0 0xE0).
  { entry. destruct p as [|b1 p]; [done|]. rewrite (short_ge 2) by (cbn; lia). change (tab (b0 :: b1 :: p) 1) with b1.
    rewrite in_range_neg. destruct (in_range 128 191 b1) eqn:E1; [|done]. apply in_range_spec in E1. cbn [negb Z.leb].
    by rewrite compose2 by lia. }
  destruct (Z.eqb_spec b0 0xE0), (Z.eqb_spec b0 0xED), (Z.ltb_spec b0 0xF0), (Z.eqb_spec b0 0xF0), (Z.ltb_spec b0 0xF4),
    (Z.eqb_spec b0 0xF4), (Z.ltb_spec b0 0xF5); try lia; entry;
    first [apply tail3; lia|apply tail4; lia|apply invalid_result].
Qed.

Lemma DecodeRune_arith p : Forall byte p -> DecodeRune p = decode_arith p.
Proof.
  intros Hp. destruct p as [|b p]; [done|]. unfold DecodeRune, RuneSelf.
  destruct (Z.ltb_spec b 0x80) as [Hb|Hb]; [|by apply decodeRuneSlow_arith].
  unfold decode_arith. by destruct (Z.ltb_spec b 0x80); [|lia].
Qed.
Lemma DecodeRuneInString_eq s : DecodeRuneInString s = DecodeRune s.
Proof.
  destruct s as [|b s]; [done|]. unfold DecodeRuneInString, DecodeRune.
  destruct (Z.eqb_spec (zlen (b :: s)) 0) as [E|_]; [rewrite zlen_cons in E; pose proof (zlen_nonneg s); lia|]. done.
Qed.

(** The decoder finds every encoding... *)
Lemma decode_complete r rest :
  valid_rune r -> decode_arith (utf8_bytes r ++ rest) = (r, zlen (utf8_bytes r)).
Proof.
  intros Hr. unfold valid_rune in Hr. unfold utf8_bytes.
  destruct (Z.ltb_spec r 0x80); [|destruct (Z.ltb_spec r 0x800); [|destruct (Z.ltb_spec r 0x10000)]]; unfold decode_arith; cbn [app].
  - by destruct (Z.ltb_spec r 0x80); [|lia].
  - destruct (Z.ltb_spec (0xC0 + r / 64) 0x80), (Z.ltb_spec (0xC0 + r / 64) 0xC2), (Z.ltb_spec (0xC0 + r / 64) 0xE0); try divlia.
    rewrite (proj2 (in_range_spec _ _ _)) by divlia. f_equal. divlia.
  - destruct (Z.ltb_spec (0xE0 + r / 4096) 0x80), (Z.ltb_spec (0xE0 + r / 4096) 0xC2), (Z.ltb_spec (0xE0 + r / 4096) 0xE0),
      (Z.ltb_spec (0xE0 + r / 4096) 0xF0); try divlia.
    rewrite !(proj2 (in_range_spec _ _ _)); [f_equal; divlia|divlia|].
    unfold lo_after, hi_after.
    destruct (Z.eqb_spec (0xE0 + r / 4096) 0xE0), (Z.eqb_spec (0xE0 + r / 4096) 0xF0), (Z.eqb_spec (0xE0 + r / 4096) 0xED),
      (Z.eqb_spec (0xE0 + r / 4096) 0xF4); divlia.
  - destruct (Z.ltb_spec (0xF0 + r / 262144) 0x80), (Z.ltb_spec (0xF0 + r / 262144) 0xC2), (Z.ltb_spec (0xF0 + r / 262144) 0xE0),
      (Z.ltb_spec (0xF0 + r / 262144) 0xF0), (Z.ltb_spec (0xF0 + r / 262144) 0xF5); try divlia.
    rewrite !(proj2 (in_range_spec _ _ _)); [f_equal; divlia|divlia|divlia|].
    unfold lo_after, hi_after.
    destruct (Z.eqb_spec (0xF0 + r / 262144) 0xE0), (Z.eqb_spec (0xF0 + r / 262144) 0xF0), (Z.eqb_spec (0xF0 + r / 262144) 0xED),
      (Z.eqb_spec (0xF0 + r / 262144) 0xF4); divlia.
Qed.

(** ... and nothing else. *)
Definition decodes p r : Prop :=
  valid_rune r /\ (exists rest, p = utf8_bytes r ++ rest) /\ decode_arith p = (r, zlen (utf8_bytes r)).

Lemma decode2_sound b0 b1 p : 0xC2 <= b0 < 0xE0 -> 0x80 <= b1 <= 0xBF ->
  let r := (b0 - 0xC0) * 64 + (b1 - 0x80) in valid_rune r /\ b0 :: b1 :: p = utf8_bytes r ++ p.
Proof.
  intros H0 H1 r. assert (Hr : 0x80 <= r < 0x800) by (unfold r; lia). split; [unfold valid_rune; lia|].
  unfold utf8_bytes. destruct (Z.ltb_spec r 0x80), (Z.ltb_spec r 0x800); try lia. cbn [app]. unfold r.
  repeat f_equal; divlia.
Qed.
Lemma decode3_sound b0 b1 b2 p :
  0xE0 <= b0 < 0xF0 -> lo_after b0 <= b1 <= hi_after b0 -> 0x80 <= b2 <= 0xBF ->
  let r := (b0 - 0xE0) * 4096 + (b1 - 0x80) * 64 + (b2 - 0x80) in valid_rune r /\ b0 :: b1 :: b2 :: p = utf8_bytes r ++ p.
Proof.
  intros H0 H1 H2 r. unfold lo_after, hi_after in H1.
  assert (Hr : 0x800 <= r < 0x10000 /\ ~ (0xD800 <= r <= 0xDFFF) /\ 0x80 <= b1 <= 0xBF).
  { unfold r. destruct (Z.eqb_spec b0 0xE0), (Z.eqb_spec b0 0xED), (Z.eqb_spec b0 0xF0), (Z.eqb_spec b0 0xF4); lia. }
  split; [unfold valid_rune; lia|]. unfold utf8_bytes.
  destruct (Z.ltb_spec r 0x80), (Z.ltb_spec r 0x800), (Z.ltb_spec r 0x10000); try lia. cbn [app]. unfold r.
  clear H1. repeat f_equal; divlia.
Qed.
Lemma decode4_sound b0 b1 b2 b3 p :
  0xF0 <= b0 < 0xF5 -> lo_after b0 <= b1 <= hi_after b0 -> 0x80 <= b2 <= 0xBF -> 0x80 <= b3 <= 0xBF ->
  let r := (b0 - 0xF0) * 262144 + (b1 - 0x80) * 4096 + (b2 - 0x80) * 64 + (b3 - 0x80) in
  valid_rune r /\ b0 :: b1 :: b2 :: b3 :: p = utf8_bytes r ++ p.
Proof.
  intros H0 H1 H2 H3 r. unfold lo_after, hi_after in H1.
  assert (Hr : 0x10000 <= r <= 0x10FFFF /\ 0x80 <= b1 <= 0xBF).
  { unfold r. destruct (Z.eqb_spec b0 0xE0), (Z.eqb_spec b0 0xED), (Z.eqb_spec b0 0xF0), (Z.eqb_spec b0 0xF4); lia. }
  split; [unfold valid_rune; lia|]. unfold utf8_bytes.
  destruct (Z.ltb_spec r 0x80), (Z.ltb_spec r 0x800), (Z.ltb_spec r 0x10000); try lia. cbn [app]. unfold r.
  clear H1. repeat f_equal; divlia.
Qed.

Lemma decodes_intro p r rest : valid_rune r -> p = utf8_bytes r ++ rest -> decodes p r.
Proof. intros Hr ->. split_and!; [done|by exists rest|by apply decode_complete]. Qed.

Lemma decode_sound p :
  Forall byte p -> p <> [] -> decode_arith p = (RuneError, 1) \/ exists r, decodes p r.
Proof.
  intros Hp Hne. destruct p as [|b0 p]; [done|]. apply Forall_cons in Hp as [Hb0 Hp]. unfold byte in Hb0.
  unfold decode_arith. destruct (Z.ltb_spec b0 0x80).
  { right. exists b0. apply (decodes_intro _ _ p); [unfold valid_rune; lia|]. unfold utf8_bytes. by destruct (Z.ltb_spec b0 0x80); [|lia]. }
  destruct (Z.ltb_spec b0 0xC2); [by left|]. destruct (Z.ltb_spec b0 0xE0); [|destruct (Z.ltb_spec b0 0xF0); [|destruct (Z.ltb_spec b0 0xF5); [|by left]]].
  - destruct p as [|b1 p]; [by left|]. destruct (in_range 0x80 0xBF b1) eqn:E1; [|by left]. apply in_range_spec in E1.
    destruct (decode2_sound b0 b1 p) as [Hr Hb]; [lia..|]. right. eexists. by eapply decodes_intro.
  - destruct p as [|b1 [|b2 p]]; [by left..|]. destruct (in_range (lo_after b0) (hi_after b0) b1 && in_range 0x80 0xBF b2) eqn:E1; [|by left].
    reflect. rewrite in_range_spec in *. destruct (decode3_sound b0 b1 b2 p) as [Hr Hb]; [lia..|]. right. eexists. by eapply decodes_intro.
  - destruct p as [|b1 [|b2 [|b3 p]]]; [by left..|].
    destruct (in_range (lo_after b0) (hi_after b0) b1 && in_range 0x80 0xBF b2 && in_range 0x80 0xBF b3) eqn:E1; [|by left].
    reflect. rewrite in_range_spec in *. destruct (decode4_sound b0 b1 b2 b3 p) as [Hr Hb]; [lia..|]. right. eexists. by eapply decodes_intro.
Qed.

(** Decoding is determined by the encodings a text starts with. *)
Lemma decode_dec p : Forall byte p -> p <> [] ->
  (exists r, decodes p r) \/ (decode_arith p = (RuneError, 1) /\ forall r rest, valid_rune r -> p <> utf8_bytes r ++ rest).
Proof.
  intros Hp Hne. destruct (decode_sound p Hp Hne) as [He|]; [|by left]. right. split; [done|]. intros r rest Hr ->.
  rewrite decode_complete in He by done. injection He as -> He. discriminate He.
Qed.
