(* ===== verification/Utf8Text.v ===== *)
(** * unicode/utf8: whole texts

    [utf8_text p]: [p] is the concatenation of the encodings of valid code
    points.  [Valid] (with its word-wise fast path) decides it, [RuneCount]
    counts them. *)

From S2P Require Import Prelude.
From S2P Require Import Slice.
From S2P Require Import Bits.
From S2P Require Import BitsArith.
From S2P Require Import BitsCounting.
From S2P Require Import Utf8.
From S2P Require Import Utf8Spec.

Definition encode_all (rs : list Z) : list Z := concat (utf8_bytes <$> rs).
Definition utf8_text (p : list Z) : Prop := exists rs, Forall valid_rune rs /\ p = encode_all rs.
Definition ascii (b : Z) : Prop := 0 <= b < 0x80.

Lemma utf8_text_nil : utf8_text [].
Proof. by exists []. Qed.

Lemma utf8_text_cons r p : valid_rune r -> utf8_text (utf8_bytes r ++ p) <-> utf8_text p.
Proof.
  intros Hr. split.
  - intros ([|r' rs] & Hrs & E).
    + destruct (utf8_bytes r) eqn:Hb; [by apply utf8_bytes_ne in Hb|done].
    + apply Forall_cons in Hrs as [Hr' Hrs]. pose proof (decode_complete r p Hr) as D. rewrite E in D.
      unfold encode_all in D, E. cbn [fmap list_fmap concat] in D, E. rewrite decode_complete in D by done. injection D as <- _.
      apply app_inv_head in E as ->. by exists rs.
  - intros (rs & Hrs & ->). exists (r :: rs). split; [by constructor|done].
Qed.

Lemma utf8_text_ascii q p : Forall ascii q -> utf8_text (q ++ p) <-> utf8_text p.
Proof.
  induction 1 as [|b q Hb Hq IH]; [done|]. rewrite <- IH, <- (utf8_text_cons b (q ++ p)) by (unfold ascii, valid_rune in *; lia).
  unfold utf8_bytes, ascii in *. by destruct (Z.ltb_spec b 0x80); [|lia].
Qed.

Lemma utf8_text_decode p : p <> [] -> utf8_text p -> exists r, decodes p r.
Proof.
  intros Hne ([|r rs] & Hrs & ->); [done|]. apply Forall_cons in Hrs as [Hr Hrs]. exists r.
  by eapply decodes_intro.
Qed.

(** ** The fast path *)

Lemma lor_add' n z w : 0 <= n -> 0 <= z < 2 ^ n -> w mod 2 ^ n = 0 -> z .| w = z + w.
Proof. intros. rewrite Z.lor_comm, (lor_add n) by done. lia. Qed.

Lemma word_val b0 b1 b2 b3 b4 b5 b6 b7 p :
  Forall byte [b0; b1; b2; b3; b4; b5; b6; b7] ->
  word (b0 :: b1 :: b2 :: b3 :: b4 :: b5 :: b6 :: b7 :: p) = val [b0; b1; b2; b3; b4; b5; b6; b7].
Proof.
  unfold byte. rewrite !Forall_cons. intros (H0 & H1 & H2 & H3 & H4 & H5 & H6 & H7 & _). 
  change (word _) with (b0 .| b1 << 8 .| b2 << 16 .| b3 << 24 .| b4 << 32 .| b5 << 40 .| b6 << 48 .| b7 << 56).
  rewrite !shiftl_pow by lia.
  rewrite (lor_add' 8 b0), (lor_add' 16 (_ + _)), (lor_add' 24 (_ + _)), (lor_add' 32 (_ + _)), (lor_add' 40 (_ + _)),
    (lor_add' 48 (_ + _)), (lor_add' 56 (_ + _));
    try lia; try (apply Z.mod_divide; [lia|]; eexists; reflexivity).
  cbn [val]. lia.
Qed.

Lemma high_bit_clear d : byte d -> d .& 0x80 = 0 -> ascii d.
Proof.
  intros Hd H0. pose proof (forall_below 256 (fun d => negb (d .& 0x80 =? 0) || (d <? 0x80)) ltac:(by vm_compute) d Hd) as E.
  cbn beta in E. unfold ascii, byte in *. reflect. destruct E; reflect; lia.
Qed.

Lemma val_land_high ds : Forall byte ds -> val ds .& val (replicate (length ds) 0x80) = 0 -> Forall ascii ds.
Proof.
  induction 1 as [|d ds Hd Hds IH]; [by constructor|]. cbn [val length replicate].
  rewrite byte_land by (unfold byte in Hd; lia). intros E.
  assert (0 <= d .& 0x80) by (apply Z.land_nonneg; right; lia).
  assert (0 <= val ds .& val (replicate (length ds) 0x80)).
  { apply Z.land_nonneg. right. clear. induction (length ds); cbn [replicate val]; lia. }
  constructor; [apply high_bit_clear; [done|lia]|apply IH; lia].
Qed.

Lemma word_ascii p : Forall byte p -> (8 <= length p)%nat -> word p .& hiBits = 0 -> Forall ascii (take 8 p).
Proof.
  intros Hp Hl H. do 8 (destruct p as [|?b p]; [cbn in Hl; lia|]). cbn [take].
  rewrite !Forall_cons in Hp. rewrite word_val in H by (rewrite !Forall_cons; naive_solver).
  change hiBits with (val (replicate (length [b; b0; b1; b2; b3; b4; b5; b6]) 0x80)) in H.
  apply val_land_high; [rewrite !Forall_cons; naive_solver|done].
Qed.

Lemma lor_land_0 a b m : (a .| b) .& m = 0 -> a .& m = 0 /\ b .& m = 0.
Proof. rewrite Z.land_lor_distr_l. intros H. by apply Z.lor_eq_0_iff in H. Qed.

(** [skips q p p']: [p'] is what is left of [p] after some ASCII bytes. *)
Definition skips (p p' : list Z) : Prop := exists q, p = q ++ p' /\ Forall ascii q.

Lemma skips_refl p : skips p p.
Proof. by exists []. Qed.
Lemma skips_trans p p' p'' : skips p p' -> skips p' p'' -> skips p p''.
Proof. intros (q & -> & H) (q' & -> & H'). exists (q ++ q'). split; [by rewrite app_assoc|by apply Forall_app]. Qed.
Lemma skips_text p p' : skips p p' -> utf8_text p <-> utf8_text p'.
Proof. intros (q & -> & H). by apply utf8_text_ascii. Qed.
Lemma skips_byte p p' : skips p p' -> Forall byte p -> Forall byte p'.
Proof. intros (q & -> & _). by intros [_ ?]%Forall_app. Qed.
Lemma skips_length p p' : skips p p' -> (length p' <= length p)%nat.
Proof. intros (q & -> & _). rewrite length_app. lia. Qed.

Lemma skips_word p : Forall byte p -> 8 <= zlen p -> word p .& hiBits = 0 -> skips p (from ptrSize p).
Proof.
  intros Hp Hl H. exists (take 8 p). split; [symmetry; apply take_drop|].
  apply word_ascii; [done|unfold zlen in Hl; lia|done].
Qed.

Lemma from_from a b p : 0 <= a -> 0 <= b -> from a (from b p) = from (a + b) p.
Proof. intros. unfold from. rewrite drop_drop. f_equal. lia. Qed.
Lemma zlen_from k p : 0 <= k <= zlen p -> zlen (from k p) = zlen p - k.
Proof. unfold zlen, from. intros. rewrite length_drop. lia. Qed.

Lemma skips_words n p :
  Forall byte p -> 0 <= n -> 8 * n <= zlen p ->
  (forall i, 0 <= i < n -> word (from (8 * i) p) .& hiBits = 0) -> skips p (from (8 * n) p).
Proof.
  intros Hp Hn. rewrite <- (Z2Nat.id n) by done. generalize (Z.to_nat n) as k. clear n Hn.
  induction k as [|k IH]; [intros; apply skips_refl|]. rewrite Nat2Z.inj_succ. unfold Z.succ. set (n := Z.of_nat k) in *.
  intros Hl H. eapply skips_trans; [apply IH; [lia|intros; apply H; lia]|].
  replace (8 * (n + 1)) with (8 + 8 * n) by lia. rewrite <- from_from by lia.
  apply skips_word; [|rewrite zlen_from by lia; lia|apply H; lia].
  unfold from. by apply Forall_drop.
Qed.

Lemma skip_words_spec fuel p :
  Forall byte p -> (length p < fuel)%nat -> exists p', skip_words fuel p = Some p' /\ skips p p'.
Proof.
  revert p. induction fuel as [|fuel IH]; intros p Hp Hf; [lia|]. cbn [skip_words]. change (4 * ptrSize) with 32.
  change (2 * ptrSize) with 16. change (3 * ptrSize) with 24. change ptrSize with 8.
  destruct (_ && _) eqn:E; [|exists p; split; [done|apply skips_refl]]. apply andb_prop in E as [Hl Hw]. reflect.
  apply lor_land_0 in Hw as [W01 W23].
  apply lor_land_0 in W01 as [W0 W1], W23 as [W2 W3].
  assert (S4 : skips p (from 32 p)).
  { apply (skips_words 4); [done|lia|lia|]. intros i Hi.
    assert (i = 0 \/ i = 1 \/ i = 2 \/ i = 3) as [->|[->|[->| ->]]] by lia; done. }
  destruct (IH (from 32 p)) as (p' & E' & S').
  - by eapply skips_byte.
  - unfold from, zlen in *. rewrite length_drop. lia.
  - exists p'. split; [done|]. by eapply skips_trans.
Qed.

(** ** Valid *)

Lemma valid_step_ascii p :
  Forall byte p -> p <> [] -> tab p 0 < 0x80 ->
  exists p', valid_step p = Some (inl p') /\ skips p p' /\ (length p' < length p)%nat.
Proof.
  intros Hp Hne H0. destruct p as [|b p]; [done|]. change (tab (b :: p) 0) with b in H0.
  apply Forall_cons in Hp as [Hb Hp]. unfold valid_step. change (tab (b :: p) 0) with b. unfold RuneSelf.
  destruct (Z.ltb_spec b 0x80); [|lia]. change (from 1 (b :: p)) with p. change (2 * ptrSize) with 16. cbv zeta.
  assert (Hgen : forall p', skips p p' -> skips (b :: p) p' /\ (length p' < length (b :: p))%nat).
  { intros p' Hs. split; [|apply skips_length in Hs; cbn; lia]. eapply skips_trans; [|exact Hs].
    exists [b]. split; [done|]. repeat constructor; unfold byte in Hb; lia. }
  destruct ((zlen p >? ptrSize) && (word p .& hiBits =? 0)) eqn:E1; [|exists p; split; [done|apply Hgen, skips_refl]].
  apply andb_prop in E1 as [Hl1 Hw1]. change ptrSize with 8 in *. reflect.
  assert (S1 : skips p (from 8 p)) by (apply skips_word; [done|lia|done]).
  assert (B1 : Forall byte (from 8 p)) by (by eapply skips_byte).
  set (q := from 8 p) in *. destruct ((zlen q >? 16) && _) eqn:E2; [|exists q; split; [done|by apply Hgen]].
  apply andb_prop in E2 as [Hl2 Hw2]. reflect. apply lor_land_0 in Hw2 as [W0 W1].
  assert (S2 : skips q (from 16 q)).
  { apply (skips_words 2); [done|lia|lia|]. intros i Hi. assert (i = 0 \/ i = 1) as [->| ->] by lia; done. }
  destruct (skip_words_spec (S (length q)) (from 16 q)) as (p' & -> & S3).
  - by eapply skips_byte.
  - apply skips_length in S2. lia.
  - exists p'. split; [done|]. apply Hgen. eapply skips_trans; [exact S1|]. by eapply skips_trans.
Qed.

(** The tests of the three- and four-byte branches, for any range of the
    second byte. *)
Lemma valid_tail3 b0 p l h :
  (if (zlen (b0 :: p) <? 3) || (tab (b0 :: p) 1 <? l) || (h <? tab (b0 :: p) 1) || (tab (b0 :: p) 2 <? locb) || (hicb <? tab (b0 :: p) 2)
   then Some (inr false) else Some (inl (from 3 (b0 :: p)))) =
  match p with
  | b1 :: b2 :: _ => if in_range l h b1 && in_range 0x80 0xBF b2 then Some (inl (from 3 (b0 :: p))) else Some (inr false)
  | _ => Some (inr false)
  end.
Proof.
  destruct p as [|b1 [|b2 p]]; [done..|]. rewrite (short_ge 3) by (cbn; lia).
  change (tab (b0 :: b1 :: b2 :: p) 1) with b1. change (tab (b0 :: b1 :: b2 :: p) 2) with b2. cbn [orb].
  unfold locb, hicb. rewrite <- !orb_assoc, (orb_assoc (b1 <? l)), !in_range_neg. by destruct (in_range l h b1), (in_range 128 191 b2).
Qed.
Lemma valid_tail4 b0 p l h :
  (if (zlen (b0 :: p) <? 4) || (tab (b0 :: p) 1 <? l) || (h <? tab (b0 :: p) 1) || (tab (b0 :: p) 2 <? locb) || (hicb <? tab (b0 :: p) 2)
      || (tab (b0 :: p) 3 <? locb) || (hicb <? tab (b0 :: p) 3)
   then Some (inr false) else Some (inl (from 4 (b0 :: p)))) =
  match p with
  | b1 :: b2 :: b3 :: _ =>
      if in_range l h b1 && in_range 0x80 0xBF b2 && in_range 0x80 0xBF b3 then Some (inl (from 4 (b0 :: p))) else Some (inr false)
  | _ => Some (inr false)
  end.
Proof.
  destruct p as [|b1 [|b2 [|b3 p]]]; [done..|]. rewrite (short_ge 4) by (cbn; lia).
  change (tab (b0 :: b1 :: b2 :: b3 :: p) 1) with b1. change (tab (b0 :: b1 :: b2 :: b3 :: p) 2) with b2.
  change (tab (b0 :: b1 :: b2 :: b3 :: p) 3) with b3. cbn [orb].
  unfold locb, hicb. rewrite <- !orb_assoc, (orb_assoc (b1 <? l)), (orb_assoc (b2 <? 128)), !in_range_neg.
  by destruct (in_range l h b1), (in_range 128 191 b2), (in_range 128 191 b3).
Qed.

Lemma valid_step_multi p :
  Forall byte p -> p <> [] -> 0x80 <= tab p 0 ->
  valid_step p = if (decode_arith p).2 =? 1 then Some (inr false) else Some (inl (from (decode_arith p).2 p)).
Proof.
  intros Hp Hne Hm. destruct p as [|b0 p]; [done|]. change (tab (b0 :: p) 0) with b0 in Hm. pose proof Hp as [Hb Hp']%Forall_cons.
  unfold valid_step. change (tab (b0 :: p) 0) with b0. unfold RuneSelf. destruct (Z.ltb_spec b0 0x80); [lia|].
  rewrite first_class by done. unfold byte in Hb. unfold class_of, decode_arith, lo_after, hi_after. cbv zeta.
  destruct (Z.ltb_spec b0 0x80); [lia|]. destruct (Z.ltb_spec b0 0xC2); [done|].
  destruct (Z.ltb_spec b0 0xE0).
  { entry. destruct p as [|b1 p]; [done|]. rewrite (short_ge 2) by (cbn; lia). change (tab (b0 :: b1 :: p) 1) with b1.
    cbn [orb]. rewrite in_range_neg. by destruct (in_range 128 191 b1). }
  destruct (Z.eqb_spec b0 0xE0), (Z.eqb_spec b0 0xED), (Z.ltb_spec b0 0xF0), (Z.eqb_spec b0 0xF0), (Z.ltb_spec b0 0xF4),
    (Z.eqb_spec b0 0xF4), (Z.ltb_spec b0 0xF5); try lia; entry; cbn [Z.eqb Pos.eqb]; rewrite ?valid_tail3, ?valid_tail4; try done.
  all: destruct p as [|b1 [|b2 p]]; try done; try (destruct (_ && _); done); destruct p as [|b3 p]; try done; by destruct (_ && _).
Qed.

Lemma valid_loop_spec fuel p :
  Forall byte p -> (length p < fuel)%nat -> exists b, valid_loop fuel p = Some b /\ (b = true <-> utf8_text p).
Proof.
  revert p. induction fuel as [|fuel IH]; intros p Hp Hf; [lia|]. cbn [valid_loop]. destruct p as [|b0 p].
  { exists true. split; [done|]. split; [intros _; apply utf8_text_nil|done]. }
  rewrite Z.gtb_ltb. rewrite zlen_cons. destruct (Z.ltb_spec 0 (zlen p + 1)); [|pose proof (zlen_nonneg p); lia].
  destruct (Z.lt_ge_cases (tab (b0 :: p) 0) 0x80) as [Ha|Hm].
  - destruct (valid_step_ascii (b0 :: p)) as (p' & -> & Hs & Hlen); [done..|].
    destruct (IH p') as (b & -> & Hb); [by eapply skips_byte|lia|]. exists b. split; [done|]. by rewrite (skips_text _ _ Hs).
  - rewrite valid_step_multi by done. destruct (decode_dec (b0 :: p)) as [(r & Hr & (rest & E) & ->)|[-> Hno]]; [done..| |].
    + cbn [snd]. assert (E1 : zlen (utf8_bytes r) <> 1).
      { unfold utf8_bytes in *. destruct (Z.ltb_spec r 0x80); [|by destruct (r <? 0x800), (r <? 0x10000)].
        cbn in E. injection E as -> _. change (tab (r :: p) 0) with r in Hm. lia. }
      apply Z.eqb_neq in E1 as ->. assert (from (zlen (utf8_bytes r)) (b0 :: p) = rest) as ->.
      { rewrite E. unfold from, zlen. by rewrite Nat2Z.id, drop_app_length. }
      destruct (IH rest) as (b & -> & Hb).
      * rewrite E in Hp. by apply Forall_app in Hp as [_ ?].
      * pose proof (utf8_bytes_length r). assert (0 <= r) by (unfold valid_rune in Hr; lia). apply (f_equal length) in E.
        rewrite length_app in E. unfold zlen in *. lia.
      * exists b. split; [done|]. by rewrite Hb, E, utf8_text_cons.
    + exists false. split; [done|]. split; [done|]. intros Ht. apply utf8_text_decode in Ht as (r & Hr & (rest & E) & _); [|done].
      by apply Hno in E.
Qed.

(** ** Counting *)

Lemma range_count_encode fuel rs n :
  Forall valid_rune rs -> (length rs < fuel)%nat -> range_count fuel (encode_all rs) n = Some (n + zlen rs).
Proof.
  revert rs n. induction fuel as [|fuel IH]; intros rs n Hrs Hf; [lia|]. cbn [range_count].
  destruct Hrs as [|r rs Hr Hrs]; [cbn; rewrite zlen_nil; f_equal; lia|].
  unfold encode_all. cbn [fmap list_fmap concat]. destruct (utf8_bytes r ++ _) as [|b p] eqn:E.
  { apply app_eq_nil in E as [E _]. by apply utf8_bytes_ne in E. }
  rewrite <- E, DecodeRuneInString_eq, DecodeRune_arith.
  - rewrite decode_complete by done. cbn [snd]. unfold zlen at 1. rewrite Nat2Z.id, drop_app_length.
    fold (encode_all rs). rewrite IH by (done || (cbn in Hf; lia)). rewrite zlen_cons. f_equal. lia.
  - clear -Hr Hrs. apply Forall_app. split; [by apply utf8_bytes_byte|]. induction Hrs as [|r' rs' Hr' Hrs' IH]; [done|].
    cbn. apply Forall_app. split; [by apply utf8_bytes_byte|done].
Qed.

Lemma decode_width p : Forall byte p -> p <> [] -> 1 <= (decode_arith p).2 <= zlen p.
Proof.
  intros Hp Hne. destruct (decode_sound p Hp Hne) as [-> |(r & Hr & (rest & E) & ->)]; cbn [snd].
  - destruct p; [done|]. rewrite zlen_cons. pose proof (zlen_nonneg p). lia.
  - rewrite E, zlen_app. pose proof (zlen_nonneg rest). pose proof (utf8_bytes_length r). unfold valid_rune in Hr. lia.
Qed.

Lemma range_count_total fuel p n :
  Forall byte p -> (length p < fuel)%nat -> exists c, range_count fuel p n = Some c /\ n <= c <= n + zlen p.
Proof.
  revert p n. induction fuel as [|fuel IH]; intros p n Hp Hf; [lia|]. cbn [range_count].
  destruct p as [|b p]; [exists n; rewrite zlen_nil; split; [done|lia]|].
  rewrite DecodeRuneInString_eq, DecodeRune_arith by done. pose proof (decode_width (b :: p) Hp ltac:(done)) as Hw.
  set (w := (decode_arith (b :: p)).2) in *. unfold zlen in Hw.
  destruct (IH (drop (Z.to_nat w) (b :: p)) (n + 1)) as (c & -> & Hc).
  - by apply Forall_drop.
  - rewrite length_drop. lia.
  - exists c. split; [done|]. unfold zlen in *. rewrite length_drop in Hc. lia.
Qed.

Lemma range_count_shift fuel p n k : range_count fuel p (n + k) = (fun c => c + k) <$> range_count fuel p n.
Proof.
  revert p n. induction fuel as [|fuel IH]; intros p n; [done|]. cbn [range_count]. destruct p; [done|].
  rewrite <- IH. f_equal. lia.
Qed.

Lemma range_count_fuel fuel fuel' p n c : range_count fuel p n = Some c -> (fuel <= fuel')%nat -> range_count fuel' p n = Some c.
Proof.
  revert fuel' p n. induction fuel as [|fuel IH]; intros [|fuel'] p n; try done; [lia|]. cbn [range_count].
  destruct p; [done|]. intros H ?. apply IH; [done|lia].
Qed.

Lemma count_ascii_spec p n :
  Forall byte p -> let '(m, rest) := count_ascii p n in
  range_count (S (length p)) p n = range_count (S (length rest)) rest m /\ Forall byte rest.
Proof.
  revert n. induction p as [|b p IH]; intros n Hp; [done|]. cbn [count_ascii]. unfold RuneSelf. rewrite Z.geb_leb.
  destruct (Z.leb_spec 0x80 b); [done|]. apply Forall_cons in Hp as [Hb Hp]. specialize (IH (n + 1) Hp).
  destruct (count_ascii p (n + 1)) as [m rest]. destruct IH as (IH & Hr). split; [|done]. rewrite <- IH.
  change (length (b :: p)) with (S (length p)). cbn [range_count]. rewrite DecodeRuneInString_eq.
  unfold DecodeRune, RuneSelf. by destruct (Z.ltb_spec b 0x80); [|lia].
Qed.

Lemma RuneCount_InString p : Forall byte p -> RuneCount p = RuneCountInString p.
Proof.
  intros Hp. unfold RuneCount, RuneCountInString. pose proof (count_ascii_spec p 0 Hp) as H.
  destruct (count_ascii p 0) as [m rest]. destruct H as (-> & Hr). destruct rest as [|b rest]; [done|].
  destruct (range_count_total (S (length (b :: rest))) (b :: rest) 0) as (c & E & _); [done|lia|].
  rewrite E. pose proof (range_count_shift (S (length (b :: rest))) (b :: rest) 0 m) as Hs. rewrite E in Hs.
  replace (0 + m) with m in Hs by lia. rewrite Hs. cbn. f_equal. lia.
Qed.
