(* ===== verification/Utf8Theorems.v ===== *)
(** * unicode/utf8: the ends of a text, and the theorems

    [FullRune] looks for an encoding that is cut off at the end of the text,
    [DecodeLastRune] for the encoding the text ends with.  The theorems state the
    package against RFC 3629: the encoder and the decoder are inverse, the decoder
    recognises exactly the encodings, [Valid] exactly their concatenations. *)

From S2P Require Import Prelude.
From S2P Require Import Slice.
From S2P Require Import Bits.
From S2P Require Import BitsArith.
From S2P Require Import Utf8.
From S2P Require Import Utf8Spec.
From S2P Require Import Utf8Text.

(** ** FullRune *)

Definition full_arith (p : list Z) : bool :=
  match p with
  | [] => false
  | b0 :: p =>
      if b0 <? 0xC2 then true
      else if b0 <? 0xE0 then match p with [] => false | _ => true end
      else if b0 <? 0xF0 then
        match p with [] => false | [b1] => negb (in_range (lo_after b0) (hi_after b0) b1) | _ => true end
      else if b0 <? 0xF5 then
        match p with
        | [] => false
        | [b1] => negb (in_range (lo_after b0) (hi_after b0) b1)
        | [b1; b2] => negb (in_range (lo_after b0) (hi_after b0) b1) || negb (in_range 0x80 0xBF b2)
        | _ => true
        end
      else true
  end.

(** The rest of the test, for a sequence of [n] bytes and any range of the
    second one. *)
Definition full_tail (n l h : Z) (p : list Z) : bool :=
  if zlen p >=? n then true
  else if (zlen p >? 1) && ((tab p 1 <? l) || (h <? tab p 1)) then true
  else if (zlen p >? 2) && ((tab p 2 <? locb) || (hicb <? tab p 2)) then true
  else false.

Lemma full_tail_long n l h p : n <= zlen p -> full_tail n l h p = true.
Proof. intros. unfold full_tail. rewrite Z.geb_leb. by destruct (Z.leb_spec n (zlen p)); [|lia]. Qed.
Lemma full_tail_1 n l h b0 : 2 <= n -> full_tail n l h [b0] = false.
Proof. intros. unfold full_tail. change (zlen [b0]) with 1. rewrite Z.geb_leb. by destruct (Z.leb_spec n 1); [lia|]. Qed.
Lemma full_tail_2 n l h b0 b1 : 3 <= n -> full_tail n l h [b0; b1] = negb (in_range l h b1).
Proof.
  intros. unfold full_tail. change (zlen [b0; b1]) with 2. change (tab [b0; b1] 1) with b1. rewrite Z.geb_leb, in_range_neg.
  destruct (Z.leb_spec n 2); [lia|]. by destruct (in_range l h b1).
Qed.
Lemma full_tail_3 n l h b0 b1 b2 :
  4 <= n -> full_tail n l h [b0; b1; b2] = negb (in_range l h b1) || negb (in_range 0x80 0xBF b2).
Proof.
  intros. unfold full_tail, locb, hicb. change (zlen [b0; b1; b2]) with 3. change (tab [b0; b1; b2] 1) with b1.
  change (tab [b0; b1; b2] 2) with b2. rewrite Z.geb_leb, !in_range_neg.
  destruct (Z.leb_spec n 3); [lia|]. by destruct (in_range l h b1), (in_range 128 191 b2).
Qed.

Lemma zlen_ge_3 {A} (x y z : A) l : 3 <= zlen (x :: y :: z :: l).
Proof. rewrite !zlen_cons. pose proof (zlen_nonneg l). lia. Qed.

Lemma FullRune_arith p : Forall byte p -> FullRune p = full_arith p.
Proof.
  intros Hp. destruct p as [|b0 p]; [done|]. pose proof Hp as [Hb _]%Forall_cons.
  assert (Hz : zlen (b0 :: p) = zlen p + 1) by apply zlen_cons. pose proof (zlen_nonneg p) as Hn.
  unfold FullRune. cbv zeta. change (tab (b0 :: p) 0) with b0. destruct (Z.eqb_spec (zlen (b0 :: p)) 0); [lia|].
  rewrite first_class by done. fold (full_tail (class_of b0 .& 7) (lo (accept_at (class_of b0 >> 4))) (hi (accept_at (class_of b0 >> 4))) (b0 :: p)).
  unfold byte in Hb. unfold class_of, full_arith, lo_after, hi_after.
  destruct (Z.ltb_spec b0 0x80).
  { destruct (Z.ltb_spec b0 0xC2); [entry; apply full_tail_long; lia|lia]. }
  destruct (Z.ltb_spec b0 0xC2); [entry; apply full_tail_long; lia|].
  destruct (Z.ltb_spec b0 0xE0).
  { entry. destruct p; [by apply full_tail_1|apply full_tail_long; unfold zlen; cbn [length]; lia]. }
  destruct (Z.eqb_spec b0 0xE0), (Z.eqb_spec b0 0xED), (Z.ltb_spec b0 0xF0), (Z.eqb_spec b0 0xF0), (Z.ltb_spec b0 0xF4),
    (Z.eqb_spec b0 0xF4), (Z.ltb_spec b0 0xF5); try lia; entry; try (apply full_tail_long; lia).
  all: destruct p as [|b1 [|b2 [|b3 p]]]; [by apply full_tail_1|by apply full_tail_2|..];
    first [apply full_tail_long; unfold zlen; cbn [length]; lia|by apply full_tail_3].
Qed.

(** [p] is the beginning of an encoding, and not all of it. *)
Definition truncated (p : list Z) : Prop := exists r q, valid_rune r /\ q <> [] /\ utf8_bytes r = p ++ q.

Lemma lo_hi_after b0 : 0xC2 <= b0 < 0xF5 -> 0x80 <= lo_after b0 <= hi_after b0 /\ hi_after b0 <= 0xBF.
Proof. intros. unfold lo_after, hi_after. repeat case_match; lia. Qed.

Lemma full_truncated p : Forall byte p -> full_arith p = false -> truncated p.
Proof.
  intros Hp H. destruct p as [|b0 p].
  { exists 0, [0]. split_and!; [unfold valid_rune; lia|done|done]. }
  unfold full_arith in H. destruct (Z.ltb_spec b0 0xC2); [done|].
  pose proof (lo_hi_after b0) as Hlh.
  destruct (Z.ltb_spec b0 0xE0); [|destruct (Z.ltb_spec b0 0xF0); [|destruct (Z.ltb_spec b0 0xF5); [|done]]].
  - destruct p; [|done]. destruct (decode2_sound b0 0x80 []) as [Hr E]; [lia..|]. rewrite app_nil_r in E.
    eexists _, _. split_and!; [exact Hr|..|symmetry; exact E]. done.
  - destruct p as [|b1 [|b2 p]]; [| |done].
    + destruct (decode3_sound b0 (lo_after b0) 0x80 []) as [Hr E]; [lia..|]. rewrite app_nil_r in E.
      eexists _, _. split_and!; [exact Hr|..|symmetry; exact E]. done.
    + apply negb_false_iff, in_range_spec in H. destruct (decode3_sound b0 b1 0x80 []) as [Hr E]; [lia..|]. rewrite app_nil_r in E.
      eexists _, [0x80]. split_and!; [exact Hr|..|symmetry; exact E]. done.
  - destruct p as [|b1 [|b2 [|b3 p]]]; [| | |done].
    + destruct (decode4_sound b0 (lo_after b0) 0x80 0x80 []) as [Hr E]; [lia..|]. rewrite app_nil_r in E.
      eexists _, _. split_and!; [exact Hr|..|symmetry; exact E]. done.
    + apply negb_false_iff, in_range_spec in H. destruct (decode4_sound b0 b1 0x80 0x80 []) as [Hr E]; [lia..|]. rewrite app_nil_r in E.
      eexists _, [0x80; 0x80]. split_and!; [exact Hr|..|symmetry; exact E]. done.
    + reflect. rewrite in_range_spec in *. destruct (decode4_sound b0 b1 b2 0x80 []) as [Hr E]; [lia..|]. rewrite app_nil_r in E.
      eexists _, [0x80]. split_and!; [exact Hr|..|symmetry; exact E]. done.
Qed.

(** Cutting off the end of a decodable text leaves a text that is not full. *)
Lemma truncated_full p : truncated p -> full_arith p = false.
Proof.
  intros (r & q & Hr & Hq & E). pose proof (decode_complete r [] Hr) as D. rewrite app_nil_r in D.
  assert (Hw : zlen (utf8_bytes r) = zlen p + zlen q) by (by rewrite E, zlen_app).
  assert (0 < zlen q) by (destruct q; [done|]; rewrite zlen_cons; pose proof (zlen_nonneg q); lia).
  rewrite E in D. rewrite zlen_app in D. destruct p as [|b0 p]; [done|]. cbn [app] in D. rewrite zlen_cons in D.
  pose proof (zlen_nonneg p). unfold decode_arith in D. unfold full_arith.
  destruct (Z.ltb_spec b0 0x80); [injection D; lia|]. destruct (Z.ltb_spec b0 0xC2); [injection D; lia|].
  destruct (Z.ltb_spec b0 0xE0); [|destruct (Z.ltb_spec b0 0xF0); [|destruct (Z.ltb_spec b0 0xF5)]]; [| | |injection D; lia].
  - destruct p as [|b1 p]; [done|]. cbn [app] in D. rewrite zlen_cons in *. pose proof (zlen_nonneg p).
    destruct (in_range _ _ _); injection D; lia.
  - destruct p as [|b1 [|b2 p]]; [done|..]; cbn [app] in D; rewrite ?zlen_cons in *.
    + destruct (in_range _ _ _); [done|]. destruct q; injection D; lia.
    + pose proof (zlen_nonneg p). destruct (_ && _); injection D; lia.
  - destruct p as [|b1 [|b2 [|b3 p]]]; [done|..]; cbn [app] in D; rewrite ?zlen_cons in *.
    + destruct (in_range (lo_after b0) _ b1); [done|]. destruct q as [|? [|? ?]]; injection D; lia.
    + destruct (in_range (lo_after b0) _ b1), (in_range _ _ b2); try done; destruct q; injection D; lia.
    + pose proof (zlen_nonneg p). destruct (_ && _); injection D; lia.
Qed.

Lemma FullRune_spec p : Forall byte p -> FullRune p = false <-> truncated p.
Proof.
  intros Hp. rewrite FullRune_arith by done. split; [by apply full_truncated|apply truncated_full].
Qed.

(** ** DecodeLastRune *)

Definition cont (b : Z) : Prop := 0x80 <= b <= 0xBF.

Lemma RuneStart_spec b : byte b -> RuneStart b = false <-> cont b.
Proof.
  intros Hb. pose proof (forall_below 256 (fun b => Bool.eqb (RuneStart b) (negb (in_range 0x80 0xBF b))) ltac:(by vm_compute) b Hb) as E.
  cbn beta in E. apply eqb_prop in E as ->. rewrite negb_false_iff. apply in_range_spec.
Qed.

Lemma utf8_bytes_shape r : valid_rune r -> exists b0 t, utf8_bytes r = b0 :: t /\ ~ cont b0 /\ Forall cont t /\ (t = [] -> b0 < 0x80).
Proof.
  unfold valid_rune, cont. intros Hr. unfold utf8_bytes.
  destruct (Z.ltb_spec r 0x80); [|destruct (Z.ltb_spec r 0x800); [|destruct (Z.ltb_spec r 0x10000)]]; eexists _, _;
    (split; [reflexivity|]); (split; [divlia|]); (split; [repeat constructor; divlia|done]).
Qed.

Lemma back_to_start_spec fuel p lim start :
  start - lim < Z.of_nat fuel -> lim - 1 <= start ->
  let s := back_to_start fuel p lim start in
  lim - 1 <= s <= start /\ (forall i, s < i <= start -> RuneStart (tab p i) = false) /\ (lim <= s -> RuneStart (tab p s) = true).
Proof.
  revert start. induction fuel as [|fuel IH]; intros start Hf Hs; cbn [back_to_start].
  { split_and!; lia. }
  rewrite Z.geb_leb. destruct (Z.leb_spec lim start); [|cbv zeta; split_and!; lia].
  destruct (RuneStart (tab p start)) eqn:E; [cbv zeta; split_and!; [lia..|done]|].
  destruct (IH (start - 1)) as (H1 & H2 & H3); [lia..|]. cbv zeta. split_and!; [lia|lia| |done].
  intros i Hi. destruct (decide (i = start)) as [->|]; [done|]. apply H2. lia.
Qed.

Lemma tab_app_r p q i : zlen p <= i -> tab (p ++ q) i = tab q (i - zlen p).
Proof. unfold tab, zlen. intros. rewrite app_nth2 by lia. f_equal. lia. Qed.
Lemma tab_Forall (P : Z -> Prop) p i : Forall P p -> 0 <= i < zlen p -> P (tab p i).
Proof.
  unfold tab, zlen. intros H Hi. rewrite Forall_forall in H. apply H, list_elem_of_In, nth_In. lia.
Qed.
Lemma tab_cons_S b p i : 1 <= i -> tab (b :: p) i = tab p (i - 1).
Proof. intros. apply (tab_app_r [b]). by change (zlen [b]) with 1. Qed.

(** The whole search: where the decoding starts. *)
Definition last_start (p : list Z) : Z :=
  let start := back_to_start 4 p (Z.max (zlen p - UTFMax) 0) (zlen p - 1 - 1) in
  if start <? 0 then 0 else start.

Lemma DecodeLastRune_unfold p : p <> [] ->
  DecodeLastRune p =
  (if tab p (zlen p - 1) <? 0x80 then (tab p (zlen p - 1), 1)
   else let '(r, size) := DecodeRune (sub (last_start p) (zlen p) p) in
        if negb (last_start p + size =? zlen p) then (RuneError, 1) else (r, size)).
Proof.
  intros Hp. unfold DecodeLastRune. cbv zeta. destruct (Z.eqb_spec (zlen p) 0) as [E|_]; [|done].
  destruct p; [done|]. rewrite zlen_cons in E. pose proof (zlen_nonneg p). lia.
Qed.
Lemma DecodeLastRuneInString_eq s : DecodeLastRuneInString s = DecodeLastRune s.
Proof. unfold DecodeLastRuneInString, DecodeLastRune. cbv zeta. by rewrite DecodeRuneInString_eq. Qed.

Lemma sub_suffix (p : list Z) a : 0 <= a <= zlen p -> exists pre, p = pre ++ sub a (zlen p) p /\ zlen pre = a.
Proof.
  intros Ha. exists (take (Z.to_nat a) p). unfold sub, zlen in *. split.
  - rewrite (take_ge (drop _ _)) by (rewrite length_drop; lia). symmetry. apply take_drop.
  - rewrite length_take. lia.
Qed.
Lemma sub_app_r (pre q : list Z) : sub (zlen pre) (zlen (pre ++ q)) (pre ++ q) = q.
Proof. unfold sub, zlen. rewrite !Nat2Z.id, drop_app_length. apply take_ge. rewrite length_app. lia. Qed.

(** When the text ends with an encoding of several bytes, its first byte is
    found. *)
Lemma last_start_finds pre r :
  Forall byte (pre ++ utf8_bytes r) -> valid_rune r -> 2 <= zlen (utf8_bytes r) ->
  last_start (pre ++ utf8_bytes r) = zlen pre.
Proof.
  intros Hb Hr H2. pose proof (utf8_bytes_length r ltac:(unfold valid_rune in Hr; lia)) as Hl.
  destruct (utf8_bytes_shape r Hr) as (b0 & t & E & Hb0 & Ht & _). rewrite E in *.
  assert (Hz : zlen (pre ++ b0 :: t) = zlen pre + zlen t + 1) by (rewrite zlen_app, zlen_cons; lia).
  rewrite zlen_cons in H2, Hl. pose proof (zlen_nonneg pre). set (p := pre ++ b0 :: t) in *.
  assert (S0 : RuneStart (tab p (zlen pre)) = true).
  { apply not_false_is_true. rewrite RuneStart_spec by (by apply tab_byte). unfold p. rewrite tab_app_r, Z.sub_diag by lia. done. }
  assert (St : forall i, zlen pre < i < zlen p -> RuneStart (tab p i) = false).
  { intros i Hi. rewrite RuneStart_spec by (by apply tab_byte). unfold p. rewrite tab_app_r, tab_cons_S by lia.
    apply tab_Forall; [done|lia]. }
  unfold last_start, UTFMax.
  destruct (back_to_start_spec 4 p (Z.max (zlen p - 4) 0) (zlen p - 1 - 1)) as (H3 & H4 & H5); [lia..|].
  set (s := back_to_start _ _ _ _) in *. cbv zeta.
  assert (Hs : s = zlen pre).
  { destruct (Z.lt_trichotomy s (zlen pre)) as [Hlt|[|Hgt]]; [|done|].
    - specialize (H4 (zlen pre)). rewrite S0 in H4. discriminate H4. lia.
    - rewrite St in H5 by lia. discriminate H5. lia. }
  rewrite Hs. destruct (Z.ltb_spec (zlen pre) 0); lia.
Qed.

Lemma DecodeLastRune_finds pre r :
  Forall byte pre -> valid_rune r -> DecodeLastRune (pre ++ utf8_bytes r) = (r, zlen (utf8_bytes r)).
Proof.
  intros Hpre Hr. pose proof (utf8_bytes_byte r Hr) as Hbr.
  assert (Hb : Forall byte (pre ++ utf8_bytes r)) by (by apply Forall_app).
  rewrite DecodeLastRune_unfold by (intros [_ E]%app_eq_nil; by apply utf8_bytes_ne in E).
  destruct (utf8_bytes_shape r Hr) as (b0 & t & E & Hb0 & Ht & Hone).
  pose proof (zlen_nonneg pre). pose proof (zlen_nonneg t). destruct t as [|b1 t].
  - assert (r = b0) as ->. { unfold utf8_bytes in E. destruct (Z.ltb_spec r 0x80); [by injection E|by destruct (r <? 0x800), (r <? 0x10000)]. }
    rewrite E. rewrite zlen_app. change (zlen [b0]) with 1. rewrite tab_app_r by lia.
    replace (zlen pre + 1 - 1 - zlen pre) with 0 by lia. change (tab [b0] 0) with b0.
    destruct (Z.ltb_spec b0 0x80); [done|]. specialize (Hone eq_refl). lia.
  - assert (H2 : 2 <= zlen (utf8_bytes r)) by (rewrite E, !zlen_cons in *; pose proof (zlen_nonneg t); lia).
    rewrite last_start_finds, sub_app_r by done. rewrite zlen_app.
    assert (cont (tab (pre ++ utf8_bytes r) (zlen pre + zlen (utf8_bytes r) - 1))) as Hc.
    { rewrite tab_app_r by lia. rewrite E in *. rewrite zlen_cons in *. rewrite tab_cons_S by lia. apply tab_Forall; [done|lia]. }
    unfold cont in Hc. destruct (Z.ltb_spec (tab (pre ++ utf8_bytes r) (zlen pre + zlen (utf8_bytes r) - 1)) 0x80); [lia|].
    pose proof (decode_complete r [] Hr) as D. rewrite app_nil_r in D. rewrite DecodeRune_arith, D by done.
    by rewrite Z.eqb_refl.
Qed.

Lemma DecodeLastRune_other p :
  Forall byte p -> p <> [] -> (forall pre r, valid_rune r -> p <> pre ++ utf8_bytes r) -> DecodeLastRune p = (RuneError, 1).
Proof.
  intros Hp Hne Hno. rewrite DecodeLastRune_unfold by done. assert (Hz : 0 < zlen p).
  { destruct p; [done|]. rewrite zlen_cons. pose proof (zlen_nonneg p). lia. }
  pose proof (tab_byte p (zlen p - 1) Hp) as Hl. unfold byte in Hl.
  destruct (Z.ltb_spec (tab p (zlen p - 1)) 0x80).
  { exfalso. destruct (exists_last Hne) as (pre & b & E). rewrite E in *. rewrite zlen_app in *. change (zlen [b]) with 1 in *.
    assert (Et : tab (pre ++ [b]) (zlen pre + 1 - 1) = b) by (rewrite tab_app_r by lia; by replace (zlen pre + 1 - 1 - zlen pre) with 0 by lia).
    rewrite Et in *.
    apply (Hno pre b); [unfold valid_rune; lia|]. unfold utf8_bytes. by destruct (Z.ltb_spec b 0x80); [|lia]. }
  assert (Hs : 0 <= last_start p < zlen p).
  { unfold last_start, UTFMax. destruct (back_to_start_spec 4 p (Z.max (zlen p - 4) 0) (zlen p - 1 - 1)) as (H3 & _); [lia..|].
    cbv zeta. destruct (Z.ltb_spec (back_to_start 4 p (Z.max (zlen p - 4) 0) (zlen p - 1 - 1)) 0); lia. }
  destruct (sub_suffix p (last_start p)) as (pre & E & El); [lia|]. set (q := sub (last_start p) (zlen p) p) in *.
  assert (Hq : Forall byte q) by (rewrite E in Hp; by apply Forall_app in Hp as [_ ?]).
  assert (Hqne : q <> []). { intros Hq0. rewrite Hq0, app_nil_r in E. rewrite <- E in El. lia. }
  rewrite DecodeRune_arith by done. destruct (decode_sound q Hq Hqne) as [-> |(r & Hr & (rest & Er) & ->)]; [by destruct (negb _)|].
  destruct (Z.eqb_spec (last_start p + zlen (utf8_bytes r)) (zlen p)) as [Ez|]; [|done]. exfalso. destruct rest.
  - rewrite app_nil_r in Er. apply (Hno pre r Hr). by rewrite <- Er.
  - pose proof (zlen_nonneg rest). apply (f_equal zlen) in E. rewrite Er, !zlen_app, zlen_cons in E. lia.
Qed.

(** ** Writing into a buffer *)

Lemma load_ok {A} (d : A) i l : 0 <= i < zlen l -> load i l = Done (nth (Z.to_nat i) l d, l).
Proof.
  intros Hi. unfold load. rewrite at_lookup by lia. destruct (lookup_lt_is_Some_2 l (Z.to_nat i)) as [x E]; [unfold zlen in Hi; lia|].
  rewrite E. by rewrite (nth_lookup_Some _ _ _ _ E).
Qed.
Lemma load_out {A} i (l : list A) : zlen l <= i -> load i l = Panic IndexOutOfRange.
Proof. intros. unfold load. by rewrite at_None by lia. Qed.
Lemma store_ok {A} i (x : A) l : 0 <= i < zlen l -> store i x l = Done (tt, upd l i x).
Proof. intros. unfold store. by destruct (Z.leb_spec 0 i), (Z.ltb_spec i (zlen l)); try lia. Qed.
Lemma store_out {A} i (x : A) l : zlen l <= i -> store i x l = Panic IndexOutOfRange.
Proof. intros. unfold store. by destruct (Z.leb_spec 0 i), (Z.ltb_spec i (zlen l)); try lia. Qed.

Definition write (bs b : list Z) : outcome (Z * list Z) :=
  if zlen bs <=? zlen b then Done (zlen bs, bs ++ from (zlen bs) b) else Panic IndexOutOfRange.

Ltac buffer :=
  unfold write, mbind; rewrite ?zlen_cons; change (zlen (@nil Z)) with 0; cbn [Z.add Pos.add Pos.succ];
  repeat first
    [ rewrite load_out by (rewrite ?zlen_cons; lia)
    | rewrite (load_ok 0) by (rewrite ?zlen_upd, ?zlen_cons; lia)
    | rewrite store_out by (rewrite ?zlen_cons; lia)
    | rewrite store_ok by (rewrite ?zlen_upd, ?zlen_cons; lia) ];
  match goal with |- context [?a <=? ?b] => destruct (Z.leb_spec a b); try lia end;
  reflexivity.

Lemma write_1 x b : (store 0 x ;; mret 1) b = write [x] b.
Proof. destruct b as [|x0 b]; [done|]. pose proof (zlen_nonneg b). buffer. Qed.
Lemma write_2 x y b : (load 1 ;; store 0 x ;; store 1 y ;; mret 2) b = write [x; y] b.
Proof. destruct b as [|x0 [|x1 b]]; [done..|]. pose proof (zlen_nonneg b). buffer. Qed.
Lemma write_3 x y z b : (load 2 ;; store 0 x ;; store 1 y ;; store 2 z ;; mret 3) b = write [x; y; z] b.
Proof. destruct b as [|x0 [|x1 [|x2 b]]]; [done..|]. pose proof (zlen_nonneg b). buffer. Qed.
Lemma write_4 x y z w b : (load 3 ;; store 0 x ;; store 1 y ;; store 2 z ;; store 3 w ;; mret 4) b = write [x; y; z; w] b.
Proof. destruct b as [|x0 [|x1 [|x2 [|x3 b]]]]; [done..|]. pose proof (zlen_nonneg b). buffer. Qed.

Lemma EncodeRune_AppendRune r b : EncodeRune r b = write (AppendRune [] r) b.
Proof.
  unfold EncodeRune, AppendRune. destruct (_ <=? _); [apply write_1|].
  unfold encodeRuneNonASCII, appendRuneNonASCII. cbv zeta. destruct (_ <=? _); [apply write_2|].
  destruct (_ || _); [apply write_3|]. destruct (_ && _); [apply write_4|apply write_3].
Qed.

(** C16: the encoder and the decoder are inverse.  Every int32 [r] is encoded
    as the RFC 3629 encoding of [r], or of RuneError when [r] is no Unicode
    scalar value; [AppendRune] appends it, [EncodeRune] writes it over the
    beginning of its buffer or panics when the buffer is too short, [RuneLen] is its
    length or -1, and [DecodeRune] reads it back whatever follows. *)
Theorem encode_decode_roundtrip (p rest b : list Z) (r : Z) :
  is_int32 r -> Forall byte rest ->
  AppendRune p r = p ++ encoded r /\
  EncodeRune r b = write (encoded r) b /\
  RuneLen r = (if ValidRune r then zlen (encoded r) else -1) /\
  DecodeRune (AppendRune [] r ++ rest) = (if ValidRune r then r else RuneError, zlen (encoded r)) /\
  ValidRune r = bool_decide (valid_rune r).
Proof.
  intros Hr Hrest. rewrite EncodeRune_AppendRune, !AppendRune_spec, RuneLen_spec, ValidRune_spec by done. cbn [app].
  assert (Hd : DecodeRune (encoded r ++ rest) = (if decide (valid_rune r) then r else RuneError, zlen (encoded r))).
  { unfold encoded. assert (valid_rune (if decide (valid_rune r) then r else RuneError)) as Hv.
    { case_decide; [done|]. unfold valid_rune, RuneError. lia. }
    rewrite DecodeRune_arith, decode_complete; [done..|]. apply Forall_app. split; [by apply utf8_bytes_byte|done]. }
  rewrite Hd. unfold encoded. split_and!; try done; by case_decide; case_bool_decide.
Qed.
Lemma encode_decode_roundtrip_witness :
  AppendRune [0x41] 0x20AC = [0x41] ++ encoded 0x20AC /\
  DecodeRune (AppendRune [] 0xD800 ++ [0x41]) = (RuneError, 3) /\
  EncodeRune 0x20AC [1; 2] = Panic IndexOutOfRange /\ EncodeRune 0x20AC [1; 2; 3; 4] = Done (3, [0xE2; 0x82; 0xAC; 4]).
Proof.
  split_and!.
  - destruct (encode_decode_roundtrip [0x41] [] [] 0x20AC) as [H _]; [by split|by constructor|exact H].
  - destruct (encode_decode_roundtrip [] [0x41] [] 0xD800) as (_ & _ & _ & H & _); [by split|by repeat constructor|exact H].
  - destruct (encode_decode_roundtrip [] [] [1; 2] 0x20AC) as (_ & H & _); [by split|by constructor|exact H].
  - destruct (encode_decode_roundtrip [] [] [1; 2; 3; 4] 0x20AC) as (_ & H & _); [by split|by constructor|exact H].
Defined.

(** C17: the decoder accepts exactly the encodings.  A non-empty text either
    starts with the encoding of one valid code point, which [DecodeRune] returns
    with the length of the encoding, or starts with none, and the result is
    (RuneError, 1): overlong forms, surrogates and truncated sequences included.
    [DecodeRuneInString] agrees. *)
Theorem DecodeRune_exact (p : list Z) :
  Forall byte p ->
  DecodeRuneInString p = DecodeRune p /\
  DecodeRune [] = (RuneError, 0) /\
  (p <> [] ->
   (exists r rest, valid_rune r /\ p = utf8_bytes r ++ rest /\ DecodeRune p = (r, zlen (utf8_bytes r))) \/
   ((forall r rest, valid_rune r -> p <> utf8_bytes r ++ rest) /\ DecodeRune p = (RuneError, 1))).
Proof.
  intros Hp. split_and!; [apply DecodeRuneInString_eq|done|]. intros Hne. rewrite DecodeRune_arith by done.
  destruct (decode_dec p Hp Hne) as [(r & Hr & (rest & E) & D)|[D Hno]]; [left; by exists r, rest|by right].
Qed.
Lemma DecodeRune_exact_witness :
  (exists r rest, valid_rune r /\ [0xC3; 0xA9; 0x41] = utf8_bytes r ++ rest /\ DecodeRune [0xC3; 0xA9; 0x41] = (r, zlen (utf8_bytes r))) /\
  (forall r rest, valid_rune r -> [0xC0; 0x80] <> utf8_bytes r ++ rest).
Proof.
  split.
  - destruct (DecodeRune_exact [0xC3; 0xA9; 0x41]) as (_ & _ & H); [by repeat constructor|].
    destruct H as [H|[_ H]]; [done|exact H|vm_compute in H; discriminate H].
  - destruct (DecodeRune_exact [0xC0; 0x80]) as (_ & _ & H); [by repeat constructor|].
    destruct H as [(r & rest & Hr & _ & D)|[H _]]; [done| |exact H].
    assert (E : DecodeRune [0xC0; 0x80] = (RuneError, 1)) by (by vm_compute). rewrite E in D.
    injection D as <- D. vm_compute in D. discriminate D.
Defined.

(** C18: [DecodeLastRune] finds the encoding a text ends with, although it
    looks for it backwards over at most four bytes; when the text ends with none,
    the result is (RuneError, 1).  [FullRune] is false exactly for a proper
    beginning of the encoding of a valid code point: more input could complete it.
    [DecodeLastRuneInString] and [FullRuneInString] agree. *)
Theorem text_ends_exact (p : list Z) :
  Forall byte p ->
  DecodeLastRuneInString p = DecodeLastRune p /\
  DecodeLastRune [] = (RuneError, 0) /\
  (forall r, valid_rune r -> DecodeLastRune (p ++ utf8_bytes r) = (r, zlen (utf8_bytes r))) /\
  (p <> [] -> (forall pre r, valid_rune r -> p <> pre ++ utf8_bytes r) -> DecodeLastRune p = (RuneError, 1)) /\
  FullRuneInString p = FullRune p /\ (FullRune p = false <-> truncated p).
Proof.
  intros Hp. split; [apply DecodeLastRuneInString_eq|]. split; [done|]. split; [|split; [|split; [done|by apply FullRune_spec]]].
  - intros r Hr. by apply DecodeLastRune_finds.
  - intros Hne Hno. by apply DecodeLastRune_other.
Qed.
Lemma text_ends_exact_witness :
  DecodeLastRune ([0x80; 0x80] ++ utf8_bytes 0x1F600) = (0x1F600, 4) /\ truncated [0xE2; 0x82].
Proof.
  split.
  - destruct (text_ends_exact [0x80; 0x80]) as (_ & _ & H & _); [by repeat constructor|].
    apply (H 0x1F600). right. by split.
  - destruct (text_ends_exact [0xE2; 0x82]) as (_ & _ & _ & _ & _ & H); [by repeat constructor|]. by apply H.
Defined.

(** C19: [Valid] and [ValidString], with their fast path over machine words,
    return for every text, and return true exactly for the concatenations of
    encodings of valid code points; [RuneCount] and [RuneCountInString] return
    too, agree, and count the code points of such a text. *)
Theorem Valid_RuneCount_exact (p : list Z) :
  Forall byte p ->
  (exists b, Valid p = Some b /\ ValidString p = Some b /\ (b = true <-> utf8_text p)) /\
  (exists n, RuneCount p = Some n /\ RuneCountInString p = Some n /\ 0 <= n <= zlen p) /\
  (forall rs, Forall valid_rune rs -> p = encode_all rs -> RuneCount p = Some (zlen rs)).
Proof.
  intros Hp. split_and!.
  - destruct (valid_loop_spec (S (length p)) p Hp) as (b & E & Hb); [lia|]. by exists b.
  - destruct (range_count_total (S (length p)) p 0 Hp) as (n & E & Hn); [lia|]. exists n.
    rewrite RuneCount_InString by done. split_and!; [exact E|exact E|lia..].
  - intros rs Hrs E. rewrite RuneCount_InString by done. unfold RuneCountInString. rewrite E.
    rewrite range_count_encode; [done|done|]. clear Hp E p. unfold encode_all. induction Hrs as [|r rs Hr Hrs IH]; [cbn; lia|].
    cbn [fmap list_fmap concat length]. rewrite length_app. pose proof (utf8_bytes_ne r). destruct (utf8_bytes r); [done|]. cbn. lia.
Qed.
Lemma Valid_RuneCount_exact_witness :
  (exists b, Valid (replicate 40 0x41 ++ [0xE2; 0x82; 0xAC]) = Some b /\ ValidString (replicate 40 0x41 ++ [0xE2; 0x82; 0xAC]) = Some b
             /\ (b = true <-> utf8_text (replicate 40 0x41 ++ [0xE2; 0x82; 0xAC]))) /\
  RuneCount (encode_all [0x20AC; 0x41]) = Some 2.
Proof.
  split.
  - destruct (Valid_RuneCount_exact (replicate 40 0x41 ++ [0xE2; 0x82; 0xAC])) as [H _]; [by repeat constructor|exact H].
  - destruct (Valid_RuneCount_exact (encode_all [0x20AC; 0x41])) as (_ & _ & H); [by repeat constructor|].
    apply (H [0x20AC; 0x41]); [|done]. unfold valid_rune. repeat constructor; lia.
Defined.
