(* ===== verification/Text.v ===== *)
(** * Strings and byte slices as lists of bytes

    A Go [string] or [[]byte] is its list of bytes; a literal is written
    [bytes "..."]. *)

From Stdlib Require Export Ascii String.
From S2P Require Import Prelude.
From S2P Require Import Slice.
#[global] Close Scope string_scope.
Abbreviation length := Datatypes.length.

Definition chr (a : ascii) : Z := Z.of_N (N_of_ascii a).
Fixpoint bytes (s : string) : list Z :=
  match s with
  | EmptyString => []
  | String a s => chr a :: bytes s
  end.

(** Go's order on strings. *)
Fixpoint str_ltb (x y : list Z) : bool :=
  match x, y with
  | _, [] => false
  | [], _ :: _ => true
  | a :: x, b :: y => (a <? b) || ((a =? b) && str_ltb x y)
  end.
Definition str_eqb (x y : list Z) : bool := bool_decide (x = y).

(** [s[i]] of a constant string or array [s], in a computation on another
    store. *)
Definition sread {S} (s : list Z) (i : Z) : M S Z :=
  match at_ s i with
  | Some c => mret c
  | None => mpanic IndexOutOfRange
  end.

(** A computation on an array local to a function: its result, or the array it
    leaves. *)
Definition result {S A} (m : M S A) (s : S) : outcome A :=
  match m s with Done (a, _) => Done a | Panic p => Panic p | NoFuel => NoFuel end.
Definition exec {S A} (m : M S A) (s : S) : outcome S :=
  match m s with Done (_, s') => Done s' | Panic p => Panic p | NoFuel => NoFuel end.
Definition obind {A B} (o : outcome A) (k : A -> outcome B) : outcome B :=
  match o with Done a => k a | Panic p => Panic p | NoFuel => NoFuel end.

Lemma zlen_replicate {A} n (x : A) : zlen (replicate n x) = Z.of_nat n.
Proof. unfold zlen. by rewrite length_replicate. Qed.

Lemma str_ltb_irrefl x : str_ltb x x = false.
Proof. induction x as [|a x IH]; [done|]. cbn. by rewrite Z.ltb_irrefl, Z.eqb_refl, IH. Qed.

Lemma str_ltb_trans x y z : str_ltb x y = true -> str_ltb y z = true -> str_ltb x z = true.
Proof.
  revert y z. induction x as [|a x IH]; intros [|b y] [|c z]; cbn; try done.
  intros [H1|H1]%orb_true_iff [H2|H2]%orb_true_iff; apply orb_true_iff; reflect; subst.
  - left. apply Z.ltb_lt. lia.
  - left. by apply Z.ltb_lt.
  - left. by apply Z.ltb_lt.
  - right. rewrite Z.eqb_refl. by eapply IH.
Qed.

Lemma str_ltb_total x y : str_ltb x y = false -> str_ltb y x = false -> x = y.
Proof.
  revert y. induction x as [|a x IH]; intros [|b y]; cbn; try done.
  intros [H1 H1']%orb_false_iff [H2 H2']%orb_false_iff. reflect. assert (a = b) as -> by lia.
  rewrite Z.eqb_refl in *. f_equal. apply IH; naive_solver.
Qed.

Lemma wp_sread {S} s i (Q : Z -> S -> Prop) st :
  (exists c, at_ s i = Some c /\ Q c st) -> wp (sread s i) Q st.
Proof. intros (c & E & H). unfold sread. by rewrite E. Qed.

Lemma wp_exec {S A} (m : M S A) P s : wp m (fun _ s' => P s') s -> exists s', exec m s = Done s' /\ P s'.
Proof. intros (a & s' & E & H)%wp_elim. exists s'. unfold exec. by rewrite E. Qed.
Lemma wp_result {S A} (m : M S A) (P : A -> Prop) s : wp m (fun a _ => P a) s -> exists a, result m s = Done a /\ P a.
Proof. intros (a & s' & E & H)%wp_elim. exists a. unfold result. by rewrite E. Qed.

(** Reading and writing in the middle of an array. *)
Lemma zlen_zero (l : list Z) : zlen l = 0 -> l = [].
Proof. destruct l; [done|]. rewrite zlen_cons. pose proof (zlen_nonneg l). lia. Qed.
Lemma mid_range (a : list Z) x b : 0 <= zlen a < zlen (a ++ x :: b).
Proof. rewrite zlen_app, zlen_cons. pose proof (zlen_nonneg a). pose proof (zlen_nonneg b). lia. Qed.
Lemma wp_load_mid (a : list Z) x b (Q : Z -> list Z -> Prop) : Q x (a ++ x :: b) -> wp (load (zlen a)) Q (a ++ x :: b).
Proof.
  intros HQ. apply wp_load; [apply mid_range|]. intros y Hy. rewrite at_app_r, Z.sub_diag in Hy by lia. by injection Hy as <-.
Qed.
Lemma wp_store_mid (a : list Z) x y b (Q : unit -> list Z -> Prop) : Q tt (a ++ y :: b) -> wp (store (zlen a) y) Q (a ++ x :: b).
Proof.
  intros HQ. apply wp_store; [apply mid_range|]. unfold upd, zlen. rewrite Nat2Z.id.
  replace (length a) with (length a + 0)%nat by lia. by rewrite insert_app_r.
Qed.
