(* ===== verification/Strconv.v ===== *)
(** * internal/strconv: integers

    [src/src/internal/strconv/itoa.go], [atoi.go] and the digit count of
    [uscale.go].  Strings are lists of bytes; [int], [uint], [int64] and
    [uint64] are 64 bits wide.  The arrays the formatting functions fill are the
    store of a computation. *)

From S2P Require Import Prelude.
From S2P Require Import Slice.
From S2P Require Import Bits.
From S2P Require Import Text.

(** ** itoa.go *)

Definition digits : list Z := bytes "0123456789abcdefghijklmnopqrstuvwxyz".
Definition nSmalls : Z := 100.
Definition smalls : list Z := bytes
  "00010203040506070809101112131415161718192021222324252627282930313233343536373839404142434445464748495051525354555657585960616263646566676869707172737475767778798081828384858687888990919293949596979899".

Definition isPowerOfTwo (x : Z) : bool := x .& (x - 1) =? 0.

Definition small (i : Z) : list Z :=
  if i <? 10 then sub i (i + 1) digits else sub (i * 2) (i * 2 + 2) smalls.

(** The two ways of producing the digits of [u] backwards from [a[i]]: they
    return the index and what is left of [u], below [base]. *)
Definition digits_pow2 (base i u : Z) : M (list Z) (Z * Z) :=
  let shift := TrailingZeros base in
  let b := u64 base in
  let m := u64 (base - 1) in
  loop 65 (fun '(i, u) =>
    if u >=? b then
      let i := i - 1 in
      c <- sread digits (u .& m) ;;
      store i c ;;
      continue (i, u >> shift)
    else break (i, u)) (i, u).
Definition digits_div (base i u : Z) : M (list Z) (Z * Z) :=
  let b := u64 base in
  loop 65 (fun '(i, u) =>
    if u >=? b then
      let i := i - 1 in
      let q := u / b in
      c <- sread digits (u64 (u - u64 (q * b))) ;;
      store i c ;;
      continue (i, q)
    else break (i, u)) (i, u).

(** The index of the first byte of the number in the array. *)
Definition formatBits_fill (u base : Z) (neg : bool) : M (list Z) Z :=
  let i := 64 + 1 in
  let u := if neg then u64 (- u) else u in
  '(i, u) <- (if isPowerOfTwo base then digits_pow2 base i u else digits_div base i u) ;;
  let i := i - 1 in
  c <- sread digits u ;;
  store i c ;;
  if neg then
    let i := i - 1 in
    store i (chr "-") ;; mret i
  else mret i.
Definition formatBits (dst : list Z) (u base : Z) (neg append_ : bool) : outcome (list Z * list Z) :=
  if (base <? 2) || (base =? 10) || (base >? zlen digits) then Panic (Explicit 1)
  else
    result (i <- formatBits_fill u base neg ;;
            a <- mget ;;
            mret (if append_ then (dst ++ sub i (64 + 1) a, []) else ([], sub i (64 + 1) a)))
           (replicate 65 0).

(** [a[nd-1], a[nd-2] = smalls[x+1], smalls[x]] *)
Definition put2 (nd x : Z) : M (list Z) unit :=
  c1 <- sread smalls (x + 1) ;;
  c0 <- sread smalls x ;;
  store (nd - 1) c1 ;;
  store (nd - 2) c0.

Definition formatBase10 (u : Z) : M (list Z) unit :=
  a <- mget ;;
  '(nd, u) <- loop (S (length a)) (fun '(nd, u) =>
    if nd >=? 8 then
      let x3210 := u32 (u mod 100000000) in
      let u := u / 100000000 in
      let x32 := x3210 / 10000 in
      let x10 := x3210 mod 10000 in
      let x1 := (x10 / 100) * 2 in
      let x0 := (x10 mod 100) * 2 in
      let x3 := (x32 / 100) * 2 in
      let x2 := (x32 mod 100) * 2 in
      put2 nd x0 ;;
      put2 (nd - 2) x1 ;;
      put2 (nd - 4) x2 ;;
      put2 (nd - 6) x3 ;;
      continue (nd - 8, u)
    else break (nd, u)) (zlen a, u) ;;
  let x := u32 u in
  '(nd, x) <- (if nd >=? 4 then
    let x10 := x mod 10000 in
    let x := x / 10000 in
    let x1 := (x10 / 100) * 2 in
    let x0 := (x10 mod 100) * 2 in
    put2 nd x0 ;;
    put2 (nd - 2) x1 ;;
    mret (nd - 4, x)
  else mret (nd, x)) ;;
  '(nd, x) <- (if nd >=? 2 then
    let x0 := (x mod 100) * 2 in
    let x := x / 100 in
    put2 nd x0 ;;
    mret (nd - 2, x)
  else mret (nd, x)) ;;
  if nd >? 0 then store 0 (u8 (chr "0" + x)) else mret tt.

(** ** uscale.go: the number of decimal digits *)

Definition log10Pow2 (x : Z) : Z := (x * 78913) >> 18.
Definition uint64pow10 : list Z :=
  [1; 10; 100; 1000; 10000; 100000; 1000000; 10000000; 100000000; 1000000000;
   10000000000; 100000000000; 1000000000000; 10000000000000; 100000000000000; 1000000000000000;
   10000000000000000; 100000000000000000; 1000000000000000000; 10000000000000000000].
Definition numDigits (d : Z) : Z :=
  let nd := log10Pow2 (Len64 d) in
  nd + (if d >=? tab uint64pow10 nd then 1 else 0).

(** ** itoa.go: the exported functions *)

(** [formatBase10(a[lo:hi], u)] writes through the slice into the array. *)
Definition format_slice (a : list Z) (lo hi u : Z) : outcome (list Z) :=
  obind (exec (formatBase10 u) (sub lo hi a)) (fun s => Done (sub 0 lo a ++ s ++ sub hi (zlen a) a)).

Definition FormatUint (i base : Z) : outcome (list Z) :=
  if base =? 10 then
    if i <? nSmalls then Done (small i)
    else
      let nd := numDigits i in
      obind (format_slice (replicate 24 0) 0 nd i) (fun a => Done (sub 0 nd a))
  else obind (formatBits [] i base false false) (fun '(_, s) => Done s).

Definition FormatInt (i base : Z) : outcome (list Z) :=
  if base =? 10 then
    if (0 <=? i) && (i <? nSmalls) then Done (small i)
    else
      let u := u64 i in
      let u := if i <? 0 then u64 (- u) else u in
      let nd := numDigits u in
      obind (format_slice (replicate 24 0) 1 (1 + nd) u) (fun a =>
        if i <? 0 then Done (sub 0 (1 + nd) (upd a 0 (chr "-")))
        else Done (sub 1 (1 + nd) a))
  else obind (formatBits [] (u64 i) base (i <? 0) false) (fun '(_, s) => Done s).

Definition Itoa (i : Z) : outcome (list Z) := FormatInt (int64 i) 10.

Definition AppendUint (dst : list Z) (i base : Z) : outcome (list Z) :=
  if base =? 10 then
    if i <? nSmalls then Done (dst ++ small i)
    else
      let nd := numDigits i in
      obind (format_slice (replicate 24 0) 0 nd i) (fun a => Done (dst ++ sub 0 nd a))
  else obind (formatBits dst i base false true) (fun '(dst, _) => Done dst).

Definition AppendInt (dst : list Z) (i base : Z) : outcome (list Z) :=
  let u := u64 i in
  if i <? 0 then AppendUint (dst ++ [chr "-"]) (u64 (- u)) base
  else AppendUint dst u base.

Definition RuntimeFormatBase10 (a : list Z) (u : Z) : outcome (Z * list Z) :=
  let i := zlen a - numDigits (u .| 1) in
  if i <? 0 then Panic SliceBounds
  else obind (format_slice a i (zlen a) u) (fun a => Done (i, a)).

(** ** atoi.go *)

Definition lower (c : Z) : Z := c .| u8 (chr "x" - chr "X").

Inductive Error : Type := ErrRange | ErrSyntax | ErrBase | ErrBitSize.

Definition intSize : Z := 32 << (u64 (Z.lnot 0) >> 63).
Definition IntSize : Z := intSize.

(** The value of one byte as a digit, or a syntax error. *)
Definition digit (c : Z) : option Z :=
  if (chr "0" <=? c) && (c <=? chr "9") then Some (u8 (c - chr "0"))
  else if (chr "a" <=? lower c) && (lower c <=? chr "z") then Some (u8 (u8 (lower c - chr "a") + 10))
  else None.

(** The loop over the bytes: the value and whether an underscore was seen. *)
Fixpoint accumulate (base0 : bool) (base cutoff maxVal : Z) (s : list Z) (n : Z) (underscores : bool) : Z * bool * option Error :=
  match s with
  | [] => (n, underscores, None)
  | c :: s =>
      if (c =? chr "_") && base0 then accumulate base0 base cutoff maxVal s n true
      else
        match digit c with
        | None => (0, underscores, Some ErrSyntax)
        | Some d =>
            if d >=? u8 base then (0, underscores, Some ErrSyntax)
            else if n >=? cutoff then (maxVal, underscores, Some ErrRange)
            else
              let n := u64 (n * u64 base) in
              let n1 := u64 (n + d) in
              if (n1 <? n) || (n1 >? maxVal) then (maxVal, underscores, Some ErrRange)
              else accumulate base0 base cutoff maxVal s n1 underscores
        end
  end.

Inductive saw_class : Type := SawStart | SawDigit | SawUnderscore | SawOther.

(** The loop of [underscoreOK] over the number proper. *)
Fixpoint underscores_from (hex : bool) (s : list Z) (saw : saw_class) : bool :=
  match s with
  | [] => match saw with SawUnderscore => false | _ => true end
  | c :: s =>
      if ((chr "0" <=? c) && (c <=? chr "9")) || (hex && (chr "a" <=? lower c) && (lower c <=? chr "f"))
      then underscores_from hex s SawDigit
      else if c =? chr "_" then
        match saw with SawDigit => underscores_from hex s SawUnderscore | _ => false end
      else
        match saw with SawUnderscore => false | _ => underscores_from hex s SawOther end
  end.
Definition skip_sign (s : list Z) : list Z :=
  if (zlen s >=? 1) && ((tab s 0 =? chr "-") || (tab s 0 =? chr "+")) then drop 1 s else s.
Definition underscoreOK (s : list Z) : bool :=
  let s := skip_sign s in
  if (zlen s >=? 2) && (tab s 0 =? chr "0")
     && ((lower (tab s 1) =? chr "b") || (lower (tab s 1) =? chr "o") || (lower (tab s 1) =? chr "x"))
  then underscores_from (lower (tab s 1) =? chr "x") (drop 2 s) SawDigit
  else underscores_from false s SawStart.

(** The base and the digits, from the base argument and the prefix. *)
Definition base_prefix (s : list Z) (base : Z) : option (Z * list Z) :=
  if (2 <=? base) && (base <=? 36) then Some (base, s)
  else if base =? 0 then
    if tab s 0 =? chr "0" then
      if (zlen s >=? 3) && (lower (tab s 1) =? chr "b") then Some (2, drop 2 s)
      else if (zlen s >=? 3) && (lower (tab s 1) =? chr "o") then Some (8, drop 2 s)
      else if (zlen s >=? 3) && (lower (tab s 1) =? chr "x") then Some (16, drop 2 s)
      else Some (8, drop 1 s)
    else Some (10, s)
  else None.
Definition cutoff_of (base : Z) : Z :=
  if base =? 10 then (2 ^ 64 - 1) / 10 + 1
  else if base =? 16 then (2 ^ 64 - 1) / 16 + 1
  else u64 ((2 ^ 64 - 1) / u64 base + 1).

Definition ParseUint (s : list Z) (base bitSize : Z) : Z * option Error :=
  match s with
  | [] => (0, Some ErrSyntax)
  | _ =>
      let base0 := base =? 0 in
      let s0 := s in
      match base_prefix s base with
      | None => (0, Some ErrBase)
      | Some (base, s) =>
          if negb (bitSize =? 0) && ((bitSize <? 0) || (bitSize >? 64)) then (0, Some ErrBitSize)
          else
            let bitSize := if bitSize =? 0 then IntSize else bitSize in
            let maxVal := u64 (u64 (1 << bitSize) - 1) in
            match accumulate base0 base (cutoff_of base) maxVal s 0 false with
            | (n, underscores, Some e) => (n, Some e)
            | (n, underscores, None) =>
                if underscores && negb (underscoreOK s0) then (0, Some ErrSyntax) else (n, None)
            end
      end
  end.

Definition ParseInt (s : list Z) (base bitSize : Z) : Z * option Error :=
  match s with
  | [] => (0, Some ErrSyntax)
  | c :: rest =>
      let neg := c =? chr "-" in
      let s := if (c =? chr "+") || (c =? chr "-") then rest else s in
      match ParseUint s base bitSize with
      | (_, Some ErrSyntax) => (0, Some ErrSyntax)
      | (_, Some ErrBase) => (0, Some ErrBase)
      | (_, Some ErrBitSize) => (0, Some ErrBitSize)
      | (un, _) =>
          let bitSize := if bitSize =? 0 then IntSize else bitSize in
          let cutoff := u64 (1 << u64 (bitSize - 1)) in
          if negb neg && (un >=? cutoff) then (int64 (u64 (cutoff - 1)), Some ErrRange)
          else if neg && (un >? cutoff) then (int64 (- int64 cutoff), Some ErrRange)
          else
            let n := int64 un in
            ((if neg then int64 (- n) else n), None)
      end
  end.

(** The fast path of [Atoi] over the digits. *)
Fixpoint atoi_digits (s : list Z) (n : Z) : option Z :=
  match s with
  | [] => Some n
  | ch :: s =>
      let ch := u8 (ch - chr "0") in
      if ch >? 9 then None else atoi_digits s (int64 (int64 (n * 10) + ch))
  end.
Definition Atoi (s : list Z) : Z * option Error :=
  let sLen := zlen s in
  if ((intSize =? 32) && ((0 <? sLen) && (sLen <? 10))) || ((intSize =? 64) && ((0 <? sLen) && (sLen <? 19))) then
    let s0 := s in
    let signed := (tab s 0 =? chr "-") || (tab s 0 =? chr "+") in
    let s := if signed then drop 1 s else s in
    if signed && (zlen s <? 1) then (0, Some ErrSyntax)
    else
      match atoi_digits s 0 with
      | None => (0, Some ErrSyntax)
      | Some n => ((if tab s0 0 =? chr "-" then int64 (- n) else n), None)
      end
  else
    let '(i64, err) := ParseInt s 10 0 in (int64 i64, err).

Example FormatInt_dec : FormatInt (-1234567890123) 10 = Done (bytes "-1234567890123").
Proof. by vm_compute. Qed.
Example FormatInt_hex : FormatInt (-255) 16 = Done (bytes "-ff").
Proof. by vm_compute. Qed.
Example FormatInt_min : FormatInt (- 2 ^ 63) 7 = Done (bytes "-22341010611245052052301").
Proof. by vm_compute. Qed.
Example FormatUint_max : FormatUint (2 ^ 64 - 1) 10 = Done (bytes "18446744073709551615").
Proof. by vm_compute. Qed.
Example ParseInt_hex : ParseInt (bytes "-0x_7f") 0 8 = (-127, None).
Proof. by vm_compute. Qed.
Example ParseInt_overflow : ParseInt (bytes "128") 10 8 = (127, Some ErrRange).
Proof. by vm_compute. Qed.
Example Atoi_plus : Atoi (bytes "+") = (0, Some ErrSyntax).
Proof. by vm_compute. Qed.
