(* ===== verification/StrconvFormat.v ===== *)
(** * internal/strconv: formatting integers

    [fixed k b n] is the numeral of [k] digits of [n] in base [b].  Both
    algorithms of [itoa.go] build it from the right: digit by digit in any base,
    two digits at a time in base 10. *)

From S2P Require Import Prelude.
From S2P Require Import Slice.
From S2P Require Import Bits.
From S2P Require Import BitsArith.
From S2P Require Import BitsCounting.
From S2P Require Import Text.
From S2P Require Import Strconv.

(** ** Numerals *)

Definition digit_char (d : Z) : Z := if d <? 10 then 48 + d else 87 + d.
Definition char_value (c : Z) : Z := if c <? 58 then c - 48 else c - 87.

Fixpoint fixed (k : nat) (b n : Z) : list Z :=
  match k with
  | O => []
  | S k => fixed k b (n / b) ++ [digit_char (n mod b)]
  end.

Definition value (b : Z) (s : list Z) : Z := fold_left (fun n c => n * b + char_value c) s 0.

(** [s] is the numeral of [n] in base [b]: its digits are below [b], its value
    is [n], and it has no leading zero. *)
Definition numeral (b n : Z) (s : list Z) : Prop :=
  Forall (fun c => exists d, 0 <= d < b /\ c = digit_char d) s /\
  value b s = n /\
  (exists c t, s = c :: t /\ (c = digit_char 0 -> t = [])).

Lemma fixed_length k b n : length (fixed k b n) = k.
Proof. revert n. induction k as [|k IH]; intros n; [done|]. cbn. rewrite length_app, IH. cbn. lia. Qed.
Lemma fixed_zlen k b n : zlen (fixed k b n) = Z.of_nat k.
Proof. unfold zlen. by rewrite fixed_length. Qed.

Lemma fixed_app j k b n : 0 < b -> fixed (j + k) b n = fixed j b (n / b ^ Z.of_nat k) ++ fixed k b n.
Proof.
  intros Hb. revert n. induction k as [|k IH]; intros n.
  - rewrite Nat.add_0_r, Z.div_1_r. by rewrite app_nil_r.
  - rewrite Nat.add_succ_r. cbn [fixed]. rewrite IH, app_assoc. do 3 f_equal.
    rewrite Z.div_div by lia. f_equal. rewrite Nat2Z.inj_succ, Z.pow_succ_r by lia. lia.
Qed.

Lemma fixed_cons k b n : 0 < b -> fixed (S k) b n = digit_char (n / b ^ Z.of_nat k mod b) :: fixed k b n.
Proof. intros. by rewrite (fixed_app 1 k). Qed.

Lemma char_value_digit d : 0 <= d < 36 -> char_value (digit_char d) = d.
Proof.
  intros. unfold char_value, digit_char. destruct (Z.ltb_spec d 10).
  - destruct (Z.ltb_spec (48 + d) 58); lia.
  - destruct (Z.ltb_spec (87 + d) 58); lia.
Qed.

Lemma value_fixed k b n : 1 < b <= 36 -> 0 <= n -> value b (fixed k b n) = n mod b ^ Z.of_nat k.
Proof.
  intros Hb. revert n. induction k as [|k IH]; intros n Hn.
  - cbn. by rewrite Z.mod_1_r.
  - unfold value in *. cbn [fixed]. rewrite fold_left_app, IH by (apply Z.div_pos; lia). cbn [fold_left].
    rewrite char_value_digit by (pose proof (Z.mod_pos_bound n b); lia).
    rewrite Nat2Z.inj_succ, Z.pow_succ_r by lia. rewrite Z.rem_mul_r by lia. lia.
Qed.

(** [k] is the number of digits of [n]. *)
Definition width (b n : Z) (k : nat) : Prop :=
  (1 <= k)%nat /\ n < b ^ Z.of_nat k /\ (k = 1%nat \/ b ^ (Z.of_nat k - 1) <= n).

Lemma numeral_fixed b n k : 1 < b <= 36 -> 0 <= n -> width b n k -> numeral b n (fixed k b n).
Proof.
  intros Hb Hn (Hk & Hlt & Hge). split_and!.
  - clear Hk Hlt Hge. revert n Hn. induction k as [|k IH]; intros n Hn; [constructor|]. cbn [fixed].
    apply Forall_app. split; [apply IH, Z.div_pos; lia|]. constructor; [|constructor].
    exists (n mod b). split; [apply Z.mod_pos_bound; lia|done].
  - rewrite value_fixed by lia. apply Z.mod_small. lia.
  - destruct k as [|k]; [lia|]. rewrite fixed_cons by lia. eexists _, _. split; [done|].
    intros E. destruct Hge as [Hk1|Hge]; [by replace k with O by lia|]. exfalso.
    replace (Z.of_nat (S k) - 1) with (Z.of_nat k) in Hge by lia. rewrite Nat2Z.inj_succ, Z.pow_succ_r in Hlt by lia.
    assert (0 < b ^ Z.of_nat k) by (apply Z.pow_pos_nonneg; lia).
    assert (1 <= n / b ^ Z.of_nat k) by (apply Z.div_le_lower_bound; lia).
    assert (n / b ^ Z.of_nat k < b) by (apply Z.div_lt_upper_bound; lia).
    rewrite Z.mod_small in E by lia. apply (f_equal char_value) in E. rewrite !char_value_digit in E by lia. lia.
Qed.

(** Numerals without leading zeros are unique. *)
Lemma width_unique b n k k' : 1 < b -> 0 <= n -> width b n k -> width b n k' -> k = k'.
Proof.
  intros Hb Hn (H1 & H2 & H3) (H1' & H2' & H3').
  destruct (Nat.lt_trichotomy k k') as [Hlt|[|Hlt]]; [exfalso|done|exfalso].
  - destruct H3' as [|H3']; [lia|]. assert (b ^ Z.of_nat k <= b ^ (Z.of_nat k' - 1)) by (apply Z.pow_le_mono_r; lia). lia.
  - destruct H3 as [|H3]; [lia|]. assert (b ^ Z.of_nat k' <= b ^ (Z.of_nat k - 1)) by (apply Z.pow_le_mono_r; lia). lia.
Qed.

(** ** Writing backwards *)

Lemma sread_digits {S} d (Q : Z -> S -> Prop) s : 0 <= d < 36 -> Q (digit_char d) s -> wp (sread digits d) Q s.
Proof.
  intros Hd HQ. apply wp_sread. exists (digit_char d). split; [|done].
  pose proof (forall_below 36 (fun d => bool_decide (at_ digits d = Some (digit_char d))) ltac:(by vm_compute) d Hd) as E.
  by apply bool_decide_eq_true in E.
Qed.

Lemma wp_store_back pre suf i c (Q : unit -> list Z -> Prop) :
  zlen pre = i -> 0 < i -> (forall pre', zlen pre' = i - 1 -> Q tt (pre' ++ c :: suf)) ->
  wp (store (i - 1) c) Q (pre ++ suf).
Proof.
  intros Hi Hpos HQ. destruct (exists_last (l := pre)) as (pre' & x & ->).
  { intros ->. rewrite zlen_nil in Hi. lia. }
  rewrite zlen_app in Hi. change (zlen [x]) with 1 in Hi. apply wp_store.
  - rewrite !zlen_app. change (zlen [x]) with 1. pose proof (zlen_nonneg pre'). pose proof (zlen_nonneg suf). lia.
  - replace (upd ((pre' ++ [x]) ++ suf) (i - 1) c) with (pre' ++ c :: suf); [apply HQ; lia|].
    unfold upd. rewrite <- app_assoc. cbn [app]. rewrite insert_app_r_alt by (unfold zlen in Hi; lia).
    replace (Z.to_nat (i - 1) - length pre')%nat with O by (unfold zlen in Hi; lia). done.
Qed.

(** ** Any base: [formatBits] *)

Lemma pow2_base b : 2 <= b <= 36 -> isPowerOfTwo b = true -> 0 <= TrailingZeros b /\ b = 2 ^ TrailingZeros b.
Proof.
  intros Hb Hp. pose proof (forall_below 37 (fun b => (b <? 2) || negb (isPowerOfTwo b) || ((0 <=? TrailingZeros b) && (b =? 2 ^ TrailingZeros b)))
    ltac:(by vm_compute) b ltac:(lia)) as E. cbn beta in E.
  destruct (Z.ltb_spec b 2); [lia|]. rewrite Hp in E. cbn [orb negb] in E. reflect. done.
Qed.

Section Backwards.
Context (b u0 : Z) (Hb : 2 <= b <= 36) (Hu0 : 0 <= u0 < 2 ^ 64).
Context (body : Z * Z -> M (list Z) (Z * Z + Z * Z)).
(** One round of either loop. *)
Hypothesis body_spec : forall i u Q a, 0 <= u < 2 ^ 64 ->
  (b <= u -> wp (store (i - 1) (digit_char (u mod b)) ;; continue (i - 1, u / b)) Q a) ->
  (u < b -> Q (inr (i, u)) a) ->
  wp (body (i, u)) Q a.

(** [k] digits are in the array, [i] bytes are free. *)
Definition written (i : Z) (k : nat) (a : list Z) : Prop :=
  exists pre, a = pre ++ fixed k b u0 /\ zlen pre = i /\ i + Z.of_nat k = 65 /\ (k = 0%nat \/ b ^ Z.of_nat k <= u0).

Lemma written_width i k a : written i k a -> (k <= 63)%nat.
Proof.
  intros (pre & _ & _ & _ & [-> |H]); [lia|]. assert (Hk : b ^ Z.of_nat k < 2 ^ 64) by lia.
  assert (2 ^ Z.of_nat k <= b ^ Z.of_nat k) by (apply Z.pow_le_mono_l; lia).
  destruct (decide (k <= 63)%nat); [done|]. assert (2 ^ 64 <= 2 ^ Z.of_nat k) by (apply Z.pow_le_mono_r; lia). lia.
Qed.

Lemma quotient_range k : 0 <= u0 / b ^ Z.of_nat k < 2 ^ 64.
Proof.
  assert (0 < b ^ Z.of_nat k) by (apply Z.pow_pos_nonneg; lia).
  split; [apply Z.div_pos; lia|]. apply Z.div_lt_upper_bound; nia.
Qed.

Lemma digits_loop a Q :
  zlen a = 65 ->
  (forall i k a, written i k a -> u0 / b ^ Z.of_nat k < b -> Q (i, u0 / b ^ Z.of_nat k) a) ->
  wp (loop 65 body (65, u0)) Q a.
Proof.
  intros Ha HQ.
  apply (wp_loop (fun '(i, u) a => exists k, written i k a /\ u = u0 / b ^ Z.of_nat k) (fun '(i, u) => Z.to_nat (i - 1))).
  - exists O. split; [|by rewrite Z.div_1_r]. exists a. split_and!; [by rewrite app_nil_r|done|done|by left].
  - lia.
  - clear a Ha. intros [i u] a (k & Hw & ->). pose proof (written_width _ _ _ Hw) as Hk.
    pose proof Hw as (pre & -> & Hi & Hik & Hge). apply body_spec; [apply quotient_range| |].
    + intros Hle. apply wp_bind, wp_store_back; [done|lia|]. intros pre' Hpre'. apply wp_continue.
      split; [|lia]. exists (S k). split.
      * exists pre'. split_and!; [by rewrite fixed_cons by lia|done|lia|right].
        rewrite Nat2Z.inj_succ, Z.pow_succ_r by lia.
        assert (0 < b ^ Z.of_nat k) by (apply Z.pow_pos_nonneg; lia).
        pose proof (Z.mul_div_le u0 (b ^ Z.of_nat k)). nia.
      * rewrite Nat2Z.inj_succ, Z.pow_succ_r, Z.div_div by (try apply Z.pow_nonzero; lia). f_equal. lia.
    + intros Hlt. by apply HQ.
Qed.
End Backwards.

Lemma digits_pow2_loop b u0 a Q :
  2 <= b <= 36 -> isPowerOfTwo b = true -> 0 <= u0 < 2 ^ 64 -> zlen a = 65 ->
  (forall i k a, written b u0 i k a -> u0 / b ^ Z.of_nat k < b -> Q (i, u0 / b ^ Z.of_nat k) a) ->
  wp (digits_pow2 b 65 u0) Q a.
Proof.
  intros Hb Hp Hu Ha HQ. unfold digits_pow2. cbv zeta. destruct (pow2_base b Hb Hp) as [Hs Eb].
  apply (digits_loop b u0 Hb Hu); [|done..]. clear a Ha HQ Q. intros i u Q a Hru Hle Hlt.
  wrap. rewrite Z.geb_leb. destruct (Z.leb_spec b u); [|by apply wp_break, Hlt].
  apply wp_bind. assert (u .& (b - 1) = u mod b) as ->.
  { rewrite Eb at 1 2. by apply land_mask. }
  apply sread_digits; [pose proof (Z.mod_pos_bound u b); lia|].
  rewrite shiftr_pow by done. rewrite <- Eb. by apply Hle.
Qed.

Lemma digits_div_loop b u0 a Q :
  2 <= b <= 36 -> 0 <= u0 < 2 ^ 64 -> zlen a = 65 ->
  (forall i k a, written b u0 i k a -> u0 / b ^ Z.of_nat k < b -> Q (i, u0 / b ^ Z.of_nat k) a) ->
  wp (digits_div b 65 u0) Q a.
Proof.
  intros Hb Hu Ha HQ. unfold digits_div. cbv zeta.
  apply (digits_loop b u0 Hb Hu); [|done..]. clear a Ha HQ Q. intros i u Q a Hru Hle Hlt.
  wrap. rewrite Z.geb_leb. destruct (Z.leb_spec b u); [|by apply wp_break, Hlt].
  apply wp_bind. assert (u64 (u - u64 (u / b * b)) = u mod b) as ->.
  { pose proof (Z.div_mod u b). pose proof (Z.mod_pos_bound u b). rewrite (u64_id (u / b * b)) by lia. rewrite u64_id; lia. }
  apply sread_digits; [pose proof (Z.mod_pos_bound u b); lia|]. by apply Hle.
Qed.

Lemma sub_suffix_app (pre s : list Z) n : n = zlen (pre ++ s) -> sub (zlen pre) n (pre ++ s) = s.
Proof. intros ->. unfold sub, zlen. rewrite !Nat2Z.id, drop_app_length. apply take_ge. rewrite length_app. lia. Qed.

(** The magnitude of the value to print. *)
Definition magnitude (u : Z) (neg : bool) : Z := if neg then u64 (- u) else u.
Definition sign (neg : bool) : list Z := if neg then [45] else [].

Lemma formatBits_fill_spec u b neg a :
  2 <= b <= 36 -> 0 <= u < 2 ^ 64 -> zlen a = 65 ->
  wp (formatBits_fill u b neg)
    (fun i a => exists k, width b (magnitude u neg) k /\ 0 <= i /\ zlen a = 65 /\
       sub i 65 a = sign neg ++ fixed k b (magnitude u neg)) a.
Proof.
  intros Hb Hu Ha. unfold formatBits_fill. fold (magnitude u neg). set (u0 := magnitude u neg). change (64 + 1) with 65. cbv zeta.
  assert (Hu0 : 0 <= u0 < 2 ^ 64) by (unfold u0, magnitude; destruct neg; [apply u64_range|done]).
  set (K := fun (r : Z * Z) a => wp (let '(i, u) := r in c <- sread digits u ;; store (i - 1) c ;;
      (if neg then store (i - 1 - 1) (chr "-") ;; mret (i - 1 - 1) else mret (i - 1)))
    (fun i a => exists k, width b u0 k /\ 0 <= i /\ zlen a = 65 /\ sub i 65 a = sign neg ++ fixed k b u0) a).
  assert (HK : forall i k a, written b u0 i k a -> u0 / b ^ Z.of_nat k < b -> K (i, u0 / b ^ Z.of_nat k) a).
  { intros i k a' Hw Hlt. pose proof (written_width b u0 Hb Hu0 _ _ _ Hw) as Hk. destruct Hw as (pre & -> & Hi & Hik & Hge).
    pose proof (quotient_range b u0 Hb Hu0 k) as Hq. apply wp_bind, sread_digits; [lia|].
    assert (Hwd : width b u0 (S k)).
    { assert (0 < b ^ Z.of_nat k) by (apply Z.pow_pos_nonneg; lia). split_and!; [lia| |].
      - rewrite Nat2Z.inj_succ, Z.pow_succ_r by lia. pose proof (Z.mul_succ_div_gt u0 (b ^ Z.of_nat k)). nia.
      - destruct Hge as [-> |Hge]; [by left|right]. by replace (Z.of_nat (S k) - 1) with (Z.of_nat k) by lia. }
    assert (E : digit_char (u0 / b ^ Z.of_nat k) :: fixed k b u0 = fixed (S k) b u0) by (rewrite fixed_cons, Z.mod_small by lia; done).
    apply wp_bind, wp_store_back; [done|lia|]. intros pre' Hpre'. rewrite E.
    assert (Hz : zlen (pre' ++ fixed (S k) b u0) = 65) by (rewrite zlen_app, fixed_zlen; lia).
    destruct neg.
    - apply wp_bind, wp_store_back; [done|lia|]. intros pre'' Hpre''. apply wp_ret. exists (S k).
      assert (Hz' : zlen (pre'' ++ chr "-" :: fixed (S k) b u0) = 65) by (rewrite zlen_app, zlen_cons, fixed_zlen; lia).
      split_and!; [done|lia|done|]. rewrite <- Hpre''. by apply sub_suffix_app.
    - apply wp_ret. exists (S k). split_and!; [done|lia|done|]. rewrite <- Hpre'. by apply sub_suffix_app. }
  apply wp_bind. destruct (isPowerOfTwo b) eqn:Hp; [by apply digits_pow2_loop|by apply digits_div_loop].
Qed.

Lemma formatBits_spec dst u b neg append_ :
  2 <= b <= 36 -> b <> 10 -> 0 <= u < 2 ^ 64 ->
  exists k, width b (magnitude u neg) k /\
    let s := sign neg ++ fixed k b (magnitude u neg) in
    formatBits dst u b neg append_ = Done (if append_ then (dst ++ s, []) else ([], s)).
Proof.
  intros Hb H10 Hu. unfold formatBits. change (zlen digits) with 36. rewrite Z.gtb_ltb.
  destruct (Z.ltb_spec b 2), (Z.eqb_spec b 10), (Z.ltb_spec 36 b); try lia. cbn [orb]. change (64 + 1) with 65.
  destruct (wp_result (i <- formatBits_fill u b neg ;; a <- mget ;;
      mret (if append_ then (dst ++ sub i 65 a, []) else ([], sub i 65 a)))
    (fun r => exists k, width b (magnitude u neg) k /\
       r = if append_ then (dst ++ sign neg ++ fixed k b (magnitude u neg), []) else ([], sign neg ++ fixed k b (magnitude u neg)))
    (replicate 65 0)) as (r & E & k & Hk & ->).
  - eapply wp_call; [by apply formatBits_fill_spec|]. cbv beta. intros i a (k & Hk & Hi & Ha & E).
    apply wp_bind, wp_get, wp_ret. exists k. split; [done|]. by rewrite E.
  - exists k. split; [done|]. exact E.
Qed.

(** ** Base 10 *)

Lemma smalls_at i d : 0 <= i < 100 -> (d = 0 \/ d = 1) ->
  at_ smalls (i * 2 + d) = Some (digit_char (if d =? 0 then i / 10 else i mod 10)).
Proof.
  intros Hi Hd.
  pose proof (forall_below 100 (fun i => bool_decide (at_ smalls (i * 2) = Some (digit_char (i / 10))) &&
    bool_decide (at_ smalls (i * 2 + 1) = Some (digit_char (i mod 10)))) ltac:(by vm_compute) i Hi) as E.
  cbn beta in E. apply andb_prop in E as [E1 E2]. apply bool_decide_eq_true in E1, E2.
  destruct Hd as [-> | ->]; [by rewrite Z.add_0_r|done].
Qed.

Lemma fixed_two k n : fixed (S (S k)) 10 n = digit_char (n / 10 ^ Z.of_nat k / 10 mod 10) :: digit_char (n / 10 ^ Z.of_nat k mod 10) :: fixed k 10 n.
Proof. by rewrite (fixed_app 2 k) by lia. Qed.

Section Base10.
Context (u0 N : Z).

(** [k] digits are written, [nd] bytes are free, [u] is left to print. *)
Definition printed (nd : Z) (u : Z) (a : list Z) : Prop :=
  exists pre k, a = pre ++ fixed k 10 u0 /\ zlen pre = nd /\ nd + Z.of_nat k = N /\ u = u0 / 10 ^ Z.of_nat k.

Lemma wp_put2 nd u y (Q : unit -> list Z -> Prop) a :
  printed nd u a -> 2 <= nd -> y = u mod 100 -> (forall a, printed (nd - 2) (u / 100) a -> Q tt a) ->
  wp (put2 nd (y * 2)) Q a.
Proof.
  intros (pre & k & -> & Hpre & HN & ->) Hnd -> HQ. set (v := u0 / 10 ^ Z.of_nat k) in *. unfold put2.
  assert (Hv : 0 <= v mod 100 < 100) by (apply Z.mod_pos_bound; lia).
  apply wp_bind, wp_sread. eexists. split; [by apply smalls_at; [|right]|].
  apply wp_bind, wp_sread. eexists. split; [rewrite <- (Z.add_0_r (_ * 2)); by apply smalls_at; [|left]|]. cbn [Z.eqb Pos.eqb].
  apply wp_bind, wp_store_back; [done|lia|]. intros pre1 H1.
  replace (nd - 2) with (nd - 1 - 1) by lia. apply wp_store_back; [done|lia|]. intros pre2 H2.
  apply HQ. exists pre2, (S (S k)). split_and!; [|lia|lia|].
  - rewrite fixed_two. fold v. do 2 f_equal; [f_equal; divlia|f_equal; f_equal; divlia].
  - unfold v. rewrite Z.div_div by lia. f_equal. rewrite !Nat2Z.inj_succ, !Z.pow_succ_r by lia. lia.
Qed.

Lemma printed_small nd u a : 0 <= u0 < 10 ^ N -> printed nd u a -> 0 <= nd /\ 0 <= u < 10 ^ nd.
Proof.
  intros HuN (pre & k & -> & Hpre & HN & ->). pose proof (zlen_nonneg pre).
  assert (0 < 10 ^ Z.of_nat k) by (apply Z.pow_pos_nonneg; lia).
  split; [lia|]. split; [apply Z.div_pos; lia|]. apply Z.div_lt_upper_bound; [done|].
  rewrite <- Z.pow_add_r by lia. replace (Z.of_nat k + nd) with N by lia. lia.
Qed.

(** The last eight digits, as four pairs. *)
Lemma wp_eight nd u (Q : Z * Z + Z * Z -> list Z -> Prop) a :
  printed nd u a -> 8 <= nd -> 0 <= u ->
  (forall a, printed (nd - 8) (u / 100000000) a -> Q (inl (nd - 8, u / 100000000)) a) ->
  wp (let x3210 := u32 (u mod 100000000) in
      let u := u / 100000000 in
      let x32 := x3210 / 10000 in
      let x10 := x3210 mod 10000 in
      let x1 := (x10 / 100) * 2 in
      let x0 := (x10 mod 100) * 2 in
      let x3 := (x32 / 100) * 2 in
      let x2 := (x32 mod 100) * 2 in
      put2 nd x0 ;; put2 (nd - 2) x1 ;; put2 (nd - 4) x2 ;; put2 (nd - 6) x3 ;; continue (nd - 8, u)) Q a.
Proof.
  intros Hp Hnd Hu HQ. cbv zeta. pose proof (Z.mod_pos_bound u 100000000). rewrite u32_id by lia.
  apply wp_bind. apply (wp_put2 _ u); [done|lia|divlia|]. clear a Hp. intros a Hp.
  apply wp_bind. apply (wp_put2 _ (u / 100)); [done|lia|divlia|]. clear a Hp. intros a Hp.
  replace (nd - 2 - 2) with (nd - 4) in Hp by lia.
  apply wp_bind. apply (wp_put2 _ (u / 100 / 100)); [done|lia|divlia|]. clear a Hp. intros a Hp.
  replace (nd - 4 - 2) with (nd - 6) in Hp by lia.
  apply wp_bind. apply (wp_put2 _ (u / 100 / 100 / 100)); [done|lia|divlia|]. clear a Hp. intros a Hp.
  apply wp_continue, HQ. replace (nd - 6 - 2) with (nd - 8) in Hp by lia. rewrite !Z.div_div in Hp by lia. exact Hp.
Qed.
End Base10.

Lemma printed_done u0 N u a : printed u0 N 0 u a -> a = fixed (Z.to_nat N) 10 u0.
Proof.
  intros (pre & k & -> & Hpre & HN & _). destruct pre; [|rewrite zlen_cons in Hpre; pose proof (zlen_nonneg pre); lia].
  cbn [app]. f_equal. lia.
Qed.
Lemma printed_zlen u0 N nd u a : printed u0 N nd u a -> zlen a = N.
Proof. intros (pre & k & -> & Hpre & HN & _). rewrite zlen_app, fixed_zlen. lia. Qed.

(** The last one to seven digits. *)
Lemma wp_last_digits u0 N nd u a :
  0 <= u0 < 2 ^ 64 -> 0 <= u0 < 10 ^ N -> printed u0 N nd u a -> nd < 8 ->
  wp (let x := u32 u in
      '(nd, x) <- (if nd >=? 4 then
        let x10 := x mod 10000 in
        let x := x / 10000 in
        let x1 := (x10 / 100) * 2 in
        let x0 := (x10 mod 100) * 2 in
        put2 nd x0 ;; put2 (nd - 2) x1 ;; mret (nd - 4, x)
      else mret (nd, x)) ;;
      '(nd, x) <- (if nd >=? 2 then
        let x0 := (x mod 100) * 2 in
        let x := x / 100 in
        put2 nd x0 ;; mret (nd - 2, x)
      else mret (nd, x)) ;;
      if nd >? 0 then store 0 (u8 (chr "0" + x)) else mret tt)
    (fun _ a => a = fixed (Z.to_nat N) 10 u0) a.
Proof.
  intros H64 HN Hp Hnd. destruct (printed_small u0 N nd u a HN Hp) as [Hn0 Hu].
  assert (10 ^ nd <= 10 ^ 7) by (apply Z.pow_le_mono_r; lia). cbv zeta. rewrite u32_id by lia.
  set (I := fun m (r : Z * Z) a => let '(nd, u) := r in printed u0 N nd u a /\ nd < m).
  apply (wp_call _ _ (I 4)).
  { rewrite Z.geb_leb. destruct (Z.leb_spec 4 nd); [|by apply wp_ret].
    apply wp_bind. apply (wp_put2 u0 N _ u); [done|lia|divlia|]. clear a Hp. intros a Hp.
    apply wp_bind. apply (wp_put2 u0 N _ (u / 100)); [done|lia|divlia|]. clear a Hp. intros a Hp.
    apply wp_ret. split; [|lia]. replace (nd - 2 - 2) with (nd - 4) in Hp by lia. rewrite !Z.div_div in Hp by lia. exact Hp. }
  clear a u Hp Hu nd Hnd Hn0 H. intros [nd u] a [Hp Hnd]. apply (wp_call _ _ (I 2)).
  { rewrite Z.geb_leb. destruct (Z.leb_spec 2 nd); [|by apply wp_ret].
    apply wp_bind. apply (wp_put2 u0 N _ u); [done|lia|done|]. clear a Hp. intros a Hp. apply wp_ret. split; [done|lia]. }
  clear a u Hp nd Hnd. intros [nd u] a [Hp Hnd]. destruct (printed_small u0 N nd u a HN Hp) as [Hn0 Hu].
  rewrite Z.gtb_ltb. destruct (Z.ltb_spec 0 nd).
  - replace nd with 1 in * by lia. pose proof Hp as (pre & k & -> & Hpre & Hk & Eu). change (chr "0") with 48. rewrite u8_id by lia.
    apply (wp_store_back pre _ 1); [done|lia|]. intros pre' Hpre'.
    destruct pre'; [|rewrite zlen_cons in Hpre'; pose proof (zlen_nonneg pre'); lia].
    replace (Z.to_nat N) with (S k) by lia. rewrite fixed_cons, <- Eu, Z.mod_small by lia. cbn [app]. f_equal.
    unfold digit_char. by destruct (Z.ltb_spec u 10); [|lia].
  - apply wp_ret. replace nd with 0 in Hp by lia. by eapply printed_done.
Qed.

Lemma formatBase10_spec u a :
  0 <= u < 2 ^ 64 -> u < 10 ^ zlen a -> exec (formatBase10 u) a = Done (fixed (length a) 10 u).
Proof.
  intros Hu HN. destruct (wp_exec (formatBase10 u) (fun a' => a' = fixed (length a) 10 u) a) as (a' & E & ->); [|exact E].
  unfold formatBase10. apply wp_bind, wp_get, wp_bind.
  apply (wp_loop (fun '(nd, v) a' => printed u (zlen a) nd v a') (fun '(nd, v) => Z.to_nat nd)).
  - exists a, O. split_and!; [by rewrite app_nil_r|done|lia|by rewrite Z.div_1_r].
  - unfold zlen. lia.
  - intros [nd v] a' Hp. destruct (printed_small u (zlen a) nd v a' ltac:(lia) Hp) as [Hn0 Hv].
    rewrite Z.geb_leb. destruct (Z.leb_spec 8 nd).
    + apply (wp_eight u (zlen a)); [done|done|lia|]. intros a'' Hp'. split; [done|lia].
    + apply wp_break. replace (length a) with (Z.to_nat (zlen a)) by (unfold zlen; lia). apply (wp_last_digits u (zlen a) nd v); [done|lia|done|lia].
Qed.

(** ** The number of decimal digits *)

Lemma numDigits_width d : 1 <= d < 2 ^ 64 -> width 10 d (Z.to_nat (numDigits d)) /\ 0 <= numDigits d <= 20.
Proof.
  intros Hd. unfold numDigits. rewrite Len64_bitlen by (unfold is_u64; lia). unfold bitlen. destruct (Z.eqb_spec d 0); [lia|].
  pose proof (Z.log2_spec d ltac:(lia)) as Hl. set (L := Z.log2 d) in *. unfold Z.succ in Hl.
  assert (HL : 0 <= L < 64).
  { split; [apply Z.log2_nonneg|]. apply Z.log2_lt_pow2; lia. }
  pose proof (forall_below 64 (fun L => let nd := log10Pow2 (L + 1) in
     (0 <=? nd) && (nd <=? 19) && (tab uint64pow10 nd =? 10 ^ nd) && (2 ^ (L + 1) <=? 10 ^ (nd + 1)) && ((nd =? 0) || (10 ^ (nd - 1) <=? 2 ^ L)))
    ltac:(by vm_compute) L HL) as E. cbv beta zeta in E. set (nd := log10Pow2 (L + 1)) in *. reflect.
  assert (En : tab uint64pow10 nd = 10 ^ nd) by lia. rewrite En, Z.geb_leb.
  destruct (Z.leb_spec (10 ^ nd) d).
  - split; [|lia]. split_and!; [lia| |right].
    + rewrite Z2Nat.id by lia. lia.
    + rewrite Z2Nat.id by lia. by replace (nd + 1 - 1) with nd by lia.
  - assert (nd <> 0) by (intros E0; rewrite E0 in *; cbn in *; lia).
    split; [|lia]. split_and!; [lia| |right]; rewrite Z2Nat.id by lia; rewrite Z.add_0_r; [lia|].
    destruct H0 as [H0|H0]; reflect; lia.
Qed.

Lemma small_spec i : 0 <= i < nSmalls -> exists k, width 10 i k /\ small i = fixed k 10 i.
Proof.
  intros Hi. unfold nSmalls in Hi.
  pose proof (forall_below 100 (fun i => bool_decide (small i = fixed (if i <? 10 then 1 else 2) 10 i)) ltac:(by vm_compute) i Hi) as E.
  cbn beta in E. apply bool_decide_eq_true in E. exists (if i <? 10 then 1%nat else 2%nat). split; [|exact E].
  unfold width. destruct (Z.ltb_spec i 10); split_and!; cbn; lia.
Qed.

(** ** The exported functions *)

Lemma format_slice_spec a lo hi u :
  0 <= lo <= hi -> hi <= zlen a -> 0 <= u < 2 ^ 64 -> u < 10 ^ (hi - lo) ->
  format_slice a lo hi u = Done (sub 0 lo a ++ fixed (Z.to_nat (hi - lo)) 10 u ++ sub hi (zlen a) a).
Proof.
  intros Hlo Hhi Hu Hw. unfold format_slice.
  assert (Hl : zlen (sub lo hi a) = hi - lo) by (unfold sub, zlen in *; rewrite length_take, length_drop; lia).
  rewrite formatBase10_spec; [|done|by rewrite Hl]. cbn [obind]. do 4 f_equal. unfold zlen in Hl. lia.
Qed.

Lemma sub_mid (p s t : list Z) a b : a = zlen p -> b = zlen p + zlen s -> sub a b (p ++ s ++ t) = s.
Proof.
  intros -> ->. unfold sub, zlen. rewrite !Nat2Z.id, drop_app_length, Z2Nat.inj_add, !Nat2Z.id by lia.
  replace (length p + length s - length p)%nat with (length s) by lia. by rewrite take_app_length.
Qed.

Lemma base10_digits u : 100 <= u < 2 ^ 64 -> exists k, width 10 u k /\ numDigits u = Z.of_nat k /\ (k <= 20)%nat.
Proof. intros Hu. destruct (numDigits_width u ltac:(lia)) as [Hw Hn]. eexists. split; [exact Hw|lia]. Qed.

Lemma AppendUint_spec dst i b :
  0 <= i < 2 ^ 64 -> 2 <= b <= 36 -> exists k, width b i k /\ AppendUint dst i b = Done (dst ++ fixed k b i).
Proof.
  intros Hi Hb. unfold AppendUint. destruct (Z.eqb_spec b 10) as [->|Hne].
  - destruct (Z.ltb_spec i nSmalls) as [Hs|Hs].
    + destruct (small_spec i ltac:(lia)) as (k & Hw & ->). by exists k.
    + unfold nSmalls in Hs. destruct (base10_digits i ltac:(lia)) as (k & Hw & -> & Hk). pose proof Hw as (_ & Hlt & _).
      exists k. split; [done|]. rewrite format_slice_spec by (try rewrite Z.sub_0_r; try lia; rewrite zlen_replicate; lia).
      cbn [obind]. rewrite Z.sub_0_r, Nat2Z.id. do 2 f_equal. change (sub 0 0 _) with (@nil Z).
      by rewrite (sub_mid []) by (rewrite ?fixed_zlen; done).
  - destruct (formatBits_spec dst i b false true Hb Hne Hi) as (k & Hw & ->). by exists k.
Qed.

(** [u|1] has as many decimal digits as [u]. *)
Lemma numDigits_odd u : 0 <= u < 2 ^ 64 -> width 10 u (Z.to_nat (numDigits (u .| 1))) /\ 1 <= numDigits (u .| 1) <= 20.
Proof.
  intros Hu. assert (Hb : Z.odd (u .| 1) = true /\ u <= u .| 1 <= u + 1).
  { rewrite <- Z.bit0_odd, Z.lor_spec, orb_true_r. split; [done|]. destruct (Z.odd u) eqn:E.
    - assert (u .| 1 = u) as ->; [|lia]. apply Z.bits_inj'. intros i Hi. rewrite Z.lor_spec. destruct (decide (i = 0)) as [->|].
      + by rewrite Z.bit0_odd, E.
      + rewrite (bits_above 1 1 i), orb_false_r by lia. done.
    - assert (u .| 1 = u + 1) as ->; [|lia]. rewrite <- Z.lxor_lor, <- Z.add_nocarry_lxor; [done|..];
        (apply Z.bits_inj'; intros i Hi; rewrite Z.land_spec, Z.bits_0; destruct (decide (i = 0)) as [->|];
         [by rewrite Z.bit0_odd, E|rewrite (bits_above 1 1 i), andb_false_r by lia; done]). }
  destruct Hb as [Hodd Hb]. assert (Hr : 1 <= u .| 1 < 2 ^ 64).
  { split; [destruct (decide (u = 0)) as [->|]; [done|lia]|]. apply lor_bound; lia. }
  destruct (numDigits_width _ Hr) as [(H1 & H2 & H3) Hn]. set (n := numDigits (u .| 1)) in *. rewrite Z2Nat.id in * by lia.
  split; [|lia]. split; [done|]. rewrite Z2Nat.id by lia. split; [lia|]. destruct H3 as [H3|H3]; [by left|].
  destruct (decide (Z.to_nat n = 1%nat)); [by left|right]. destruct (decide (u .| 1 = 10 ^ (n - 1))) as [E|]; [|lia].
  exfalso. rewrite E, Z.odd_pow in Hodd by lia. done.
Qed.

Lemma RuntimeFormatBase10_spec a u :
  0 <= u < 2 ^ 64 -> 20 <= zlen a ->
  exists s, numeral 10 u s /\ RuntimeFormatBase10 a u = Done (zlen a - zlen s, take (length a - length s) a ++ s).
Proof.
  intros Hu Ha. destruct (numDigits_odd u Hu) as [Hw Hn]. unfold RuntimeFormatBase10. set (n := numDigits (u .| 1)) in *.
  exists (fixed (Z.to_nat n) 10 u). split; [apply numeral_fixed; [lia|lia|done]|]. pose proof Hw as (_ & Hlt & _). rewrite Z2Nat.id in Hlt by lia.
  destruct (Z.ltb_spec (zlen a - n) 0); [lia|]. rewrite format_slice_spec by (try lia; by replace (zlen a - (zlen a - n)) with n by lia).
  cbn [obind]. rewrite fixed_zlen, fixed_length, Z2Nat.id by lia. replace (zlen a - (zlen a - n)) with n by lia. do 2 f_equal.
  assert (sub (zlen a) (zlen a) a = []) as -> by (unfold sub; by rewrite Nat.sub_diag). rewrite app_nil_r. f_equal.
  unfold sub, zlen. rewrite drop_0. f_equal. lia.
Qed.

Lemma FormatUint_AppendUint i b : FormatUint i b = AppendUint [] i b.
Proof.
  unfold FormatUint, AppendUint. destruct (b =? 10); [by destruct (i <? nSmalls)|].
  unfold formatBits. destruct (_ || _); [done|]. unfold result, mbind. by destruct (formatBits_fill _ _ _ _) as [[? ?]| |].
Qed.

Lemma magnitude_int i : - 2 ^ 63 <= i < 2 ^ 63 -> (if i <? 0 then u64 (- u64 i) else u64 i) = Z.abs i.
Proof. intros. unfold u64. destruct (Z.ltb_spec i 0); divlia. Qed.

Lemma FormatInt_spec i b :
  - 2 ^ 63 <= i < 2 ^ 63 -> 2 <= b <= 36 ->
  exists k, width b (Z.abs i) k /\ FormatInt i b = Done (sign (i <? 0) ++ fixed k b (Z.abs i)).
Proof.
  intros Hi Hb. pose proof (magnitude_int i Hi) as Hm. unfold FormatInt. destruct (Z.eqb_spec b 10) as [->|Hne].
  - destruct ((0 <=? i) && (i <? nSmalls)) eqn:E.
    + reflect. destruct (small_spec i ltac:(lia)) as (k & Hw & ->). exists k. rewrite Z.abs_eq by lia.
      by destruct (Z.ltb_spec i 0); [lia|].
    + rewrite Hm. set (u := Z.abs i) in *. assert (Hu : 1 <= u < 2 ^ 64).
      { unfold nSmalls in E. reflect. destruct E; reflect; lia. }
      destruct (numDigits_width u Hu) as [Hw Hn]. set (k := Z.to_nat (numDigits u)) in *. pose proof Hw as (_ & Hlt & _).
      exists k. split; [done|]. replace (numDigits u) with (Z.of_nat k) by lia.
      rewrite format_slice_spec by (try (replace (1 + Z.of_nat k - 1) with (Z.of_nat k) by lia); try lia; rewrite zlen_replicate; lia).
      cbn [obind]. replace (1 + Z.of_nat k - 1) with (Z.of_nat k) by lia. rewrite Nat2Z.id. change (sub 0 1 _) with [0].
      destruct (Z.ltb_spec i 0).
      * f_equal. apply (sub_mid [] (45 :: fixed k 10 u) _ 0 (1 + Z.of_nat k)); [done|rewrite zlen_cons, fixed_zlen; change (zlen (@nil Z)) with 0; lia].
      * f_equal. by rewrite (sub_mid [0]) by (rewrite ?fixed_zlen; done).
  - assert (Hu : 0 <= u64 i < 2 ^ 64) by apply u64_range.
    destruct (formatBits_spec [] (u64 i) b (i <? 0) false Hb Hne Hu) as (k & Hw & ->). unfold magnitude in *. rewrite Hm in *. by exists k.
Qed.

Lemma AppendInt_spec dst i b :
  - 2 ^ 63 <= i < 2 ^ 63 -> 2 <= b <= 36 -> exists s, FormatInt i b = Done s /\ AppendInt dst i b = Done (dst ++ s).
Proof.
  intros Hi Hb. destruct (FormatInt_spec i b Hi Hb) as (k & Hw & ->). eexists. split; [done|].
  pose proof (magnitude_int i Hi) as Hm. unfold AppendInt. cbv zeta. destruct (Z.ltb_spec i 0); rewrite Hm.
  - destruct (AppendUint_spec (dst ++ [chr "-"]) (Z.abs i) b ltac:(lia) Hb) as (k' & Hw' & ->).
    assert (k' = k) as -> by (eapply width_unique; [..|exact Hw'|exact Hw]; lia). by rewrite <- app_assoc.
  - destruct (AppendUint_spec dst (Z.abs i) b ltac:(lia) Hb) as (k' & Hw' & ->).
    by assert (k' = k) as -> by (eapply width_unique; [..|exact Hw'|exact Hw]; lia).
Qed.
