(* ===== verification/StrconvParse.v ===== *)
(** * internal/strconv: parsing integers

    [convert b maxVal s] is what parsing means: the longest prefix of [s] that
    consists of digits of the base decides between a range error and the rest, and
    only then do other characters count.  The code's cutoff and wrap-around tests
    implement it on machine words. *)

From S2P Require Import Prelude.
From S2P Require Import Slice.
From S2P Require Import Bits.
From S2P Require Import BitsArith.
From S2P Require Import Text.
From S2P Require Import Strconv.
From S2P Require Import StrconvFormat.

Definition is_byte (c : Z) : Prop := 0 <= c < 256.

(** The digits of Go's literals: both cases of letters. *)
Definition digit_of (c : Z) : option Z :=
  if (48 <=? c) && (c <=? 57) then Some (c - 48)
  else if (97 <=? c) && (c <=? 122) then Some (c - 87)
  else if (65 <=? c) && (c <=? 90) then Some (c - 55)
  else None.
Definition digit_in (b c : Z) : option Z :=
  match digit_of c with
  | Some d => if d <? b then Some d else None
  | None => None
  end.

(** The values of the longest prefix of digits, and whether it is all of [s]. *)
Fixpoint digit_prefix (b : Z) (s : list Z) : list Z * bool :=
  match s with
  | [] => ([], true)
  | c :: s =>
      match digit_in b c with
      | Some d => let '(ds, all) := digit_prefix b s in (d :: ds, all)
      | None => ([], false)
      end
  end.
Definition val_from (b n : Z) (ds : list Z) : Z := fold_left (fun n d => n * b + d) ds n.

Definition convert_from (b maxVal n : Z) (s : list Z) : Z * option Error :=
  let '(ds, all) := digit_prefix b s in
  let v := val_from b n ds in
  if maxVal <? v then (maxVal, Some ErrRange)
  else if all : bool then (v, None) else (0, Some ErrSyntax).
Definition convert (b maxVal : Z) (s : list Z) : Z * option Error := convert_from b maxVal 0 s.

Lemma digit_spec c : is_byte c -> digit c = digit_of c.
Proof.
  intros Hc. pose proof (forall_below 256 (fun c => bool_decide (digit c = digit_of c)) ltac:(by vm_compute) c Hc) as E.
  by apply bool_decide_eq_true in E.
Qed.
Lemma digit_of_range c d : digit_of c = Some d -> 0 <= d < 36.
Proof.
  unfold digit_of. destruct (Z.leb_spec 48 c), (Z.leb_spec c 57), (Z.leb_spec 97 c), (Z.leb_spec c 122), (Z.leb_spec 65 c), (Z.leb_spec c 90);
    cbn; intros [= <-]; lia.
Qed.
Lemma digit_in_range b c d : digit_in b c = Some d -> 0 <= d < b.
Proof.
  unfold digit_in. destruct (digit_of c) eqn:E; [|done]. apply digit_of_range in E. destruct (Z.ltb_spec z b); [|done].
  intros [= <-]. lia.
Qed.
Lemma underscore_no_digit : digit_of 95 = None.
Proof. done. Qed.

Lemma val_from_ge b n ds : 1 <= b -> 0 <= n -> Forall (fun d => 0 <= d) ds -> n <= val_from b n ds.
Proof.
  intros Hb Hn Hds. revert n Hn. induction Hds as [|d ds Hd Hds IH]; intros n Hn; [cbn; lia|].
  cbn [val_from fold_left]. specialize (IH (n * b + d)). unfold val_from in IH. nia.
Qed.
Lemma digit_prefix_range b s : Forall (fun d => 0 <= d < b) (digit_prefix b s).1.
Proof.
  induction s as [|c s IH]; [constructor|]. cbn. destruct (digit_in b c) eqn:E; [|constructor].
  destruct (digit_prefix b s). constructor; [by eapply digit_in_range|done].
Qed.

Lemma convert_from_cons b maxVal n c s :
  1 <= b -> 0 <= n -> n <= maxVal ->
  convert_from b maxVal n (c :: s) =
  match digit_in b c with
  | None => (0, Some ErrSyntax)
  | Some d => if maxVal <? n * b + d then (maxVal, Some ErrRange) else convert_from b maxVal (n * b + d) s
  end.
Proof.
  intros Hb Hn Hm. unfold convert_from. cbn [digit_prefix]. destruct (digit_in b c) as [d|] eqn:E.
  - apply digit_in_range in E. pose proof (digit_prefix_range b s) as Hr. destruct (digit_prefix b s) as [ds all]. cbn [fst] in Hr.
    change (val_from b n (d :: ds)) with (val_from b (n * b + d) ds).
    destruct (Z.ltb_spec maxVal (n * b + d)); [|done].
    pose proof (val_from_ge b (n * b + d) ds Hb ltac:(nia)) as Hge.
    destruct (Z.ltb_spec maxVal (val_from b (n * b + d) ds)); [done|]. exfalso.
    assert (Forall (fun d => 0 <= d) ds) by (eapply Forall_impl; [exact Hr|]; cbn; lia). specialize (Hge H1). lia.
  - cbn. by destruct (Z.ltb_spec maxVal n); [lia|].
Qed.

Definition strip_underscores (s : list Z) : list Z := filter (fun c => c <> 95) s.

Lemma cutoff_spec b : 2 <= b <= 36 -> cutoff_of b = (2 ^ 64 - 1) / b + 1.
Proof.
  intros Hb. unfold cutoff_of. destruct (Z.eqb_spec b 10) as [->|]; [done|]. destruct (Z.eqb_spec b 16) as [->|]; [done|].
  rewrite (u64_id b) by lia. apply u64_id. pose proof (Z.div_pos (2 ^ 64 - 1) b). 
  assert ((2 ^ 64 - 1) / b <= (2 ^ 64 - 1) / 2) by (apply Z.div_le_compat_l; lia). divlia.
Qed.

(** One digit: the cutoff test and the two wrap-around tests together are the
    test of the exact value. *)
Lemma overflow_tests b n d maxVal {A} (r k : A) :
  2 <= b <= 36 -> 0 <= n < 2 ^ 64 -> 0 <= d < b -> maxVal < 2 ^ 64 ->
  (if n >=? cutoff_of b then r
   else if (u64 (u64 (n * u64 b) + d) <? u64 (n * u64 b)) || (u64 (u64 (n * u64 b) + d) >? maxVal) then r else k) =
  (if maxVal <? n * b + d then r else k).
Proof.
  intros Hb Hn Hd Hm. rewrite cutoff_spec, (u64_id b) by lia. rewrite Z.geb_leb, Z.gtb_ltb.
  destruct (Z.leb_spec ((2 ^ 64 - 1) / b + 1) n) as [Hc|Hc].
  - assert (2 ^ 64 - 1 < b * n) by (apply Z.lt_le_trans with (b * Z.succ ((2 ^ 64 - 1) / b)); [apply Z.mul_succ_div_gt; lia|nia]).
    destruct (Z.ltb_spec maxVal (n * b + d)); [done|lia].
  - assert (n * b <= 2 ^ 64 - 1).
    { transitivity (b * ((2 ^ 64 - 1) / b)); [nia|apply Z.mul_div_le; lia]. }
    rewrite (u64_id (n * b)) by nia. destruct (Z.lt_ge_cases (n * b + d) (2 ^ 64)).
    + rewrite u64_id by nia. destruct (Z.ltb_spec (n * b + d) (n * b)); [lia|]. cbn [orb]. done.
    + assert (u64 (n * b + d) = n * b + d - 2 ^ 64) as ->.
      { unfold u64. symmetry. apply (Z.mod_unique_pos _ _ 1); lia. }
      destruct (Z.ltb_spec (n * b + d - 2 ^ 64) (n * b)); [|lia]. cbn [orb]. destruct (Z.ltb_spec maxVal (n * b + d)); [done|lia].
Qed.

Lemma accumulate_spec base0 b maxVal s n us :
  2 <= b <= 36 -> 0 <= n <= maxVal -> maxVal < 2 ^ 64 -> Forall is_byte s ->
  let '(v, us', e) := accumulate base0 b (cutoff_of b) maxVal s n us in
  (v, e) = convert_from b maxVal n (if base0 then strip_underscores s else s) /\
  (e = None -> us' = us || (base0 && existsb (Z.eqb 95) s)).
Proof.
  intros Hb Hn Hm Hs. revert n us Hn. induction Hs as [|c s Hc Hs IH]; intros n us Hn.
  { cbn [accumulate]. assert ((if base0 then strip_underscores [] else []) = ([] : list Z)) as -> by (by destruct base0). split.
    - unfold convert_from. cbn. by destruct (Z.ltb_spec maxVal n); [lia|].
    - intros _. cbn. by rewrite andb_false_r, orb_false_r. }
  cbn [accumulate existsb]. change (chr "_") with 95.
  destruct ((c =? 95) && base0) eqn:E.
  - reflect. subst c base0. specialize (IH n true Hn). destruct (accumulate _ _ _ _ _ _ _) as [[v us'] e].
    unfold strip_underscores in *. rewrite filter_cons_False by (intros []; done). destruct IH as [IH1 IH2]. split; [done|].
    intros He. rewrite IH2 by done. cbn. by rewrite orb_true_r.
  - assert (Hc95 : base0 = true -> c <> 95). { intros -> ->. done. }
    assert ((if base0 then strip_underscores (c :: s) else c :: s) = c :: (if base0 then strip_underscores s else s)) as ->.
    { destruct base0; [|done]. unfold strip_underscores. apply filter_cons_True. by apply Hc95. }
    rewrite convert_from_cons by lia. rewrite digit_spec by done. unfold digit_in. destruct (digit_of c) as [d|] eqn:Ed; [|done].
    pose proof (digit_of_range c d Ed) as Hd. rewrite (u8_id b) by lia. rewrite Z.geb_leb.
    destruct (Z.leb_spec b d), (Z.ltb_spec d b); try lia; [done|]. cbv zeta. rewrite overflow_tests by lia.
    destruct (Z.ltb_spec maxVal (n * b + d)); [done|].
    replace (u64 (u64 (n * u64 b) + d)) with (n * b + d) by (rewrite (u64_id b), (u64_id (n * b)), u64_id by nia; done).
    specialize (IH (n * b + d) us ltac:(nia)). destruct (accumulate _ _ _ _ _ _ _) as [[v us'] e]. destruct IH as [IH1 IH2].
    split; [done|]. intros He. rewrite IH2 by done. destruct base0; [|done]. cbn [andb].
    by destruct (Z.eqb_spec 95 c); [exfalso; apply Hc95|].
Qed.

(** ** ParseUint *)

Definition bits_of (bitSize : Z) : Z := if bitSize =? 0 then 64 else bitSize.
Definition max_uint (bitSize : Z) : Z := 2 ^ bits_of bitSize - 1.

Lemma bits_of_range bs : 0 <= bs <= 64 -> 1 <= bits_of bs <= 64.
Proof. unfold bits_of. intros. destruct (Z.eqb_spec bs 0); lia. Qed.

Lemma max_uint_code bs : 0 <= bs <= 64 ->
  u64 (u64 (1 << (if bs =? 0 then IntSize else bs)) - 1) = max_uint bs /\ 0 <= max_uint bs < 2 ^ 64.
Proof.
  intros Hbs. change IntSize with 64. fold (bits_of bs). unfold max_uint. pose proof (bits_of_range bs Hbs). set (k := bits_of bs) in *.
  rewrite shiftl_pow, Z.mul_1_l by lia. assert (0 < 2 ^ k) by (apply Z.pow_pos_nonneg; lia).
  destruct (decide (k = 64)) as [->|]; [done|]. assert (2 ^ k <= 2 ^ 63) by (apply Z.pow_le_mono_r; lia).
  rewrite (u64_id (2 ^ k)), u64_id by lia. lia.
Qed.

Lemma ParseUint_spec s b bs :
  2 <= b <= 36 -> 0 <= bs <= 64 -> Forall is_byte s ->
  ParseUint s b bs = match s with [] => (0, Some ErrSyntax) | _ => convert b (max_uint bs) s end.
Proof.
  intros Hb Hbs Hs. unfold ParseUint. destruct s as [|c s]; [done|]. set (t := c :: s) in *.
  unfold base_prefix. destruct (Z.leb_spec 2 b), (Z.leb_spec b 36); try lia. cbn [andb].
  destruct (Z.eqb_spec b 0); [lia|].
  assert ((negb (bs =? 0) && ((bs <? 0) || (bs >? 64))) = false) as ->.
  { rewrite Z.gtb_ltb. destruct (Z.eqb_spec bs 0), (Z.ltb_spec bs 0), (Z.ltb_spec 64 bs); try lia; done. }
  destruct (max_uint_code bs Hbs) as [-> Hm]. pose proof (accumulate_spec false b (max_uint bs) t 0 false Hb ltac:(lia) ltac:(lia) Hs) as H1.
  destruct (accumulate _ _ _ _ _ _ _) as [[v us] e]. destruct H1 as [H1 H2]. unfold convert. rewrite <- H1.
  destruct e as [e|]; [done|]. by rewrite H2.
Qed.

(** ** ParseInt *)

Definition split_sign (s : list Z) : bool * list Z :=
  match s with
  | 45 :: s => (true, s)
  | 43 :: s => (false, s)
  | _ => (false, s)
  end.

Definition convert_int (b bs : Z) (neg : bool) (t : list Z) : Z * option Error :=
  let lim := 2 ^ (bits_of bs - 1) in
  let '(ds, all) := digit_prefix b t in
  let v := val_from b 0 ds in
  if (max_uint bs <? v) || (all && (if neg then lim <? v else lim <=? v)) then (if neg then - lim else lim - 1, Some ErrRange)
  else if all : bool then (if neg then - v else v, None)
  else (0, Some ErrSyntax).

Lemma val_nonneg b ds : 1 <= b -> Forall (fun d => 0 <= d < b) ds -> 0 <= val_from b 0 ds.
Proof. intros Hb H. apply val_from_ge; [lia..|]. eapply Forall_impl; [exact H|]. cbn. lia. Qed.

Lemma int64_neg_lim k : 1 <= k <= 64 -> int64 (- int64 (2 ^ (k - 1))) = - 2 ^ (k - 1) /\ int64 (u64 (2 ^ (k - 1) - 1)) = 2 ^ (k - 1) - 1.
Proof.
  intros Hk. destruct (decide (k = 64)) as [->|]; [done|].
  assert (2 ^ (k - 1) <= 2 ^ 62) by (apply Z.pow_le_mono_r; lia). assert (0 < 2 ^ (k - 1)) by (apply Z.pow_pos_nonneg; lia).
  rewrite (int64_id (2 ^ (k - 1))), (u64_id (2 ^ (k - 1) - 1)), !int64_id by lia. done.
Qed.

Lemma sign_cases s :
  match s with [] => (false, []) | c :: rest => (c =? chr "-", if (c =? chr "+") || (c =? chr "-") then rest else s) end = split_sign s.
Proof.
  destruct s as [|c s]; [done|]. change (chr "-") with 45. change (chr "+") with 43. unfold split_sign.
  destruct (Z.eqb_spec c 45) as [->|H1]; [done|]. destruct (Z.eqb_spec c 43) as [->|H2]; [done|]. cbn [orb].
  destruct c as [|p|p]; try done. do 6 (destruct p as [p|p|]; try done; try lia).
Qed.

(** The documented result, except that a negative value out of the range of a
    one-bit integer is cut to -1 without an error. *)
Lemma ParseInt_spec s b bs :
  2 <= b <= 36 -> 0 <= bs <= 64 -> Forall is_byte s ->
  ParseInt s b bs = let '(neg, t) := split_sign s in
    match t with
    | [] => (0, Some ErrSyntax)
    | _ =>
        if (bs =? 1) && neg && (1 <? val_from b 0 (digit_prefix b t).1) then (-1, None)
        else convert_int b bs neg t
    end.
Proof.
  intros Hb Hbs Hs. rewrite <- sign_cases. unfold ParseInt. destruct s as [|c rest]; [done|]. cbv zeta beta.
  set (neg := c =? chr "-"). set (t := if (c =? chr "+") || neg then rest else c :: rest).
  assert (Ht : Forall is_byte t). { apply Forall_cons in Hs as Hs'. destruct Hs'. unfold t. by destruct (_ || _). }
  rewrite ParseUint_spec by done. destruct t as [|c' t'] eqn:Et; [done|]. rewrite <- Et in *. clear Et c' t'.
  unfold convert, convert_from, convert_int. pose proof (digit_prefix_range b t) as Hr. destruct (digit_prefix b t) as [ds all].
  cbn [fst] in Hr |- *. pose proof (val_nonneg b ds ltac:(lia) Hr) as Hv. set (v := val_from b 0 ds) in *.
  change IntSize with 64. fold (bits_of bs). pose proof (bits_of_range bs Hbs) as Hk. pose proof (max_uint_code bs Hbs) as [_ Hm64].
  assert (Hb1 : bs = 1 <-> bits_of bs = 1) by (unfold bits_of; destruct (Z.eqb_spec bs 0); lia).
  assert (Hm : max_uint bs = 2 * 2 ^ (bits_of bs - 1) - 1).
  { unfold max_uint. rewrite <- Z.pow_succ_r by lia. by replace (Z.succ (bits_of bs - 1)) with (bits_of bs) by lia. }
  set (k := bits_of bs) in *. set (lim := 2 ^ (k - 1)) in *.
  assert (Hl : 0 < lim) by (apply Z.pow_pos_nonneg; lia). assert (lim <= 2 ^ 63) by (apply Z.pow_le_mono_r; lia).
  assert (Hl1 : lim = 1 <-> k = 1).
  { split; [|unfold lim; by intros ->]. intros E. destruct (decide (k = 1)); [done|]. unfold lim in E.
    assert (2 ^ 1 <= 2 ^ (k - 1)) by (apply Z.pow_le_mono_r; lia). lia. }
  assert (u64 (1 << u64 (k - 1)) = lim) as ->.
  { rewrite (u64_id (k - 1)), shiftl_pow, Z.mul_1_l by lia. apply u64_id. lia. }
  destruct (int64_neg_lim k Hk) as [L1 L2]. fold lim in L1, L2. rewrite L1, L2.
  destruct (Z.ltb_spec (max_uint bs) v); cbn [orb].
  - rewrite Z.geb_leb, Z.gtb_ltb. destruct neg; cbn [negb andb].
    + destruct (Z.eqb_spec bs 1), (Z.ltb_spec lim (max_uint bs)), (Z.ltb_spec 1 v); try lia; [|done].
      replace (max_uint bs) with 1 by lia. done.
    + rewrite andb_false_r. cbn [andb]. by destruct (Z.leb_spec lim (max_uint bs)); [|lia].
  - assert (((bs =? 1) && neg && (1 <? v)) = false) as ->.
    { destruct (Z.eqb_spec bs 1), (Z.ltb_spec 1 v); try done; [lia|by rewrite andb_false_r]. }
    destruct all; [|done]. cbn [andb]. rewrite Z.geb_leb, Z.gtb_ltb. destruct neg; cbn [negb andb].
    + destruct (Z.ltb_spec lim v); [done|]. f_equal. destruct (decide (v = 2 ^ 63)) as [->|]; [done|].
      rewrite (int64_id v), int64_id by lia. done.
    + destruct (Z.leb_spec lim v); [done|]. f_equal. apply int64_id. lia.
Qed.

(** ** Base 0 and underscores *)

Lemma ParseUint_base0_spec s b t bs :
  s <> [] -> 0 <= bs <= 64 -> Forall is_byte s -> base_prefix s 0 = Some (b, t) -> 2 <= b <= 36 -> Forall is_byte t ->
  ParseUint s 0 bs =
  let '(v, e) := convert b (max_uint bs) (strip_underscores t) in
  match e with
  | Some e => (v, Some e)
  | None => if existsb (Z.eqb 95) t && negb (underscoreOK s) then (0, Some ErrSyntax) else (v, None)
  end.
Proof.
  intros Hne Hbs Hs Hp Hb Ht. unfold ParseUint. destruct s as [|c s]; [done|]. set (s0 := c :: s) in *. rewrite Hp.
  assert ((negb (bs =? 0) && ((bs <? 0) || (bs >? 64))) = false) as ->.
  { rewrite Z.gtb_ltb. destruct (Z.eqb_spec bs 0), (Z.ltb_spec bs 0), (Z.ltb_spec 64 bs); try lia; done. }
  destruct (max_uint_code bs Hbs) as [-> Hm]. change (0 =? 0) with true.
  pose proof (accumulate_spec true b (max_uint bs) t 0 false Hb ltac:(lia) ltac:(lia) Ht) as H1.
  destruct (accumulate _ _ _ _ _ _ _) as [[v us] e]. destruct H1 as [H1 H2]. unfold convert. rewrite <- H1.
  destruct e as [e|]; [done|]. by rewrite H2.
Qed.

(** Go's prefixes of integer literals. *)
Inductive literal : list Z -> Z -> list Z -> Prop :=
| lit_bin c t : c = 98 \/ c = 66 -> t <> [] -> literal (48 :: c :: t) 2 t
| lit_oct c t : c = 111 \/ c = 79 -> t <> [] -> literal (48 :: c :: t) 8 t
| lit_hex c t : c = 120 \/ c = 88 -> t <> [] -> literal (48 :: c :: t) 16 t
| lit_zero t : (forall c t', t = c :: t' -> t' <> [] -> c <> 98 /\ c <> 66 /\ c <> 111 /\ c <> 79 /\ c <> 120 /\ c <> 88) ->
    literal (48 :: t) 8 t
| lit_dec c t : c <> 48 -> literal (c :: t) 10 (c :: t).

Lemma lower_is c x : is_byte c -> 97 <= x <= 122 -> (lower c =? x) = (c =? x) || (c =? x - 32).
Proof.
  intros Hc Hx. pose proof (forall_below 256 (fun c => forallb (fun x => Bool.eqb (lower c =? x) ((c =? x) || (c =? x - 32))) (seqZ 97 26))
    ltac:(by vm_compute) c Hc) as E. cbn beta in E. rewrite forallb_forall in E. apply eqb_prop, (E x).
  apply list_elem_of_In, elem_of_seqZ. lia.
Qed.

Lemma base_prefix_literal s : Forall is_byte s -> s <> [] -> exists b t, base_prefix s 0 = Some (b, t) /\ literal s b t /\ 2 <= b <= 36 /\ Forall is_byte t.
Proof.
  intros Hs Hne. destruct s as [|c s]; [done|]. apply Forall_cons in Hs as [Hc Hs]. unfold base_prefix. cbn [Z.leb Z.eqb andb Z.compare].
  change (tab (c :: s) 0) with c. change (chr "0") with 48. destruct (Z.eqb_spec c 48) as [->|Hc0].
  2:{ exists 10, (c :: s). split_and!; [done|by apply lit_dec|lia|lia|by constructor]. }
  destruct s as [|c1 [|c2 s]].
  - exists 8, []. split_and!; [done|by apply lit_zero|lia|lia|done].
  - exists 8, [c1]. split_and!; [done| |lia|lia|done]. apply lit_zero. by intros c t' [= <- <-].
  - pose proof Hs as [Hc1 Ht]%Forall_cons. assert ((zlen (48 :: c1 :: c2 :: s) >=? 3) = true) as ->.
    { rewrite Z.geb_leb. apply Z.leb_le. rewrite !zlen_cons. pose proof (zlen_nonneg s). lia. }
    change (tab (48 :: c1 :: c2 :: s) 1) with c1. change (chr "b") with 98. change (chr "o") with 111. change (chr "x") with 120.
    rewrite !lower_is by (done || lia). change (98 - 32) with 66. change (111 - 32) with 79. change (120 - 32) with 88. cbn [andb].
    destruct (Z.eqb_spec c1 98), (Z.eqb_spec c1 66); cbn [orb];
      try (exists 2, (c2 :: s); split_and!; [done|apply lit_bin; [lia|done]|lia|lia|done]).
    destruct (Z.eqb_spec c1 111), (Z.eqb_spec c1 79); cbn [orb];
      try (exists 8, (c2 :: s); split_and!; [done|apply lit_oct; [lia|done]|lia|lia|done]).
    destruct (Z.eqb_spec c1 120), (Z.eqb_spec c1 88); cbn [orb];
      try (exists 16, (c2 :: s); split_and!; [done|apply lit_hex; [lia|done]|lia|lia|done]).
    exists 8, (c1 :: c2 :: s). split_and!; [done| |lia|lia|done]. apply lit_zero. intros c t' [= <- <-] _. by split_and!.
Qed.

Definition number_digit (hex : bool) (c : Z) : bool :=
  ((48 <=? c) && (c <=? 57)) || (hex && (((97 <=? c) && (c <=? 102)) || ((65 <=? c) && (c <=? 70)))).

(** Every underscore stands between two digits, or between the base prefix and
    a digit. *)
Definition well_placed (hex prefixed : bool) (t : list Z) : Prop :=
  forall pre post, t = pre ++ 95 :: post ->
    match last pre with None => prefixed = true | Some c => number_digit hex c = true end /\
    exists c post', post = c :: post' /\ number_digit hex c = true.

Definition starts_digit hex (t : list Z) : Prop := exists c t', t = c :: t' /\ number_digit hex c = true.
Definition after (hex : bool) (saw : saw_class) (pre : list Z) : Prop :=
  match last pre with None => saw = SawDigit | Some c => number_digit hex c = true end.

Lemma number_digit_code hex c : is_byte c ->
  ((chr "0" <=? c) && (c <=? chr "9")) || (hex && (chr "a" <=? lower c) && (lower c <=? chr "f")) = number_digit hex c.
Proof.
  intros Hc. pose proof (forall_below 256 (fun c => Bool.eqb ((chr "a" <=? lower c) && (lower c <=? chr "f"))
    (((97 <=? c) && (c <=? 102)) || ((65 <=? c) && (c <=? 70)))) ltac:(by vm_compute) c Hc) as E.
  cbn beta in E. apply eqb_prop in E. unfold number_digit. rewrite <- E. by destruct hex.
Qed.

Lemma underscores_from_spec hex t saw :
  Forall is_byte t ->
  underscores_from hex t saw = true <->
  (saw = SawUnderscore -> starts_digit hex t) /\
  forall pre post, t = pre ++ 95 :: post -> after hex saw pre /\ starts_digit hex post.
Proof.
  intros Ht. revert saw. induction Ht as [|c t Hc Ht IH]; intros saw.
  { cbn. split.
    - intros H. split; [by destruct saw|]. by intros [|] ? ?.
    - intros [H _]. destruct saw; try done. destruct (H eq_refl) as (? & ? & ? & _). done. }
  cbn [underscores_from]. rewrite number_digit_code by done. change (chr "_") with 95.
  assert (Hcons : forall saw', (forall pre, after hex saw (c :: pre) <-> after hex saw' pre) ->
    (forall pre post, c :: t = pre ++ 95 :: post -> after hex saw pre /\ starts_digit hex post) <->
    (c = 95 -> saw = SawDigit /\ starts_digit hex t) /\
    (forall pre post, t = pre ++ 95 :: post -> after hex saw' pre /\ starts_digit hex post)).
  { intros saw' Hsaw. split.
    - intros H. split; [intros ->; by apply (H [])|]. intros pre post ->. rewrite <- Hsaw. by apply (H (c :: pre)).
    - intros [H1 H2] [|c' pre] post [= -> ->]; [by apply H1|]. rewrite Hsaw. by apply H2. }
  assert (Hafter : forall saw', (number_digit hex c = true <-> saw' = SawDigit) -> forall pre, after hex saw (c :: pre) <-> after hex saw' pre).
  { intros saw' H [|c' pre]; unfold after; [done|]. change (last (c :: c' :: pre)) with (last (c' :: pre)).
    destruct (last (c' :: pre)) eqn:E; [done|]. by apply last_None in E. }
  destruct (number_digit hex c) eqn:Ed.
  - rewrite IH, (Hcons SawDigit) by (by apply Hafter). assert (c <> 95) by (by intros ->; destruct hex). split.
    + intros [_ H2]. split; [intros _; by exists c, t|]. by split.
    + intros [_ [_ H2]]. by split.
  - assert (Hno : starts_digit hex (c :: t) -> False) by (intros (? & ? & [= <- <-] & ?); congruence).
    destruct (Z.eqb_spec c 95) as [->|Hne].
    + rewrite (Hcons SawUnderscore) by (apply Hafter; done). destruct saw; try (split; [done|intros [_ [H _]]; by destruct (H eq_refl)]).
      rewrite IH. split.
      * intros [H1 H2]. split; [done|]. split; [|done]. intros _. split; [done|by apply H1].
      * intros [_ [H1 H2]]. split; [|done]. intros _. by apply H1.
    + rewrite (Hcons SawOther) by (apply Hafter; done). destruct saw; try (rewrite IH; split; [intros [_ H2]; by split|intros [_ [_ H2]]; by split]).
      split; [done|]. intros [H _]. exfalso. by apply Hno, H.
Qed.

(** The number proper: what follows the sign and the prefix. *)
Definition number_proper (s : list Z) : bool * bool * list Z :=
  match skip_sign s with
  | 48 :: c :: t => if (lower c =? 98) || (lower c =? 111) || (lower c =? 120) then (lower c =? 120, true, t) else (false, false, 48 :: c :: t)
  | t => (false, false, t)
  end.

Lemma skip_sign_bytes s : Forall is_byte s -> Forall is_byte (skip_sign s).
Proof. unfold skip_sign. destruct (_ && _); [|done]. intros. by apply Forall_drop. Qed.

Lemma underscoreOK_spec s : Forall is_byte s ->
  underscoreOK s = true <-> let '(hex, prefixed, t) := number_proper s in well_placed hex prefixed t.
Proof.
  intros Hs. unfold underscoreOK, number_proper. cbv zeta. pose proof (skip_sign_bytes s Hs) as Ht. set (t := skip_sign s) in *.
  assert (Hstart : forall hex t, Forall is_byte t -> underscores_from hex t SawStart = true <-> well_placed hex false t).
  { intros hex u Hu. rewrite underscores_from_spec by done. unfold well_placed, after, starts_digit. split.
    - intros [_ H] pre post E. destruct (H _ _ E) as [H1 H2]. split; [by destruct (last pre)|done].
    - intros H. split; [done|]. intros pre post E. destruct (H _ _ E) as [H1 H2]. split; [by destruct (last pre)|done]. }
  assert (Hpre : forall hex t, Forall is_byte t -> underscores_from hex t SawDigit = true <-> well_placed hex true t).
  { intros hex u Hu. rewrite underscores_from_spec by done. unfold well_placed, after, starts_digit. split.
    - intros [_ H] pre post E. destruct (H _ _ E) as [H1 H2]. split; [by destruct (last pre)|done].
    - intros H. split; [done|]. intros pre post E. destruct (H _ _ E) as [H1 H2]. split; [by destruct (last pre)|done]. }
  destruct t as [|c [|c1 t']].
  - cbn [zlen]. by apply Hstart.
  - change (zlen [c] >=? 2) with false. cbn [andb]. rewrite Hstart by done.
    by destruct c as [|p|p]; try done; do 6 (destruct p as [p|p|]; try done).
  - assert ((zlen (c :: c1 :: t') >=? 2) = true) as ->.
    { rewrite Z.geb_leb. apply Z.leb_le. rewrite !zlen_cons. pose proof (zlen_nonneg t'). lia. }
    change (tab (c :: c1 :: t') 0) with c. change (tab (c :: c1 :: t') 1) with c1. change (drop 2 (c :: c1 :: t')) with t'.
    change (chr "0") with 48. change (chr "b") with 98. change (chr "o") with 111. change (chr "x") with 120.
    apply Forall_cons in Ht as Ht0. destruct Ht0 as [_ Ht0]. apply Forall_cons in Ht0 as [_ Ht0].
    destruct (Z.eqb_spec c 48) as [->|Hc]; cbn [andb].
    + destruct (_ || _ || _); [by apply Hpre|by apply Hstart].
    + rewrite Hstart by done. by destruct c as [|p|p]; try done; do 6 (destruct p as [p|p|]; try done).
Qed.
