(* ===== verification/StrconvTheorems.v ===== *)
(** * internal/strconv: the theorems

    Formatting prints the numeral of the value in every base, parsing implements
    [convert], and the two are inverse. *)

From S2P Require Import Prelude.
From S2P Require Import Slice.
From S2P Require Import Bits.
From S2P Require Import Text.
From S2P Require Import Strconv.
From S2P Require Import StrconvFormat.
From S2P Require Import StrconvParse.

(** ** Numerals are parsed back *)

Lemma digit_in_char b d : 0 <= d < b -> b <= 36 -> digit_in b (digit_char d) = Some d.
Proof.
  intros Hd Hb. pose proof (forall_below 36 (fun d => bool_decide (digit_of (digit_char d) = Some d)) ltac:(by vm_compute) d ltac:(lia)) as E.
  cbn beta in E. apply bool_decide_eq_true in E. unfold digit_in. rewrite E. by destruct (Z.ltb_spec d b); [|lia].
Qed.
Lemma digit_char_byte d : 0 <= d < 36 -> is_byte (digit_char d).
Proof. intros. unfold is_byte, digit_char. destruct (Z.ltb_spec d 10); lia. Qed.

Lemma digit_prefix_app b s s' :
  (digit_prefix b s).2 = true -> digit_prefix b (s ++ s') = let '(ds, all) := digit_prefix b s' in ((digit_prefix b s).1 ++ ds, all).
Proof.
  induction s as [|c s IH]; cbn; [by destruct (digit_prefix b s')|]. destruct (digit_in b c); [|done].
  intros H. destruct (digit_prefix b s) as [ds all]. cbn in *. subst. rewrite IH by done. by destruct (digit_prefix b s').
Qed.

Lemma digit_prefix_fixed b k n :
  2 <= b <= 36 -> 0 <= n -> exists ds, digit_prefix b (fixed k b n) = (ds, true) /\ val_from b 0 ds = n mod b ^ Z.of_nat k.
Proof.
  intros Hb. revert n. induction k as [|k IH]; intros n Hn.
  - exists []. split; [done|]. by rewrite Z.mod_1_r.
  - destruct (IH (n / b)) as (ds & E & Hv); [apply Z.div_pos; lia|]. exists (ds ++ [n mod b]). cbn [fixed]. split.
    + rewrite digit_prefix_app by (by rewrite E). rewrite E. cbn. rewrite digit_in_char by (try apply Z.mod_pos_bound; lia). done.
    + unfold val_from in *. rewrite fold_left_app, Hv. cbn. rewrite Nat2Z.inj_succ, Z.pow_succ_r by lia. rewrite Z.rem_mul_r by lia. lia.
Qed.

Lemma fixed_bytes b k n : 2 <= b <= 36 -> Forall is_byte (fixed k b n).
Proof.
  intros Hb. revert n. induction k as [|k IH]; intros n; [constructor|]. cbn. apply Forall_app. split; [done|].
  constructor; [|constructor]. apply digit_char_byte. pose proof (Z.mod_pos_bound n b). lia.
Qed.
Lemma fixed_ne b k n : (1 <= k)%nat -> fixed k b n <> [].
Proof. intros Hk H. apply (f_equal length) in H. rewrite fixed_length in H. cbn in H. lia. Qed.

Lemma split_sign_numeral b k n neg : 2 <= b <= 36 -> (1 <= k)%nat -> 0 <= n -> split_sign (sign neg ++ fixed k b n) = (neg, fixed k b n).
Proof.
  intros Hb Hk Hn. destruct neg; [done|]. destruct k as [|k]; [lia|]. rewrite fixed_cons by lia. cbn [sign app].
  pose proof (forall_below 36 (fun d => negb (digit_char d =? 43) && negb (digit_char d =? 45)) ltac:(by vm_compute) (n / b ^ Z.of_nat k mod b)
    ltac:(pose proof (Z.mod_pos_bound (n / b ^ Z.of_nat k) b); lia)) as E. cbn beta in E. reflect.
  set (c := digit_char _) in *. rewrite <- sign_cases. change (chr "-") with 45. change (chr "+") with 43.
  by destruct (Z.eqb_spec c 45), (Z.eqb_spec c 43).
Qed.

(** What [ParseInt] and [ParseUint] make of a printed value. *)
Lemma ParseInt_numeral b k n neg bs :
  2 <= b <= 36 -> 0 <= bs <= 64 -> 0 <= n -> width b n k ->
  ParseInt (sign neg ++ fixed k b n) b bs =
  let lim := 2 ^ (bits_of bs - 1) in
  if neg then if lim <? n then (- lim, if bs =? 1 then None else Some ErrRange) else (- n, None)
  else if lim <=? n then (lim - 1, Some ErrRange) else (n, None).
Proof.
  intros Hb Hbs Hn (Hk & Hlt & _). rewrite ParseInt_spec; [|done|done|].
  2:{ apply Forall_app. split; [destruct neg; repeat constructor; lia|by apply fixed_bytes]. }
  rewrite split_sign_numeral by done. pose proof (fixed_ne b k n Hk) as Hne. destruct (fixed k b n) as [|c t] eqn:E; [done|]. rewrite <- E.
  destruct (digit_prefix_fixed b k n Hb Hn) as (ds & Ed & Hv). rewrite Z.mod_small in Hv by lia. unfold convert_int. rewrite Ed, Hv.
  cbv zeta. pose proof (bits_of_range bs Hbs).
  assert (Hm : max_uint bs = 2 * 2 ^ (bits_of bs - 1) - 1).
  { unfold max_uint. rewrite <- Z.pow_succ_r by lia. by replace (Z.succ (bits_of bs - 1)) with (bits_of bs) by lia. }
  set (lim := 2 ^ (bits_of bs - 1)) in *. assert (0 < lim) by (apply Z.pow_pos_nonneg; lia).
  assert (H1 : bs = 1 -> lim = 1) by (by intros ->). destruct neg; rewrite ?andb_true_r, ?andb_false_r.
  - destruct (Z.eqb_spec bs 1) as [E1|E1]; cbn [andb orb].
    + cbn [fst]. rewrite Hv, Hm, (H1 E1). change (2 * 1 - 1) with 1. by destruct (Z.ltb_spec 1 n).
    + by destruct (Z.ltb_spec (max_uint bs) n), (Z.ltb_spec lim n); try lia.
  - by destruct (Z.ltb_spec (max_uint bs) n), (Z.leb_spec lim n); try lia.
Qed.


(** What [FormatInt] and [FormatUint] print is read back. *)
Lemma read_back (i u b bs : Z) :
  - 2 ^ 63 <= i < 2 ^ 63 -> 0 <= u < 2 ^ 64 -> 2 <= b <= 36 -> 0 <= bs <= 64 ->
  let lim := 2 ^ (bits_of bs - 1) in
  (exists s, FormatInt i b = Done s /\
     ParseInt s b bs = if i <? - lim then (- lim, if bs =? 1 then None else Some ErrRange) else if lim <=? i then (lim - 1, Some ErrRange) else (i, None)) /\
  (exists s, FormatUint u b = Done s /\
     ParseUint s b bs = if max_uint bs <? u then (max_uint bs, Some ErrRange) else (u, None)).
Proof.
  intros Hi Hu Hb Hbs lim. pose proof (bits_of_range bs Hbs). assert (0 < lim) by (apply Z.pow_pos_nonneg; lia). split.
  - destruct (FormatInt_spec i b Hi Hb) as (k & Hw & ->). eexists. split; [done|].
    rewrite ParseInt_numeral by (done || lia). cbv zeta. fold lim.
    destruct (Z.ltb_spec i 0), (Z.ltb_spec i (- lim)), (Z.leb_spec lim i), (Z.ltb_spec lim (Z.abs i)), (Z.leb_spec lim (Z.abs i)); try lia; try done;
      f_equal; lia.
  - rewrite FormatUint_AppendUint. destruct (AppendUint_spec [] u b Hu Hb) as (k & Hw & ->). eexists. split; [done|]. cbn [app].
    pose proof Hw as (Hk & Hlt & _). rewrite ParseUint_spec by (try apply fixed_bytes; done).
    pose proof (fixed_ne b k u Hk). destruct (fixed k b u) as [|c t] eqn:E; [done|]. rewrite <- E. unfold convert, convert_from.
    destruct (digit_prefix_fixed b k u Hb ltac:(lia)) as (ds & -> & ->). by rewrite Z.mod_small by lia.
Qed.

(** C20: formatting.  In every base from 2 to 36, [FormatInt] (and [Itoa])
    returns the numeral of the absolute value, without leading zeros, after a minus
    sign when the value is negative, for every int64 including the most negative
    one; [FormatUint] returns the numeral of every uint64; [AppendInt] and
    [AppendUint] append the same text; and every other base panics.
    [RuntimeFormatBase10] writes the decimal numeral at the end of a buffer.  Whatever
    [FormatInt] prints, [ParseInt] reads back in the same base, at every bit size the value
    fits; at a smaller one it returns the nearest limit with a range error, which it leaves out
    for the values below -1 at bit size 1.  [ParseUint] reads back what [FormatUint] prints,
    with a range error at every smaller size. *)
Theorem Format_prints_and_reads_back (i u b : Z) (dst : list Z) :
  - 2 ^ 63 <= i < 2 ^ 63 -> 0 <= u < 2 ^ 64 ->
  (2 <= b <= 36 ->
   (exists s, numeral b (Z.abs i) s /\ FormatInt i b = Done (sign (i <? 0) ++ s) /\ AppendInt dst i b = Done (dst ++ sign (i <? 0) ++ s)) /\
   (exists s, numeral b u s /\ FormatUint u b = Done s /\ AppendUint dst u b = Done (dst ++ s))) /\
  Itoa i = FormatInt i 10 /\
  (forall a, 20 <= zlen a ->
     exists s, numeral 10 u s /\ RuntimeFormatBase10 a u = Done (zlen a - zlen s, take (length a - length s) a ++ s)) /\
  (~ (2 <= b <= 36) -> FormatInt i b = Panic (Explicit 1) /\ FormatUint u b = Panic (Explicit 1) /\
     AppendInt dst i b = Panic (Explicit 1) /\ AppendUint dst u b = Panic (Explicit 1)) /\
  (2 <= b <= 36 -> forall bs, 0 <= bs <= 64 ->
     let lim := 2 ^ (bits_of bs - 1) in
     (exists s, FormatInt i b = Done s /\
        ParseInt s b bs = if i <? - lim then (- lim, if bs =? 1 then None else Some ErrRange) else if lim <=? i then (lim - 1, Some ErrRange) else (i, None)) /\
     (exists s, FormatUint u b = Done s /\
        ParseUint s b bs = if max_uint bs <? u then (max_uint bs, Some ErrRange) else (u, None))).
Proof.
  intros Hi Hu. split_and!; [intros Hb| |intros a Ha; by apply RuntimeFormatBase10_spec|intros Hb|intros Hb bs Hbs; by apply read_back].
  - split.
    + destruct (FormatInt_spec i b Hi Hb) as (k & Hw & E). destruct (AppendInt_spec dst i b Hi Hb) as (s & E' & Ea).
      rewrite E in E'. injection E' as <-. exists (fixed k b (Z.abs i)). split; [apply numeral_fixed; [lia|lia|done]|done].
    + rewrite FormatUint_AppendUint. destruct (AppendUint_spec [] u b Hu Hb) as (k & Hw & E), (AppendUint_spec dst u b Hu Hb) as (k' & Hw' & E').
      assert (k' = k) as -> by (eapply width_unique; [..|exact Hw'|exact Hw]; lia).
      exists (fixed k b u). split; [apply numeral_fixed; [lia|lia|done]|done].
  - unfold Itoa. by rewrite int64_id.
  - unfold AppendInt, AppendUint, FormatInt, FormatUint, formatBits. cbv zeta. change (zlen digits) with 36. rewrite Z.gtb_ltb.
    destruct (Z.eqb_spec b 10); [lia|]. assert ((b <? 2) || false || (36 <? b) = true) as -> by (destruct (Z.ltb_spec b 2), (Z.ltb_spec 36 b); try done; lia).
    by destruct (i <? 0).
Qed.

Lemma Format_prints_and_reads_back_witness :
  (exists s, numeral 10 (Z.abs (- 2 ^ 63)) s /\ FormatInt (- 2 ^ 63) 10 = Done (sign true ++ s)) /\
  FormatInt 5 1 = Panic (Explicit 1) /\ exists s, FormatInt (-300) 2 = Done s /\ ParseInt s 2 8 = (-128, Some ErrRange).
Proof.
  split; [|split].
  - destruct (Format_prints_and_reads_back (- 2 ^ 63) 0 10 []) as [H _]; [by split|by split|].
    destruct H as [(s & Hn & E & _) _]; [by split|]. exists s. exact (conj Hn E).
  - destruct (Format_prints_and_reads_back 5 0 1 []) as (_ & _ & _ & H & _); [by split|by split|].
    destruct H as [H _]; [by intros [H _]|exact H].
  - destruct (Format_prints_and_reads_back (-300) 0 2 []) as (_ & _ & _ & _ & H); [by split|by split|].
    destruct (H ltac:(by split) 8 ltac:(by split)) as [H' _]. exact H'.
Defined.
(** ** Atoi *)

Lemma atoi_digits_spec s n :
  Forall is_byte s -> 0 <= n -> (n + 1) * 10 ^ zlen s <= 2 ^ 63 ->
  atoi_digits s n = let '(ds, all) := digit_prefix 10 s in if all : bool then Some (val_from 10 n ds) else None.
Proof.
  intros Hs. revert n. induction Hs as [|c s Hc Hs IH]; intros n Hn Hb; [done|]. cbn [atoi_digits digit_prefix].
  pose proof (forall_below 256 (fun c => bool_decide ((if u8 (c - chr "0") >? 9 then None else Some (u8 (c - chr "0"))) = digit_in 10 c))
    ltac:(by vm_compute) c Hc) as E. cbn beta in E. apply bool_decide_eq_true in E. rewrite <- E.
  destruct (u8 (c - chr "0") >? 9) eqn:E9; [done|]. symmetry in E. apply digit_in_range in E. set (d := u8 (c - chr "0")) in *.
  rewrite zlen_cons, Z.pow_add_r in Hb by (pose proof (zlen_nonneg s); lia). change (10 ^ 1) with 10 in Hb.
  assert (1 <= 10 ^ zlen s) by (pose proof (Z.pow_pos_nonneg 10 (zlen s)); pose proof (zlen_nonneg s); lia).
  rewrite (int64_id (n * 10)), int64_id by nia. rewrite IH by nia. by destruct (digit_prefix 10 s).
Qed.

Lemma val_from_bound ds n : Forall (fun d => 0 <= d < 10) ds -> val_from 10 n ds < (n + 1) * 10 ^ zlen ds.
Proof.
  intros Hds. revert n. induction Hds as [|d ds Hd Hds IH]; intros n; [change (n < (n + 1) * 1); lia|]. rewrite zlen_cons, Z.pow_add_r by (pose proof (zlen_nonneg ds); lia).
  change (val_from 10 n (d :: ds)) with (val_from 10 (n * 10 + d) ds). specialize (IH (n * 10 + d)).
  assert (0 < 10 ^ zlen ds) by (pose proof (zlen_nonneg ds); apply Z.pow_pos_nonneg; lia). nia.
Qed.
Lemma digit_prefix_zlen b s : zlen (digit_prefix b s).1 <= zlen s.
Proof.
  induction s as [|c s IH]; cbn; [done|]. rewrite zlen_cons. destruct (digit_in b c); [destruct (digit_prefix b s); cbn in *; rewrite zlen_cons; lia|].
  pose proof (zlen_nonneg s). change (zlen (@nil Z)) with 0. cbn. change (zlen (@nil Z)) with 0. lia.
Qed.

(** Short texts cannot overflow. *)
Lemma convert_int_short neg t : zlen t < 19 -> Forall is_byte t ->
  convert_int 10 0 neg t = let '(ds, all) := digit_prefix 10 t in
    if all : bool then (if neg then - val_from 10 0 ds else val_from 10 0 ds, None) else (0, Some ErrSyntax).
Proof.
  intros Hl Ht. unfold convert_int. pose proof (digit_prefix_range 10 t) as Hr. pose proof (digit_prefix_zlen 10 t) as Hz.
  destruct (digit_prefix 10 t) as [ds all]. cbn [fst] in *. pose proof (val_from_bound ds 0 Hr) as Hv.
  assert (10 ^ zlen ds <= 10 ^ 18) by (apply Z.pow_le_mono_r; lia). change (max_uint 0) with (2 ^ 64 - 1). change (bits_of 0 - 1) with 63.
  destruct (Z.ltb_spec (2 ^ 64 - 1) (val_from 10 0 ds)); [lia|]. cbn [orb].
  destruct all; [|done]. cbn [andb]. destruct neg.
  - by destruct (Z.ltb_spec (2 ^ 63) (val_from 10 0 ds)); [lia|].
  - by destruct (Z.leb_spec (2 ^ 63) (val_from 10 0 ds)); [lia|].
Qed.

Lemma ParseInt_range s : Forall is_byte s -> - 2 ^ 63 <= (ParseInt s 10 0).1 < 2 ^ 63.
Proof.
  intros Hs. rewrite ParseInt_spec by (done || lia). destruct (split_sign s) as [neg t]. destruct t as [|c t']; [cbn; lia|].
  set (t := c :: t'). change (0 =? 1) with false. cbn [andb]. unfold convert_int. pose proof (digit_prefix_range 10 t) as Hr.
  destruct (digit_prefix 10 t) as [ds all]. cbn [fst] in Hr. pose proof (val_nonneg 10 ds ltac:(lia) Hr).
  change (max_uint 0) with (2 ^ 64 - 1). change (bits_of 0 - 1) with 63.
  destruct (Z.ltb_spec (2 ^ 64 - 1) (val_from 10 0 ds)); cbn [orb]; [destruct neg; cbn; lia|].
  destruct all; cbn [andb]; [|cbn; lia]. destruct neg.
  - destruct (Z.ltb_spec (2 ^ 63) (val_from 10 0 ds)); cbn [fst]; lia.
  - destruct (Z.leb_spec (2 ^ 63) (val_from 10 0 ds)); cbn [fst]; lia.
Qed.

(** [Atoi] is [ParseInt(s, 10, 0)]: its fast path for texts of fewer than
    19 bytes, which checks neither cutoff nor overflow, gives the same value and the same
    error for every text. *)
Lemma Atoi_ParseInt (s : list Z) : Forall is_byte s -> Atoi s = ParseInt s 10 0.
Proof.
  intros Hs. unfold Atoi. cbv zeta. change (intSize =? 32) with false. change (intSize =? 64) with true. cbn [andb orb].
  destruct ((0 <? zlen s) && (zlen s <? 19)) eqn:E.
  2:{ pose proof (ParseInt_range s Hs) as Hr. destruct (ParseInt s 10 0) as [v e]. cbn [fst] in Hr. by rewrite int64_id. }
  reflect. destruct s as [|c rest]; [done|]. change (tab (c :: rest) 0) with c. change (drop 1 (c :: rest)) with rest.
  rewrite ParseInt_spec by (done || lia). rewrite <- sign_cases. change (chr "-") with 45. change (chr "+") with 43.
  set (neg := c =? 45). set (t := if neg || (c =? 43) then rest else c :: rest).
  replace (if (c =? 43) || neg then rest else c :: rest) with t by (unfold t; by rewrite orb_comm).
  assert (Ht : Forall is_byte t). { apply Forall_cons in Hs as Hs'. destruct Hs'. unfold t. by destruct (_ || _). }
  assert (Hl : zlen t < 19). { unfold t. rewrite zlen_cons in *. destruct (_ || _); [lia|rewrite zlen_cons; lia]. }
  assert ((neg || (c =? 43)) && (zlen t <? 1) = match t with [] => true | _ => false end) as ->.
  { unfold t. destruct (neg || (c =? 43)); [|done]. destruct rest; [done|]. rewrite zlen_cons. pose proof (zlen_nonneg rest).
    by destruct (Z.ltb_spec (zlen rest + 1) 1); [lia|]. }
  destruct t as [|c' t'] eqn:Et; [done|]. rewrite <- Et in *. clear Et c' t'. change (0 =? 1) with false. cbn [andb].
  rewrite convert_int_short by done. assert (0 < 10 ^ zlen t <= 10 ^ 18).
  { pose proof (zlen_nonneg t). split; [apply Z.pow_pos_nonneg; lia|apply Z.pow_le_mono_r; lia]. }
  rewrite atoi_digits_spec by (done || lia). pose proof (digit_prefix_range 10 t) as Hr. pose proof (digit_prefix_zlen 10 t) as Hz.
  destruct (digit_prefix 10 t) as [ds all]. cbn [fst] in *. destruct all; [|done]. fold neg. destruct neg; [|done]. f_equal. apply int64_id.
  pose proof (val_from_bound ds 0 Hr). pose proof (val_nonneg 10 ds ltac:(lia) Hr).
  assert (10 ^ zlen ds <= 10 ^ 18) by (apply Z.pow_le_mono_r; lia). lia.
Qed.
(** C22: [Atoi] is [ParseInt(s, 10, 0)]: its fast path for texts of fewer than
    19 bytes, which checks neither cutoff nor overflow, gives the same value and the same
    error for every text, the empty one included.  At base 0 the empty text is a syntax error; otherwise the base comes from a prefix of the text as in Go's integer
    literals, the digits are read without their underscores, and an otherwise good
    number is refused exactly when some underscore does not stand between two
    digits, or between the base prefix and a digit. *)
Theorem Atoi_and_base0 (s : list Z) (bs : Z) :
  0 <= bs <= 64 -> Forall is_byte s ->
  Atoi s = ParseInt s 10 0 /\
  (s = [] -> Atoi s = (0, Some ErrSyntax) /\ ParseUint s 0 bs = (0, Some ErrSyntax)) /\
  (s <> [] -> exists b t, literal s b t /\
     ParseUint s 0 bs =
     let '(v, e) := convert b (max_uint bs) (strip_underscores t) in
     match e with
     | Some e => (v, Some e)
     | None => if existsb (Z.eqb 95) t && negb (underscoreOK s) then (0, Some ErrSyntax) else (v, None)
     end) /\
  (underscoreOK s = true <-> let '(hex, prefixed, t) := number_proper s in well_placed hex prefixed t).
Proof.
  intros Hbs Hs. split; [by apply Atoi_ParseInt|]. split; [by intros ->|]. split; [|by apply underscoreOK_spec].
  intros Hne. destruct (base_prefix_literal s Hs Hne) as (b & t & E & Hl & Hb & Ht). exists b, t. split; [done|]. by apply ParseUint_base0_spec.
Qed.
Lemma Atoi_and_base0_witness :
  Atoi (bytes "-999999999999999999") = ParseInt (bytes "-999999999999999999") 10 0 /\
  exists b t, literal (bytes "0x_FF") b t /\ ParseUint (bytes "0x_FF") 0 8 = (255, None).
Proof.
  split; [apply (Atoi_and_base0 (bytes "-999999999999999999") 0); [by split|by repeat constructor]|].
  destruct (Atoi_and_base0 (bytes "0x_FF") 8) as (_ & _ & H & _); [by split|by repeat constructor|]. destruct H as (b & t & Hl & E); [done|].
  exists b, t. split; [exact Hl|]. rewrite E. inversion Hl; subst; try (destruct H0; discriminate); try (exfalso; cbn in *; done).
  by vm_compute.
Defined.
