(* ===== verification/FdMutex.v ===== *)
(** * internal/poll: the mutex of file descriptors

    [src/src/internal/poll/fd_mutex.go].  Every method is a retry loop around one
    atomic load and one compare-and-swap of the 64-bit [state].  [attempt] is the
    code between the two, [after_cas] the code after a successful swap; [tstep]
    interleaves them, one shared access at a time, with those of other
    goroutines.  The runtime semaphores are counters: [runtime_Semacquire] waits
    for a positive count and decrements it, [runtime_Semrelease] increments it. *)

From stdpp Require Import relations.
From S2P Require Import Prelude.
From S2P Require Import Slice.

Definition mutexClosed : Z := 1 << 0.
Definition mutexRLock : Z := 1 << 1.
Definition mutexWLock : Z := 1 << 2.
Definition mutexRef : Z := 1 << 3.
Definition mutexRefMask : Z := (1 << 20 - 1) << 3.
Definition mutexRWait : Z := 1 << 23.
Definition mutexRMask : Z := (1 << 20 - 1) << 23.
Definition mutexWWait : Z := 1 << 43.
Definition mutexWMask : Z := (1 << 20 - 1) << 43.

Record fdMutex : Type := FdMutex { state : Z; rsema : Z; wsema : Z }.

(** The methods; [RWLock read wait] and [RWUnlock read] carry their arguments. *)
Inductive op : Type :=
| Incref
| IncrefAndClose
| Decref
| RWLock (read wait : bool)
| RWUnlock (read : bool).

(** What an iteration decides from the state it loaded: to return false, to
    panic, or to try to swap in a new state. *)
Inductive attempt : Type :=
| ReturnFalse
| PanicOverflow
| PanicInconsistent
| TryCas (new : Z).

Definition mutexBit (read : bool) : Z := if read then mutexRLock else mutexWLock.
Definition mutexWait (read : bool) : Z := if read then mutexRWait else mutexWWait.
Definition mutexMask (read : bool) : Z := if read then mutexRMask else mutexWMask.

Definition incref (old : Z) : attempt :=
  if negb (old .& mutexClosed =? 0) then ReturnFalse
  else
    let new := u64 (old + mutexRef) in
    if new .& mutexRefMask =? 0 then PanicOverflow else TryCas new.

Definition increfAndClose (old : Z) : attempt :=
  if negb (old .& mutexClosed =? 0) then ReturnFalse
  else
    let new := u64 ((old .| mutexClosed) + mutexRef) in
    if new .& mutexRefMask =? 0 then PanicOverflow
    else TryCas (Z.ldiff new (mutexRMask .| mutexWMask)).

Definition decref (old : Z) : attempt :=
  if old .& mutexRefMask =? 0 then PanicInconsistent
  else TryCas (u64 (old - mutexRef)).

Definition rwlock (read wait : bool) (old : Z) : attempt :=
  if negb (old .& mutexClosed =? 0) then ReturnFalse
  else if old .& mutexBit read =? 0 then
    let new := u64 ((old .| mutexBit read) + mutexRef) in
    if new .& mutexRefMask =? 0 then PanicOverflow else TryCas new
  else if negb wait then ReturnFalse
  else
    let new := u64 (old + mutexWait read) in
    if new .& mutexMask read =? 0 then PanicOverflow else TryCas new.

Definition rwunlock (read : bool) (old : Z) : attempt :=
  if (old .& mutexBit read =? 0) || (old .& mutexRefMask =? 0) then PanicInconsistent
  else
    let new := u64 (Z.ldiff old (mutexBit read) - mutexRef) in
    TryCas (if negb (old .& mutexMask read =? 0) then u64 (new - mutexWait read) else new).

Definition attempt_of (o : op) : Z -> attempt :=
  match o with
  | Incref => incref
  | IncrefAndClose => increfAndClose
  | Decref => decref
  | RWLock read wait => rwlock read wait
  | RWUnlock read => rwunlock read
  end.

(** Where a goroutine is: idle, about to load, about to swap, waiting for a
    semaphore, about to release one, back in the caller, or panicked. *)
Inductive pc : Type :=
| Idle
| AtLoad (o : op)
| AtCas (o : op) (old new : Z)
| AtAcquire (read : bool)
| AtCloseRelease (old : Z)
| AtRelease (read : bool) (res : bool)
| Returned (o : op) (res : bool)
| Panicked.

(** [new&(mutexClosed|mutexRefMask) == mutexClosed] *)
Definition no_remaining (new : Z) : bool := new .& (mutexClosed .| mutexRefMask) =? mutexClosed.

Definition after_cas (o : op) (old new : Z) : pc :=
  match o with
  | Incref => Returned o true
  | IncrefAndClose => AtCloseRelease old
  | Decref => Returned o (no_remaining new)
  | RWLock read _ => if old .& mutexBit read =? 0 then Returned o true else AtAcquire read
  | RWUnlock read =>
      if negb (old .& mutexMask read =? 0) then AtRelease read (no_remaining new)
      else Returned o (no_remaining new)
  end.

Definition sema (read : bool) (mu : fdMutex) : Z := if read then rsema mu else wsema mu.
Definition set_state (mu : fdMutex) (s : Z) : fdMutex := FdMutex s (rsema mu) (wsema mu).
Definition add_sema (read : bool) (d : Z) (mu : fdMutex) : fdMutex :=
  if read then FdMutex (state mu) (rsema mu + d) (wsema mu) else FdMutex (state mu) (rsema mu) (wsema mu + d).

(** [runtime_Semacquire(sema)], when it can proceed, and
    [runtime_Semrelease(sema)]. *)
Definition runtime_Semacquire (read : bool) (mu : fdMutex) : option fdMutex :=
  if sema read mu >? 0 then Some (add_sema read (-1) mu) else None.
Definition runtime_Semrelease (read : bool) (mu : fdMutex) : fdMutex := add_sema read 1 mu.

(** One shared access of a goroutine; [None] when it has none to make or has
    to wait. *)
Definition tstep (mu : fdMutex) (p : pc) : option (fdMutex * pc) :=
  match p with
  | AtLoad o =>
      Some (mu, match attempt_of o (state mu) with
                | ReturnFalse => Returned o false
                | PanicOverflow | PanicInconsistent => Panicked
                | TryCas new => AtCas o (state mu) new
                end)
  | AtCas o old new =>
      if state mu =? old then Some (set_state mu new, after_cas o old new) else Some (mu, AtLoad o)
  | AtAcquire read =>
      match runtime_Semacquire read mu with
      | Some mu => Some (mu, AtLoad (RWLock read true))
      | None => None
      end
  | AtCloseRelease old =>
      if negb (old .& mutexRMask =? 0) then Some (runtime_Semrelease true mu, AtCloseRelease (u64 (old - mutexRWait)))
      else if negb (old .& mutexWMask =? 0) then Some (runtime_Semrelease false mu, AtCloseRelease (u64 (old - mutexWWait)))
      else Some (mu, Returned IncrefAndClose true)
  | AtRelease read res => Some (runtime_Semrelease read mu, Returned (RWUnlock read) res)
  | Idle | Returned _ _ | Panicked => None
  end.

(** ** Clients

    A goroutine drops only what it holds: the references it took, and the locks. *)

Record thread : Type := Thread { at_pc : pc; refs : Z; rlocked : bool; wlocked : bool }.
Definition locked (read : bool) (t : thread) : bool := if read then rlocked t else wlocked t.

Definition may_start (t : thread) (o : op) : Prop :=
  match o with
  | Decref => 0 < refs t
  | RWUnlock read => locked read t = true
  | _ => True
  end.

(** What the caller holds once the call has returned. *)
Definition set_locked (read b : bool) (t : thread) : thread :=
  if read then Thread (at_pc t) (refs t) b (wlocked t) else Thread (at_pc t) (refs t) (rlocked t) b.
Definition set_pc (p : pc) (t : thread) : thread := Thread p (refs t) (rlocked t) (wlocked t).
Definition add_refs (d : Z) (t : thread) : thread := Thread (at_pc t) (refs t + d) (rlocked t) (wlocked t).
Definition returned (o : op) (res : bool) (t : thread) : thread :=
  set_pc Idle
    match o, res with
    | (Incref | IncrefAndClose), true => add_refs 1 t
    | Decref, _ => add_refs (-1) t
    | RWLock read _, true => set_locked read true t
    | RWUnlock read, _ => set_locked read false t
    | _, false => t
    end.

Definition config : Type := fdMutex * list thread.

Inductive sys_step : config -> config -> Prop :=
| step_start mu ts i t o :
    ts !! i = Some t -> at_pc t = Idle -> may_start t o ->
    sys_step (mu, ts) (mu, <[i := set_pc (AtLoad o) t]> ts)
| step_run mu ts i t mu' p :
    ts !! i = Some t -> tstep mu (at_pc t) = Some (mu', p) ->
    sys_step (mu, ts) (mu', <[i := set_pc p t]> ts)
| step_return mu ts i t o res :
    ts !! i = Some t -> at_pc t = Returned o res ->
    sys_step (mu, ts) (mu, <[i := returned o res t]> ts).

(** The zero value, and any number of idle goroutines. *)
Definition idle : thread := Thread Idle 0 false false.
Definition initial (n : nat) : config := (FdMutex 0 0 0, replicate n idle).

Definition reachable (n : nat) (c : config) : Prop := rtc sys_step (initial n) c.

(** One operation with no other goroutine about. *)
Fixpoint run_alone (fuel : nat) (mu : fdMutex) (p : pc) : fdMutex * pc :=
  match fuel with
  | O => (mu, p)
  | S fuel => match tstep mu p with Some (mu, p) => run_alone fuel mu p | None => (mu, p) end
  end.

Example lock_unlock :
  let '(mu, p) := run_alone 9 (FdMutex 0 0 0) (AtLoad (RWLock true true)) in
  p = Returned (RWLock true true) true /\ run_alone 9 mu (AtLoad (RWUnlock true)) = (FdMutex 0 0 0, Returned (RWUnlock true) false).
Proof. by vm_compute. Qed.
Example close_wakes :
  run_alone 9 (FdMutex (mutexRLock + mutexRef + 2 * mutexRWait) 0 0) (AtLoad IncrefAndClose)
  = (FdMutex (mutexClosed + mutexRLock + 2 * mutexRef) 2 0, Returned IncrefAndClose true).
Proof. by vm_compute. Qed.
