(* ===== verification/FdMutexBits.v ===== *)
(** * internal/poll: the fields of the state word

    [fields] is the abstract state of the mutex; [pack] lays it out as the
    comment of the source says.  [decide_op] is what each method decides on the
    fields; the bit operations of the code implement it. *)

From stdpp Require Import relations.
From S2P Require Import Prelude.
From S2P Require Import Slice.
From S2P Require Import BitsArith.
From S2P Require Import FdMutex.

Record fields : Type := Fields { closed : bool; rlock : bool; wlock : bool; refcount : Z; rwait : Z; wwait : Z }.

Definition pack (a : fields) : Z :=
  Z.b2z (closed a) + 2 * Z.b2z (rlock a) + 4 * Z.b2z (wlock a) + 8 * refcount a + 2 ^ 23 * rwait a + 2 ^ 43 * wwait a.

Definition fits (a : fields) : Prop := 0 <= refcount a < 2 ^ 20 /\ 0 <= rwait a < 2 ^ 20 /\ 0 <= wwait a < 2 ^ 20.

Definition lock_of (read : bool) (a : fields) : bool := if read then rlock a else wlock a.
Definition wait_of (read : bool) (a : fields) : Z := if read then rwait a else wwait a.
Definition set_lock (read b : bool) (a : fields) : fields :=
  if read then Fields (closed a) b (wlock a) (refcount a) (rwait a) (wwait a)
  else Fields (closed a) (rlock a) b (refcount a) (rwait a) (wwait a).
Definition add_wait (read : bool) (d : Z) (a : fields) : fields :=
  if read then Fields (closed a) (rlock a) (wlock a) (refcount a) (rwait a + d) (wwait a)
  else Fields (closed a) (rlock a) (wlock a) (refcount a) (rwait a) (wwait a + d).
Definition add_ref (d : Z) (a : fields) : fields :=
  Fields (closed a) (rlock a) (wlock a) (refcount a + d) (rwait a) (wwait a).
Definition close (a : fields) : fields := Fields true (rlock a) (wlock a) (refcount a) 0 0.

Definition maxcount : Z := 2 ^ 20 - 1.

Inductive decision : Type := DFalse | DOverflow | DInconsistent | DSet (a : fields).

Definition decide_op (o : op) (a : fields) : decision :=
  match o with
  | Incref =>
      if closed a then DFalse else if refcount a =? maxcount then DOverflow else DSet (add_ref 1 a)
  | IncrefAndClose =>
      if closed a then DFalse else if refcount a =? maxcount then DOverflow else DSet (close (add_ref 1 a))
  | Decref => if refcount a =? 0 then DInconsistent else DSet (add_ref (-1) a)
  | RWLock read wait =>
      if closed a then DFalse
      else if negb (lock_of read a) then
        if refcount a =? maxcount then DOverflow else DSet (set_lock read true (add_ref 1 a))
      else if negb wait then DFalse
      else if wait_of read a =? maxcount then DOverflow
      else DSet (add_wait read 1 a)
  | RWUnlock read =>
      if negb (lock_of read a) || (refcount a =? 0) then DInconsistent
      else
        let a' := add_ref (-1) (set_lock read false a) in
        DSet (if wait_of read a >? 0 then add_wait read (-1) a' else a')
  end.

Definition encode (d : decision) : attempt :=
  match d with
  | DFalse => ReturnFalse
  | DOverflow => PanicOverflow
  | DInconsistent => PanicInconsistent
  | DSet a => TryCas (pack a)
  end.

(** ** Masks *)

Lemma land_field n k x : 0 <= n -> 0 <= k -> x .& ((2 ^ n - 1) << k) = x / 2 ^ k mod 2 ^ n * 2 ^ k.
Proof.
  intros Hn Hk. rewrite <- (shiftl_pow k), <- (land_mask n), <- shiftr_pow by done.
  apply Z.bits_inj'. intros i Hi. rewrite Z.land_spec, !Z.shiftl_spec, Z.land_spec by done.
  destruct (Z.lt_ge_cases i k).
  - rewrite !(Z.testbit_neg_r _ (i - k)) by lia. by rewrite andb_false_r.
  - rewrite Z.shiftr_spec by lia. by replace (i - k + k) with i by lia.
Qed.

Lemma ldiff_sub x m : Z.ldiff x m = x - x .& m.
Proof.
  assert (E : x .& m + Z.ldiff x m = x); [|lia].
  rewrite Z.add_nocarry_lxor.
  - apply Z.bits_inj'. intros i Hi. rewrite Z.lxor_spec, Z.land_spec, Z.ldiff_spec. by destruct (Z.testbit x i), (Z.testbit m i).
  - apply Z.bits_inj'. intros i Hi. rewrite !Z.land_spec, Z.ldiff_spec, Z.bits_0. by destruct (Z.testbit x i), (Z.testbit m i).
Qed.
Lemma lor_sub x m : x .| m = x + m - x .& m.
Proof.
  assert (E : Z.ldiff x m + m = x .| m); [|rewrite ldiff_sub in E; lia].
  rewrite Z.add_nocarry_lxor.
  - apply Z.bits_inj'. intros i Hi. rewrite Z.lxor_spec, Z.lor_spec, Z.ldiff_spec. by destruct (Z.testbit x i), (Z.testbit m i).
  - apply Z.bits_inj'. intros i Hi. rewrite !Z.land_spec, Z.ldiff_spec, Z.bits_0. by destruct (Z.testbit x i), (Z.testbit m i).
Qed.

Lemma masks :
  mutexClosed = (2 ^ 1 - 1) << 0 /\ mutexRLock = (2 ^ 1 - 1) << 1 /\ mutexWLock = (2 ^ 1 - 1) << 2 /\
  mutexRefMask = (2 ^ 20 - 1) << 3 /\ mutexRMask = (2 ^ 20 - 1) << 23 /\ mutexWMask = (2 ^ 20 - 1) << 43.
Proof. done. Qed.

(** What the tests of the code see of any word. *)
Lemma land_closed x : x .& mutexClosed = x mod 2.
Proof. rewrite (proj1 masks), land_field by done. change (2 ^ 0) with 1. by rewrite Z.div_1_r, Z.mul_1_r. Qed.
Lemma land_bit read x : x .& mutexBit read = (if read then x / 2 mod 2 * 2 else x / 4 mod 2 * 4).
Proof. by destruct read; unfold mutexBit; [rewrite (proj1 (proj2 masks))|rewrite (proj1 (proj2 (proj2 masks)))]; rewrite land_field by done. Qed.
Lemma land_refmask x : x .& mutexRefMask = x / 8 mod 2 ^ 20 * 8.
Proof. by change mutexRefMask with ((2 ^ 20 - 1) << 3); rewrite land_field by done. Qed.
Lemma land_waitmask read x : x .& mutexMask read = (if read then x / 2 ^ 23 mod 2 ^ 20 * 2 ^ 23 else x / 2 ^ 43 mod 2 ^ 20 * 2 ^ 43).
Proof.
  by destruct read; [change (mutexMask true) with ((2 ^ 20 - 1) << 23)|change (mutexMask false) with ((2 ^ 20 - 1) << 43)]; rewrite land_field by done.
Qed.

(** Removing all the waiters. *)
Lemma ldiff_waits x : 0 <= x < 2 ^ 63 -> Z.ldiff x (mutexRMask .| mutexWMask) = x mod 2 ^ 23.
Proof.
  intros Hx. change (mutexRMask .| mutexWMask) with ((2 ^ 40 - 1) << 23). rewrite ldiff_sub, land_field by done.
  rewrite (Z.mod_small (x / 2 ^ 23)) by (split; [apply Z.div_pos; lia|apply Z.div_lt_upper_bound; lia]).
  rewrite (Z.mod_eq x) by lia. lia.
Qed.

(** ** The fields of a packed word *)

(** The field between bits [k] and [k + n] of a word. *)
Lemma field_at k n low mid high x :
  0 <= k -> 0 <= n -> 0 <= low < 2 ^ k -> 0 <= mid < 2 ^ n -> x = low + 2 ^ k * mid + 2 ^ k * 2 ^ n * high ->
  x / 2 ^ k mod 2 ^ n = mid.
Proof.
  intros Hk Hn Hlow Hmid ->. assert (0 < 2 ^ k) by (apply Z.pow_pos_nonneg; lia).
  replace (low + 2 ^ k * mid + 2 ^ k * 2 ^ n * high) with (low + (mid + high * 2 ^ n) * 2 ^ k) by lia.
  rewrite Z.div_add, (Z.div_small low), Z.add_0_l, Z.mod_add by lia. by apply Z.mod_small.
Qed.

Lemma b2z_range b : 0 <= Z.b2z b < 2.
Proof. destruct b; cbn; lia. Qed.

Section Packed.
Context (a : fields) (Ha : fits a).

Lemma pack_range : 0 <= pack a < 2 ^ 63.
Proof.
  destruct Ha as (? & ? & ?). unfold pack. pose proof (b2z_range (closed a)). pose proof (b2z_range (rlock a)). pose proof (b2z_range (wlock a)). lia.
Qed.
Lemma pack_closed : pack a mod 2 = Z.b2z (closed a).
Proof.
  rewrite <- (Z.div_1_r (pack a)). apply (field_at 0 1 0 _ (Z.b2z (rlock a) + 2 * Z.b2z (wlock a) + 4 * refcount a + 2 ^ 22 * rwait a + 2 ^ 42 * wwait a));
    [lia|lia|lia|apply b2z_range|unfold pack; lia].
Qed.
Lemma pack_rlock : pack a / 2 mod 2 = Z.b2z (rlock a).
Proof.
  pose proof (b2z_range (closed a)).
  apply (field_at 1 1 (Z.b2z (closed a)) _ (Z.b2z (wlock a) + 2 * refcount a + 2 ^ 21 * rwait a + 2 ^ 41 * wwait a));
    [lia|lia|lia|apply b2z_range|unfold pack; lia].
Qed.
Lemma pack_wlock : pack a / 4 mod 2 = Z.b2z (wlock a).
Proof.
  pose proof (b2z_range (closed a)). pose proof (b2z_range (rlock a)).
  apply (field_at 2 1 (Z.b2z (closed a) + 2 * Z.b2z (rlock a)) _ (refcount a + 2 ^ 20 * rwait a + 2 ^ 40 * wwait a));
    [lia|lia|lia|apply b2z_range|unfold pack; lia].
Qed.
Lemma pack_refs : pack a / 8 mod 2 ^ 20 = refcount a.
Proof.
  destruct Ha as (? & ? & ?). pose proof (b2z_range (closed a)). pose proof (b2z_range (rlock a)). pose proof (b2z_range (wlock a)).
  apply (field_at 3 20 (Z.b2z (closed a) + 2 * Z.b2z (rlock a) + 4 * Z.b2z (wlock a)) _ (rwait a + 2 ^ 20 * wwait a));
    [lia|lia|lia|lia|unfold pack; lia].
Qed.
Lemma pack_rwait : pack a / 2 ^ 23 mod 2 ^ 20 = rwait a.
Proof.
  destruct Ha as (? & ? & ?). pose proof (b2z_range (closed a)). pose proof (b2z_range (rlock a)). pose proof (b2z_range (wlock a)).
  apply (field_at 23 20 (Z.b2z (closed a) + 2 * Z.b2z (rlock a) + 4 * Z.b2z (wlock a) + 8 * refcount a) _ (wwait a));
    [lia|lia|lia|lia|unfold pack; lia].
Qed.
Lemma pack_wwait : pack a / 2 ^ 43 mod 2 ^ 20 = wwait a.
Proof.
  destruct Ha as (? & ? & ?). pose proof (b2z_range (closed a)). pose proof (b2z_range (rlock a)). pose proof (b2z_range (wlock a)).
  apply (field_at 43 20 (Z.b2z (closed a) + 2 * Z.b2z (rlock a) + 4 * Z.b2z (wlock a) + 8 * refcount a + 2 ^ 23 * rwait a) _ 0);
    [lia|lia|lia|lia|unfold pack; lia].
Qed.

Lemma closed_test : negb (pack a .& mutexClosed =? 0) = closed a.
Proof. rewrite land_closed, pack_closed. by destruct (closed a). Qed.
Lemma lock_test read : (pack a .& mutexBit read =? 0) = negb (lock_of read a).
Proof.
  rewrite land_bit. destruct read; rewrite ?pack_rlock, ?pack_wlock; cbn [lock_of]; [by destruct (rlock a)|by destruct (wlock a)].
Qed.
Lemma refs_test : (pack a .& mutexRefMask =? 0) = (refcount a =? 0).
Proof. rewrite land_refmask, pack_refs. destruct (Z.eqb_spec (refcount a) 0), (Z.eqb_spec (refcount a * 8) 0); lia. Qed.
Lemma wait_test read : (pack a .& mutexMask read =? 0) = negb (wait_of read a >? 0).
Proof.
  destruct Ha as (_ & H1 & H2). rewrite land_waitmask, Z.gtb_ltb.
  destruct read; rewrite ?pack_rwait, ?pack_wwait; cbn [wait_of].
  - destruct (Z.eqb_spec (rwait a * 2 ^ 23) 0), (Z.ltb_spec 0 (rwait a)); try lia; done.
  - destruct (Z.eqb_spec (wwait a * 2 ^ 43) 0), (Z.ltb_spec 0 (wwait a)); try lia; done.
Qed.
Lemma no_remaining_test : no_remaining (pack a) = closed a && (refcount a =? 0).
Proof.
  unfold no_remaining. assert (E : pack a .& (mutexClosed .| mutexRefMask) = pack a mod 2 + pack a / 8 mod 2 ^ 20 * 8).
  { rewrite Z.land_lor_distr_r, land_closed, land_refmask, lor_sub.
    replace (pack a mod 2 .& (pack a / 8 mod 2 ^ 20 * 8)) with 0; [lia|].
    apply Z.bits_inj'. intros i Hi. rewrite Z.land_spec, Z.bits_0. destruct (decide (i = 0)) as [->|].
    - change 8 with (2 ^ 3). rewrite Z.mul_pow2_bits_low by lia. by rewrite andb_false_r.
    - rewrite (bits_above 1 (pack a mod 2)) by (lia || (apply Z.mod_pos_bound; lia)). done. }
  rewrite E, pack_closed, pack_refs. change mutexClosed with 1. destruct Ha as (H1 & _).
  destruct (closed a); cbn [Z.b2z andb]; destruct (Z.eqb_spec (refcount a) 0).
  all: first [apply Z.eqb_eq; lia|apply Z.eqb_neq; lia].
Qed.
End Packed.

(** The word without its wait counts. *)
Lemma pack_low a : fits a -> pack a mod 2 ^ 23 = pack (Fields (closed a) (rlock a) (wlock a) (refcount a) 0 0).
Proof.
  intros (H1 & H2 & H3). pose proof (b2z_range (closed a)). pose proof (b2z_range (rlock a)). pose proof (b2z_range (wlock a)).
  symmetry. apply (Z.mod_unique_pos _ _ (rwait a + 2 ^ 20 * wwait a)); unfold pack; cbn [closed rlock wlock refcount rwait wwait]; lia.
Qed.

(** Adding to a field that is not full, and to one that is. *)
Lemma overflow_test a : fits a -> (u64 (pack a + mutexRef) .& mutexRefMask =? 0) = (refcount a =? maxcount).
Proof.
  intros Ha. pose proof (pack_range a Ha) as Hr. destruct Ha as (H1 & H2 & H3). rewrite land_refmask. change mutexRef with 8. rewrite u64_id by lia.
  unfold maxcount. destruct (Z.eqb_spec (refcount a) (2 ^ 20 - 1)) as [E|E].
  - apply Z.eqb_eq. pose proof (b2z_range (closed a)). pose proof (b2z_range (rlock a)). pose proof (b2z_range (wlock a)).
    rewrite (field_at 3 20 (Z.b2z (closed a) + 2 * Z.b2z (rlock a) + 4 * Z.b2z (wlock a)) 0 (rwait a + 1 + 2 ^ 20 * wwait a));
      [done|lia|lia|lia|lia|unfold pack; rewrite E; lia].
  - apply Z.eqb_neq. assert (fits (add_ref 1 a)) as Hf by (unfold fits, add_ref; cbn; lia).
    assert (pack a + 8 = pack (add_ref 1 a)) as -> by (unfold pack, add_ref; cbn; lia). rewrite pack_refs by done. cbn. lia.
Qed.

Lemma wait_overflow_test read a : fits a -> (u64 (pack a + mutexWait read) .& mutexMask read =? 0) = (wait_of read a =? maxcount).
Proof.
  intros Ha. pose proof (pack_range a Ha) as Hr. destruct Ha as (H1 & H2 & H3). rewrite land_waitmask.
  rewrite u64_id by (destruct read; [change (mutexWait true) with (2 ^ 23)|change (mutexWait false) with (2 ^ 43)]; lia).
  unfold maxcount. destruct (Z.eqb_spec (wait_of read a) (2 ^ 20 - 1)) as [E|E].
  - apply Z.eqb_eq. pose proof (b2z_range (closed a)). pose proof (b2z_range (rlock a)). pose proof (b2z_range (wlock a)).
    destruct read; cbn [wait_of] in E.
    + change (mutexWait true) with (2 ^ 23).
      rewrite (field_at 23 20 (Z.b2z (closed a) + 2 * Z.b2z (rlock a) + 4 * Z.b2z (wlock a) + 8 * refcount a) 0 (wwait a + 1));
        [done|lia|lia|lia|lia|unfold pack; rewrite E; lia].
    + change (mutexWait false) with (2 ^ 43).
      rewrite (field_at 43 20 (Z.b2z (closed a) + 2 * Z.b2z (rlock a) + 4 * Z.b2z (wlock a) + 8 * refcount a + 2 ^ 23 * rwait a) 0 1);
        [done|lia|lia|lia|lia|unfold pack; rewrite E; lia].
  - apply Z.eqb_neq. assert (fits (add_wait read 1 a)) as Hf by (unfold fits, add_wait, wait_of in *; destruct read; cbn; lia).
    assert (pack a + mutexWait read = pack (add_wait read 1 a)) as ->.
    { unfold pack, add_wait. destruct read; [change (mutexWait true) with (2 ^ 23)|change (mutexWait false) with (2 ^ 43)]; cbn [closed rlock wlock refcount rwait wwait]; lia. }
    destruct read; [rewrite pack_rwait by done|rewrite pack_wwait by done]; unfold wait_of in *; cbn; lia.
Qed.

Lemma pack_lor_closed a : fits a -> closed a = false -> pack a .| mutexClosed = pack (Fields true (rlock a) (wlock a) (refcount a) (rwait a) (wwait a)).
Proof. intros Ha Hc. rewrite lor_sub, land_closed, pack_closed, Hc by done. unfold pack. rewrite Hc. cbn. change mutexClosed with 1. lia. Qed.
Lemma pack_lor_bit read a : fits a -> lock_of read a = false -> pack a .| mutexBit read = pack (set_lock read true a).
Proof.
  intros Ha Hl. rewrite lor_sub, land_bit. destruct read; cbn [lock_of] in Hl.
  - rewrite pack_rlock, Hl by done. unfold pack, set_lock. rewrite Hl. change (mutexBit true) with 2. cbn [closed rlock wlock refcount rwait wwait Z.b2z]. lia.
  - rewrite pack_wlock, Hl by done. unfold pack, set_lock. rewrite Hl. change (mutexBit false) with 4. cbn [closed rlock wlock refcount rwait wwait Z.b2z]. lia.
Qed.
Lemma pack_ldiff_bit read a : fits a -> lock_of read a = true -> Z.ldiff (pack a) (mutexBit read) = pack (set_lock read false a).
Proof.
  intros Ha Hl. rewrite ldiff_sub, land_bit. destruct read; cbn [lock_of] in Hl.
  - rewrite pack_rlock, Hl by done. unfold pack, set_lock. rewrite Hl. cbn [closed rlock wlock refcount rwait wwait Z.b2z]. lia.
  - rewrite pack_wlock, Hl by done. unfold pack, set_lock. rewrite Hl. cbn [closed rlock wlock refcount rwait wwait Z.b2z]. lia.
Qed.
Lemma pack_add_ref d a : pack a + 8 * d = pack (add_ref d a).
Proof. unfold pack, add_ref. cbn [closed rlock wlock refcount rwait wwait]. lia. Qed.
Lemma pack_add_wait read d a : pack a + d * mutexWait read = pack (add_wait read d a).
Proof.
  unfold pack, add_wait. destruct read; [change (mutexWait true) with (2 ^ 23)|change (mutexWait false) with (2 ^ 43)];
    cbn [closed rlock wlock refcount rwait wwait]; lia.
Qed.

Lemma fits_set_lock read b a : fits a -> fits (set_lock read b a).
Proof. by destruct read. Qed.
Lemma fits_add_ref d a : fits a -> 0 <= refcount a + d < 2 ^ 20 -> fits (add_ref d a).
Proof. unfold fits. cbn. tauto. Qed.
Lemma fits_add_wait read d a : fits a -> 0 <= wait_of read a + d < 2 ^ 20 -> fits (add_wait read d a).
Proof. unfold fits, wait_of. destruct read; cbn; tauto. Qed.
Lemma fits_close a : fits a -> fits (close a).
Proof. unfold fits. cbn. lia. Qed.

(** ** Every method decides on the fields *)

Lemma decide_fits o a : fits a -> match decide_op o a with DSet a' => fits a' | _ => True end.
Proof.
  intros Ha. pose proof Ha as (H1 & H2 & H3). unfold maxcount in *. destruct o as [| | |read wait|read]; cbn [decide_op].
  - destruct (closed a); [done|]. destruct (Z.eqb_spec (refcount a) maxcount); [done|]. apply fits_add_ref; [done|unfold maxcount in *; lia].
  - destruct (closed a); [done|]. destruct (Z.eqb_spec (refcount a) maxcount); [done|]. apply fits_close, fits_add_ref; [done|unfold maxcount in *; lia].
  - destruct (Z.eqb_spec (refcount a) 0); [done|]. apply fits_add_ref; [done|lia].
  - destruct (closed a); [done|]. destruct (negb (lock_of read a)).
    + destruct (Z.eqb_spec (refcount a) maxcount); [done|]. apply fits_set_lock, fits_add_ref; [done|unfold maxcount in *; lia].
    + destruct (negb wait); [done|]. destruct (Z.eqb_spec (wait_of read a) maxcount); [done|]. apply fits_add_wait; [done|].
      unfold maxcount, wait_of in *. destruct read; lia.
  - destruct (_ || _) eqn:E; [done|]. apply orb_false_iff in E as [_ E]. apply Z.eqb_neq in E.
    assert (Hf : fits (add_ref (-1) (set_lock read false a))).
    { apply fits_add_ref; [by apply fits_set_lock|]. destruct read; cbn; lia. }
    cbv zeta. rewrite Z.gtb_ltb. destruct (Z.ltb_spec 0 (wait_of read a)); [|done]. apply fits_add_wait; [done|].
    unfold wait_of in *. destruct read; cbn; lia.
Qed.

Lemma attempt_decides o a : fits a -> attempt_of o (pack a) = encode (decide_op o a).
Proof.
  intros Ha. pose proof (pack_range a Ha) as Hr. pose proof Ha as (H1 & H2 & H3). destruct o as [| | |read wait|read]; cbn [attempt_of decide_op].
  - unfold incref. rewrite closed_test by done. destruct (closed a); [done|]. cbv zeta. rewrite overflow_test by done.
    destruct (_ =? _); [done|]. change mutexRef with (8 * 1). rewrite u64_id by lia. by rewrite pack_add_ref.
  - unfold increfAndClose. rewrite closed_test by done. destruct (closed a) eqn:Hc; [done|]. cbv zeta.
    rewrite pack_lor_closed by done. set (b := Fields true (rlock a) (wlock a) (refcount a) (rwait a) (wwait a)).
    assert (Hb : fits b) by done. pose proof (pack_range b Hb). rewrite overflow_test by done. change (refcount b) with (refcount a).
    destruct (Z.eqb_spec (refcount a) maxcount); [done|]. cbn [encode]. f_equal. change mutexRef with (8 * 1). rewrite u64_id, pack_add_ref by lia.
    assert (Hb' : fits (add_ref 1 b)) by (apply fits_add_ref; [done|unfold maxcount in *; cbn; lia]).
    rewrite ldiff_waits by (by apply pack_range). apply pack_low. exact Hb'.
  - unfold decref. rewrite refs_test by done. destruct (Z.eqb_spec (refcount a) 0); [done|]. cbn [encode]. f_equal.
    change mutexRef with 8. assert (8 <= pack a).
    { unfold pack. destruct (closed a), (rlock a), (wlock a); cbn [Z.b2z]; lia. }
    rewrite u64_id by lia. rewrite <- pack_add_ref. lia.
  - unfold rwlock. rewrite closed_test by done. destruct (closed a); [done|]. rewrite lock_test by done.
    destruct (lock_of read a) eqn:Hl; cbn [negb].
    + destruct wait; cbn [negb]; [|done]. cbv zeta. rewrite wait_overflow_test by done. destruct (_ =? _); [done|]. cbn [encode]. f_equal.
      rewrite <- (Z.mul_1_l (mutexWait read)), pack_add_wait. apply u64_id.
      pose proof (pack_add_wait read 1 a) as <-. destruct read; [change (mutexWait true) with (2 ^ 23)|change (mutexWait false) with (2 ^ 43)]; lia.
    + cbv zeta. rewrite pack_lor_bit by done. assert (Hs : fits (set_lock read true a)) by (by apply fits_set_lock).
      pose proof (pack_range _ Hs). rewrite overflow_test by done. assert (refcount (set_lock read true a) = refcount a) as -> by (by destruct read).
      destruct (_ =? _); [done|]. cbn [encode]. f_equal. change mutexRef with (8 * 1). rewrite u64_id, pack_add_ref by lia. by destruct read.
  - unfold rwunlock. rewrite lock_test, refs_test by done. destruct (lock_of read a) eqn:Hl; cbn [negb orb]; [|done].
    destruct (Z.eqb_spec (refcount a) 0); [done|]. cbv zeta. rewrite pack_ldiff_bit by done. rewrite wait_test, negb_involutive by done.
    cbn [encode]. f_equal. set (b := set_lock read false a).
    assert (Hb' : fits (add_ref (-1) b)).
    { apply fits_add_ref; [by apply fits_set_lock|]. unfold b. destruct read; cbn; lia. }
    assert (u64 (pack b - mutexRef) = pack (add_ref (-1) b)) as ->.
    { rewrite <- pack_add_ref. change mutexRef with 8. replace (pack b + 8 * -1) with (pack b - 8) by lia. apply u64_id.
      pose proof (pack_range _ Hb') as Hp. rewrite <- pack_add_ref in Hp. lia. }
    rewrite Z.gtb_ltb. destruct (Z.ltb_spec 0 (wait_of read a)) as [Hw|]; [|done].
    replace (pack (add_ref (-1) b) - mutexWait read) with (pack (add_ref (-1) b) + (-1) * mutexWait read) by lia. rewrite pack_add_wait.
    apply u64_id. assert (Hf : fits (add_wait read (-1) (add_ref (-1) b))).
    { apply fits_add_wait; [done|]. unfold b, wait_of in *. destruct read; cbn; lia. }
    pose proof (pack_range _ Hf). lia.
Qed.
