(* ===== verification/FdMutexInv.v ===== *)
(** * internal/poll: the invariant of the mutex

    The state word counts what the goroutines hold: references, locks, and the
    goroutines that have announced that they wait.  The invariant holds in every
    interleaving. *)

From stdpp Require Import relations.
From S2P Require Import Prelude.
From S2P Require Import Slice.
From S2P Require Import BitsArith.
From S2P Require Import FdMutex.
From S2P Require Import FdMutexBits.

(** ** Sums over the goroutines *)

Definition total (f : thread -> Z) (ts : list thread) : Z := foldr (fun t n => f t + n) 0 ts.

Lemma total_cons f t ts : total f (t :: ts) = f t + total f ts.
Proof. done. Qed.
Lemma total_nil f : total f [] = 0.
Proof. done. Qed.

Lemma total_insert f ts i t t' : ts !! i = Some t -> total f (<[i := t']> ts) = total f ts - f t + f t'.
Proof.
  revert i. induction ts as [|u ts IH]; intros [|i] H; try done.
  - injection H as ->. change (f t' + total f ts = f t + total f ts - f t + f t'). lia.
  - change (f u + total f (<[i := t']> ts) = f u + total f ts - f t + f t'). rewrite IH by done. lia.
Qed.
Lemma total_nonneg f ts : Forall (fun t => 0 <= f t) ts -> 0 <= total f ts.
Proof. induction 1; rewrite ?total_cons, ?total_nil; lia. Qed.
Lemma total_ge f ts i t : Forall (fun t => 0 <= f t) ts -> ts !! i = Some t -> f t <= total f ts.
Proof.
  intros H. revert i. induction H as [|u ts Hu H IH]; intros [|i] Hi; try done; rewrite total_cons.
  - injection Hi as ->. pose proof (total_nonneg f ts H). lia.
  - specialize (IH i Hi). lia.
Qed.
Lemma total_ge2 f ts i j t u :
  Forall (fun t => 0 <= f t) ts -> i <> j -> ts !! i = Some t -> ts !! j = Some u -> f t + f u <= total f ts.
Proof.
  intros H. revert i j. induction H as [|v ts Hv H IH]; intros [|i] [|j] Hij Hi Hj; try done; rewrite total_cons.
  - injection Hi as ->. pose proof (total_ge f ts j u H Hj). lia.
  - injection Hj as ->. pose proof (total_ge f ts i t H Hi). lia.
  - pose proof (IH i j ltac:(congruence) Hi Hj). lia.
Qed.
Lemma total_pos f ts : Forall (fun t => 0 <= f t) ts -> 0 < total f ts -> exists i t, ts !! i = Some t /\ 0 < f t.
Proof.
  induction 1 as [|u ts Hu H IH]; rewrite ?total_cons, ?total_nil; [lia|]. intros Hp. destruct (decide (0 < f u)); [by exists O, u|].
  destruct IH as (i & t & Hi & Ht); [lia|]. by exists (S i), t.
Qed.
Lemma total_0 f n t : f t = 0 -> total f (replicate n t) = 0.
Proof. intros H. induction n as [|n IH]; [done|]. cbn [replicate]. rewrite total_cons. lia. Qed.

(** ** What one goroutine contributes *)

Definition same (r r' : bool) : Z := if Bool.eqb r r' then 1 else 0.

Definition pc_refs (p : pc) : Z :=
  match p with
  | Returned (Incref | IncrefAndClose | RWLock _ _) true | AtCloseRelease _ => 1
  | AtRelease _ _ | Returned (Decref | RWUnlock _) _ => -1
  | _ => 0
  end.
Definition held_refs (t : thread) : Z := refs t + Z.b2z (rlocked t) + Z.b2z (wlocked t) + pc_refs (at_pc t).

Definition pc_lock (r : bool) (p : pc) : Z :=
  match p with
  | Returned (RWLock r' _) true => same r r'
  | AtRelease r' _ | Returned (RWUnlock r') _ => - same r r'
  | _ => 0
  end.
Definition held_lock (r : bool) (t : thread) : Z := Z.b2z (locked r t) + pc_lock r (at_pc t).

Definition waiting (r : bool) (t : thread) : Z := match at_pc t with AtAcquire r' => same r r' | _ => 0 end.
Definition waiters_in (r : bool) (old : Z) : Z := if r then old / 2 ^ 23 mod 2 ^ 20 else old / 2 ^ 43 mod 2 ^ 20.
(** Wake-ups it is still going to send. *)
Definition pending (r : bool) (t : thread) : Z :=
  match at_pc t with
  | AtRelease r' _ => same r r'
  | AtCloseRelease old => waiters_in r old
  | _ => 0
  end.
(** It is trying to take the lock. *)
Definition contender (r : bool) (t : thread) : Z :=
  match at_pc t with AtLoad (RWLock r' true) | AtCas (RWLock r' true) _ _ => same r r' | _ => 0 end.
Definition panicked (t : thread) : Z := match at_pc t with Panicked => 1 | _ => 0 end.

Definition wf_thread (t : thread) : Prop :=
  0 <= refs t /\
  match at_pc t with
  | AtLoad o => may_start t o
  | AtCas o old new => may_start t o /\ exists a a', fits a /\ old = pack a /\ decide_op o a = DSet a' /\ new = pack a'
  | AtCloseRelease old => exists a, fits a /\ old = pack a
  | AtRelease r _ | Returned (RWUnlock r) _ => locked r t = true
  | Returned Decref _ => 0 < refs t
  | _ => True
  end.

Record Inv (c : config) (a : fields) : Prop := {
  inv_fits : fits a;
  inv_state : state c.1 = pack a;
  inv_refs : refcount a = total held_refs c.2;
  inv_lock r : Z.b2z (lock_of r a) = total (held_lock r) c.2;
  inv_wait r : wait_of r a + sema r c.1 + total (pending r) c.2 = total (waiting r) c.2;
  inv_sema r : 0 <= sema r c.1;
  inv_threads : Forall wf_thread c.2;
  inv_closed r : closed a = true -> wait_of r a = 0;
  inv_woken r : closed a = false -> 0 < wait_of r a -> lock_of r a = false ->
    0 < total (contender r) c.2 + sema r c.1 + total (pending r) c.2 + total panicked c.2;
}.

(** ** Ranges *)

Lemma same_range r r' : 0 <= same r r' <= 1.
Proof. unfold same. destruct (Bool.eqb r r'); lia. Qed.
Lemma same_refl r : same r r = 1.
Proof. by destruct r. Qed.

Lemma held_lock_nonneg r t : wf_thread t -> 0 <= held_lock r t.
Proof.
  intros [_ H]. unfold held_lock, pc_lock. pose proof (b2z_range (locked r t)).
  destruct (at_pc t) as [| | | | |r' res|o res|]; try lia.
  - unfold same. destruct (Bool.eqb_spec r r'); [subst; rewrite H; cbn; lia|lia].
  - destruct o as [| | |r' w|r']; try lia; [pose proof (same_range r r'); destruct res; lia|].
    unfold same. destruct (Bool.eqb_spec r r'); [subst; rewrite H; cbn; lia|lia].
Qed.
Lemma held_refs_nonneg t : wf_thread t -> 0 <= held_refs t.
Proof.
  intros [H0 H]. unfold held_refs, pc_refs. pose proof (b2z_range (rlocked t)). pose proof (b2z_range (wlocked t)).
  assert (Hl : forall r, locked r t = true -> 1 <= Z.b2z (rlocked t) + Z.b2z (wlocked t)).
  { intros [|]; cbn; intros ->; cbn; lia. }
  destruct (at_pc t) as [| | | | |r' res|o res|]; try lia.
  - specialize (Hl _ H). lia.
  - destruct o; try lia; try (destruct res; lia). specialize (Hl _ H). lia.
Qed.
Lemma pending_nonneg r t : 0 <= pending r t.
Proof.
  unfold pending. destruct (at_pc t); try lia; [|apply same_range]. unfold waiters_in. destruct r; apply Z.mod_pos_bound; lia.
Qed.
Lemma waiting_nonneg r t : 0 <= waiting r t.
Proof. unfold waiting. destruct (at_pc t); try lia. apply same_range. Qed.
Lemma contender_nonneg r t : 0 <= contender r t.
Proof. unfold contender. destruct (at_pc t) as [|o|o ? ?| | | | |]; try lia; destruct o as [| | |r' [|]|]; try lia; apply same_range. Qed.
Lemma panicked_nonneg t : 0 <= panicked t.
Proof. unfold panicked. destruct (at_pc t); lia. Qed.

Lemma waiters_pack r a : fits a -> waiters_in r (pack a) = wait_of r a.
Proof. intros Ha. destruct r; [by apply pack_rwait|by apply pack_wwait]. Qed.

Lemma pack_inj a b : fits a -> fits b -> pack a = pack b -> a = b.
Proof.
  intros Ha Hb E. pose proof (pack_closed a) as C1. pose proof (pack_closed b) as C2. pose proof (pack_rlock a) as R1. pose proof (pack_rlock b) as R2.
  pose proof (pack_wlock a) as W1. pose proof (pack_wlock b) as W2. pose proof (pack_refs a Ha) as N1. pose proof (pack_refs b Hb) as N2.
  pose proof (pack_rwait a Ha) as X1. pose proof (pack_rwait b Hb) as X2. pose proof (pack_wwait a Ha) as Y1. pose proof (pack_wwait b Hb) as Y2.
  rewrite E in *. destruct a as [c r w n x y], b as [c' r' w' n' x' y']. cbn [closed rlock wlock refcount rwait wwait] in *.
  f_equal; try congruence; apply Z.b2z_inj; congruence.
Qed.

Lemma wf_nonneg ts f : Forall wf_thread ts -> (forall t, wf_thread t -> 0 <= f t) -> Forall (fun t => 0 <= f t) ts.
Proof. intros H Hf. eapply Forall_impl; [exact H|]. done. Qed.

(** ** Preservation *)

(** One goroutine changes, together with the word and the semaphores. *)
Lemma Inv_update mu mu' ts i t t' a a' :
  Inv (mu, ts) a -> ts !! i = Some t ->
  fits a' -> state mu' = pack a' -> wf_thread t' ->
  refcount a' - refcount a = held_refs t' - held_refs t ->
  (forall r, Z.b2z (lock_of r a') - Z.b2z (lock_of r a) = held_lock r t' - held_lock r t) ->
  (forall r, (wait_of r a' + sema r mu' + pending r t') - (wait_of r a + sema r mu + pending r t) = waiting r t' - waiting r t) ->
  (forall r, 0 <= sema r mu') ->
  (forall r, closed a' = true -> wait_of r a' = 0) ->
  (forall r, closed a' = false -> 0 < wait_of r a' -> lock_of r a' = false ->
     (closed a = false /\ 0 < wait_of r a /\ lock_of r a = false /\
      contender r t + sema r mu + pending r t + panicked t <= contender r t' + sema r mu' + pending r t' + panicked t') \/
     0 < contender r t' + sema r mu' + pending r t' + panicked t') ->
  Inv (mu', <[i := t']> ts) a'.
Proof.
  intros HI Hi Hf Hs Hw Hrefs Hlock Hwait Hsema Hcl Hwoken. destruct HI as [_ _ I1 I2 I3 I4 I5 _ I7]. cbn [fst snd] in *. constructor; cbn [fst snd].
  - done.
  - done.
  - rewrite (total_insert _ _ _ _ _ Hi). lia.
  - intros r. rewrite (total_insert _ _ _ _ _ Hi). specialize (I2 r). specialize (Hlock r). lia.
  - intros r. rewrite !(total_insert _ _ _ _ _ Hi). specialize (I3 r). specialize (Hwait r). lia.
  - done.
  - by apply Forall_insert.
  - done.
  - intros r H1 H2 H3. rewrite !(total_insert _ _ _ _ _ Hi). destruct (Hwoken r H1 H2 H3) as [(G1 & G2 & G3 & G4)|G].
    + specialize (I7 r G1 G2 G3). lia.
    + assert (Hnn : forall f, (forall t, 0 <= f t) -> 0 <= total f ts - f t).
      { intros f Hnn. pose proof (total_ge f ts i t) as Hge. cut (f t <= total f ts); [lia|]. apply Hge; [|done]. by apply Forall_true. }
      pose proof (Hnn (contender r) (contender_nonneg r)). pose proof (Hnn (pending r) (pending_nonneg r)).
      pose proof (Hnn panicked panicked_nonneg). lia.
Qed.

Lemma Inv_initial n : Inv (initial n) (Fields false false false 0 0 0).
Proof.
  constructor; unfold initial; cbn [fst snd].
  - unfold fits. cbn. lia.
  - done.
  - by rewrite total_0.
  - intros r. rewrite total_0 by (by destruct r). by destruct r.
  - intros r. rewrite !total_0 by (by destruct r). by destruct r.
  - intros r. by destruct r.
  - apply Forall_replicate. done.
  - intros r. by destruct r.
  - intros r _ H. exfalso. destruct r; cbn in H; lia.
Qed.

(** What a step changes is decided by evaluation on the goroutine. *)
Ltac counts :=
  unfold held_refs, held_lock, waiting, pending, contender, panicked, returned, set_pc, add_refs, set_locked in *;
  cbn [at_pc refs rlocked wlocked pc_refs pc_lock locked fst snd] in *.

(** Counts that do not change. *)
Ltac quiet := first [counts; lia|intros [|]; counts; lia].

Lemma Inv_start mu ts i t o a :
  Inv (mu, ts) a -> ts !! i = Some t -> at_pc t = Idle -> may_start t o -> Inv (mu, <[i := set_pc (AtLoad o) t]> ts) a.
Proof.
  intros HI Hi Hp Hm. pose proof HI as [I0 I1 _ _ _ I4 I5 I6 _]. cbn [fst snd] in *.
  pose proof (Forall_lookup_1 _ _ _ _ I5 Hi) as [Hr _]. destruct t as [p n rl wl]. cbn in Hp, Hr. subst p.
  eapply Inv_update; try done.
  - counts. lia.
  - intros [|]; counts; lia.
  - intros r. counts. lia.
  - intros r H1 H2 H3. left. split_and!; try done. pose proof (contender_nonneg r (Thread (AtLoad o) n rl wl)). counts. lia.
Qed.

Lemma Inv_return mu ts i t o res a :
  Inv (mu, ts) a -> ts !! i = Some t -> at_pc t = Returned o res -> Inv (mu, <[i := returned o res t]> ts) a.
Proof.
  intros HI Hi Hp. pose proof HI as [I0 I1 _ I2 _ I4 I5 I6 _]. cbn [fst snd] in *.
  pose proof (Forall_lookup_1 _ _ _ _ I5 Hi) as Hwf. pose proof Hwf as [Hr Hw].
  assert (Hlk : forall r, held_lock r t <= 1).
  { intros r. specialize (I2 r). pose proof (total_ge (held_lock r) ts i t) as Hge.
    assert (held_lock r t <= total (held_lock r) ts). { apply Hge; [|done]. apply wf_nonneg; [done|]. apply held_lock_nonneg. }
    pose proof (b2z_range (lock_of r a)). lia. }
  destruct t as [p n rl wl]. cbn in Hp. subst p. cbn [at_pc refs] in *.
  eapply Inv_update; try done.
  - destruct o as [| | |[|] w|[|]], res; counts; split; cbn [at_pc refs]; done || lia.
  - pose proof (Hlk true) as L1. pose proof (Hlk false) as L2. clear Hwf. destruct o as [| | |[|] w|[|]], res; counts; unfold same in *; cbn [Bool.eqb] in *;
      subst; cbn [Z.b2z] in *; try lia; destruct rl, wl; cbn [Z.b2z] in *; lia.
  - intros r'. pose proof (Hlk r') as L. destruct o as [| | |[|] w|[|]], res, r'; counts; unfold same in *; cbn [Bool.eqb] in *;
      subst; cbn [Z.b2z] in *; try lia; destruct rl, wl; cbn [Z.b2z] in *; lia.
  - intros r'. destruct o as [| | |[|] w|[|]], res; counts; lia.
  - intros r' H1 H2 H3. left. by split_and!.
Qed.

Lemma Inv_load mu ts i t o a :
  Inv (mu, ts) a -> ts !! i = Some t -> at_pc t = AtLoad o ->
  Inv (mu, <[i := set_pc (match attempt_of o (state mu) with
                          | ReturnFalse => Returned o false
                          | PanicOverflow | PanicInconsistent => Panicked
                          | TryCas new => AtCas o (state mu) new
                          end) t]> ts) a.
Proof.
  intros HI Hi Hp. pose proof HI as [I0 I1 _ _ _ I4 I5 I6 _]. cbn [fst snd] in *.
  pose proof (Forall_lookup_1 _ _ _ _ I5 Hi) as [Hr Hw]. destruct t as [p n rl wl]. cbn in Hp, Hr. subst p. cbn [at_pc] in Hw.
  rewrite I1, attempt_decides by done. destruct (decide_op o a) as [| | |a'] eqn:Ed; cbn [encode].
  - assert (Ho : o <> Decref /\ forall r, o <> RWUnlock r).
    { split; [intros ->|intros r ->]; cbn in Ed; [by destruct (_ =? _)|by destruct (_ || _)]. }
    eapply Inv_update; try done.
    + counts. destruct o; try lia; exfalso; [by apply (proj1 Ho)|by eapply (proj2 Ho)].
    + intros [|]; counts; destruct o; try lia; exfalso; by eapply (proj2 Ho).
    + intros r. counts. lia.
    + intros r H1 H2 H3. left. split_and!; try done. counts. destruct o as [| | |r' [|]|]; try lia. cbn in Ed. rewrite H1 in Ed.
      unfold same. destruct (Bool.eqb_spec r r'); [|lia]. subst. rewrite H3 in Ed. cbn in Ed. by destruct (_ =? _).
  - eapply Inv_update; try done; try quiet.
    intros r H1 H2 H3. right. specialize (I4 r). counts. lia.
  - eapply Inv_update; try done; try quiet.
    intros r H1 H2 H3. right. specialize (I4 r). counts. lia.
  - eapply Inv_update; try done; try quiet.
    + split; [done|]. cbn. split; [by destruct o|]. by exists a, a'.
    + intros r H1 H2 H3. left. by split_and!.
Qed.

Lemma Inv_acquire mu ts i t r a mu' :
  Inv (mu, ts) a -> ts !! i = Some t -> at_pc t = AtAcquire r -> runtime_Semacquire r mu = Some mu' ->
  Inv (mu', <[i := set_pc (AtLoad (RWLock r true)) t]> ts) a.
Proof.
  intros HI Hi Hp Hs. pose proof HI as [I0 I1 _ _ _ I4 I5 I6 _]. cbn [fst snd] in *.
  pose proof (Forall_lookup_1 _ _ _ _ I5 Hi) as [Hr Hw]. destruct t as [p n rl wl]. cbn in Hp, Hr. subst p.
  unfold runtime_Semacquire in Hs. rewrite Z.gtb_ltb in Hs. destruct (Z.ltb_spec 0 (sema r mu)); [|done]. injection Hs as <-.
  eapply Inv_update; try done; try quiet.
  - by destruct r.
  - intros r'. specialize (I4 r'). destruct r, r'; counts; unfold same; cbn in *; lia.
  - intros r'. specialize (I4 r'). destruct r, r'; cbn in *; lia.
  - intros r' H1 H2 H3. left. split_and!; try done. destruct r, r'; counts; unfold same; cbn in *; lia.
Qed.

Lemma Inv_release mu ts i t r res a :
  Inv (mu, ts) a -> ts !! i = Some t -> at_pc t = AtRelease r res ->
  Inv (runtime_Semrelease r mu, <[i := set_pc (Returned (RWUnlock r) res) t]> ts) a.
Proof.
  intros HI Hi Hp. pose proof HI as [I0 I1 _ _ _ I4 I5 I6 _]. cbn [fst snd] in *.
  pose proof (Forall_lookup_1 _ _ _ _ I5 Hi) as [Hr Hw]. destruct t as [p n rl wl]. cbn in Hp, Hr. subst p. cbn in Hw.
  eapply Inv_update; try done; try quiet.
  - by destruct r.
  - intros r'. specialize (I4 r'). destruct r, r'; counts; unfold same; cbn in *; lia.
  - intros r'. specialize (I4 r'). destruct r, r'; cbn in *; lia.
  - intros r' H1 H2 H3. left. split_and!; try done. destruct r, r'; counts; unfold same; cbn in *; lia.
Qed.

Lemma pack_sub_wait r a : fits a -> 0 < wait_of r a -> u64 (pack a - mutexWait r) = pack (add_wait r (-1) a) /\ fits (add_wait r (-1) a).
Proof.
  intros Ha Hw. assert (Hf : fits (add_wait r (-1) a)).
  { apply fits_add_wait; [done|]. destruct Ha as (_ & ? & ?). unfold wait_of in *. destruct r; lia. }
  split; [|done]. replace (pack a - mutexWait r) with (pack a + (-1) * mutexWait r) by lia. rewrite pack_add_wait.
  apply u64_id. pose proof (pack_range _ Hf). lia.
Qed.
Lemma wait_of_add r r' d a : wait_of r (add_wait r' d a) = wait_of r a + d * same r r'.
Proof. destruct r, r'; unfold same; cbn [wait_of add_wait rwait wwait Bool.eqb]; lia. Qed.

(** One wake-up of a closing goroutine. *)
Lemma Inv_close_release mu ts i t r old a :
  Inv (mu, ts) a -> ts !! i = Some t -> at_pc t = AtCloseRelease old -> (old .& mutexMask r =? 0) = false ->
  Inv (runtime_Semrelease r mu, <[i := set_pc (AtCloseRelease (u64 (old - mutexWait r))) t]> ts) a.
Proof.
  intros HI Hi Hp Hm. pose proof HI as [I0 I1 _ _ _ I4 I5 I6 _]. cbn [fst snd] in *.
  pose proof (Forall_lookup_1 _ _ _ _ I5 Hi) as [Hr Hw]. destruct t as [p n rl wl]. cbn in Hp, Hr. subst p. cbn in Hw.
  destruct Hw as (b & Hb & ->). rewrite wait_test, Z.gtb_ltb in Hm by done. apply negb_false_iff, Z.ltb_lt in Hm.
  destruct (pack_sub_wait r b Hb Hm) as [E Hf]. rewrite E.
  assert (Hpend : forall r', waiters_in r' (pack (add_wait r (-1) b)) + same r' r = waiters_in r' (pack b)).
  { intros r'. rewrite !waiters_pack, wait_of_add by done. lia. }
  assert (Hse : forall r', sema r' (runtime_Semrelease r mu) = sema r' mu + same r' r) by (intros r'; destruct r, r'; unfold same; cbn; lia).
  eapply Inv_update; try done; try quiet.
  - by destruct r.
  - split; [done|]. cbn. by exists (add_wait r (-1) b).
  - intros r'. specialize (Hpend r'). rewrite Hse. counts. lia.
  - intros r'. specialize (I4 r'). rewrite Hse. pose proof (same_range r' r). lia.
  - intros r' H1 H2 H3. left. split_and!; try done. specialize (Hpend r'). rewrite Hse. counts. lia.
Qed.

Lemma Inv_close_done mu ts i t old a :
  Inv (mu, ts) a -> ts !! i = Some t -> at_pc t = AtCloseRelease old ->
  (old .& mutexRMask =? 0) = true -> (old .& mutexWMask =? 0) = true ->
  Inv (mu, <[i := set_pc (Returned IncrefAndClose true) t]> ts) a.
Proof.
  intros HI Hi Hp Hm1 Hm2. pose proof HI as [I0 I1 _ _ _ I4 I5 I6 _]. cbn [fst snd] in *.
  pose proof (Forall_lookup_1 _ _ _ _ I5 Hi) as [Hr Hw]. destruct t as [p n rl wl]. cbn in Hp, Hr. subst p. cbn in Hw.
  destruct Hw as (b & Hb & ->). assert (Hpend : forall r, waiters_in r (pack b) = 0).
  { intros r. rewrite waiters_pack by done. change mutexRMask with (mutexMask true) in Hm1. change mutexWMask with (mutexMask false) in Hm2.
    rewrite wait_test, Z.gtb_ltb in Hm1, Hm2 by done. apply negb_true_iff, Z.ltb_ge in Hm1, Hm2. destruct Hb as (_ & ? & ?).
    destruct r; cbn in *; lia. }
  eapply Inv_update; try done; try quiet.
  - intros r. specialize (Hpend r). counts. lia.
  - intros r H1 H2 H3. left. split_and!; try done. specialize (Hpend r). counts. lia.
Qed.

(** ** A successful swap *)

Lemma no_remaining_pack a : fits a -> no_remaining (pack a) = closed a && (refcount a =? 0).
Proof. apply no_remaining_test. Qed.

(** The program counter after the swap, in terms of the fields. *)
Definition after_op (o : op) (a a' : fields) : pc :=
  match o with
  | Incref => Returned o true
  | IncrefAndClose => AtCloseRelease (pack a)
  | Decref => Returned o (closed a' && (refcount a' =? 0))
  | RWLock read _ => if lock_of read a then AtAcquire read else Returned o true
  | RWUnlock read =>
      if wait_of read a >? 0 then AtRelease read (closed a' && (refcount a' =? 0))
      else Returned o (closed a' && (refcount a' =? 0))
  end.
Lemma after_cas_op o a a' : fits a -> fits a' -> after_cas o (pack a) (pack a') = after_op o a a'.
Proof.
  intros Ha Ha'. destruct o as [| | |r w|r]; cbn [after_cas after_op]; rewrite ?lock_test, ?wait_test, ?no_remaining_pack, ?negb_involutive by done;
    try done. by destruct (lock_of r a).
Qed.

Lemma lock_of_set r r' b a : lock_of r (set_lock r' b a) = if Bool.eqb r r' then b else lock_of r a.
Proof. by destruct r, r'. Qed.
Lemma lock_of_add_wait r r' d a : lock_of r (add_wait r' d a) = lock_of r a.
Proof. by destruct r, r'. Qed.
Lemma wait_of_set_lock r r' b a : wait_of r (set_lock r' b a) = wait_of r a.
Proof. by destruct r, r'. Qed.
Lemma closed_set_lock r b a : closed (set_lock r b a) = closed a.
Proof. by destruct r. Qed.
Lemma closed_add_wait r d a : closed (add_wait r d a) = closed a.
Proof. by destruct r. Qed.
Lemma refcount_set_lock r b a : refcount (set_lock r b a) = refcount a.
Proof. by destruct r. Qed.
Lemma refcount_add_wait r d a : refcount (add_wait r d a) = refcount a.
Proof. by destruct r. Qed.

Ltac fields_of :=
  counts; unfold add_ref, close, set_state, sema in *;
  cbn [lock_of wait_of closed rlock wlock refcount rwait wwait rsema wsema state Z.b2z] in *.
Ltac quiet_cas := first [fields_of; lia|intros [|]; fields_of; first [lia|congruence]].

Section Cas.
Context (mu : fdMutex) (ts : list thread) (i : nat) (n : Z) (rl wl : bool) (o : op) (old new : Z) (a a' : fields).
Context (HI : Inv (mu, ts) a) (Hi : ts !! i = Some (Thread (AtCas o old new) n rl wl)).
Context (Hd : decide_op o a = DSet a') (Hm : may_start (Thread (AtCas o old new) n rl wl) o).

Abbreviation after := (set_state mu (pack a'), <[i := Thread (after_op o a a') n rl wl]> ts).

Lemma cas_incref : o = Incref -> Inv after a'.
Proof.
  intros ->. pose proof HI as [I0 _ _ _ _ I4 I5 I6 _]. pose proof (Forall_lookup_1 _ _ _ _ I5 Hi) as [Hr _].
  pose proof (decide_fits Incref a I0) as Hf. rewrite Hd in Hf. cbn [decide_op] in Hd.
  destruct (closed a) eqn:Hc; [done|]. destruct (_ =? _); [done|]. injection Hd as <-. cbn [after_op].
  eapply Inv_update; try done; try quiet_cas. intros r H1 H2 H3. left. by split_and!.
Qed.

Lemma cas_close : o = IncrefAndClose -> Inv after a'.
Proof.
  intros ->. pose proof HI as [I0 I1 _ _ _ I4 I5 I6 _]. pose proof (Forall_lookup_1 _ _ _ _ I5 Hi) as [Hr _].
  pose proof (decide_fits IncrefAndClose a I0) as Hf. rewrite Hd in Hf. cbn [decide_op] in Hd.
  destruct (closed a) eqn:Hc; [done|]. destruct (_ =? _); [done|]. injection Hd as <-. cbn [after_op].
  eapply Inv_update; try done; try quiet_cas.
  - split; [done|]. cbn. by exists a.
  - intros r. counts. rewrite waiters_pack by done. destruct r; cbn; lia.
Qed.

Lemma cas_decref : o = Decref -> Inv after a'.
Proof.
  intros ->. pose proof HI as [I0 _ _ _ _ I4 I5 I6 _]. pose proof (Forall_lookup_1 _ _ _ _ I5 Hi) as [Hr _].
  pose proof (decide_fits Decref a I0) as Hf. rewrite Hd in Hf. cbn [decide_op] in Hd.
  destruct (_ =? _); [done|]. injection Hd as <-. cbn [after_op]. eapply Inv_update; try done; try quiet_cas.
  intros r H1 H2 H3. left. by split_and!.
Qed.

Lemma cas_rwlock r w : o = RWLock r w -> Inv after a'.
Proof.
  intros ->. pose proof HI as [I0 _ _ _ _ I4 I5 I6 _]. pose proof (Forall_lookup_1 _ _ _ _ I5 Hi) as [Hr _].
  pose proof (decide_fits (RWLock r w) a I0) as Hf. rewrite Hd in Hf. cbn [decide_op] in Hd.
  destruct (closed a) eqn:Hc; [done|]. destruct (lock_of r a) eqn:Hl; cbn [negb] in Hd.
  - destruct w; [|done]. cbn [negb] in Hd. destruct (_ =? _); [done|]. injection Hd as <-. cbn [after_op]. rewrite Hl.
    eapply Inv_update; try done.
    + rewrite refcount_add_wait. counts. lia.
    + intros r'. rewrite lock_of_add_wait. destruct r'; counts; lia.
    + intros r'. rewrite wait_of_add. counts. change (sema r' (set_state mu _)) with (sema r' mu). lia.
    + intros r'. rewrite closed_add_wait. by rewrite Hc.
    + intros r' H1 H2 H3. rewrite lock_of_add_wait in H3. rewrite wait_of_add in H2. left. unfold same in *.
      destruct (Bool.eqb_spec r' r); [subst; congruence|]. split_and!; [done|lia|done|]. counts. unfold same. destruct (Bool.eqb_spec r' r); [done|].
      change (sema r' (set_state mu _)) with (sema r' mu). lia.
  - destruct (_ =? _); [done|]. injection Hd as <-. cbn [after_op]. rewrite Hl. change (add_ref 1 a) with (add_ref 1 a) in *.
    eapply Inv_update; try done.
    + rewrite refcount_set_lock. counts. cbn. lia.
    + intros r'. rewrite lock_of_set. change (lock_of r' (add_ref 1 a)) with (lock_of r' a). counts. unfold same.
      destruct (Bool.eqb_spec r' r); [subst; rewrite Hl; destruct r; cbn; lia|destruct r'; cbn; lia].
    + intros r'. rewrite wait_of_set_lock. counts. change (sema r' (set_state mu _)) with (sema r' mu). change (wait_of r' (add_ref 1 a)) with (wait_of r' a). lia.
    + intros r'. rewrite closed_set_lock. change (closed (add_ref 1 a)) with (closed a). by rewrite Hc.
    + intros r' H1 H2 H3. rewrite lock_of_set in H3. rewrite wait_of_set_lock in H2. left. destruct (Bool.eqb_spec r' r); [done|].
      split_and!; [done..|]. counts. change (sema r' (set_state mu _)) with (sema r' mu). unfold same.
      destruct (Bool.eqb_spec r' r); [done|]. destruct w; lia.
Qed.

Lemma cas_rwunlock r : o = RWUnlock r -> Inv after a'.
Proof.
  intros ->. pose proof HI as [I0 _ _ _ _ I4 I5 I6 _]. cbn [fst snd] in *. pose proof (Forall_lookup_1 _ _ _ _ I5 Hi) as [Hr _].
  pose proof (decide_fits (RWUnlock r) a I0) as Hf. rewrite Hd in Hf. cbn [decide_op] in Hd. cbn in Hm.
  destruct (lock_of r a) eqn:Hl; [|done]. destruct (Z.eqb_spec (refcount a) 0); [done|]. cbn [negb orb] in Hd. cbn [after_op].
  rewrite Z.gtb_ltb in *. destruct (Z.ltb_spec 0 (wait_of r a)) as [Hw|Hw]; injection Hd as <-.
  - eapply Inv_update; try done.
    + rewrite refcount_add_wait. cbn. rewrite refcount_set_lock. counts. lia.
    + intros r'. rewrite lock_of_add_wait. change (lock_of r' (add_ref (-1) ?b)) with (lock_of r' b). rewrite lock_of_set. counts. unfold same.
      destruct (Bool.eqb_spec r' r); [subst; rewrite Hl; destruct r; cbn; lia|destruct r'; cbn; lia].
    + intros r'. rewrite wait_of_add. change (wait_of r' (add_ref (-1) ?b)) with (wait_of r' b). rewrite wait_of_set_lock. counts.
      change (sema r' (set_state mu _)) with (sema r' mu). lia.
    + intros r' H1. rewrite closed_add_wait in H1. cbn in H1. rewrite closed_set_lock in H1. specialize (I6 r H1). lia.
    + intros r' H1 H2 H3. rewrite closed_add_wait in H1. cbn in H1. rewrite closed_set_lock in H1. rewrite lock_of_add_wait in H3.
      change (lock_of r' (set_lock r false a) = false) in H3. rewrite lock_of_set in H3. rewrite wait_of_add in H2.
      change (0 < wait_of r' (set_lock r false a) + -1 * same r' r) in H2. rewrite wait_of_set_lock in H2. unfold same in *.
      specialize (I4 r'). destruct (Bool.eqb_spec r' r); [right|left; split_and!; [done|lia|done|]]; counts; unfold same;
        destruct (Bool.eqb_spec r' r); try done; change (sema r' (set_state mu _)) with (sema r' mu); lia.
  - assert (Hw0 : wait_of r a = 0) by (destruct I0 as (_ & ? & ?); unfold wait_of in *; destruct r; lia).
    eapply Inv_update; try done.
    + cbn. rewrite refcount_set_lock. counts. lia.
    + intros r'. change (lock_of r' (add_ref (-1) ?b)) with (lock_of r' b). rewrite lock_of_set. counts. unfold same.
      destruct (Bool.eqb_spec r' r); [subst; rewrite Hl; destruct r; cbn; lia|destruct r'; cbn; lia].
    + intros r'. change (wait_of r' (add_ref (-1) ?b)) with (wait_of r' b). rewrite wait_of_set_lock. counts.
      change (sema r' (set_state mu _)) with (sema r' mu). lia.
    + intros r' H1. cbn in H1. rewrite closed_set_lock in H1. change (wait_of r' (set_lock r false a) = 0). rewrite wait_of_set_lock. by apply I6.
    + intros r' H1 H2 H3. cbn in H1. rewrite closed_set_lock in H1. change (lock_of r' (set_lock r false a) = false) in H3. rewrite lock_of_set in H3.
      change (0 < wait_of r' (set_lock r false a)) in H2. rewrite wait_of_set_lock in H2.
      destruct (Bool.eqb_spec r' r); [subst; lia|]. left. split_and!; [done..|]. counts. change (sema r' (set_state mu _)) with (sema r' mu). lia.
Qed.
End Cas.

(** What a step does to the fields: nothing, or what one method decided. *)
Inductive field_step (t : thread) (p : pc) (a a' : fields) : Prop :=
| same_fields : a' = a -> (forall o old new, at_pc t = AtCas o old new -> p = AtLoad o) -> field_step t p a a'
| swapped o old new : at_pc t = AtCas o old new -> may_start t o -> decide_op o a = DSet a' -> p = after_op o a a' -> field_step t p a a'.

Lemma Inv_run mu ts i t mu' p a :
  Inv (mu, ts) a -> ts !! i = Some t -> tstep mu (at_pc t) = Some (mu', p) ->
  exists a', Inv (mu', <[i := set_pc p t]> ts) a' /\ field_step t p a a'.
Proof.
  intros HI Hi Hs. destruct (at_pc t) as [|o|o old new|r|old|r res|o res|] eqn:Hp; try done; cbn [tstep] in Hs.
  - injection Hs as <- <-. exists a. split; [by apply Inv_load|left; [done|congruence]].
  - pose proof HI as [I0 I1 _ _ _ _ I5 _ _]. cbn [fst snd] in *. pose proof (Forall_lookup_1 _ _ _ _ I5 Hi) as [Hr Hw]. rewrite Hp in Hw.
    destruct Hw as (Hm & b & b' & Hb & -> & Hd & ->). destruct (Z.eqb_spec (state mu) (pack b)) as [E|E]; injection Hs as <- <-.
    + rewrite I1 in E. apply pack_inj in E as ->; [|done..]. pose proof (decide_fits o b Hb) as Hf. rewrite Hd in Hf.
      rewrite after_cas_op by done. exists b'. split; [|by eright].
      destruct t as [q n rl wl]. cbn in Hp. subst q. unfold set_pc. cbn [refs rlocked wlocked].
      destruct o as [| | |r w|r]; [eapply cas_incref|eapply cas_close|eapply cas_decref|eapply cas_rwlock|eapply cas_rwunlock]; done.
    + exists a. split; [|left; [done|congruence]].
      destruct t as [q n rl wl]. cbn in Hp, Hr. subst q. pose proof HI as [_ _ _ _ _ I4 _ I6 _]. cbn [fst snd] in *.
      eapply Inv_update; try done; try quiet. intros r H1 H2 H3. left. by split_and!.
  - destruct (runtime_Semacquire r mu) as [mu1|] eqn:E; [|done]. injection Hs as <- <-. exists a.
    split; [by eapply Inv_acquire|left; [done|congruence]].
  - exists a. destruct (negb (old .& mutexRMask =? 0)) eqn:E1; [|destruct (negb (old .& mutexWMask =? 0)) eqn:E2]; injection Hs as <- <-.
    + split; [|left; [done|congruence]]. by eapply (Inv_close_release _ _ _ _ true); [..|apply negb_true_iff].
    + split; [|left; [done|congruence]]. by eapply (Inv_close_release _ _ _ _ false); [..|apply negb_true_iff].
    + split; [|left; [done|congruence]]. eapply Inv_close_done; [done..|by apply negb_false_iff|by apply negb_false_iff].
  - injection Hs as <- <-. exists a. split; [by apply Inv_release|left; [done|congruence]].
Qed.

Lemma Inv_step c c' a : Inv c a -> sys_step c c' -> exists a', Inv c' a'.
Proof.
  intros HI Hs. destruct Hs as [mu ts i t o Hi Hp Hm|mu ts i t mu' p Hi Hs|mu ts i t o res Hi Hp].
  - exists a. by apply Inv_start.
  - destruct (Inv_run _ _ _ _ _ _ _ HI Hi Hs) as (a' & H & _). by exists a'.
  - exists a. by eapply Inv_return.
Qed.

Lemma Inv_steps c c' a : rtc sys_step c c' -> Inv c a -> exists a', Inv c' a'.
Proof.
  intros H. revert a. induction H as [c|c c1 c' Hs _ IH]; intros a HI; [by exists a|].
  destruct (Inv_step _ _ _ HI Hs) as (a1 & H1). by eapply IH.
Qed.
Lemma Inv_reachable n c : reachable n c -> exists a, Inv c a.
Proof. intros H. eapply Inv_steps; [exact H|apply Inv_initial]. Qed.

(** ** After the last reference is dropped *)

Definition dead (a : fields) : Prop := closed a = true /\ refcount a = 0.

(** It is dropping a reference or a lock, and has not done it yet. *)
Definition dropping (p : pc) : Prop :=
  match p with
  | AtLoad Decref | AtLoad (RWUnlock _) | AtCas Decref _ _ | AtCas (RWUnlock _) _ _ => True
  | _ => False
  end.

Lemma held_zero c a i t : Inv c a -> refcount a = 0 -> c.2 !! i = Some t -> held_refs t = 0.
Proof.
  intros HI H0 Hi. pose proof (inv_refs _ _ HI) as Hr. pose proof (inv_threads _ _ HI) as Hw.
  pose proof (total_ge held_refs c.2 i t (wf_nonneg _ _ Hw held_refs_nonneg) Hi).
  pose proof (held_refs_nonneg t (Forall_lookup_1 _ _ _ _ Hw Hi)). lia.
Qed.

Lemma dead_no_dropping c a i t : Inv c a -> refcount a = 0 -> c.2 !! i = Some t -> ~ dropping (at_pc t).
Proof.
  intros HI H0 Hi Hd. pose proof (held_zero _ _ _ _ HI H0 Hi) as Hz. pose proof (Forall_lookup_1 _ _ _ _ (inv_threads _ _ HI) Hi) as [Hr Hw].
  pose proof (b2z_range (rlocked t)). pose proof (b2z_range (wlocked t)). unfold held_refs in Hz.
  assert (Hl : forall r, locked r t = true -> 1 <= Z.b2z (rlocked t) + Z.b2z (wlocked t)).
  { intros [|]; cbn; intros ->; cbn; lia. }
  destruct (at_pc t) as [|o|o ? ?| | | | |]; try done; destruct o as [| | |r w|r]; try done; cbn [pc_refs] in Hz; cbn in Hw.
  - lia.
  - specialize (Hl _ Hw). lia.
  - destruct Hw as [Hw _]. lia.
  - destruct Hw as [Hw _]. specialize (Hl _ Hw). lia.
Qed.

Lemma dead_step c c' a : Inv c a -> dead a -> sys_step c c' -> Inv c' a.
Proof.
  intros HI [Hc H0] Hs. destruct Hs as [mu ts i t o Hi Hp Hm|mu ts i t mu' p Hi Hs|mu ts i t o res Hi Hp].
  - by apply Inv_start.
  - destruct (Inv_run _ _ _ _ _ _ _ HI Hi Hs) as (a' & HI' & [-> _|o old new Hp Hm Hd _]); [done|]. exfalso.
    pose proof (dead_no_dropping _ _ _ _ HI H0 Hi) as Hnd. rewrite Hp in Hnd.
    destruct o as [| | |r w|r]; cbn [decide_op] in Hd; try (by rewrite Hc in Hd); by apply Hnd.
  - by eapply Inv_return.
Qed.
Lemma dead_steps c c' a : rtc sys_step c c' -> Inv c a -> dead a -> Inv c' a.
Proof. induction 1 as [c|c c1 c' Hs _ IH]; intros HI Hd; [done|]. apply IH; [by eapply dead_step|done]. Qed.
