(* ===== verification/FdMutexTheorems.v ===== *)
(** * internal/poll: what the mutex guarantees *)

From stdpp Require Import relations.
From S2P Require Import Prelude.
From S2P Require Import Slice.
From S2P Require Import FdMutex.
From S2P Require Import FdMutexBits.
From S2P Require Import FdMutexInv.

(** C23: the bit operations of every method implement its decision on the
    fields of the state word: the closed bit, the two lock bits and the three 20-bit
    counters.  Overflow of a counter is detected exactly when it is full, no field
    ever spills into another, and what the method returns after the swap is read off
    the fields too. *)
Theorem methods_decide_fields (o : op) (a : fields) :
  fits a ->
  attempt_of o (pack a) = encode (decide_op o a) /\
  (forall a', decide_op o a = DSet a' -> fits a' /\ after_cas o (pack a) (pack a') = after_op o a a').
Proof.
  intros Ha. split; [by apply attempt_decides|]. intros a' Hd. pose proof (decide_fits o a Ha) as Hf. rewrite Hd in Hf.
  split; [done|by apply after_cas_op].
Qed.
Lemma methods_decide_fields_witness :
  attempt_of Incref (pack (Fields false true false maxcount 7 0)) = PanicOverflow /\
  attempt_of IncrefAndClose (pack (Fields false true false 4 7 9)) = TryCas (pack (Fields true true false 5 0 0)).
Proof.
  split.
  - destruct (methods_decide_fields Incref (Fields false true false maxcount 7 0)) as [H _]; [by vm_compute|exact H].
  - destruct (methods_decide_fields IncrefAndClose (Fields false true false 4 7 9)) as [H _]; [by vm_compute|exact H].
Defined.

(** One goroutine starts an operation or takes its next shared access. *)
Definition starts (i : nat) (o : op) (c : config) : config :=
  (c.1, alter (set_pc (AtLoad o)) i c.2).
Definition runs (i : nat) (c : config) : config :=
  match c.2 !! i with
  | Some t => match tstep c.1 (at_pc t) with Some (mu, p) => (mu, <[i := set_pc p t]> c.2) | None => c end
  | None => c
  end.

Lemma starts_step i o c : match c.2 !! i with Some t => at_pc t = Idle /\ may_start t o | None => False end -> rtc sys_step c (starts i o c).
Proof.
  destruct c as [mu ts]. cbn [fst snd]. destruct (ts !! i) as [t|] eqn:Hi; [|done]. intros [Hp Hm]. apply rtc_once.
  unfold starts. cbn [fst snd]. assert (alter (set_pc (AtLoad o)) i ts = <[i := set_pc (AtLoad o) t]> ts) as ->.
  { apply list_eq. intros j. destruct (decide (j = i)) as [->|].
    - rewrite list_lookup_alter_eq, Hi. rewrite list_lookup_insert_eq; [done|]. by eapply lookup_lt_Some.
    - by rewrite list_lookup_alter_ne, list_lookup_insert_ne. }
  by apply step_start.
Qed.
Lemma runs_step i c : rtc sys_step c (runs i c).
Proof.
  destruct c as [mu ts]. unfold runs. cbn [fst snd]. destruct (ts !! i) as [t|] eqn:Hi; [|done].
  destruct (tstep mu (at_pc t)) as [[mu' p]|] eqn:Ht; [|done]. apply rtc_once. by eapply step_run.
Qed.

(** Two goroutines ask for the read lock; the second one waits. *)
Definition two_readers : config :=
  runs 1 (runs 1 (starts 1 (RWLock true true) (runs 0 (runs 0 (starts 0 (RWLock true true) (initial 2)))))).
Lemma two_readers_reachable : reachable 2 two_readers.
Proof.
  unfold two_readers, reachable. etrans; [|apply runs_step]. etrans; [|apply runs_step]. etrans; [|apply starts_step; by vm_compute].
  etrans; [|apply runs_step]. etrans; [|apply runs_step]. by apply starts_step.
Qed.

(** The operation is about to report that no reference remains. *)
Definition last_result (p : pc) : bool :=
  match p with
  | AtRelease _ true | Returned Decref true | Returned (RWUnlock _) true => true
  | _ => false
  end.
(** A step in which some goroutine learns that it dropped the last reference. *)
Definition last_drop (c c' : config) : Prop :=
  exists i t t', c.2 !! i = Some t /\ c'.2 !! i = Some t' /\ last_result (at_pc t) = false /\ last_result (at_pc t') = true.

Lemma last_drop_dead c c' a : Inv c a -> sys_step c c' -> last_drop c c' -> exists a', Inv c' a' /\ dead a' /\ exists i t, c.2 !! i = Some t /\ dropping (at_pc t).
Proof.
  intros HI Hs (i & t & t' & Hi & Hi' & Hf & Ht).
  destruct Hs as [mu ts j u o Hj Hp Hm|mu ts j u mu' p Hj Hs|mu ts j u o res Hj Hp]; cbn [snd] in *.
  - exfalso. destruct (decide (i = j)) as [->|Hne].
    + rewrite list_lookup_insert_eq in Hi' by (by eapply lookup_lt_Some). injection Hi' as <-. done.
    + rewrite list_lookup_insert_ne in Hi' by done. congruence.
  - destruct (Inv_run _ _ _ _ _ _ _ HI Hj Hs) as (a' & HI' & Hstep).
    destruct (decide (i = j)) as [->|Hne]; [|rewrite list_lookup_insert_ne in Hi' by done; congruence].
    rewrite list_lookup_insert_eq in Hi' by (by eapply lookup_lt_Some). injection Hi' as <-. rewrite Hi in Hj. injection Hj as <-.
    cbn [set_pc at_pc] in Ht. exists a'. split; [done|]. destruct Hstep as [-> Hcas|o old new Hp Hm Hd ->].
    + exfalso. destruct (at_pc t) as [|o|o old new|r|old|r res|o res|] eqn:Hp; try done; cbn [tstep] in Hs.
      * injection Hs as <- <-. pose proof (Forall_lookup_1 _ _ _ _ (inv_threads _ _ HI) Hi) as [_ Hw].
        by destruct (attempt_of o (state mu)), o.
      * destruct (Z.eqb_spec (state mu) old); injection Hs as <- <-; [|done]. by rewrite (Hcas _ _ _ eq_refl) in Ht.
      * destruct (runtime_Semacquire r mu); [|done]. injection Hs as <- <-. done.
      * destruct (negb _); [by injection Hs as <- <-|]. destruct (negb _); by injection Hs as <- <-.
      * injection Hs as <- <-. cbn in *. by destruct res.
    + assert (Hdead : closed a' && (refcount a' =? 0) = true /\ dropping (AtCas o old new)).
      { destruct o as [| | |r w|r]; cbn [after_op] in Ht; try done; [by destruct (closed a' && _)|by destruct (lock_of r a)|].
        destruct (wait_of r a >? 0); by destruct (closed a' && _). }
      destruct Hdead as [Hd1 Hd2]. apply andb_prop in Hd1 as [H1 H2]. apply Z.eqb_eq in H2. split; [done|]. exists j, t. by rewrite Hp.
  - exfalso. destruct (decide (i = j)) as [->|Hne].
    + rewrite list_lookup_insert_eq in Hi' by (by eapply lookup_lt_Some). injection Hi' as <-. done.
    + rewrite list_lookup_insert_ne in Hi' by done. congruence.
Qed.

(** Nothing happens after the last reference is dropped. *)
Lemma dead_for_ever (n : nat) (c c1 c2 : config) :
  reachable n c -> sys_step c c1 -> last_drop c c1 -> rtc sys_step c1 c2 ->
  state c1.1 .& mutexClosed <> 0 /\ state c2.1 = state c1.1 /\
  (forall i t, c2.2 !! i = Some t -> held_refs t = 0) /\
  (forall c3, sys_step c2 c3 -> ~ last_drop c2 c3).
Proof.
  intros Hreach Hs Hl Hsteps. destruct (Inv_reachable _ _ Hreach) as (a & HI).
  destruct (last_drop_dead _ _ _ HI Hs Hl) as (a1 & HI1 & Hdead & _). pose proof (dead_steps _ _ _ Hsteps HI1 Hdead) as HI2.
  pose proof Hdead as [Hc H0]. split_and!.
  - rewrite (inv_state _ _ HI1). pose proof (closed_test a1) as E. rewrite Hc in E.
    by apply negb_true_iff, Z.eqb_neq in E.
  - by rewrite (inv_state _ _ HI1), (inv_state _ _ HI2).
  - intros i t Hi. by eapply held_zero.
  - intros c3 Hs3 Hl3. destruct (last_drop_dead _ _ _ HI2 Hs3 Hl3) as (_ & _ & _ & i & t & Hi & Hd).
    by eapply dead_no_dropping.
Qed.

(** C5: the invariant, in every interleaving of any number of goroutines
    that drop only what they hold.  The state word has as many references as the
    goroutines hold and its lock bits say which locks are held, so at most one
    goroutine holds the read lock and at most one the write lock; and no goroutine
    panics with "inconsistent poll.fdMutex".  The descriptor is destroyed once: when an
    operation reports that there is no remaining reference, the mutex is closed and
    nobody holds a reference or a lock; from then on the state word never changes
    again, nobody ever holds anything, and no operation ever reports it a second time. *)
Theorem fdMutex_invariant (n : nat) (mu : fdMutex) (ts : list thread) :
  reachable n (mu, ts) ->
  (exists a, fits a /\ state mu = pack a /\ refcount a = total held_refs ts /\
     (forall r, Z.b2z (lock_of r a) = total (held_lock r) ts)) /\
  (forall r i j t u, ts !! i = Some t -> ts !! j = Some u -> held_lock r t = 1 -> held_lock r u = 1 -> i = j) /\
  (forall i t o, ts !! i = Some t -> at_pc t = AtLoad o -> attempt_of o (state mu) <> PanicInconsistent) /\
  (forall c1 c2, sys_step (mu, ts) c1 -> last_drop (mu, ts) c1 -> rtc sys_step c1 c2 ->
     state c1.1 .& mutexClosed <> 0 /\ state c2.1 = state c1.1 /\
     (forall i t, c2.2 !! i = Some t -> held_refs t = 0) /\
     (forall c3, sys_step c2 c3 -> ~ last_drop c2 c3)).
Proof.
  intros Hreach. destruct (Inv_reachable _ _ Hreach) as (a & HI). pose proof HI as [I0 I1 I2 I3 _ _ I5 _ _]. cbn [fst snd] in *.
  split_and!; [..|intros c1 c2 Hs Hl Hr; by eapply dead_for_ever].
  - by exists a.
  - intros r i j t u Hi Hj Ht Hu. destruct (decide (i = j)) as [|Hne]; [done|]. exfalso.
    pose proof (total_ge2 (held_lock r) ts i j t u (wf_nonneg _ _ I5 (held_lock_nonneg r)) Hne Hi Hj). specialize (I3 r).
    pose proof (b2z_range (lock_of r a)). lia.
  - intros i t o Hi Hp. rewrite I1, attempt_decides by done. pose proof (Forall_lookup_1 _ _ _ _ I5 Hi) as Hwf.
    destruct (decide_op o a) eqn:Ed; try done. exfalso. destruct o as [| | |r w|r]; cbn in Ed.
    + destruct (closed a); [done|]. by destruct (_ =? _).
    + destruct (closed a); [done|]. by destruct (_ =? _).
    + destruct (Z.eqb_spec (refcount a) 0); [|done]. eapply (dead_no_dropping (mu, ts)); [exact HI|done|exact Hi|by rewrite Hp].
    + destruct (closed a); [done|]. destruct (negb _); [by destruct (_ =? _)|]. destruct (negb w); [done|]. by destruct (_ =? _).
    + destruct (Z.eqb_spec (refcount a) 0); [eapply (dead_no_dropping (mu, ts)); [exact HI|done|exact Hi|by rewrite Hp]|].
      destruct (lock_of r a) eqn:Hl; [done|]. pose proof (total_ge (held_lock r) ts i t (wf_nonneg _ _ I5 (held_lock_nonneg r)) Hi) as Hge.
      specialize (I3 r). rewrite Hl in I3. destruct Hwf as [_ Hw]. rewrite Hp in Hw. cbn in Hw.
      assert (held_lock r t = 1) by (unfold held_lock; by rewrite Hp, Hw). cbn in I3. lia.
Qed.

(** A goroutine closes the mutex and drops its reference. *)
Definition closing : config := (FdMutex (mutexClosed + mutexRef) 0 0, [Thread (AtCas Decref (mutexClosed + mutexRef) mutexClosed) 1 false false]).
Lemma closing_reachable : reachable 1 closing.
Proof.
  unfold reachable. set (c1 := runs 0 (runs 0 (runs 0 (starts 0 IncrefAndClose (initial 1))))).
  assert (H1 : rtc sys_step (initial 1) c1).
  { unfold c1. etrans; [|apply runs_step]. etrans; [|apply runs_step]. etrans; [|apply runs_step]. by apply starts_step. }
  etrans; [exact H1|]. etrans.
  { apply rtc_once. apply (step_return (FdMutex (mutexClosed + mutexRef) 0 0) [Thread (Returned IncrefAndClose true) 0 false false] 0 (Thread (Returned IncrefAndClose true) 0 false false) IncrefAndClose true); done. }
  etrans; [apply (starts_step 0 Decref); by vm_compute|]. apply (runs_step 0).
Qed.
Lemma fdMutex_invariant_witness :
  (exists a, fits a /\ state two_readers.1 = pack a /\ refcount a = total held_refs two_readers.2 /\
     (forall r, Z.b2z (lock_of r a) = total (held_lock r) two_readers.2)) /\
  state (runs 0 closing).1 .& mutexClosed <> 0 /\
  (forall c3, sys_step (runs 0 closing) c3 -> ~ last_drop (runs 0 closing) c3).
Proof.
  split.
  { destruct (fdMutex_invariant 2 two_readers.1 two_readers.2) as (H & _); [exact two_readers_reachable|]. exact H. }
  destruct (fdMutex_invariant 1 closing.1 closing.2) as (_ & _ & _ & HD); [exact closing_reachable|].
  destruct (HD (runs 0 closing) (runs 0 closing)) as (H0 & _ & _ & H).
  - apply (step_run _ _ 0 (Thread (AtCas Decref (mutexClosed + mutexRef) mutexClosed) 1 false false)); done.
  - exists O, (Thread (AtCas Decref (mutexClosed + mutexRef) mutexClosed) 1 false false), (Thread (Returned Decref true) 1 false false). done.
  - apply rtc_refl.
  - by split.
Defined.

(** C24: no wake-up is lost.  While a goroutine waits for a lock and none has
    panicked, the lock is held by some goroutine, or the semaphore can be acquired,
    or some goroutine is about to release it or to take the lock itself.  Once the mutex
    is closed, as many wake-ups are available or on their way as goroutines wait. *)
Theorem no_lost_wakeup (n : nat) (mu : fdMutex) (ts : list thread) (r : bool) (i : nat) (t : thread) :
  reachable n (mu, ts) -> ts !! i = Some t -> at_pc t = AtAcquire r ->
  (forall j u, ts !! j = Some u -> at_pc u <> Panicked) ->
  ((exists j u, ts !! j = Some u /\ held_lock r u = 1) \/
   0 < sema r mu \/
   (exists j u, ts !! j = Some u /\ (0 < pending r u \/ contender r u = 1))) /\
  (state mu .& mutexClosed <> 0 -> sema r mu + total (pending r) ts = total (waiting r) ts).
Proof.
  intros Hreach Hi Hp Hnp. destruct (Inv_reachable _ _ Hreach) as (a & HI).
  pose proof HI as [I0 I1 _ I3 I4 I5 I6 I7 I8]. cbn [fst snd] in *. specialize (I3 r). specialize (I4 r). specialize (I5 r). specialize (I7 r). specialize (I8 r).
  assert (Hclosed : state mu .& mutexClosed <> 0 -> closed a = true).
  { intros H. rewrite I1 in H. rewrite <- closed_test by done. by apply negb_true_iff, Z.eqb_neq. }
  split; [|intros H; rewrite I7 in I4 by (by apply Hclosed); lia].
  assert (Hw : 1 <= total (waiting r) ts).
  { pose proof (total_ge (waiting r) ts i t) as H. unfold waiting at 2 in H. rewrite Hp, same_refl in H. apply H; [|done].
    apply Forall_true, waiting_nonneg. }
  assert (Hpos : forall f, (forall u, 0 <= f u) -> 0 < total f ts -> exists j u, ts !! j = Some u /\ 0 < f u).
  { intros f Hf. apply total_pos. by apply Forall_true. }
  destruct (decide (0 < sema r mu)); [by right; left|]. destruct (decide (0 < total (pending r) ts)) as [Hpe|Hpe].
  { right. right. destruct (Hpos _ (pending_nonneg r) Hpe) as (j & u & Hj & Hu). exists j, u. by split; [|left]. }
  pose proof (total_nonneg (pending r) ts ltac:(apply Forall_true, pending_nonneg)).
  destruct (closed a) eqn:Hc; [specialize (I7 eq_refl); lia|]. destruct (lock_of r a) eqn:Hl.
  - left. destruct (total_pos (held_lock r) ts) as (j & u & Hj & Hu).
    + apply wf_nonneg; [done|apply held_lock_nonneg].
    + rewrite <- I3. cbn. lia.
    + exists j, u. split; [done|]. pose proof (total_ge (held_lock r) ts j u (wf_nonneg _ _ I6 (held_lock_nonneg r)) Hj). cbn in I3. lia.
  - specialize (I8 eq_refl ltac:(lia) eq_refl). assert (Hpan : total panicked ts = 0).
    { destruct (decide (0 < total panicked ts)) as [H0|H0].
      - destruct (Hpos _ panicked_nonneg H0) as (j & u & Hj & Hu). exfalso. apply (Hnp j u Hj). unfold panicked in Hu. by destruct (at_pc u).
      - pose proof (total_nonneg panicked ts ltac:(apply Forall_true, panicked_nonneg)). lia. }
    right. right. destruct (Hpos _ (contender_nonneg r)) as (j & u & Hj & Hu); [lia|]. exists j, u. split; [done|right].
    unfold contender in *. destruct (at_pc u) as [|o|o ? ?| | | | |]; try lia; destruct o as [| | |r' [|]|]; try lia; pose proof (same_range r r'); lia.
Qed.
Lemma no_lost_wakeup_witness :
  (exists j u, two_readers.2 !! j = Some u /\ held_lock true u = 1) \/
   0 < sema true two_readers.1 \/
   (exists j u, two_readers.2 !! j = Some u /\ (0 < pending true u \/ contender true u = 1)).
Proof.
  destruct (no_lost_wakeup 2 two_readers.1 two_readers.2 true 1 (Thread (AtAcquire true) 0 false false)) as [H _].
  - exact two_readers_reachable.
  - by vm_compute.
  - done.
  - intros j u Hj. assert (E : two_readers.2 = [Thread (Returned (RWLock true true) true) 0 false false; Thread (AtAcquire true) 0 false false]) by (by vm_compute).
    rewrite E in Hj. destruct j as [|[|j]]; cbn in Hj; [by injection Hj as <-|by injection Hj as <-|done].
  - exact H.
Defined.
