(* ===== verification/Buffer.v ===== *)
(** * bytes: the Buffer

    [src/src/bytes/buffer.go].  The slice [buf] always starts at the beginning
    of its array, so it is the array, a length and whether it is nil; its capacity is
    the length of the array.  The parameters are the allocator: [make_ok c] says
    whether [make([]byte, c)] succeeds and [append_cap c n] is the capacity that
    [append] gives to [n] bytes that do not fit in a slice of capacity [c]; and
    the reader and the writer the last two methods talk to.  The receiver of a
    method is not a nil pointer, and a slice that a method takes does not alias the
    buffer; the methods that return a slice return its bytes. *)

From S2P Require Import Prelude.
From S2P Require Import Slice.
From S2P Require Import Bits.
From S2P Require Import Text.
From S2P Require Import Utf8.

Definition smallBufferSize : Z := 64.
Definition maxInt : Z := u64 (Z.lnot 0) >> 1.
Definition MinRead : Z := 512.

(** [readOp] *)
Definition opRead : Z := -1.
Definition opInvalid : Z := 0.
Definition opReadRune1 : Z := 1.
Definition opReadRune2 : Z := 2.
Definition opReadRune3 : Z := 3.
Definition opReadRune4 : Z := 4.

Record Buffer : Type := MkBuffer { array : list Z; blen : Z; isnil : bool; off : Z; lastRead : Z }.

Inductive error : Type := EOF | errUnreadByte | errUnreadRune | ErrShortWrite | Foreign (code : nat).

(** The values passed to [panic]. *)
Definition truncation_out_of_range : panic := Explicit 2.
Definition ErrTooLarge : panic := Explicit 3.
Definition negative_count : panic := Explicit 4.
Definition errNegativeRead : panic := Explicit 5.
Definition invalid_Write_count : panic := Explicit 6.

Definition bcap (b : Buffer) : Z := zlen (array b).

(** ** Fields and slices *)

Definition set_off (o : Z) : M Buffer unit := mmodify (fun b => MkBuffer (array b) (blen b) (isnil b) o (lastRead b)).
Definition set_lastRead (r : Z) : M Buffer unit := mmodify (fun b => MkBuffer (array b) (blen b) (isnil b) (off b) r).
Definition set_buf (a : list Z) (n : Z) : M Buffer unit := mmodify (fun b => MkBuffer a n false (off b) (lastRead b)).
(** [b.buf = b.buf[:n]] *)
Definition reslice (n : Z) : M Buffer unit :=
  b <- mget ;;
  if (0 <=? n) && (n <=? bcap b) then mput (MkBuffer (array b) n (isnil b) (off b) (lastRead b)) else mpanic SliceBounds.
(** [s[i:j]] of a slice of length [n] *)
Definition slice_of (s : list Z) (i j n : Z) : M Buffer (list Z) :=
  if (0 <=? i) && (i <=? j) && (j <=? n) then mret (sub i j s) else mpanic SliceBounds.
(** [l] with [bs] written at [i] *)
Definition overwrite (i : Z) (bs l : list Z) : list Z :=
  take (Z.to_nat i) l ++ bs ++ drop (Z.to_nat i + length bs) l.
(** [copy(b.buf[m:], p)] *)
Definition copy_at (m : Z) (p : list Z) : M Buffer Z :=
  b <- mget ;;
  if (0 <=? m) && (m <=? blen b) then
    let n := Z.min (blen b - m) (zlen p) in
    mput (MkBuffer (overwrite m (take (Z.to_nat n) p) (array b)) (blen b) (isnil b) (off b) (lastRead b)) ;;
    mret n
  else mpanic SliceBounds.

Section Buffer.
Context (make_ok : Z -> bool) (append_cap : Z -> Z -> Z).

(** ** Queries *)

Definition Bytes : M Buffer (list Z) := mgets (fun b => sub (off b) (blen b) (array b)).
Definition String_ : M Buffer (list Z) := mgets (fun b => sub (off b) (blen b) (array b)).
Definition empty : M Buffer bool := mgets (fun b => blen b <=? off b).
Definition Len : M Buffer Z := mgets (fun b => blen b - off b).
Definition Cap : M Buffer Z := mgets bcap.
Definition Available : M Buffer Z := mgets (fun b => bcap b - blen b).
Definition Peek (n : Z) : M Buffer (list Z * option error) :=
  b <- mget ;;
  l <- Len ;;
  if l <? n then
    s <- slice_of (array b) (off b) (blen b) (blen b) ;; mret (s, Some EOF)
  else
    s <- slice_of (array b) (off b) (off b + n) (bcap b) ;; mret (s, None).

(** ** Growing *)

Definition Reset : M Buffer unit :=
  reslice 0 ;;
  set_off 0 ;;
  set_lastRead opInvalid.

Definition Truncate (n : Z) : M Buffer unit :=
  if n =? 0 then Reset
  else
    set_lastRead opInvalid ;;
    l <- Len ;;
    if (n <? 0) || (n >? l) then mpanic truncation_out_of_range
    else
      b <- mget ;;
      reslice (off b + n).

Definition tryGrowByReslice (n : Z) : M Buffer (Z * bool) :=
  b <- mget ;;
  let l := blen b in
  if n <=? bcap b - l then
    reslice (l + n) ;; mret (l, true)
  else mret (0, false).

(** [growSlice(s, n)] for a slice [s] of capacity [cap]: the new array; its
    length stays that of [s]. *)
Definition growSlice (s : list Z) (cap n : Z) : M Buffer (list Z) :=
  let c := zlen s + n in
  let c := if c <? 2 * cap then 2 * cap else c in
  if (0 <=? c) && make_ok c then
    mret (overwrite 0 s (replicate (Z.to_nat (append_cap 0 c)) 0))
  else mpanic ErrTooLarge.

Definition grow (n : Z) : M Buffer Z :=
  m <- Len ;;
  b <- mget ;;
  (if (m =? 0) && negb (off b =? 0) then Reset else mret tt) ;;
  '(i, ok) <- tryGrowByReslice n ;;
  if ok then mret i
  else
    b <- mget ;;
    if isnil b && (n <=? smallBufferSize) then
      set_buf (replicate (Z.to_nat smallBufferSize) 0) n ;;
      mret 0
    else
      let c := bcap b in
      (if n <=? quot c 2 - m then
         s <- slice_of (array b) (off b) (blen b) (blen b) ;;
         copy_at 0 s ;;
         mret tt
       else if c >? maxInt - c - n then mpanic ErrTooLarge
       else
         s <- slice_of (array b) (off b) (blen b) (blen b) ;;
         a <- growSlice s (c - off b) (off b + n) ;;
         set_buf a (zlen s)) ;;
      set_off 0 ;;
      reslice (m + n) ;;
      mret m.

Definition Grow (n : Z) : M Buffer unit :=
  if n <? 0 then mpanic negative_count
  else
    m <- grow n ;;
    reslice m.

(** ** Writing *)

Definition write_bytes (p : list Z) : M Buffer (Z * option error) :=
  set_lastRead opInvalid ;;
  '(m, ok) <- tryGrowByReslice (zlen p) ;;
  m <- (if negb ok then grow (zlen p) else mret m) ;;
  n <- copy_at m p ;;
  mret (n, None).
Definition Write (p : list Z) : M Buffer (Z * option error) := write_bytes p.
Definition WriteString (s : list Z) : M Buffer (Z * option error) := write_bytes s.

Definition WriteByte (c : Z) : M Buffer (option error) :=
  set_lastRead opInvalid ;;
  '(m, ok) <- tryGrowByReslice 1 ;;
  m <- (if negb ok then grow 1 else mret m) ;;
  b <- mget ;;
  (if (0 <=? m) && (m <? blen b) then
     mput (MkBuffer (upd (array b) m c) (blen b) (isnil b) (off b) (lastRead b))
   else mpanic IndexOutOfRange) ;;
  mret None.

(** [append(b.buf[:m], bs...)] *)
Definition append_at (m : Z) (bs : list Z) : M Buffer unit :=
  reslice m ;;
  b <- mget ;;
  if m + zlen bs <=? bcap b then
    set_buf (overwrite m bs (array b)) (m + zlen bs)
  else
    set_buf (overwrite 0 (sub 0 m (array b) ++ bs) (replicate (Z.to_nat (append_cap (bcap b) (m + zlen bs))) 0)) (m + zlen bs).

Definition WriteRune (r : Z) : M Buffer (Z * option error) :=
  if u32 r <? RuneSelf then
    WriteByte (u8 r) ;;
    mret (1, None)
  else
    set_lastRead opInvalid ;;
    '(m, ok) <- tryGrowByReslice UTFMax ;;
    m <- (if negb ok then grow UTFMax else mret m) ;;
    append_at m (AppendRune [] r) ;;
    b <- mget ;;
    mret (blen b - m, None).

(** ** Reading *)

(** The bytes copied to [p], a slice of length [k]. *)
Definition Read (k : Z) : M Buffer (list Z * option error) :=
  set_lastRead opInvalid ;;
  e <- empty ;;
  if e : bool then
    Reset ;;
    mret (if k =? 0 then ([], None) else ([], Some EOF))
  else
    b <- mget ;;
    s <- slice_of (array b) (off b) (blen b) (blen b) ;;
    let n := Z.min k (zlen s) in
    set_off (off b + n) ;;
    (if n >? 0 then set_lastRead opRead else mret tt) ;;
    mret (take (Z.to_nat n) s, None).

Definition Next (n : Z) : M Buffer (list Z) :=
  set_lastRead opInvalid ;;
  m <- Len ;;
  let n := if n >? m then m else n in
  b <- mget ;;
  data <- slice_of (array b) (off b) (off b + n) (bcap b) ;;
  set_off (off b + n) ;;
  (if n >? 0 then set_lastRead opRead else mret tt) ;;
  mret data.

(** [b.buf[b.off]] *)
Definition first_byte : M Buffer Z :=
  b <- mget ;;
  if (0 <=? off b) && (off b <? blen b) then mret (tab (array b) (off b)) else mpanic IndexOutOfRange.

Definition ReadByte : M Buffer (Z * option error) :=
  e <- empty ;;
  if e : bool then
    Reset ;;
    mret (0, Some EOF)
  else
    c <- first_byte ;;
    b <- mget ;;
    set_off (off b + 1) ;;
    set_lastRead opRead ;;
    mret (c, None).

Definition ReadRune : M Buffer (Z * Z * option error) :=
  e <- empty ;;
  if e : bool then
    Reset ;;
    mret (0, 0, Some EOF)
  else
    c <- first_byte ;;
    b <- mget ;;
    if c <? RuneSelf then
      set_off (off b + 1) ;;
      set_lastRead opReadRune1 ;;
      mret (c, 1, None)
    else
      s <- slice_of (array b) (off b) (blen b) (blen b) ;;
      let '(r, n) := DecodeRune s in
      set_off (off b + n) ;;
      set_lastRead (int8 n) ;;
      mret (r, n, None).

Definition UnreadRune : M Buffer (option error) :=
  b <- mget ;;
  if lastRead b <=? opInvalid then mret (Some errUnreadRune)
  else
    (if off b >=? lastRead b then set_off (off b - lastRead b) else mret tt) ;;
    set_lastRead opInvalid ;;
    mret None.

Definition UnreadByte : M Buffer (option error) :=
  b <- mget ;;
  if lastRead b =? opInvalid then mret (Some errUnreadByte)
  else
    set_lastRead opInvalid ;;
    (if off b >? 0 then set_off (off b - 1) else mret tt) ;;
    mret None.

(** [bytes.IndexByte] *)
Fixpoint IndexByte (b : list Z) (c : Z) : Z :=
  match b with
  | [] => -1
  | x :: b => if x =? c then 0 else let i := IndexByte b c in if i <? 0 then -1 else i + 1
  end.

Definition readSlice (delim : Z) : M Buffer (list Z * option error) :=
  b <- mget ;;
  s <- slice_of (array b) (off b) (blen b) (blen b) ;;
  let i := IndexByte s delim in
  let '(end_, err) := if i <? 0 then (blen b, Some EOF) else (off b + i + 1, None) in
  line <- slice_of (array b) (off b) end_ (bcap b) ;;
  set_off end_ ;;
  set_lastRead opRead ;;
  mret (line, err).
Definition ReadBytes (delim : Z) : M Buffer (list Z * option error) :=
  '(slice, err) <- readSlice delim ;; mret ([] ++ slice, err).
Definition ReadString (delim : Z) : M Buffer (list Z * option error) :=
  '(slice, err) <- readSlice delim ;; mret (slice, err).

Definition NewBuffer (buf : list Z) (n : Z) (nil_ : bool) : Buffer := MkBuffer buf n nil_ 0 opInvalid.
Definition NewBufferString (s : list Z) : Buffer := MkBuffer s (zlen s) false 0 opInvalid.

(** ** Readers and writers *)

(** [r.Read] of a slice of [n] bytes: the bytes it stores from the start of
    the slice, the count and the error it returns, and the reader afterwards. *)
Context {R : Type} (reader_Read : R -> Z -> list Z * Z * option error * R).

(** The body of the loop of [ReadFrom]. *)
Definition read_round (st : Z * R) : M Buffer ((Z * R) + (Z * option error)) :=
  let '(n, r) := st in
  i <- grow MinRead ;;
  reslice i ;;
  b <- mget ;;
  let '(data, m, e, r) := reader_Read r (bcap b - i) in
  mput (MkBuffer (overwrite i (take (Z.to_nat (bcap b - i)) data) (array b)) (blen b) (isnil b) (off b) (lastRead b)) ;;
  if m <? 0 then mpanic errNegativeRead
  else
    reslice (i + m) ;;
    let n := n + m in
    match e with
    | Some EOF => break (n, None)
    | Some e => break (n, Some e)
    | None => continue (n, r)
    end.
Definition ReadFrom (fuel : nat) (r : R) : M Buffer (Z * option error) :=
  set_lastRead opInvalid ;;
  loop fuel read_round (0, r).

(** [w.Write]: the count and the error it returns. *)
Context (writer_Write : list Z -> Z * option error).

Definition WriteTo : M Buffer (Z * option error) :=
  set_lastRead opInvalid ;;
  nBytes <- Len ;;
  if nBytes >? 0 then
    b <- mget ;;
    s <- slice_of (array b) (off b) (blen b) (blen b) ;;
    let '(m, e) := writer_Write s in
    if m >? nBytes then mpanic invalid_Write_count
    else
      set_off (off b + m) ;;
      match e with
      | Some e => mret (m, Some e)
      | None =>
          if negb (m =? nBytes) then mret (m, Some ErrShortWrite)
          else Reset ;; mret (m, None)
      end
  else
    Reset ;;
    mret (0, None).
End Buffer.
