(* ===== verification/BufferSpec.v ===== *)
(** * bytes.Buffer: the unread bytes, and how writing changes them

    A buffer is described by its unread bytes ([holds]): the array is what has
    been read, the unread bytes and the spare room.  Growing either makes room
    after the unread bytes or panics with [ErrTooLarge]. *)

From S2P Require Import Prelude.
From S2P Require Import Slice.
From S2P Require Import Bits.
From S2P Require Import Utf8.
From S2P Require Import Utf8Spec.
From S2P Require Import Text.
From S2P Require Import StrconvFormat.
From S2P Require Import Buffer.

(** ** Computations that may panic *)

(** [m] returns with [Q], or panics with [E]; its loops do not run out of fuel. *)
Definition wpe {S A} (m : M S A) (Q : A -> S -> Prop) (E : panic -> Prop) (s : S) : Prop :=
  match m s with Done (a, s') => Q a s' | Panic p => E p | NoFuel => False end.

Section Wpe.
Context {S : Type}.
Lemma wpe_bind {A B} (m : M S A) (k : A -> M S B) Q E s :
  wpe m (fun a s' => wpe (k a) Q E s') E s -> wpe (mbind m k) Q E s.
Proof. unfold wpe, mbind. by destruct (m s) as [[a s']| |]. Qed.
Lemma wpe_wp {A} (m : M S A) (Q : A -> S -> Prop) E s : wp m Q s -> wpe m Q E s.
Proof. unfold wp, wpe. by destruct (m s) as [[a s']| |]. Qed.
Lemma wpe_mono {A} (m : M S A) (Q Q' : A -> S -> Prop) (E E' : panic -> Prop) s :
  wpe m Q E s -> (forall a s', Q a s' -> Q' a s') -> (forall p, E p -> E' p) -> wpe m Q' E' s.
Proof. unfold wpe. destruct (m s) as [[a s']| |]; naive_solver. Qed.
Lemma wpe_call {A B} (m : M S A) (k : A -> M S B) P Q E s :
  wpe m P E s -> (forall a s', P a s' -> wpe (k a) Q E s') -> wpe (mbind m k) Q E s.
Proof. intros Hm Hk. apply wpe_bind. by eapply wpe_mono. Qed.
Lemma wpe_call_wp {A B} (m : M S A) (k : A -> M S B) P Q E s :
  wp m P s -> (forall a s', P a s' -> wpe (k a) Q E s') -> wpe (mbind m k) Q E s.
Proof. intros Hm. by apply wpe_call, wpe_wp. Qed.
End Wpe.

(** ** Buffers *)

(** The bytes not read yet. *)
Definition contents (b : Buffer) : list Z := sub (off b) (blen b) (array b).
Definition valid (b : Buffer) : Prop :=
  0 <= off b <= blen b /\ blen b <= bcap b /\ (isnil b = true -> array b = []).

(** The buffer has read [p], holds [s] and has room for [t]. *)
Record holds (b : Buffer) (p s t : list Z) : Prop := Holds {
  holds_array : array b = p ++ s ++ t;
  holds_off : off b = zlen p;
  holds_len : blen b = zlen p + zlen s;
  holds_nil : isnil b = true -> array b = [] }.

Lemma holds_contents b p s t : holds b p s t -> contents b = s.
Proof. intros [Ha Ho Hl _]. unfold contents. rewrite Ha, Ho, Hl. by apply sub_mid. Qed.
Lemma holds_valid b p s t : holds b p s t -> valid b.
Proof.
  intros [Ha Ho Hl Hn]. pose proof (zlen_nonneg p). pose proof (zlen_nonneg s). pose proof (zlen_nonneg t).
  unfold valid, bcap. rewrite Ha, Ho, Hl, !zlen_app in *. split_and!; [lia..|done].
Qed.
Lemma valid_holds b : valid b -> exists p t, holds b p (contents b) t.
Proof.
  intros (H1 & H2 & H3). unfold bcap in H2. unfold contents.
  exists (take (Z.to_nat (off b)) (array b)), (drop (Z.to_nat (blen b) `max` Z.to_nat (off b)) (array b)).
  split; [apply sub_split|symmetry..|done].
  - unfold zlen in *. rewrite length_take. lia.
  - unfold sub, zlen in *. rewrite !length_take, length_drop. lia.
Qed.
Lemma holds_cap b p s t : holds b p s t -> bcap b = zlen p + zlen s + zlen t.
Proof. intros [Ha _ _ _]. unfold bcap. rewrite Ha, !zlen_app. lia. Qed.
Lemma holds_lastRead b p s t r : holds b p s t -> holds (MkBuffer (array b) (blen b) (isnil b) (off b) r) p s t.
Proof. by intros []. Qed.

(** ** Pieces of lists *)

Lemma overwrite_app (i : Z) (bs p x t : list Z) :
  i = zlen p -> length bs = length x -> overwrite i bs (p ++ x ++ t) = p ++ bs ++ t.
Proof.
  intros -> Hl. unfold overwrite, zlen. rewrite Nat2Z.id, take_app_length, Hl. f_equal. f_equal.
  rewrite app_assoc. rewrite <- length_app. apply drop_app_length.
Qed.
Lemma overwrite_zlen (i : Z) (bs l : list Z) :
  0 <= i -> i + zlen bs <= zlen l -> zlen (overwrite i bs l) = zlen l.
Proof. unfold overwrite, zlen. intros. rewrite !length_app, length_take, length_drop. lia. Qed.
Lemma split_at (n : Z) (l : list Z) : 0 <= n <= zlen l -> exists x y, l = x ++ y /\ zlen x = n.
Proof.
  intros Hn. exists (take (Z.to_nat n) l), (drop (Z.to_nat n) l). split; [by rewrite take_drop|].
  unfold zlen in *. rewrite length_take. lia.
Qed.
Lemma take_zlen_app (n : Z) (p t : list Z) : n = zlen p -> take (Z.to_nat n) (p ++ t) = p.
Proof. intros ->. unfold zlen. by rewrite Nat2Z.id, take_app_length. Qed.
Lemma sub_tail (p s t : list Z) a b : a = zlen p -> b = zlen p + zlen s -> sub a b (p ++ s ++ t) = s.
Proof. apply sub_mid. Qed.

(** ** Growing *)

Section Grow.
Context (make_ok : Z -> bool) (append_cap : Z -> Z -> Z).
Hypothesis append_cap_ok : forall c n, n <= append_cap c n.
Notation growSlice := (growSlice make_ok append_cap).
Notation grow := (grow make_ok append_cap).

(** The buffer has room for [n] bytes at [m], right after the unread bytes [s]. *)
Definition grown (s : list Z) (n m : Z) (b : Buffer) : Prop :=
  exists p g t, holds b p (s ++ g) t /\ zlen g = n /\ m = zlen p + zlen s.

(** A buffer of capacity [c] cannot grow by [n]: the panic is [ErrTooLarge], and
    either the new capacity does not fit in an [int] or the allocator refused
    an array. *)
Definition too_large (c n : Z) (e : panic) : Prop :=
  e = ErrTooLarge /\ (maxInt < 2 * c + n \/ exists c', c < c' <= 2 * c + n /\ make_ok c' = false).

Lemma wp_reslice n (Q : unit -> Buffer -> Prop) b :
  0 <= n <= bcap b -> Q tt (MkBuffer (array b) n (isnil b) (off b) (lastRead b)) -> wp (reslice n) Q b.
Proof.
  intros Hn HQ. unfold reslice. wp_steps; [done|]. exfalso. reflect. destruct E; reflect; lia.
Qed.
Lemma wp_slice_of l i j n (Q : list Z -> Buffer -> Prop) b :
  0 <= i <= j -> j <= n -> Q (sub i j l) b -> wp (slice_of l i j n) Q b.
Proof.
  intros Hi Hj HQ. unfold slice_of. wp_steps; [done|]. exfalso. reflect.
  destruct E as [E|E]; reflect; [destruct E; reflect; lia|lia].
Qed.
Lemma wp_unread b p s t : holds b p s t -> wp (slice_of (array b) (off b) (blen b) (blen b)) (fun l b' => l = s /\ b' = b) b.
Proof.
  intros Hh. pose proof (holds_valid _ _ _ _ Hh) as (H1 & H2 & _). apply wp_slice_of; [lia..|].
  split; [|done]. by rewrite <- (holds_contents _ _ _ _ Hh).
Qed.

(** [Reset] forgets the unread bytes and keeps the array. *)
Lemma wp_Reset b p s t (Q : unit -> Buffer -> Prop) :
  holds b p s t -> (forall b', holds b' [] [] (p ++ s ++ t) -> lastRead b' = opInvalid -> Q tt b') -> wp Reset Q b.
Proof.
  intros Hh HQ. pose proof (holds_valid _ _ _ _ Hh) as (H1 & H2 & H3). unfold Reset. wp_steps. apply wp_reslice; [lia|].
  unfold set_off, set_lastRead. wp_steps. apply HQ; [|done]. destruct Hh as [Ha _ _ Hn]. by split; cbn.
Qed.

Lemma wp_tryGrow n b p s t :
  holds b p s t -> 0 <= n ->
  wp (tryGrowByReslice n)
     (fun '(m, ok) b' => if ok : bool then grown s n m b' /\ lastRead b' = lastRead b else b' = b /\ zlen t < n) b.
Proof.
  intros Hh Hn. pose proof (holds_cap _ _ _ _ Hh) as Hc. pose proof (holds_valid _ _ _ _ Hh) as (H1 & H2 & H3).
  destruct Hh as [Ha Ho Hl Hnil]. unfold tryGrowByReslice. wp_steps; reflect; [|by split; [|lia]]. apply wp_reslice; [lia|].
  wp_steps. split; [|done]. destruct (split_at n t) as (g & t' & -> & Hg); [lia|].
  exists p, g, t'. split; [|lia]. split; cbn; rewrite ?zlen_app; [|lia..|done]. by rewrite Ha, <- app_assoc.
Qed.

Lemma growSlice_spec l cap n b :
  0 <= n ->
  wpe (growSlice l cap n) (fun a b' => b' = b /\ exists t, a = l ++ t /\ n <= zlen t)
    (fun e => e = ErrTooLarge /\ make_ok (Z.max (zlen l + n) (2 * cap)) = false) b.
Proof.
  intros Hn. pose proof (zlen_nonneg l). unfold growSlice, wpe. cbv zeta.
  assert ((if zlen l + n <? 2 * cap then 2 * cap else zlen l + n) = Z.max (zlen l + n) (2 * cap)) as ->.
  { destruct (Z.ltb_spec (zlen l + n) (2 * cap)); lia. }
  set (c := Z.max _ _). destruct (Z.leb_spec 0 c); [|lia]. cbn [andb]. destruct (make_ok c); [|done]. cbn. split; [done|].
  pose proof (append_cap_ok 0 c) as Hc. exists (replicate (Z.to_nat (append_cap 0 c) - length l) 0).
  unfold overwrite. cbn [Z.to_nat take app]. rewrite Nat.add_0_l, drop_replicate. split; [done|].
  rewrite zlen_replicate. unfold zlen in *. lia.
Qed.
Lemma realloc_spec n b p s t :
  holds b p s t -> 0 <= n -> zlen t < n ->
  wpe (s <- slice_of (array b) (off b) (blen b) (blen b) ;;
       a <- growSlice s (bcap b - off b) (off b + n) ;;
       set_buf a (zlen s))
    (fun _ b' => exists u, array b' = s ++ u /\ n <= zlen u /\ isnil b' = false /\ lastRead b' = lastRead b)
    (too_large (bcap b) n) b.
Proof.
  intros Hh Hn Ht. pose proof (holds_cap _ _ _ _ Hh) as Hc. pose proof (holds_valid _ _ _ _ Hh) as (H1 & H2 & _).
  pose proof (holds_len _ _ _ _ Hh) as Hl. pose proof (holds_off _ _ _ _ Hh) as Ho.
  pose proof (zlen_nonneg p). pose proof (zlen_nonneg s).
  eapply wpe_call_wp; [by apply (wp_unread b p s t)|]. intros l b' [-> ->]. apply wpe_bind.
  eapply wpe_mono; [apply growSlice_spec; lia|..]; cbn beta.
  - intros a b' (-> & u & -> & Hu). cbn. exists u. split_and!; [done|lia|done|done].
  - intros e [-> He]. split; [done|right]. eexists. split; [|exact He]. lia.
Qed.

(** [grow] once the buffer has been reset and reslicing has failed: a fresh
    small array, sliding down, or a new array. *)
Lemma grow_room n b p s t :
  holds b p s t -> 0 <= n -> zlen t < n ->
  wpe (b <- mget ;;
       if isnil b && (n <=? smallBufferSize) then
         set_buf (replicate (Z.to_nat smallBufferSize) 0) n ;; mret 0
       else
         let c := bcap b in
         (if n <=? quot c 2 - zlen s then
            s <- slice_of (array b) (off b) (blen b) (blen b) ;; copy_at 0 s ;; mret tt
          else if c >? maxInt - c - n then mpanic ErrTooLarge
          else
            s <- slice_of (array b) (off b) (blen b) (blen b) ;;
            a <- growSlice s (c - off b) (off b + n) ;;
            set_buf a (zlen s)) ;;
         set_off 0 ;; reslice (zlen s + n) ;; mret (zlen s))
    (fun m b' => grown s n m b' /\ lastRead b' = lastRead b) (too_large (bcap b) n) b.
Proof.
  intros Hh Hn Ht. pose proof (holds_cap _ _ _ _ Hh) as Hc. pose proof (holds_valid _ _ _ _ Hh) as (H1 & H2 & H3).
  pose proof (holds_contents _ _ _ _ Hh) as Hs. unfold contents in Hs.
  pose proof (zlen_nonneg p). pose proof (zlen_nonneg s). pose proof (zlen_nonneg t). destruct Hh as [Ha Ho Hl Hnil].
  apply wpe_bind. cbn [wpe mget]. destruct (isnil b && _) eqn:E; reflect.
  { rewrite Hnil in Ha by done. destruct p, s, t; try done. apply wpe_wp. unfold set_buf. wp_steps. split; [|done].
    change (zlen (@nil Z)) with 0 in *. destruct (split_at n (replicate (Z.to_nat smallBufferSize) 0)) as (g & t & E & Hg).
    { rewrite zlen_replicate. lia. }
    exists [], g, t. rewrite E. split_and!; [split; cbn; [done|unfold zlen in *; cbn in *; lia..|done]|done|done]. }
  cbv zeta. destruct (Z.leb_spec n (quot (bcap b) 2 - zlen s)).
  - rewrite quot_2 in * by lia. apply wpe_wp. wp_steps. apply wp_slice_of; [lia..|]. wp_steps. rewrite Hs.
    unfold copy_at. wp_steps; [|exfalso; reflect; destruct E0; reflect; lia].
    cbn [array blen isnil off lastRead]. unfold set_off. wp_steps. rewrite (take_ge s) by (unfold zlen in *; lia).
    destruct (split_at (zlen s + n) (array b)) as (x & y & Exy & Hx); [unfold bcap in *; divlia|].
    destruct (split_at (zlen s) x) as (x1 & x2 & -> & Hx1); [lia|]. rewrite zlen_app in Hx.
    assert (Ho' : overwrite 0 s (array b) = [] ++ (s ++ x2) ++ y).
    { rewrite Exy, <- !app_assoc. apply (overwrite_app 0 s [] x1); [done|]. unfold zlen in *. lia. }
    apply wp_reslice; cbn [array blen isnil off lastRead].
    { unfold bcap. cbn. rewrite Ho', !zlen_app. pose proof (zlen_nonneg y). change (zlen (@nil Z)) with 0. lia. }
    wp_steps. split; [|done]. exists [], x2, y. split_and!; [split; cbn [array blen isnil off]; [done|done|rewrite zlen_app; change (zlen (@nil Z)) with 0; lia|]|lia|done].
    intros Hn'. cbn in Hn'. assert (zlen (array b) = 0) by (by rewrite Hnil). unfold bcap in *. divlia.
  - destruct (Z.gtb_spec (bcap b) (maxInt - bcap b - n)); [split; [done|left; lia]|].
    eapply wpe_call; [by apply (realloc_spec n b p s t)|]. intros [] b' (u & Hu & Hzu & Hnil' & Hr). apply wpe_wp.
    unfold set_off. wp_steps. destruct (split_at n u) as (g & u' & -> & Hg); [lia|].
    assert (bcap b' = zlen s + n + zlen u') as Hc' by (unfold bcap; rewrite Hu, !zlen_app; lia). pose proof (zlen_nonneg u').
    apply wp_reslice; [unfold bcap in *; cbn; lia|]. cbn [array blen isnil off lastRead]. wp_steps. split; [|done].
    exists [], g, u'. split_and!; [|done|done]. split; cbn [array blen isnil off]; [by rewrite Hu, <- app_assoc|done|rewrite zlen_app; change (zlen (@nil Z)) with 0; lia|congruence].
Qed.

Lemma grow_spec n b p s t :
  holds b p s t -> 0 <= n ->
  wpe (grow n) (fun m b' => grown s n m b' /\ (lastRead b' = lastRead b \/ lastRead b' = opInvalid)) (too_large (bcap b) n) b.
Proof.
  intros Hh Hn. pose proof (holds_cap _ _ _ _ Hh) as Hc. pose proof (holds_valid _ _ _ _ Hh) as (H1 & H2 & _).
  assert (Hm : blen b - off b = zlen s) by (rewrite (holds_len _ _ _ _ Hh), (holds_off _ _ _ _ Hh); lia).
  unfold Buffer.grow. apply wpe_bind. unfold Len, wpe at 1, mgets. rewrite Hm. apply wpe_bind. cbn [wpe mget]. eapply wpe_call_wp with
    (P := fun _ b' => (exists p t, holds b' p s t) /\ bcap b' = bcap b /\ (lastRead b' = lastRead b \/ lastRead b' = opInvalid)).
  { destruct (_ && _) eqn:E; reflect; [|apply wp_ret; split_and!; [by exists p, t|done|by left]].
    apply (wp_Reset b p s t); [done|]. intros b' Hb' Hr. assert (s = []) as -> by (by apply zlen_zero).
    split_and!; [by exists [], (p ++ [] ++ t)| |by right]. rewrite Hc, (holds_cap _ _ _ _ Hb'), !zlen_app. change (zlen (@nil Z)) with 0. lia. }
  intros _ b1 ((p1 & t1 & Hh1) & Hc1 & Hr1). eapply wpe_call_wp; [by apply (wp_tryGrow n b1 p1 s t1)|].
  intros [i [|]] b2; [|intros [-> Ht]].
  - intros [Hg Hr]. cbn. by rewrite Hr.
  - eapply wpe_mono; [by apply (grow_room n b1 p1 s t1)|..]; cbn beta.
    + intros m b' [Hg Hr]. by rewrite Hr.
    + by rewrite Hc1.
Qed.
End Grow.
