(* ===== verification/BufferOps.v ===== *)
(** * bytes.Buffer: each operation on the unread bytes

    What writing, reading and unreading do to a buffer that has read [p], holds
    [s] and has room for [t]. *)

From S2P Require Import Prelude.
From S2P Require Import Slice.
From S2P Require Import Bits.
From S2P Require Import Utf8.
From S2P Require Import Utf8Spec.
From S2P Require Import Utf8Text.
From S2P Require Import Text.
From S2P Require Import StrconvFormat.
From S2P Require Import Buffer.
From S2P Require Import BufferSpec.

(** ** Writing *)

(** The unread bytes are [s]; nothing can be unread. *)
Definition unread_is (s : list Z) (b : Buffer) : Prop := (exists p t, holds b p s t) /\ lastRead b = opInvalid.

Section Writing.
Context (make_ok : Z -> bool) (append_cap : Z -> Z -> Z).
Hypothesis append_cap_ok : forall c n, n <= append_cap c n.
Notation grow := (grow make_ok append_cap).

(** The write operations make room the same way. *)
Lemma wpe_room {A} n (k : Z -> M Buffer A) (Q : A -> Buffer -> Prop) b p s t :
  holds b p s t -> 0 <= n -> lastRead b = opInvalid ->
  (forall m b', grown s n m b' -> lastRead b' = opInvalid -> wp (k m) Q b') ->
  wpe ('(m, ok) <- tryGrowByReslice n ;; m <- (if negb ok then grow n else mret m) ;; k m) Q
    (too_large make_ok (bcap b) n) b.
Proof.
  intros Hh Hn Hr Hk. eapply wpe_call_wp; [by apply (wp_tryGrow n b p s t)|]. intros [m [|]] b1; cbn [negb].
  - intros [Hg Hr1]. apply wpe_bind. cbn. apply wpe_wp, Hk; [done|]. by rewrite Hr1.
  - intros [-> Ht]. eapply wpe_call; [by apply (grow_spec make_ok append_cap append_cap_ok n b p s t)|]. cbn beta.
    intros m' b' [Hg Hr']. apply wpe_wp, Hk; [done|]. destruct Hr' as [-> | ->]; done.
Qed.

Lemma set_lastRead_holds b p s t r E A (k : unit -> M Buffer A) (Q' : A -> Buffer -> Prop) :
  holds b p s t ->
  (forall b', holds b' p s t -> bcap b' = bcap b -> lastRead b' = r -> wpe (k tt) Q' E b') ->
  wpe (mbind (set_lastRead r) k) Q' E b.
Proof. intros Hh Hk. apply wpe_bind. cbn. by apply Hk; [apply holds_lastRead|..]. Qed.

Lemma wp_copy_at m (q : list Z) b s :
  grown s (zlen q) m b -> lastRead b = opInvalid -> wp (copy_at m q) (fun n b' => n = zlen q /\ unread_is (s ++ q) b') b.
Proof.
  intros (p & g & t & Hh & Hg & ->) Hr. pose proof (holds_valid _ _ _ _ Hh) as (H1 & H2 & _). destruct Hh as [Ha Ho Hl Hn].
  rewrite zlen_app in Hl. pose proof (zlen_nonneg p). pose proof (zlen_nonneg s). pose proof (zlen_nonneg q).
  unfold copy_at. wp_steps; [|exfalso; reflect; destruct E; reflect; lia].
  assert (Z.min (blen b - (zlen p + zlen s)) (zlen q) = zlen q) as -> by lia. split; [done|].
  rewrite (take_ge q) by (unfold zlen; lia). split; [|done]. exists p, t.
  assert (Hw : overwrite (zlen p + zlen s) q (array b) = p ++ (s ++ q) ++ t).
  { rewrite Ha, <- app_assoc, app_assoc. rewrite overwrite_app; [by rewrite <- !app_assoc|by rewrite zlen_app|]. unfold zlen in *. lia. }
  split; cbn [array blen isnil off]; [done|done|rewrite zlen_app; lia|]. intros Hn'. specialize (Hn Hn').
  rewrite Hn in Ha. destruct p, s, g, t; try done. change (zlen (@nil Z)) with 0 in *. by rewrite Hw, (zlen_zero q).
Qed.

Lemma write_bytes_spec (q : list Z) b p s t :
  holds b p s t ->
  wpe (write_bytes make_ok append_cap q) (fun r b' => r = (zlen q, None) /\ unread_is (s ++ q) b')
    (too_large make_ok (bcap b) (zlen q)) b.
Proof.
  intros Hh. unfold write_bytes. apply (set_lastRead_holds b p s t); [done|].
  intros b1 Hh1 <- Hr. eapply (wpe_room (zlen q)); [done|apply zlen_nonneg|done|]. intros m b2 Hg Hr2.
  apply wp_bind. eapply wp_mono; [by apply (wp_copy_at m q b2 s)|]. by intros n b' [-> H].
Qed.

Lemma wp_set_byte m c b s :
  grown s 1 m b -> lastRead b = opInvalid ->
  wp (b <- mget ;;
      (if (0 <=? m) && (m <? blen b) then
         mput (MkBuffer (upd (array b) m c) (blen b) (isnil b) (off b) (lastRead b))
       else mpanic IndexOutOfRange) ;; mret (@None error))
    (fun r b' => r = None /\ unread_is (s ++ [c]) b') b.
Proof.
  intros (p & g & t & Hh & Hg & ->) Hr. pose proof (holds_valid _ _ _ _ Hh) as (H1 & H2 & _). destruct Hh as [Ha Ho Hl Hn].
  rewrite zlen_app in Hl. pose proof (zlen_nonneg p). pose proof (zlen_nonneg s).
  destruct g as [|x [|y g]]; try (exfalso; unfold zlen in Hg; cbn in Hg; lia).
  wp_steps; [|exfalso; reflect; destruct E; reflect; lia]. split; [done|]. split; [|done]. exists p, t.
  split; cbn [array blen isnil off]; [|done|rewrite zlen_app; done|].
  - rewrite Ha. unfold upd, zlen. rewrite <- app_assoc. replace (Z.to_nat _) with (length p + (length s + 0))%nat by lia.
    by rewrite !insert_app_r, <- app_assoc.
  - intros Hn'. rewrite (Hn Hn') in Ha. destruct p, s; done.
Qed.

Lemma WriteByte_spec c b p s t :
  holds b p s t ->
  wpe (WriteByte make_ok append_cap c) (fun r b' => r = None /\ unread_is (s ++ [c]) b') (too_large make_ok (bcap b) 1) b.
Proof.
  intros Hh. unfold WriteByte. apply (set_lastRead_holds b p s t); [done|].
  intros b1 Hh1 <- Hr. eapply (wpe_room 1); [done|lia|done|]. intros m b2 Hg Hr2. by apply wp_set_byte.
Qed.

Lemma wp_append_at m (q : list Z) n b s :
  grown s n m b -> zlen q <= n -> lastRead b = opInvalid ->
  wp (append_at append_cap m q ;; b <- mget ;; mret (blen b - m, @None error))
    (fun r b' => r = (zlen q, None) /\ unread_is (s ++ q) b') b.
Proof.
  intros (p & g & t & Hh & Hg & ->) Hq Hr. pose proof (holds_valid _ _ _ _ Hh) as (H1 & H2 & _).
  pose proof (holds_cap _ _ _ _ Hh) as Hc. destruct Hh as [Ha Ho Hl Hn]. rewrite zlen_app in *.
  pose proof (zlen_nonneg p). pose proof (zlen_nonneg s). pose proof (zlen_nonneg t). pose proof (zlen_nonneg q).
  unfold append_at. apply wp_bind, wp_bind, wp_reslice; [lia|]. wp_steps; unfold bcap in *; cbn [array] in *; [|exfalso; reflect; lia].
  unfold set_buf. wp_steps. cbn [blen lastRead off]. split; [f_equal; lia|]. split; [|done].
  destruct (split_at (zlen q) g) as (g1 & g2 & -> & Hg1); [lia|]. exists p, (g2 ++ t).
  split; cbn [array blen isnil off]; [|done|rewrite zlen_app; lia|done].
  rewrite Ha. transitivity ((p ++ s) ++ q ++ (g2 ++ t)); [|by rewrite <- !app_assoc].
  rewrite <- (overwrite_app (zlen p + zlen s) q (p ++ s) g1 (g2 ++ t)); [by rewrite <- !app_assoc|by rewrite zlen_app|unfold zlen in *; lia].
Qed.

Lemma WriteRune_spec r b p s t :
  is_int32 r -> holds b p s t ->
  wpe (WriteRune make_ok append_cap r) (fun res b' => res = (zlen (encoded r), None) /\ unread_is (s ++ encoded r) b')
    (too_large make_ok (bcap b) (if u32 r <? RuneSelf then 1 else UTFMax)) b.
Proof.
  intros Hr Hh. pose proof (AppendRune_spec [] r Hr) as Ha. cbn [app] in Ha. unfold WriteRune.
  destruct (u32 r <? RuneSelf) eqn:E.
  - assert (encoded r = [u8 r]) as He.
    { rewrite <- Ha. unfold AppendRune, rune1Max, RuneSelf in *. reflect. by destruct (Z.leb_spec (u32 r) (1 << 7 - 1)); [|exfalso; change (1 << 7 - 1) with 127 in *; lia]. }
    rewrite He. eapply wpe_call; [by apply (WriteByte_spec (u8 r) b p s t)|]. intros e b' [-> H]. by cbn.
  - apply (set_lastRead_holds b p s t); [done|]. intros b1 Hh1 <- Hr1.
    eapply (wpe_room UTFMax); [done|done|done|]. intros m b2 Hg Hr2. rewrite Ha. eapply wp_append_at; [done| |done].
    unfold encoded. case_decide as Hv; [|by vm_compute]. pose proof (utf8_bytes_length r). unfold valid_rune in Hv. change UTFMax with 4. lia.
Qed.

Lemma Grow_spec n b p s t :
  holds b p s t -> 0 <= n ->
  wpe (Grow make_ok append_cap n)
    (fun _ b' => exists p' t', holds b' p' s t' /\ n <= zlen t' /\ (lastRead b' = lastRead b \/ lastRead b' = opInvalid))
    (too_large make_ok (bcap b) n) b.
Proof.
  intros Hh Hn. unfold Grow. destruct (Z.ltb_spec n 0); [lia|].
  eapply wpe_call; [by apply (grow_spec make_ok append_cap append_cap_ok n b p s t)|]. cbn beta.
  intros m b' [(p' & g & t' & Hh' & Hg & ->) Hr]. pose proof (holds_valid _ _ _ _ Hh') as (H1 & H2 & _).
  pose proof (holds_cap _ _ _ _ Hh') as Hc. rewrite zlen_app in Hc. pose proof (zlen_nonneg t'). pose proof (zlen_nonneg p'). pose proof (zlen_nonneg s).
  apply wpe_wp, wp_reslice; [lia|]. exists p', (g ++ t'). destruct Hh' as [Ha Ho Hl Hnil].
  split; [|rewrite zlen_app; split; [lia|done]]. split; cbn [array blen isnil off]; [by rewrite Ha, <- app_assoc|done..].
Qed.
End Writing.

(** ** Reading *)

(** The bytes [q] have just been read, the bytes [s] are left. *)
Definition has_read (q s : list Z) (r : Z) (b : Buffer) : Prop := (exists p t, holds b (p ++ q) s t) /\ lastRead b = r.

Lemma has_read_intro q s r b p s0 t o :
  holds b p s0 t -> s0 = q ++ s -> o = off b + zlen q -> has_read q s r (MkBuffer (array b) (blen b) (isnil b) o r).
Proof.
  intros [Ha Ho Hl Hn] -> ->. split; [|done]. exists p, t. rewrite zlen_app in Hl.
  split; cbn [array blen isnil off]; [by rewrite Ha, <- !app_assoc|rewrite zlen_app; lia..|done].
Qed.

Lemma wp_Reset_unread b p s t {A} (k : unit -> M Buffer A) (Q : A -> Buffer -> Prop) :
  holds b p s t -> (forall b', unread_is [] b' -> wp (k tt) Q b') -> wp (mbind Reset k) Q b.
Proof. intros Hh Hk. apply wp_bind. apply (wp_Reset b p s t); [done|]. intros b' Hb' Hr. apply Hk. split; [by eexists _, _|done]. Qed.

(** The test of an empty buffer, which every read starts with. *)
Lemma wp_empty b p s t {A} (k : bool -> M Buffer A) (Q : A -> Buffer -> Prop) :
  holds b p s t -> (s = [] -> wp (k true) Q b) -> (s <> [] -> wp (k false) Q b) -> wp (mbind empty k) Q b.
Proof.
  intros Hh H0 H1. unfold empty. wp_steps. rewrite (holds_len _ _ _ _ Hh), (holds_off _ _ _ _ Hh).
  destruct s as [|c s]; [destruct (Z.leb_spec (zlen p + zlen (@nil Z)) (zlen p)); [by apply H0|change (zlen (@nil Z)) with 0 in *; lia]|].
  destruct (Z.leb_spec (zlen p + zlen (c :: s)) (zlen p)); [|by apply H1]. rewrite zlen_cons in *. pose proof (zlen_nonneg s). lia.
Qed.

Definition split_read (n : Z) (s : list Z) : list Z * list Z := (take (Z.to_nat n) s, drop (Z.to_nat n) s).

Lemma zlen_take_min n (s : list Z) : 0 <= n -> zlen (take (Z.to_nat n) s) = Z.min n (zlen s).
Proof. intros. unfold zlen. rewrite length_take. lia. Qed.

Lemma Read_spec k b p s t :
  holds b p s t -> 0 <= k ->
  wp (Read k)
    (fun r b' =>
       if decide (s = []) then r = ([], if k =? 0 then None else Some EOF) /\ unread_is [] b'
       else let n := Z.min k (zlen s) in
            r = (take (Z.to_nat n) s, None) /\
            has_read (take (Z.to_nat n) s) (drop (Z.to_nat n) s) (if 0 <? n then opRead else opInvalid) b') b.
Proof.
  intros Hh Hk. pose proof (zlen_nonneg s). unfold Read. apply wp_bind. unfold set_lastRead at 1. apply wp_modify.
  pose proof (holds_lastRead _ _ _ _ opInvalid Hh) as Hh1. set (b1 := MkBuffer _ _ _ _ _) in *.
  apply (wp_empty b1 p s t); [done|..]; intros Hs; case_decide; try done.
  - apply (wp_Reset_unread b1 p s t); [done|]. intros b' Hb'. wp_steps. split; [by destruct (k =? 0)|done].
  - wp_steps. eapply wp_mono; [by apply (wp_unread b1 p s t)|]. intros l b' [-> ->]. cbv zeta. unfold set_off, set_lastRead. wp_steps;
      (split; [done|]; rewrite Z.gtb_ltb in E; rewrite E; apply (has_read_intro _ _ _ b1 p s t); [done|by rewrite take_drop|];
       rewrite zlen_take_min by lia; cbn; lia).
Qed.

(** [Next] with an empty buffer or a count of 0 returns an empty slice. *)
Lemma Next_spec n b p s t :
  holds b p s t -> 0 <= n ->
  wp (Next n)
    (fun r b' => let n := Z.min n (zlen s) in
       r = take (Z.to_nat n) s /\
       has_read (take (Z.to_nat n) s) (drop (Z.to_nat n) s) (if 0 <? n then opRead else opInvalid) b') b.
Proof.
  intros Hh Hn. pose proof (zlen_nonneg s). unfold Next. apply wp_bind. unfold set_lastRead at 1. apply wp_modify.
  pose proof (holds_lastRead _ _ _ _ opInvalid Hh) as Hh1. set (b1 := MkBuffer _ _ _ _ _) in *. unfold Len. wp_steps.
  assert (Hl : blen b1 - off b1 = zlen s) by (rewrite (holds_len _ _ _ _ Hh1), (holds_off _ _ _ _ Hh1); lia). rewrite Hl.
  assert ((if n >? zlen s then zlen s else n) = Z.min n (zlen s)) as -> by (destruct (Z.gtb_spec n (zlen s)); lia).
  set (k := Z.min n (zlen s)). pose proof (holds_valid _ _ _ _ Hh1) as (H1 & H2 & _).
  apply wp_slice_of; [lia..|]. unfold set_off, set_lastRead.
  assert (sub (off b1) (off b1 + k) (array b1) = take (Z.to_nat k) s) as ->.
  { rewrite (holds_array _ _ _ _ Hh1). rewrite <- (take_drop (Z.to_nat k) s) at 1. rewrite <- !app_assoc.
    apply sub_mid; [apply (holds_off _ _ _ _ Hh1)|]. rewrite zlen_take_min by lia. rewrite (holds_off _ _ _ _ Hh1). lia. }
  wp_steps; (split; [done|]; rewrite Z.gtb_ltb in E; rewrite E; apply (has_read_intro _ _ _ b1 p s t); [done|by rewrite take_drop|];
    rewrite zlen_take_min by lia; cbn; lia).
Qed.

Lemma wp_first_byte b p c s t : holds b p (c :: s) t -> wp first_byte (fun r b' => r = c /\ b' = b) b.
Proof.
  intros Hh. pose proof (holds_valid _ _ _ _ Hh) as (H1 & H2 & _). destruct Hh as [Ha Ho Hl Hn]. rewrite zlen_cons in Hl.
  pose proof (zlen_nonneg s). unfold first_byte. wp_steps; [|exfalso; reflect; destruct E; reflect; lia].
  split; [|done]. rewrite Ha, Ho. unfold tab, zlen. rewrite Nat2Z.id, app_nth2, Nat.sub_diag by lia. done.
Qed.

Lemma ReadByte_spec b p s t :
  holds b p s t ->
  wp ReadByte
    (fun r b' => match s with
                 | [] => r = (0, Some EOF) /\ unread_is [] b'
                 | c :: s => r = (c, None) /\ has_read [c] s opRead b'
                 end) b.
Proof.
  intros Hh. unfold ReadByte. apply (wp_empty b p s t); [done|..]; intros Hs.
  - subst. apply (wp_Reset_unread b p [] t); [done|]. intros b' Hb'. by wp_steps.
  - destruct s as [|c s]; [done|]. eapply wp_call; [by apply (wp_first_byte b p c s t)|]. intros r b' [-> ->].
    unfold set_off, set_lastRead. wp_steps. split; [done|]. by apply (has_read_intro _ _ _ b p (c :: s) t).
Qed.

Lemma ReadRune_spec b p s t :
  holds b p s t -> Forall byte s ->
  wp ReadRune
    (fun r b' =>
       if decide (s = []) then r = (0, 0, Some EOF) /\ unread_is [] b'
       else let '(c, n) := DecodeRune s in
            r = (c, n, None) /\ 1 <= n <= 4 /\ n <= zlen s /\ has_read (take (Z.to_nat n) s) (drop (Z.to_nat n) s) n b') b.
Proof.
  intros Hh Hs. unfold ReadRune. apply (wp_empty b p s t); [done|..]; intros Hne; case_decide; try done.
  - subst. apply (wp_Reset_unread b p [] t); [done|]. intros b' Hb'. by wp_steps.
  - destruct (DecodeRune s) as [r n] eqn:Ed. assert (Hn : 1 <= n <= 4 /\ n <= zlen s).
    { pose proof (decode_width s Hs Hne) as Hl. pose proof (decode_sound s Hs Hne) as Hw. unfold decodes in Hw.
      rewrite DecodeRune_arith in Ed by done. rewrite Ed in Hl, Hw. cbn [snd] in Hl. destruct Hw as [Ew|(r' & Hr & _ & Ew)]; injection Ew as -> ->; [lia|]. pose proof (utf8_bytes_length r').
      unfold valid_rune in Hr. lia. }
    destruct s as [|c s]; [done|]. eapply wp_call; [by apply (wp_first_byte b p c s t)|]. intros c' b' [-> ->].
    unfold set_off, set_lastRead. wp_step. wp_step. destruct (c <? RuneSelf) eqn:E.
    + unfold DecodeRune in Ed. rewrite E in Ed. injection Ed as <- <-. wp_steps. split_and!; [done|lia..|].
      by apply (has_read_intro _ _ _ b p (c :: s) t).
    + eapply wp_call; [by apply (wp_unread b p (c :: s) t)|]. intros l b' [-> ->]. rewrite Ed. wp_steps. split_and!; [done|lia..|].
      rewrite int8_id by lia. apply (has_read_intro _ _ _ b p (c :: s) t); [done|by rewrite take_drop|].
      rewrite zlen_take_min by lia. cbn [off]. lia.
Qed.

(** The text up to and including the first [d], the rest, and whether there is one. *)
Fixpoint line (d : Z) (s : list Z) : list Z * list Z * bool :=
  match s with
  | [] => ([], [], false)
  | c :: s => if c =? d then ([c], s, true) else let '(l, r, found) := line d s in (c :: l, r, found)
  end.
Lemma line_app d s l r f : line d s = (l, r, f) -> s = l ++ r.
Proof.
  revert l r f. induction s as [|c s IH]; intros l r f; cbn [line]; [by intros [= <- <- _]|].
  destruct (c =? d); [by intros [= <- <- _]|]. destruct (line d s) as [[l' r'] f']. intros [= <- <- _].
  cbn. f_equal. by eapply IH.
Qed.
Lemma IndexByte_line d s l r f :
  line d s = (l, r, f) -> IndexByte s d = (if f then zlen l - 1 else -1) /\ (if f then 1 <= zlen l else r = []).
Proof.
  revert l r f. induction s as [|c s IH]; intros l r f; cbn [line IndexByte]; [by intros [= <- <- <-]|].
  destruct (c =? d); [by intros [= <- <- <-]|]. destruct (line d s) as [[l' r'] f']. intros [= <- <- <-].
  destruct (IH _ _ _ eq_refl) as [-> Hf]. rewrite zlen_cons. destruct f'; [|done].
  destruct (Z.ltb_spec (zlen l' - 1) 0); lia.
Qed.

Lemma readSlice_spec d b p s t :
  holds b p s t ->
  wp (readSlice d)
    (fun r b' => let '(l, rest, found) := line d s in
       r = (l, if found then None else Some EOF) /\ has_read l rest opRead b') b.
Proof.
  intros Hh. destruct (line d s) as [[l r] f] eqn:El. pose proof (line_app _ _ _ _ _ El) as Es.
  destruct (IndexByte_line _ _ _ _ _ El) as [Ei Hf]. pose proof (zlen_nonneg l). pose proof (zlen_nonneg r).
  pose proof (holds_valid _ _ _ _ Hh) as (H1 & H2 & _). unfold readSlice. apply wp_bind, wp_get.
  eapply wp_call; [by apply (wp_unread b p s t)|]. intros x b' [-> ->]. cbv zeta. rewrite Ei.
  assert ((if (if f then zlen l - 1 else -1) <? 0 then (blen b, Some EOF) else (off b + (if f then zlen l - 1 else -1) + 1, None)) =
          (off b + zlen l, if f then None else Some EOF)) as ->.
  { destruct f; cbn; [destruct (Z.ltb_spec (zlen l - 1) 0); [lia|]; f_equal; lia|]. f_equal.
    rewrite (holds_len _ _ _ _ Hh), (holds_off _ _ _ _ Hh), Es, Hf, app_nil_r. lia. }
  apply wp_bind. assert (blen b = off b + zlen l + zlen r) by (rewrite (holds_len _ _ _ _ Hh), (holds_off _ _ _ _ Hh), Es, zlen_app; lia).
  apply wp_slice_of; [lia..|]. unfold set_off, set_lastRead. wp_steps. split.
  - f_equal. rewrite (holds_array _ _ _ _ Hh), Es, <- !app_assoc. apply sub_mid; rewrite (holds_off _ _ _ _ Hh); lia.
  - by apply (has_read_intro _ _ _ b p s t).
Qed.

(** ** Discarding and unreading *)

Lemma Truncate_spec n b p s t :
  holds b p s t -> 0 <= n <= zlen s -> wp (Truncate n) (fun _ b' => unread_is (take (Z.to_nat n) s) b') b.
Proof.
  intros Hh Hn. unfold Truncate. destruct (Z.eqb_spec n 0) as [->|].
  - apply (wp_Reset b p s t); [done|]. intros b' Hb' Hr. by split; [eexists _, _|].
  - unfold set_lastRead, Len. wp_steps; cbn [blen off] in *.
    + exfalso. rewrite (holds_len _ _ _ _ Hh), (holds_off _ _ _ _ Hh) in E. reflect. destruct E; reflect; lia.
    + pose proof (holds_cap _ _ _ _ Hh) as Hc. unfold bcap in Hc. pose proof (zlen_nonneg t). pose proof (zlen_nonneg p).
      destruct Hh as [Ha Ho Hl Hnil]. apply wp_reslice; [unfold bcap; cbn; lia|]. split; [|done].
      exists p, (drop (Z.to_nat n) s ++ t).
      split; cbn [array blen isnil off]; [|done|rewrite zlen_take_min; lia|done].
      rewrite Ha. rewrite (app_assoc (take _ _)), take_drop. done.
Qed.

(** What the last read took last can be put back. *)
Lemma UnreadByte_spec q c s r b :
  has_read (q ++ [c]) s r b -> r <> opInvalid -> wp UnreadByte (fun e b' => e = None /\ unread_is (c :: s) b') b.
Proof.
  intros [(p & t & [Ha Ho Hl Hn]) Hr] Hne. unfold UnreadByte, set_lastRead, set_off.
  rewrite !zlen_app in *. change (zlen [c]) with 1 in *. pose proof (zlen_nonneg p). pose proof (zlen_nonneg q).
  wp_steps; reflect; cbn [off] in *; try lia; try congruence. split; [done|]. split; [|done]. exists (p ++ q), t.
  split; cbn [array blen isnil off]; [by rewrite Ha, <- !app_assoc|rewrite zlen_app; lia|rewrite zlen_app, zlen_cons; lia|done].
Qed.
Lemma UnreadByte_error b : lastRead b = opInvalid -> UnreadByte b = Done (Some errUnreadByte, b).
Proof. intros Hr. unfold UnreadByte, mbind, mget. by rewrite Hr. Qed.

Lemma UnreadRune_spec q s b :
  has_read q s (zlen q) b -> q <> [] -> wp UnreadRune (fun e b' => e = None /\ unread_is (q ++ s) b') b.
Proof.
  intros [(p & t & [Ha Ho Hl Hn]) Hr] Hne. unfold UnreadRune, set_lastRead, set_off. rewrite !zlen_app in *.
  pose proof (zlen_nonneg p). assert (0 < zlen q) by (destruct q; [done|]; rewrite zlen_cons; pose proof (zlen_nonneg q); lia).
  wp_steps; reflect; unfold opInvalid in *; try lia. cbn [off array blen isnil lastRead] in *. split; [done|]. split; [|done].
  exists p, t. split; cbn [array blen isnil off]; [by rewrite Ha, <- !app_assoc|lia|rewrite zlen_app; lia|done].
Qed.
Lemma UnreadRune_error b : lastRead b <= opInvalid -> UnreadRune b = Done (Some errUnreadRune, b).
Proof. intros Hr. unfold UnreadRune, mbind, mget. by destruct (Z.leb_spec (lastRead b) opInvalid); [|lia]. Qed.
