(* ===== verification/BufferTheorems.v ===== *)
(** * bytes.Buffer: the theorems

    A buffer is a queue of bytes: every sequence of operations gives the
    replies the queue gives.  The last read can be undone, and the transfers
    from a reader and to a writer move exactly the bytes they report. *)

From S2P Require Import Prelude.
From S2P Require Import Slice.
From S2P Require Import Bits.
From S2P Require Import Utf8.
From S2P Require Import Utf8Spec.
From S2P Require Import Utf8Text.
From S2P Require Import Text.
From S2P Require Import StrconvFormat.
From S2P Require Import Buffer.
From S2P Require Import BufferSpec.
From S2P Require Import BufferOps.

(** ** Operations and their replies *)

Inductive op : Type :=
| OWrite (p : list Z) | OWriteString (s : list Z) | OWriteByte (c : Z) | OWriteRune (r : Z) | OGrow (n : Z)
| ORead (k : Z) | ONext (n : Z) | OReadByte | OReadRune | OReadBytes (d : Z) | OReadString (d : Z)
| OTruncate (n : Z) | OReset | OLen | OBytes | OString | OPeek (n : Z).

Inductive reply : Type :=
| Nothing
| Number (n : Z)
| Count (n : Z) (e : option error)
| Data (l : list Z) (e : option error)
| Byte (c : Z) (e : option error)
| Rune (r n : Z) (e : option error).

Definition fmap_M {S A B} (f : A -> B) (m : M S A) : M S B := a <- m ;; mret (f a).

(** A sequence of operations. *)
Fixpoint run {S} (f : op -> M S reply) (os : list op) : M S (list reply) :=
  match os with
  | [] => mret []
  | o :: os => r <- f o ;; rs <- run f os ;; mret (r :: rs)
  end.

(** The queue of bytes. *)
Definition take_front (n : Z) : M (list Z) (list Z) :=
  q <- mget ;; mput (drop (Z.to_nat n) q) ;; mret (take (Z.to_nat n) q).
Definition queue_op (o : op) : M (list Z) reply :=
  q <- mget ;;
  match o with
  | OWrite p | OWriteString p => mput (q ++ p) ;; mret (Count (zlen p) None)
  | OWriteByte c => mput (q ++ [c]) ;; mret (Byte c None)
  | OWriteRune r => mput (q ++ encoded r) ;; mret (Count (zlen (encoded r)) None)
  | OGrow n => if n <? 0 then mpanic negative_count else mret Nothing
  | ORead k => l <- take_front k ;; mret (Data l (if decide (q = []) then if k =? 0 then None else Some EOF else None))
  | ONext n => if n <? 0 then mpanic SliceBounds else l <- take_front n ;; mret (Data l None)
  | OReadByte => match q with [] => mret (Byte 0 (Some EOF)) | c :: q => mput q ;; mret (Byte c None) end
  | OReadRune =>
      match q with
      | [] => mret (Rune 0 0 (Some EOF))
      | _ => let '(r, n) := DecodeRune q in take_front n ;; mret (Rune r n None)
      end
  | OReadBytes d | OReadString d =>
      let '(l, rest, found) := line d q in mput rest ;; mret (Data l (if found : bool then None else Some EOF))
  | OTruncate n =>
      if (n <? 0) || (n >? zlen q) then mpanic truncation_out_of_range else mput (take (Z.to_nat n) q) ;; mret Nothing
  | OReset => mput [] ;; mret Nothing
  | OLen => mret (Number (zlen q))
  | OBytes | OString => mret (Data q None)
  | OPeek n => if n <? 0 then mpanic SliceBounds else mret (Data (take (Z.to_nat n) q) (if zlen q <? n then Some EOF else None))
  end.

(** Arguments of the types the operations take. *)
Definition op_ok (o : op) : Prop :=
  match o with
  | OWrite p | OWriteString p => Forall byte p
  | OWriteByte c => byte c
  | OWriteRune r => is_int32 r
  | ORead k => 0 <= k
  | _ => True
  end.
(** The room an operation makes. *)
Definition space (o : op) : Z :=
  match o with
  | OWrite p | OWriteString p => zlen p
  | OWriteByte _ => 1
  | OWriteRune r => if u32 r <? RuneSelf then 1 else UTFMax
  | OGrow n => n
  | _ => 0
  end.

Section Theorems.
Context (make_ok : Z -> bool) (append_cap : Z -> Z -> Z).

Definition buffer_op (o : op) : M Buffer reply :=
  match o with
  | OWrite p => fmap_M (fun '(n, e) => Count n e) (Write make_ok append_cap p)
  | OWriteString s => fmap_M (fun '(n, e) => Count n e) (WriteString make_ok append_cap s)
  | OWriteByte c => fmap_M (Byte c) (WriteByte make_ok append_cap c)
  | OWriteRune r => fmap_M (fun '(n, e) => Count n e) (WriteRune make_ok append_cap r)
  | OGrow n => fmap_M (fun _ => Nothing) (Grow make_ok append_cap n)
  | ORead k => fmap_M (fun '(l, e) => Data l e) (Read k)
  | ONext n => fmap_M (fun l => Data l None) (Next n)
  | OReadByte => fmap_M (fun '(c, e) => Byte c e) ReadByte
  | OReadRune => fmap_M (fun '(r, n, e) => Rune r n e) ReadRune
  | OReadBytes d => fmap_M (fun '(l, e) => Data l e) (ReadBytes d)
  | OReadString d => fmap_M (fun '(l, e) => Data l e) (ReadString d)
  | OTruncate n => fmap_M (fun _ => Nothing) (Truncate n)
  | OReset => fmap_M (fun _ => Nothing) Reset
  | OLen => fmap_M Number Len
  | OBytes => fmap_M (fun l => Data l None) Bytes
  | OString => fmap_M (fun l => Data l None) String_
  | OPeek n => fmap_M (fun '(l, e) => Data l e) (Peek n)
  end.

(** One operation on a buffer replies as on the queue of its unread bytes,
    panics as it does, or fails to grow. *)
Definition simulates (o : op) (b : Buffer) : Prop :=
  match buffer_op o b, queue_op o (contents b) with
  | Done (r, b'), Done (r', q) => r = r' /\ q = contents b' /\ valid b' /\ Forall byte q
  | Panic e, Panic e' => e = e'
  | Panic e, Done _ => too_large make_ok (bcap b) (space o) e
  | _, _ => False
  end.

Hypothesis append_cap_ok : forall c n, n <= append_cap c n.

Lemma simulates_wpe o b r q :
  wpe (buffer_op o) (fun r' b' => r' = r /\ exists p t, holds b' p q t) (too_large make_ok (bcap b) (space o)) b ->
  queue_op o (contents b) = Done (r, q) -> Forall byte q -> simulates o b.
Proof.
  intros H Hq Hb. unfold simulates, wpe in *. rewrite Hq. destruct (buffer_op o b) as [[r' b']|e|]; [|done..].
  destruct H as (-> & p & t & Hh). split_and!; [done|by rewrite (holds_contents _ _ _ _ Hh)|by eapply holds_valid|done].
Qed.
Lemma simulates_wp o b r q :
  wp (buffer_op o) (fun r' b' => r' = r /\ exists p t, holds b' p q t) b ->
  queue_op o (contents b) = Done (r, q) -> Forall byte q -> simulates o b.
Proof. intros H. by apply simulates_wpe, wpe_wp. Qed.

Lemma fmap_wpe {A B} (f : A -> B) (m : M Buffer A) Q (Q' : B -> Buffer -> Prop) E b :
  wpe m Q E b -> (forall a b', Q a b' -> Q' (f a) b') -> wpe (fmap_M f m) Q' E b.
Proof. intros Hm HQ. unfold fmap_M. eapply wpe_call; [exact Hm|]. intros a b' H. by apply HQ. Qed.
Lemma fmap_wp {A B} (f : A -> B) (m : M Buffer A) Q (Q' : B -> Buffer -> Prop) b :
  wp m Q b -> (forall a b', Q a b' -> Q' (f a) b') -> wp (fmap_M f m) Q' b.
Proof. intros Hm HQ. unfold fmap_M. eapply wp_call; [exact Hm|]. intros a b' H. by apply HQ. Qed.

Lemma unread_is_holds q b : unread_is q b -> exists p t, holds b p q t.
Proof. by intros [H _]. Qed.
Lemma has_read_holds q s r b : has_read q s r b -> exists p t, holds b p s t.
Proof. intros [(p & t & H) _]. by exists (p ++ q), t. Qed.

Section Step.
Context (b : Buffer) (p s t : list Z).
Hypotheses (Hh : holds b p s t) (Hs : Forall byte s).

Lemma simulates_write o :
  op_ok o -> match o with OWrite _ | OWriteString _ | OWriteByte _ | OWriteRune _ | OGrow _ => True | _ => False end -> simulates o b.
Proof.
  pose proof (holds_contents _ _ _ _ Hh) as Hc. intros Ho Hw. destruct o; try done; cbn [op_ok] in Ho.
  1,2: eapply simulates_wpe; [|cbn; by rewrite Hc|by apply Forall_app];
    eapply fmap_wpe; [by apply (write_bytes_spec make_ok append_cap append_cap_ok _ b p s t)|];
    intros r b' [-> H]; split; [done|by apply unread_is_holds].
  - eapply simulates_wpe; [|cbn; by rewrite Hc|by apply Forall_app; split; [|by constructor]].
    eapply fmap_wpe; [by apply (WriteByte_spec make_ok append_cap append_cap_ok _ b p s t)|].
    intros r b' [-> H]. split; [done|by apply unread_is_holds].
  - eapply simulates_wpe; [|cbn; by rewrite Hc|apply Forall_app; split; [done|]].
    + eapply fmap_wpe; [by apply (WriteRune_spec make_ok append_cap append_cap_ok _ b p s t)|].
      intros res b' [-> H]. split; [done|by apply unread_is_holds].
    + apply utf8_bytes_byte. case_decide; [done|]. unfold valid_rune, RuneError. lia.
  - destruct (Z.ltb_spec n 0) as [Hn|Hn].
    { unfold simulates. cbn. unfold fmap_M, mbind, Grow. by destruct (Z.ltb_spec n 0); [|lia]. }
    eapply simulates_wpe; [|cbn; destruct (Z.ltb_spec n 0); [lia|by rewrite Hc]|done].
    eapply fmap_wpe; [by apply (Grow_spec make_ok append_cap append_cap_ok _ b p s t)|].
    intros [] b' (p' & t' & H & _). split; [done|by exists p', t'].
Qed.

Lemma take_min n (l : list Z) : 0 <= n -> take (Z.to_nat (Z.min n (zlen l))) l = take (Z.to_nat n) l.
Proof.
  intros. destruct (Z.le_ge_cases n (zlen l)); [f_equal; lia|]. unfold zlen in *. rewrite !take_ge by lia. done.
Qed.
Lemma drop_min n (l : list Z) : 0 <= n -> drop (Z.to_nat (Z.min n (zlen l))) l = drop (Z.to_nat n) l.
Proof.
  intros. destruct (Z.le_ge_cases n (zlen l)); [f_equal; lia|]. unfold zlen in *. rewrite !drop_ge by lia. done.
Qed.

Lemma simulates_Read k : 0 <= k -> simulates (ORead k) b.
Proof.
  pose proof (holds_contents _ _ _ _ Hh) as Hc. intros Hk. eapply simulates_wp; [|cbn; by rewrite Hc|by apply Forall_drop].
  eapply fmap_wp; [by apply (Read_spec k b p s t)|]. intros [l e] b'. cbn beta. case_decide as E.
  - intros [[= -> ->] H]. rewrite E, take_nil, drop_nil. split; [done|by apply unread_is_holds].
  - cbv zeta. rewrite take_min, drop_min by done. intros [[= -> ->] H]. split; [done|by eapply has_read_holds].
Qed.

Lemma simulates_Next n : simulates (ONext n) b.
Proof.
  pose proof (holds_contents _ _ _ _ Hh) as Hc. destruct (Z.ltb_spec n 0) as [Hn|Hn].
  - unfold simulates, buffer_op, queue_op, fmap_M, Next, mbind, set_lastRead, mmodify, Len, mgets, mget, slice_of.
    pose proof (holds_valid _ _ _ _ Hh) as (H1 & H2 & _). cbn [blen off array bcap].
    destruct (Z.gtb_spec n (blen b - off b)); [lia|]. destruct (Z.leb_spec (off b) (off b + n)); [lia|].
    rewrite andb_false_r. cbn. by destruct (Z.ltb_spec n 0); [|lia].
  - eapply simulates_wp; [|cbn; rewrite Hc; destruct (Z.ltb_spec n 0); [lia|done]|by apply Forall_drop].
    eapply fmap_wp; [by apply (Next_spec n b p s t)|]. intros l b'. cbv zeta. rewrite take_min, drop_min by done.
    intros [-> H]. split; [done|by eapply has_read_holds].
Qed.

Lemma simulates_ReadRune : simulates OReadRune b.
Proof.
  pose proof (holds_contents _ _ _ _ Hh) as Hc. destruct s as [|c s'] eqn:Es.
  - eapply simulates_wp; [|cbn; by rewrite Hc|done]. eapply fmap_wp; [by apply (ReadRune_spec b p [] t)|].
    intros [[r n] e] b'. rewrite decide_True by done. intros [[= -> -> ->] H]. split; [done|by apply unread_is_holds].
  - destruct (DecodeRune (c :: s')) as [r n] eqn:Ed.
    eapply simulates_wp; [|cbn -[DecodeRune]; rewrite Hc; unfold mbind, mget; by rewrite Ed|by apply Forall_drop].
    eapply fmap_wp; [by apply (ReadRune_spec b p (c :: s') t)|]. intros [[r' n'] e] b'. rewrite decide_False, Ed by done.
    intros ([= -> -> ->] & _ & _ & H). split; [done|by eapply has_read_holds].
Qed.

Lemma simulates_line d o : o = OReadBytes d \/ o = OReadString d -> simulates o b.
Proof.
  pose proof (holds_contents _ _ _ _ Hh) as Hc. destruct (line d s) as [[l r] f] eqn:El.
  assert (Forall byte r) by (rewrite (line_app _ _ _ _ _ El) in Hs; by apply Forall_app in Hs as [_ ?]).
  set (P := fun (x : list Z * option error) b' => x = (l, if f then None else Some EOF) /\ exists p t, holds b' p r t).
  assert (Hr : wp (readSlice d) P b).
  { eapply wp_mono; [by apply (readSlice_spec d b p s t)|]. rewrite El. intros x b' [-> H']. split; [done|by eapply has_read_holds]. }
  assert (wp (ReadBytes d) P b /\ wp (ReadString d) P b) as [Hb1 Hb2].
  { split; (eapply wp_call; [exact Hr|]; intros [l' e'] b' H'; by apply wp_ret). }
  intros [-> | ->]; (eapply simulates_wp; [|cbn; rewrite Hc, El; reflexivity|done]);
    (eapply fmap_wp; [eassumption|]); by intros [l' e'] b' [[= -> ->] H'].
Qed.

Lemma simulates_ReadByte : simulates OReadByte b.
Proof.
  pose proof (holds_contents _ _ _ _ Hh) as Hc. pose proof (ReadByte_spec b p s t Hh) as H. destruct s as [|c s'] eqn:Es.
  - eapply simulates_wp; [|cbn; by rewrite Hc|done]. eapply fmap_wp; [exact H|].
    intros r b' [-> H']. split; [done|by apply unread_is_holds].
  - eapply simulates_wp; [|cbn; by rewrite Hc|by apply Forall_cons in Hs as [_ ?]]. eapply fmap_wp; [exact H|].
    intros r b' [-> H']. split; [done|by eapply has_read_holds].
Qed.

Lemma simulates_Truncate n : simulates (OTruncate n) b.
Proof.
  pose proof (holds_contents _ _ _ _ Hh) as Hc. destruct ((n <? 0) || (n >? zlen s)) eqn:En.
  - unfold simulates, buffer_op, queue_op, fmap_M, Truncate. assert (Hn : (n =? 0) = false).
    { apply Z.eqb_neq. pose proof (zlen_nonneg s). apply orb_true_iff in En as [En|En]; reflect; lia. }
    rewrite Hn. unfold mbind, set_lastRead, mmodify, Len, mgets, mget. cbn [blen off].
    assert (blen b - off b = zlen s) as -> by (rewrite (holds_len _ _ _ _ Hh), (holds_off _ _ _ _ Hh); lia).
    by rewrite Hc, En.
  - eapply simulates_wp; [|cbn; rewrite Hc, En; reflexivity|by apply Forall_take]. reflect.
    eapply fmap_wp; [by apply (Truncate_spec n b p s t); [|lia]|]. intros [] b' Hu. split; [done|by apply unread_is_holds].
Qed.

Lemma simulates_Peek n : simulates (OPeek n) b.
Proof.
  pose proof (holds_contents _ _ _ _ Hh) as Hc. pose proof (holds_valid _ _ _ _ Hh) as (H1 & H2 & _).
  assert (Hl : blen b - off b = zlen s) by (rewrite (holds_len _ _ _ _ Hh), (holds_off _ _ _ _ Hh); lia).
  pose proof (zlen_nonneg s) as Hz. destruct (Z.ltb_spec n 0) as [Hn|Hn].
  - unfold simulates, buffer_op, queue_op, fmap_M, Peek, mbind, Len, mgets, mget, slice_of.
    destruct (Z.ltb_spec (blen b - off b) n); [lia|]. destruct (Z.leb_spec (off b) (off b + n)); [lia|].
    rewrite andb_false_r. cbn. by destruct (Z.ltb_spec n 0); [|lia].
  - eapply simulates_wp; [|cbn; rewrite Hc; destruct (Z.ltb_spec n 0); [lia|reflexivity]|done].
    apply fmap_wp with (Q := fun x b' => x = (take (Z.to_nat n) s, if zlen s <? n then Some EOF else None) /\ b' = b);
      [|by intros [l e] b' [[= -> ->] ->]; split; [|exists p, t]].
    unfold Peek, Len. wp_step; wp_step; wp_step; wp_step. rewrite Hl. destruct (Z.ltb_spec (zlen s) n).
    + eapply wp_call; [by apply (wp_unread b p s t)|]. intros l b' [-> ->]. apply wp_ret. split; [|done].
      rewrite take_ge; [done|]. unfold zlen in *. lia.
    + apply wp_bind, wp_slice_of; [lia..|]. apply wp_ret. split; [|done]. f_equal.
      rewrite (holds_array _ _ _ _ Hh), (holds_off _ _ _ _ Hh). rewrite <- (take_drop (Z.to_nat n) s) at 1. rewrite <- app_assoc.
      apply sub_mid; [done|]. rewrite zlen_take_min; lia.
Qed.

Lemma simulates_holds o : op_ok o -> simulates o b.
Proof.
  intros Ho. pose proof (holds_contents _ _ _ _ Hh) as Hc. destruct o; try by apply simulates_write.
  - by apply simulates_Read.
  - by apply simulates_Next.
  - by apply simulates_ReadByte.
  - by apply simulates_ReadRune.
  - eapply simulates_line. by left.
  - eapply simulates_line. by right.
  - by apply simulates_Truncate.
  - eapply simulates_wp; [|cbn; reflexivity|done]. apply wp_bind, (wp_Reset b p s t); [done|]. intros b' H _. apply wp_ret.
    split; [done|by eexists _, _].
  - eapply simulates_wp; [|cbn; by rewrite Hc|done]. cbn. split; [|by exists p, t]. f_equal.
    rewrite (holds_len _ _ _ _ Hh), (holds_off _ _ _ _ Hh). lia.
  - eapply simulates_wp; [|cbn; by rewrite Hc|done]. split; [by rewrite <- Hc|by exists p, t].
  - eapply simulates_wp; [|cbn; by rewrite Hc|done]. split; [by rewrite <- Hc|by exists p, t].
  - by apply simulates_Peek.
Qed.
End Step.

Lemma Grow_room n b b' :
  valid b -> 0 <= n -> Grow make_ok append_cap n b = Done (tt, b') ->
  exists a c, Available b' = Done (a, b') /\ Cap b' = Done (c, b') /\ n <= a <= c /\ contents b' = contents b.
Proof.
  intros Hv Hn E. destruct (valid_holds b Hv) as (p & t & Hh). pose proof (Grow_spec make_ok append_cap append_cap_ok n b p _ t Hh Hn) as H.
  unfold wpe in H. rewrite E in H. destruct H as (p' & t' & Hh' & Ht & _). pose proof (holds_cap _ _ _ _ Hh') as Hc.
  eexists _, _. split; [done|]. split; [done|]. rewrite (holds_len _ _ _ _ Hh'), Hc, (holds_contents _ _ _ _ Hh').
  pose proof (zlen_nonneg p'). pose proof (zlen_nonneg (contents b)). split; [lia|done].
Qed.

(** ** Unreading *)

Definition is_read (o : op) : bool :=
  match o with ORead _ | ONext _ | OReadByte | OReadRune | OReadBytes _ | OReadString _ => true | _ => false end.
Definition is_line (o : op) : bool := match o with OReadBytes _ | OReadString _ => true | _ => false end.
Definition reply_error (r : reply) : option error :=
  match r with Count _ e | Data _ e | Byte _ e | Rune _ _ e => e | _ => None end.
Definition is_rune (o : op) : bool := match o with OReadRune => true | _ => false end.
Definition no_unread (b : Buffer) : Prop :=
  UnreadByte b = Done (Some errUnreadByte, b) /\ UnreadRune b = Done (Some errUnreadRune, b).

Lemma no_unread_invalid b : lastRead b = opInvalid -> no_unread b.
Proof. intros H. split; [by apply UnreadByte_error|apply UnreadRune_error; by rewrite H]. Qed.

(** What a read leaves: the bytes [q] it took and the kind of read. *)
Definition took (o : op) (s : list Z) (b' : Buffer) : Prop :=
  exists q s' r, s = q ++ s' /\ has_read q s' r b' /\ (q <> [] -> r = if is_rune o then zlen q else opRead) /\
    (q = [] -> r = if is_line o then opRead else opInvalid).

Lemma took_nothing o b' : is_line o = false -> unread_is [] b' -> took o [] b'.
Proof.
  intros Hl [(p & t & Hh) Hr]. exists [], [], opInvalid. rewrite Hl. split_and!; [done| |done|done].
  split; [exists p, t; by rewrite app_nil_r|done].
Qed.
Lemma took_prefix o n s b' :
  is_rune o = false -> is_line o = false -> 0 <= n <= zlen s ->
  has_read (take (Z.to_nat n) s) (drop (Z.to_nat n) s) (if 0 <? n then opRead else opInvalid) b' -> took o s b'.
Proof.
  intros Hr Hl Hn H. eexists _, _, _. split; [symmetry; apply take_drop|]. split; [exact H|]. rewrite Hr, Hl.
  split; intros Hq; destruct (Z.ltb_spec 0 n) as [H0|H0]; try done.
  - rewrite (Z.le_antisymm n 0) in Hq by lia. done.
  - apply (f_equal zlen) in Hq. rewrite zlen_take_min in Hq by lia. change (zlen (@nil Z)) with 0 in Hq. lia.
Qed.

Lemma took_line {A} d o (k : list Z * option error -> M Buffer A) b p s t :
  holds b p s t -> is_rune o = false -> is_line o = true -> (forall x b1, wp (k x) (fun _ b2 => b2 = b1) b1) ->
  wp (x <- readSlice d ;; k x) (fun _ b' => took o s b') b.
Proof.
  intros Hh Hr Hl Hk. eapply wp_call; [by apply (readSlice_spec d b p s t)|]. intros x b'.
  destruct (line d s) as [[l' r'] f] eqn:El. intros [_ H']. eapply wp_mono; [apply Hk|]. cbn beta. intros _ b2 ->.
  exists l', r', opRead. rewrite Hr, Hl. split_and!; [by eapply line_app|done..].
Qed.

Lemma read_took o b p s t :
  holds b p s t -> Forall byte s -> op_ok o -> is_read o = true ->
  wp (buffer_op o) (fun _ b' => took o s b') b \/ (exists n, o = ONext n /\ n < 0).
Proof.
  intros Hh Hs Ho Hr. pose proof (zlen_nonneg s). destruct o as [| | | | |k|n| | |d|d| | | | | |]; try done.
  - left. eapply fmap_wp; [by apply (Read_spec k b p s t)|]. intros [l e] b'. cbn beta zeta. case_decide as E; intros [_ H'].
    + rewrite E. by apply took_nothing.
    + apply (took_prefix _ (Z.min k (zlen s))); [done..|cbn in Ho; lia|done].
  - destruct (Z.ltb_spec n 0); [right; by exists n|left]. eapply fmap_wp; [by apply (Next_spec n b p s t)|]. intros l b'. cbv zeta. intros [_ H'].
    apply (took_prefix _ (Z.min n (zlen s))); [done..|lia|done].
  - left. eapply fmap_wp; [by apply (ReadByte_spec b p s t)|]. intros r b'. destruct s as [|c s']; intros [_ H']; [by apply took_nothing|].
    by exists [c], s', opRead.
  - left. eapply fmap_wp; [by apply (ReadRune_spec b p s t)|]. intros r b'. cbn beta. case_decide as E.
    + intros [_ H']. rewrite E. by apply took_nothing.
    + destruct (DecodeRune s) as [c n]. intros (_ & Hn1 & Hn2 & H'). eexists _, _, _.
      split; [symmetry; apply take_drop|]. split; [exact H'|]. split; intros Hq; [|apply (f_equal zlen) in Hq];
        rewrite ?zlen_take_min in * by lia; cbn [is_rune]; [lia|]. change (zlen (@nil Z)) with 0 in Hq. lia.
  - left. eapply fmap_wp; [apply (took_line d (OReadBytes d) _ b p s t Hh); [done..|by intros [l e] b1]|done].
  - left. eapply fmap_wp; [apply (took_line d (OReadString d) _ b p s t Hh); [done..|by intros [l e] b1]|done].
Qed.

Lemma line_errors d s q s' l f :
  line d s = (l, s', f) -> s = q ++ s' ->
  (q <> [] -> (if f : bool then None else Some EOF) = None \/ true = true /\ (if f then None else Some EOF) = Some EOF) /\
  (q = [] -> true = true -> (if f then None else Some EOF) = Some EOF).
Proof.
  intros E Hq. destruct (IndexByte_line _ _ _ _ _ E) as [_ Hf]. apply line_app in E. rewrite E in Hq. apply app_inv_tail in Hq as ->.
  split; intros H.
  - destruct f; [by left|right; split; done].
  - intros _. destruct f; [|done]. subst q. change (zlen (@nil Z)) with 0 in Hf. lia.
Qed.
(** A read that took bytes replies with no error, [ReadBytes] and [ReadString] apart;
    those reply with [io.EOF] when they took none. *)
Lemma read_errors o b b' r q :
  valid b -> Forall byte (contents b) -> op_ok o -> is_read o = true -> buffer_op o b = Done (r, b') -> contents b = q ++ contents b' ->
  (q <> [] -> reply_error r = None \/ is_line o = true /\ reply_error r = Some EOF) /\
  (q = [] -> is_line o = true -> reply_error r = Some EOF).
Proof.
  intros Hv Hb Ho Hr Hop Hq. destruct (valid_holds b Hv) as (p & t & Hh). pose proof (simulates_holds b p _ t Hh Hb o Ho) as H.
  unfold simulates in H. rewrite Hop in H. assert (Hne : q <> [] -> contents b <> []) by (rewrite Hq; by destruct q).
  destruct o as [| | | | |k|n| | |d|d| | | | | |]; try done; cbn -[DecodeRune line] in H;
    unfold fmap_M, mbind, take_front, mget, mput, mret, mpanic in H; cbn -[DecodeRune line] in H.
  - destruct H as (-> & _). split; [|done]. intros H. rewrite decide_False by auto. by left.
  - destruct (n <? 0); [done|]. destruct H as (-> & _). split; [|done]. by left.
  - destruct (contents b); destruct H as (-> & _); (split; [|done]); intros H; [by destruct (Hne H)|by left].
  - destruct (contents b) as [|c s]; [destruct H as (-> & _); split; [|done]; intros H; by destruct (Hne H)|].
    destruct (DecodeRune (c :: s)) as [c' n]. destruct H as (-> & _). split; [|done]. by left.
  - destruct (line d (contents b)) as [[l rest] f] eqn:E. destruct H as (-> & -> & _). by apply (line_errors d _ q _ l f E).
  - destruct (line d (contents b)) as [[l rest] f] eqn:E. destruct H as (-> & -> & _). by apply (line_errors d _ q _ l f E).
Qed.

(** After a read, the bytes [q] that it took from the front are gone from the buffer. *)
Lemma unread_after_read (o : op) (b b' : Buffer) (r : reply) :
  valid b -> Forall byte (contents b) -> op_ok o -> is_read o = true -> buffer_op o b = Done (r, b') ->
  exists q, contents b = q ++ contents b' /\
    (forall q' c, q = q' ++ [c] ->
       (exists b2, UnreadByte b' = Done (None, b2) /\ contents b2 = c :: contents b' /\ no_unread b2) /\
       (reply_error r = None \/ is_line o = true /\ reply_error r = Some EOF)) /\
    (q <> [] -> is_rune o = true -> exists b2, UnreadRune b' = Done (None, b2) /\ contents b2 = contents b /\ no_unread b2) /\
    (is_rune o = false -> UnreadRune b' = Done (Some errUnreadRune, b')) /\
    (q = [] -> is_line o = false -> no_unread b') /\
    (q = [] -> is_line o = true -> reply_error r = Some EOF /\ exists b2, UnreadByte b' = Done (None, b2)).
Proof.
  intros Hv Hb Ho Hr Hop. destruct (valid_holds b Hv) as (p & t & Hh).
  destruct (read_took o b p _ t Hh Hb Ho Hr) as [H|(n & -> & Hn)].
  2:{ exfalso. assert (Hs : simulates (ONext n) b) by (by eapply simulates_holds). unfold simulates in Hs. rewrite Hop in Hs.
      cbn in Hs. by destruct (Z.ltb_spec n 0); [|lia]. }
  apply wp_elim in H as (r' & b1 & E & q & s' & k & Hs & Hq & Hk1 & Hk2). rewrite Hop in E. injection E as <- <-.
  destruct (has_read_holds _ _ _ _ Hq) as (p1 & t1 & Hh1). rewrite (holds_contents _ _ _ _ Hh1). exists q. split; [done|].
  assert (Hun : forall x b2, unread_is x b2 -> contents b2 = x /\ no_unread b2).
  { intros x b2 [(p2 & t2 & H2) H3]. split; [by eapply holds_contents|by apply no_unread_invalid]. }
  assert (Hk : q <> [] -> is_rune o = false -> lastRead b' = opRead).
  { intros H1 H2. destruct Hq as [_ ->]. by rewrite Hk1, H2. }
  destruct (read_errors o b b' r q Hv Hb Ho Hr Hop) as [He1 He2]; [by rewrite (holds_contents _ _ _ _ Hh1)|].
  split_and!.
  - intros q' c ->. assert (Hne : q' ++ [c] <> []) by (by destruct q').
    assert (Hne' : k <> opInvalid).
    { rewrite Hk1 by done. destruct (is_rune o); [|done]. rewrite zlen_app. pose proof (zlen_nonneg q'). unfold opInvalid. change (zlen [c]) with 1. lia. }
    destruct (wp_elim _ _ _ (UnreadByte_spec _ _ _ _ _ Hq Hne')) as (e & b2 & E & -> & H2). split; [exists b2; split; [done|by apply Hun]|by apply He1].
  - intros Hne Hrune. rewrite Hk1, Hrune in Hq by done.
    destruct (wp_elim _ _ _ (UnreadRune_spec _ _ _ Hq Hne)) as (e & b2 & E & -> & H2). exists b2. rewrite Hs. split; [done|by apply Hun].
  - intros Hnr. apply UnreadRune_error. destruct Hq as [_ ->]. destruct (decide (q = [])) as [Hq'|Hq'].
    + rewrite Hk2 by done. by destruct (is_line o).
    + by rewrite Hk1, Hnr.
  - intros Hq' Hnl. apply no_unread_invalid. destruct Hq as [_ ->]. by rewrite Hk2, Hnl.
  - intros Hq' Hl. split; [by apply He2|]. unfold UnreadByte, mbind, mget. destruct Hq as [_ Hrd]. rewrite Hk2, Hl in Hrd by done. rewrite Hrd. cbn.
    destruct (off b' >? 0); by eexists.
Qed.

(** C8: a buffer refines a queue of bytes.  From any valid buffer, each
    operation with arguments of its types replies as the queue of its unread bytes
    does and leaves a valid buffer that holds the queue's bytes, or panics as the
    queue does; or it panics with [ErrTooLarge], and then the capacity it needs
    does not fit in an [int] or the allocator refused it.  So does every sequence
    of operations.  After a read that took bytes from the front, [UnreadByte] puts the
    last one back, and after a [ReadRune] [UnreadRune] puts all of them back; after that
    neither method succeeds.  Such a read replies with no error, [ReadBytes] and [ReadString]
    apart: these reply with [io.EOF] when they find no delimiter, and [UnreadByte] puts a byte back
    all the same, against its comment, which says that it fails if the last read returned an
    error.  [UnreadRune] fails after every read but [ReadRune], and both
    fail after a read that took nothing, again [ReadBytes] and [ReadString] apart: after these,
    with nothing left and [io.EOF], [UnreadByte] returns no error.  After [Grow(n)] there is room for [n] bytes, and [NewBuffer]
    gives a valid buffer of its argument. *)
Theorem buffer_refines_queue (b : Buffer) :
  valid b -> Forall byte (contents b) ->
  (forall o, op_ok o -> simulates o b) /\
  (forall os, Forall op_ok os ->
     match run buffer_op os b, run queue_op os (contents b) with
     | Done (rs, b'), Done (rs', q) => rs = rs' /\ q = contents b' /\ valid b'
     | Panic e, r => e = ErrTooLarge \/ r = Panic e
     | _, _ => False
     end) /\
  (forall o b' r, op_ok o -> is_read o = true -> buffer_op o b = Done (r, b') ->
     exists q, contents b = q ++ contents b' /\
       (forall q' c, q = q' ++ [c] ->
          (exists b2, UnreadByte b' = Done (None, b2) /\ contents b2 = c :: contents b' /\ no_unread b2) /\
          (reply_error r = None \/ is_line o = true /\ reply_error r = Some EOF)) /\
       (q <> [] -> is_rune o = true -> exists b2, UnreadRune b' = Done (None, b2) /\ contents b2 = contents b /\ no_unread b2) /\
       (is_rune o = false -> UnreadRune b' = Done (Some errUnreadRune, b')) /\
       (q = [] -> is_line o = false -> no_unread b') /\
       (q = [] -> is_line o = true -> reply_error r = Some EOF /\ exists b2, UnreadByte b' = Done (None, b2))) /\
  (forall n b', 0 <= n -> Grow make_ok append_cap n b = Done (tt, b') ->
     exists a c, Available b' = Done (a, b') /\ Cap b' = Done (c, b') /\ n <= a <= c /\ contents b' = contents b) /\
  (forall a n, 0 <= n <= zlen a -> valid (NewBuffer a n false) /\ contents (NewBuffer a n false) = take (Z.to_nat n) a).
Proof.
  intros Hv Hb. split; [|split; [|split; [|split]]].
  3:{ intros o b' r Ho Hr E. by eapply unread_after_read. }
  3:{ intros n b' Hn E. by eapply Grow_room. }
  3:{ intros a n Hn. unfold valid, bcap, contents, sub. cbn [NewBuffer off blen array isnil]. split; [split_and!; [lia..|done]|]. by rewrite drop_0, Nat.sub_0_r. }
  { intros o Ho. destruct (valid_holds b Hv) as (p & t & Hh). by eapply simulates_holds. }
  intros os Hos. revert b Hv Hb. induction Hos as [|o os Ho Hos IH]; intros b Hv Hb; [by cbn|].
  destruct (valid_holds b Hv) as (p & t & Hh). pose proof (simulates_holds b p _ t Hh Hb o Ho) as H. unfold simulates in H.
  cbn [run]. unfold mbind. destruct (buffer_op o b) as [[r b']|e|], (queue_op o (contents b)) as [[r' q]|e'|]; try done.
  - destruct H as (<- & -> & Hv' & Hb'). specialize (IH b' Hv' Hb').
    destruct (run buffer_op os b') as [[rs b2]|e|]; [|destruct IH as [->|E]; [by left|right; by rewrite E]|done].
    destruct (run queue_op os (contents b')) as [[rs' q]|e'|]; [|done..]. destruct IH as (<- & -> & Hv2). by split_and!.
  - destruct H as [-> _]. by left.
  - rewrite H. by right.
Qed.
End Theorems.

(** ** Witnesses *)

Definition any_cap (c n : Z) : Z := n.
Definition allowed (c : Z) : bool := true.
Definition some_ops : list op := [OWrite [1; 0xC3; 0xA9; 2]; OReadByte; OReadRune; OGrow 100; OLen; OReadBytes 3; OReadByte].

Lemma buffer_refines_queue_witness :
  (match run (buffer_op allowed any_cap) some_ops (NewBufferString [5]), run queue_op some_ops [5] with
   | Done (rs, b'), Done (rs', q) => rs = rs' /\ q = contents b' /\ valid b'
   | Panic e, r => e = ErrTooLarge \/ r = Panic e
   | _, _ => False
   end) /\
  exists b2, UnreadRune (MkBuffer [0xC3; 0xA9; 2] 3 false 2 2) = Done (None, b2) /\ contents b2 = [0xC3; 0xA9; 2] /\ no_unread b2.
Proof.
  assert (Ha : forall c n, n <= any_cap c n) by (unfold any_cap; lia). split.
  - destruct (buffer_refines_queue allowed any_cap) with (b := NewBufferString [5]) as (_ & H & _).
    + exact Ha.
    + by vm_compute.
    + by repeat constructor.
    + apply (H some_ops). repeat constructor; by vm_compute.
  - destruct (buffer_refines_queue allowed any_cap) with (b := NewBufferString [0xC3; 0xA9; 2]) as (_ & _ & H & _).
    + exact Ha.
    + by vm_compute.
    + by repeat constructor.
    + destruct (H OReadRune (MkBuffer [0xC3; 0xA9; 2] 3 false 2 2) (Rune 0xE9 2 None)) as (q & Hq & _ & Hr & _); [done|done|by vm_compute|].
      apply Hr; [by intros ->|done].
Defined.

(** ** Divergences from the documentation *)

(** [UnreadByte] succeeds after a [ReadBytes] that returned its bytes with
    [io.EOF]. *)
Example unread_after_line_eof :
  run (buffer_op allowed any_cap) [OReadBytes 10] (NewBufferString [65; 66]) =
    Done ([Data [65; 66] (Some EOF)], MkBuffer [65; 66] 2 false 2 opRead) /\
  UnreadByte (MkBuffer [65; 66] 2 false 2 opRead) = Done (None, MkBuffer [65; 66] 2 false 1 opInvalid).
Proof. by vm_compute. Qed.

(** [UnreadByte] succeeds after a [ReadBytes] that returned no byte and
    [io.EOF]: it puts back the byte of the read before. *)
Example unread_after_eof :
  run (buffer_op allowed any_cap) [OReadByte; OReadBytes 10] (NewBufferString [65]) =
    Done ([Byte 65 None; Data [] (Some EOF)], MkBuffer [65] 1 false 1 opRead) /\
  UnreadByte (MkBuffer [65] 1 false 1 opRead) = Done (None, MkBuffer [65] 1 false 0 opInvalid).
Proof. by vm_compute. Qed.

(** [UnreadByte] after a [Grow] that slides the unread bytes down returns no
    error and puts nothing back. *)
Example unread_after_slide :
  run (buffer_op allowed any_cap) [OReadByte; OGrow 2; OBytes] (MkBuffer [1; 2; 3; 4; 5; 6; 7; 0] 7 false 5 opInvalid) =
    Done ([Byte 6 None; Nothing; Data [7] None], MkBuffer [7; 2; 3; 4; 5; 6; 7; 0] 1 false 0 opRead) /\
  UnreadByte (MkBuffer [7; 2; 3; 4; 5; 6; 7; 0] 1 false 0 opRead) = Done (None, MkBuffer [7; 2; 3; 4; 5; 6; 7; 0] 1 false 0 opInvalid).
Proof. by vm_compute. Qed.
