(* ===== verification/BufferTransfer.v ===== *)
(** * bytes.Buffer: readers and writers

    [ReadFrom] and [WriteTo] talk to code that is not in the buffer: the
    classes [Reader] and [Writer] state the contracts of [io.Reader] and
    [io.Writer] the buffer relies on. *)

From S2P Require Import Prelude.
From S2P Require Import Slice.
From S2P Require Import Bits.
From S2P Require Import Text.
From S2P Require Import StrconvFormat.
From S2P Require Import Buffer.
From S2P Require Import BufferSpec.
From S2P Require Import BufferOps.

(** ** The contracts *)

(** What [io.Reader] documents: a read into [k] bytes puts bytes there and
    counts at most [k] of them.  Nothing says that it ever returns an error. *)
Class Reader {R : Type} (read : R -> Z -> list Z * Z * option error * R) : Prop :=
  read_ok : forall r k, 0 <= k -> let '(data, m, _, _) := read r k in 0 <= m <= k /\ m <= zlen data.

(** A writer takes at most what it is given. *)
Class Writer (write : list Z -> Z * option error) : Prop :=
  write_ok : forall l, 0 <= (write l).1 <= zlen l.

(** ** Writing out *)

Lemma WriteTo_spec write `{Writer write} b p s t :
  holds b p s t ->
  wp (WriteTo write)
    (fun r b' =>
       let '(m, e) := if decide (s = []) then (0, None) else write s in
       r = (m, match e with Some e => Some e | None => if m =? zlen s then None else Some ErrShortWrite end) /\
       exists p' t', holds b' p' (drop (Z.to_nat m) s) t') b.
Proof.
  intros Hh. unfold WriteTo. apply wp_bind. unfold set_lastRead at 1. apply wp_modify.
  pose proof (holds_lastRead _ _ _ _ opInvalid Hh) as Hh1. set (b1 := MkBuffer _ _ _ _ _) in *. unfold Len. wp_step. apply wp_gets.
  assert (blen b1 - off b1 = zlen s) as -> by (rewrite (holds_len _ _ _ _ Hh1), (holds_off _ _ _ _ Hh1); lia).
  case_decide as Hs.
  { subst s. change (zlen (@nil Z)) with 0. cbn [Z.gtb Z.compare]. apply (wp_Reset_unread b1 p [] t); [done|].
    intros b' [(p' & t' & Hb') _]. apply wp_ret. split; [done|by exists p', t']. }
  assert (0 < zlen s) by (destruct s as [|? l]; [done|]; rewrite zlen_cons; pose proof (zlen_nonneg l); lia).
  destruct (Z.gtb_spec (zlen s) 0); [|lia]. apply wp_bind, wp_get. eapply wp_call; [by apply (wp_unread b1 p s t)|].
  intros l b' [-> ->]. pose proof (write_ok s) as Hm. destruct (write s) as [m e]. cbn [fst] in Hm.
  destruct (Z.gtb_spec m (zlen s)); [lia|]. unfold set_off. apply wp_bind, wp_modify.
  assert (Hb2 : exists p', holds (MkBuffer (array b1) (blen b1) (isnil b1) (off b1 + m) (lastRead b1)) p' (drop (Z.to_nat m) s) t).
  { exists (p ++ take (Z.to_nat m) s). destruct Hh1 as [Ha Ho Hl Hn]. assert (zlen s = m + zlen (drop (Z.to_nat m) s)) by (unfold zlen in *; rewrite length_drop; lia).
    split; cbn [array blen isnil off] in *; [|rewrite zlen_app, zlen_take_min; lia..|done].
    rewrite Ha, <- !app_assoc. f_equal. by rewrite app_assoc, take_drop. }
  destruct Hb2 as (p' & Hb2). destruct e as [e|]; [apply wp_ret; split; [done|by exists p', t]|].
  destruct (Z.eqb_spec m (zlen s)) as [->|]; cbn [negb]; [|apply wp_ret; split; [done|by exists p', t]].
  eapply wp_Reset_unread; [exact Hb2|]. intros b' [(p2 & t2 & Hb') _]. apply wp_ret. split; [done|]. exists p2, t2.
  rewrite drop_ge by (unfold zlen; lia). done.
Qed.

(** ** Reading in *)

Section Traces.
Context {R : Type} (read : R -> Z -> list Z * Z * option error * R).

(** Reads into [ks] bytes, none of which returns an error, deliver [l] and
    take the reader from [r] to [r']. *)
Inductive goes_on : R -> list Z -> list Z -> R -> Prop :=
| goes_on_nil r : goes_on r [] [] r
| goes_on_cons r k data m r1 ks l r2 :
    MinRead <= k -> read r k = (data, m, None, r1) -> goes_on r1 ks l r2 ->
    goes_on r (k :: ks) (take (Z.to_nat m) data ++ l) r2.

(** Reads deliver [l], the last of them with the error [e]. *)
Definition delivers (r : R) (l : list Z) (e : error) : Prop :=
  exists ks l1 r1 k data m r2,
    goes_on r ks l1 r1 /\ MinRead <= k /\ read r1 k = (data, m, Some e, r2) /\ l = l1 ++ take (Z.to_nat m) data.

(** Whatever the sizes it is asked for, the reader returns an error in the end. *)
Inductive stops (r : R) : Prop :=
| stops_intro : (forall k data m r', MinRead <= k -> read r k = (data, m, None, r') -> stops r') -> stops r.
End Traces.

Definition end_error (e : error) : option error := match e with EOF => None | e => Some e end.

Section ReadFrom.
Context (make_ok : Z -> bool) (append_cap : Z -> Z -> Z).
Hypothesis append_cap_ok : forall c n, n <= append_cap c n.
Context {R : Type} (read : R -> Z -> list Z * Z * option error * R).
Notation read_round := (read_round make_ok append_cap read).
Notation ReadFrom := (ReadFrom make_ok append_cap read).

(** Rounds of the loop of [ReadFrom] take [st] and [b] to [st'] and [b']. *)
Inductive rounds : Z * R -> Buffer -> Z * R -> Buffer -> Prop :=
| rounds_nil st b : rounds st b st b
| rounds_cons st b st1 b1 st2 b2 : read_round st b = Done (inl st1, b1) -> rounds st1 b1 st2 b2 -> rounds st b st2 b2.

Definition unread_invalid (b : Buffer) : Buffer := MkBuffer (array b) (blen b) (isnil b) (off b) opInvalid.

(** The buffer reached after the reader delivered [l] could not grow. *)
Definition stuck (st : Z * R) (b : Buffer) (s : list Z) (e : panic) : Prop :=
  exists ks l r' b',
    goes_on read st.2 ks l r' /\ rounds st b (st.1 + zlen l, r') b' /\
    valid b' /\ contents b' = s ++ l /\ too_large make_ok (bcap b') MinRead e.

(** One round: the buffer grows and the bytes read follow the unread ones. *)
Lemma fill_spec i n b s data m :
  grown s MinRead i b -> 0 <= m <= n -> n = bcap b - i -> m <= zlen data ->
  exists p t, holds (MkBuffer (overwrite i (take (Z.to_nat n) data) (array b)) (i + m) (isnil b) (off b) (lastRead b)) p
                (s ++ take (Z.to_nat m) data) t.
Proof.
  intros (p & g & t & Hh & Hg & ->) Hm -> Hd. pose proof (holds_cap _ _ _ _ Hh) as Hc. destruct Hh as [Ha Ho Hl Hn].
  rewrite !zlen_app in *. set (n := bcap b - _) in *. pose proof (zlen_nonneg t).
  destruct (split_at (Z.min n (zlen data)) (g ++ t)) as (x & y & Exy & Hx); [rewrite zlen_app; pose proof (zlen_nonneg data); unfold MinRead in *; lia|].
  assert (Hw : overwrite (zlen p + zlen s) (take (Z.to_nat n) data) (array b) = (p ++ s) ++ take (Z.to_nat n) data ++ y).
  { rewrite Ha, <- (app_assoc s), Exy, (app_assoc p). apply overwrite_app; [by rewrite zlen_app|]. unfold zlen in *. rewrite length_take. lia. }
  exists p, (drop (Z.to_nat m) (take (Z.to_nat n) data) ++ y).
  split; cbn [array blen isnil off]; [|done|rewrite zlen_app, zlen_take_min; lia|].
  - rewrite Hw, <- !app_assoc. f_equal. f_equal. rewrite app_assoc. f_equal.
    rewrite <- (take_drop (Z.to_nat m) (take (Z.to_nat n) data)) at 1. f_equal. rewrite take_take. f_equal. lia.
  - intros Hn'. rewrite (Hn Hn') in Ha. destruct p, s, g; done.
Qed.

(** A round asks the reader for what the grown buffer can take. *)
Lemma read_round_start n r b p s t Q (E : panic -> Prop) :
  holds b p s t -> (forall e, too_large make_ok (bcap b) MinRead e -> E e) ->
  (forall i b1, grown s MinRead i b1 -> 0 <= i <= bcap b1 -> MinRead <= bcap b1 - i ->
     wpe (let '(data, m, e, r) := read r (bcap b1 - i) in
          mput (MkBuffer (overwrite i (take (Z.to_nat (bcap b1 - i)) data) (array b1)) i (isnil b1) (off b1) (lastRead b1)) ;;
          if m <? 0 then mpanic errNegativeRead
          else
            reslice (i + m) ;;
            let n := n + m in
            match e with
            | Some EOF => break (n, None)
            | Some e => break (n, Some e)
            | None => continue (n, r)
            end) Q E (MkBuffer (array b1) i (isnil b1) (off b1) (lastRead b1))) ->
  wpe (read_round (n, r)) Q E b.
Proof.
  intros Hh HE HQ. unfold Buffer.read_round. eapply wpe_call.
  { eapply wpe_mono; [by apply (grow_spec make_ok append_cap append_cap_ok MinRead b p s t)|intros a b' H; exact H|exact HE]. }
  cbn beta. intros i b1 [Hg _]. pose proof Hg as (p1 & g & t1 & Hh1 & Hgl & Hi). pose proof (holds_valid _ _ _ _ Hh1) as (H1 & H2 & _).
  pose proof (holds_len _ _ _ _ Hh1) as Hl. rewrite zlen_app in Hl. pose proof (zlen_nonneg p1). pose proof (zlen_nonneg s).
  unfold MinRead in Hgl. eapply wpe_call_wp; [apply (wp_reslice i (fun _ b' => b' = MkBuffer (array b1) i (isnil b1) (off b1) (lastRead b1))); [lia|done]|].
  cbn beta. intros [] b2 ->. apply wpe_bind. cbn [wpe mget array blen isnil off lastRead]. apply (HQ i b1); [done|unfold MinRead; lia..].
Qed.

Lemma read_round_spec `{!Reader read} n r b p s t :
  holds b p s t ->
  wpe (read_round (n, r))
    (fun x b' => exists k data m e r', MinRead <= k /\ 0 <= m <= zlen data /\ read r k = (data, m, e, r') /\
       (exists p' t', holds b' p' (s ++ take (Z.to_nat m) data) t') /\
       match e with None => x = inl (n + m, r') | Some e => x = inr (n + m, end_error e) end)
    (too_large make_ok (bcap b) MinRead) b.
Proof.
  intros Hh. apply (read_round_start n r b p s t); [done..|]. intros i b1 Hg Hi Hk.
  pose proof (read_ok r (bcap b1 - i) ltac:(lia)) as Hr. destruct (read r (bcap b1 - i)) as [[[data m] e] r'] eqn:Er.
  destruct Hr as (Hm & Hd). apply wpe_wp, wp_bind, wp_put. destruct (Z.ltb_spec m 0); [lia|].
  assert (zlen (overwrite i (take (Z.to_nat (bcap b1 - i)) data) (array b1)) = bcap b1) as Hw.
  { apply overwrite_zlen; [lia|]. unfold bcap, zlen in *. rewrite length_take. lia. }
  pose proof (fill_spec i _ b1 s data m Hg Hm eq_refl Hd) as Hf.
  apply wp_bind, wp_reslice; unfold bcap in *; cbn [array blen isnil off lastRead]; [lia|]. cbv zeta.
  destruct e as [[]|]; cbn; (exists (zlen (array b1) - i), data, m); eexists _, r'; split_and!; try done; try lia.
Qed.

Lemma stuck_step st b s e st1 b1 k data m :
  MinRead <= k -> 0 <= m <= zlen data -> read st.2 k = (data, m, None, st1.2) -> st1.1 = st.1 + m ->
  read_round st b = Done (inl st1, b1) -> stuck st1 b1 (s ++ take (Z.to_nat m) data) e -> stuck st b s e.
Proof.
  intros Hk Hm Hr Hn Hb (ks & l & r' & b' & Hg & Hl & Hv & Hc & He). exists (k :: ks), (take (Z.to_nat m) data ++ l), r', b'.
  split_and!; [by eapply goes_on_cons| |done|by rewrite Hc, <- app_assoc|done]. eapply rounds_cons; [exact Hb|].
  rewrite Hn in Hl. rewrite zlen_app, zlen_take_min by lia. by rewrite Z.min_l, Z.add_assoc by lia.
Qed.
Lemma delivers_step r k data m r1 l e :
  MinRead <= k -> read r k = (data, m, None, r1) -> delivers read r1 l e -> delivers read r (take (Z.to_nat m) data ++ l) e.
Proof.
  intros Hk Hr (ks & l1 & r2 & k2 & data2 & m2 & r3 & Hg & Hk2 & Hr2 & ->). exists (k :: ks), (take (Z.to_nat m) data ++ l1), r2, k2, data2, m2, r3.
  split_and!; [by eapply goes_on_cons|done..|by rewrite app_assoc].
Qed.

(** What the loop does, for as many rounds as there is fuel for. *)
Definition loop_post (fuel : nat) (st : Z * R) (b : Buffer) (s : list Z) (o : outcome (Z * option error * Buffer)) : Prop :=
  match o with
  | Done (res, b') => exists l e, delivers read st.2 l e /\ res = (st.1 + zlen l, end_error e) /\ valid b' /\ contents b' = s ++ l
  | Panic e => stuck st b s e
  | NoFuel => exists ks l r', length ks = fuel /\ goes_on read st.2 ks l r'
  end.

Lemma ReadFrom_loop `{!Reader read} fuel n r b p s t :
  holds b p s t -> loop_post fuel (n, r) b s (loop fuel read_round (n, r) b).
Proof.
  revert n r b p s t. induction fuel as [|fuel IH]; intros n r b p s t Hh; cbn [loop].
  { exists [], [], r. split; [done|constructor]. }
  pose proof (read_round_spec n r b p s t Hh) as H. unfold wpe in H. unfold mbind. destruct (read_round (n, r) b) as [[x b']|e|] eqn:E; [| |done].
  - destruct H as (k & data & m & o & r' & Hk & Hm & Hr & (p' & t' & Hh') & H). destruct o as [e|]; subst x; cbn.
    + exists (take (Z.to_nat m) data), e. rewrite zlen_take_min, Z.min_l by lia. split_and!; [|done|by eapply holds_valid|by eapply holds_contents].
      exists [], [], r, k, data, m, r'. split_and!; [constructor|done..].
    + specialize (IH (n + m) r' b' p' _ t' Hh'). destruct (loop fuel read_round (n + m, r') b') as [[res b2]|e|]; cbn [loop_post fst snd] in *.
      * destruct IH as (l & e & Hd & -> & Hv & Hc). exists (take (Z.to_nat m) data ++ l), e.
        split_and!; [by eapply delivers_step| |done|by rewrite Hc, <- app_assoc]. rewrite zlen_app, zlen_take_min, Z.min_l by lia. f_equal. lia.
      * eapply (stuck_step (n, r) b s e (n + m, r') b'); [exact Hk|exact Hm|exact Hr|done|exact E|exact IH].
      * destruct IH as (ks & l & r2 & <- & Hg). exists (k :: ks), (take (Z.to_nat m) data ++ l), r2. split; [done|by eapply goes_on_cons].
  - cbn. exists [], [], r, b. split_and!; [constructor|rewrite Z.add_0_r; constructor|by eapply holds_valid|rewrite app_nil_r; by eapply holds_contents|done].
Qed.

(** The loop ends when the reader does. *)
Lemma ReadFrom_ends `{!Reader read} r :
  stops read r -> forall n b p s t, holds b p s t ->
  exists k, forall fuel, (k <= fuel)%nat -> loop fuel read_round (n, r) b <> NoFuel.
Proof.
  induction 1 as [r _ IH]. intros n b p s t Hh. pose proof (read_round_spec n r b p s t Hh) as H. unfold wpe in H.
  destruct (read_round (n, r) b) as [[x b']|e|] eqn:E; [| |done].
  - destruct H as (k & data & m & o & r' & Hk & Hm & Hr & (p' & t' & Hh') & H). destruct o as [e|]; subst x.
    + exists 1%nat. intros [|fuel] Hf; [lia|]. cbn [loop]. unfold mbind. by rewrite E.
    + destruct (IH k data m r' Hk Hr (n + m) b' p' _ t' Hh') as (j & Hj). exists (S j). intros [|fuel] Hf; [lia|].
      cbn [loop]. unfold mbind. rewrite E. apply Hj. lia.
  - exists 1%nat. intros [|fuel] Hf; [lia|]. cbn [loop]. unfold mbind. by rewrite E.
Qed.

(** A reader that counts less than nothing. *)
Lemma ReadFrom_negative fuel r b p s t :
  holds b p s t -> (forall k, (read r k).1.1.2 < 0) ->
  ReadFrom (S fuel) r b = Panic errNegativeRead \/ exists e, ReadFrom (S fuel) r b = Panic e /\ too_large make_ok (bcap b) MinRead e.
Proof.
  intros Hh Hr. set (E := fun e => e = errNegativeRead \/ too_large make_ok (bcap b) MinRead e).
  assert (H : wpe (read_round (0, r)) (fun _ _ => False) E (unread_invalid b)).
  { apply (read_round_start 0 r (unread_invalid b) p s t); [by apply holds_lastRead|by right|]. intros i b1 _ _ _.
    specialize (Hr (bcap b1 - i)). destruct (read r (bcap b1 - i)) as [[[data m] e] r']. cbn in Hr. cbn.
    destruct (Z.ltb_spec m 0); [by left|lia]. }
  unfold Buffer.ReadFrom, mbind, set_lastRead, mmodify. fold (unread_invalid b). cbn [loop]. unfold mbind. unfold wpe in H.
  destruct (read_round (0, r) (unread_invalid b)) as [[x b']|e|]; [done| |done]. destruct H as [->|He]; [by left|right; by exists e].
Qed.
End ReadFrom.

(** C25: transfers.  For a reader that keeps the contract of [io.Reader], [ReadFrom]
    asks for at least [MinRead] bytes each time, appends all the bytes the
    reader delivers up to its first error and reports how many, with that error unless
    it is [io.EOF].  It panics only with [ErrTooLarge], and then the buffer it had
    filled with the bytes delivered so far cannot grow: the capacity it needs does not
    fit in an [int] or the allocator refused it.  It goes on only while the reader
    returns no error, so it ends for every reader that returns one in the end, whatever
    it is asked for.  A reader that counts less than nothing makes it panic, with
    [errNegativeRead] unless the buffer cannot grow.  [WriteTo] hands the unread bytes to
    the writer, drops those the writer takes and reports how many, with the writer's
    error or [io.ErrShortWrite]; it panics when the writer claims more than it was given. *)
Theorem buffer_transfers (make_ok : Z -> bool) (append_cap : Z -> Z -> Z) {R : Type}
    (read : R -> Z -> list Z * Z * option error * R) (write : list Z -> Z * option error) (r : R) (b : Buffer) :
  (forall c n, n <= append_cap c n) -> valid b ->
  (Reader read ->
   (forall fuel,
      match ReadFrom make_ok append_cap read fuel r b with
      | Done (res, b') =>
          exists l e, delivers read r l e /\ res = (zlen l, end_error e) /\ valid b' /\ contents b' = contents b ++ l
      | Panic e =>
          exists ks l r' b', goes_on read r ks l r' /\ rounds make_ok append_cap read (0, r) (unread_invalid b) (zlen l, r') b' /\
            valid b' /\ contents b' = contents b ++ l /\ too_large make_ok (bcap b') MinRead e
      | NoFuel => exists ks l r', length ks = fuel /\ goes_on read r ks l r'
      end) /\
   (stops read r -> exists n, forall fuel, (n <= fuel)%nat -> ReadFrom make_ok append_cap read fuel r b <> NoFuel)) /\
  ((forall k, (read r k).1.1.2 < 0) -> forall fuel,
     ReadFrom make_ok append_cap read (S fuel) r b = Panic errNegativeRead \/
     exists e, ReadFrom make_ok append_cap read (S fuel) r b = Panic e /\ too_large make_ok (bcap b) MinRead e) /\
  (Writer write ->
   exists m b', 0 <= m <= zlen (contents b) /\ valid b' /\ contents b' = drop (Z.to_nat m) (contents b) /\
     (contents b = [] -> WriteTo write b = Done (0, None, b')) /\
     (contents b <> [] -> m = (write (contents b)).1 /\
        WriteTo write b = Done (m, match (write (contents b)).2 with
                                   | Some e => Some e
                                   | None => if m =? zlen (contents b) then None else Some ErrShortWrite
                                   end, b'))) /\
  (contents b <> [] -> zlen (contents b) < (write (contents b)).1 -> WriteTo write b = Panic invalid_Write_count).
Proof.
  intros Ha Hv. destruct (valid_holds b Hv) as (p & t & Hh). pose proof (holds_lastRead _ _ _ _ opInvalid Hh) as Hh1.
  set (s := contents b) in *. split_and!.
  - intros Hr. split.
    + intros fuel. exact (ReadFrom_loop make_ok append_cap Ha read fuel 0 r (unread_invalid b) p s t Hh1).
    + intros Hs. exact (ReadFrom_ends make_ok append_cap Ha read r Hs 0 (unread_invalid b) p s t Hh1).
  - intros Hr fuel. by apply (ReadFrom_negative make_ok append_cap Ha read fuel r b p s t).
  - intros Hw. pose proof (WriteTo_spec write b p s t Hh) as H0. apply wp_elim in H0 as (res & b' & E & H0).
    destruct (decide (s = [])) as [Es|Es].
    + destruct H0 as [-> (p' & t' & Hh')]. exists 0, b'. rewrite Es in *. change (zlen (@nil Z)) with 0 in *.
      split_and!; [lia..|by eapply holds_valid|by eapply holds_contents|by intros _|done].
    + pose proof (write_ok s) as Hm. destruct (write s) as [m e]. cbn [fst snd] in *. destruct H0 as [-> (p' & t' & Hh')].
      exists m, b'. split_and!; [lia..|by eapply holds_valid|by eapply holds_contents|done|by split].
  - intros Hs Hm. unfold WriteTo, mbind, set_lastRead, mmodify, Len, mgets, mget, slice_of. cbn [blen off array].
    assert (blen b - off b = zlen s) as -> by (rewrite (holds_len _ _ _ _ Hh), (holds_off _ _ _ _ Hh); lia).
    assert (0 < zlen s) by (destruct s as [|? l]; [done|]; rewrite zlen_cons; pose proof (zlen_nonneg l); lia).
    pose proof (holds_valid _ _ _ _ Hh) as (H1 & _). destruct (Z.gtb_spec (zlen s) 0); [|lia]. cbn [blen off array].
    destruct (Z.leb_spec 0 (off b)); [|lia]. destruct (Z.leb_spec (off b) (blen b)); [|lia]. rewrite Z.leb_refl. cbn [andb mret].
    change (sub (off b) (blen b) (array b)) with s. destruct (write s) as [m e]. cbn [fst] in Hm. by destruct (Z.gtb_spec m (zlen s)); [|lia].
Qed.

(** A reader of a list of bytes, and a writer that takes two at most. *)
Definition list_read (l : list Z) (k : Z) : list Z * Z * option error * list Z :=
  (take (Z.to_nat k) l, Z.min k (zlen l), if decide (l = []) then Some EOF else None, drop (Z.to_nat k) l).
#[local] Instance list_reader : Reader list_read.
Proof. intros l k Hk. cbn. pose proof (zlen_nonneg l). rewrite zlen_take_min by lia. lia. Qed.
Lemma list_stops l : stops list_read l.
Proof.
  induction l as [l IH] using (induction_ltof1 _ (@length Z)). constructor. intros k data m r' Hk. unfold list_read. case_decide as E; [done|].
  intros [= _ _ <-]. apply IH. unfold ltof, MinRead in *. rewrite length_drop. destruct l; [done|cbn; lia].
Qed.
Definition two_writer (l : list Z) : Z * option error := (Z.min 2 (zlen l), None).

Lemma buffer_transfers_witness :
  (exists b', ReadFrom (fun _ => true) (fun _ n => n) list_read 4 [7; 8; 9] (NewBufferString [1; 2]) = Done ((3, None), b') /\
     valid b' /\ contents b' = [1; 2; 7; 8; 9]) /\
  (exists n, forall fuel, (n <= fuel)%nat ->
     ReadFrom (fun _ => true) (fun _ n => n) list_read fuel [7; 8; 9] (NewBufferString [1; 2]) <> NoFuel) /\
  exists b', WriteTo two_writer (NewBufferString [1; 2; 3]) = Done (2, Some ErrShortWrite, b') /\ contents b' = [3].
Proof.
  destruct (buffer_transfers (fun _ => true) (fun _ n => n) list_read two_writer [7; 8; 9] (NewBufferString [1; 2])) as (H & _); [lia|by vm_compute|].
  destruct (H list_reader) as [H1 H2]. split; [|split; [exact (H2 (list_stops _))|]].
  - specialize (H1 4%nat). destruct (ReadFrom _ _ _ _ _ _) as [[res b']|e|] eqn:E.
    + destruct H1 as (l & e & _ & _ & Hv & _). exists b'. assert (res = (3, None) /\ contents b' = [1; 2; 7; 8; 9]) as [-> Hc].
      { vm_compute in E. injection E as <- <-. by vm_compute. }
      split; [reflexivity|]. split; [exact Hv|exact Hc].
    + vm_compute in E. discriminate E.
    + vm_compute in E. discriminate E.
  - destruct (buffer_transfers (fun _ => true) (fun _ n => n) list_read two_writer [7; 8; 9] (NewBufferString [1; 2; 3])) as (_ & _ & Hw & _); [lia|by vm_compute|].
    destruct Hw as (m & b' & _ & _ & Hc & _ & H'). { intros l. unfold two_writer. cbn. pose proof (zlen_nonneg l). lia. }
    destruct H' as [Hm Hw]; [done|]. exists b'. rewrite Hc, Hw. by rewrite Hm.
Defined.
