(* ===== verification/Varint.v ===== *)
(** * encoding/binary: varints

    [src/src/encoding/binary/varint.go].  The buffer of [PutUvarint] is the
    store; the loops that run over the bits of the number have fuel for the ten
    bytes of a 64-bit number. *)

From S2P Require Import Prelude.
From S2P Require Import Slice.
From S2P Require Import Bits.
From S2P Require Import Buffer.

Definition MaxVarintLen16 : Z := 3.
Definition MaxVarintLen32 : Z := 5.
Definition MaxVarintLen64 : Z := 10.

Fixpoint append_rounds (fuel : nat) (buf : list Z) (x : Z) : option (list Z) :=
  if x >=? 0x80 then
    match fuel with
    | O => None
    | S fuel => append_rounds fuel (buf ++ [u8 x .| 0x80]) (x >> 7)
    end
  else Some (buf ++ [u8 x]).
Definition AppendUvarint (buf : list Z) (x : Z) : option (list Z) := append_rounds 9 buf x.

Definition PutUvarint (x : Z) : M (list Z) Z :=
  loop 10 (fun '(i, x) =>
    if x >=? 0x80 then
      store i (u8 x .| 0x80) ;;
      continue (i + 1, x >> 7)
    else
      store i (u8 x) ;;
      break (i + 1)) (0, x).

(** The loop of [Uvarint] from the index [i] on. *)
Fixpoint uvarint_from (buf : list Z) (i x s : Z) : Z * Z :=
  match buf with
  | [] => (0, 0)
  | b :: buf =>
      if i =? MaxVarintLen64 then (0, - (i + 1))
      else if b <? 0x80 then
        if (i =? MaxVarintLen64 - 1) && (b >? 1) then (0, - (i + 1))
        else (x .| u64 (b << s), i + 1)
      else uvarint_from buf (i + 1) (x .| u64 ((b .& 0x7f) << s)) (s + 7)
  end.
Definition Uvarint (buf : list Z) : Z * Z := uvarint_from buf 0 0 0.

Definition zigzag (x : Z) : Z :=
  let ux := u64 (u64 x << 1) in
  if x <? 0 then not64 ux else ux.
Definition AppendVarint (buf : list Z) (x : Z) : option (list Z) := AppendUvarint buf (zigzag x).
Definition PutVarint (x : Z) : M (list Z) Z := PutUvarint (zigzag x).

Definition unzigzag (ux : Z) : Z :=
  let x := int64 (ux >> 1) in
  if negb (ux .& 1 =? 0) then Z.lnot x else x.
Definition Varint (buf : list Z) : Z * Z :=
  let '(ux, n) := Uvarint buf in (unzigzag ux, n).

(** Errors of other packages. *)
Definition errOverflow : error := Foreign 1.
Definition ErrUnexpectedEOF : error := Foreign 2.

(** [r.ReadByte], a method of the reader the store holds. *)
Section Reader.
Context {R : Type} (ReadByte : M R (Z * option error)).

(** The loop of [ReadUvarint]; [fuel] is the number of rounds left. *)
Fixpoint read_rounds (fuel : nat) (i x s : Z) : M R (Z * option error) :=
  match fuel with
  | O => mret (x, Some errOverflow)
  | S fuel =>
      '(b, err) <- ReadByte ;;
      match err with
      | Some err => mret (x, Some (if i >? 0 then match err with EOF => ErrUnexpectedEOF | _ => err end else err))
      | None =>
          if b <? 0x80 then
            if (i =? MaxVarintLen64 - 1) && (b >? 1) then mret (x, Some errOverflow)
            else mret (x .| u64 (b << s), None)
          else read_rounds fuel (i + 1) (x .| u64 ((b .& 0x7f) << s)) (s + 7)
      end
  end.
Definition ReadUvarint : M R (Z * option error) := read_rounds (Z.to_nat MaxVarintLen64) 0 0 0.
Definition ReadVarint : M R (Z * option error) :=
  '(ux, err) <- ReadUvarint ;; mret (unzigzag ux, err).
End Reader.

Example append_300 : AppendUvarint [7] 300 = Some [7; 0xAC; 0x02].
Proof. done. Qed.
Example uvarint_overflow : Uvarint [255; 255; 255; 255; 255; 255; 255; 255; 255; 2] = (0, -10).
Proof. done. Qed.
Example varint_negative : Varint [0x03; 9] = (-2, 1).
Proof. done. Qed.
