(* ===== verification/VarintTheorems.v ===== *)
(** * encoding/binary: varints are read back *)

From S2P Require Import Prelude.
From S2P Require Import Slice.
From S2P Require Import Bits.
From S2P Require Import Utf8Spec.
From S2P Require Import Utf8Text.
From S2P Require Import Buffer.
From S2P Require Import BufferSpec.
From S2P Require Import BufferOps.
From S2P Require Import Varint.

(** The base-128 numeral of [x], least significant digit first, with at most
    [fuel + 1] digits; all but the last have the bit 0x80. *)
Fixpoint leb128 (fuel : nat) (x : Z) : list Z :=
  if x <? 128 then [x]
  else match fuel with O => [x] | S fuel => (x mod 128 + 128) :: leb128 fuel (x / 128) end.
Definition uvarint (x : Z) : list Z := leb128 9 x.

(** A byte that announces another one. *)
Definition announces (c : Z) : Prop := 128 <= c < 256.

Lemma leb128_small f x : x < 128 -> leb128 f x = [x].
Proof. intros. destruct f; cbn; by destruct (Z.ltb_spec x 128); [|lia]. Qed.
Lemma leb128_big f x : 128 <= x -> leb128 (S f) x = (x mod 128 + 128) :: leb128 f (x / 128).
Proof. intros. cbn. by destruct (Z.ltb_spec x 128); [lia|]. Qed.
Lemma leb128_length f x : 1 <= zlen (leb128 f x) <= Z.of_nat f + 1.
Proof.
  revert x. induction f as [|f IH]; intros x; cbn [leb128]; destruct (x <? 128); try (change (zlen [x]) with 1; lia).
  rewrite zlen_cons. specialize (IH (x / 128)). lia.
Qed.
Lemma leb128_last f x : 0 <= x < 2 ^ (7 * (Z.of_nat f + 1)) ->
  exists l b, leb128 f x = l ++ [b] /\ Forall announces l /\ 0 <= b < 128.
Proof.
  revert x. induction f as [|f IH]; intros x Hx.
  - exists [], x. rewrite leb128_small by (cbn in Hx; lia). split; [done|]. split; [done|cbn in Hx; lia].
  - destruct (Z.lt_ge_cases x 128).
    + exists [], x. rewrite leb128_small by lia. split; [done|]. split; [done|lia].
    + rewrite leb128_big by lia. destruct (IH (x / 128)) as (l & b & -> & Hl & Hb).
      { replace (7 * (Z.of_nat (S f) + 1)) with (7 + 7 * (Z.of_nat f + 1)) in Hx by lia. rewrite Z.pow_add_r in Hx by lia.
        change (2 ^ 7) with 128 in Hx. split; [apply Z.div_pos; lia|]. apply Z.div_lt_upper_bound; lia. }
      exists ((x mod 128 + 128) :: l), b. split; [done|]. split; [|done]. constructor; [|done]. pose proof (Z.mod_pos_bound x 128). unfold announces. lia.
Qed.

(** ** One digit *)

Lemma digit_more x : u8 x .| 0x80 = x mod 128 + 128.
Proof.
  pose proof (u8_range x). assert (u8 x .| 0x80 = u8 x mod 128 + 128) as ->.
  { apply Z.eqb_eq. by apply (forall_below 256 (fun y => (y .| 0x80) =? y mod 128 + 128)); [vm_compute|]. }
  unfold u8. change (2 ^ 8) with 256. divlia.
Qed.
Lemma digit_bits x : 0 <= x -> (x mod 128 + 128) .& 0x7f = x mod 128.
Proof. intros. rewrite (land_low 7) by done. change (2 ^ 7) with 128. divlia. Qed.
Lemma shift7 x : x >> 7 = x / 128.
Proof. by rewrite Z.shiftr_div_pow2. Qed.

(** The digit [d] added at position [k]. *)
Lemma add_digit acc d k : 0 <= k -> 0 <= acc < 2 ^ k -> 0 <= d -> d * 2 ^ k < 2 ^ 64 -> acc .| u64 (d << k) = acc + d * 2 ^ k.
Proof.
  intros Hk Ha Hd H. rewrite Z.shiftl_mul_pow2 by done. pose proof (Z.pow_pos_nonneg 2 k).
  rewrite u64_id by nia. apply (lor_add' k); [done..|]. apply Z_mod_mult.
Qed.

(** ** Writing *)

Lemma append_rounds_leb f buf x :
  0 <= x < 2 ^ (7 * (Z.of_nat f + 1)) -> append_rounds f buf x = Some (buf ++ leb128 f x).
Proof.
  revert buf x. induction f as [|f IH]; intros buf x Hx; cbn [append_rounds]; destruct (Z.geb_spec x 0x80).
  - cbn in Hx. lia.
  - rewrite leb128_small by lia. by rewrite u8_id by lia.
  - rewrite digit_more, shift7, IH, leb128_big, <- app_assoc; [done|lia|].
    replace (7 * (Z.of_nat (S f) + 1)) with (7 + 7 * (Z.of_nat f + 1)) in Hx by lia. rewrite Z.pow_add_r in Hx by lia.
    change (2 ^ 7) with 128 in Hx. split; [apply Z.div_pos; lia|]. apply Z.div_lt_upper_bound; lia.
  - rewrite leb128_small by lia. by rewrite u8_id by lia.
Qed.

Lemma store_mid (pre l : list Z) v :
  store (zlen pre) v (pre ++ l) = match l with [] => Panic IndexOutOfRange | _ :: l => Done (tt, pre ++ v :: l) end.
Proof.
  pose proof (zlen_nonneg pre). unfold store. rewrite zlen_app. destruct (Z.leb_spec 0 (zlen pre)); [|lia].
  destruct l as [|y l]; [change (zlen (@nil Z)) with 0; by destruct (Z.ltb_spec (zlen pre) (zlen pre + 0)); [lia|]|].
  rewrite zlen_cons. pose proof (zlen_nonneg l). destruct (Z.ltb_spec (zlen pre) (zlen pre + (zlen l + 1))); [|lia].
  cbn [andb]. unfold upd, zlen. rewrite Nat2Z.id. replace (length pre) with (length pre + 0)%nat by lia. by rewrite insert_app_r.
Qed.
Lemma snoc_cons (pre : list Z) v l : pre ++ v :: l = (pre ++ [v]) ++ l.
Proof. by rewrite <- app_assoc. Qed.

Definition put_body : Z * Z -> M (list Z) ((Z * Z) + Z) := fun '(i, x) =>
  if x >=? 0x80 then store i (u8 x .| 0x80) ;; continue (i + 1, x >> 7) else store i (u8 x) ;; break (i + 1).

Lemma loop_S {S A B} n (body : A -> M S (A + B)) a s :
  loop (Datatypes.S n) body a s = (r <- body a ;; match r with inl a' => loop n body a' | inr b => mret b end) s.
Proof. done. Qed.
Lemma put_room (x y : Z) (l : list Z) : (zlen [x] <=? zlen (y :: l)) = true.
Proof. apply Z.leb_le. rewrite (zlen_cons y l). pose proof (zlen_nonneg l). change (zlen [x]) with 1. lia. Qed.

Lemma put_rounds f pre l x :
  0 <= x < 2 ^ (7 * (Z.of_nat f + 1)) ->
  loop (S f) put_body (zlen pre, x) (pre ++ l) =
    (if zlen (leb128 f x) <=? zlen l then Done (zlen pre + zlen (leb128 f x), pre ++ leb128 f x ++ drop (length (leb128 f x)) l)
     else Panic IndexOutOfRange).
Proof.
  revert pre l x. induction f as [|f IH]; intros pre l x Hx.
  all: rewrite loop_S; unfold mbind; cbn [put_body]; destruct (Z.geb_spec x 0x80).
  - cbn in Hx. lia.
  - unfold mbind. rewrite leb128_small, store_mid, u8_id by lia. destruct l as [|y l]; [done|]. by rewrite put_room.
  - rewrite leb128_big by lia. unfold mbind. rewrite store_mid, digit_more, shift7. destruct l as [|y l].
    { rewrite zlen_cons. pose proof (zlen_nonneg (leb128 f (x / 128))). change (zlen (@nil Z)) with 0.
      by destruct (Z.leb_spec (zlen (leb128 f (x / 128)) + 1) 0); [lia|]. }
    cbn [continue mret]. rewrite snoc_cons.
    replace (zlen pre + 1) with (zlen (pre ++ [x mod 128 + 128])) by (rewrite zlen_app; done).
    assert (Hx' : 0 <= x / 128 < 2 ^ (7 * (Z.of_nat f + 1))).
    { replace (7 * (Z.of_nat (S f) + 1)) with (7 + 7 * (Z.of_nat f + 1)) in Hx by lia. rewrite Z.pow_add_r in Hx by lia.
      change (2 ^ 7) with 128 in Hx. split; [apply Z.div_pos; lia|]. apply Z.div_lt_upper_bound; lia. }
    rewrite (IH (pre ++ [x mod 128 + 128]) l (x / 128) Hx').
    rewrite !zlen_cons. destruct (Z.leb_spec (zlen (leb128 f (x / 128))) (zlen l)), (Z.leb_spec (zlen (leb128 f (x / 128)) + 1) (zlen l + 1)); try lia; [|done].
    cbn [Datatypes.length drop]. rewrite <- app_assoc, zlen_app. change (zlen [x mod 128 + 128]) with 1. do 2 f_equal. lia.
  - unfold mbind. rewrite leb128_small, store_mid, u8_id by lia. destruct l as [|y l]; [done|]. by rewrite put_room.
Qed.

(** ** Reading *)

(** The bounds along the digits: [i] of them are read. *)
Definition fits (i x acc : Z) : Prop := 0 <= i <= 9 /\ 0 <= x < 2 ^ (64 - 7 * i) /\ 0 <= acc < 2 ^ (7 * i).

Lemma pow_split i : 0 <= i <= 9 -> 2 ^ (64 - 7 * i) * 2 ^ (7 * i) = 2 ^ 64.
Proof. intros. rewrite <- Z.pow_add_r by lia. f_equal. lia. Qed.

(** The last digit. *)
Lemma fits_last i x acc :
  fits i x acc -> x < 128 ->
  (x <? 0x80) = true /\ (i =? MaxVarintLen64 - 1) && (x >? 1) = false /\ acc .| u64 (x << (7 * i)) = acc + x * 2 ^ (7 * i).
Proof.
  intros (Hi & Hx & Ha) H. split_and!; [by apply Z.ltb_lt| |].
  - apply andb_false_iff. destruct (Z.eqb_spec i (MaxVarintLen64 - 1)) as [->|]; [right|by left].
    rewrite Z.gtb_ltb. apply Z.ltb_ge. unfold MaxVarintLen64 in Hx. change (2 ^ (64 - 7 * (10 - 1))) with 2 in Hx. lia.
  - apply add_digit; [lia..|]. rewrite <- (pow_split i) by lia. apply Z.mul_lt_mono_pos_r; lia.
Qed.

(** One of the other digits. *)
Lemma fits_next i x acc :
  fits i x acc -> 128 <= x ->
  (x mod 128 + 128 <? 0x80) = false /\
  acc .| u64 (((x mod 128 + 128) .& 0x7f) << (7 * i)) = acc + (x mod 128) * 2 ^ (7 * i) /\
  fits (i + 1) (x / 128) (acc + (x mod 128) * 2 ^ (7 * i)) /\
  acc + x mod 128 * 2 ^ (7 * i) + x / 128 * 2 ^ (7 * (i + 1)) = acc + x * 2 ^ (7 * i).
Proof.
  intros (Hi & Hx & Ha) H. pose proof (Z.mod_pos_bound x 128). pose proof (Z.div_mod x 128). pose proof (Z.pow_pos_nonneg 2 (7 * i)).
  assert (Hi8 : i <= 8). { destruct (decide (i = 9)) as [->|]; [|lia]. change (2 ^ (64 - 7 * 9)) with 2 in Hx. lia. }
  assert (Hp1 : 2 ^ (7 * (i + 1)) = 128 * 2 ^ (7 * i)) by (rewrite <- (Z.pow_add_r 2 7) by lia; f_equal; lia).
  assert (Hp2 : 2 ^ (64 - 7 * i) = 128 * 2 ^ (64 - 7 * (i + 1))) by (rewrite <- (Z.pow_add_r 2 7) by lia; f_equal; lia).
  split; [apply Z.ltb_ge; lia|]. split; [|split; [|nia]].
  - rewrite digit_bits by lia. apply add_digit; [lia..|]. rewrite <- (pow_split i) by lia. apply Z.mul_lt_mono_pos_r; lia.
  - split; [lia|]. split; [split; [apply Z.div_pos; lia|apply Z.div_lt_upper_bound; lia]|nia].
Qed.

Lemma uvarint_leb f x rest i acc :
  fits i x acc -> Z.of_nat f = 9 - i ->
  uvarint_from (leb128 f x ++ rest) i acc (7 * i) = (acc + x * 2 ^ (7 * i), i + zlen (leb128 f x)).
Proof.
  revert x i acc. induction f as [|f IH]; intros x i acc Hf Hi; destruct (Z.lt_ge_cases x 128) as [Hx|Hx].
  2:{ exfalso. destruct Hf as (? & Hf & _). replace i with 9 in Hf by lia. change (2 ^ (64 - 7 * 9)) with 2 in Hf. lia. }
  1,2: destruct (fits_last _ _ _ Hf Hx) as (E1 & E2 & E3); rewrite leb128_small by lia; cbn [app uvarint_from];
    rewrite E1, E2, E3; destruct (Z.eqb_spec i MaxVarintLen64); [unfold MaxVarintLen64 in *; lia|done].
  destruct (fits_next _ _ _ Hf Hx) as (E1 & E2 & Hf' & E3). rewrite leb128_big by lia. cbn [app uvarint_from]. rewrite E1, E2.
  destruct (Z.eqb_spec i MaxVarintLen64); [unfold MaxVarintLen64 in *; lia|].
  replace (7 * i + 7) with (7 * (i + 1)) by lia. rewrite IH by (done || lia). rewrite E3, zlen_cons. f_equal. lia.
Qed.

(** A text in which every byte announces another one is too short. *)
Lemma uvarint_prefix l i acc s :
  Forall announces l -> i + zlen l <= 10 -> uvarint_from l i acc s = (0, 0).
Proof.
  intros Hl. revert i acc s. induction Hl as [|c l Hc Hl IH]; intros i acc s H; [done|]. cbn [uvarint_from].
  rewrite zlen_cons in H. pose proof (zlen_nonneg l). destruct (Z.eqb_spec i MaxVarintLen64); [unfold MaxVarintLen64 in *; lia|].
  destruct (Z.ltb_spec c 0x80); [unfold announces in *; lia|]. apply IH. lia.
Qed.
(** Nine such bytes and one more: the tenth digit is 0 or 1. *)
Lemma uvarint_tenth l c rest i acc s :
  Forall announces l -> i + zlen l = 9 -> 1 < c -> (c < 128 \/ rest <> []) ->
  uvarint_from (l ++ c :: rest) i acc s = (0, if c <? 128 then -10 else -11).
Proof.
  intros Hl. revert i acc s. induction Hl as [|d l Hd Hl IH]; intros i acc s H Hc Hr; cbn [app uvarint_from].
  - change (zlen (@nil Z)) with 0 in H. replace i with 9 by lia. change (9 =? MaxVarintLen64) with false.
    change (9 =? MaxVarintLen64 - 1) with true. change 0x80 with 128. destruct (Z.ltb_spec c 128).
    + by destruct (Z.gtb_spec c 1); [|lia].
    + destruct rest as [|y rest]; [destruct Hr; [lia|done]|done].
  - rewrite zlen_cons in H. pose proof (zlen_nonneg l). destruct (Z.eqb_spec i MaxVarintLen64); [unfold MaxVarintLen64 in *; lia|].
    destruct (Z.ltb_spec d 0x80); [unfold announces in *; lia|]. apply IH; [lia|done..].
Qed.
(** The proper prefixes of an encoding. *)
Lemma uvarint_proper_prefix x l :
  is_u64 x -> l `prefix_of` uvarint x -> l <> uvarint x -> Forall announces l /\ zlen l <= 9.
Proof.
  intros Hx [k Hk] Hne. pose proof (leb128_length 9 x) as Hl. change (Z.of_nat 9 + 1) with 10 in Hl.
  destruct (leb128_last 9 x) as (l0 & b & E & Hl0 & _); [unfold is_u64 in *; cbn; lia|]. unfold uvarint in *. rewrite E in Hk.
  destruct k as [|c k _] using rev_ind; [by rewrite app_nil_r in Hk; rewrite E, Hk in Hne|].
  rewrite app_assoc in Hk. apply app_inj_2 in Hk as [-> _]; [|done]. apply Forall_app in Hl0 as [Hl0 _]. split; [done|].
  rewrite E, !zlen_app in Hl. pose proof (zlen_nonneg k). change (zlen [b]) with 1 in Hl. lia.
Qed.

Lemma ReadByte_next b p c s t {A} (k : Z * option error -> M Buffer A) (Q : A -> Buffer -> Prop) :
  holds b p (c :: s) t -> (forall b', holds b' (p ++ [c]) s t -> wp (k (c, None)) Q b') -> wp (mbind ReadByte k) Q b.
Proof.
  intros Hh Hk. unfold ReadByte. apply wp_bind. apply (wp_empty b p (c :: s) t); [done|done|]. intros _.
  eapply wp_call; [by apply (wp_first_byte b p c s t)|]. intros r b' [-> ->]. unfold set_off, set_lastRead. wp_steps. apply Hk.
  destruct Hh as [Ha Ho Hl Hn]. rewrite zlen_cons in Hl.
  split; cbn [array blen isnil off]; [by rewrite Ha, <- app_assoc|rewrite zlen_app, Ho; done|rewrite zlen_app; change (zlen [c]) with 1; lia|done].
Qed.

Lemma read_leb f x rest i acc b p t :
  fits i x acc -> Z.of_nat f = 9 - i -> holds b p (leb128 f x ++ rest) t ->
  wp (read_rounds ReadByte (S f) i acc (7 * i))
    (fun r b' => r = (acc + x * 2 ^ (7 * i), None) /\ exists p', holds b' p' rest t) b.
Proof.
  revert x i acc b p. induction f as [|f IH]; intros x i acc b p Hf Hi Hh; destruct (Z.lt_ge_cases x 128) as [Hx|Hx].
  2:{ exfalso. destruct Hf as (? & Hf & _). replace i with 9 in Hf by lia. change (2 ^ (64 - 7 * 9)) with 2 in Hf. lia. }
  1,2: destruct (fits_last _ _ _ Hf Hx) as (E1 & E2 & E3); rewrite leb128_small in Hh by lia; cbn [read_rounds];
    (eapply ReadByte_next; [exact Hh|]); intros b' Hh'; rewrite E1, E2, E3; apply wp_ret; split; [done|by eexists].
  destruct (fits_next _ _ _ Hf Hx) as (E1 & E2 & Hf' & E3). rewrite leb128_big in Hh by lia. cbn [read_rounds].
  eapply ReadByte_next; [exact Hh|]. intros b' Hh'. rewrite E1, E2. replace (7 * i + 7) with (7 * (i + 1)) by lia.
  eapply wp_mono; [apply (IH (x / 128) (i + 1) _ b' (p ++ [x mod 128 + 128]) Hf'); [lia|exact Hh']|]. cbn beta. by rewrite E3.
Qed.

(** Reading from a buffer that ends too early, and from one that goes on too long. *)
Definition end_of_text (n : Z) : error := if 0 <? n then ErrUnexpectedEOF else EOF.

Lemma end_of_text_nil (l : list Z) : end_of_text (zlen l) = if decide (l = []) then EOF else ErrUnexpectedEOF.
Proof.
  unfold end_of_text. destruct l as [|c l]; [done|]. rewrite decide_False by done. rewrite zlen_cons. pose proof (zlen_nonneg l).
  by destruct (Z.ltb_spec 0 (zlen l + 1)); [|lia].
Qed.

Lemma read_short f l i acc s b p t :
  Forall announces l -> 0 <= i -> Z.of_nat f = 10 - i -> i + zlen l <= 9 -> holds b p l t ->
  wp (read_rounds ReadByte f i acc s)
    (fun r b' => r.2 = Some (end_of_text (i + zlen l)) /\ exists p' t', holds b' p' [] t') b.
Proof.
  intros Hl. revert f i acc s b p. induction Hl as [|c l Hc Hl IH]; intros f i acc s b p Hi Hf Hn Hh.
  - change (zlen (@nil Z)) with 0 in *. destruct f as [|f]; [lia|]. cbn [read_rounds]. eapply wp_call; [by apply (ReadByte_spec b p [] t)|].
    intros r b' [-> [(p' & t' & Hh') _]]. apply wp_ret. split; [|by exists p', t']. unfold end_of_text. rewrite Z.add_0_r, Z.gtb_ltb. by destruct (0 <? i).
  - rewrite zlen_cons in *. pose proof (zlen_nonneg l). destruct f as [|f]; [lia|]. cbn [read_rounds]. eapply ReadByte_next; [exact Hh|].
    intros b' Hh'. destruct (Z.ltb_spec c 0x80); [unfold announces in *; lia|]. replace (i + (zlen l + 1)) with (i + 1 + zlen l) by lia.
    eapply IH; [lia|lia|lia|exact Hh'].
Qed.
Lemma read_long f l c rest i acc s b p t :
  Forall announces l -> 0 <= i -> Z.of_nat f = 10 - i -> i + zlen l = 9 -> 1 < c -> holds b p (l ++ c :: rest) t ->
  wp (read_rounds ReadByte f i acc s) (fun r b' => r.2 = Some errOverflow /\ exists p', holds b' p' rest t) b.
Proof.
  intros Hl. revert f i acc s b p. induction Hl as [|d l Hd Hl IH]; intros f i acc s b p Hi Hf Hn Hc Hh.
  - change (zlen (@nil Z)) with 0 in *. replace i with 9 in * by lia. assert (f = 1%nat) as -> by lia. cbn [read_rounds].
    eapply ReadByte_next; [exact Hh|]. intros b' Hh'. change (9 =? MaxVarintLen64 - 1) with true.
    destruct (c <? 0x80); [|apply wp_ret; by split; [|eexists]]. destruct (Z.gtb_spec c 1); [|lia]. apply wp_ret. by split; [|eexists].
  - rewrite zlen_cons in *. pose proof (zlen_nonneg l). destruct f as [|f]; [lia|]. cbn [read_rounds]. eapply ReadByte_next; [exact Hh|].
    intros b' Hh'. destruct (Z.ltb_spec d 0x80); [unfold announces in *; lia|]. eapply IH; [lia|lia|lia|done|exact Hh'].
Qed.

Lemma ReadUvarint_short l b :
  Forall announces l -> zlen l <= 9 -> valid b -> contents b = l ->
  exists v b', ReadUvarint ReadByte b = Done (v, Some (end_of_text (zlen l)), b') /\ contents b' = [].
Proof.
  intros Hl Hn Hv Hc. destruct (valid_holds b Hv) as (p & t & Hh). rewrite Hc in Hh.
  destruct (wp_elim _ _ _ (read_short 10 l 0 0 0 b p t Hl ltac:(lia) eq_refl ltac:(lia) Hh)) as ([v e] & b' & E & He & p' & t' & Hh').
  cbn in He. subst e. exists v, b'. split; [exact E|by eapply holds_contents].
Qed.
Lemma ReadUvarint_long l c rest b :
  Forall announces l -> zlen l = 9 -> 1 < c -> valid b -> contents b = l ++ c :: rest ->
  exists v b', ReadUvarint ReadByte b = Done (v, Some errOverflow, b') /\ contents b' = rest.
Proof.
  intros Hl Hn H1 Hv Hc. destruct (valid_holds b Hv) as (p & t & Hh). rewrite Hc in Hh.
  destruct (wp_elim _ _ _ (read_long 10 l c rest 0 0 0 b p t Hl ltac:(lia) eq_refl ltac:(lia) H1 Hh)) as ([v e] & b' & E & He & p' & Hh').
  cbn in He. subst e. exists v, b'. split; [exact E|by eapply holds_contents].
Qed.

Lemma fits_first x : is_u64 x -> fits 0 x 0.
Proof. unfold is_u64, fits. change (2 ^ (7 * 0)) with 1. change (64 - 7 * 0) with 64. lia. Qed.

Lemma ReadUvarint_spec x rest b :
  is_u64 x -> valid b -> contents b = uvarint x ++ rest ->
  exists b', ReadUvarint ReadByte b = Done (x, None, b') /\ valid b' /\ contents b' = rest.
Proof.
  intros Hx Hv Hc. destruct (valid_holds b Hv) as (p & t & Hh). rewrite Hc in Hh.
  destruct (wp_elim _ _ _ (read_leb 9 x rest 0 0 b p t (fits_first x Hx) eq_refl Hh)) as (r & b' & E & -> & p' & Hh').
  exists b'. split; [|split; [by eapply holds_valid|by eapply holds_contents]].
  unfold ReadUvarint. change (Z.to_nat MaxVarintLen64) with 10%nat. change (7 * 0) with 0 in E. rewrite E. do 3 f_equal. change (2 ^ 0) with 1. lia.
Qed.

(** ** Signed numbers *)

Lemma zigzag_value x : is_int64 x -> zigzag x = (if x <? 0 then -2 * x - 1 else 2 * x) /\ is_u64 (zigzag x).
Proof.
  unfold is_int64, is_u64, zigzag, not64. intros Hx. rewrite Z.shiftl_mul_pow2 by lia. change (2 ^ 1) with 2.
  destruct (Z.ltb_spec x 0).
  - assert (u64 (u64 x * 2) = 2 * x + 2 ^ 64) as -> by (unfold u64; divlia). unfold Z.lnot, Z.pred.
    assert (u64 (- (2 * x + 2 ^ 64) + -1) = -2 * x - 1) as -> by (unfold u64; divlia). lia.
  - rewrite (u64_id x) by lia. rewrite u64_id by lia. lia.
Qed.
Lemma unzigzag_zigzag x : is_int64 x -> unzigzag (zigzag x) = x.
Proof.
  intros Hx. destruct (zigzag_value x Hx) as [-> _]. unfold is_int64 in Hx. unfold unzigzag.
  rewrite Z.shiftr_div_pow2 by lia. rewrite (land_low 1) by done. change (2 ^ 1) with 2. destruct (Z.ltb_spec x 0).
  - assert ((-2 * x - 1) mod 2 = 1) as -> by divlia. assert ((-2 * x - 1) / 2 = - x - 1) as -> by divlia.
    rewrite int64_id by lia. cbn [negb Z.eqb]. unfold Z.lnot. lia.
  - assert ((2 * x) mod 2 = 0) as -> by divlia. assert ((2 * x) / 2 = x) as -> by divlia. rewrite int64_id by lia. done.
Qed.

(** C26: varints are read back.  The encoding of a 64-bit number is its base-128
    numeral, of at most ten bytes.  [AppendUvarint] appends it and [PutUvarint]
    writes it over the start of a buffer, or panics when the buffer is too short.
    [Uvarint] reads the number and the length of its encoding from every text that
    starts with it, and [(0, 0)] from every proper prefix of it; [ReadUvarint] reads
    it from a [bytes.Buffer] and leaves the rest, and on a proper prefix returns
    [io.ErrUnexpectedEOF], or [io.EOF] when there was no byte at all.  [AppendVarint], [PutVarint], [Varint]
    and [ReadVarint] do the same with signed numbers, encoded as their zigzag.  A text that
    goes on after ten bytes, or whose tenth byte is more than 1, is an overflow for [Uvarint],
    with the bytes read counted in the negative, and for [ReadUvarint]. *)
Theorem varint_roundtrip (x : Z) (buf rest : list Z) :
  is_u64 x ->
  1 <= zlen (uvarint x) <= 10 /\
  AppendUvarint buf x = Some (buf ++ uvarint x) /\
  PutUvarint x buf = (if zlen (uvarint x) <=? zlen buf then Done (zlen (uvarint x), uvarint x ++ drop (length (uvarint x)) buf)
                      else Panic IndexOutOfRange) /\
  Uvarint (uvarint x ++ rest) = (x, zlen (uvarint x)) /\
  (forall b, valid b -> contents b = uvarint x ++ rest ->
     exists b', ReadUvarint ReadByte b = Done (x, None, b') /\ valid b' /\ contents b' = rest) /\
  (forall l, l `prefix_of` uvarint x -> l <> uvarint x ->
     Uvarint l = (0, 0) /\
     (forall b, valid b -> contents b = l ->
        exists v b', ReadUvarint ReadByte b = Done (v, Some (if decide (l = []) then EOF else ErrUnexpectedEOF), b') /\ contents b' = [])) /\
  (forall i, is_int64 i ->
     AppendVarint buf i = Some (buf ++ uvarint (zigzag i)) /\
     PutVarint i buf = (if zlen (uvarint (zigzag i)) <=? zlen buf
                        then Done (zlen (uvarint (zigzag i)), uvarint (zigzag i) ++ drop (length (uvarint (zigzag i))) buf)
                        else Panic IndexOutOfRange) /\
     Varint (uvarint (zigzag i) ++ rest) = (i, zlen (uvarint (zigzag i))) /\
     (forall b, valid b -> contents b = uvarint (zigzag i) ++ rest -> exists b', ReadVarint ReadByte b = Done (i, None, b') /\ contents b' = rest) /\
     (forall l, l `prefix_of` uvarint (zigzag i) -> l <> uvarint (zigzag i) ->
        Varint l = (0, 0) /\
        (forall b, valid b -> contents b = l ->
           exists v b', ReadVarint ReadByte b = Done (v, Some (if decide (l = []) then EOF else ErrUnexpectedEOF), b') /\ contents b' = []))) /\
  (forall l c, Forall announces l -> zlen l = 9 -> 1 < c ->
     (c < 128 \/ rest <> [] -> Uvarint (l ++ c :: rest) = (0, if c <? 128 then -10 else -11)) /\
     (forall b, valid b -> contents b = l ++ c :: rest ->
        exists v b', ReadUvarint ReadByte b = Done (v, Some errOverflow, b') /\ contents b' = rest)).
Proof.
  intros Hx. assert (Hx70 : forall y, is_u64 y -> 0 <= y < 2 ^ (7 * (Z.of_nat 9 + 1))) by (unfold is_u64; cbn; lia).
  assert (Hun : forall y, is_u64 y -> Uvarint (uvarint y ++ rest) = (y, zlen (uvarint y))).
  { intros y Hy. unfold Uvarint, uvarint. change 0 with (7 * 0) at 3. rewrite (uvarint_leb 9 y rest 0 0) by (done || by apply fits_first).
    change (2 ^ (7 * 0)) with 1. f_equal; lia. }
  assert (Hput : forall y, is_u64 y -> PutUvarint y buf =
    (if zlen (uvarint y) <=? zlen buf then Done (zlen (uvarint y), uvarint y ++ drop (length (uvarint y)) buf) else Panic IndexOutOfRange)).
  { intros y Hy. apply (put_rounds 9 [] buf y), Hx70, Hy. }
  assert (Hshort : forall y l, is_u64 y -> l `prefix_of` uvarint y -> l <> uvarint y -> Uvarint l = (0, 0) /\
    (forall b, valid b -> contents b = l ->
       exists v b', ReadUvarint ReadByte b = Done (v, Some (if decide (l = []) then EOF else ErrUnexpectedEOF), b') /\ contents b' = [])).
  { intros y l Hy Hp Hne. destruct (uvarint_proper_prefix y l Hy Hp Hne) as [Hl Hn]. split; [apply uvarint_prefix; [done|lia]|]. intros b Hv Hc.
    destruct (ReadUvarint_short l b Hl Hn Hv Hc) as (v & b' & E & H). exists v, b'. rewrite <- end_of_text_nil. by split. }
  split_and!; [apply leb128_length|apply leb128_length|by apply append_rounds_leb, Hx70|by apply Hput|by apply Hun| |intros l; by apply Hshort| |].
  - intros b. by apply ReadUvarint_spec.
  - intros i Hi. destruct (zigzag_value i Hi) as [_ Hz].
    split_and!; [by apply append_rounds_leb, Hx70|by apply Hput|unfold Varint; by rewrite Hun, unzigzag_zigzag| |].
    + intros b Hv Hc. destruct (ReadUvarint_spec _ rest b Hz Hv Hc) as (b' & E & _ & Hb'). exists b'. split; [|done].
      unfold ReadVarint, mbind. rewrite E. by rewrite unzigzag_zigzag.
    + intros l Hp Hne. destruct (Hshort _ l Hz Hp Hne) as [E H]. split; [unfold Varint; by rewrite E|]. intros b Hv Hc.
      destruct (H b Hv Hc) as (v & b' & E' & Hb'). exists (unzigzag v), b'. split; [|done]. unfold ReadVarint, mbind. by rewrite E'.
  - intros l c Hl Hn Hc. split; [intros Hr; apply uvarint_tenth; [done|lia|done|done]|]. intros b Hv E. by apply (ReadUvarint_long l c rest b).
Qed.
Lemma varint_roundtrip_witness :
  AppendUvarint [7] 300 = Some [7; 0xAC; 0x02] /\
  (exists b', ReadUvarint ReadByte (NewBufferString [0xAC; 0x02; 5]) = Done (300, None, b') /\ valid b' /\ contents b' = [5]) /\
  (exists v b', ReadUvarint ReadByte (NewBufferString [0xAC]) = Done (v, Some ErrUnexpectedEOF, b') /\ contents b' = []) /\
  Uvarint ([255; 255; 255; 255; 255; 255; 255; 255; 255] ++ [2; 5]) = (0, -10).
Proof.
  destruct (varint_roundtrip 300 [7] [5]) as (_ & H1 & _ & _ & H2 & H3 & _ & H4).
  - unfold is_u64. lia.
  - split; [exact H1|]. split; [apply H2; by vm_compute|]. split.
    + destruct (H3 [0xAC]) as [_ H]; [exists [0x02]; by vm_compute|done|]. apply H; by vm_compute.
    + apply H4; [repeat constructor; lia|done|lia|left; lia].
Defined.
