(* ===== verification/Heap.v ===== *)
(** * container/heap

    [src/src/container/heap/heap.go].  The functions work on any type with the
    methods of [heap.Interface]: the class [HeapInterface] has the methods and
    [HeapLaws] what the documentation of [sort.Interface] and [heap.Interface] asks
    of them.  The loops have the fuel of the indices they can pass. *)

From S2P Require Import Prelude.
From S2P Require Import Slice.
From S2P Require Import Pdqsort.
From S2P Require Import SortOrder.

Class HeapInterface (H A : Type) : Type := {
  Len : M H Z;
  Less : Z -> Z -> M H bool;
  Swap : Z -> Z -> M H unit;
  h_Push : A -> M H unit;
  h_Pop : M H A }.

Section Heap.
Context {H A : Type} {HI : HeapInterface H A}.

Definition up (j : Z) : M H unit :=
  loop (S (Z.to_nat j)) (fun j =>
    let i := quot (j - 1) 2 in
    stop <- (if i =? j then mret true else lt <- Less j i ;; mret (negb lt)) ;;
    if (stop : bool) then break tt
    else
      Swap i j ;;
      continue i) j.

Definition down (i0 n : Z) : M H bool :=
  i <- loop (S (Z.to_nat n)) (fun i =>
    let j1 := int64 (2 * i + 1) in
    if (j1 >=? n) || (j1 <? 0) then break i
    else
      let j2 := j1 + 1 in
      right <- (if j2 <? n then Less j2 j1 else mret false) ;;
      let j := if (right : bool) then j2 else j1 in
      lt <- Less j i ;;
      if negb lt then break i
      else
        Swap i j ;;
        continue j) i0 ;;
  mret (i >? i0).

Definition Init : M H unit :=
  n <- Len ;;
  loop (S (Z.to_nat n)) (fun i =>
    if i >=? 0 then
      down i n ;;
      continue (i - 1)
    else break tt) (quot n 2 - 1).

Definition Push (x : A) : M H unit :=
  h_Push x ;;
  n <- Len ;;
  up (n - 1).

Definition Pop : M H A :=
  n <- Len ;;
  let n := n - 1 in
  Swap 0 n ;;
  down 0 n ;;
  h_Pop.

Definition Remove (i : Z) : M H A :=
  n <- Len ;;
  let n := n - 1 in
  (if negb (n =? i) then
     Swap i n ;;
     moved <- down i n ;;
     if negb moved then up i else mret tt
   else mret tt) ;;
  h_Pop.

Definition Fix (i : Z) : M H unit :=
  n <- Len ;;
  moved <- down i n ;;
  if negb moved then up i else mret tt.
End Heap.

(** ** The contract of the methods *)

(** [elems h] are the elements of [h] from index 0 on. *)
Class HeapLaws {H A} (HI : HeapInterface H A) (elems : H -> list A) (less : A -> A -> bool) : Prop := {
  len_ok h : wp Len (fun n h' => n = zlen (elems h) /\ elems h' = elems h) h;
  less_ok h i j x y : at_ (elems h) i = Some x -> at_ (elems h) j = Some y ->
    wp (Less i j) (fun b h' => b = less x y /\ elems h' = elems h) h;
  swap_ok h i j : 0 <= i < zlen (elems h) -> 0 <= j < zlen (elems h) ->
    wp (Swap i j) (fun _ h' => elems h' = swapped (elems h) i j) h;
  push_ok h x : wp (h_Push x) (fun _ h' => elems h' = elems h ++ [x]) h;
  pop_ok h l x : elems h = l ++ [x] -> wp h_Pop (fun r h' => r = x /\ elems h' = l) h }.

(** The slice of the package documentation's example. *)
Section ListHeap.
Context {A : Type} (less : A -> A -> bool).

#[local] Instance list_heap : HeapInterface (list A) A := {
  Len := mgets zlen;
  Less i j := x <- load i ;; y <- load j ;; mret (less x y);
  Swap := swap;
  h_Push x := mmodify (fun l => l ++ [x]);
  h_Pop :=
    n <- mgets zlen ;;
    x <- load (n - 1) ;;
    mmodify (sub 0 (n - 1)) ;;
    mret x }.

Lemma list_heap_laws : HeapLaws list_heap (fun l => l) less.
Proof.
  split; cbn.
  - done.
  - intros h i j x y Hx Hy. pose proof (at_range _ _ _ Hx). pose proof (at_range _ _ _ Hy).
    apply wp_bind, wp_load; [done|]. intros x' Hx'. apply wp_bind, wp_load; [done|]. intros y' Hy'. apply wp_ret. by simplify_eq.
  - intros h i j Hi Hj. by apply wp_swap.
  - done.
  - intros h l x ->. pose proof (zlen_nonneg l). assert (Hl : zlen (l ++ [x]) - 1 = zlen l) by (rewrite zlen_app; change (zlen [x]) with 1; lia).
    apply wp_bind, wp_gets, wp_bind. rewrite Hl. apply wp_load; [rewrite zlen_app; change (zlen [x]) with 1; lia|].
    intros y Hy. apply wp_bind, wp_modify, wp_ret. rewrite at_app_r, Z.sub_diag in Hy by lia. injection Hy as <-. split; [done|].
    unfold sub, zlen. rewrite Nat2Z.id, Nat.sub_0_r, drop_0. apply take_app_length.
Qed.
End ListHeap.
