(* ===== verification/HeapTheorems.v ===== *)
(** * container/heap: the heap invariant

    Every operation keeps the heap ordered and holds the elements it should,
    for every implementation of the interface that satisfies [HeapLaws]. *)

From S2P Require Import Prelude.
From S2P Require Import Slice.
From S2P Require Import Bits.
From S2P Require Import Pdqsort.
From S2P Require Import SortOrder.
From S2P Require Import Text.
From S2P Require Import Heap.

Section Order.
Context {A : Type} (less : A -> A -> bool) {sw : StrictWeak less}.
Implicit Types (l : list A) (x y z : A) (i j c n lo : Z).

Definition par (c : Z) : Z := (c - 1) / 2.

(** The node [c] is not before its parent. *)
Definition edge c l : Prop := forall x y, at_ l c = Some x -> at_ l (par c) = Some y -> le less y x.
(** The first [n] elements are a heap below the nodes from [lo] on. *)
Definition heap lo n l : Prop := forall c, 0 < c < n -> lo <= par c -> edge c l.
(** The children of [i] are not before the parent of [i]. *)
Definition bridged lo n i l : Prop :=
  0 < i -> lo <= par i -> forall c x y, 0 < c < n -> par c = i -> at_ l c = Some x -> at_ l (par i) = Some y -> le less y x.
(** [down], started at [i0], is at [i]. *)
Definition sinking lo n i0 i l : Prop :=
  (forall c, 0 < c < n -> lo <= par c -> par c <> i -> (c <> i \/ i <> i0) -> edge c l) /\ bridged lo n i l.
(** [up] is at [j]. *)
Definition rising n j l : Prop := (forall c, 0 < c < n -> c <> j -> edge c l) /\ bridged 0 n j l.

Lemma child_index i c : par c = i <-> c = 2 * i + 1 \/ c = 2 * i + 2.
Proof. unfold par. divlia. Qed.
Lemma par_below c : 0 < c -> 0 <= par c < c.
Proof. unfold par. intros. divlia. Qed.

Lemma at_swapped_l l i j : 0 <= i < zlen l -> 0 <= j < zlen l -> at_ (swapped l i j) i = at_ l j.
Proof. intros. rewrite at_swapped by done. repeat case_decide; congruence. Qed.
Lemma at_swapped_r l i j : 0 <= i < zlen l -> 0 <= j < zlen l -> at_ (swapped l i j) j = at_ l i.
Proof. intros. rewrite at_swapped by done. repeat case_decide; congruence. Qed.
Lemma at_swapped_ne l i j k : 0 <= i < zlen l -> 0 <= j < zlen l -> k <> i -> k <> j -> at_ (swapped l i j) k = at_ l k.
Proof. intros. rewrite at_swapped by done. repeat case_decide; congruence. Qed.

(** One step down: the least child [c] of [i] comes before the element there. *)
Lemma sinking_step lo n i0 i c l x y :
  0 <= lo <= i -> n <= zlen l -> i0 <= i -> par c = i -> 0 < c < n ->
  at_ l i = Some x -> at_ l c = Some y -> less y x = true ->
  (forall d z, par d = i -> 0 < d < n -> at_ l d = Some z -> le less y z) ->
  sinking lo n i0 i l -> sinking lo n i0 c (swapped l i c).
Proof.
  intros Hlo Hn Hi0 Hp Hc Hx Hy Hlt Hmin [H1 H2]. pose proof (par_below c). assert (Hr : 0 <= i < zlen l) by lia. assert (Hrc : 0 <= c < zlen l) by lia.
  split.
  - intros d Hd Hld Hdc _ v w Hv Hw. pose proof (par_below d ltac:(lia)).
    destruct (decide (d = c)) as [->|Hne].
    { rewrite at_swapped_r in Hv by done. rewrite Hp, at_swapped_l in Hw by done. simplify_eq. by apply lt_le. }
    destruct (decide (d = i)) as [->|Hni].
    { rewrite at_swapped_l in Hv by done. rewrite at_swapped_ne in Hw by (done || lia).
      apply (H2 ltac:(lia) Hld c v w); done. }
    rewrite (at_swapped_ne l i c d) in Hv by done. destruct (decide (par d = i)) as [E|Hpd].
    { rewrite E, at_swapped_l in Hw by done. simplify_eq. by apply (Hmin d). }
    rewrite at_swapped_ne in Hw by done. apply (H1 d); [lia..|by left|done|done].
  - intros _ Hl d v w Hd Hpd Hv Hw. pose proof (par_below d ltac:(lia)).
    rewrite Hp, at_swapped_l in Hw by done. rewrite at_swapped_ne in Hv by lia. simplify_eq.
    apply (H1 d); [lia..|left; lia|done|congruence].
Qed.

Lemma sinking_done lo n i0 i l :
  sinking lo n i0 i l -> (forall c, 0 < c < n -> par c = i -> edge c l) -> i <> i0 \/ i0 = 0 \/ par i0 < lo -> heap lo n l.
Proof.
  intros [H1 _] H Hi c Hc Hl. destruct (decide (par c = i)); [by apply H|]. apply H1; [done..|].
  destruct (decide (c = i)) as [->|]; [|by left]. right. intros ->. lia.
Qed.

(** One step up: the element at [j] comes before its parent. *)
Lemma rising_step n j l x y :
  0 < j < n -> n <= zlen l -> at_ l j = Some x -> at_ l (par j) = Some y -> less x y = true ->
  rising n j l -> rising n (par j) (swapped l (par j) j).
Proof.
  intros Hj Hn Hx Hy Hlt [H1 H2]. pose proof (par_below j ltac:(lia)) as Hp. set (i := par j) in *.
  assert (Hri : 0 <= i < zlen l) by lia. assert (Hrj : 0 <= j < zlen l) by lia. split.
  - intros d Hd Hdi v w Hv Hw. pose proof (par_below d ltac:(lia)). destruct (decide (d = j)) as [->|Hdj].
    { rewrite at_swapped_r in Hv by done. fold i in Hw. rewrite at_swapped_l in Hw by done. simplify_eq. by apply lt_le. }
    rewrite at_swapped_ne in Hv by done. destruct (decide (par d = i)) as [E|Hdi'].
    { rewrite E, at_swapped_l in Hw by done. simplify_eq. apply (le_trans less x y v); [by apply lt_le|].
      apply (H1 d); [lia|done..|]. by rewrite E. }
    destruct (decide (par d = j)) as [E|Hdj'].
    { rewrite E, at_swapped_r in Hw by done. simplify_eq. apply (H2 ltac:(lia) ltac:(lia) d); [lia|done..]. }
    rewrite at_swapped_ne in Hw by done. apply (H1 d); done.
  - intros Hi _ d v w Hd Hpd Hv Hw. pose proof (par_below i Hi). rewrite at_swapped_ne in Hw by lia.
    assert (Hgi : le less w y) by (apply (H1 i); [lia..|done|done]).
    destruct (decide (d = j)) as [->|Hdj].
    { rewrite at_swapped_r in Hv by done. by simplify_eq. }
    pose proof (par_below d ltac:(lia)). rewrite at_swapped_ne in Hv by lia. apply (le_trans less w y v); [done|].
    apply (H1 d); [lia|done..|by rewrite Hpd].
Qed.
Lemma rising_done n j l : rising n j l -> (0 < j -> edge j l) -> heap 0 n l.
Proof.
  intros [H1 _] H c Hc _. destruct (decide (c = j)) as [->|]; [apply H; lia|by apply H1].
Qed.

(** The root of a heap is a least element. *)
Lemma root_least n l x : heap 0 n l -> at_ l 0 = Some x -> range_all (le less x) 0 n l.
Proof.
  intros H Hx i y Hi Hy. revert y Hy. remember (Z.to_nat i) as k eqn:Hk. revert i Hi Hk.
  induction k as [k IH] using lt_wf_ind. intros i Hi Hk y Hy. destruct (decide (i = 0)) as [->|].
  - simplify_eq. apply le_refl; exact sw.
  - pose proof (par_below i ltac:(lia)) as Hp. pose proof (at_range _ _ _ Hy).
    destruct (at_ex l (par i)) as [z Hz]; [lia|].
    apply (le_trans less x z y); [apply (IH (Z.to_nat (par i)) ltac:(lia) (par i)); [lia..|done]|].
    apply (H i); [lia|apply par_below; lia|done|done].
Qed.
End Order.

(** ** The operations *)

Section Operations.
Context {H A : Type} {HI : HeapInterface H A} (elems : H -> list A) (less : A -> A -> bool)
  {laws : HeapLaws HI elems less} {sw : StrictWeak less}.
Implicit Types (h : H) (i j c n lo : Z).
Notation heap := (heap less).
Notation sinking := (sinking less).
Notation rising := (rising less).
Notation edge := (edge less).

Lemma child_test i n :
  0 <= i <= n -> n < 2 ^ 63 ->
  ((int64 (2 * i + 1) >=? n) || (int64 (2 * i + 1) <? 0) = true -> n <= 2 * i + 1) /\
  ((int64 (2 * i + 1) >=? n) || (int64 (2 * i + 1) <? 0) = false -> int64 (2 * i + 1) = 2 * i + 1 /\ 2 * i + 1 < n).
Proof.
  intros Hi Hn. destruct (Z.lt_ge_cases (2 * i + 1) (2 ^ 63)).
  - rewrite int64_id by lia. destruct (Z.geb_spec (2 * i + 1) n), (Z.ltb_spec (2 * i + 1) 0); cbn; split; intros; try done; lia.
  - assert (int64 (2 * i + 1) < 0) by (unfold int64; divlia). split; [lia|]. intros [_ E]%orb_false_iff. apply Z.ltb_ge in E. lia.
Qed.

(** The choice of the lesser child. *)
Definition least_child n i c (l : list A) : Prop :=
  par c = i /\ 0 < c < n /\ (forall d z y, par d = i -> 0 < d < n -> at_ l d = Some z -> at_ l c = Some y -> le less y z).

Lemma wp_child i n h :
  0 <= i -> 2 * i + 1 < n -> n <= zlen (elems h) ->
  wp (if 2 * i + 1 + 1 <? n then Less (2 * i + 1 + 1) (2 * i + 1) else mret false)
     (fun right h' => elems h' = elems h /\ least_child n i (if right : bool then 2 * i + 1 + 1 else 2 * i + 1) (elems h)) h.
Proof.
  intros Hi Hc Hn. destruct (Z.ltb_spec (2 * i + 1 + 1) n).
  - destruct (at_ex (elems h) (2 * i + 1 + 1)) as [x Hx]; [lia|]. destruct (at_ex (elems h) (2 * i + 1)) as [y Hy]; [lia|].
    eapply wp_mono; [by apply (less_ok h _ _ x y)|]. cbn beta. intros b h' [-> E]. split; [done|].
    destruct (less x y) eqn:El; (split; [apply child_index; lia|split; [lia|]]); intros d z w Hd Hdn Hz Hw;
      apply child_index in Hd as [-> | ->]; replace (2 * i + 1 + 1) with (2 * i + 2) in * by lia; simplify_eq;
      first [by apply lt_le|done|by apply le_refl].
  - apply wp_ret. split; [done|]. split; [apply child_index; lia|]. split; [lia|]. intros d z w Hd Hdn Hz Hw.
    apply child_index in Hd as [-> | ->]; [|lia]. simplify_eq. by apply le_refl.
Qed.

Lemma wp_down lo i0 n h0 :
  0 <= lo <= i0 -> i0 <= n -> n <= zlen (elems h0) -> zlen (elems h0) < 2 ^ 63 ->
  wp (down i0 n)
     (fun moved h => rperm 0 n (elems h0) (elems h) /\
        (sinking lo n i0 i0 (elems h0) ->
         if moved : bool then heap lo n (elems h)
         else elems h = elems h0 /\ (forall c, 0 < c < n -> par c = i0 -> edge c (elems h0)))) h0.
Proof.
  intros Hlo Hi0 Hn Hmax. unfold down. apply wp_bind.
  apply (wp_loop
    (fun i h => i0 <= i <= n /\ rperm 0 n (elems h0) (elems h) /\ (i = i0 -> elems h = elems h0) /\
       (sinking lo n i0 i0 (elems h0) -> sinking lo n i0 i (elems h)))
    (fun i => Z.to_nat (n - i))).
  { split_and!; [lia..|apply rperm_refl|done|done]. }
  { lia. }
  intros i h (Hi & Hp & He & Hs). pose proof (rperm_zlen _ _ _ _ Hp) as Hl. cbv zeta.
  destruct (child_test i n) as [T1 T2]; [lia..|]. destruct (_ || _).
  { apply wp_break. cbn. split; [done|]. intros Hs0. specialize (T1 eq_refl).
    assert (Hno : forall c, 0 < c < n -> par c = i -> edge c (elems h)) by (intros c Hc ?%child_index; lia).
    destruct (Z.gtb_spec i i0).
    - apply (sinking_done _ lo n i0 i); [by apply Hs|done|left; lia].
    - assert (i = i0) as -> by lia. rewrite He in * by done. done. }
  destruct (T2 eq_refl) as [-> Hc]. eapply wp_call; [apply (wp_child i n h); lia|]. cbn beta. intros right h1 [E1 Hleast].
  set (c := if right : bool then _ else _) in *. destruct Hleast as (Hpc & Hcn & Hmin). pose proof (par_below c ltac:(lia)).
  destruct (at_ex (elems h) c) as [y Hy]; [lia|]. destruct (at_ex (elems h) i) as [x Hx]; [lia|].
  eapply wp_call; [apply (less_ok h1 c i y x); by rewrite E1|]. cbn beta. intros b h2 [-> E2]. destruct (less y x) eqn:Hlt; cbn [negb].
  - eapply wp_call; [apply (swap_ok h2 i c); rewrite E2, E1; lia|]. cbn beta. intros _ h3 E3. apply wp_continue. rewrite E3, E2, E1.
    split; [|lia]. split; [lia|]. split; [eapply rperm_trans; [exact Hp|]; apply rperm_swapped; lia|]. split; [lia|].
    intros Hs0. apply (sinking_step less lo n i0 i c _ x y); [lia..|done|lia|done|done|done| |by apply Hs].
    intros d z Hd Hdn Hz. by apply (Hmin d z y).
  - apply wp_break. cbn. rewrite E2, E1. split; [done|]. intros Hs0.
    assert (Hall : forall d, 0 < d < n -> par d = i -> edge d (elems h)).
    { intros d Hd Hpd z w Hz Hw. rewrite Hpd in Hw. simplify_eq. apply (le_trans less x y z); [done|by apply (Hmin d z y)]. }
    destruct (Z.gtb_spec i i0).
    + apply (sinking_done _ lo n i0 i); [by apply Hs|done|left; lia].
    + assert (i = i0) as -> by lia. rewrite He in * by done. done.
Qed.

Lemma wp_up j0 n h0 :
  0 <= j0 < n -> n <= zlen (elems h0) ->
  wp (up j0) (fun _ h => rperm 0 n (elems h0) (elems h) /\ (rising n j0 (elems h0) -> heap 0 n (elems h))) h0.
Proof.
  intros Hj Hn. unfold up.
  apply (wp_loop (fun j h => 0 <= j < n /\ rperm 0 n (elems h0) (elems h) /\ (rising n j0 (elems h0) -> rising n j (elems h))) Z.to_nat).
  { split_and!; [lia..|apply rperm_refl|done]. }
  { lia. }
  intros j h (Hjn & Hp & Hr). pose proof (rperm_zlen _ _ _ _ Hp) as Hl. cbv zeta.
  destruct (decide (j = 0)) as [->|Hj0].
  { change (quot (0 - 1) 2 =? 0) with true. wp_steps. split; [done|]. intros Hr0. eapply rising_done; [by apply Hr|lia]. }
  assert (quot (j - 1) 2 = par j) as -> by (rewrite quot_2 by lia; done). pose proof (par_below j ltac:(lia)).
  destruct (Z.eqb_spec (par j) j); [lia|].
  destruct (at_ex (elems h) j) as [x Hx]; [lia|]. destruct (at_ex (elems h) (par j)) as [y Hy]; [lia|].
  apply wp_bind, wp_bind. eapply wp_mono; [by apply (less_ok h j (par j) x y)|]. cbn beta. intros b h1 [-> E1]. apply wp_ret.
  destruct (less x y) eqn:Hlt; cbn [negb].
  - eapply wp_call; [apply (swap_ok h1 (par j) j); rewrite E1; lia|]. cbn beta. intros _ h2 E2. apply wp_continue. rewrite E2, E1.
    split; [|lia]. split; [lia|]. split; [eapply rperm_trans; [exact Hp|]; apply rperm_swapped; lia|].
    intros Hr0. apply (rising_step less n j (elems h) x y); [lia|lia|done|done|done|by apply Hr].
  - apply wp_break. rewrite E1. split; [done|]. intros Hr0. apply (rising_done _ n j); [by apply Hr|].
    intros _ v w Hv Hw. by simplify_eq.
Qed.

(** [Init]: every element is sifted down, from the last parent on. *)
Lemma wp_Init h0 :
  zlen (elems h0) < 2 ^ 63 ->
  wp Init (fun _ h => elems h ≡ₚ elems h0 /\ heap 0 (zlen (elems h0)) (elems h)) h0.
Proof.
  intros Hmax. unfold Init. pose proof (zlen_nonneg (elems h0)). set (n := zlen (elems h0)) in *.
  eapply wp_call; [apply len_ok|]. cbn beta. intros m h1 [-> E1]. fold n. rewrite quot_2 by lia.
  apply (wp_loop (fun i h => -1 <= i < n / 2 /\ rperm 0 n (elems h0) (elems h) /\ heap (i + 1) n (elems h)) (fun i => Z.to_nat (i + 1))).
  { rewrite E1. split_and!; [divlia|lia|apply rperm_refl|]. intros c Hc Hl. exfalso. unfold par in Hl. divlia. }
  { divlia. }
  intros i h (Hi & Hp & Hh). pose proof (rperm_zlen _ _ _ _ Hp) as Hl. fold n in Hl. assert (n / 2 <= n) by divlia.
  destruct (Z.geb_spec i 0).
  - eapply wp_call; [apply (wp_down i i n h); lia|]. cbn beta. intros moved h2 [Hp2 Hs]. apply wp_continue.
    split; [|lia]. split; [lia|]. split; [by eapply rperm_trans|]. replace (i - 1 + 1) with i by lia.
    assert (Hsink : sinking i n i i (elems h)).
    { split; [intros c Hc Hlo Hne _; apply Hh; lia|]. intros Hi0 Hpi. pose proof (par_below i ltac:(lia)). lia. }
    specialize (Hs Hsink). destruct moved; [done|]. destruct Hs as [-> He]. eapply sinking_done; [done..|].
    destruct (decide (i = 0)); [by right; left|]. right. right. apply par_below. lia.
  - apply wp_break. destruct Hp as [Hp _]. split; [done|]. by replace (i + 1) with 0 in Hh by lia.
Qed.

(** The fields of the operations' specifications: [h] holds the elements of
    [l] as a heap. *)
Definition heap_of (l : list A) h : Prop := elems h ≡ₚ l /\ heap 0 (zlen (elems h)) (elems h).
Definition bounded h : Prop := zlen (elems h) < 2 ^ 63.

Lemma heap_prefix (l : list A) n x : heap 0 n (l ++ [x]) -> n = zlen l -> heap 0 (zlen l) l.
Proof.
  intros Hh -> c Hc Hl v w Hv Hw. apply (Hh c Hc Hl); [by rewrite at_app_l by lia|].
  pose proof (par_below c ltac:(lia)). by rewrite at_app_l by lia.
Qed.
Lemma split_last (l : list A) : 0 < zlen l -> exists l' x, l = l' ++ [x] /\ zlen l = zlen l' + 1.
Proof.
  intros Hl. destruct l as [|x l' _] using rev_ind; [by cbn in Hl|]. exists l', x. by rewrite zlen_app.
Qed.

Lemma wp_Push x h0 :
  heap_of (elems h0) h0 -> wp (Push x) (fun _ h => heap_of (x :: elems h0) h) h0.
Proof.
  intros [_ Hh]. unfold Push. eapply wp_call; [apply push_ok|]. cbn beta. intros _ h1 E1.
  eapply wp_call; [apply len_ok|]. cbn beta. intros n h2 [-> E2]. rewrite E1 in *. pose proof (zlen_nonneg (elems h0)) as Hz.
  assert (Hn : zlen (elems h0 ++ [x]) - 1 = zlen (elems h0)) by (rewrite zlen_app; change (zlen [x]) with 1; lia). rewrite Hn.
  eapply wp_mono; [apply (wp_up (zlen (elems h0)) (zlen (elems h0) + 1)); rewrite ?E2; lia|]. cbn beta. rewrite E2.
  intros _ h [Hp Hr]. pose proof (rperm_zlen _ _ _ _ Hp) as Hl. destruct Hp as [Hp _]. split.
  - rewrite Hp. by rewrite Permutation_app_comm.
  - replace (zlen (elems h)) with (zlen (elems h0) + 1) by lia. apply Hr. split.
    + intros c Hc Hne v w Hv Hw. pose proof (par_below c ltac:(lia)). rewrite at_app_l in Hv, Hw by lia. apply (Hh c); [lia..|done|done].
    + intros _ _ c v w Hc Hpc. apply child_index in Hpc. lia.
Qed.

(** Changing one element of a heap. *)
Lemma sinking_change (l l' : list A) m n i :
  heap 0 m l -> n <= m -> 0 <= i < zlen l -> i < m -> (forall k, 0 <= k < n -> k <> i -> at_ l' k = at_ l k) -> sinking 0 n i i l'.
Proof.
  intros Hh Hn Hi Him Hl. split.
  - intros c Hc _ Hpc Hci v w Hv Hw. pose proof (par_below c ltac:(lia)). assert (c <> i) by (destruct Hci; congruence).
    rewrite Hl in Hv, Hw by lia. apply (Hh c); [lia..|done|done].
  - intros Hi0 _ c v w Hc Hpc Hv Hw. pose proof (par_below c ltac:(lia)). pose proof (par_below i Hi0).
    rewrite Hl in Hv, Hw by lia. destruct (at_ex l i Hi) as [x Hx]. apply (le_trans less w x v).
    + apply (Hh i); [lia..|done|done].
    + apply (Hh c); [lia..|done|by rewrite Hpc].
Qed.

Lemma wp_settle i n h0 :
  0 <= i < n -> n <= zlen (elems h0) -> bounded h0 ->
  wp (moved <- down i n ;; if negb moved then up i else mret tt)
    (fun _ h => rperm 0 n (elems h0) (elems h) /\ (sinking 0 n i i (elems h0) -> heap 0 n (elems h))) h0.
Proof.
  intros Hi Hn Hb. eapply wp_call; [apply (wp_down 0 i n h0); [lia..|exact Hb]|]. cbn beta. intros moved h1 [Hp Hs].
  pose proof (rperm_zlen _ _ _ _ Hp) as Hl. destruct moved; cbn [negb]; [by apply wp_ret|].
  eapply wp_mono; [apply (wp_up i n h1); lia|]. cbn beta. intros _ h2 [Hp2 Hr]. split; [by eapply rperm_trans|].
  intros Hs0. destruct (Hs Hs0) as [E He]. apply Hr. rewrite E. destruct Hs0 as [H1 H2]. split; [|done].
  intros c Hc Hne. destruct (decide (par c = i)); [by apply He|]. apply H1; [done|apply par_below; lia|done|by left].
Qed.

Lemma wp_pop_last h n r l0 :
  zlen (elems h) = n + 1 -> 0 <= n -> at_ (elems h) n = Some r -> heap 0 n (elems h) -> elems h ≡ₚ l0 ->
  wp h_Pop (fun x h' => x = r /\ r :: elems h' ≡ₚ l0 /\ heap_of (elems h') h') h.
Proof.
  intros Hz Hn Hr Hh Hp. destruct (split_last (elems h)) as (l & x & E & Hl); [lia|]. rewrite E in *.
  assert (Hln : zlen l = n) by lia. rewrite at_app_r, Hln, Z.sub_diag in Hr by lia. injection Hr as ->.
  eapply wp_mono; [by apply (pop_ok h l r)|]. cbn beta. intros x h' [-> E']. unfold heap_of. rewrite E'. split; [done|]. split.
  - rewrite <- Hp. by rewrite (Permutation_app_comm l [r]).
  - split; [done|]. by apply (heap_prefix l n r).
Qed.

Definition removes (l : list A) (x : A) (r : A) h : Prop := r = x /\ x :: elems h ≡ₚ l /\ heap_of (elems h) h.

Lemma wp_Pop h0 x :
  heap_of (elems h0) h0 -> bounded h0 -> at_ (elems h0) 0 = Some x -> wp Pop (removes (elems h0) x) h0.
Proof.
  intros [_ Hh] Hb Hx. pose proof (at_range _ _ _ Hx) as Hz. unfold Pop, bounded in *. eapply wp_call; [apply len_ok|]. cbn beta zeta.
  intros m h1 [-> E1]. set (n := zlen (elems h0) - 1). eapply wp_call; [apply (swap_ok h1 0 n); rewrite E1; lia|]. cbn beta.
  intros _ h2 E2. rewrite E1 in E2. assert (Hl2 : zlen (elems h2) = n + 1) by (rewrite E2, zlen_swapped; lia).
  eapply wp_call; [apply (wp_down 0 0 n h2); lia|]. cbn beta. intros moved h3 [Hp Hs].
  assert (Hs0 : sinking 0 n 0 0 (elems h2)).
  { apply (sinking_change (elems h0) _ (zlen (elems h0))); [done|lia..|]. intros k Hk Hk0. rewrite E2. by apply at_swapped_ne; lia. }
  apply (wp_pop_last h3 n x).
  - by rewrite (rperm_zlen _ _ _ _ Hp).
  - lia.
  - rewrite (proj2 Hp) by lia. rewrite E2, at_swapped_r by lia. done.
  - specialize (Hs Hs0). destruct moved; [done|]. destruct Hs as [-> He]. eapply sinking_done; [done..|]. by right; left.
  - rewrite (proj1 Hp), E2. apply swapped_perm.
Qed.

Lemma wp_Remove i h0 x :
  heap_of (elems h0) h0 -> bounded h0 -> at_ (elems h0) i = Some x -> wp (Remove i) (removes (elems h0) x) h0.
Proof.
  intros [_ Hh] Hb Hx. pose proof (at_range _ _ _ Hx) as Hz. unfold Remove, bounded in *. eapply wp_call; [apply len_ok|]. cbn beta zeta.
  intros m h1 [-> E1]. set (n := zlen (elems h0) - 1). eapply (wp_call _ _ (fun _ h => zlen (elems h) = n + 1 /\
    at_ (elems h) n = Some x /\ heap 0 n (elems h) /\ elems h ≡ₚ elems h0)).
  2:{ intros _ h (H1 & H2 & H3 & H4). apply (wp_pop_last h n x); [done|lia|done..]. }
  destruct (Z.eqb_spec n i) as [<-|Hne]; cbn [negb].
  - apply wp_ret. rewrite E1. split_and!; [lia|done| |done]. intros c Hc. apply Hh. lia.
  - eapply wp_call; [apply (swap_ok h1 i n); rewrite E1; lia|]. cbn beta. intros _ h2 E2. rewrite E1 in E2.
    assert (Hl2 : zlen (elems h2) = n + 1) by (rewrite E2, zlen_swapped; lia).
    eapply wp_mono; [apply (wp_settle i n h2); [lia..|unfold bounded; lia]|]. cbn beta. intros _ h3 [Hp Hs].
    split_and!; [by rewrite (rperm_zlen _ _ _ _ Hp)| | |].
    + rewrite (proj2 Hp) by lia. rewrite E2, at_swapped_r by lia. done.
    + apply Hs. apply (sinking_change (elems h0) _ (zlen (elems h0))); [done|lia..|]. intros k Hk Hki. rewrite E2. by apply at_swapped_ne; lia.
    + rewrite (proj1 Hp), E2. apply swapped_perm.
Qed.

Lemma wp_Fix i h0 (l : list A) :
  heap 0 (zlen l) l -> zlen (elems h0) = zlen l -> 0 <= i < zlen l -> (forall k, k <> i -> at_ (elems h0) k = at_ l k) -> bounded h0 ->
  wp (Fix i) (fun _ h => heap_of (elems h0) h) h0.
Proof.
  intros Hh Hl Hi Hk Hb. unfold Fix. eapply wp_call; [apply len_ok|]. cbn beta. intros n h1 [-> E1].
  eapply wp_mono; [apply (wp_settle i (zlen (elems h0)) h1); [lia|rewrite E1; lia|unfold bounded in *; by rewrite E1]|]. cbn beta.
  rewrite E1. intros _ h [Hp Hs]. split; [apply Hp|]. rewrite (rperm_zlen _ _ _ _ Hp). apply Hs.
  apply (sinking_change l _ (zlen l)); [done|lia..|]. intros k _ Hki. by apply Hk.
Qed.
End Operations.

(** C27: heaps.  For every implementation of [heap.Interface] that does what its
    documentation says, with an order that is a strict weak order: [Init] makes a
    heap of the elements; on a heap, [Push] adds its argument, [Pop] removes a
    least element and [Remove] the element at an index, and [Fix] restores the
    heap after one element has changed; each returns, leaves a heap and keeps the
    other elements. *)
Theorem heap_operations {H A : Type} {HI : HeapInterface H A} (elems : H -> list A) (less : A -> A -> bool) (h : H) :
  HeapLaws HI elems less -> StrictWeak less -> zlen (elems h) < 2 ^ 63 ->
  wp Init (fun _ h' => heap_of elems less (elems h) h') h /\
  (forall l i, heap less 0 (zlen l) l -> zlen (elems h) = zlen l -> 0 <= i < zlen l -> (forall k, k <> i -> at_ (elems h) k = at_ l k) ->
     wp (Fix i) (fun _ h' => heap_of elems less (elems h) h') h) /\
  (heap_of elems less (elems h) h ->
     (forall x, wp (Push x) (fun _ h' => heap_of elems less (x :: elems h) h') h) /\
     (elems h <> [] -> exists x, Forall (le less x) (elems h) /\ wp Pop (removes elems less (elems h) x) h) /\
     (forall i x, at_ (elems h) i = Some x -> wp (Remove i) (removes elems less (elems h) x) h)).
Proof.
  intros laws sw Hb. split; [|split].
  - eapply wp_mono; [by apply (wp_Init elems less)|]. cbn beta. intros _ h' [Hp Hh]. split; [done|]. by rewrite (zlen_perm _ _ Hp).
  - intros l i Hl Hz Hi Hk. by apply (wp_Fix elems less i h l).
  - intros Hh. split_and!; [by intros x; apply wp_Push| |by intros i x Hx; apply wp_Remove].
    intros Hne. destruct (at_ex (elems h) 0) as [x Hx].
    { destruct (elems h) as [|a l]; [done|]. rewrite zlen_cons. pose proof (zlen_nonneg l). lia. }
    exists x. split; [|by apply wp_Pop]. pose proof (root_least less _ _ _ (proj2 Hh) Hx) as Hr.
    apply Forall_forall. intros y Hy. apply elem_of_at in Hy as [i Hi]. apply (Hr i); [by eapply at_range|done].
Qed.

(** Slices of integers. *)
#[local] Instance Z_ltb_strict : StrictWeak Z.ltb.
Proof. split; intros; rewrite ?Z.ltb_lt, ?Z.ltb_ge, ?Z.ltb_irrefl in *; try done; lia. Qed.
Lemma heap_operations_witness :
  wp (Init (HI := list_heap Z.ltb)) (fun _ l => heap_of (fun l => l) Z.ltb [5; 2; 8; 1; 3] l) [5; 2; 8; 1; 3].
Proof.
  destruct (heap_operations (HI := list_heap Z.ltb) (fun l => l) Z.ltb [5; 2; 8; 1; 3]) as [H _].
  - apply list_heap_laws.
  - exact Z_ltb_strict.
  - by vm_compute.
  - exact H.
Defined.
Example heap_example :
  exec (Init (HI := list_heap Z.ltb)) [5; 2; 8; 1; 3] = Done [1; 2; 8; 5; 3] /\
  result (Pop (HI := list_heap Z.ltb)) [1; 2; 8; 5; 3] = Done 1.
Proof. by vm_compute. Qed.
