(* ===== verification/Gover.v ===== *)
(** * internal/gover: toolchain versions

    [src/src/internal/gover/gover.go].  Strings are lists of bytes; the scanning
    loops are the recursive functions [digits_len] and [kind_len]. *)

From S2P Require Import Prelude.
From S2P Require Import Slice.
From S2P Require Import Text.

(** [x[0]] of a string that is not empty. *)
Definition first_is (c : ascii) (x : list Z) : bool :=
  match x with [] => false | a :: _ => a =? chr c end.
Definition is_digit (c : Z) : bool := (chr "0" <=? c) && (c <=? chr "9").

Record Version : Type := MkVersion { Major : list Z; Minor : list Z; Patch : list Z; Kind : list Z; Pre : list Z }.
#[export] Instance Version_eq_dec : EqDecision Version.
Proof. solve_decision. Defined.
Definition zero_Version : Version := MkVersion [] [] [] [] [].

(** [cmp.Compare] of strings. *)
Definition str_Compare (x y : list Z) : Z :=
  if str_ltb x y then -1 else if str_ltb y x then 1 else 0.

Definition CmpInt (x y : list Z) : Z :=
  if str_eqb x y then 0
  else if zlen x <? zlen y then -1
  else if zlen x >? zlen y then 1
  else if str_ltb x y then -1 else 1.

Fixpoint digits_len (x : list Z) : nat :=
  match x with
  | c :: x => if is_digit c then S (digits_len x) else 0
  | [] => 0
  end.
Definition cutInt (x : list Z) : list Z * list Z * bool :=
  let i := digits_len x in
  if (i =? 0)%nat || (first_is "0" x && negb (i =? 1)%nat) then ([], [], false)
  else (take i x, drop i x, true).

(** The index after the kind of a prerelease; [None] when a byte before the
    first digit is no lower-case letter. *)
Fixpoint kind_len (x : list Z) : option nat :=
  match x with
  | c :: x =>
      if (c <? chr "0") || (chr "9" <? c) then
        if (c <? chr "a") || (chr "z" <? c) then None else S <$> kind_len x
      else Some 0%nat
  | [] => Some 0%nat
  end.

Definition Parse (x : list Z) : Version :=
  let '(major, x, ok) := cutInt x in
  if negb ok then zero_Version
  else if str_eqb x [] then MkVersion major (bytes "0") (bytes "0") [] []
  else if negb (first_is "." x) then zero_Version
  else
    let '(minor, x, ok) := cutInt (drop 1 x) in
    if negb ok then zero_Version
    else if str_eqb x [] then
      MkVersion major minor (if CmpInt minor (bytes "21") <? 0 then bytes "0" else []) [] []
    else if first_is "." x then
      let '(patch, x, ok) := cutInt (drop 1 x) in
      if negb ok || negb (str_eqb x []) then zero_Version else MkVersion major minor patch [] []
    else
      match kind_len x with
      | None => zero_Version
      | Some i =>
          if (i =? 0)%nat then zero_Version
          else
            let kind := take i x in
            let x := drop i x in
            if str_eqb x [] then MkVersion major minor [] kind []
            else
              let '(pre, x, ok) := cutInt x in
              if negb ok || negb (str_eqb x []) then zero_Version else MkVersion major minor [] kind pre
      end.

Definition Compare (x y : list Z) : Z :=
  let vx := Parse x in
  let vy := Parse y in
  let c := CmpInt (Major vx) (Major vy) in
  if negb (c =? 0) then c
  else
    let c := CmpInt (Minor vx) (Minor vy) in
    if negb (c =? 0) then c
    else
      let c := CmpInt (Patch vx) (Patch vy) in
      if negb (c =? 0) then c
      else
        let c := str_Compare (Kind vx) (Kind vy) in
        if negb (c =? 0) then c
        else
          let c := CmpInt (Pre vx) (Pre vy) in
          if negb (c =? 0) then c else 0.

Definition Max (x y : list Z) : list Z := if Compare x y <? 0 then y else x.

Definition IsLang (x : list Z) : bool :=
  let v := Parse x in
  negb (bool_decide (v = zero_Version)) && str_eqb (Patch v) [] && str_eqb (Kind v) [] && str_eqb (Pre v) [].

Definition Lang (x : list Z) : list Z :=
  let v := Parse x in
  if str_eqb (Minor v) [] || (str_eqb (Major v) (bytes "1") && str_eqb (Minor v) (bytes "0")) then Major v
  else Major v ++ bytes "." ++ Minor v.

Definition IsValid (x : list Z) : bool := negb (bool_decide (Parse x = zero_Version)).

(** The loop of [DecInt] turns trailing 0s into 9s; the store is [digits]. *)
Definition dec_scan (i : Z) : M (list Z) Z :=
  loop (S (Z.to_nat (i + 1))) (fun i =>
    zero <- (if i >=? 0 then c <- load i ;; mret (c =? chr "0") else mret false) ;;
    if (zero : bool) then store i (chr "9") ;; continue (i - 1)
    else break i) i.
Definition DecInt (decimal : list Z) : outcome (list Z) :=
  result (
    i <- dec_scan (zlen decimal - 1) ;;
    if i <? 0 then mret []
    else
      c <- load i ;;
      digits <- mget ;;
      if (i =? 0) && (c =? chr "1") && (zlen digits >? 1) then mret (sub 1 (zlen digits) digits)
      else
        store i (u8 (c - 1)) ;;
        mget) decimal.

Example compare_rc : Compare (bytes "1.21") (bytes "1.21rc1") = -1 /\ Compare (bytes "1.21rc1") (bytes "1.21.0") = -1 /\
  Compare (bytes "1.20") (bytes "1.20.0") = 0 /\ Compare (bytes "1.9") (bytes "1.10") = -1 /\ Compare (bytes "1.021") (bytes "1") = -1.
Proof. by vm_compute. Qed.
Example decint_100 : DecInt (bytes "100") = Done (bytes "99") /\ DecInt (bytes "1") = Done (bytes "0") /\ DecInt (bytes "0") = Done [].
Proof. by vm_compute. Qed.
