(* ===== verification/GoverTheorems.v ===== *)
(** * internal/gover: versions are ordered

    [Compare] is a total preorder on all strings, built from the orders on the
    fields of a version; on decimal strings [CmpInt] compares the numbers. *)

From S2P Require Import Prelude.
From S2P Require Import Slice.
From S2P Require Import Text.
From S2P Require Import StrconvFormat.
From S2P Require Import Gover.

(** ** Three-way comparisons *)

Class Comparison {T} (c : T -> T -> Z) : Prop := {
  cmp_range x y : c x y = -1 \/ c x y = 0 \/ c x y = 1;
  cmp_sym x y : c y x = - c x y;
  cmp_trans x y z : c x y <= 0 -> c y z <= 0 -> c x z <= 0 }.

Lemma cmp_refl {T} (c : T -> T -> Z) `{Comparison T c} x : c x x = 0.
Proof. pose proof (cmp_sym x x). lia. Qed.

(** Comparison by [c1], then by [c2]. *)
Definition then_by {T} (c1 c2 : T -> T -> Z) (x y : T) : Z := if negb (c1 x y =? 0) then c1 x y else c2 x y.

#[export] Instance then_by_comparison {T} (c1 c2 : T -> T -> Z) :
  Comparison c1 -> Comparison c2 -> Comparison (then_by c1 c2).
Proof.
  intros H1 H2. unfold then_by. split.
  - intros x y. destruct (c1 x y =? 0); [apply (cmp_range (c := c2))|apply (cmp_range (c := c1))].
  - intros x y. rewrite (cmp_sym (c := c1) x y), (cmp_sym (c := c2) x y).
    destruct (Z.eqb_spec (c1 x y) 0), (Z.eqb_spec (- c1 x y) 0); cbn; lia.
  - intros x y z. pose proof (cmp_trans (c := c1) x y z). pose proof (cmp_trans (c := c2) x y z).
    pose proof (cmp_trans (c := c1) z x y). pose proof (cmp_trans (c := c1) y z x).
    pose proof (cmp_sym (c := c1) x y). pose proof (cmp_sym (c := c1) y z). pose proof (cmp_sym (c := c1) x z).
    destruct (Z.eqb_spec (c1 x y) 0), (Z.eqb_spec (c1 y z) 0), (Z.eqb_spec (c1 x z) 0); cbn; lia.
Qed.
#[export] Instance on_comparison {T U} (f : U -> T) (c : T -> T -> Z) : Comparison c -> Comparison (fun x y => c (f x) (f y)).
Proof.
  intros H. split; intros.
  - apply (cmp_range (c := c)).
  - apply (cmp_sym (c := c)).
  - by eapply (cmp_trans (c := c)).
Qed.

Lemma then_by_zero {T} (c1 c2 : T -> T -> Z) x y : then_by c1 c2 x y = 0 <-> c1 x y = 0 /\ c2 x y = 0.
Proof. unfold then_by. destruct (Z.eqb_spec (c1 x y) 0); cbn; naive_solver. Qed.

(** ** Strings *)

Lemma str_ltb_asym x y : str_ltb x y = true -> str_ltb y x = false.
Proof.
  intros H. destruct (str_ltb y x) eqn:E; [|done]. pose proof (str_ltb_trans _ _ _ H E) as H'. by rewrite str_ltb_irrefl in H'.
Qed.
Lemma str_Compare_zero x y : str_Compare x y = 0 <-> x = y.
Proof.
  unfold str_Compare. split; [|intros ->; by rewrite str_ltb_irrefl].
  destruct (str_ltb x y) eqn:E1; [done|]. destruct (str_ltb y x) eqn:E2; [done|]. intros _. by apply str_ltb_total.
Qed.
#[export] Instance str_Compare_comparison : Comparison str_Compare.
Proof.
  unfold str_Compare. split.
  - intros x y. destruct (str_ltb x y), (str_ltb y x); lia.
  - intros x y. destruct (str_ltb x y) eqn:E; [by rewrite (str_ltb_asym _ _ E)|]. by destruct (str_ltb y x).
  - intros x y z. destruct (str_ltb x z) eqn:E3; [lia|]. destruct (str_ltb z x) eqn:E4; [|lia].
    destruct (str_ltb x y) eqn:E1.
    + rewrite (str_ltb_trans z x y) by done. pose proof (str_ltb_trans z x y E4 E1) as E5. rewrite (str_ltb_asym _ _ E5). lia.
    + destruct (str_ltb y x) eqn:E2; [lia|]. pose proof (str_ltb_total _ _ E1 E2) as ->. rewrite E3, E4. lia.
Qed.

(** [CmpInt] compares the lengths first. *)
Lemma CmpInt_then x y : CmpInt x y = then_by (fun x y => Z.sgn (zlen x - zlen y)) str_Compare x y.
Proof.
  unfold CmpInt, then_by, str_Compare, str_eqb. destruct (bool_decide_reflect (x = y)) as [->|Hne].
  { by rewrite Z.sub_diag, str_ltb_irrefl. }
  destruct (Z.ltb_spec (zlen x) (zlen y)); [by rewrite Z.sgn_neg by lia|].
  rewrite Z.gtb_ltb. destruct (Z.ltb_spec (zlen y) (zlen x)); [by rewrite Z.sgn_pos by lia|].
  assert (zlen x - zlen y = 0) as -> by lia. cbn. destruct (str_ltb x y) eqn:E1; [done|]. destruct (str_ltb y x) eqn:E2; [done|].
  by rewrite (str_ltb_total _ _ E1 E2) in Hne.
Qed.
#[export] Instance sgn_comparison {T} (f : T -> Z) : Comparison (fun x y => Z.sgn (f x - f y)).
Proof. split; intros; lia. Qed.
#[export] Instance CmpInt_comparison : Comparison CmpInt.
Proof.
  assert (H : Comparison (then_by (fun x y : list Z => Z.sgn (zlen x - zlen y)) str_Compare)) by apply _.
  split; intros *; rewrite !CmpInt_then; apply H.
Qed.
Lemma CmpInt_zero x y : CmpInt x y = 0 <-> x = y.
Proof.
  rewrite CmpInt_then, then_by_zero, str_Compare_zero. split; [by intros [_ ?]|]. intros ->. by rewrite Z.sub_diag.
Qed.

(** ** Decimal strings *)

Definition digit (c : Z) : Prop := 48 <= c <= 57.
(** A decimal number without leading zeros, or nothing. *)
Definition decimal (s : list Z) : Prop := Forall digit s /\ (forall c t, s = c :: t -> t <> [] -> c <> 48).
(** Its place in the order: nothing comes before 0. *)
Definition rank (s : list Z) : Z := match s with [] => -1 | _ => value 10 s end.

Lemma is_digit_spec c : is_digit c = true <-> digit c.
Proof. unfold is_digit, digit. change (chr "0") with 48. change (chr "9") with 57. rewrite andb_true_iff, !Z.leb_le. done. Qed.

Lemma value_snoc s c : value 10 (s ++ [c]) = value 10 s * 10 + char_value c.
Proof. unfold value. by rewrite fold_left_app. Qed.
Lemma char_value_dec c : digit c -> char_value c = c - 48.
Proof. unfold digit, char_value. intros. by destruct (Z.ltb_spec c 58); [|lia]. Qed.
Lemma value_cons c s : digit c -> Forall digit s -> value 10 (c :: s) = (c - 48) * 10 ^ zlen s + value 10 s.
Proof.
  intros Hc Hs. induction s as [|d s IH] using rev_ind.
  - unfold value. cbn [fold_left]. rewrite char_value_dec by done. change (zlen (@nil Z)) with 0. lia.
  - apply Forall_app in Hs as [Hs Hd]. rewrite app_comm_cons, !value_snoc, IH, zlen_app by done. change (zlen [d]) with 1.
    pose proof (zlen_nonneg s). rewrite Z.pow_add_r by lia. lia.
Qed.
Lemma value_range s : Forall digit s -> 0 <= value 10 s < 10 ^ zlen s.
Proof.
  induction 1 as [|c s Hc Hs IH]; [by cbn|]. rewrite value_cons, zlen_cons by done. pose proof (zlen_nonneg s).
  rewrite Z.pow_add_r by lia. unfold digit in Hc. nia.
Qed.
Lemma value_lex x y :
  Forall digit x -> Forall digit y -> length x = length y -> str_ltb x y = (value 10 x <? value 10 y).
Proof.
  intros Hx. revert y. induction Hx as [|a x Ha Hx IH]; intros [|b y] Hy Hl; try done. apply Forall_cons in Hy as [Hb Hy].
  injection Hl as Hl. cbn [str_ltb]. rewrite !value_cons, IH by done.
  assert (zlen y = zlen x) as -> by (unfold zlen; lia). pose proof (value_range x Hx) as Rx. pose proof (value_range y Hy) as Ry.
  assert (zlen y = zlen x) as Hz by (unfold zlen; lia). rewrite Hz in Ry. apply Bool.eq_iff_eq_true.
  rewrite orb_true_iff, andb_true_iff, !Z.ltb_lt, Z.eqb_eq. unfold digit in *. nia.
Qed.
Lemma value_first x : decimal x -> (2 <= length x)%nat -> 10 ^ (zlen x - 1) <= value 10 x.
Proof.
  intros [Hx Hz] Hl. destruct x as [|a [|b x]]; cbn in Hl; try lia. specialize (Hz a (b :: x) eq_refl ltac:(done)).
  apply Forall_cons in Hx as [Ha Hx]. rewrite value_cons, (zlen_cons a) by done. pose proof (value_range _ Hx).
  replace (zlen (b :: x) + 1 - 1) with (zlen (b :: x)) by lia. unfold digit in Ha. nia.
Qed.

Lemma CmpInt_value x y : decimal x -> decimal y -> CmpInt x y = Z.sgn (rank x - rank y).
Proof.
  assert (Hlt : forall x y, decimal x -> decimal y -> zlen x < zlen y -> rank x < rank y).
  { clear. intros x y Hx Hy Hl. pose proof (zlen_nonneg x). destruct y as [|b y]; [change (zlen (@nil Z)) with 0 in Hl; lia|].
    pose proof (value_range _ (proj1 Hy)). destruct x as [|a x]; [change (rank []) with (-1); unfold rank; lia|]. unfold rank.
    assert (2 <= length (b :: y))%nat by (unfold zlen in Hl; cbn in *; lia).
    pose proof (value_first _ Hy ltac:(done)). pose proof (value_range _ (proj1 Hx)).
    assert (10 ^ zlen (a :: x) <= 10 ^ (zlen (b :: y) - 1)) by (apply Z.pow_le_mono_r; lia). lia. }
  intros Hx Hy. rewrite CmpInt_then. unfold then_by. destruct (Z.lt_trichotomy (zlen x) (zlen y)) as [H|[H|H]].
  - pose proof (Hlt x y Hx Hy H). by rewrite !Z.sgn_neg by lia.
  - rewrite H, Z.sub_diag. cbn. unfold str_Compare. assert (length x = length y) by (unfold zlen in H; lia).
    rewrite !value_lex by (done || apply Hx || apply Hy). destruct x as [|a x], y as [|b y]; try done. unfold rank.
    destruct (Z.ltb_spec (value 10 (a :: x)) (value 10 (b :: y))); [by rewrite Z.sgn_neg by lia|].
    destruct (Z.ltb_spec (value 10 (b :: y)) (value 10 (a :: x))); [by rewrite Z.sgn_pos by lia|].
    replace (value 10 (a :: x) - value 10 (b :: y)) with 0 by lia. done.
  - pose proof (Hlt y x Hy Hx H). by rewrite !Z.sgn_pos by lia.
Qed.

(** ** Parsing *)

Definition no_digit (r : list Z) : Prop := forall c t, r = c :: t -> ~ digit c.

Lemma digits_len_app n r : Forall digit n -> no_digit r -> digits_len (n ++ r) = length n.
Proof.
  intros Hn Hr. induction Hn as [|c n Hc Hn IH]; cbn [app digits_len length].
  - destruct r as [|c r]; [done|]. cbn. destruct (is_digit c) eqn:E; [|done]. apply is_digit_spec in E. by destruct (Hr c r eq_refl).
  - by rewrite (proj2 (is_digit_spec c) Hc), IH.
Qed.
Lemma digits_len_split x : exists n r, x = n ++ r /\ Forall digit n /\ no_digit r /\ digits_len x = length n.
Proof.
  induction x as [|c x (n & r & -> & Hn & Hr & E)]; [exists [], []; by split_and!|]. cbn [digits_len].
  destruct (is_digit c) eqn:Ec.
  - exists (c :: n), r. split; [done|]. split; [constructor; [by apply is_digit_spec|done]|]. split; [done|]. by rewrite E.
  - exists [], (c :: n ++ r). split_and!; [done..| |done]. intros d t [= <- _] Hd. apply is_digit_spec in Hd. congruence.
Qed.

Lemma cutInt_app n r : decimal n -> n <> [] -> no_digit r -> cutInt (n ++ r) = (n, r, true).
Proof.
  intros [Hd Hz] Hne Hr. unfold cutInt. rewrite digits_len_app by done. destruct n as [|c n]; [done|].
  cbn [length Nat.eqb app first_is orb]. change (chr "0") with 48. destruct (Z.eqb_spec c 48) as [->|]; cbn [andb].
  - destruct n as [|d n]; [done|]. by specialize (Hz 48 (d :: n) eq_refl ltac:(done)).
  - cbn [take drop]. by rewrite take_app_length, drop_app_length.
Qed.
Lemma cutInt_spec x n r ok :
  cutInt x = (n, r, ok) -> decimal n /\ (if ok then x = n ++ r /\ n <> [] /\ no_digit r else n = []).
Proof.
  destruct (digits_len_split x) as (d & t & -> & Hd & Ht & E). unfold cutInt. rewrite E.
  destruct d as [|c d]; cbn [length Nat.eqb orb]; [by intros [= <- <- <-]|].
  cbn [app first_is]. change (chr "0") with 48. destruct ((c =? 48) && _) eqn:Ez; [by intros [= <- <- <-]|].
  intros [= <- <- <-]. cbn [take drop]. rewrite take_app_length, drop_app_length. split; [|done]. split; [done|]. intros c' t' [= <- <-] Hne ->.
  destruct d; done.
Qed.

Definition version_ok (v : Version) : Prop :=
  decimal (Major v) /\ decimal (Minor v) /\ decimal (Patch v) /\ decimal (Pre v).
Lemma decimal_nil : decimal [].
Proof. split; [done|]. intros. done. Qed.
Lemma decimal_0 : decimal (bytes "0").
Proof. split; [by repeat constructor|]. by intros c t [= _ <-]. Qed.
Lemma Parse_decimal x : version_ok (Parse x).
Proof.
  pose proof decimal_nil. pose proof decimal_0. unfold Parse.
  destruct (cutInt x) as [[major r] ok] eqn:E1. apply cutInt_spec in E1 as [D1 _]. destruct ok; cbn [negb]; [|done].
  destruct (str_eqb r []); [done|]. destruct (first_is "." r); cbn [negb]; [|done].
  destruct (cutInt (drop 1 r)) as [[minor r2] ok] eqn:E2. apply cutInt_spec in E2 as [D2 _]. destruct ok; cbn [negb]; [|done].
  destruct (str_eqb r2 []); [by destruct (_ <? 0)|]. destruct (first_is "." r2).
  { destruct (cutInt (drop 1 r2)) as [[patch r3] ok] eqn:E3. apply cutInt_spec in E3 as [D3 _]. by destruct (_ || _). }
  destruct (kind_len r2) as [i|]; [|done]. destruct (i =? 0)%nat; [done|]. destruct (str_eqb (drop i r2) []); [done|].
  destruct (cutInt (drop i r2)) as [[pre r3] ok] eqn:E3. apply cutInt_spec in E3 as [D3 _]. by destruct (_ || _).
Qed.
Lemma Parse_major x : Parse x <> zero_Version -> Major (Parse x) <> [].
Proof.
  unfold Parse. destruct (cutInt x) as [[major r] ok] eqn:E1. apply cutInt_spec in E1 as [_ D1]. destruct ok; cbn [negb]; [|done].
  destruct D1 as (_ & Hne & _).
  repeat match goal with
  | |- context [if ?b then _ else _] => destruct b; try done
  | |- context [match ?x with _ => _ end] => destruct x; try done
  end.
Qed.

Definition letter (c : Z) : Prop := 97 <= c <= 122.
Lemma kind_len_app k r : Forall letter k -> (r = [] \/ exists c t, r = c :: t /\ digit c) -> kind_len (k ++ r) = Some (length k).
Proof.
  intros Hk Hr. change (chr "0") with 48. induction Hk as [|c k Hc Hk IH]; cbn [app kind_len length].
  - destruct Hr as [->|(c & t & -> & Hc)]; [done|]. cbn. unfold digit in Hc. change (chr "0") with 48. change (chr "9") with 57.
    destruct (Z.ltb_spec c 48); [lia|]. by destruct (Z.ltb_spec 57 c); [lia|].
  - rewrite IH. unfold letter in Hc. change (chr "0") with 48. change (chr "9") with 57. change (chr "a") with 97. change (chr "z") with 122.
    destruct (Z.ltb_spec 57 c); [|lia]. rewrite orb_true_r. destruct (Z.ltb_spec c 97); [lia|]. by destruct (Z.ltb_spec 122 c); [lia|].
Qed.

Lemma dot_no_digit t : no_digit (bytes "." ++ t).
Proof. by intros c u [= <- _] [H _]. Qed.
Lemma str_eqb_nil (x : list Z) : x <> [] -> str_eqb x [] = false.
Proof. intros H. unfold str_eqb. by rewrite bool_decide_false. Qed.

Section Shapes.
Context (M m : list Z).
Hypotheses (HM : decimal M) (HMne : M <> []) (Hm : decimal m) (Hmne : m <> []).

Lemma Parse_lang : 21 <= rank m -> Parse (M ++ bytes "." ++ m) = MkVersion M m [] [] [].
Proof.
  intros H21. unfold Parse. rewrite cutInt_app by (done || apply dot_no_digit). cbn [negb bytes app drop first_is].
  rewrite str_eqb_nil by done. rewrite Z.eqb_refl, drop_0. cbn [negb]. rewrite <- (app_nil_r m) at 1. rewrite cutInt_app by done.
  cbn [negb]. change (str_eqb [] []) with true. cbn iota. rewrite CmpInt_value; [|done|].
  - change (rank _) with 21 at 2. by destruct (Z.ltb_spec (Z.sgn (rank m - 21)) 0); [lia|].
  - split; [by repeat constructor|]. by intros c t [= <- _] _.
Qed.
Lemma Parse_patch p : decimal p -> p <> [] -> Parse (M ++ bytes "." ++ m ++ bytes "." ++ p) = MkVersion M m p [] [].
Proof.
  intros Hp Hpne. unfold Parse. rewrite cutInt_app by (done || apply dot_no_digit). cbn [negb bytes app drop first_is].
  rewrite str_eqb_nil by done. rewrite Z.eqb_refl, drop_0. cbn [negb]. rewrite (cutInt_app m) by (done || apply dot_no_digit). cbn [negb app].
  rewrite str_eqb_nil by done. cbn [first_is]. rewrite Z.eqb_refl. cbn [drop]. rewrite drop_0. rewrite <- (app_nil_r p) at 1. by rewrite cutInt_app.
Qed.
Lemma Parse_pre k p : Forall letter k -> k <> [] -> decimal p -> Parse (M ++ bytes "." ++ m ++ k ++ p) = MkVersion M m [] k p.
Proof.
  intros Hk Hkne Hp. unfold Parse. rewrite cutInt_app by (done || apply dot_no_digit). cbn [negb bytes app drop first_is].
  rewrite str_eqb_nil by done. rewrite Z.eqb_refl, drop_0. cbn [negb]. rewrite (cutInt_app m); [|done..|].
  2:{ destruct Hk as [|c k Hc Hk]; [done|]. intros d t [= <- _]. unfold digit, letter in *. lia. }
  cbn [negb]. rewrite str_eqb_nil by (by destruct k). rewrite kind_len_app; [|done|].
  2:{ destruct p as [|c p]; [by left|right]. exists c, p. split; [done|]. destruct Hp as [Hp _]. by apply Forall_cons in Hp as [? _]. }
  rewrite take_app_length, drop_app_length. destruct Hk as [|c k Hc Hk]; [done|]. cbn [app first_is length Nat.eqb].
  change (chr ".") with 46. destruct (Z.eqb_spec c 46); [unfold letter in Hc; lia|].
  destruct p as [|d p]; [done|]. rewrite str_eqb_nil by done. rewrite <- (app_nil_r (d :: p)) at 1. by rewrite cutInt_app.
Qed.
End Shapes.

(** ** DecInt *)

Lemma value_app x y : Forall digit x -> Forall digit y -> value 10 (x ++ y) = value 10 x * 10 ^ zlen y + value 10 y.
Proof.
  intros Hx Hy. induction Hx as [|c x Hc Hx IH]; [done|]. cbn [app]. rewrite !value_cons, IH, zlen_app by (done || by apply Forall_app).
  pose proof (zlen_nonneg x). pose proof (zlen_nonneg y). rewrite Z.pow_add_r by lia. lia.
Qed.
Lemma value_zeros k : value 10 (replicate k 48) = 0.
Proof.
  induction k as [|k IH]; [done|]. change (replicate (S k) 48) with (48 :: replicate k 48). rewrite value_cons, IH; [lia|done|].
  by apply Forall_replicate.
Qed.
Lemma value_nines k : value 10 (replicate k 57) = 10 ^ Z.of_nat k - 1.
Proof.
  induction k as [|k IH]; [done|]. change (replicate (S k) 57) with (57 :: replicate k 57). rewrite value_cons, IH; [|done|by apply Forall_replicate].
  rewrite zlen_replicate, Nat2Z.inj_succ, Z.pow_succ_r by lia. lia.
Qed.
Lemma trailing_zeros s : exists pre k, s = pre ++ replicate k 48 /\ (pre = [] \/ exists p d, pre = p ++ [d] /\ d <> 48).
Proof.
  induction s as [|c s IH] using rev_ind; [exists [], O; split; [done|by left]|]. destruct (decide (c = 48)) as [->|Hc].
  - destruct IH as (pre & k & -> & H). exists pre, (S k). split; [|done]. by rewrite replicate_S_end, app_assoc.
  - exists (s ++ [c]), O. split; [by rewrite app_nil_r|right]. by exists s, c.
Qed.

Lemma dec_scan_spec pre k :
  (pre = [] \/ exists p d, pre = p ++ [d] /\ d <> 48) ->
  wp (dec_scan (zlen (pre ++ replicate k 48) - 1)) (fun i s => i = zlen pre - 1 /\ s = pre ++ replicate k 57) (pre ++ replicate k 48).
Proof.
  intros Hpre. pose proof (zlen_nonneg pre). unfold dec_scan.
  apply (wp_loop (fun i s => exists j, (j <= k)%nat /\ i = zlen pre + Z.of_nat j - 1 /\ s = pre ++ replicate j 48 ++ replicate (k - j) 57)
    (fun i => Z.to_nat (i + 1))).
  { exists k. rewrite zlen_app, zlen_replicate, Nat.sub_diag, app_nil_r. split_and!; [done|lia|done]. }
  { lia. }
  intros i s (j & Hj & -> & ->). destruct j as [|j].
  - rewrite Nat.sub_0_r. cbn [replicate app]. replace (zlen pre + Z.of_nat 0 - 1) with (zlen pre - 1) by lia. apply wp_bind.
    destruct Hpre as [-> |(p & d & -> & Hd)]; [by cbn|]. pose proof (zlen_nonneg p).
    assert (zlen (p ++ [d]) - 1 = zlen p) as -> by (rewrite zlen_app; change (zlen [d]) with 1; lia).
    destruct (Z.geb_spec (zlen p) 0); [|lia]. rewrite <- app_assoc. apply wp_bind, wp_load_mid, wp_ret.
    change (chr "0") with 48. destruct (Z.eqb_spec d 48); [done|]. by apply wp_break.
  - destruct (Z.geb_spec (zlen pre + Z.of_nat (S j) - 1) 0); [|lia]. rewrite replicate_S_end.
    assert (Hz : zlen (pre ++ replicate j 48) = zlen pre + Z.of_nat (S j) - 1) by (rewrite zlen_app, zlen_replicate; lia).
    rewrite <- Hz, <- app_assoc, (app_assoc pre). apply wp_bind, wp_bind, wp_load_mid, wp_ret.
    change (48 =? chr "0") with true. cbn iota. change (chr "9") with 57. apply wp_bind, wp_store_mid, wp_continue.
    split; [|lia]. exists j. split; [lia|]. split; [lia|]. replace (k - j)%nat with (S (k - S j)) by lia. by rewrite <- app_assoc.
Qed.

(** The value below a number that ends in [k] zeros. *)
Lemma value_pred p d k :
  Forall digit p -> 49 <= d <= 57 ->
  value 10 (p ++ d :: replicate k 48) - 1 = value 10 (p ++ (d - 1) :: replicate k 57) /\ 0 < value 10 (p ++ d :: replicate k 48).
Proof.
  intros Hp Hd. assert (digit 48 /\ digit 57 /\ digit d /\ digit (d - 1)) as (H0 & H9 & Hd0 & Hd1) by (unfold digit; lia).
  assert (forall c, digit c -> Forall digit (replicate k c)) as Hk by (intros; by apply Forall_replicate).
  rewrite !value_app, !value_cons, value_zeros, value_nines, !zlen_cons, !zlen_replicate by (done || (by apply Hk) || (constructor; [done|by apply Hk])).
  pose proof (value_range _ Hp). pose proof (Z.pow_pos_nonneg 10 (Z.of_nat k)). rewrite Z.pow_add_r by lia. nia.
Qed.

Lemma DecInt_spec s :
  decimal s -> s <> [] ->
  if value 10 s =? 0 then DecInt s = Done [] else exists t, DecInt s = Done t /\ decimal t /\ t <> [] /\ value 10 t = value 10 s - 1.
Proof.
  intros [Hd Hz] Hne. destruct (trailing_zeros s) as (pre & k & E & Hpre). pose proof (dec_scan_spec pre k Hpre) as Hs.
  rewrite <- E in Hs. apply wp_elim in Hs as (i & s1 & Es & -> & ->). unfold DecInt, result, mbind. rewrite Es.
  destruct Hpre as [-> |(p & d & -> & Hd0)]; [cbn [app] in E; by rewrite E, value_zeros|].
  rewrite <- app_assoc in *. cbn [app] in *. rewrite E in Hd, Hz |- *. apply Forall_app in Hd as [Hp Hd]. apply Forall_cons in Hd as [Hdd _].
  unfold digit in Hdd. destruct (value_pred p d k Hp ltac:(lia)) as [-> Hpos]. pose proof (zlen_nonneg p).
  destruct (Z.eqb_spec (value 10 (p ++ d :: replicate k 48)) 0); [lia|].
  assert (zlen (p ++ [d]) - 1 = zlen p) as -> by (rewrite zlen_app; change (zlen [d]) with 1; lia). destruct (Z.ltb_spec (zlen p) 0); [lia|].
  pose proof (wp_load_mid p d (replicate k 57) (fun x s => x = d /\ s = p ++ d :: replicate k 57) (conj eq_refl eq_refl)) as Hl.
  apply wp_elim in Hl as (x & s1 & El & -> & ->). rewrite El. unfold mget at 1. change (chr "1") with 49.
  assert (H9 : Forall digit (replicate k 57)) by (by apply Forall_replicate).
  destruct (_ && _) eqn:Ec.
  - reflect. rewrite (zlen_zero p) in * by done. subst d. destruct k as [|k]; [by cbn in *|]. exists (replicate (S k) 57).
    cbn [app] in *. split; [|split; [split; [done|by intros ? ? [= <- _]]|split; [done|]]].
    + unfold mret, sub. change (Z.to_nat 1) with 1%nat. cbn [drop]. rewrite drop_0, take_ge; [done|]. rewrite length_replicate. unfold zlen. cbn [length]. rewrite length_replicate. lia.
    + rewrite value_cons by (done || (unfold digit; lia)). lia.
  - pose proof (wp_store_mid p d (u8 (d - 1)) (replicate k 57) (fun _ s => s = p ++ u8 (d - 1) :: replicate k 57) eq_refl) as Hst.
    apply wp_elim in Hst as ([] & s1 & Est & ->). rewrite Est. cbn. rewrite u8_id by lia. eexists. split; [done|].
    split; [|split; [by destruct p|done]]. split.
    + apply Forall_app. split; [done|]. constructor; [unfold digit; lia|done].
    + intros c t. destruct p as [|a p]; cbn [app].
      * intros [= <- <-] Ht Hc. destruct k as [|k]; [done|]. assert (d = 49) by lia. subst d. apply andb_false_iff in Ec as [Ec|Ec]; [done|].
        change (replicate (S k) 57) with (57 :: replicate k 57) in Ec. cbn [app] in Ec. rewrite !zlen_cons in Ec.
        pose proof (zlen_nonneg (replicate k 57)). reflect. lia.
      * intros [= <- <-] _. apply (Hz a (p ++ d :: replicate k 48)); [done|by destruct p].
Qed.

(** ** The theorem *)

#[export] Instance Compare_comparison : Comparison Compare.
Proof.
  assert (H : Comparison (fun x y => then_by (fun v w => CmpInt (Major v) (Major w)) (then_by (fun v w => CmpInt (Minor v) (Minor w))
    (then_by (fun v w => CmpInt (Patch v) (Patch w)) (then_by (fun v w => str_Compare (Kind v) (Kind w))
    (fun v w => CmpInt (Pre v) (Pre w))))) (Parse x) (Parse y))) by apply _.
  assert (E : forall x y, Compare x y = then_by (fun v w => CmpInt (Major v) (Major w)) (then_by (fun v w => CmpInt (Minor v) (Minor w))
    (then_by (fun v w => CmpInt (Patch v) (Patch w)) (then_by (fun v w => str_Compare (Kind v) (Kind w))
    (fun v w => CmpInt (Pre v) (Pre w))))) (Parse x) (Parse y)).
  { intros x y. unfold Compare, then_by. by destruct (Z.eqb_spec (CmpInt (Pre (Parse x)) (Pre (Parse y))) 0) as [->|]. }
  split; intros *; rewrite !E; apply H.
Qed.
Lemma Compare_zero x y : Compare x y = 0 <-> Parse x = Parse y.
Proof.
  split; [|intros E; unfold Compare; rewrite E; by rewrite !(cmp_refl CmpInt), (cmp_refl str_Compare)].
  unfold Compare. destruct (Parse x) as [a b c d e], (Parse y) as [a' b' c' d' e']. cbn [Major Minor Patch Kind Pre].
  destruct (Z.eqb_spec (CmpInt a a') 0) as [->%CmpInt_zero|]; [|done]. destruct (Z.eqb_spec (CmpInt b b') 0) as [->%CmpInt_zero|]; [|done].
  destruct (Z.eqb_spec (CmpInt c c') 0) as [->%CmpInt_zero|]; [|done]. destruct (Z.eqb_spec (str_Compare d d') 0) as [->%str_Compare_zero|]; [|done].
  by destruct (Z.eqb_spec (CmpInt e e') 0) as [->%CmpInt_zero|].
Qed.
Lemma Compare_malformed x y : IsValid x = false -> IsValid y = true -> Compare x y = -1.
Proof.
  unfold IsValid. intros Hx%negb_false_iff%bool_decide_eq_true Hy%negb_true_iff%bool_decide_eq_false.
  unfold Compare. rewrite Hx. pose proof (Parse_major y Hy) as Hm. cbn [Major zero_Version]. destruct (Major (Parse y)) as [|c l]; [done|].
  unfold CmpInt, str_eqb. rewrite bool_decide_false by done. rewrite zlen_cons. pose proof (zlen_nonneg l). change (zlen (@nil Z)) with 0.
  by destruct (Z.ltb_spec 0 (zlen l + 1)); [|lia].
Qed.
Lemma CmpInt_empty x : x <> [] -> CmpInt [] x = -1.
Proof.
  intros Hx. unfold CmpInt, str_eqb. rewrite bool_decide_false by done. destruct x as [|c l]; [done|]. rewrite zlen_cons. pose proof (zlen_nonneg l).
  change (zlen (@nil Z)) with 0. by destruct (Z.ltb_spec 0 (zlen l + 1)); [|lia].
Qed.

(** C28: toolchain versions.  [Compare] is a total preorder on all strings whose
    ties are the strings that parse alike, with the malformed ones below all the
    others; [Max] is a maximum.  The numbers of a parsed version are decimals
    without leading zeros, which [CmpInt] compares by value, and [DecInt] returns
    the decimal of the number before, or nothing for 0.  From Go 1.21 on, a language
    version comes before its prereleases, and these before its releases. *)
Theorem versions_ordered :
  Comparison Compare /\
  (forall x y, Compare x y = 0 <-> Parse x = Parse y) /\
  (forall x y, IsValid x = false -> IsValid y = true -> Compare x y = -1) /\
  (forall x y, Compare x (Max x y) <= 0 /\ Compare y (Max x y) <= 0 /\ (Max x y = x \/ Max x y = y)) /\
  (forall x, version_ok (Parse x)) /\
  (forall x y, decimal x -> decimal y -> CmpInt x y = Z.sgn (rank x - rank y)) /\
  (forall s, decimal s -> s <> [] ->
     if value 10 s =? 0 then DecInt s = Done []
     else exists t, DecInt s = Done t /\ decimal t /\ t <> [] /\ value 10 t = value 10 s - 1) /\
  (forall M m k p q, decimal M -> M <> [] -> decimal m -> 21 <= rank m -> Forall letter k -> k <> [] -> decimal p -> decimal q -> q <> [] ->
     Compare (M ++ bytes "." ++ m) (M ++ bytes "." ++ m ++ k ++ p) = -1 /\
     Compare (M ++ bytes "." ++ m ++ k ++ p) (M ++ bytes "." ++ m ++ bytes "." ++ q) = -1 /\
     IsLang (M ++ bytes "." ++ m) = true /\ Lang (M ++ bytes "." ++ m ++ bytes "." ++ q) = M ++ bytes "." ++ m).
Proof.
  split_and!; [apply _|apply Compare_zero|apply Compare_malformed| |apply Parse_decimal|apply CmpInt_value|apply DecInt_spec|].
  - intros x y. unfold Max. pose proof (cmp_sym (c := Compare) x y). destruct (Z.ltb_spec (Compare x y) 0); rewrite cmp_refl by apply _; split_and!; try lia; [by right|by left].
  - intros M m k p q HM HMne Hm H21 Hk Hkne Hp Hq Hqne.
    assert (Hmne : m <> []) by (intros ->; cbn in H21; lia). unfold Compare, IsLang, Lang.
    rewrite (Parse_lang M m) by done. rewrite (Parse_pre M m) by done. rewrite (Parse_patch M m) by done. cbn [Major Minor Patch Kind Pre].
    rewrite !(cmp_refl CmpInt), (CmpInt_empty q) by done. cbn [Z.eqb negb]. split_and!; [by destruct k|done| |].
    + rewrite (bool_decide_false (MkVersion M m [] [] [] = zero_Version)); [done|]. by intros [= -> _].
    + rewrite str_eqb_nil by done. cbn [orb]. destruct (_ && _) eqn:E; [|done]. exfalso. apply andb_prop in E as [_ E].
      apply bool_decide_eq_true in E. subst m. by vm_compute in H21.
Qed.
Lemma versions_ordered_witness :
  Compare (bytes "1.21") (bytes "1.21rc2") = -1 /\ Compare (bytes "1.21rc2") (bytes "1.21.0") = -1 /\ DecInt (bytes "20") = Done (bytes "19").
Proof.
  destruct versions_ordered as (_ & _ & _ & _ & _ & _ & _ & H).
  assert (Hd : forall c, digit c -> decimal [c]) by (intros c Hc; split; [by constructor|by intros a t [= _ <-]]).
  assert (H21 : decimal (bytes "21")) by (split; [by repeat constructor|by intros c t [= <- _] _]).
  destruct (H (bytes "1") (bytes "21") (bytes "rc") (bytes "2") (bytes "0")) as (H1 & H2 & _).
  1-9: first [done|by apply Hd|by repeat constructor].
  split; [exact H1|]. split; [exact H2|by vm_compute].
Defined.
