(* ===== verification/Semver.v ===== *)
(** * golang.org/x/mod/semver: semantic versions

    [src/src/cmd/vendor/golang.org/x/mod/semver/semver.go], the order that the go
    command uses for the versions of modules.  Strings are lists of bytes; a
    scanning loop [for i < len(v) && ...] is a recursion on the rest of [v]. *)

From S2P Require Import Prelude.
From S2P Require Import Slice.
From S2P Require Import Text.
From S2P Require Import Gover.

Record parsed : Type := Parsed {
  major : list Z; minor : list Z; patch : list Z; short : list Z; prerelease : list Z; build : list Z }.

Definition isIdentChar (c : Z) : bool :=
  (chr "A" <=? c) && (c <=? chr "Z") || (chr "a" <=? c) && (c <=? chr "z") || (chr "0" <=? c) && (c <=? chr "9") || (c =? chr "-").

(** [digits_len v] is where the loop over the digits of [v] stops. *)
Definition isBadNum (v : list Z) : bool :=
  let i := digits_len v in
  (i =? length v)%nat && (1 <? i)%nat && first_is "0" v.
Definition isNum (v : list Z) : bool := (digits_len v =? length v)%nat.

Definition failed : list Z * list Z * bool := ([], [], false).

Definition parseInt (v : list Z) : list Z * list Z * bool :=
  match v with
  | [] => failed
  | c :: _ =>
      if (c <? chr "0") || (chr "9" <? c) then failed
      else
        let i := S (digits_len (drop 1 v)) in
        if (c =? chr "0") && negb (i =? 1)%nat then failed else (take i v, drop i v, true)
  end.

(** [v[start:i]] *)
Definition slice (start i : nat) (v : list Z) : list Z := drop start (take i v).

(** The loop of [parsePrerelease] and [parseBuild] from index [i] on, which ends at
    a byte for which [stop] holds; [bad] is the test of an identifier.  The result
    is [i] and [start], or [None] for the [return] in the loop. *)
Fixpoint identifiers (stop : Z -> bool) (bad : list Z -> bool) (v rest : list Z) (i start : nat) : option (nat * nat) :=
  match rest with
  | [] => Some (i, start)
  | c :: rest =>
      if stop c then Some (i, start)
      else if negb (isIdentChar c) && negb (c =? chr ".") then None
      else if c =? chr "." then
        if (start =? i)%nat || bad (slice start i v) then None
        else identifiers stop bad v rest (S i) (S i)
      else identifiers stop bad v rest (S i) start
  end.

Definition parsePrerelease (v : list Z) : list Z * list Z * bool :=
  if negb (first_is "-" v) then failed
  else
    match identifiers (fun c => c =? chr "+") isBadNum v (drop 1 v) 1 1 with
    | None => failed
    | Some (i, start) =>
        if (start =? i)%nat || isBadNum (slice start i v) then failed else (take i v, drop i v, true)
    end.
Definition parseBuild (v : list Z) : list Z * list Z * bool :=
  if negb (first_is "+" v) then failed
  else
    match identifiers (fun _ => false) (fun _ => false) v (drop 1 v) 1 1 with
    | None => failed
    | Some (i, start) => if (start =? i)%nat then failed else (take i v, drop i v, true)
    end.

(** [None] is the result [ok = false]: no caller looks at the other one then. *)
Definition parse (v : list Z) : option parsed :=
  if negb (first_is "v" v) then None
  else
    let '(maj, v, ok) := parseInt (drop 1 v) in
    if negb ok then None
    else if str_eqb v [] then Some (Parsed maj (bytes "0") (bytes "0") (bytes ".0.0") [] [])
    else if negb (first_is "." v) then None
    else
      let '(min, v, ok) := parseInt (drop 1 v) in
      if negb ok then None
      else if str_eqb v [] then Some (Parsed maj min (bytes "0") (bytes ".0") [] [])
      else if negb (first_is "." v) then None
      else
        let '(pat, v, ok) := parseInt (drop 1 v) in
        if negb ok then None
        else
          let '(pre, v, ok) := if first_is "-" v then parsePrerelease v else ([], v, true) in
          if negb ok then None
          else
            let '(bld, v, ok) := if first_is "+" v then parseBuild v else ([], v, true) in
            if negb ok then None
            else if negb (str_eqb v []) then None
            else Some (Parsed maj min pat [] pre bld).

Definition IsValid (v : list Z) : bool := match parse v with Some _ => true | None => false end.

Definition Canonical (v : list Z) : list Z :=
  match parse v with
  | None => []
  | Some p =>
      if negb (str_eqb (build p) []) then take (length v - length (build p)) v
      else if negb (str_eqb (short p) []) then v ++ short p
      else v
  end.

Definition Major (v : list Z) : list Z :=
  match parse v with None => [] | Some pv => take (1 + length (major pv)) v end.
Definition MajorMinor (v : list Z) : list Z :=
  match parse v with
  | None => []
  | Some pv =>
      let i := (1 + length (major pv))%nat in
      let j := (i + 1 + length (minor pv))%nat in
      if (j <=? length v)%nat && first_is "." (drop i v) && str_eqb (slice (i + 1) j v) (minor pv) then take j v
      else take i v ++ bytes "." ++ minor pv
  end.
Definition Prerelease (v : list Z) : list Z := match parse v with None => [] | Some pv => prerelease pv end.
Definition Build (v : list Z) : list Z := match parse v with None => [] | Some pv => build pv end.

Definition compareInt (x y : list Z) : Z :=
  if str_eqb x y then 0
  else if zlen x <? zlen y then -1
  else if zlen x >? zlen y then 1
  else if str_ltb x y then -1 else 1.

Fixpoint ident_len (x : list Z) : nat :=
  match x with
  | c :: x => if c =? chr "." then 0 else S (ident_len x)
  | [] => 0
  end.
Definition nextIdent (x : list Z) : list Z * list Z := (take (ident_len x) x, drop (ident_len x) x).

(** The loop of [comparePrerelease]; every round drops a byte of [x], so that its
    length is enough fuel. *)
Fixpoint compare_idents (fuel : nat) (x y : list Z) : Z :=
  match fuel with
  | O => 0
  | S fuel =>
      if negb (str_eqb x []) && negb (str_eqb y []) then
        let '(dx, x) := nextIdent (drop 1 x) in
        let '(dy, y) := nextIdent (drop 1 y) in
        if str_eqb dx dy then compare_idents fuel x y
        else
          let ix := isNum dx in
          let iy := isNum dy in
          if negb (Bool.eqb ix iy) then (if ix then -1 else 1)
          else if ix && (zlen dx <? zlen dy) then -1
          else if ix && (zlen dx >? zlen dy) then 1
          else if str_ltb dx dy then -1 else 1
      else if str_eqb x [] then -1 else 1
  end.
Definition comparePrerelease (x y : list Z) : Z :=
  if str_eqb x y then 0
  else if str_eqb x [] then 1
  else if str_eqb y [] then -1
  else compare_idents (S (length x)) x y.

Definition Compare (v w : list Z) : Z :=
  match parse v, parse w with
  | None, None => 0
  | None, Some _ => -1
  | Some _, None => 1
  | Some pv, Some pw =>
      let c := compareInt (major pv) (major pw) in
      if negb (c =? 0) then c
      else
        let c := compareInt (minor pv) (minor pw) in
        if negb (c =? 0) then c
        else
          let c := compareInt (patch pv) (patch pw) in
          if negb (c =? 0) then c
          else comparePrerelease (prerelease pv) (prerelease pw)
  end.

Definition Max (v w : list Z) : list Z :=
  let v := Canonical v in
  let w := Canonical w in
  if Compare v w >? 0 then v else w.
Definition compareVersion (a b : list Z) : Z :=
  let cmp := Compare a b in
  if negb (cmp =? 0) then cmp else str_Compare a b.

Example semver_order :
  map (fun '(v, w) => Compare (bytes v) (bytes w))
    [("v1.0.0-alpha", "v1.0.0-alpha.1"); ("v1.0.0-alpha.1", "v1.0.0-alpha.beta"); ("v1.0.0-beta.2", "v1.0.0-beta.11");
     ("v1.0.0-rc.1", "v1.0.0"); ("v1", "v1.0.0+meta"); ("1.0.0", "v0.0.0"); ("v1.10.0", "v1.9.9"); ("v1.02.0", "x")]%string
  = [-1; -1; -1; -1; 0; -1; 1; 0].
Proof. by vm_compute. Qed.
Example semver_parts :
  Canonical (bytes "v2.1+m") = [] /\ Canonical (bytes "v2.1") = bytes "v2.1.0" /\ Canonical (bytes "v2.1.0-p+m") = bytes "v2.1.0-p" /\
  MajorMinor (bytes "v2") = bytes "v2.0" /\ MajorMinor (bytes "v2.11.5-x") = bytes "v2.11" /\ Major (bytes "v2.1.0") = bytes "v2" /\
  Prerelease (bytes "v2.1.0-pre+meta") = bytes "-pre" /\ Build (bytes "v2.1.0+meta") = bytes "+meta" /\ IsValid (bytes "v1.0.0-01") = false.
Proof. by vm_compute. Qed.
