(* ===== verification/Utf16.v ===== *)
(** * unicode/utf16

    [src/src/unicode/utf16/utf16.go].  Runes are the integers of an [int32],
    code units those of a [uint16].  The array [Encode] fills is the store. *)

From S2P Require Import Prelude.
From S2P Require Import Slice.
From S2P Require Import Text.

Definition replacementChar : Z := 0xFFFD.
Definition maxRune : Z := 0x10FFFF.
Definition surr1 : Z := 0xd800.
Definition surr2 : Z := 0xdc00.
Definition surr3 : Z := 0xe000.
Definition surrSelf : Z := 0x10000.

Definition IsSurrogate (r : Z) : bool := (surr1 <=? r) && (r <? surr3).

Definition DecodeRune (r1 r2 : Z) : Z :=
  if (surr1 <=? r1) && (r1 <? surr2) && (surr2 <=? r2) && (r2 <? surr3) then
    (((r1 - surr1) << 10) .| (r2 - surr2)) + surrSelf
  else replacementChar.

Definition EncodeRune (r : Z) : Z * Z :=
  if (r <? surrSelf) || (r >? maxRune) then (replacementChar, replacementChar)
  else
    let r := r - surrSelf in
    (surr1 + ((r >> 10) .& 0x3ff), surr2 + (r .& 0x3ff)).

Definition RuneLen (r : Z) : Z :=
  if ((0 <=? r) && (r <? surr1)) || ((surr3 <=? r) && (r <? surrSelf)) then 1
  else if (surrSelf <=? r) && (r <=? maxRune) then 2
  else -1.

(** The second loop of [Encode]. *)
Fixpoint encode_fill (s : list Z) (n : Z) : M (list Z) Z :=
  match s with
  | [] => mret n
  | v :: s =>
      n <- (let k := RuneLen v in
            if k =? 1 then store n (u16 v) ;; mret (n + 1)
            else if k =? 2 then
              let '(r1, r2) := EncodeRune v in
              store n (u16 r1) ;; store (n + 1) (u16 r2) ;; mret (n + 2)
            else store n (u16 replacementChar) ;; mret (n + 1)) ;;
      encode_fill s n
  end.
Definition encode_room (s : list Z) : Z :=
  zlen s + zlen (filter (fun v => surrSelf <= v) s).
Definition Encode (s : list Z) : outcome (list Z) :=
  result (
    n <- encode_fill s 0 ;;
    a <- mget ;;
    if (0 <=? n) && (n <=? zlen a) then mret (sub 0 n a) else mpanic SliceBounds)
    (replicate (Z.to_nat (encode_room s)) 0).

Definition AppendRune (a : list Z) (r : Z) : list Z :=
  if ((0 <=? r) && (r <? surr1)) || ((surr3 <=? r) && (r <? surrSelf)) then a ++ [u16 r]
  else if (surrSelf <=? r) && (r <=? maxRune) then
    let '(r1, r2) := EncodeRune r in a ++ [u16 r1; u16 r2]
  else a ++ [replacementChar].

Fixpoint decode (s buf : list Z) : list Z :=
  match s with
  | [] => buf
  | r :: s1 =>
      if (r <? surr1) || (surr3 <=? r) then decode s1 (buf ++ [r])
      else
        match s1 with
        | r2 :: s2 =>
            if (surr1 <=? r) && (r <? surr2) && ((surr2 <=? r2) && (r2 <? surr3)) then decode s2 (buf ++ [DecodeRune r r2])
            else decode s1 (buf ++ [replacementChar])
        | [] => decode s1 (buf ++ [replacementChar])
        end
  end.
Definition Decode (s : list Z) : list Z := decode s [].

Example encode_smile : Encode [0x41; 0x1F600; 0xD800] = Done [0x41; 0xD83D; 0xDE00; 0xFFFD].
Proof. by vm_compute. Qed.
