(* ===== verification/Utf16Theorems.v ===== *)
(** * unicode/utf16: the encoding is read back *)

From S2P Require Import Prelude.
From S2P Require Import Slice.
From S2P Require Import Text.
From S2P Require Import Utf8Spec.
From S2P Require Import Utf8Text.
From S2P Require Import Utf16.

(** The code units of a rune, as RFC 2781 has them; what is no scalar value is
    replaced. *)
Definition units (r : Z) : list Z :=
  if decide (valid_rune r) then
    if r <? 0x10000 then [r] else [0xD800 + (r - 0x10000) / 1024; 0xDC00 + (r - 0x10000) mod 1024]
  else [0xFFFD].
Definition text_units (rs : list Z) : list Z   := List.concat (units <$> rs).
Definition scalar (r : Z) : Z := if decide (valid_rune r) then r else 0xFFFD.

Lemma EncodeRune_high r :
  0x10000 <= r <= 0x10FFFF -> EncodeRune r = (0xD800 + (r - 0x10000) / 1024, 0xDC00 + (r - 0x10000) mod 1024).
Proof.
  intros Hr. unfold EncodeRune, surrSelf, maxRune. destruct (Z.ltb_spec r 0x10000); [lia|]. rewrite Z.gtb_ltb.
  destruct (Z.ltb_spec 0x10FFFF r); [lia|]. cbn [orb]. rewrite Z.shiftr_div_pow2, !(land_low 10) by done.
  change (2 ^ 10) with 1024. unfold surr1, surr2. f_equal. f_equal. divlia.
Qed.
Lemma DecodeRune_pair h l : 0 <= h < 1024 -> 0 <= l < 1024 -> DecodeRune (0xD800 + h) (0xDC00 + l) = 0x10000 + h * 1024 + l.
Proof.
  intros Hh Hl. unfold DecodeRune, surr1, surr2, surr3, surrSelf.
  destruct (Z.leb_spec 0xd800 (0xD800 + h)); [|lia]. destruct (Z.ltb_spec (0xD800 + h) 0xdc00); [|lia].
  destruct (Z.leb_spec 0xdc00 (0xDC00 + l)); [|lia]. destruct (Z.ltb_spec (0xDC00 + l) 0xe000); [|lia]. cbn [andb].
  replace (0xD800 + h - 0xd800) with h by lia. replace (0xDC00 + l - 0xdc00) with l by lia.
  rewrite Z.shiftl_mul_pow2, (lor_add 10) by (done || apply Z_mod_mult). change (2 ^ 10) with 1024. lia.
Qed.

(** The three classes of the code. *)
Lemma rune_class r :
  RuneLen r = (if decide (valid_rune r) then zlen (units r) else -1) /\
  ((((0 <=? r) && (r <? surr1)) || ((surr3 <=? r) && (r <? surrSelf)) = true /\ units r = [r] /\ 0 <= r < 0x10000 /\ valid_rune r /\ (r < 0xD800 \/ 0xE000 <= r)) \/
   (((0 <=? r) && (r <? surr1)) || ((surr3 <=? r) && (r <? surrSelf)) = false /\ (surrSelf <=? r) && (r <=? maxRune) = true /\
      0x10000 <= r <= 0x10FFFF /\ valid_rune r /\ units r = [0xD800 + (r - 0x10000) / 1024; 0xDC00 + (r - 0x10000) mod 1024]) \/
   (((0 <=? r) && (r <? surr1)) || ((surr3 <=? r) && (r <? surrSelf)) = false /\ (surrSelf <=? r) && (r <=? maxRune) = false /\ ~ valid_rune r /\ units r = [0xFFFD])).
Proof.
  unfold RuneLen, units, valid_rune, surr1, surr3, surrSelf, maxRune.
  destruct (Z.leb_spec 0 r), (Z.ltb_spec r 0xd800), (Z.leb_spec 0xe000 r), (Z.ltb_spec r 0x10000), (Z.leb_spec 0x10000 r), (Z.leb_spec r 0x10FFFF);
    try lia; cbn [andb orb]; case_decide; try lia; (split; [done|]);
    first [left; split_and!; (done || lia)|right; left; split_and!; (done || lia)|right; right; split_and!; (done || lia)].
Qed.

Lemma AppendRune_units a r : AppendRune a r = a ++ units r.
Proof.
  unfold AppendRune. destruct (rune_class r) as [_ [(-> & -> & Hr & _)|[(-> & -> & Hr & _ & ->)|(-> & -> & _ & ->)]]].
  - by rewrite u16_id by lia.
  - rewrite EncodeRune_high by done. rewrite !u16_id by divlia. done.
  - done.
Qed.

Lemma decode_units r s buf : decode (units r ++ s) buf = decode s (buf ++ [scalar r]).
Proof.
  unfold scalar. destruct (rune_class r) as [_ [(_ & -> & Hr & Hv & Hs)|[(_ & _ & Hr & Hv & ->)|(_ & _ & Hv & ->)]]].
  - rewrite decide_True by done. cbn [app decode]. unfold surr1, surr3. destruct (Z.ltb_spec r 0xd800); [done|].
    by destruct (Z.leb_spec 0xe000 r); [|lia].
  - rewrite decide_True by done. cbn [app decode]. rewrite DecodeRune_pair by divlia.
    set (h := (r - 0x10000) / 1024). set (l := (r - 0x10000) mod 1024). assert (0 <= h < 1024 /\ 0 <= l < 1024) as [Hh Hl] by (unfold h, l; divlia).
    unfold surr1, surr2, surr3. destruct (Z.ltb_spec (0xD800 + h) 0xd800); [lia|]. destruct (Z.leb_spec 0xe000 (0xD800 + h)); [lia|].
    destruct (Z.leb_spec 0xd800 (0xD800 + h)); [|lia]. destruct (Z.ltb_spec (0xD800 + h) 0xdc00); [|lia].
    destruct (Z.leb_spec 0xdc00 (0xDC00 + l)); [|lia]. destruct (Z.ltb_spec (0xDC00 + l) 0xe000); [|lia]. cbn [andb orb].
    do 4 f_equal. unfold h, l. divlia.
  - by rewrite decide_False by done.
Qed.
Lemma decode_text rs buf : decode (text_units rs) buf = buf ++ (scalar <$> rs).
Proof.
  revert buf. induction rs as [|r rs IH]; intros buf; [by rewrite app_nil_r|].
  unfold text_units in *. cbn [fmap list_fmap List.concat]. rewrite decode_units, IH. by rewrite <- app_assoc.
Qed.

(** The room [Encode] makes is enough. *)
Lemma encode_room_enough rs : zlen (text_units rs) <= encode_room rs.
Proof.
  unfold encode_room. induction rs as [|r rs IH]; [done|]. unfold text_units in *. cbn [fmap list_fmap List.concat].
  rewrite zlen_app, zlen_cons, filter_cons. pose proof (zlen_nonneg (filter (fun v => surrSelf <= v) rs)).
  destruct (rune_class r) as [_ [(_ & -> & _)|[(_ & _ & Hr & _ & ->)|(_ & _ & _ & ->)]]].
  - change (zlen [r]) with 1. case_decide; rewrite ?zlen_cons; lia.
  - rewrite decide_True by (unfold surrSelf; lia). change (zlen [_; _]) with 2. rewrite zlen_cons. lia.
  - change (zlen [0xFFFD]) with 1. case_decide; rewrite ?zlen_cons; lia.
Qed.

Lemma encode_fill_spec rs pre rest :
  zlen (text_units rs) <= zlen rest ->
  wp (encode_fill rs (zlen pre)) (fun n a => n = zlen pre + zlen (text_units rs) /\ exists t, a = pre ++ text_units rs ++ t) (pre ++ rest).
Proof.
  revert pre rest. induction rs as [|r rs IH]; intros pre rest Hl.
  { cbn [encode_fill]. apply wp_ret. change (zlen (text_units [])) with 0. split; [lia|by exists rest]. }
  assert (E : text_units (r :: rs) = units r ++ text_units rs) by done. rewrite E in *. rewrite zlen_app in Hl. pose proof (zlen_nonneg (text_units rs)).
  cbn [encode_fill]. apply wp_bind. cbv zeta.
  assert (Hgo : forall rest', zlen (text_units rs) <= zlen rest' -> wp (encode_fill rs (zlen pre + zlen (units r)))
    (fun n a => n = zlen pre + zlen (units r ++ text_units rs) /\ exists t, a = pre ++ (units r ++ text_units rs) ++ t) ((pre ++ units r) ++ rest')).
  { intros rest' Hr. rewrite <- zlen_app. eapply wp_mono; [by apply IH|]. cbn beta. rewrite !zlen_app. intros n a (-> & t & ->).
    split; [lia|]. exists t. by rewrite <- !app_assoc. }
  destruct (rune_class r) as [-> [(_ & Eu & Hr & Hv & _)|[(_ & _ & Hr & Hv & Eu)|(_ & _ & Hv & Eu)]]].
  - rewrite decide_True by done. rewrite Eu in *. change (zlen [r]) with 1 in *. cbn [Z.eqb].
    destruct rest as [|x rest]; [change (zlen (@nil Z)) with 0 in Hl; lia|]. rewrite zlen_cons in Hl. change (1 =? 1) with true. cbn iota.
    apply wp_bind, wp_store_mid, wp_ret. rewrite u16_id by lia. specialize (Hgo rest ltac:(lia)). by rewrite <- app_assoc in Hgo.
  - rewrite decide_True by done. rewrite EncodeRune_high by done. rewrite Eu in *. change (zlen [_; _]) with 2 in *. change (2 =? 1) with false. change (2 =? 2) with true. cbn iota.
    destruct rest as [|x [|y rest]]; [change (zlen (@nil Z)) with 0 in Hl; lia|change (zlen [x]) with 1 in Hl; lia|]. rewrite !zlen_cons in Hl.
    apply wp_bind, wp_store_mid, wp_bind. set (h := u16 (0xD800 + _)). set (l := u16 (0xDC00 + _)).
    assert (zlen pre + 1 = zlen (pre ++ [h])) as -> by (by rewrite zlen_app). replace (pre ++ h :: y :: rest) with ((pre ++ [h]) ++ y :: rest) by (by rewrite <- app_assoc).
    apply wp_store_mid, wp_ret. specialize (Hgo rest ltac:(lia)). subst h l. rewrite !u16_id by divlia. by rewrite <- !app_assoc in *.
  - rewrite decide_False by done. rewrite Eu in *. change (zlen [_]) with 1 in *. change (-1 =? 1) with false. change (-1 =? 2) with false. cbn iota.
    destruct rest as [|x rest]; [change (zlen (@nil Z)) with 0 in Hl; lia|]. rewrite zlen_cons in Hl.
    apply wp_bind, wp_store_mid, wp_ret. specialize (Hgo rest ltac:(lia)). by rewrite <- app_assoc in Hgo.
Qed.

Lemma Encode_units rs : Encode rs = Done (text_units rs).
Proof.
  pose proof (zlen_nonneg (text_units rs)) as H0. pose proof (encode_room_enough rs) as Hroom. unfold Encode.
  destruct (wp_elim _ _ _ (encode_fill_spec rs [] (replicate (Z.to_nat (encode_room rs)) 0) ltac:(rewrite zlen_replicate; lia))) as (n & a & E & -> & t & ->).
  change (zlen (@nil Z)) with 0 in E. cbn [app] in *. unfold result, mbind. rewrite E. unfold mget. rewrite Z.add_0_l, zlen_app. pose proof (zlen_nonneg t).
  destruct (Z.leb_spec 0 (zlen (text_units rs))); [|lia]. destruct (Z.leb_spec (zlen (text_units rs)) (zlen (text_units rs) + zlen t)); [|lia].
  cbn. f_equal. unfold sub, zlen. rewrite Nat2Z.id, Nat.sub_0_r, drop_0. apply take_app_length.
Qed.

Lemma decode_scalar s buf : Forall valid_rune buf -> Forall (fun c => 0 <= c < 0x10000) s -> Forall valid_rune (decode s buf).
Proof.
  remember (length s) as n eqn:Hn. revert s buf Hn. induction n as [n IH] using lt_wf_ind. intros s buf -> Hb Hs.
  destruct s as [|r s1]; [done|]. apply Forall_cons in Hs as [Hr Hs]. assert (Hrep : valid_rune replacementChar) by (unfold valid_rune, replacementChar; lia).
  assert (Hsnoc : forall c, valid_rune c -> Forall valid_rune (buf ++ [c])) by (intros; apply Forall_app; split; [done|by constructor]).
  cbn [decode]. unfold surr1, surr2, surr3.
  destruct (Z.ltb_spec r 0xd800), (Z.leb_spec 0xe000 r); cbn [orb]; try (apply (IH (length s1)); [cbn; lia|done|apply Hsnoc; unfold valid_rune; lia|done]).
  destruct s1 as [|r2 s2]; [by apply Hsnoc|]. destruct (_ && _) eqn:E.
  - apply (IH (length s2)); [cbn; lia|done| |by apply Forall_cons in Hs as [_ ?]]. apply Hsnoc. reflect.
    replace r with (0xD800 + (r - 0xD800)) by lia. replace r2 with (0xDC00 + (r2 - 0xDC00)) by lia.
    rewrite DecodeRune_pair by lia. unfold valid_rune. lia.
  - apply (IH (length (r2 :: s2))); [cbn; lia|done|by apply Hsnoc|done].
Qed.

(** C29: UTF-16.  [Encode] returns the code units of the runes, a rune that is no
    scalar value replaced by U+FFFD, without a panic; [AppendRune] appends those of
    one rune and [RuneLen] counts them.  [Decode] reads them back; on every text it
    returns scalar values only.  [EncodeRune] and [DecodeRune] are inverse on the
    runes that need two units. *)
Theorem utf16_roundtrip :
  (forall rs, Encode rs = Done (text_units rs) /\ Decode (text_units rs) = scalar <$> rs) /\
  (forall a r, AppendRune a r = a ++ units r) /\
  (forall r, RuneLen r = if decide (valid_rune r) then zlen (units r) else -1) /\
  (forall s, Forall (fun c => 0 <= c < 0x10000) s -> Forall valid_rune (Decode s)) /\
  (forall r, 0x10000 <= r <= 0x10FFFF ->
     let '(r1, r2) := EncodeRune r in IsSurrogate r1 = true /\ IsSurrogate r2 = true /\ DecodeRune r1 r2 = r) /\
  (forall r, ~ (0x10000 <= r <= 0x10FFFF) -> EncodeRune r = (replacementChar, replacementChar)).
Proof.
  split; [intros rs; split; [apply Encode_units|apply (decode_text rs [])]|].
  split; [apply AppendRune_units|]. split; [intros r; apply (rune_class r)|]. split; [intros s Hs; by apply decode_scalar|]. split.
  - intros r Hr. rewrite EncodeRune_high by done. set (h := (r - 0x10000) / 1024). set (l := (r - 0x10000) mod 1024).
    assert (0 <= h < 1024 /\ 0 <= l < 1024 /\ r = 0x10000 + h * 1024 + l) as (Hh & Hl & Er) by (unfold h, l; divlia).
    clearbody h l. rewrite DecodeRune_pair, Er by done. unfold IsSurrogate, surr1, surr3. rewrite !andb_true_iff, !Z.leb_le, !Z.ltb_lt. lia.
  - intros r Hr. unfold EncodeRune, surrSelf, maxRune. rewrite Z.gtb_ltb.
    destruct (Z.ltb_spec r 0x10000), (Z.ltb_spec 0x10FFFF r); cbn [orb]; done || lia.
Qed.
Lemma utf16_roundtrip_witness :
  Decode [0x41; 0xD83D; 0xDE00] = [0x41; 0x1F600] /\ Forall valid_rune (Decode [0xDE00; 0xD83D]).
Proof.
  destruct utf16_roundtrip as (H1 & _ & _ & H2 & _). split.
  - destruct (H1 [0x41; 0x1F600]) as [_ H]. exact H.
  - apply H2. apply Forall_cons; split; [lia|]. apply Forall_cons; split; [lia|done].
Defined.
