(* ===== verification/Links.v ===== *)
(** * Doubly linked sequences

    A run of cells, each of which points to the one after it ([nx]) and to the
    one before it ([pv]).  A ring is a run from a cell back to itself.  What
    inserting and removing a cell do to a run is stated once for [container/list]
    and [container/ring]. *)

From stdpp Require Import functions.
From S2P Require Import Prelude.

Section Links.
Context {A : Type} `{EqDecision A}.
Implicit Types (nx pv : A -> option A) (l : list A) (a b e : A).

Fixpoint links nx pv l : Prop :=
  match l with
  | a :: (b :: _) as t => nx a = Some b /\ pv b = Some a /\ links nx pv t
  | _ => True
  end.

(** The cells whose [nx], and those whose [pv], the links of a run speak of. *)
Definition sources l : list A := removelast l.
Definition targets l : list A := tail l.

Lemma links_cons2 nx pv a b l : links nx pv (a :: b :: l) <-> nx a = Some b /\ pv b = Some a /\ links nx pv (b :: l).
Proof. done. Qed.

Lemma links_app nx pv l1 a l2 : links nx pv (l1 ++ a :: l2) <-> links nx pv (l1 ++ [a]) /\ links nx pv (a :: l2).
Proof.
  induction l1 as [|x l1 IH]; [cbn; tauto|]. destruct l1 as [|y l1]; cbn [app] in *.
  - cbn [links]. tauto.
  - rewrite !(links_cons2 _ _ x y), IH. tauto.
Qed.

Lemma sources_snoc l a : sources (l ++ [a]) = l.
Proof. apply removelast_last. Qed.
Lemma sources_app l1 a l2 : sources (l1 ++ a :: l2) = l1 ++ sources (a :: l2).
Proof. by apply removelast_app. Qed.
Lemma targets_cons a l : targets (a :: l) = l.
Proof. done. Qed.
Lemma sources_cons2 a b l : sources (a :: b :: l) = a :: sources (b :: l).
Proof. done. Qed.
Lemma targets_app l1 a l2 : targets (l1 ++ a :: l2) = targets (l1 ++ [a]) ++ l2.
Proof. destruct l1; cbn; [done|]. by rewrite <- app_assoc. Qed.

(** Links do not depend on the other cells. *)
Lemma links_ext nx pv nx' pv' l :
  links nx pv l -> (forall a, a ∈ sources l -> nx' a = nx a) -> (forall b, b ∈ targets l -> pv' b = pv b) -> links nx' pv' l.
Proof.
  induction l as [|a [|b l] IH]; [done..|]. rewrite !links_cons2, sources_cons2, targets_cons. intros (H1 & H2 & H3) Hs Ht.
  rewrite Hs, Ht by (apply list_elem_of_here). split_and!; [done..|]. apply IH; [done| |].
  - intros c Hc. apply Hs. by apply list_elem_of_further.
  - intros c Hc. apply Ht. by apply list_elem_of_further.
Qed.

(** A run that passes through no cell twice. *)
Record run nx pv l : Prop := Run {
  run_links : links nx pv l;
  run_sources : NoDup (sources l);
  run_targets : NoDup (targets l) }.

Lemma run_split nx pv l1 a b l2 :
  run nx pv (l1 ++ a :: b :: l2) <->
  links nx pv (l1 ++ [a]) /\ nx a = Some b /\ pv b = Some a /\ links nx pv (b :: l2) /\
  NoDup (l1 ++ a :: sources (b :: l2)) /\ NoDup (targets (l1 ++ [a]) ++ b :: l2).
Proof.
  split.
  - intros [H1 H2 H3]. rewrite links_app, links_cons2 in H1. rewrite sources_app, sources_cons2 in H2. rewrite targets_app in H3. tauto.
  - intros (H1 & H2 & H3 & H4 & H5 & H6). split; [rewrite links_app, links_cons2; tauto|by rewrite sources_app, sources_cons2|by rewrite targets_app].
Qed.

Lemma run_next nx pv l1 a b l2 : run nx pv (l1 ++ a :: b :: l2) -> nx a = Some b /\ pv b = Some a.
Proof. rewrite run_split. tauto. Qed.

Lemma sources_sub c l : c ∈ sources l -> c ∈ l.
Proof.
  destruct l as [|z l' _] using rev_ind; [done|]. rewrite sources_snoc, elem_of_app. tauto.
Qed.
Lemma targets_sub c l : c ∈ targets l -> c ∈ l.
Proof. destruct l; [done|]. apply list_elem_of_further. Qed.
Lemma targets_snoc_sub c l1 a : c ∈ targets (l1 ++ [a]) -> c ∈ l1 \/ c = a.
Proof. intros H%targets_sub. rewrite elem_of_app, list_elem_of_singleton in H. tauto. Qed.

Lemma run_ext nx pv nx' pv' l :
  run nx pv l -> (forall a, a ∈ sources l -> nx' a = nx a) -> (forall b, b ∈ targets l -> pv' b = pv b) -> run nx' pv' l.
Proof. intros [H1 H2 H3] Hs Ht. split; [by eapply links_ext|done..]. Qed.

(** [e] is put between [a] and [b]. *)
Lemma run_insert nx pv nx' pv' l1 a b e l2 :
  run nx pv (l1 ++ a :: b :: l2) -> e ∉ l1 ++ a :: b :: l2 ->
  nx' a = Some e -> nx' e = Some b -> pv' e = Some a -> pv' b = Some e ->
  (forall c, c <> a -> c <> e -> nx' c = nx c) -> (forall c, c <> b -> c <> e -> pv' c = pv c) ->
  run nx' pv' (l1 ++ a :: e :: b :: l2).
Proof.
  rewrite !run_split. intros (H1 & H2 & H3 & H4 & H5 & H6) He Ea Ee Ep Eb Hn Hp.
  rewrite !not_elem_of_app, !not_elem_of_cons in He. destruct He as (He1 & Hea & Heb & He2).
  pose proof H5 as (N1 & N2 & N3)%NoDup_app. apply NoDup_cons in N3 as [N3 N4].
  pose proof H6 as (T1 & T2 & T3)%NoDup_app. apply NoDup_cons in T3 as [T3 T4].
  assert (S2 : e ∉ sources (b :: l2)) by (intros ?%sources_sub; set_solver).
  assert (S3 : e ∉ targets (l1 ++ [a])) by (intros [?| ?]%targets_snoc_sub; set_solver).
  split_and!; [|done|done| | |].
  - eapply links_ext; [exact H1| |]; intros c; [rewrite sources_snoc|]; intros Hc; [apply Hn|apply Hp]; set_solver.
  - rewrite links_cons2. split_and!; [done..|].
    eapply links_ext; [exact H4| |]; intros c; [|rewrite targets_cons]; intros Hc; [apply Hn|apply Hp]; set_solver.
  - rewrite sources_cons2. apply NoDup_app. rewrite !NoDup_cons. set_solver.
  - apply NoDup_app. rewrite !NoDup_cons. set_solver.
Qed.

(** [e] is taken out. *)
Lemma run_remove nx pv nx' pv' l1 a b e l2 :
  run nx pv (l1 ++ a :: e :: b :: l2) -> e ∉ l1 ++ a :: b :: l2 -> nx' a = Some b -> pv' b = Some a ->
  (forall c, c <> a -> c <> e -> nx' c = nx c) -> (forall c, c <> b -> c <> e -> pv' c = pv c) ->
  run nx' pv' (l1 ++ a :: b :: l2).
Proof.
  rewrite !run_split, links_cons2, sources_cons2. intros (H1 & H2 & H3 & (H4 & H5 & H6) & H7 & H8) He Ea Eb Hn Hp.
  rewrite !not_elem_of_app, !not_elem_of_cons in He. destruct He as (He1 & Hea & Heb & He2).
  rewrite NoDup_app, !NoDup_cons in H7, H8. destruct H7 as (N1 & N2 & N3 & N4 & N5), H8 as (T1 & T2 & T3 & T4 & T5).
  rewrite !not_elem_of_cons in N3, T3.
  assert (S2 : e ∉ sources (b :: l2)) by (intros ?%sources_sub; set_solver).
  assert (S3 : e ∉ targets (l1 ++ [a])) by (intros [?| ?]%targets_snoc_sub; set_solver).
  split_and!; [|done|done| | |].
  - eapply links_ext; [exact H1| |]; intros c; [rewrite sources_snoc|]; intros Hc; [apply Hn|apply Hp]; set_solver.
  - eapply links_ext; [exact H6| |]; intros c; [|rewrite targets_cons]; intros Hc; [apply Hn|apply Hp]; set_solver.
  - apply NoDup_app. rewrite !NoDup_cons. set_solver.
  - apply NoDup_app. rewrite !NoDup_cons. set_solver.
Qed.

(** ** Rings

    [r] is followed by [xs] and the last of them by [r] again. *)

Definition first (r : A) l : A := hd r l.
Definition final (r : A) l : A := List.last l r.

Lemma first_eq r l : exists U, l ++ [r] = first r l :: U.
Proof. destruct l as [|x l]; [by exists []|by eexists]. Qed.
Lemma final_eq r l : exists U, r :: l = U ++ [final r l].
Proof.
  destruct l as [|x l _] using rev_ind; [by exists []|]. exists (r :: l). unfold final. by rewrite last_last.
Qed.
Lemma final_in r l : final r l ∈ r :: l.
Proof. destruct (final_eq r l) as [U ->]. set_solver. Qed.
Lemma first_in r l : first r l ∈ r :: l.
Proof. destruct l; cbn; set_solver. Qed.

Lemma run_cycle nx pv r l : run nx pv (r :: l ++ [r]) <-> links nx pv (r :: l ++ [r]) /\ NoDup (r :: l).
Proof.
  split; [intros [H1 H2 H3]; split; [done|]; by rewrite app_comm_cons, sources_snoc in H2|].
  intros [H1 H2]. split; [done|by rewrite app_comm_cons, sources_snoc|]. rewrite targets_cons.
  apply NoDup_app. apply NoDup_cons in H2 as [H2 H3]. split; [done|]. split; [|apply NoDup_singleton]. set_solver.
Qed.

(** The links of a run, with a cell on the way singled out. *)
Lemma run_rotate nx pv r l1 a l2 : run nx pv (r :: (l1 ++ a :: l2) ++ [r]) <-> run nx pv (a :: (l2 ++ r :: l1) ++ [a]).
Proof.
  rewrite !run_cycle. assert (Hp : r :: l1 ++ a :: l2 ≡ₚ a :: l2 ++ r :: l1).
  { rewrite (Permutation_app_comm l2), <- Permutation_middle, app_comm_cons. solve_Permutation. }
  rewrite Hp. rewrite <- !app_assoc, !app_comm_cons, (links_app _ _ (r :: l1) a (l2 ++ [r])), (links_app _ _ (a :: l2) r (l1 ++ [a])).
  cbn [app]. tauto.
Qed.

(** How [Link] redirects pointers: [q] after [r], and what was before [q] before what
    was after [r]. *)
Definition linked (r q n p : A) (f : A -> option A) : A -> option A := <[p := Some n]> (<[r := Some q]> f).

Ltac apart :=
  let E := fresh in intros E; first [rewrite E in *; contradiction|rewrite <- E in *; contradiction].
Ltac others := rewrite !fn_lookup_insert_ne by apart; done.

(** Different rings become one. *)
Lemma run_link_far nx pv r xs q ys : run nx pv (r :: xs ++ [r]) -> run nx pv (q :: ys ++ [q]) -> (forall a, a ∈ r :: xs -> a ∉ q :: ys) ->
  run (linked r q (first r xs) (final q ys) nx) (linked q r (final q ys) (first r xs) pv) (r :: ((q :: ys) ++ xs) ++ [r]).
Proof.
  rewrite !run_cycle. intros [L1 N1] [L2 N2] Hd.
  assert (N : NoDup (r :: (q :: ys) ++ xs)) by (rewrite (Permutation_app_comm (q :: ys)); apply (NoDup_app (r :: xs)); auto).
  split; [|done]. pose proof (first_in r xs) as Hn. pose proof (final_in q ys) as Hp.
  destruct (first_eq r xs) as [T ET]. destruct (final_eq q ys) as [P EP].
  assert (HT : NoDup (first r xs :: T)) by (rewrite <- ET, Permutation_app_comm; done).
  assert (HP : NoDup (P ++ [final q ys])) by (rewrite <- EP; done).
  assert (HTs : forall c, c ∈ T -> c ∈ r :: xs) by (intros c Hc; assert (Hc' : c ∈ xs ++ [r]) by (rewrite ET; by right);
    rewrite elem_of_app, list_elem_of_singleton in Hc'; rewrite elem_of_cons; tauto).
  assert (HPs : forall c, c ∈ P -> c ∈ q :: ys) by (intros c Hc; rewrite EP; apply elem_of_app; by left).
  apply NoDup_cons in HT as [HT _]. rewrite Permutation_app_comm in HP. apply NoDup_cons in HP as [HP _].
  pose proof (Hd _ Hn) as Hn'. assert (Hp' : final q ys ∉ r :: xs) by (intros H; by apply (Hd _ H)).
  pose proof (Hd r ltac:(by left)) as Hr'. assert (Hq' : q ∉ r :: xs) by (intros H; apply (Hd _ H); by left).
  apply NoDup_cons in N1 as [N1 _], N2 as [N2 _]. clear N Hd Hn Hp.
  set (n := first r xs) in *. set (p := final q ys) in *. clearbody n p. unfold linked.
  rewrite <- app_assoc, ET. rewrite ET in L1. cbn [app]. rewrite links_cons2.
  split; [rewrite fn_lookup_insert_ne by (intros ->; apply Hp'; by left); by rewrite fn_lookup_insert|].
  split; [rewrite fn_lookup_insert_ne by (intros ->; apply Hn'; by left); by rewrite fn_lookup_insert|].
  rewrite app_comm_cons, EP, <- app_assoc in L2. rewrite app_comm_cons, EP, <- app_assoc. cbn [app] in L2 |- *.
  apply links_app in L2 as [L2 _]. rewrite links_app, links_cons2. split; [|split; [by rewrite fn_lookup_insert|split; [by rewrite fn_lookup_insert|]]].
  - eapply links_ext; [exact L2| |]; [rewrite sources_snoc|rewrite <- EP, targets_cons]; intros c Hc.
    + pose proof (HPs c Hc). assert (c <> r) by (intros ->; contradiction). others.
    + apply not_elem_of_cons in Hn' as [_ Hn']. others.
  - apply links_cons2 in L1 as (_ & _ & L1). eapply links_ext; [exact L1| |]; [rewrite <- ET, sources_snoc|rewrite targets_cons]; intros c Hc.
    + apply not_elem_of_cons in Hp' as [_ Hp']. others.
    + pose proof (HTs c Hc). others.
Qed.

(** Linking [r] to a later element [q] of its ring, or to itself, cuts the elements between them out. *)
Lemma run_link_near nx pv r xs q U : run nx pv (r :: xs ++ q :: U) -> (exists W, q :: U = W ++ [r]) ->
  run (linked r q (first q xs) (final r xs) nx) (linked q r (final r xs) (first q xs) pv) (r :: q :: U) /\
  (xs <> [] -> run (linked r q (first q xs) (final r xs) nx) (linked q r (final r xs) (first q xs) pv) (xs ++ [first q xs])).
Proof.
  intros [L S T] [W EW]. rewrite EW, app_comm_cons, app_assoc, sources_snoc in S. rewrite targets_cons in T.
  rewrite app_comm_cons in L. apply links_app in L as [L1 L2]. apply NoDup_app in S as (S1 & S2 & S3). apply NoDup_app in T as (T1 & T2 & T3).
  apply NoDup_cons in S1 as [S0 S1]. pose proof T3 as [T0 T4]%NoDup_cons.
  destruct xs as [|n T].
  { cbn [first hd final List.last] in *. unfold linked. split; [|done]. split; [|by rewrite sources_cons2, EW, sources_snoc; apply NoDup_cons; set_solver|done].
    rewrite links_cons2, !fn_lookup_insert. split; [done|]. split; [done|].
    eapply links_ext; [exact L2| |]; [rewrite EW, sources_snoc|rewrite targets_cons]; intros c Hc; [|others].
    pose proof (S2 r ltac:(by left)). others. }
  cbn [first hd] in *. destruct (final_eq n T) as [P EP].
  assert (Ef : final r (n :: T) = final n T) by (unfold final; by destruct T as [|t T' _] using rev_ind; [|rewrite app_comm_cons, !last_last]).
  rewrite Ef in *. pose proof (final_in n T) as Hp. set (p := final n T) in *. clearbody p. clear Ef.
  pose proof (T2 n ltac:(by left)) as Hn'. pose proof (S2 p ltac:(by right)) as Hp'. pose proof (S2 r ltac:(by left)) as Hr'.
  assert (Hrp : r <> p) by (intros ->; contradiction). apply not_elem_of_cons in Hn' as [Hnq Hn']. unfold linked. split.
  - split; [|rewrite sources_cons2, EW, sources_snoc; by apply NoDup_cons|by rewrite targets_cons]. rewrite links_cons2.
    split; [rewrite fn_lookup_insert_ne by done; by rewrite fn_lookup_insert|].
    split; [rewrite fn_lookup_insert_ne by done; by rewrite fn_lookup_insert|].
    eapply links_ext; [exact L2| |]; [rewrite EW, sources_snoc|rewrite targets_cons]; intros c Hc; others.
  - intros _. rewrite EP in L1, S1, S0. rewrite EP. pose proof S1 as HP. rewrite Permutation_app_comm in HP. apply NoDup_cons in HP as [HP _].
    rewrite app_comm_cons, <- app_assoc in L1. cbn [app] in L1. apply (links_app _ _ (r :: P) p [q]) in L1 as [L1 _].
    assert (LP : links nx pv (P ++ [p])) by (destruct P; [done|by apply links_cons2 in L1 as (_ & _ & L1)]).
    apply NoDup_cons in T1 as [T5 T6]. split.
    + rewrite <- app_assoc. cbn [app]. rewrite links_app, links_cons2. split; [|by rewrite !fn_lookup_insert].
      eapply links_ext; [exact LP| |]; [rewrite sources_snoc|rewrite <- EP, targets_cons]; intros c Hc.
      * assert (c <> r) by (intros ->; apply S0, elem_of_app; by left). others.
      * assert (c <> q) by (intros ->; apply (T2 q); [by right|by left]). others.
    + by rewrite sources_snoc.
    + rewrite <- EP. cbn [app]. rewrite targets_cons, Permutation_app_comm. by apply NoDup_cons.
Qed.
End Links.
