(* ===== verification/LinkedList.v ===== *)
(** * container/list: doubly linked lists ([container/list/list.go])

    Lists and elements live in a store.  A pointer to an element is nil ([None]),
    an element of its own or the sentinel [&l.root] inside a list; following nil
    panics.  The addresses of new objects are not those of any allocated before. *)

From stdpp Require Import gmap.
From S2P Require Import Prelude.

(** Addresses of elements: allocated elements and the sentinels of lists. *)
Inductive addr : Type :=
| Elem (e : positive)
| Root (l : positive).
#[export] Instance addr_eq_dec : EqDecision addr.
Proof. solve_decision. Defined.

Section List.
Context {any : Type} (nil : any).

Record Element : Type := mkElement {
  next : option addr;
  prev : option addr;
  list_ : option positive;
  Value : any }.

Record List_ : Type := mkList {
  root : Element;
  len : Z }.

Record heap : Type := mkHeap {
  elements : gmap positive Element;
  lists : gmap positive List_ }.

Notation M := (M heap).

(** ** Memory *)

Definition cell (s : heap) (a : addr) : option Element :=
  match a with
  | Elem e => elements s !! e
  | Root l => root <$> lists s !! l
  end.

Definition put (a : addr) (E : Element) (s : heap) : heap :=
  match a with
  | Elem e => mkHeap (<[e := E]> (elements s)) (lists s)
  | Root l => mkHeap (elements s) (alter (fun L => mkList E (len L)) l (lists s))
  end.

Definition load (p : option addr) : M Element :=
  s <- mget ;;
  match p ≫= cell s with
  | Some E => mret E
  | None => mpanic NilDereference
  end.
Definition update (p : option addr) (f : Element -> Element) : M unit :=
  E <- load p ;;
  match p with
  | Some a => mmodify (put a (f E))
  | None => mpanic NilDereference
  end.
Definition set_next (p q : option addr) : M unit := update p (fun E => mkElement q (prev E) (list_ E) (Value E)).
Definition set_prev (p q : option addr) : M unit := update p (fun E => mkElement (next E) q (list_ E) (Value E)).
Definition set_list (p : option addr) (l : option positive) : M unit :=
  update p (fun E => mkElement (next E) (prev E) l (Value E)).

Definition load_list (l : option positive) : M List_ :=
  s <- mget ;;
  match l ≫= (fun l => lists s !! l) with
  | Some L => mret L
  | None => mpanic NilDereference
  end.
Definition set_len (l : option positive) (n : Z) : M unit :=
  L <- load_list l ;;
  match l with
  | Some l => mmodify (fun s => mkHeap (elements s) (<[l := mkList (root L) n]> (lists s)))
  | None => mpanic NilDereference
  end.
(** [&l.root] *)
Definition root_of (l : option positive) : M (option addr) :=
  match l with
  | Some l => mret (Some (Root l))
  | None => mpanic NilDereference
  end.
Definition zero_Element : Element := mkElement None None None nil.
Definition new_Element (v : any) : M (option addr) :=
  s <- mget ;;
  let e := fresh (dom (elements s)) in
  mput (mkHeap (<[e := mkElement None None None v]> (elements s)) (lists s)) ;;
  mret (Some (Elem e)).
Definition new_List : M (option positive) :=
  s <- mget ;;
  let l := fresh (dom (lists s)) in
  mput (mkHeap (elements s) (<[l := mkList zero_Element 0]> (lists s))) ;;
  mret (Some l).

(** ** Methods of [Element] *)

Definition Next (e : option addr) : M (option addr) :=
  E <- load e ;;
  let p := next E in
  match list_ E with
  | Some l => if decide (p <> Some (Root l)) then mret p else mret None
  | None => mret None
  end.

Definition Prev (e : option addr) : M (option addr) :=
  E <- load e ;;
  let p := prev E in
  match list_ E with
  | Some l => if decide (p <> Some (Root l)) then mret p else mret None
  | None => mret None
  end.

(** ** Methods of [List] *)

Definition Init (l : option positive) : M (option positive) :=
  r <- root_of l ;;
  set_next r r ;;
  set_prev r r ;;
  set_len l 0 ;;
  mret l.

Definition New : M (option positive) := l <- new_List ;; Init l.

Definition Len (l : option positive) : M Z := L <- load_list l ;; mret (len L).

Definition Front (l : option positive) : M (option addr) :=
  L <- load_list l ;;
  if len L =? 0 then mret None else mret (next (root L)).

Definition Back (l : option positive) : M (option addr) :=
  L <- load_list l ;;
  if len L =? 0 then mret None else mret (prev (root L)).

Definition lazyInit (l : option positive) : M unit :=
  L <- load_list l ;;
  if decide (next (root L) = None) then Init l ;; mret tt else mret tt.

Definition insert (l : option positive) (e at_ : option addr) : M (option addr) :=
  set_prev e at_ ;;
  A <- load at_ ;;
  set_next e (next A) ;;
  E <- load e ;;
  set_next (prev E) e ;;
  E <- load e ;;
  set_prev (next E) e ;;
  set_list e l ;;
  n <- Len l ;;
  set_len l (int64 (n + 1)) ;;
  mret e.

Definition insertValue (l : option positive) (v : any) (at_ : option addr) : M (option addr) :=
  e <- new_Element v ;;
  insert l e at_.

Definition remove (l : option positive) (e : option addr) : M unit :=
  E <- load e ;;
  set_next (prev E) (next E) ;;
  E <- load e ;;
  set_prev (next E) (prev E) ;;
  set_next e None ;;
  set_prev e None ;;
  set_list e None ;;
  n <- Len l ;;
  set_len l (int64 (n - 1)).

Definition move (e at_ : option addr) : M unit :=
  if decide (e = at_) then mret tt
  else
    E <- load e ;;
    set_next (prev E) (next E) ;;
    E <- load e ;;
    set_prev (next E) (prev E) ;;
    set_prev e at_ ;;
    A <- load at_ ;;
    set_next e (next A) ;;
    E <- load e ;;
    set_next (prev E) e ;;
    E <- load e ;;
    set_prev (next E) e.

Definition Remove (l : option positive) (e : option addr) : M any :=
  E <- load e ;;
  (if decide (list_ E = l) then remove l e else mret tt) ;;
  E <- load e ;;
  mret (Value E).

Definition PushFront (l : option positive) (v : any) : M (option addr) :=
  lazyInit l ;;
  r <- root_of l ;;
  insertValue l v r.

Definition PushBack (l : option positive) (v : any) : M (option addr) :=
  lazyInit l ;;
  L <- load_list l ;;
  insertValue l v (prev (root L)).

Definition InsertBefore (l : option positive) (v : any) (mark : option addr) : M (option addr) :=
  E <- load mark ;;
  if decide (list_ E <> l) then mret None else insertValue l v (prev E).

Definition InsertAfter (l : option positive) (v : any) (mark : option addr) : M (option addr) :=
  E <- load mark ;;
  if decide (list_ E <> l) then mret None else insertValue l v mark.

Definition MoveToFront (l : option positive) (e : option addr) : M unit :=
  E <- load e ;;
  if decide (list_ E <> l) then mret tt
  else
    L <- load_list l ;;
    if decide (next (root L) = e) then mret tt
    else r <- root_of l ;; move e r.

Definition MoveToBack (l : option positive) (e : option addr) : M unit :=
  E <- load e ;;
  if decide (list_ E <> l) then mret tt
  else
    L <- load_list l ;;
    if decide (prev (root L) = e) then mret tt
    else move e (prev (root L)).

Definition MoveBefore (l : option positive) (e mark : option addr) : M unit :=
  E <- load e ;;
  if decide (list_ E <> l) then mret tt
  else if decide (e = mark) then mret tt
  else
    K <- load mark ;;
    if decide (list_ K <> l) then mret tt else move e (prev K).

Definition MoveAfter (l : option positive) (e mark : option addr) : M unit :=
  E <- load e ;;
  if decide (list_ E <> l) then mret tt
  else if decide (e = mark) then mret tt
  else
    K <- load mark ;;
    if decide (list_ K <> l) then mret tt else move e mark.

(** The loops run [other.Len()] times, as counted before the first insertion. *)
Fixpoint pushBackList (i : nat) (l : option positive) (e : option addr) : M unit :=
  match i with
  | O => mret tt
  | S i =>
      E <- load e ;;
      L <- load_list l ;;
      insertValue l (Value E) (prev (root L)) ;;
      e <- Next e ;;
      pushBackList i l e
  end.
Definition PushBackList (l other : option positive) : M unit :=
  lazyInit l ;;
  i <- Len other ;;
  e <- Front other ;;
  pushBackList (Z.to_nat i) l e.

Fixpoint pushFrontList (i : nat) (l : option positive) (e : option addr) : M unit :=
  match i with
  | O => mret tt
  | S i =>
      E <- load e ;;
      r <- root_of l ;;
      insertValue l (Value E) r ;;
      e <- Prev e ;;
      pushFrontList i l e
  end.
Definition PushFrontList (l other : option positive) : M unit :=
  lazyInit l ;;
  i <- Len other ;;
  e <- Back other ;;
  pushFrontList (Z.to_nat i) l e.
End List.
Arguments Element : clear implicits.
Arguments List_ : clear implicits.
Arguments heap : clear implicits.
