(* ===== verification/LinkedListSpec.v ===== *)
(** * Lists as sequences

    A store seen field by field ([view], [looks]), what the elementary operations do to
    the view, and the relation [abs] between a view and the sequences of elements that
    the lists of the store hold. *)

From stdpp Require Import gmap functions.
From S2P Require Import Prelude.
From S2P Require Import Links.
From S2P Require Import LinkedList.

Section Spec.
Context {any : Type}.
Notation heap := (heap any).
Notation M := (M heap).

(** ** Views *)

Record view : Type := mkView {
  vn : addr -> option addr;
  vp : addr -> option addr;
  vo : addr -> option positive;
  vv : addr -> option any;
  vl : positive -> option Z }.

Record looks (s : heap) (V : view) : Prop := Looks {
  looks_next : forall a, cell s a ≫= next = vn V a;
  looks_prev : forall a, cell s a ≫= prev = vp V a;
  looks_list : forall a, cell s a ≫= list_ = vo V a;
  looks_value : forall a, Value <$> cell s a = vv V a;
  looks_len : forall l, len <$> lists s !! l = vl V l }.

Definition view_of (s : heap) : view :=
  mkView (fun a => cell s a ≫= next) (fun a => cell s a ≫= prev) (fun a => cell s a ≫= list_)
         (fun a => Value <$> cell s a) (fun l => len <$> lists s !! l).
Lemma looks_view_of s : looks s (view_of s).
Proof. done. Qed.

Lemma cell_put (s : heap) a E b : is_Some (cell s a) -> cell (put a E s) b = if decide (b = a) then Some E else cell s b.
Proof.
  intros [E0 Ha]. destruct a as [e|l], b as [e'|l']; cbn in *; case_decide as Hd; simplify_eq; try done.
  - by rewrite lookup_insert_eq.
  - rewrite lookup_insert_ne; [done|congruence].
  - rewrite lookup_alter_eq. destruct (lists s !! l); done.
  - rewrite lookup_alter_ne; [done|congruence].
Qed.

Lemma len_put (s : heap) a E l : len <$> lists (put a E s) !! l = len <$> lists s !! l.
Proof.
  destruct a as [e|l']; cbn; [done|]. destruct (decide (l = l')) as [->|].
  - rewrite lookup_alter_eq. by destruct (lists s !! l').
  - by rewrite lookup_alter_ne.
Qed.

Lemma looks_cell s V a x : looks s V -> vv V a = Some x ->
  exists E, cell s a = Some E /\ next E = vn V a /\ prev E = vp V a /\ list_ E = vo V a /\ Value E = x.
Proof.
  intros [H1 H2 H3 H4 H5] Hx. rewrite <- H4 in Hx. specialize (H1 a). specialize (H2 a). specialize (H3 a).
  destruct (cell s a) as [E|]; [|done]. simplify_eq/=. by exists E.
Qed.

Lemma wp_l_load (Q : Element any -> heap -> Prop) s V a x : looks s V -> vv V a = Some x ->
  (forall E, next E = vn V a -> prev E = vp V a -> list_ E = vo V a -> Value E = x -> Q E s) -> wp (load (Some a)) Q s.
Proof.
  intros HV Hx HQ. destruct (looks_cell s V a x HV Hx) as (E & HE & ? & ? & ? & ?).
  unfold load, wp, mbind, mget; cbn. rewrite HE. by apply HQ.
Qed.

Lemma wp_l_update (Q : unit -> heap -> Prop) s V a f : looks s V -> is_Some (vv V a) ->
  (forall E, cell s a = Some E -> Q tt (put a (f E) s)) -> wp (update (Some a) f) Q s.
Proof.
  intros HV [x Hx] HQ. destruct (looks_cell s V a x HV Hx) as (E & HE & _).
  unfold update, load, wp, mbind, mget; cbn. rewrite HE. by apply HQ.
Qed.

Ltac put_view HV :=
  let s := lazymatch type of HV with looks ?s _ => s end in
  destruct HV as [?H1 ?H2 ?H3 ?H4 ?H5]; split; cbn [vn vp vo vv vl]; intros b;
  [..|rewrite len_put; done]; rewrite cell_put by done;
  first [case_decide; [subst b; rewrite ?fn_lookup_insert|rewrite ?fn_lookup_insert_ne by done]; try done].

Lemma wp_l_set_next Q s V a q : looks s V -> is_Some (vv V a) ->
  (forall s', looks s' (mkView (<[a := q]> (vn V)) (vp V) (vo V) (vv V) (vl V)) -> Q tt s') -> wp (set_next (Some a) q) Q s.
Proof.
  intros HV Ha HQ. apply (wp_l_update _ _ V); [done..|]. intros E HE. apply HQ.
  put_view HV; cbn; [rewrite <- H2|rewrite <- H3|rewrite <- H4]; by rewrite HE.
Qed.
Lemma wp_l_set_prev Q s V a q : looks s V -> is_Some (vv V a) ->
  (forall s', looks s' (mkView (vn V) (<[a := q]> (vp V)) (vo V) (vv V) (vl V)) -> Q tt s') -> wp (set_prev (Some a) q) Q s.
Proof.
  intros HV Ha HQ. apply (wp_l_update _ _ V); [done..|]. intros E HE. apply HQ.
  put_view HV; cbn; [rewrite <- H1|rewrite <- H3|rewrite <- H4]; by rewrite HE.
Qed.
Lemma wp_l_set_list Q s V a q : looks s V -> is_Some (vv V a) ->
  (forall s', looks s' (mkView (vn V) (vp V) (<[a := q]> (vo V)) (vv V) (vl V)) -> Q tt s') -> wp (set_list (Some a) q) Q s.
Proof.
  intros HV Ha HQ. apply (wp_l_update _ _ V); [done..|]. intros E HE. apply HQ.
  put_view HV; cbn; [rewrite <- H1|rewrite <- H2|rewrite <- H4]; by rewrite HE.
Qed.

Lemma looks_root s V l n : looks s V -> vl V l = Some n -> is_Some (vv V (Root l)).
Proof.
  intros [_ _ _ H4 H5] Hl. rewrite <- H4. rewrite <- H5 in Hl. cbn. destruct (lists s !! l); [by eexists|done].
Qed.

Lemma wp_l_load_list (Q : List_ any -> heap -> Prop) s V l n : looks s V -> vl V l = Some n ->
  (forall L, len L = n -> next (root L) = vn V (Root l) -> prev (root L) = vp V (Root l) -> Q L s) -> wp (load_list (Some l)) Q s.
Proof.
  intros [H1 H2 _ _ H5] Hl HQ. rewrite <- H5 in Hl. specialize (H1 (Root l)). specialize (H2 (Root l)). cbn in H1, H2.
  unfold load_list, wp, mbind, mget; cbn. destruct (lists s !! l) as [L'|]; [|done]. simplify_eq/=. by apply HQ.
Qed.

Lemma wp_l_set_len Q s V l m n : looks s V -> vl V l = Some m ->
  (forall s', looks s' (mkView (vn V) (vp V) (vo V) (vv V) (<[l := Some n]> (vl V))) -> Q tt s') -> wp (set_len (Some l) n) Q s.
Proof.
  intros HV Hl HQ. unfold set_len. wp_steps. unfold load_list. destruct HV as [H1 H2 H3 H4 H5].
  rewrite <- H5 in Hl. destruct (lists s !! l) as [L|] eqn:HL; [|done]. simplify_eq/=.
  unfold wp, mbind, mget; cbn. rewrite HL. apply HQ.
  assert (Hc : forall a, cell (mkHeap (elements s) (<[l := mkList (root L) n]> (lists s))) a = cell s a).
  { intros [e|l']; cbn; [done|]. destruct (decide (l' = l)) as [->|]; [by rewrite lookup_insert_eq, HL|by rewrite lookup_insert_ne]. }
  split; cbn [vn vp vo vv vl]; intros a; [rewrite Hc; auto..|]. cbn.
  destruct (decide (a = l)) as [->|]; [by rewrite lookup_insert_eq, fn_lookup_insert|].
  rewrite lookup_insert_ne, fn_lookup_insert_ne by done. done.
Qed.

Lemma wp_l_Len (Q : Z -> heap -> Prop) s V l n : looks s V -> vl V l = Some n -> Q n s -> wp (Len (Some l)) Q s.
Proof. intros HV Hl HQ. unfold Len. eapply wp_call; [by apply (wp_l_load_list (fun L s' => len L = n /\ s' = s) _ V _ n)|]. by intros L ? [-> ->]. Qed.

(** ** What inserting, removing and moving do to the view *)

Definition inserted (l : positive) (e a b : addr) (n : Z) (V : view) : view :=
  mkView (<[a := Some e]> (<[e := Some b]> (vn V))) (<[b := Some e]> (<[e := Some a]> (vp V)))
         (<[e := Some l]> (vo V)) (vv V) (<[l := Some (n + 1)]> (vl V)).
Definition removed (l : positive) (e a b : addr) (n : Z) (V : view) : view :=
  mkView (<[e := None]> (<[a := Some b]> (vn V))) (<[e := None]> (<[b := Some a]> (vp V)))
         (<[e := None]> (vo V)) (vv V) (<[l := Some (n - 1)]> (vl V)).

Definition view_eq (V W : view) : Prop :=
  (forall a, vn V a = vn W a) /\ (forall a, vp V a = vp W a) /\ (forall a, vo V a = vo W a) /\
  (forall a, vv V a = vv W a) /\ (forall l, vl V l = vl W l).
Lemma looks_eq s V W : looks s V -> view_eq V W -> looks s W.
Proof. intros [H1 H2 H3 H4 H5] (E1 & E2 & E3 & E4 & E5). split; intros a; by rewrite ?H1, ?H2, ?H3, ?H4, ?H5. Qed.

Ltac ins := repeat first [rewrite fn_lookup_insert|rewrite fn_lookup_insert_ne by done].

Lemma wp_l_insert Q s V l e a b n :
  looks s V -> is_Some (vv V e) -> is_Some (vv V a) -> is_Some (vv V b) -> a <> e -> b <> e ->
  vn V a = Some b -> vl V l = Some n -> - 2 ^ 63 <= n + 1 < 2 ^ 63 ->
  (forall s', looks s' (inserted l e a b n V) -> Q (Some e) s') -> wp (insert (Some l) (Some e) (Some a)) Q s.
Proof.
  intros HV [xe He] [xa Ha] [xb Hb] Hae Hbe Hn Hl Hlt HQ. unfold insert.
  apply wp_bind. eapply (wp_l_set_prev _ _ V); [done|by eexists|]. intros s1 V1. cbn in V1.
  apply wp_bind. eapply wp_l_load; [exact V1|done|]. cbn. intros A HA _ _ _. rewrite HA, Hn.
  apply wp_bind. eapply wp_l_set_next; [exact V1|by eexists|]. intros s2 V2. cbn in V2.
  apply wp_bind. eapply wp_l_load; [exact V2|done|]. cbn. intros E _ HE _ _. rewrite HE. ins.
  apply wp_bind. eapply wp_l_set_next; [exact V2|by eexists|]. intros s3 V3. cbn in V3.
  apply wp_bind. eapply wp_l_load; [exact V3|done|]. cbn. intros E' HE' _ _ _. rewrite HE'. ins.
  apply wp_bind. eapply wp_l_set_prev; [exact V3|by eexists|]. intros s4 V4. cbn in V4.
  apply wp_bind. eapply wp_l_set_list; [exact V4|by eexists|]. intros s5 V5. cbn in V5.
  apply wp_bind. eapply wp_l_Len; [exact V5|done|]. rewrite int64_id by lia.
  apply wp_bind. eapply wp_l_set_len; [exact V5|done|]. intros s6 V6. apply wp_ret, HQ. exact V6.
Qed.

Lemma wp_l_remove Q s V l e a b n :
  looks s V -> is_Some (vv V e) -> is_Some (vv V a) -> is_Some (vv V b) -> a <> e -> b <> e ->
  vp V e = Some a -> vn V e = Some b -> vl V l = Some n -> - 2 ^ 63 <= n - 1 < 2 ^ 63 ->
  (forall s', looks s' (removed l e a b n V) -> Q tt s') -> wp (remove (Some l) (Some e)) Q s.
Proof.
  intros HV [xe He] [xa Ha] [xb Hb] Hae Hbe Hp Hn Hl Hlt HQ. unfold remove.
  apply wp_bind. eapply wp_l_load; [exact HV|done|]. intros E HE1 HE2 _ _. rewrite HE1, HE2, Hp, Hn.
  apply wp_bind. eapply wp_l_set_next; [exact HV|by eexists|]. intros s1 V1. cbn in V1.
  apply wp_bind. eapply wp_l_load; [exact V1|done|]. cbn. intros E' HE1' HE2' _ _. rewrite HE1', HE2', Hp. ins. rewrite Hn.
  apply wp_bind. eapply wp_l_set_prev; [exact V1|by eexists|]. intros s2 V2. cbn in V2.
  apply wp_bind. eapply wp_l_set_next; [exact V2|by eexists|]. intros s3 V3. cbn in V3.
  apply wp_bind. eapply wp_l_set_prev; [exact V3|by eexists|]. intros s4 V4. cbn in V4.
  apply wp_bind. eapply wp_l_set_list; [exact V4|by eexists|]. intros s5 V5. cbn in V5.
  apply wp_bind. eapply wp_l_Len; [exact V5|done|]. rewrite int64_id by lia.
  eapply wp_l_set_len; [exact V5|done|]. intros s6 V6. apply HQ. exact V6.
Qed.

(** Moving an element is removing it and inserting it again. *)
Lemma wp_l_move Q s V l e a b c d n :
  looks s V -> is_Some (vv V e) -> is_Some (vv V a) -> is_Some (vv V b) -> is_Some (vv V c) -> is_Some (vv V d) ->
  a <> e -> b <> e -> c <> e -> d <> e -> vp V e = Some a -> vn V e = Some b -> vo V e = Some l -> vl V l = Some n ->
  vn (removed l e a b n V) c = Some d ->
  (forall s', looks s' (inserted l e c d (n - 1) (removed l e a b n V)) -> Q tt s') -> wp (move (Some e) (Some c)) Q s.
Proof.
  intros HV [xe He] [xa Ha] [xb Hb] [xc Hc] [xd Hd] Hae Hbe Hce Hde Hp Hn Ho Hl Hcd HQ. unfold move.
  rewrite decide_False by congruence. cbn in Hcd. rewrite fn_lookup_insert_ne in Hcd by done.
  apply wp_bind. eapply wp_l_load; [exact HV|done|]. intros E HE1 HE2 _ _. rewrite HE1, HE2, Hp, Hn.
  apply wp_bind. eapply wp_l_set_next; [exact HV|by eexists|]. intros s1 V1. cbn in V1.
  apply wp_bind. eapply wp_l_load; [exact V1|done|]. cbn. intros E' HE1' HE2' _ _. rewrite HE1', HE2', Hp. ins. rewrite Hn.
  apply wp_bind. eapply wp_l_set_prev; [exact V1|by eexists|]. intros s2 V2. cbn in V2.
  apply wp_bind. eapply wp_l_set_prev; [exact V2|by eexists|]. intros s3 V3. cbn in V3.
  apply wp_bind. eapply wp_l_load; [exact V3|done|]. cbn. intros A HA _ _ _. rewrite HA, Hcd.
  apply wp_bind. eapply wp_l_set_next; [exact V3|by eexists|]. intros s4 V4. cbn in V4.
  apply wp_bind. eapply wp_l_load; [exact V4|done|]. cbn. intros F _ HF _ _. rewrite HF. ins.
  apply wp_bind. eapply wp_l_set_next; [exact V4|by eexists|]. intros s5 V5. cbn in V5.
  apply wp_bind. eapply wp_l_load; [exact V5|done|]. cbn. intros G HG _ _ _. rewrite HG. ins.
  eapply wp_l_set_prev; [exact V5|by eexists|]. intros s6 V6. cbn in V6. apply HQ.
  eapply looks_eq; [exact V6|]. unfold view_eq, inserted, removed; cbn. split_and!; [| | |done|]; intros x.
  all: unfold base.insert, fn_insert; repeat case_decide; subst; try congruence.
  rewrite Hl. f_equal. lia.
Qed.
End Spec.
