(* ===== verification/LinkedListRep.v ===== *)
(** * Lists as sequences: the representation and the operations

    [Rep] relates a view of the store to the sequences of elements the lists hold;
    inserting and removing an element of the ring inserts and removes it in its
    sequence and leaves every other list alone.  Then each operation of
    [container/list] that changes a list, on the sequence it stands for. *)

From stdpp Require Import gmap functions.
From S2P Require Import Prelude.
From S2P Require Import Links.
From S2P Require Import LinkedList.
From S2P Require Import LinkedListSpec.

Section Rep.
Context {any : Type}.
Notation view := (view (any := any)).
Implicit Types (xs ys : list positive) (e l : positive).

(** The elements of every list, in order, the value of every element, and the
    elements that an [Init] cleared out of a list: they are in no list, but their
    [list] field still names the one they were in. *)
Record abst : Type := mkAbst {
  seqs : gmap positive (list positive);
  vals : gmap positive any;
  lost : gset positive }.
Definition set_seq (l : positive) (xs : list positive) (A : abst) : abst := mkAbst (<[l := xs]> (seqs A)) (vals A) (lost A).
Definition clear (l : positive) (xs : list positive) (A : abst) : abst :=
  mkAbst (<[l := []]> (seqs A)) (vals A) (list_to_set xs ∪ lost A).

(** The ring of list [l], from its sentinel back to it. *)
Definition ring (l : positive) (xs : list positive) : list addr := Root l :: (Elem <$> xs) ++ [Root l].

Record Rep1 (V : view) (l : positive) (xs : list positive) : Prop := {
  rep_len : vl V l = Some (Z.of_nat (length xs));
  rep_own : forall e, e ∈ xs -> vo V (Elem e) = Some l;
  rep_ring : xs = [] /\ vn V (Root l) = None /\ vp V (Root l) = None \/ run (vn V) (vp V) (ring l xs) }.

Record Rep (V : view) (A : abst) : Prop := {
  rep_lists : forall l xs, seqs A !! l = Some xs -> Rep1 V l xs;
  rep_owner : forall e l, vo V (Elem e) = Some l -> e ∈ lost A \/ exists xs, seqs A !! l = Some xs /\ e ∈ xs;
  rep_lost : forall e, e ∈ lost A -> is_Some (vo V (Elem e)) /\ forall l xs, seqs A !! l = Some xs -> e ∉ xs;
  rep_known : forall l, is_Some (vl V l) -> is_Some (seqs A !! l);
  rep_roots : forall l, is_Some (vl V l) -> is_Some (vv V (Root l));
  rep_alloc : forall a, is_Some (vo V a) -> is_Some (vv V a);
  rep_vals : forall e, vv V (Elem e) = vals A !! e }.

(** The element before and the element after a position. *)
Definition before (l : positive) (xs : list positive) : addr := default (Root l) (Elem <$> last xs).
Definition after (l : positive) (xs : list positive) : addr := default (Root l) (Elem <$> head xs).

Lemma ring_split l xs ys : exists L1 L2,
  ring l (xs ++ ys) = L1 ++ before l xs :: after l ys :: L2 /\
  (forall z, ring l (xs ++ z :: ys) = L1 ++ before l xs :: Elem z :: after l ys :: L2) /\
  Root l :: (Elem <$> xs) = L1 ++ [before l xs] /\ (Elem <$> ys) ++ [Root l] = after l ys :: L2.
Proof.
  assert (exists L1, Root l :: (Elem <$> xs) = L1 ++ [before l xs]) as [L1 H1].
  { destruct xs as [|x xs _] using rev_ind; [by exists []|]. exists (Root l :: (Elem <$> xs)).
    unfold before. by rewrite last_snoc, fmap_app. }
  assert (exists L2, (Elem <$> ys) ++ [Root l] = after l ys :: L2) as [L2 H2].
  { destruct ys as [|y ys]; [by exists []|]. by eexists. }
  exists L1, L2. split_and!; [| |done|done].
  - unfold ring. rewrite fmap_app, <- app_assoc, H2. change (Root l :: (Elem <$> xs) ++ after l ys :: L2) with ((Root l :: (Elem <$> xs)) ++ after l ys :: L2).
    rewrite H1, <- app_assoc. done.
  - intros z. unfold ring. rewrite fmap_app, <- app_assoc. cbn. rewrite H2.
    change (Root l :: (Elem <$> xs) ++ Elem z :: after l ys :: L2) with ((Root l :: (Elem <$> xs)) ++ Elem z :: after l ys :: L2).
    rewrite H1, <- app_assoc. done.
Qed.

Lemma elem_fmap_Elem (e : positive) xs : Elem e ∈ Elem <$> xs <-> e ∈ xs.
Proof. rewrite list_elem_of_fmap. naive_solver. Qed.
Lemma elem_ring l xs a : a ∈ ring l xs <-> a = Root l \/ exists e, a = Elem e /\ e ∈ xs.
Proof.
  unfold ring. rewrite elem_of_cons, elem_of_app, list_elem_of_singleton, list_elem_of_fmap. naive_solver.
Qed.
Lemma Elem_ring l xs e : Elem e ∈ ring l xs <-> e ∈ xs.
Proof. rewrite elem_ring. naive_solver. Qed.
Lemma before_ring l xs ys : before l xs ∈ ring l (xs ++ ys).
Proof. destruct (ring_split l xs ys) as (L1 & L2 & -> & _). set_solver. Qed.
Lemma after_ring l xs ys : after l ys ∈ ring l (xs ++ ys).
Proof. destruct (ring_split l xs ys) as (L1 & L2 & -> & _). set_solver. Qed.

Section Facts.
Context (V : view) (A : abst) (HR : Rep V A).

Lemma ring_alloc l xs a : seqs A !! l = Some xs -> a ∈ ring l xs -> is_Some (vv V a).
Proof.
  intros Hl [->|(e & -> & He)]%elem_ring.
  - apply (rep_roots _ _ HR). rewrite (rep_len _ _ _ (rep_lists _ _ HR _ _ Hl)). by eexists.
  - apply (rep_alloc _ _ HR). rewrite (rep_own _ _ _ (rep_lists _ _ HR _ _ Hl) _ He). by eexists.
Qed.

Lemma rings_disjoint l1 l2 xs ys a :
  seqs A !! l1 = Some xs -> seqs A !! l2 = Some ys -> l1 <> l2 -> a ∈ ring l1 xs -> a ∉ ring l2 ys.
Proof.
  intros H1 H2 Hne [->|(e & -> & He)]%elem_ring Ha%elem_ring.
  - destruct Ha as [?|(? & ? & _)]; congruence.
  - destruct Ha as [?|(e' & E & He')]; [done|]. injection E as <-.
    pose proof (rep_own _ _ _ (rep_lists _ _ HR _ _ H1) _ He). pose proof (rep_own _ _ _ (rep_lists _ _ HR _ _ H2) _ He'). congruence.
Qed.

Lemma owned_iff l xs e : seqs A !! l = Some xs -> e ∉ lost A -> vo V (Elem e) = Some l <-> e ∈ xs.
Proof.
  intros Hl He. split; [|apply (rep_own _ _ _ (rep_lists _ _ HR _ _ Hl))].
  intros H. apply (rep_owner _ _ HR) in H as [?|(ys & Hys & Hin)]; [done|]. congruence.
Qed.
End Facts.

Lemma run_NoDup nx pv l xs : run nx pv (ring l xs) -> NoDup xs.
Proof.
  intros [_ H _]. unfold ring in H. rewrite app_comm_cons, sources_snoc in H. apply NoDup_cons in H as [_ H].
  by apply NoDup_fmap_1 in H.
Qed.
Lemma rep1_NoDup (V : view) l xs : Rep1 V l xs -> NoDup xs.
Proof. intros [_ _ [(-> & _)|H]]; [constructor|by eapply run_NoDup]. Qed.

(** ** Neighbours *)

Lemma ring_next (V : view) l xs ys : run (vn V) (vp V) (ring l (xs ++ ys)) ->
  vn V (before l xs) = Some (after l ys) /\ vp V (after l ys) = Some (before l xs).
Proof. destruct (ring_split l xs ys) as (L1 & L2 & -> & _). apply run_next. Qed.
Lemma ring_around (V : view) l xs e ys : run (vn V) (vp V) (ring l (xs ++ e :: ys)) ->
  vp V (Elem e) = Some (before l xs) /\ vn V (Elem e) = Some (after l ys).
Proof.
  intros H. split; [by apply (ring_next V l xs (e :: ys)) in H as [_ ?]|].
  rewrite cons_middle, app_assoc in H. apply ring_next in H as [H _].
  unfold before in H. by rewrite last_snoc in H.
Qed.

(** ** Inserting and removing *)

(** A change of the ring of [l], of the owner of [e] and of the length of [l] leaves the other lists alone. *)
Lemma Rep_change V V' A l xs zs e : Rep V A -> seqs A !! l = Some xs -> e ∉ lost A ->
  vo V (Elem e) = None \/ vo V (Elem e) = Some l -> is_Some (vv V (Elem e)) ->
  (forall c, c ∉ ring l xs -> c <> Elem e -> vn V' c = vn V c /\ vp V' c = vp V c) ->
  (forall c, c <> Elem e -> vo V' c = vo V c) -> vo V' (Elem e) = (if decide (e ∈ zs) then Some l else None) ->
  (forall x, x <> e -> x ∈ zs <-> x ∈ xs) -> (forall a, vv V' a = vv V a) ->
  (forall k, vl V' k = <[l := Some (Z.of_nat (length zs))]> (vl V) k) -> run (vn V') (vp V') (ring l zs) ->
  Rep V' (set_seq l zs A).
Proof.
  intros HR Hl Hlo He Hv Hnp Ho Hoe Hzs Hvv Hvl Hrun. pose proof (rep_lists _ _ HR _ _ Hl) as Hrep. split; cbn.
  - intros l' ys. destruct (decide (l' = l)) as [->|Hll].
    + rewrite lookup_insert_eq. intros [= <-]. split; [by rewrite Hvl, fn_lookup_insert| |by right].
      intros x Hx. destruct (decide (x = e)) as [->|]; [by rewrite Hoe, decide_True|].
      rewrite Ho by congruence. apply (rep_own _ _ _ Hrep). by apply Hzs.
    + rewrite lookup_insert_ne by done. intros Hys. pose proof (rep_lists _ _ HR _ _ Hys) as [R1 R2 R3].
      assert (Hsame : forall c, c ∈ ring l' ys -> c <> Elem e /\ vn V' c = vn V c /\ vp V' c = vp V c).
      { intros c Hc. assert (c <> Elem e); [|split; [done|]; apply Hnp; [by eapply (rings_disjoint V A HR)|done]].
        intros ->. apply Elem_ring, R2 in Hc. destruct He; congruence. }
      split; [by rewrite Hvl, fn_lookup_insert_ne| |].
      * intros x Hx. rewrite Ho; [by apply R2|]. by apply Hsame, Elem_ring.
      * destruct R3 as [(-> & R3 & R4)|R3]; [left|right].
        -- destruct (Hsame (Root l')) as (_ & -> & ->); [apply elem_ring; by left|done].
        -- eapply run_ext; [exact R3| |]; intros c; [intros Hc%sources_sub|intros Hc%targets_sub]; by apply Hsame in Hc as (_ & ? & ?).
  - intros x k Hx. destruct (decide (x = e)) as [->|Hxe].
    + rewrite Hoe in Hx. case_decide; [|done]. injection Hx as <-. right. rewrite lookup_insert_eq. eauto.
    + rewrite Ho in Hx by congruence. apply (rep_owner _ _ HR) in Hx as [Hx|(ys & Hys & Hx)]; [by left|right]. destruct (decide (k = l)) as [->|].
      * rewrite lookup_insert_eq. eexists; split; [done|]. simplify_eq. by apply Hzs.
      * rewrite lookup_insert_ne by done. eauto.
  - intros x Hx. assert (Hxe : x <> e) by (by intros ->). destruct (rep_lost _ _ HR x Hx) as [H1 H2]. rewrite Ho by congruence. split; [done|].
    intros k ys. destruct (decide (k = l)) as [->|]; [|rewrite lookup_insert_ne by done; apply H2].
    rewrite lookup_insert_eq. intros [= <-]. rewrite Hzs by done. by apply (H2 l).
  - intros k. rewrite Hvl. destruct (decide (k = l)) as [->|]; [rewrite lookup_insert_eq; eauto|].
    rewrite fn_lookup_insert_ne, lookup_insert_ne by done. apply (rep_known _ _ HR).
  - intros k Hk. rewrite Hvv. apply (rep_roots _ _ HR). rewrite Hvl in Hk. destruct (decide (k = l)) as [->|].
    + rewrite (rep_len _ _ _ Hrep). eauto.
    + by rewrite fn_lookup_insert_ne in Hk.
  - intros a Ha. rewrite Hvv. destruct (decide (a = Elem e)) as [->|]; [done|]. rewrite Ho in Ha by done. by apply (rep_alloc _ _ HR).
  - intros x. rewrite Hvv. apply (rep_vals _ _ HR).
Qed.

Lemma ring_fresh V A l xs e a : Rep V A -> seqs A !! l = Some xs -> vo V (Elem e) = None -> a ∈ ring l xs -> a <> Elem e.
Proof.
  intros HR Hl He Ha ->. apply Elem_ring, (rep_own _ _ _ (rep_lists _ _ HR _ _ Hl)) in Ha. congruence.
Qed.

(** An element without a list, or in one, is not among the lost ones. *)
Lemma not_lost V A e : Rep V A -> vo V (Elem e) = None -> e ∉ lost A.
Proof. intros HR He Hin. destruct (rep_lost _ _ HR e Hin) as [[k Hk] _]. congruence. Qed.
Lemma member_not_lost V A l xs e : Rep V A -> seqs A !! l = Some xs -> e ∈ xs -> e ∉ lost A.
Proof. intros HR Hl He Hin. destruct (rep_lost _ _ HR e Hin) as [_ H]. by apply (H l xs). Qed.

Lemma Rep_inserted V A l xs ys e : Rep V A -> seqs A !! l = Some (xs ++ ys) -> run (vn V) (vp V) (ring l (xs ++ ys)) ->
  vo V (Elem e) = None -> is_Some (vv V (Elem e)) ->
  let V' := inserted l (Elem e) (before l xs) (after l ys) (Z.of_nat (length (xs ++ ys))) V in
  Rep V' (set_seq l (xs ++ e :: ys) A) /\ run (vn V') (vp V') (ring l (xs ++ e :: ys)).
Proof.
  intros HR Hl Hrun He Hv V'.
  pose proof (ring_fresh _ _ _ _ _ _ HR Hl He (before_ring l xs ys)) as Hb.
  pose proof (ring_fresh _ _ _ _ _ _ HR Hl He (after_ring l xs ys)) as Ha.
  assert (Hrun' : run (vn V') (vp V') (ring l (xs ++ e :: ys))).
  { destruct (ring_split l xs ys) as (L1 & L2 & E1 & E2 & _). rewrite E2. rewrite E1 in Hrun.
    eapply run_insert; [exact Hrun|..]; cbn.
    - rewrite <- E1. intros Hin. by apply (ring_fresh _ _ _ _ _ _ HR Hl He) in Hin.
    - by rewrite fn_lookup_insert.
    - rewrite fn_lookup_insert_ne by done. by rewrite fn_lookup_insert.
    - rewrite fn_lookup_insert_ne by done. by rewrite fn_lookup_insert.
    - by rewrite fn_lookup_insert.
    - intros c H1 H2. by rewrite !fn_lookup_insert_ne.
    - intros c H1 H2. by rewrite !fn_lookup_insert_ne. }
  split; [|done]. eapply (Rep_change V V' A l (xs ++ ys) _ e); [done|done|by eapply not_lost|by left|done|..|exact Hrun']; cbn -[ring].
  - intros c Hc Hce. rewrite !fn_lookup_insert_ne; try done; intros <-; apply Hc; [apply after_ring|apply before_ring].
  - intros c Hc. by rewrite fn_lookup_insert_ne.
  - rewrite fn_lookup_insert, decide_True; [done|set_solver].
  - intros x Hx. set_solver.
  - done.
  - intros k. f_equal. f_equal. rewrite !length_app. cbn. lia.
Qed.

Lemma Rep_removed V A l xs ys e : Rep V A -> seqs A !! l = Some (xs ++ e :: ys) -> run (vn V) (vp V) (ring l (xs ++ e :: ys)) ->
  let V' := removed l (Elem e) (before l xs) (after l ys) (Z.of_nat (length (xs ++ e :: ys))) V in
  Rep V' (set_seq l (xs ++ ys) A) /\ run (vn V') (vp V') (ring l (xs ++ ys)).
Proof.
  intros HR Hl Hrun V'. pose proof (rep_own _ _ _ (rep_lists _ _ HR _ _ Hl) e ltac:(set_solver)) as He.
  pose proof (run_NoDup _ _ _ _ Hrun) as Hnd.
  assert (Hout : e ∉ xs ++ ys) by (rewrite NoDup_app, NoDup_cons in Hnd; set_solver).
  assert (Hout' : forall a, a ∈ ring l (xs ++ ys) -> a <> Elem e) by (intros a Ha ->; by apply Elem_ring in Ha).
  pose proof (Hout' _ (before_ring l xs ys)) as Hb. pose proof (Hout' _ (after_ring l xs ys)) as Ha.
  assert (Hrun' : run (vn V') (vp V') (ring l (xs ++ ys))).
  { destruct (ring_split l xs ys) as (L1 & L2 & E1 & E2 & _). rewrite E1. rewrite E2 in Hrun.
    eapply run_remove; [exact Hrun|..]; cbn.
    - rewrite <- E1. intros Hin. by apply Hout' in Hin.
    - rewrite fn_lookup_insert_ne by done. by rewrite fn_lookup_insert.
    - rewrite fn_lookup_insert_ne by done. by rewrite fn_lookup_insert.
    - intros c H1 H2. by rewrite !fn_lookup_insert_ne.
    - intros c H1 H2. by rewrite !fn_lookup_insert_ne. }
  split; [|done]. eapply (Rep_change V V' A l (xs ++ e :: ys) _ e); [done|done|eapply member_not_lost; [exact HR|exact Hl|set_solver]|by right| |..|exact Hrun']; cbn -[ring].
  - apply (rep_alloc _ _ HR). rewrite He. eauto.
  - assert (Hsub : forall c, c ∈ ring l (xs ++ ys) -> c ∈ ring l (xs ++ e :: ys)) by (intros c; rewrite !elem_ring; set_solver).
    intros c Hc Hce. rewrite !fn_lookup_insert_ne; try done; intros <-; apply Hc, Hsub; [apply after_ring|apply before_ring].
  - intros c Hc. by rewrite fn_lookup_insert_ne.
  - by rewrite fn_lookup_insert, decide_False.
  - intros x Hx. set_solver.
  - done.
  - intros k. f_equal. f_equal. rewrite !length_app. cbn. lia.
Qed.
End Rep.
Arguments abst : clear implicits.

Section Ops.
Context {any : Type} (nil : any).
Notation heap := (heap any).
Notation abst := (abst any).
Implicit Types (xs ys zs : list positive) (e l : positive) (s : heap) (A : abst).

(** The store holds the lists [A]; [holds_at] adds that list [l] is initialised. *)
Definition holds s A : Prop := exists V, looks s V /\ Rep V A.
Definition holds_at l s A : Prop :=
  exists V xs, looks s V /\ Rep V A /\ seqs A !! l = Some xs /\ run (vn V) (vp V) (ring l xs).
Lemma holds_at_holds l s A : holds_at l s A -> holds s A.
Proof. intros (V & xs & ? & ? & _). by exists V. Qed.

Definition max_len : Z := 2 ^ 63 - 1.
Definition fresh_elem A : positive := fresh (dom (vals A)).
Definition new_elem (l : positive) (xs : list positive) (v : any) A : abst :=
  mkAbst (<[l := xs]> (seqs A)) (<[fresh_elem A := v]> (vals A)) (lost A).

(** ** Initialisation *)

Lemma clear_nil l A : seqs A !! l = Some [] -> clear l [] A = A.
Proof. intros H. unfold clear. rewrite insert_id by done. destruct A. cbn. f_equal. apply union_empty_l_L. Qed.

(** [Init] makes the list empty and loses its elements. *)
Lemma Rep_cleared V A l xs :
  Rep V A -> seqs A !! l = Some xs ->
  Rep (mkView (<[Root l := Some (Root l)]> (vn V)) (<[Root l := Some (Root l)]> (vp V)) (vo V) (vv V) (<[l := Some 0]> (vl V))) (clear l xs A).
Proof.
  intros HR Hl. pose proof (ring_alloc V A HR l xs (Root l) Hl ltac:(apply elem_ring; by left)) as Hr.
  split; cbn -[ring]; [| | | | |exact (rep_alloc _ _ HR)|exact (rep_vals _ _ HR)].
  - intros k ys Hys. destruct (decide (k = l)) as [->|Hkl].
    + rewrite lookup_insert_eq in Hys. injection Hys as <-. split; cbn -[ring]; [by rewrite fn_lookup_insert|by intros ? ?%elem_of_nil|].
      right. split; cbn; [by rewrite !fn_lookup_insert|repeat constructor; set_solver..].
    + rewrite lookup_insert_ne in Hys by done. pose proof (rep_lists _ _ HR _ _ Hys) as [S1 S2 S3].
      split; cbn -[ring]; [by rewrite fn_lookup_insert_ne|done|].
      pose proof (rings_disjoint V A HR _ _ _ _ (Root l) Hl Hys (not_eq_sym Hkl) ltac:(apply elem_ring; by left)) as Hd.
      destruct S3 as [(-> & S3 & S4)|S3]; [left; rewrite !fn_lookup_insert_ne by congruence; done|right].
      eapply run_ext; [exact S3| |]; intros c; [intros Hc%sources_sub|intros Hc%targets_sub].
      all: rewrite fn_lookup_insert_ne; [done|congruence].
  - intros e k Hk. apply (rep_owner _ _ HR) in Hk as [Hk|(ys & Hys & He)]; [left; set_solver|].
    destruct (decide (k = l)) as [->|]; [left|right; exists ys; by rewrite lookup_insert_ne].
    assert (ys = xs) as -> by congruence. apply elem_of_union_l. by apply elem_of_list_to_set.
  - intros e [He%elem_of_list_to_set|He]%elem_of_union.
    + split; [exists l; apply (rep_own _ _ _ (rep_lists _ _ HR _ _ Hl) _ He)|]. intros k ys. destruct (decide (k = l)) as [->|Hkl].
      * rewrite lookup_insert_eq. intros [= <-]. apply not_elem_of_nil.
      * rewrite lookup_insert_ne by done. intros Hys Hin. pose proof (rings_disjoint V A HR l k xs ys (Elem e) Hl Hys (not_eq_sym Hkl)) as Hd.
        rewrite !Elem_ring in Hd. by apply Hd.
    + destruct (rep_lost _ _ HR e He) as [H1 H2]. split; [done|]. intros k ys. destruct (decide (k = l)) as [->|].
      * rewrite lookup_insert_eq. intros [= <-]. apply not_elem_of_nil.
      * rewrite lookup_insert_ne by done. apply H2.
  - intros k. destruct (decide (k = l)) as [->|]; [rewrite lookup_insert_eq; eauto|rewrite fn_lookup_insert_ne, lookup_insert_ne by done].
    apply (rep_known _ _ HR).
  - intros k. destruct (decide (k = l)) as [->|]; [done|rewrite fn_lookup_insert_ne by done]. apply (rep_roots _ _ HR).
Qed.

Lemma wp_l_Init s A l xs : holds s A -> seqs A !! l = Some xs ->
  wp (Init (Some l)) (fun r s' => r = Some l /\ holds_at l s' (clear l xs A)) s.
Proof.
  intros (V & HV & HR) Hl. pose proof (rep_len _ _ _ (rep_lists _ _ HR _ _ Hl)) as R1.
  pose proof (ring_alloc V A HR l xs (Root l) Hl ltac:(apply elem_ring; by left)) as Hr.
  unfold Init, root_of. apply wp_bind, wp_ret.
  apply wp_bind. eapply wp_l_set_next; [exact HV|done|]. intros s1 V1. cbn in V1.
  apply wp_bind. eapply wp_l_set_prev; [exact V1|done|]. intros s2 V2. cbn in V2.
  apply wp_bind. eapply wp_l_set_len; [exact V2|done|]. intros s3 V3. apply wp_ret. split; [done|].
  eexists _, []. split; [exact V3|]. split; [exact (Rep_cleared V A l xs HR Hl)|]. split; [apply lookup_insert_eq|].
  split; cbn; [by rewrite !fn_lookup_insert|repeat constructor; set_solver..].
Qed.

Lemma wp_lazyInit s A l xs : holds s A -> seqs A !! l = Some xs -> wp (lazyInit (Some l)) (fun _ s' => holds_at l s' A) s.
Proof.
  intros (V & HV & HR) Hl. pose proof (rep_lists _ _ HR _ _ Hl) as [R1 R2 R3].
  unfold lazyInit. apply wp_bind. eapply wp_l_load_list; [exact HV|done|]. intros L _ HL _. rewrite HL.
  destruct R3 as [(-> & R3 & R4)|R3].
  - rewrite R3. cbn. eapply wp_call; [apply (wp_l_Init s A l []); [by exists V|done]|]. intros r s' [_ H]. rewrite clear_nil in H by done. by apply wp_ret.
  - pose proof (ring_next V l [] xs R3) as [Hn _]. cbn in Hn. unfold before in Hn. cbn in Hn. rewrite Hn. cbn.
    apply wp_ret. by exists V, xs.
Qed.

(** ** Allocation *)

Lemma Rep_fresh s V A : looks s V -> Rep V A -> fresh (dom (elements s)) = fresh_elem A /\ vals A !! fresh_elem A = None.
Proof.
  intros HV HR. assert (E : dom (elements s) = dom (vals A)).
  { apply set_eq. intros e. rewrite !elem_of_dom, <- (rep_vals _ _ HR), <- (looks_value _ _ HV). cbn. by rewrite fmap_is_Some. }
  unfold fresh_elem. rewrite E. split; [done|]. apply not_elem_of_dom, is_fresh.
Qed.

Lemma wp_new_Element s V A v (Q : _ -> _ -> Prop) : looks s V -> Rep V A ->
  (forall s' V', looks s' V' -> Rep V' (mkAbst (seqs A) (<[fresh_elem A := v]> (vals A)) (lost A)) ->
     vn V' = vn V -> vp V' = vp V -> vv V' (Elem (fresh_elem A)) = Some v -> vo V' (Elem (fresh_elem A)) = None ->
     Q (Some (Elem (fresh_elem A))) s') -> wp (new_Element v) Q s.
Proof.
  intros HV HR HQ. destruct (Rep_fresh _ _ _ HV HR) as [Ef Hf]. unfold new_Element. wp_steps. rewrite Ef. set (e := fresh_elem A) in *.
  assert (He : elements s !! e = None).
  { pose proof (rep_vals _ _ HR e) as H. rewrite <- (looks_value _ _ HV), Hf in H. cbn in H. by destruct (elements s !! e). }
  assert (Hvo : vo V (Elem e) = None) by (rewrite <- (looks_list _ _ HV); cbn; by rewrite He).
  eapply (HQ _ (mkView (vn V) (vp V) (vo V) (<[Elem e := Some v]> (vv V)) (vl V))); cbn; [| |done|done| |done].
  - destruct HV as [H1 H2 H3 H4 H5].
    split; cbn -[cell]; [| | | |done]; intros a; [specialize (H1 a)|specialize (H2 a)|specialize (H3 a)|specialize (H4 a)].
    all: destruct (decide (a = Elem e)) as [->|Hne]; [cbn in *; rewrite lookup_insert_eq, ?fn_lookup_insert; cbn; rewrite ?He in *; done|].
    all: rewrite ?fn_lookup_insert_ne by done; destruct a as [x|]; [|done]; cbn in *; rewrite lookup_insert_ne by congruence; done.
  - split; cbn; [|exact (rep_owner _ _ HR)|exact (rep_lost _ _ HR)|exact (rep_known _ _ HR)| | |].
    + intros k ys Hys. by destruct (rep_lists _ _ HR _ _ Hys).
    + intros k Hk. by apply (rep_roots _ _ HR).
    + intros a Ha. destruct (decide (a = Elem e)) as [->|]; [rewrite fn_lookup_insert; eauto|rewrite fn_lookup_insert_ne by done; by apply (rep_alloc _ _ HR)].
    + intros x. destruct (decide (x = e)) as [->|]; [by rewrite fn_lookup_insert, lookup_insert_eq|].
      rewrite fn_lookup_insert_ne, lookup_insert_ne by congruence. apply (rep_vals _ _ HR).
  - by rewrite fn_lookup_insert.
Qed.

(** ** Insertion, removal, motion *)

Lemma wp_insertValue s V A l xs ys v : looks s V -> Rep V A -> seqs A !! l = Some (xs ++ ys) ->
  run (vn V) (vp V) (ring l (xs ++ ys)) -> Z.of_nat (length (xs ++ ys)) < max_len ->
  wp (insertValue (Some l) v (Some (before l xs)))
     (fun r s' => r = Some (Elem (fresh_elem A)) /\ holds_at l s' (new_elem l (xs ++ fresh_elem A :: ys) v A)) s.
Proof.
  intros HV HR Hl Hrun Hlen. unfold insertValue, max_len in *. apply wp_bind. eapply wp_new_Element; [exact HV|exact HR|].
  intros s' V' HV' HR' En Ep Ev Eo. set (e := fresh_elem A) in *. set (A' := mkAbst (seqs A) (<[e := v]> (vals A)) (lost A)) in *.
  rewrite <- En, <- Ep in Hrun. change (seqs A) with (seqs A') in Hl.
  pose proof (rep_len _ _ _ (rep_lists _ _ HR' _ _ Hl)) as Hvl. destruct (ring_next V' l xs ys Hrun) as [Hn Hp].
  destruct (Rep_inserted V' A' l xs ys e HR' Hl Hrun Eo ltac:(eauto)) as [HR'' Hrun''].
  eapply wp_l_insert; [exact HV'|..|exact Hn|exact Hvl|lia|].
  - eauto.
  - eapply (ring_alloc _ _ HR'); [exact Hl|apply before_ring].
  - eapply (ring_alloc _ _ HR'); [exact Hl|apply after_ring].
  - eapply (ring_fresh _ _ _ _ _ _ HR' Hl Eo), before_ring.
  - eapply (ring_fresh _ _ _ _ _ _ HR' Hl Eo), after_ring.
  - intros s2 HV2. split; [done|]. eexists _, _. split; [exact HV2|]. split; [exact HR''|]. split; [cbn; apply lookup_insert_eq|exact Hrun''].
Qed.

Lemma not_in_others xs e ys l : NoDup (xs ++ e :: ys) -> before l xs <> Elem e /\ after l ys <> Elem e.
Proof.
  intros Hnd. assert (e ∉ xs ++ ys) by (rewrite NoDup_app, NoDup_cons in Hnd; set_solver).
  split; intros E; [pose proof (before_ring l xs ys) as H'|pose proof (after_ring l xs ys) as H']; rewrite E in H'; by apply Elem_ring in H'.
Qed.

(** A list with an element is initialised. *)
Lemma rep1_run (V : view (any := any)) l xs e : Rep1 V l xs -> e ∈ xs -> run (vn V) (vp V) (ring l xs).
Proof. intros [_ _ [(-> & _)|H]] He; [by apply elem_of_nil in He|done]. Qed.

Lemma wp_remove_elem s V A l xs e ys : looks s V -> Rep V A -> seqs A !! l = Some (xs ++ e :: ys) -> Z.of_nat (length (xs ++ e :: ys)) <= max_len ->
  wp (remove (Some l) (Some (Elem e))) (fun _ s' => holds_at l s' (set_seq l (xs ++ ys) A)) s.
Proof.
  intros HV HR Hl Hlen. unfold max_len in *. pose proof (rep_lists _ _ HR _ _ Hl) as Hrep.
  pose proof (rep1_run _ _ _ e Hrep ltac:(set_solver)) as Hrun. destruct (ring_around _ _ _ _ _ Hrun) as [Hp Hn].
  destruct (not_in_others xs e ys l (rep1_NoDup _ _ _ Hrep)) as [Hb Ha].
  destruct (Rep_removed V A l xs ys e HR Hl Hrun) as [HR' Hrun'].
  assert (Hsub : forall c, c ∈ ring l (xs ++ ys) -> c ∈ ring l (xs ++ e :: ys)) by (intros c; rewrite !elem_ring; set_solver).
  eapply wp_l_remove; [exact HV|..|exact Hp|exact Hn|exact (rep_len _ _ _ Hrep)|lia|]; [| | |done|done|].
  - eapply (ring_alloc _ _ HR); [exact Hl|apply Elem_ring; set_solver].
  - eapply (ring_alloc _ _ HR); [exact Hl|apply Hsub, before_ring].
  - eapply (ring_alloc _ _ HR); [exact Hl|apply Hsub, after_ring].
  - intros s' HV'. eexists _, _. split; [exact HV'|]. split; [exact HR'|]. split; [cbn; apply lookup_insert_eq|exact Hrun'].
Qed.

Lemma wp_move_elem s V A l xs e ys us vs : looks s V -> Rep V A -> seqs A !! l = Some (xs ++ e :: ys) ->
  xs ++ ys = us ++ vs -> Z.of_nat (length (xs ++ e :: ys)) <= max_len ->
  wp (move (Some (Elem e)) (Some (before l us))) (fun _ s' => holds s' (set_seq l (us ++ e :: vs) A)) s.
Proof.
  intros HV HR Hl Hsplit Hlen. unfold max_len in *. pose proof (rep_lists _ _ HR _ _ Hl) as Hrep.
  pose proof (rep1_run _ _ _ e Hrep ltac:(set_solver)) as Hrun. destruct (ring_around _ _ _ _ _ Hrun) as [Hp Hn].
  pose proof (rep1_NoDup _ _ _ Hrep) as Hnd. destruct (not_in_others xs e ys l Hnd) as [Hb Ha].
  destruct (Rep_removed V A l xs ys e HR Hl Hrun) as [HR' Hrun']. set (V' := removed _ _ _ _ _ _) in *.
  set (A' := set_seq l (xs ++ ys) A) in *.
  assert (Hl' : seqs A' !! l = Some (us ++ vs)) by (cbn; by rewrite <- Hsplit, lookup_insert_eq).
  rewrite Hsplit in Hrun'. destruct (ring_next V' l us vs Hrun') as [Hn' Hp'].
  assert (Eo : vo V' (Elem e) = None) by (cbn; by rewrite fn_lookup_insert).
  assert (Hal : is_Some (vv V (Elem e))) by (eapply (ring_alloc _ _ HR); [exact Hl|apply Elem_ring; set_solver]).
  destruct (Rep_inserted V' A' l us vs e HR' Hl' Hrun' Eo Hal) as [HR'' _].
  assert (Hsub : forall c, c ∈ ring l (xs ++ ys) -> c ∈ ring l (xs ++ e :: ys)) by (intros c; rewrite !elem_ring; set_solver).
  assert (Hc : before l us ∈ ring l (xs ++ ys)) by (rewrite Hsplit; apply before_ring).
  assert (Hd : after l vs ∈ ring l (xs ++ ys)) by (rewrite Hsplit; apply after_ring).
  eapply wp_l_move; [exact HV|exact Hal|..|exact Hb|exact Ha| | |exact Hp|exact Hn| |exact (rep_len _ _ _ Hrep)|exact Hn'|].
  - eapply (ring_alloc _ _ HR); [exact Hl|apply Hsub, before_ring].
  - eapply (ring_alloc _ _ HR); [exact Hl|apply Hsub, after_ring].
  - eapply (ring_alloc _ _ HR); [exact Hl|by apply Hsub].
  - eapply (ring_alloc _ _ HR); [exact Hl|by apply Hsub].
  - eapply (ring_fresh _ _ _ _ _ _ HR' Hl' Eo), before_ring.
  - eapply (ring_fresh _ _ _ _ _ _ HR' Hl' Eo), after_ring.
  - apply (rep_own _ _ _ Hrep). set_solver.
  - intros s' HV'. exists (inserted l (Elem e) (before l us) (after l vs) (Z.of_nat (length (us ++ vs))) V'). split.
    + replace (Z.of_nat (length (us ++ vs))) with (Z.of_nat (length (xs ++ e :: ys)) - 1); [exact HV'|].
      rewrite <- Hsplit, !length_app. cbn. lia.
    + unfold set_seq in *; cbn in HR''. by rewrite insert_insert_eq in HR''.
Qed.
End Ops.
