(* ===== verification/LinkedListTheorems.v ===== *)
(** * container/list: theorems

    [spec] says what each function of the package does to sequences of elements and
    their values; every run of the code does that. *)

From stdpp Require Import gmap functions.
From S2P Require Import Prelude.
From S2P Require Import Links.
From S2P Require Import LinkedList.
From S2P Require Import LinkedListSpec.
From S2P Require Import LinkedListRep.

Section Theorems.
Context {any : Type} (nil : any).
Notation heap := (heap any).
Notation abst := (abst any).
Implicit Types (xs ys zs : list positive) (e l : positive) (s : heap) (A : abst).

(** ** Specification *)

Inductive op : Type :=
| OVar
| ONew
| OInit (l : positive)
| OLen (l : positive)
| OFront (l : positive)
| OBack (l : positive)
| ONext (e : positive)
| OPrev (e : positive)
| ORemove (l e : positive)
| OPushFront (l : positive) (v : any)
| OPushBack (l : positive) (v : any)
| OInsertBefore (l : positive) (v : any) (mark : positive)
| OInsertAfter (l : positive) (v : any) (mark : positive)
| OMoveToFront (l e : positive)
| OMoveToBack (l e : positive)
| OMoveBefore (l e mark : positive)
| OMoveAfter (l e mark : positive)
| OPushBackList (l other : positive)
| OPushFrontList (l other : positive).

Inductive result : Type :=
| RUnit
| RList (l : option positive)
| RInt (n : Z)
| RElem (e : option addr)
| RVal (v : any).

Definition ret {T} (f : T -> result) (m : M heap T) : M heap result := a <- m ;; mret (f a).
Definition ptr (e : positive) : option addr := Some (Elem e).
Definition run_op (o : op) : M heap result :=
  match o with
  | OVar => ret RList (new_List nil)
  | ONew => ret RList (New nil)
  | OInit l => ret RList (Init (Some l))
  | OLen l => ret RInt (Len (Some l))
  | OFront l => ret RElem (Front (Some l))
  | OBack l => ret RElem (Back (Some l))
  | ONext e => ret RElem (Next (ptr e))
  | OPrev e => ret RElem (Prev (ptr e))
  | ORemove l e => ret RVal (Remove (Some l) (ptr e))
  | OPushFront l v => ret RElem (PushFront (Some l) v)
  | OPushBack l v => ret RElem (PushBack (Some l) v)
  | OInsertBefore l v m => ret RElem (InsertBefore (Some l) v (ptr m))
  | OInsertAfter l v m => ret RElem (InsertAfter (Some l) v (ptr m))
  | OMoveToFront l e => ret (fun _ => RUnit) (MoveToFront (Some l) (ptr e))
  | OMoveToBack l e => ret (fun _ => RUnit) (MoveToBack (Some l) (ptr e))
  | OMoveBefore l e m => ret (fun _ => RUnit) (MoveBefore (Some l) (ptr e) (ptr m))
  | OMoveAfter l e m => ret (fun _ => RUnit) (MoveAfter (Some l) (ptr e) (ptr m))
  | OPushBackList l k => ret (fun _ => RUnit) (PushBackList (Some l) (Some k))
  | OPushFrontList l k => ret (fun _ => RUnit) (PushFrontList (Some l) (Some k))
  end.

(** Sequences: [e] put before or after [m], taken out, and the neighbours of [e]. *)
Fixpoint put_before (m e : positive) (xs : list positive) : list positive :=
  match xs with
  | [] => []
  | x :: t => if decide (x = m) then e :: x :: t else x :: put_before m e t
  end.
Fixpoint put_after (m e : positive) (xs : list positive) : list positive :=
  match xs with
  | [] => []
  | x :: t => if decide (x = m) then x :: e :: t else x :: put_after m e t
  end.
Definition without (e : positive) (xs : list positive) : list positive := filter (fun x => x <> e) xs.
Fixpoint next_in (e : positive) (xs : list positive) : option positive :=
  match xs with
  | [] => None
  | x :: t => if decide (x = e) then head t else next_in e t
  end.
Definition prev_in (e : positive) (xs : list positive) : option positive := next_in e (reverse xs).

Definition members A l : list positive := default [] (seqs A !! l).
Definition owned A e : Prop := exists l, e ∈ members A l.
Definition elem (e : option positive) : result := RElem (Elem <$> e).
Definition push_back (l : positive) (A : abst) (v : any) : abst :=
  new_elem l (members A l ++ [fresh_elem A]) v A.
Definition push_front (l : positive) (A : abst) (v : any) : abst :=
  new_elem l (fresh_elem A :: members A l) v A.
(** The values of a list. *)
Definition values A l : list any := omap (fun e => vals A !! e) (members A l).

Definition spec A (o : op) (r : result) (A' : abst) : Prop :=
  match o with
  | OVar | ONew => let l := fresh (dom (seqs A)) in r = RList (Some l) /\ A' = set_seq l [] A
  | OInit l => r = RList (Some l) /\ A' = clear l (members A l) A
  | OLen l => r = RInt (Z.of_nat (length (members A l))) /\ A' = A
  | OFront l => r = elem (head (members A l)) /\ A' = A
  | OBack l => r = elem (last (members A l)) /\ A' = A
  | ONext e => A' = A /\ (~ owned A e /\ r = elem None \/ exists l, e ∈ members A l /\ r = elem (next_in e (members A l)))
  | OPrev e => A' = A /\ (~ owned A e /\ r = elem None \/ exists l, e ∈ members A l /\ r = elem (prev_in e (members A l)))
  | ORemove l e => RVal <$> vals A !! e = Some r /\ A' = set_seq l (without e (members A l)) A
  | OPushFront l v => r = elem (Some (fresh_elem A)) /\ A' = push_front l A v
  | OPushBack l v => r = elem (Some (fresh_elem A)) /\ A' = push_back l A v
  | OInsertBefore l v m =>
      if decide (m ∈ members A l)
      then r = elem (Some (fresh_elem A)) /\ A' = new_elem l (put_before m (fresh_elem A) (members A l)) v A
      else r = elem None /\ A' = A
  | OInsertAfter l v m =>
      if decide (m ∈ members A l)
      then r = elem (Some (fresh_elem A)) /\ A' = new_elem l (put_after m (fresh_elem A) (members A l)) v A
      else r = elem None /\ A' = A
  | OMoveToFront l e =>
      r = RUnit /\ A' = if decide (e ∈ members A l) then set_seq l (e :: without e (members A l)) A else A
  | OMoveToBack l e =>
      r = RUnit /\ A' = if decide (e ∈ members A l) then set_seq l (without e (members A l) ++ [e]) A else A
  | OMoveBefore l e m =>
      r = RUnit /\ A' = if decide (e ∈ members A l /\ m ∈ members A l /\ e <> m)
                        then set_seq l (put_before m e (without e (members A l))) A else A
  | OMoveAfter l e m =>
      r = RUnit /\ A' = if decide (e ∈ members A l /\ m ∈ members A l /\ e <> m)
                        then set_seq l (put_after m e (without e (members A l))) A else A
  | OPushBackList l k => r = RUnit /\ A' = foldl (push_back l) A (values A k)
  | OPushFrontList l k => r = RUnit /\ A' = foldl (push_front l) A (reverse (values A k))
  end.

(** The lists and elements passed are allocated, and the elements are not ones that
    an [Init] cleared out of their list. *)
Definition live A e : Prop := is_Some (vals A !! e) /\ e ∉ lost A.
Definition valid A (o : op) : Prop :=
  match o with
  | OVar | ONew => True
  | OInit l | OLen l | OFront l | OBack l => is_Some (seqs A !! l)
  | ONext e | OPrev e => live A e
  | ORemove l e | OMoveToFront l e | OMoveToBack l e => is_Some (seqs A !! l) /\ live A e
  | OPushFront l _ | OPushBack l _ => is_Some (seqs A !! l)
  | OInsertBefore l _ e | OInsertAfter l _ e => is_Some (seqs A !! l) /\ live A e
  | OMoveBefore l e m | OMoveAfter l e m => is_Some (seqs A !! l) /\ live A e /\ live A m
  | OPushBackList l k | OPushFrontList l k => is_Some (seqs A !! l) /\ is_Some (seqs A !! k)
  end.
(** No list, nor two together, grow past the largest [int]. *)
Definition small A : Prop := forall l k, Z.of_nat (length (members A l)) + Z.of_nat (length (members A k)) < max_len.

(** ** Sequences *)

Lemma put_before_spec m e xs ys : m ∉ xs -> put_before m e (xs ++ m :: ys) = xs ++ e :: m :: ys.
Proof.
  induction xs as [|x xs IH]; cbn; intros H.
  - by rewrite decide_True.
  - rewrite not_elem_of_cons in H. rewrite decide_False by naive_solver. rewrite IH; [done|tauto].
Qed.
Lemma put_after_spec m e xs ys : m ∉ xs -> put_after m e (xs ++ m :: ys) = xs ++ m :: e :: ys.
Proof.
  induction xs as [|x xs IH]; cbn; intros H.
  - by rewrite decide_True.
  - rewrite not_elem_of_cons in H. rewrite decide_False by naive_solver. rewrite IH; [done|tauto].
Qed.
Lemma next_in_spec e xs ys : e ∉ xs -> next_in e (xs ++ e :: ys) = head ys.
Proof.
  induction xs as [|x xs IH]; cbn; intros H.
  - by rewrite decide_True.
  - rewrite not_elem_of_cons in H. rewrite decide_False by naive_solver. apply IH. tauto.
Qed.
Lemma prev_in_spec e xs ys : e ∉ ys -> prev_in e (xs ++ e :: ys) = last xs.
Proof.
  intros H. unfold prev_in. rewrite reverse_app, reverse_cons, <- app_assoc. cbn.
  rewrite next_in_spec by (by rewrite elem_of_reverse). by rewrite head_reverse.
Qed.
Lemma without_id e xs : e ∉ xs -> without e xs = xs.
Proof.
  induction xs as [|x xs IH]; [done|]. rewrite not_elem_of_cons. intros [H1 H2]. unfold without in *.
  rewrite filter_cons_True by done. f_equal. by apply IH.
Qed.
Lemma without_spec e xs ys : NoDup (xs ++ e :: ys) -> without e (xs ++ e :: ys) = xs ++ ys.
Proof.
  rewrite NoDup_app, NoDup_cons. intros (H1 & H2 & H3 & H4). unfold without.
  rewrite filter_app, filter_cons_False by tauto.
  change (without e xs ++ without e ys = xs ++ ys). rewrite !without_id; [done|done|set_solver].
Qed.

Lemma wp_ret_res {T} (f : T -> result) (m : M heap T) (Q : result -> heap -> Prop) s :
  wp m (fun a s' => Q (f a) s') s -> wp (ret f m) Q s.
Proof. intros H. unfold ret. eapply wp_call; [exact H|]. intros. by apply wp_ret. Qed.

Lemma head_after l xs ys : after l ys <> Root l -> Some (after l ys) = Elem <$> head ys.
Proof. unfold after. destruct ys; cbn; done. Qed.

(** ** Observers *)

Section Observe.
Context (s : heap) (A : abst) (Hs : holds s A).

Lemma wp_Len_ok l xs : seqs A !! l = Some xs -> wp (Len (Some l)) (fun n s' => n = Z.of_nat (length xs) /\ s' = s) s.
Proof. destruct Hs as (V & HV & HR). intros Hl. by eapply wp_l_Len; [exact HV|exact (rep_len _ _ _ (rep_lists _ _ HR _ _ Hl))|]. Qed.

Lemma ends_ok (V : view (any := any)) l xs : Rep1 V l xs -> xs <> [] ->
  vn V (Root l) = Elem <$> head xs /\ vp V (Root l) = Elem <$> last xs.
Proof.
  intros [_ _ [(-> & _)|H]] Hne; [done|]. pose proof (ring_next V l [] xs H) as [Hn _].
  rewrite <- (app_nil_r xs) in H. pose proof (ring_next V l xs [] H) as [_ Hp].
  unfold before, after in *. cbn in *. rewrite Hn, Hp. destruct xs as [|x xs]; [done|]. split; [done|].
  destruct (last (x :: xs)) eqn:E; [done|]. apply last_None in E. done.
Qed.

Lemma wp_Front l xs : seqs A !! l = Some xs -> wp (Front (Some l)) (fun r s' => r = Elem <$> head xs /\ s' = s) s.
Proof.
  destruct Hs as (V & HV & HR). intros Hl. pose proof (rep_lists _ _ HR _ _ Hl) as Hrep. unfold Front. apply wp_bind.
  eapply wp_l_load_list; [exact HV|exact (rep_len _ _ _ Hrep)|]. intros L H1 H2 _. rewrite H1, H2.
  destruct xs as [|x xs]; [by apply wp_ret|]. rewrite (proj2 (Z.eqb_neq _ _)) by (cbn; lia). apply wp_ret.
  by destruct (ends_ok _ _ _ Hrep) as [-> _].
Qed.
Lemma wp_Back l xs : seqs A !! l = Some xs -> wp (Back (Some l)) (fun r s' => r = Elem <$> last xs /\ s' = s) s.
Proof.
  destruct Hs as (V & HV & HR). intros Hl. pose proof (rep_lists _ _ HR _ _ Hl) as Hrep. unfold Back. apply wp_bind.
  eapply wp_l_load_list; [exact HV|exact (rep_len _ _ _ Hrep)|]. intros L H1 _ H2. rewrite H1, H2.
  destruct xs as [|x xs]; [by apply wp_ret|]. rewrite (proj2 (Z.eqb_neq _ _)) by (cbn; lia). apply wp_ret.
  by destruct (ends_ok _ _ _ Hrep) as [_ ->].
Qed.

Lemma wp_l_Next l xs e ys : seqs A !! l = Some (xs ++ e :: ys) -> wp (Next (ptr e)) (fun r s' => r = Elem <$> head ys /\ s' = s) s.
Proof.
  destruct Hs as (V & HV & HR). intros Hl. pose proof (rep_lists _ _ HR _ _ Hl) as Hrep.
  pose proof (rep1_run _ _ _ e Hrep ltac:(set_solver)) as Hrun. destruct (ring_around _ _ _ _ _ Hrun) as [_ Hn].
  destruct (ring_alloc _ _ HR l _ (Elem e) Hl ltac:(apply Elem_ring; set_solver)) as [x Hx].
  unfold Next. apply wp_bind. eapply wp_l_load; [exact HV|exact Hx|]. intros E H1 _ H2 _. cbv zeta.
  rewrite H1, H2, Hn, (rep_own _ _ _ Hrep) by set_solver. unfold after. destruct ys; cbn; case_decide; by try apply wp_ret.
Qed.
Lemma wp_l_Prev l xs e ys : seqs A !! l = Some (xs ++ e :: ys) -> wp (Prev (ptr e)) (fun r s' => r = Elem <$> last xs /\ s' = s) s.
Proof.
  destruct Hs as (V & HV & HR). intros Hl. pose proof (rep_lists _ _ HR _ _ Hl) as Hrep.
  pose proof (rep1_run _ _ _ e Hrep ltac:(set_solver)) as Hrun. destruct (ring_around _ _ _ _ _ Hrun) as [Hp _].
  destruct (ring_alloc _ _ HR l _ (Elem e) Hl ltac:(apply Elem_ring; set_solver)) as [x Hx].
  unfold Prev. apply wp_bind. eapply wp_l_load; [exact HV|exact Hx|]. intros E _ H1 H2 _. cbv zeta.
  rewrite H1, H2, Hp, (rep_own _ _ _ Hrep) by set_solver. unfold before. destruct (last xs); cbn; case_decide; by try apply wp_ret.
Qed.
(** Loading an element tells whether it is in the list. *)
Lemma wp_load_elem e v (Q : _ -> _ -> Prop) : vals A !! e = Some v -> e ∉ lost A ->
  (forall E, Value E = v -> (forall l, list_ E = Some l <-> e ∈ members A l) -> (list_ E = None <-> ~ owned A e) ->
   (forall l xs ys, seqs A !! l = Some (xs ++ e :: ys) -> prev E = Some (before l xs)) -> Q E s) -> wp (load (ptr e)) Q s.
Proof.
  destruct Hs as (V & HV & HR). intros He Hlo HQ. rewrite <- (rep_vals _ _ HR) in He.
  assert (Ho : forall l, vo V (Elem e) = Some l <-> e ∈ members A l).
  { intros l. unfold members. destruct (seqs A !! l) as [xs|] eqn:Hl; cbn; [by apply (owned_iff V A HR)|].
    split; [|by intros ?%elem_of_nil]. intros [?|(ys & ? & _)]%(rep_owner _ _ HR); [done|congruence]. }
  eapply wp_l_load; [exact HV|exact He|]. intros E _ H1 H2 H3. apply HQ; [done|by rewrite H2|..].
  - rewrite H2. unfold owned. split; [intros HN [l Hin]; apply Ho in Hin; congruence|].
    intros HN. destruct (vo V (Elem e)) as [l|] eqn:El; [|done]. exfalso. apply HN. exists l. by apply Ho.
  - intros l xs ys Hl. rewrite H1. pose proof (rep_lists _ _ HR _ _ Hl) as Hrep.
    pose proof (rep1_run _ _ _ e Hrep ltac:(set_solver)) as Hrun. by destruct (ring_around _ _ _ _ _ Hrun) as [Hp _].
Qed.
End Observe.

(** ** Operations that insert *)

Lemma members_eq A l xs : seqs A !! l = Some xs -> members A l = xs.
Proof. unfold members. by intros ->. Qed.
Lemma holds_eq s A A' : holds s A -> A = A' -> holds s A'.
Proof. by intros ? <-. Qed.
Lemma set_seq_id l xs A : seqs A !! l = Some xs -> set_seq l xs A = A.
Proof. intros H. unfold set_seq. rewrite insert_id by done. by destruct A. Qed.

Lemma wp_at_front s A l xs v : holds_at l s A -> seqs A !! l = Some xs -> Z.of_nat (length xs) < max_len ->
  wp (insertValue (Some l) v (Some (Root l))) (fun r s' => r = ptr (fresh_elem A) /\ holds_at l s' (push_front l A v)) s.
Proof.
  intros (V & zs & HV & HR & Hl & Hrun) Hl' Hlen. assert (zs = xs) as -> by congruence. unfold push_front. rewrite (members_eq _ _ _ Hl).
  apply (wp_insertValue s V A l [] xs v); done.
Qed.
Lemma wp_at_back s A l xs v (Q : _ -> _ -> Prop) : holds_at l s A -> seqs A !! l = Some xs -> Z.of_nat (length xs) < max_len ->
  (forall s', holds_at l s' (push_back l A v) -> Q (ptr (fresh_elem A)) s') ->
  wp (L <- load_list (Some l) ;; insertValue (Some l) v (prev (root L))) Q s.
Proof.
  intros (V & zs & HV & HR & Hl & Hrun) Hl' Hlen HQ. assert (zs = xs) as -> by congruence. unfold push_back in HQ. rewrite (members_eq _ _ _ Hl) in HQ.
  rewrite <- (app_nil_r xs) in Hl, Hrun. destruct (ring_next V l xs [] Hrun) as [_ Hp]. cbn in Hp.
  apply wp_bind. eapply wp_l_load_list; [exact HV|exact (rep_len _ _ _ (rep_lists _ _ HR _ _ Hl))|]. intros L _ _ HL.
  rewrite HL, Hp. eapply wp_mono; [apply (wp_insertValue s V A l xs [] v); [done..|by rewrite app_nil_r]|].
  intros r s' [-> H]. by apply HQ.
Qed.

Lemma wp_PushFront s A l xs v : holds s A -> seqs A !! l = Some xs -> Z.of_nat (length xs) < max_len ->
  wp (PushFront (Some l) v) (fun r s' => r = ptr (fresh_elem A) /\ holds s' (push_front l A v)) s.
Proof.
  intros Hs Hl Hlen. unfold PushFront. eapply wp_call; [by eapply wp_lazyInit|]. intros ? s' H. cbn in H.
  apply wp_bind, wp_ret. eapply wp_mono; [by eapply wp_at_front|]. intros r s2 [-> H2]. split; [done|by eapply holds_at_holds].
Qed.
Lemma wp_PushBack s A l xs v : holds s A -> seqs A !! l = Some xs -> Z.of_nat (length xs) < max_len ->
  wp (PushBack (Some l) v) (fun r s' => r = ptr (fresh_elem A) /\ holds s' (push_back l A v)) s.
Proof.
  intros Hs Hl Hlen. unfold PushBack. eapply wp_call; [by eapply wp_lazyInit|]. intros ? s' H. cbn in H.
  eapply wp_at_back; [done|done|done|]. intros s2 H2. split; [done|by eapply holds_at_holds].
Qed.

Lemma rep_members_run (V : view (any := any)) A l xs e ys : Rep V A -> seqs A !! l = Some (xs ++ e :: ys) ->
  run (vn V) (vp V) (ring l (xs ++ e :: ys)) /\ NoDup (xs ++ e :: ys).
Proof.
  intros HR Hl. pose proof (rep_lists _ _ HR _ _ Hl) as Hrep. split; [by apply (rep1_run _ _ _ e Hrep); set_solver|by eapply rep1_NoDup].
Qed.

(** The list around one of its elements. *)
Lemma holds_split s A l xs e : holds s A -> seqs A !! l = Some xs -> e ∈ xs ->
  exists us vs, xs = us ++ e :: vs /\ seqs A !! l = Some (us ++ e :: vs) /\ e ∉ us /\ e ∉ vs /\ NoDup (us ++ e :: vs).
Proof.
  intros (V & _ & HR) Hl (us & vs & ->)%list_elem_of_split. exists us, vs.
  destruct (rep_members_run V A l us e vs HR Hl) as [_ Hnd]. pose proof Hnd as Hnd'.
  rewrite NoDup_app, NoDup_cons in Hnd. set_solver.
Qed.

Lemma wp_InsertBefore s A l xs v m : holds s A -> seqs A !! l = Some xs -> live A m -> Z.of_nat (length xs) < max_len ->
  wp (InsertBefore (Some l) v (ptr m)) (fun r s' => exists A', spec A (OInsertBefore l v m) (RElem r) A' /\ holds s' A') s.
Proof.
  intros Hs Hl [[w Hw] Hwl] Hlen. unfold InsertBefore. apply wp_bind. apply (wp_load_elem s A Hs m w); [done|done|].
  intros E _ HE _ Hp. cbn -[fresh_elem]. specialize (HE l). rewrite (members_eq _ _ _ Hl) in *.
  destruct (decide (m ∈ xs)) as [Hm|Hm].
  - rewrite decide_False by (intros HN; apply HN; by apply HE).
    destruct (holds_split s A l xs m Hs Hl Hm) as (us & vs & -> & Hl' & H1 & H2 & _). rewrite (Hp _ _ _ Hl').
    destruct Hs as (V & HV & HR). destruct (rep_members_run V A l us m vs HR Hl) as [Hrun _].
    eapply wp_mono; [by apply (wp_insertValue s V A l us (m :: vs) v)|]. intros r s' [-> H].
    eexists. split; [split; [done|done]|]. rewrite put_before_spec by done. by eapply holds_at_holds.
  - rewrite decide_True by (intros HN; apply Hm; by apply HE). apply wp_ret. by exists A.
Qed.

Lemma wp_InsertAfter s A l xs v m : holds s A -> seqs A !! l = Some xs -> live A m -> Z.of_nat (length xs) < max_len ->
  wp (InsertAfter (Some l) v (ptr m)) (fun r s' => exists A', spec A (OInsertAfter l v m) (RElem r) A' /\ holds s' A') s.
Proof.
  intros Hs Hl [[w Hw] Hwl] Hlen. unfold InsertAfter. apply wp_bind. apply (wp_load_elem s A Hs m w); [done|done|].
  intros E _ HE _ _. cbn -[fresh_elem]. specialize (HE l). rewrite (members_eq _ _ _ Hl) in *.
  destruct (decide (m ∈ xs)) as [Hm|Hm].
  - rewrite decide_False by (intros HN; apply HN; by apply HE).
    destruct (holds_split s A l xs m Hs Hl Hm) as (us & vs & -> & Hl' & H1 & H2 & _).
    destruct Hs as (V & HV & HR). destruct (rep_members_run V A l us m vs HR Hl) as [Hrun _].
    pose proof (wp_insertValue s V A l (us ++ [m]) vs v HV HR) as W. rewrite <- !app_assoc in W. cbn in W.
    unfold before in W. rewrite last_snoc in W. specialize (W Hl Hrun Hlen).
    eapply wp_mono; [exact W|]. intros r s' [-> H].
    eexists. split; [split; [done|done]|]. rewrite put_after_spec by done. by eapply holds_at_holds.
  - rewrite decide_True by (intros HN; apply Hm; by apply HE). apply wp_ret. by exists A.
Qed.

(** ** Removing and moving *)

Lemma wp_l_Remove s A l xs e : holds s A -> seqs A !! l = Some xs -> live A e -> Z.of_nat (length xs) < max_len ->
  wp (Remove (Some l) (ptr e)) (fun r s' => exists A', spec A (ORemove l e) (RVal r) A' /\ holds s' A') s.
Proof.
  intros Hs Hl [[w Hw] Hwl] Hlen. unfold Remove. apply wp_bind. apply (wp_load_elem s A Hs e w); [done|done|].
  intros E HEv HE _ _. specialize (HE l). unfold spec. rewrite (members_eq _ _ _ Hl) in *. apply wp_bind.
  destruct (decide (e ∈ xs)) as [Hm|Hm].
  - rewrite decide_True by (by apply HE). destruct (holds_split s A l xs e Hs Hl Hm) as (us & vs & -> & Hl' & _ & _ & Hnd).
    destruct Hs as (V & HV & HR). eapply wp_mono; [by eapply wp_remove_elem; [..|apply Z.lt_le_incl]|].
    intros ? s' H'. apply holds_at_holds in H'. apply wp_bind. apply (wp_load_elem s' _ H' e w); [done|done|].
    intros E' <- _ _ _. apply wp_ret. eexists. split; [split; [by rewrite Hw|done]|]. by rewrite without_spec.
  - rewrite decide_False by (by rewrite HE). apply wp_ret, wp_bind. apply (wp_load_elem s A Hs e w); [done|done|].
    intros E' <- _ _ _. apply wp_ret. exists A. split; [split; [by rewrite Hw|]|done]. by rewrite without_id, set_seq_id.
Qed.

Definition moves (o : op) s A (m : M heap unit) : Prop :=
  wp m (fun _ s' => exists A', spec A o RUnit A' /\ holds s' A') s.

Lemma move_same (e : option addr) s (Q : unit -> heap -> Prop) : Q tt s -> wp (move e e) Q s.
Proof. intros H. unfold move. rewrite decide_True by done. by apply wp_ret. Qed.

(** Moving [e] between the two parts [us] and [vs] of the others. *)
Lemma wp_move_to s A l xs e ys us vs a : holds s A -> seqs A !! l = Some (xs ++ e :: ys) -> xs ++ ys = us ++ vs ->
  Z.of_nat (length (xs ++ e :: ys)) < max_len ->
  a = before l us \/ a = Elem e /\ us = xs ->
  wp (move (ptr e) (Some a)) (fun _ s' => holds s' (set_seq l (us ++ e :: vs) A)) s.
Proof.
  intros (V & HV & HR) Hl Hsplit Hlen [->|[-> ->]].
  - eapply wp_move_elem; [done..|lia].
  - apply app_inv_head in Hsplit as <-. apply move_same. rewrite set_seq_id by done. by exists V.
Qed.

Lemma wp_MoveToFront s A l xs e : holds s A -> seqs A !! l = Some xs -> live A e -> Z.of_nat (length xs) < max_len ->
  moves (OMoveToFront l e) s A (MoveToFront (Some l) (ptr e)).
Proof.
  intros Hs Hl [[w Hw] Hwl] Hlen. unfold moves, MoveToFront, spec. apply wp_bind. apply (wp_load_elem s A Hs e w); [done|done|].
  intros E _ HE _ _. specialize (HE l). rewrite (members_eq _ _ _ Hl) in *. destruct (decide (e ∈ xs)) as [Hm|Hm].
  2: { rewrite decide_True by (by rewrite HE). apply wp_ret. by exists A. }
  rewrite decide_False by tauto. destruct (holds_split s A l xs e Hs Hl Hm) as (us & vs & -> & Hl' & H1 & H2 & Hnd).
  rewrite without_spec by done. pose proof Hs as (V & HV & HR). pose proof (rep_lists _ _ HR _ _ Hl) as Hrep.
  destruct (ends_ok _ _ _ Hrep) as [Hn _]; [by destruct us|].
  apply wp_bind. eapply wp_l_load_list; [exact HV|exact (rep_len _ _ _ Hrep)|]. intros L _ -> _. rewrite Hn. case_decide as Hd.
  - apply wp_ret. exists A. split; [split; [done|]|done]. destruct us as [|u us]; cbn in *; [by rewrite set_seq_id|].
    injection Hd as ->. set_solver.
  - apply wp_bind, wp_ret. eapply wp_mono; [apply (wp_move_to s A l us e vs [] (us ++ vs) (Root l)); [done..|by left]|].
    intros ? s' H. eexists. split; [split; done|]. done.
Qed.

Lemma wp_MoveToBack s A l xs e : holds s A -> seqs A !! l = Some xs -> live A e -> Z.of_nat (length xs) < max_len ->
  moves (OMoveToBack l e) s A (MoveToBack (Some l) (ptr e)).
Proof.
  intros Hs Hl [[w Hw] Hwl] Hlen. unfold moves, MoveToBack, spec. apply wp_bind. apply (wp_load_elem s A Hs e w); [done|done|].
  intros E _ HE _ _. specialize (HE l). rewrite (members_eq _ _ _ Hl) in *. destruct (decide (e ∈ xs)) as [Hm|Hm].
  2: { rewrite decide_True by (by rewrite HE). apply wp_ret. by exists A. }
  rewrite decide_False by tauto. destruct (holds_split s A l xs e Hs Hl Hm) as (us & vs & -> & Hl' & H1 & H2 & Hnd).
  rewrite without_spec by done. pose proof Hs as (V & HV & HR). pose proof (rep_lists _ _ HR _ _ Hl) as Hrep.
  destruct (ends_ok _ _ _ Hrep) as [_ Hp]; [by destruct us|].
  apply wp_bind. eapply wp_l_load_list; [exact HV|exact (rep_len _ _ _ Hrep)|]. intros L _ _ ->. rewrite Hp. case_decide as Hd.
  - apply wp_ret. exists A. split; [split; [done|]|done]. destruct vs as [|v vs _] using rev_ind; [by rewrite app_nil_r, set_seq_id|].
    rewrite app_comm_cons, app_assoc, last_snoc in Hd. injection Hd as ->. set_solver.
  - assert (Hb : Elem <$> last (us ++ e :: vs) = Some (before l (us ++ vs))).
    { unfold before. destruct vs as [|v vs _] using rev_ind; [by rewrite last_snoc in Hd|]. rewrite app_comm_cons, !app_assoc, !last_snoc. done. }
    rewrite Hb. eapply wp_mono; [apply (wp_move_to s A l us e vs (us ++ vs) []); [done|done|by rewrite app_nil_r|done|by left]|].
    intros ? s' H. eexists. split; [split; done|]. done.
Qed.

Lemma wp_MoveAfter s A l xs e m : holds s A -> seqs A !! l = Some xs -> live A e -> live A m ->
  Z.of_nat (length xs) < max_len -> moves (OMoveAfter l e m) s A (MoveAfter (Some l) (ptr e) (ptr m)).
Proof.
  intros Hs Hl [[w Hw] Hwl] [[u Hu] Hul] Hlen. unfold moves, MoveAfter, spec. apply wp_bind. apply (wp_load_elem s A Hs e w); [done|done|].
  intros E _ HE _ _. specialize (HE l). rewrite (members_eq _ _ _ Hl) in *. destruct (decide (e ∈ xs)) as [Hm|Hm].
  2: { rewrite decide_True by (by rewrite HE). apply wp_ret. exists A. by rewrite decide_False by tauto. }
  rewrite decide_False by tauto. case_decide as Hem.
  { apply wp_ret. exists A. rewrite decide_False; [done|]. unfold ptr in Hem. intros (_ & _ & Hne). congruence. }
  apply wp_bind. apply (wp_load_elem s A Hs m u); [done|done|]. intros K _ HK _ _. specialize (HK l). rewrite (members_eq _ _ _ Hl) in HK.
  destruct (decide (m ∈ xs)) as [Hmx|Hmx].
  2: { rewrite decide_True by (by rewrite HK). apply wp_ret. exists A. by rewrite decide_False by tauto. }
  rewrite decide_False by tauto. destruct (holds_split s A l xs e Hs Hl Hm) as (us & vs & -> & Hl' & H1 & H2 & Hnd).
  rewrite without_spec by done. assert (Hne : e <> m) by (intros ->; done).
  assert (Hin : m ∈ us ++ vs) by set_solver. apply list_elem_of_split in Hin as (p & q & Hpq).
  eapply wp_mono; [apply (wp_move_to s A l us e vs (p ++ [m]) q); [done..|by rewrite <- app_assoc|done|left; unfold before; by rewrite last_snoc]|].
  intros ? s' H. eexists. split; [split; done|]. rewrite decide_True by (split; [set_solver|split; [set_solver|done]]).
  rewrite Hpq, put_after_spec; [by rewrite <- app_assoc in H|].
  rewrite NoDup_app, NoDup_cons in Hnd. assert (Hnd' : NoDup (us ++ vs)) by (apply NoDup_app; set_solver).
  rewrite Hpq, NoDup_app in Hnd'. set_solver.
Qed.

Lemma wp_MoveBefore s A l xs e m : holds s A -> seqs A !! l = Some xs -> live A e -> live A m ->
  Z.of_nat (length xs) < max_len -> moves (OMoveBefore l e m) s A (MoveBefore (Some l) (ptr e) (ptr m)).
Proof.
  intros Hs Hl [[w Hw] Hwl] [[u Hu] Hul] Hlen. unfold moves, MoveBefore, spec. apply wp_bind. apply (wp_load_elem s A Hs e w); [done|done|].
  intros E _ HE _ _. specialize (HE l). rewrite (members_eq _ _ _ Hl) in *. destruct (decide (e ∈ xs)) as [Hm|Hm].
  2: { rewrite decide_True by (by rewrite HE). apply wp_ret. exists A. by rewrite decide_False by tauto. }
  rewrite decide_False by tauto. case_decide as Hem.
  { apply wp_ret. exists A. rewrite decide_False; [done|]. unfold ptr in Hem. intros (_ & _ & Hne). congruence. }
  apply wp_bind. apply (wp_load_elem s A Hs m u); [done|done|]. intros K _ HK _ Hp. specialize (HK l). rewrite (members_eq _ _ _ Hl) in HK.
  destruct (decide (m ∈ xs)) as [Hmx|Hmx].
  2: { rewrite decide_True by (by rewrite HK). apply wp_ret. exists A. by rewrite decide_False by tauto. }
  rewrite decide_False by tauto. destruct (holds_split s A l xs e Hs Hl Hm) as (us & vs & -> & Hl' & H1 & H2 & Hnd).
  rewrite without_spec by done. assert (Hne : e <> m) by (intros ->; done).
  assert (Hsp : exists p q a, us ++ vs = p ++ m :: q /\ prev K = Some a /\ (a = before l p \/ a = Elem e /\ p = us)).
  { destruct (decide (m ∈ us)) as [(p & q & ->)%list_elem_of_split|Hmu].
    - exists p, (q ++ vs), (before l p). rewrite <- app_assoc in Hl'. split; [by rewrite <- app_assoc|]. split; [by eapply Hp|by left].
    - assert (Hmv : m ∈ vs) by set_solver. apply list_elem_of_split in Hmv as (p & q & ->).
      exists (us ++ p), q, (before l (us ++ e :: p)). split; [by rewrite <- app_assoc|].
      split; [eapply Hp; by rewrite <- app_assoc|]. destruct p as [|y p _] using rev_ind; [right; unfold before; by rewrite last_snoc, app_nil_r|].
      left. unfold before. by rewrite app_comm_cons, !app_assoc, !last_snoc. }
  destruct Hsp as (p & q & a & Hpq & -> & Ha).
  eapply wp_mono; [by apply (wp_move_to s A l us e vs p (m :: q) a)|].
  intros ? s' H. eexists. split; [split; done|]. rewrite decide_True by (split; [set_solver|split; [set_solver|done]]).
  rewrite Hpq, put_before_spec; [done|].
  rewrite NoDup_app, NoDup_cons in Hnd. assert (Hnd' : NoDup (us ++ vs)) by (apply NoDup_app; set_solver).
  rewrite Hpq, NoDup_app in Hnd'. set_solver.
Qed.

(** ** Creating lists and copying them *)

Lemma wp_new_List s A : holds s A ->
  let l := fresh (dom (seqs A)) in wp (new_List nil) (fun r s' => r = Some l /\ holds s' (set_seq l [] A)) s.
Proof.
  intros (V & HV & HR). unfold new_List. cbv zeta. wp_steps.
  assert (Ed : dom (lists s) = dom (seqs A)).
  { apply set_eq. intros l. rewrite !elem_of_dom, <- (fmap_is_Some len), (looks_len _ _ HV). split; [apply (rep_known _ _ HR)|].
    intros [xs Hxs]. rewrite (rep_len _ _ _ (rep_lists _ _ HR _ _ Hxs)). eauto. }
  rewrite Ed. set (l := fresh (dom (seqs A))). assert (Hl : seqs A !! l = None) by (apply not_elem_of_dom, is_fresh).
  assert (Hsl : lists s !! l = None) by (apply not_elem_of_dom; rewrite Ed; apply is_fresh).
  set (s1 := mkHeap _ _). pose proof (looks_view_of s1) as HV1.
  assert (Hc : forall a, cell s1 a = if decide (a = Root l) then Some (zero_Element nil) else cell s a).
  { intros [e|k]; cbn; [by rewrite decide_False|]. destruct (decide (k = l)) as [->|].
    - by rewrite lookup_insert_eq, decide_True.
    - rewrite lookup_insert_ne, decide_False; [done|congruence|done]. }
  assert (Hk : forall k, len <$> lists s1 !! k = if decide (k = l) then Some 0 else vl V k).
  { intros k. rewrite <- (looks_len _ _ HV). cbn. case_decide as Hd; [by rewrite Hd, lookup_insert_eq|by rewrite lookup_insert_ne]. }
  assert (HR1 : Rep (view_of s1) (set_seq l [] A)).
  { destruct HV as [N P O X Y]. split; cbn -[cell ring].
    - intros k ys. destruct (decide (k = l)) as [->|Hkl].
      + rewrite lookup_insert_eq. intros [= <-]. split; cbn -[cell ring]; [by rewrite Hk, decide_True|by intros ? ?%elem_of_nil|left].
        by rewrite Hc, decide_True.
      + rewrite lookup_insert_ne by done. intros Hys. pose proof (rep_lists _ _ HR _ _ Hys) as [R1 R2 R3].
        assert (Hr : forall c, c ∈ ring k ys -> cell s1 c = cell s c).
        { intros c [->|(e & -> & _)]%elem_ring; by rewrite Hc, decide_False by congruence. }
        split; cbn -[cell ring]; [by rewrite Hk, decide_False|intros e He; rewrite Hr, O by (by apply Elem_ring); by apply R2|].
        destruct R3 as [(-> & R3 & R4)|R3]; [left|right].
        * by rewrite Hr, N, P by (apply elem_ring; by left).
        * eapply run_ext; [exact R3| |]; intros c; [intros Hin%sources_sub|intros Hin%targets_sub]; by rewrite (Hr c Hin), ?N, ?P.
    - intros e k. rewrite Hc, decide_False, O by done. intros [?|(ys & Hys & He)]%(rep_owner _ _ HR); [by left|]. right. exists ys. split; [|done].
      rewrite lookup_insert_ne; [done|congruence].
    - intros e He. rewrite Hc, decide_False, O by done. destruct (rep_lost _ _ HR e He) as [H1 H2]. split; [done|].
      intros k ys. destruct (decide (k = l)) as [->|]; [rewrite lookup_insert_eq; intros [= <-]; apply not_elem_of_nil|].
      rewrite lookup_insert_ne by done. apply H2.
    - intros k. rewrite Hk. case_decide as Hd; [subst; rewrite lookup_insert_eq; eauto|]. rewrite lookup_insert_ne by done. apply (rep_known _ _ HR).
    - intros k. rewrite Hk, Hc. case_decide as Hd; [subst; rewrite decide_True by done; eauto|]. rewrite decide_False, X by congruence. apply (rep_roots _ _ HR).
    - intros a. rewrite Hc. case_decide; [intros [? ?]; done|]. rewrite O, X. apply (rep_alloc _ _ HR).
    - intros e. rewrite Hc, decide_False, X by done. apply (rep_vals _ _ HR). }
  split; [done|by eexists].
Qed.
Lemma wp_l_New s A : holds s A ->
  let l := fresh (dom (seqs A)) in wp (New nil) (fun r s' => r = Some l /\ holds s' (set_seq l [] A)) s.
Proof.
  intros Hs l. unfold New. eapply wp_call; [by apply wp_new_List|]. intros ? s1 [-> Hs1].
  eapply wp_mono; [apply (wp_l_Init s1 (set_seq l [] A) l []); [done|cbn; apply lookup_insert_eq]|].
  intros r s' [-> H]. rewrite clear_nil in H by (cbn; apply lookup_insert_eq). split; [done|by eapply holds_at_holds].
Qed.

Lemma push_back_members l A v k : members (push_back l A v) k = if decide (k = l) then members A l ++ [fresh_elem A] else members A k.
Proof.
  unfold members, push_back, new_elem. cbn -[fresh_elem]. case_decide as Hd; [by rewrite Hd, lookup_insert_eq|by rewrite lookup_insert_ne].
Qed.
Lemma push_front_members l A v k : members (push_front l A v) k = if decide (k = l) then fresh_elem A :: members A l else members A k.
Proof.
  unfold members, push_front, new_elem. cbn -[fresh_elem]. case_decide as Hd; [by rewrite Hd, lookup_insert_eq|by rewrite lookup_insert_ne].
Qed.
Lemma push_seqs l A xs v k : is_Some (seqs A !! k) -> is_Some (seqs (new_elem l xs v A) !! k).
Proof. intros H. cbn. destruct (decide (k = l)) as [->|]; [rewrite lookup_insert_eq; eauto|by rewrite lookup_insert_ne]. Qed.
Lemma members_some A k : is_Some (seqs A !! k) -> seqs A !! k = Some (members A k).
Proof. unfold members. by intros [xs ->]. Qed.
Lemma members_live s A k x : holds s A -> x ∈ members A k -> live A x.
Proof.
  intros (V & _ & HR) Hx. unfold members in Hx. destruct (seqs A !! k) as [xs|] eqn:Hk; [|by apply elem_of_nil in Hx].
  split; [|by eapply member_not_lost]. rewrite <- (rep_vals _ _ HR). eapply (ring_alloc _ _ HR); [exact Hk|by apply Elem_ring].
Qed.
Lemma fresh_unknown A : vals A !! fresh_elem A = None.
Proof. apply not_elem_of_dom, is_fresh. Qed.
(** A new element does not change the values of the others. *)
Lemma vals_new l xs v A zs : Forall (fun x => is_Some (vals A !! x)) zs ->
  omap (fun e => vals (new_elem l xs v A) !! e) zs = omap (fun e => vals A !! e) zs.
Proof.
  induction 1 as [|x zs Hx _ IH]; [done|]. cbn -[fresh_elem new_elem] in *. rewrite IH.
  assert (E : vals (new_elem l xs v A) !! x = vals A !! x); [|by rewrite E].
  apply lookup_insert_ne. intros <-. rewrite fresh_unknown in Hx. by destruct Hx.
Qed.

Lemma wp_pushBackList l k post : forall s A pre extra (e : option addr),
  holds_at l s A -> is_Some (seqs A !! k) -> members A k = pre ++ post ++ extra ->
  post = [] \/ e = Elem <$> head post -> Z.of_nat (length (members A l) + length post) < max_len ->
  wp (pushBackList (length post) (Some l) e) (fun _ s' => holds s' (foldl (push_back l) A (omap (fun e => vals A !! e) post))) s.
Proof.
  induction post as [|z post IH]; intros s A pre extra e Hat Hk Hmem He Hlen; cbn [length pushBackList].
  { apply wp_ret. by eapply holds_at_holds. }
  destruct He as [?| ->]; [done|]. cbn [head fmap option_fmap option_map]. pose proof (holds_at_holds _ _ _ Hat) as Hs.
  destruct (members_live s A k z Hs) as [_ Hzl]; [rewrite Hmem; set_solver|].
  assert (Hval : Forall (fun x => is_Some (vals A !! x)) (z :: post)).
  { apply Forall_forall. intros x Hx. apply (members_live s A k x Hs). rewrite Hmem. set_solver. }
  inversion_clear Hval as [|? ? [w Hw] Hval']. cbn -[new_elem foldl]. rewrite Hw. cbn [foldl].
  apply wp_bind. apply (wp_load_elem s A Hs z w); [done|done|]. intros E -> _ _ _.
  pose proof Hat as (V & ms & _ & _ & Hms & _). rewrite (members_eq _ _ _ Hms) in Hlen. cbn [length] in Hlen.
  apply wp_assoc, wp_bind, (wp_at_back s A l ms w); [done|done|lia|]. intros s' Hat'.
  pose proof (push_seqs l A (members A l ++ [fresh_elem A]) w k Hk) as Hk'. fold (push_back l A w) in Hk'.
  assert (Hmem' : exists extra', members (push_back l A w) k = (pre ++ [z]) ++ post ++ extra').
  { rewrite push_back_members. case_decide as Hd; [subst k; exists (extra ++ [fresh_elem A])|exists extra];
    rewrite Hmem, <- !app_assoc; cbn; by rewrite <- ?app_assoc. }
  destruct Hmem' as [extra' Hmem']. pose proof (members_some _ _ Hk') as Hsk. rewrite Hmem', <- app_assoc in Hsk.
  eapply wp_call; [apply (wp_l_Next s' (push_back l A w) (holds_at_holds _ _ _ Hat') k pre z (post ++ extra') Hsk)|].
  intros r t [-> ->]. rewrite <- (vals_new l (members A l ++ [fresh_elem A]) w A post Hval'). fold (push_back l A w).
  apply (IH s' (push_back l A w) (pre ++ [z]) extra'); [done|done|done| |].
  - destruct post; [by left|by right].
  - rewrite push_back_members, decide_True, (members_eq _ _ _ Hms), length_app by done. cbn [length]. lia.
Qed.

(** From the back, on the reversed list. *)
Lemma wp_pushFrontList l k post : forall s A pre extra (e : option addr),
  holds_at l s A -> is_Some (seqs A !! k) -> members A k = extra ++ reverse post ++ pre ->
  post = [] \/ e = Elem <$> head post -> Z.of_nat (length (members A l) + length post) < max_len ->
  wp (pushFrontList (length post) (Some l) e) (fun _ s' => holds s' (foldl (push_front l) A (omap (fun e => vals A !! e) post))) s.
Proof.
  induction post as [|z post IH]; intros s A pre extra e Hat Hk Hmem He Hlen; cbn [length pushFrontList].
  { apply wp_ret. by eapply holds_at_holds. }
  destruct He as [?| ->]; [done|]. cbn [head fmap option_fmap option_map]. pose proof (holds_at_holds _ _ _ Hat) as Hs.
  destruct (members_live s A k z Hs) as [_ Hzl]; [rewrite Hmem; set_solver|].
  assert (Hval : Forall (fun x => is_Some (vals A !! x)) (z :: post)).
  { apply Forall_forall. intros x Hx. apply (members_live s A k x Hs). rewrite Hmem, !elem_of_app, elem_of_reverse. tauto. }
  inversion_clear Hval as [|? ? [w Hw] Hval']. cbn -[new_elem foldl]. rewrite Hw. cbn [foldl].
  apply wp_bind. apply (wp_load_elem s A Hs z w); [done|done|]. intros E -> _ _ _.
  pose proof Hat as (V & ms & _ & _ & Hms & _). rewrite (members_eq _ _ _ Hms) in Hlen. cbn [length] in Hlen.
  apply wp_bind, wp_ret. eapply wp_call; [apply (wp_at_front s A l ms w Hat Hms); lia|]. intros ? s' [_ Hat'].
  pose proof (push_seqs l A (fresh_elem A :: members A l) w k Hk) as Hk'. fold (push_front l A w) in Hk'.
  rewrite reverse_cons, <- app_assoc in Hmem. cbn [app] in Hmem.
  assert (Hmem' : exists extra', members (push_front l A w) k = extra' ++ reverse post ++ z :: pre).
  { rewrite push_front_members. case_decide as Hd; [subst k; exists (fresh_elem A :: extra)|exists extra]; by rewrite Hmem. }
  destruct Hmem' as [extra' Hmem']. pose proof (members_some _ _ Hk') as Hsk. rewrite Hmem', app_assoc in Hsk.
  eapply wp_call; [apply (wp_l_Prev s' (push_front l A w) (holds_at_holds _ _ _ Hat') k (extra' ++ reverse post) z pre Hsk)|].
  intros r t [-> ->]. rewrite <- (vals_new l (fresh_elem A :: members A l) w A post Hval'). fold (push_front l A w).
  apply (IH s' (push_front l A w) (z :: pre) extra'); [done|done|done| |].
  - destruct post as [|y post]; [by left|right]. by rewrite reverse_cons, app_assoc, last_snoc.
  - rewrite push_front_members, decide_True, (members_eq _ _ _ Hms) by done. cbn [length]. lia.
Qed.

Lemma omap_reverse {X Y} (f : X -> option Y) (zs : list X) : omap f (reverse zs) = reverse (omap f zs).
Proof.
  induction zs as [|z zs IH]; [done|]. rewrite reverse_cons, omap_app, IH. cbn -[reverse]. destruct (f z); [by rewrite reverse_cons|by rewrite app_nil_r].
Qed.

Lemma wp_PushBackList s A l k : holds s A -> is_Some (seqs A !! l) -> is_Some (seqs A !! k) ->
  Z.of_nat (length (members A l)) + Z.of_nat (length (members A k)) < max_len ->
  moves (OPushBackList l k) s A (PushBackList (Some l) (Some k)).
Proof.
  intros Hs Hl Hk Hlen. unfold moves, PushBackList. eapply wp_call; [eapply wp_lazyInit; [done|by apply members_some]|].
  intros ? s' Hat. pose proof (holds_at_holds _ _ _ Hat) as Hs'. pose proof (members_some _ _ Hk) as Hmk.
  eapply wp_call; [by apply (wp_Len_ok s' A Hs' k)|]. intros n t [-> ->].
  eapply wp_call; [by apply (wp_Front s' A Hs' k)|]. intros e t [-> ->]. rewrite Nat2Z.id.
  eapply wp_mono; [apply (wp_pushBackList l k (members A k) s' A [] []); [done|done|by rewrite app_nil_r|by right|lia]|].
  intros [] t H. eexists. split; [split; done|exact H].
Qed.
Lemma wp_PushFrontList s A l k : holds s A -> is_Some (seqs A !! l) -> is_Some (seqs A !! k) ->
  Z.of_nat (length (members A l)) + Z.of_nat (length (members A k)) < max_len ->
  moves (OPushFrontList l k) s A (PushFrontList (Some l) (Some k)).
Proof.
  intros Hs Hl Hk Hlen. unfold moves, PushFrontList. eapply wp_call; [eapply wp_lazyInit; [done|by apply members_some]|].
  intros ? s' Hat. pose proof (holds_at_holds _ _ _ Hat) as Hs'. pose proof (members_some _ _ Hk) as Hmk.
  eapply wp_call; [by apply (wp_Len_ok s' A Hs' k)|]. intros n t [-> ->].
  eapply wp_call; [by apply (wp_Back s' A Hs' k)|]. intros e t [-> ->]. rewrite Nat2Z.id, <- length_reverse.
  eapply wp_mono; [apply (wp_pushFrontList l k (reverse (members A k)) s' A [] [] _ Hat Hk);
    [by rewrite reverse_involutive, app_nil_r|right; by rewrite head_reverse|rewrite length_reverse; lia]|].
  intros [] t H. eexists. split; [split; [done|]|exact H]. f_equal. apply omap_reverse.
Qed.

Definition empty_heap : heap := mkHeap ∅ ∅.
Definition empty_abst : abst := mkAbst ∅ ∅ ∅.

Lemma small_members A l : small A -> Z.of_nat (length (members A l)) < max_len.
Proof. intros H. specialize (H l l). lia. Qed.

Definition runs (o : op) s A : Prop := wp (run_op o) (fun r s' => exists A', spec A o r A' /\ holds s' A') s.

Lemma runs_observe {T} (f : T -> result) (m : M heap T) (o : op) s A (P : T -> Prop) :
  run_op o = ret f m -> holds s A -> wp m (fun r s' => P r /\ s' = s) s -> (forall r, P r -> spec A o (f r) A) -> runs o s A.
Proof.
  intros E Hs Hm HP. unfold runs. rewrite E. apply wp_ret_res. eapply wp_mono; [exact Hm|].
  intros r s' [H ->]. exists A. auto.
Qed.
Lemma runs_update {T} (f : T -> result) (m : M heap T) (o : op) s A A' r0 :
  run_op o = ret f m -> wp m (fun r s' => r = r0 /\ holds s' A') s -> spec A o (f r0) A' -> runs o s A.
Proof.
  intros E Hm HP. unfold runs. rewrite E. apply wp_ret_res. eapply wp_mono; [exact Hm|].
  intros r s' [-> H]. by exists A'.
Qed.

(** An element is in one list or in none. *)
Lemma owner_cases s A e : holds s A -> live A e ->
  (~ owned A e /\ wp (load (ptr e)) (fun E s' => list_ E = None /\ s' = s) s) \/
  exists l us vs, seqs A !! l = Some (us ++ e :: vs) /\ e ∉ us /\ e ∉ vs.
Proof.
  intros Hs [[w Hw] Hlo]. pose proof (wp_load_elem s A Hs e w (fun E s' => (list_ E = None <-> ~ owned A e) /\ (forall l, list_ E = Some l -> e ∈ members A l) /\ s' = s) Hw Hlo) as W.
  destruct (wp_elim _ _ _ (W ltac:(intros E _ H1 H2 _; split; [done|split; [intros l Hl; by apply H1|done]]))) as (E & s' & HE & H1 & H2 & ->).
  destruct (list_ E) as [l|] eqn:El.
  - right. specialize (H2 l eq_refl). exists l. unfold members in H2. destruct (seqs A !! l) as [xs|] eqn:Hl; [|by apply elem_of_nil in H2].
    destruct (holds_split s A l xs e Hs Hl H2) as (us & vs & -> & _ & ? & ? & _). eauto.
  - left. split; [by apply H1|]. unfold wp. by rewrite HE.
Qed.

Lemma runs_Next s A e : holds s A -> live A e -> runs (ONext e) s A.
Proof.
  intros Hs Hv. destruct (owner_cases s A e Hs Hv) as [[Ho Hl]|(l & us & vs & Hl & H1 & H2)].
  - apply (runs_observe RElem (Next (ptr e)) _ s A (fun r => r = None)); [done|done| |intros r ->; by split; [|left]].
    unfold Next. eapply wp_call; [exact Hl|]. intros E s' [-> ->]. by apply wp_ret.
  - apply (runs_observe RElem (Next (ptr e)) _ s A (fun r => r = Elem <$> head vs)); [done|done|by eapply wp_l_Next|].
    intros r ->. split; [done|]. right. exists l. rewrite (members_eq _ _ _ Hl), next_in_spec by done. split; [set_solver|done].
Qed.
Lemma runs_Prev s A e : holds s A -> live A e -> runs (OPrev e) s A.
Proof.
  intros Hs Hv. destruct (owner_cases s A e Hs Hv) as [[Ho Hl]|(l & us & vs & Hl & H1 & H2)].
  - apply (runs_observe RElem (Prev (ptr e)) _ s A (fun r => r = None)); [done|done| |intros r ->; by split; [|left]].
    unfold Prev. eapply wp_call; [exact Hl|]. intros E s' [-> ->]. by apply wp_ret.
  - apply (runs_observe RElem (Prev (ptr e)) _ s A (fun r => r = Elem <$> last us)); [done|done|by eapply wp_l_Prev|].
    intros r ->. split; [done|]. right. exists l. rewrite (members_eq _ _ _ Hl), prev_in_spec by done. split; [set_solver|done].
Qed.

Lemma run_op_refines s A o : holds s A -> valid A o -> small A -> runs o s A.
Proof.
  intros Hs Hv Hsm. pose proof (fun l => small_members A l Hsm) as Hlt. pose proof members_some A as Hmem.
  destruct o as [| |l|l|l|l|e|e|l e|l v|l v|l v m|l v m|l e|l e|l e m|l e m|l k|l k]; cbn [valid] in Hv.
  - eapply (runs_update RList); [done|by apply wp_new_List|done].
  - eapply (runs_update RList); [done|by apply wp_l_New|done].
  - eapply (runs_update RList); [done|eapply wp_mono; [apply (wp_l_Init s A l (members A l) Hs (Hmem l Hv))|]; intros r s' [-> ?]; split; [done|by eapply holds_at_holds]|done].
  - eapply (runs_observe RInt); [done|done|by apply (wp_Len_ok s A Hs), Hmem|by intros r ->].
  - eapply (runs_observe RElem); [done|done|by apply (wp_Front s A Hs), Hmem|by intros r ->].
  - eapply (runs_observe RElem); [done|done|by apply (wp_Back s A Hs), Hmem|by intros r ->].
  - by apply runs_Next.
  - by apply runs_Prev.
  - destruct Hv. apply wp_ret_res. by eapply wp_l_Remove; [|apply Hmem| |].
  - eapply (runs_update RElem); [done|by eapply wp_PushFront; [|apply Hmem|]|done].
  - eapply (runs_update RElem); [done|by eapply wp_PushBack; [|apply Hmem|]|done].
  - destruct Hv. apply wp_ret_res. by eapply wp_InsertBefore; [|apply Hmem| |].
  - destruct Hv. apply wp_ret_res. by eapply wp_InsertAfter; [|apply Hmem| |].
  - destruct Hv. apply wp_ret_res. by eapply wp_MoveToFront; [|apply Hmem| |].
  - destruct Hv. apply wp_ret_res. by eapply wp_MoveToBack; [|apply Hmem| |].
  - destruct Hv as (? & ? & ?). apply wp_ret_res. by eapply wp_MoveBefore; [|apply Hmem| | |].
  - destruct Hv as (? & ? & ?). apply wp_ret_res. by eapply wp_MoveAfter; [|apply Hmem| | |].
  - destruct Hv. apply wp_ret_res. by apply wp_PushBackList.
  - destruct Hv. apply wp_ret_res. by apply wp_PushFrontList.
Qed.

Lemma holds_empty : holds empty_heap empty_abst.
Proof.
  exists (view_of empty_heap). split; [apply looks_view_of|]. split; cbn.
  - intros l xs. by rewrite lookup_empty.
  - intros e l. by rewrite lookup_empty.
  - intros e He. set_solver.
  - intros l. rewrite lookup_empty. by intros [? ?].
  - intros l. rewrite lookup_empty. by intros [? ?].
  - intros [e|l]; cbn; rewrite lookup_empty; by intros [? ?].
  - intros e. by rewrite !lookup_empty.
Qed.

(** A client's sequence of operations, each valid where it is called. *)
Inductive trace : abst -> list op -> list result -> abst -> Prop :=
| trace_nil A : trace A [] [] A
| trace_cons A o r A1 os rs A2 : spec A o r A1 -> trace A1 os rs A2 -> trace A (o :: os) (r :: rs) A2.
Inductive client : abst -> list op -> Prop :=
| client_nil A : client A []
| client_cons A o os : valid A o -> small A -> (forall r A1, spec A o r A1 -> client A1 os) -> client A (o :: os).
Fixpoint run_ops (os : list op) : M heap (list result) :=
  match os with
  | [] => mret []
  | o :: os => r <- run_op o ;; rs <- run_ops os ;; mret (r :: rs)
  end.

(** C30: the lists of [container/list] are sequences.  From the empty store, every
    sequence of calls of the functions of the package on allocated lists and
    elements returns, without a nil dereference, and does to all lists, in its
    results and its effects, what [spec] says of sequences: [Front], [Back], [Next] and
    [Prev] are the ends and the neighbours, insertions and moves put the element at
    the place asked for, [Remove] takes out exactly the element, a mark or element
    of another list changes nothing, [PushBackList] and [PushFrontList] append
    copies of the values the other list, possibly the same, had at the call, and [Init]
    makes a list empty, whatever it held.  Two conditions: the calls pass no element that an
    [Init] cleared out of its list (the code takes it for an element of the list still, see
    [Init_leaves_owner]), and the lengths of two lists together stay below the largest [int]. *)
Theorem list_refines_sequences os :
  client empty_abst os ->
  exists rs s A, run_ops os empty_heap = Done (rs, s) /\ trace empty_abst os rs A /\ holds s A.
Proof.
  generalize holds_empty. generalize empty_heap empty_abst. intros s A Hs Hc. revert s Hs.
  induction Hc as [A|A o os Hv Hsm _ IH]; intros s Hs.
  - exists [], s, A. split; [done|]. split; [constructor|done].
  - destruct (wp_elim _ _ _ (run_op_refines s A o Hs Hv Hsm)) as (r & s1 & E & A1 & Hspec & Hs1).
    destruct (IH r A1 Hspec s1 Hs1) as (rs & s2 & A2 & E2 & Ht & Hs2).
    exists (r :: rs), s2, A2. cbn. unfold mbind. rewrite E, E2. split; [done|]. split; [by econstructor|done].
Qed.
End Theorems.

Lemma small_check {any} (A : abst any) : map_Forall (fun _ xs => 2 * Z.of_nat (length xs) < max_len) (seqs A) -> small A.
Proof.
  intros H l k. assert (Hm : forall j, 2 * Z.of_nat (length (members A j)) < max_len); [|pose proof (Hm l); pose proof (Hm k); lia].
  intros j. unfold members. destruct (seqs A !! j) as [xs|] eqn:E; [by apply H in E|cbn; done].
Qed.

(** A list is built, copied behind itself, and an element of it moved and removed. *)
Definition sample : list (op (any := Z)) :=
  [ONew; OPushBack 1 7; OInsertBefore 1 8 1; OPushBackList 1 1; OMoveToFront 1 1; ORemove 1 2; OFront 1; ONext 1; OInit 1; OPushFront 1 9; OLen 1].
Lemma list_refines_sequences_witness :
  client (empty_abst (any := Z)) sample /\
  exists rs s A, run_ops 0 sample empty_heap = Done (rs, s) /\ trace empty_abst sample rs A /\ holds s A.
Proof.
  assert (H : client (empty_abst (any := Z)) sample).
  { unfold sample. repeat (apply client_cons;
      [unfold valid, live; refine (bool_decide_unpack _ _); by vm_compute|apply small_check; refine (bool_decide_unpack _ _); by vm_compute|
       intros ? ? Hspec; vm_compute in Hspec; first [destruct Hspec as [_ ->]|destruct Hspec as [-> _]]]).
    all: apply client_nil. }
  split; [exact H|exact (list_refines_sequences 0 sample H)].
Defined.

(** [Init] on a list that has elements forgets them but leaves them marked as elements
    of the list; removing one of them afterwards makes the length -1. *)
Example Init_leaves_owner :
  wp (l <- New 0 ;; e <- PushBack l 7 ;; l' <- Init l ;; v <- Remove l e ;; Len l) (fun n _ => n = -1) empty_heap.
Proof. by vm_compute. Qed.
