(* ===== verification/Ring.v ===== *)
(** * container/ring: circular lists ([container/ring/ring.go])

    Ring elements live in a store; a pointer is nil or the address of an element, and
    following nil panics.  The function given to [Do] acts on a state of the client that
    is not part of any ring. *)

From stdpp Require Import gmap.
From S2P Require Import Prelude.

Section Ring.
Context {any X : Type} (nil : any).

Record Ring : Type := mkRing {
  next : option positive;
  prev : option positive;
  Value : any }.

Record state : Type := mkState {
  cells : gmap positive Ring;
  client : X }.

Notation M := (M state).
Notation ptr := (option positive).

Definition load (p : ptr) : M Ring :=
  s <- mget ;;
  match p ≫= (fun a => cells s !! a) with
  | Some E => mret E
  | None => mpanic NilDereference
  end.
Definition update (p : ptr) (f : Ring -> Ring) : M unit :=
  E <- load p ;;
  match p with
  | Some a => mmodify (fun s => mkState (<[a := f E]> (cells s)) (client s))
  | None => mpanic NilDereference
  end.
Definition set_next (p q : ptr) : M unit := update p (fun E => mkRing q (prev E) (Value E)).
Definition set_prev (p q : ptr) : M unit := update p (fun E => mkRing (next E) q (Value E)).
Definition alloc (E : Ring) : M ptr :=
  s <- mget ;;
  let a := fresh (dom (cells s)) in
  mput (mkState (<[a := E]> (cells s)) (client s)) ;;
  mret (Some a).

Definition init (r : ptr) : M ptr :=
  set_next r r ;;
  set_prev r r ;;
  mret r.

Definition Next (r : ptr) : M ptr :=
  E <- load r ;;
  if decide (next E = None) then init r else mret (next E).

Definition Prev (r : ptr) : M ptr :=
  E <- load r ;;
  if decide (next E = None) then init r else mret (prev E).

(** [k] steps along [prev] and along [next]. *)
Fixpoint backward (k : nat) (r : ptr) : M ptr :=
  match k with
  | O => mret r
  | S k => E <- load r ;; backward k (prev E)
  end.
Fixpoint forward (k : nat) (r : ptr) : M ptr :=
  match k with
  | O => mret r
  | S k => E <- load r ;; forward k (next E)
  end.

Definition Move (r : ptr) (n : Z) : M ptr :=
  E <- load r ;;
  if decide (next E = None) then init r
  else if n <? 0 then backward (Z.to_nat (- n)) r
  else if n >? 0 then forward (Z.to_nat n) r
  else mret r.

(** [k] more elements behind [p]; the last one is returned. *)
Fixpoint new_rest (k : nat) (p : ptr) : M ptr :=
  match k with
  | O => mret p
  | S k =>
      q <- alloc (mkRing None p nil) ;;
      set_next p q ;;
      E <- load p ;;
      new_rest k (next E)
  end.
Definition New (n : Z) : M ptr :=
  if n <=? 0 then mret None
  else
    r <- alloc (mkRing None None nil) ;;
    p <- new_rest (Z.to_nat (n - 1)) r ;;
    set_next p r ;;
    set_prev r p ;;
    mret r.

Definition Link (r s : ptr) : M ptr :=
  n <- Next r ;;
  match s with
  | Some _ =>
      p <- Prev s ;;
      set_next r s ;;
      set_prev s r ;;
      set_prev n p ;;
      set_next p n ;;
      mret n
  | None => mret n
  end.

Definition Unlink (r : ptr) (n : Z) : M ptr :=
  if n <=? 0 then mret None
  else
    m <- Move r (int64 (n + 1)) ;;
    Link r m.

(** A loop over the other elements of a ring makes fewer rounds than there are elements
    in the store. *)
Definition rounds : M nat := mgets (fun s => size (cells s)).

Definition Len (r : ptr) : M Z :=
  match r with
  | None => mret 0
  | Some _ =>
      p <- Next r ;;
      fuel <- rounds ;;
      loop fuel (fun '(n, p) =>
        if decide (p <> r) then
          E <- load p ;;
          continue (int64 (n + 1), next E)
        else break n) (1, p)
  end.

Definition call (f : any -> X -> X) (v : any) : M unit :=
  mmodify (fun s => mkState (cells s) (f v (client s))).
Definition Do (r : ptr) (f : any -> X -> X) : M unit :=
  match r with
  | None => mret tt
  | Some _ =>
      E <- load r ;;
      call f (Value E) ;;
      p <- Next r ;;
      fuel <- rounds ;;
      loop fuel (fun p =>
        if decide (p <> r) then
          E <- load p ;;
          call f (Value E) ;;
          E <- load p ;;
          continue (next E)
        else break tt) p
  end.
End Ring.
Arguments Ring : clear implicits.
Arguments state : clear implicits.
