(* ===== verification/RingTheorems.v ===== *)
(** * container/ring: theorems *)

From stdpp Require Import gmap functions.
From S2P Require Import Prelude.
From S2P Require Import Links.
From S2P Require Import Ring.

Section Theorems.
Context {any X : Type} (nil : any).
Notation state := (state any X).
Notation M := (M state).
Implicit Types (s : state) (r q a b : positive) (xs ys : list positive).

Definition nx s a : option positive := cells s !! a ≫= next.
Definition pv s a : option positive := cells s !! a ≫= prev.
Definition val s a : option any := Value <$> cells s !! a.

(** [r] is followed by [xs], and the last of them by [r] again; a lone zero [Ring]
    counts as a ring. *)
Definition is_ring s r xs : Prop :=
  run (nx s) (pv s) (r :: xs ++ [r]) \/ xs = [] /\ is_Some (val s r) /\ nx s r = None /\ pv s r = None.

(** What an operation leaves alone: the values and the client's state, and every ring
    without elements of [l]. *)
Definition keeps (l : list positive) s s' : Prop :=
  (forall a, val s' a = val s a) /\ client s' = client s /\
  (forall a, a ∉ l -> nx s' a = nx s a /\ pv s' a = pv s a).

Lemma keeps_refl l s : keeps l s s.
Proof. done. Qed.
Lemma keeps_trans l s1 s2 s3 : keeps l s1 s2 -> keeps l s2 s3 -> keeps l s1 s3.
Proof.
  intros (V1 & C1 & N1) (V2 & C2 & N2). split; [by intros a; rewrite V2|]. split; [congruence|].
  intros a Ha. destruct (N1 a Ha) as [<- <-]. by apply N2.
Qed.
Lemma keeps_sub l l' s s' : keeps l s s' -> l ⊆ l' -> keeps l' s s'.
Proof. intros (V & C & N) Hl. split; [done|]. split; [done|]. intros a Ha. apply N. set_solver. Qed.

Lemma same_ring s s' r xs :
  (forall a, val s' a = val s a) -> (forall a, a ∈ r :: xs -> nx s' a = nx s a /\ pv s' a = pv s a) -> is_ring s r xs -> is_ring s' r xs.
Proof.
  intros V N [H|(-> & H1 & H2 & H3)]; [left|right].
  - eapply run_ext; [exact H| |]; intros c; [intros Hc%sources_sub|intros Hc%targets_sub]; apply N; set_solver.
  - rewrite V. destruct (N r) as [-> ->]; [set_solver|done].
Qed.
Lemma keeps_ring l s s' r xs : keeps l s s' -> is_ring s r xs -> (forall a, a ∈ r :: xs -> a ∉ l) -> is_ring s' r xs.
Proof. intros (V & C & N) H Hd. apply (same_ring s); [done|intros a Ha; by apply N, Hd|done]. Qed.

(** ** Memory *)

Lemma wp_r_load (Q : Ring any -> state -> Prop) s a : is_Some (val s a) ->
  (forall E, next E = nx s a -> prev E = pv s a -> val s a = Some (Value E) -> Q E s) -> wp (load (Some a)) Q s.
Proof.
  unfold val, nx, pv. intros [v Hv] HQ. unfold load, wp, mbind, mget; cbn.
  destruct (cells s !! a) as [E|]; [|done]. by apply HQ.
Qed.

(** The pointers of a store as functions. *)
Definition looks s0 s (n p : positive -> option positive) : Prop :=
  (forall a, nx s a = n a) /\ (forall a, pv s a = p a) /\ (forall a, val s a = val s0 a) /\ client s = client s0.
Lemma looks_refl s : looks s s (nx s) (pv s).
Proof. done. Qed.

Lemma wp_r_set_next (Q : _ -> _ -> Prop) s0 s n p a (q : option positive) : looks s0 s n p -> is_Some (val s0 a) ->
  (forall s', looks s0 s' (<[a := q]> n) p -> (forall b, b <> a -> cells s' !! b = cells s !! b) -> Q tt s') -> wp (set_next (Some a) q) Q s.
Proof.
  intros (H1 & H2 & H3 & H4) [v Hv] HQ. rewrite <- H3 in Hv. unfold set_next, update, load, wp, mbind, mget, mmodify; cbn.
  unfold nx, pv, val in *. destruct (cells s !! a) as [E|] eqn:HE; [|done].
  apply HQ; [|intros b Hb; cbn; by rewrite lookup_insert_ne].
  split; [|split; [|split; [|done]]]; intros b; unfold nx, pv, val; cbn; (destruct (decide (b = a)) as [->|];
    [rewrite lookup_insert_eq, ?fn_lookup_insert|rewrite lookup_insert_ne, ?fn_lookup_insert_ne by done; auto]); cbn.
  - done.
  - rewrite <- H2, HE. done.
  - rewrite <- H3, HE. done.
Qed.
Lemma wp_r_set_prev (Q : _ -> _ -> Prop) s0 s n p a (q : option positive) : looks s0 s n p -> is_Some (val s0 a) ->
  (forall s', looks s0 s' n (<[a := q]> p) -> (forall b, b <> a -> cells s' !! b = cells s !! b) -> Q tt s') -> wp (set_prev (Some a) q) Q s.
Proof.
  intros (H1 & H2 & H3 & H4) [v Hv] HQ. rewrite <- H3 in Hv. unfold set_prev, update, load, wp, mbind, mget, mmodify; cbn.
  unfold nx, pv, val in *. destruct (cells s !! a) as [E|] eqn:HE; [|done].
  apply HQ; [|intros b Hb; cbn; by rewrite lookup_insert_ne].
  split; [|split; [|split; [|done]]]; intros b; unfold nx, pv, val; cbn; (destruct (decide (b = a)) as [->|];
    [rewrite lookup_insert_eq, ?fn_lookup_insert|rewrite lookup_insert_ne, ?fn_lookup_insert_ne by done; auto]); cbn.
  - rewrite <- H1, HE. done.
  - done.
  - rewrite <- H3, HE. done.
Qed.

Lemma nx_val s a b : nx s a = Some b -> is_Some (val s a).
Proof. unfold nx, val. destruct (cells s !! a); [eauto|done]. Qed.
Lemma pv_val s a b : pv s a = Some b -> is_Some (val s a).
Proof. unfold pv, val. destruct (cells s !! a); [eauto|done]. Qed.

(** ** Rings *)

Lemma ring_of_run s r xs : run (nx s) (pv s) (r :: xs ++ [r]) -> is_ring s r xs.
Proof. by left. Qed.

Lemma run_ends s r xs : run (nx s) (pv s) (r :: xs ++ [r]) -> nx s r = Some (first r xs) /\ pv s r = Some (final r xs).
Proof.
  intros H. split.
  - destruct (first_eq r xs) as [U E]. rewrite E in H. by apply (run_next _ _ [] r _ U) in H as [? _].
  - destruct (final_eq r xs) as [U E]. rewrite app_comm_cons, E, <- app_assoc in H. by apply run_next in H as [_ ?].
Qed.
Lemma ring_val s r xs a : is_ring s r xs -> a ∈ r :: xs -> is_Some (val s a).
Proof.
  intros [H|(-> & H & _)] Ha; [|by apply list_elem_of_singleton in Ha as ->].
  apply list_elem_of_split in Ha as (us & vs & E). rewrite app_comm_cons, E, <- app_assoc in H. cbn in H.
  assert (exists b ws, vs ++ [r] = b :: ws) as (b & ws & Ew) by (destruct vs; by eexists _, _).
  rewrite Ew in H. apply run_next in H as [H _]. by eapply nx_val.
Qed.
Lemma ring_NoDup s r xs : is_ring s r xs -> NoDup (r :: xs).
Proof.
  intros [[_ H _]|(-> & _)]; [|repeat constructor; by intros ?%elem_of_nil].
  by rewrite app_comm_cons, sources_snoc in H.
Qed.

(** [init] makes a zero [Ring] point to itself. *)
Lemma wp_init s r : is_ring s r [] -> val s r <> None ->
  wp (init (Some r)) (fun x s' => x = Some r /\ keeps [r] s s' /\ run (nx s') (pv s') [r; r]) s.
Proof.
  intros Hr Hv. pose proof (ring_val s r [] r Hr ltac:(set_solver)) as Hval. unfold init.
  apply wp_bind. eapply (wp_r_set_next _ s); [apply looks_refl|done|]. intros s1 L1 _.
  apply wp_bind. eapply (wp_r_set_prev _ s); [exact L1|done|]. intros s2 (N & P & V & C) _. apply wp_ret. split; [done|]. split.
  - split; [done|]. split; [done|]. intros a Ha. assert (a <> r) by set_solver. by rewrite N, P, !fn_lookup_insert_ne.
  - split; cbn; [by rewrite N, P, !fn_lookup_insert|repeat constructor; set_solver..].
Qed.

Definition ready s r xs (Q : option positive -> state -> Prop) (v : option positive) : Prop :=
  forall s', keeps [r] s s' -> run (nx s') (pv s') (r :: xs ++ [r]) -> Q v s'.
Lemma wp_r_Next (Q : _ -> _ -> Prop) s r xs : is_ring s r xs -> ready s r xs Q (Some (first r xs)) -> wp (Next (Some r)) Q s.
Proof.
  intros Hr HQ. pose proof (ring_val s r xs r Hr ltac:(set_solver)) as Hval.
  unfold Next. apply wp_bind. apply wp_r_load; [done|]. intros E -> _ _. destruct Hr as [H|(-> & Hv & H1 & H2)].
  - destruct (run_ends _ _ _ H) as [Hn _]. rewrite Hn. cbn. apply wp_ret. by apply HQ.
  - rewrite H1. cbn. eapply wp_mono; [apply wp_init; [by right|destruct Hv; congruence]|]. intros x s' (-> & Hk & H). by apply HQ.
Qed.
Lemma wp_r_Prev (Q : _ -> _ -> Prop) s r xs : is_ring s r xs -> ready s r xs Q (Some (final r xs)) -> wp (Prev (Some r)) Q s.
Proof.
  intros Hr HQ. pose proof (ring_val s r xs r Hr ltac:(set_solver)) as Hval.
  unfold Prev. apply wp_bind. apply wp_r_load; [done|]. intros E -> -> _. destruct Hr as [H|(-> & Hv & H1 & H2)].
  - destruct (run_ends _ _ _ H) as [Hn Hp]. rewrite Hn, Hp. cbn. apply wp_ret. by apply HQ.
  - rewrite H1. cbn. eapply wp_mono; [apply wp_init; [by right|destruct Hv; congruence]|]. intros x s' (-> & Hk & H). by apply HQ.
Qed.

(** On a ring that is not a zero [Ring] they change nothing. *)
Lemma wp_Next_run (Q : _ -> _ -> Prop) s r xs : run (nx s) (pv s) (r :: xs ++ [r]) -> Q (Some (first r xs)) s -> wp (Next (Some r)) Q s.
Proof.
  intros H HQ. unfold Next. apply wp_bind. apply wp_r_load; [by eapply ring_val; [left|left]|]. intros E -> _ _.
  destruct (run_ends _ _ _ H) as [-> _]. cbn. by apply wp_ret.
Qed.
Lemma wp_Prev_run (Q : _ -> _ -> Prop) s r xs : run (nx s) (pv s) (r :: xs ++ [r]) -> Q (Some (final r xs)) s -> wp (Prev (Some r)) Q s.
Proof.
  intros H HQ. unfold Prev. apply wp_bind. apply wp_r_load; [by eapply ring_val; [left|left]|]. intros E -> -> _.
  destruct (run_ends _ _ _ H) as [-> ->]. cbn. by apply wp_ret.
Qed.

(** ** Link *)

Lemma wp_relink (Q : _ -> _ -> Prop) s r q n p : is_Some (val s r) -> is_Some (val s q) -> is_Some (val s n) -> is_Some (val s p) ->
  (forall s', looks s s' (linked r q n p (nx s)) (linked q r p n (pv s)) -> Q (Some n) s') ->
  wp (set_next (Some r) (Some q) ;; set_prev (Some q) (Some r) ;; set_prev (Some n) (Some p) ;; set_next (Some p) (Some n) ;; mret (Some n)) Q s.
Proof.
  intros Hr Hq Hn Hp HQ.
  apply wp_bind. eapply (wp_r_set_next _ s); [apply looks_refl|done|]. intros s1 L1 _.
  apply wp_bind. eapply (wp_r_set_prev _ s); [exact L1|done|]. intros s2 L2 _.
  apply wp_bind. eapply (wp_r_set_prev _ s); [exact L2|done|]. intros s3 L3 _.
  apply wp_bind. eapply (wp_r_set_next _ s); [exact L3|done|]. intros s4 L4 _. apply wp_ret. by apply HQ.
Qed.

Lemma looks_run s s' n p l : looks s s' n p -> run n p l -> run (nx s') (pv s') l.
Proof. intros (H1 & H2 & _) H. eapply run_ext; [exact H|auto..]. Qed.
Lemma looks_linked_keeps s s' r q n p l : looks s s' (linked r q n p (nx s)) (linked q r p n (pv s)) ->
  r ∈ l -> q ∈ l -> n ∈ l -> p ∈ l -> keeps l s s'.
Proof.
  intros (H1 & H2 & H3 & H4) Hr Hq Hn Hp. split; [done|]. split; [done|]. intros a Ha. rewrite H1, H2. unfold linked.
  rewrite !fn_lookup_insert_ne by (intros ->; contradiction). done.
Qed.

Lemma wp_r_Link_far s r xs q ys : is_ring s r xs -> is_ring s q ys -> (forall a, a ∈ r :: xs -> a ∉ q :: ys) ->
  wp (Link (Some r) (Some q)) (fun v s' => v = Some (first r xs) /\ keeps ((r :: xs) ++ q :: ys) s s' /\ is_ring s' r ((q :: ys) ++ xs)) s.
Proof.
  intros Hr Hq Hd. unfold Link. apply wp_bind. apply (wp_r_Next _ s r xs Hr). intros s1 K1 R1. cbn beta iota.
  assert (Hq1 : is_ring s1 q ys).
  { apply (keeps_ring [r] s); [done..|]. intros a Ha ->%list_elem_of_singleton. apply (Hd r); [by left|done]. }
  apply wp_bind. apply (wp_r_Prev _ s1 q ys Hq1). intros s2 K2 R2.
  assert (Hr2 : is_ring s2 r xs).
  { apply (keeps_ring [q] s1); [done|by left|]. intros a Ha ->%list_elem_of_singleton. apply (Hd q); [done|by left]. }
  assert (R1' : run (nx s2) (pv s2) (r :: xs ++ [r])).
  { destruct Hr2 as [H|(-> & _ & H & _)]; [done|]. destruct K2 as (_ & _ & K2).
    destruct (K2 r) as [E _]; [intros ->%list_elem_of_singleton; apply (Hd q); by left|]. destruct (run_ends _ _ _ R1). congruence. }
  apply wp_relink.
  - by eapply ring_val; [left; exact R1'|left].
  - by eapply ring_val; [left; exact R2|left].
  - eapply ring_val; [left; exact R1'|apply first_in].
  - eapply ring_val; [left; exact R2|apply final_in].
  - intros s3 L3. split; [done|]. split.
    + eapply keeps_trans; [eapply keeps_sub; [exact K1|set_solver]|]. eapply keeps_trans; [eapply keeps_sub; [exact K2|set_solver]|].
      pose proof (first_in r xs). pose proof (final_in q ys). eapply looks_linked_keeps; [exact L3|..]; apply elem_of_app; [left|right|left|right]; try done; by left.
    + left. eapply looks_run; [exact L3|]. by apply run_link_far.
Qed.

(** The ring behind [r] is [xs] up to [q], which is followed by [U] back to [r]; [q] may be [r]. *)
Lemma wp_r_Link_near s r xs q U W : run (nx s) (pv s) (r :: xs ++ q :: U) -> q :: U = W ++ [r] ->
  wp (Link (Some r) (Some q)) (fun v s' => v = Some (first q xs) /\ keeps (r :: xs ++ W) s s' /\
    run (nx s') (pv s') (r :: q :: U) /\ (xs <> [] -> run (nx s') (pv s') (xs ++ [first q xs]))) s.
Proof.
  intros H EW. unfold Link. assert (Hc : run (nx s) (pv s) (r :: (xs ++ W) ++ [r])) by (by rewrite <- app_assoc, <- EW).
  assert (En : first r (xs ++ W) = first q xs).
  { destruct xs as [|x xs]; [|done]. destruct W as [|w W]; cbn in *; by injection EW. }
  apply wp_bind. apply (wp_Next_run _ s r (xs ++ W) Hc). rewrite En. cbn beta iota.
  assert (Hp : forall Q : option positive -> state -> Prop, Q (Some (final r xs)) s -> wp (Prev (Some q)) Q s).
  { intros Q HQ. destruct W as [|w W].
    - injection EW as -> ->. rewrite app_nil_r in Hc. by apply (wp_Prev_run _ s r xs Hc).
    - injection EW as <- ->. apply run_rotate in Hc. apply (wp_Prev_run _ s q _ Hc).
      assert (E : final q (W ++ r :: xs) = final r xs); [|by rewrite E].
      unfold final. destruct xs as [|x xs _] using rev_ind; [by rewrite last_last|]. by rewrite app_comm_cons, app_assoc, !last_last. }
  apply wp_bind, Hp. assert (Hq : q ∈ r :: xs ++ W) by (destruct W as [|w W]; injection EW as -> _; set_solver).
  pose proof (first_in q xs) as Hf. pose proof (final_in r xs) as Hl.
  assert (Hf' : first q xs ∈ r :: xs ++ W) by (apply elem_of_cons in Hf as [->|Hf]; [done|set_solver]).
  assert (Hl' : final r xs ∈ r :: xs ++ W) by (apply elem_of_cons in Hl as [->|Hl]; set_solver).
  assert (Hval : forall a, a ∈ r :: xs ++ W -> is_Some (val s a)) by (intros a; eapply ring_val; by left).
  destruct (run_link_near _ _ r xs q U H (ex_intro _ W EW)) as [N1 N2].
  apply wp_relink; [apply Hval; by left|by apply Hval..|]. intros s3 L3. split; [done|]. split; [|split].
  - eapply looks_linked_keeps; [exact L3|by left|done..].
  - eapply looks_run; [exact L3|exact N1].
  - intros Hne. eapply looks_run; [exact L3|by apply N2].
Qed.

(** ** Move

    [cyc r xs i] is the element [i] steps from [r], forwards or backwards. *)
Definition ring_len xs : Z := Z.of_nat (length xs) + 1.
Definition cyc r xs (i : Z) : positive := nth (Z.to_nat (i mod ring_len xs)) (r :: xs) r.

Lemma run_nth nx pv (l : list positive) k a b : links nx pv l -> l !! k = Some a -> l !! S k = Some b -> nx a = Some b /\ pv b = Some a.
Proof.
  revert k. induction l as [|x [|y l] IH]; intros k; [done|by destruct k|]. rewrite links_cons2. intros (H1 & H2 & H3).
  destruct k as [|k]; cbn; [intros [= <-] [= <-]; done|]. by apply IH.
Qed.
Lemma ring_len_pos xs : 0 < ring_len xs.
Proof. unfold ring_len. lia. Qed.

Lemma cyc_lookup r xs k : 0 <= k <= ring_len xs -> (r :: xs ++ [r]) !! Z.to_nat k = Some (cyc r xs k).
Proof.
  intros Hk. pose proof (ring_len_pos xs) as HL. unfold cyc. rewrite nth_lookup. destruct (decide (k = ring_len xs)) as [->|].
  - rewrite Z.mod_same by lia. replace (Z.to_nat (ring_len xs)) with (S (length xs)) by (unfold ring_len; lia).
    change ((xs ++ [r]) !! length xs = Some r). by rewrite lookup_app_r, Nat.sub_diag.
  - rewrite Z.mod_small by lia. rewrite app_comm_cons, lookup_app_l by (unfold ring_len in *; cbn; lia).
    destruct (lookup_lt_is_Some_2 (r :: xs) (Z.to_nat k)) as [a E]; [unfold ring_len in *; cbn; lia|]. by rewrite E.
Qed.
Lemma cyc_eqm r xs i j : i mod ring_len xs = j mod ring_len xs -> cyc r xs i = cyc r xs j.
Proof. unfold cyc. by intros ->. Qed.
Lemma cyc_in r xs i : cyc r xs i ∈ r :: xs.
Proof.
  unfold cyc. pose proof (Z.mod_pos_bound i (ring_len xs) (ring_len_pos xs)). rewrite nth_lookup.
  destruct (lookup_lt_is_Some_2 (r :: xs) (Z.to_nat (i mod ring_len xs))) as [a E]; [unfold ring_len in *; cbn; lia|].
  rewrite E. by eapply list_elem_of_lookup_2.
Qed.

Lemma run_step s r xs i : run (nx s) (pv s) (r :: xs ++ [r]) ->
  nx s (cyc r xs i) = Some (cyc r xs (i + 1)) /\ pv s (cyc r xs i) = Some (cyc r xs (i - 1)).
Proof.
  intros [H _ _]. pose proof (ring_len_pos xs) as HL.
  assert (Hs : forall j, nx s (cyc r xs j) = Some (cyc r xs (j + 1)) /\ pv s (cyc r xs (j + 1)) = Some (cyc r xs j)).
  { intros j. pose proof (Z.mod_pos_bound j (ring_len xs) HL) as Hj.
    rewrite (cyc_eqm r xs j (j mod ring_len xs)) by (by rewrite Z.mod_mod by lia).
    rewrite (cyc_eqm r xs (j + 1) (j mod ring_len xs + 1)) by (by rewrite Z.add_mod_idemp_l by lia).
    eapply run_nth; [exact H|apply cyc_lookup; lia|]. rewrite <- Z2Nat.inj_succ by lia. apply cyc_lookup. lia. }
  split; [apply Hs|]. destruct (Hs (i - 1)) as [_ E]. by replace (i - 1 + 1) with i in E by lia.
Qed.

Lemma wp_forward s r xs k i : run (nx s) (pv s) (r :: xs ++ [r]) ->
  wp (forward k (Some (cyc r xs i))) (fun v s' => v = Some (cyc r xs (i + Z.of_nat k)) /\ s' = s) s.
Proof.
  intros H. revert i. induction k as [|k IH]; intros i; cbn [forward]; [apply wp_ret; by rewrite Z.add_0_r|].
  apply wp_bind. apply wp_r_load; [eapply ring_val; [by left|apply cyc_in]|]. intros E -> _ _.
  destruct (run_step s r xs i H) as [-> _]. eapply wp_mono; [apply IH|]. intros v s' [-> ->]. split; [do 2 f_equal; lia|done].
Qed.
Lemma wp_backward s r xs k i : run (nx s) (pv s) (r :: xs ++ [r]) ->
  wp (backward k (Some (cyc r xs i))) (fun v s' => v = Some (cyc r xs (i - Z.of_nat k)) /\ s' = s) s.
Proof.
  intros H. revert i. induction k as [|k IH]; intros i; cbn [backward]; [apply wp_ret; by rewrite Z.sub_0_r|].
  apply wp_bind. apply wp_r_load; [eapply ring_val; [by left|apply cyc_in]|]. intros E _ -> _.
  destruct (run_step s r xs i H) as [_ ->]. eapply wp_mono; [apply IH|]. intros v s' [-> ->]. split; [do 2 f_equal; lia|done].
Qed.

Lemma cyc_0 r xs : cyc r xs 0 = r.
Proof. unfold cyc. by rewrite Z.mod_0_l by (unfold ring_len; lia). Qed.
Lemma cyc_alone r i : cyc r [] i = r.
Proof. rewrite (cyc_eqm r [] i 0); [apply cyc_0|]. by rewrite !Z.mod_1_r. Qed.

Lemma wp_r_Move s r xs n : is_ring s r xs ->
  wp (Move (Some r) n) (fun v s' => v = Some (cyc r xs n) /\ keeps [r] s s' /\ run (nx s') (pv s') (r :: xs ++ [r])) s.
Proof.
  intros Hr. unfold Move. apply wp_bind. apply wp_r_load; [by eapply ring_val; [|left]|]. intros E HE _ _. rewrite HE.
  destruct Hr as [H|(-> & Hv & H1 & H2)].
  - destruct (run_ends _ _ _ H) as [Hn _]. rewrite Hn, decide_False by done. pose proof (cyc_0 r xs) as E0.
    destruct (Z.ltb_spec n 0); [|rewrite Z.gtb_ltb; destruct (Z.ltb_spec 0 n)].
    + pose proof (wp_backward s r xs (Z.to_nat (- n)) 0 H) as W. rewrite E0 in W.
      eapply wp_mono; [exact W|]. intros v s' [-> ->]. split; [do 2 f_equal; lia|done].
    + pose proof (wp_forward s r xs (Z.to_nat n) 0 H) as W. rewrite E0 in W.
      eapply wp_mono; [exact W|]. intros v s' [-> ->]. split; [do 2 f_equal; lia|done].
    + apply wp_ret. replace n with 0 by lia. by rewrite E0.
  - rewrite H1, cyc_alone, decide_True by done.
    eapply wp_mono; [apply wp_init; [by right|destruct Hv; congruence]|]. by intros v s' (-> & ? & ?).
Qed.

(** ** Unlink *)

(** How many elements behind [r] are cut out: [n mod Len], unless [n + 1] overflows. *)
Definition cut n xs : nat := Z.to_nat ((int64 (n + 1) - 1) mod ring_len xs).
Lemma cut_small n xs : 0 < n < 2 ^ 63 - 1 -> cut n xs = Z.to_nat (n mod ring_len xs).
Proof. intros Hn. unfold cut. rewrite int64_id by lia. do 2 f_equal. lia. Qed.
Lemma cut_max xs : cut (2 ^ 63 - 1) xs = Z.to_nat ((- 2 ^ 63 - 1) mod ring_len xs).
Proof. done. Qed.

Lemma wp_r_Unlink s r xs n : is_ring s r xs -> 0 < n ->
  let k := cut n xs in
  wp (Unlink (Some r) n) (fun v s' => v = Some (first r xs) /\ keeps (r :: xs) s s' /\ is_ring s' r (drop k xs) /\
    match take k xs with [] => True | x :: t => is_ring s' x t end) s.
Proof.
  intros Hr Hn k. unfold Unlink. destruct (Z.leb_spec n 0); [lia|]. set (m := int64 (n + 1) - 1). replace (int64 (n + 1)) with (m + 1) by (unfold m; lia).
  apply wp_bind. eapply wp_mono; [by apply wp_r_Move|]. intros v s1 (-> & K & R). cbn beta.
  pose proof (ring_len_pos xs) as HL. pose proof (Z.mod_pos_bound m (ring_len xs) HL) as Hk.
  assert (Hlk : (k <= length xs)%nat) by (unfold k, cut, ring_len in *; fold m; lia).
  assert (Hq : exists U W, cyc r xs (m + 1) :: U = W ++ [r] /\ xs ++ [r] = take k xs ++ cyc r xs (m + 1) :: U /\ W = drop k xs).
  { assert (E : (xs ++ [r]) !! k = Some (cyc r xs (m + 1))).
    { unfold k, cut. fold m. rewrite (cyc_eqm r xs (m + 1) (m mod ring_len xs + 1)) by (by rewrite Z.add_mod_idemp_l by lia).
      rewrite <- (cyc_lookup r xs) by lia. by rewrite Z2Nat.inj_add, Nat.add_1_r by lia. }
    destruct (drop k (xs ++ [r])) as [|y U] eqn:Ed.
    - apply lookup_lt_Some in E. pose proof (length_drop (xs ++ [r]) k) as El. rewrite Ed in El. cbn in El. lia.
    - assert (y = cyc r xs (m + 1)) as ->.
      { pose proof (lookup_drop (xs ++ [r]) k 0) as El. rewrite Ed, Nat.add_0_r, E in El. by injection El. }
      exists U, (drop k xs). rewrite <- Ed, drop_app_le by done. split; [done|]. split; [|done].
      rewrite app_assoc, take_drop. done. }
  destruct Hq as (U & W & EW & EX & HW). rewrite EX in R.
  eapply wp_mono; [by apply (wp_r_Link_near s1 r (take k xs) (cyc r xs (m + 1)) U W)|].
  intros v s2 (-> & K2 & R1 & R2). split; [|split; [|split]].
  - clear -EX. clearbody k. f_equal. revert EX. generalize (cyc r xs (m + 1)). intros q.
    destruct xs as [|x xs]; [rewrite take_nil; by intros [= <-]|]. destruct k; [by intros [= <- _]|done].
  - eapply keeps_trans; [eapply keeps_sub; [exact K|intros a ->%list_elem_of_singleton; by left]|].
    rewrite HW, take_drop in K2. exact K2.
  - left. rewrite <- HW, <- EW. exact R1.
  - destruct (take k xs) as [|x t]; [done|]. left. by apply R2.
Qed.

(** ** Len, Do and New *)

Lemma ring_size s r xs : is_ring s r xs -> (length xs < size (cells s))%nat.
Proof.
  intros Hr. pose proof (ring_NoDup _ _ _ Hr) as Hnd.
  assert (Hsub : (list_to_set (r :: xs) : gset positive) ⊆ dom (cells s)).
  { intros a Ha. apply elem_of_list_to_set in Ha. apply elem_of_dom. pose proof (ring_val _ _ _ _ Hr Ha) as H.
    unfold val in H. by rewrite fmap_is_Some in H. }
  apply subseteq_size in Hsub. rewrite size_list_to_set, size_dom in Hsub by done. cbn in Hsub. lia.
Qed.

(** The elements still to come, at a stage of a loop over the ring. *)
Lemma run_rest s r xs us x vs : run (nx s) (pv s) (r :: xs ++ [r]) -> xs = us ++ x :: vs ->
  x <> r /\ is_Some (val s x) /\ nx s x = Some (first r vs).
Proof.
  intros H E. assert (Hr : is_ring s r xs) by (by left). split; [|split].
  - intros ->. apply ring_NoDup, NoDup_cons in Hr as [Hr _]. apply Hr. rewrite E. apply elem_of_app; right; by left.
  - eapply ring_val; [exact Hr|]. rewrite E. right. apply elem_of_app; right; by left.
  - destruct (first_eq r vs) as [U EU]. rewrite E, <- app_assoc in H. cbn in H. rewrite EU, app_comm_cons in H. by apply run_next in H as [? _].
Qed.

Lemma wp_r_Len s r xs : is_ring s r xs -> ring_len xs < 2 ^ 63 ->
  wp (Len (Some r)) (fun n s' => n = ring_len xs /\ keeps [r] s s' /\ run (nx s') (pv s') (r :: xs ++ [r])) s.
Proof.
  intros Hr Hlen. unfold Len. apply wp_bind. apply (wp_r_Next _ s r xs Hr). intros s1 K R. apply wp_bind, wp_gets.
  eapply (wp_loop (fun st s' => s' = s1 /\ exists us vs, xs = us ++ vs /\ st = (Z.of_nat (length us) + 1, Some (first r vs)) /\ (length vs <= length xs)%nat)
    (fun st => length xs - (Z.to_nat (st.1) - 1))%nat).
  - split; [done|]. by exists [], xs.
  - cbn. pose proof (ring_size s1 r xs ltac:(by left)). lia.
  - intros [n p] ? [-> (us & vs & E & [= -> ->] & Hle)]. destruct vs as [|x vs].
    + cbn. rewrite decide_False by tauto. apply wp_break. rewrite app_nil_r in E. by subst us.
    + destruct (run_rest s1 r xs us x vs R E) as (Hx & Hv & Hn). cbn -[Z.to_nat Nat.sub]. rewrite decide_True by congruence.
      apply wp_bind. apply wp_r_load; [done|]. intros E' -> _ _. rewrite Hn. apply wp_continue.
      assert (El : length xs = (length us + S (length vs))%nat) by (rewrite E, length_app; done).
      unfold ring_len in Hlen. rewrite int64_id by lia. split; [|cbn -[Z.to_nat Nat.sub]; lia]. split; [done|].
      exists (us ++ [x]), vs. split; [by rewrite <- app_assoc|]. split; [|lia]. f_equal. rewrite length_app. cbn. lia.
Qed.

Lemma val_keeps l s s' a : keeps l s s' -> val s' a = val s a.
Proof. by intros [H _]. Qed.

(** The values of a ring. *)
Definition values s xs : list any := omap (val s) xs.

Definition do_body (f : any -> X -> X) (r : positive) (p : option positive) : M (option positive + unit) :=
  if decide (p <> Some r) then
    E <- load p ;;
    call f (Value E) ;;
    E <- load p ;;
    continue (next E)
  else break tt.

Lemma wp_do_loop (f : any -> X -> X) s1 r xs vs : run (nx s1) (pv s1) (r :: xs ++ [r]) ->
  forall us s fuel, xs = us ++ vs -> cells s = cells s1 -> (length vs < fuel)%nat ->
  wp (loop fuel (do_body f r) (Some (first r vs)))
     (fun _ s' => cells s' = cells s1 /\ client s' = foldl (fun x v => f v x) (client s) (values s1 vs)) s.
Proof.
  intros R. induction vs as [|x vs IH]; intros us s [|fuel] E Hc Hf; cbn in Hf; [lia| |lia|]; apply wp_loop_S; unfold do_body.
  - cbn. rewrite decide_False by tauto. by apply wp_break.
  - destruct (run_rest s1 r xs us x vs R E) as (Hx & [v Hv] & Hn). cbn [first hd]. rewrite decide_True by congruence.
    apply wp_bind. unfold nx, val in Hv, Hn. apply wp_r_load; [unfold val; rewrite Hc; eauto|]. intros E' _ _ HE.
    unfold val in HE. rewrite Hc, Hv in HE. injection HE as <-. apply wp_bind. unfold call. apply wp_modify. apply wp_bind.
    apply wp_r_load; [unfold val; cbn; rewrite Hc; eauto|]. intros E2 HE2 _ _. apply wp_continue. cbn beta iota.
    rewrite HE2. unfold nx. cbn [cells]. rewrite Hc, Hn.
    eapply wp_mono; [apply (IH (us ++ [x])); [by rewrite <- app_assoc|done|lia]|].
    intros [] s' [H1 H2]. split; [done|]. rewrite H2. unfold values, val at 2. cbn. rewrite Hv. done.
Qed.

Lemma wp_r_Do (f : any -> X -> X) s r xs : is_ring s r xs ->
  wp (Do (Some r) f) (fun _ s' => client s' = foldl (fun x v => f v x) (client s) (values s (r :: xs)) /\
    (forall a, val s' a = val s a) /\ run (nx s') (pv s') (r :: xs ++ [r]) /\
    (forall a, a <> r -> nx s' a = nx s a /\ pv s' a = pv s a)) s.
Proof.
  intros Hr. unfold Do. apply wp_bind. destruct (ring_val s r xs r Hr ltac:(by left)) as [v0 Hv0].
  apply wp_r_load; [eauto|]. intros E _ _ HE. assert (Value E = v0) as -> by congruence. unfold call at 1. apply wp_bind, wp_modify.
  set (s0 := mkState (cells s) (f v0 (client s))). apply wp_bind. apply (wp_r_Next _ s0 r xs); [exact Hr|].
  intros s1 (V & C & N) R. apply wp_bind, wp_gets.
  pose proof (ring_size s1 r xs ltac:(by left)) as Hsz.
  eapply wp_mono; [apply (wp_do_loop f s1 r xs xs R [] s1 _ eq_refl eq_refl); done|].
  intros [] s' [Hc Hcl]. cbn beta.
  assert (Hv : forall a, val s' a = val s a) by (intros a; unfold val; rewrite Hc; apply V).
  split; [|split; [done|split]].
  - rewrite Hcl, C. cbn [client s0]. assert (Ev : values s1 xs = values s xs).
    { unfold values. clear -V. induction xs as [|x xs IH]; [done|]. cbn. by rewrite (V x), IH. }
    rewrite Ev. unfold values. cbn. by rewrite Hv0.
  - eapply run_ext; [exact R| |]; intros; unfold nx, pv; by rewrite Hc.
  - intros a Ha. destruct (N a) as [H1 H2]; [set_solver|]. unfold nx, pv in *. by rewrite Hc.
Qed.

(** [l] is a chain of elements that [s0] does not have, and the elements of [s0] are as they were. *)
Record chain s0 s (l : list positive) : Prop := Chain {
  chain_links : links (nx s) (pv s) l;
  chain_NoDup : NoDup l;
  chain_new : forall a, a ∈ l -> cells s0 !! a = None /\ is_Some (cells s !! a);
  chain_old : forall a E, cells s0 !! a = Some E -> cells s !! a = Some E;
  chain_client : client s = client s0 }.

Lemma wp_alloc (Q : _ -> _ -> Prop) s (E : Ring any) :
  (forall a, cells s !! a = None -> Q (Some a) (mkState (<[a := E]> (cells s)) (client s))) -> wp (alloc E) Q s.
Proof. intros HQ. unfold alloc. wp_steps. apply HQ, not_elem_of_dom, is_fresh. Qed.

Lemma chain_alloc s0 s l E a : chain s0 s l -> cells s !! a = None ->
  chain s0 (mkState (<[a := E]> (cells s)) (client s)) l /\ a ∉ l /\ cells s0 !! a = None.
Proof.
  intros [H1 H2 H3 H4 H5] Ha. assert (Hal : a ∉ l) by (intros Hin; destruct (H3 _ Hin) as [_ [? ?]]; congruence).
  assert (Ha0 : cells s0 !! a = None) by (destruct (cells s0 !! a) eqn:E0; [apply H4 in E0; congruence|done]).
  assert (Hne : forall b, b ∈ l -> <[a := E]> (cells s) !! b = cells s !! b) by (intros b Hb; apply lookup_insert_ne; by intros ->).
  split; [|done]. split; cbn; [|done| |intros b F HF; rewrite lookup_insert_ne; [by apply H4|congruence]|done].
  - eapply links_ext; [exact H1| |]; intros b; [intros Hb%sources_sub|intros Hb%targets_sub]; unfold nx, pv; cbn; by rewrite Hne.
  - intros b Hb. rewrite Hne by done. by apply H3.
Qed.

Lemma wp_new_rest s0 k : forall s P p, chain s0 s (P ++ [p]) ->
  wp (new_rest nil k (Some p)) (fun v s' => exists P' p', v = Some p' /\ chain s0 s' (P' ++ [p']) /\
    length P' = (length P + k)%nat /\ head (P' ++ [p']) = head (P ++ [p])) s.
Proof.
  induction k as [|k IH]; intros s P p Hch; cbn [new_rest].
  { apply wp_ret. exists P, p. by rewrite Nat.add_0_r. }
  apply wp_bind, wp_alloc. intros q Hq. destruct (chain_alloc s0 s _ (mkRing None (Some p) nil) q Hch Hq) as (H1 & Hql & Hq0).
  set (s1 := mkState _ _) in *. destruct H1 as [L N A O C].
  assert (Hp : is_Some (val s1 p)) by (unfold val; apply fmap_is_Some, A, elem_of_app; right; by left).
  apply wp_bind. eapply (wp_r_set_next _ s1); [apply looks_refl|done|]. intros s2 (L1 & L2 & L3 & L4) Hs2.
  assert (Hpq : p <> q) by (intros ->; apply Hql, elem_of_app; right; by left).
  pose proof N as HN. rewrite Permutation_app_comm in HN. apply NoDup_cons in HN as [HpP _].
  assert (Hch2 : chain s0 s2 (P ++ [p] ++ [q])).
  { split.
    - cbn. rewrite links_app, links_cons2, L1, L2, fn_lookup_insert. split; [|split; [done|split; [|done]]].
      + eapply links_ext; [exact L| |]; intros b Hb; [rewrite L1|by rewrite L2]. rewrite sources_snoc in Hb.
        rewrite fn_lookup_insert_ne; [done|]. by intros ->.
      + unfold pv, s1. cbn. by rewrite lookup_insert_eq.
    - rewrite app_assoc. apply NoDup_app. split; [done|]. split; [|apply NoDup_singleton]. intros b Hb ->%list_elem_of_singleton. done.
    - intros b Hb. assert (Hval : is_Some (val s2 b) -> is_Some (cells s2 !! b)) by (unfold val; by rewrite fmap_is_Some).
      rewrite app_assoc, elem_of_app, list_elem_of_singleton in Hb. rewrite L3 in Hval. unfold val in Hval. rewrite fmap_is_Some in Hval.
      destruct Hb as [Hb| ->]; [destruct (A b Hb); auto|]. split; [done|]. apply Hval. cbn. rewrite lookup_insert_eq. eauto.
    - intros b E HE. rewrite Hs2; [by apply O|]. intros ->. destruct (A p) as [? _]; [apply elem_of_app; right; by left|congruence].
    - by rewrite L4. }
  apply wp_bind. apply wp_r_load; [by rewrite L3|]. intros E -> _ _. rewrite L1, fn_lookup_insert. rewrite app_assoc in Hch2.
  eapply wp_mono; [by apply IH|]. intros v s' (P' & p' & -> & Hch' & Hlen & Hhd). exists P', p'. split; [done|]. split; [done|].
  rewrite length_app in Hlen. cbn in Hlen. split; [lia|]. rewrite Hhd. by destruct P.
Qed.

Lemma wp_r_New s n : 0 < n ->
  wp (New nil n) (fun v s' => exists r xs, v = Some r /\ ring_len xs = n /\ run (nx s') (pv s') (r :: xs ++ [r]) /\
    (forall a, a ∈ r :: xs -> cells s !! a = None) /\ (forall a E, cells s !! a = Some E -> cells s' !! a = Some E) /\
    client s' = client s) s.
Proof.
  intros Hn. unfold New. destruct (Z.leb_spec n 0); [lia|]. apply wp_bind, wp_alloc. intros r Hr.
  set (s1 := mkState _ _). assert (Hch : chain s s1 ([] ++ [r])).
  { split; cbn; [done|apply NoDup_singleton| | |done].
    - intros a ->%list_elem_of_singleton. rewrite lookup_insert_eq. eauto.
    - intros a E HE. rewrite lookup_insert_ne; [done|congruence]. }
  eapply wp_call; [by apply wp_new_rest|]. intros v s2 (P & p & -> & [L N A O C] & Hlen & Hhd). cbn in Hlen, Hhd.
  assert (exists xs, P ++ [p] = r :: xs) as [xs Exs].
  { destruct P as [|y P]; cbn in Hhd; injection Hhd as ->; by eexists. }
  assert (Hval : forall a, a ∈ P ++ [p] -> is_Some (val s2 a)) by (intros a Ha; unfold val; apply fmap_is_Some, A, Ha).
  assert (Hp : p ∈ P ++ [p]) by (apply elem_of_app; right; by left). assert (Hr' : r ∈ P ++ [p]) by (rewrite Exs; by left).
  apply wp_bind. eapply (wp_r_set_next _ s2); [apply looks_refl|by apply Hval|]. intros s3 L3 F3.
  apply wp_bind. eapply (wp_r_set_prev _ s2); [exact L3|by apply Hval|]. intros s4 (M1 & M2 & M3 & M4) F4. apply wp_ret.
  exists r, xs. split; [done|]. split; [|split; [|split; [|split]]].
  - pose proof (f_equal length Exs) as El. rewrite length_app in El. cbn in El. unfold ring_len. lia.
  - rewrite app_comm_cons, <- Exs, <- app_assoc. cbn [app]. rewrite Exs in N. pose proof N as [N0 _]%NoDup_cons.
    assert (E : P ++ [p; r] = r :: xs ++ [r]) by (by rewrite app_comm_cons, <- Exs, <- app_assoc).
    rewrite E, run_cycle. split; [|done]. rewrite <- E, links_app, links_cons2, M1, M2, !fn_lookup_insert.
    split; [|by split]. rewrite <- Exs in N. rewrite Permutation_app_comm in N. apply NoDup_cons in N as [HpP _].
    eapply links_ext; [exact L| |]; intros b Hb; [rewrite M1|rewrite M2]; rewrite fn_lookup_insert_ne; try done.
    + rewrite sources_snoc in Hb. by intros ->.
    + rewrite Exs, targets_cons in Hb. by intros ->.
  - intros a Ha. rewrite <- Exs in Ha. by apply A.
  - intros a E HE. rewrite F4, F3; [by apply O|intros ->..]; [destruct (A p Hp)|destruct (A r Hr')]; congruence.
  - congruence.
Qed.

(** Any ring without elements of [l] stays a ring, with its values. *)
Definition frame (l : list positive) s s' : Prop :=
  (forall z zs, is_ring s z zs -> (forall a, a ∈ z :: zs -> a ∉ l) -> is_ring s' z zs) /\
  (forall a, val s' a = val s a) /\ client s' = client s.
Lemma keeps_frame l s s' : keeps l s s' -> frame l s s'.
Proof. intros K. split; [intros z zs; by apply keeps_ring|split; apply K]. Qed.

(** Of a zero [Ring], [Link] first makes a ring of one. *)
Lemma Link_init s r xs (q : option positive) (Q : _ -> _ -> Prop) : is_ring s r xs ->
  (forall s1, keeps [r] s s1 -> run (nx s1) (pv s1) (r :: xs ++ [r]) -> wp (Link (Some r) q) Q s1) -> wp (Link (Some r) q) Q s.
Proof.
  intros Hr HQ. unfold Link. apply wp_bind. apply (wp_r_Next _ s r xs Hr). intros s1 K R. specialize (HQ s1 K R).
  destruct (wp_elim _ _ _ (wp_Next_run (fun v s' => v = Some (first r xs) /\ s' = s1) s1 r xs R (conj eq_refl eq_refl))) as (? & ? & E & -> & ->).
  unfold Link, wp at 1, mbind at 1 in HQ. by rewrite E in HQ.
Qed.

(** C31: the operations of [container/ring] on a ring of [r] and the elements [xs] after
    it, a zero [Ring] included, return and do this: [Next] and [Prev] give the
    neighbours and [Move] the element [n mod Len] steps away, for every [int] [n]; [Len] counts
    a ring of fewer than 2^63 elements, and 0 for nil;
    [Do] calls the function on the values in order, and does nothing for nil; [Link] with a ring of [q] and [ys]
    joins the two, with an element of the same ring, [r] included, cuts out those between,
    which become a ring, and with nil does nothing; [Unlink] cuts out the next [n mod Len] elements
    for a positive [n] below the largest [int], and for the largest, where [n + 1] wraps around,
    the next [(-2^63 - 1) mod Len], against its comment; for [n <= 0] it returns nil and changes nothing.  Each leaves the
    rings it does not touch alone.  [New] makes a ring of [n] new elements, or none for [n <= 0]. *)
Theorem ring_operations s r xs : is_ring s r xs ->
  let unchanged (s' : state) := is_ring s' r xs /\ frame (r :: xs) s s' in
  let unlinks n k :=
    wp (Unlink (Some r) n) (fun v s' => v = Some (first r xs) /\ is_ring s' r (drop k xs) /\
      match take k xs with [] => True | x :: t => is_ring s' x t end /\ frame (r :: xs) s s') s in
  wp (Next (Some r)) (fun v s' => v = Some (first r xs) /\ unchanged s') s /\
  wp (Prev (Some r)) (fun v s' => v = Some (final r xs) /\ unchanged s') s /\
  (forall n, wp (Move (Some r) n) (fun v s' => v = Some (cyc r xs n) /\ unchanged s') s) /\
  (ring_len xs < 2 ^ 63 -> wp (Len (Some r)) (fun n s' => n = ring_len xs /\ unchanged s') s) /\
  (forall f, wp (Do (Some r) f) (fun _ s' => client s' = foldl (fun x v => f v x) (client s) (values s (r :: xs)) /\
     is_ring s' r xs /\ (forall a, val s' a = val s a) /\
     forall z zs, is_ring s z zs -> (forall a, a ∈ z :: zs -> a ∉ r :: xs) -> is_ring s' z zs) s) /\
  (forall q ys, is_ring s q ys -> (forall a, a ∈ r :: xs -> a ∉ q :: ys) ->
     wp (Link (Some r) (Some q)) (fun v s' => v = Some (first r xs) /\ is_ring s' r ((q :: ys) ++ xs) /\
       frame ((r :: xs) ++ q :: ys) s s') s) /\
  (forall us q vs, xs = us ++ q :: vs ->
     wp (Link (Some r) (Some q)) (fun v s' => v = Some (first q us) /\ is_ring s' r (q :: vs) /\
       match us with [] => True | x :: t => is_ring s' x t end /\ frame (r :: xs) s s') s) /\
  wp (Link (Some r) (Some r)) (fun v s' => v = Some (first r xs) /\ is_ring s' r [] /\
       match xs with [] => True | x :: t => is_ring s' x t end /\ frame (r :: xs) s s') s /\
  wp (Link (Some r) None) (fun v s' => v = Some (first r xs) /\ unchanged s') s /\
  (forall n, 0 < n < 2 ^ 63 - 1 -> unlinks n (Z.to_nat (n mod ring_len xs))) /\
  unlinks (2 ^ 63 - 1) (Z.to_nat ((- 2 ^ 63 - 1) mod ring_len xs)) /\
  (forall n, n <= 0 -> wp (Unlink (Some r) n) (fun v s' => v = None /\ s' = s) s) /\
  (forall n, 0 < n -> wp (New nil n) (fun v s' => exists a ys, v = Some a /\ ring_len ys = n /\ is_ring s' a ys /\
     (forall b, b ∈ a :: ys -> cells s !! b = None) /\ (forall b E, cells s !! b = Some E -> cells s' !! b = Some E)) s) /\
  (forall n, n <= 0 -> wp (New nil n) (fun v s' => v = None /\ s' = s) s) /\
  wp (Len None) (fun n s' => n = 0 /\ s' = s) s /\
  (forall f, wp (Do None f) (fun _ s' => s' = s) s).
Proof.
  intros Hr unchanged unlinks.
  assert (Hun : forall s', keeps [r] s s' -> run (nx s') (pv s') (r :: xs ++ [r]) -> unchanged s').
  { intros s' K R. split; [by left|]. apply keeps_frame. eapply keeps_sub; [exact K|]. intros a ->%list_elem_of_singleton. by left. }
  assert (Hcut : forall n, 0 < n -> unlinks n (cut n xs)).
  { intros n Hn. eapply wp_mono; [by apply wp_r_Unlink|]. intros v s' (-> & K & R1 & R2). split; [done|]. split; [done|].
    split; [done|by apply keeps_frame]. }
  split_and!.
  - apply (wp_r_Next _ s r xs Hr). intros s' K R. auto.
  - apply (wp_r_Prev _ s r xs Hr). intros s' K R. auto.
  - intros n. eapply wp_mono; [by apply wp_r_Move|]. intros v s' (-> & K & R). auto.
  - intros Hlen. eapply wp_mono; [by apply wp_r_Len|]. intros v s' (-> & K & R). auto.
  - intros f. eapply wp_mono; [by apply wp_r_Do|]. intros [] s' (H1 & H2 & H3 & H4). split; [done|]. split; [by left|]. split; [done|].
    intros z zs Hz Hd. apply (same_ring s); [done| |done]. intros a Ha. apply H4. intros ->. apply (Hd r Ha). by left.
  - intros q ys Hq Hd. eapply wp_mono; [by apply wp_r_Link_far|]. intros v s' (-> & K & R). split; [done|]. split; [done|by apply keeps_frame].
  - intros us q vs E. assert (R : run (nx s) (pv s) (r :: us ++ q :: vs ++ [r])).
    { destruct Hr as [R|(-> & _)]; [by rewrite E, <- app_assoc in R|by destruct us]. }
    eapply wp_mono; [by apply (wp_r_Link_near s r us q (vs ++ [r]) (q :: vs))|].
    intros v s' (-> & K & R1 & R2). split; [done|]. split; [by left|]. split; [destruct us; [done|left; by apply R2]|].
    apply keeps_frame. by rewrite E.
  - apply (Link_init s r xs _ _ Hr). intros s1 K1 R1.
    eapply wp_mono; [by apply (wp_r_Link_near s1 r xs r [] [])|].
    intros v s' (-> & K & R2 & R3). rewrite app_nil_r in K. split; [done|]. split; [by left|]. split; [destruct xs; [done|left; by apply R3]|].
    apply keeps_frame. eapply keeps_trans; [|exact K]. eapply keeps_sub; [exact K1|]. intros a ->%list_elem_of_singleton. by left.
  - unfold Link. apply wp_bind. apply (wp_r_Next _ s r xs Hr). intros s' K R. apply wp_ret. auto.
  - intros n Hn. rewrite <- cut_small by done. apply Hcut. lia.
  - rewrite <- cut_max. by apply Hcut.
  - intros n Hn. unfold Unlink. destruct (Z.leb_spec n 0); [|lia]. by apply wp_ret.
  - intros n Hn. eapply wp_mono; [by apply wp_r_New|]. intros v s' (a & ys & -> & E & R & H1 & H2 & _). exists a, ys.
    split; [done|]. split; [done|]. split; [by left|done].
  - intros n Hn. unfold New. destruct (Z.leb_spec n 0); [|lia]. by apply wp_ret.
  - by apply wp_ret.
  - intros f. by apply wp_ret.
Qed.
End Theorems.

(** A ring of three made by [New] and a lone zero [Ring] linked into it. *)
Definition sample : state Z Z :=
  mkState (list_to_map
    [(1%positive, mkRing (Some 2%positive) (Some 3%positive) 10); (2%positive, mkRing (Some 3%positive) (Some 1%positive) 20);
     (3%positive, mkRing (Some 1%positive) (Some 2%positive) 30); (4%positive, mkRing None None 40)]) 0.
Lemma cut_sample : Z.to_nat ((- 2 ^ 63 - 1) mod ring_len [2; 3]%positive) = 0%nat.
Proof. reflexivity. Qed.
Lemma ring_operations_witness :
  is_ring sample 1 [2; 3]%positive /\ is_ring sample 4 [] /\
  wp (Link (Some 1%positive) (Some 4%positive)) (fun v s' => v = Some 2%positive /\ is_ring s' 1 [4; 2; 3]%positive /\
    frame [1; 2; 3; 4]%positive sample s') sample /\
  wp (Unlink (Some 1%positive) 7) (fun v s' => v = Some 2%positive /\ is_ring s' 1 [3]%positive /\ is_ring s' 2 [] /\
    frame [1; 2; 3]%positive sample s') sample /\
  (2 ^ 63 - 1) mod 3 = 1 /\ wp (Unlink (Some 1%positive) (2 ^ 63 - 1)) (fun v s' => v = Some 2%positive /\ is_ring s' 1 [2; 3]%positive) sample.
Proof.
  assert (H1 : is_ring sample 1 [2; 3]%positive).
  { left. apply run_cycle. split; [by vm_compute|]. refine (bool_decide_unpack _ _). by vm_compute. }
  assert (H4 : is_ring sample 4 []) by (right; split; [done|]; vm_compute; by eauto).
  destruct (ring_operations 0 sample 1 [2; 3]%positive H1) as (_ & _ & _ & _ & _ & HL & _ & _ & _ & HU & HM & _).
  split; [exact H1|]. split; [exact H4|]. split.
  - apply (HL 4%positive [] H4). intros a Ha Ha'. apply list_elem_of_singleton in Ha' as ->. clear -Ha. set_solver.
  - split; [apply (HU 7); lia|]. split; [reflexivity|].
    rewrite cut_sample in HM. exact (wp_mono _ _ _ _ HM (fun v s' H => conj (proj1 H) (proj1 (proj2 H)))).
Defined.
