(* ===== verification/Sort.v ===== *)
(** * sort: sorting through an interface

    [src/src/sort/zsortinterface.go], [sort.go], [slice.go] and [search.go].  The
    algorithms see the data only through its methods [Less] and [Swap]: the class
    [lessSwap], to which [Interface] adds [Len].  [zsortfunc.go] has the same text over
    the struct [lessSwap] of two functions, which is a value of the class. *)

From S2P Require Import Prelude.
From S2P Require Import Slice.
From S2P Require Bits.
From S2P Require Import Pdqsort.

Class lessSwap (S : Type) : Type := {
  Less : Z -> Z -> M S bool;
  Swap : Z -> Z -> M S unit }.

Class Interface (S : Type) : Type := {
  Len : M S Z;
  #[global] Interface_lessSwap :: lessSwap S }.

Section Sort.
Context {S : Type} {data : lessSwap S}.

(** The loop [for ; guard(j) && Less(j, j-1); j-- { swap }] that
    shifts one element to the left, shared by the insertion sorts.  A bound
    on the number of its rounds is the number of elements before [j]. *)
Definition shift_left (guard : Z -> bool) (j : Z) : M S unit :=
  loop (span 0 j)
    (fun j =>
       if guard j then
         lt <- Less j (j - 1) ;;
         if lt then (Swap j (j - 1) ;; continue (j - 1)) else break tt
       else break tt) j.

Definition insertionSort (a b : Z) : M S unit :=
  loop (span a b)
    (fun i =>
       if i <? b then
         (shift_left (fun j => j >? a) i ;; continue (i + 1))
       else break tt) (a + 1).

Definition siftDown (lo hi first : Z) : M S unit :=
  loop (span lo hi)
    (fun root =>
       let child := int64 (2 * root + 1) in
       if child >=? hi then break tt
       else
         bigger <- (if child + 1 <? hi
                    then Less (first + child) (first + child + 1)
                    else mret false) ;;
         let child := if (bigger : bool) then child + 1 else child in
         lt <- Less (first + root) (first + child) ;;
         if negb lt then break tt
         else (Swap (first + root) (first + child) ;; continue child)) lo.

Definition heapSort (a b : Z) : M S unit :=
  let first := a in
  let lo := 0 in
  let hi := b - a in
  loop (span 0 (hi + 1))
    (fun i =>
       if i >=? 0 then (siftDown i hi first ;; continue (i - 1))
       else break tt) (quot (hi - 1) 2) ;;
  loop (span 0 (hi + 1))
    (fun i =>
       if i >=? 0 then
         (Swap first (first + i) ;;
          siftDown lo i first ;;
          continue (i - 1))
       else break tt) (hi - 1).

(** The scanning loops [for i <= j && p(i) { i++ }] and
    [for i <= j && p(j) { j-- }] of the partition functions. *)
Definition scan_up (p : Z -> M S bool) (i j : Z) : M S Z :=
  loop (span i (j + 1))
    (fun i =>
       if i <=? j then
         ok <- p i ;;
         if (ok : bool) then continue (i + 1) else break i
       else break i) i.
Definition scan_down (p : Z -> M S bool) (i j : Z) : M S Z :=
  loop (span i (j + 1))
    (fun j =>
       if i <=? j then
         ok <- p j ;;
         if (ok : bool) then continue (j - 1) else break j
       else break j) j.

Definition not_Less (i j : Z) : M S bool :=
  lt <- Less i j ;; mret (negb lt).

Definition partition (a b pivot : Z) : M S (Z * bool) :=
  Swap a pivot ;;
  i <- scan_up (fun i => Less i a) (a + 1) (b - 1) ;;
  j <- scan_down (fun j => not_Less j a) i (b - 1) ;;
  if i >? j then (Swap j a ;; mret (j, true))
  else
    (Swap i j ;;
     j <- loop (span a b)
            (fun '(i, j) =>
               i <- scan_up (fun i => Less i a) i j ;;
               j <- scan_down (fun j => not_Less j a) i j ;;
               if i >? j then break j
               else (Swap i j ;; continue (i + 1, j - 1))) (i + 1, j - 1) ;;
     Swap j a ;;
     mret (j, false)).

Definition partitionEqual (a b pivot : Z) : M S Z :=
  Swap a pivot ;;
  loop (span a b)
    (fun '(i, j) =>
       i <- scan_up (fun i => not_Less a i) i j ;;
       j <- scan_down (fun j => Less a j) i j ;;
       if i >? j then break i
       else (Swap i j ;; continue (i + 1, j - 1))) (a + 1, b - 1).

(** Shift [data[i]] to the right while it is greater than its successor. *)
Definition shift_right (b j : Z) : M S unit :=
  loop (span j b)
    (fun j =>
       if j <? b then
         lt <- Less j (j - 1) ;;
         if negb lt then break tt
         else (Swap j (j - 1) ;; continue (j + 1))
       else break tt) j.

Definition partialInsertionSort (a b : Z) : M S bool :=
  let maxSteps := 5 in
  let shortestShifting := 50 in
  loop 6
    (fun '(j, i) =>
       if j <? maxSteps then
         i <- loop (span i b)
                (fun i =>
                   if i <? b then
                     lt <- Less i (i - 1) ;;
                     if negb lt then continue (i + 1) else break i
                   else break i) i ;;
         if i =? b then break true
         else if b - a <? shortestShifting then break false
         else
           (Swap i (i - 1) ;;
            (if i - a >=? 2 then shift_left (fun j => j >=? 1) (i - 1) else mret tt) ;;
            (if b - i >=? 2 then shift_right b (i + 1) else mret tt) ;;
            continue (j + 1, i))
       else break false) (0, a + 1).

Definition breakPatterns (a b : Z) : M S unit :=
  let length := b - a in
  if length >=? 8 then
    let random := u64 length in
    let modulus := nextPowerOfTwo length in
    loop 4
      (fun '(idx, random) =>
         if idx <=? a + quot length 4 * 2 + 1 then
           let random := xorshift_Next random in
           let other := int64 (random .& u64 (modulus - 1)) in
           let other := if other >=? length then other - length else other in
           (Swap idx (a + other) ;; continue (idx + 1, random))
         else break tt) (a + quot length 4 * 2 - 1, random)
  else mret tt.

(** The [swaps] counter, an [*int] of the Go functions, is threaded. *)
Definition order2 (a b swaps : Z) : M S (Z * Z * Z) :=
  lt <- Less b a ;;
  if (lt : bool) then mret (b, a, swaps + 1) else mret (a, b, swaps).

Definition median (a b c swaps : Z) : M S (Z * Z) :=
  '(a, b, swaps) <- order2 a b swaps ;;
  '(b, c, swaps) <- order2 b c swaps ;;
  '(a, b, swaps) <- order2 a b swaps ;;
  mret (b, swaps).

Definition medianAdjacent (a swaps : Z) : M S (Z * Z) :=
  median (a - 1) a (a + 1) swaps.

Definition choosePivot (a b : Z) : M S (Z * sortedHint) :=
  let shortestNinther := 50 in
  let maxSwaps := 4 * 3 in
  let l := b - a in
  let swaps := 0 in
  let i := a + quot l 4 * 1 in
  let j := a + quot l 4 * 2 in
  let k := a + quot l 4 * 3 in
  '(j, swaps) <-
    (if l >=? 8 then
       '(i, j, k, swaps) <-
         (if l >=? shortestNinther then
            '(i, swaps) <- medianAdjacent i swaps ;;
            '(j, swaps) <- medianAdjacent j swaps ;;
            '(k, swaps) <- medianAdjacent k swaps ;;
            mret (i, j, k, swaps)
          else mret (i, j, k, swaps)) ;;
       median i j k swaps
     else mret (j, swaps)) ;;
  if swaps =? 0 then mret (j, increasingHint)
  else if swaps =? maxSwaps then mret (j, decreasingHint)
  else mret (j, unknownHint).

Definition reverseRange (a b : Z) : M S unit :=
  loop (span a b)
    (fun '(i, j) =>
       if i <? j then (Swap i j ;; continue (i + 1, j - 1)) else break tt) (a, b - 1).

(** The loop of [pdqsort] is the recursion of [pdqsort]: [continue] and
    the recursive call both start it again, the latter with the initial
    values of [wasBalanced] and [wasPartitioned].  Each round works on a
    strictly smaller range, so [b - a] rounds of fuel are enough. *)
Fixpoint pdqsort_loop (fuel : nat) (a b limit : Z) (wasBalanced wasPartitioned : bool) : M S unit :=
  match fuel with
  | O => mnofuel
  | Datatypes.S fuel =>
      let maxInsertion := 12 in
      let length := b - a in
      if length <=? maxInsertion then insertionSort a b
      else if limit =? 0 then heapSort a b
      else
        limit <- (if negb wasBalanced
                  then (breakPatterns a b ;; mret (limit - 1))
                  else mret limit) ;;
        '(pivot, hint) <- choosePivot a b ;;
        '(pivot, hint) <-
          (if decide (hint = decreasingHint) then
             (reverseRange a b ;;
              mret (b - 1 - (pivot - a), increasingHint))
           else mret (pivot, hint)) ;;
        done <- (if wasBalanced && wasPartitioned && bool_decide (hint = increasingHint)
                 then partialInsertionSort a b else mret false) ;;
        if (done : bool) then mret tt
        else
          equal <- (if a >? 0 then not_Less (a - 1) pivot else mret false) ;;
          if (equal : bool) then
            mid <- partitionEqual a b pivot ;;
            pdqsort_loop fuel mid b limit wasBalanced wasPartitioned
          else
            '(mid, alreadyPartitioned) <- partition a b pivot ;;
            let wasPartitioned := alreadyPartitioned in
            let leftLen := mid - a in
            let rightLen := b - mid in
            let balanceThreshold := quot length 8 in
            if leftLen <? rightLen then
              let wasBalanced := leftLen >=? balanceThreshold in
              (pdqsort_loop fuel a mid limit true true ;;
               pdqsort_loop fuel (mid + 1) b limit wasBalanced wasPartitioned)
            else
              let wasBalanced := rightLen >=? balanceThreshold in
              (pdqsort_loop fuel (mid + 1) b limit true true ;;
               pdqsort_loop fuel a mid limit wasBalanced wasPartitioned)
  end.

Definition pdqsort (a b limit : Z) : M S unit :=
  pdqsort_loop (span a b) a b limit true true.

(** ** Stable sorting *)

Definition swapRange (a b n : Z) : M S unit :=
  loop (span 0 n)
    (fun i =>
       if i <? n then (Swap (a + i) (b + i) ;; continue (i + 1)) else break tt) 0.

Definition rotate (a m b : Z) : M S unit :=
  let i := m - a in
  let j := b - m in
  i <- loop (span a b)
         (fun '(i, j) =>
            if negb (i =? j) then
              if i >? j then (swapRange (m - i) m j ;; continue (i - j, j))
              else (swapRange (m - i) (m + j - i) i ;; continue (i, j - i))
            else break i) (i, j) ;;
  swapRange (m - i) m i.

Fixpoint symMerge_rec (fuel : nat) (a m b : Z) : M S unit :=
  match fuel with
  | O => mnofuel
  | Datatypes.S fuel =>
      if m - a =? 1 then
        i <- bisect (fun h => Less h a) m b ;;
        loop (span a b)
          (fun k => if k <? i - 1 then (Swap k (k + 1) ;; continue (k + 1)) else break tt) a
      else if b - m =? 1 then
        i <- bisect (fun h => not_Less m h) a m ;;
        loop (span a b)
          (fun k => if k >? i then (Swap k (k - 1) ;; continue (k - 1)) else break tt) m
      else
        let mid := avg a b in
        let n := mid + m in
        let '(start, r) := if m >? mid then (n - b, mid) else (a, m) in
        let p := n - 1 in
        start <- bisect (fun c => not_Less (p - c) c) start r ;;
        let end_ := n - start in
        (if (start <? m) && (m <? end_) then rotate start m end_ else mret tt) ;;
        (if (a <? start) && (start <? mid) then symMerge_rec fuel a start mid else mret tt) ;;
        (if (mid <? end_) && (end_ <? b) then symMerge_rec fuel mid end_ b else mret tt)
  end.
Definition symMerge (a m b : Z) : M S unit := symMerge_rec (span a b) a m b.

Definition stable (n : Z) : M S unit :=
  let blockSize := 20 in
  a <- loop (span 0 n)
         (fun '(a, b) =>
            if b <=? n then (insertionSort a b ;; continue (b, b + blockSize))
            else break a) (0, blockSize) ;;
  insertionSort a n ;;
  loop (span 0 n)
    (fun blockSize =>
       if blockSize <? n then
         (a <- loop (span 0 n)
                 (fun '(a, b) =>
                    if b <=? n then
                      (symMerge a (a + blockSize) b ;;
                       continue (b, b + 2 * blockSize))
                    else break a) (0, 2 * blockSize) ;;
          let m := a + blockSize in
          (if m <? n then symMerge a m n else mret tt) ;;
          continue (blockSize * 2))
       else break tt) blockSize.

(** The loop of [IsSorted] and [SliceIsSorted]. *)
Definition is_sorted_from (n : Z) : M S bool :=
  loop (span 0 n)
    (fun i =>
       if i >? 0 then
         lt <- Less i (i - 1) ;;
         if (lt : bool) then break false else continue (i - 1)
       else break true) (n - 1).
End Sort.

(** ** The functions of the interface *)

Section Interface.
Context {S : Type} {data : Interface S}.

Definition Sort : M S unit :=
  n <- Len ;;
  if n <=? 1 then mret tt
  else
    let limit := Bits.Len (u64 n) in
    pdqsort 0 n limit.

Definition Stable : M S unit :=
  n <- Len ;;
  stable n.

Definition IsSorted : M S bool :=
  n <- Len ;;
  is_sorted_from n.

(** The data with the opposite order. *)
Definition Reverse : Interface S := {|
  Len := Len;
  Interface_lessSwap := {| Less i j := Less j i; Swap := Swap |} |}.
End Interface.

(** ** Slices

    [less] is a closure over the slice, which it reads as it is when called; the
    function of [reflectlite.Swapper] swaps two of its elements. *)

Section Slices.
Context {E : Type}.

Definition slice_data (less : Z -> Z -> M (list E) bool) : lessSwap (list E) := {| Less := less; Swap := swap |}.
Definition slice_interface (less : Z -> Z -> M (list E) bool) : Interface (list E) :=
  {| Len := mgets zlen; Interface_lessSwap := slice_data less |}.

(** [Slice], the name of the file of slices, is [Slice_]. *)
Definition Slice_ (less : Z -> Z -> M (list E) bool) : M (list E) unit :=
  length <- mgets zlen ;;
  let limit := Bits.Len (u64 length) in
  pdqsort (data := slice_data less) 0 length limit.

Definition SliceStable (less : Z -> Z -> M (list E) bool) : M (list E) unit :=
  n <- mgets zlen ;;
  stable (data := slice_data less) n.

Definition SliceIsSorted (less : Z -> Z -> M (list E) bool) : M (list E) bool :=
  n <- mgets zlen ;;
  is_sorted_from (data := slice_data less) n.
End Slices.

(** ** Ordered types: [slices.Sort] and [slices.BinarySearch]

    [lt] and [eq] are the operators of the type; of floating-point numbers a NaN is not
    equal to itself. [zsortordered.go] has the text of the algorithms once more, with
    [cmp.Less] of two elements of the slice. *)

Section Ordered.
Context {E : Type} (lt eq : E -> E -> bool).

Definition isNaN (x : E) : bool := negb (eq x x).
Definition cmp_Less (x y : E) : bool := (isNaN x && negb (isNaN y)) || lt x y.

Definition ordered_data : lessSwap (list E) :=
  slice_data (fun i j => x <- load i ;; y <- load j ;; mret (cmp_Less x y)).
Definition pdqsortOrdered (a b limit : Z) : M (list E) unit := pdqsort (data := ordered_data) a b limit.
Definition Sort_ordered : M (list E) unit :=
  n <- mgets zlen ;;
  pdqsortOrdered 0 n (Bits.Len (u64 n)).
Definition BinarySearch (target : E) : M (list E) (Z * bool) :=
  n <- mgets zlen ;;
  i <- bisect (fun h => x <- load h ;; mret (cmp_Less x target)) 0 n ;;
  found <- (if i <? n then x <- load i ;; mret (eq x target || (isNaN x && isNaN target)) else mret false) ;;
  mret (i, found).
End Ordered.

(** ** Searching *)

Section Search.
Context {S : Type}.

Definition Search (n : Z) (f : Z -> M S bool) : M S Z :=
  bisect (fun h => ok <- f h ;; mret (negb ok)) 0 n.

Definition Find (n : Z) (cmp : Z -> M S Z) : M S (Z * bool) :=
  i <- bisect (fun h => c <- cmp h ;; mret (c >? 0)) 0 n ;;
  found <- (if i <? n then c <- cmp i ;; mret (c =? 0) else mret false) ;;
  mret (i, found).
End Search.

Definition SearchInts (x : Z) : M (list Z) Z :=
  n <- mgets zlen ;;
  Search n (fun i => y <- load i ;; mret (y >=? x)).
