(* ===== verification/SortInterface.v ===== *)
(** * sort: simulation and theorems

    The algorithms of [sort] run on data with a [Less] and a [Swap] as those of
    [slices] run on the list the data stands for: every computation of one that
    returns is a computation of the other with the same result.  So sorting through an
    interface, slices with a [less] closure and ordered types inherit the theorems of
    [slices]; the searches follow. *)

From S2P Require Import Prelude.
From S2P Require Import Slice.
From S2P Require Import Pdqsort.
From S2P Require Import SortOrder.
From S2P Require Import Quicksort.
From S2P Require Import StableSort.
From S2P Require Import SortTheorems.
From S2P Require Import Sort.

(** What the documentation of [Interface] asks of its methods: the data stand for
    a list, [Less] compares two of its elements, and [Swap] exchanges them. *)
Class LessSwapLaws {S E} (data : lessSwap S) (models : S -> list E -> Prop) (lt : E -> E -> bool) : Prop := {
  law_Less s l i j x y : models s l -> at_ l i = Some x -> at_ l j = Some y ->
    exists s', Less i j s = Done (lt x y, s') /\ models s' l;
  law_Swap s l i j l' : models s l -> swap i j l = Done (tt, l') ->
    exists s', Swap i j s = Done (tt, s') /\ models s' l' }.
Class InterfaceLaws {S E} (data : Interface S) (models : S -> list E -> Prop) (lt : E -> E -> bool) : Prop := {
  #[global] laws_lessSwap :: LessSwapLaws Interface_lessSwap models lt;
  law_Len s l : models s l -> exists s', Sort.Len s = Done (zlen l, s') /\ models s' l }.

Create HintDb sim.

Section Sim.
Context {S E : Type} {data : lessSwap S} (models : S -> list E -> Prop) (lt : E -> E -> bool).
Context {laws : LessSwapLaws data models lt}.

(** A three-valued comparison with the order [lt]. *)
Definition cmp_of (x y : E) : Z := if lt x y then -1 else 0.
Notation cmp := cmp_of.
Lemma less_cmp_of x y : less cmp x y = lt x y.
Proof. unfold less, cmp_of. by destruct (lt x y). Qed.

Definition sim {A} (m1 : M S A) (m2 : M (list E) A) : Prop :=
  forall s l r l', models s l -> m2 l = Done (r, l') -> exists s', m1 s = Done (r, s') /\ models s' l'.

Lemma sim_ret {A} (a : A) : sim (mret a) (mret a).
Proof. intros s l r l' Hm [= <- <-]. eauto. Qed.
Lemma sim_continue {A B} (a : A) : sim (continue (B := B) a) (continue a).
Proof. apply sim_ret. Qed.
Lemma sim_break {A B} (b : B) : sim (break (A := A) b) (break b).
Proof. apply sim_ret. Qed.
Lemma sim_nofuel {A} : sim (A := A) mnofuel mnofuel.
Proof. done. Qed.
Lemma sim_bind {A B} (m1 : M S A) m2 (k1 : A -> M S B) k2 :
  sim m1 m2 -> (forall a, sim (k1 a) (k2 a)) -> sim (mbind m1 k1) (mbind m2 k2).
Proof.
  intros Hm Hk s l r l' Hs. unfold mbind. destruct (m2 l) as [[a l1]| |] eqn:E2; [|done..].
  destruct (Hm s l a l1 Hs E2) as (s1 & -> & Hs1). by apply Hk.
Qed.
Lemma sim_loop {A B} fuel (b1 : A -> M S (A + B)) b2 a :
  (forall a, sim (b1 a) (b2 a)) -> sim (loop fuel b1 a) (loop fuel b2 a).
Proof.
  intros Hb. revert a. induction fuel as [|fuel IH]; intros a; cbn [loop]; [apply sim_nofuel|].
  apply sim_bind; [apply Hb|]. intros [a'|b]; [apply IH|apply sim_ret].
Qed.

Lemma sim_Less i j : sim (Less i j) (less_at cmp i j).
Proof.
  intros s l r l' Hm. unfold less_at, Slice.load, mbind, mret.
  destruct (at_ l i) as [x|] eqn:Hx; [|done]. destruct (at_ l j) as [y|] eqn:Hy; [|done].
  intros [= <- <-]. rewrite less_cmp_of. by eapply law_Less.
Qed.
Lemma sim_Swap i j : sim (Swap i j) (swap i j).
Proof. intros s l [] l' Hm H. by eapply law_Swap. Qed.

Hint Resolve sim_ret sim_continue sim_break sim_nofuel sim_Less sim_Swap : sim.

(** [sims] follows two computations of the same shape. *)
Ltac sims :=
  repeat (cbv beta iota zeta; match goal with
  | |- sim (mbind _ _) (mbind _ _) => apply sim_bind; [|intros ?]
  | |- sim (loop _ _ _) (loop _ _ _) => apply sim_loop; intros ?
  | |- sim (if ?b then _ else _) (if ?b then _ else _) => destruct b
  | |- sim (match ?x with _ => _ end) (match ?x with _ => _ end) => destruct x
  | |- sim _ _ => solve [auto with sim]
  end).

Lemma sim_shift_left guard j : sim (Sort.shift_left guard j) (Pdqsort.shift_left cmp guard j).
Proof. unfold Sort.shift_left, Pdqsort.shift_left. sims. Qed.
Hint Resolve sim_shift_left : sim.
Lemma sim_insertionSort a b : sim (insertionSort a b) (insertionSortCmpFunc cmp a b).
Proof. unfold insertionSort, insertionSortCmpFunc. sims. Qed.
Lemma sim_siftDown lo hi first : sim (siftDown lo hi first) (siftDownCmpFunc cmp lo hi first).
Proof. unfold siftDown, siftDownCmpFunc. sims. Qed.
Hint Resolve sim_insertionSort sim_siftDown : sim.
Lemma sim_heapSort a b : sim (heapSort a b) (heapSortCmpFunc cmp a b).
Proof. unfold heapSort, heapSortCmpFunc. sims. Qed.
Lemma sim_not_Less i j : sim (not_Less i j) (not_less_at cmp i j).
Proof. unfold not_Less, not_less_at. sims. Qed.
Lemma sim_scan_up p q i j : (forall i, sim (p i) (q i)) -> sim (Sort.scan_up p i j) (Pdqsort.scan_up q i j).
Proof. intros H. unfold Sort.scan_up, Pdqsort.scan_up. sims. Qed.
Lemma sim_scan_down p q i j : (forall i, sim (p i) (q i)) -> sim (Sort.scan_down p i j) (Pdqsort.scan_down q i j).
Proof. intros H. unfold Sort.scan_down, Pdqsort.scan_down. sims. Qed.
Lemma sim_bisect p q i j : (forall i, sim (p i) (q i)) -> sim (bisect p i j) (bisect q i j).
Proof. intros H. unfold bisect. sims. Qed.
Hint Resolve sim_heapSort sim_not_Less sim_scan_up sim_scan_down sim_bisect : sim.
Lemma sim_partition a b pivot : sim (partition a b pivot) (partitionCmpFunc cmp a b pivot).
Proof. unfold partition, partitionCmpFunc. sims. Qed.
Lemma sim_partitionEqual a b pivot : sim (partitionEqual a b pivot) (partitionEqualCmpFunc cmp a b pivot).
Proof. unfold partitionEqual, partitionEqualCmpFunc. sims. Qed.
Lemma sim_shift_right b j : sim (Sort.shift_right b j) (Pdqsort.shift_right cmp b j).
Proof. unfold Sort.shift_right, Pdqsort.shift_right. sims. Qed.
Hint Resolve sim_partition sim_partitionEqual sim_shift_right : sim.
Lemma sim_partialInsertionSort a b : sim (partialInsertionSort a b) (partialInsertionSortCmpFunc cmp a b).
Proof. unfold partialInsertionSort, partialInsertionSortCmpFunc. sims. Qed.
Lemma sim_breakPatterns a b : sim (breakPatterns a b) (breakPatternsCmpFunc a b).
Proof. unfold breakPatterns, breakPatternsCmpFunc. sims. Qed.
Lemma sim_order2 a b swaps : sim (order2 a b swaps) (order2CmpFunc cmp a b swaps).
Proof. unfold order2, order2CmpFunc. sims. Qed.
Hint Resolve sim_partialInsertionSort sim_breakPatterns sim_order2 : sim.
Lemma sim_median a b c swaps : sim (median a b c swaps) (medianCmpFunc cmp a b c swaps).
Proof. unfold median, medianCmpFunc. sims. Qed.
Hint Resolve sim_median : sim.
Lemma sim_medianAdjacent a swaps : sim (medianAdjacent a swaps) (medianAdjacentCmpFunc cmp a swaps).
Proof. apply sim_median. Qed.
Hint Resolve sim_medianAdjacent : sim.
Lemma sim_choosePivot a b : sim (choosePivot a b) (choosePivotCmpFunc cmp a b).
Proof. unfold choosePivot, choosePivotCmpFunc. sims. Qed.
Lemma sim_reverseRange a b : sim (reverseRange a b) (reverseRangeCmpFunc a b).
Proof. unfold reverseRange, reverseRangeCmpFunc. sims. Qed.
Hint Resolve sim_choosePivot sim_reverseRange : sim.

Lemma sim_pdqsort_loop fuel a b limit wb wp : sim (pdqsort_loop fuel a b limit wb wp) (Pdqsort.pdqsort cmp fuel a b limit wb wp).
Proof. revert a b limit wb wp. induction fuel as [|fuel IH]; intros; cbn [pdqsort_loop Pdqsort.pdqsort]; sims. Qed.
Lemma sim_pdqsort a b limit : sim (pdqsort a b limit) (pdqsortCmpFunc cmp a b limit).
Proof. apply sim_pdqsort_loop. Qed.

Lemma sim_swapRange a b n : sim (swapRange a b n) (swapRangeCmpFunc a b n).
Proof. unfold swapRange, swapRangeCmpFunc. sims. Qed.
Hint Resolve sim_swapRange : sim.
Lemma sim_rotate a m b : sim (rotate a m b) (rotateCmpFunc a m b).
Proof. unfold rotate, rotateCmpFunc. sims. Qed.
Hint Resolve sim_rotate : sim.
Lemma sim_symMerge_rec fuel a m b : sim (symMerge_rec fuel a m b) (Pdqsort.symMerge cmp fuel a m b).
Proof. revert a m b. induction fuel as [|fuel IH]; intros; cbn [symMerge_rec Pdqsort.symMerge]; sims. Qed.
Lemma sim_symMerge a m b : sim (symMerge a m b) (symMergeCmpFunc cmp a m b).
Proof. apply sim_symMerge_rec. Qed.
Hint Resolve sim_symMerge : sim.
Lemma sim_stable n : sim (stable n) (stableCmpFunc cmp n).
Proof. unfold stable, stableCmpFunc. sims. Qed.
Lemma sim_is_sorted l r l' : IsSortedFunc cmp l = Done (r, l') -> forall s, models s l ->
  exists s', is_sorted_from (zlen l) s = Done (r, s') /\ models s' l'.
Proof.
  intros E1 s Hm. unfold IsSortedFunc, mbind at 1, mgets in E1. cbv beta in E1.
  lazymatch type of E1 with ?m l = _ => assert (Hsim : sim (is_sorted_from (zlen l)) m) end.
  { unfold is_sorted_from. sims. }
  by apply (Hsim s l r l').
Qed.
End Sim.

Lemma StrictWeak_ext {E} (lt lt' : E -> E -> bool) : (forall x y, lt' x y = lt x y) -> StrictWeak lt -> StrictWeak lt'.
Proof.
  intros H [H1 H2 H3]. split.
  - intros x. by rewrite H.
  - intros x y z. rewrite !H. apply H2.
  - intros x y z. rewrite !H. apply H3.
Qed.
Lemma StrictWeak_flip {E} (lt : E -> E -> bool) : StrictWeak lt -> StrictWeak (fun x y => lt y x).
Proof.
  intros [H1 H2 H3]. split; [done|intros x y z Hxy Hyz; by apply (H2 z y x)|].
  intros x y z H4 H5 H6 H7. destruct (H3 z y x); auto.
Qed.
Lemma sorted_list_ext {E} (lt lt' : E -> E -> bool) l : (forall x y, lt' x y = lt x y) -> sorted_list lt l -> sorted_list lt' l.
Proof.
  intros H. induction 1 as [|x l _ IH Hx]; constructor; [done|]. eapply Forall_impl; [exact Hx|]. intros y. unfold le. by rewrite H.
Qed.
Lemma stable_ext {E} (lt lt' : E -> E -> bool) l l' : (forall x y, lt' x y = lt x y) -> SortOrder.stable lt l l' -> SortOrder.stable lt' l l'.
Proof.
  intros H Hs z. specialize (Hs z). erewrite !(filter_ext (eqv lt' z) (eqv lt z)); [done|..]; intros x; unfold eqv; by rewrite !H.
Qed.

Section Interface.
Context {S E : Type} {models : S -> list E -> Prop} (lt : E -> E -> bool).

(** [m] returns, and the data then stand for a list in [P]. *)
Definition leaves (m : M S unit) (s : S) (P : list E -> Prop) : Prop :=
  exists s' l', m s = Done (tt, s') /\ models s' l' /\ P l'.

Section LessSwap.
Context {data : lessSwap S} {laws : LessSwapLaws data models lt}.
Implicit Types (s : S) (l : list E).

Lemma sim_leaves (m1 : M S unit) (m2 : M (list E) unit) s l (P : list E -> Prop) :
  sim models m1 m2 -> models s l -> wp m2 (fun _ l' => P l') l -> leaves m1 s P.
Proof.
  intros Hsim Hm Hw. destruct (wp_elim _ _ _ Hw) as ([] & l' & E2 & HP).
  destruct (Hsim s l tt l' Hm E2) as (s' & E1 & Hs'). by exists s', l'.
Qed.

Lemma pdqsort_leaves s l : models s l -> zlen l < 2 ^ 62 ->
  leaves (pdqsort 0 (zlen l) (Bits.Len (u64 (zlen l)))) s (fun l' => l' ≡ₚ l /\ (StrictWeak lt -> sorted_list lt l')).
Proof.
  intros Hm Hlen. eapply sim_leaves; [apply (sim_pdqsort models lt)|exact Hm|].
  pose proof (wp_SortFunc (cmp_of lt) l Hlen) as H. unfold SortFunc, wp, mbind, mgets in H. unfold wp.
  destruct (pdqsortCmpFunc _ _ _ _ l) as [[[] l']| |]; [|done..]. destruct H as [Hp Hs]. split; [done|].
  intros sw. eapply sorted_list_ext, Hs; [intros; by rewrite less_cmp_of|]. eapply StrictWeak_ext, sw. intros; by rewrite less_cmp_of.
Qed.
Lemma stable_leaves s l : models s l -> zlen l < 2 ^ 62 ->
  leaves (Sort.stable (zlen l)) s (fun l' => l' ≡ₚ l /\ (StrictWeak lt -> sorted_list lt l' /\ SortOrder.stable lt l l')).
Proof.
  intros Hm Hlen. eapply sim_leaves; [apply (sim_stable models lt)|exact Hm|].
  pose proof (wp_SortStableFunc (cmp_of lt) l Hlen) as H. unfold SortStableFunc, wp, mbind, mgets in H. unfold wp.
  destruct (stableCmpFunc _ _ l) as [[[] l']| |]; [|done..]. destruct H as [Hp Hs]. split; [done|].
  intros sw. destruct Hs as [H1 H2]; [eapply StrictWeak_ext, sw; intros; by rewrite less_cmp_of|].
  split; [eapply sorted_list_ext, H1|eapply stable_ext, H2]; intros; by rewrite less_cmp_of.
Qed.
End LessSwap.

Context {data : Interface S} {laws : InterfaceLaws data models lt}.

Lemma is_sorted_returns s l : models s l ->
  exists r s', is_sorted_from (zlen l) s = Done (r, s') /\ models s' l /\ (StrictWeak lt -> r = true <-> sorted_list lt l).
Proof.
  intros Hm. destruct (wp_elim _ _ _ (wp_IsSortedFunc (cmp_of lt) l)) as (r & ? & E2 & -> & Hr).
  destruct (sim_is_sorted models lt l r l E2 s Hm) as (s' & E1 & Hs'). exists r, s'. split; [done|]. split; [done|]. intros sw.
  assert (StrictWeak (less (cmp_of lt))) as sw' by (eapply StrictWeak_ext, sw; intros; by rewrite less_cmp_of).
  assert (Hext : sorted_list (less (cmp_of lt)) l <-> sorted_list lt l) by (split; apply sorted_list_ext; intros; by rewrite less_cmp_of).
  rewrite Hr, <- Hext. split; intros H.
  - apply sorted_range_list, sorted_range_adjacent; [done|pose proof (zlen_nonneg l); lia..|done].
  - intros i x y Hi Hx Hy. apply (sorted_list_range _ _ H (i - 1) i); [lia..|done|done].
Qed.

Lemma Sort_leaves s l : models s l -> zlen l < 2 ^ 62 -> leaves Sort s (fun l' => l' ≡ₚ l /\ (StrictWeak lt -> sorted_list lt l')).
Proof.
  intros Hm Hlen. destruct (law_Len s l Hm) as (s1 & EL & Hs1). unfold leaves, Sort, mbind. rewrite EL.
  destruct (Z.leb_spec (zlen l) 1).
  - exists s1, l. split; [done|]. split; [done|]. split; [done|]. intros sw. unfold sorted_list.
    destruct l as [|x [|y l]]; [constructor|repeat constructor|]. unfold zlen in *. cbn in *. lia.
  - by apply pdqsort_leaves.
Qed.
Lemma Stable_leaves s l : models s l -> zlen l < 2 ^ 62 ->
  leaves Stable s (fun l' => l' ≡ₚ l /\ (StrictWeak lt -> sorted_list lt l' /\ SortOrder.stable lt l l')).
Proof.
  intros Hm Hlen. destruct (law_Len s l Hm) as (s1 & EL & Hs1). unfold leaves, Stable, mbind. rewrite EL. by apply stable_leaves.
Qed.
End Interface.

#[global] Instance Reverse_laws {S E} (data : Interface S) (models : S -> list E -> Prop) lt :
  InterfaceLaws data models lt -> InterfaceLaws Reverse models (fun x y => lt y x).
Proof.
  intros [[H1 H2] H3]. split; [split; cbn|done].
  - intros s l i j x y Hm Hx Hy. by apply (H1 s l j i y x).
  - exact H2.
Qed.

(** A slice and a closure that compares two of its elements. *)
#[global] Instance slice_laws {E} (lt : E -> E -> bool) (less : Z -> Z -> M (list E) bool) :
  (forall l i j x y, at_ l i = Some x -> at_ l j = Some y -> less i j l = Done (lt x y, l)) ->
  InterfaceLaws (slice_interface less) (fun s l => s = l) lt.
Proof.
  intros H. split; [split; cbn|].
  - intros s l i j x y -> Hx Hy. rewrite (H l i j x y Hx Hy). eauto.
  - intros s l i j l' -> E1. rewrite E1. eauto.
  - intros s l ->. by eexists.
Qed.

(** [Slice_] sorts by a closure that compares two elements of the slice, in whatever
    order the slice has come to. *)
Lemma swap_perm {E} (l l' : list E) i j : swap i j l = Done (tt, l') -> l' ≡ₚ l.
Proof.
  intros Hs. assert (0 <= i < zlen l /\ 0 <= j < zlen l) as [Hi Hj].
  { unfold swap, mbind, load in Hs. destruct (at_ l j) eqn:Ex; [|done]. destruct (at_ l i) eqn:Ey; [|done].
    by split; eapply at_range. }
  pose proof (wp_swap i j (fun _ l' => l' ≡ₚ l) l Hi Hj (swapped_perm l i j)) as Hw. unfold wp in Hw. by rewrite Hs in Hw.
Qed.
Lemma Slice_sorts {E} (lt : E -> E -> bool) (less : Z -> Z -> M (list E) bool) l0 : zlen l0 < 2 ^ 62 ->
  (forall l i j x y, l ≡ₚ l0 -> at_ l i = Some x -> at_ l j = Some y -> less i j l = Done (lt x y, l)) ->
  exists l', Slice_ less l0 = Done (tt, l') /\ l' ≡ₚ l0 /\ (StrictWeak lt -> sorted_list lt l').
Proof.
  intros Hlen Hless. assert (L : LessSwapLaws (slice_data less) (fun s l => s = l /\ l ≡ₚ l0) lt).
  { split; cbn.
    - intros s l i j x y [-> Hp] Hx Hy. rewrite (Hless l i j x y Hp Hx Hy). eauto.
    - intros s l i j l' [-> Hp] E1. rewrite E1. exists l'. split; [done|]. split; [done|]. rewrite <- Hp. by eapply swap_perm. }
  destruct (pdqsort_leaves (data := slice_data less) (models := fun s l => s = l /\ l ≡ₚ l0) lt (laws := L) l0 l0) as (? & l' & H1 & [-> Hp] & H3 & H4); [done|done|].
  by exists l'.
Qed.

(** ** Ordered types *)

(** The operators [<] and [==] of an ordered type: a total order of the values that
    equal themselves, and false on the others. *)
Class OrderedLaws {E} (lt eq : E -> E -> bool) : Prop := {
  ord_lt_num x y : lt x y = true -> isNaN eq x = false /\ isNaN eq y = false;
  ord_irrefl x : lt x x = false;
  ord_trans x y z : lt x y = true -> lt y z = true -> lt x z = true;
  ord_eq_sym x y : eq x y = true -> eq y x = true;
  ord_eq_trans x y z : eq x y = true -> eq y z = true -> eq x z = true;
  ord_eq_lt x y z : eq x y = true -> lt x z = lt y z /\ lt z x = lt z y;
  ord_total x y : isNaN eq x = false -> isNaN eq y = false -> lt x y = false -> lt y x = false -> eq x y = true }.

Section Ordered.
Context {E : Type} (lt eq : E -> E -> bool) {ord : OrderedLaws lt eq}.
Implicit Types (l : list E) (x y z : E).

(** Equal, a NaN counting as equal to another. *)
Definition same x y : bool := eq x y || (isNaN eq x && isNaN eq y).

Lemma eq_num x y : eq x y = true -> isNaN eq x = false /\ isNaN eq y = false.
Proof.
  intros H. pose proof (ord_eq_sym _ _ H) as H'. unfold isNaN.
  by rewrite (ord_eq_trans x y x H H'), (ord_eq_trans y x y H' H).
Qed.

Lemma incomparable x y : cmp_Less lt eq x y = false /\ cmp_Less lt eq y x = false <-> same x y = true.
Proof.
  unfold cmp_Less, same. destruct (isNaN eq x) eqn:Nx, (isNaN eq y) eqn:Ny; cbn; rewrite ?orb_false_r, ?orb_true_r.
  - split; [done|]. intros _. split; [destruct (lt x y) eqn:H|destruct (lt y x) eqn:H]; try done; apply ord_lt_num in H; destruct H; congruence.
  - split; [by intros [? _]|]. intros H. apply eq_num in H as [? _]. congruence.
  - split; [by intros [_ ?]|]. intros H. apply eq_num in H as [_ ?]. congruence.
  - split; [intros [H1 H2]; by apply ord_total|]. intros H. destruct (ord_eq_lt x y y H) as [H1 _], (ord_eq_lt x y y H) as [_ H2].
    by rewrite H1, H2, ord_irrefl.
Qed.

Lemma same_trans x y z : same x y = true -> same y z = true -> same x z = true.
Proof.
  unfold same. destruct (eq x y) eqn:H1; [pose proof (eq_num _ _ H1) as [N1 N2]|];
    (destruct (eq y z) eqn:H2; [pose proof (eq_num _ _ H2) as [N3 N4]|]);
    destruct (isNaN eq x), (isNaN eq y), (isNaN eq z); cbn; try congruence.
  - intros _ _. by rewrite (ord_eq_trans x y z).
  - intros _ _. apply orb_true_r.
Qed.
Lemma same_sym x y : same x y = true -> same y x = true.
Proof. rewrite <- !incomparable. tauto. Qed.

#[global] Instance cmp_Less_StrictWeak : StrictWeak (cmp_Less lt eq).
Proof.
  split.
  - intros x. unfold cmp_Less. rewrite ord_irrefl. by destruct (isNaN eq x).
  - intros x y z. unfold cmp_Less. intros H1 H2. apply orb_true_iff in H1, H2. apply orb_true_iff.
    destruct H1 as [H1|H1], H2 as [H2|H2]; reflect.
    + left. congruence.
    + apply ord_lt_num in H2 as [H2 H3]. left. by rewrite H, H3.
    + apply ord_lt_num in H1 as [_ H3]. congruence.
    + right. by eapply ord_trans.
  - intros x y z H1 H2 H3 H4. apply incomparable. eapply same_trans; by apply incomparable.
Qed.

Lemma ordered_Less i j l x y : at_ l i = Some x -> at_ l j = Some y ->
  (x <- load i ;; y <- load j ;; mret (cmp_Less lt eq x y)) l = Done (cmp_Less lt eq x y, l).
Proof. intros Hx Hy. unfold load, mbind. by rewrite Hx, Hy. Qed.

Lemma wp_BinarySearch l t : zlen l < 2 ^ 62 -> sorted_list (cmp_Less lt eq) l ->
  wp (BinarySearch lt eq t) (fun '(i, found) l' => l' = l /\ 0 <= i <= zlen l /\
    (forall j x, at_ l j = Some x -> (j < i <-> cmp_Less lt eq x t = true)) /\
    (found = true <-> exists j x, at_ l j = Some x /\ same x t = true)) l.
Proof.
  intros Hlen Hs. apply sorted_list_range in Hs. pose proof (zlen_nonneg l) as H0. unfold BinarySearch. wp_step. wp_step.
  eapply wp_call.
  { apply (wp_bisect _ (fun h => match at_ l h with Some x => cmp_Less lt eq x t | None => false end)); [lia..|].
    intros h Hh. wp_step. apply wp_load; [lia|]. intros x Hx. wp_step. by rewrite Hx. }
  intros i ? (-> & Hi & H1 & H2).
  assert (Hle : forall j k x y, at_ l j = Some x -> at_ l k = Some y -> j <= k -> cmp_Less lt eq y t = true -> cmp_Less lt eq x t = true).
  { intros j k x y Hx Hy Hjk Hy'. pose proof (at_range _ _ _ Hx). pose proof (at_range _ _ _ Hy).
    destruct (decide (j = k)) as [->|]; [congruence|]. eapply (le_lt_trans _ x y t); [by eapply (Hs j k); [lia..| |]|done]. }
  assert (Hpos : forall j x, at_ l j = Some x -> (j < i <-> cmp_Less lt eq x t = true)).
  { intros j x Hx. pose proof (at_range _ _ _ Hx). split; intros Hlt.
    - destruct H1 as [->|H1]; [lia|]. destruct (at_ l (i - 1)) as [y|] eqn:Hy; [|done]. by eapply (Hle j (i - 1)); [..|lia|].
    - destruct (Z.lt_ge_cases j i); [done|]. destruct H2 as [->|H2]; [lia|]. destruct (at_ex l i) as [y Hy]; [lia|].
      rewrite Hy in H2. rewrite (Hle i j y x Hy Hx) in H2; done. }
  apply (wp_call _ _ (fun r l' => l' = l /\ r = match at_ l i with Some x => same x t | None => false end)).
  { wp_step; reflect; [wp_step; apply wp_load; [lia|]; intros x Hx; wp_step; by rewrite Hx|wp_step; by rewrite at_None by lia]. }
  intros r ? [-> ->]. wp_step. split; [done|]. split; [lia|]. split; [done|]. split.
  - destruct (at_ l i) as [x|] eqn:Hx; [|done]. eauto.
  - intros (j & x & Hx & Hsame). pose proof (at_range _ _ _ Hx). apply incomparable in Hsame as [Hxt Htx].
    assert (Hij : i <= j) by (destruct (Z.lt_ge_cases j i) as [Hlt|]; [apply (Hpos j x Hx) in Hlt; congruence|done]).
    destruct (at_ex l i) as [y Hy]; [lia|]. rewrite Hy. apply incomparable. split.
    + destruct (cmp_Less lt eq y t) eqn:E1; [|done]. apply (Hpos i y Hy) in E1. lia.
    + destruct (decide (i = j)) as [->|]; [congruence|]. destruct (cmp_Less lt eq t y) eqn:E1; [|done].
      assert (Hyx : le (cmp_Less lt eq) y x) by (by apply (Hs i j); [lia..| |]). pose proof (lt_le_trans _ t y x E1 Hyx). congruence.
Qed.
End Ordered.

(** ** Searching *)



Section Search.
Context {S : Type} (s : S).


End Search.

(** ** Theorems *)

(** C32: [sort.Sort], [Stable], [IsSorted] and [Reverse] work on any data whose methods
    do what the documentation of [Interface] asks ([InterfaceLaws]): whatever [Less]
    answers, [Sort] and [Stable] return, without an index out of range, and leave a permutation; if
    [Less] is a strict weak order, it is sorted, and by [Stable] with equal elements in
    their order; [IsSorted] decides sortedness; the data of [Reverse] is sorted the
    other way round.  [Slice], [SliceStable] and [SliceIsSorted] do the same to a slice
    with a closure that compares its elements. *)
Theorem interface_sorting {S E} (data : Interface S) (models : S -> list E -> Prop) (lt : E -> E -> bool) s l :
  InterfaceLaws data models lt -> models s l -> zlen l < 2 ^ 62 ->
  leaves (models := models) Sort s (fun l' => l' ≡ₚ l /\ (StrictWeak lt -> sorted_list lt l')) /\
  leaves (models := models) Stable s (fun l' => l' ≡ₚ l /\ (StrictWeak lt -> sorted_list lt l' /\ SortOrder.stable lt l l')) /\
  (exists r s', IsSorted s = Done (r, s') /\ models s' l /\ (StrictWeak lt -> r = true <-> sorted_list lt l)) /\
  leaves (models := models) (Sort (data := Reverse)) s (fun l' => l' ≡ₚ l /\ (StrictWeak lt -> sorted_list (fun x y => lt y x) l')) /\
  (forall (less : Z -> Z -> M (list E) bool),
     (forall l i j x y, at_ l i = Some x -> at_ l j = Some y -> less i j l = Done (lt x y, l)) ->
     (exists l', Slice_ less l = Done (tt, l') /\ l' ≡ₚ l /\ (StrictWeak lt -> sorted_list lt l')) /\
     (exists l', SliceStable less l = Done (tt, l') /\ l' ≡ₚ l /\ (StrictWeak lt -> sorted_list lt l' /\ SortOrder.stable lt l l')) /\
     (exists r, SliceIsSorted less l = Done (r, l) /\ (StrictWeak lt -> r = true <-> sorted_list lt l))).
Proof.
  intros laws Hm Hlen. split; [by apply Sort_leaves|]. split; [by apply Stable_leaves|]. split; [|split].
  - destruct (law_Len s l Hm) as (s1 & EL & Hs1). unfold IsSorted, mbind. rewrite EL. by apply is_sorted_returns.
  - destruct (Sort_leaves (data := Reverse) (models := models) (fun x y => lt y x) s l Hm Hlen) as (s' & l' & H1 & H2 & H3 & H4).
    exists s', l'. split; [done|]. split; [done|]. split; [done|]. intros sw. by apply H4, StrictWeak_flip.
  - intros less Hless. pose proof (slice_laws lt less Hless) as L. split; [|split].
    + apply Slice_sorts; eauto.
    + destruct (stable_leaves (data := slice_data less) (models := fun s l => s = l) lt (laws := @laws_lessSwap _ _ (slice_interface less) _ _ L) l l eq_refl Hlen) as (? & l' & H1 & -> & H3).
      by exists l'.
    + destruct (is_sorted_returns (data := slice_interface less) (models := fun s l => s = l) lt l l eq_refl) as (r & ? & H1 & -> & H3).
      by exists r.
Qed.

(** C33: [slices.Sort] sorts a slice of an ordered type, floating-point numbers with
    NaNs included: the result is the permutation in which the NaNs come first and the
    others ascend.  On a slice so sorted, [slices.BinarySearch] returns the first
    position whose element is not before the target, and whether the target occurs, a NaN counting as
    equal to another. *)
Theorem ordered_sorting {E} (lt eq : E -> E -> bool) l t :
  OrderedLaws lt eq -> zlen l < 2 ^ 62 ->
  (exists l', Sort_ordered lt eq l = Done (tt, l') /\ l' ≡ₚ l /\ sorted_list (cmp_Less lt eq) l') /\
  (sorted_list (cmp_Less lt eq) l -> exists i found, BinarySearch lt eq t l = Done ((i, found), l) /\ 0 <= i <= zlen l /\
     (forall j x, at_ l j = Some x -> (j < i <-> cmp_Less lt eq x t = true)) /\
     (found = true <-> exists j x, at_ l j = Some x /\ same eq x t = true)).
Proof.
  intros ord Hlen. split.
  - pose proof (slice_laws (cmp_Less lt eq) _ (fun l i j x y => ordered_Less lt eq i j l x y)) as L.
    destruct (pdqsort_leaves (data := ordered_data lt eq) (models := fun s l => s = l) (cmp_Less lt eq)
      (laws := @laws_lessSwap _ _ (slice_interface _) _ _ L) l l eq_refl Hlen)
      as (? & l' & H1 & -> & H2 & H3).
    exists l'. split; [done|]. split; [done|]. apply H3, _.
  - intros Hs. destruct (wp_elim _ _ _ (wp_BinarySearch lt eq l t Hlen Hs)) as ([i found] & ? & H1 & -> & H2). by exists i, found.
Qed.


(** ** Witnesses *)

(** A slice of numbers that counts the calls of [Less]. *)
#[local] Instance counting : Interface (list Z * Z) := {|
  Sort.Len := mgets (fun s => zlen s.1);
  Interface_lessSwap := {|
    Less i j := fun s => match at_ s.1 i, at_ s.1 j with
                         | Some x, Some y => Done (x <? y, (s.1, s.2 + 1))
                         | _, _ => Panic IndexOutOfRange
                         end;
    Swap i j := fun s => match swap i j s.1 with
                         | Done (_, l) => Done (tt, (l, s.2))
                         | Panic p => Panic p
                         | NoFuel => NoFuel
                         end |} |}.
#[local] Instance counting_laws : InterfaceLaws counting (fun s l => s.1 = l) Z.ltb.
Proof.
  split; [split; cbn|].
  - intros [s n] l i j x y <- Hx Hy. cbn in *. rewrite Hx, Hy. eauto.
  - intros [s n] l i j l' <- H. cbn in *. rewrite H. eauto.
  - intros [s n] l <-. by eexists.
Qed.
Lemma StrictWeak_ltb : StrictWeak Z.ltb.
Proof.
  split; [intros x; apply Z.ltb_irrefl|intros x y z; rewrite !Z.ltb_lt; lia|intros x y z; rewrite !Z.ltb_ge; lia].
Qed.

Lemma interface_sorting_witness :
  Sort (data := counting) (SortTheorems.sample, 0) = Done (tt, ([0; 1; 1; 2; 2; 3; 3; 4; 5; 5; 6; 6; 7; 8; 8; 9], 44)) /\
  leaves (models := fun s l => s.1 = l) (Sort (data := counting)) (SortTheorems.sample, 0)
    (fun l' => l' ≡ₚ SortTheorems.sample /\ (StrictWeak Z.ltb -> sorted_list Z.ltb l')) /\
  leaves (models := fun s l => s.1 = l) (Sort (data := Reverse (data := counting))) (SortTheorems.sample, 0)
    (fun l' => l' ≡ₚ SortTheorems.sample /\ (StrictWeak Z.ltb -> sorted_list (fun x y => Z.ltb y x) l')).
Proof.
  destruct (interface_sorting counting (fun s l => s.1 = l) Z.ltb (SortTheorems.sample, 0) SortTheorems.sample counting_laws)
    as (H1 & _ & _ & H2 & _); [reflexivity|vm_compute; reflexivity|]. split; [vm_compute; reflexivity|]. split; [exact H1|exact H2].
Defined.

(** Numbers with a NaN. *)
Definition nan_lt (x y : option Z) : bool := match x, y with Some x, Some y => x <? y | _, _ => false end.
Definition nan_eq (x y : option Z) : bool := match x, y with Some x, Some y => x =? y | _, _ => false end.
#[local] Instance nan_laws : OrderedLaws nan_lt nan_eq.
Proof.
  split.
  - intros [x|] [y|]; cbn; try done. intros _. unfold isNaN; cbn. by rewrite !Z.eqb_refl.
  - intros [x|]; cbn; [apply Z.ltb_irrefl|done].
  - intros [x|] [y|] [z|]; cbn; try done. rewrite !Z.ltb_lt. lia.
  - intros [x|] [y|]; cbn; try done. rewrite !Z.eqb_eq. lia.
  - intros [x|] [y|] [z|]; cbn; try done. rewrite !Z.eqb_eq. lia.
  - intros [x|] [y|] [z|]; cbn; try done. by intros ->%Z.eqb_eq.
  - intros [x|] [y|]; unfold isNaN; cbn; try done. rewrite !Z.ltb_ge, Z.eqb_eq. lia.
Qed.
Lemma ordered_sorting_witness :
  Sort_ordered nan_lt nan_eq [Some 3; None; Some 1; None] = Done (tt, [None; None; Some 1; Some 3]) /\
  (exists l', Sort_ordered nan_lt nan_eq [Some 3; None; Some 1; None] = Done (tt, l') /\ l' ≡ₚ [Some 3; None; Some 1; None] /\
     sorted_list (cmp_Less nan_lt nan_eq) l') /\
  exists i found, BinarySearch nan_lt nan_eq None [None; None; Some 1] = Done ((i, found), [None; None; Some 1]) /\ 0 <= i <= 3.
Proof.
  split; [vm_compute; reflexivity|]. split.
  - apply (ordered_sorting nan_lt nan_eq _ None nan_laws). vm_compute. reflexivity.
  - destruct (ordered_sorting nan_lt nan_eq [None; None; Some 1] None nan_laws) as [_ H]; [vm_compute; reflexivity|].
    destruct H as (i & found & H1 & H2 & _); [repeat constructor|]. exists i, found. exact (conj H1 H2).
Defined.

