(* ===== verification/Path.v ===== *)
(** * path: slash-separated paths ([path/path.go])

    A path is the list of its bytes.  [Clean] writes to a [lazybuf], the store of its
    computation. *)

From S2P Require Import Prelude.
From S2P Require Import Slice.
From S2P Require Import Text.

Abbreviation slash := (chr "/").
Abbreviation dot := (chr ".").

Record lazybuf : Type := mkLazybuf {
  s : list Z;
  buf : option (list Z);
  w : Z }.

Definition set_w (n : Z) : M lazybuf unit := mmodify (fun b => mkLazybuf (s b) (buf b) n).

Definition index (i : Z) : M lazybuf Z :=
  b <- mget ;;
  match buf b with
  | Some d => sread d i
  | None => sread (s b) i
  end.

(** [b.buf[b.w] = c; b.w++] with the buffer [d]. *)
Definition put_byte (d : list Z) (c : Z) : M lazybuf unit :=
  b <- mget ;;
  if (0 <=? w b) && (w b <? zlen d) then mput (mkLazybuf (s b) (Some (upd d (w b) c)) (w b + 1))
  else mpanic IndexOutOfRange.

Definition append (c : Z) : M lazybuf unit :=
  b <- mget ;;
  match buf b with
  | Some d => put_byte d c
  | None =>
      same <- (if w b <? zlen (s b) then x <- sread (s b) (w b) ;; mret (x =? c) else mret false) ;;
      if (same : bool) then set_w (w b + 1)
      else if zlen (s b) <? w b then mpanic SliceBounds
      else put_byte (take (Z.to_nat (w b)) (s b) ++ replicate (length (s b) - Z.to_nat (w b)) 0) c
  end.

Definition string_ : M lazybuf (list Z) :=
  b <- mget ;;
  let d := match buf b with Some d => d | None => s b end in
  if zlen d <? w b then mpanic SliceBounds else mret (take (Z.to_nat (w b)) d).

(** The cases of the loop of [Clean]: a single dot, and two dots, before a slash or
    the end. *)
Definition dot_at (path : list Z) (n r c : Z) : M lazybuf bool :=
  if c =? dot then
    if r + 1 =? n then mret true else d <- sread path (r + 1) ;; mret (d =? slash)
  else mret false.
Definition dotdot_at (path : list Z) (n r c : Z) : M lazybuf bool :=
  if c =? dot then
    d <- sread path (r + 1) ;;
    if d =? dot then
      if r + 2 =? n then mret true else e <- sread path (r + 2) ;; mret (e =? slash)
    else mret false
  else mret false.

Definition backtrack (dotdot : Z) : M lazybuf unit :=
  b <- mget ;;
  set_w (w b - 1) ;;
  loop (S (Z.to_nat (w b))) (fun _ =>
    b <- mget ;;
    more <- (if w b >? dotdot then x <- index (w b) ;; mret (negb (x =? slash)) else mret false) ;;
    if (more : bool) then (set_w (w b - 1) ;; continue tt) else break tt) tt.

Definition copy_element (path : list Z) (n r : Z) : M lazybuf Z :=
  loop (S (Z.to_nat n)) (fun r =>
    more <- (if r <? n then x <- sread path r ;; mret (negb (x =? slash)) else mret false) ;;
    if (more : bool) then (x <- sread path r ;; append x ;; continue (r + 1)) else break r) r.

Definition clean_step (path : list Z) (n : Z) (rooted : bool) (rd : Z * Z) : M lazybuf (Z * Z + unit) :=
  let '(r, dotdot) := rd in
  if r <? n then
    c <- sread path r ;;
    if c =? slash then continue (r + 1, dotdot)
    else
      is_dot <- dot_at path n r c ;;
      if (is_dot : bool) then continue (r + 1, dotdot)
      else
        is_dotdot <- dotdot_at path n r c ;;
        b <- mget ;;
        if (is_dotdot : bool) then
          let r := r + 2 in
          if w b >? dotdot then (backtrack dotdot ;; continue (r, dotdot))
          else if negb rooted then
            (if w b >? 0 then append slash else mret tt) ;;
            append dot ;;
            append dot ;;
            b <- mget ;;
            continue (r, w b)
          else continue (r, dotdot)
        else
          (if rooted && negb (w b =? 1) || negb rooted && negb (w b =? 0) then append slash else mret tt) ;;
          r <- copy_element path n r ;;
          continue (r, dotdot)
  else break tt.

Definition clean (path : list Z) : M lazybuf (list Z) :=
  c <- sread path 0 ;;
  let rooted := c =? slash in
  let n := zlen path in
  (if rooted then append slash else mret tt) ;;
  loop (S (length path)) (clean_step path n rooted) (if rooted then (1, 1) else (0, 0)) ;;
  b <- mget ;;
  if w b =? 0 then mret (bytes ".") else string_.

Definition Clean (path : list Z) : outcome (list Z) :=
  if decide (path = []) then Done (bytes ".")
  else result (clean path) (mkLazybuf path None 0).

(** [bytealg.LastIndexByteString]: the loop from the end is over the reversed string. *)
Fixpoint last_index (rev : list Z) (c : Z) : Z :=
  match rev with
  | [] => -1
  | x :: t => if x =? c then zlen t else last_index t c
  end.
Definition LastIndexByteString (t : list Z) (c : Z) : Z := last_index (reverse t) c.

Definition Split (path : list Z) : list Z * list Z :=
  let i := LastIndexByteString path slash in
  (take (Z.to_nat (i + 1)) path, drop (Z.to_nat (i + 1)) path).

Definition join_step (buf e : list Z) : list Z :=
  if (0 <? zlen buf) || negb (bool_decide (e = [])) then
    (if 0 <? zlen buf then buf ++ [slash] else buf) ++ e
  else buf.
Definition Join (elem : list (list Z)) : outcome (list Z) :=
  let size := foldl (fun size e => size + zlen e) 0 elem in
  if size =? 0 then Done []
  else Clean (foldl join_step [] elem).

(** [t] is what is left of the path, reversed, and [ext] what was passed. *)
Fixpoint ext_from (t ext : list Z) : list Z :=
  match t with
  | [] => []
  | c :: t => if c =? slash then [] else if c =? dot then c :: ext else ext_from t (c :: ext)
  end.
Definition Ext (path : list Z) : list Z := ext_from (reverse path) [].

(** Trailing slashes, which lead the reversed path. *)
Fixpoint strip (t : list Z) : list Z :=
  match t with
  | c :: t' => if c =? slash then strip t' else t
  | [] => []
  end.
Definition Base (path : list Z) : list Z :=
  if decide (path = []) then bytes "."
  else
    let path := reverse (strip (reverse path)) in
    let i := LastIndexByteString path slash in
    let path := if 0 <=? i then drop (Z.to_nat (i + 1)) path else path in
    if decide (path = []) then bytes "/" else path.

Definition IsAbs (path : list Z) : bool :=
  match path with [] => false | c :: _ => c =? slash end.

Definition Dir (path : list Z) : outcome (list Z) := Clean (Split path).1.
