(* ===== verification/PathTheorems.v ===== *)
(** * path: theorems

    [Clean] against the rules of its comment, read as a function on path elements. *)

From S2P Require Import Prelude.
From S2P Require Import Slice.
From S2P Require Import Text.
From S2P Require Import Path.

(** ** Specification *)

(** The elements between slashes, empty ones included. *)
Fixpoint elements (p : list Z) : list (list Z) :=
  match p with
  | [] => [[]]
  | c :: p =>
      if c =? slash then [] :: elements p
      else match elements p with
           | e :: es => (c :: e) :: es
           | [] => [[c]]
           end
  end.

(** One element after those of [st], the last first. *)
Definition dd : list Z := bytes "..".
Definition add_element (rooted : bool) (st : list (list Z)) (e : list Z) : list (list Z) :=
  if decide (e = []) then st
  else if decide (e = bytes ".") then st
  else if decide (e = dd) then
    match st with
    | t :: st' => if decide (t = dd) then dd :: st else st'
    | [] => if rooted then [] else [dd]
    end
  else e :: st.
Fixpoint rend (rooted : bool) (st : list (list Z)) : list Z :=
  match st with
  | [] => if rooted then [slash] else []
  | e :: st' => rend rooted st' ++ (match st' with [] => [] | _ => [slash] end) ++ e
  end.
Definition normal (p : list Z) : list (list Z) := foldl (add_element (IsAbs p)) [] (elements p).
Definition cleaned (p : list Z) : list Z :=
  let c := rend (IsAbs p) (normal p) in if decide (c = []) then bytes "." else c.

(** ** Elements *)

Definition no_slash (e : list Z) : Prop := slash ∉ e.

Lemma elements_nonempty p : elements p <> [].
Proof. destruct p as [|c p]; cbn; [done|]. destruct (c =? slash); [done|]. by destruct (elements p). Qed.
Lemma elements_no_slash e : no_slash e -> elements e = [e].
Proof.
  unfold no_slash. induction e as [|c e IH]; [done|]. rewrite not_elem_of_cons. intros [H1 H2]. cbn.
  destruct (Z.eqb_spec c slash); [congruence|]. by rewrite IH.
Qed.
Lemma elements_app p e : elements (p ++ slash :: e) = elements p ++ elements e.
Proof.
  induction p as [|c p IH]; [done|]. cbn. destruct (c =? slash); [by rewrite IH|].
  rewrite IH. pose proof (elements_nonempty p). by destruct (elements p).
Qed.
Lemma elements_all p : Forall no_slash (elements p).
Proof.
  induction p as [|c p IH]; cbn; [repeat constructor; apply not_elem_of_nil|].
  destruct (Z.eqb_spec c slash); [constructor; [apply not_elem_of_nil|done]|].
  destruct (elements p) as [|e es].
  - apply Forall_singleton. unfold no_slash. by rewrite list_elem_of_singleton.
  - apply Forall_cons in IH as [H1 H2]. apply Forall_cons. split; [|done]. unfold no_slash in *. rewrite elem_of_cons. naive_solver.
Qed.

(** What follows an element: the end or a slash. *)
Definition at_end (p : list Z) : Prop := p = [] \/ exists t, p = slash :: t.
Lemma foldl_elements rooted e p st : no_slash e -> at_end p ->
  foldl (add_element rooted) st (elements (e ++ p)) = foldl (add_element rooted) (add_element rooted st e) (elements p).
Proof.
  intros He [->|[t ->]].
  - by rewrite app_nil_r, elements_no_slash.
  - rewrite elements_app, elements_no_slash by done. done.
Qed.

(** The elements a normal path has: names, and below them the leading [..] of a path
    that is not rooted. *)
Definition name (e : list Z) : Prop := no_slash e /\ e <> [] /\ e <> bytes "." /\ e <> dd.
Record good (rooted : bool) (es ds : list (list Z)) : Prop := Good {
  good_names : Forall name es;
  good_dots : Forall (fun e => e = dd) ds;
  good_rooted : rooted = true -> ds = [] }.

Definition sep (st : list (list Z)) : list Z := match st with [] => [] | _ => [slash] end.
Lemma rend_cons rooted e st : rend rooted (e :: st) = rend rooted st ++ sep st ++ e.
Proof. done. Qed.

Lemma rend_app_length rooted es st : zlen (rend rooted st) <= zlen (rend rooted (es ++ st)).
Proof.
  induction es as [|e es IH]; [done|]. cbn [app]. rewrite rend_cons, !zlen_app.
  pose proof (zlen_nonneg (sep (es ++ st))). pose proof (zlen_nonneg e). lia.
Qed.
Lemma rend_longer rooted e st : e <> [] -> zlen (rend rooted st) < zlen (rend rooted (e :: st)).
Proof.
  intros He. rewrite rend_cons, !zlen_app. pose proof (zlen_nonneg (sep st)).
  destruct e; [done|]. rewrite zlen_cons. pose proof (zlen_nonneg e). lia.
Qed.
Lemma good_nonempty rooted es ds e : good rooted es ds -> e ∈ es ++ ds -> e <> [].
Proof.
  intros [H1 H2 _] He. apply elem_of_app in He as [He|He].
  - rewrite Forall_forall in H1. by apply H1 in He as (_ & ? & _).
  - rewrite Forall_forall in H2. apply H2 in He as ->. done.
Qed.
(** The text is empty, or the root alone, only without elements. *)
Lemma rend_empty rooted es ds : good rooted es ds -> zlen (rend rooted (es ++ ds)) = zlen (rend rooted []) <-> es ++ ds = [].
Proof.
  intros Hg. split; [|by intros ->]. intros H. destruct (es ++ ds) as [|e st] eqn:E; [done|].
  assert (He : e <> []) by (apply (good_nonempty rooted es ds); [done|rewrite E; by left]).
  pose proof (rend_longer rooted e st He). pose proof (rend_app_length rooted st []) as H2. rewrite app_nil_r in H2. lia.
Qed.

(** ** The buffer *)

Definition data (b : lazybuf) : list Z := match buf b with Some d => d | None => s b end.
(** The buffer for [path] holds [c]. *)
Record has (path c : list Z) (b : lazybuf) : Prop := Has {
  has_s : s b = path;
  has_w : w b = zlen c;
  has_data : exists t, data b = c ++ t;
  has_len : zlen (data b) = zlen path }.

Lemma upd_mid (c : list Z) x y t : upd (c ++ y :: t) (zlen c) x = c ++ x :: t.
Proof. unfold upd, zlen. rewrite Nat2Z.id. replace (length c) with (length c + 0)%nat by lia. by rewrite insert_app_r. Qed.
Lemma take_zlen (c t : list Z) : take (Z.to_nat (zlen c)) (c ++ t) = c.
Proof. unfold zlen. rewrite Nat2Z.id. apply take_app_length. Qed.
Lemma at_mid (c : list Z) y t : at_ (c ++ y :: t) (zlen c) = Some y.
Proof. rewrite at_app_r by lia. by rewrite Z.sub_diag. Qed.

Lemma wp_put_byte (Q : unit -> lazybuf -> Prop) path c b y t x :
  s b = path -> w b = zlen c -> zlen (c ++ y :: t) = zlen path ->
  (forall b', has path (c ++ [x]) b' -> Q tt b') -> wp (put_byte (c ++ y :: t) x) Q b.
Proof.
  intros Hs Hw Hlen HQ. unfold put_byte. apply wp_bind, wp_get. pose proof (mid_range c y t). rewrite Hw.
  destruct (Z.leb_spec 0 (zlen c)); [|lia]. destruct (Z.ltb_spec (zlen c) (zlen (c ++ y :: t))); [|lia]. cbn [andb].
  apply wp_put, HQ. split; cbn [s w buf].
  - done.
  - by rewrite zlen_app.
  - exists t. unfold data. cbn [buf]. by rewrite upd_mid, <- app_assoc.
  - unfold data. cbn [buf]. rewrite upd_mid, <- Hlen, !zlen_app, !zlen_cons. done.
Qed.

Lemma wp_append (Q : unit -> lazybuf -> Prop) path c b x : has path c b -> zlen c < zlen path ->
  (forall b', has path (c ++ [x]) b' -> Q tt b') -> wp (append x) Q b.
Proof.
  intros [Hs Hw [t Ht] Hl] Hlt HQ. rewrite Ht in Hl.
  destruct t as [|y t]; [rewrite app_nil_r in Hl; lia|]. unfold append. apply wp_bind, wp_get. unfold data in Ht.
  destruct (buf b) as [d|] eqn:Hb.
  - rewrite Ht. by apply (wp_put_byte _ path c).
  - rewrite Ht, Hw. pose proof (mid_range c y t). destruct (Z.ltb_spec (zlen c) (zlen (c ++ y :: t))); [|lia].
    apply wp_bind, wp_bind. apply wp_sread. exists y. split; [apply at_mid|]. apply wp_ret. destruct (Z.eqb_spec y x) as [->|].
    + apply wp_modify, HQ. split; cbn [s w buf]; [done|by rewrite zlen_app| |]; unfold data; cbn [buf s]; rewrite Hb, Ht; [exists t; by rewrite <- app_assoc|done].
    + destruct (Z.ltb_spec (zlen (c ++ y :: t)) (zlen c)); [lia|]. rewrite take_zlen.
      assert (E : replicate (length (c ++ y :: t) - Z.to_nat (zlen c)) 0 = 0 :: replicate (length t) 0).
      { rewrite length_app. cbn [length]. unfold zlen. rewrite Nat2Z.id. by replace (length c + S (length t) - length c)%nat with (S (length t)) by lia. }
      rewrite E. apply (wp_put_byte _ path c); [done|done| |done]. rewrite <- Hl, !zlen_app, !zlen_cons, zlen_replicate. done.
Qed.

Lemma wp_string (Q : list Z -> lazybuf -> Prop) path c b : has path c b -> Q c b -> wp string_ Q b.
Proof.
  intros [Hs Hw [t Ht] Hl] HQ. unfold string_. apply wp_bind, wp_get. cbv zeta. fold (data b). rewrite Ht, Hw.
  rewrite zlen_app. pose proof (zlen_nonneg t). destruct (Z.ltb_spec (zlen c + zlen t) (zlen c)); [lia|]. apply wp_ret. by rewrite take_zlen.
Qed.

(** ** Backtracking *)

Lemma wp_index (Q : Z -> lazybuf -> Prop) b i x : at_ (data b) i = Some x -> Q x b -> wp (index i) Q b.
Proof.
  unfold data, index. intros Hx HQ. apply wp_bind, wp_get. destruct (buf b); apply wp_sread; eauto.
Qed.

Definition back_step (dotdot : Z) (_ : unit) : M lazybuf (unit + unit) :=
  b <- mget ;;
  more <- (if w b >? dotdot then x <- index (w b) ;; mret (negb (x =? slash)) else mret false) ;;
  if (more : bool) then (set_w (w b - 1) ;; continue tt) else break tt.

Definition set (b : lazybuf) (n : Z) : lazybuf := mkLazybuf (s b) (buf b) n.

(** The scan stops after [base], which a slash or nothing separates from the element. *)
Lemma wp_back_stop dotdot base sp x t b fuel : data b = base ++ sp ++ x :: t -> w b = zlen (base ++ sp) -> x <> slash ->
  dotdot <= zlen base -> (sp = [] /\ dotdot = zlen base) \/ sp = [slash] -> (1 < fuel)%nat ->
  wp (loop fuel (back_step dotdot) tt) (fun _ b' => b' = set b (zlen base)) b.
Proof.
  intros Hd Hw Hx Hdd Hsp Hf. destruct fuel as [|[|fuel]]; [lia..|]. apply wp_loop_S. unfold back_step at 1.
  apply wp_bind, wp_get. destruct Hsp as [[-> ->]| ->].
  - rewrite app_nil_r in Hw. rewrite Hw, Z.gtb_ltb, Z.ltb_irrefl. apply wp_bind, wp_ret, wp_break.
    unfold set. rewrite <- Hw. by destruct b.
  - rewrite Hw, zlen_app. change (zlen [slash]) with 1. destruct (Z.gtb_spec (zlen base + 1) dotdot); [|lia].
    apply wp_bind, wp_bind. eapply (wp_index _ b _ x).
    { rewrite Hd, app_assoc. replace (zlen base + 1) with (zlen (base ++ [slash])) by (by rewrite zlen_app). apply at_mid. }
    apply wp_ret. destruct (Z.eqb_spec x slash); [done|]. cbn [negb]. apply wp_bind, wp_modify. apply wp_continue. cbn beta iota.
    replace (zlen base + 1 - 1) with (zlen base) by lia. apply wp_loop_S. unfold back_step.
    apply wp_bind, wp_get. cbn [w]. eapply (wp_call _ _ (fun more b' => more = false /\ b' = set b (zlen base))).
    { destruct (zlen base >? dotdot); [|by apply wp_ret]. apply wp_bind. eapply (wp_index _ _ _ slash); [|by apply wp_ret].
      change (data (mkLazybuf (s b) (buf b) (zlen base))) with (data b). rewrite Hd. apply at_mid. }
    intros more b' [-> ->]. by apply wp_break.
Qed.

Lemma wp_back_loop dotdot base sp e : forall x t b fuel, no_slash (e ++ [x]) ->
  data b = base ++ sp ++ e ++ x :: t -> w b = zlen (base ++ sp ++ e) ->
  dotdot <= zlen base -> (sp = [] /\ dotdot = zlen base) \/ sp = [slash] -> (length e + 1 < fuel)%nat ->
  wp (loop fuel (back_step dotdot) tt) (fun _ b' => b' = set b (zlen base)) b.
Proof.
  unfold no_slash. induction e as [|y e IH] using rev_ind; intros x t b fuel Hns Hd Hw Hdd Hsp Hf.
  - rewrite app_nil_r in Hw. eapply wp_back_stop; [exact Hd|done| |done..]. intros ->. set_solver.
  - destruct fuel as [|fuel]; [lia|]. apply wp_loop_S. unfold back_step at 1. apply wp_bind, wp_get.
    rewrite !app_assoc, zlen_app in Hw. change (zlen [y]) with 1 in Hw. rewrite Hw.
    assert (zlen base <= zlen ((base ++ sp) ++ e)) by (rewrite !zlen_app; pose proof (zlen_nonneg sp); pose proof (zlen_nonneg e); lia).
    destruct (Z.gtb_spec (zlen ((base ++ sp) ++ e) + 1) dotdot); [|lia]. apply wp_bind, wp_bind. eapply (wp_index _ b _ x).
    { rewrite Hd, !app_assoc. replace (zlen ((base ++ sp) ++ e) + 1) with (zlen (((base ++ sp) ++ e) ++ [y])) by (by rewrite zlen_app). apply at_mid. }
    apply wp_ret. destruct (Z.eqb_spec x slash) as [->|]; [set_solver|]. cbn [negb]. apply wp_bind, wp_modify. apply wp_continue. cbn beta iota.
    rewrite length_app in Hf. cbn in Hf.
    eapply wp_mono; [apply (IH y (x :: t)); cbn [w]; [set_solver| | |done|done|lia]|].
    + change (data (mkLazybuf (s b) (buf b) (zlen ((base ++ sp) ++ e) + 1 - 1))) with (data b). rewrite Hd. by rewrite <- !app_assoc.
    + rewrite <- app_assoc. lia.
    + by intros [] b' ->.
Qed.

Lemma wp_backtrack (Q : unit -> lazybuf -> Prop) path dotdot base sp e b : has path (base ++ sp ++ e) b -> no_slash e -> e <> [] ->
  dotdot <= zlen base -> (sp = [] /\ dotdot = zlen base) \/ sp = [slash] ->
  (forall b', has path base b' -> Q tt b') -> wp (backtrack dotdot) Q b.
Proof.
  intros [Hs Hw [t Ht] Hl] Hns Hne Hdd Hsp HQ. destruct e as [|x e _] using rev_ind; [done|].
  unfold backtrack. apply wp_bind, wp_get. apply wp_bind, wp_modify. fold (back_step dotdot).
  eapply wp_mono; [apply (wp_back_loop dotdot base sp e x t); [done| | |done|done|]|].
  - change (data (mkLazybuf (s b) (buf b) (w b - 1))) with (data b). rewrite Ht. by rewrite <- !app_assoc.
  - cbn [w]. rewrite Hw, !app_assoc, zlen_app. change (zlen [x]) with 1. lia.
  - rewrite Hw. unfold zlen. rewrite !length_app. cbn [length]. lia.
  - intros [] b' ->. apply HQ. split; cbn [s w set]; [done|done| |done]. exists (sp ++ (e ++ [x]) ++ t).
    change (data (set _ _)) with (data b). rewrite Ht. by rewrite <- !app_assoc.
Qed.

(** ** The loop of [Clean] *)

Lemma wp_append_slash_if (Q : unit -> lazybuf -> Prop) path c b (g : bool) : has path c b -> (g = true -> zlen c < zlen path) ->
  (forall b', has path (c ++ (if g then [slash] else [])) b' -> Q tt b') -> wp (if g then append slash else mret tt) Q b.
Proof.
  intros Hb Hc HQ. destruct g; [by eapply wp_append; eauto|]. apply wp_ret, HQ. by rewrite app_nil_r.
Qed.

Lemma wp_copy_element path n e : forall pre rest c b fuel, n = zlen path -> path = pre ++ e ++ rest -> no_slash e -> at_end rest -> has path c b ->
  zlen c <= zlen pre -> (length e < fuel)%nat ->
  wp (loop fuel (fun r =>
    more <- (if r <? n then x <- sread path r ;; mret (negb (x =? slash)) else mret false) ;;
    if (more : bool) then (x <- sread path r ;; append x ;; continue (r + 1)) else break r) (zlen pre))
    (fun r b' => r = zlen (pre ++ e) /\ has path (c ++ e) b') b.
Proof.
  unfold no_slash. induction e as [|x e IH]; intros pre rest c b [|fuel] Hn Hp Hns Hend Hb Hle Hf; cbn in Hf; [lia| |lia|]; apply wp_loop_S.
  - cbn [app] in Hp. eapply (wp_call _ _ (fun more b' => more = false /\ b' = b)).
    { destruct (Z.ltb_spec (zlen pre) n); [|by apply wp_ret]. destruct Hend as [->|[t ->]].
      - rewrite Hn, Hp, app_nil_r in *. lia.
      - apply wp_bind, wp_sread. exists slash. split; [rewrite Hp; apply at_mid|]. by apply wp_ret. }
    intros more b' [-> ->]. apply wp_break. by rewrite !app_nil_r.
  - assert (Hx : at_ path (zlen pre) = Some x) by (rewrite Hp; apply at_mid). pose proof (mid_range pre x (e ++ rest)) as Hr.
    assert (Hp' : path = pre ++ x :: e ++ rest) by done. rewrite <- Hp', <- Hn in Hr.
    destruct (Z.ltb_spec (zlen pre) n); [|lia]. apply wp_bind, wp_bind, wp_sread. exists x. split; [done|]. apply wp_ret.
    rewrite not_elem_of_cons in Hns. destruct Hns as [Hxs Hns]. destruct (Z.eqb_spec x slash); [congruence|]. cbn [negb].
    apply wp_bind, wp_sread. exists x. split; [done|]. apply wp_bind. eapply wp_append; [exact Hb|lia|]. intros b' Hb'. apply wp_continue. cbn beta iota.
    replace (zlen pre + 1) with (zlen (pre ++ [x])) by (by rewrite zlen_app).
    eapply wp_mono; [apply (IH (pre ++ [x]) rest (c ++ [x]) b' fuel Hn); [by rewrite <- app_assoc|done|done|done| |lia]|].
    + rewrite !zlen_app. change (zlen [x]) with 1. lia.
    + intros r b2. by rewrite <- !app_assoc.
Qed.

Section Clean.
Context (path : list Z).
Notation rooted := (IsAbs path).
Notation n := (zlen path).

Record inv (pre rest : list Z) (es ds : list (list Z)) (dotdot : Z) (b : lazybuf) : Prop := Inv {
  inv_path : path = pre ++ rest;
  inv_good : good rooted es ds;
  inv_has : has path (rend rooted (es ++ ds)) b;
  inv_dotdot : dotdot = zlen (rend rooted ds);
  inv_fold : foldl (add_element rooted) (es ++ ds) (elements rest) = normal path;
  inv_room : zlen (rend rooted (es ++ ds)) <= zlen pre;
  inv_start : at_end rest \/ es ++ ds = [] \/ zlen (rend rooted (es ++ ds)) < zlen pre }.

Definition invariant (rd : Z * Z) (b : lazybuf) : Prop :=
  exists pre rest es ds, rd.1 = zlen pre /\ inv pre rest es ds rd.2 b.

Definition after (r : Z) (res : Z * Z + unit) (b : lazybuf) : Prop :=
  match res with
  | inl rd => invariant rd b /\ r < rd.1 <= n
  | inr _ => has path (rend rooted (normal path)) b /\ exists es ds, good rooted es ds /\ normal path = es ++ ds
  end.

(** The rest of the path is at its end, or is an element and what follows it. *)
Lemma span_element (rest : list Z) : exists e t, rest = e ++ t /\ no_slash e /\ at_end t.
Proof.
  induction rest as [|c rest (e & t & -> & He & Ht)]; [exists [], []; repeat split; [apply not_elem_of_nil|by left]|].
  destruct (decide (c = slash)) as [->|Hc].
  - exists [], (slash :: e ++ t). repeat split; [apply not_elem_of_nil|right; eauto].
  - exists (c :: e), t. split; [done|]. split; [|done]. unfold no_slash in *. rewrite elem_of_cons. naive_solver.
Qed.

Lemma after_skip pre rest es ds dotdot b e t : inv pre rest es ds dotdot b -> rest = e ++ t -> e <> [] ->
  foldl (add_element rooted) (es ++ ds) (elements t) = normal path -> at_end t \/ zlen (rend rooted (es ++ ds)) < zlen (pre ++ e) ->
  after (zlen pre) (inl (zlen (pre ++ e), dotdot)) b.
Proof.
  intros [H1 H2 H3 H4 H5 H6 H7] -> Hne Hf Hst. pose proof (zlen_nonneg t). pose proof (zlen_nonneg e).
  assert (0 < zlen e) by (destruct e; [done|rewrite zlen_cons; pose proof (zlen_nonneg e); lia]). split.
  - exists (pre ++ e), t, es, ds. split; [done|]. split; [by rewrite <- app_assoc|done..| |tauto]. rewrite zlen_app. lia.
  - cbn. rewrite H1, !zlen_app. lia.
Qed.

#[local] Instance at_end_dec t : Decision (at_end t).
Proof.
  destruct t as [|c t]; [left; by left|]. destruct (decide (c = slash)) as [->|Hc]; [left; right; eauto|].
  right. intros [?|[? ?]]; congruence.
Defined.

Lemma wp_ends (Q : bool -> lazybuf -> Prop) p t b : path = p ++ t -> Q (bool_decide (at_end t)) b ->
  wp (if zlen p =? n then mret true else d <- sread path (zlen p) ;; mret (d =? slash)) Q b.
Proof.
  intros Hp HQ. destruct t as [|c t].
  - rewrite Hp, app_nil_r, Z.eqb_refl. rewrite bool_decide_true in HQ by (by left). by apply wp_ret.
  - pose proof (mid_range p c t) as Hr. rewrite <- Hp in Hr. destruct (Z.eqb_spec (zlen p) n); [lia|].
    apply wp_bind, wp_sread. exists c. split; [rewrite Hp; apply at_mid|]. apply wp_ret.
    assert (E : (c =? slash) = bool_decide (at_end (c :: t))); [|by rewrite E].
    destruct (Z.eqb_spec c slash) as [->|Hc]; symmetry; [apply bool_decide_true; right; eauto|].
    apply bool_decide_false. intros [?|[? ?]]; congruence.
Qed.

Lemma no_slash_app e t : no_slash e -> at_end (e ++ t) -> e = [] .
Proof.
  unfold no_slash. destruct e as [|x e]; [done|]. rewrite not_elem_of_cons. intros [Hx _] [?|[t' E]]; [done|].
  injection E as -> _. done.
Qed.

Lemma wp_dot_at (Q : bool -> lazybuf -> Prop) pre x e t b : path = pre ++ (x :: e) ++ t -> no_slash (x :: e) -> at_end t ->
  Q (bool_decide (x :: e = bytes ".")) b -> wp (dot_at path n (zlen pre) x) Q b.
Proof.
  intros Hp Hns Ht HQ. unfold dot_at. destruct (Z.eqb_spec x dot) as [->|Hx].
  - replace (zlen pre + 1) with (zlen (pre ++ [dot])) by (by rewrite zlen_app). apply (wp_ends _ _ (e ++ t)); [by rewrite Hp, <- app_assoc|].
    assert (E : bool_decide (at_end (e ++ t)) = bool_decide (dot :: e = bytes ".")); [|by rewrite E].
    apply bool_decide_ext. unfold no_slash in Hns. rewrite not_elem_of_cons in Hns. destruct Hns as [_ Hns]. split.
    + intros H%no_slash_app; [by subst e|done].
    + intros [= ->]. done.
  - apply wp_ret. rewrite bool_decide_false in HQ by (intros [= -> _]; done). done.
Qed.

Lemma wp_dotdot_at (Q : bool -> lazybuf -> Prop) pre x e t b : path = pre ++ (x :: e) ++ t -> no_slash (x :: e) -> at_end t ->
  x :: e <> bytes "." -> Q (bool_decide (x :: e = dd)) b -> wp (dotdot_at path n (zlen pre) x) Q b.
Proof.
  intros Hp Hns Ht Hnd HQ. unfold dotdot_at. unfold no_slash in Hns. rewrite not_elem_of_cons in Hns. destruct Hns as [_ Hns].
  destruct (Z.eqb_spec x dot) as [->|Hx].
  - destruct e as [|y e]; [done|]. replace (zlen pre + 1) with (zlen (pre ++ [dot])) by (by rewrite zlen_app).
    apply wp_bind, wp_sread. exists y. split; [rewrite Hp, <- app_comm_cons, cons_middle, app_assoc; apply at_mid|].
    rewrite not_elem_of_cons in Hns. destruct Hns as [_ Hns]. destruct (Z.eqb_spec y dot) as [->|Hy].
    + replace (zlen pre + 2) with (zlen (pre ++ [dot; dot])) by (by rewrite zlen_app). apply (wp_ends _ _ (e ++ t)); [by rewrite Hp, <- app_assoc|].
      assert (E : bool_decide (at_end (e ++ t)) = bool_decide (dot :: dot :: e = dd)); [|by rewrite E].
      apply bool_decide_ext. split; [intros H%no_slash_app; [by subst e|done]|intros [= ->]; done].
    + apply wp_ret. rewrite bool_decide_false in HQ by (intros [= -> _]; done). done.
  - apply wp_ret. rewrite bool_decide_false in HQ by (intros [= -> _]; done). done.
Qed.

Lemma not_at_end x e t : no_slash (x :: e) -> ~ at_end ((x :: e) ++ t).
Proof. intros Hns H%no_slash_app; [done|exact Hns]. Qed.

(** Two dots, with an element to remove and without. *)
Lemma step_pop pre x e t e1 es ds dotdot b : inv pre ((x :: e) ++ t) (e1 :: es) ds dotdot b -> at_end t -> x :: e = dd ->
  wp (backtrack dotdot ;; continue (zlen pre + 2, dotdot)) (after (zlen pre)) b.
Proof.
  intros [H1 H2 H3 H4 H5 H6 H7] Ht Hdd. pose proof H2 as [G1 G2 G3]. apply Forall_cons in G1 as [(N1 & N2 & N3 & N4) G1].
  cbn [app] in H3, H6. rewrite rend_cons in H3, H6. apply wp_bind.
  assert (Hle : dotdot <= zlen (rend rooted (es ++ ds))) by (rewrite H4; apply rend_app_length).
  apply (wp_backtrack _ path dotdot (rend rooted (es ++ ds)) (sep (es ++ ds)) e1); [done|done|done|done| |].
  { destruct (es ++ ds) as [|z st] eqn:E; [left|by right]. split; [done|]. apply app_eq_nil in E as [-> ->]. done. }
  intros b' Hb'. apply wp_continue.
  assert (Hz : zlen (x :: e) = 2) by (rewrite Hdd; done). split.
  - exists (pre ++ x :: e), t, es, ds. cbn [fst snd]. split; [rewrite zlen_app; lia|]. split; [by rewrite <- app_assoc|done|done|done| | |by left].
    + rewrite foldl_elements in H5; [|rewrite Hdd; unfold no_slash; vm_compute; set_solver|done]. rewrite Hdd in H5. cbn [app] in H5.
      unfold add_element at 2 in H5. rewrite !decide_False, decide_True, decide_False in H5 by done. done.
    + rewrite !zlen_app in *. pose proof (zlen_nonneg (sep (es ++ ds))). pose proof (zlen_nonneg e1). lia.
  - cbn. rewrite H1, !zlen_app. pose proof (zlen_nonneg t). lia.
Qed.

Lemma rend_unrooted_pos rt ds : rt = false -> Forall (fun e => e = dd) ds -> (0 <? zlen (rend rt ds)) = negb (bool_decide (ds = [])).
Proof.
  intros -> H. destruct ds as [|d ds]; [done|]. apply Forall_cons in H as [-> _]. rewrite bool_decide_false by done.
  pose proof (rend_longer false dd ds ltac:(done)). pose proof (zlen_nonneg (rend false ds)). destruct (Z.ltb_spec 0 (zlen (rend false (dd :: ds)))); [done|lia].
Qed.

Lemma step_dots pre x e t ds dotdot b : inv pre ((x :: e) ++ t) [] ds dotdot b -> at_end t -> x :: e = dd -> no_slash (x :: e) -> rooted = false ->
  wp ((if w b >? 0 then append slash else mret tt) ;; append dot ;; append dot ;; b <- mget ;; continue (zlen pre + 2, w b)) (after (zlen pre)) b.
Proof.
  intros [H1 H2 H3 H4 H5 H6 H7] Ht Hdd Hns Hroot. cbn [app] in *. pose proof H2 as [_ G2 _].
  assert (Hz : zlen (x :: e) = 2) by (rewrite Hdd; done).
  assert (Hpath : zlen pre + 2 <= n) by (rewrite H1, zlen_app, app_comm_cons, zlen_app; pose proof (zlen_nonneg t); lia).
  assert (Hroom : zlen (rend rooted ds ++ sep ds) <= zlen pre).
  { rewrite zlen_app. destruct H7 as [H7|[->|H7]]; [by apply not_at_end in H7|by rewrite Hroot; apply zlen_nonneg|]. destruct ds; cbn [sep]; change (zlen [slash]) with 1; [change (zlen (@nil Z)) with 0|]; lia. }
  rewrite (has_w _ _ _ H3), Z.gtb_ltb, (rend_unrooted_pos rooted ds Hroot G2).
  assert (Hsep : sep ds = if negb (bool_decide (ds = [])) then [slash] else []) by (by destruct ds).
  apply wp_bind. eapply wp_append_slash_if; [exact H3| |].
  { intros Hg. rewrite zlen_app, Hsep, Hg in Hroom. change (zlen [slash]) with 1 in Hroom. lia. }
  rewrite <- Hsep. intros b1 Hb1. apply wp_bind. eapply wp_append; [exact Hb1|lia|]. intros b2 Hb2.
  apply wp_bind. eapply wp_append; [exact Hb2|rewrite zlen_app; change (zlen [dot]) with 1; lia|]. intros b3 Hb3.
  apply wp_bind, wp_get. apply wp_continue.
  assert (Er : ((rend rooted ds ++ sep ds) ++ [dot]) ++ [dot] = rend rooted (dd :: ds)) by (rewrite rend_cons, <- !app_assoc; done).
  rewrite Er in Hb3. split.
  - exists (pre ++ x :: e), t, [], (dd :: ds). cbn [fst snd app]. split; [rewrite zlen_app; lia|].
    split; [by rewrite <- app_assoc| |done|exact (has_w _ _ _ Hb3)| | |by left].
    + destruct H2 as [F1 F2 F3]. split; [done|by constructor|rewrite Hroot; done].
    + rewrite app_comm_cons, foldl_elements in H5 by done. rewrite Hdd in H5. rewrite <- H5. f_equal.
      destruct ds as [|d ds]; unfold add_element; cbn -[dd].
      * by rewrite Hroot.
      * apply Forall_cons in G2 as [-> _]. done.
    + cbn [app]. rewrite <- Er, !zlen_app. rewrite zlen_app in Hroom. rewrite Hz. change (zlen [dot]) with 1. lia.
  - cbn. lia.
Qed.

(** A name is copied. *)
Lemma step_name pre x e t es ds dotdot b : inv pre ((x :: e) ++ t) es ds dotdot b -> at_end t -> name (x :: e) ->
  wp ((if rooted && negb (w b =? 1) || negb rooted && negb (w b =? 0) then append slash else mret tt) ;;
      r <- copy_element path n (zlen pre) ;; continue (r, dotdot)) (after (zlen pre)) b.
Proof.
  intros [H1 H2 H3 H4 H5 H6 H7] Ht Hn. pose proof Hn as (Hns & Hne & Hn1 & Hn2).
  assert (Hg : rooted && negb (w b =? 1) || negb rooted && negb (w b =? 0) = negb (bool_decide (es ++ ds = []))).
  { pose proof (rend_empty rooted es ds H2) as He. rewrite (has_w _ _ _ H3).
    assert (E : (if rooted then 1 else 0) = zlen (rend rooted [])) by (by destruct rooted).
    destruct rooted; cbn [andb orb negb]; rewrite ?orb_false_r, E; f_equal; apply eq_true_iff_eq; rewrite Z.eqb_eq, bool_decide_eq_true; exact He. }
  rewrite Hg. assert (Hsep : sep (es ++ ds) = if negb (bool_decide (es ++ ds = [])) then [slash] else []) by (by destruct (es ++ ds)).
  assert (Hroom : zlen (rend rooted (es ++ ds) ++ sep (es ++ ds)) <= zlen pre).
  { rewrite zlen_app. destruct H7 as [H7|[E|H7]]; [by apply not_at_end in H7|rewrite E in *; cbn [sep]; change (zlen (@nil Z)) with 0; lia|].
    destruct (es ++ ds); cbn [sep]; [change (zlen (@nil Z)) with 0|change (zlen [slash]) with 1]; lia. }
  assert (Hpath : zlen pre + zlen (x :: e) + zlen t = n) by (rewrite H1, !zlen_app; lia).
  assert (0 < zlen (x :: e)) by (rewrite zlen_cons; pose proof (zlen_nonneg e); lia). pose proof (zlen_nonneg t).
  apply wp_bind. eapply wp_append_slash_if; [exact H3| |].
  { intros Hg'. rewrite zlen_app, Hsep, Hg' in Hroom. change (zlen [slash]) with 1 in Hroom. lia. }
  rewrite <- Hsep. intros b1 Hb1. unfold copy_element.
  eapply wp_call; [apply (wp_copy_element path n (x :: e) pre t (rend rooted (es ++ ds) ++ sep (es ++ ds)) b1); [done|exact H1|done|done|exact Hb1|exact Hroom|]|].
  { unfold zlen in *. lia. }
  intros r b2 [-> Hb2]. apply wp_continue. rewrite <- app_assoc in Hb2. split.
  - exists (pre ++ x :: e), t, ((x :: e) :: es), ds. cbn [fst snd]. split; [done|].
    split; [by rewrite <- app_assoc| |exact Hb2|done| | |by left].
    + destruct H2 as [F1 F2 F3]. split; [by constructor|done|done].
    + assert (E : add_element rooted (es ++ ds) (x :: e) = (x :: e) :: es ++ ds) by (unfold add_element; by rewrite !decide_False).
      by rewrite <- H5, foldl_elements, E.
    + cbn [app]. rewrite rend_cons, app_assoc, !zlen_app in *. lia.
  - cbn [fst]. rewrite zlen_app. lia.
Qed.

Lemma wp_clean_step r dotdot b : invariant (r, dotdot) b ->
  wp (clean_step path n rooted (r, dotdot)) (after r) b.
Proof.
  intros (pre & rest & es & ds & Hr & HI). cbn [fst snd] in *. subst r. pose proof HI as [H1 H2 H3 H4 H5 H6 H7].
  unfold clean_step. destruct (span_element rest) as (e & t & -> & Hns & Ht).
  destruct (Z.ltb_spec (zlen pre) n) as [Hlt|Hge].
  2: { assert (e ++ t = []) as E by (apply zlen_zero; rewrite H1, zlen_app in Hge; pose proof (zlen_nonneg (e ++ t)); lia).
    rewrite E in H5. cbn in H5. apply wp_break. cbn. rewrite <- H5. split; [done|by exists es, ds]. }
  destruct e as [|x e].
  - destruct Ht as [->|[t' ->]]; [rewrite H1, app_nil_r in Hlt; lia|]. apply wp_bind, wp_sread. exists slash.
    split; [rewrite H1; apply at_mid|]. rewrite Z.eqb_refl. apply wp_continue.
    replace (zlen pre + 1) with (zlen (pre ++ [slash])) by (by rewrite zlen_app).
    eapply after_skip; [exact HI|done|done|done|right]. rewrite zlen_app. change (zlen [slash]) with 1. lia.
  - apply wp_bind, wp_sread. exists x. split; [rewrite H1; apply at_mid|].
    assert (Hx : x <> slash) by (intros ->; apply Hns; by left). destruct (Z.eqb_spec x slash); [done|].
    apply wp_bind. apply (wp_dot_at _ pre x e t); [done..|]. case_bool_decide as Hd.
    { apply wp_continue. replace (zlen pre + 1) with (zlen (pre ++ x :: e)) by (by rewrite Hd, zlen_app).
      eapply after_skip; [exact HI|done|done| |by left]. rewrite <- H5, foldl_elements by done. f_equal.
      rewrite Hd. unfold add_element. by rewrite decide_False, decide_True. }
    apply wp_bind. apply (wp_dotdot_at _ pre x e t); [done..|]. apply wp_bind, wp_get. case_bool_decide as Hdd.
    + cbv zeta. assert (Hcmp : (w b >? dotdot) = negb (bool_decide (es = []))).
      { rewrite (has_w _ _ _ H3), H4, Z.gtb_ltb. destruct es as [|e1 es]; [apply Z.ltb_irrefl|].
        assert (He1 : e1 <> []) by (apply (good_nonempty rooted (e1 :: es) ds); [done|by left]).
        pose proof (rend_longer rooted e1 (es ++ ds) He1). pose proof (rend_app_length rooted es ds). apply Z.ltb_lt. cbn [app]. lia. }
      rewrite Hcmp. destruct es as [|e1 es]; [|by eapply step_pop].
      assert (Hc : rooted = true \/ rooted = false) by (destruct rooted; auto). cbn [bool_decide decide negb]. destruct Hc as [Hroot|Hroot]; rewrite Hroot.
      * apply wp_continue. replace (zlen pre + 2) with (zlen (pre ++ x :: e)) by (by rewrite Hdd, zlen_app).
        eapply after_skip; [exact HI|done|done| |by left].
        rewrite <- H5, foldl_elements by done. f_equal. pose proof (good_rooted _ _ _ H2 Hroot) as ->. rewrite Hdd. cbn. by rewrite Hroot.
      * by eapply step_dots.
    + eapply step_name; [exact HI|done|by split].
Qed.

Lemma wp_clean_loop rd b fuel : invariant rd b -> 0 <= rd.1 <= n -> (Z.to_nat (n - rd.1) < fuel)%nat ->
  wp (loop fuel (clean_step path n rooted) rd)
     (fun _ b' => has path (rend rooted (normal path)) b' /\ exists es ds, good rooted es ds /\ normal path = es ++ ds) b.
Proof.
  intros HI Hr Hf. apply (wp_loop (fun rd b => invariant rd b /\ 0 <= rd.1 <= n) (fun rd => Z.to_nat (n - rd.1))); [done|done|].
  intros [r dotdot] b' [HI' Hr']. eapply wp_mono; [by apply wp_clean_step|]. intros [[r' d']|[]] b2; cbn in *; [|done].
  intros [H1 H2]. split; [split; [done|lia]|lia].
Qed.

End Clean.

Lemma wp_clean path : path <> [] -> wp (clean path) (fun c _ => c = cleaned path) (mkLazybuf path None 0).
Proof.
  intros Hne. unfold clean. assert (exists c0 p0, path = c0 :: p0) as (c0 & p0 & Ep) by (destruct path; [done|eauto]).
  apply wp_bind, wp_sread. exists c0. split; [by rewrite Ep|].
  assert (Hroot : (c0 =? slash) = IsAbs path) by (by rewrite Ep). rewrite Hroot. cbv zeta.
  assert (H0 : has path [] (mkLazybuf path None 0)) by (split; cbn; [done|done|by exists path|done]).
  assert (Hn : zlen p0 + 1 = zlen path) by (rewrite Ep, zlen_cons; lia). pose proof (zlen_nonneg p0).
  eapply (wp_call _ _ (fun _ b => invariant path (if IsAbs path then (1, 1) else (0, 0)) b)).
  { apply (wp_append_slash_if _ path []); [done|change (zlen (@nil Z)) with 0; lia|]. intros b' Hb'. cbn [app] in Hb'.
    destruct (decide (IsAbs path = true)) as [E|E%not_true_is_false].
    - rewrite E in *. apply Z.eqb_eq in Hroot as ->. exists [slash], p0, [], []. split; [done|].
      split; cbn -[slash]; rewrite ?E; [done|done|done|done| |change (zlen [slash]) with 1; lia|by right; left].
      unfold normal. rewrite E. replace (elements path) with ([] :: elements p0) by (by rewrite Ep). done.
    - rewrite E in *. exists [], path, [], []. split; [done|].
      split; cbn; rewrite ?E; [done|done|done|done|unfold normal; by rewrite E|done|by right; left]. }
  intros _ b HI. eapply wp_call; [apply wp_clean_loop; [exact HI|destruct (IsAbs path); cbn; lia|unfold zlen in *; destruct (IsAbs path); cbn; lia]|].
  intros _ b2 (Hb2 & _). apply wp_bind, wp_get. rewrite (has_w _ _ _ Hb2). unfold cleaned. cbv zeta. case_decide as Hz.
  - rewrite Hz. by apply wp_ret.
  - destruct (Z.eqb_spec (zlen (rend (IsAbs path) (normal path))) 0) as [E|_]; [by apply zlen_zero in E|]. by eapply wp_string.
Qed.

Lemma Clean_cleaned path : Clean path = Done (cleaned path).
Proof.
  unfold Clean. case_decide as Hne; [by subst path|]. by destruct (wp_result _ _ _ (wp_clean path Hne)) as (c & -> & ->).
Qed.

(** ** Normal paths *)

Lemma add_good rooted es ds e : good rooted es ds -> no_slash e -> exists es' ds', good rooted es' ds' /\ add_element rooted (es ++ ds) e = es' ++ ds'.
Proof.
  intros [H1 H2 H3] He. unfold add_element. case_decide; [by exists es, ds|]. case_decide; [by exists es, ds|]. case_decide.
  - destruct es as [|e1 es]; cbn [app].
    + destruct ds as [|d ds]; [destruct rooted; [by exists [], []|exists [], [dd]; split; [split; [done|by repeat constructor|done]|done]]|].
      pose proof H2 as [-> H2']%Forall_cons. rewrite decide_True by done. exists [], (dd :: dd :: ds). split; [|done].
      split; [done|by constructor|]. intros E. by apply H3 in E.
    + apply Forall_cons in H1 as [(_ & _ & _ & Hd) H1]. rewrite decide_False by done. exists es, ds. split; [by split|done].
  - exists (e :: es), ds. split; [|done]. split; [by constructor; [split|]|done|done].
Qed.
Lemma foldl_good rooted l : forall es ds, good rooted es ds -> Forall no_slash l ->
  exists es' ds', good rooted es' ds' /\ foldl (add_element rooted) (es ++ ds) l = es' ++ ds'.
Proof.
  induction l as [|e l IH]; intros es ds Hg Hl; [by exists es, ds|]. apply Forall_cons in Hl as [He Hl]. cbn [foldl].
  destruct (add_good rooted es ds e Hg He) as (es' & ds' & Hg' & ->). by apply IH.
Qed.
Lemma normal_good p : exists es ds, good (IsAbs p) es ds /\ normal p = es ++ ds.
Proof. apply (foldl_good _ _ [] []); [by split|apply elements_all]. Qed.

Lemma fold_rend_cons rooted e st : no_slash e ->
  foldl (add_element rooted) [] (elements (rend rooted (e :: st))) = add_element rooted (foldl (add_element rooted) [] (elements (rend rooted st))) e.
Proof.
  intros He. rewrite rend_cons. destruct st as [|e' st]; cbn [sep].
  - cbn [rend app]. destruct rooted; cbn [app]; [|by rewrite elements_no_slash].
    change (slash :: e) with ([] ++ slash :: e). by rewrite elements_app, (elements_no_slash e).
  - cbn [app]. by rewrite elements_app, (elements_no_slash e), foldl_app.
Qed.
Lemma fold_rend rooted es ds : good rooted es ds -> foldl (add_element rooted) [] (elements (rend rooted (es ++ ds))) = es ++ ds.
Proof.
  intros [H1 H2 H3]. induction H1 as [|e es (Hn & N1 & N2 & N3) H1 IH]; cbn [app].
  - induction H2 as [|d ds -> H2 IH]; [by destruct rooted|].
    assert (rooted = false) as Hr by (destruct rooted; [by specialize (H3 eq_refl)|done]).
    rewrite fold_rend_cons by (unfold no_slash; vm_compute; set_solver). rewrite IH by (by rewrite Hr). rewrite Hr.
    unfold add_element. rewrite !decide_False, decide_True by done. destruct H2 as [|? ? ->]; [done|by rewrite decide_True].
  - rewrite fold_rend_cons, IH by done. unfold add_element. by rewrite !decide_False.
Qed.

Lemma rend_root st : exists t, rend true st = slash :: t.
Proof. induction st as [|e st [t IH]]; [by eexists|]. rewrite rend_cons, IH. by eexists. Qed.
Lemma rend_relative es ds : good false es ds -> IsAbs (rend false (es ++ ds)) = false.
Proof.
  intros Hg. assert (Hn : Forall (fun e => no_slash e /\ e <> []) (es ++ ds)).
  { destruct Hg as [H1 H2 _]. apply Forall_app. split; [eapply Forall_impl; [exact H1|]; intros e (? & ? & _); done|].
    eapply Forall_impl; [exact H2|]. intros e ->. split; [unfold no_slash; vm_compute; set_solver|done]. }
  clear Hg. induction Hn as [|e st [He Hne] Hn IH]; [done|]. rewrite rend_cons.
  destruct st as [|e' st].
  - cbn. destruct e as [|c e]; [done|]. cbn. apply Z.eqb_neq. intros ->. apply He. by left.
  - assert (rend false (e' :: st) <> []).
    { intros E. pose proof (rend_longer false e' st) as Hl. apply Forall_cons in Hn as [[_ He'] _]. specialize (Hl He'). rewrite E in Hl.
      pose proof (zlen_nonneg (rend false st)). change (zlen (@nil Z)) with 0 in Hl. lia. }
    by destruct (rend false (e' :: st)).
Qed.

Lemma cleaned_abs p : IsAbs (cleaned p) = IsAbs p.
Proof.
  destruct (normal_good p) as (es & ds & Hg & E). unfold cleaned. cbv zeta. rewrite E. destruct (IsAbs p).
  - destruct (rend_root (es ++ ds)) as [t ->]. by rewrite decide_False.
  - case_decide; [done|]. by apply rend_relative.
Qed.
Lemma cleaned_cleaned p : cleaned (cleaned p) = cleaned p.
Proof.
  pose proof (cleaned_abs p) as Ha. destruct (normal_good p) as (es & ds & Hg & E).
  assert (Hn : normal (cleaned p) = normal p).
  { unfold normal at 1. rewrite Ha. unfold cleaned. cbv zeta. case_decide as Hz; [|by rewrite E, fold_rend].
    rewrite E in Hz |- *. assert (Hd : es ++ ds = []).
    { apply (rend_empty _ es ds Hg). rewrite Hz. destruct (IsAbs p) eqn:Ea; [|done]. destruct (rend_root (es ++ ds)) as [t Et]. congruence. }
    rewrite Hd. done. }
  unfold cleaned at 1. by rewrite Ha, Hn.
Qed.

(** ** Split, Base, Ext and Join *)

Lemma last_index_none c t : c ∉ t -> LastIndexByteString t c = -1.
Proof.
  intros Hc. assert (H : c ∉ reverse t) by (by rewrite elem_of_reverse). unfold LastIndexByteString. revert H. generalize (reverse t). clear.
  intros t. induction t as [|x t IH]; [done|]. rewrite not_elem_of_cons. intros [H1 H2]. cbn. destruct (Z.eqb_spec x c); [congruence|by apply IH].
Qed.
Lemma last_index_some c a b : c ∉ b -> LastIndexByteString (a ++ c :: b) c = zlen a.
Proof.
  intros Hc. assert (H : c ∉ reverse b) by (by rewrite elem_of_reverse). unfold LastIndexByteString. rewrite reverse_app, reverse_cons, <- app_assoc.
  revert H. generalize (reverse b). clear. intros b. induction b as [|x b IH]; cbn [app last_index].
  - intros _. rewrite Z.eqb_refl. unfold zlen. by rewrite length_reverse.
  - rewrite not_elem_of_cons. intros [H1 H2]. destruct (Z.eqb_spec x c); [congruence|by apply IH].
Qed.

(** A path is a directory, empty or with a slash at its end, and a name without slashes. *)
Definition dir_file (p d f : list Z) : Prop := p = d ++ f /\ no_slash f /\ (d = [] \/ exists d', d = d' ++ [slash]).
Lemma dir_file_split p : dir_file p (Split p).1 (Split p).2.
Proof.
  unfold Split, dir_file, no_slash. cbv zeta. cbn [fst snd]. split; [by rewrite take_drop|].
  destruct (decide (slash ∈ p)) as [(a & b & -> & Hb)%list_elem_of_split_r|Hn].
  - rewrite last_index_some by done. rewrite cons_middle, app_assoc.
    replace (zlen a + 1) with (zlen (a ++ [slash])) by (by rewrite zlen_app). rewrite take_zlen.
    unfold zlen. rewrite Nat2Z.id, drop_app_length. split; [done|right; by exists a].
  - rewrite last_index_none by done. cbn. split; [done|by left].
Qed.

Lemma strip_spec t : exists k, t = replicate k slash ++ strip t /\ (strip t = [] \/ exists x u, strip t = x :: u /\ x <> slash).
Proof.
  induction t as [|c t IH]; [exists 0%nat; split; [done|by left]|]. cbn [strip]. destruct (Z.eqb_spec c slash) as [->|Hc].
  - destruct IH as (k & E & H). exists (S k). split; [cbn; by rewrite <- E|done].
  - exists 0%nat. split; [done|right; eauto].
Qed.

(** The last element that is not empty, before trailing slashes. *)
Lemma Base_spec p : p <> [] ->
  (exists k, p = replicate (S k) slash /\ Base p = bytes "/") \/
  exists d f k, p = (d ++ f) ++ replicate k slash /\ dir_file (d ++ f) d f /\ f <> [] /\ Base p = f.
Proof.
  intros Hne. unfold Base. rewrite decide_False by done. cbv zeta. destruct (strip_spec (reverse p)) as (k & E & H).
  set (q := strip (reverse p)) in *. assert (Ep : p = reverse q ++ replicate k slash).
  { by rewrite <- (reverse_involutive p), E, reverse_app, reverse_replicate. }
  destruct H as [Hq|(x & u & Hq & Hx)]; rewrite Hq in *.
  - left. cbn in Ep. destruct k as [|k]; [done|]. exists k. split; [done|]. rewrite reverse_nil.
    rewrite last_index_none by apply not_elem_of_nil. cbn. done.
  - right. rewrite reverse_cons in *. assert (Hns : forall v, slash ∉ v -> slash ∉ v ++ [x]).
    { intros v Hv. rewrite elem_of_app, list_elem_of_singleton. intros [?|?]; congruence. }
    destruct (decide (slash ∈ reverse u)) as [(a & b & Eu & Hb)%list_elem_of_split_r|Hn].
    + exists (a ++ [slash]), (b ++ [x]), k. assert (Eq : reverse u ++ [x] = (a ++ [slash]) ++ b ++ [x]) by (by rewrite Eu, <- !app_assoc).
      rewrite Eq in *. split; [done|]. split; [split; [done|split; [by apply Hns|right; by exists a]]|]. split; [by destruct b|].
      rewrite <- app_assoc. cbn [app]. rewrite last_index_some by (by apply Hns). destruct (Z.leb_spec 0 (zlen a)); [|pose proof (zlen_nonneg a); lia].
      rewrite cons_middle, app_assoc. replace (zlen a + 1) with (zlen (a ++ [slash])) by (by rewrite zlen_app).
      unfold zlen. rewrite Nat2Z.id, drop_app_length, decide_False by (by destruct b). done.
    + rewrite last_index_none by (by apply Hns). cbn [Z.leb Z.compare]. exists [], (reverse u ++ [x]), k. split; [done|].
      split; [split; [done|split; [by apply Hns|by left]]|]. split; [by destruct (reverse u)|]. rewrite decide_False by (by destruct (reverse u)). done.
Qed.

Lemma Ext_spec p : (Ext p = [] /\ dot ∉ (Split p).2) \/ exists a b, p = a ++ dot :: b /\ Ext p = dot :: b /\ dot ∉ b /\ no_slash b.
Proof.
  destruct (dir_file_split p) as (E & Hf & Hd). revert E Hf Hd. generalize (Split p).1 (Split p).2. intros d f -> Hf Hd. unfold Ext, no_slash in *.
  assert (H : forall t x, slash ∉ t -> (dot ∉ t /\ ext_from (t ++ reverse d) x = []) \/
    exists u v, t = u ++ dot :: v /\ dot ∉ u /\ ext_from (t ++ reverse d) x = dot :: reverse u ++ x).
  { induction t as [|c t IH]; intros x Ht.
    - left. split; [apply not_elem_of_nil|]. destruct Hd as [->|[d' ->]]; [done|]. rewrite reverse_app. done.
    - rewrite not_elem_of_cons in Ht. destruct Ht as [H1 H2]. cbn [app ext_from]. destruct (Z.eqb_spec c slash); [congruence|].
      destruct (Z.eqb_spec c dot) as [->|Hc]; [right; exists [], t; split; [done|]; split; [apply not_elem_of_nil|done]|].
      destruct (IH (c :: x) H2) as [[H3 H4]|(u & v & -> & H3 & H4)]; [left|right].
      + split; [rewrite not_elem_of_cons; split; [congruence|done]|done].
      + exists (c :: u), v. split; [done|]. split; [rewrite not_elem_of_cons; split; [congruence|done]|]. rewrite H4, reverse_cons, <- app_assoc. done. }
  rewrite reverse_app. destruct (H (reverse f) []) as [[H1 H2]|(u & v & E & H1 & H2)]; [by rewrite elem_of_reverse|left|right].
  - split; [done|by rewrite elem_of_reverse in H1].
  - rewrite app_nil_r in H2. assert (Ef : f = reverse v ++ dot :: reverse u).
    { by rewrite <- (reverse_involutive f), E, reverse_app, reverse_cons, <- app_assoc. }
    exists (d ++ reverse v), (reverse u). split; [by rewrite Ef, <- app_assoc|]. split; [done|]. split; [by rewrite elem_of_reverse|].
    intros Hin. apply Hf. rewrite Ef. apply elem_of_app. right. by right.
Qed.

(** [Join] glues the elements with slashes; empty ones at the front leave nothing. *)
Lemma join_nonempty elem buf : buf <> [] -> foldl join_step buf elem = buf ++ List.concat (map (cons slash) elem).
Proof.
  revert buf. induction elem as [|e elem IH]; intros buf Hb; cbn [foldl map List.concat]; [by rewrite app_nil_r|].
  assert (E : join_step buf e = buf ++ slash :: e).
  { unfold join_step. assert (0 < zlen buf) by (destruct buf; [done|rewrite zlen_cons; pose proof (zlen_nonneg buf); lia]).
    destruct (Z.ltb_spec 0 (zlen buf)); [|lia]. cbn [orb]. by rewrite <- app_assoc. }
  rewrite E, IH by (by destruct buf). by rewrite <- app_assoc.
Qed.
Lemma elements_glue elem buf : elements (buf ++ List.concat (map (cons slash) elem)) = elements buf ++ List.concat (map elements elem).
Proof.
  revert buf. induction elem as [|e elem IH]; intros buf; cbn [map List.concat]; [by rewrite !app_nil_r|].
  replace (buf ++ (slash :: e) ++ List.concat (map (cons slash) elem)) with ((buf ++ slash :: e) ++ List.concat (map (cons slash) elem)) by (by rewrite <- app_assoc).
  by rewrite IH, elements_app, <- app_assoc.
Qed.
Lemma IsAbs_app p t : p <> [] -> IsAbs (p ++ t) = IsAbs p.
Proof. by destruct p. Qed.
Lemma join_glue elem rooted :
  IsAbs (foldl join_step [] elem) = IsAbs (List.concat elem) /\
  foldl (add_element rooted) [] (elements (foldl join_step [] elem)) = foldl (add_element rooted) [] (List.concat (map elements elem)).
Proof.
  induction elem as [|e elem IH]; [done|]. cbn [foldl map List.concat]. destruct (decide (e = [])) as [->|He].
  - replace (join_step [] []) with (@nil Z) by done. destruct IH as [H1 H2]. split; [done|]. by rewrite H2.
  - assert (E : join_step [] e = e) by (unfold join_step; by rewrite bool_decide_eq_false_2).
    rewrite E, join_nonempty, elements_glue, !IsAbs_app by done. done.
Qed.
Lemma join_size (elem : list (list Z)) n : foldl (fun size e => size + zlen e) n elem = n + zlen (List.concat elem).
Proof.
  revert n. induction elem as [|e elem IH]; intros n; cbn [foldl List.concat]; [change (zlen (@nil Z)) with 0; lia|].
  rewrite IH, zlen_app. lia.
Qed.

(** The path with the elements [l], ["."] when nothing is left. *)
Definition path_of (rooted : bool) (l : list (list Z)) : list Z :=
  let c := rend rooted (foldl (add_element rooted) [] l) in if decide (c = []) then bytes "." else c.
Lemma cleaned_path_of p : cleaned p = path_of (IsAbs p) (elements p).
Proof. done. Qed.
Lemma Join_path_of elem :
  Join elem = Done (if decide (List.concat elem = []) then [] else path_of (IsAbs (List.concat elem)) (List.concat (map elements elem))).
Proof.
  unfold Join. cbv zeta. rewrite join_size, Z.add_0_l. case_decide as H; [by rewrite H|].
  destruct (Z.eqb_spec (zlen (List.concat elem)) 0) as [E|_]; [by apply zlen_zero in E|].
  rewrite Clean_cleaned, cleaned_path_of. destruct (join_glue elem (IsAbs (List.concat elem))) as [H1 H2]. unfold path_of. by rewrite H1, H2.
Qed.
(** Joining what [Split] gives is cleaning. *)
Lemma foldl_dir_file rooted d f p st : dir_file p d f ->
  foldl (add_element rooted) st (elements d ++ elements f) = foldl (add_element rooted) st (elements p).
Proof.
  intros (-> & _ & [->|[d' ->]]); [done|]. rewrite <- app_assoc. change ([slash] ++ f) with (slash :: f).
  by rewrite !elements_app, !foldl_app.
Qed.
Lemma Join_Split p : Join [(Split p).1; (Split p).2] = if decide (p = []) then Done [] else Clean p.
Proof.
  pose proof (dir_file_split p) as Hd. rewrite Join_path_of, Clean_cleaned, cleaned_path_of. unfold path_of.
  cbn [map List.concat]. rewrite !app_nil_r, (foldl_dir_file _ _ _ p) by done. destruct Hd as [<- _]. by case_decide.
Qed.

(** C35: [Clean] succeeds on every path and gives the path of its elements read from
    left to right, where an empty element and [.] are dropped and [..] takes the
    element before it, stays at the front of a relative path and vanishes at the root;
    the result is made of names after the [..] of a relative path, is absolute exactly
    when the path is, and cleaning it again does nothing.  [Split] cuts the path after
    its last slash, joining the parts is cleaning the path, and [Dir] cleans the first.
    [Base] is the element before trailing slashes, [Ext] the end of the last element
    from its last dot, and [Join] is the clean path of the elements of its arguments, or
    empty when they all are. *)
Theorem path_functions :
  (forall p, exists c es ds,
     Clean p = Done c /\ c = path_of (IsAbs p) (elements p) /\
     Clean c = Done c /\ IsAbs c = IsAbs p /\
     foldl (add_element (IsAbs p)) [] (elements p) = es ++ ds /\ good (IsAbs p) es ds) /\
  (forall p, dir_file p (Split p).1 (Split p).2 /\
     Join [(Split p).1; (Split p).2] = (if decide (p = []) then Done [] else Clean p) /\
     Dir p = Done (path_of (IsAbs (Split p).1) (elements (Split p).1))) /\
  (forall p,
     p = [] /\ Base p = bytes "." \/
     (exists k, p = replicate (S k) slash /\ Base p = bytes "/") \/
     exists d f k, p = (d ++ f) ++ replicate k slash /\ dir_file (d ++ f) d f /\ f <> [] /\ Base p = f) /\
  (forall p, Ext p = [] /\ dot ∉ (Split p).2 \/
     exists a b, p = a ++ dot :: b /\ Ext p = dot :: b /\ dot ∉ b /\ no_slash b) /\
  (forall elem, Join elem =
     Done (if decide (List.concat elem = []) then []
           else path_of (IsAbs (List.concat elem)) (List.concat (map elements elem)))).
Proof.
  split; [|split; [|split; [|split; [exact Ext_spec|exact Join_path_of]]]].
  - intros p. destruct (normal_good p) as (es & ds & Hg & E). exists (cleaned p), es, ds. rewrite !Clean_cleaned, cleaned_cleaned.
    split; [done|]. split; [apply cleaned_path_of|]. split; [done|]. split; [apply cleaned_abs|]. by split.
  - intros p. split; [apply dir_file_split|]. split; [apply Join_Split|]. unfold Dir. by rewrite Clean_cleaned.
  - intros p. destruct (decide (p = [])) as [->|Hp]; [by left|right; by apply Base_spec].
Qed.

Example Clean_ex :
  Clean (bytes "/a/./b//../../c/") = Done (bytes "/c") /\ Clean (bytes "../../x/..") = Done (bytes "../..") /\
  Join [bytes ""; bytes "a"; bytes ""; bytes "../b"] = Done (bytes "b") /\
  Base (bytes "/usr/lib//") = bytes "lib" /\ Ext (bytes "a.b/c.tar.gz") = bytes ".gz".
Proof. by vm_compute. Qed.
