(* ===== verification/PathMatch.v ===== *)
(** * path: shell patterns ([path/match.go])

    Patterns and names are the lists of their bytes.  The loops run over local variables
    only, so the store of the computations is [unit]. *)

From S2P Require Import Prelude.
From S2P Require Import Slice.
From S2P Require Import Text.
From S2P Require Import Utf8.

Inductive error : Type := ErrBadPattern.

Abbreviation slash := (chr "/").
Abbreviation star := (chr "*").
Abbreviation question := (chr "?").
Abbreviation lbrack := (chr "[").
Abbreviation rbrack := (chr "]").
Abbreviation backslash := (chr "\").
Abbreviation caret := (chr "^").
Abbreviation dash := (chr "-").

Abbreviation G := (M unit).

(** [s[n:]] *)
Definition sfrom (s : list Z) (n : Z) : G (list Z) :=
  if (0 <=? n) && (n <=? zlen s) then mret (drop (Z.to_nat n) s) else mpanic SliceBounds.

(** [bytealg.IndexByteString] *)
Fixpoint index_from (s : list Z) (c i : Z) : Z :=
  match s with
  | [] => -1
  | x :: s => if x =? c then i else index_from s c (i + 1)
  end.
Definition IndexByteString (s : list Z) (c : Z) : Z := index_from s c 0.

(** [scanChunk]: the loop that skips stars, and the one that looks for the next. *)
Fixpoint skip_stars (pattern : list Z) (st : bool) : bool * list Z :=
  match pattern with
  | c :: pattern' => if c =? star then skip_stars pattern' true else (st, pattern)
  | [] => (st, [])
  end.
Definition scan_step (pattern : list Z) (st : Z * bool) : G (Z * bool + Z) :=
  let '(i, inrange) := st in
  if i <? zlen pattern then
    c <- sread pattern i ;;
    if c =? backslash then continue ((if i + 1 <? zlen pattern then i + 1 else i) + 1, inrange)
    else if c =? lbrack then continue (i + 1, true)
    else if c =? rbrack then continue (i + 1, false)
    else if c =? star then (if negb inrange then break i else continue (i + 1, inrange))
    else continue (i + 1, inrange)
  else break i.
Definition scanChunk (pattern : list Z) : G (bool * list Z * list Z) :=
  let '(st, pattern) := skip_stars pattern false in
  i <- loop (S (length pattern)) (scan_step pattern) (0, false) ;;
  if i <? zlen pattern then mret (st, take (Z.to_nat i) pattern, drop (Z.to_nat i) pattern)
  else mret (st, pattern, []).

(** [getEsc], after the escape. *)
Definition esc_rune (chunk : list Z) : G (Z * list Z * option error) :=
  let '(r, n) := DecodeRuneInString chunk in
  let err := if (r =? RuneError) && (n =? 1) then Some ErrBadPattern else None in
  nchunk <- sfrom chunk n ;;
  let err := if zlen nchunk =? 0 then Some ErrBadPattern else err in
  mret (r, nchunk, err).
Definition getEsc (chunk : list Z) : G (Z * list Z * option error) :=
  bad <- (if zlen chunk =? 0 then mret true else c <- sread chunk 0 ;; mret ((c =? dash) || (c =? rbrack))) ;;
  if (bad : bool) then mret (0, [], Some ErrBadPattern)
  else
    c <- sread chunk 0 ;;
    chunk <- (if c =? backslash then sfrom chunk 1 else mret chunk) ;;
    if (c =? backslash) && (zlen chunk =? 0) then mret (0, [], Some ErrBadPattern)
    else esc_rune chunk.

(** The ranges of a character class, after its bracket and caret: the rest of the
    chunk and whether [r] is in one of them. *)
Definition class_step (r : Z) (st : list Z * bool * Z) : G (list Z * bool * Z + (list Z * bool + error)) :=
  let '(chunk, mat, nrange) := st in
  ends <- (if zlen chunk >? 0 then c <- sread chunk 0 ;; mret ((c =? rbrack) && (nrange >? 0)) else mret false) ;;
  if (ends : bool) then (chunk <- sfrom chunk 1 ;; break (inl (chunk, mat)))
  else
    '(lo, chunk, err) <- getEsc chunk ;;
    match err with
    | Some e => break (inr e)
    | None =>
        c <- sread chunk 0 ;;
        '(hi, chunk, err) <- (if c =? dash then (chunk <- sfrom chunk 1 ;; getEsc chunk) else mret (lo, chunk, None)) ;;
        match err with
        | Some e => break (inr e)
        | None => continue (chunk, mat || (lo <=? r) && (r <=? hi), nrange + 1)
        end
    end.

Definition chunk_step (st : list Z * list Z * bool) : G (list Z * list Z * bool + (list Z * bool * option error)) :=
  let '(chunk, s, failed) := st in
  if zlen chunk >? 0 then
    let failed := failed || (zlen s =? 0) in
    c <- sread chunk 0 ;;
    if c =? lbrack then
      '(r, s) <- (if negb failed then (let '(r, n) := DecodeRuneInString s in s <- sfrom s n ;; mret (r, s)) else mret (0, s)) ;;
      chunk <- sfrom chunk 1 ;;
      negated <- (if zlen chunk >? 0 then c <- sread chunk 0 ;; mret (c =? caret) else mret false) ;;
      chunk <- (if (negated : bool) then sfrom chunk 1 else mret chunk) ;;
      res <- loop (S (length chunk)) (class_step r) (chunk, false, 0) ;;
      match res with
      | inr e => break ([], false, Some e)
      | inl (chunk, mat) => continue (chunk, s, failed || Bool.eqb mat negated)
      end
    else if c =? question then
      '(s, failed) <- (if negb failed then
                         (c <- sread s 0 ;; let '(_, n) := DecodeRuneInString s in s <- sfrom s n ;; mret (s, c =? slash))
                       else mret (s, failed)) ;;
      chunk <- sfrom chunk 1 ;;
      continue (chunk, s, failed)
    else
      chunk <- (if c =? backslash then sfrom chunk 1 else mret chunk) ;;
      if (c =? backslash) && (zlen chunk =? 0) then break ([], false, Some ErrBadPattern)
      else
        '(s, failed) <- (if negb failed then
                           (c <- sread chunk 0 ;; d <- sread s 0 ;; s <- sfrom s 1 ;; mret (s, negb (c =? d)))
                         else mret (s, failed)) ;;
        chunk <- sfrom chunk 1 ;;
        continue (chunk, s, failed)
  else if failed then break ([], false, None) else break (s, true, None).
Definition matchChunk (chunk s : list Z) : G (list Z * bool * option error) :=
  loop (S (length chunk)) chunk_step (chunk, s, false).

(** The loop after a star: the name after the first match, an error, or nothing. *)
Definition star_step (chunk pattern name : list Z) (i : Z) : G (Z + (list Z + option error)) :=
  more <- (if i <? zlen name then c <- sread name i ;; mret (negb (c =? slash)) else mret false) ;;
  if (more : bool) then
    s <- sfrom name (i + 1) ;;
    '(t, ok, err) <- matchChunk chunk s ;;
    if (ok : bool) then
      if (zlen pattern =? 0) && (zlen t >? 0) then continue (i + 1) else break (inl t)
    else match err with Some e => break (inr (Some e)) | None => continue (i + 1) end
  else break (inr None).

(** The loop that checks the rest of the pattern. *)
Definition check_step (pattern : list Z) : G (list Z + option error) :=
  if zlen pattern >? 0 then
    '(_, chunk, pattern) <- scanChunk pattern ;;
    '(_, _, err) <- matchChunk chunk [] ;;
    match err with Some e => break (Some e) | None => continue pattern end
  else break None.

Definition match_step (st : list Z * list Z) : G (list Z * list Z + bool * option error) :=
  let '(pattern, name) := st in
  if zlen pattern >? 0 then
    '(st, chunk, pattern) <- scanChunk pattern ;;
    if st && (zlen chunk =? 0) then break (IndexByteString name slash <? 0, None)
    else
      '(t, ok, err) <- matchChunk chunk name ;;
      if ok && ((zlen t =? 0) || (zlen pattern >? 0)) then continue (pattern, t)
      else
        match err with
        | Some e => break (false, Some e)
        | None =>
            found <- (if (st : bool) then loop (S (length name)) (star_step chunk pattern name) 0 else mret (inr None)) ;;
            match found with
            | inl t => continue (pattern, t)
            | inr (Some e) => break (false, Some e)
            | inr None =>
                err <- loop (S (length pattern)) check_step pattern ;;
                break (false, err)
            end
        end
  else break (zlen name =? 0, None).
Definition Match (pattern name : list Z) : outcome (bool * option error) :=
  result (loop (S (length pattern)) match_step (pattern, name)) tt.
