(* ===== verification/PathMatchSpec.v ===== *)
(** * path: shell patterns, specification

    The grammar of the comment of [Match] as relations between texts and terms, what a
    sequence of terms matches, and what the scan for the next star does to both; then
    the lemmas on scanning and on characters. *)

From S2P Require Import Prelude.
From S2P Require Import Slice.
From S2P Require Import Text.
From S2P Require Import Bits.
From S2P Require Import Utf8.
From S2P Require Import Utf8Spec.
From S2P Require Import Utf8Text.
From S2P Require Import PathMatch.

(** ** Patterns *)

Inductive term : Type :=
| Star
| Any
| Class (negated : bool) (ranges : list (Z * Z))
| Lit (c : Z).

(** A character of a class, plain or escaped. *)
Inductive character : list Z -> Z -> Prop :=
| plain r : valid_rune r -> r ∉ [backslash; dash; rbrack] -> character (utf8_bytes r) r
| escaped r : valid_rune r -> character (backslash :: utf8_bytes r) r.

Inductive ranges_of : list Z -> list (Z * Z) -> Prop :=
| ro_nil : ranges_of [] []
| ro_one b r body rs : character b r -> ranges_of body rs -> ranges_of (b ++ body) ((r, r) :: rs)
| ro_pair b lo b' hi body rs : character b lo -> character b' hi -> ranges_of body rs ->
    ranges_of (b ++ dash :: b' ++ body) ((lo, hi) :: rs).

(** The first term of a pattern and what follows it; a literal is a byte. *)
Inductive first_term : list Z -> term -> list Z -> Prop :=
| first_star p : first_term (star :: p) Star p
| first_any p : first_term (question :: p) Any p
| first_class negated body rs p : ranges_of body rs -> rs <> [] -> (negated = false -> head body <> Some caret) ->
    first_term (lbrack :: (if negated then [caret] else []) ++ body ++ rbrack :: p) (Class negated rs) p
| first_escape c p : first_term (backslash :: c :: p) (Lit c) p
| first_literal c p : c ∉ [star; question; backslash; lbrack] -> first_term (c :: p) (Lit c) p.
Inductive spells : list Z -> list term -> Prop :=
| spells_nil : spells [] []
| spells_cons p t rest ts : first_term p t rest -> spells rest ts -> spells p (t :: ts).

(** ** Matching *)

Definition in_ranges (rs : list (Z * Z)) (r : Z) : bool := existsb (fun '(lo, hi) => (lo <=? r) && (r <=? hi)) rs.
(** A term other than a star takes one character off the name. *)
Definition eat1 (t : term) (s : list Z) : option (list Z) :=
  match t, s with
  | Any, c :: _ => if c =? slash then None else Some (drop (Z.to_nat (DecodeRuneInString s).2) s)
  | Class negated rs, _ :: _ =>
      if Bool.eqb (in_ranges rs (DecodeRuneInString s).1) negated then None
      else Some (drop (Z.to_nat (DecodeRuneInString s).2) s)
  | Lit c, d :: s => if c =? d then Some s else None
  | _, _ => None
  end.
Inductive matches : list term -> list Z -> Prop :=
| matches_nil : matches [] []
| matches_char t ts s s' : eat1 t s = Some s' -> matches ts s' -> matches (t :: ts) s
| matches_stop ts s : matches ts s -> matches (Star :: ts) s
| matches_skip c ts s : c <> slash -> matches (Star :: ts) s -> matches (Star :: ts) (c :: s).

Fixpoint eat (ts : list term) (s : list Z) : option (list Z) :=
  match ts with
  | [] => Some s
  | t :: ts => match eat1 t s with Some s' => eat ts s' | None => None end
  end.
Definition no_slash (s : list Z) : Prop := slash ∉ s.

Lemma matches_eat ts ts' s : Star ∉ ts ->
  matches (ts ++ ts') s <-> exists t, eat ts s = Some t /\ matches ts' t.
Proof.
  revert s. induction ts as [|x ts IH]; intros s Hs; cbn [app eat]; [naive_solver|]. apply not_elem_of_cons in Hs as [Hx Hs]. split.
  - intros H. inversion H as [|? ? ? s' E H'|? ? H'|? ? ? ? H']; subst; [|done..]. rewrite E. by apply IH.
  - intros (t & E & H). destruct (eat1 x s) as [s'|] eqn:E1; [|done]. apply (matches_char _ _ _ s'); [done|]. apply IH; eauto.
Qed.
Lemma matches_star ts s : matches (Star :: ts) s <-> exists x y, s = x ++ y /\ no_slash x /\ matches ts y.
Proof.
  unfold no_slash. split.
  - intros H. remember (Star :: ts) as l eqn:E. induction H as [|? ? ? ? E1|? ? H|? ? ? Hc H IH]; [done| | |].
    + injection E as -> ->. by destruct s.
    + injection E as ->. exists [], s. split; [done|]. split; [apply not_elem_of_nil|done].
    + destruct (IH E) as (x & y & -> & Hx & Hy). exists (c :: x), y. split; [done|]. split; [|done]. rewrite not_elem_of_cons. by split; [congruence|].
  - intros (x & y & -> & Hx & H). induction x as [|c x IH]; [by apply matches_stop|]. apply not_elem_of_cons in Hx as [Hc Hx].
    apply matches_skip; [congruence|by apply IH].
Qed.
Lemma matches_stars k ts s : matches (replicate (S k) Star ++ ts) s <-> matches (Star :: ts) s.
Proof.
  revert s. induction k as [|k IH]; intros s; [done|]. change (replicate (S (S k)) Star ++ ts) with (Star :: replicate (S k) Star ++ ts). split.
  - intros (x & y & -> & Hx & H)%matches_star. apply IH, matches_star in H as (x' & y' & -> & Hx' & H). apply matches_star.
    exists (x ++ x'), y'. rewrite app_assoc. split; [done|]. split; [|done]. unfold no_slash in *. rewrite elem_of_app. naive_solver.
  - intros H. apply matches_stop. by apply IH.
Qed.

(** ** Where the first match after a star is enough

    For names of single-byte characters and classes without the slash, a match further
    to the right leaves less of the name, and no slash between. *)
Definition slashless (t : term) : Prop :=
  match t with Class negated rs => in_ranges rs slash = negated | _ => True end.
Definition ascii_text (s : list Z) : Prop := Forall (fun c => 0 <= c < RuneSelf) s.

Lemma decode_ascii c s : 0 <= c < RuneSelf -> DecodeRuneInString (c :: s) = (c, 1).
Proof.
  intros Hc. unfold DecodeRuneInString. rewrite zlen_cons. pose proof (zlen_nonneg s). destruct (Z.eqb_spec (zlen s + 1) 0); [lia|].
  change (Bits.tab (c :: s) 0) with c. by destruct (Z.ltb_spec c RuneSelf); [|lia].
Qed.
(** Of such a name every term takes one byte, and never both a slash and another. *)
Lemma eat1_ascii t c s s' : 0 <= c < RuneSelf -> eat1 t (c :: s) = Some s' -> s' = s.
Proof.
  intros Hc. destruct t as [| |neg rs|d]; cbn [eat1]; rewrite ?decode_ascii by done; [done|..]; cbn [fst snd].
  all: case_match; try done; intros E; injection E as E; by rewrite <- E.
Qed.
Lemma eat1_slash t c d s u s' u' : 0 <= c < RuneSelf -> slashless t -> c <> slash ->
  eat1 t (c :: s) = Some s' -> eat1 t (d :: u) = Some u' -> d <> slash.
Proof.
  intros Hc Ht Hs H1 H2 ->. destruct t as [| |neg rs|x]; cbn [eat1] in *; [done| | |].
  - by rewrite Z.eqb_refl in H2.
  - rewrite (decode_ascii slash) in H2 by (unfold RuneSelf; vm_compute; split; congruence). cbn [fst] in H2. cbn in Ht. rewrite Ht, eqb_reflx in H2. done.
  - destruct (Z.eqb_spec x c), (Z.eqb_spec x slash); congruence.
Qed.
Lemma eat_shift ts : forall x y t t', Forall slashless ts -> ascii_text (x ++ y) -> no_slash x ->
  eat ts (x ++ y) = Some t -> eat ts y = Some t' -> exists z, t = z ++ t' /\ no_slash z.
Proof.
  induction ts as [|u ts IH]; intros x y t t' Hts Hxy Hx H1 H2; cbn [eat] in *; [exists x; split; congruence|].
  destruct x as [|c x]; [exists []; split; [cbn in *; congruence|apply not_elem_of_nil]|].
  apply Forall_cons in Hts as [Hu Hts]. destruct y as [|d y]; [by destruct u|]. cbn [app] in *.
  destruct (eat1 u (c :: x ++ d :: y)) as [a|] eqn:E1; [|done]. destruct (eat1 u (d :: y)) as [b|] eqn:E2; [|done].
  apply Forall_cons in Hxy as [Hc Hxy]. pose proof Hxy as [_ [Hd _]%Forall_cons]%Forall_app. apply not_elem_of_cons in Hx as [Hcs Hx].
  assert (Hds : d <> slash) by (eapply eat1_slash; [exact Hc|exact Hu| |exact E1|exact E2]; congruence).
  apply eat1_ascii in E1 as ->, E2 as ->; [|done..]. rewrite cons_middle, app_assoc in *.
  eapply IH; [done|exact Hxy| |exact H1|exact H2]. unfold no_slash in *. rewrite elem_of_app, list_elem_of_singleton. naive_solver.
Qed.

(** ** Strings as stores *)

Lemma wp_sfrom (Q : list Z -> unit -> Prop) a b u : Q b u -> wp (sfrom (a ++ b) (zlen a)) Q u.
Proof.
  intros HQ. unfold sfrom. pose proof (zlen_nonneg a). pose proof (zlen_nonneg b). rewrite zlen_app.
  destruct (Z.leb_spec 0 (zlen a)); [|lia]. destruct (Z.leb_spec (zlen a) (zlen a + zlen b)); [|lia]. cbn [andb]. apply wp_ret.
  unfold zlen. by rewrite Nat2Z.id, drop_app_length.
Qed.
Lemma wp_sfrom1 (Q : list Z -> unit -> Prop) c s u : Q s u -> wp (sfrom (c :: s) 1) Q u.
Proof. apply (wp_sfrom Q [c] s). Qed.
Lemma wp_head (Q : Z -> unit -> Prop) c s u : Q c u -> wp (sread (c :: s) 0) Q u.
Proof. intros HQ. apply wp_sread. by exists c. Qed.
Lemma wp_and {S A} (m : M S A) P Q s : wp m P s -> wp m Q s -> wp m (fun a s => P a s /\ Q a s) s.
Proof. unfold wp. by destruct (m s) as [[a u]| |]. Qed.
Lemma zlen_pos {A} (c : A) s : (zlen (c :: s) >? 0) = true.
Proof. rewrite zlen_cons. pose proof (zlen_nonneg s). rewrite Z.gtb_ltb. apply Z.ltb_lt. lia. Qed.
Lemma zlen_zero_cons {A} (c : A) s : (zlen (c :: s) =? 0) = false.
Proof. rewrite zlen_cons. pose proof (zlen_nonneg s). apply Z.eqb_neq. lia. Qed.

(** ** Runes *)

Lemma decode_rune r rest : valid_rune r -> Forall byte rest -> DecodeRuneInString (utf8_bytes r ++ rest) = (r, zlen (utf8_bytes r)).
Proof.
  intros Hr Hb. rewrite DecodeRuneInString_eq, DecodeRune_arith; [by apply decode_complete|].
  apply Forall_app. split; [by apply utf8_bytes_byte|done].
Qed.
Lemma decode_split p : Forall byte p -> p <> [] -> exists a b, p = a ++ b /\ a <> [] /\ (DecodeRuneInString p).2 = zlen a /\
  ((exists r, valid_rune r /\ a = utf8_bytes r /\ (DecodeRuneInString p).1 = r) \/ DecodeRuneInString p = (RuneError, 1)).
Proof.
  intros Hp Hne. rewrite DecodeRuneInString_eq, DecodeRune_arith by done.
  destruct (decode_sound p Hp Hne) as [->|(r & Hr & (rest & E) & D)].
  - destruct p as [|c p]; [done|]. exists [c], p. split_and!; try done. by right.
  - exists (utf8_bytes r), rest. rewrite D. split_and!; [done|by apply utf8_bytes_ne|done|left; eauto].
Qed.
(** The bytes of a rune are the rune itself or at least 0x80. *)
Lemma utf8_head r : valid_rune r -> exists c t, utf8_bytes r = c :: t /\ (c = r /\ t = [] \/ 128 <= c) /\ Forall (fun b => 128 <= b) t.
Proof.
  intros Hr. unfold valid_rune in Hr. unfold utf8_bytes.
  destruct (Z.ltb_spec r 0x80); [|destruct (Z.ltb_spec r 0x800); [|destruct (Z.ltb_spec r 0x10000)]]; do 2 eexists; (split; [done|]);
    [split; [by left|constructor]|..]; (split; [right; divlia|]); repeat (apply Forall_cons; split; [divlia|]); constructor.
Qed.

(** ** scanChunk *)

(** The chunk before the next star outside brackets, and the rest. *)
Fixpoint scan (inrange : bool) (p : list Z) : list Z * list Z :=
  match p with
  | [] => ([], [])
  | c :: p' =>
      if c =? backslash then
        match p' with
        | [] => ([c], [])
        | d :: p'' => let '(a, b) := scan inrange p'' in (c :: d :: a, b)
        end
      else if c =? lbrack then let '(a, b) := scan true p' in (c :: a, b)
      else if c =? rbrack then let '(a, b) := scan false p' in (c :: a, b)
      else if (c =? star) && negb inrange then ([], p)
      else let '(a, b) := scan inrange p' in (c :: a, b)
  end.

Lemma list_strong_ind {A} (P : list A -> Prop) :
  (forall l, (forall k, (length k < length l)%nat -> P k) -> P l) -> forall l, P l.
Proof. intros H. exact (well_founded_ind (well_founded_ltof _ length) P H). Qed.

Lemma scan_app p : forall i, (scan i p).1 ++ (scan i p).2 = p.
Proof.
  induction p as [[|c p] IH] using list_strong_ind; intros i; [done|]. cbn [scan].
  destruct (c =? backslash); [destruct p as [|d p]; [done|]|destruct (c =? lbrack); [|destruct (c =? rbrack); [|destruct ((c =? star) && negb i); [done|]]]].
  - pose proof (IH p ltac:(cbn; lia) i). destruct (scan i p). cbn in *. by f_equal; f_equal.
  - pose proof (IH p ltac:(cbn; lia) true). destruct (scan true p). cbn in *. by f_equal.
  - pose proof (IH p ltac:(cbn; lia) false). destruct (scan false p). cbn in *. by f_equal.
  - pose proof (IH p ltac:(cbn; lia) i). destruct (scan i p). cbn in *. by f_equal.
Qed.
(** The rest is empty or starts with a star, and the chunk has none to be found. *)
Lemma scan_rest p : forall i, ((scan i p).2 = [] \/ exists b, (scan i p).2 = star :: b) /\ scan i (scan i p).1 = ((scan i p).1, []).
Proof.
  induction p as [[|c p] IH] using list_strong_ind; intros i; [split; [by left|done]|]. cbn [scan].
  destruct (c =? backslash) eqn:E1; [destruct p as [|d p]|destruct (c =? lbrack) eqn:E2; [|destruct (c =? rbrack) eqn:E3; [|destruct ((c =? star) && negb i) eqn:E4]]].
  - cbn. rewrite E1. split; [by left|done].
  - destruct (IH p ltac:(cbn; lia) i) as [H1 H2]. destruct (scan i p) as [a b]. cbn [fst snd scan] in *. by rewrite E1, H2.
  - destruct (IH p ltac:(cbn; lia) true) as [H1 H2]. destruct (scan true p) as [a b]. cbn [fst snd scan] in *. by rewrite E1, E2, H2.
  - destruct (IH p ltac:(cbn; lia) false) as [H1 H2]. destruct (scan false p) as [a b]. cbn [fst snd scan] in *. by rewrite E1, E2, E3, H2.
  - reflect. subst c. split; [|done]. right. by eexists.
  - destruct (IH p ltac:(cbn; lia) i) as [H1 H2]. destruct (scan i p) as [a b]. cbn [fst snd scan] in *. by rewrite E1, E2, E3, E4, H2.
Qed.
Lemma scan_nonempty c p : c <> star -> (scan false (c :: p)).1 <> [].
Proof.
  intros Hc. cbn [scan]. destruct (Z.eqb_spec c star); [done|]. cbn [andb]. repeat case_match; simplify_eq; cbn; done.
Qed.

Lemma wp_scan p : forall pre i fuel, (length p < fuel)%nat ->
  wp (loop fuel (scan_step (pre ++ p)) (zlen pre, i)) (fun n _ => n = zlen pre + zlen (scan i p).1) tt.
Proof.
  induction p as [p IH] using list_strong_ind; intros pre i [|fuel] Hf; [lia|]. apply wp_loop_S.
  set (L := loop fuel (scan_step (pre ++ p))). assert (EL : L = loop fuel (scan_step (pre ++ p))) by done. clearbody L.
  unfold scan_step. rewrite zlen_app. destruct p as [|c p].
  { rewrite zlen_nil, Z.add_0_r, Z.ltb_irrefl. apply wp_break. cbn. rewrite zlen_nil. lia. }
  pose proof (mid_range pre c p) as Hr. rewrite zlen_app in Hr. destruct (Z.ltb_spec (zlen pre) (zlen pre + zlen (c :: p))); [|lia].
  apply wp_bind, wp_sread. exists c. split; [rewrite at_app_r by lia; by rewrite Z.sub_diag|]. cbn [scan]. cbn in Hf.
  assert (Hone : forall j a b, scan j p = (a, b) -> wp (L (zlen pre + 1, j))
    (fun n _ => n = zlen pre + zlen (c :: a)) tt).
  { intros j a b E. rewrite EL. replace (pre ++ c :: p) with ((pre ++ [c]) ++ p) by (by rewrite <- app_assoc).
    replace (zlen pre + 1) with (zlen (pre ++ [c])) by (by rewrite zlen_app). eapply wp_mono; [apply IH; cbn; lia|].
    intros n _ ->. rewrite E, zlen_app. change (zlen [c]) with 1. cbn [fst]. rewrite zlen_cons. lia. }
  destruct (c =? backslash).
  { apply wp_continue. rewrite zlen_cons. destruct p as [|d p].
    - rewrite zlen_nil, Z.add_0_l, Z.ltb_irrefl. exact (Hone i [] [] eq_refl).
    - rewrite zlen_cons. pose proof (zlen_nonneg p). destruct (Z.ltb_spec (zlen pre + 1) (zlen pre + (zlen p + 1 + 1))); [|lia].
      rewrite EL. replace (pre ++ c :: d :: p) with ((pre ++ [c; d]) ++ p) by (by rewrite <- app_assoc).
      replace (zlen pre + 1 + 1) with (zlen (pre ++ [c; d])) by (rewrite zlen_app; change (zlen [c; d]) with 2; lia).
      eapply wp_mono; [apply IH; cbn in *; lia|]. intros n _ ->. destruct (scan i p) as [a b]. cbn [fst].
      rewrite zlen_app. change (zlen [c; d]) with 2. rewrite !zlen_cons. lia. }
  destruct (c =? lbrack); [|destruct (c =? rbrack); [|destruct (c =? star); [destruct i|]]]; cbn [negb andb].
  all: try (apply wp_continue; match goal with |- context [scan ?j ?q] => destruct (scan j q) as [a b] eqn:E; eapply Hone; exact E end).
  apply wp_break. cbn [fst]. rewrite zlen_nil. lia.
Qed.

Lemma skip_stars_spec p : forall st, exists k q, p = replicate k star ++ q /\ head q <> Some star /\
  skip_stars p st = (st || negb (bool_decide (k = 0%nat)), q).
Proof.
  induction p as [|c p IH]; intros st; cbn [skip_stars]; [exists 0%nat, []; by rewrite orb_false_r|].
  destruct (Z.eqb_spec c star) as [->|Hc].
  - destruct (IH true) as (k & q & -> & Hq & ->). exists (S k), q. split; [done|]. split; [done|]. by rewrite orb_true_r.
  - exists 0%nat, (c :: p). split; [done|]. split; [cbn; congruence|]. by rewrite orb_false_r.
Qed.
Lemma wp_scanChunk (Q : bool * list Z * list Z -> unit -> Prop) p :
  (forall k q, p = replicate k star ++ q -> head q <> Some star -> Q (negb (bool_decide (k = 0%nat)), (scan false q).1, (scan false q).2) tt) ->
  wp (scanChunk p) Q tt.
Proof.
  intros HQ. unfold scanChunk. destruct (skip_stars_spec p false) as (k & q & Ep & Hq & ->). specialize (HQ k q Ep Hq). cbn [orb].
  eapply wp_call; [apply (wp_scan q []); lia|]. intros n [] ->. rewrite zlen_nil, Z.add_0_l.
  pose proof (scan_app q false) as E. destruct (scan false q) as [a b]. cbn [fst snd] in *. subst q. rewrite zlen_app.
  destruct b as [|c b].
  - rewrite zlen_nil, Z.add_0_r, Z.ltb_irrefl, app_nil_r. by apply wp_ret.
  - pose proof (mid_range a c b) as Hr. rewrite zlen_app in Hr. destruct (Z.ltb_spec (zlen a) (zlen a + zlen (c :: b))); [|lia].
    apply wp_ret. unfold zlen. by rewrite Nat2Z.id, take_app_length, drop_app_length.
Qed.
