(* ===== verification/PathMatchChunk.v ===== *)
(** * path: shell patterns, one chunk

    Each function against the grammar, in two directions: a text that follows the
    grammar is read as its terms, and what is read without an error follows the grammar. *)

From S2P Require Import Prelude.
From S2P Require Import Slice.
From S2P Require Import Text.
From S2P Require Import Utf8.
From S2P Require Import Utf8Spec.
From S2P Require Import PathMatch.
From S2P Require Import PathMatchSpec.

(** ** getEsc *)

Lemma character_head b r : character b r -> exists c t, b = c :: t /\ c <> dash /\ c <> rbrack.
Proof.
  intros [r' Hr Hn|r' Hr]; [|by exists backslash, (utf8_bytes r')]. destruct (utf8_head r' Hr) as (c & t & -> & Hc & _).
  exists c, t. split; [done|]. rewrite !not_elem_of_cons in Hn. destruct Hn as (_ & H1 & H2 & _).
  destruct Hc as [[-> _]|Hc]; [done|]. split; intros ->; vm_compute in Hc; by apply Hc.
Qed.
Lemma character_byte b r : character b r -> Forall byte b.
Proof.
  intros [r' Hr Hn|r' Hr]; [by apply utf8_bytes_byte|]. constructor; [vm_compute; split; congruence|by apply utf8_bytes_byte].
Qed.

Lemma esc_rune_ok r rest : valid_rune r -> rest <> [] -> Forall byte rest ->
  wp (esc_rune (utf8_bytes r ++ rest)) (fun x _ => x = (r, rest, None)) tt.
Proof.
  intros Hr Hrest Hb. unfold esc_rune. rewrite decode_rune by done. cbv zeta. apply wp_bind, wp_sfrom.
  destruct rest as [|c rest]; [done|]. rewrite zlen_zero_cons. apply wp_ret. destruct (Z.eqb_spec r RuneError) as [->|]; [|done]. done.
Qed.
Lemma esc_rune_sound chunk : Forall byte chunk -> chunk <> [] ->
  wp (esc_rune chunk) (fun '(r, n, e) _ => e = None -> valid_rune r /\ chunk = utf8_bytes r ++ n /\ n <> []) tt.
Proof.
  intros Hb Hne. unfold esc_rune. destruct (decode_split chunk Hb Hne) as (a & b & -> & Ha & Hn & H).
  destruct (DecodeRuneInString (a ++ b)) as [r n]. cbn [fst snd] in *. subst n. cbv zeta. apply wp_bind, wp_sfrom, wp_ret.
  destruct b as [|c b]; [done|]. rewrite zlen_zero_cons. destruct H as [(r' & Hr & -> & ->)|[= -> Hl]]; [done|].
  rewrite Hl. done.
Qed.

Lemma getEsc_ok b r rest : character b r -> rest <> [] -> Forall byte rest ->
  wp (getEsc (b ++ rest)) (fun x _ => x = (r, rest, None)) tt.
Proof.
  intros Hc Hrest Hb. destruct (character_head b r Hc) as (c & t & Eb & H1 & H2). unfold getEsc.
  assert (Eg : b ++ rest = c :: t ++ rest) by (by rewrite Eb). rewrite Eg, zlen_zero_cons.
  apply wp_bind, wp_bind, wp_head, wp_ret. destruct (Z.eqb_spec c dash), (Z.eqb_spec c rbrack); [done..|]. cbn [orb].
  apply wp_bind, wp_head. destruct Hc as [r Hr Hn|r Hr].
  - rewrite !not_elem_of_cons in Hn. destruct (utf8_head r Hr) as (c' & t' & E & Hc & _). rewrite E in Eb. injection Eb as -> ->.
    assert (c <> backslash) as Hbs by (destruct Hc as [[-> _]|Hc]; [naive_solver|intros ->; vm_compute in Hc; by apply Hc]).
    destruct (Z.eqb_spec c backslash); [done|]. apply wp_bind, wp_ret. cbn [andb]. rewrite <- Eg. by apply esc_rune_ok.
  - injection Eb as <- <-. change (backslash =? backslash) with true. cbn [app]. apply wp_bind, wp_sfrom1.
    destruct (utf8_head r Hr) as (c' & t' & E & _). replace (zlen (utf8_bytes r ++ rest) =? 0) with false by (by rewrite E; cbn [app]; rewrite zlen_zero_cons).
    cbn [andb]. by apply esc_rune_ok.
Qed.
Lemma getEsc_sound chunk : Forall byte chunk ->
  wp (getEsc chunk) (fun '(r, n, e) _ => e = None -> exists b, character b r /\ chunk = b ++ n /\ n <> []) tt.
Proof.
  intros Hb. unfold getEsc. destruct chunk as [|c chunk]; [by apply wp_bind, wp_ret, wp_ret|]. rewrite zlen_zero_cons.
  apply wp_bind, wp_bind, wp_head, wp_ret. destruct (Z.eqb_spec c dash), (Z.eqb_spec c rbrack); cbn [orb]; try by apply wp_ret.
  apply wp_bind, wp_head. destruct (Z.eqb_spec c backslash) as [->|Hbs]; cbn [andb].
  - apply wp_bind, wp_sfrom1. apply Forall_cons in Hb as [_ Hb]. destruct chunk as [|d chunk]; [by apply wp_ret|]. rewrite zlen_zero_cons.
    eapply wp_mono; [by apply esc_rune_sound|]. intros [[r n1] e] [] H E. destruct (H E) as (Hr & Ec & Hn). exists (backslash :: utf8_bytes r).
    split; [by apply escaped|]. by rewrite Ec.
  - apply wp_bind, wp_ret. eapply wp_mono; [by apply esc_rune_sound|]. intros [[r n1] e] [] H E. destruct (H E) as (Hr & Ec & Hn).
    exists (utf8_bytes r). split; [|done]. apply plain; [done|]. destruct (utf8_head r Hr) as (c' & t & Eu & Hc & _). rewrite Eu in Ec.
    injection Ec as -> _. rewrite !not_elem_of_cons. destruct Hc as [[-> _]|Hc]; [split_and!; [done..|apply not_elem_of_nil]|].
    split_and!; [intros Er..|apply not_elem_of_nil]; subst r; vm_compute in Eu; injection Eu as <- _; vm_compute in Hc; by apply Hc.
Qed.

(** ** Character classes *)

Lemma ranges_head body rs p : ranges_of body rs -> exists c t, body ++ rbrack :: p = c :: t /\ c <> dash.
Proof.
  intros [|b r body' rs' Hb _|b lo b' hi body' rs' Hb _ _]; [by exists rbrack, p|..]; destruct (character_head _ _ Hb) as (c & t & -> & Hc & _); by do 2 eexists.
Qed.
Lemma zlen_cons_nonzero {A} (l : list A) : l <> [] -> (zlen l >? 0) = true.
Proof. destruct l; [done|]. intros _. apply zlen_pos. Qed.

(** One range, up to the update of the state. *)
Lemma wp_class_range (Q : list Z * bool * Z + (list Z * bool + error) -> unit -> Prop) b lo b' hi rest r mat nrange :
  character b lo -> (b' = [] /\ hi = lo /\ (exists c t, rest = c :: t /\ c <> dash) \/ (exists e, b' = dash :: e /\ character e hi)) ->
  rest <> [] -> Forall byte (b' ++ rest) -> Q (inl (rest, mat || (lo <=? r) && (r <=? hi), nrange + 1)) tt ->
  wp (class_step r (b ++ b' ++ rest, mat, nrange)) Q tt.
Proof.
  intros Hb Hb' Hrest Hbyte HQ. unfold class_step. destruct (character_head _ _ Hb) as (c & t & Eb & _ & Hc).
  assert (Eg : b ++ b' ++ rest = c :: t ++ b' ++ rest) by (by rewrite Eb). rewrite zlen_cons_nonzero by (by rewrite Eg).
  rewrite Eg at 1. apply wp_bind, wp_bind, wp_head, wp_ret. destruct (Z.eqb_spec c rbrack); [done|]. cbn [andb].
  eapply wp_call; [apply getEsc_ok; [exact Hb|by destruct b', rest|done]|]. intros ? [] ->.
  destruct Hb' as [(-> & -> & c' & t' & -> & Hd)|(e & -> & He)]; cbn [app].
  - apply wp_bind, wp_head. destruct (Z.eqb_spec c' dash); [done|]. apply wp_bind, wp_ret. by apply wp_continue.
  - apply wp_bind, wp_head. rewrite Z.eqb_refl. apply wp_bind, wp_bind, wp_sfrom1.
    eapply wp_mono; [apply getEsc_ok; [exact He|done|]|].
    { cbn [app] in Hbyte. apply Forall_cons in Hbyte as [_ Hbyte]. by apply Forall_app in Hbyte as [_ ?]. }
    intros ? [] ->. by apply wp_continue.
Qed.
Lemma class_ok body rs r p : ranges_of body rs -> forall mat nrange fuel, Forall byte (body ++ rbrack :: p) ->
  0 <= nrange -> 0 < nrange \/ rs <> [] -> (length body < fuel)%nat ->
  wp (loop fuel (class_step r) (body ++ rbrack :: p, mat, nrange)) (fun x _ => x = inl (p, mat || in_ranges rs r)) tt.
Proof.
  induction 1 as [|b lo body rs Hb Hrs IH|b lo b' hi body rs Hb Hb' Hrs IH]; intros mat nrange [|fuel] Hbyte Hn Hne Hf; try lia.
  - apply wp_loop_S. unfold class_step. cbn [app]. rewrite zlen_pos. apply wp_bind, wp_bind, wp_head, wp_ret.
    destruct Hne as [Hne|]; [|done]. rewrite Z.eqb_refl, Z.gtb_ltb. destruct (Z.ltb_spec 0 nrange); [|lia]. cbn [andb].
    apply wp_bind, wp_sfrom1, wp_break. by rewrite orb_false_r.
  - apply wp_loop_S. rewrite <- app_assoc in *. apply Forall_app in Hbyte as [_ Hbyte].
    apply (wp_class_range _ b lo [] lo); [done|left; split_and!; [done..|by apply (ranges_head body rs p)]|by destruct body|done|].
    destruct (character_head _ _ Hb) as (c & t & Eb & _). rewrite Eb in Hf. cbn in Hf. rewrite length_app in Hf.
    eapply wp_mono; [apply IH; [done|lia|left; lia|lia]|]. intros x _ ->. cbn [in_ranges existsb]. by rewrite <- orb_assoc.
  - apply wp_loop_S. rewrite <- app_assoc in *. apply Forall_app in Hbyte as [_ Hbyte]. rewrite <- app_comm_cons, <- app_assoc in *.
    rewrite app_comm_cons in *. apply (wp_class_range _ b lo (dash :: b') hi); [done|right; eauto|by destruct body|done|].
    destruct (character_head _ _ Hb) as (c & t & Eb & _). rewrite Eb in Hf. cbn in Hf. rewrite length_app in Hf. cbn in Hf. rewrite length_app in Hf.
    apply Forall_app in Hbyte as [_ Hbyte]. eapply wp_mono; [apply IH; [done|lia|left; lia|lia]|]. intros x _ ->. cbn [in_ranges existsb]. by rewrite <- orb_assoc.
Qed.

(** What was read as a class: the ranges before a bracket. *)
Definition class_result (chunk : list Z) (nrange : Z) (x : list Z * bool + error) : Prop :=
  match x with
  | inl (p, _) => exists body rs, chunk = body ++ rbrack :: p /\ ranges_of body rs /\ (0 < nrange \/ rs <> [])
  | inr _ => True
  end.
Lemma class_sound r : forall fuel chunk mat nrange, Forall byte chunk -> 0 <= nrange -> (length chunk < fuel)%nat ->
  wp (loop fuel (class_step r) (chunk, mat, nrange)) (fun x _ => class_result chunk nrange x) tt.
Proof.
  induction fuel as [|fuel IH]; intros chunk mat nrange Hb Hn Hf; [lia|]. apply wp_loop_S. unfold class_step at 1. apply wp_bind.
  assert (Hends : wp (if zlen chunk >? 0 then c <- sread chunk 0 ;; mret ((c =? rbrack) && (nrange >? 0)) else mret false : G bool)
    (fun x _ => x = true -> 0 < nrange /\ exists p, chunk = rbrack :: p) tt).
  { destruct chunk as [|c chunk]; [by apply wp_ret|]. rewrite zlen_pos. apply wp_bind, wp_head, wp_ret. intros E. reflect. subst. eauto. }
  eapply wp_mono; [exact Hends|]. clear Hends. intros [] [] He.
  { destruct (He eq_refl) as (Hn' & p & ->). apply wp_bind, wp_sfrom1, wp_break. exists [], []. split_and!; [done|constructor|by left]. }
  clear He. eapply wp_call; [by apply getEsc_sound|]. intros [[lo c1] [e|]] [] H1; [by apply wp_break|].
  destruct (H1 eq_refl) as (b & Hb1 & -> & Hc1). clear H1. destruct c1 as [|c c1]; [done|]. apply wp_bind, wp_head.
  destruct (character_head _ _ Hb1) as (d & t & Eb & _). apply Forall_app in Hb as [_ Hb]. rewrite Eb, length_app in Hf. cbn in Hf.
  destruct (Z.eqb_spec c dash) as [->|Hd].
  - apply wp_bind, wp_bind, wp_sfrom1. apply Forall_cons in Hb as [_ Hb]. eapply wp_mono; [by apply getEsc_sound|].
    intros [[hi c2] [e|]] [] H2; [by apply wp_break|]. destruct (H2 eq_refl) as (b' & Hb2 & -> & _). apply wp_continue.
    apply Forall_app in Hb as [_ Hb]. rewrite length_app in Hf. eapply wp_mono; [apply IH; [done|lia|lia]|].
    intros [[p m]|e] [] H; [|done]. destruct H as (body & rs & -> & Hrs & _). exists (b ++ dash :: b' ++ body), ((lo, hi) :: rs).
    split; [by rewrite <- app_assoc, <- app_comm_cons, <- app_assoc|]. split; [by constructor|by right].
  - apply wp_bind, wp_ret, wp_continue. eapply wp_mono; [apply IH; [done|lia|cbn; lia]|].
    intros [[p m]|e] [] H; [|done]. destruct H as (body & rs & E & Hrs & _). exists (b ++ body), ((lo, lo) :: rs).
    split; [by rewrite E, <- app_assoc|]. split; [by constructor|by right].
Qed.

(** ** matchChunk, one term *)

(** The name and the failure flag after a term. *)
Definition taken (t : term) (s : list Z) (failed : bool) (s' : list Z) (failed' : bool) : Prop :=
  Forall byte s' /\
  if failed then failed' = true
  else match eat1 t s with Some u => failed' = false /\ s' = u | None => failed' = true end.

Lemma wp_decode_from (Q : list Z -> unit -> Prop) s : Forall byte s -> s <> [] ->
  (Forall byte (drop (Z.to_nat (DecodeRuneInString s).2) s) -> Q (drop (Z.to_nat (DecodeRuneInString s).2) s) tt) ->
  wp (sfrom s (DecodeRuneInString s).2) Q tt.
Proof.
  intros Hb Hne HQ. specialize (HQ ltac:(by apply Forall_drop)). destruct (decode_split s Hb Hne) as (a & b & Es & _ & Hn & _).
  rewrite Hn in *. revert HQ. rewrite Es. intros HQ. apply wp_sfrom. unfold zlen in HQ. by rewrite Nat2Z.id, drop_app_length in HQ.
Qed.

Lemma wp_any_term (Q : list Z * list Z * bool + (list Z * bool * option error) -> unit -> Prop) chunk s failed : Forall byte s ->
  (forall s' f', taken Any s failed s' f' -> Q (inl (chunk, s', f')) tt) -> wp (chunk_step (question :: chunk, s, failed)) Q tt.
Proof.
  intros Hb HQ. unfold chunk_step. rewrite zlen_pos. cbv zeta. apply wp_bind, wp_head.
  change (question =? lbrack) with false. rewrite Z.eqb_refl. cbv iota. destruct s as [|d s].
  - rewrite zlen_nil, orb_true_r. apply wp_bind, wp_ret, wp_bind, wp_sfrom1, wp_continue, HQ. split; [done|]. by destruct failed.
  - rewrite zlen_zero_cons, orb_false_r. destruct failed; cbn [negb].
    + by apply wp_bind, wp_ret, wp_bind, wp_sfrom1, wp_continue, HQ.
    + apply wp_bind, wp_bind, wp_head. rewrite (surjective_pairing (DecodeRuneInString (d :: s))). apply wp_bind.
      apply wp_decode_from; [done..|]. intros Hd. apply wp_ret, wp_bind, wp_sfrom1, wp_continue, HQ. split; [done|]. cbn [eat1].
      by destruct (d =? slash).
Qed.

(** A literal, after an escape or not. *)
Definition lit_step (chunk s : list Z) (failed : bool) : G (list Z * list Z * bool + (list Z * bool * option error)) :=
  '(s, failed) <- (if negb failed then (c <- sread chunk 0 ;; d <- sread s 0 ;; s <- sfrom s 1 ;; mret (s, negb (c =? d)))
                   else mret (s, failed)) ;;
  chunk <- sfrom chunk 1 ;;
  continue (chunk, s, failed).
Lemma wp_lit_step (Q : list Z * list Z * bool + (list Z * bool * option error) -> unit -> Prop) c chunk s failed : Forall byte s ->
  (forall s' f', taken (Lit c) s failed s' f' -> Q (inl (chunk, s', f')) tt) -> wp (lit_step (c :: chunk) s (failed || (zlen s =? 0))) Q tt.
Proof.
  intros Hb HQ. unfold lit_step. destruct s as [|d s].
  - rewrite zlen_nil, orb_true_r. apply wp_bind, wp_ret, wp_bind, wp_sfrom1, wp_continue, HQ. split; [done|]. by destruct failed.
  - rewrite zlen_zero_cons, orb_false_r. destruct failed; cbn [negb].
    + by apply wp_bind, wp_ret, wp_bind, wp_sfrom1, wp_continue, HQ.
    + apply wp_bind, wp_bind, wp_head, wp_bind, wp_head, wp_bind, wp_sfrom1, wp_ret, wp_bind, wp_sfrom1, wp_continue, HQ.
      apply Forall_cons in Hb as [_ Hb]. split; [done|]. cbn [eat1]. by destruct (c =? d).
Qed.
Lemma wp_literal_term (Q : list Z * list Z * bool + (list Z * bool * option error) -> unit -> Prop) c chunk s failed : Forall byte s ->
  c <> lbrack -> c <> question -> c <> backslash ->
  (forall s' f', taken (Lit c) s failed s' f' -> Q (inl (chunk, s', f')) tt) -> wp (chunk_step (c :: chunk, s, failed)) Q tt.
Proof.
  intros Hb H1 H2 H3 HQ. unfold chunk_step. rewrite zlen_pos. cbv zeta. apply wp_bind, wp_head.
  destruct (Z.eqb_spec c lbrack), (Z.eqb_spec c question), (Z.eqb_spec c backslash); [done..|]. apply wp_bind, wp_ret. cbn [andb].
  by apply wp_lit_step.
Qed.
Lemma wp_escape_term (Q : list Z * list Z * bool + (list Z * bool * option error) -> unit -> Prop) chunk s failed : Forall byte s ->
  (chunk = [] -> Q (inr ([], false, Some ErrBadPattern)) tt) ->
  (forall c chunk' s' f', chunk = c :: chunk' -> taken (Lit c) s failed s' f' -> Q (inl (chunk', s', f')) tt) ->
  wp (chunk_step (backslash :: chunk, s, failed)) Q tt.
Proof.
  intros Hb H0 HQ. unfold chunk_step. rewrite zlen_pos. cbv zeta. apply wp_bind, wp_head.
  change (backslash =? lbrack) with false. change (backslash =? question) with false. change (backslash =? backslash) with true. cbv iota.
  apply wp_bind, wp_sfrom1. destruct chunk as [|c chunk]; [by apply wp_break, H0|]. rewrite zlen_zero_cons. cbn [andb].
  apply wp_lit_step; [done|]. intros s' f' Ht. by eapply HQ.
Qed.

(** A class up to its ranges. *)
Definition class_term (negated : bool) (chunk s : list Z) (r : Z) (failed : bool) : G (list Z * list Z * bool + (list Z * bool * option error)) :=
  res <- loop (S (length chunk)) (class_step r) (chunk, false, 0) ;;
  match res with
  | inr e => break ([], false, Some e)
  | inl (chunk, mat) => continue (chunk, s, failed || Bool.eqb mat negated)
  end.
Lemma wp_class_term (Q : list Z * list Z * bool + (list Z * bool * option error) -> unit -> Prop) chunk s failed : Forall byte s ->
  (forall (negated : bool) chunk' r s' f', chunk = (if negated then [caret] else []) ++ chunk' -> (negated = false -> head chunk' <> Some caret) ->
     (forall rs, taken (Class negated rs) s failed s' (f' || Bool.eqb (in_ranges rs r) negated)) ->
     wp (class_term negated chunk' s' r f') Q tt) ->
  wp (chunk_step (lbrack :: chunk, s, failed)) Q tt.
Proof.
  intros Hb HQ. unfold chunk_step. rewrite zlen_pos. cbv zeta. apply wp_bind, wp_head. rewrite Z.eqb_refl.
  set (f' := failed || (zlen s =? 0)).
  eapply (wp_call _ _ (fun '(r, s') _ => forall negated rs, taken (Class negated rs) s failed s' (f' || Bool.eqb (in_ranges rs r) negated))).
  { unfold f'. destruct s as [|d s]; [rewrite zlen_nil, orb_true_r; apply wp_ret; intros negated rs; split; [done|by destruct failed]|].
    rewrite zlen_zero_cons, orb_false_r. destruct failed; cbn [negb]; [by apply wp_ret|].
    rewrite (surjective_pairing (DecodeRuneInString (d :: s))). apply wp_bind, wp_decode_from; [done..|]. intros Hd. apply wp_ret.
    intros negated rs. split; [done|]. cbn [eat1]. by destruct (Bool.eqb _ negated). }
  intros [r s'] [] Ht. apply wp_bind, wp_sfrom1. destruct chunk as [|c chunk].
  - apply wp_bind, wp_ret, wp_bind, wp_ret. by apply (HQ false [] r s' f').
  - rewrite zlen_pos. apply wp_bind, wp_bind, wp_head, wp_ret. destruct (Z.eqb_spec c caret) as [->|Hc].
    + apply wp_bind, wp_sfrom1. by apply (HQ true chunk r s' f').
    + apply wp_bind, wp_ret. apply (HQ false (c :: chunk) r s' f'); [done|cbn; congruence|done].
Qed.

Lemma ranges_nonempty body rs : ranges_of body rs -> rs <> [] -> body <> [].
Proof. intros [|b ? ? ? Hb _|b ? ? ? ? ? Hb _ _]; [done|..]; by destruct (character_head _ _ Hb) as (d & t & -> & _). Qed.
Lemma class_split (negated neg' : bool) body rs p chunk' : ranges_of body rs -> rs <> [] ->
  (negated = false -> head body <> Some caret) -> (neg' = false -> head chunk' <> Some caret) ->
  (if negated then [caret] else []) ++ body ++ rbrack :: p = (if neg' then [caret] else []) ++ chunk' ->
  neg' = negated /\ chunk' = body ++ rbrack :: p.
Proof.
  intros Hrs Hne H H' E. apply ranges_nonempty in Hrs; [|done]. destruct body as [|c body]; [done|].
  destruct negated, neg'; cbn [app] in E.
  - by injection E as <-.
  - subst chunk'. by destruct (H' eq_refl).
  - injection E as -> _. by destruct (H eq_refl).
  - done.
Qed.

Lemma step_ok p t rest s failed : first_term p t rest -> t <> Star -> Forall byte p -> Forall byte s ->
  wp (chunk_step (p, s, failed)) (fun x _ => exists s' f', x = inl (rest, s', f') /\ taken t s failed s' f') tt.
Proof.
  intros H Ht Hp Hs. destruct H as [p|p|negated body rs p Hrs Hne Hhd|c p|c p Hc]; [done|..].
  - apply wp_any_term; eauto.
  - apply wp_class_term; [done|]. intros neg' chunk' r s' f' E Hhd' Htk.
    assert (neg' = negated /\ chunk' = body ++ rbrack :: p) as [-> ->].
    { by eapply class_split. }
    unfold class_term. apply Forall_cons in Hp as [_ Hp]. apply Forall_app in Hp as [_ Hp].
    eapply wp_call; [apply (class_ok body rs r p Hrs); [done|lia|by right|rewrite length_app; lia]|]. intros x [] ->. cbn [orb].
    apply wp_continue. eauto.
  - apply wp_escape_term; [done..|]. intros c' chunk' s' f' [= -> ->] Htk. eauto.
  - rewrite !not_elem_of_cons in Hc. destruct Hc as (H1 & H2 & H3 & H4 & _). apply wp_literal_term; eauto.
Qed.
Lemma step_sound c p s failed : c <> star -> Forall byte (c :: p) -> Forall byte s ->
  wp (chunk_step (c :: p, s, failed)) (fun x _ => match x with
    | inl (rest, s', _) => Forall byte s' /\ exists t, t <> Star /\ first_term (c :: p) t rest
    | inr (_, ok, e) => ok = false /\ e <> None end) tt.
Proof.
  intros Hc Hp Hs. destruct (decide (c = lbrack)) as [->|H1]; [|destruct (decide (c = question)) as [->|H2]; [|destruct (decide (c = backslash)) as [->|H3]]].
  - apply wp_class_term; [done|]. intros negated chunk' r s' f' E Hhd Ht. unfold class_term. rewrite E in *.
    apply Forall_cons in Hp as [_ Hp]. apply Forall_app in Hp as [_ Hp].
    eapply wp_call; [apply class_sound; [done|lia|lia]|]. intros [[rest m]|e] [] Hx; [|by apply wp_break].
    destruct Hx as (body & rs & Ec & Hrs & [?|Hne]); [lia|]. apply wp_continue. destruct (Ht []) as [Hb _]. split; [done|].
    exists (Class negated rs). split; [done|]. rewrite Ec in *. apply first_class; [done..|].
    intros Hn Hh. apply (Hhd Hn). pose proof (ranges_nonempty _ _ Hrs Hne). by destruct body.
  - apply wp_any_term; [done|]. intros s' f' [Hb _]. split; [done|]. exists Any. split; [done|constructor].
  - apply wp_escape_term; [done..|]. intros d chunk' s' f' -> [Hb _]. split; [done|]. exists (Lit d). split; [done|constructor].
  - apply wp_literal_term; [done..|]. intros s' f' [Hb _]. split; [done|]. exists (Lit c). split; [done|]. constructor.
    rewrite !not_elem_of_cons. split_and!; try done. apply not_elem_of_nil.
Qed.

(** ** Terms and the scan *)

(** The bytes that [scan] passes inside brackets. *)
Definition passed (pre : list Z) : Prop := forall x, scan true (pre ++ x) = (pre ++ (scan true x).1, (scan true x).2).
Lemma passed_nil : passed [].
Proof. intros x. cbn [app]. by destruct (scan true x). Qed.
Lemma passed_app a b : passed a -> passed b -> passed (a ++ b).
Proof. intros Ha Hb x. by rewrite <- !app_assoc, Ha, Hb. Qed.
Lemma passed_byte c : c <> backslash -> c <> rbrack -> passed [c].
Proof.
  intros H1 H2 x. cbn [app scan]. destruct (Z.eqb_spec c backslash), (Z.eqb_spec c rbrack); try done. rewrite andb_false_r.
  destruct (scan true x). by destruct (c =? lbrack).
Qed.
Lemma passed_high t : Forall (fun b => 128 <= b) t -> passed t.
Proof.
  induction 1 as [|c t Hc _ IH]; [apply passed_nil|].
  apply (passed_app [c] t); [|done]. apply passed_byte; intros ->; vm_compute in Hc; by apply Hc.
Qed.
Lemma passed_character b r : character b r -> passed b.
Proof.
  intros [r' Hr Hn|r' Hr]; destruct (utf8_head r' Hr) as (c & t & -> & Hc & Ht).
  - apply (passed_app [c] t); [|by apply passed_high]. rewrite !not_elem_of_cons in Hn. destruct Hn as (H1 & _ & H2 & _).
    destruct Hc as [[-> _]|Hc]; [by apply passed_byte|]. apply passed_byte; intros ->; vm_compute in Hc; by apply Hc.
  - apply (passed_app [backslash; c] t); [|by apply passed_high]. intros x. cbn [app scan]. rewrite Z.eqb_refl. by destruct (scan true x).
Qed.
Lemma passed_ranges body rs : ranges_of body rs -> passed body.
Proof.
  assert (passed [dash]) by (by apply passed_byte).
  induction 1 as [|b r body rs Hb _ IH|b lo b' hi body rs Hb Hb' _ IH]; [apply passed_nil|..].
  - apply passed_app; [by eapply passed_character|done].
  - apply passed_app; [by eapply passed_character|]. apply (passed_app [dash]); [done|]. apply passed_app; [by eapply passed_character|done].
Qed.
Lemma first_term_pre p t rest : first_term p t rest -> exists pre, pre <> [] /\ p = pre ++ rest /\
  (forall x, first_term (pre ++ x) t x) /\
  (t <> Star -> forall x, scan false (pre ++ x) = (pre ++ (scan false x).1, (scan false x).2)).
Proof.
  intros [q|q|negated body rs q Hrs Hne Hhd|c q|c q Hc].
  - exists [star]. split_and!; [done|done|intros x; constructor|done].
  - exists [question]. split_and!; [done|done|intros x; constructor|]. intros _ x. cbn. by destruct (scan false x).
  - exists (lbrack :: (if negated then [caret] else []) ++ body ++ [rbrack]).
    assert (Ea : forall x, (lbrack :: (if negated then [caret] else []) ++ body ++ [rbrack]) ++ x = lbrack :: (if negated then [caret] else []) ++ body ++ rbrack :: x)
      by (intros x; by rewrite <- app_comm_cons, <- !app_assoc).
    split; [done|]. split; [by rewrite Ea|]. split; [intros x; rewrite Ea; by constructor|]. intros _ x. rewrite Ea.
    assert (Hp : passed ((if negated then [caret] else []) ++ body)).
    { apply passed_app; [|by eapply passed_ranges]. destruct negated; [by apply passed_byte|apply passed_nil]. }
    cbn [scan]. change (lbrack =? backslash) with false. change (lbrack =? lbrack) with true. cbv iota. rewrite app_assoc, Hp.
    cbn [scan]. change (rbrack =? backslash) with false. change (rbrack =? lbrack) with false. change (rbrack =? rbrack) with true. cbv iota.
    destruct (scan false x). cbn [fst snd app]. by rewrite <- !app_assoc.
  - exists [backslash; c]. split_and!; [done|done|intros x; constructor|]. intros _ x. cbn [app scan]. rewrite Z.eqb_refl. by destruct (scan false x).
  - exists [c]. split_and!; [done|done|intros x; by constructor|]. intros _ x. rewrite !not_elem_of_cons in Hc. destruct Hc as (H1 & _ & H3 & H4 & _).
    cbn [app scan]. destruct (Z.eqb_spec c backslash), (Z.eqb_spec c lbrack), (Z.eqb_spec c star); try done. cbn [andb].
    destruct (scan false x). by destruct (c =? rbrack).
Qed.

Lemma spells_app a b ts ts' : spells a ts -> spells b ts' -> spells (a ++ b) (ts ++ ts').
Proof.
  induction 1 as [|p t rest ts Hf _ IH]; [done|]. intros Hb. destruct (first_term_pre _ _ _ Hf) as (pre & _ & -> & H & _).
  rewrite <- app_assoc. cbn [app]. eapply spells_cons; [apply H|by apply IH].
Qed.
Lemma spells_star p ts : spells (star :: p) ts -> exists ts', ts = Star :: ts' /\ spells p ts'.
Proof.
  intros H. inversion H as [|? t rest ts' Hf Hs]; subst. inversion Hf as [| | | |? ? Hc]; subst; [by exists ts'|].
  exfalso. apply Hc. by left.
Qed.
Lemma spells_stars k p ts : spells (replicate k star ++ p) ts -> exists ts', ts = replicate k Star ++ ts' /\ spells p ts'.
Proof.
  revert ts. induction k as [|k IH]; intros ts H; [by exists ts|]. apply spells_star in H as (ts1 & -> & (ts2 & -> & H)%IH). by exists ts2.
Qed.
Lemma spells_replicate k : spells (replicate k star) (replicate k Star).
Proof. induction k as [|k IH]; [constructor|]. eapply spells_cons; [apply first_star|done]. Qed.
Lemma spells_nil_inv ts : spells [] ts -> ts = [].
Proof. intros H. inversion H as [|? t rest ts' Hf Hs]; [done|]. by apply first_term_pre in Hf as (pre & Hne & E & _); destruct pre. Qed.
(** The terms of a pattern split where the scan splits it. *)
Lemma spells_scan p ts : spells p ts -> exists ts1 ts2, ts = ts1 ++ ts2 /\ Star ∉ ts1 /\ spells (scan false p).1 ts1 /\ spells (scan false p).2 ts2.
Proof.
  induction 1 as [|p t rest ts Hf Hs IH]; [exists [], []; split_and!; [done|apply not_elem_of_nil|constructor..]|].
  assert (Hst : t = Star \/ t <> Star) by (destruct t; auto). destruct Hst as [->|Ht].
  - inversion Hf; subst. exists [], (Star :: ts). cbn. split_and!; [done|apply not_elem_of_nil|constructor|]. by eapply spells_cons.
  - destruct (first_term_pre _ _ _ Hf) as (pre & _ & -> & H1 & H2). rewrite (H2 Ht). destruct IH as (ts1 & ts2 & -> & H3 & H4 & H5).
    exists (t :: ts1), ts2. cbn [fst snd]. split; [done|]. split; [rewrite not_elem_of_cons; by split|]. split; [|done]. by eapply spells_cons.
Qed.
