(* ===== verification/PathMatchTheorems.v ===== *)
(** * path: shell patterns, theorems

    [Match] takes the first match after each star; [Match_exact] says when that
    finds every match, and the examples at the end that it does not always. *)

From S2P Require Import Prelude.
From S2P Require Import Slice.
From S2P Require Import Text.
From S2P Require Import Utf8.
From S2P Require Import Utf8Spec.
From S2P Require Import PathMatch.
From S2P Require Import PathMatchSpec.
From S2P Require Import PathMatchChunk.

(** ** Patterns have one reading *)

Lemma character_unique b r x b' r' x' : character b r -> character b' r' -> x <> [] -> x' <> [] ->
  Forall byte x -> Forall byte x' -> b ++ x = b' ++ x' -> r = r' /\ x = x'.
Proof.
  intros Hb Hb' Hx Hx' Hbx Hbx' E. pose proof (getEsc_ok b r x Hb Hx Hbx) as H. rewrite E in H.
  pose proof (wp_and _ _ _ _ H (getEsc_ok b' r' x' Hb' Hx' Hbx')) as (v & u & _ & -> & [= -> ->])%wp_elim. done.
Qed.
(** A range, a single character included, and what follows it. *)
Definition range_item (b b2 : list Z) (lo hi : Z) (x : list Z) : Prop :=
  character b lo /\ x <> [] /\ (b2 = [] /\ hi = lo /\ head x <> Some dash \/ exists e, b2 = dash :: e /\ character e hi).
Lemma item_unique b b2 lo hi x b' b2' lo' hi' x' : range_item b b2 lo hi x -> range_item b' b2' lo' hi' x' ->
  Forall byte (b ++ b2 ++ x) -> b ++ b2 ++ x = b' ++ b2' ++ x' -> lo = lo' /\ hi = hi' /\ x = x'.
Proof.
  intros (Hb & Hx & H) (Hb' & Hx' & H') Hbyte E.
  assert (Hbyte2 : Forall byte (b2' ++ x')) by (rewrite E in Hbyte; by apply Forall_app in Hbyte as [_ ?]).
  apply Forall_app in Hbyte as [_ Hbyte].
  destruct (character_unique _ _ (b2 ++ x) _ _ (b2' ++ x') Hb Hb') as [-> E2]; [by destruct b2|by destruct b2'|done..|].
  destruct H as [(-> & -> & Hd)|(e & -> & He)], H' as [(-> & -> & Hd')|(e' & -> & He')]; cbn [app] in *.
  - done.
  - by rewrite E2 in Hd.
  - by rewrite <- E2 in Hd'.
  - injection E2 as E2. apply Forall_cons in Hbyte as [_ Hbyte], Hbyte2 as [_ Hbyte2]. apply Forall_app in Hbyte as [_ Hbyte], Hbyte2 as [_ Hbyte2].
    by destruct (character_unique _ _ _ _ _ _ He He' Hx Hx' Hbyte Hbyte2 E2) as [-> ->].
Qed.
Lemma ranges_item body rs : ranges_of body rs -> body = [] /\ rs = [] \/
  exists b b2 lo hi body' rs', body = b ++ b2 ++ body' /\ rs = (lo, hi) :: rs' /\ ranges_of body' rs' /\
    forall p, range_item b b2 lo hi (body' ++ rbrack :: p).
Proof.
  intros [|b r body' rs' Hb Hr|b lo b' hi body' rs' Hb Hb' Hr]; [by left|right..].
  - exists b, [], r, r, body', rs'. split_and!; [done..|]. intros p. split; [done|]. split; [by destruct body'|left]. split_and!; [done..|].
    destruct (ranges_head _ _ p Hr) as (c & t & -> & Hc). cbn. congruence.
  - exists b, (dash :: b'), lo, hi, body', rs'. split_and!; [done..|]. intros p. split; [done|]. split; [by destruct body'|right]. by exists b'.
Qed.
Lemma ranges_unique rs : forall body p body' rs' p', ranges_of body rs -> ranges_of body' rs' -> Forall byte (body ++ rbrack :: p) ->
  body ++ rbrack :: p = body' ++ rbrack :: p' -> rs = rs' /\ p = p'.
Proof.
  assert (Hno : forall b b2 lo hi x p, range_item b b2 lo hi x -> b ++ b2 ++ x <> rbrack :: p).
  { intros b b2 lo hi x p (Hb & _) E. destruct (character_head _ _ Hb) as (c & t & -> & _ & Hc). injection E as -> _. done. }
  induction rs as [|x rs IH]; intros body p body' rs' p' [[-> Ers]|(b & b2 & lo & hi & body1 & rs1 & -> & Ers & H & Hi)]%ranges_item
    [[-> ->]|(b' & b2' & lo' & hi' & body1' & rs1' & -> & -> & H' & Hi')]%ranges_item Hb E; try done; cbn [app] in E;
    rewrite <- ?app_assoc in E; rewrite <- ?app_assoc in Hb.
  - by injection E as ->.
  - by destruct (Hno _ _ _ _ _ p (Hi' p') (eq_sym E)).
  - by destruct (Hno _ _ _ _ _ p' (Hi p) E).
  - injection Ers as -> ->. destruct (item_unique _ _ _ _ _ _ _ _ _ _ (Hi p) (Hi' p') Hb E) as (-> & -> & E').
    rewrite !Forall_app in Hb. destruct (IH _ _ _ _ _ H H' ltac:(apply Forall_app; naive_solver) E') as [-> ->]. done.
Qed.
Lemma first_term_unique p t rest t' rest' : Forall byte p -> first_term p t rest -> first_term p t' rest' -> t = t' /\ rest = rest'.
Proof.
  intros Hb H H'. destruct H as [q|q|negated body rs q Hrs Hne Hhd|c q|c q Hc]; inversion H' as [|?|negated' body' rs' ? Hrs' Hne' Hhd' E| |? ? Hc']; subst;
    try done; try (exfalso; by apply Hc'; set_solver); try (exfalso; by apply Hc; set_solver).
  apply Forall_cons in Hb as [_ Hb]. apply Forall_app in Hb as [_ Hb].
  assert (Hhd2 : negated' = false -> head (body' ++ rbrack :: rest') <> Some caret).
  { intros Hn. pose proof (ranges_nonempty _ _ Hrs' Hne'). destruct body'; [done|by apply Hhd']. }
  destruct (class_split negated negated' body rs q (body' ++ rbrack :: rest') Hrs Hne Hhd Hhd2) as [-> E2]; [done|].
  by destruct (ranges_unique _ _ _ _ _ _ Hrs Hrs' Hb (eq_sym E2)) as [-> ->].
Qed.
Lemma spells_unique p ts ts' : Forall byte p -> spells p ts -> spells p ts' -> ts = ts'.
Proof.
  intros Hb H. revert ts' Hb. induction H as [|p t rest ts Hf _ IH]; intros ts' Hb H'; [by apply spells_nil_inv in H'|].
  inversion H' as [E|? t' rest' ts1 Hf' H1]; subst.
  - by destruct (first_term_pre _ _ _ Hf) as ([|] & ? & ? & _).
  - destruct (first_term_unique _ _ _ _ _ Hb Hf Hf') as [-> ->]. f_equal. apply IH; [|done].
    destruct (first_term_pre _ _ _ Hf) as (pre & _ & -> & _). by apply Forall_app in Hb as [_ ?].
Qed.

(** ** One chunk *)

Definition chunk_result (ts : list term) (s : list Z) (failed : bool) : list Z * bool * option error :=
  if failed then ([], false, None)
  else match eat ts s with Some t => (t, true, None) | None => ([], false, None) end.
Lemma chunk_result_taken t ts s failed s' f' : taken t s failed s' f' -> chunk_result ts s' f' = chunk_result (t :: ts) s failed.
Proof.
  intros [_ H]. unfold chunk_result. destruct failed; [by rewrite H|]. cbn [eat]. destruct (eat1 t s) as [u|]; [by destruct H as [-> ->]|by rewrite H].
Qed.
Lemma chunk_ok chunk ts : spells chunk ts -> Star ∉ ts -> Forall byte chunk -> forall s failed fuel, Forall byte s -> (length chunk < fuel)%nat ->
  wp (loop fuel chunk_step (chunk, s, failed)) (fun x _ => x = chunk_result ts s failed) tt.
Proof.
  induction 1 as [|p t rest ts Hf _ IH]; intros Hst Hb s failed [|fuel] Hs Hl; try lia; apply wp_loop_S.
  - unfold chunk_step. rewrite zlen_nil. change (0 >? 0) with false. by destruct failed; apply wp_break.
  - apply not_elem_of_cons in Hst as [Ht Hst]. destruct (first_term_pre _ _ _ Hf) as (pre & Hne & Ep & _).
    eapply wp_mono; [apply step_ok; eauto|]. intros x [] (s' & f' & -> & Htk). rewrite Ep in Hb, Hl. apply Forall_app in Hb as [_ Hb].
    rewrite length_app in Hl. assert (length pre <> 0%nat) by (by destruct pre). pose proof Htk as [Hs' _].
    eapply wp_mono; [apply IH; [done..|lia]|]. intros x _ ->. by eapply chunk_result_taken.
Qed.
Lemma chunk_sound fuel : forall chunk s failed, scan false chunk = (chunk, []) -> Forall byte chunk -> Forall byte s -> (length chunk < fuel)%nat ->
  wp (loop fuel chunk_step (chunk, s, failed))
     (fun '(_, ok, e) _ => if e is Some _ then ok = false else exists ts, spells chunk ts /\ Star ∉ ts) tt.
Proof.
  induction fuel as [|fuel IH]; intros chunk s failed Hsc Hb Hs Hl; [lia|]. apply wp_loop_S. destruct chunk as [|c p].
  { unfold chunk_step. rewrite zlen_nil. change (0 >? 0) with false. destruct failed; apply wp_break; exists []; (split; [constructor|apply not_elem_of_nil]). }
  assert (Hc : c <> star) by (intros ->; done).
  eapply wp_mono; [by apply step_sound|]. intros [[[rest s'] f']|[[t ok] e]] []; [|intros [-> He]; by destruct e].
  intros (Hs' & t & Ht & Hf). destruct (first_term_pre _ _ _ Hf) as (pre & Hne & Ep & _ & Hpre). rewrite Ep in Hsc, Hb, Hl.
  apply Forall_app in Hb as [_ Hb]. rewrite length_app in Hl. assert (length pre <> 0%nat) by (by destruct pre).
  rewrite (Hpre Ht) in Hsc. injection Hsc as H1%app_inv_head H2.
  eapply wp_mono; [apply IH; [by rewrite (surjective_pairing (scan false rest)), H1, H2|done|done|lia]|].
  intros [[u ok] [e|]] []; [done|]. intros (ts & Hsp & Hst). exists (t :: ts). split; [by eapply spells_cons|]. rewrite not_elem_of_cons. by split.
Qed.
Lemma wp_matchChunk (Q : list Z * bool * option error -> unit -> Prop) chunk s : scan false chunk = (chunk, []) -> Forall byte chunk -> Forall byte s ->
  (forall ts, spells chunk ts -> Star ∉ ts -> Q (chunk_result ts s false) tt) ->
  ((forall ts, Star ∉ ts -> ~ spells chunk ts) -> forall t e, Q (t, false, Some e) tt) ->
  wp (matchChunk chunk s) Q tt.
Proof.
  intros Hsc Hb Hs H1 H2. unfold matchChunk. pose proof (chunk_sound (S (length chunk)) chunk s false Hsc Hb Hs ltac:(lia)) as ([[t ok] e] & [] & E & H)%wp_elim.
  unfold wp. rewrite E. destruct e as [e|].
  - rewrite H. apply H2. intros ts Hst Hsp. pose proof (chunk_ok chunk ts Hsp Hst Hb s false (S (length chunk)) Hs ltac:(lia)) as H3.
    unfold wp in H3. rewrite E in H3. unfold chunk_result in H3. by destruct (eat ts s).
  - destruct H as (ts & Hsp & Hst). pose proof (chunk_ok chunk ts Hsp Hst Hb s false (S (length chunk)) Hs ltac:(lia)) as H3.
    unfold wp in H3. rewrite E in H3. rewrite H3. by apply H1.
Qed.

(** ** The whole pattern *)

Lemma eat_suffix ts : forall s t, eat ts s = Some t -> exists p, s = p ++ t.
Proof.
  induction ts as [|x ts IH]; intros s t E; cbn [eat] in E; [exists []; by injection E as ->|].
  destruct (eat1 x s) as [u|] eqn:E1; [|done]. apply IH in E as [p ->].
  assert (exists q, s = q ++ p ++ t) as [q ->]; [|exists (q ++ p); by rewrite <- app_assoc].
  destruct x as [| |neg rs|c], s as [|d s]; try done; cbn [eat1] in E1; case_match; try done; injection E1 as E1.
  - eexists. rewrite <- E1. symmetry. apply take_drop.
  - eexists. rewrite <- E1. symmetry. apply take_drop.
  - exists [d]. by rewrite E1.
Qed.
Lemma matches_at k ts s :
  matches (replicate k Star ++ ts) s <-> exists x y, s = x ++ y /\ no_slash x /\ (k = 0%nat -> x = []) /\ matches ts y.
Proof.
  destruct k as [|k].
  - split; [intros H; exists [], s; split_and!; [done|apply not_elem_of_nil|done|done]|]. intros (x & y & -> & _ & Hx & H). by rewrite Hx.
  - rewrite matches_stars, matches_star. split; intros (x & y & H1 & H2 & H3); exists x, y; naive_solver.
Qed.

(** When the first match is enough. *)
Definition reliable (ts : list term) (name : list Z) : Prop := Star ∉ ts \/ ascii_text name /\ Forall slashless ts.
Lemma reliable_part ts ts' p s : reliable (ts ++ ts') (p ++ s) -> reliable ts' s.
Proof.
  unfold reliable, ascii_text. rewrite elem_of_app, !Forall_app. naive_solver.
Qed.

Definition verdict (pattern name : list Z) (r : bool * option error) : Prop :=
  match r.2 with
  | Some _ => r.1 = false /\ forall ts, ~ spells pattern ts
  | None => exists ts, spells pattern ts /\ (r.1 = true -> matches ts name) /\ (reliable ts name -> matches ts name -> r.1 = true)
  end.

Section Chunk.
Context (k : nat) (a b : list Z) (ts1 : list term).
Hypotheses (Ha : spells a ts1) (Hs1 : Star ∉ ts1) (Hscan : forall ts, spells (a ++ b) ts -> exists ts2, spells b ts2)
  (Hb : b = [] \/ exists b', b = star :: b').

(** The chunk matches at the front of [y] and leaves [t]. *)
Definition fits (y t : list Z) : Prop := eat ts1 y = Some t /\ (b = [] -> t = []).

Lemma spells_whole ts2 : spells b ts2 -> spells (replicate k star ++ a ++ b) (replicate k Star ++ ts1 ++ ts2).
Proof. intros H2. apply spells_app; [apply spells_replicate|by apply spells_app]. Qed.
Lemma matches_whole ts2 name : spells b ts2 -> matches (replicate k Star ++ ts1 ++ ts2) name ->
  exists x y t, name = x ++ y /\ no_slash x /\ (k = 0%nat -> x = []) /\ fits y t /\ matches ts2 t.
Proof.
  intros H2 (x & y & -> & Hx & Hk & (t & E & H)%(matches_eat _ _ _ Hs1))%matches_at. exists x, y, t. split_and!; [done..| |done].
  split; [done|]. intros Eb. rewrite Eb in H2. apply spells_nil_inv in H2 as ->. by inversion H.
Qed.

(** The loop goes on with the first match. *)
Lemma verdict_continue x y t r : no_slash x -> (k = 0%nat -> x = []) -> fits y t ->
  (forall x' y' t', x ++ y = x' ++ y' -> (length x' < length x)%nat -> ~ fits y' t') ->
  verdict b t r -> verdict (replicate k star ++ a ++ b) (x ++ y) r.
Proof.
  intros Hx Hk [E Et] Hno. unfold verdict. destruct r as [r [e|]]; cbn [fst snd].
  - intros [-> H]. split; [done|]. intros ts (ts' & -> & Hsp)%spells_stars. destruct (Hscan _ Hsp) as [ts2 H2]. by apply (H ts2).
  - intros (ts2 & H2 & Hsound & Hcomp). exists (replicate k Star ++ ts1 ++ ts2). split; [by apply spells_whole|]. split.
    + intros Hr. apply matches_at. exists x, y. split_and!; [done..|]. apply matches_eat; [done|]. eauto.
    + intros Hrel Hm. pose proof Hm as (x' & y' & t' & Ex & Hx' & Hk' & [E' Et'] & Hm')%matches_whole; [|done].
      assert (Hlen : (length x <= length x')%nat).
      { destruct (decide (length x <= length x')%nat); [done|]. destruct (Hno x' y' t' Ex ltac:(lia)). by split. }
      assert (exists x2, x' = x ++ x2 /\ y = x2 ++ y') as (x2 & -> & ->).
      { apply app_eq_app in Ex as (l & [[-> ->]|[-> ->]]); [|by exists l]. rewrite length_app in Hlen. assert (l = []) as -> by (by destruct l; [|cbn in Hlen; lia]).
        exists []. by rewrite !app_nil_r. }
      destruct (eat_suffix _ _ _ E) as [p Ep]. pose proof Hrel as Hrel'. rewrite Ep, app_assoc in Hrel'. rewrite app_assoc in Hrel'. apply reliable_part in Hrel'.
      apply Hcomp; [done|]. destruct Hb as [Eb|[b' Eb]].
      * rewrite (Et Eb). by rewrite (Et' Eb) in Hm'.
      * rewrite Eb in H2. apply spells_star in H2 as (ts3 & -> & _). destruct Hrel as [Hst|[Hasc Hsl]].
        { destruct Hst. rewrite !elem_of_app. right; right. by left. }
        unfold no_slash in Hx'. rewrite elem_of_app in Hx'. rewrite !Forall_app in Hsl. destruct Hsl as (_ & Hsl & _). unfold ascii_text in Hasc. rewrite Forall_app in Hasc. destruct Hasc as [_ Hasc].
        destruct (eat_shift ts1 x2 y' t t') as (z & -> & Hz); [done|done|unfold no_slash; naive_solver|done|done|].
        apply matches_star in Hm' as (u & v & -> & Hu & Hm'). apply matches_star. exists (z ++ u), v. rewrite app_assoc. split_and!; [done| |done].
        unfold no_slash in *. rewrite elem_of_app. naive_solver.
Qed.
End Chunk.

Lemma index_from_neg s c : forall i, 0 <= i -> (index_from s c i <? 0) = negb (bool_decide (c ∈ s)).
Proof.
  induction s as [|x s IH]; intros i Hi; cbn [index_from]; [by rewrite bool_decide_eq_false_2 by apply not_elem_of_nil|].
  destruct (Z.eqb_spec x c) as [->|Hx].
  - rewrite bool_decide_eq_true_2 by left. destruct (Z.ltb_spec i 0); [lia|done].
  - rewrite IH by lia. f_equal. apply bool_decide_ext. rewrite elem_of_cons. naive_solver.
Qed.

(** The loop after a star finds the first match at or after [i + 1] before a slash. *)
Definition first_fit (b : list Z) (ts1 : list term) (name : list Z) (res : list Z + option error) : Prop :=
  match res with
  | inl t => exists x y, name = x ++ y /\ no_slash x /\ fits b ts1 y t /\
      forall x' y' t', name = x' ++ y' -> (length x' < length x)%nat -> ~ fits b ts1 y' t'
  | inr None => forall x y t, name = x ++ y -> no_slash x -> ~ fits b ts1 y t
  | inr (Some _) => False
  end.
Lemma star_loop a b ts1 : spells a ts1 -> Star ∉ ts1 -> scan false a = (a, []) -> Forall byte a ->
  forall fuel pre rest, Forall byte (pre ++ rest) -> no_slash pre -> (length rest < fuel)%nat ->
  (forall x' y' t', pre ++ rest = x' ++ y' -> (length x' <= length pre)%nat -> ~ fits b ts1 y' t') ->
  wp (loop fuel (star_step a b (pre ++ rest)) (zlen pre)) (fun res _ => first_fit b ts1 (pre ++ rest) res) tt.
Proof.
  intros Ha Hs1 Hsc Hab. induction fuel as [|fuel IH]; intros pre rest Hby Hpre Hf Hno; [lia|]. apply wp_loop_S.
  destruct rest as [|c rest].
  { unfold star_step. rewrite app_nil_r in *. rewrite Z.ltb_irrefl. apply wp_bind, wp_ret, wp_break. intros x y t E _. apply (Hno x y t E).
    rewrite E, length_app. lia. }
  assert (Eg : pre ++ c :: rest = (pre ++ [c]) ++ rest) by (by rewrite <- app_assoc). unfold star_step at 1. pose proof (mid_range pre c rest).
  destruct (Z.ltb_spec (zlen pre) (zlen (pre ++ c :: rest))); [|lia]. apply wp_bind, wp_bind, wp_sread. exists c. split; [rewrite at_app_r by lia; by rewrite Z.sub_diag|].
  apply wp_ret. destruct (Z.eqb_spec c slash) as [->|Hc]; cbn [negb].
  { apply wp_break. intros x y t E Hx. apply (Hno x y t E). destruct (decide (length x <= length pre)%nat) as [|Hl]; [done|].
    exfalso. apply Hx. apply app_eq_app in E as (l & [[-> _]|[-> El]]); [rewrite length_app in Hl; lia|].
    apply elem_of_app. right. destruct l; [cbn in Hl; rewrite app_nil_r in Hl; lia|]. injection El as <- _. by left. }
  assert (Hpre' : no_slash (pre ++ [c])) by (unfold no_slash in *; rewrite elem_of_app, list_elem_of_singleton; naive_solver).
  assert (Hstep : forall x' y', pre ++ c :: rest = x' ++ y' -> (length x' <= length (pre ++ [c]))%nat -> (length x' <= length pre)%nat \/ x' = pre ++ [c] /\ y' = rest).
  { intros x' y' E Hl. rewrite length_app in Hl. cbn in Hl. destruct (decide (length x' <= length pre)%nat); [by left|right]. rewrite Eg in E.
    apply app_inj_1 in E as [-> ->]; [done|]. rewrite length_app. cbn. lia. }
  apply wp_bind. rewrite Eg at 1. replace (zlen pre + 1) with (zlen (pre ++ [c])) by (by rewrite zlen_app). apply wp_sfrom.
  assert (Hbr : Forall byte rest) by (rewrite Forall_app, Forall_cons in Hby; naive_solver).
  assert (Hgo : (forall t, ~ fits b ts1 rest t) ->
    wp (loop fuel (star_step a b (pre ++ c :: rest)) (zlen (pre ++ [c]))) (fun res _ => first_fit b ts1 (pre ++ c :: rest) res) tt).
  { intros Hr. rewrite Eg. apply IH; [by rewrite <- Eg|done|cbn in Hf; lia|]. rewrite <- Eg. intros x' y' t' E Hl.
    destruct (Hstep _ _ E Hl) as [Hl'|[-> ->]]; [by apply (Hno x' y' t')|apply Hr]. }
  apply wp_bind. apply wp_matchChunk; [done..| |intros Hn; by destruct (Hn ts1 Hs1)].
  intros ts Hts _. rewrite <- (spells_unique a ts1 ts Hab Ha Hts). unfold chunk_result, fits in *. destruct (eat ts1 rest) as [t|] eqn:Et.
  - destruct ((zlen b =? 0) && (zlen t >? 0)) eqn:Ef.
    + apply wp_continue. apply Hgo. intros t' [[= <-] H']. apply andb_true_iff in Ef as [E1 E2]. apply Z.eqb_eq, zlen_zero in E1. by rewrite (H' E1) in E2.
    + apply wp_break. exists (pre ++ [c]), rest. split; [done|]. split; [done|]. split.
      * split; [done|]. intros ->. rewrite zlen_nil in Ef. cbn in Ef. destruct t; [done|]. by rewrite zlen_pos in Ef.
      * intros x' y' t' E Hl. destruct (Hstep _ _ E ltac:(lia)) as [Hl'|[-> ->]]; [by apply (Hno x' y' t')|lia].
  - apply wp_continue. apply Hgo. by intros t' [? _].
Qed.

(** The check of the rest fails exactly when it is malformed. *)
Lemma scan_parts p k q : p = replicate k star ++ q -> p <> [] -> head q <> Some star -> Forall byte p ->
  (length (scan false q).2 < length p)%nat /\ Forall byte (scan false q).1 /\ Forall byte (scan false q).2 /\
  p = replicate k star ++ (scan false q).1 ++ (scan false q).2.
Proof.
  intros -> Hp Hq Hb. pose proof (scan_app q false) as E. assert (Hne : k <> 0%nat \/ (scan false q).1 <> []).
  { destruct k; [right|by left]. destruct q as [|c q]; [done|]. apply scan_nonempty. intros ->. by apply Hq. }
  destruct (scan false q) as [a b]. cbn [fst snd] in *. subst q. rewrite !Forall_app in Hb. split_and!; try naive_solver.
  rewrite !length_app, length_replicate. destruct Hne as [Hk|Hl]; [lia|]. destruct a; [done|]. cbn. lia.
Qed.
Lemma spells_parts k q ts : spells (replicate k star ++ q) ts ->
  exists ts1 ts2, ts = replicate k Star ++ ts1 ++ ts2 /\ Star ∉ ts1 /\ spells (scan false q).1 ts1 /\ spells (scan false q).2 ts2.
Proof. intros (ts' & -> & (ts1 & ts2 & -> & H)%spells_scan)%spells_stars. by exists ts1, ts2. Qed.
Lemma check_loop fuel : forall p, Forall byte p -> (length p < fuel)%nat ->
  wp (loop fuel check_step p) (fun e _ => if e is Some _ then forall ts, ~ spells p ts else exists ts, spells p ts) tt.
Proof.
  induction fuel as [|fuel IH]; intros p Hb Hf; [lia|]. apply wp_loop_S. unfold check_step at 1. destruct p as [|c p].
  { rewrite zlen_nil. apply wp_break. exists []. constructor. }
  rewrite zlen_pos. apply wp_bind, wp_scanChunk. intros k q Ep Hq. destruct (scan_parts _ k q Ep ltac:(done) Hq Hb) as (Hl & Hba & Hbb & Ep').
  destruct (scan_rest q false) as [_ Hsc]. apply wp_bind. apply wp_matchChunk; [done..| |].
  - intros ts1 H1 Hs1. unfold chunk_result. assert (wp (continue (scan false q).2 : G (list Z + option error))
      (fun r s' => match r with
        | inl a' => wp (loop fuel check_step a') (fun e _ => if e is Some _ then forall ts, ~ spells (c :: p) ts else exists ts, spells (c :: p) ts) s'
        | inr e => if e is Some _ then forall ts, ~ spells (c :: p) ts else exists ts, spells (c :: p) ts end) tt).
    { apply wp_continue. eapply wp_mono; [apply IH; [done|lia]|]. intros [e|] [] H.
      - intros ts Hts. rewrite Ep in Hts. apply spells_parts in Hts as (_ & ts2 & _ & _ & _ & H2). by apply (H ts2).
      - destruct H as [ts2 H2]. rewrite Ep'. eexists. by apply spells_whole. }
    by destruct (eat ts1 []).
  - intros Hno t e. apply wp_break. intros ts Hts. rewrite Ep in Hts. apply spells_parts in Hts as (ts1 & _ & _ & Hs1 & H1 & _). by apply (Hno ts1).
Qed.

Section Step.
Context (p name : list Z) (k : nat) (q : list Z) (fuel : nat).
Let a := (scan false q).1.
Let b := (scan false q).2.
Hypotheses (Ep : p = replicate k star ++ a ++ b) (Hq : head q <> Some star) (Hba : Forall byte a) (Hbb : Forall byte b) (Hbn : Forall byte name)
  (IH : forall name, Forall byte name -> wp (loop fuel match_step (b, name)) (fun r _ => verdict b name r) tt).

Lemma go_on ts1 x y t : spells a ts1 -> Star ∉ ts1 -> name = x ++ y -> no_slash x -> (k = 0%nat -> x = []) -> fits b ts1 y t ->
  (forall x' y' t', x ++ y = x' ++ y' -> (length x' < length x)%nat -> ~ fits b ts1 y' t') ->
  wp (loop fuel match_step (b, t)) (fun r _ => verdict p name r) tt.
Proof.
  intros Ha Hs1 En Hx Hk Hfit Hno. pose proof Hfit as [Ht _]. apply eat_suffix in Ht as [u Eu].
  eapply wp_mono; [apply (IH t)|].
  { rewrite En, Eu, !Forall_app in Hbn. naive_solver. }
  intros r [] Hr. rewrite Ep, En. eapply verdict_continue; eauto; [|by destruct (scan_rest q false)].
  intros ts Hts. unfold a, b in *. rewrite scan_app in Hts. apply spells_scan in Hts as (? & ts2 & _ & _ & _ & H2). by exists ts2.
Qed.

(** No match: the verdict depends on the rest of the pattern only. *)
Lemma give_up_here ts1 : spells a ts1 -> Star ∉ ts1 -> (forall x y t, name = x ++ y -> no_slash x -> (k = 0%nat -> x = []) -> ~ fits b ts1 y t) ->
  wp (err <- loop (S (length b)) check_step b ;; break (false, err) : G (list Z * list Z + bool * option error))
     (fun r _ => match r with inl st => wp (loop fuel match_step st) (fun r _ => verdict p name r) tt | inr r => verdict p name r end) tt.
Proof.
  intros Ha Hs1 Hno. eapply wp_call; [apply check_loop; [done|lia]|]. intros e [] He. apply wp_break. unfold verdict. cbn [fst snd]. destruct e as [e|].
  - split; [done|]. intros ts Hts. rewrite Ep in Hts. unfold a, b in Hts. rewrite scan_app in Hts. apply spells_parts in Hts as (_ & ts2 & _ & _ & _ & H2). by apply (He ts2).
  - destruct He as [ts2 H2]. exists (replicate k Star ++ ts1 ++ ts2). split; [rewrite Ep; by apply spells_whole|]. split; [done|].
    intros _ (x & y & t & Ex & Hx & Hk & Hfit & _)%(matches_whole k b ts1 Hs1 ts2 name H2). by destruct (Hno x y t Ex Hx Hk Hfit).
Qed.

Lemma match_rest : (a = [] -> k = 0%nat) -> 
  wp ('(t, ok, err) <- matchChunk a name ;;
      if ok && ((zlen t =? 0) || (zlen b >? 0)) then continue (b, t)
      else
        match err with
        | Some e => break (false, Some e)
        | None =>
            found <- (if negb (bool_decide (k = 0%nat)) then loop (S (length name)) (star_step a b name) 0 else mret (inr None)) ;;
            match found with
            | inl t => continue (b, t)
            | inr (Some e) => break (false, Some e)
            | inr None => err <- loop (S (length b)) check_step b ;; break (false, err)
            end
        end : G (list Z * list Z + bool * option error))
     (fun r _ => match r with inl st => wp (loop fuel match_step st) (fun r _ => verdict p name r) tt | inr r => verdict p name r end) tt.
Proof.
  intros Hak. destruct (scan_rest q false) as [_ Hsc]. apply wp_bind. apply wp_matchChunk; [done..| |].
  2: { intros Hno t e. cbn [andb]. apply wp_break. split; [done|]. intros ts Hts. rewrite Ep in Hts. unfold a, b in Hts. rewrite scan_app in Hts.
    apply spells_parts in Hts as (ts1 & _ & _ & Hs1 & H1 & _). by apply (Hno ts1). }
  intros ts1 Ha Hs1. assert (Hfirst : (exists t, fits b ts1 name t /\ chunk_result ts1 name false = (t, true, None) /\ (zlen t =? 0) || (zlen b >? 0) = true) \/
    (forall t, ~ fits b ts1 name t) /\ exists t ok, chunk_result ts1 name false = (t, ok, None) /\ ok && ((zlen t =? 0) || (zlen b >? 0)) = false).
  { unfold chunk_result, fits. destruct (eat ts1 name) as [t|]; [|right; split; [naive_solver|by exists [], false]].
    destruct t as [|c t]; [left; by exists []|]. destruct b as [|d b'] eqn:Eb.
    - right. split; [|by exists (c :: t), true; rewrite zlen_zero_cons]. intros t' [[= <-] H]. by specialize (H eq_refl).
    - left. exists (c :: t). by rewrite zlen_pos, orb_true_r. }
  destruct Hfirst as [(t & Hfit & -> & Hg)|(Hnot & t & ok & -> & Hg)]; rewrite ?Hg; cbn [andb].
  - apply wp_continue. apply (go_on ts1 [] name t); [done..|apply not_elem_of_nil|done|done|cbn; lia].
  - destruct (decide (k = 0%nat)) as [Hk|Hk].
    + rewrite bool_decide_eq_true_2 by done. cbn [negb]. apply wp_bind, wp_ret. apply (give_up_here ts1); [done..|].
      intros x y t' E _ Hx. rewrite E, (Hx Hk) in Hnot. apply Hnot.
    + rewrite bool_decide_eq_false_2 by done. cbn [negb]. eapply wp_call.
      * apply (star_loop a b ts1 Ha Hs1 Hsc Hba (S (length name)) [] name); [done|apply not_elem_of_nil|lia|].
        intros x' y' t' E Hl. destruct x'; [|cbn in Hl; lia]. cbn in E. subst y'. apply Hnot.
      * intros [t'|[e|]] [] Hf; [|done|].
        -- destruct Hf as (x & y & En & Hx & Hfit & Hno). cbn [app] in *. apply wp_continue. apply (go_on ts1 x y t'); [done..|]. by rewrite <- En.
        -- apply (give_up_here ts1); [done..|]. intros x y t' E Hx _. by apply (Hf x y t').
Qed.
End Step.

Lemma match_loop fuel : forall p name, Forall byte p -> Forall byte name -> (length p < fuel)%nat ->
  wp (loop fuel match_step (p, name)) (fun r _ => verdict p name r) tt.
Proof.
  induction fuel as [|fuel IH]; intros p name Hp Hn Hf; [lia|]. apply wp_loop_S. unfold match_step at 1. destruct p as [|c p].
  { rewrite zlen_nil. apply wp_break. exists []. split; [constructor|]. destruct name as [|d name].
    - split; [constructor|done].
    - rewrite zlen_zero_cons. split; [done|]. intros _ H. by inversion H. }
  rewrite zlen_pos. apply wp_bind, wp_scanChunk. intros k q Ep Hq. destruct (scan_parts _ k q Ep ltac:(done) Hq Hp) as (Hl & Hba & Hbb & Ep').
  destruct (negb (bool_decide (k = 0%nat)) && (zlen (scan false q).1 =? 0)) eqn:Eend.
  - apply andb_true_iff in Eend as [Hk Ha]. apply negb_true_iff, bool_decide_eq_false in Hk. apply Z.eqb_eq, zlen_zero in Ha.
    assert (q = []) as Eq by (destruct q as [|d q]; [done|]; by destruct (scan_nonempty d q ltac:(intros ->; by apply Hq))).
    rewrite Eq, app_nil_r in Ep. apply wp_break. unfold IndexByteString. rewrite index_from_neg by lia.
    exists (replicate k Star). split; [rewrite Ep; apply spells_replicate|]. cbn [fst].
    assert (Hm : matches (replicate k Star) name <-> slash ∉ name).
    { rewrite <- (app_nil_r (replicate k Star)), matches_at. split.
      - intros (x & y & -> & Hx & _ & Hy). inversion Hy. by rewrite app_nil_r.
      - intros Hns. exists name, []. rewrite app_nil_r. split_and!; [done..|constructor]. }
    rewrite Hm, negb_true_iff, bool_decide_eq_false. by split.
  - eapply wp_mono; [apply (match_rest (c :: p) name k q fuel); [done..| |]|by intros [st|r] []].
    + intros name' Hn'. apply IH; [done|done|lia].
    + intros Ha. rewrite Ha, zlen_nil, andb_true_r in Eend. apply negb_false_iff, bool_decide_eq_true in Eend. done.
Qed.

(** C36: [Match] returns for every pattern and name.  It reports ErrBadPattern, with a
    false result, exactly for the patterns outside the grammar of its comment; every other
    pattern has one reading as a sequence of terms.  A name reported as matching does match.
    Conversely, a name that matches is reported when the pattern has no star, or when the
    name is ASCII and no character class of the pattern accepts the slash: [Match] keeps
    the first match of what follows a star, and only then is that no restriction, as
    [Match_slash_class] shows. *)
Theorem Match_exact (pattern name : list Z) : Forall byte pattern -> Forall byte name ->
  exists r e, Match pattern name = Done (r, e) /\
  match e with
  | Some ErrBadPattern => r = false /\ forall ts, ~ spells pattern ts
  | None => exists ts, spells pattern ts /\ (forall ts', spells pattern ts' -> ts' = ts) /\
      (r = true -> matches ts name) /\ (reliable ts name -> matches ts name -> r = true)
  end.
Proof.
  intros Hp Hn. destruct (wp_result _ _ _ (match_loop (S (length pattern)) pattern name Hp Hn ltac:(lia))) as ([r e] & E & H).
  exists r, e. split; [exact E|]. unfold verdict in H. destruct e as [[]|]; [exact H|]. destruct H as (ts & H1 & H2). exists ts.
  split; [done|]. split; [|exact H2]. intros ts' H'. exact (spells_unique _ _ _ Hp H' H1).
Qed.
Lemma Match_exact_witness :
  (exists ts, spells (bytes "a*[0-9]") ts /\ matches ts (bytes "ab7")) /\ (forall ts, ~ spells (bytes "a*[0-") ts).
Proof.
  split.
  - destruct (Match_exact (bytes "a*[0-9]") (bytes "ab7")) as (r & e & E & H); [unfold byte; refine (bool_decide_unpack _ _); by vm_compute..|].
    assert (Ev : Match (bytes "a*[0-9]") (bytes "ab7") = Done (true, None)) by (by vm_compute). rewrite Ev in E. injection E as <- <-.
    destruct H as (ts & H1 & _ & H2 & _). exists ts. split; [exact H1|by apply H2].
  - destruct (Match_exact (bytes "a*[0-") (bytes "ab7")) as (r & e & E & H); [unfold byte; refine (bool_decide_unpack _ _); by vm_compute..|].
    assert (Ev : Match (bytes "a*[0-") (bytes "ab7") = Done (false, Some ErrBadPattern)) by (by vm_compute). rewrite Ev in E. injection E as <- <-.
    exact (proj2 H).
Defined.

(** A class that accepts the slash: the first match of the class takes the letter and the
    second star cannot pass the slash, while the name matches with the letter under the
    first star. *)
Example Match_slash_class :
  Match (bytes "*[/a]*c") (bytes "a/c") = Done (false, None) /\
  matches [Star; Class false [(chr "/", chr "/"); (chr "a", chr "a")]; Star; Lit (chr "c")] (bytes "a/c").
Proof.
  split; [by vm_compute|]. apply matches_skip; [done|]. apply matches_stop.
  eapply matches_char; [by vm_compute|]. apply matches_stop. eapply matches_char; [by vm_compute|constructor].
Qed.
(** A star may end inside a character: one character matches a pattern for two. *)
Example Match_splits_character : Match (bytes "*??") (utf8_bytes 0x20AC) = Done (true, None).
Proof. by vm_compute. Qed.
