(* ===== verification/Hex.v ===== *)
(** * encoding/hex: hexadecimal text ([encoding/hex/hex.go])

    The destination of [Encode] and [Decode] is the store; the source is another slice,
    or a part of the same array that the destination does not overlap.  Readers and
    writers are parameters, functions from their state to a result and the next state. *)

From S2P Require Import Prelude.
From S2P Require Import Slice.
From S2P Require Import Text.

Inductive error : Type :=
| InvalidByteError (b : Z)
| ErrLength
| EOF
| ErrUnexpectedEOF
| ErrClosed
| IOError (code : Z).

(** A computation on a part of the store. *)
Definition zoom {S T A} (get : S -> T) (set : S -> T -> S) (m : M T A) : M S A :=
  fun s => match m (get s) with
           | Done (a, t) => Done (a, set s t)
           | Panic p => Panic p
           | NoFuel => NoFuel
           end.

Definition hextable : list Z := bytes "0123456789abcdef".
Definition ff (n : nat) : list Z := replicate n 0xff.
Definition reverseHexTable : list Z :=
  ff 16 ++ ff 16 ++ ff 16 ++
  [0; 1; 2; 3; 4; 5; 6; 7; 8; 9] ++ ff 6 ++
  ff 1 ++ [10; 11; 12; 13; 14; 15] ++ ff 9 ++
  ff 16 ++
  ff 1 ++ [10; 11; 12; 13; 14; 15] ++ ff 9 ++
  ff 16 ++ ff 16 ++ ff 16 ++ ff 16 ++ ff 16 ++ ff 16 ++ ff 16 ++ ff 16 ++ ff 16.

Definition EncodedLen (n : Z) : Z := int64 (n * 2).
Definition DecodedLen (x : Z) : Z := quot x 2.

(** ** Slices *)

Fixpoint encode_loop (src : list Z) (j : Z) : M (list Z) unit :=
  match src with
  | [] => mret tt
  | v :: src =>
      c <- sread hextable (v >> 4) ;;
      store j c ;;
      d <- sread hextable (v .& 0x0f) ;;
      store (j + 1) d ;;
      encode_loop src (j + 2)
  end.
Definition Encode (src : list Z) : M (list Z) Z :=
  encode_loop src 0 ;;
  mret (zlen src * 2).

(** The loop of [Decode] ends with its two indices, or the function returns from it. *)
Definition decode_step (src : list Z) (ij : Z * Z) : M (list Z) (Z * Z + (Z * Z + Z * option error)) :=
  let '(i, j) := ij in
  if j <? zlen src - 1 then
    p <- sread src j ;;
    q <- sread src (j + 1) ;;
    a <- sread reverseHexTable p ;;
    b <- sread reverseHexTable q ;;
    if a >? 0x0f then break (inr (i, Some (InvalidByteError p)))
    else if b >? 0x0f then break (inr (i, Some (InvalidByteError q)))
    else
      store i (u8 (a << 4) .| b) ;;
      continue (i + 1, j + 2)
  else break (inl (i, j)).
Definition Decode (src : list Z) : M (list Z) (Z * option error) :=
  r <- loop (S (length src)) (decode_step src) (0, 0) ;;
  match r with
  | inr res => mret res
  | inl (i, j) =>
      if Z.rem (zlen src) 2 =? 1 then
        c <- sread src j ;;
        a <- sread reverseHexTable c ;;
        if a >? 0x0f then mret (i, Some (InvalidByteError c)) else mret (i, Some ErrLength)
      else mret (i, None)
  end.

Definition make (n : Z) : outcome (list Z) := if n <? 0 then Panic SliceBounds else Done (replicate (Z.to_nat n) 0).

Definition EncodeToString (src : list Z) : outcome (list Z) :=
  obind (make (EncodedLen (zlen src))) (fun dst => exec (Encode src) dst).
Definition DecodeString (s : list Z) : outcome (list Z * option error) :=
  obind (make (DecodedLen (zlen s))) (fun dst =>
    match Decode s dst with
    | Done ((n, err), dst) => if n <=? zlen dst then Done (take (Z.to_nat n) dst, err) else Panic SliceBounds
    | Panic p => Panic p
    | NoFuel => NoFuel
    end).

(** What [slices.Grow] leaves in the [n] bytes after the length of a slice. *)
Section Append.
Context (room : Z -> list Z).

Definition AppendEncode (dst src : list Z) : outcome (list Z) :=
  let n := EncodedLen (zlen src) in
  if n <? 0 then Panic SliceBounds
  else obind (exec (Encode src) (room n)) (fun out => Done (dst ++ take (Z.to_nat n) out)).
Definition AppendDecode (dst src : list Z) : outcome (list Z * option error) :=
  let n := DecodedLen (zlen src) in
  match Decode src (room n) with
  | Done ((n, err), out) => if n <=? zlen out then Done (dst ++ take (Z.to_nat n) out, err) else Panic SliceBounds
  | Panic p => Panic p
  | NoFuel => NoFuel
  end.
End Append.

(** ** Streams *)

Definition bufferSize : Z := 1024.

Section Writer.
(** [w.Write]: the count and the error it returns, and the writer afterwards. *)
Context {W : Type} (w_Write : W -> list Z -> Z * option error * W).

Record encoder : Type := mkEncoder {
  enc_w : W;
  enc_err : option error;
  out : list Z }.
Definition NewEncoder (w : W) : encoder := mkEncoder w None (replicate (Z.to_nat bufferSize) 0).
Definition set_out (e : encoder) (l : list Z) : encoder := mkEncoder (enc_w e) (enc_err e) l.

Definition encoder_step (pn : list Z * Z) : M encoder (list Z * Z + Z) :=
  let '(p, n) := pn in
  e <- mget ;;
  if (zlen p >? 0) && match enc_err e with None => true | Some _ => false end then
    let chunkSize := quot bufferSize 2 in
    let chunkSize := if zlen p <? chunkSize then zlen p else chunkSize in
    encoded <- zoom out set_out (Encode (take (Z.to_nat chunkSize) p)) ;;
    e <- mget ;;
    let '(written, err, w) := w_Write (enc_w e) (take (Z.to_nat encoded) (out e)) in
    mput (mkEncoder w err (out e)) ;;
    continue (drop (Z.to_nat chunkSize) p, n + quot written 2)
  else break n.
Definition encoder_Write (p : list Z) : M encoder (Z * option error) :=
  n <- loop (S (length p)) encoder_step (p, 0) ;;
  e <- mget ;;
  mret (n, enc_err e).

Record dumper : Type := mkDumper {
  dump_w : W;
  rightChars : list Z;
  buf : list Z;
  used : Z;
  total : Z;
  closed : bool }.
Definition Dumper (w : W) : dumper := mkDumper w (replicate 18 0) (replicate 14 0) 0 0 false.

Definition on_buf {A} (m : M (list Z) A) : M dumper A :=
  zoom buf (fun h b => mkDumper (dump_w h) (rightChars h) b (used h) (total h) (closed h)) m.
Definition on_right {A} (m : M (list Z) A) : M dumper A :=
  zoom rightChars (fun h r => mkDumper (dump_w h) r (buf h) (used h) (total h) (closed h)) m.
Definition set_used (n : Z) : M dumper unit :=
  mmodify (fun h => mkDumper (dump_w h) (rightChars h) (buf h) n (total h) (closed h)).
Definition set_total (n : Z) : M dumper unit :=
  mmodify (fun h => mkDumper (dump_w h) (rightChars h) (buf h) (used h) n (closed h)).
Definition set_closed : M dumper unit :=
  mmodify (fun h => mkDumper (dump_w h) (rightChars h) (buf h) (used h) (total h) true).
(** [_, err = h.w.Write(...)] *)
Definition emit (part : dumper -> list Z) : M dumper (option error) :=
  h <- mget ;;
  let '(_, err, w) := w_Write (dump_w h) (part h) in
  mput (mkDumper w (rightChars h) (buf h) (used h) (total h) (closed h)) ;;
  mret err.

Definition toChar (b : Z) : Z := if (b <? 32) || (b >? 126) then chr "." else b.

(** The offset at the beginning of a line. *)
Definition write_offset : M dumper (option error) :=
  h <- mget ;;
  on_buf (store 0 (u8 (total h >> 24))) ;;
  on_buf (store 1 (u8 (total h >> 16))) ;;
  on_buf (store 2 (u8 (total h >> 8))) ;;
  on_buf (store 3 (u8 (total h))) ;;
  h <- mget ;;
  on_buf (zoom (drop 4) (fun b l => take 4 b ++ l) (Encode (take 4 (buf h)))) ;;
  on_buf (store 12 (chr " ")) ;;
  on_buf (store 13 (chr " ")) ;;
  emit (fun h => drop 4 (buf h)).
(** The two digits of a byte, and what separates them from the next. *)
Definition write_byte (v : Z) : M dumper (option error) :=
  on_buf (Encode [v]) ;;
  on_buf (store 2 (chr " ")) ;;
  h <- mget ;;
  l <- (if used h =? 7 then (on_buf (store 3 (chr " ")) ;; mret 4)
        else if used h =? 15 then (on_buf (store 3 (chr " ")) ;; on_buf (store 4 (chr "|")) ;; mret 5)
        else mret 3) ;;
  emit (fun h => take (Z.to_nat l) (buf h)).
(** The column on the right, of a full line. *)
Definition write_right : M dumper (option error) :=
  on_right (store 16 (chr "|")) ;;
  on_right (store 17 10) ;;
  emit rightChars.

Fixpoint dumper_loop (data : list Z) (n : Z) : M dumper (Z * option error) :=
  match data with
  | [] => mret (n, None)
  | v :: data =>
      h <- mget ;;
      err <- (if used h =? 0 then write_offset else mret None) ;;
      match err with
      | Some e => mret (n, Some e)
      | None =>
          err <- write_byte v ;;
          match err with
          | Some e => mret (n, Some e)
          | None =>
              let n := n + 1 in
              h <- mget ;;
              on_right (store (used h) (toChar v)) ;;
              set_used (used h + 1) ;;
              set_total (u64 (total h + 1)) ;;
              h <- mget ;;
              if used h =? 16 then
                err <- write_right ;;
                match err with
                | Some e => mret (n, Some e)
                | None => set_used 0 ;; dumper_loop data n
                end
              else dumper_loop data n
          end
      end
  end.
Definition dumper_Write (data : list Z) : M dumper (Z * option error) :=
  h <- mget ;;
  if closed h then mret (0, Some ErrClosed) else dumper_loop data 0.

Definition pad_step (_ : unit) : M dumper (unit + option error) :=
  h <- mget ;;
  if used h <? 16 then
    let l := if used h =? 7 then 4%nat else if used h =? 15 then 5%nat else 3%nat in
    err <- emit (fun h => take l (buf h)) ;;
    match err with
    | Some e => break (Some e)
    | None => set_used (used h + 1) ;; continue tt
    end
  else break None.
Definition dumper_Close : M dumper (option error) :=
  h <- mget ;;
  if closed h then mret None
  else
    set_closed ;;
    if used h =? 0 then mret None
    else
      on_buf (store 0 (chr " ")) ;;
      on_buf (store 1 (chr " ")) ;;
      on_buf (store 2 (chr " ")) ;;
      on_buf (store 3 (chr " ")) ;;
      on_buf (store 4 (chr "|")) ;;
      let nBytes := used h in
      err <- loop 17 pad_step tt ;;
      match err with
      | Some e => mret (Some e)
      | None =>
          on_right (store nBytes (chr "|")) ;;
          on_right (store (nBytes + 1) 10) ;;
          emit (fun h => take (Z.to_nat (nBytes + 2)) (rightChars h))
      end.
End Writer.

(** A [strings.Builder] accepts every write. *)
Definition builder_Write (b l : list Z) : Z * option error * list Z := (zlen l, None, b ++ l).
Definition Dump (data : list Z) : outcome (list Z) :=
  if decide (data = []) then Done []
  else obind (exec (dumper_Write builder_Write data ;; dumper_Close builder_Write) (Dumper [])) (fun h => Done (dump_w h)).

Section Reader.
(** [r.Read] of a slice of some length: the bytes it stores from its start, the count
    and the error it returns, and the reader afterwards. *)
Context {R : Type} (r_Read : R -> Z -> list Z * Z * option error * R).

(** [d.in] is a part of the array [arr] that only [d.in = d.arr[...]] replaces, so
    its bytes stand for it. *)
Record decoder : Type := mkDecoder {
  dec_r : R;
  dec_err : option error;
  in_ : list Z }.
Definition NewDecoder (r : R) : decoder := mkDecoder r None [].

Definition fill : M decoder unit :=
  d <- mget ;;
  if (zlen (in_ d) <? 2) && match dec_err d with None => true | Some _ => false end then
    let '(data, numRead, err, r) := r_Read (dec_r d) (bufferSize - zlen (in_ d)) in
    if (numRead <? 0) || (bufferSize <? zlen (in_ d) + numRead) then mpanic SliceBounds
    else
      let l := in_ d ++ take (Z.to_nat numRead) data in
      mput (mkDecoder r err l) ;;
      match err with
      | Some EOF =>
          if negb (Z.rem (zlen l) 2 =? 0) then
            c <- sread l (zlen l - 1) ;;
            a <- sread reverseHexTable c ;;
            mput (mkDecoder r (Some (if a >? 0x0f then InvalidByteError c else ErrUnexpectedEOF)) l)
          else mret tt
      | _ => mret tt
      end
  else mret tt.
(** [Read] after the buffer has been filled; [p] is the slice to read into, whose bytes
    the result has. *)
Definition decode_in (p : list Z) : M decoder (Z * option error * list Z) :=
  d <- mget ;;
  let numAvail := quot (zlen (in_ d)) 2 in
  let k := if zlen p >? numAvail then numAvail else zlen p in
  '(numDec, err, q) <- zoom (fun _ => take (Z.to_nat k) p) (fun s _ => s)
    ('(numDec, err) <- Decode (take (Z.to_nat (k * 2)) (in_ d)) ;; q <- mget ;; mret (numDec, err, q)) ;;
  if zlen (in_ d) <? 2 * numDec then mpanic SliceBounds
  else
    mput (match err with
          | Some e => mkDecoder (dec_r d) (Some e) []
          | None => mkDecoder (dec_r d) (dec_err d) (drop (Z.to_nat (2 * numDec)) (in_ d))
          end) ;;
    d <- mget ;;
    let res := q ++ drop (Z.to_nat k) p in
    if zlen (in_ d) <? 2 then mret (numDec, dec_err d, res) else mret (numDec, None, res).
Definition decoder_Read (p : list Z) : M decoder (Z * option error * list Z) := fill ;; decode_in p.
End Reader.
