(* ===== verification/HexSpec.v ===== *)
(** * encoding/hex: specification, and the functions on slices *)

From S2P Require Import Prelude.
From S2P Require Import Slice.
From S2P Require Import Bits.
From S2P Require Import Text.
From S2P Require Import Utf8Spec.
From S2P Require Import Hex.

(** ** Hexadecimal text *)

Definition digit (d : Z) : Z := tab hextable d.
Definition hex_byte (b : Z) : list Z := [digit (b / 16); digit (b mod 16)].
Definition hexed (l : list Z) : list Z := flat_map hex_byte l.

Definition value (c : Z) : option Z :=
  if (chr "0" <=? c) && (c <=? chr "9") then Some (c - chr "0")
  else if (chr "a" <=? c) && (c <=? chr "f") then Some (c - chr "a" + 10)
  else if (chr "A" <=? c) && (c <=? chr "F") then Some (c - chr "A" + 10)
  else None.
Definition is_digit (c : Z) : Prop := value c <> None.

(** The bytes of the leading pairs of digits, what is left, and the first character of
    a pair that is no digit. *)
Fixpoint unpair (s : list Z) : list Z * list Z * option error :=
  match s with
  | p :: q :: t =>
      match value p, value q with
      | Some a, Some b => let '(o, l, e) := unpair t in (a * 16 + b :: o, l, e)
      | None, _ => ([], s, Some (InvalidByteError p))
      | _, None => ([], s, Some (InvalidByteError q))
      end
  | _ => ([], s, None)
  end.
Definition unhex (s : list Z) : list Z * option error :=
  let '(o, l, e) := unpair s in
  (o, match e, l with
      | Some e, _ => Some e
      | None, [] => None
      | None, c :: _ => Some (if value c is Some _ then ErrLength else InvalidByteError c)
      end).

Lemma list_pair_ind {A} (P : list A -> Prop) :
  P [] -> (forall x, P [x]) -> (forall x y l, P l -> P (x :: y :: l)) -> forall l, P l.
Proof.
  intros H0 H1 H2. fix IH 1. intros [|x [|y l]]; [exact H0|exact (H1 x)|apply H2, IH].
Qed.

Lemma digit_range c a : value c = Some a -> 0 <= a < 16.
Proof. unfold value. intros. change (chr "0") with 48 in *. change (chr "9") with 57 in *. change (chr "a") with 97 in *. change (chr "f") with 102 in *. change (chr "A") with 65 in *. change (chr "F") with 70 in *. repeat case_match; simplify_eq; reflect; lia. Qed.
Lemma digit_value d : 0 <= d < 16 -> value (digit d) = Some d /\ byte (digit d).
Proof.
  intros Hd. pose proof (forall_below 16 (fun d => bool_decide (value (digit d) = Some d) && (0 <=? digit d) && (digit d <? 256)) ltac:(by vm_compute) d Hd) as H.
  cbn beta in H. reflect. unfold byte. split; [by apply bool_decide_eq_true in H|lia].
Qed.
Lemma table_value c : byte c -> at_ reverseHexTable c = Some (match value c with Some a => a | None => 0xff end).
Proof.
  intros Hc. pose proof (forall_below 256 (fun c => bool_decide (at_ reverseHexTable c = Some (match value c with Some a => a | None => 0xff end))) ltac:(by vm_compute) c Hc) as H.
  by apply bool_decide_eq_true in H.
Qed.
Lemma wp_reverse {S} c (Q : Z -> S -> Prop) s : byte c -> Q (match value c with Some a => a | None => 0xff end) s -> wp (sread reverseHexTable c) Q s.
Proof. intros Hc HQ. apply wp_sread. eexists. split; [by apply table_value|done]. Qed.
Lemma wp_hextable {S} d (Q : Z -> S -> Prop) s : 0 <= d < 16 -> Q (digit d) s -> wp (sread hextable d) Q s.
Proof.
  intros Hd HQ. apply wp_sread. exists (digit d). split; [|done].
  pose proof (forall_below 16 (fun d => bool_decide (at_ hextable d = Some (digit d))) ltac:(by vm_compute) d Hd) as H. by apply bool_decide_eq_true in H.
Qed.

Lemma zlen_hexed l : zlen (hexed l) = 2 * zlen l.
Proof. induction l as [|b l IH]; [done|]. change (hexed (b :: l)) with (hex_byte b ++ hexed l). rewrite zlen_app, IH, zlen_cons. change (zlen (hex_byte b)) with 2. lia. Qed.
Lemma hexed_byte l : Forall byte l -> Forall byte (hexed l).
Proof.
  induction 1 as [|b l Hb _ IH]; [constructor|]. unfold byte in Hb. destruct (digit_value (b / 16)) as [_ H1]; [divlia|]. destruct (digit_value (b mod 16)) as [_ H2]; [divlia|].
  change (hexed (b :: l)) with (digit (b / 16) :: digit (b mod 16) :: hexed l). by do 2 (apply Forall_cons; split; [done|]).
Qed.
Lemma unpair_hexed l : Forall byte l -> unpair (hexed l) = (l, [], None).
Proof.
  induction 1 as [|b l Hb _ IH]; [done|]. unfold byte in Hb. change (hexed (b :: l)) with (digit (b / 16) :: digit (b mod 16) :: hexed l). cbn [unpair].
  destruct (digit_value (b / 16)) as [-> _]; [divlia|]. destruct (digit_value (b mod 16)) as [-> _]; [divlia|]. rewrite IH. do 3 f_equal. divlia.
Qed.
Lemma unhex_hexed l : Forall byte l -> unhex (hexed l) = (l, None).
Proof. intros Hl. unfold unhex. by rewrite unpair_hexed. Qed.

(** What [unpair] reports, and how much it consumes. *)
Lemma unpair_length s : let '(o, l, e) := unpair s in
  exists a, s = a ++ l /\ zlen a = 2 * zlen o /\ Forall is_digit a /\
  match e with
  | None => zlen l < 2
  | Some e => exists p q t, l = p :: q :: t /\ (value p = None /\ e = InvalidByteError p \/ is_digit p /\ value q = None /\ e = InvalidByteError q)
  end.
Proof.
  induction s as [|c|p q t IH] using list_pair_ind; cbn [unpair]; [by exists []|by exists []|].
  destruct (value p) as [a|] eqn:Ep; [destruct (value q) as [b|] eqn:Eq|].
  - destruct (unpair t) as [[o l] e]. destruct IH as (x & -> & Hx & Hd & He). exists (p :: q :: x). split; [done|]. split; [rewrite !zlen_cons; lia|].
    split; [|done]. apply Forall_cons; split; [unfold is_digit; by rewrite Ep|]. apply Forall_cons. split; [unfold is_digit; by rewrite Eq|done].
  - exists []. split; [done|]. split; [done|]. split; [constructor|]. exists p, q, t. split; [done|]. right. unfold is_digit. by rewrite Ep.
  - exists []. split; [done|]. split; [done|]. split; [constructor|]. exists p, q, t. split; [done|]. by left.
Qed.
Lemma unpair_bytes s : Forall byte (unpair s).1.1.
Proof.
  induction s as [|c|p q t IH] using list_pair_ind; cbn [unpair]; [constructor..|].
  destruct (value p) as [a|] eqn:Ep; [destruct (value q) as [b|] eqn:Eq|]; [|constructor..]. destruct (unpair t) as [[o l] e]. cbn in *.
  apply digit_range in Ep, Eq. constructor; [unfold byte; lia|done].
Qed.

(** ** Encode and Decode *)

Lemma wp_zoom {S T A} (get : S -> T) set (m : M T A) (Q : A -> S -> Prop) s : wp m (fun a t => Q a (set s t)) (get s) -> wp (zoom get set m) Q s.
Proof. unfold wp, zoom. by destruct (m (get s)) as [[a t]| |]. Qed.

Lemma nibbles v : byte v -> v >> 4 = v / 16 /\ v .& 0x0f = v mod 16 /\ 0 <= v / 16 < 16 /\ 0 <= v mod 16 < 16.
Proof.
  intros Hv. unfold byte in Hv. split; [by rewrite Z.shiftr_div_pow2|]. split; [exact (Z.land_ones v 4 ltac:(lia))|]. split; divlia.
Qed.
Lemma app_cons_snoc (p : list Z) x l : p ++ x :: l = (p ++ [x]) ++ l.
Proof. by rewrite <- app_assoc. Qed.
Lemma zlen_snoc (p : list Z) x : zlen (p ++ [x]) = zlen p + 1.
Proof. by rewrite zlen_app. Qed.
Lemma zlen_snoc2 (p : list Z) x y : zlen ((p ++ [x]) ++ [y]) = zlen p + 2.
Proof. rewrite !zlen_snoc. lia. Qed.
Lemma wp_encode_loop src : Forall byte src -> forall (Q : unit -> list Z -> Prop) pre rest, (2 * length src <= length rest)%nat ->
  Q tt (pre ++ hexed src ++ drop (2 * length src) rest) -> wp (encode_loop src (zlen pre)) Q (pre ++ rest).
Proof.
  induction 1 as [|v src Hv _ IH]; intros Q pre rest Hl HQ; cbn [encode_loop]; [by apply wp_ret|].
  destruct rest as [|x [|y rest]]; [cbn in Hl; lia..|]. destruct (nibbles v Hv) as (-> & -> & H1 & H2).
  apply wp_bind, wp_hextable; [done|]. apply wp_bind, wp_store_mid. apply wp_bind, wp_hextable; [done|].
  rewrite (app_cons_snoc pre), <- (zlen_snoc pre (digit (v / 16))). apply wp_bind, wp_store_mid.
  rewrite app_cons_snoc, <- (zlen_snoc2 pre (digit (v / 16)) (digit (v mod 16))). apply IH; [cbn in Hl; lia|]. rewrite <- !app_assoc. cbn [app length] in *.
  change (hexed (v :: src)) with (digit (v / 16) :: digit (v mod 16) :: hexed src) in HQ.
  replace (2 * S (length src))%nat with (S (S (2 * length src))) in HQ by lia. exact HQ.
Qed.
Lemma wp_Encode (Q : Z -> list Z -> Prop) src dst : Forall byte src -> (2 * length src <= length dst)%nat ->
  Q (2 * zlen src) (hexed src ++ drop (2 * length src) dst) -> wp (Encode src) Q dst.
Proof.
  intros Hs Hl HQ. unfold Encode. apply wp_bind, (wp_encode_loop src Hs _ [] dst Hl). cbn [app]. apply wp_ret. by rewrite Z.mul_comm.
Qed.
(** A destination that is too short is an index out of range. *)
Lemma encode_loop_short src : Forall byte src -> forall pre rest, (length rest < 2 * length src)%nat ->
  encode_loop src (zlen pre) (pre ++ rest) = Panic IndexOutOfRange.
Proof.
  induction 1 as [|v src Hv _ IH]; intros pre rest Hl; [cbn in Hl; lia|]. cbn [encode_loop]. destruct (nibbles v Hv) as (-> & -> & H1 & H2).
  assert (Hd : forall d (k : Z -> M (list Z) unit) l, 0 <= d < 16 -> (c <- sread hextable d ;; k c) l = k (digit d) l).
  { intros d k l Hd. destruct (wp_elim _ _ _ (wp_hextable d (fun c l' => c = digit d /\ l' = l) l Hd ltac:(done))) as (c & l' & E & -> & ->).
    unfold mbind. by rewrite E. }
  rewrite Hd by done. assert (Hst : forall pre l x (k : M (list Z) unit), (store (zlen pre) x ;; k) (pre ++ l) =
    match l with [] => Panic IndexOutOfRange | _ :: l => k (pre ++ x :: l) end).
  { intros p l x k. destruct l as [|y l].
    - unfold mbind, store. rewrite app_nil_r, Z.ltb_irrefl, andb_false_r. done.
    - destruct (wp_elim _ _ _ (wp_store_mid p y x l (fun _ l' => l' = p ++ x :: l) eq_refl)) as ([] & l' & E & ->). unfold mbind. by rewrite E. }
  rewrite Hst. destruct rest as [|x rest]; [done|]. rewrite Hd by done.
  rewrite (app_cons_snoc pre), <- (zlen_snoc pre (digit (v / 16))), Hst. destruct rest as [|y rest]; [done|].
  rewrite app_cons_snoc, <- (zlen_snoc2 pre (digit (v / 16)) (digit (v mod 16))). apply IH. cbn in *. lia.
Qed.

Definition decode_end (n j : Z) (u : list Z * list Z * option error) : Z * Z + Z * option error :=
  let '(o, _, e) := u in
  match e with Some e => inr (n + zlen o, Some e) | None => inl (n + zlen o, j + 2 * zlen o) end.
Lemma wp_decode_loop s : forall fuel spre pre rest (Q : Z * Z + Z * option error -> list Z -> Prop), Forall byte s -> (length s < fuel)%nat ->
  (length (unpair s).1.1 <= length rest)%nat ->
  Q (decode_end (zlen pre) (zlen spre) (unpair s)) (pre ++ (unpair s).1.1 ++ drop (length (unpair s).1.1) rest) ->
  wp (loop fuel (decode_step (spre ++ s)) (zlen pre, zlen spre)) Q (pre ++ rest).
Proof.
  induction s as [|c|p q t IH] using list_pair_ind; intros [|fuel] spre pre rest Q Hs Hf Hl HQ; try (cbn in Hf; lia); apply wp_loop_S.
  - unfold decode_step. rewrite app_nil_r. destruct (Z.ltb_spec (zlen spre) (zlen spre - 1)); [lia|]. apply wp_break.
    cbn in HQ. by rewrite !Z.add_0_r in HQ.
  - unfold decode_step. rewrite zlen_snoc. destruct (Z.ltb_spec (zlen spre) (zlen spre + 1 - 1)); [lia|]. apply wp_break.
    cbn in HQ. by rewrite !Z.add_0_r in HQ.
  - set (L := loop fuel (decode_step (spre ++ p :: q :: t))). assert (EL : L = loop fuel (decode_step (spre ++ p :: q :: t))) by done. clearbody L.
    unfold decode_step. assert (Hlen : zlen (spre ++ p :: q :: t) = zlen spre + zlen t + 2) by (rewrite zlen_app, !zlen_cons; lia).
    pose proof (zlen_nonneg t). rewrite Hlen. destruct (Z.ltb_spec (zlen spre) (zlen spre + zlen t + 2 - 1)); [|lia].
    apply Forall_cons in Hs as [Hp Hs]. apply Forall_cons in Hs as [Hq Hs].
    apply wp_bind, wp_sread. exists p. split; [rewrite at_app_r by lia; by rewrite Z.sub_diag|].
    apply wp_bind, wp_sread. exists q. split; [by rewrite app_cons_snoc, at_app_r, zlen_snoc, Z.sub_diag by (rewrite zlen_snoc; lia)|].
    apply wp_bind, wp_reverse; [done|]. apply wp_bind, wp_reverse; [done|]. cbn [unpair] in HQ, Hl.
    destruct (value p) as [a|] eqn:Ep; [|apply wp_break; cbn in HQ; by rewrite Z.add_0_r in HQ].
    apply digit_range in Ep. destruct (Z.gtb_spec a 0x0f); [lia|].
    destruct (value q) as [b|] eqn:Eq; [|apply wp_break; cbn in HQ; by rewrite Z.add_0_r in HQ].
    apply digit_range in Eq. destruct (Z.gtb_spec b 0x0f); [lia|].
    destruct (unpair t) as [[o l] e] eqn:Eu. cbn [fst snd length] in *. destruct rest as [|x rest]; [cbn in Hl; lia|].
    assert (Hv : u8 (a << 4) .| b = a * 16 + b).
    { rewrite Z.shiftl_mul_pow2 by lia. change (2 ^ 4) with 16. rewrite u8_id by lia. apply (lor_add 4); [lia|lia|]. change (2 ^ 4) with 16. apply Z_mod_mult. }
    rewrite Hv. apply wp_bind, wp_store_mid, wp_continue. rewrite EL, (app_cons_snoc pre), (app_cons_snoc spre), (app_cons_snoc (spre ++ [p])), <- (zlen_snoc pre (a * 16 + b)), <- (zlen_snoc2 spre p q).
    apply IH; [done|cbn in Hf; lia|cbn in *; lia|]. cbn [fst snd]. revert HQ. unfold decode_end. rewrite zlen_snoc2, zlen_snoc, zlen_cons, <- (app_cons_snoc pre). cbn [drop app].
    destruct e as [e|]; intros HQ; [by replace (zlen pre + 1 + zlen o) with (zlen pre + (zlen o + 1)) by lia|].
    replace (zlen pre + 1 + zlen o) with (zlen pre + (zlen o + 1)) by lia. by replace (zlen spre + 2 + 2 * zlen o) with (zlen spre + 2 * (zlen o + 1)) by lia.
Qed.
Lemma rem_odd n : 0 <= n -> Z.rem n 2 = n mod 2.
Proof. intros. apply Z.rem_mod_nonneg; lia. Qed.
Lemma wp_Decode (Q : Z * option error -> list Z -> Prop) s dst : Forall byte s -> (length (unhex s).1 <= length dst)%nat ->
  Q (zlen (unhex s).1, (unhex s).2) ((unhex s).1 ++ drop (length (unhex s).1) dst) -> wp (Decode s) Q dst.
Proof.
  intros Hs Hl HQ. unfold Decode. apply wp_bind. assert (Ho : (unhex s).1 = (unpair s).1.1) by (unfold unhex; by destruct (unpair s) as [[o l] e]).
  rewrite Ho in *. apply (wp_decode_loop s (S (length s)) [] [] dst); [done|lia|done|]. cbn [app]. rewrite zlen_nil.
  pose proof (unpair_length s) as Hu. unfold unhex in HQ. destruct (unpair s) as [[o l] [e|]]; cbn [fst snd decode_end] in *; rewrite !Z.add_0_l.
  - by apply wp_ret.
  - destruct Hu as (a & -> & Ha & _ & Hlt). rewrite zlen_app, Ha. pose proof (zlen_nonneg o). pose proof (zlen_nonneg l). rewrite rem_odd by lia.
    destruct l as [|c [|d l]]; [| |rewrite !zlen_cons in Hlt; pose proof (zlen_nonneg l); lia].
    + rewrite zlen_nil, Z.add_0_r, Z.mul_comm, Z_mod_mult. by apply wp_ret.
    + change (zlen [c]) with 1. rewrite Z.add_comm, Z.mul_comm, Z_mod_plus_full. change (1 mod 2 =? 1) with true. cbv iota.
      rewrite (Z.mul_comm (zlen o)), <- Ha. apply wp_bind, wp_sread. exists c. split; [rewrite at_app_r by lia; by rewrite Z.sub_diag|].
      rewrite Forall_app, Forall_singleton in Hs. destruct Hs as [_ Hc]. apply wp_bind, wp_reverse; [done|].
      destruct (value c) as [v|] eqn:Ev; [|by apply wp_ret]. apply digit_range in Ev. destruct (Z.gtb_spec v 0x0f); [lia|]. by apply wp_ret.
Qed.
Lemma unhex_length s : 2 * zlen (unhex s).1 <= zlen s.
Proof.
  pose proof (unpair_length s) as H. unfold unhex. destruct (unpair s) as [[o l] e]. destruct H as (a & -> & Ha & _). cbn [fst].
  rewrite zlen_app. pose proof (zlen_nonneg l). lia.
Qed.
