(* ===== verification/HexStream.v ===== *)
(** * encoding/hex: the encoder and the decoder as streams

    The classes [Sink] and [Source] state the contracts of [io.Writer] and
    [io.Reader] that the streams rely on. *)

From S2P Require Import Prelude.
From S2P Require Import Slice.
From S2P Require Import Text.
From S2P Require Import Utf8Spec.
From S2P Require Import Hex.
From S2P Require Import HexSpec.

(** A writer takes the first bytes of what it is given, and all of them unless it
    returns an error. *)
Class Sink {W : Type} (w_Write : W -> list Z -> Z * option error * W) : Type := {
  written : W -> list Z;
  sink_ok : forall w l, let '(n, e, w') := w_Write w l in
    0 <= n <= zlen l /\ written w' = written w ++ take (Z.to_nat n) l /\ (e = None -> n = zlen l) }.

(** A reader still has the bytes [pending] to deliver before it returns the error
    [final]; it returns no error at most [steps] times. *)
Class Source {R : Type} (r_Read : R -> Z -> list Z * Z * option error * R) : Type := {
  pending : R -> list Z;
  final : R -> error;
  steps : R -> nat;
  source_ok : forall r k, 0 < k ->
    let '(data, m, e, r') := r_Read r k in
    0 <= m <= k /\ m <= zlen data /\ pending r = take (Z.to_nat m) data ++ pending r' /\
    match e with
    | None => final r' = final r /\ (steps r' < steps r)%nat
    | Some e => final r = e /\ pending r' = []
    end }.

(** ** The encoder *)

Section Encoder.
Context {W : Type} (w_Write : W -> list Z -> Z * option error * W) {HW : Sink w_Write}.

Lemma cut_at (n : Z) (l : list Z) : 0 <= n <= zlen l -> exists x y, l = x ++ y /\ zlen x = n.
Proof.
  intros Hn. exists (take (Z.to_nat n) l), (drop (Z.to_nat n) l). rewrite take_drop. split; [done|].
  unfold zlen in *. rewrite length_take. lia.
Qed.
Lemma take_len_app (a b : list Z) : take (Z.to_nat (zlen a)) (a ++ b) = a.
Proof. unfold zlen. rewrite Nat2Z.id. apply take_app_length. Qed.
Lemma hexed_app a b : hexed (a ++ b) = hexed a ++ hexed b.
Proof. unfold hexed. apply flat_map_app. Qed.
Lemma take_app_more n (a b : list Z) : 0 <= n -> take (Z.to_nat (zlen a + n)) (a ++ b) = a ++ take (Z.to_nat n) b.
Proof. intros Hn. rewrite Z2Nat.inj_add by (done || apply zlen_nonneg). unfold zlen. rewrite Nat2Z.id. by rewrite take_app_add. Qed.

(** [m] characters of the text of [p] have been written to the writer that had [w0]. *)
Definition encoded_so_far (w0 p : list Z) (m n : Z) (e : encoder) : Prop :=
  zlen (out e) = bufferSize /\ written (enc_w e) = w0 ++ take (Z.to_nat m) (hexed p) /\ 0 <= m <= 2 * zlen p /\ n = m / 2.

Lemma encoder_loop w0 p : Forall byte p -> forall fuel a b e, p = a ++ b -> (length b < fuel)%nat -> enc_err e = None ->
  encoded_so_far w0 p (2 * zlen a) (zlen a) e ->
  wp (loop fuel (encoder_step w_Write) (b, zlen a))
     (fun n e' => exists m, encoded_so_far w0 p m n e' /\ (enc_err e' = None -> m = 2 * zlen p)) e.
Proof.
  intros Hp. induction fuel as [|fuel IH]; intros a b e Ep Hf He (Ho & Hw & Hm & Hn); [lia|]. apply wp_loop_S. unfold encoder_step at 1.
  apply wp_bind, wp_get. rewrite He, andb_true_r. destruct b as [|c b].
  { rewrite zlen_nil. change (0 >? 0) with false. apply wp_break. exists (2 * zlen a). split; [done|]. intros _. by rewrite Ep, app_nil_r. }
  assert (0 < zlen (c :: b)) by (rewrite zlen_cons; pose proof (zlen_nonneg b); lia). destruct (Z.gtb_spec (zlen (c :: b)) 0); [|lia]. cbv zeta.
  change (quot bufferSize 2) with 512. set (cs := if zlen (c :: b) <? 512 then zlen (c :: b) else 512).
  assert (Hcs : 0 < cs <= 512 /\ cs <= zlen (c :: b)) by (unfold cs; destruct (Z.ltb_spec (zlen (c :: b)) 512); lia). clearbody cs.
  destruct (cut_at cs (c :: b)) as (x & y & Exy & Hx); [lia|]. rewrite Exy in *. subst cs. clear Exy c.
  rewrite take_len_app. rewrite Ep, !Forall_app in Hp. destruct Hp as (_ & Hpx & _). pose proof (zlen_nonneg a). pose proof (zlen_nonneg y).
  unfold bufferSize in Ho. apply wp_bind, wp_zoom, wp_Encode; [done|unfold zlen in *; lia|]. apply wp_bind, wp_get. cbn [enc_w enc_err out set_out].
  rewrite <- zlen_hexed, take_len_app. pose proof (sink_ok (enc_w e) (hexed x)) as Hs.
  destruct (w_Write (enc_w e) (hexed x)) as [[wn err] w']. destruct Hs as (Hwn & Hw' & He'). rewrite zlen_hexed in Hwn, He'.
  unfold quot. rewrite Z.quot_div_nonneg by lia. apply wp_bind, wp_put. apply wp_continue.
  assert (Hd : drop (Z.to_nat (zlen x)) (x ++ y) = y) by (unfold zlen; by rewrite Nat2Z.id, drop_app_length). rewrite Hd.
  assert (Hnew : encoded_so_far w0 p (2 * zlen a + wn) (zlen a + wn / 2) (mkEncoder w' err (hexed x ++ drop (2 * length x) (out e)))).
  { split; [|split; [|split]]; cbn [out enc_w].
    - rewrite zlen_app, zlen_hexed. unfold zlen in *. rewrite length_drop. unfold bufferSize. lia.
    - rewrite Hw', Hw, <- app_assoc. f_equal. rewrite Ep, !hexed_app, <- zlen_hexed, take_len_app, take_app_more by lia. f_equal.
      rewrite take_app_le; [done|]. pose proof (zlen_hexed x). unfold zlen in *. lia.
    - rewrite Ep, !zlen_app. lia.
    - replace (2 * zlen a + wn) with (wn + zlen a * 2) by lia. rewrite Z_div_plus_full by lia. lia. }
  destruct err as [err|].
  - destruct fuel as [|fuel]; [rewrite length_app in Hf; unfold zlen in *; lia|]. apply wp_loop_S. unfold encoder_step. apply wp_bind, wp_get. cbn [enc_err].
    rewrite andb_false_r. apply wp_break. by exists (2 * zlen a + wn).
  - rewrite (He' eq_refl), (Z.mul_comm 2 (zlen x)), Z_div_mult in * by lia.
    replace (zlen a + zlen x) with (zlen (a ++ x)) in * by (by rewrite zlen_app).
    apply IH; [by rewrite Ep, <- app_assoc|rewrite length_app in Hf; unfold zlen in *; lia|done|].
    by replace (2 * zlen (a ++ x)) with (2 * zlen a + zlen x * 2) by (rewrite zlen_app; lia).
Qed.

Lemma wp_encoder_Write p e : Forall byte p -> zlen (out e) = bufferSize -> enc_err e = None ->
  wp (encoder_Write w_Write p)
     (fun '(n, err) e' => enc_err e' = err /\ exists m, encoded_so_far (written (enc_w e)) p m n e' /\ (err = None -> m = 2 * zlen p)) e.
Proof.
  intros Hp Ho He. unfold encoder_Write. eapply wp_call.
  { apply (encoder_loop (written (enc_w e)) p Hp (S (length p)) [] p e); [done|lia|done|]. split; [done|].
    rewrite app_nil_r. split; [done|]. pose proof (zlen_nonneg p). split; [change (zlen (@nil Z)) with 0; lia|done]. }
  intros n e' (m & H1 & H2). apply wp_bind, wp_get, wp_ret. split; [done|]. eauto.
Qed.
(** After an error nothing is written any more. *)
Lemma wp_encoder_failed p e err : enc_err e = Some err -> wp (encoder_Write w_Write p) (fun r e' => r = (0, Some err) /\ e' = e) e.
Proof.
  intros He. unfold encoder_Write. apply wp_bind, wp_loop_S. unfold encoder_step. apply wp_bind, wp_get. rewrite He, andb_false_r.
  apply wp_break, wp_bind, wp_get, wp_ret. by rewrite He.
Qed.
End Encoder.

(** ** The decoder *)

(** What a stream of characters that ends with the error [e] decodes to: the bytes, and
    the error after them. *)
Definition stream (s : list Z) (e : error) : list Z * error :=
  let '(o, l, u) := unpair s in
  (o, match u with
      | Some u => u
      | None => match e, l with
                | EOF, c :: _ => if value c is Some _ then ErrUnexpectedEOF else InvalidByteError c
                | e, _ => e
                end
      end).

Lemma unpair_app a s : Z.even (zlen a) = true ->
  unpair (a ++ s) = match (unpair a).2 with
                    | Some e => ((unpair a).1.1, (unpair a).1.2 ++ s, Some e)
                    | None => ((unpair a).1.1 ++ (unpair s).1.1, (unpair s).1.2, (unpair s).2)
                    end.
Proof.
  induction a as [|c|p q t IH] using list_pair_ind; intros He; [cbn; by destruct (unpair s) as [[o l] e]|done|].
  rewrite !zlen_cons in He. replace (zlen t + 1 + 1) with (Z.succ (Z.succ (zlen t))) in He by lia. rewrite Z.even_succ_succ in He.
  cbn [unpair app]. destruct (value p) as [x|]; [|done]. destruct (value q) as [y|]; [|done]. rewrite (IH He).
  destruct (unpair t) as [[o l] [e|]]; cbn [fst snd]; [done|]. by destruct (unpair s) as [[o' l'] e'].
Qed.
Lemma unpair_even a : Z.even (zlen a) = true -> (unpair a).2 = None -> (unpair a).1.2 = [] /\ zlen a = 2 * zlen (unpair a).1.1.
Proof.
  intros He Hu. pose proof (unpair_length a) as H. destruct (unpair a) as [[o l] e]. cbn in *. subst e. destruct H as (x & -> & Hx & _ & Hl).
  assert (l = []) as ->; [|split; [done|rewrite zlen_app, zlen_nil; lia]]. rewrite zlen_app, Hx, Z.even_add, Z.even_mul in He. change (Z.even 2) with true in He. cbn [orb] in He.
  destruct l as [|c [|d l]]; [done|by change (zlen [c]) with 1 in He|rewrite !zlen_cons in Hl; pose proof (zlen_nonneg l); lia].
Qed.

Section Decoder.
Context {R : Type} (r_Read : R -> Z -> list Z * Z * option error * R) {HR : Source r_Read}.

(** The bytes the decoder still has to deliver, and the error it ends with. *)
Definition remaining (d : decoder) : list Z * error :=
  match dec_err d with
  | None => stream (in_ d ++ pending (dec_r d)) (final (dec_r d))
  | Some e => stream (in_ d) e
  end.
Definition live_steps (d : decoder) : nat := match dec_err d with None => steps (dec_r d) | Some _ => 0%nat end.
Record decoding (d : decoder) : Prop := Decoding {
  dg_bytes : Forall byte (in_ d ++ pending (dec_r d));
  dg_even : dec_err d = Some EOF -> Z.even (zlen (in_ d)) = true;
  dg_short : zlen (in_ d) <= bufferSize }.

Lemma unpair_last s : (unpair s).2 = None -> Z.even (zlen s) = false -> exists c, (unpair s).1.2 = [c] /\ at_ s (zlen s - 1) = Some c.
Proof.
  intros Hu He. pose proof (unpair_length s) as H. destruct (unpair s) as [[o l] e]. cbn in *. subst e. destruct H as (x & -> & Hx & _ & Hl).
  rewrite zlen_app, Hx, Z.even_add, Z.even_mul in He. change (Z.even 2) with true in He. cbn [orb] in He. destruct l as [|c [|d l]]; [by rewrite zlen_nil in He| |rewrite !zlen_cons in Hl; pose proof (zlen_nonneg l); lia].
  exists c. split; [done|]. rewrite zlen_snoc, at_app_r by lia. by replace (zlen x + 1 - 1 - zlen x) with 0 by lia.
Qed.

Lemma wp_fill d : decoding d ->
  wp (fill r_Read) (fun _ d' => decoding d' /\ remaining d' = remaining d /\
    (d' = d /\ (2 <= zlen (in_ d) \/ dec_err d <> None) \/ (dec_err d = None /\ (dec_err d' <> None \/ live_steps d' < live_steps d)%nat))) d.
Proof.
  intros Hd. pose proof Hd as [Hb He Hs]. unfold fill. apply wp_bind, wp_get. destruct (Z.ltb_spec (zlen (in_ d)) 2) as [Hl|Hl]; cbn [andb]; [|apply wp_ret; auto 6].
  destruct (dec_err d) as [e|] eqn:Ee; [apply wp_ret; split; [done|split; [done|left; split; [done|by right]]]|].
  pose proof (source_ok (dec_r d) (bufferSize - zlen (in_ d)) ltac:(unfold bufferSize; lia)) as Hr.
  destruct (r_Read (dec_r d) _) as [[[data m] e] r']. destruct Hr as (Hm & Hmd & Hp & Hend).
  destruct (Z.ltb_spec m 0); [lia|]. destruct (Z.ltb_spec bufferSize (zlen (in_ d) + m)); [lia|]. cbn [orb].
  set (l := in_ d ++ take (Z.to_nat m) data). assert (Hlen : zlen l = zlen (in_ d) + m).
  { unfold l. rewrite zlen_app. f_equal. unfold zlen in *. rewrite length_take. lia. }
  assert (Hrem : remaining d = stream (l ++ pending r') (final (dec_r d))) by (unfold remaining, l; by rewrite Ee, Hp, <- app_assoc).
  assert (Hbl : Forall byte (l ++ pending r')) by (unfold l; by rewrite <- app_assoc, <- Hp). cbv zeta. apply wp_bind, wp_put.
  destruct e as [e|].
  2: { destruct Hend as [Hf Hst]. apply wp_ret. split; [split; cbn; [done|done|lia]|]. split; [rewrite Hrem; unfold remaining; cbn; by rewrite Hf|].
    right. split; [done|]. right. unfold live_steps. cbn. by rewrite Ee. }
  destruct Hend as [Hf Hpe]. rewrite Hpe, app_nil_r in Hbl, Hrem. rewrite Hf in Hrem.
  assert (Hgen : forall e', stream l e' = stream l e -> (e' = EOF -> Z.even (zlen l) = true) ->
    decoding (mkDecoder r' (Some e') l) /\ remaining (mkDecoder r' (Some e') l) = remaining d /\
    (mkDecoder r' (Some e') l = d /\ (2 <= zlen (in_ d) \/ None <> @None error) \/
     (None = @None error /\ (dec_err (mkDecoder r' (Some e') l) <> None \/ (live_steps (mkDecoder r' (Some e') l) < live_steps d)%nat)))).
  { intros e' Hst Hev. split; [split; cbn; [by rewrite Hpe, app_nil_r|intros [= ->]; by apply Hev|lia]|]. split; [rewrite Hrem; unfold remaining; cbn; exact Hst|].
    right. split; [done|by left]. }
  destruct e as [c| | | | |code]; try (by apply wp_ret, Hgen).
  pose proof (zlen_nonneg l). rewrite rem_odd, Zmod_even by lia. destruct (Z.even (zlen l)) eqn:Eev; cbn [negb].
  - change (negb (0 =? 0)) with false. apply wp_ret, Hgen; done.
  - change (negb (1 =? 0)) with true. assert (Hc : exists c, at_ l (zlen l - 1) = Some c).
    { apply at_ex. destruct l; [done|]. rewrite zlen_cons in *. pose proof (zlen_nonneg l). lia. }
    destruct Hc as [c Hc]. apply wp_bind, wp_sread. exists c. split; [done|].
    assert (byte c) by (rewrite Forall_forall in Hbl; apply Hbl; by eapply at_elem_of). apply wp_bind, wp_reverse; [done|]. apply wp_put.
    assert (Hs' : forall e', (match value c with Some _ => ErrUnexpectedEOF | None => InvalidByteError c end) = e' -> stream l e' = stream l EOF).
    { intros e' <-. unfold stream. pose proof (unpair_last l) as Hlast. destruct (unpair l) as [[o lo] [u|]]; [done|].
      destruct (Hlast eq_refl Eev) as (c' & E & Hc'). cbn in E. subst lo. assert (c' = c) as -> by congruence. by destruct (value c). }
    destruct (value c) as [v|] eqn:Ev.
    + apply digit_range in Ev. destruct (Z.gtb_spec v 0x0f); [lia|]. apply Hgen; [by apply Hs'|done].
    + apply Hgen; [by apply Hs'|done].
Qed.

Lemma stream_app a s e : Z.even (zlen a) = true -> (unpair a).2 = None ->
  stream (a ++ s) e = ((unpair a).1.1 ++ (stream s e).1, (stream s e).2).
Proof. intros He Hu. unfold stream. rewrite unpair_app, Hu by done. by destruct (unpair s) as [[o l] u]. Qed.
Lemma stream_error a s e u : Z.even (zlen a) = true -> (unpair a).2 = Some u -> stream (a ++ s) e = ((unpair a).1.1, u).
Proof. intros He Hu. unfold stream. by rewrite unpair_app, Hu. Qed.
Lemma stream_short s e : zlen s < 2 -> (e = EOF -> Z.even (zlen s) = true) -> stream s e = ([], e).
Proof.
  intros Hs He. destruct s as [|c [|d s]]; [by destruct e| |rewrite !zlen_cons in Hs; pose proof (zlen_nonneg s); lia].
  destruct e; try done. by specialize (He eq_refl).
Qed.
Lemma unhex_even a : Z.even (zlen a) = true -> unhex a = ((unpair a).1.1, (unpair a).2).
Proof.
  intros He. unfold unhex. pose proof (unpair_even a He) as H. destruct (unpair a) as [[o l] [u|]]; [done|]. cbn in *. by destruct (H eq_refl) as [-> _].
Qed.

Definition todo (d : decoder) : nat := (live_steps d + length (remaining d).1)%nat.
(** What one [Read] into [p] did: [o] are the bytes delivered. *)
Definition delivered (d : decoder) (p : list Z) (r : Z * option error * list Z) (d' : decoder) : Prop :=
  let '(n, err, q) := r in
  decoding d' /\ exists o, remaining d = (o ++ (remaining d').1, (remaining d').2) /\ n = zlen o /\ n <= zlen p /\ q = o ++ drop (length o) p /\
  match err with
  | Some e => remaining d' = ([], e)
  | None => p <> [] -> (todo d' < todo d)%nat
  end.

(** [a] are the characters to decode and [s] the others in the buffer. *)
Lemma decode_in_step (Q : Z * option error * list Z -> @decoder R -> Prop) p d : decoding d ->
  (forall a s o q, in_ d = a ++ s -> Z.even (zlen a) = true -> o = (unpair a).1.1 -> zlen a <= 2 * zlen p -> (2 <= zlen s -> zlen a = 2 * zlen p) ->
     (zlen s < 2 -> 2 <= zlen (in_ d) -> p <> [] -> 0 < zlen a) ->
     q = o ++ drop (length o) p -> zlen o <= zlen p ->
     match (unpair a).2 with
     | Some u => Q (zlen o, Some u, q) (mkDecoder (dec_r d) (Some u) [])
     | None => let d' := mkDecoder (dec_r d) (dec_err d) s in Q (zlen o, (if zlen s <? 2 then dec_err d else None), q) d'
     end) -> wp (decode_in p) Q d.
Proof.
  intros Hd HQ. unfold decode_in. apply wp_bind, wp_get. cbv zeta. set (k := if zlen p >? quot (zlen (in_ d)) 2 then quot (zlen (in_ d)) 2 else zlen p).
  pose proof (zlen_nonneg (in_ d)). pose proof (zlen_nonneg p). assert (Hk : 0 <= k <= zlen p /\ 2 * k <= zlen (in_ d) /\ (zlen (in_ d) - 2 * k < 2 \/ k = zlen p)).
  { unfold k, quot. rewrite Z.quot_div_nonneg by lia. pose proof (Z.div_mod (zlen (in_ d)) 2 ltac:(lia)). pose proof (Z.mod_pos_bound (zlen (in_ d)) 2 ltac:(lia)).
    destruct (Z.gtb_spec (zlen p) (zlen (in_ d) / 2)); lia. }
  clearbody k. destruct (cut_at (k * 2) (in_ d)) as (a & s & E & Ha); [lia|]. pose proof (dg_bytes _ Hd) as Hb. rewrite E, !Forall_app in Hb. destruct Hb as ((Hba & Hbs) & _).
  assert (Hev : Z.even (zlen a) = true) by (by rewrite Ha, Z.even_mul, orb_true_r).
  pose proof (unhex_length a) as Hul. rewrite (unhex_even a Hev) in Hul. cbn [fst] in Hul. set (o := (unpair a).1.1) in *.
  assert (Hq : (o ++ drop (length o) (take (Z.to_nat k) p)) ++ drop (Z.to_nat k) p = o ++ drop (length o) p).
  { rewrite <- app_assoc. f_equal. rewrite skipn_firstn_comm. rewrite <- (take_drop (Z.to_nat k - length o) (drop (length o) p)) at 2. f_equal.
    rewrite drop_drop. f_equal. unfold zlen in *. lia. }
  rewrite E in *. rewrite <- Ha, take_len_app. rewrite zlen_app in *. pose proof (zlen_nonneg s). pose proof (zlen_nonneg o).
  specialize (HQ a s o (o ++ drop (length o) p) eq_refl Hev eq_refl ltac:(lia) ltac:(lia)).
  assert (Hx : zlen s < 2 -> 2 <= zlen a + zlen s -> p <> [] -> 0 < zlen a).
  { intros Hs2 Hin Hp. assert (0 < zlen p) by (destruct p as [|? p']; [done|rewrite zlen_cons; pose proof (zlen_nonneg p'); lia]). lia. }
  specialize (HQ Hx eq_refl ltac:(lia)). apply wp_bind, wp_zoom, wp_bind. cbn beta.
  apply wp_Decode; [done|rewrite (unhex_even a Hev); cbn [fst]; fold o; rewrite length_take; unfold zlen in *; lia|].
  rewrite (unhex_even a Hev). cbn [fst snd]. fold o. apply wp_bind, wp_get, wp_ret. destruct (Z.ltb_spec (zlen a + zlen s) (2 * zlen o)); [lia|].
  apply wp_bind, wp_put, wp_bind, wp_get. rewrite Hq. destruct (unpair a).2 as [u|] eqn:Eu.
  - cbn [in_ dec_err]. rewrite zlen_nil. change (0 <? 2) with true. by apply wp_ret.
  - destruct (unpair_even a Hev Eu) as [_ Hao]. fold o in Hao. cbn [in_ dec_err]. rewrite <- Hao.
    assert (Hdr : drop (Z.to_nat (zlen a)) (a ++ s) = s) by (unfold zlen; by rewrite Nat2Z.id, drop_app_length). rewrite Hdr.
    destruct (zlen s <? 2); by apply wp_ret.
Qed.

Lemma wp_decoder_Read p d : decoding d -> wp (decoder_Read r_Read p) (delivered d p) d.
Proof.
  intros Hd. unfold decoder_Read. eapply wp_call; [by apply wp_fill|]. intros _ d1 (Hd1 & Hr & Hfill).
  apply decode_in_step; [done|]. intros a s o q E Hev Ho Ha Hs Hpos Hq Hop. pose proof Hd1 as [Hb He Hsh]. unfold delivered. rewrite <- Hr. rewrite E in *.
  rewrite <- app_assoc, Forall_app in Hb. destruct Hb as [_ Hb]. pose proof Hb as [Hbs Hbp]%Forall_app.
  destruct (unpair a).2 as [u|] eqn:Eu.
  - assert (remaining d1 = (o, u)) as ->.
    { unfold remaining. rewrite E, Ho. destruct (dec_err d1); rewrite <- ?app_assoc; by apply stream_error. }
    assert (remaining (mkDecoder (dec_r d1) (Some u) []) = ([], u)) as -> by (unfold remaining; by destruct u).
    split; [|exists o; cbn [fst snd]; rewrite app_nil_r; by split_and!].
    split; cbn; [done| |by vm_compute]. pose proof (unpair_length a) as Hul. rewrite (surjective_pairing (unpair a)), (surjective_pairing (unpair a).1), Eu in Hul.
    destruct Hul as (? & _ & _ & _ & p1 & q1 & t1 & _ & [[_ ->]|(_ & _ & ->)]); done.
  - set (d' := mkDecoder (dec_r d1) (dec_err d1) s). assert (Hrem : remaining d1 = (o ++ (remaining d').1, (remaining d').2)).
    { unfold remaining. cbn [dec_err dec_r in_ d']. rewrite E, Ho. destruct (dec_err d1); rewrite <- ?app_assoc; by apply stream_app. }
    assert (Hes : dec_err d1 = Some EOF -> Z.even (zlen s) = true).
    { intros Ee. specialize (He Ee). rewrite zlen_app, Z.even_add, Hev in He. by destruct (Z.even (zlen s)). }
    assert (Hd' : decoding d') by (split; cbn; [done|done|rewrite zlen_app in Hsh; pose proof (zlen_nonneg a); lia]).
    split; [done|]. exists o. split_and!; [done..|]. assert (Hao : zlen a = 2 * zlen o) by (rewrite Ho; by apply unpair_even).
    assert (Hst : (live_steps d1 <= live_steps d)%nat).
    { destruct Hfill as [(-> & _)|(Ed & [Hn|Hlt])]; [done| |lia]. unfold live_steps. by destruct (dec_err d1); [lia|]. }
    assert (Htodo : 0 < zlen a \/ (live_steps d1 < live_steps d)%nat -> (todo d' < todo d)%nat).
    { intros H. unfold todo. rewrite <- Hr, Hrem. cbn [fst]. rewrite length_app. change (live_steps d') with (live_steps d1). unfold zlen in *. lia. }
    assert (Hpl : p <> [] -> 0 < zlen p) by (intros Hp; destruct p as [|? p']; [done|rewrite zlen_cons; pose proof (zlen_nonneg p'); lia]).
    destruct (Z.ltb_spec (zlen s) 2) as [Hlt|Hge].
    + destruct (dec_err d1) as [x|] eqn:Ee.
      * unfold remaining. cbn. apply stream_short; [done|]. intros ->. by apply Hes.
      * intros Hp. apply Htodo. destruct Hfill as [(-> & [H2|?])|(_ & [?|?])]; [left; apply Hpos; [done|by rewrite E in H2|done]|done|done|by right].
    + intros Hp. apply Htodo. left. specialize (Hpl Hp). rewrite (Hs Hge). lia.
Qed.

(** A client that reads with slices of [k] bytes up to the first error. *)
Definition drain_step (k : nat) (acc : list Z) : M decoder (list Z + list Z * error) :=
  '(n, err, q) <- decoder_Read r_Read (replicate k 0) ;;
  let acc := acc ++ take (Z.to_nat n) q in
  match err with Some e => break (acc, e) | None => continue acc end.
Lemma drain_loop k : (0 < k)%nat -> forall fuel acc d, decoding d -> (todo d < fuel)%nat ->
  wp (loop fuel (drain_step k) acc) (fun r _ => r = (acc ++ (remaining d).1, (remaining d).2)) d.
Proof.
  intros Hk. induction fuel as [|fuel IH]; intros acc d Hd Hf; [lia|]. apply wp_loop_S. unfold drain_step at 1.
  eapply wp_call; [by apply wp_decoder_Read|]. intros [[n err] q] d' (Hd' & o & Hr & -> & _ & -> & He). rewrite take_len_app. destruct err as [e|].
  - apply wp_break. rewrite Hr, He. cbn [fst snd]. by rewrite app_nil_r.
  - apply wp_continue. eapply wp_mono; [apply IH; [done|]|].
    + specialize (He ltac:(destruct k; [lia|done])). lia.
    + intros r _ ->. rewrite Hr. cbn [fst snd]. by rewrite app_assoc.
Qed.
Lemma decoding_new r : Forall byte (pending r) -> decoding (NewDecoder r) /\ remaining (NewDecoder r) = stream (pending r) (final r).
Proof. intros Hb. split; [split; cbn; [done|done|by vm_compute]|done]. Qed.
End Decoder.
