(* ===== verification/HexDump.v ===== *)
(** * encoding/hex: the dumper

    The text of [hexdump -C] as a function of the data, and the dumper as a writer of
    it whose result does not depend on how the data is cut into writes. *)

From S2P Require Import Prelude.
From S2P Require Import Slice.
From S2P Require Import Text.
From S2P Require Import Utf8Spec.
From S2P Require Import Hex.
From S2P Require Import HexSpec.
From S2P Require Import HexStream.

(** ** The text *)

Abbreviation space := (chr " ").
Abbreviation bar := (chr "|").
Abbreviation newline := 10.

(** What follows the digits of the byte in column [i]. *)
Definition gap (i : Z) : list Z :=
  space :: (if i =? 7 then [space] else if i =? 15 then [space; bar] else []).
Definition offset (n : Z) : list Z :=
  hexed [n / 2 ^ 24 mod 2 ^ 8; n / 2 ^ 16 mod 2 ^ 8; n / 2 ^ 8 mod 2 ^ 8; n mod 2 ^ 8] ++ [space; space].
Fixpoint cells (i : Z) (bs : list Z) : list Z :=
  match bs with
  | [] => []
  | b :: bs => hex_byte b ++ gap i ++ cells (i + 1) bs
  end.
Fixpoint blanks (k : nat) (i : Z) : list Z :=
  match k with
  | O => []
  | S k => [space; space] ++ gap i ++ blanks k (i + 1)
  end.
Definition line (n : Z) (bs : list Z) : list Z :=
  offset n ++ cells 0 bs ++ blanks (16 - length bs) (zlen bs) ++ map toChar bs ++ [bar; newline].
(** Lines of sixteen bytes from offset [n]. *)
Fixpoint dump_lines (fuel : nat) (n : Z) (l : list Z) : list Z :=
  match fuel, l with
  | S fuel, _ :: _ => line n (take 16 l) ++ dump_lines fuel (n + 16) (drop 16 l)
  | _, _ => []
  end.
Definition dump (n : Z) (l : list Z) : list Z := dump_lines (length l) n l.

Lemma dump_lines_fuel f : forall f' n l, (length l <= f)%nat -> (length l <= f')%nat -> dump_lines f n l = dump_lines f' n l.
Proof.
  induction f as [|f IH]; intros [|f'] n [|b l] H H'; try done; cbn in H, H'; try lia. cbn [dump_lines]. f_equal.
  apply IH; cbn [drop]; rewrite length_drop; lia.
Qed.
Lemma dump_full n a x : length a = 16%nat -> dump n (a ++ x) = line n a ++ dump (n + 16) x.
Proof.
  intros Ha. unfold dump at 1. assert (Hm : exists m, length (a ++ x) = S m /\ (length x <= m)%nat).
  { exists (15 + length x)%nat. rewrite length_app, Ha. lia. }
  destruct Hm as (m & -> & Hm). destruct (a ++ x) as [|b l] eqn:E; [by destruct a|]. cbn [dump_lines].
  rewrite <- E, take_app_le, take_ge, drop_app_ge by (rewrite ?Ha; lia). rewrite Ha, Nat.sub_diag, drop_0. f_equal.
  apply dump_lines_fuel; lia.
Qed.
Lemma dump_part n a : a <> [] -> (length a <= 16)%nat -> dump n a = line n a.
Proof.
  intros Ha Hl. unfold dump. destruct a as [|b a]; [done|]. cbn [length dump_lines]. rewrite take_ge, drop_ge by (cbn in *; lia).
  destruct (length a); by rewrite ?app_nil_r.
Qed.
Lemma cells_snoc bs : forall i b, cells i (bs ++ [b]) = cells i bs ++ hex_byte b ++ gap (i + zlen bs).
Proof.
  induction bs as [|c bs IH]; intros i b; cbn [app cells]; [by rewrite zlen_nil, Z.add_0_r, app_nil_r|].
  rewrite IH, zlen_cons. replace (i + 1 + zlen bs) with (i + (zlen bs + 1)) by lia. by rewrite <- !app_assoc.
Qed.
Lemma offset_u64 n : 0 <= n -> offset (u64 n) = offset n.
Proof.
  intros Hn. unfold offset, u64. assert (H : forall k, 0 <= k <= 56 -> (n mod 2 ^ 64) / 2 ^ k mod 2 ^ 8 = n / 2 ^ k mod 2 ^ 8).
  { intros k Hk. rewrite <- !Z.shiftr_div_pow2 by lia. apply Z.bits_inj'. intros i Hi.
    destruct (Z.lt_ge_cases i 8); [|by rewrite !Z.mod_pow2_bits_high by lia].
    rewrite !Z.mod_pow2_bits_low, !Z.shiftr_spec, Z.mod_pow2_bits_low by lia. done. }
  rewrite !H by lia. pose proof (H 0 ltac:(lia)) as H0. rewrite !Z.div_1_r in H0. by rewrite H0.
Qed.

(** ** The dumper *)

Section Dumper.
Context {W : Type} (w_Write : W -> list Z -> Z * option error * W) {HW : Sink w_Write}.

(** Some write of the writer returns an error. *)
Definition fails : Prop := exists w l e, (w_Write w l).1.2 = Some e.

Lemma wp_emit (Q : option error -> @dumper W -> Prop) part w r b u t c :
  (forall w', written w' = written w ++ part (mkDumper w r b u t c) -> Q None (mkDumper w' r b u t c)) ->
  (forall h e, fails -> Q (Some e) h) ->
  wp (emit w_Write part) Q (mkDumper w r b u t c).
Proof.
  intros HQ He. unfold emit. apply wp_bind, wp_get. cbn [dump_w]. set (l := part _) in *. pose proof (sink_ok w l) as H.
  destruct (w_Write w l) as [[n e] w'] eqn:E. destruct H as (_ & Hw & Hn). apply wp_bind, wp_put, wp_ret. cbn [rightChars buf used total closed].
  destruct e as [e|]; [apply He; exists w, l, e; by rewrite E|]. apply HQ. rewrite Hw, (Hn eq_refl). unfold zlen. by rewrite Nat2Z.id, firstn_all.
Qed.

(** A buffer of fourteen bytes, to compute with. *)
Lemma fourteen (b : list Z) : length b = 14%nat ->
  exists x0 x1 x2 x3 x4 x5 x6 x7 x8 x9 x10 x11 x12 x13, b = [x0; x1; x2; x3; x4; x5; x6; x7; x8; x9; x10; x11; x12; x13].
Proof.
  intros H. do 14 (destruct b as [|? b]; [discriminate H|]). destruct b; [|discriminate H]. by do 14 eexists.
Qed.
Lemma wp_on_buf {A} (m : M (list Z) A) (Q : A -> @dumper W -> Prop) w r b u t c :
  wp m (fun a b' => Q a (mkDumper w r b' u t c)) b -> wp (on_buf m) Q (mkDumper w r b u t c).
Proof. intros H. by apply wp_zoom. Qed.
Lemma wp_on_right {A} (m : M (list Z) A) (Q : A -> @dumper W -> Prop) w r b u t c :
  wp m (fun a r' => Q a (mkDumper w r' b u t c)) r -> wp (on_right m) Q (mkDumper w r b u t c).
Proof. intros H. by apply wp_zoom. Qed.
Ltac put :=
  apply wp_bind, wp_on_buf, wp_store; [vm_compute; split; congruence|]; cbv beta;
  lazymatch goal with |- context [upd _ ?i _] => unfold upd; let n := eval vm_compute in (Z.to_nat i) in change (Z.to_nat i) with n end;
  cbn [insert list_insert].

Lemma wp_write_offset (Q : option error -> @dumper W -> Prop) w r b u t c : length b = 14%nat ->
  (forall w' b', length b' = 14%nat -> written w' = written w ++ offset t -> Q None (mkDumper w' r b' u t c)) ->
  (forall h e, fails -> Q (Some e) h) ->
  wp (write_offset w_Write) Q (mkDumper w r b u t c).
Proof.
  intros Hb HQ He. apply fourteen in Hb as (x0 & x1 & x2 & x3 & x4 & x5 & x6 & x7 & x8 & x9 & x10 & x11 & x12 & x13 & ->).
  unfold write_offset. apply wp_bind, wp_get. cbn [total]. put. put. put. put. apply wp_bind, wp_get. cbn [buf].
  cbn [take]. apply wp_bind, wp_on_buf, wp_zoom. cbn [drop]. apply wp_Encode; [do 4 (apply Forall_cons; split; [apply u8_range|]); by apply Forall_nil|cbn; lia|].
  cbn [length Nat.mul Nat.add drop take app hexed flat_map hex_byte]. put. put. apply wp_emit; [|done]. intros w' Hw. apply HQ; [done|].
  rewrite Hw. cbn [drop buf]. unfold offset, u8. rewrite !Z.shiftr_div_pow2 by lia. done.
Qed.
Lemma wp_write_byte (Q : option error -> @dumper W -> Prop) v w r b u t c : length b = 14%nat -> byte v ->
  (forall w' b', length b' = 14%nat -> written w' = written w ++ hex_byte v ++ gap u -> Q None (mkDumper w' r b' u t c)) ->
  (forall h e, fails -> Q (Some e) h) ->
  wp (write_byte w_Write v) Q (mkDumper w r b u t c).
Proof.
  intros Hb Hv HQ He. apply fourteen in Hb as (x0 & x1 & x2 & x3 & x4 & x5 & x6 & x7 & x8 & x9 & x10 & x11 & x12 & x13 & ->).
  unfold write_byte. apply wp_bind, wp_on_buf, wp_Encode; [by apply Forall_singleton|cbn; lia|].
  cbn [length Nat.mul Nat.add drop take app hexed flat_map hex_byte]. put. apply wp_bind, wp_get. cbn [used].
  unfold gap in HQ. destruct (u =? 7); [|destruct (u =? 15)]; apply wp_bind; try put; try put; apply wp_ret; (apply wp_emit; [|done]); intros w' Hw; by apply HQ.
Qed.
Lemma wp_write_right (Q : option error -> @dumper W -> Prop) w cs t b u n c : length cs = 16%nat -> length t = 2%nat ->
  (forall w' r', length r' = 18%nat -> written w' = written w ++ cs ++ [bar; newline] -> Q None (mkDumper w' r' b u n c)) ->
  (forall h e, fails -> Q (Some e) h) ->
  wp (write_right w_Write) Q (mkDumper w (cs ++ t) b u n c).
Proof.
  intros Hc Ht HQ He. destruct t as [|x [|y [|]]]; try done. unfold write_right.
  apply wp_bind, wp_on_right. replace 16 with (zlen cs) by (unfold zlen; lia). apply wp_store_mid. cbv beta.
  apply wp_bind, wp_on_right. rewrite app_cons_snoc. replace 17 with (zlen (cs ++ [bar])) by (rewrite zlen_snoc; unfold zlen; lia). apply wp_store_mid. cbv beta.
  apply wp_emit; [|done]. intros w' Hw. apply HQ; [rewrite !length_app, Hc; done|]. rewrite Hw. cbn [rightChars]. by rewrite <- app_assoc.
Qed.

(** After the data [l], full lines [D] and the cells of an unfinished one have been
    written to the writer that had [w0]. *)
Definition line_start (n : Z) (cur : list Z) : list Z := match cur with [] => [] | _ => offset n ++ cells 0 cur end.
Inductive dumping (w0 l : list Z) : @dumper W -> Prop :=
| Dumping full cur D w t b :
    l = full ++ cur -> (length cur < 16)%nat -> (forall x, dump 0 (full ++ x) = D ++ dump (zlen full) x) ->
    written w = w0 ++ D ++ line_start (zlen full) cur -> (length cur + length t = 18)%nat -> length b = 14%nat ->
    dumping w0 l (mkDumper w (map toChar cur ++ t) b (zlen cur) (u64 (zlen l)) false).

(** One byte and, before the first of a line, the offset. *)
Lemma byte_written {B} (Q : B -> @dumper W -> Prop) (bad : error -> B) (k : M (@dumper W) B) n cur v w r b t c w1 : length b = 14%nat -> byte v -> 0 <= n ->
  written w = w1 ++ line_start n cur -> (cur = [] -> t = u64 n) ->
  (forall w' b', length b' = 14%nat -> written w' = w1 ++ line_start n (cur ++ [v]) -> wp k Q (mkDumper w' r b' (zlen cur) t c)) ->
  (forall h e, fails -> Q (bad e) h) ->
  wp (err <- (if zlen cur =? 0 then write_offset w_Write else mret None) ;;
      match err with
      | Some e => mret (bad e)
      | None => err <- write_byte w_Write v ;; match err with Some e => mret (bad e) | None => k end
      end) Q (mkDumper w r b (zlen cur) t c).
Proof.
  intros Hb Hv Hn Hw Ht HQ He. apply wp_bind. destruct cur as [|c0 cur].
  - rewrite zlen_nil. cbn [Z.eqb]. cbn [line_start] in Hw. rewrite app_nil_r in Hw. apply wp_write_offset; [done| |intros h e Hf; by apply wp_ret, He].
    intros w' b' Hb' Hw'. apply wp_bind, wp_write_byte; [done..| |intros h e Hf; by apply wp_ret, He]. intros w2 b2 Hb2 Hw2. apply HQ; [done|].
    rewrite Hw2, Hw', Hw, (Ht eq_refl), offset_u64, <- app_assoc by done. cbn [line_start app cells]. by rewrite !app_nil_r.
  - assert (Hz : (zlen (c0 :: cur) =? 0) = false) by (apply Z.eqb_neq; rewrite zlen_cons; pose proof (zlen_nonneg cur); lia).
    rewrite Hz. apply wp_ret. apply wp_bind, wp_write_byte; [done..| |intros h e Hf; by apply wp_ret, He]. intros w2 b2 Hb2 Hw2. apply HQ; [done|].
    rewrite Hw2, Hw. change ((c0 :: cur) ++ [v]) with (c0 :: (cur ++ [v])). cbn [line_start]. rewrite app_comm_cons, cells_snoc, Z.add_0_l. by rewrite <- !app_assoc.
Qed.

(** The outcome of writing [data] after [l]. *)
Definition dumped (w0 l data : list Z) (n : Z) (r : Z * option error) (h : @dumper W) : Prop :=
  match r.2 with
  | None => r.1 = n + zlen data /\ dumping w0 (l ++ data) h
  | Some _ => fails /\ n <= r.1 <= n + zlen data
  end.
Lemma dumped_cons w0 l v data n r h : dumped w0 (l ++ [v]) data (n + 1) r h -> dumped w0 l (v :: data) n r h.
Proof.
  unfold dumped. rewrite zlen_cons. destruct r as [m [e|]]; cbn [fst snd]; [intros [? ?]; split; [done|lia]|]. intros [-> H]. split; [lia|].
  by rewrite <- app_assoc in H.
Qed.

Lemma dump_loop w0 data : Forall byte data -> forall l n h, dumping w0 l h -> wp (dumper_loop w_Write data n) (dumped w0 l data n) h.
Proof.
  induction 1 as [|v data Hv Hdata IH]; intros l n h Hd; cbn [dumper_loop].
  { apply wp_ret. unfold dumped. cbn [fst snd]. rewrite app_nil_r, zlen_nil. split; [lia|done]. }
  destruct Hd as [full cur D w t b El Hcur HD Hw Ht Hb]. apply wp_bind, wp_get. cbn [used].
  pose proof (zlen_nonneg data). assert (Hfail : forall (h : @dumper W) e m, fails -> n <= m <= n + 1 -> dumped w0 l (v :: data) n (m, Some e) h).
  { intros h e m Hf Hm. split; [done|]. rewrite zlen_cons. cbn [fst]. lia. }
  apply (byte_written _ (fun e => (n, Some e)) _ (zlen full) cur v w _ b _ _ (w0 ++ D)); [done|done|apply zlen_nonneg|by rewrite <- app_assoc| | |].
  { intros ->. by rewrite El, app_nil_r. }
  2: { intros h e Hf. apply Hfail; [done|lia]. }
  intros w' b' Hb' Hw'. cbv zeta. apply wp_bind, wp_get. cbn [used total]. destruct t as [|x t]; [cbn in Ht; lia|].
  replace (zlen cur) with (zlen (map toChar cur)) by (unfold zlen; by rewrite length_map). apply wp_bind, wp_on_right, wp_store_mid. cbv beta.
  apply wp_bind, wp_modify. cbn [dump_w rightChars buf used total closed]. apply wp_bind, wp_modify. cbn [dump_w rightChars buf used total closed].
  rewrite app_cons_snoc. change [toChar v] with (map toChar [v]). rewrite <- map_app. replace (zlen (map toChar cur) + 1) with (zlen (cur ++ [v])) by (rewrite zlen_snoc; unfold zlen; by rewrite length_map).
  assert (Htot : u64 (u64 (zlen l) + 1) = u64 (zlen (l ++ [v]))) by (rewrite zlen_snoc; unfold u64; by rewrite Zplus_mod_idemp_l). rewrite Htot.
  apply wp_bind, wp_get. cbn [used]. assert (Hlen : length (cur ++ [v]) = S (length cur)) by (rewrite length_app; cbn; lia). cbn [length] in Ht.
  destruct (Z.eqb_spec (zlen (cur ++ [v])) 16) as [Hfull|Hpart].
  - apply wp_bind. assert (H16 : length (cur ++ [v]) = 16%nat) by (unfold zlen in Hfull; lia).
    apply wp_write_right; [by rewrite length_map|lia| |intros h e Hf; apply wp_ret, Hfail; [done|lia]].
    intros w2 r2 Hr2 Hw2. apply wp_bind, wp_modify. cbn [dump_w rightChars buf used total closed].
    eapply wp_mono; [apply (IH (l ++ [v]))|intros r h; apply dumped_cons].
    apply (Dumping w0 (l ++ [v]) (full ++ cur ++ [v]) [] (D ++ line (zlen full) (cur ++ [v])) w2 r2 b'); try done.
    + by rewrite El, app_nil_r, <- app_assoc.
    + cbn. lia.
    + intros y. rewrite <- (app_assoc full), HD, dump_full, zlen_app, Hfull by done. by rewrite app_assoc.
    + rewrite Hw2, Hw'. cbn [line_start]. unfold line. rewrite H16. cbn [blanks Nat.sub app]. rewrite app_nil_r, <- !app_assoc. do 2 f_equal.
      by destruct cur; cbn [app line_start]; rewrite <- ?app_assoc.
  - eapply wp_mono; [apply (IH (l ++ [v]))|intros r h; apply dumped_cons].
    apply (Dumping w0 (l ++ [v]) full (cur ++ [v]) D w' t b'); try done.
    + by rewrite El, <- app_assoc.
    + unfold zlen in Hpart. lia.
    + by rewrite Hw', <- app_assoc.
    + lia.
Qed.

Lemma pad_loop k : forall fuel w r b u t c (Q : option error -> @dumper W -> Prop), take 5 b = [space; space; space; space; bar] ->
  u + Z.of_nat k = 16 -> (k < fuel)%nat ->
  (forall w', written w' = written w ++ blanks k u -> Q None (mkDumper w' r b 16 t c)) -> (forall h e, fails -> Q (Some e) h) ->
  wp (loop fuel (pad_step w_Write) tt) Q (mkDumper w r b u t c).
Proof.
  induction k as [|k IH]; intros [|fuel] w r b u t c Q Hb Hu Hf HQ He; try lia; apply wp_loop_S; unfold pad_step at 1; apply wp_bind, wp_get; cbn [used].
  - replace u with 16 in * by lia. change (16 <? 16) with false. apply wp_break, HQ. by rewrite app_nil_r.
  - destruct (Z.ltb_spec u 16); [|lia]. cbv zeta. apply wp_bind, wp_emit; [|intros h e Hfl; by apply wp_break, He].
    intros w' Hw. apply wp_bind, wp_modify. cbn [dump_w rightChars buf used total closed]. apply wp_continue. apply IH; [done|lia|lia| |done].
    intros w2 Hw2. apply HQ. rewrite Hw2, Hw. cbn [blanks buf]. rewrite <- !app_assoc. f_equal. rewrite !app_assoc. f_equal. unfold gap.
    destruct b as [|x0 [|x1 [|x2 [|x3 [|x4 b]]]]]; try done. cbn [take] in Hb. injection Hb as -> -> -> -> ->.
    destruct (u =? 7); [done|]. by destruct (u =? 15).
Qed.

Lemma wp_Close w0 l h : dumping w0 l h ->
  wp (dumper_Close w_Write) (fun e h' => match e with None => written (dump_w h') = w0 ++ dump 0 l /\ closed h' = true | Some _ => fails end) h.
Proof.
  intros [full cur D w t b El Hcur HD Hw Ht Hb]. unfold dumper_Close. apply wp_bind, wp_get. cbn [closed used]. cbv iota.
  apply wp_bind, wp_modify. cbn [dump_w rightChars buf used total closed]. destruct cur as [|c0 cur0] eqn:Ec.
  { rewrite zlen_nil. apply wp_ret. cbn [dump_w closed]. split; [|done]. rewrite Hw, El, HD. cbn [line_start]. by rewrite !app_nil_r. }
  rewrite <- Ec in *. assert (Hpos : 0 < zlen cur) by (rewrite Ec, zlen_cons; pose proof (zlen_nonneg cur0); lia).
  destruct (Z.eqb_spec (zlen cur) 0); [lia|]. apply fourteen in Hb as (x0 & x1 & x2 & x3 & x4 & x5 & x6 & x7 & x8 & x9 & x10 & x11 & x12 & x13 & ->).
  put. put. put. put. put. cbv zeta. apply wp_bind. apply (pad_loop (16 - length cur)); [done|unfold zlen; lia|lia| |intros h0 e0 Hf; by apply wp_ret].
  intros w' Hw'. destruct t as [|y [|z t]]; try (cbn in Ht; lia).
  replace (zlen cur) with (zlen (map toChar cur)) by (unfold zlen; by rewrite length_map).
  apply wp_bind, wp_on_right, wp_store_mid. cbv beta. apply wp_bind, wp_on_right. rewrite app_cons_snoc, <- (zlen_snoc (map toChar cur) bar). apply wp_store_mid. cbv beta.
  apply wp_emit; [|by intros h0 e0 Hf]. intros w2 Hw2. cbn [dump_w closed]. split; [|done]. rewrite Hw2. cbn [rightChars].
  rewrite app_cons_snoc. rewrite <- (zlen_snoc2 (map toChar cur) bar newline), take_len_app, Hw', Hw, El, HD.
  rewrite dump_part by (rewrite ?Ec in *; done || lia). unfold line. assert (Hls : line_start (zlen full) cur = offset (zlen full) ++ cells 0 cur) by (by rewrite Ec).
  rewrite Hls, <- !app_assoc. done.
Qed.

(** A client that writes the data in pieces up to the first error, and closes. *)
Fixpoint write_pieces (pieces : list (list Z)) : M (@dumper W) (option error) :=
  match pieces with
  | [] => dumper_Close w_Write
  | p :: pieces =>
      '(_, err) <- dumper_Write w_Write p ;;
      match err with Some e => mret (Some e) | None => write_pieces pieces end
  end.
Lemma dumping_open w0 l h : dumping w0 l h -> closed h = false.
Proof. by intros []. Qed.
Lemma wp_pieces w0 pieces : Forall (Forall byte) pieces -> forall l h, dumping w0 l h ->
  wp (write_pieces pieces)
     (fun e h' => match e with None => written (dump_w h') = w0 ++ dump 0 (l ++ List.concat pieces) /\ closed h' = true | Some _ => fails end) h.
Proof.
  induction 1 as [|p pieces Hp _ IH]; intros l h Hd; cbn [write_pieces List.concat]; [rewrite app_nil_r; by apply wp_Close|].
  unfold dumper_Write. apply wp_bind, wp_bind, wp_get. rewrite (dumping_open _ _ _ Hd). eapply wp_mono; [by apply dump_loop|].
  intros [n [e|]] h' H; unfold dumped in H; cbn [fst snd] in H; [by apply wp_ret, H|]. destruct H as [_ H]. rewrite app_assoc. by apply IH.
Qed.
Lemma dumping_new w : dumping (written w) [] (Dumper w).
Proof. apply (Dumping (written w) [] [] [] [] w (replicate 18 0) (replicate 14 0)); try done; [cbn; lia|]. cbn. by rewrite app_nil_r. Qed.
Lemma wp_closed data h : closed h = true -> wp (dumper_Write w_Write data) (fun r h' => r = (0, Some ErrClosed) /\ h' = h) h /\
  wp (dumper_Close w_Write) (fun e h' => e = None /\ h' = h) h.
Proof. intros Hc. split; [unfold dumper_Write|unfold dumper_Close]; apply wp_bind, wp_get; rewrite Hc; by apply wp_ret. Qed.
End Dumper.

#[export] Instance builder_Sink : Sink builder_Write.
Proof.
  refine (Build_Sink _ _ (fun b => b) _). intros w l. cbn. split; [pose proof (zlen_nonneg l); lia|]. split; [|done]. unfold zlen. by rewrite Nat2Z.id, firstn_all.
Defined.
Lemma builder_no_fails : ~ fails builder_Write.
Proof. by intros (w & l & e & H). Qed.
Lemma Dump_dump data : Forall byte data -> Dump data = Done (dump 0 data).
Proof.
  intros Hd. unfold Dump. case_decide as Hn; [by subst|]. pose proof (wp_pieces builder_Write [] [data] ltac:(by apply Forall_singleton) [] (Dumper []) (dumping_new builder_Write [])) as H.
  cbn [write_pieces List.concat app] in H. rewrite app_nil_r in H.
  assert (H2 : wp (dumper_Write builder_Write data ;; dumper_Close builder_Write) (fun _ h => dump_w h = dump 0 data) (Dumper [])).
  { apply wp_elim in H as (e & h & E & H). destruct e as [e|]; [by apply builder_no_fails in H|]. revert E. unfold wp, mbind.
    destruct (dumper_Write builder_Write data (Dumper [])) as [[[n [e|]] h1]| |]; [discriminate| |discriminate..].
    intros ->. by destruct H. }
  destruct (wp_exec _ (fun h => dump_w h = dump 0 data) _ H2) as (h & -> & Hw). cbn [obind]. by rewrite Hw.
Qed.
