(* ===== verification/HexTheorems.v ===== *)
(** * encoding/hex: theorems *)

From S2P Require Import Prelude.
From S2P Require Import Slice.
From S2P Require Import Text.
From S2P Require Import Utf8Spec.
From S2P Require Import Hex.
From S2P Require Import HexSpec.
From S2P Require Import HexStream.
From S2P Require Import HexDump.

(** ** What unhex accepts *)

Definition lower (c : Z) : Z := if (chr "A" <=? c) && (c <=? chr "Z") then c + 32 else c.
Lemma digit_lower c a : byte c -> value c = Some a -> digit a = lower c.
Proof.
  intros Hc Ha. pose proof (forall_below 256 (fun c => match value c with Some a => digit a =? lower c | None => true end) ltac:(by vm_compute) c Hc) as H.
  cbn beta in H. rewrite Ha in H. by apply Z.eqb_eq.
Qed.
(** The bytes decoded are those of the digits read, whatever comes after them. *)
Lemma hexed_lower s : Forall byte s -> hexed (unpair s).1.1 = map lower (take (2 * length (unpair s).1.1) s).
Proof.
  intros Hs. induction s as [|c|p q t IH] using list_pair_ind; [done|done|]. apply Forall_cons in Hs as [Hp Hs]. apply Forall_cons in Hs as [Hq Hs]. cbn [unpair].
  destruct (value p) as [a|] eqn:Ep; [destruct (value q) as [b|] eqn:Eq|]; try done. specialize (IH Hs). destruct (unpair t) as [[o l] e]. cbn [fst snd] in *.
  pose proof (digit_range _ _ Ep). pose proof (digit_range _ _ Eq).
  change (hexed (a * 16 + b :: o)) with (digit ((a * 16 + b) / 16) :: digit ((a * 16 + b) mod 16) :: hexed o). cbn [length].
  replace (2 * S (length o))%nat with (S (S (2 * length o))) by lia. cbn [take map]. rewrite <- IH.
  replace ((a * 16 + b) / 16) with a by divlia. replace ((a * 16 + b) mod 16) with b by divlia.
  by rewrite (digit_lower p a), (digit_lower q b).
Qed.

(** What the result of a decoding says of the text: the bytes are those its leading digits
    stand for, two digits a byte, and the error tells why there are no more. *)
Definition explains (s : list Z) (r : list Z * option error) : Prop :=
  Forall byte r.1 /\ hexed r.1 = map lower (take (2 * length r.1) s) /\
  match r.2 with
  | None => Forall is_digit s /\ zlen s = 2 * zlen r.1
  | Some ErrLength => Forall is_digit s /\ zlen s = 2 * zlen r.1 + 1
  | Some (InvalidByteError c) => exists a b, s = a ++ c :: b /\ Forall is_digit a /\ ~ is_digit c /\ zlen r.1 = zlen a / 2
  | Some _ => False
  end.
Lemma unhex_explains s : Forall byte s -> explains s (unhex s).
Proof.
  intros Hb. pose proof (unpair_length s) as Hu. pose proof (hexed_lower s Hb) as Hl2. pose proof (unpair_bytes s) as Hl1. unfold unhex, explains, is_digit in *.
  destruct (unpair s) as [[o l] [e|]]; cbn [fst snd] in *; (split; [done|]); (split; [done|]); clear Hl1 Hl2.
  - destruct Hu as (a & -> & Ha & Hd & p & q & t & -> & [[Hp ->]|(Hp & Hq & ->)]).
    + exists a, (q :: t). split; [done|]. split; [done|]. split; [by intros H|]. by rewrite Ha, Z.mul_comm, Z_div_mult by lia.
    + exists (a ++ [p]), t. split; [by rewrite <- app_assoc|]. split; [apply Forall_app; split; [done|by apply Forall_singleton]|]. split; [by intros H|].
      rewrite zlen_snoc, Ha. replace (2 * zlen o + 1) with (1 + zlen o * 2) by lia. by rewrite Z_div_plus_full by lia.
  - destruct Hu as (a & -> & Ha & Hd & Hlt). destruct l as [|c [|d l]]; [| |rewrite !zlen_cons in Hlt; pose proof (zlen_nonneg l); lia].
    + rewrite app_nil_r. by split.
    + destruct (value c) as [v|] eqn:Ev.
      * split; [apply Forall_app; split; [done|]|rewrite zlen_snoc; lia]. apply Forall_singleton. by rewrite Ev.
      * exists a, []. split; [done|]. split; [done|]. split; [by intros H|]. by rewrite Ha, Z.mul_comm, Z_div_mult by lia.
Qed.

(** ** Slices and strings *)

Lemma done_wp {S A} (m : M S A) s a s' : wp m (fun b t => b = a /\ t = s') s -> m s = Done (a, s').
Proof. by intros (b & t & E & -> & ->)%wp_elim. Qed.

Lemma Encode_done src dst : Forall byte src -> 2 * zlen src <= zlen dst ->
  Encode src dst = Done (2 * zlen src, hexed src ++ drop (2 * length src) dst).
Proof. intros Hs Hl. apply done_wp, wp_Encode; [done|unfold zlen in *; lia|done]. Qed.
Lemma Decode_done s dst : Forall byte s -> zlen s / 2 <= zlen dst ->
  Decode s dst = Done ((zlen (unhex s).1, (unhex s).2), (unhex s).1 ++ drop (length (unhex s).1) dst).
Proof.
  intros Hs Hl. apply done_wp, wp_Decode; [done| |done]. pose proof (unhex_length s). pose proof (Z.div_mod (zlen s) 2). pose proof (Z.mod_pos_bound (zlen s) 2).
  unfold zlen in *. lia.
Qed.
Lemma EncodedLen_exact n : 0 <= n < 2 ^ 62 -> EncodedLen n = 2 * n.
Proof. intros Hn. unfold EncodedLen. rewrite int64_id by lia. lia. Qed.
Lemma DecodedLen_exact n : 0 <= n -> DecodedLen n = n / 2.
Proof. intros Hn. unfold DecodedLen, quot. apply Z.quot_div_nonneg; lia. Qed.
Lemma take_hexed src l : take (Z.to_nat (2 * zlen src)) (hexed src ++ l) = hexed src.
Proof. by rewrite <- zlen_hexed, take_len_app. Qed.

Lemma EncodeToString_done src : Forall byte src -> zlen src < 2 ^ 62 -> EncodeToString src = Done (hexed src).
Proof.
  intros Hs Hl. pose proof (zlen_nonneg src). unfold EncodeToString. rewrite EncodedLen_exact by lia. unfold make. destruct (Z.ltb_spec (2 * zlen src) 0); [lia|].
  cbn [obind]. unfold exec. rewrite Encode_done by (rewrite ?zlen_replicate; done || lia). rewrite drop_ge by (rewrite length_replicate; unfold zlen; lia). by rewrite app_nil_r.
Qed.
Lemma DecodeString_done s : Forall byte s -> DecodeString s = Done (unhex s).
Proof.
  intros Hs. pose proof (zlen_nonneg s). pose proof (Z.div_pos (zlen s) 2). unfold DecodeString. rewrite DecodedLen_exact by lia. unfold make.
  destruct (Z.ltb_spec (zlen s / 2) 0); [lia|]. cbn [obind]. rewrite Decode_done by (rewrite ?zlen_replicate; done || lia). cbv iota. rewrite zlen_app.
  set (t := drop _ _). pose proof (zlen_nonneg t). destruct (Z.leb_spec (zlen (unhex s).1) (zlen (unhex s).1 + zlen t)); [|lia]. rewrite take_len_app. by destruct (unhex s).
Qed.

(** C37: [Encode] writes two lower-case digits per byte and leaves the rest of the
    destination alone, or panics when that is too short; [EncodeToString] and
    [AppendEncode] give the same text.  [DecodeString] and [AppendDecode] read it back,
    and of any text give the bytes its leading pairs of digits stand for, in either case,
    up to the pair with the first character that is no digit, and the error that
    describes the text: none when it is an even number of digits, the
    odd length when only that is wrong, and otherwise that character. *)
Theorem hex_codec (src s dst : list Z) (room : Z -> list Z) :
  Forall byte src -> Forall byte s -> zlen src < 2 ^ 62 -> (forall n, 0 <= n -> zlen (room n) = n) ->
  Encode src dst = (if 2 * zlen src <=? zlen dst then Done (2 * zlen src, hexed src ++ drop (2 * length src) dst) else Panic IndexOutOfRange) /\
  EncodeToString src = Done (hexed src) /\
  AppendEncode room dst src = Done (dst ++ hexed src) /\
  DecodeString (hexed src) = Done (src, None) /\
  (exists out err, DecodeString s = Done (out, err) /\ AppendDecode room dst s = Done (dst ++ out, err) /\ explains s (out, err)).
Proof.
  intros Hsrc Hs Hl Hroom. split; [|split; [by apply EncodeToString_done|split; [|split]]].
  - destruct (Z.leb_spec (2 * zlen src) (zlen dst)); [by apply Encode_done|]. unfold Encode, mbind.
    pose proof (encode_loop_short src Hsrc [] dst ltac:(unfold zlen in *; lia)) as E. cbn [app] in E. change (zlen (@nil Z)) with 0 in E. by rewrite E.
  - pose proof (zlen_nonneg src). unfold AppendEncode. rewrite EncodedLen_exact by lia. destruct (Z.ltb_spec (2 * zlen src) 0); [lia|]. unfold exec.
    rewrite Encode_done by (rewrite ?Hroom; done || lia). cbn [obind]. by rewrite take_hexed.
  - by rewrite DecodeString_done, unhex_hexed by (done || by apply hexed_byte).
  - exists (unhex s).1, (unhex s).2. split; [rewrite DecodeString_done by done; by destruct (unhex s)|]. split.
    + pose proof (zlen_nonneg s). pose proof (Z.div_pos (zlen s) 2). unfold AppendDecode. rewrite DecodedLen_exact, Decode_done by (rewrite ?Hroom; done || lia). rewrite zlen_app.
      set (t := drop _ _). pose proof (zlen_nonneg t). destruct (Z.leb_spec (zlen (unhex s).1) (zlen (unhex s).1 + zlen t)); [|lia]. by rewrite take_len_app.
    + pose proof (unhex_explains s Hs) as H. by destruct (unhex s).
Qed.
Lemma hex_codec_witness :
  EncodeToString [0x12; 0xab] = Done (bytes "12ab") /\ explains (bytes "aB1G2") ([0xab], Some (InvalidByteError (chr "G"))).
Proof.
  destruct (hex_codec [0x12; 0xab] (bytes "aB1G2") [] (fun n => replicate (Z.to_nat n) 0)) as (_ & H1 & _ & _ & out & err & H2 & _ & H3).
  - by repeat constructor.
  - unfold byte. refine (bool_decide_unpack _ _). by vm_compute.
  - by vm_compute.
  - intros n Hn. rewrite zlen_replicate. lia.
  - split; [exact H1|]. vm_compute in H2. injection H2 as <- <-. exact H3.
Defined.

(** ** Streams *)

(** C38: the streams against the contracts of [io].  The encoder's [Write] hands over the
    text of its argument, all of it unless the writer fails, counts the bytes whose text
    was taken, and after a failure only repeats the error.  [Read] of the decoder, into
    any slice and however the reader cuts its data, delivers the next bytes of what the
    whole input decodes to, the error exactly when they have all been delivered, and makes
    progress; a client that reads to the first error gets the decoding of the input and
    the error that describes its end.  The dumper writes the text of [hexdump -C]
    whatever the pieces in which it is given the data, unless the writer fails. *)
Theorem hex_streams {W} (w_Write : W -> list Z -> Z * option error * W) {HW : Sink w_Write}
    {R} (r_Read : R -> Z -> list Z * Z * option error * R) {HR : Source r_Read}
    (p : list Z) (e : @encoder W) (d : @decoder R) (r : R) (k : nat) (pieces : list (list Z)) (w : W) :
  Forall byte p -> zlen (out e) = bufferSize -> decoding r_Read d -> Forall byte (pending r) -> (0 < k)%nat -> Forall (Forall byte) pieces ->
  (exists n err e', encoder_Write w_Write p e = Done ((n, err), e') /\
     match enc_err e with
     | Some err0 => (n, err) = (0, Some err0) /\ e' = e
     | None => zlen (out e') = bufferSize /\ enc_err e' = err /\
         exists m, written (enc_w e') = written (enc_w e) ++ take (Z.to_nat m) (hexed p) /\ 0 <= m <= 2 * zlen p /\ n = m / 2 /\ (err = None -> m = 2 * zlen p)
     end) /\
  (exists res d', decoder_Read r_Read p d = Done (res, d') /\ delivered r_Read d p res d') /\
  (exists fuel d', loop fuel (drain_step r_Read k) [] (NewDecoder r) = Done (stream (pending r) (final r), d')) /\
  (exists err h, write_pieces w_Write pieces (Dumper w) = Done (err, h) /\
     match err with
     | None => written (dump_w h) = written w ++ dump 0 (List.concat pieces) /\ closed h = true
     | Some _ => fails w_Write
     end) /\
  Dump p = Done (dump 0 p).
Proof.
  intros Hp Ho Hd Hr Hk Hpieces. split_and!.
  - destruct (enc_err e) as [err0|] eqn:Ee.
    + destruct (wp_elim _ _ _ (wp_encoder_failed w_Write p e err0 Ee)) as ([n err] & e' & E & H). eauto 6.
    + destruct (wp_elim _ _ _ (wp_encoder_Write w_Write p e Hp Ho Ee)) as ([n err] & e' & E & He & m & (H1 & H2 & H3 & H4) & H5).
      exists n, err, e'. split; [done|]. split; [done|]. split; [done|]. by exists m.
  - destruct (wp_elim _ _ _ (wp_decoder_Read r_Read p d Hd)) as (res & d' & E & H). eauto.
  - destruct (decoding_new r_Read r Hr) as [Hd' Hrem].
    destruct (wp_elim _ _ _ (drain_loop r_Read k Hk (S (todo r_Read (NewDecoder r))) [] (NewDecoder r) Hd' ltac:(lia))) as (res & d' & E & ->).
    exists (S (todo r_Read (NewDecoder r))), d'. rewrite E, Hrem. cbn [app]. by destruct (stream _ _).
  - destruct (wp_elim _ _ _ (wp_pieces w_Write (written w) pieces Hpieces [] (Dumper w) (dumping_new w_Write w))) as (err & h & E & H). eauto.
  - by apply Dump_dump.
Qed.

(** A reader of a text in portions of at most three bytes. *)
Definition text_Read (r : list Z) (k : Z) : list Z * Z * option error * list Z :=
  match r with
  | [] => ([], 0, Some EOF, [])
  | _ => let m := Z.min 3 (Z.min k (zlen r)) in (take (Z.to_nat m) r, m, None, drop (Z.to_nat m) r)
  end.
#[export] Instance text_Source : Source text_Read.
Proof.
  refine (Build_Source _ _ (fun r => r) (fun _ => EOF) (fun r => length r) _). intros [|c r] k Hk; cbn [text_Read].
  - by split_and!; try lia.
  - set (l := c :: r). assert (Hl : 0 < zlen l) by (unfold l; rewrite zlen_cons; pose proof (zlen_nonneg r); lia). set (m := Z.min 3 (Z.min k (zlen l))).
    split; [lia|]. assert (Hm : zlen (take (Z.to_nat m) l) = m) by (unfold zlen in *; rewrite length_take; lia). split; [lia|].
    rewrite take_take, Nat.min_id, take_drop. split; [done|]. split; [done|]. rewrite length_drop. unfold zlen in *. lia.
Defined.
Lemma hex_streams_witness :
  (exists fuel d', loop fuel (drain_step text_Read 2) [] (NewDecoder (bytes "48656c6")) = Done (([0x48; 0x65; 0x6c], ErrUnexpectedEOF), d')) /\
  Dump [0x41] = Done (dump 0 [0x41]).
Proof.
  assert (Hb : Forall byte (bytes "48656c6")) by (unfold byte; refine (bool_decide_unpack _ _); by vm_compute).
  destruct (hex_streams builder_Write text_Read [0x41] (NewEncoder []) (NewDecoder (bytes "48656c6")) (bytes "48656c6") 2 [[0x41]] [])
    as (_ & _ & H & _ & H2).
  - by repeat constructor.
  - by vm_compute.
  - by apply (decoding_new text_Read).
  - exact Hb.
  - lia.
  - by repeat constructor.
  - split; [exact H|exact H2].
Defined.
