(* ===== verification/ModGover.v ===== *)
(** * cmd/go/internal/gover: versions by module

    [src/src/cmd/go/internal/gover/mod.go] and the functions of [toolchain.go] that it
    uses.  The modules "go" and "toolchain" have the versions of [Gover], all others
    those of [Semver].  [module.Version] is the struct of golang.org/x/mod/module. *)

From stdpp Require Import countable.
From S2P Require Import Prelude.
From S2P Require Import Slice.
From S2P Require Import Text.
From S2P Require Import Sort.
From S2P Require Gover.
From S2P Require Semver.

(** [module.Version]; its field [Version] is [Vers]. *)
Record Version : Type := MkVersion { Path : list Z; Vers : list Z }.
#[export] Instance Version_eq_dec : EqDecision Version.
Proof. solve_decision. Defined.
#[export] Instance Version_countable : Countable Version.
Proof. by refine (inj_countable' (fun m => (Path m, Vers m)) (fun '(p, v) => MkVersion p v) _); intros []. Defined.

(** [strings.HasPrefix], [strings.IndexAny] and [strings.Index] of one byte; the
    bytes searched for are ASCII. *)
Fixpoint HasPrefix (s prefix : list Z) : bool :=
  match prefix, s with
  | [], _ => true
  | c :: prefix, d :: s => (c =? d) && HasPrefix s prefix
  | _, [] => false
  end.
Fixpoint IndexAny (s chars : list Z) : option nat :=
  match s with
  | [] => None
  | c :: s => if bool_decide (c ∈ chars) then Some 0%nat else S <$> IndexAny s chars
  end.
Definition ContainsAny (s chars : list Z) : bool := match IndexAny s chars with Some _ => true | None => false end.

Definition FromToolchain (name : list Z) : list Z :=
  if ContainsAny name (bytes "\/") then []
  else if HasPrefix name (bytes "go") then
    let v := drop 2 name in
    let v := match IndexAny v [32; 9; 45] with Some i => take i v | None => v end in
    if negb (Gover.IsValid v) then [] else v
  else [].
Definition maybeToolchainVersion (name : list Z) : list Z :=
  if Gover.IsValid name then name else FromToolchain name.

Definition IsToolchain (path : list Z) : bool := str_eqb path (bytes "go") || str_eqb path (bytes "toolchain").

Definition ModCompare (path x y : list Z) : Z :=
  if str_eqb path (bytes "go") then Gover.Compare x y
  else if str_eqb path (bytes "toolchain") then Gover.Compare (maybeToolchainVersion x) (maybeToolchainVersion y)
  else Semver.Compare x y.

(** The closure of [ModSort] on two elements. *)
Definition split_slash (v : list Z) : list Z * list Z :=
  match IndexAny v (bytes "/") with Some k => (take k v, drop k v) | None => (v, []) end.
Definition mod_less (mi mj : Version) : bool :=
  if negb (str_eqb (Path mi) (Path mj)) then str_ltb (Path mi) (Path mj)
  else
    let '(vi, fi) := split_slash (Vers mi) in
    let '(vj, fj) := split_slash (Vers mj) in
    if negb (str_eqb vi vj) then ModCompare (Path mi) vi vj <? 0 else str_ltb fi fj.
Definition ModSort : M (list Version) unit :=
  Slice_ (fun i j => mi <- load i ;; mj <- load j ;; mret (mod_less mi mj)).

Definition ModIsValid (path vers : list Z) : bool :=
  if IsToolchain path then
    if str_eqb path (bytes "toolchain") then Gover.IsValid (FromToolchain vers) else Gover.IsValid vers
  else Semver.IsValid vers.

(** [false] as soon as there is a hyphen, a plus sign or a second dot. *)
Fixpoint prefix_scan (dots : Z) (vers : list Z) : bool :=
  match vers with
  | [] => true
  | c :: vers =>
      if (c =? chr "-") || (c =? chr "+") then false
      else if c =? chr "." then (let dots := dots + 1 in if dots >=? 2 then false else prefix_scan dots vers)
      else prefix_scan dots vers
  end.
Definition ModIsPrefix (path vers : list Z) : bool :=
  if IsToolchain path then
    if str_eqb path (bytes "toolchain") then Gover.IsLang (FromToolchain vers) else Gover.IsLang vers
  else prefix_scan 0 vers.

(** [gover.IsPrerelease] of [src/src/cmd/go/internal/gover/gover.go]. *)
Definition IsPrerelease (x : list Z) : bool := negb (str_eqb (Gover.Kind (Gover.Parse x)) []).
Definition ModIsPrerelease (path vers : list Z) : bool :=
  if IsToolchain path then
    if str_eqb path (bytes "toolchain") then IsPrerelease (FromToolchain vers) else IsPrerelease vers
  else negb (str_eqb (Semver.Prerelease vers) []).
Definition ModMajorMinor (path vers : list Z) : list Z :=
  if IsToolchain path then
    if str_eqb path (bytes "toolchain") then bytes "go" ++ Gover.Lang (FromToolchain vers) else Gover.Lang vers
  else Semver.MajorMinor vers.

Example from_toolchain :
  FromToolchain (bytes "go1.2.3") = bytes "1.2.3" /\ FromToolchain (bytes "go1.2.3-bigcorp") = bytes "1.2.3" /\
  FromToolchain (bytes "invalid") = [] /\ FromToolchain (bytes "go1.2.3/x") = [].
Proof. by vm_compute. Qed.
Example mod_compare :
  ModCompare (bytes "go") (bytes "1.9") (bytes "1.10") = -1 /\ ModCompare (bytes "toolchain") (bytes "go1.10") (bytes "1.9") = 1 /\
  ModCompare (bytes "a") (bytes "v1.9") (bytes "v1.9.1") = -1 /\ ModIsPrefix (bytes "a") (bytes "v1.9") = true /\
  ModMajorMinor (bytes "toolchain") (bytes "go1.21.3") = bytes "go1.21".
Proof. by vm_compute. Qed.
Example mod_sort :
  exec ModSort [MkVersion (bytes "b") (bytes "v1.2.0"); MkVersion (bytes "a") (bytes "v1.10.0"); MkVersion (bytes "a") (bytes "v1.9.0");
                MkVersion (bytes "a") (bytes "v1.9.0/go.mod")]
  = Done [MkVersion (bytes "a") (bytes "v1.9.0"); MkVersion (bytes "a") (bytes "v1.9.0/go.mod"); MkVersion (bytes "a") (bytes "v1.10.0");
          MkVersion (bytes "b") (bytes "v1.2.0")].
Proof. by vm_compute. Qed.
