(* ===== verification/MvsGraph.v ===== *)
(** * cmd/go/internal/mvs: the requirement graph

    [src/src/cmd/go/internal/mvs/graph.go]: minimal version selection with the
    requirements pushed by the caller.  Go's iteration over a map takes its entries
    in any order; [BuildList] takes that order as an argument.  [slices.Clip] changes
    the capacity of a slice only. *)

From stdpp Require Import gmap.
From S2P Require Import Prelude.
From S2P Require Import Slice.
From S2P Require Import Text.
From S2P Require Import ModGover.

Record Graph : Type := MkGraph {
  cmp : list Z -> list Z -> list Z -> Z;
  roots : list Version;
  required : gmap Version (list Version);
  isRoot : gmap Version bool;
  selected : gmap (list Z) (list Z) }.

Definition none : list Z := bytes "none".
Arguments none : simpl never.
Definition Selected (path : list Z) (g : Graph) : list Z := default none (selected g !! path).

Definition set_isRoot (m : Version) (b : bool) (g : Graph) : Graph :=
  MkGraph (cmp g) (roots g) (required g) (<[m := b]> (isRoot g)) (selected g).
Definition set_required (m : Version) (reqs : list Version) (g : Graph) : Graph :=
  MkGraph (cmp g) (roots g) (<[m := reqs]> (required g)) (isRoot g) (selected g).
(** [if g.cmp(m.Path, g.Selected(m.Path), m.Version) < 0 { g.selected[m.Path] = m.Version }] *)
Definition raise (m : Version) (g : Graph) : Graph :=
  if cmp g (Path m) (Selected (Path m) g) (Vers m) <? 0
  then MkGraph (cmp g) (roots g) (required g) (isRoot g) (<[Path m := Vers m]> (selected g))
  else g.

Definition NewGraph (cmp : list Z -> list Z -> list Z -> Z) (roots : list Version) : Graph :=
  foldl (fun g m => raise m (set_isRoot m true g)) (MkGraph cmp roots ∅ ∅ ∅) roots.

Definition Require_dep (g : Graph) (dep : Version) : Graph :=
  raise dep (match isRoot g !! dep with None => set_isRoot dep false g | Some _ => g end).
Definition Require (m : Version) (reqs : list Version) : M Graph unit :=
  g <- mget ;;
  match isRoot g !! m with
  | None => mpanic (Explicit 1)
  | Some _ =>
      match required g !! m with
      | Some _ => mpanic (Explicit 2)
      | None => mput (foldl Require_dep (set_required m reqs g) reqs)
      end
  end.

Definition RequiredBy (m : Version) (g : Graph) : list Version * bool :=
  match required g !! m with Some reqs => (reqs, true) | None => ([], false) end.

(** The loop over the roots of [BuildList]: the list and the paths seen. *)
Definition root_versions (g : Graph) : list Version * gset (list Z) :=
  foldl (fun '(list, seenRoot) r =>
           if decide (Path r ∈ seenRoot) then (list, seenRoot)
           else
             let v := Selected (Path r) g in
             (if str_eqb v none then list else list ++ [MkVersion (Path r) v], {[Path r]} ∪ seenRoot))
    ([], ∅) (roots g).
Definition BuildList (order : list (list Z * list Z)) (g : Graph) : outcome (list Version) :=
  let '(list, seenRoot) := root_versions g in
  let rest := foldl (fun rest '(path, version) =>
                       if decide (path ∈ seenRoot) then rest else rest ++ [MkVersion path version]) [] order in
  obind (exec ModSort rest) (fun rest => Done (list ++ rest)).

(** Every module is put on the queue by the roots or by an entry of a list of
    requirements, so that so many rounds are enough. *)
Definition rounds (g : Graph) : nat := S (length (roots g) + length (List.concat (map snd (map_to_list (required g))))).

(** The calls of [f] are recorded in the store. *)
Definition WalkBreadthFirst (g : Graph) : M (list Version) unit :=
  let '(queue, enqueued) :=
    foldl (fun '(queue, enqueued) m =>
             if str_eqb (Vers m) none then (queue, enqueued) else (queue ++ [m], {[m]} ∪ enqueued))
      ([], (∅ : gset Version)) (roots g) in
  loop (rounds g)
    (fun '(queue, enqueued) =>
       match queue with
       | [] => break tt
       | m :: queue =>
           mmodify (fun calls => calls ++ [m]) ;;
           let '(reqs, _) := RequiredBy m g in
           continue
             (foldl (fun '(queue, enqueued) r =>
                       if negb (bool_decide (r ∈ enqueued)) && negb (str_eqb (Vers r) none)
                       then (queue ++ [r], {[r]} ∪ enqueued) else (queue, enqueued))
                (queue, enqueued) reqs)
       end) (queue, enqueued).

Definition zero_Version : Version := MkVersion [] [].

(** [for i < j { path[i], path[j] = path[j], path[i]; i++; j-- }] *)
Definition reverse_loop (n : nat) : M (list Version) unit :=
  loop (S n) (fun '(i, j) => if i <? j then (swap i j ;; continue (i + 1, j - 1)) else break tt) (0, Z.of_nat n - 1).

(** The path from [m] back to a root, and its reversal. *)
Definition path_back (firstRequires : gmap Version Version) (m : Version) : outcome (list Version) :=
  obind
    (exec (loop (S (size firstRequires))
             (fun m =>
                let m := default zero_Version (firstRequires !! m) in
                if str_eqb (Path m) [] then break tt
                else (mmodify (fun path => path ++ [m]) ;; continue m)) m) [m])
    (fun path => exec (reverse_loop (length path)) path).

(** The empty list is [nil]. *)
Definition FindPath (f : Version -> bool) (g : Graph) : outcome (list Version) :=
  let firstRequires := foldl (fun fr m => <[m := zero_Version]> fr) (∅ : gmap Version Version) (roots g) in
  obind
    (result
      (loop (rounds g)
         (fun '(queue, firstRequires) =>
            match queue with
            | [] => break None
            | m :: queue =>
                if f m then break (Some (firstRequires, m))
                else
                  let '(reqs, _) := RequiredBy m g in
                  continue
                    (foldl (fun '(queue, firstRequires) r =>
                              match firstRequires !! r with
                              | None => (queue ++ [r], <[r := m]> firstRequires)
                              | Some _ => (queue, firstRequires)
                              end) (queue, firstRequires) reqs)
            end) (roots g, firstRequires)) tt)
    (fun found => match found with None => Done [] | Some (firstRequires, m) => path_back firstRequires m end).

(** ** An example *)

Definition mv (p v : String.string) : Version := MkVersion (bytes p) (bytes v).
Definition sample_graph : outcome Graph :=
  exec (Require (MkVersion (bytes "m") []) [mv "a" "v1.0.0"; mv "b" "v1.2.0"] ;;
        Require (mv "a" "v1.0.0") [mv "c" "v1.0.0"] ;;
        Require (mv "b" "v1.2.0") [mv "c" "v1.1.0"; mv "a" "v1.0.0"])
    (NewGraph (fun p x y => if str_eqb p (bytes "m") then (if str_eqb x none then -1 else 0) else ModCompare p x y) [MkVersion (bytes "m") []]).
Example sample_build_list :
  obind sample_graph (fun g => BuildList (map_to_list (selected g)) g)
  = Done [MkVersion (bytes "m") []; mv "a" "v1.0.0"; mv "b" "v1.2.0"; mv "c" "v1.1.0"].
Proof. by vm_compute. Qed.
Example sample_find_path :
  obind sample_graph (FindPath (fun m => bool_decide (m = mv "c" "v1.1.0"))) = Done [MkVersion (bytes "m") []; mv "b" "v1.2.0"; mv "c" "v1.1.0"] /\
  obind sample_graph (fun g => exec (WalkBreadthFirst g) []) =
    Done [MkVersion (bytes "m") []; mv "a" "v1.0.0"; mv "b" "v1.2.0"; mv "c" "v1.0.0"; mv "c" "v1.1.0"].
Proof. by vm_compute. Qed.
Example require_panics :
  obind sample_graph (exec (Require (mv "x" "v1") [])) = Panic (Explicit 1) /\
  obind sample_graph (exec (Require (mv "a" "v1.0.0") [])) = Panic (Explicit 2).
Proof. by vm_compute. Qed.
