(* ===== verification/MvsGraphInv.v ===== *)
(** * cmd/go/internal/mvs: the graph and what it selects

    The graphs that [NewGraph] and [Require] build, the modules that their
    requirements reach, and the invariant that ties [isRoot] and [selected] to
    them: every module reached is known, and of each path the highest version
    reached is selected. *)

From stdpp Require Import gmap relations.
From S2P Require Import Prelude.
From S2P Require Import Slice.
From S2P Require Import Text.
From S2P Require Import GoverTheorems.
From S2P Require Import SortOrder.
From S2P Require Import Quicksort.
From S2P Require Import SortInterface.
From S2P Require Import ModGover.
From S2P Require Import MvsGraph.

(** [b] is one of the requirements that [Require] was given for [a]. *)
Definition edge (g : Graph) (a b : Version) : Prop := exists l, required g !! a = Some l /\ b ∈ l.
Definition reachable (g : Graph) (m : Version) : Prop := exists r, r ∈ roots g /\ rtc (edge g) r m.
Definition known (g : Graph) (m : Version) : Prop := is_Some (isRoot g !! m).

Inductive built (c : list Z -> list Z -> list Z -> Z) (rs : list Version) : Graph -> Prop :=
| built_new : built c rs (NewGraph c rs)
| built_require g m reqs g' : built c rs g -> Require m reqs g = Done (tt, g') -> built c rs g'.

Section Selection.
Context (c : list Z -> list Z -> list Z -> Z) `{Hc : !forall p, Comparison (c p)}.
Implicit Types (g : Graph) (m r : Version) (K : Version -> Prop).

(** The selection is the highest among the versions in [K]. *)
Record Sel K g : Prop := {
  sel_in p v : selected g !! p = Some v -> K (MkVersion p v) /\ c p none v < 0;
  sel_max m : K m -> 0 <= c (Path m) (Selected (Path m) g) (Vers m);
}.

Lemma Selected_raise g m p : Selected p (raise m g) =
  if decide (p = Path m /\ cmp g p (Selected p g) (Vers m) < 0) then Vers m else Selected p g.
Proof.
  unfold raise. destruct (Z.ltb_spec (cmp g (Path m) (Selected (Path m) g) (Vers m)) 0).
  - destruct (decide (p = Path m)) as [->|Hne]; unfold Selected at 1; cbn.
    + rewrite lookup_insert_eq. by rewrite decide_True by done.
    + rewrite lookup_insert_ne by done. rewrite decide_False; [done|]. by intros [? _].
  - rewrite decide_False; [done|]. intros [-> ?]. lia.
Qed.

Lemma raise_rest g m : cmp (raise m g) = cmp g /\ roots (raise m g) = roots g /\ required (raise m g) = required g /\
  isRoot (raise m g) = isRoot g.
Proof. unfold raise. by destruct (_ <? 0). Qed.

Lemma none_selected K g p : Sel K g -> c p none (Selected p g) <= 0.
Proof.
  intros [Hi _]. unfold Selected. destruct (selected g !! p) eqn:E; unfold from_option, id; [apply Hi in E as [_ ?]; lia|]. by rewrite cmp_refl by apply _.
Qed.

Lemma raise_Sel K g m : cmp g = c -> Sel K g -> Sel (fun x => x = m \/ K x) (raise m g).
Proof.
  intros Ec HS. pose proof HS as [Hi Hm]. split.
  - intros p v. unfold raise. rewrite Ec. destruct (Z.ltb_spec (c (Path m) (Selected (Path m) g) (Vers m)) 0) as [Hlt|Hge]; cbn.
    + destruct (decide (p = Path m)) as [->|Hne].
      * rewrite lookup_insert_eq. intros [= <-]. split; [left; by destruct m|].
        pose proof (none_selected K g (Path m) HS). pose proof (cmp_trans (c := c (Path m)) (Vers m) none (Selected (Path m) g)).
        pose proof (cmp_sym (c := c (Path m)) none (Vers m)). pose proof (cmp_sym (c := c (Path m)) (Vers m) (Selected (Path m) g)). lia.
      * rewrite lookup_insert_ne by done. intros H. apply Hi in H as [? ?]. eauto.
    + intros H. apply Hi in H as [? ?]. eauto.
  - intros x Hx. rewrite Selected_raise, Ec. case_decide as Hd.
    + destruct Hd as [Ep Hlt]. destruct Hx as [->|Hx]; [rewrite cmp_refl by apply _; lia|].
      apply Hm in Hx.
      pose proof (cmp_trans (c := c (Path x)) (Vers m) (Vers x) (Selected (Path x) g)).
      pose proof (cmp_sym (c := c (Path x)) (Vers m) (Vers x)). pose proof (cmp_sym (c := c (Path x)) (Selected (Path x) g) (Vers x)).
      pose proof (cmp_sym (c := c (Path x)) (Selected (Path x) g) (Vers m)). lia.
    + destruct Hx as [->|Hx]; [|by apply Hm]. destruct (Z_lt_le_dec (c (Path m) (Selected (Path m) g) (Vers m)) 0); [|done].
      by destruct Hd.
Qed.
Lemma Sel_iff K K' g : (forall x, K x <-> K' x) -> Sel K g -> Sel K' g.
Proof. intros E [Hi Hm]. split; intros; [rewrite <- E; by apply Hi|apply Hm; by rewrite E]. Qed.
Lemma Sel_selected K g g' : selected g' = selected g -> Sel K g -> Sel K g'.
Proof. intros E [Hi Hm]. split; unfold Selected; rewrite E; [exact Hi|exact Hm]. Qed.

(** ** The invariant *)

Record GInv (rs : list Version) g : Prop := {
  gi_cmp : cmp g = c;
  gi_roots : roots g = rs;
  gi_root r : r ∈ rs -> isRoot g !! r = Some true;
  gi_edge a b : edge g a b -> known g b;
  gi_known m : known g m -> reachable g m;
  gi_required a : is_Some (required g !! a) -> known g a;
  gi_isRoot m : isRoot g !! m = Some true -> m ∈ rs;
  gi_sel : Sel (known g) g;
}.

Lemma known_reachable rs g m : GInv rs g -> known g m <-> reachable g m.
Proof.
  intros []. split; [apply gi_known0|]. intros (r & Hr & Hp). rewrite gi_roots0 in Hr. apply gi_root0 in Hr.
  assert (known g r) as Hk by (by eexists). clear Hr. induction Hp as [|a b d Hab Hp IH]; [done|]. apply IH. by eapply gi_edge0.
Qed.

Lemma NewGraph_loop l g :
  cmp g = c -> (forall m, known g m <-> isRoot g !! m = Some true) -> Sel (known g) g ->
  let g' := foldl (fun g m => raise m (set_isRoot m true g)) g l in
  cmp g' = c /\ roots g' = roots g /\ required g' = required g /\
  (forall m, known g' m <-> isRoot g' !! m = Some true) /\ (forall m, known g' m <-> m ∈ l \/ known g m) /\ Sel (known g') g'.
Proof.
  revert g. induction l as [|m l IH]; intros g Ec Hk HS; [by split_and!; try done; set_solver|].
  change (foldl _ g (m :: l)) with (foldl (fun g m => raise m (set_isRoot m true g)) (raise m (set_isRoot m true g)) l).
  pose proof (raise_rest (set_isRoot m true g) m) as (R1 & R2 & R3 & R4).
  assert (Hkm : forall x, known (raise m (set_isRoot m true g)) x <-> x = m \/ known g x).
  { intros x. unfold known. rewrite R4. cbn. destruct (decide (x = m)) as [->|Hne].
    - rewrite lookup_insert_eq. naive_solver.
    - rewrite lookup_insert_ne by done. naive_solver. }
  destruct (IH (raise m (set_isRoot m true g))) as (H1 & H2 & H3 & H4 & H5 & H6).
  - by rewrite R1.
  - intros x. rewrite Hkm, R4. cbn. destruct (decide (x = m)) as [->|Hne].
    + rewrite lookup_insert_eq. naive_solver.
    + rewrite lookup_insert_ne by done. rewrite <- Hk. naive_solver.
  - eapply Sel_iff; [intros x; symmetry; apply Hkm|]. apply raise_Sel; [done|]. by apply (Sel_selected _ g).
  - rewrite R2 in H2. rewrite R3 in H3. split_and!; try done. intros x. rewrite H5, Hkm, elem_of_cons. tauto.
Qed.
Lemma NewGraph_GInv rs : GInv rs (NewGraph c rs).
Proof.
  destruct (NewGraph_loop rs (MkGraph c rs ∅ ∅ ∅)) as (H1 & H2 & H3 & H4 & H5 & H6); [done| | |].
  - intros m. unfold known. cbn. rewrite lookup_empty. split; [by intros []|done].
  - split; cbn; [done|]. unfold known. cbn. by intros m [].
  - fold (NewGraph c rs) in *. cbn in H2, H3.
    assert (Hk : forall m, known (NewGraph c rs) m <-> m ∈ rs).
    { intros m. rewrite H5. unfold known at 1. cbn. rewrite lookup_empty. split; [intros [?|[]]; [done|done]|by left]. }
    split; try done.
    + intros r Hr. by apply H4, Hk.
    + intros a b (l & E & _). by rewrite H3 in E.
    + intros m Hm%Hk. exists m. by rewrite H2.
    + intros a [? E]. by rewrite H3 in E.
    + intros m Hm. by apply Hk, H4.
Qed.

Lemma Require_dep_spec g m : cmp g = c -> Sel (known g) g ->
  let g' := Require_dep g m in
  cmp g' = c /\ roots g' = roots g /\ required g' = required g /\
  (forall x, isRoot g' !! x = Some true <-> isRoot g !! x = Some true) /\ (forall x, known g' x <-> x = m \/ known g x) /\ Sel (known g') g'.
Proof.
  intros Ec HS. cbv zeta. unfold Require_dep. set (g1 := match isRoot g !! m with None => _ | Some _ => _ end).
  assert (H1 : cmp g1 = c /\ roots g1 = roots g /\ required g1 = required g /\ selected g1 = selected g) by (unfold g1; by case_match).
  destruct H1 as (H1 & H2 & H3 & H4).
  assert (Ht : forall x, isRoot g1 !! x = Some true <-> isRoot g !! x = Some true).
  { intros x. unfold g1. destruct (isRoot g !! m) eqn:E; [done|]. cbn. destruct (decide (x = m)) as [->|Hne].
    - rewrite lookup_insert_eq, E. naive_solver.
    - by rewrite lookup_insert_ne. }
  assert (Hk : forall x, known g1 x <-> x = m \/ known g x).
  { intros x. unfold g1, known. destruct (isRoot g !! m) eqn:E.
    - split; [by right|]. intros [->|]; [by rewrite E|done].
    - cbn. destruct (decide (x = m)) as [->|Hne]; [rewrite lookup_insert_eq; naive_solver|rewrite lookup_insert_ne by done; naive_solver]. }
  pose proof (raise_rest g1 m) as (R1 & R2 & R3 & R4).
  assert (Hk' : forall x, known (raise m g1) x <-> x = m \/ known g x) by (intros x; unfold known at 1; rewrite R4; apply Hk).
  split_and!; [congruence|congruence|congruence|by intros x; rewrite R4|done|].
  eapply Sel_iff; [intros x; symmetry; apply Hk'|]. apply raise_Sel; [done|]. by apply (Sel_selected _ g).
Qed.

Lemma Require_loop l g : cmp g = c -> Sel (known g) g ->
  let g' := foldl Require_dep g l in
  cmp g' = c /\ roots g' = roots g /\ required g' = required g /\
  (forall x, isRoot g' !! x = Some true <-> isRoot g !! x = Some true) /\ (forall x, known g' x <-> x ∈ l \/ known g x) /\ Sel (known g') g'.
Proof.
  revert g. induction l as [|m l IH]; intros g Ec HS; [split_and!; try done; set_solver|].
  destruct (Require_dep_spec g m Ec HS) as (H1 & H2 & H3 & H4 & H5 & H6).
  destruct (IH _ H1 H6) as (I1 & I2 & I3 & I4 & I5 & I6). cbn.
  split_and!; try congruence; try done.
  - intros x. by rewrite I4.
  - intros x. rewrite I5, H5, elem_of_cons. tauto.
Qed.

Definition required_graph (m : Version) (reqs : list Version) (g : Graph) : Graph := foldl Require_dep (set_required m reqs g) reqs.
Lemma Require_GInv rs g m reqs : GInv rs g -> known g m -> required g !! m = None ->
  let g' := required_graph m reqs g in
  GInv rs g' /\ required g' = <[m := reqs]> (required g) /\ (forall x, known g' x <-> x ∈ reqs \/ known g x).
Proof.
  intros HG Hm Hr. pose proof HG as [G1 G2 G3 G4 G5 G6 G7 G8].
  destruct (Require_loop reqs (set_required m reqs g)) as (H1 & H2 & H3 & H4 & H5 & H6); [done|exact (Sel_selected (known g) g (set_required m reqs g) eq_refl G8)|].
  cbv zeta. fold (required_graph m reqs g) in *. cbn in H2, H3, H4. split; [|done].
  assert (Hedge : forall a b, edge g a b -> edge (required_graph m reqs g) a b).
  { intros a b (l & E & Hb). exists l. rewrite H3, lookup_insert_ne by congruence. done. }
  assert (Hreach : forall x, reachable g x -> reachable (required_graph m reqs g) x).
  { intros x (r & Hrr & Hp). exists r. rewrite H2. split; [done|]. clear Hrr. induction Hp; [apply rtc_refl|]. eapply rtc_l; eauto. }
  assert (Hkn : forall x, known (set_required m reqs g) x <-> known g x) by done.
  split; try congruence; try done.
  - intros r Hrr. by apply H4, G3.
  - intros a b (l & E & Hb). rewrite H3 in E. apply H5. apply lookup_insert_Some in E as [[<- <-]|[_ E]]; [by left|].
    right. apply (G4 a). by exists l.
  - intros x [Hx|Hx]%H5; [|by apply Hreach, G5].
    destruct (Hreach m (G5 m Hm)) as (r & Hrr & Hp). exists r. split; [done|]. eapply rtc_r; [done|]. exists reqs.
    by rewrite H3, lookup_insert_eq.
  - intros a Ha. apply H5. right. rewrite H3 in Ha. destruct (decide (a = m)) as [->|]; [done|].
    rewrite lookup_insert_ne in Ha by done. by apply G6.
  - intros x Hx. apply G7, H4, Hx.
Qed.

(** [Require] panics exactly for an unknown module or one whose requirements
    are set. *)
Lemma Require_cases m reqs g : Require m reqs g =
  match isRoot g !! m, required g !! m with
  | None, _ => Panic (Explicit 1)
  | Some _, Some _ => Panic (Explicit 2)
  | Some _, None => Done (tt, required_graph m reqs g)
  end.
Proof. unfold Require, mbind, mget. destruct (isRoot g !! m); [|done]. by destruct (required g !! m). Qed.

Lemma built_GInv rs g : built c rs g -> GInv rs g.
Proof.
  induction 1 as [|g m reqs g' Hb IH E]; [apply NewGraph_GInv|]. rewrite Require_cases in E.
  destruct (isRoot g !! m) eqn:E1; [|done]. destruct (required g !! m) eqn:E2; [done|]. injection E as <-.
  apply Require_GInv; [done|by eexists|done].
Qed.

End Selection.

(** ** The build list *)

Section BuildList.
Implicit Types (g : Graph) (m r : Version).

(** The first module of each path. *)
Fixpoint first_paths (seen : gset (list Z)) (rs : list Version) : list (list Z) :=
  match rs with
  | [] => []
  | r :: rs => if decide (Path r ∈ seen) then first_paths seen rs else Path r :: first_paths ({[Path r]} ∪ seen) rs
  end.
Definition chosen g (p : list Z) : option Version :=
  let v := Selected p g in if str_eqb v none then None else Some (MkVersion p v).
Definition root_list g : list Version := omap (chosen g) (first_paths ∅ (roots g)).

Lemma root_versions_loop g rs l seen :
  foldl (fun '(list, seenRoot) r =>
           if decide (Path r ∈ seenRoot) then (list, seenRoot)
           else
             let v := Selected (Path r) g in
             (if str_eqb v none then list else list ++ [MkVersion (Path r) v], {[Path r]} ∪ seenRoot)) (l, seen) rs
  = (l ++ omap (chosen g) (first_paths seen rs), seen ∪ list_to_set (map Path rs)).
Proof.
  revert l seen. induction rs as [|r rs IH]; intros l seen.
  - cbn. rewrite app_nil_r. f_equal. apply leibniz_equiv. set_solver.
  - cbn [foldl first_paths]. case_decide as Hd.
    + rewrite IH. f_equal. apply leibniz_equiv. cbn. set_solver.
    + rewrite IH. f_equal; [|apply leibniz_equiv; cbn; set_solver]. cbn. unfold chosen at 2. destruct (str_eqb _ none); [done|].
      by rewrite <- app_assoc.
Qed.
Lemma root_versions_spec g : root_versions g = (root_list g, list_to_set (map Path (roots g))).
Proof. unfold root_versions. rewrite root_versions_loop. f_equal. apply leibniz_equiv. set_solver. Qed.

Definition path_lt (a b : Version) : Prop := str_ltb (Path a) (Path b) = true.

Lemma same_path l i j x y : NoDup (map Path l) -> at_ l i = Some x -> at_ l j = Some y -> Path x = Path y -> x = y.
Proof.
  intros Hnd Hx Hy E. pose proof (at_range _ _ _ Hx). pose proof (at_range _ _ _ Hy). rewrite at_lookup in Hx, Hy by lia.
  rewrite NoDup_alt in Hnd. assert (Z.to_nat i = Z.to_nat j) as Eij; [|rewrite Eij in Hx; congruence].
  apply (Hnd _ _ (Path x)); apply list_lookup_fmap_Some; eauto.
Qed.
Lemma mod_less_refl x : mod_less x x = false.
Proof.
  unfold mod_less, str_eqb. rewrite bool_decide_true by done. cbn. destruct (split_slash (Vers x)) as [v f].
  rewrite bool_decide_true by done. apply str_ltb_irrefl.
Qed.
#[export] Instance path_StrictWeak : StrictWeak (fun a b => str_ltb (Path a) (Path b)).
Proof.
  split.
  - intros x. apply str_ltb_irrefl.
  - intros x y z. apply str_ltb_trans.
  - intros x y z H1 H2 H3 H4. rewrite (str_ltb_total _ _ H1 H2). done.
Qed.

Lemma sorted_paths_strict (l : list Version) : NoDup (map Path l) -> sorted_list (fun a b => str_ltb (Path a) (Path b)) l -> StronglySorted path_lt l.
Proof.
  intros Hnd Hs. induction Hs as [|x l' Hs IH Hx]; [constructor|].
  apply NoDup_cons in Hnd as [Hni Hnd]. constructor; [by apply IH|]. rewrite Forall_forall in Hx |- *. intros y Hy.
  specialize (Hx y Hy). unfold le in Hx. unfold path_lt. destruct (str_ltb (Path x) (Path y)) eqn:E; [done|].
  destruct Hni. rewrite (str_ltb_total _ _ E Hx). by apply list_elem_of_fmap_2.
Qed.

(** [ModSort] of modules with different paths sorts them by path. *)
Lemma ModSort_paths l : NoDup (map Path l) -> zlen l < 2 ^ 62 ->
  exists l', exec ModSort l = Done l' /\ l' ≡ₚ l /\ StronglySorted path_lt l'.
Proof.
  intros Hnd Hlen. destruct (Slice_sorts (fun a b => str_ltb (Path a) (Path b)) (fun i j => mi <- load i ;; mj <- load j ;; mret (mod_less mi mj)) l)
    as (l' & E & Hp & Hs); [done| |].
  - intros l1 i j x y Hp Hx Hy. unfold mbind, load. rewrite Hx, Hy. unfold mret. f_equal. f_equal.
    destruct (decide (Path x = Path y)) as [Exy|Hne].
    + rewrite <- (same_path l1 i j x y) by (done || by rewrite Hp). by rewrite mod_less_refl, str_ltb_irrefl.
    + unfold mod_less, str_eqb. by rewrite bool_decide_false.
  - exists l'. split; [unfold exec, ModSort; by rewrite E|]. split; [done|]. specialize (Hs path_StrictWeak).
    apply sorted_paths_strict; [by rewrite Hp|done].
Qed.

Lemma rest_loop (seen : gset (list Z)) order l :
  foldl (fun rest '(path, version) => if decide (path ∈ seen) then rest else rest ++ [MkVersion path version]) l order
  = l ++ map (fun '(p, v) => MkVersion p v) (filter (fun pv => pv.1 ∉ seen) order).
Proof.
  revert l. induction order as [|[p v] order IH]; intros l; [by rewrite app_nil_r|]. cbn [foldl]. rewrite filter_cons.
  case_decide as Hd; rewrite IH.
  - by rewrite decide_False by naive_solver.
  - rewrite decide_True by done. cbn. by rewrite <- app_assoc.
Qed.

Definition is_rest g (rest : list Version) : Prop :=
  StronglySorted path_lt rest /\
  forall m, m ∈ rest <-> selected g !! Path m = Some (Vers m) /\ forall r, r ∈ roots g -> Path r <> Path m.
Lemma BuildList_spec g order : order ≡ₚ map_to_list (selected g) -> zlen order < 2 ^ 62 ->
  exists rest, BuildList order g = Done (root_list g ++ rest) /\ is_rest g rest.
Proof.
  intros Ho Hlen. unfold BuildList. rewrite root_versions_spec, rest_loop, app_nil_l.
  set (seen := list_to_set (map Path (roots g)) : gset (list Z)). set (l := map _ _).
  assert (Hnd : NoDup (map Path l)).
  { unfold l. rewrite map_map. rewrite (map_ext _ fst) by (by intros []).
    eapply sublist_NoDup; [|apply fmap_sublist, sublist_filter]. change (NoDup (fst <$> order)). rewrite Ho. apply NoDup_fst_map_to_list. }
  destruct (ModSort_paths l Hnd) as (l' & E & Hp & Hs).
  { unfold l, zlen in *. rewrite length_map. pose proof (length_filter (fun pv : list Z * list Z => pv.1 ∉ seen) order). lia. }
  exists l'. rewrite E. split; [done|]. split; [done|]. intros m. rewrite Hp. unfold l. rewrite list_elem_of_fmap. split.
  - intros ([p v] & -> & [Hf Hin]%list_elem_of_filter). rewrite Ho, elem_of_map_to_list in Hin. split; [done|].
    intros r Hr Hpr. apply Hf. cbn in *. subst p. apply elem_of_list_to_set, list_elem_of_fmap_2, Hr.
  - intros [Hsel Hr]. exists (Path m, Vers m). split; [by destruct m|]. apply list_elem_of_filter. split.
    + cbn. unfold seen. rewrite elem_of_list_to_set, list_elem_of_fmap. intros (r & Er & Hin). by apply (Hr r Hin).
    + by rewrite Ho, elem_of_map_to_list.
Qed.
Lemma sorted_rest_unique (rest rest' : list Version) : StronglySorted path_lt rest -> StronglySorted path_lt rest' ->
  (forall m, m ∈ rest <-> m ∈ rest') -> rest = rest'.
Proof.
  intros Hs Hs' H. assert (Hnd : forall l, StronglySorted path_lt l -> NoDup l).
  { intros l Hl. induction Hl as [|x l Hl IH Hx]; constructor; [|done]. intros Hin. rewrite Forall_forall in Hx. specialize (Hx x Hin).
    unfold path_lt in Hx. by rewrite str_ltb_irrefl in Hx. }
  apply (StronglySorted_unique_strong path_lt); [|done|done|].
  - intros x y _ _ Hxy Hyx. unfold path_lt in *. rewrite (str_ltb_asym _ _ Hxy) in Hyx. done.
  - apply NoDup_Permutation; [by apply Hnd..|done].
Qed.
Lemma is_rest_unique g g' rest rest' : selected g = selected g' -> roots g = roots g' -> is_rest g rest -> is_rest g' rest' -> rest = rest'.
Proof. intros E1 E2 [Hs H] [Hs' H']. apply sorted_rest_unique; [done|done|]. intros x. by rewrite H, H', E1, E2. Qed.
End BuildList.
