(* ===== verification/MvsSearch.v ===== *)
(** * cmd/go/internal/mvs: breadth-first search

    The invariant that the two traversals of the graph share: the queue is sorted by
    the distance from the roots and spans at most two distances, and the requirements
    of what has left the queue are at most one further away.  So a module that leaves
    the queue does so at its distance ([distance_minimal]). *)

From stdpp Require Import gmap.
From S2P Require Import Prelude.
From S2P Require Import Slice.
From S2P Require Import Text.
From S2P Require Import ModGover.
From S2P Require Import MvsGraph.

(** The elements of [rs] that are not in [seen], once each. *)
Fixpoint news (seen : gset Version) (rs : list Version) : list Version :=
  match rs with
  | [] => []
  | r :: rs => if decide (r ∈ seen) then news seen rs else r :: news ({[r]} ∪ seen) rs
  end.
Lemma elem_of_news (seen : gset Version) rs x : x ∈ news seen rs <-> x ∈ rs /\ x ∉ seen.
Proof.
  revert seen. induction rs as [|r rs IH]; intros seen; cbn; [set_solver|]. case_decide.
  - rewrite IH. set_solver.
  - rewrite elem_of_cons, IH. destruct (decide (x = r)); set_solver.
Qed.
Lemma NoDup_news (seen : gset Version) rs : NoDup (news seen rs).
Proof.
  revert seen. induction rs as [|r rs IH]; intros seen; cbn; [constructor|]. case_decide; [done|].
  constructor; [|done]. rewrite elem_of_news. set_solver.
Qed.

Section Search.
Context (succ : Version -> list Version) (starts : list Version).
Implicit Types (m r x y : Version) (q l : list Version) (D : Version -> nat) (P : gset Version).

(** [l] leads from one of [starts] to [m]. *)
Inductive rpath : list Version -> Version -> Prop :=
| rpath_root r : r ∈ starts -> rpath [r] r
| rpath_step l a b : rpath l a -> b ∈ succ a -> rpath (l ++ [b]) b.

Lemma rpath_last l m : rpath l m -> last l = Some m.
Proof. destruct 1; [done|apply last_snoc]. Qed.
Lemma rpath_prefix l m i x : rpath l m -> l !! i = Some x -> exists l', rpath l' x.
Proof.
  induction 1 as [r Hr|l a b Hl IH Hb]; intros Hi.
  - apply list_lookup_singleton_Some in Hi as [_ <-]. exists [r]. by constructor.
  - apply lookup_app_Some in Hi as [Hi|[_ Hi]]; [by apply IH|]. apply list_lookup_singleton_Some in Hi as [_ <-].
    exists (l ++ [b]). by eapply rpath_step.
Qed.
Lemma rpath_length l m : rpath l m -> (0 < length l)%nat.
Proof. destruct 1; [cbn; lia|]. rewrite length_app. cbn. lia. Qed.

(** [P] is what has left the queue [q], [D] the distances. *)
Record BInv P q D : Prop := {
  b_start r : r ∈ starts -> (r ∈ P \/ r ∈ q) /\ D r = 0%nat;
  b_succ p r : p ∈ P -> r ∈ succ p -> (r ∈ P \/ r ∈ q) /\ (D r <= S (D p))%nat;
  b_sorted : StronglySorted (fun x y => (D x <= D y)%nat) q;
  b_window x y : x ∈ q -> y ∈ q -> (D y <= S (D x))%nat;
  b_past p x : p ∈ P -> x ∈ q -> (D p <= D x)%nat;
  b_back x : x ∈ P \/ x ∈ q -> exists l, rpath l x /\ length l = S (D x);
}.

Lemma BInv_start D : (forall r, r ∈ starts -> D r = 0%nat) -> BInv ∅ starts D.
Proof.
  intros HD. split.
  - intros r Hr. split; [by right|by apply HD].
  - intros p r Hp. set_solver.
  - assert (Hs : forall l, l ⊆ starts -> StronglySorted (fun x y => (D x <= D y)%nat) l); [|by apply Hs].
    induction l as [|x l IH]; intros Hl; constructor; [apply IH; set_solver|]. apply Forall_forall. intros y Hy.
    rewrite !HD by set_solver. done.
  - intros x y Hx Hy. rewrite !HD by done. lia.
  - intros p x Hp. set_solver.
  - intros x [Hx|Hx]; [set_solver|]. exists [x]. rewrite HD by done. split; [by constructor|done].
Qed.

(** The head of the queue is processed. *)
Lemma BInv_step P m q D (seen : gset Version) : BInv P (m :: q) D -> (forall x, x ∈ seen <-> x ∈ P \/ x ∈ m :: q) ->
  let new := news seen (succ m) in
  let D' x := if decide (x ∈ new) then S (D m) else D x in
  (forall x, x ∈ seen -> D' x = D x) /\ BInv ({[m]} ∪ P) (q ++ new) D' /\
  (forall x, x ∈ P \/ x ∈ m :: q \/ x ∈ new <-> x ∈ {[m]} ∪ P \/ x ∈ q ++ new).
Proof.
  intros [B1 B2 B3 B4 B5 B6] Hseen new D'.
  assert (HD : forall x, x ∈ P \/ x ∈ m :: q -> D' x = D x).
  { intros x Hx. unfold D'. rewrite decide_False; [done|]. unfold new. rewrite elem_of_news, Hseen. tauto. }
  assert (Hnew : forall x, x ∈ new -> D' x = S (D m)) by (intros x Hx; unfold D'; by rewrite decide_True).
  apply StronglySorted_inv in B3 as [B3 Hm]. rewrite Forall_forall in Hm.
  split; [intros x Hx; by apply HD, Hseen|]. split; [|set_solver]. split.
  - intros r Hr. destruct (B1 r Hr) as [Hin H0]. rewrite HD by done. split; [set_solver|done].
  - intros p r Hp Hr. assert (Hp' : p ∈ P \/ p ∈ m :: q) by set_solver. rewrite (HD p Hp'). apply elem_of_union in Hp as [Hp|Hp].
    + apply elem_of_singleton in Hp as ->. destruct (decide (r ∈ seen)) as [Hs|Hs].
      * apply Hseen in Hs. rewrite HD by done. split; [set_solver|]. destruct Hs as [Hs|Hs].
        -- pose proof (B5 r m Hs ltac:(set_solver)). lia.
        -- apply B4; set_solver.
      * assert (r ∈ new) as Hn by (by apply elem_of_news). rewrite Hnew by done. split; [set_solver|done].
    + destruct (B2 p r Hp Hr) as [Hin Hle]. rewrite HD by done. split; [set_solver|done].
  - assert (Hs : StronglySorted (fun x y => (D' x <= D' y)%nat) q).
    { clear - B3 HD. assert (Hq : forall x, x ∈ q -> D' x = D x) by (intros; apply HD; set_solver). clear HD.
      induction B3 as [|x q Hs IH Hx]; constructor; [apply IH; set_solver|]. rewrite Forall_forall in Hx |- *. intros y Hy.
      rewrite !Hq by set_solver. by apply Hx. }
    assert (Hl : forall x, x ∈ q -> (D' x <= S (D m))%nat) by (intros x Hx; rewrite HD by set_solver; apply B4; set_solver).
    clear - Hs Hl Hnew. clearbody D'. clearbody new. induction Hs as [|x q Hs IH Hx]; cbn.
    + clear Hl. induction new as [|y n IH]; constructor; [apply IH; set_solver|]. apply Forall_forall. intros z Hz.
      rewrite !Hnew by set_solver. done.
    + constructor; [apply IH; set_solver|]. apply Forall_app. split; [done|]. apply Forall_forall. intros z Hz.
      rewrite (Hnew z Hz). apply Hl. set_solver.
  - intros x y Hx Hy. apply elem_of_app in Hx, Hy.
    assert (Hlow : (D m <= D' x)%nat) by (destruct Hx as [Hx|Hx]; [rewrite HD by set_solver; by apply Hm|rewrite Hnew by done; lia]).
    assert (Hhigh : (D' y <= S (D m))%nat) by (destruct Hy as [Hy|Hy]; [rewrite HD by set_solver; apply B4; set_solver|rewrite Hnew by done; lia]).
    lia.
  - intros p x Hp Hx. assert (Hpm : (D' p <= D m)%nat).
    { rewrite HD by set_solver. apply elem_of_union in Hp as [Hp%elem_of_singleton|Hp]; [by subst|]. apply B5; set_solver. }
    apply elem_of_app in Hx as [Hx|Hx]; [rewrite (HD x) by set_solver; specialize (Hm x Hx); lia|rewrite (Hnew x Hx); lia].
  - intros x Hx. destruct (decide (x ∈ new)) as [Hn|Hn].
    + rewrite Hnew by done. destruct (B6 m ltac:(set_solver)) as (l & Hl & E). exists (l ++ [x]). split.
      * eapply rpath_step; [done|]. by apply elem_of_news in Hn as [? _].
      * rewrite length_app, E. cbn. lia.
    + assert (Hx' : x ∈ P \/ x ∈ m :: q) by set_solver. rewrite HD by done. by apply B6.
Qed.

(** Whatever a path leads to has left the queue, at most at that distance, or the
    queue still has a module at most as far away. *)
Lemma distance_minimal P q D l m : BInv P q D -> rpath l m ->
  (m ∈ P /\ (S (D m) <= length l)%nat) \/ exists x, x ∈ q /\ (S (D x) <= length l)%nat.
Proof.
  intros HB. induction 1 as [r Hr|l a b Hl IH Hb].
  - apply (b_start _ _ _ HB) in Hr as [[Hr|Hr] H0]; [left|right; exists r]; rewrite H0; (split; [done|cbn; lia]).
  - rewrite length_app. cbn. destruct IH as [[Ha Hle]|(x & Hx & Hle)]; [|right; exists x; split; [done|lia]].
    destruct (b_succ _ _ _ HB a b Ha Hb) as [[Hin|Hin] Hle']; [left|right; exists b]; (split; [done|lia]).
Qed.
End Search.

(** ** The number of rounds *)

Section Rounds.
Implicit Types (all l : list Version) (seen : gset Version).

Definition unseen all seen : nat := length (filter (fun x => x ∉ seen) all).
Lemma unseen_add all seen x : x ∈ all -> x ∉ seen -> (unseen all ({[x]} ∪ seen) < unseen all seen)%nat.
Proof.
  unfold unseen. intros Hx Hs. assert (Hle : forall l, (length (filter (fun y => y ∉ {[x]} ∪ seen) l) <= length (filter (fun y => y ∉ seen) l))%nat).
  { induction l as [|y l IH]; [done|]. rewrite !filter_cons. destruct (decide (y ∉ {[x]} ∪ seen)), (decide (y ∉ seen)); cbn; try lia. set_solver. }
  induction all as [|y l IH]; [set_solver|]. rewrite !filter_cons. destruct (decide (y = x)) as [->|Hne].
  - rewrite decide_False by set_solver. rewrite decide_True by done. cbn. specialize (Hle l). lia.
  - assert (x ∈ l) as Hl by set_solver. specialize (IH Hl). destruct (decide (y ∉ {[x]} ∪ seen)), (decide (y ∉ seen)); cbn; try lia; set_solver.
Qed.
Lemma unseen_news all seen rs : rs ⊆ all ->
  (unseen all (seen ∪ list_to_set (news seen rs)) + length (news seen rs) <= unseen all seen)%nat.
Proof.
  revert seen. induction rs as [|r rs IH]; intros seen Hrs; cbn; [rewrite (right_id_L ∅ (∪)); lia|]. case_decide.
  - apply IH. set_solver.
  - specialize (IH ({[r]} ∪ seen) ltac:(set_solver)). pose proof (unseen_add all seen r ltac:(set_solver) ltac:(done)). cbn.
    replace (seen ∪ ({[r]} ∪ list_to_set (news ({[r]} ∪ seen) rs))) with (({[r]} ∪ seen) ∪ list_to_set (news ({[r]} ∪ seen) rs)); [lia|].
    apply leibniz_equiv. set_solver.
Qed.

(** The entries of all lists of requirements. *)
Definition entries (g : Graph) : list Version := List.concat (map snd (map_to_list (required g))).
Lemma entries_RequiredBy g m : (RequiredBy m g).1 ⊆ entries g.
Proof.
  unfold RequiredBy, entries. destruct (required g !! m) as [l|] eqn:E; cbn; [|set_solver]. intros x Hx.
  apply list_elem_of_In, in_concat. exists l. split; [|by apply list_elem_of_In].
  apply in_map_iff. exists (m, l). split; [done|]. apply list_elem_of_In. by apply elem_of_map_to_list.
Qed.
End Rounds.
