(* ===== verification/MvsGraphTheorems.v ===== *)
(** * cmd/go/internal/mvs: what the graph computes

    The theorems on [Require], [Selected] and [BuildList] ([graph_selects_highest]) and
    on the two traversals ([graph_traversals]). *)

From stdpp Require Import gmap relations.
From S2P Require Import Prelude.
From S2P Require Import Slice.
From S2P Require Import Text.
From S2P Require Import GoverTheorems.
From S2P Require Import ModGover.
From S2P Require Import MvsGraph.
From S2P Require Import MvsGraphInv.
From S2P Require Import MvsSearch.

(** ** Reversal *)

Lemma at_rev {A} (l : list A) k : at_ (rev l) k = at_ l (zlen l - 1 - k).
Proof.
  destruct (decide (0 <= k < zlen l)) as [Hk|Hk].
  - rewrite !at_lookup by lia. unfold zlen in *. rewrite rev_alt. change (rev_append l []) with (reverse l).
    rewrite reverse_lookup by lia. f_equal. lia.
  - rewrite !at_None; [done|lia|]. unfold zlen in *. rewrite length_rev. lia.
Qed.
Lemma wp_reverse_loop l : wp (reverse_loop (length l)) (fun _ l' => l' = rev l) l.
Proof.
  unfold reverse_loop.
  apply (wp_loop (fun '(i, j) l' => 0 <= i /\ j < zlen l /\ i + j = zlen l - 1 /\ zlen l' = zlen l /\
           forall k, at_ l' k = if (k <? i) || (j <? k) then at_ l (zlen l - 1 - k) else at_ l k)
         (fun '(i, j) => Z.to_nat (j - i + 1))).
  - pose proof (zlen_nonneg l). unfold zlen in *. split_and!; try lia. intros k.
    destruct (Z.ltb_spec k 0), (Z.ltb_spec (Z.of_nat (length l) - 1) k); cbn; try done; rewrite !at_None; try done; unfold zlen; lia.
  - pose proof (zlen_nonneg l). unfold zlen in *. lia.
  - intros [i j] l' (Hi & Hj & Hij & Hl & Hk). wp_step.
    + wp_step. reflect. apply wp_swap; [lia..|]. wp_step. split; [|lia]. rewrite zlen_swapped. split_and!; try lia.
      intros k. rewrite at_swapped by lia. destruct (Z.ltb_spec k (i + 1)), (Z.ltb_spec (j - 1) k); cbn.
      all: repeat case_decide; subst; rewrite Hk.
      all: repeat match goal with |- context [?a <? ?b] => destruct (Z.ltb_spec a b); try lia end; cbn; try done; f_equal; lia.
    + wp_step. reflect. apply at_ext. intros k. rewrite at_rev, Hk.
      destruct (Z.ltb_spec k i), (Z.ltb_spec j k); cbn; try done. f_equal. lia.
Qed.
Lemma reverse_loop_rev l : exec (reverse_loop (length l)) l = Done (rev l).
Proof. destruct (wp_exec _ _ _ (wp_reverse_loop l)) as (s & E & ->). exact E. Qed.

(** ** FindPath *)

Section Traversals.
Context (g : Graph).
Implicit Types (m r x v : Version) (q l : list Version) (fr : gmap Version Version) (D : Version -> nat) (P : gset Version).

Definition next_of m : list Version := (RequiredBy m g).1.
#[local] Notation path := (rpath next_of (roots g)).

Definition set_parents (m : Version) (rs : list Version) fr : gmap Version Version := foldl (fun fr r => <[r := m]> fr) fr rs.
Lemma set_parents_lookup m rs fr x : set_parents m rs fr !! x = if decide (x ∈ rs) then Some m else fr !! x.
Proof.
  revert fr. induction rs as [|r rs IH]; intros fr; [done|]. cbn. fold (set_parents m rs (<[r := m]> fr)). rewrite IH.
  destruct (decide (x ∈ rs)); [by rewrite decide_True by set_solver|]. destruct (decide (x = r)) as [->|Hne].
  - by rewrite decide_True, lookup_insert_eq by set_solver.
  - by rewrite decide_False, lookup_insert_ne by set_solver.
Qed.
Lemma find_inner m rs q fr :
  foldl (fun '(queue, firstRequires) r =>
           match firstRequires !! r with
           | None => (queue ++ [r], <[r := m]> firstRequires)
           | Some _ => (queue, firstRequires)
           end) (q, fr) rs = (q ++ news (dom fr) rs, set_parents m (news (dom fr) rs) fr).
Proof.
  revert q fr. induction rs as [|r rs IH]; intros q fr; cbn; [by rewrite app_nil_r|]. destruct (fr !! r) eqn:E.
  - rewrite IH. by rewrite decide_True by (by apply elem_of_dom_2 in E).
  - rewrite IH, decide_False by (by apply not_elem_of_dom). by rewrite dom_insert_L, <- app_assoc.
Qed.

(** [firstRequires] maps a root to nothing and any other module to one that is one
    step nearer. *)
Definition Parents fr D : Prop := forall x v, fr !! x = Some v ->
  (D x = 0%nat /\ x ∈ roots g /\ v = zero_Version) \/ (v ∈ dom fr /\ x ∈ next_of v /\ D x = S (D v)).

Record FInv (f : Version -> bool) q fr : Prop := {
  f_search : exists P D, BInv next_of (roots g) P q D /\ (forall x, x ∈ dom fr <-> x ∈ P \/ x ∈ q) /\
    Parents fr D /\ forall p, p ∈ P -> f p = false }.

Lemma FInv_start f : FInv f (roots g) (foldl (fun fr m => <[m := zero_Version]> fr) ∅ (roots g)).
Proof.
  split. change (foldl _ ∅ (roots g)) with (set_parents zero_Version (roots g) ∅).
  exists ∅, (fun _ => 0%nat). split; [by apply BInv_start|]. split; [|split].
  - intros x. rewrite elem_of_dom, set_parents_lookup. case_decide; [naive_solver|]. rewrite lookup_empty.
    split; [by intros []|set_solver].
  - intros x v. rewrite set_parents_lookup. case_decide; [|by rewrite lookup_empty]. intros [= <-]. by left.
  - set_solver.
Qed.
Lemma FInv_step f m q fr : FInv f (m :: q) fr -> f m = false ->
  FInv f (q ++ news (dom fr) (next_of m)) (set_parents m (news (dom fr) (next_of m)) fr).
Proof.
  intros [(P & D & HB & Hd & Hp & Hf)] Hm. destruct (BInv_step next_of (roots g) P m q D (dom fr) HB Hd) as (HD & HB' & Hin).
  set (new := news (dom fr) (next_of m)) in *. split. exists ({[m]} ∪ P), (fun x => if decide (x ∈ new) then S (D m) else D x).
  split; [done|]. split; [|split].
  - intros x. rewrite elem_of_dom, set_parents_lookup, <- Hin. case_decide as Hn.
    + split; [by right; right|by eexists].
    + rewrite <- elem_of_dom, Hd. tauto.
  - intros x v. rewrite set_parents_lookup. case_decide as Hn; cbn beta.
    + intros [= <-]. right. assert (Hmd : m ∈ dom fr) by (apply Hd; set_solver). rewrite (HD m Hmd). split_and!; [|by apply elem_of_news in Hn as [? _]|done].
      apply elem_of_dom. rewrite set_parents_lookup. case_decide; [done|by apply elem_of_dom].
    + intros E. destruct (Hp x v E) as [?|(Hv & Hx & E')]; [by left|right]. rewrite (HD v Hv). split_and!; try done.
      apply elem_of_dom. rewrite set_parents_lookup. case_decide; [done|by apply elem_of_dom].
  - intros p [Hpm%elem_of_singleton|Hp']%elem_of_union; [by subst|by apply Hf].
Qed.

(** The way back from [x]; [D x] rounds are needed. *)
Lemma chain fr D x : Parents fr D -> x ∈ dom fr -> (forall y, y ∈ dom fr -> Path y <> []) ->
  exists back, path (rev (x :: back)) x /\ length back = D x /\ NoDup (x :: back) /\
    (forall y, y ∈ x :: back -> y ∈ dom fr /\ (D y <= D x)%nat) /\
    forall fuel acc, (D x < fuel)%nat ->
      loop fuel (fun m =>
         let m := default zero_Version (fr !! m) in
         if str_eqb (Path m) [] then break tt
         else (mmodify (fun path => path ++ [m]) ;; continue m)) x acc = Done (tt, acc ++ back).
Proof.
  intros Hp Hx Hne. remember (D x) as n eqn:En. revert x Hx En. induction n as [n IH] using lt_wf_ind. intros x Hx En.
  pose proof Hx as [v E]%elem_of_dom. destruct (Hp x v E) as [(H0 & Hr & ->)|(Hv & Hxv & Hd)].
  - exists []. split; [by constructor|]. split; [cbn; lia|]. split; [apply NoDup_singleton|]. split; [intros y ->%list_elem_of_singleton; split; [done|lia]|].
    intros [|fuel] acc Hf; [lia|]. cbn [loop]. unfold mbind. rewrite E. cbn. by rewrite app_nil_r.
  - destruct (IH (D v) ltac:(lia) v Hv eq_refl) as (back & H1 & H2 & H3 & H4 & H5). exists (v :: back). split_and!.
    + change (rev (x :: v :: back)) with (rev (v :: back) ++ [x]). by eapply rpath_step.
    + cbn. lia.
    + constructor; [|done]. intros Hin. apply H4 in Hin as [_ Hle]. lia.
    + intros y [->|Hy]%elem_of_cons; [split; [done|lia]|]. apply H4 in Hy as [? ?]. split; [done|lia].
    + intros [|fuel] acc Hf; [lia|]. cbn [loop]. unfold mbind at 1. rewrite E. cbn [default from_option id].
      unfold str_eqb. rewrite bool_decide_false by (by apply Hne). unfold mbind, mmodify, continue, mret. rewrite H5 by lia.
      by rewrite <- app_assoc.
Qed.
Lemma path_back_ok fr D x : Parents fr D -> x ∈ dom fr -> (forall y, y ∈ dom fr -> Path y <> []) ->
  exists l, path_back fr x = Done l /\ path l x /\ length l = S (D x).
Proof.
  intros Hp Hx Hne. destruct (chain fr D x Hp Hx Hne) as (back & H1 & H2 & H3 & H4 & H5). exists (rev (x :: back)). split; [|split; [done|]].
  - unfold path_back, exec at 1. rewrite H5; [apply reverse_loop_rev|].
    assert (S (D x) <= size fr)%nat; [|lia]. rewrite <- H2, <- size_dom. change (S (length back)) with (length (x :: back)).
    rewrite <- (size_list_to_set (C := gset Version) (x :: back)) by done. apply subseteq_size. intros y Hy%elem_of_list_to_set.
    by apply H4 in Hy as [? _].
  - rewrite length_rev. cbn. by rewrite H2.
Qed.

Lemma FindPath_spec (f : Version -> bool) : (forall l m, path l m -> Path m <> []) ->
  exists p, FindPath f g = Done p /\
    match p with
    | [] => forall l m, path l m -> f m = false
    | _ => exists m, path p m /\ f m = true /\ forall l' m', path l' m' -> f m' = true -> (length p <= length l')%nat
    end.
Proof.
  intros Hne. unfold FindPath.
  set (Q (r : option (gmap Version Version * Version)) := match r with
    | None => exists fr, FInv f [] fr
    | Some (fr, m) => exists q, FInv f (m :: q) fr /\ f m = true end).
  match goal with |- context [@result ?S ?A ?m tt] => assert (exists r : A, result m tt = Done r /\ Q r) as (r & E & HQ) end.
  { apply wp_result. apply (wp_loop (fun '(q, fr) _ => FInv f q fr) (fun '(q, fr) => (length q + unseen (entries g) (dom fr))%nat)).
    - apply FInv_start.
    - unfold rounds, unseen. fold (entries g). pose proof (length_filter (fun x => x ∉ dom (foldl (fun fr m => <[m := zero_Version]> fr) (∅ : gmap Version Version) (roots g))) (entries g)). lia.
    - intros [[|m q] fr] [] HI; wp_step; [by exists fr|wp_step; by exists q|].
      pose proof (find_inner m (next_of m) q fr) as Hin. unfold next_of in Hin. destruct (RequiredBy m g) as [reqs ok] eqn:Er. cbn [fst] in Hin.
      wp_step. rewrite Hin. replace reqs with (next_of m) by (unfold next_of; by rewrite Er). split; [by apply FInv_step|].
      rewrite length_app. cbn [length].
      pose proof (unseen_news (entries g) (dom fr) (next_of m) (entries_RequiredBy g m)) as Hu.
      replace (dom (set_parents m (news (dom fr) (next_of m)) fr)) with (dom fr ∪ list_to_set (news (dom fr) (next_of m))); [lia|].
      apply leibniz_equiv. intros x. rewrite elem_of_union, elem_of_list_to_set, !elem_of_dom, set_parents_lookup. case_decide; naive_solver. }
  rewrite E. cbn [obind]. destruct r as [[fr m]|].
  - destruct HQ as (q & [(P & D & HB & Hd & Hp & Hf)] & Hm).
    destruct (path_back_ok fr D m Hp) as (l & El & Hl & Hlen); [apply Hd; set_solver| |].
    { intros y Hy%Hd. destruct (b_back _ _ _ _ _ HB y Hy) as (l & Hl & _). by eapply Hne. }
    exists l. split; [done|]. assert (Hmin : forall l' m', path l' m' -> f m' = true -> (length l <= length l')%nat).
    { intros l' m' Hl' Hm'. destruct (distance_minimal _ _ _ _ _ _ _ HB Hl') as [[Hin _]|(x & Hx & Hle)]; [by rewrite Hf in Hm'|].
      rewrite Hlen. apply elem_of_cons in Hx as [->|Hx]; [done|].
      pose proof (b_sorted _ _ _ _ _ HB) as Hs. apply StronglySorted_inv in Hs as [_ Hs]. rewrite Forall_forall in Hs. specialize (Hs x Hx). lia. }
    destruct l as [|x l]; [by cbn in Hlen|]. by exists m.
  - exists []. split; [done|]. destruct HQ as (fr & [(P & D & HB & Hd & Hp & Hf)]).
    intros l m Hl. destruct (distance_minimal _ _ _ _ _ _ _ HB Hl) as [[Hin _]|(x & Hx & _)]; [by apply Hf|set_solver].
Qed.

(** ** WalkBreadthFirst *)

Definition is_some_version (m : Version) : bool := negb (str_eqb (Vers m) none).
Definition some_versions (l : list Version) : list Version := List.filter is_some_version l.
Definition next_some m : list Version := some_versions (next_of m).
#[local] Notation path' := (rpath next_some (some_versions (roots g))).

Lemma walk_start l q (E : gset Version) :
  foldl (fun '(queue, enqueued) m =>
           if str_eqb (Vers m) none then (queue, enqueued) else (queue ++ [m], {[m]} ∪ enqueued)) (q, E) l
  = (q ++ some_versions l, list_to_set (some_versions l) ∪ E).
Proof.
  revert q E. induction l as [|m l IH]; intros q E; cbn [foldl]; [cbn; rewrite app_nil_r; f_equal; by rewrite (left_id_L ∅ (∪))|].
  unfold some_versions, is_some_version in *. cbn [List.filter]. destruct (str_eqb (Vers m) none); cbn [negb]; rewrite IH; [done|].
  rewrite <- app_assoc. f_equal. apply leibniz_equiv. set_solver.
Qed.
Lemma walk_inner rs q (E : gset Version) :
  foldl (fun '(queue, enqueued) r =>
           if negb (bool_decide (r ∈ enqueued)) && negb (str_eqb (Vers r) none)
           then (queue ++ [r], {[r]} ∪ enqueued) else (queue, enqueued)) (q, E) rs
  = (q ++ news E (some_versions rs), E ∪ list_to_set (news E (some_versions rs))).
Proof.
  revert q E. induction rs as [|r rs IH]; intros q E; cbn [foldl]; [cbn; rewrite app_nil_r; f_equal; by rewrite (right_id_L ∅ (∪))|].
  unfold some_versions, is_some_version in *. cbn [List.filter]. destruct (str_eqb (Vers r) none); cbn [negb].
  { rewrite andb_false_r. apply IH. }
  rewrite andb_true_r. cbn [news]. destruct (decide (r ∈ E)) as [Hd|Hd].
  - rewrite bool_decide_true by done. apply IH.
  - rewrite bool_decide_false by done. cbn [negb]. rewrite IH, <- app_assoc. f_equal. apply leibniz_equiv. set_solver.
Qed.

Record WalkInv q (E : gset Version) (calls : list Version) : Prop := {
  w_search : exists P D, BInv next_some (some_versions (roots g)) P q D /\ (forall x, x ∈ E <-> x ∈ P \/ x ∈ q) /\
    (forall x, x ∈ calls <-> x ∈ P) /\ StronglySorted (fun x y => (D x <= D y)%nat) calls /\
    (NoDup (roots g) -> NoDup (calls ++ q)) }.

Lemma StronglySorted_snoc {A} (R : A -> A -> Prop) (l : list A) (x : A) : StronglySorted R l -> (forall y, y ∈ l -> R y x) -> StronglySorted R (l ++ [x]).
Proof.
  induction 1 as [|z l Hs IH Hz]; intros Hx; [by repeat constructor|]. cbn. constructor; [apply IH; set_solver|].
  apply Forall_app. split; [done|]. constructor; [apply Hx; set_solver|constructor].
Qed.
Lemma StronglySorted_ext {A} (R R' : A -> A -> Prop) (l : list A) : (forall x y : A, x ∈ l -> y ∈ l -> R x y -> R' x y) -> StronglySorted R l -> StronglySorted R' l.
Proof.
  intros H Hs. induction Hs as [|x l Hs IH Hx]; constructor; [apply IH; set_solver|]. rewrite Forall_forall in Hx |- *. intros y Hy.
  apply H; [set_solver..|by apply Hx].
Qed.

Lemma WalkInv_step m q E calls : WalkInv (m :: q) E calls ->
  WalkInv (q ++ news E (next_some m)) (E ∪ list_to_set (news E (next_some m))) (calls ++ [m]).
Proof.
  intros [(P & D & HB & HE & Hc & Hs & Hnd)]. destruct (BInv_step _ _ P m q D E HB HE) as (HD & HB' & Hin).
  set (new := news E (next_some m)) in *. split. exists ({[m]} ∪ P), (fun x => if decide (x ∈ new) then S (D m) else D x).
  split; [done|]. split; [|split; [|split]].
  - intros x. rewrite elem_of_union, elem_of_list_to_set, <- Hin, HE. tauto.
  - intros x. rewrite elem_of_app, list_elem_of_singleton, Hc. set_solver.
  - eapply (StronglySorted_ext (fun x y => (D x <= D y)%nat)).
    + intros x y Hx Hy. assert (HcE : forall z, z ∈ calls ++ [m] -> z ∈ E).
      { intros z [Hz|Hz]%elem_of_app; apply HE; [left; by apply Hc|right; set_solver]. }
      by rewrite (HD x (HcE x Hx)), (HD y (HcE y Hy)).
    + apply StronglySorted_snoc; [done|]. intros y Hy%Hc. apply (b_past _ _ _ _ _ HB); [done|set_solver].
  - intros Hr. specialize (Hnd Hr). replace ((calls ++ [m]) ++ q ++ new) with ((calls ++ m :: q) ++ new) by (by rewrite <- !app_assoc).
    apply NoDup_app. split; [done|]. split; [|apply NoDup_news].
    intros x Hx. unfold new. rewrite elem_of_news, HE. intros [_ Hn]. apply Hn.
    apply elem_of_app in Hx as [Hx|Hx]; [left; by apply Hc|by right].
Qed.

Lemma Walk_spec : exists calls, exec (WalkBreadthFirst g) [] = Done calls /\
  (forall m, m ∈ calls <-> exists l, path' l m) /\
  (NoDup (roots g) -> NoDup calls) /\
  exists D, StronglySorted (fun x y => (D x <= D y)%nat) calls /\
    forall m, m ∈ calls -> (exists l, path' l m /\ length l = S (D m)) /\ forall l, path' l m -> (S (D m) <= length l)%nat.
Proof.
  unfold WalkBreadthFirst. rewrite walk_start, (right_id_L ∅ (∪)).
  match goal with |- context [exec ?m []] => assert (wp m (fun _ calls => exists E, WalkInv [] E calls) []) as HW end.
  { apply (wp_loop (fun '(q, E) calls => WalkInv q E calls) (fun '(q, E) => (length q + unseen (entries g) E)%nat)).
    - split. exists ∅, (fun _ => 0%nat). split; [by apply BInv_start|]. split; [set_solver|]. split; [set_solver|]. split; [constructor|].
      intros Hr. by apply NoDup_ListNoDup, List.NoDup_filter, NoDup_ListNoDup.
    - unfold rounds, unseen. fold (entries g). cbn [app].
      pose proof (length_filter (fun x => x ∉ (list_to_set (some_versions (roots g)) : gset Version)) (entries g)).
      assert (length (some_versions (roots g)) <= length (roots g))%nat by (apply List.filter_length_le). lia.
    - intros [[|m q] E] calls HI; [wp_step; by exists E|]. wp_step. wp_step.
      pose proof (walk_inner (next_of m) q E) as Hin. unfold next_of in Hin. destruct (RequiredBy m g) as [reqs ok] eqn:Er. cbn [fst] in Hin.
      wp_step. rewrite Hin. replace reqs with (next_of m) by (unfold next_of; by rewrite Er). fold (next_some m). split; [by apply WalkInv_step|].
      rewrite length_app. cbn [length]. assert (next_some m ⊆ entries g) as Hsub.
      { intros x Hx. apply (entries_RequiredBy g m). by apply list_elem_of_In, filter_In, proj1, list_elem_of_In in Hx. }
      pose proof (unseen_news (entries g) E (next_some m) Hsub). lia. }
  apply wp_exec in HW as (calls & Ec & E & [(P & D & HB & HE & Hc & Hs & Hnd)]). exists calls. split; [done|]. split; [|split].
  - intros m. rewrite Hc. split.
    + intros Hm. destruct (b_back _ _ _ _ _ HB m (or_introl Hm)) as (l & Hl & _). by exists l.
    + intros [l Hl]. destruct (distance_minimal _ _ _ _ _ _ _ HB Hl) as [[? _]|(x & Hx & _)]; [done|set_solver].
  - intros Hr. rewrite <- (app_nil_r calls). by apply Hnd.
  - exists D. split; [done|]. intros m Hm%Hc. split; [by apply (b_back _ _ _ _ _ HB); left|].
    intros l Hl. destruct (distance_minimal _ _ _ _ _ _ _ HB Hl) as [[_ ?]|(x & Hx & _)]; [done|set_solver].
Qed.
End Traversals.

Lemma next_of_edge g a b : b ∈ next_of g a <-> edge g a b.
Proof.
  unfold next_of, RequiredBy, edge. destruct (required g !! a) as [l|]; cbn; [|set_solver]. split; [by exists l|]. by intros (? & [= <-] & ?).
Qed.
Lemma reachable_path g m : reachable g m <-> exists l, rpath (next_of g) (roots g) l m.
Proof.
  split.
  - intros (r & Hr & Hp). apply (rtc_ind_r (R := edge g) (fun m => exists l, rpath (next_of g) (roots g) l m) r); [by exists [r]; constructor| |done].
    intros a b _ Hab [l Hl]. exists (l ++ [b]). eapply rpath_step; [done|]. by apply next_of_edge.
  - intros [l Hl]. induction Hl as [r Hr|l a b Hl (r & Hr & Hp) Hb]; [by exists r|]. exists r. split; [done|].
    eapply rtc_r; [done|]. by apply next_of_edge.
Qed.

Lemma selected_iff (c : list Z -> list Z -> list Z -> Z) `{!forall p, Comparison (c p)} K g p v : Sel c K g ->
  selected g !! p = Some v <-> v = Selected p g /\ c p none v < 0.
Proof.
  intros [Hi _]. unfold Selected. split.
  - intros E. rewrite E. split; [done|]. by apply Hi in E as [_ ?].
  - intros [-> Hlt]. destruct (selected g !! p); [done|]. cbn in Hlt. rewrite cmp_refl in Hlt by apply _. lia.
Qed.

(** ** The theorems *)

Definition sample_main : Version := MkVersion (bytes "m") [].
Definition sample_built : Graph :=
  required_graph (mv "b" "v2") [mv "a" "v1"; mv "c" "v1"]
    (required_graph sample_main [mv "b" "v2"; mv "a" "v0"] (NewGraph (fun _ => Gover.str_Compare) [sample_main; mv "b" "v1"])).
Lemma built_step c rs g m reqs : built c rs g ->
  match isRoot g !! m, required g !! m with Some _, None => true | _, _ => false end = true -> built c rs (required_graph m reqs g).
Proof.
  intros Hb H. apply (built_require c rs g m reqs); [done|]. rewrite Require_cases. revert H. by destruct (isRoot g !! m), (required g !! m).
Qed.
Lemma sample_built_ok : built (fun _ => Gover.str_Compare) [sample_main; mv "b" "v1"] sample_built.
Proof.
  apply built_step; [apply built_step; [apply built_new|]|]; by vm_compute.
Qed.

(** [FindPath] and [WalkBreadthFirst]. *)
Lemma traversals_spec (g : Graph) (f : Version -> bool) :
  (forall m, reachable g m -> Path m <> []) ->
  exists p, FindPath f g = Done p /\
     (p = [] -> forall m, reachable g m -> f m = false) /\
     (p <> [] -> exists m, rpath (next_of g) (roots g) p m /\ f m = true /\
        forall p' m', rpath (next_of g) (roots g) p' m' -> f m' = true -> (length p <= length p')%nat).
Proof.
  intros Hne. destruct (FindPath_spec g f) as (p & E & Hp).
  { intros l m Hl. apply Hne, reachable_path. by exists l. }
  exists p. split; [done|]. destruct p as [|x p]; split; try done. intros _ m [l Hl]%reachable_path. by eapply Hp.
Qed.

(** C39: the graph that [NewGraph] and any sequence of [Require] calls builds, for a
    comparison that orders the versions of every path.  [Require] panics exactly when
    the module is not reachable from the roots by the requirements given so far, or has
    got its own already.  [Selected] returns the highest version of the path that is
    reachable, or "none" when none above "none" is.  [BuildList] returns, in whatever order
    the map is iterated, the selected version of each path of the roots, followed by
    the other selected modules sorted by path.  The traversals always end.  When no module
    reachable has an empty path, [FindPath] returns a path of requirements from a
    root to a module for which [f] holds that is as short as any, or [nil] when [f] holds of no
    reachable module.  [WalkBreadthFirst] calls [f] for exactly the modules that are
    reachable through versions other than "none", in the order of their distances from
    the roots, once each when the roots are different. *)
Theorem graph_selects_and_searches (c : list Z -> list Z -> list Z -> Z) (rs : list Version) (g : Graph) :
  (forall p, Comparison (c p)) -> built c rs g ->
  (forall m reqs,
     (~ reachable g m -> Require m reqs g = Panic (Explicit 1)) /\
     (reachable g m -> (RequiredBy m g).2 = true -> Require m reqs g = Panic (Explicit 2)) /\
     (reachable g m -> (RequiredBy m g).2 = false -> exists g', Require m reqs g = Done (tt, g') /\
        RequiredBy m g' = (reqs, true) /\ forall m', m' <> m -> RequiredBy m' g' = RequiredBy m' g)) /\
  (forall p, (Selected p g = none \/ reachable g (MkVersion p (Selected p g))) /\ c p none (Selected p g) <= 0 /\
     forall m, reachable g m -> Path m = p -> c p (Vers m) (Selected p g) <= 0) /\
  (forall order, order ≡ₚ map_to_list (selected g) -> zlen order < 2 ^ 62 ->
     exists rest, BuildList order g = Done (omap (chosen g) (first_paths ∅ rs) ++ rest) /\ StronglySorted path_lt rest /\
       forall m, m ∈ rest <-> Vers m = Selected (Path m) g /\ c (Path m) none (Vers m) < 0 /\ forall r, r ∈ rs -> Path r <> Path m) /\
  (forall f, (forall m, reachable g m -> Path m <> []) -> exists p, FindPath f g = Done p /\
     (p = [] -> forall m, reachable g m -> f m = false) /\
     (p <> [] -> exists m, rpath (next_of g) rs p m /\ f m = true /\
        forall p' m', rpath (next_of g) rs p' m' -> f m' = true -> (length p <= length p')%nat)) /\
  (exists calls, exec (WalkBreadthFirst g) [] = Done calls /\
     (forall m, m ∈ calls <-> exists l, rpath (next_some g) (some_versions rs) l m) /\
     (NoDup rs -> NoDup calls) /\
     exists D, StronglySorted (fun x y => (D x <= D y)%nat) calls /\
       forall m, m ∈ calls -> (exists l, rpath (next_some g) (some_versions rs) l m /\ length l = S (D m)) /\
         forall l, rpath (next_some g) (some_versions rs) l m -> (S (D m) <= length l)%nat).
Proof.
  intros Hc Hb. pose proof (built_GInv c rs g Hb) as HG. pose proof HG as [G1 G2 G3 G4 G5 G6 G7 G8].
  split_and!.
  4:{ intros f Hne. rewrite <- G2. by apply traversals_spec. }
  4:{ rewrite <- G2. apply Walk_spec. }
  - intros m reqs. rewrite Require_cases. rewrite <- (known_reachable c rs g m HG). unfold known, RequiredBy. split; [|split].
    + intros Hk. destruct (isRoot g !! m); [by destruct Hk|done].
    + intros [b ->]. by destruct (required g !! m).
    + intros [b E]. rewrite E. destruct (required g !! m) eqn:Er; [done|]. intros _. eexists. split; [done|].
      destruct (Require_GInv c rs g m reqs HG ltac:(by exists b) Er) as (_ & E' & _). rewrite E'. split.
      * by rewrite lookup_insert_eq.
      * intros m' Hm'. by rewrite lookup_insert_ne.
  - intros p. split; [|split; [by eapply none_selected|]].
    + unfold Selected. destruct (selected g !! p) as [v|] eqn:E; [right|by left]. apply (known_reachable c rs g _ HG).
      by apply (sel_in _ _ _ G8) in E as [? _].
    + intros m Hm <-. apply (known_reachable c rs g _ HG), (sel_max _ _ _ G8) in Hm.
      rewrite (cmp_sym (c := c (Path m)) (Selected (Path m) g)). lia.
  - intros order Ho Hl. destruct (BuildList_spec g order Ho Hl) as (rest & E & Hs & Hin). exists rest.
    rewrite E. unfold root_list. rewrite G2. split; [done|]. split; [done|]. intros m. rewrite Hin, G2, (selected_iff c (known g)) by done. tauto.
Qed.

(** Roots that are listed twice are visited twice. *)
Example walk_twice : exec (WalkBreadthFirst (NewGraph (fun _ => Gover.str_Compare) [mv "a" "v1"; mv "a" "v1"])) [] = Done [mv "a" "v1"; mv "a" "v1"].
Proof. by vm_compute. Qed.
Lemma sample_paths m : reachable sample_built m -> Path m <> [].
Proof.
  intros Hm. apply (known_reachable (fun _ => Gover.str_Compare) _ _ _ (built_GInv _ _ _ sample_built_ok)) in Hm as [b E].
  assert (Hall : forallb (fun kv => negb (str_eqb (Path kv.1) [])) (map_to_list (isRoot sample_built)) = true) by (by vm_compute).
  rewrite forallb_forall in Hall. apply elem_of_map_to_list, list_elem_of_In, Hall in E. cbn in E. intros Hp. by rewrite Hp in E.
Qed.

Lemma graph_selects_and_searches_witness :
  Selected (bytes "a") sample_built = bytes "v1" /\
  (exists rest, BuildList (map_to_list (selected sample_built)) sample_built = Done ([mv "b" "v2"] ++ rest) /\ StronglySorted path_lt rest) /\
  (forall m, reachable sample_built m -> Path m = bytes "a" -> Gover.str_Compare (Vers m) (bytes "v1") <= 0) /\
  FindPath (fun m => str_eqb (Vers m) (bytes "v1") && negb (str_eqb (Path m) (bytes "b"))) sample_built = Done [sample_main; mv "b" "v2"; mv "a" "v1"] /\
  exists m, rpath (next_of sample_built) [sample_main; mv "b" "v1"] [sample_main; mv "b" "v2"; mv "a" "v1"] m /\ Path m = bytes "a".
Proof.
  destruct (graph_selects_and_searches (fun _ => Gover.str_Compare) [sample_main; mv "b" "v1"] sample_built ltac:(intros; apply _) sample_built_ok) as (_ & H2 & H3 & H4 & _).
  split; [by vm_compute|]. split; [|split; [|]].
  - destruct (H3 (map_to_list (selected sample_built)) ltac:(done) ltac:(by vm_compute)) as (rest & E & Hs & _). exists rest.
    split; [|exact Hs]. rewrite E. f_equal.
  - intros m Hm Hp. by apply (H2 (bytes "a")).
  - set (f := fun m => str_eqb (Vers m) (bytes "v1") && negb (str_eqb (Path m) (bytes "b"))).
    destruct (H4 f sample_paths) as (p & E & _ & Hp).
    assert (E' : FindPath f sample_built = Done [sample_main; mv "b" "v2"; mv "a" "v1"]) by (by vm_compute).
    split; [exact E'|]. rewrite E' in E. injection E as <-. destruct (Hp ltac:(done)) as (m & Hm & _). exists m. split; [exact Hm|].
    by apply rpath_last in Hm as [= <-].
Defined.
