(* ===== verification/ParWork.v ===== *)
(** * cmd/internal/par: parallel work

    [src/src/cmd/internal/par/work.go], the type [Work].  A [Work] is a set of items
    and the list of those not yet taken; [Do] starts runners that take items and
    call a function on them, which may add items.  The sections of [Add] and
    [runner] under the mutex [mu] are atomic steps; [wait] is the set of the
    runners that are blocked in [Wait], of which [Signal] releases any one and
    [Broadcast] all.  A released runner takes the lock again before it goes on. *)

From stdpp Require Import gmap relations.
From S2P Require Import Prelude.
From S2P Require Import Slice.

(** What the function [f] does for an item: accesses to state it shares with
    other calls, each of them atomic and perhaps panicking, and calls of [Add]. *)
Inductive prog (T ST : Type) : Type :=
| PRet
| PAct (upd : ST -> option ST) (k : ST -> prog T ST)
| PAdd (item : T) (k : prog T ST).
Arguments PRet {T ST}.
Arguments PAct {T ST} upd k.
Arguments PAdd {T ST} item k.

(** Where a runner is: about to lock [mu], blocked in [Wait], released and
    about to lock [mu] again, in [f], back from [runner], or panicked in [f]. *)
Inductive rpc (T ST : Type) : Type :=
| AtLock
| InWait
| Notified
| InF (item : T) (p : prog T ST)
| Returned
| Panicked (item : T).
Arguments AtLock {T ST}.
Arguments InWait {T ST}.
Arguments Notified {T ST}.
Arguments InF {T ST} item p.
Arguments Returned {T ST}.
Arguments Panicked {T ST} item.

(** What an observer sees of a step. *)
Inductive event (T : Type) : Type :=
| Started (item : T)
| Added (item : T)
| Finished (item : T).
Arguments Started {T} item.
Arguments Added {T} item.
Arguments Finished {T} item.

Section Work.
Context {T ST : Type} `{Countable T}.

Record Work : Type := MkWork { running : Z; added : gset T; todo : list T; waiting : Z }.
Definition zero_Work : Work := MkWork 0 ∅ [] 0.
Definition set_waiting (n : Z) (w : Work) : Work := MkWork (running w) (added w) (todo w) n.

(** [Add], and whether it signals. *)
Definition Add (item : T) (w : Work) : Work * bool :=
  if decide (item ∈ added w) then (w, false)
  else (MkWork (running w) ({[item]} ∪ added w) (todo w ++ [item]) (waiting w), waiting w >? 0).

(** [item := w.todo[i]; w.todo[i] = w.todo[len-1]; w.todo = w.todo[:len-1]] *)
Definition pick (i : nat) (w : Work) : option (T * Work) :=
  item ← todo w !! i;
  final ← last (todo w);
  Some (item, MkWork (running w) (added w) (take (length (todo w) - 1) (<[i := final]> (todo w))) (waiting w)).

Definition signal (j : nat) (rs : list (rpc T ST)) : option (list (rpc T ST)) :=
  if forallb (fun r => match r with InWait => false | _ => true end) rs then Some rs
  else match rs !! j with Some InWait => Some (<[j := Notified]> rs) | _ => None end.
Definition broadcast (rs : list (rpc T ST)) : list (rpc T ST) :=
  map (fun r => match r with InWait => Notified | r => r end) rs.

Definition config : Type := Work * ST * list (rpc T ST).

Variable f : T -> prog T ST.

(** The runner [i] from the test of the inner loop on until it unlocks [mu] or
    waits; [k] is what [rand.Intn] answers. *)
Definition locked_section (i k : nat) (w : Work) (s : ST) (rs : list (rpc T ST)) : option (list (event T) * config) :=
  match todo w with
  | [] =>
      let w := set_waiting (waiting w + 1) w in
      if waiting w =? running w then Some ([], (w, s, broadcast (<[i := Returned]> rs)))
      else Some ([], (w, s, <[i := InWait]> rs))
  | _ =>
      '(item, w) ← pick k w;
      Some ([Started item], (w, s, <[i := InF item (f item)]> rs))
  end.

(** One step of the runner [i]; [k] is the choice of an item and [j] that of a
    runner to signal. *)
Definition runner_step (i k j : nat) (c : config) : option (list (event T) * config) :=
  let '(w, s, rs) := c in
  match rs !! i with
  | Some AtLock => locked_section i k w s rs
  | Some Notified => locked_section i k (set_waiting (waiting w - 1) w) s rs
  | Some (InF x PRet) => Some ([Finished x], (w, s, <[i := AtLock]> rs))
  | Some (InF x (PAct upd p)) =>
      match upd s with
      | Some s' => Some ([], (w, s', <[i := InF x (p s)]> rs))
      | None => Some ([], (w, s, <[i := Panicked x]> rs))
      end
  | Some (InF x (PAdd y p)) =>
      let '(w, sig) := Add y w in
      let rs := <[i := InF x p]> rs in
      rs ← (if (sig : bool) then signal j rs else Some rs);
      Some ([Added y], (w, s, rs))
  | _ => None
  end.

Definition step (c : config) (e : list (event T)) (c' : config) : Prop :=
  exists i k j, runner_step i k j c = Some (e, c').

Inductive steps : config -> list (event T) -> config -> Prop :=
| steps_refl c : steps c [] c
| steps_snoc c tr c' e c'' : steps c tr c' -> step c' e c'' -> steps c (tr ++ e) c''.

(** [Do]: runner 0 is the caller's goroutine. *)
Definition Do (n : Z) (w : Work) (s : ST) : outcome config :=
  if n <? 1 then Panic (Explicit 1)
  else if running w >=? 1 then Panic (Explicit 2)
  else Done (MkWork n (added w) (todo w) (waiting w), s, replicate (Z.to_nat n) AtLock).
Definition Do_returned (c : config) : Prop := c.2 !! 0%nat = Some Returned.

(** The items added before [Do]. *)
Definition Add_all (items : list T) (w : Work) : Work := foldl (fun w item => (Add item w).1) w items.

(** A schedule, for the examples. *)
Fixpoint run_schedule (sched : list (nat * nat * nat)) (c : config) : option (list (event T) * config) :=
  match sched with
  | [] => Some ([], c)
  | (i, k, j) :: sched =>
      '(e, c) ← runner_step i k j c;
      '(tr, c) ← run_schedule sched c;
      Some (e ++ tr, c)
  end.

End Work.
Arguments Work T {_ _}.
Arguments config T ST {_ _}.

(** Two runners count the items 0..2, of which 0 adds 1 and 2, into a sum. *)
Definition count_f (x : Z) : prog Z Z :=
  PAct (fun s => Some (s + x)) (fun _ => if x =? 0 then PAdd 1 (PAdd 2 PRet) else PRet).
Example two_runners :
  match Do 2 (Add_all [0] zero_Work) 0 with
  | Done c =>
      exists w, run_schedule count_f
        [(0, 0, 0); (1, 0, 0); (0, 0, 0); (0, 0, 1); (1, 0, 0); (0, 0, 1); (1, 0, 0); (0, 0, 0); (0, 0, 0);
         (0, 0, 0); (0, 0, 0); (0, 0, 0); (1, 0, 0); (1, 0, 0); (0, 0, 0)]%nat c
      = Some ([Started 0; Added 1; Started 1; Added 2; Finished 0; Started 2; Finished 2; Finished 1],
              (w, 3, [Returned; Returned])) /\ todo w = []
  | _ => False
  end.
Proof. vm_compute. eauto. Qed.
