(* ===== verification/ParWorkTheorems.v ===== *)
(** * cmd/internal/par: what [Do] guarantees

    [WInv] is the invariant of every schedule: how the counter [waiting] counts the
    runners, and how the events account for the items.  [sn_step] is termination. *)

From stdpp Require Import gmap relations.
From S2P Require Import Prelude.
From S2P Require Import Slice.
From S2P Require Import ParWork.

(** ** Counting in a list that is updated *)

Definition countb {A} (p : A -> bool) (l : list A) : Z := foldr (fun x n => Z.b2z (p x) + n) 0 l.

Lemma countb_cons {A} (p : A -> bool) x l : countb p (x :: l) = Z.b2z (p x) + countb p l.
Proof. done. Qed.
Arguments countb {A} p l : simpl never.
Lemma countb_insert {A} (p : A -> bool) l i x y :
  l !! i = Some x -> countb p (<[i := y]> l) = countb p l - Z.b2z (p x) + Z.b2z (p y).
Proof.
  revert i. induction l as [|z l IH]; intros [|i] E; try done.
  - injection E as ->. change (<[0%nat := y]> (x :: l)) with (y :: l). rewrite !countb_cons. lia.
  - change (<[S i := y]> (z :: l)) with (z :: <[i := y]> l). rewrite !countb_cons, (IH i E). lia.
Qed.
Lemma countb_range {A} (p : A -> bool) l : 0 <= countb p l <= zlen l.
Proof.
  induction l as [|x l IH]; [done|]. unfold zlen in *. rewrite countb_cons. cbn [length].
  destruct (p x); cbn [Z.b2z]; lia.
Qed.
Lemma countb_all {A} (p : A -> bool) l : countb p l = zlen l -> Forall (fun x => p x = true) l.
Proof.
  induction l as [|x l IH]; [done|]. pose proof (countb_range p l). unfold zlen in *. rewrite countb_cons. cbn [length].
  destruct (p x) eqn:E; cbn [Z.b2z]; [|lia]. intros ?. apply Forall_cons. split; [done|]. apply IH. lia.
Qed.
Lemma omap_insert {A B} (g : A -> option B) l i x y : l !! i = Some x ->
  omap g (<[i := y]> l) ++ option_list (g x) ≡ₚ omap g l ++ option_list (g y).
Proof.
  revert i. induction l as [|z l IH]; intros [|i] E; try done; cbn.
  - injection E as ->. change (omap g (y :: l) ++ option_list (g x) ≡ₚ omap g (x :: l) ++ option_list (g y)). cbn.
    destruct (g x), (g y); cbn; rewrite ?app_nil_r, <- ?Permutation_cons_append; try done. apply Permutation_swap.
  - change (omap g (z :: <[i := y]> l) ++ option_list (g x) ≡ₚ omap g (z :: l) ++ option_list (g y)). cbn.
    destruct (g z); cbn; [by rewrite IH|by apply IH].
Qed.

(** A relation that changes one element of a list terminates when it does on
    each element. *)
Definition one_changes {A} (R : A -> A -> Prop) (l l' : list A) : Prop :=
  exists i x y, l !! i = Some x /\ R x y /\ l' = <[i := y]> l.
Lemma sn_one_changes {A} (R : A -> A -> Prop) l : Forall (sn R) l -> sn (one_changes R) l.
Proof.
  induction 1 as [|x l Hx _ IH].
  - constructor. intros l' (i & x & y & Hi & _). done.
  - revert l IH. induction Hx as [x _ IHx]. intros l Hl. induction Hl as [l Hl' IHl]. constructor.
    intros l' ([|i] & y & z & Hi & HR & ->); cbn in Hi.
    + injection Hi as ->. apply IHx; [done|]. by constructor.
    + apply IHl. by exists i, y, z.
Qed.

Section WorkTheorems.
Context {T ST : Type} `{Countable T}.
Implicit Types (rs : list (rpc T ST)) (p : prog T ST) (w : Work T).
Variable f : T -> prog T ST.

(** ** The events *)

Definition started (tr : list (event T)) : list T := omap (fun e => match e with Started x => Some x | _ => None end) tr.
Definition finished (tr : list (event T)) : list T := omap (fun e => match e with Finished x => Some x | _ => None end) tr.
Definition added_in (tr : list (event T)) : list T := omap (fun e => match e with Added x => Some x | _ => None end) tr.

(** The item a runner is working on. *)
Definition in_f (r : rpc T ST) : option T := match r with InF x _ | Panicked x => Some x | _ => None end.
Definition working rs : list T := omap in_f rs.

Arguments working rs : simpl never.

(** Runners counted by [waiting], and runners that will only return. *)
Definition counted (r : rpc T ST) : bool := match r with InWait | Notified | Returned => true | _ => false end.
Definition ending (r : rpc T ST) : Prop := r = Notified \/ r = Returned.

Lemma events_app tr tr' : started (tr ++ tr') = started tr ++ started tr' /\ finished (tr ++ tr') = finished tr ++ finished tr' /\
  added_in (tr ++ tr') = added_in tr ++ added_in tr'.
Proof. split_and!; apply omap_app. Qed.

(** ** The invariant *)

Record WInv (items : list T) (n : Z) (tr : list (event T)) (c : config T ST) : Prop := {
  inv_running : running c.1.1 = n;
  inv_n : 1 <= n;
  inv_len : zlen c.2 = n;
  inv_waiting : waiting c.1.1 = countb counted c.2;
  inv_ended : Returned ∈ c.2 -> todo c.1.1 = [] /\ Forall ending c.2;
  inv_unended : Returned ∉ c.2 -> waiting c.1.1 < n;
  inv_nodup : NoDup (todo c.1.1 ++ started tr);
  inv_added : added c.1.1 = list_to_set (todo c.1.1 ++ started tr);
  inv_items : forall x, x ∈ added c.1.1 <-> x ∈ items \/ x ∈ added_in tr;
  inv_work : started tr ≡ₚ finished tr ++ working c.2;
}.

Lemma counted_broadcast rs : countb counted (broadcast rs) = countb counted rs.
Proof. induction rs as [|r rs IH]; [done|]. unfold broadcast in *. cbn [map]. rewrite !countb_cons, IH. by destruct r. Qed.
Lemma working_broadcast rs : working (broadcast rs) = working rs.
Proof. induction rs as [|r rs IH]; [done|]. unfold working, broadcast in *. cbn. rewrite IH. by destruct r. Qed.
Lemma zlen_broadcast rs : zlen (broadcast rs) = zlen rs.
Proof. unfold zlen, broadcast. by rewrite length_map. Qed.
Lemma returned_broadcast rs : Returned ∈ broadcast rs <-> Returned ∈ rs.
Proof.
  unfold broadcast. rewrite list_elem_of_fmap. split; [|by exists Returned]. by intros ([] & ? & ?).
Qed.
Lemma ending_broadcast rs : Forall (fun r => counted r = true) rs -> Forall ending (broadcast rs).
Proof. induction 1 as [|[] rs]; cbn; try done; apply Forall_cons; (split; [by (left + right)|done]). Qed.

Lemma pick_spec k w x w' : pick k w = Some (x, w') ->
  exists l, w' = MkWork (running w) (added w) l (waiting w) /\ todo w ≡ₚ x :: l.
Proof.
  unfold pick. destruct (todo w !! k) as [y|] eqn:E; [|done]. cbn. destruct (last (todo w)) as [z|] eqn:Ez; [|done]. cbn.
  intros [= <- <-]. eexists. split; [done|]. apply last_Some in Ez as [l El]. rewrite El in *.
  rewrite length_app. cbn. replace (length l + 1 - 1)%nat with (length l) by lia.
  destruct (decide (k < length l)%nat) as [Hk|Hk].
  - rewrite lookup_app_l in E by done. rewrite insert_app_l, take_app_length' by (rewrite ?length_insert; done).
    rewrite <- Permutation_cons_append. rewrite <- (take_drop_middle l k y E) at 1.
    rewrite insert_take_drop by done. rewrite <- !Permutation_middle. apply Permutation_swap.
  - rewrite lookup_app_r in E by lia. apply list_lookup_singleton_Some in E as [Hk' ->].
    rewrite insert_app_r_alt by lia. rewrite Hk'. cbn. rewrite take_app_length. by rewrite <- Permutation_cons_append.
Qed.
Lemma pick_total w : todo w <> [] -> exists r, pick 0 w = Some r.
Proof.
  unfold pick. destruct (todo w) as [|x l]; [done|]. intros _. destruct (last (x :: l)) eqn:E; [by eexists|]. by apply last_None in E.
Qed.

Lemma returned_insert rs i r0 r : rs !! i = Some r0 -> r0 <> Returned -> r <> Returned ->
  Returned ∈ <[i := r]> rs <-> Returned ∈ rs.
Proof.
  intros Hi H0 Hr. rewrite !list_elem_of_lookup. split; intros [j Hj]; exists j.
  - destruct (decide (i = j)) as [->|]; [|by rewrite list_lookup_insert_ne in Hj].
    rewrite list_lookup_insert_eq in Hj by (by eapply lookup_lt_Some). congruence.
  - rewrite list_lookup_insert_ne; [done|]. congruence.
Qed.
Lemma not_ended items n tr w s rs i r : WInv items n tr (w, s, rs) -> rs !! i = Some r -> ~ ending r -> Returned ∉ rs.
Proof.
  intros [] Hi Hr HR. apply inv_ended0 in HR as [_ HR]. by eapply Forall_lookup_1 in HR.
Qed.
Lemma zlen_insert rs i r : zlen (<[i := r]> rs) = zlen rs.
Proof. unfold zlen. by rewrite length_insert. Qed.
Lemma working_insert rs i r0 r : rs !! i = Some r0 ->
  working (<[i := r]> rs) ++ option_list (in_f r0) ≡ₚ working rs ++ option_list (in_f r).
Proof. apply omap_insert. Qed.
Lemma ending_counted rs : Forall ending rs -> Forall (fun r => counted r = true) rs.
Proof. intros He. eapply Forall_impl; [exact He|]. by intros r [-> | ->]. Qed.
Lemma all_counted rs : Forall (fun r => counted r = true) rs -> countb counted rs = zlen rs.
Proof. induction 1 as [|r rs Hr _ IH]; [done|]. unfold zlen in *. rewrite countb_cons, Hr, IH. cbn [length Z.b2z]. lia. Qed.

(** A runner that finds no item waits, or returns and releases the others. *)
Lemma inv_wait items n tr w s rs i r0 : WInv items n tr (w, s, rs) -> rs !! i = Some r0 -> r0 = AtLock \/ r0 = Notified ->
  todo w = [] -> let m := waiting w - Z.b2z (counted r0) + 1 in
  if m =? running w then WInv items n tr (set_waiting m w, s, broadcast (<[i := Returned]> rs))
  else WInv items n tr (set_waiting m w, s, <[i := InWait]> rs).
Proof.
  intros HI Hi Hr0 Ht m. pose proof HI as [Hrun Hn Hl Hw He Hu Hnd Ha Hit Hwk]. cbn in *.
  assert (Hc : forall r, counted r = true -> countb counted (<[i := r]> rs) = m)
    by (intros r Hr; rewrite (countb_insert _ _ _ _ _ Hi), Hr; unfold m; cbn; lia).
  assert (Hk : forall r, in_f r = None -> working (<[i := r]> rs) ≡ₚ working rs).
  { intros r Hr. pose proof (working_insert rs i r0 r Hi) as Hp. rewrite Hr in Hp.
    by destruct Hr0 as [-> | ->]; cbn in Hp; rewrite !app_nil_r in Hp. }
  destruct (Z.eqb_spec m (running w)) as [E|E]; split; cbn; rewrite ?counted_broadcast, ?working_broadcast, ?zlen_broadcast, ?zlen_insert, ?Hc, ?Hk; try done.
  - intros _. split; [done|]. apply ending_broadcast, countb_all. rewrite Hc, zlen_insert by done. lia.
  - intros []. apply returned_broadcast, list_elem_of_lookup. exists i. apply list_lookup_insert_eq. by eapply lookup_lt_Some.
  - intros HR. exfalso. apply (returned_insert rs i r0 InWait Hi) in HR; [|by destruct Hr0 as [-> | ->]|done].
    apply He in HR as [_ HR]. apply E. unfold m.
    pose proof (Forall_lookup_1 _ _ _ _ HR Hi) as Hr. apply ending_counted, all_counted in HR.
    destruct Hr0 as [-> | ->]; [by destruct Hr|]. cbn. lia.
  - intros _. pose proof (countb_range counted (<[i := InWait]> rs)) as Hrange. rewrite Hc, zlen_insert in Hrange by done. lia.
Qed.

(** A runner that finds an item starts with it. *)
Lemma inv_start items n tr w s rs i r0 x l p : WInv items n tr (w, s, rs) -> rs !! i = Some r0 -> r0 = AtLock \/ r0 = Notified ->
  todo w ≡ₚ x :: l ->
  WInv items n (tr ++ [Started x]) (MkWork (running w) (added w) l (waiting w - Z.b2z (counted r0)), s, <[i := InF x p]> rs).
Proof.
  intros [Hrun Hn Hl Hw He Hu Hnd Ha Hit Hwk] Hi Hr0 Ht. cbn in *.
  destruct (events_app tr [Started x]) as (Es & Ef & Ea). cbn in Es, Ef, Ea. rewrite app_nil_r in Ef, Ea.
  assert (Hp : todo w ++ started tr ≡ₚ l ++ started tr ++ [x]).
  { rewrite Ht, app_assoc. cbn. by rewrite <- Permutation_cons_append. }
  assert (HR : Returned ∉ rs) by (intros HR; apply He in HR as [HR _]; rewrite HR in Ht; by apply Permutation_nil_cons in Ht).
  split; cbn; rewrite ?Es, ?Ef, ?Ea, ?zlen_insert, <- ?Hp; try done.
  - rewrite (countb_insert _ _ _ _ _ Hi), Hw. cbn. lia.
  - intros HR'. apply (returned_insert rs i r0) in HR'; [done|done|by destruct Hr0 as [-> | ->]|done].
  - intros _. specialize (Hu HR). destruct (counted r0); cbn; lia.
  - pose proof (working_insert rs i r0 (InF x p) Hi) as Hp'. destruct Hr0 as [-> | ->]; cbn in Hp'; rewrite app_nil_r in Hp'; rewrite Hp'.
    all: by rewrite Hwk, app_assoc.
Qed.

(** A step of [f] that leaves the set alone. *)
Lemma inv_progress items n tr w s s' rs i x p r e : WInv items n tr (w, s, rs) -> rs !! i = Some (InF x p) ->
  counted r = false -> option_list (in_f r) ++ finished e ≡ₚ [x] -> started e = [] -> added_in e = [] ->
  WInv items n (tr ++ e) (w, s', <[i := r]> rs).
Proof.
  intros HI Hi Hr Hx Hs Ha'. pose proof (not_ended _ _ _ _ _ _ _ _ HI Hi ltac:(by intros [])) as HR.
  destruct HI as [Hrun Hn Hl Hw He Hu Hnd Ha Hit Hwk]. cbn in *.
  destruct (events_app tr e) as (Es & Ef & Ea). rewrite Hs, app_nil_r in Es. rewrite Ha', app_nil_r in Ea.
  split; cbn; rewrite ?Es, ?Ef, ?Ea, ?zlen_insert; try done.
  - rewrite (countb_insert _ _ _ _ _ Hi), Hw, Hr. cbn. lia.
  - intros HR'. apply (returned_insert rs i (InF x p)) in HR'; [done..|by intros ->].
  - intros _. by apply Hu.
  - pose proof (working_insert rs i _ r Hi) as Hp. cbn [in_f option_list] in Hp. rewrite Hwk.
    apply (Permutation_app_inv_r [x]). rewrite <- !app_assoc, Hp. rewrite <- Hx at 1.
    rewrite (Permutation_app_comm (working rs) (option_list _)). rewrite (Permutation_app_comm (finished e)).
    rewrite <- !app_assoc. f_equiv. rewrite (Permutation_app_comm (working rs)), <- !app_assoc. f_equiv. apply Permutation_app_comm.
Qed.

(** [Add] signals at most. *)
Lemma signal_same j rs rs' : signal j rs = Some rs' ->
  countb counted rs' = countb counted rs /\ working rs' = working rs /\ zlen rs' = zlen rs /\ (Returned ∈ rs' -> Returned ∈ rs).
Proof.
  unfold signal. case_match; [by intros [= ->]|]. destruct (rs !! j) as [[]|] eqn:Ej; try done. intros [= <-].
  split_and!; [|  |apply zlen_insert|by apply (returned_insert _ _ InWait)].
  - rewrite (countb_insert _ _ _ _ _ Ej). cbn. lia.
  - clear H0. revert j Ej. induction rs as [|r rs IH]; intros [|j] Ej; try done.
    + by injection Ej as ->.
    + unfold working in *. change (<[S j := Notified]> (r :: rs)) with (r :: <[j := Notified]> rs). cbn. by rewrite (IH j Ej).
Qed.
Lemma inv_add items n tr w s rs i x p y j rs' : WInv items n tr (w, s, rs) -> rs !! i = Some (InF x (PAdd y p)) ->
  (if (Add y w).2 then signal j (<[i := InF x p]> rs) else Some (<[i := InF x p]> rs)) = Some rs' ->
  WInv items n (tr ++ [Added y]) ((Add y w).1, s, rs').
Proof.
  intros HI Hi Hsig.
  pose proof (inv_progress items n tr w s s rs i x _ (InF x p) [] HI Hi eq_refl ltac:(done) eq_refl eq_refl) as HI'.
  rewrite app_nil_r in HI'. clear HI.
  set (rs1 := <[i := InF x p]> rs) in *. assert (Hi1 : rs1 !! i = Some (InF x p)) by (apply list_lookup_insert_eq; by eapply lookup_lt_Some).
  pose proof (not_ended _ _ _ _ _ _ _ _ HI' Hi1 ltac:(by intros [])) as HR.
  assert (Hs : countb counted rs' = countb counted rs1 /\ working rs' = working rs1 /\ zlen rs' = zlen rs1 /\ (Returned ∈ rs' -> Returned ∈ rs1)).
  { destruct (Add y w).2; [by eapply signal_same|]. by injection Hsig as <-. }
  destruct HI' as [Hrun Hn Hl Hw He Hu Hnd Ha Hit Hwk], Hs as (Hs1 & Hs2 & Hs3 & Hs4). cbn in *.
  destruct (events_app tr [Added y]) as (Es & Ef & Ea). cbn in Es, Ef, Ea. rewrite app_nil_r in Es, Ef.
  assert (Hy : forall z, z ∈ (Add y w).1.(added) <-> z ∈ added w \/ z = y) by (intros z; unfold Add; case_decide; cbn; set_solver).
  assert (Hq : running (Add y w).1 = running w /\ waiting (Add y w).1 = waiting w) by (unfold Add; by case_decide).
  destruct Hq as [Hq1 Hq2].
  split; cbn; rewrite ?Es, ?Ef, ?Ea, ?Hs1, ?Hs2, ?Hs3, ?Hq1, ?Hq2; try done.
  - intros HR'. by apply Hs4 in HR'.
  - intros _. by apply Hu.
  - unfold Add. case_decide as Hd; [done|]. cbn. rewrite Ha in Hd. apply not_elem_of_list_to_set in Hd.
    rewrite <- app_assoc. cbn. rewrite <- Permutation_middle. by constructor.
  - apply leibniz_equiv. intros z. rewrite Hy. unfold Add. case_decide as Hd; cbn; rewrite Ha; set_solver.
  - intros z. rewrite Hy, Hit, elem_of_app, list_elem_of_singleton. tauto.
Qed.

Lemma inv_locked items n tr w s rs i k r0 e c' : WInv items n tr (w, s, rs) -> rs !! i = Some r0 -> r0 = AtLock \/ r0 = Notified ->
  locked_section f i k (set_waiting (waiting w - Z.b2z (counted r0)) w) s rs = Some (e, c') -> WInv items n (tr ++ e) c'.
Proof.
  intros HI Hi Hr0. unfold locked_section. destruct (todo _) as [|x0 l0] eqn:Et; cbn in Et.
  - pose proof (inv_wait items n tr w s rs i r0 HI Hi Hr0 Et) as HW. cbn in *.
    destruct (_ =? _); intros [= <- <-]; by rewrite app_nil_r.
  - destruct (pick _ _) as [[x w1]|] eqn:Ep; [|done]. cbn. intros [= <- <-]. apply pick_spec in Ep as (l & -> & Hl).
    exact (inv_start items n tr w s rs i r0 x l _ HI Hi Hr0 Hl).
Qed.
Lemma set_waiting_id w : set_waiting (waiting w - 0) w = w.
Proof. destruct w. unfold set_waiting. cbn. by rewrite Z.sub_0_r. Qed.

Lemma inv_step items n tr c e c' : WInv items n tr c -> step f c e c' -> WInv items n (tr ++ e) c'.
Proof.
  destruct c as [[w s] rs]. intros HI (i & k & j & Hs). cbn in Hs. destruct (rs !! i) as [[| | |x []| |]|] eqn:Hi; try done.
  - rewrite <- (set_waiting_id w) in Hs. eapply inv_locked; eauto.
  - eapply inv_locked; eauto.
  - injection Hs as <- <-. by eapply inv_progress.
  - destruct (upd s); injection Hs as <- <-; by eapply inv_progress.
  - destruct (Add item w) as [w1 sig] eqn:Ea. destruct (if sig then _ else _) as [rs'|] eqn:Er; [|done]. injection Hs as <- <-.
    replace w1 with (Add item w).1 by (by rewrite Ea). eapply inv_add; [done|done|]. by rewrite Ea.
Qed.
Lemma inv_steps items n c0 tr c : WInv items n [] c0 -> steps f c0 tr c -> WInv items n tr c.
Proof. intros H0. induction 1; [done|]. eapply inv_step; eauto. Qed.

(** The set before [Do]. *)
Definition fresh w : Prop := NoDup (todo w) /\ added w = list_to_set (todo w) /\ waiting w = 0 /\ running w = 0.
Lemma Add_fresh y w : fresh w -> fresh (Add y w).1 /\ forall x, x ∈ added (Add y w).1 <-> x = y \/ x ∈ added w.
Proof.
  intros (Hnd & Ha & Hw & Hr). unfold fresh, Add. case_decide as Hd; cbn.
  - split; [done|]. set_solver.
  - split; [|set_solver]. rewrite Ha in Hd. apply not_elem_of_list_to_set in Hd. split_and!; try done.
    + apply NoDup_app. split_and!; [done|set_solver|apply NoDup_singleton].
    + apply leibniz_equiv. set_solver.
Qed.
Lemma Add_all_spec items w : fresh w -> fresh (Add_all items w) /\ forall x, x ∈ added (Add_all items w) <-> x ∈ items \/ x ∈ added w.
Proof.
  revert w. induction items as [|y items IH]; intros w Hw; [split; [done|set_solver]|].
  destruct (Add_fresh y w Hw) as [Hy Hx]. destruct (IH _ Hy) as [H1 H2]. split; [done|].
  intros x. change (Add_all (y :: items) w) with (Add_all items (Add y w).1). rewrite H2, Hx. set_solver.
Qed.
Lemma inv_initial items n s c0 : Do n (Add_all items zero_Work) s = Done c0 -> WInv items n [] c0.
Proof.
  unfold Do. destruct (Z.ltb_spec n 1); [done|]. case_match; [done|]. intros [= <-].
  destruct (Add_all_spec items zero_Work) as ((Hnd & Ha & Hw & Hr) & Hin); [by repeat split; try constructor|].
  assert (Hc : countb counted (replicate (Z.to_nat n) (@AtLock T ST)) = 0) by (induction (Z.to_nat n); done).
  assert (HR : (Returned : rpc T ST) ∉ replicate (Z.to_nat n) AtLock) by (by intros [? _]%elem_of_replicate).
  split; cbn; rewrite ?app_nil_r, ?Hc; try done; try lia.
  - unfold zlen. rewrite length_replicate. lia.
  - intros x. rewrite Hin. set_solver.
  - clear. induction (Z.to_nat n) as [|m IH]; [done|exact IH].
Qed.

(** ** No deadlock *)

Definition panicked rs : Prop := exists x, Panicked x ∈ rs.
Lemma working_length rs : zlen (working rs) <= zlen rs.
Proof. unfold zlen, working. induction rs as [|r rs IH]; [done|]. cbn. destruct (in_f r); cbn in *; lia. Qed.
Lemma ending_working rs : Forall ending rs -> working rs = [] /\ ~ panicked rs.
Proof.
  intros He. split.
  - unfold working. by induction He as [|r rs [-> | ->] _ IH].
  - intros [x Hx]. rewrite Forall_forall in He. by destruct (He _ Hx).
Qed.
Lemma locked_total i w s rs : exists e c, locked_section f i 0 w s rs = Some (e, c).
Proof.
  unfold locked_section. destruct (todo w) eqn:Et; [case_match; by do 2 eexists|].
  destruct (pick_total w) as [[x w'] E]; [by rewrite Et|]. rewrite E. cbn. by do 2 eexists.
Qed.
Lemma signal_total rs : exists j rs', signal j rs = Some rs'.
Proof.
  unfold signal. destruct (forallb _ rs) eqn:Ef; [by exists 0%nat; eexists|].
  apply not_true_iff_false in Ef.
  destruct (decide (Exists (fun r => match r with InWait => true | _ => false end = true) rs)) as [HE|HE].
  - apply Exists_exists in HE as ([] & [j Hj]%list_elem_of_lookup_1 & Hr); try done. exists j. rewrite Hj. by eexists.
  - exfalso. apply Ef, forallb_forall. intros r Hr. rewrite <- Forall_Exists_neg, Forall_forall in HE.
    apply list_elem_of_In, HE in Hr. by destruct r.
Qed.
(** Whoever is not waiting, back or panicked can go on. *)
Lemma runner_can_step c i r : c.2 !! i = Some r ->
  (exists x, r = Panicked x) \/ r = InWait \/ r = Returned \/ exists e c', step f c e c'.
Proof.
  destruct c as [[w s] rs]. cbn. intros Hi. destruct r as [| | |x p| |x]; eauto; do 3 right.
  - destruct (locked_total i w s rs) as (e & c' & E). exists e, c', i, 0%nat, 0%nat. cbn. by rewrite Hi.
  - destruct (locked_total i (set_waiting (waiting w - 1) w) s rs) as (e & c' & E). exists e, c', i, 0%nat, 0%nat. cbn. by rewrite Hi.
  - destruct p as [|upd p|y p].
    + do 2 eexists. exists i, 0%nat, 0%nat. cbn. by rewrite Hi.
    + destruct (upd s) eqn:Eu; do 2 eexists; exists i, 0%nat, 0%nat; cbn; by rewrite Hi, Eu.
    + destruct (signal_total (<[i := InF x p]> rs)) as (j & rs' & Hsig).
      destruct (Add y w) as [w1 [|]] eqn:Ea; do 2 eexists; exists i, 0%nat, j; cbn; rewrite Hi, Ea; cbn; [by rewrite Hsig|done].
Qed.

(** Either a call of [f] has panicked, or every runner is back, or some runner can
    go on. *)
Lemma progress items n tr c : WInv items n tr c ->
  panicked c.2 \/ Forall (fun r => r = Returned) c.2 \/ exists e c', step f c e c'.
Proof.
  intros HI.
  destruct (decide (Exists (fun r => match r with AtLock | Notified | InF _ _ => true | _ => false end = true) c.2)) as [HA|HA].
  { apply Exists_exists in HA as (r & [i Hi]%list_elem_of_lookup_1 & Hr). right. right.
    apply runner_can_step in Hi as [[x ->]|[->|[->|Hs]]]; done. }
  rewrite <- Forall_Exists_neg, Forall_forall in HA.
  destruct (decide (Exists (fun r => match r with Panicked _ => true | _ => false end = true) c.2)) as [HP|HP].
  { left. apply Exists_exists in HP as ([] & Hin & Hx); try done. by eexists. }
  right. left. rewrite <- Forall_Exists_neg, Forall_forall in HP.
  assert (HW : forall r, r ∈ c.2 -> r = InWait \/ r = Returned).
  { intros r Hin. pose proof (HA r Hin). specialize (HP r Hin). destruct r; try done; by (left + right). }
  assert (Hret : Returned ∈ c.2).
  { destruct (decide (Exists (fun r => match r with Returned => true | _ => false end = true) c.2)) as [HE|HE].
    { apply Exists_exists in HE as ([] & Hin & Hx); done. }
    rewrite <- Forall_Exists_neg, Forall_forall in HE. exfalso.
    pose proof (inv_unended _ _ _ _ HI (fun Hin => HE _ Hin eq_refl)) as Hu.
    rewrite (inv_waiting _ _ _ _ HI), all_counted, (inv_len _ _ _ _ HI) in Hu; [lia|].
    apply Forall_forall. by intros r [-> | ->]%HW. }
  apply (inv_ended _ _ _ _ HI) in Hret as [_ HE]. rewrite Forall_forall in HE |- *.
  intros r Hin. pose proof (HE r Hin) as [Hn|Hn]; [|done]. by apply HW in Hin as [Hw | ->]; [congruence|].
Qed.
Lemma stuck_returned items n tr c : WInv items n tr c -> (forall e c', ~ step f c e c') ->
  panicked c.2 \/ Forall (fun r => r = Returned) c.2.
Proof. intros HI Hst. destruct (progress items n tr c HI) as [|[|(e & c' & Hs)]]; [by left|by right|by apply Hst in Hs]. Qed.

(** ** Termination

    The items that can be added, those that are left, the runners that are not
    back, and how far each runner is. *)

(** [p] adds items of [U] only. *)
Fixpoint adds_in (U : gset T) p : Prop :=
  match p with
  | PRet => True
  | PAct _ k => forall s, adds_in U (k s)
  | PAdd x k => x ∈ U /\ adds_in U k
  end.

Inductive rlt : rpc T ST -> rpc T ST -> Prop :=
| rlt_wait r : r = AtLock \/ r = Notified -> rlt r InWait
| rlt_ret x : rlt (InF x PRet) AtLock
| rlt_act x u k s : rlt (InF x (PAct u k)) (InF x (k s))
| rlt_add x y k : rlt (InF x (PAdd y k)) (InF x k)
| rlt_panic x p : rlt (InF x p) (Panicked x).
Lemma sn_rlt r : sn rlt r.
Proof.
  assert (HW : sn rlt InWait) by (constructor; inversion 1; naive_solver).
  assert (HP : forall x, sn rlt (Panicked x)) by (intros; constructor; inversion 1; naive_solver).
  assert (HL : sn rlt AtLock) by (constructor; inversion 1; naive_solver).
  destruct r as [| | |x p| |x]; [done|done|constructor; inversion 1; naive_solver| |constructor; inversion 1; naive_solver|done].
  induction p as [|u k IH|y k IH]; constructor; inversion 1; subst; naive_solver.
Qed.

Record TInv (U : gset T) (c : config T ST) : Prop := {
  t_added : added c.1.1 ⊆ U;
  t_todo x : x ∈ todo c.1.1 -> x ∈ U;
  t_runners : Forall (fun r => match r with InF _ p => adds_in U p | _ => True end) c.2;
}.
Definition back (r : rpc T ST) : bool := match r with Returned => false | _ => true end.
Definition left_to_add (U : gset T) (c : config T ST) : nat := size (U ∖ added c.1.1).
Definition left_todo (c : config T ST) : nat := length (todo c.1.1).
Definition not_back (c : config T ST) : nat := Z.to_nat (countb back c.2).

(** One of the four decreases, and those before it stay. *)
Definition decreases (U : gset T) (c c' : config T ST) : Prop :=
  (left_to_add U c' < left_to_add U c)%nat \/ left_to_add U c' = left_to_add U c /\
  ((left_todo c' < left_todo c)%nat \/ left_todo c' = left_todo c /\
   ((not_back c' < not_back c)%nat \/ not_back c' = not_back c /\ one_changes rlt c.2 c'.2)).

Lemma sn_decreases U c : sn (decreases U) c.
Proof.
  remember (left_to_add U c) as a eqn:Ea. revert c Ea. induction (lt_wf a) as [a _ IHa]. intros c Ea.
  remember (left_todo c) as b eqn:Eb. revert c Ea Eb. induction (lt_wf b) as [b _ IHb]. intros c Ea Eb.
  remember (not_back c) as d eqn:Ed. revert c Ea Eb Ed. induction (lt_wf d) as [d _ IHd]. intros c Ea Eb Ed.
  assert (Hs : sn (one_changes rlt) c.2) by (apply sn_one_changes, Forall_forall; intros; apply sn_rlt).
  remember c.2 as rs eqn:Er. revert c Ea Eb Ed Er. induction Hs as [rs _ IH]. intros c -> -> -> ->. constructor.
  intros c' [H1|[H1 [H2|[H2 [H3|[H3 H4]]]]]]; [by eapply IHa|by eapply IHb|by eapply IHd|by eapply IH].
Qed.

Lemma back_insert rs i r0 r : rs !! i = Some r0 -> back r0 = back r -> countb back (<[i := r]> rs) = countb back rs.
Proof. intros Hi Hr. rewrite (countb_insert _ _ _ _ _ Hi), Hr. lia. Qed.
Lemma back_returns rs i r0 : rs !! i = Some r0 -> back r0 = true ->
  (Z.to_nat (countb back (broadcast (<[i := Returned]> rs))) < Z.to_nat (countb back rs))%nat.
Proof.
  intros Hi Hr. replace (countb back (broadcast (<[i := Returned]> rs))) with (countb back (<[i := Returned]> rs)).
  - pose proof (countb_range back (<[i := Returned]> rs)). rewrite (countb_insert _ _ _ _ _ Hi), Hr in *. cbn in *. lia.
  - generalize (<[i := Returned]> rs). intros rs'. induction rs' as [|r rs' IH]; [done|]. unfold broadcast in *. cbn [map].
    rewrite !countb_cons, IH. by destruct r.
Qed.
Lemma runners_insert (P : rpc T ST -> Prop) rs i r : Forall P rs -> P r -> Forall P (<[i := r]> rs).
Proof. apply Forall_insert. Qed.
Lemma runners_broadcast U rs : Forall (fun r => match r with InF _ p => adds_in U p | _ => True end) rs ->
  Forall (fun r => match r with InF _ p => adds_in U p | _ => True end) (broadcast rs).
Proof. induction 1 as [|r rs Hr _ IH]; [constructor|]. unfold broadcast in *. cbn. apply Forall_cons. split; [by destruct r|done]. Qed.

(** A step of one runner that leaves the set alone. *)
Lemma term_progress U w s s' rs i r0 r : TInv U (w, s, rs) -> rs !! i = Some r0 -> rlt r0 r -> back r = true ->
  (match r with InF _ p => adds_in U p | _ => True end) -> forall m,
  let c' := (set_waiting m w, s', <[i := r]> rs) in TInv U c' /\ decreases U (w, s, rs) c'.
Proof.
  intros [Ha Ht Hr] Hi Hlt Hb Hp m. split; [split; try done; by apply runners_insert|].
  right. split; [done|]. right. split; [done|]. right. unfold not_back. cbn.
  rewrite (back_insert _ _ _ _ Hi); [|by inversion Hlt; subst; naive_solver]. split; [done|]. by exists i, r0, r.
Qed.

Lemma term_progress_id U w s s' rs i r0 r : TInv U (w, s, rs) -> rs !! i = Some r0 -> rlt r0 r -> back r = true ->
  (match r with InF _ p => adds_in U p | _ => True end) ->
  TInv U (w, s', <[i := r]> rs) /\ decreases U (w, s, rs) (w, s', <[i := r]> rs).
Proof.
  intros HT Hi Hlt Hb Hp. pose proof (term_progress U w s s' rs i r0 r HT Hi Hlt Hb Hp (waiting w)) as Hc.
  by destruct w.
Qed.

Lemma term_locked U w s rs i k r0 m e c' : (forall x, x ∈ U -> adds_in U (f x)) ->
  TInv U (w, s, rs) -> rs !! i = Some r0 -> r0 = AtLock \/ r0 = Notified ->
  locked_section f i k (set_waiting m w) s rs = Some (e, c') -> TInv U c' /\ decreases U (w, s, rs) c'.
Proof.
  intros Hf HT Hi Hr0. unfold locked_section. destruct (todo _) as [|x0 l0] eqn:Et; cbn in Et.
  - cbn. destruct (_ =? _); intros [= <- <-].
    + destruct HT as [Ha Ht Hr]. split; [split; try done; cbn; by apply runners_broadcast, runners_insert|].
      right. split; [done|]. right. split; [done|]. left. eapply back_returns; [done|]. by destruct Hr0 as [-> | ->].
    + exact (term_progress U w s s rs i r0 InWait HT Hi (rlt_wait _ Hr0) eq_refl I (m + 1)).
  - destruct (pick _ _) as [[x w1]|] eqn:Ep; [|done]. cbn. intros [= <- <-]. apply pick_spec in Ep as (l & -> & Hl). cbn in Hl.
    destruct HT as [Ha Ht Hr]. split.
    + split; cbn; [done| |].
      * intros y Hy. apply Ht. cbn. rewrite Hl. set_solver.
      * apply runners_insert; [done|]. apply Hf, Ht. cbn. rewrite Hl. set_solver.
    + right. split; [done|]. left. unfold left_todo. cbn. rewrite Hl. cbn. lia.
Qed.

Lemma signal_runners U j rs rs' : signal j rs = Some rs' ->
  Forall (fun r => match r with InF _ p => adds_in U p | _ => True end) rs ->
  Forall (fun r => match r with InF _ p => adds_in U p | _ => True end) rs'.
Proof. unfold signal. case_match; [by intros [= ->]|]. destruct (rs !! j) as [[]|]; intros [= <-] Hr. by apply runners_insert. Qed.

Lemma term_step U c e c' : (forall x, x ∈ U -> adds_in U (f x)) -> TInv U c -> step f c e c' -> TInv U c' /\ decreases U c c'.
Proof.
  destruct c as [[w s] rs]. intros Hf HT (i & k & j & Hs). cbn in Hs.
  assert (Hw : set_waiting (waiting w) w = w) by (by destruct w).
  assert (HP : forall x p, rs !! i = Some (InF x p) -> adds_in U p) by (intros x p Hi; destruct HT as [_ _ Hr]; by eapply Forall_lookup_1 in Hr; [|done]).
  destruct (rs !! i) as [[| | |x []| |]|] eqn:Hi; try done.
  - rewrite <- Hw in Hs. eapply term_locked; eauto.
  - eapply term_locked; eauto.
  - injection Hs as <- <-. eapply term_progress_id; eauto; constructor.
  - specialize (HP _ _ eq_refl). destruct (upd s); injection Hs as <- <-; eapply term_progress_id; eauto; constructor.
  - destruct (HP _ _ eq_refl) as [Hy Hk]. unfold Add in Hs. case_decide as Hd; cbn in Hs.
    + injection Hs as <- <-. eapply term_progress_id; eauto; constructor.
    + apply bind_Some in Hs as (rs' & Er & [= <- <-]). destruct HT as [Ha Ht Hr]. cbn in *. split.
      * split; cbn; [set_solver|intros y; rewrite elem_of_app, list_elem_of_singleton; intros [?| ->]; auto|].
        destruct (_ >? _); [eapply signal_runners; [done|]|injection Er as <-]; by apply runners_insert.
      * left. unfold left_to_add. cbn. apply subset_size. set_solver.
Qed.

Lemma sn_step U c : (forall x, x ∈ U -> adds_in U (f x)) -> TInv U c -> sn (fun c c' => exists e, step f c e c') c.
Proof.
  intros Hf. induction (sn_decreases U c) as [c _ IH]. intros HT. constructor. intros c' [e Hs].
  destruct (term_step U c e c' Hf HT Hs) as [HT' Hd]. by apply IH.
Qed.
(** So some schedule comes to an end. *)
Lemma some_run_ends items n c0 tr c : sn (fun c c' => exists e, step f c e c') c -> WInv items n tr c -> steps f c0 tr c ->
  exists tr' c', steps f c0 tr' c' /\ (panicked c'.2 \/ Do_returned c').
Proof.
  intros Hsn. revert tr. induction Hsn as [c _ IH]. intros tr HI Hs.
  destruct (progress items n tr c HI) as [Hp|[Hr|(e & c' & Hst)]].
  - exists tr, c. split; [done|]. by left.
  - exists tr, c. split; [done|]. right. unfold Do_returned. pose proof (inv_len _ _ _ _ HI) as Hl. pose proof (inv_n _ _ _ _ HI).
    destruct c.2 as [|r rs]; [unfold zlen in Hl; cbn in Hl; lia|]. apply Forall_cons in Hr as [-> _]. done.
  - apply (IH c' ltac:(by exists e) (tr ++ e)); [by eapply inv_step|by eapply steps_snoc].
Qed.
Lemma term_initial U items n s c0 : (forall x, x ∈ items -> x ∈ U) -> Do n (Add_all items zero_Work) s = Done c0 -> TInv U c0.
Proof.
  intros HU Hc. pose proof (inv_initial items n s c0 Hc) as HI.
  assert (Ha : forall x, x ∈ added c0.1.1 -> x ∈ U) by (intros x [Hx|Hx]%(inv_items _ _ _ _ HI); [by apply HU|set_solver]).
  split; [done| |].
  - intros x Hx. apply Ha. rewrite (inv_added _ _ _ _ HI). set_solver.
  - unfold Do in Hc. case_match; [done|]. case_match; [done|]. injection Hc as <-. cbn.
    apply Forall_forall. by intros r [-> _]%elem_of_replicate.
Qed.
End WorkTheorems.

(** ** The theorem *)

(** C3: [Do] runs [f] exactly once on every item added, with at most [n] calls
    at a time, in every interleaving of the runners and whatever [rand.Intn],
    [Signal] and [f] do: it panics exactly for [n < 1] or a second call;
    otherwise no schedule goes on for ever when [f] adds only items of a finite
    set, no schedule gets stuck before every runner has returned (or a call of
    [f] has panicked), and when the caller's runner has returned nothing is left
    to do, nobody is in [f], and the calls that were finished are one for each
    item added before [Do] or by [f]. *)
Theorem Do_runs_each_item_once {T ST} `{Countable T} (f : T -> prog T ST) (items : list T) (n : Z) (s : ST) (U : gset T) :
  (forall x, x ∈ items -> x ∈ U) -> (forall x, x ∈ U -> adds_in U (f x)) ->
  (forall w : Work T, (exists p, (Do n w s : outcome (config T ST)) = Panic p) <-> n < 1 \/ 1 <= running w) /\
  forall c0 : config T ST, Do n (Add_all items zero_Work) s = Done c0 ->
    sn (fun c c' => exists e, step f c e c') c0 /\
    forall tr c, steps f c0 tr c ->
      NoDup (started tr) /\ started tr ≡ₚ finished tr ++ working c.2 /\ zlen (working c.2) <= n /\
      ((forall e c', ~ step f c e c') -> panicked c.2 \/ Forall (fun r => r = Returned) c.2) /\
      (Do_returned c -> todo c.1.1 = [] /\ working c.2 = [] /\ ~ panicked c.2 /\ NoDup (finished tr) /\
        forall x, x ∈ finished tr <-> x ∈ items \/ x ∈ added_in tr).
Proof.
  intros HU Hf. split.
  { intros w. unfold Do. destruct (Z.ltb_spec n 1); [naive_solver|]. rewrite Z.geb_leb. destruct (Z.leb_spec 1 (running w)); naive_solver lia. }
  intros c0 Hc. split; [by eapply sn_step; [|eapply term_initial]|].
  intros tr c Hs. pose proof (inv_steps f _ _ _ _ _ (inv_initial f items n s c0 Hc) Hs) as HI.
  pose proof (inv_nodup _ _ _ _ HI) as Hnd. pose proof (inv_work _ _ _ _ HI) as Hwk. split_and!.
  - by apply NoDup_app in Hnd as (_ & _ & Hnd).
  - done.
  - rewrite <- (inv_len _ _ _ _ HI). apply working_length.
  - by eapply stuck_returned.
  - intros HR. assert (HR' : Returned ∈ c.2) by (by eapply list_elem_of_lookup_2).
    apply (inv_ended _ _ _ _ HI) in HR' as [Ht He]. rewrite Ht in Hnd. cbn in Hnd.
    apply ending_working in He as [Hw Hp]. rewrite Hw, app_nil_r in Hwk. split_and!; try done.
    + by rewrite <- Hwk.
    + intros x. rewrite <- (inv_items _ _ _ _ HI), (inv_added _ _ _ _ HI), Ht. cbn. by rewrite elem_of_list_to_set, Hwk.
Qed.

(** ** Witness *)

Lemma run_schedule_steps {T ST} `{Countable T} (f : T -> prog T ST) sched c0 tr0 c tr c' :
  steps f c0 tr0 c -> run_schedule f sched c = Some (tr, c') -> steps f c0 (tr0 ++ tr) c'.
Proof.
  revert tr0 c tr. induction sched as [|[[i k] j] sched IH]; intros tr0 c tr H0; cbn.
  - intros [= <- <-]. by rewrite app_nil_r.
  - intros ([e c1] & Hs & ([tr1 c2] & Hr & [= <- <-])%bind_Some)%bind_Some. rewrite app_assoc.
    eapply IH; [|done]. eapply steps_snoc; [done|]. by exists i, k, j.
Qed.

Lemma Do_runs_each_item_once_witness :
  exists c0 tr c, Do 2 (Add_all [0] zero_Work) 0 = Done c0 /\ sn (fun c c' => exists e, step count_f c e c') c0 /\
    steps count_f c0 tr c /\ Do_returned c /\ finished tr ≡ₚ [0; 1; 2] /\ NoDup (finished tr).
Proof.
  destruct (Do_runs_each_item_once count_f [0] 2 0 {[0; 1; 2]}) as [_ HD].
  - intros x. set_solver.
  - intros x Hx. unfold count_f. destruct (x =? 0); cbn; set_solver.
  - destruct (HD _ eq_refl) as [Hsn Hrun]. clear HD.
    pose (sched := [(0, 0, 0); (1, 0, 0); (0, 0, 0); (0, 0, 1); (1, 0, 0); (0, 0, 1); (1, 0, 0); (0, 0, 0); (0, 0, 0);
         (0, 0, 0); (0, 0, 0); (0, 0, 0); (1, 0, 0); (1, 0, 0); (0, 0, 0)]%nat).
    destruct (run_schedule count_f sched (MkWork 2 {[0]} [0] 0, 0, [AtLock; AtLock])) as [[tr c]|] eqn:E; [|by vm_compute in E].
    pose proof (run_schedule_steps _ _ _ _ _ _ _ (steps_refl _ _) E) as Hs. cbn [app] in Hs.
    vm_compute in E. injection E as <- <-.
    do 3 eexists. split; [reflexivity|]. split; [exact Hsn|]. split; [exact Hs|]. split; [reflexivity|]. split.
    + cbn. apply perm_skip, perm_swap.
    + by destruct (Hrun _ _ Hs) as (_ & _ & _ & _ & HR); apply HR.
Defined.
