(* ===== verification/Mvs.v ===== *)
(** * cmd/go/internal/mvs: minimal version selection

    [src/src/cmd/go/internal/mvs/mvs.go] and [errors.go].  The caller's [Reqs] is a
    record of functions; an [error] is an opaque value, and a Go result [(x, err)] the
    pair of [x] and [option error].  [buildList] explores the requirements with ten
    runners of a [par.Work] ([ParWork]): [visit] is the function they run, whose
    section under [mu] is one atomic access.  What [buildList] returns is a relation,
    since it depends on the schedule and on the order of a map. *)

From stdpp Require Import gmap.
From S2P Require Import Prelude.
From S2P Require Import Slice.
From S2P Require Import Text.
From S2P Require Import Sort.
From S2P Require Import ModGover.
From S2P Require Import MvsGraph.
From S2P Require Import ParWork.

Section Mvs.
Context {error : Type}.

Record Reqs : Type := MkReqs {
  Required : Version -> list Version * option error;
  Max : list Z -> list Z -> list Z -> list Z }.
Definition Upgrader : Type := Version -> Version * option error.

(** ** errors.go *)

Record BuildListError : Type := MkBuildListError { Err : error; stack : list (Version * list Z) }.
(** The path must not be empty. *)
Fixpoint error_stack (path : list Version) (isVersionChange : Version -> Version -> bool) : outcome (list (Version * list Z)) :=
  match path with
  | [] => Panic IndexOutOfRange
  | [m] => Done [(m, [])]
  | m :: (m' :: _) as path =>
      let reason := if isVersionChange m m' then bytes "updating to" else bytes "requires" in
      obind (error_stack path isVersionChange) (fun stack => Done ((m, reason) :: stack))
  end.
Definition NewBuildListError (err : error) (path : list Version) (isVersionChange : Version -> Version -> bool) : outcome BuildListError :=
  obind (error_stack path isVersionChange) (fun stack => Done (MkBuildListError err stack)).
(** [BuildListError.Module] *)
Definition Module_ (e : BuildListError) : Version := match last (stack e) with Some (m, _) => m | None => zero_Version end.

(** ** The work of buildList *)

Record shared : Type := MkShared { graph : Graph; upgrades : gmap Version Version; errs : gmap Version error }.

Section BuildList.
Variables (reqs : Reqs) (upgrade : option Upgrader).

Definition max_cmp (p v1 v2 : list Z) : Z :=
  if negb (str_eqb (Max reqs p v1 v2) v1) then -1
  else if negb (str_eqb (Max reqs p v2 v1) v2) then 1
  else 0.

(** What is known of [m] before [mu.Lock()]: the module it is upgraded to, its
    requirements with that module first, and the error. *)
Definition examine (m : Version) : Version * list Version * option error :=
  let '(required, err) := if negb (str_eqb (Vers m) none) then Required reqs m else ([], None) in
  let '(u, err) :=
    match upgrade with
    | None => (m, err)
    | Some upgrade =>
        let '(upgradeTo, upErr) := upgrade m in
        match upErr with
        | None => (upgradeTo, err)
        | Some e => (m, match err with None => Some e | Some _ => err end)
        end
    end in
  (u, if decide (u = m) then required else u :: required, err).

(** The section under [mu]; [None] is a panic of [Require]. *)
Definition record (m : Version) (s : shared) : option shared :=
  let '(u, required, err) := examine m in
  match exec (Require m required) (graph s) with
  | Done g =>
      Some (MkShared g (if decide (u = m) then upgrades s else <[m := u]> (upgrades s))
              (match err with None => errs s | Some e => <[m := e]> (errs s) end))
  | _ => None
  end.
Definition Add_each (l : list Version) : prog Version shared := foldr PAdd PRet l.
Definition visit (m : Version) : prog Version shared :=
  PAct (record m) (fun _ => Add_each (let '(_, required, _) := examine m in required)).

Definition start (targets : list Version) : shared := MkShared (NewGraph max_cmp targets) ∅ ∅.

(** After the work is done; [order] is that of the map in [BuildList]. *)
Definition finish (targets : list Version) (order : list (list Z * list Z)) (s : shared) : outcome (list Version + BuildListError) :=
  if decide (errs s = ∅) then
    obind (MvsGraph.BuildList order (graph s))
      (fun l => if decide (take (length targets) l = targets) then Done (inl l) else Panic (Explicit 3))
  else
    obind (FindPath (fun m => match errs s !! m with Some _ => true | None => false end) (graph s))
      (fun errPath =>
         match last errPath with
         | None => Panic (Explicit 4)
         | Some m =>
             match errs s !! m with
             | None => Panic NilDereference
             | Some err =>
                 obind (NewBuildListError err errPath
                          (fun from to => match upgrades s !! from with Some u => bool_decide (u = to) | None => false end))
                   (fun e => Done (inr e))
             end
         end).

Inductive buildList (targets : list Version) : outcome (list Version + BuildListError) -> Prop :=
| buildList_returns c0 tr c order :
    Do 10 (Add_all targets zero_Work) (start targets) = Done c0 -> steps visit c0 tr c -> Do_returned c ->
    order ≡ₚ map_to_list (selected (graph c.1.2)) ->
    buildList targets (finish targets order c.1.2)
| buildList_panics c0 tr c m :
    Do 10 (Add_all targets zero_Work) (start targets) = Done c0 -> steps visit c0 tr c -> Panicked m ∈ c.2 ->
    buildList targets (Panic (Explicit 5)).
End BuildList.

Definition BuildList (targets : list Version) (reqs : Reqs) : outcome (list Version + BuildListError) -> Prop :=
  buildList reqs None targets.

(** [override]: its embedded [Reqs] gives the other methods. *)
Definition override (target : Version) (l : list Version) (reqs : Reqs) : Reqs :=
  MkReqs (fun m => if decide (m = target) then (l, None) else Required reqs m) (Max reqs).

Definition UpgradeAll (target : Version) (reqs : Reqs) (up : Upgrader) : outcome (list Version + BuildListError) -> Prop :=
  buildList reqs (Some (fun m => if str_eqb (Path m) (Path target) then (target, None) else up m)) [target].

(** The loop over the upgrades of [Upgrade]: the list and [upgradeTo]. *)
Definition upgrade_targets (reqs : Reqs) (l : list Version) (upgrade : list Version) : list Version * gmap (list Z) (list Z) :=
  let pathInList := list_to_set (map Path l) : gset (list Z) in
  foldl (fun '(l, upgradeTo) u =>
           (if decide (Path u ∈ pathInList) then l else l ++ [MkVersion (Path u) none],
            match upgradeTo !! Path u with
            | Some prev => <[Path u := Max reqs (Path u) prev (Vers u)]> upgradeTo
            | None => <[Path u := Vers u]> upgradeTo
            end)) (l, ∅) upgrade.
Definition Upgrade (target : Version) (reqs : Reqs) (upgrade : list Version) (r : outcome (list Version + (error + BuildListError))) : Prop :=
  match Required reqs target with
  | (_, Some err) => r = Done (inr (inl err))
  | (l, None) =>
      let '(l, upgradeTo) := upgrade_targets reqs l upgrade in
      exists r', buildList (override target l reqs)
        (Some (fun m => match upgradeTo !! Path m with Some v => (MkVersion (Path m) v, None) | None => (m, None) end)) [target] r' /\
        r = obind r' (fun x => Done (match x with inl l => inl l | inr e => inr (inr e) end))
  end.

(** ** Req *)

(** The loop [for ... { if err := walk(m1); err != nil { return err } }]. *)
Fixpoint walk_each {S} (walk : Version -> M S (option error)) (l : list Version) : M S (option error) :=
  match l with
  | [] => mret None
  | m :: l =>
      err <- walk m ;;
      match err with Some e => mret (Some e) | None => walk_each walk l end
  end.

(** The first [walk]; the store is [reqCache] and [postorder]. *)
Fixpoint walk (fuel : nat) (reqs : Reqs) (m : Version) : M (gmap Version (list Version) * list Version) (option error) :=
  match fuel with
  | O => mnofuel
  | S fuel =>
      '(reqCache, postorder) <- mget ;;
      match reqCache !! m with
      | Some _ => mret None
      | None =>
          match Required reqs m with
          | (_, Some err) => mret (Some err)
          | (required, None) =>
              mput (<[m := required]> reqCache, postorder) ;;
              err <- walk_each (walk fuel reqs) required ;;
              match err with
              | Some e => mret (Some e)
              | None =>
                  mmodify (fun '(reqCache, postorder) => (reqCache, postorder ++ [m])) ;;
                  mret None
              end
          end
      end
  end.

(** The second [walk]; the store is [have]. *)
Fixpoint walk_have (fuel : nat) (reqCache : gmap Version (list Version)) (m : Version) : M (gset Version) unit :=
  match fuel with
  | O => mnofuel
  | S fuel =>
      have <- mget ;;
      if decide (m ∈ have) then mret tt
      else
        mput ({[m]} ∪ have) ;;
        foldr (fun m1 k => walk_have fuel reqCache m1 ;; k) (mret tt) (default [] (reqCache !! m))
  end.

Definition max_of (l : list Version) : gmap (list Z) (list Z) :=
  foldl (fun max m => <[Path m := Vers m]> max) ∅ l.

(** The two loops that fill [min]; the store is [have]. *)
Definition add_base (fuel : nat) (reqCache : gmap Version (list Version)) (max : gmap (list Z) (list Z)) (base : list (list Z))
    : M (gset Version) (list Version) :=
  '(min, _) <-
    foldl (fun acc path =>
             '(min, haveBase) <- acc ;;
             if decide (path ∈ haveBase) then mret (min, haveBase)
             else
               let m := MkVersion path (default [] (max !! path)) in
               walk_have fuel reqCache m ;;
               mret (min ++ [m], {[path]} ∪ haveBase)) (mret ([], (∅ : gset (list Z)))) base ;;
  mret min.
Definition add_rest (fuel : nat) (reqCache : gmap Version (list Version)) (max : gmap (list Z) (list Z)) (postorder min : list Version)
    : M (gset Version) (list Version) :=
  foldl (fun acc m =>
           min <- acc ;;
           if negb (str_eqb (default [] (max !! Path m)) (Vers m)) then mret min
           else
             have <- mget ;;
             if decide (m ∈ have) then mret min
             else (walk_have fuel reqCache m ;; mret (min ++ [m]))) (mret min) (rev postorder).

(** [Req] once [BuildList] has returned the list [l]. *)
Definition Req_from (fuel : nat) (mainModule : Version) (base : list (list Z)) (reqs : Reqs) (l : list Version)
    : outcome (list Version + error) :=
  let max := max_of l in
  match walk_each (walk fuel reqs) l ({[mainModule := []]}, []) with
  | Done (Some err, _) => Done (inr err)
  | Done (None, (reqCache, postorder)) =>
      obind (result (min <- add_base fuel reqCache max base ;; add_rest fuel reqCache max postorder min) ∅)
        (fun min =>
           obind (exec (Slice_ (fun i j => x <- load i ;; y <- load j ;; mret (str_ltb (Path x) (Path y)))) min)
             (fun min => Done (inl min)))
  | Panic p => Panic p
  | NoFuel => NoFuel
  end.
Definition Req (fuel : nat) (mainModule : Version) (base : list (list Z)) (reqs : Reqs)
    (r : outcome (list Version + (BuildListError + error))) : Prop :=
  exists b, BuildList [mainModule] reqs b /\
    r = obind b (fun x =>
          match x with
          | inr e => Done (inr (inl e))
          | inl l => obind (Req_from fuel mainModule base reqs l)
                          (fun x => Done (match x with inl min => inl min | inr e => inr (inr e) end))
          end).

End Mvs.
Arguments Reqs error : clear implicits.
Arguments Upgrader error : clear implicits.
Arguments BuildListError error : clear implicits.
Arguments shared error : clear implicits.

(** ** An example: the one of the paper on minimal version selection *)

Definition paper_main : Version := MkVersion (bytes "A") [].
Definition paper_required (m : Version) : list Version * option unit :=
  (if decide (m = paper_main) then [mv "B" "v2"; mv "C" "v2"]
   else if decide (m = mv "B" "v2") then [mv "D" "v3"]
   else if decide (m = mv "C" "v2") then [mv "D" "v4"]
   else if decide (m = mv "D" "v3") then [mv "E" "v1"]
   else if decide (m = mv "D" "v4") then [mv "E" "v2"]
   else [], None).
(** Versions in the order of strings, "none" below all and the empty one above. *)
Definition str_max (p v1 v2 : list Z) : list Z :=
  if str_eqb v1 none || str_eqb v2 [] then v2
  else if str_eqb v2 none || str_eqb v1 [] then v1
  else if str_ltb v1 v2 then v2 else v1.
Definition paper : Reqs unit := MkReqs paper_required str_max.

(** A schedule that lets the first runner do everything. *)
Fixpoint run_first {T ST} `{Countable T} (f : T -> prog T ST) (fuel : nat) (c : config T ST) : config T ST :=
  match fuel with
  | O => c
  | S fuel => match runner_step f 0 0 0 c with Some (_, c) => run_first f fuel c | None => c end
  end.
Example paper_list :
  match Do 1 (Add_all [paper_main] zero_Work) (start paper [paper_main]) with
  | Done c =>
      let s := (run_first (visit paper None) 60 c).1.2 in
      finish [paper_main] (map_to_list (selected (graph s))) s = Done (inl [paper_main; mv "B" "v2"; mv "C" "v2"; mv "D" "v4"; mv "E" "v2"])
  | _ => False
  end.
Proof. by vm_compute. Qed.
Example paper_req :
  Req_from 9 (paper_main) [bytes "C"] paper [paper_main; mv "B" "v2"; mv "C" "v2"; mv "D" "v4"; mv "E" "v2"]
  = Done (inl [mv "B" "v2"; mv "C" "v2"]).
Proof. by vm_compute. Qed.
