(* ===== verification/MvsTheorems.v ===== *)
(** * cmd/go/internal/mvs: the build list

    The invariant [CInv] of the runners of [buildList] ties the shared graph to the
    modules that have been examined; with the invariant of [par.Work] it shows that
    every schedule ends with the same graph, so that [buildList] is a function of the
    requirements. *)

From stdpp Require Import gmap relations.
From S2P Require Import Prelude.
From S2P Require Import Slice.
From S2P Require Import Text.
From S2P Require Import GoverTheorems.
From S2P Require Import SortOrder.
From S2P Require Import Quicksort.
From S2P Require Import SortInterface.
From S2P Require Import ModGover.
From S2P Require Import MvsGraph.
From S2P Require Import MvsGraphInv.
From S2P Require Import MvsSearch.
From S2P Require Import MvsGraphTheorems.
From S2P Require Import ParWork.
From S2P Require Import ParWorkTheorems.
From S2P Require Import Mvs.

(** What the comment of [Reqs] asks of [Max]: a maximum of a total order on the
    versions of each path, in which "none" is least. *)
Class MaxLaws (mx : list Z -> list Z -> list Z -> list Z) : Prop := {
  max_pick p a b : mx p a b = a \/ mx p a b = b;
  max_comm p a b : mx p a b = mx p b a;
  max_assoc p a b c : mx p a (mx p b c) = mx p (mx p a b) c;
  max_none p a : mx p a none = a }.

Section BuildList.
Context {error : Type} (reqs : Reqs error) `{HL : !MaxLaws (Max reqs)}.
Implicit Types (m r x y : Version) (g : Graph) (s : shared error).
#[local] Notation cmp_ := (max_cmp reqs).

Lemma max_idem p a : Max reqs p a a = a.
Proof. by destruct (max_pick p a a). Qed.
Lemma max_cmp_cases p a b :
  (cmp_ p a b = -1 /\ a <> b /\ Max reqs p a b = b) \/ (cmp_ p a b = 0 /\ a = b) \/ (cmp_ p a b = 1 /\ a <> b /\ Max reqs p a b = a).
Proof.
  unfold max_cmp, str_eqb. rewrite (max_comm p b a). destruct (decide (a = b)) as [<-|Hne].
  - rewrite max_idem, bool_decide_true by done. cbn. auto.
  - destruct (max_pick p a b) as [-> | ->].
    + rewrite bool_decide_true, bool_decide_false by done. cbn. auto.
    + rewrite bool_decide_false by congruence. cbn. auto.
Qed.
Lemma max_cmp_le p a b : cmp_ p a b <= 0 <-> Max reqs p a b = b.
Proof.
  destruct (max_cmp_cases p a b) as [(-> & H1 & H2)|[(-> & ->)|(-> & H1 & H2)]].
  - split; [done|lia].
  - rewrite max_idem. split; [done|lia].
  - split; [lia|congruence].
Qed.
#[export] Instance max_cmp_comparison p : Comparison (cmp_ p).
Proof.
  split.
  - intros a b. destruct (max_cmp_cases p a b) as [(-> & _)|[(-> & _)|(-> & _)]]; lia.
  - intros a b. destruct (max_cmp_cases p a b) as [(-> & H1 & H2)|[(-> & H2)|(-> & H1 & H2)]],
      (max_cmp_cases p b a) as [(-> & H3 & H4)|[(-> & H4)|(-> & H3 & H4)]]; try lia; try rewrite max_comm in H4; congruence.
  - intros a b c. rewrite !max_cmp_le. intros H1 H2. by rewrite <- H2, max_assoc, H1.
Qed.
Lemma max_cmp_none p v : cmp_ p none v < 0 <-> v <> none.
Proof.
  destruct (max_cmp_cases p none v) as [(-> & H1 & H2)|[(-> & <-)|(-> & H1 & H2)]].
  - split; [congruence|lia].
  - split; [lia|done].
  - rewrite max_comm, max_none in H2. congruence.
Qed.
Lemma max_cmp_antisym p a b : cmp_ p a b <= 0 -> cmp_ p b a <= 0 -> a = b.
Proof. rewrite !max_cmp_le, (max_comm p b a). congruence. Qed.

(** ** The requirements *)

Context (upgrade : option (Upgrader error)) (targets : list Version).

(** What [m] is upgraded to; what it requires, the upgrade first; and whether one of
    the two cannot be told. *)
Definition upgraded m : Version :=
  match upgrade with Some up => match up m with (u, None) => u | _ => m end | None => m end.
Definition needs m : list Version :=
  (if decide (upgraded m = m) then [] else [upgraded m]) ++ (if decide (Vers m = none) then [] else (Required reqs m).1).
Definition fails m : option error :=
  match (if decide (Vers m = none) then None else (Required reqs m).2) with
  | Some e => Some e
  | None => match upgrade with Some up => (up m).2 | None => None end
  end.
Lemma examine_spec m : examine reqs upgrade m = (upgraded m, needs m, fails m).
Proof.
  unfold examine, needs, fails, upgraded, str_eqb. destruct (decide (Vers m = none)) as [Hv|Hv].
  - rewrite bool_decide_true by done. cbn. destruct upgrade as [up|]; [destruct (up m) as [u [e|]]|]; cbn; by case_decide.
  - rewrite bool_decide_false by done. cbn. destruct (Required reqs m) as [l [e|]], upgrade as [up|]; cbn;
      try (destruct (up m) as [u [e'|]]; cbn); by case_decide.
Qed.

(** What [m] is reached by. *)
Definition needed m : Prop := exists l, rpath needs targets l m.

Lemma visit_eq m : visit reqs upgrade m = PAct (record reqs upgrade m) (fun _ => Add_each (needs m)).
Proof. unfold visit. by rewrite examine_spec. Qed.

(** The map to [f x] on [D], and nothing elsewhere. *)
Definition mapped {A} (D : Version -> Prop) (f : Version -> option A) (M : gmap Version A) : Prop :=
  forall x a, M !! x = Some a <-> D x /\ f x = Some a.
Lemma mapped_unique {A} (D D' : Version -> Prop) (f : Version -> option A) M M' :
  (forall x, D x <-> D' x) -> mapped D f M -> mapped D' f M' -> M = M'.
Proof.
  intros HD H H'. apply map_eq. intros x. apply option_eq. intros a. by rewrite (H x a), (H' x a), HD.
Qed.
Lemma mapped_add {A} (D : Version -> Prop) (f : Version -> option A) M x : ~ D x -> mapped D f M ->
  mapped (fun y => y = x \/ D y) f (match f x with Some a => <[x := a]> M | None => M end).
Proof.
  intros Hx HM y a. destruct (decide (y = x)) as [->|Hne].
  - destruct (f x) as [b|] eqn:E; [rewrite lookup_insert_eq; naive_solver|]. rewrite (HM x a). naive_solver.
  - replace ((match f x with Some a => <[x:=a]> M | None => M end) !! y) with (M !! y).
    + rewrite (HM y a). naive_solver.
    + destruct (f x); [by rewrite lookup_insert_ne|done].
Qed.

Definition examined s x : Prop := is_Some (required (graph s) !! x).
Record SInv s : Prop := {
  s_graph : GInv cmp_ targets (graph s);
  s_required : mapped (examined s) (fun x => Some (needs x)) (required (graph s));
  s_errs : mapped (examined s) fails (errs s);
  s_upgrades : mapped (examined s) (fun x => if decide (upgraded x = x) then None else Some (upgraded x)) (upgrades s);
}.

Lemma record_SInv s m : SInv s -> known (graph s) m -> ~ examined s m ->
  exists s', record reqs upgrade m s = Some s' /\ SInv s' /\ (forall x, examined s' x <-> x = m \/ examined s x) /\
    (forall x, known (graph s') x <-> x ∈ needs m \/ known (graph s) x).
Proof.
  intros [H1 H2 H3 H4] Hk He. assert (Hr : required (graph s) !! m = None) by (by apply eq_None_not_Some).
  destruct (Require_GInv cmp_ targets (graph s) m (needs m) H1 Hk Hr) as (G1 & G2 & G3).
  unfold record. rewrite examine_spec. pose proof (mapped_add _ _ _ m He H3) as M3. pose proof (mapped_add _ _ _ m He H4) as M4. cbv beta in M4.
  set (l := needs m) in *.
  unfold exec. rewrite Require_cases. destruct Hk as [b ->]. rewrite Hr. eexists. split; [done|].
  assert (Hex : forall x, is_Some (required (required_graph m l (graph s)) !! x) <-> x = m \/ examined s x).
  { intros x. rewrite G2. destruct (decide (x = m)) as [->|Hne]; [rewrite lookup_insert_eq; naive_solver|].
    rewrite lookup_insert_ne by done. unfold examined. naive_solver. }
  split; [|split; [done|done]].
  assert (Hext : forall A (f : Version -> option A) M, mapped (fun y => y = m \/ examined s y) f M ->
    mapped (fun x => is_Some (required (required_graph m l (graph s)) !! x)) f M).
  { intros A f M HM x a. rewrite (HM x a). by rewrite Hex. }
  split; unfold examined; cbn; [done| |apply Hext|apply Hext].
  - intros x a. rewrite G2. destruct (decide (x = m)) as [->|Hne].
    + rewrite lookup_insert_eq. subst l. naive_solver.
    + rewrite lookup_insert_ne by done. apply H2.
  - by destruct (fails m).
  - by destruct (decide (upgraded m = m)).
Qed.

Lemma start_examined x : ~ examined (start reqs targets) x.
Proof.
  intros [l E]. unfold start in E. cbn in E. pose proof (NewGraph_loop cmp_ targets (MkGraph cmp_ targets ∅ ∅ ∅)) as HN.
  destruct HN as (_ & _ & H3 & _); [done| |split; cbn; [done|by intros m []]|].
  - intros m. unfold known. cbn. rewrite lookup_empty. split; [by intros []|done].
  - unfold NewGraph in E. rewrite H3 in E. done.
Qed.
Lemma start_SInv : SInv (start reqs targets).
Proof.
  pose proof (NewGraph_GInv cmp_ targets) as HG. pose proof start_examined as He.
  split; [done| | |]; intros x a; (split; [|by intros [Hx _]; apply He in Hx]).
  - intros E. exfalso. apply (He x). by exists a.
  - done.
  - done.
Qed.

(** ** The runners *)

#[local] Notation rpc := (rpc Version (shared error)).
#[local] Notation f := (visit reqs upgrade).
Implicit Types (rs : list rpc) (w : Work Version) (tr : list (event Version)).

Lemma in_F_unique items n tr w s rs i x p (r : rpc) y q :
  WInv items n tr (w, s, rs) -> rs !! i = Some (InF x p) -> InF y q ∈ <[i := r]> rs -> InF y q = r \/ (InF y q ∈ rs /\ y <> x).
Proof.
  intros HI Hi [j Hj]%list_elem_of_lookup_1. apply list_lookup_insert_Some in Hj as [(-> & -> & _)|(Hij & Hj)]; [by left|].
  right. split; [by eapply list_elem_of_lookup_2|]. intros ->.
  pose proof (inv_nodup _ _ _ _ HI) as Hnd. apply NoDup_app in Hnd as (_ & _ & Hnd). rewrite (inv_work _ _ _ _ HI) in Hnd.
  apply NoDup_app in Hnd as (_ & _ & Hnd). cbn in Hnd. clear HI.
  assert (Hp : rs ≡ₚ InF x p :: InF x q :: delete (if decide (i < j)%nat then (j - 1)%nat else j) (delete i rs)).
  { rewrite (delete_Permutation rs i _ Hi) at 1. f_equiv. apply delete_Permutation. case_decide.
    - rewrite list_lookup_delete_ge by lia. by replace (S (j - 1)) with j by lia.
    - rewrite list_lookup_delete_lt by lia. done. }
  unfold working in Hnd. rewrite Hp in Hnd. cbn in Hnd. apply NoDup_cons in Hnd as [Hn _]. set_solver.
Qed.

Lemma started_added items n tr w s rs x : WInv items n tr (w, s, rs) -> x ∈ started tr -> x ∈ added w.
Proof. intros HI Hx. pose proof (inv_added _ _ _ _ HI) as Ha. cbn in Ha. rewrite Ha. apply elem_of_list_to_set, elem_of_app. by right. Qed.
Lemma in_F_started items n tr w s rs x p : WInv items n tr (w, s, rs) -> InF x p ∈ rs -> x ∈ started tr.
Proof.
  intros HI Hx. rewrite (inv_work _ _ _ _ HI), elem_of_app. right. apply list_elem_of_omap. by exists (InF x p).
Qed.

Record CInv tr w s rs : Prop := {
  c_shared : SInv s;
  c_known x : x ∈ added w -> known (graph s) x;
  c_runner x p : InF x p ∈ rs ->
    (p = f x /\ ~ examined s x) \/
    exists l1 l2, p = Add_each l2 /\ needs x = l1 ++ l2 /\ examined s x /\ forall y, y ∈ l1 -> y ∈ added w;
  c_needs x y : examined s x -> y ∈ needs x -> y ∈ added w \/ exists l2, InF x (Add_each l2) ∈ rs /\ y ∈ l2;
  c_examined x : examined s x -> x ∈ started tr;
  c_started x : x ∈ started tr -> examined s x \/ InF x (f x) ∈ rs;
  c_no_panic x : Panicked x ∉ rs;
}.

Lemma Add_each_not_visit l x : Add_each (error := error) l <> f x.
Proof. unfold visit. by destruct l. Qed.

(** A step of [runner] outside of [f]. *)
Lemma CInv_outside tr w s rs w' rs' : CInv tr w s rs -> (forall x, x ∈ added w' <-> x ∈ added w) ->
  (forall x p, InF x p ∈ rs' <-> InF x p ∈ rs) -> (forall x, Panicked x ∈ rs' -> Panicked x ∈ rs) -> CInv tr w' s rs'.
Proof.
  intros [H1 H2 H3 H4 H5 H6 H7] Hw Hrs Hp. split; try done.
  - intros x Hx. by apply H2, Hw.
  - intros x p Hx%Hrs. apply H3 in Hx as [?|(l1 & l2 & ? & ? & ? & Hl)]; [by left|right]. exists l1, l2. split_and!; try done.
    intros y Hy. by apply Hw, Hl.
  - intros x y Hx Hy. destruct (H4 x y Hx Hy) as [?|(l2 & ? & ?)]; [left; by apply Hw|right]. exists l2. by rewrite Hrs.
  - intros x Hx. rewrite Hrs. by apply H6.
  - intros x Hx. by apply (H7 x), Hp.
Qed.
Lemma insert_not_F i (r0 r : rpc) rs x p : rs !! i = Some r0 -> in_f r0 = None -> in_f r = None ->
  InF x p ∈ <[i := r]> rs <-> InF x p ∈ rs.
Proof.
  intros Hi H0 Hr. rewrite !list_elem_of_lookup. split; intros [j Hj]; exists j.
  - apply list_lookup_insert_Some in Hj as [(-> & -> & _)|(_ & Hj)]; [done|done].
  - rewrite list_lookup_insert_ne; [done|]. intros ->. rewrite Hi in Hj. by injection Hj as ->.
Qed.
Lemma insert_not_panicked i (r : rpc) rs x : (forall y, r <> Panicked y) -> Panicked x ∈ <[i := r]> rs -> Panicked x ∈ rs.
Proof.
  rewrite !list_elem_of_lookup. intros Hr [j Hj]. apply list_lookup_insert_Some in Hj as [(-> & E & _)|(_ & Hj)]; [by apply Hr in E|by exists j].
Qed.
Lemma broadcast_mem rs (r : rpc) : r <> InWait -> r <> Notified -> r ∈ broadcast rs <-> r ∈ rs.
Proof.
  intros H1 H2. unfold broadcast. rewrite list_elem_of_fmap. split.
  - intros ([] & -> & Hin); done.
  - intros Hin. exists r. split; [by destruct r|done].
Qed.

(** A runner takes an item. *)
Lemma CInv_start items n tr w s rs i (r0 : rpc) x l (m : Z) : WInv items n tr (w, s, rs) -> CInv tr w s rs ->
  rs !! i = Some r0 -> in_f r0 = None -> todo w ≡ₚ x :: l ->
  CInv (tr ++ [Started x]) (MkWork (running w) (added w) l m) s (<[i := InF x (f x)]> rs).
Proof.
  intros HI [H1 H2 H3 H4 H5 H6 H7] Hi H0 Ht.
  assert (Es : started (tr ++ [Started x]) = started tr ++ [x]) by apply (events_app tr [Started x]).
  assert (Hx : x ∉ started tr).
  { pose proof (inv_nodup _ _ _ _ HI) as Hnd. cbn in Hnd. rewrite Ht in Hnd. apply NoDup_app in Hnd as (_ & Hd & _). apply Hd. set_solver. }
  assert (Hmem : forall y p, InF y p ∈ <[i := InF x (f x)]> rs <-> (y = x /\ p = f x) \/ InF y p ∈ rs).
  { intros y p. rewrite !list_elem_of_lookup. split.
    - intros [j Hj]. apply list_lookup_insert_Some in Hj as [(-> & [= -> ->] & _)|(_ & Hj)]; [by left|right; by exists j].
    - intros [[-> ->]|[j Hj]].
      + exists i. apply list_lookup_insert_eq. by eapply lookup_lt_Some.
      + exists j. rewrite list_lookup_insert_ne; [done|]. intros ->. rewrite Hi in Hj. by injection Hj as ->. }
  split; cbn; try done.
  - intros y p [[-> ->]|Hy]%Hmem; [left; split; [done|]|by apply H3]. intros He%H5. done.
  - intros y z Hy Hz. destruct (H4 y z Hy Hz) as [?|(l2 & Hl & ?)]; [by left|right]. exists l2. rewrite Hmem. auto.
  - intros y Hy. rewrite Es. set_solver.
  - intros y. rewrite Es, elem_of_app, list_elem_of_singleton, Hmem. intros [Hy| ->]; [destruct (H6 y Hy); auto|right; by left].
  - intros y Hy. apply (H7 y). eapply insert_not_panicked; [|exact Hy]. by intros ? [=].
Qed.

(** The section under [mu]. *)
Lemma CInv_record items n tr w s rs i x : WInv items n tr (w, s, rs) -> CInv tr w s rs -> rs !! i = Some (InF x (f x)) ->
  exists s', record reqs upgrade x s = Some s' /\ CInv tr w s' (<[i := InF x (Add_each (needs x))]> rs).
Proof.
  intros HI HC Hi. pose proof HC as [H1 H2 H3 H4 H5 H6 H7]. assert (Hin : InF x (f x) ∈ rs) by (by eapply list_elem_of_lookup_2).
  assert (Hne : ~ examined s x).
  { destruct (H3 _ _ Hin) as [[_ ?]|(l1 & l2 & E & _)]; [done|]. symmetry in E. by apply Add_each_not_visit in E. }
  assert (Hk : known (graph s) x).
  { eapply H2, started_added, in_F_started; done. }
  destruct (record_SInv s x H1 Hk Hne) as (s' & E & Hs' & He & Hkn). exists s'. split; [done|].
  assert (Hnew : InF x (Add_each (needs x)) ∈ <[i := InF x (Add_each (needs x))]> rs).
  { eapply list_elem_of_lookup_2, list_lookup_insert_eq. by eapply lookup_lt_Some. }
  assert (Hkeep : forall y p, InF y p ∈ rs -> y <> x -> InF y p ∈ <[i := InF x (Add_each (needs x))]> rs).
  { intros y p [j Hj]%list_elem_of_lookup_1 Hyx. apply (list_elem_of_lookup_2 _ j). rewrite list_lookup_insert_ne; [done|].
    intros ->. rewrite Hi in Hj. by injection Hj as <- _. }
  split; [done| | | | | |].
  - intros y Hy. apply Hkn. right. by apply H2.
  - intros y p Hy. destruct (in_F_unique _ _ _ _ _ _ _ _ _ _ _ _ HI Hi Hy) as [[= -> ->]|[Hy' Hyx]].
    + right. exists [], (needs x). split_and!; try done; [by apply He; left|set_solver].
    + destruct (H3 _ _ Hy') as [[-> Hn]|(l1 & l2 & ? & ? & ? & ?)]; [left; split; [done|]|right; exists l1, l2].
      * rewrite He. tauto.
      * rewrite He. auto.
  - intros y z [-> |Hy]%He Hz; [right; exists (needs x); done|]. destruct (H4 y z Hy Hz) as [?|(l2 & Hl & ?)]; [by left|right].
    exists l2. split; [|done]. apply Hkeep; [done|]. by intros ->.
  - intros y [-> |Hy]%He; [by eapply in_F_started|by apply H5].
  - intros y Hy. destruct (decide (y = x)) as [->|Hyx]; [left; by apply He; left|].
    destruct (H6 y Hy) as [?|?]; [left; apply He; by right|right; by apply Hkeep].
  - intros y Hy. apply (H7 y). eapply insert_not_panicked; [|exact Hy]. by intros ? [=].
Qed.

(** A runner that has added the first of the modules it has to add, and one that is
    done. *)
Lemma CInv_added items n tr w s rs i x y l j rs' : WInv items n tr (w, s, rs) -> CInv tr w s rs ->
  rs !! i = Some (InF x (PAdd y (Add_each l))) ->
  (if (Add y w).2 then signal j (<[i := InF x (Add_each l)]> rs) else Some (<[i := InF x (Add_each l)]> rs)) = Some rs' ->
  CInv (tr ++ [Added y]) (Add y w).1 s rs'.
Proof.
  intros HI [H1 H2 H3 H4 H5 H6 H7] Hi Hsig. assert (Hin : InF x (Add_each (y :: l)) ∈ rs) by (by eapply list_elem_of_lookup_2).
  set (rs1 := <[i := InF x (Add_each l)]> rs) in *.
  assert (Hm : forall z p, InF z p ∈ rs' <-> InF z p ∈ rs1).
  { intros z p. destruct (Add y w).2; [|by injection Hsig as <-]. unfold signal in Hsig. case_match; [by injection Hsig as <-|].
    destruct (rs1 !! j) as [[]|] eqn:Ej; try done. injection Hsig as <-. by apply (insert_not_F j InWait). }
  assert (Hpan : forall z, Panicked z ∈ rs' -> Panicked z ∈ rs).
  { intros z Hz. assert (Panicked z ∈ rs1) as Hz1; [|eapply insert_not_panicked; [|exact Hz1]; by intros ? [=]].
    destruct (Add y w).2; [|by injection Hsig as <-]. unfold signal in Hsig. case_match; [by injection Hsig as <-|].
    destruct (rs1 !! j) as [[]|] eqn:Ej; try done. injection Hsig as <-. eapply insert_not_panicked; [|exact Hz]. by intros ? [=]. }
  assert (Ha : forall z, z ∈ (Add y w).1.(added) <-> z = y \/ z ∈ added w) by (intros z; unfold Add; case_decide; cbn; set_solver).
  assert (Es : started (tr ++ [Added y]) = started tr) by (destruct (events_app tr [Added y]) as [-> _]; apply app_nil_r).
  destruct (H3 _ _ Hin) as [[E _]|(l1 & l2 & E & En & Hex & Hl1)]; [by apply Add_each_not_visit in E|].
  assert (l2 = y :: l) as ->.
  { clear - E. revert E. generalize (y :: l). intros l'. revert l2. induction l' as [|a l' IH]; intros [|b l2] E; try done.
    injection E as -> E. f_equal. symmetry. symmetry in E. rewrite (IH l2); [done|]. by symmetry. }
  assert (Hyk : known (graph s) y).
  { eapply (gi_edge _ _ _ (s_graph _ H1)). exists (needs x). split; [|rewrite En; set_solver]. by apply (s_required _ H1). }
  assert (Hnew : InF x (Add_each l) ∈ rs1) by (eapply list_elem_of_lookup_2, list_lookup_insert_eq; by eapply lookup_lt_Some).
  assert (Hkeep : forall z p, InF z p ∈ rs -> z <> x -> InF z p ∈ rs1).
  { intros z p [k Hk]%list_elem_of_lookup_1 Hzx. apply (list_elem_of_lookup_2 _ k). unfold rs1. rewrite list_lookup_insert_ne; [done|].
    intros ->. rewrite Hi in Hk. by injection Hk as <- _. }
  split; [done| | | | | |].
  - intros z [->|Hz]%Ha; [done|by apply H2].
  - intros z p Hz%Hm. destruct (in_F_unique _ _ _ _ _ _ _ _ _ _ _ _ HI Hi Hz) as [[= -> ->]|[Hz' Hzx]].
    + right. exists (l1 ++ [y]), l. rewrite <- app_assoc. split_and!; try done. intros z [Hz1|Hz1]%elem_of_app; apply Ha; [right; by apply Hl1|left; set_solver].
    + destruct (H3 _ _ Hz') as [?|(k1 & k2 & ? & ? & ? & Hk)]; [by left|right; exists k1, k2]. split_and!; try done. intros v Hv. apply Ha. right. by apply Hk.
  - intros z v Hz Hv. destruct (H4 z v Hz Hv) as [?|(k & Hk & Hvk)]; [left; apply Ha; by right|]. destruct (decide (z = x)) as [->|Hzx].
    + rewrite En in Hv. apply elem_of_app in Hv as [Hv|[->|Hv]%elem_of_cons]; [left; apply Ha; right; by apply Hl1|left; apply Ha; by left|].
      right. exists l. by rewrite Hm.
    + right. exists k. rewrite Hm. split; [by apply Hkeep|done].
  - intros z Hz. rewrite Es. by apply H5.
  - intros z Hz. rewrite Es in Hz. destruct (decide (z = x)) as [->|Hzx]; [by left|]. destruct (H6 z Hz); [by left|right]. apply Hm. by apply Hkeep.
  - intros z Hz%Hpan. by apply (H7 z).
Qed.
Lemma CInv_finished items n tr w s rs i x : WInv items n tr (w, s, rs) -> CInv tr w s rs ->
  rs !! i = Some (InF x PRet) -> CInv (tr ++ [Finished x]) w s (<[i := AtLock]> rs).
Proof.
  intros HI [H1 H2 H3 H4 H5 H6 H7] Hi. assert (Hin : InF x (Add_each []) ∈ rs) by (by eapply list_elem_of_lookup_2).
  assert (Es : started (tr ++ [Finished x]) = started tr) by (destruct (events_app tr [Finished x]) as [-> _]; apply app_nil_r).
  destruct (H3 _ _ Hin) as [[E _]|(l1 & l2 & E & En & Hex & Hl1)]; [by apply Add_each_not_visit in E|].
  assert (l2 = []) as -> by (by destruct l2).
  assert (Hkeep : forall z p, InF z p ∈ rs -> z <> x -> InF z p ∈ <[i := AtLock]> rs).
  { intros z p [k Hk]%list_elem_of_lookup_1 Hzx. apply (list_elem_of_lookup_2 _ k). rewrite list_lookup_insert_ne; [done|].
    intros ->. rewrite Hi in Hk. by injection Hk as <- _. }
  split; try done.
  - intros z p Hz. destruct (in_F_unique _ _ _ _ _ _ _ _ _ _ _ _ HI Hi Hz) as [?|[Hz' _]]; [done|by apply H3].
  - intros z v Hz Hv. destruct (H4 z v Hz Hv) as [?|(k & Hk & Hvk)]; [by left|]. destruct (decide (z = x)) as [->|Hzx].
    + left. apply Hl1. by rewrite En, app_nil_r in Hv.
    + right. exists k. split; [by apply Hkeep|done].
  - intros z Hz. rewrite Es. by apply H5.
  - intros z Hz. rewrite Es in Hz. destruct (decide (z = x)) as [->|Hzx]; [by left|]. destruct (H6 z Hz); [by left|right]. by apply Hkeep.
  - intros z Hz. apply (H7 z). eapply insert_not_panicked; [|exact Hz]. by intros ? [=].
Qed.

Lemma CInv_locked items n tr w s rs i k (r0 : rpc) (m : Z) e c' : WInv items n tr (w, s, rs) -> CInv tr w s rs -> rs !! i = Some r0 ->
  r0 = AtLock \/ r0 = Notified -> locked_section f i k (set_waiting m w) s rs = Some (e, c') -> CInv (tr ++ e) c'.1.1 c'.1.2 c'.2.
Proof.
  intros HI HC Hi Hr0. assert (H0 : in_f r0 = None) by (by destruct Hr0 as [-> | ->]). unfold locked_section.
  destruct (todo _) as [|x0 l0] eqn:Et; cbn in Et.
  - cbn. destruct (_ =? _); intros [= <- <-]; rewrite app_nil_r; cbn; (eapply CInv_outside; [exact HC|done| |]).
    + intros x p. rewrite broadcast_mem by done. by eapply insert_not_F.
    + intros x Hx. rewrite broadcast_mem in Hx by done. eapply insert_not_panicked; [|exact Hx]. done.
    + intros x p. by eapply insert_not_F.
    + intros x Hx. eapply insert_not_panicked; [|exact Hx]. done.
  - destruct (pick _ _) as [[x w1]|] eqn:Ep; [|done]. cbn. intros [= <- <-]. apply pick_spec in Ep as (l & -> & Hl). cbn in Hl |- *.
    eapply CInv_start; eauto.
Qed.

Lemma CInv_step items n tr c e c' : WInv items n tr c -> CInv tr c.1.1 c.1.2 c.2 -> step f c e c' -> CInv (tr ++ e) c'.1.1 c'.1.2 c'.2.
Proof.
  destruct c as [[w s] rs]. intros HI HC (i & k & j & Hs). cbn in Hs, HC. destruct (rs !! i) as [[| | |x p| |]|] eqn:Hi; try done.
  - replace w with (set_waiting (waiting w) w) in Hs by (by destruct w). eapply CInv_locked; eauto.
  - eapply CInv_locked; eauto.
  - assert (Hin : InF x p ∈ rs) by (by eapply list_elem_of_lookup_2).
    destruct (c_runner _ _ _ _ HC _ _ Hin) as [[-> _]|(l1 & l2 & -> & _)].
    + destruct (CInv_record _ _ _ _ _ _ _ _ HI HC Hi) as (s' & E & HC'). rewrite visit_eq in Hs. rewrite E in Hs. injection Hs as <- <-.
      by rewrite app_nil_r.
    + destruct l2 as [|y l2]; cbn in Hs.
      * injection Hs as <- <-. by eapply CInv_finished.
      * destruct (Add y w) as [w1 sig] eqn:Ea. apply bind_Some in Hs as (rs' & Er & [= <- <-]). cbn.
        replace w1 with (Add y w).1 by (by rewrite Ea). eapply CInv_added; [done|done|done|]. by rewrite Ea.
Qed.

Lemma CInv_start_ok n c0 : Do n (Add_all targets zero_Work) (start reqs targets) = Done c0 -> CInv [] c0.1.1 c0.1.2 c0.2.
Proof.
  intros Hd. pose proof (inv_initial f targets n _ c0 Hd) as HI. pose proof (inv_items _ _ _ _ HI) as Hi.
  assert (Es : c0.1.2 = start reqs targets) by (unfold Do in Hd; repeat case_match; try done; by injection Hd as <-).
  assert (Er : forall r : rpc, r ∈ c0.2 -> r = AtLock).
  { unfold Do in Hd; repeat case_match; try done. injection Hd as <-. by intros r [-> _]%elem_of_replicate. }
  pose proof start_SInv as HS. rewrite Es. split; [done| | | | | |].
  - intros x [Hx|Hx]%Hi; [|set_solver]. pose proof (gi_root _ _ _ (s_graph _ HS) x Hx) as E. by exists true.
  - by intros x p Hx%Er.
  - intros x y Hx. by apply start_examined in Hx.
  - intros x Hx. by apply start_examined in Hx.
  - set_solver.
  - by intros x Hx%Er.
Qed.
Lemma CInv_steps n c0 tr c : Do n (Add_all targets zero_Work) (start reqs targets) = Done c0 -> steps f c0 tr c ->
  WInv targets n tr c /\ CInv tr c.1.1 c.1.2 c.2.
Proof.
  intros Hd. induction 1 as [c|c tr c' e c'' Hs IH Hst].
  - split; [exact (inv_initial f targets n _ c Hd)|by eapply CInv_start_ok].
  - destruct (IH Hd) as [HI HC]. split; [by eapply inv_step|by eapply CInv_step].
Qed.

(** ** The end *)

(** The shared state when all the work is done. *)
Definition complete s : Prop := SInv s /\ forall x, examined s x <-> needed x.
Lemma CInv_complete n c0 tr c : Do n (Add_all targets zero_Work) (start reqs targets) = Done c0 -> steps f c0 tr c ->
  Do_returned c -> complete c.1.2.
Proof.
  intros Hd Hs HR. destruct (CInv_steps n c0 tr c Hd Hs) as [HI HC]. destruct c as [[w s] rs]. cbn in *.
  assert (HR' : Returned ∈ rs) by (by eapply list_elem_of_lookup_2). pose proof (inv_ended _ _ _ _ HI HR') as [Ht He]. cbn in Ht, He.
  rewrite Forall_forall in He. assert (HnF : forall x p, InF x p ∉ rs) by (intros x p Hx; by destruct (He _ Hx)).
  destruct HC as [H1 H2 H3 H4 H5 H6 H7]. split; [done|].
  assert (Hex : forall x, examined s x <-> x ∈ added w).
  { intros x. split.
    - intros Hx. eapply started_added; [done|by apply H5].
    - intros Hx. pose proof (inv_added _ _ _ _ HI) as Ha. cbn in Ha. rewrite Ha, Ht in Hx. cbn in Hx. apply elem_of_list_to_set in Hx.
      destruct (H6 x Hx) as [?|Hf]; [done|by apply HnF in Hf]. }
  intros x. split.
  - intros Hx. destruct (gi_known _ _ _ (s_graph _ H1) x) as (r & Hr & Hp); [by apply H2, Hex|].
    rewrite (gi_roots _ _ _ (s_graph _ H1)) in Hr. clear Hx.
    apply (rtc_ind_r (R := edge (graph s)) needed r); [by exists [r]; constructor| |done].
    intros a b _ (l & E & Hb) [pa Hpa]. apply (s_required _ H1) in E as [_ [= <-]]. exists (pa ++ [b]). by eapply rpath_step.
  - intros [l Hl]. induction Hl as [r Hr|l a b Hl IH Hb].
    + apply Hex. by apply (inv_items _ _ _ _ HI), or_introl.
    + apply Hex. destruct (H4 a b IH Hb) as [?|(l2 & Hf & _)]; [done|by apply HnF in Hf].
Qed.

Lemma complete_known s x : complete s -> known (graph s) x <-> needed x.
Proof.
  intros [[H1 H2 H3 H4] He]. split.
  - intros Hk. destruct (gi_known _ _ _ H1 x Hk) as (r & Hr & Hp). rewrite (gi_roots _ _ _ H1) in Hr.
    apply (rtc_ind_r (R := edge (graph s)) needed r); [by exists [r]; constructor| |done].
    intros a b _ (l & E & Hb) [pa Hpa]. apply H2 in E as [_ [= <-]]. exists (pa ++ [b]). by eapply rpath_step.
  - intros Hn. eapply gi_required; [done|]. by apply He.
Qed.
Lemma Selected_unique K g g' p : Sel cmp_ K g -> Sel cmp_ K g' -> Selected p g = Selected p g'.
Proof.
  assert (Hle : forall g g', Sel cmp_ K g -> Sel cmp_ K g' -> cmp_ p (Selected p g) (Selected p g') <= 0).
  { intros h h' [Hi _] Hs'. unfold Selected at 1. destruct (selected h !! p) as [v|] eqn:E; [|by eapply (none_selected cmp_)].
    cbn. unfold id. apply Hi in E as [Hk _]. apply (sel_max _ _ _ Hs') in Hk. cbn in Hk.
    rewrite (cmp_sym (c := cmp_ p) (Selected p h') v). lia. }
  intros H H'. by apply (max_cmp_antisym p); apply Hle.
Qed.
Lemma complete_unique s s' : complete s -> complete s' -> s = s'.
Proof.
  intros C C'. pose proof C as [[H1 H2 H3 H4] He]. pose proof C' as [[H1' H2' H3' H4'] He'].
  assert (HD : forall x, examined s x <-> examined s' x) by (intros x; by rewrite He, He').
  assert (HS : Sel cmp_ needed (graph s)) by (eapply Sel_iff; [|exact (gi_sel _ _ _ H1)]; intros; by apply complete_known).
  assert (HS' : Sel cmp_ needed (graph s')) by (eapply Sel_iff; [|exact (gi_sel _ _ _ H1')]; intros; by apply complete_known).
  destruct s as [g u e], s' as [g' u' e']. cbn in *. f_equal; [|by eapply mapped_unique|by eapply mapped_unique].
  destruct g as [gc gr gq gi gs] eqn:Eg, g' as [gc' gr' gq' gi' gs'] eqn:Eg'.
  pose proof (gi_cmp _ _ _ H1). pose proof (gi_cmp _ _ _ H1'). pose proof (gi_roots _ _ _ H1). pose proof (gi_roots _ _ _ H1'). cbn in *. subst gc gc' gr gr'.
  f_equal; [by eapply mapped_unique| |].
  - apply map_eq. intros x. apply option_eq. intros b.
    pose proof (complete_known _ x C) as K. pose proof (complete_known _ x C') as K'. unfold known in K, K'. cbn in K, K'.
    pose proof (gi_isRoot _ _ _ H1 x) as R. pose proof (gi_isRoot _ _ _ H1' x) as R'. cbn in R, R'.
    pose proof (gi_root _ _ _ H1 x) as T. pose proof (gi_root _ _ _ H1' x) as T'. cbn in T, T'.
    destruct (gi !! x) as [b1|] eqn:E1, (gi' !! x) as [b2|] eqn:E2; try done.
    + destruct b1, b2; try done; naive_solver.
    + destruct K' as [_ K']. destruct K' as [? ?]; [|done]. apply K. by eexists.
    + destruct K as [_ K]. destruct K as [? ?]; [|done]. apply K'. by eexists.
  - apply map_eq. intros p. apply option_eq. intros v.
    pose proof (selected_iff cmp_ _ _ p v HS) as Q. pose proof (selected_iff cmp_ _ _ p v HS') as Q'. cbn in Q, Q'.
    rewrite Q, Q'. by rewrite (Selected_unique needed _ _ p HS HS').
Qed.

(** ** The result *)

Lemma next_of_complete s m : complete s -> needed m -> next_of (graph s) m = needs m.
Proof.
  intros [[H1 H2 H3 H4] He] Hm. apply He in Hm as [l E]. unfold next_of, RequiredBy. rewrite E. cbn. apply H2 in E as [_ [= <-]]. done.
Qed.
Lemma complete_paths s l m : complete s -> rpath (next_of (graph s)) (roots (graph s)) l m <-> rpath needs targets l m.
Proof.
  intros C. pose proof C as [[H1 _ _ _] _]. rewrite (gi_roots _ _ _ H1). split; induction 1 as [r Hr|p a b Hp IH Hb]; try by constructor.
  - eapply rpath_step; [done|]. rewrite next_of_complete in Hb; [done|done|by exists p].
  - eapply rpath_step; [done|]. rewrite next_of_complete; [done|done|by exists p].
Qed.

(** [m] is the highest version of its path that is needed, and not "none". *)
Definition highest m : Prop :=
  needed m /\ Vers m <> none /\ forall m', needed m' -> Path m' = Path m -> Max reqs (Path m) (Vers m') (Vers m) = Vers m.
Lemma selected_highest s m : complete s -> selected (graph s) !! Path m = Some (Vers m) <-> highest m.
Proof.
  intros C. pose proof C as [[H1 _ _ _] _]. pose proof (gi_sel _ _ _ H1) as HS. split.
  - intros E. pose proof (sel_in _ _ _ HS _ _ E) as [Hk Hn]. split_and!.
    + apply (complete_known s); [done|]. by destruct m.
    + by apply max_cmp_none in Hn.
    + intros m' Hm' Hp. apply max_cmp_le. apply (complete_known s), (sel_max _ _ _ HS) in Hm'; [|done]. unfold Selected in Hm'.
      rewrite Hp, E in Hm'. cbn in Hm'. unfold id in Hm'. rewrite (cmp_sym (c := cmp_ (Path m)) (Vers m) (Vers m')). lia.
  - intros (Hn & Hv & Hmax). apply (complete_known s), (sel_max _ _ _ HS) in Hn; [|done]. unfold Selected in Hn.
    destruct (selected (graph s) !! Path m) as [v|] eqn:E; cbn in Hn; unfold id in Hn.
    + f_equal. apply (max_cmp_antisym (Path m)).
      * apply max_cmp_le. apply (Hmax (MkVersion (Path m) v)); [|done]. apply (complete_known s); [done|]. by apply (sel_in _ _ _ HS) in E as [? _].
      * rewrite (cmp_sym (c := cmp_ (Path m)) v (Vers m)). lia.
    + exfalso. assert (cmp_ (Path m) none (Vers m) < 0) by (apply max_cmp_none; done). lia.
Qed.

Context (U : gset Version).
Hypotheses (HU1 : forall t, t ∈ targets -> t ∈ U) (HU2 : forall m r, m ∈ U -> r ∈ needs m -> r ∈ U) (HU3 : Z.of_nat (size U) < 2 ^ 62).
Hypotheses (HT1 : NoDup (map Path targets)) (HT2 : forall t v, t ∈ targets -> Max reqs (Path t) (Vers t) v = Vers t).
Hypothesis (HP : forall m, m ∈ U -> Path m <> []).

Lemma needed_U m : needed m -> m ∈ U.
Proof. intros [l Hl]. induction Hl; eauto. Qed.
Lemma target_highest t : t ∈ targets -> highest t.
Proof.
  intros Ht. split_and!.
  - exists [t]. by constructor.
  - intros E. pose proof (HT2 t [] Ht) as H. rewrite E, max_comm, max_none in H. done.
  - intros m' _ _. rewrite max_comm. by apply HT2.
Qed.
Lemma first_paths_NoDup (rs : list Version) (seen : gset (list Z)) : NoDup (map Path rs) -> (forall r, r ∈ rs -> Path r ∉ seen) ->
  first_paths seen rs = map Path rs.
Proof.
  revert seen. induction rs as [|r rs IH]; intros seen Hnd Hs; [done|]. apply NoDup_cons in Hnd as [Hr Hnd]. cbn.
  rewrite decide_False by (apply Hs; set_solver). f_equal. apply IH; [done|]. intros x Hx. specialize (Hs x ltac:(set_solver)).
  assert (Path x <> Path r); [|set_solver]. intros E. apply Hr. rewrite <- E. by apply list_elem_of_fmap_2.
Qed.
Lemma root_list_targets s : complete s -> root_list (graph s) = targets.
Proof.
  intros C. pose proof C as [[H1 _ _ _] _]. unfold root_list. rewrite (gi_roots _ _ _ H1), first_paths_NoDup by (done || set_solver).
  assert (Hall : forall t, t ∈ targets -> chosen (graph s) (Path t) = Some t).
  { intros t Ht. pose proof (target_highest t Ht) as Hh. pose proof Hh as (_ & Hv & _). apply (selected_highest s) in Hh; [|done].
    unfold chosen, Selected. rewrite Hh. unfold from_option, id, str_eqb. rewrite bool_decide_false by done. by destruct t. }
  clear - Hall. induction targets as [|t l IH]; [done|]. cbn. rewrite Hall by set_solver. f_equal. apply IH. set_solver.
Qed.
Lemma order_small s order : complete s -> order ≡ₚ map_to_list (selected (graph s)) -> zlen order < 2 ^ 62.
Proof.
  intros C Ho. set (l := map (fun '(p, v) => MkVersion p v) (map_to_list (selected (graph s)))).
  assert (Hl : length l = length order) by (unfold l; by rewrite length_map, Ho).
  assert (Hnd : NoDup l).
  { apply NoDup_fmap_2; [|apply NoDup_map_to_list]. by intros [p v] [p' v'] [= -> ->]. }
  assert (Hsub : (list_to_set l : gset Version) ⊆ U).
  { intros m Hm%elem_of_list_to_set. apply list_elem_of_fmap in Hm as ([p v] & -> & E). apply elem_of_map_to_list in E.
    apply needed_U. by apply (selected_highest s (MkVersion p v)) in E as [? _]. }
  apply subseteq_size in Hsub. rewrite size_list_to_set in Hsub by done. unfold zlen. lia.
Qed.

(** The stack of an error tells how each module of the path came to the next. *)
Definition reasons (path : list Version) (st : list (Version * list Z)) : Prop :=
  map fst st = path /\
  forall i a b, path !! i = Some a -> path !! S i = Some b ->
    st !! i = Some (a, if decide (b = upgraded a /\ b <> a) then bytes "updating to" else bytes "requires").
Lemma error_stack_ok p isUp : p <> [] -> exists st, error_stack p isUp = Done st /\ map fst st = p /\
  forall i a b, p !! i = Some a -> p !! S i = Some b -> st !! i = Some (a, if isUp a b then bytes "updating to" else bytes "requires").
Proof.
  induction p as [|m p IH]; [done|]. intros _. destruct p as [|m' p].
  - exists [(m, [])]. by split_and!.
  - destruct IH as (st & E & Hf & Hr); [done|]. change (error_stack (m :: m' :: p) isUp) with
      (obind (error_stack (m' :: p) isUp) (fun stack => Done ((m, if isUp m m' then bytes "updating to" else bytes "requires") :: stack))).
    rewrite E. cbn [obind]. eexists. split; [done|]. split; [cbn; by rewrite Hf|]. intros [|i] a b Ha Hb; [injection Ha as ->; injection Hb as ->; done|].
    by apply Hr.
Qed.

(** What [buildList] returns. *)
Definition result_ok (res : list Version + BuildListError error) : Prop :=
  match res with
  | inl l =>
      (forall m, needed m -> fails m = None) /\
      exists rest, l = targets ++ rest /\ StronglySorted path_lt rest /\
        (forall m, m ∈ rest <-> highest m /\ forall t, t ∈ targets -> Path t <> Path m) /\
        (forall m, needed m -> Vers m <> none -> exists m', m' ∈ l /\ Path m' = Path m /\ Max reqs (Path m) (Vers m) (Vers m') = Vers m')
  | inr e =>
      exists p m, rpath needs targets p m /\ fails m = Some (Err e) /\ reasons p (stack e) /\ Module_ e = m /\
        forall p' m', rpath needs targets p' m' -> fails m' <> None -> (length p <= length p')%nat
  end.

Lemma errs_spec s x e : complete s -> errs s !! x = Some e <-> needed x /\ fails x = Some e.
Proof. intros [[_ _ H3 _] He]. by rewrite (H3 x e), He. Qed.

Lemma finish_order s order order' : complete s -> order ≡ₚ map_to_list (selected (graph s)) -> order' ≡ₚ map_to_list (selected (graph s)) ->
  finish targets order s = finish targets order' s.
Proof.
  intros C Ho Ho'. unfold finish. case_decide; [|done].
  destruct (BuildList_spec (graph s) order Ho (order_small s order C Ho)) as (rest & -> & Hr).
  destruct (BuildList_spec (graph s) order' Ho' (order_small s order' C Ho')) as (rest' & -> & Hr').
  by rewrite (is_rest_unique _ _ _ _ eq_refl eq_refl Hr Hr').
Qed.

Lemma highest_exists s m : complete s -> needed m -> Vers m <> none ->
  exists v, highest (MkVersion (Path m) v) /\ Max reqs (Path m) (Vers m) v = v.
Proof.
  intros C Hn Hv. pose proof C as [[H1 _ _ _] _]. pose proof (gi_sel _ _ _ H1) as HS.
  apply (complete_known s), (sel_max _ _ _ HS) in Hn; [|done]. unfold Selected in Hn.
  destruct (selected (graph s) !! Path m) as [v|] eqn:E; unfold from_option, id in Hn.
  - exists v. split; [by apply (selected_highest s (MkVersion (Path m) v))|]. apply max_cmp_le. rewrite (cmp_sym (c := cmp_ (Path m)) v (Vers m)). lia.
  - exfalso. assert (cmp_ (Path m) none (Vers m) < 0) by (apply max_cmp_none; done). lia.
Qed.
Lemma met s m rest : complete s -> (forall m, m ∈ rest <-> highest m /\ forall t, t ∈ targets -> Path t <> Path m) ->
  needed m -> Vers m <> none -> exists m', m' ∈ targets ++ rest /\ Path m' = Path m /\ Max reqs (Path m) (Vers m) (Vers m') = Vers m'.
Proof.
  intros C Hrest Hm Hv. destruct (highest_exists s m C Hm Hv) as (v & Hh & Hmax).
  destruct (decide (Exists (fun t => Path t = Path m) targets)) as [He|He].
  - apply Exists_exists in He as (t & Ht & E). exists t. rewrite elem_of_app, max_comm, <- E. split; [by left|]. split; [done|by apply HT2].
  - rewrite <- Forall_Exists_neg, Forall_forall in He. exists (MkVersion (Path m) v). split; [|done]. apply elem_of_app. right. by apply Hrest.
Qed.
Lemma finish_list s order : complete s -> order ≡ₚ map_to_list (selected (graph s)) -> errs s = ∅ ->
  exists res, finish targets order s = Done res /\ result_ok res.
Proof.
  intros C Ho He. unfold finish. rewrite decide_True by done.
  destruct (BuildList_spec (graph s) order Ho (order_small s order C Ho)) as (rest & -> & Hs & Hin). cbn [obind].
  rewrite (root_list_targets s C), take_app_length, decide_True by done. exists (inl (targets ++ rest)). split; [done|]. split.
  - intros m Hm. destruct (fails m) as [e|] eqn:E; [|done]. assert (errs s !! m = Some e) as E' by (by apply errs_spec). by rewrite He in E'.
  - assert (Hrest : forall m, m ∈ rest <-> highest m /\ forall t, t ∈ targets -> Path t <> Path m).
    { intros m. rewrite Hin, (selected_highest s m C). pose proof C as [[H1 _ _ _] _]. by rewrite (gi_roots _ _ _ H1). }
    exists rest. split_and!; try done. intros m Hm Hv. by apply (met s).
Qed.

Lemma finish_error s order : complete s -> errs s <> ∅ -> exists res, finish targets order s = Done res /\ result_ok res.
Proof.
  intros C He. unfold finish. rewrite decide_False by done.
  set (failed := fun m => match errs s !! m with Some _ => true | None => false end).
  destruct (FindPath_spec (graph s) failed) as (p & -> & Hp).
  { intros l m Hl. apply (complete_paths s l m C) in Hl. apply HP, needed_U. by exists l. }
  assert (Hex : exists l m, rpath needs targets l m /\ failed m = true).
  { apply map_choose in He as (m & e & E). pose proof E as [[l Hl] _]%errs_spec; [|done]. exists l, m. unfold failed. by rewrite E. }
  destruct p as [|a p].
  { destruct Hex as (l & m & Hl & Hm). apply (complete_paths s l m C), Hp in Hl. congruence. }
  destruct Hp as (m & Hpath & Hm & Hmin). cbn [obind]. rewrite (rpath_last _ _ _ _ Hpath). unfold failed in Hm.
  destruct (errs s !! m) as [err|] eqn:E; [|done]. unfold NewBuildListError.
  set (isUp := fun from to => match upgrades s !! from with Some u => bool_decide (u = to) | None => false end).
  destruct (error_stack_ok (a :: p) isUp) as (st & -> & Hf & Hr); [done|]. cbn [obind]. eexists. split; [done|].
  apply (complete_paths s _ _ C) in Hpath. exists (a :: p), m. cbn. split; [done|]. split; [by apply errs_spec in E as [_ ?]|]. split; [|split].
  - split; [done|]. intros i x y Hx Hy. rewrite (Hr i x y Hx Hy). f_equal. f_equal. unfold isUp.
    assert (Hnx : needed x) by (by eapply rpath_prefix).
    destruct C as [[_ _ _ H4] Hex']. apply Hex' in Hnx.
    destruct (upgrades s !! x) as [u|] eqn:Eu.
    + apply H4 in Eu as [_ Eu]. case_decide; [done|]. injection Eu as <-. case_bool_decide; case_decide; naive_solver.
    + rewrite decide_False; [done|]. intros [-> Hne]. assert (upgrades s !! x = Some (upgraded x)) as Eu'; [|by rewrite Eu in Eu'].
      apply H4. split; [done|]. by rewrite decide_False.
  - unfold Module_. cbn. pose proof (rpath_last _ _ _ _ Hpath) as Hl. rewrite <- Hf in Hl. change (map fst st) with (fst <$> st) in Hl.
    rewrite fmap_last in Hl. destruct (last st) as [[x t]|]; [|done]. by injection Hl.
  - intros p' m' Hp' Hm'. destruct (fails m') as [e'|] eqn:E'; [|done]. apply (complete_paths s _ _ C) in Hp' as Hq. apply (Hmin p' m' Hq).
    unfold failed. assert (errs s !! m' = Some e') as ->; [|done]. apply errs_spec; [done|]. split; [by exists p'|done].
Qed.

Lemma adds_in_each l : (forall r, r ∈ l -> r ∈ U) -> adds_in (ST := shared error) U (Add_each l).
Proof. induction l as [|x l IH]; intros Hl; cbn; [done|]. split; [apply Hl; set_solver|apply IH; set_solver]. Qed.
Lemma visit_adds m : m ∈ U -> adds_in U (f m).
Proof. intros Hm. rewrite visit_eq. cbn. intros _. apply adds_in_each. intros r Hr. by eapply HU2. Qed.

(** Every schedule ends, in the same way. *)
Lemma buildList_result c0 : Do 10 (Add_all targets zero_Work) (start reqs targets) = Done c0 ->
  sn (fun c c' => exists e, step f c e c') c0 /\ (exists N : gset Version, forall x, x ∈ N <-> needed x) /\
  exists res0, result_ok res0 /\ forall res, buildList reqs upgrade targets res <-> res = Done res0.
Proof.
  intros Hd. assert (Hsn : sn (fun c c' => exists e, step f c e c') c0).
  { eapply sn_step; [by apply visit_adds|]. by eapply (term_initial f). }
  split; [done|].
  destruct (some_run_ends f targets 10 c0 [] c0 Hsn (inv_initial f targets 10 _ c0 Hd) (steps_refl _ _)) as (tr & c & Hs & [[x Hx]|HR]).
  { destruct (CInv_steps 10 c0 tr c Hd Hs) as [_ HC]. by apply (c_no_panic _ _ _ _ HC) in Hx. }
  pose proof (CInv_complete 10 c0 tr c Hd Hs HR) as C.
  assert (exists res0, finish targets (map_to_list (selected (graph c.1.2))) c.1.2 = Done res0 /\ result_ok res0) as (res0 & E0 & H0).
  { destruct (decide (errs c.1.2 = ∅)); [by apply finish_list|by apply finish_error]. }
  split; [exists (dom (required (graph c.1.2))); intros x; rewrite elem_of_dom; apply C|].
  exists res0. split; [done|]. intros res. split.
  - intros Hr. destruct Hr as [c0' tr' c' order Hd' Hs' HR' Ho|c0' tr' c' m Hd' Hs' Hp].
    + rewrite Hd in Hd'. injection Hd' as <-. pose proof (CInv_complete 10 c0 tr' c' Hd Hs' HR') as C'.
      rewrite (complete_unique _ _ C' C) in *. rewrite <- E0. by apply finish_order.
    + rewrite Hd in Hd'. injection Hd' as <-. destruct (CInv_steps 10 c0 tr' c' Hd Hs') as [_ HC].
      by apply (c_no_panic _ _ _ _ HC) in Hp.
  - intros ->. rewrite <- E0. by eapply buildList_returns.
Qed.
Lemma start_ends : exists c0, Do 10 (Add_all targets zero_Work) (start reqs targets) = Done c0.
Proof.
  unfold Do. cbn. destruct (Add_all_spec f targets zero_Work) as ((_ & _ & _ & Hr) & _); [by repeat split; try constructor|]. rewrite Hr. cbn. by eexists.
Qed.
End BuildList.

(** C2: minimal version selection.  For a [Max] that is a maximum of a total order
    with "none" least, targets of different paths that no version exceeds, and
    requirements and upgrades that stay within a finite set [U] of modules with
    paths: whatever the schedule of the runners, the choices of [rand.Intn] and the order of the
    map, the work ends and [buildList] returns one and the same result, without a panic.  If examining
    a module needed fails, the result is the error of such a module at the end of a
    shortest path of requirements and upgrades from a target, with that path and its
    reasons; otherwise it is the list of the targets and, sorted by path, of the
    highest version of every other path needed, so that every requirement and every upgrade
    is met. *)
Theorem minimal_version_selection {error} (reqs : Reqs error) (upgrade : option (Upgrader error)) (targets : list Version) (U : gset Version) :
  MaxLaws (Max reqs) ->
  (forall t, t ∈ targets -> t ∈ U) -> (forall m r, m ∈ U -> r ∈ needs reqs upgrade m -> r ∈ U) -> Z.of_nat (size U) < 2 ^ 62 ->
  NoDup (map Path targets) -> (forall t v, t ∈ targets -> Max reqs (Path t) (Vers t) v = Vers t) -> (forall m, m ∈ U -> Path m <> []) ->
  exists c0, Do 10 (Add_all targets zero_Work) (start reqs targets) = Done c0 /\
    sn (fun c c' => exists e, step (visit reqs upgrade) c e c') c0 /\
    exists res, result_ok reqs upgrade targets res /\ forall out, buildList reqs upgrade targets out <-> out = Done res.
Proof.
  intros HL HU1 HU2 HU3 HT1 HT2 HP.
  destruct (start_ends reqs upgrade targets) as [c0 Hd].
  exists c0. split; [done|]. eapply buildList_result in Hd as (? & _ & ?); eauto.
Qed.

(** ** The example *)

#[export] Instance str_max_laws : MaxLaws str_max.
Proof.
  assert (Hlt : forall a b, str_ltb a b = false -> a = b \/ str_ltb b a = true).
  { intros a b E. destruct (str_ltb b a) eqn:E'; [by right|left; by apply str_ltb_total]. }
  unfold str_max, str_eqb. split.
  - intros _ a b. repeat case_match; auto.
  - intros _ a b. repeat case_bool_decide; subst; cbn; try done.
    destruct (str_ltb a b) eqn:E; [by rewrite (str_ltb_asym _ _ E)|]. destruct (Hlt a b E) as [->| ->]; [by rewrite E|done].
  - intros _ a b c. destruct (str_ltb b c) eqn:E1, (str_ltb a b) eqn:E2, (str_ltb a c) eqn:E3;
      repeat (case_bool_decide; subst; cbn in *; try congruence; rewrite ?E1, ?E2, ?E3); try done.
    all: try (pose proof (str_ltb_trans _ _ _ E2 E1); congruence).
    destruct (Hlt _ _ E2) as [->|E4]; [congruence|]. destruct (Hlt _ _ E1) as [->|E5]; [congruence|].
    pose proof (str_ltb_trans _ _ _ E5 E4) as E6. by rewrite (str_ltb_asym _ _ E6) in E3.
  - intros _ a. repeat case_bool_decide; subst; done.
Qed.

Definition paper_modules : list Version :=
  [paper_main; mv "B" "v2"; mv "C" "v2"; mv "D" "v3"; mv "D" "v4"; mv "E" "v1"; mv "E" "v2"].
Lemma paper_all (P : Version -> Prop) : Forall P paper_modules -> forall m, m ∈ (list_to_set paper_modules : gset Version) -> P m.
Proof. rewrite Forall_forall. intros H m Hm%elem_of_list_to_set. by apply H. Qed.
Lemma paper_closed m r : m ∈ (list_to_set paper_modules : gset Version) -> r ∈ (Required paper m).1 -> r ∈ (list_to_set paper_modules : gset Version).
Proof.
  intros Hm. revert m Hm r. apply (paper_all (fun m => forall r, r ∈ (Required paper m).1 -> r ∈ (list_to_set paper_modules : gset Version))).
  assert (H : forall m, bool_decide (Forall (fun r => r ∈ paper_modules) (Required paper m).1) = true ->
    forall r, r ∈ (Required paper m).1 -> r ∈ (list_to_set paper_modules : gset Version)).
  { intros m Hm%bool_decide_eq_true r Hr. apply elem_of_list_to_set. rewrite Forall_forall in Hm. by apply Hm. }
  unfold paper_modules. repeat (apply Forall_cons; split); [..|by apply Forall_nil]; apply H; vm_compute; reflexivity.
Qed.
Lemma paper_main_max v : str_max (Path paper_main) (Vers paper_main) v = Vers paper_main.
Proof. unfold str_max, str_eqb. repeat case_bool_decide; cbn in *; by subst. Qed.

Lemma minimal_version_selection_witness :
  exists c0, Do 10 (Add_all [paper_main] zero_Work) (start paper [paper_main]) = Done c0 /\
    sn (fun c c' => exists e, step (visit paper None) c e c') c0 /\
    exists res, result_ok paper None [paper_main] res /\ forall out, buildList paper None [paper_main] out <-> out = Done res.
Proof.
  apply (minimal_version_selection paper None [paper_main] (list_to_set paper_modules)).
  - exact str_max_laws.
  - intros t ->%list_elem_of_singleton. by apply elem_of_list_to_set, list_elem_of_here.
  - intros m r Hm Hr. apply (paper_closed m); [exact Hm|]. revert Hr. unfold needs, upgraded. rewrite decide_True by done. cbn [app].
    case_decide; [set_solver|done].
  - vm_compute. reflexivity.
  - apply NoDup_singleton.
  - intros t v ->%list_elem_of_singleton. apply paper_main_max.
  - apply paper_all. unfold paper_modules. by repeat (apply Forall_cons; split).
Defined.
