(* ===== verification/MvsReq.v ===== *)
(** * cmd/go/internal/mvs: the minimal requirement list

    The two depth-first walks of [Req], what they visit and in which order, and the
    theorem on the list that [Req] returns. *)

From stdpp Require Import gmap relations.
From S2P Require Import Prelude.
From S2P Require Import Slice.
From S2P Require Import Text.
From S2P Require Import SortOrder.
From S2P Require Import Quicksort.
From S2P Require Import SortInterface.
From S2P Require Import Sort.
From S2P Require Import ModGover.
From S2P Require Import MvsGraph.
From S2P Require Import MvsGraphInv.
From S2P Require Import MvsSearch.
From S2P Require Import ParWork.
From S2P Require Import ParWorkTheorems.
From S2P Require Import Mvs.
From S2P Require Import MvsTheorems.

(** ** The first walk *)

Section Walk.
Context {error : Type} (reqs : Reqs error) (main : Version) (U : gset Version).
Implicit Types (m x y : Version) (l post : list Version) (cache : gmap Version (list Version)).

Definition succ m : list Version := (Required reqs m).1.
(** [U] is closed under the requirements of all modules but [main]. *)
Hypotheses (HU : forall m r, m ∈ U -> m <> main -> r ∈ succ m -> r ∈ U).
Hypotheses (HE : forall m, m ∈ U -> m <> main -> (Required reqs m).2 = None).

(** A rank that requirements lower exists when there is no cycle. *)
Context (ranked : Prop) (rank : Version -> nat).
Hypothesis (HR : ranked -> forall m r, m ∈ U -> m <> main -> r ∈ succ m -> r <> main -> (rank r < rank m)%nat).

Definition unvisited cache : nat := size (U ∖ dom cache).

(** From the cache and the postorder before a walk to those after it: the modules
    cached are those appended, with their requirements cached as well; those on the
    stack are cached and not appended. *)
Record Walked cache post cache' post' : Prop := {
  wk_sub x : x ∈ dom cache -> cache' !! x = cache !! x;
  wk_new : exists l, post' = post ++ l /\ NoDup l /\ (forall x, x ∈ dom cache' <-> x ∈ dom cache \/ x ∈ l) /\
    (forall x, x ∈ l -> x ∉ dom cache /\ x ∈ U /\ x <> main /\ cache' !! x = Some (succ x) /\ forall y, y ∈ succ x -> y ∈ dom cache');
  wk_order : ranked -> forall a x b, post' = a ++ x :: b -> (length post <= length a)%nat ->
    forall y, y ∈ succ x -> y ∈ a \/ y = main \/ (y ∈ dom cache /\ y ∉ post);
}.

Lemma Walked_refl cache post : Walked cache post cache post.
Proof.
  split; [done| |].
  - exists []. rewrite app_nil_r. split_and!; [done|constructor|set_solver|set_solver].
  - intros _ a x b -> Hl. rewrite length_app in Hl. cbn in Hl. lia.
Qed.
Lemma Walked_dom cache post cache' post' : Walked cache post cache' post' -> dom cache ⊆ dom cache'.
Proof. intros [_ (l & _ & _ & Hd & _) _]. set_solver. Qed.
Lemma Walked_trans cache post cache1 post1 cache2 post2 :
  Walked cache post cache1 post1 -> Walked cache1 post1 cache2 post2 -> Walked cache post cache2 post2.
Proof.
  intros W1 W2. pose proof (Walked_dom _ _ _ _ W1) as D1. pose proof (Walked_dom _ _ _ _ W2) as D2.
  destruct W1 as [S1 (l1 & E1 & N1 & I1 & P1) O1], W2 as [S2 (l2 & E2 & N2 & I2 & P2) O2]. split.
  - intros x Hx. rewrite <- S1 by done. apply S2. by apply D1.
  - exists (l1 ++ l2). split_and!; [by rewrite E2, E1, <- app_assoc| | |].
    + apply NoDup_app. split_and!; [done| |done]. intros x Hx1 Hx2. apply (proj1 (P2 x Hx2)). apply I1. by right.
    + intros x. rewrite I2, I1, elem_of_app. tauto.
    + intros x [Hx|Hx]%elem_of_app.
      * destruct (P1 x Hx) as (? & ? & ? & E & Hs). split_and!; try done; [rewrite S2; [done|apply I1; by right]|]. intros y Hy. by apply D2, Hs.
      * destruct (P2 x Hx) as (? & ? & ? & ? & ?). split_and!; try done. intros Hd. by apply D1 in Hd.
  - intros Hr a x b Ea Hl y Hy. destruct (decide (length post1 <= length a)%nat) as [Hl1|Hl1].
    + destruct (O2 Hr a x b Ea Hl1 y Hy) as [?|[?|[Hd Hn]]]; [by left|by right; left|]. apply I1 in Hd as [Hd|Hd].
      * right. right. split; [done|]. intros Hp. apply Hn. rewrite E1. set_solver.
      * destruct Hn. rewrite E1. set_solver.
    + assert (exists b', post1 = a ++ x :: b') as [b' Eb].
      { exists (take (length post1 - S (length a)) b). rewrite E2 in Ea. apply (f_equal (take (length post1))) in Ea.
        rewrite take_app_length in Ea. rewrite Ea at 1. rewrite take_app_ge by lia. f_equal.
        replace (length post1 - length a)%nat with (S (length post1 - S (length a))) by lia. done. }
      by apply (O1 Hr a x b' Eb Hl y Hy).
Qed.

(** What a walk does: it finishes the modules it caches, whose rank is at most that
    of some module of [l]. *)
Definition visits l cache post cache' post' : Prop :=
  Walked cache post cache' post' /\ (forall m, m ∈ l -> m ∈ dom cache') /\
  (ranked -> forall x, x ∈ dom cache' -> x ∉ dom cache -> exists m, m ∈ l /\ m <> main /\ (rank x <= rank m)%nat).
(** The modules on the stack, cached and not finished, have higher ranks. *)
Definition below_stack m cache post : Prop :=
  ranked -> forall y, y ∈ dom cache -> y ∉ post -> y <> main -> m <> main -> (rank m < rank y)%nat.

Definition walk_ok (n : nat) (w : Version -> M (gmap Version (list Version) * list Version) (option error)) : Prop :=
  forall m cache post, m ∈ U \/ m = main -> main ∈ dom cache -> (unvisited cache < n)%nat -> below_stack m cache post ->
    exists cache' post', w m (cache, post) = Done (None, (cache', post')) /\ visits [m] cache post cache' post'.

Lemma walk_each_spec n w : walk_ok n w ->
  forall l cache post, (forall m, m ∈ l -> m ∈ U \/ m = main) -> main ∈ dom cache -> (unvisited cache < n)%nat ->
    (forall m, m ∈ l -> below_stack m cache post) ->
    exists cache' post', walk_each w l (cache, post) = Done (None, (cache', post')) /\ visits l cache post cache' post'.
Proof.
  intros Hw. induction l as [|m l IH]; intros cache post Hl Hm Hn Hr.
  - exists cache, post. split; [done|]. split; [apply Walked_refl|]. split; [set_solver|done].
  - destruct (Hw m cache post) as (c1 & p1 & E1 & W1 & D1 & R1); [apply Hl; set_solver|done|done|apply Hr; set_solver|].
    pose proof (Walked_dom _ _ _ _ W1) as Hd.
    destruct (IH c1 p1) as (c2 & p2 & E2 & W2 & D2 & R2).
    + intros x Hx. apply Hl. set_solver.
    + by apply Hd.
    + unfold unvisited in *. assert (size (U ∖ dom c1) <= size (U ∖ dom cache))%nat by (apply subseteq_size; set_solver). lia.
    + intros x Hx Hrk y Hy Hny Hym Hxm. destruct W1 as [_ (l1 & -> & _ & I1 & _) _]. apply I1 in Hy as [Hy|Hy]; [|set_solver].
      apply (Hr x ltac:(set_solver) Hrk); [done|set_solver|done|done].
    + exists c2, p2. cbn. unfold mbind. rewrite E1. split; [done|]. split; [by eapply Walked_trans|]. split.
      * intros x [->|Hx]%elem_of_cons; [apply (Walked_dom _ _ _ _ W2), D1; set_solver|by apply D2].
      * intros Hrk x Hx Hnx. destruct (decide (x ∈ dom c1)) as [Hx1|Hx1].
        -- destruct (R1 Hrk x Hx1 Hnx) as (y & ->%list_elem_of_singleton & ? & ?). exists m. split; [set_solver|done].
        -- destruct (R2 Hrk x Hx Hx1) as (y & ? & ? & ?). exists y. split; [set_solver|done].
Qed.

(** The module whose requirements have been walked is finished. *)
Lemma visits_finish m cache post c1 p1 : m ∈ U -> m <> main -> m ∉ dom cache -> below_stack m cache post ->
  visits (succ m) (<[m := succ m]> cache) post c1 p1 -> visits [m] cache post c1 (p1 ++ [m]).
Proof.
  intros Hm Hne Hnd Hr ([S1 (l1 & -> & N1 & I1 & P1) O1] & D1 & R1).
  assert (Hrm : ranked -> forall y, y ∈ succ m -> y <> main -> (rank y < rank m)%nat) by (intros; by apply HR).
  split; [split|split].
  - intros x Hx. rewrite S1 by set_solver. by rewrite lookup_insert_ne by (intros ->; done).
  - exists (l1 ++ [m]). split_and!; [by rewrite app_assoc| | |].
    + apply NoDup_app. split_and!; [done| |apply NoDup_singleton]. intros x Hx ->%list_elem_of_singleton. apply (proj1 (P1 m Hx)). set_solver.
    + intros x. rewrite I1, dom_insert, elem_of_app. set_solver.
    + intros x [Hx| ->%list_elem_of_singleton]%elem_of_app.
      * destruct (P1 x Hx) as (? & ? & ? & ? & ?). split_and!; try done. set_solver.
      * split_and!; try done. rewrite S1 by set_solver. by rewrite lookup_insert_eq.
  - intros Hrk a x b Ea Hl y Hy. destruct (decide (y = main)) as [->|Hym]; [by right; left|].
    destruct b as [|b0 b _] using rev_ind.
    + apply app_inj_tail in Ea as [<- <-]. pose proof (D1 y Hy) as Hd. apply I1 in Hd as [Hd|Hd]; [|left; set_solver].
      rewrite dom_insert in Hd. pose proof (Hrm Hrk y Hy Hym) as Hyr. apply elem_of_union in Hd as [->%elem_of_singleton|Hd]; [lia|].
      destruct (decide (y ∈ post)) as [Hp|Hp]; [left; set_solver|]. specialize (Hr Hrk y Hd Hp Hym Hne). lia.
    + rewrite app_comm_cons, app_assoc in Ea. apply app_inj_tail in Ea as [Ea _].
      destruct (O1 Hrk a x b Ea Hl y Hy) as [?|[?|[Hd Hn']]]; [by left|by right; left|]. rewrite dom_insert in Hd.
      apply elem_of_union in Hd as [->%elem_of_singleton|Hd]; [|by right; right]. exfalso.
      assert (Hx1 : x ∈ l1).
      { assert (x ∈ drop (length post) (a ++ x :: b)) as Hx; [rewrite drop_app_le by done; set_solver|]. rewrite <- Ea, drop_app_length in Hx. done. }
      destruct (P1 x Hx1) as (Hxd & HxU & Hxm & _). pose proof (HR Hrk x m HxU Hxm Hy Hne) as Hlt.
      destruct (R1 Hrk x ltac:(apply I1; by right) Hxd) as (z & Hz & Hzm & Hle). pose proof (Hrm Hrk z Hz Hzm). lia.
  - intros x ->%list_elem_of_singleton. apply I1. left. set_solver.
  - intros Hrk x Hx Hnx. exists m. split; [set_solver|]. split; [done|]. destruct (decide (x = m)) as [->|Hxm]; [done|].
    destruct (R1 Hrk x Hx ltac:(set_solver)) as (z & Hz & Hzm & Hle). pose proof (Hrm Hrk z Hz Hzm). lia.
Qed.

Lemma walk_spec n : walk_ok n (walk n reqs).
Proof.
  induction n as [|n IH]; intros m cache post Hm Hmain Hn Hr; [lia|]. cbn [walk]. unfold mbind at 1, mget.
  destruct (cache !! m) as [l0|] eqn:Ec.
  { exists cache, post. split; [done|]. split; [apply Walked_refl|]. split; [|done].
    intros x ->%list_elem_of_singleton. by eapply elem_of_dom_2. }
  assert (Hnd : m ∉ dom cache) by (by apply not_elem_of_dom). assert (Hne : m <> main) by (by intros ->).
  destruct Hm as [Hm|Hm]; [|done]. pose proof (HE m Hm Hne) as He.
  assert (Er : Required reqs m = (succ m, None)) by (unfold succ; by rewrite <- He; destruct (Required reqs m)). rewrite Er.
  destruct (walk_each_spec n (walk n reqs) IH (succ m) (<[m := succ m]> cache) post) as (c1 & p1 & E1 & V1).
  - intros x Hx. left. by eapply HU.
  - set_solver.
  - unfold unvisited in *. assert (size (U ∖ dom (<[m:=succ m]> cache)) < size (U ∖ dom cache))%nat; [|lia]. apply subset_size. set_solver.
  - intros x Hx Hrk y Hy Hny Hym Hxm. assert (Hxr : (rank x < rank m)%nat) by (by apply (HR Hrk m x Hm Hne)).
    rewrite dom_insert in Hy. apply elem_of_union in Hy as [->%elem_of_singleton|Hy]; [done|]. specialize (Hr Hrk y Hy Hny Hym Hne). lia.
  - unfold mbind, mput. rewrite E1. unfold mmodify, mret. exists c1, (p1 ++ [m]). split; [done|]. by apply visits_finish.
Qed.
End Walk.

(** ** The second walk *)

Section Have.
Context (cache : gmap Version (list Version)) (V : gset Version).
Implicit Types (m x y : Version) (have : gset Version) (S : list Version).

Definition cedge x y : Prop := y ∈ default [] (cache !! x).
Hypothesis (HV : forall x y, x ∈ V -> cedge x y -> y ∈ V).

(** [have] is what the modules of [S] reach. *)
Definition covers have S : Prop := forall x, x ∈ have <-> exists m, m ∈ S /\ rtc cedge m x.

(** What a walk of the modules of [l] adds. *)
Definition grown (l : list Version) have have' : Prop :=
  have ⊆ have' /\ (forall m, m ∈ l -> m ∈ have') /\
  forall x, x ∈ have' -> x ∉ have -> (exists m, m ∈ l /\ rtc cedge m x) /\ forall y, cedge x y -> y ∈ have'.

Lemma walk_have_spec n : forall m have, m ∈ V -> (size (V ∖ have) < n)%nat ->
  exists have', walk_have n cache m have = Done (tt, have') /\ grown [m] have have'.
Proof.
  induction n as [|n IH]; intros m have Hm Hn; [lia|]. cbn [walk_have]. unfold mbind at 1, mget. case_decide as Hd.
  { exists have. split; [done|]. split; [done|]. split; [by intros x ->%list_elem_of_singleton|done]. }
  assert (Hl : forall l have, (forall x, x ∈ l -> x ∈ V) -> (size (V ∖ have) < n)%nat ->
    exists have', foldr (fun m1 k => walk_have n cache m1 ;; k) (mret tt) l have = Done (tt, have') /\ grown l have have').
  { induction l as [|m1 l IHl]; intros h Hl Hh; [exists h; split; [done|]; split; [done|]; split; [set_solver|done]|].
    destruct (IH m1 h) as (h1 & E1 & S1 & M1 & N1); [apply Hl; set_solver|done|].
    destruct (IHl h1) as (h2 & E2 & S2 & M2 & N2); [intros; apply Hl; set_solver| |].
    { assert (size (V ∖ h1) <= size (V ∖ h))%nat by (apply subseteq_size; set_solver). lia. }
    exists h2. cbn. unfold mbind. rewrite E1. split; [done|]. split; [set_solver|]. split.
    - intros x [->|Hx]%elem_of_cons; [apply S2, M1; set_solver|by apply M2].
    - intros x Hx Hnx. destruct (decide (x ∈ h1)) as [Hx1|Hx1].
      + destruct (N1 x Hx1 Hnx) as ((z & ->%list_elem_of_singleton & Hz) & Hc). split; [exists m1; set_solver|]. intros y Hy. by apply S2, Hc.
      + destruct (N2 x Hx Hx1) as ((z & Hz & Hzx) & Hc). split; [exists z; set_solver|done]. }
  destruct (Hl (default [] (cache !! m)) ({[m]} ∪ have)) as (h1 & E1 & S1 & M1 & N1).
  - intros x Hx. by apply (HV m).
  - assert (size (V ∖ ({[m]} ∪ have)) < size (V ∖ have))%nat; [|lia]. apply subset_size. set_solver.
  - exists h1. unfold mbind at 1, mput. split; [done|]. split; [set_solver|]. split; [set_solver|].
    intros x Hx Hnx. destruct (decide (x = m)) as [->|Hxm]; [split; [exists m; split; [set_solver|apply rtc_refl]|by intros y Hy; apply M1]|].
    destruct (N1 x Hx ltac:(set_solver)) as ((z & Hz & Hzx) & Hc). split; [exists m; split; [set_solver|by eapply rtc_l]|done].
Qed.

Lemma covers_closed have S x y : covers have S -> x ∈ have -> rtc cedge x y -> y ∈ have.
Proof. intros HC (m & Hm & Hx)%HC Hy. apply HC. exists m. split; [done|]. by etrans. Qed.
Lemma covers_grown have have' S m : covers have S -> grown [m] have have' -> covers have' (S ++ [m]).
Proof.
  intros HC (S1 & M1 & N1) x. split.
  - intros Hx. destruct (decide (x ∈ have)) as [Hh|Hh].
    + apply HC in Hh as (z & Hz & Hzx). exists z. split; [set_solver|done].
    + destruct (N1 x Hx Hh) as ((z & ->%list_elem_of_singleton & Hz) & _). exists m. split; [set_solver|done].
  - intros (z & [Hz| ->%list_elem_of_singleton]%elem_of_app & Hzx).
    + apply S1, HC. by exists z.
    + assert (Hcl : forall a b, a ∈ have' -> cedge a b -> b ∈ have').
      { intros a b Ha Hab. destruct (decide (a ∈ have)) as [Hh|Hh]; [|by apply (N1 a)]. apply S1. eapply covers_closed; [done|done|].
        by apply rtc_once. }
      assert (Hmh : m ∈ have') by (apply M1; set_solver). clear - Hzx Hcl Hmh. induction Hzx; eauto.
Qed.

(** ** The loops over the base and the postorder *)

Context (n : nat) (Hn : (size V < n)%nat) (max : gmap (list Z) (list Z)).
Definition of_path (p : list Z) : Version := MkVersion p (default [] (max !! p)).
Lemma size_have have : (size (V ∖ have) < n)%nat.
Proof. assert (size (V ∖ have) <= size V)%nat by (apply subseteq_size; set_solver). lia. Qed.

Record BaseInv (min : list Version) (hb : gset (list Z)) have : Prop := {
  bi_covers : covers have min;
  bi_min m : m ∈ min <-> Path m ∈ hb /\ m = of_path (Path m);
  bi_nodup : NoDup min;
}.
Lemma add_base_spec base : (forall p, p ∈ base -> of_path p ∈ V) ->
  exists min have, add_base n cache max base ∅ = Done (min, have) /\ BaseInv min (list_to_set base) have.
Proof.
  intros HB. unfold add_base.
  assert (Hl : forall base acc s0 min hb have, (forall p, p ∈ base -> of_path p ∈ V) -> acc s0 = Done ((min, hb), have) -> BaseInv min hb have ->
    exists min' have', foldl (fun acc path =>
             '(min, haveBase) <- acc ;;
             if decide (path ∈ haveBase) then mret (min, haveBase)
             else
               let m := MkVersion path (default [] (max !! path)) in
               walk_have n cache m ;;
               mret (min ++ [m], {[path]} ∪ haveBase)) acc base s0 = Done ((min', list_to_set base ∪ hb), have') /\
      BaseInv min' (list_to_set base ∪ hb) have').
  { clear base HB. induction base as [|p base IH]; intros acc s0 min hb have HB Ea HI.
    - exists min, have. cbn. rewrite (left_id_L ∅ (∪)). done.
    - cbn [foldl]. destruct (decide (p ∈ hb)) as [Hp|Hp].
      + replace (list_to_set (p :: base) ∪ hb) with (list_to_set base ∪ hb : gset (list Z)) by (apply leibniz_equiv; set_solver).
        eapply (IH _ s0 min hb have); [set_solver| |done]. unfold mbind at 1. rewrite Ea. by rewrite decide_True.
      + destruct (walk_have_spec n (of_path p) have) as (h1 & E1 & G1); [apply HB; set_solver|apply size_have|].
        replace (list_to_set (p :: base) ∪ hb) with (list_to_set base ∪ ({[p]} ∪ hb) : gset (list Z)) by (apply leibniz_equiv; set_solver).
        eapply (IH _ s0 (min ++ [of_path p]) ({[p]} ∪ hb) h1); [set_solver| |].
        * unfold mbind at 1. rewrite Ea, decide_False by done. unfold mbind. fold (of_path p). by rewrite E1.
        * destruct HI as [HC Hm Hnd]. split; [by eapply covers_grown| |].
          -- intros m. rewrite elem_of_app, list_elem_of_singleton, Hm, elem_of_union, elem_of_singleton. split.
             ++ intros [[? ?]| ->]; [auto|by split; [left|]].
             ++ intros [[->|?] E]; [right|left]; done.
          -- apply NoDup_app. split_and!; [done| |apply NoDup_singleton]. intros x Hx ->%list_elem_of_singleton. by apply Hm in Hx as [? _]. }
  destruct (Hl base (mret ([], ∅)) ∅ [] ∅ ∅ HB eq_refl) as (min & have & E & HI).
  { split; [|set_solver|constructor]. intros x. split; [set_solver|]. intros (m & Hm & _). set_solver. }
  exists min, have. unfold mbind at 1. cbv zeta in E. rewrite E. rewrite (right_id_L ∅ (∪)) in HI. done.
Qed.

Definition selected_ x : bool := str_eqb (default [] (max !! Path x)) (Vers x).
(** [post] in an order in which, when [ranked], a module comes after all it reaches. *)
Context (ranked : Prop) (post : list Version) (main : Version).
Hypotheses (Hpost : NoDup post) (HpV : forall x, x ∈ post -> x ∈ V /\ x <> main).
Hypothesis (Htopo : ranked -> forall a x b y, post = a ++ x :: b -> rtc cedge x y -> y = x \/ y ∈ a \/ y = main).

Record RestInv (min0 pr min : list Version) have : Prop := {
  ri_covers : covers have min;
  ri_done x : x ∈ pr -> selected_ x = true -> x ∈ have;
  ri_min m : m ∈ min -> m ∈ min0 \/ (m ∈ pr /\ selected_ m = true);
  ri_base m : m ∈ min0 -> m ∈ min;
  ri_nodup : NoDup min;
  ri_needed : ranked -> forall x m, x ∈ min -> x ∉ min0 -> m ∈ min -> m <> x -> ~ rtc cedge m x;
}.
Lemma RestInv_add min0 pr todo min have m h1 : rev post = (pr ++ [m]) ++ todo -> RestInv min0 pr min have -> selected_ m = true -> m ∉ have ->
  grown [m] have h1 -> RestInv min0 (pr ++ [m]) (min ++ [m]) h1.
Proof.
  intros Er [R1 R2 R3 R4 R5 R6] Es Hh G1. assert (Hmm : m ∉ min) by (intros Hm; apply Hh, R1; exists m; split; [done|apply rtc_refl]).
  split.
  - by eapply covers_grown.
  - destruct G1 as (S1 & M1 & _). intros x [Hx| ->%list_elem_of_singleton]%elem_of_app Hs; [by apply S1, R2|apply M1; set_solver].
  - intros x [Hx| ->%list_elem_of_singleton]%elem_of_app; [|right; set_solver]. destruct (R3 x Hx) as [?|[? ?]]; [by left|right; set_solver].
  - intros x Hx. apply elem_of_app. left. by apply R4.
  - apply NoDup_app. split_and!; [done| |apply NoDup_singleton]. intros x Hx ->%list_elem_of_singleton. done.
  - intros Hrk x z Hx Hx0 Hz Hzx Hr. apply elem_of_app in Hx as [Hx|Hx], Hz as [Hz|Hz].
    + by apply (R6 Hrk x z).
    + apply list_elem_of_singleton in Hz as ->. apply (f_equal (@rev Version)) in Er. rewrite rev_involutive, !rev_app_distr in Er. cbn in Er.
      destruct (R3 x Hx) as [?|[Hxp _]]; [done|]. assert (Hxr : x ∈ rev pr) by (by apply list_elem_of_In, in_rev; rewrite rev_involutive; apply list_elem_of_In).
      destruct (Htopo Hrk (rev todo) m (rev pr) x Er Hr) as [->|[Hxt| ->]].
      * done.
      * pose proof Hpost as Hnd. rewrite Er in Hnd. apply NoDup_app in Hnd as (_ & Hnd & _). apply (Hnd x Hxt). set_solver.
      * assert (main ∈ post) as Hmp by (rewrite Er; set_solver). by apply HpV in Hmp as [_ ?].
    + apply list_elem_of_singleton in Hx as ->. apply Hh, R1. by exists z.
    + apply list_elem_of_singleton in Hx as ->. by apply list_elem_of_singleton in Hz as ->.
Qed.
Lemma add_rest_spec min0 have0 : covers have0 min0 -> NoDup min0 ->
  exists min have, add_rest n cache max post min0 have0 = Done (min, have) /\ RestInv min0 post min have.
Proof.
  intros HC0 Hnd0. unfold add_rest.
  assert (Hl : forall todo pr acc min have, rev post = pr ++ todo -> acc have0 = Done (min, have) -> RestInv min0 pr min have ->
    exists min' have', foldl (fun acc m =>
           min <- acc ;;
           if negb (str_eqb (default [] (max !! Path m)) (Vers m)) then mret min
           else
             have <- mget ;;
             if decide (m ∈ have) then mret min
             else (walk_have n cache m ;; mret (min ++ [m]))) acc todo have0 = Done (min', have') /\ RestInv min0 (pr ++ todo) min' have').
  { induction todo as [|m todo IH]; intros pr acc min have Er Ea HI; [exists min, have; by rewrite app_nil_r|].
    cbn [foldl]. replace (pr ++ m :: todo) with ((pr ++ [m]) ++ todo) in * by (by rewrite <- app_assoc).
    assert (Hpm : m ∈ post).
    { apply list_elem_of_In, in_rev, list_elem_of_In. rewrite Er. set_solver. }
    pose proof HI as [R1 R2 R3 R4 R5 R6].
    assert (Hskip : (selected_ m = true -> m ∈ have) -> RestInv min0 (pr ++ [m]) min have).
    { intros Hs. split; try done.
      - intros x [Hx| ->%list_elem_of_singleton]%elem_of_app; auto.
      - intros x Hx. destruct (R3 x Hx) as [?|[? ?]]; [by left|right; set_solver]. }
    destruct (selected_ m) eqn:Es.
    2: { apply (IH (pr ++ [m]) _ min have Er); [|by apply Hskip]. unfold mbind at 1. rewrite Ea. unfold selected_ in Es. by rewrite Es. }
    destruct (decide (m ∈ have)) as [Hh|Hh].
    { apply (IH (pr ++ [m]) _ min have Er); [|by apply Hskip]. unfold mbind at 1. rewrite Ea. unfold selected_ in Es. rewrite Es. cbn.
      unfold mbind, mget. by rewrite decide_True. }
    destruct (walk_have_spec n m have) as (h1 & E1 & G1); [by apply HpV|apply size_have|].
    apply (IH (pr ++ [m]) _ (min ++ [m]) h1 Er).
    { unfold mbind at 1. rewrite Ea. unfold selected_ in Es. rewrite Es. cbn. unfold mbind, mget. rewrite decide_False by done. by rewrite E1. }
    eapply RestInv_add; eauto. }
  destruct (Hl (rev post) [] (mret min0) min0 have0 eq_refl eq_refl) as (min & have & E & HI).
  { split; try done; [set_solver|by left]. }
  exists min, have. split; [exact E|]. destruct HI as [R1 R2 R3 R4 R5 R6]. cbn in *. split; try done.
  - intros x Hx. apply R2. by apply list_elem_of_In, in_rev, list_elem_of_In in Hx || (apply list_elem_of_In, in_rev; rewrite rev_involutive; by apply list_elem_of_In).
  - intros m Hm. destruct (R3 m Hm) as [?|[Hr ?]]; [by left|right]. split; [|done]. by apply list_elem_of_In, in_rev, list_elem_of_In.
Qed.
End Have.

(** ** max *)

Lemma sorted_paths_NoDup (l : list Version) : StronglySorted path_lt l -> NoDup (map Path l).
Proof.
  intros Hs. induction Hs as [|x l Hs IH Hx]; cbn; constructor; [|done]. rewrite list_elem_of_fmap. intros (y & Ey & Hy).
  rewrite Forall_forall in Hx. specialize (Hx y Hy). unfold path_lt in Hx. by rewrite Ey, str_ltb_irrefl in Hx.
Qed.

Lemma max_of_app l m : max_of (l ++ [m]) = <[Path m := Vers m]> (max_of l).
Proof. unfold max_of. by rewrite foldl_app. Qed.
Lemma max_of_lookup l p v : NoDup (map Path l) -> max_of l !! p = Some v <-> MkVersion p v ∈ l.
Proof.
  induction l as [|m l IH] using rev_ind; intros Hnd; [split; [done|set_solver]|].
  rewrite map_app in Hnd. apply NoDup_app in Hnd as (Hnd & Hd & _). rewrite max_of_app, elem_of_app, list_elem_of_singleton.
  destruct (decide (p = Path m)) as [->|Hne].
  - rewrite lookup_insert_eq. split; [intros [= <-]; right; by destruct m|]. intros [Hin|<-]; [|done].
    exfalso. apply (Hd (Path m)); [|set_solver]. apply list_elem_of_fmap. by exists (MkVersion (Path m) v).
  - rewrite lookup_insert_ne, IH by done. split; [by left|]. by intros [?|<-].
Qed.
Lemma of_path_in l m : NoDup (map Path l) -> m ∈ l -> of_path (max_of l) (Path m) = m.
Proof.
  intros Hnd Hm. unfold of_path. destruct m as [p v]. apply max_of_lookup in Hm; [|done]. cbn. by rewrite Hm.
Qed.

(** ** The requirements with the main module's replaced *)

Section Req.
Context {error : Type} (reqs : Reqs error) `{HL : !MaxLaws (Max reqs)} (main : Version) (U : gset Version).
Implicit Types (m x y : Version) (L l min : list Version).
#[local] Notation succ := (succ reqs).
Hypotheses (HM : main ∈ U) (HU : forall m r, m ∈ U -> r ∈ succ m -> r ∈ U) (HN : forall m, m ∈ U -> Vers m = none -> Required reqs m = ([], None)).
Hypothesis (HT : forall v, Max reqs (Path main) (Vers main) v = Vers main).

(** A requirement of a module other than [main]. *)
Definition requires_ x y : Prop := x <> main /\ y ∈ succ x.

Lemma main_version : Vers main <> none.
Proof. intros E. pose proof (HT []) as H. rewrite E, max_comm, max_none in H. done. Qed.
Lemma needs_succ m : m ∈ U -> needs reqs None m = succ m /\ fails reqs None m = (Required reqs m).2.
Proof.
  intros Hm. change (succ m) with ((Required reqs m).1). unfold needs, fails, upgraded. rewrite decide_True by done. cbn [app].
  case_decide as Hv; [by rewrite HN|]. by destruct ((Required reqs m).2).
Qed.
Lemma needs_override L m : m ∈ U -> needs (override main L reqs) None m = (if decide (m = main) then L else succ m) /\
  fails (override main L reqs) None m = if decide (m = main) then None else (Required reqs m).2.
Proof.
  intros Hm. destruct (needs_succ m Hm) as [E1 E2]. unfold needs, fails, upgraded in *. rewrite decide_True in * by done. cbn in *.
  destruct (decide (m = main)) as [->|Hne]; [|done]. by rewrite !decide_False by apply main_version.
Qed.

Lemma needed_succ m : needed reqs None [main] m -> m ∈ U.
Proof.
  intros [l Hl]. induction Hl as [r ->%list_elem_of_singleton|l a b Hl IH Hb]; [done|]. apply (HU a); [done|].
  by rewrite (proj1 (needs_succ a IH)) in Hb.
Qed.
Lemma needed_step x y : needed reqs None [main] x -> y ∈ succ x -> needed reqs None [main] y.
Proof.
  intros Hx Hy. pose proof (needed_succ x Hx) as HxU. destruct Hx as [l Hl]. exists (l ++ [y]). eapply rpath_step; [done|].
  by rewrite (proj1 (needs_succ x HxU)).
Qed.
Lemma requires_U x y : rtc requires_ x y -> x ∈ U -> y ∈ U.
Proof. induction 1 as [|x y z [_ H] _ IH]; [done|]. intros Hx. by eapply IH, HU. Qed.
Lemma needed_override L m : (forall x, x ∈ L -> x ∈ U) ->
  needed (override main L reqs) None [main] m <-> m = main \/ exists x, x ∈ L /\ rtc requires_ x m.
Proof.
  intros HLU. split.
  - intros [l Hl]. induction Hl as [r ->%list_elem_of_singleton|l a b Hl IH Hb]; [by left|right].
    assert (Ha : a ∈ U) by (destruct IH as [->|(x & Hx & Hr)]; [done|by eapply requires_U, HLU]).
    rewrite (proj1 (needs_override L a Ha)) in Hb. case_decide as Hd; [exists b; split; [done|apply rtc_refl]|].
    destruct IH as [->|(x & Hx & Hr)]; [done|]. exists x. split; [done|]. by eapply rtc_r.
  - assert (H0 : needed (override main L reqs) None [main] main) by (exists [main]; constructor; set_solver).
    intros [->|(x & Hx & Hr)]; [done|]. assert (Hxn : needed (override main L reqs) None [main] x).
    { destruct H0 as [l Hl]. exists (l ++ [x]). eapply rpath_step; [done|]. rewrite (proj1 (needs_override L main HM)). by rewrite decide_True. }
    pose proof (HLU x Hx) as HxU. clear Hx H0. induction Hr as [|x y z [Hne Hy] Hr IH]; [done|].
    apply IH; [|by eapply HU]. destruct Hxn as [l Hl]. exists (l ++ [y]). eapply rpath_step; [done|].
    rewrite (proj1 (needs_override L x HxU)). by rewrite decide_False.
Qed.

(** ** The list *)

Context (l : list Version) (Hl : result_ok reqs None [main] (inl l)).
Lemma list_facts :
  NoDup (map Path l) /\ main ∈ l /\ (forall m, m ∈ l -> highest reqs None [main] m) /\
  (forall m, needed reqs None [main] m -> Vers m <> none -> exists m', m' ∈ l /\ Path m' = Path m) /\
  (forall m, needed reqs None [main] m -> (Required reqs m).2 = None).
Proof using Hl HL HM HN HT HU reqs main U l.
  destruct Hl as (Hf & rest & -> & Hs & Hin & Hmet). split; [|split; [set_solver|split; [|split]]].
  - cbn. apply NoDup_cons. split; [|by apply sorted_paths_NoDup].
    rewrite list_elem_of_fmap. intros (m & Em & Hm). apply Hin in Hm as [_ Hm]. apply (Hm main); [set_solver|done].
  - intros m [->%list_elem_of_singleton|Hm]%elem_of_app; [|by apply Hin in Hm as [? _]]. split; [|split; [by apply main_version|]].
    + exists [main]. constructor. set_solver.
    + intros m' _ _. rewrite max_comm. apply HT.
  - intros m Hm Hv. destruct (Hmet m Hm Hv) as (m' & ? & ? & _). by exists m'.
  - intros m Hm. rewrite <- (proj2 (needs_succ m (needed_succ m Hm))). by apply Hf.
Qed.
Lemma list_needed m : m ∈ l -> needed reqs None [main] m.
Proof. intros Hm. destruct list_facts as (_ & _ & Hh & _). by apply Hh. Qed.

Context (N : gset Version) (HNn : forall x, x ∈ N <-> needed reqs None [main] x).
Context (fuel : nat) (Hfuel : (size N < fuel)%nat) (rank : Version -> nat).
Definition ranked : Prop := forall m r, m ∈ U -> m <> main -> r ∈ succ m -> r <> main -> (rank r < rank m)%nat.

(** What the first walk leaves. *)
Record Visited (cache : gmap Version (list Version)) (post : list Version) : Prop := {
  vi_nodup : NoDup post;
  vi_dom x : x ∈ dom cache <-> x = main \/ x ∈ post;
  vi_main : cache !! main = Some [];
  vi_post x : x ∈ post -> x ∈ N /\ x <> main /\ cache !! x = Some (succ x) /\ forall y, y ∈ succ x -> y ∈ dom cache;
  vi_list x : x ∈ l -> x ∈ dom cache;
  vi_order : ranked -> forall a x b y, post = a ++ x :: b -> rtc (cedge cache) x y -> y = x \/ y ∈ a \/ y = main;
}.
Lemma cedge_main cache y : cache !! main = Some [] -> rtc (cedge cache) main y -> y = main.
Proof. intros Hm Hr. inversion Hr as [|x z ? Hz _]; [done|]. subst. unfold cedge in Hz. rewrite Hm in Hz. cbn in Hz. set_solver. Qed.
Lemma first_walk : exists cache post, walk_each (walk fuel reqs) l ({[main := []]}, []) = Done (None, (cache, post)) /\ Visited cache post.
Proof using Hl HL HM HN HT HU HNn Hfuel.
  destruct list_facts as (_ & _ & _ & _ & HE).
  assert (H1 : forall m r, m ∈ N -> m <> main -> r ∈ succ m -> r ∈ N).
  { intros m r Hm _ Hr. apply HNn. apply HNn in Hm. by eapply needed_step. }
  assert (H2 : forall m, m ∈ N -> m <> main -> (Required reqs m).2 = None) by (intros m Hm _; by apply HE, HNn).
  assert (H3 : ranked -> forall m r, m ∈ N -> m <> main -> r ∈ succ m -> r <> main -> (rank r < rank m)%nat).
  { intros Hrk m r Hm. apply Hrk. by apply needed_succ, HNn. }
  destruct (walk_each_spec reqs main N H1 H2 ranked rank H3 fuel _ (walk_spec reqs main N H1 H2 ranked rank H3 fuel) l {[main := []]} [])
    as (cache & post & E & [S (p & -> & Np & Ip & Pp) O] & D & _).
  - intros m Hm. left. by apply HNn, list_needed.
  - set_solver.
  - unfold unvisited. assert (size (N ∖ dom ({[main := []]} : gmap Version (list Version))) <= size N)%nat by (apply subseteq_size; set_solver). lia.
  - intros m _ Hrk y Hy _ Hym. set_solver.
  - exists cache, p. split; [done|]. cbn in *. assert (Hmain : cache !! main = Some []) by (rewrite S by set_solver; by rewrite lookup_singleton_eq).
    split; try done.
    + intros x. rewrite Ip. set_solver.
    + intros x Hx. destruct (Pp x Hx) as (_ & ? & ? & ? & ?). done.
    + intros Hrk a. induction a as [a IH] using (induction_ltof1 _ (@length Version)). unfold ltof in IH. intros x b y Ea Hr.
      apply rtc_inv in Hr as [->|(z & Hz & Hr)]; [by left|]. unfold cedge in Hz. destruct (Pp x) as (_ & _ & _ & Ex & _); [rewrite Ea; set_solver|].
      rewrite Ex in Hz. cbn in Hz. destruct (O Hrk a x b Ea ltac:(lia) z Hz) as [Hza|[->|[Hd _]]].
      * apply list_elem_of_split in Hza as (a1 & a2 & ->). rewrite <- app_assoc in Ea. right.
        destruct (IH a1 ltac:(rewrite length_app; cbn; lia) z _ y Ea Hr) as [->|[?|?]]; [left; set_solver|left; set_solver|by right].
      * right. right. by eapply cedge_main.
      * assert (z = main) as -> by set_solver. right. right. by eapply cedge_main.
Qed.

(** [min], before it is sorted, and after. *)
Context (base : list (list Z)) (Hbase : forall p, p ∈ base -> p <> Path main /\ exists m, m ∈ l /\ Path m = p).
Record Minimal (min : list Version) : Prop := {
  mi_list m : m ∈ min -> m ∈ l /\ m <> main;
  mi_base p : p ∈ base -> exists m, m ∈ min /\ Path m = p;
  mi_all m : m ∈ l -> m = main \/ exists x, x ∈ min /\ rtc requires_ x m;
  mi_needed : ranked -> forall m x, m ∈ min -> Path m ∉ base -> x ∈ min -> x <> m -> ~ rtc requires_ x m;
}.
Lemma cedge_requires cache post x y : Visited cache post -> x ∈ dom cache -> rtc (cedge cache) x y <-> rtc requires_ x y.
Proof.
  intros Hv Hx. assert (He : forall a b, a ∈ dom cache -> cedge cache a b <-> requires_ a b).
  { intros a b [->|Ha]%(vi_dom _ _ Hv); unfold cedge, requires_.
    - rewrite (vi_main _ _ Hv). cbn. split; [set_solver|by intros [? _]].
    - destruct (vi_post _ _ Hv a Ha) as (_ & Hne & -> & _). cbn. naive_solver. }
  assert (Hc : forall a b, a ∈ dom cache -> cedge cache a b -> b ∈ dom cache).
  { intros a b [->|Ha]%(vi_dom _ _ Hv); unfold cedge; [rewrite (vi_main _ _ Hv); cbn; set_solver|].
    destruct (vi_post _ _ Hv a Ha) as (_ & _ & -> & Hs). apply Hs. }
  split; intros Hr; induction Hr as [|a b c Hab Hr IH]; try apply rtc_refl.
  - eapply rtc_l; [by apply He|]. apply IH. by eapply Hc.
  - apply He in Hab; [|done]. eapply rtc_l; [done|]. apply IH. by eapply Hc.
Qed.
Lemma selected_in_list cache post x : Visited cache post -> x ∈ post -> selected_ (max_of l) x = true -> x ∈ l.
Proof using Hl HL HM HN HT HU HNn.
  intros Hv Hx Hs. destruct list_facts as (Hnd & _ & Hh & Hall & _). unfold selected_, str_eqb in Hs. apply bool_decide_eq_true in Hs.
  destruct (vi_post _ _ Hv x Hx) as (HxN & _). apply HNn in HxN.
  destruct (max_of l !! Path x) as [v|] eqn:E; cbn in Hs; unfold id in Hs.
  - apply max_of_lookup in E; [|done]. subst v. by destruct x.
  - exfalso. destruct (Hall x HxN) as (m & Hm & Em); [by rewrite <- Hs|]. destruct m as [p v]. cbn in Em. subst p.
    apply max_of_lookup in Hm; [|done]. congruence.
Qed.
Lemma min_loops cache post : Visited cache post ->
  exists min have, (min <- add_base fuel cache (max_of l) base ;; add_rest fuel cache (max_of l) post min) ∅ = Done (min, have) /\
    NoDup min /\ Minimal min.
Proof using Hl HL HM HN HT HU HNn Hfuel Hbase.
  intros Hv. destruct list_facts as (Hnd & Hml & Hh & Hall & _).
  assert (Hclosed : forall x y, x ∈ dom cache -> cedge cache x y -> y ∈ dom cache).
  { intros a b [->|Ha]%(vi_dom _ _ Hv); unfold cedge; [rewrite (vi_main _ _ Hv); cbn; set_solver|].
    destruct (vi_post _ _ Hv a Ha) as (_ & _ & -> & Hs). apply Hs. }
  assert (Hsize : (size (dom cache) < fuel)%nat).
  { assert (size (dom cache) <= size N)%nat; [|lia]. apply subseteq_size. intros x [->|Hx]%(vi_dom _ _ Hv); [by apply HNn, list_needed|].
    by apply (vi_post _ _ Hv) in Hx as [? _]. }
  destruct (add_base_spec cache (dom cache) Hclosed fuel Hsize (max_of l) base) as (min0 & have0 & E0 & HB).
  { intros p [_ (m & Hm & <-)]%Hbase. rewrite of_path_in by done. by apply (vi_list _ _ Hv). }
  destruct (add_rest_spec cache (dom cache) Hclosed fuel Hsize (max_of l) ranked post main) with (min0 := min0) (have0 := have0) as (min & have & E & HR).
  { apply (vi_nodup _ _ Hv). }
  { intros x Hx. split; [apply (vi_dom _ _ Hv); by right|]. by apply (vi_post _ _ Hv) in Hx as (_ & ? & _). }
  { apply (vi_order _ _ Hv). }
  { by destruct HB. }
  { by destruct HB. }
  exists min, have. unfold mbind. rewrite E0. split; [done|]. destruct HB as [B1 B2 B3], HR as [R1 R2 R3 R4 R5 R6]. split; [done|].
  assert (H0 : forall m, m ∈ min0 <-> exists p, p ∈ base /\ m = of_path (max_of l) p).
  { intros m. rewrite B2, elem_of_list_to_set. split; [intros [? ?]; by exists (Path m)|]. by intros (p & Hp & ->). }
  assert (Hin : forall m, m ∈ min -> m ∈ l /\ m <> main).
  { intros m [(p & [Hp (x & Hx & <-)]%Hbase & ->)%H0|[Hm Hs]]%R3.
    - rewrite of_path_in by done. split; [done|]. by intros ->.
    - split; [by eapply selected_in_list|]. by apply (vi_post _ _ Hv) in Hm as (_ & ? & _). }
  split; [done| | |].
  - intros p Hp. exists (of_path (max_of l) p). split; [|done]. apply R4, H0. by exists p.
  - intros m Hm. destruct (proj1 (vi_dom _ _ Hv m) (vi_list _ _ Hv m Hm)) as [->|Hp]; [by left|right].
    assert (m ∈ have) as Hhave.
    { apply R2; [done|]. unfold selected_, str_eqb. apply bool_decide_eq_true. pose proof (of_path_in l m Hnd Hm) as E'. unfold of_path in E'. by rewrite <- E'. }
    apply R1 in Hhave as (x & Hx & Hr). exists x. split; [done|]. apply (cedge_requires cache post); [done| |done].
    apply (vi_list _ _ Hv). by apply Hin.
  - intros Hrk m x Hm Hb Hx Hxm Hr. apply (R6 Hrk m x); try done.
    + intros Hm0. apply B2 in Hm0 as [Hm0 _]. apply elem_of_list_to_set in Hm0. done.
    + apply (cedge_requires cache post); [done| |done]. apply (vi_list _ _ Hv). by apply Hin.
Qed.

Lemma sort_by_path (min : list Version) : NoDup (map Path min) -> zlen min < 2 ^ 62 ->
  exists min', exec (Slice_ (fun i j => x <- load i ;; y <- load j ;; mret (str_ltb (Path x) (Path y)))) min = Done min' /\
    min' ≡ₚ min /\ StronglySorted path_lt min'.
Proof.
  intros Hnd Hlen. destruct (Slice_sorts (fun a b => str_ltb (Path a) (Path b))
    (fun i j => x <- load i ;; y <- load j ;; mret (str_ltb (Path x) (Path y))) min) as (l' & E & Hp & Hs); [done| |].
  - intros l1 i j x y _ Hx Hy. unfold mbind, load. by rewrite Hx, Hy.
  - exists l'. split; [unfold exec; by rewrite E|]. split; [done|]. specialize (Hs path_StrictWeak).
    apply sorted_paths_strict; [by rewrite Hp|done].
Qed.
Lemma Minimal_perm (min min' : list Version) : min ≡ₚ min' -> Minimal min -> Minimal min'.
Proof. intros Hp [M1 M2 M3 M4]. split; setoid_rewrite <- Hp; assumption. Qed.
Lemma Req_from_spec : zlen l < 2 ^ 62 ->
  exists min, Req_from fuel main base reqs l = Done (inl min) /\ StronglySorted path_lt min /\ Minimal min.
Proof using Hl HL HM HN HT HU HNn Hfuel Hbase.
  intros Hlen. destruct first_walk as (cache & post & E1 & Hv). destruct (min_loops cache post Hv) as (min & have & E2 & Hnd & HMin).
  destruct list_facts as (Hndl & _).
  assert (Hsub : exists r, l ≡ₚ min ++ r).
  { apply submseteq_Permutation, NoDup_submseteq; [done|]. intros m Hm. by apply (mi_list _ HMin). }
  destruct Hsub as [r Hsub]. destruct (sort_by_path min) as (min' & E3 & Hp & Hs).
  - rewrite Hsub, map_app in Hndl. by apply NoDup_app in Hndl as [? _].
  - apply Permutation_length in Hsub. rewrite length_app in Hsub. unfold zlen in *. lia.
  - exists min'. unfold Req_from. cbv zeta. rewrite E1. unfold result. rewrite E2. cbn [obind fst]. rewrite E3. split; [done|]. split; [done|].
    by eapply Minimal_perm.
Qed.

(** With [min] for the requirements of the main module, the build list is the same. *)
Lemma override_list min res : Minimal min -> result_ok (override main min reqs) None [main] res -> res = inl l.
Proof using Hl HL HM HN HT HU Hbase.
  intros HMin Hres. destruct list_facts as (Hnd & Hml & Hh & Hall & HE).
  assert (Hsub : forall x, x ∈ min -> needed reqs None [main] x) by (intros x Hx; by apply list_needed, (mi_list _ HMin)).
  assert (HminU : forall x, x ∈ min -> x ∈ U) by (intros; by apply needed_succ, Hsub).
  assert (Hn : forall m, needed (override main min reqs) None [main] m -> needed reqs None [main] m).
  { intros m [->|(x & Hx & Hr)]%needed_override; [by apply Hh| |done]. apply Hsub in Hx. induction Hr as [|a b c [_ Hab] Hr IH]; [done|].
    apply IH. by eapply needed_step. }
  assert (Hnl : forall m, m ∈ l -> needed (override main min reqs) None [main] m).
  { intros m Hm. apply needed_override; [done|]. by apply (mi_all _ HMin). }
  assert (Hhigh : forall m, highest (override main min reqs) None [main] m <-> highest reqs None [main] m).
  { assert (Hin : forall m, highest reqs None [main] m -> m ∈ l).
    { intros m (H1 & H2 & H3). destruct (Hall m H1 H2) as (m' & Hm' & Em). destruct (Hh m' Hm') as (N1 & _ & X1).
      pose proof (H3 m' N1 Em) as E1. pose proof (X1 m H1 (eq_sym Em)) as E2. rewrite Em, max_comm, E1 in E2.
      destruct m as [p v], m' as [p' v']. cbn in *. by subst. }
    intros m. split.
    - intros (H1 & H2 & H3). destruct (Hall m (Hn m H1) H2) as (m' & Hm' & Em). destruct (Hh m' Hm') as (N1 & N2 & X1).
      pose proof (H3 m' (Hnl m' Hm') Em) as E1. pose proof (X1 m (Hn m H1) (eq_sym Em)) as E2. cbn in E1. rewrite Em, max_comm, E1 in E2.
      assert (m' = m) as -> by (destruct m as [p v], m' as [p' v']; cbn in *; by subst). by apply Hh.
    - intros H. pose proof (Hin m H) as Hm. destruct H as (_ & H2 & H3). split; [by apply Hnl|]. split; [done|]. intros m' Hm'. by apply H3, Hn. }
  destruct res as [l'|e].
  - destruct Hres as (_ & rest' & -> & Hs' & Hin' & _). destruct Hl as (_ & rest & -> & Hs & Hin & _). do 2 f_equal.
    apply sorted_rest_unique; [done|done|]. intros m. rewrite Hin, Hin'. by setoid_rewrite Hhigh.
  - destruct Hres as (p & m & Hp & Hf & _). assert (needed (override main min reqs) None [main] m) as Hm by (by exists p).
    exfalso. apply Hn in Hm. rewrite (proj2 (needs_override min m (needed_succ m Hm))) in Hf. case_decide; [done|]. by rewrite HE in Hf.
Qed.
End Req.

Section BuildLists.
Context {error : Type} (reqs : Reqs error) `{HL : !MaxLaws (Max reqs)} (main : Version) (U : gset Version).
Hypotheses (HM : main ∈ U) (HU : forall m r, m ∈ U -> r ∈ succ reqs m -> r ∈ U) (HS : Z.of_nat (size U) < 2 ^ 62).
Hypotheses (HT : forall v, Max reqs (Path main) (Vers main) v = Vers main) (HP : forall m, m ∈ U -> Path m <> []).
Hypothesis (HN : forall m, m ∈ U -> Vers m = none -> Required reqs m = ([], None)).

Lemma main_build_list (R : Reqs error) : Max R = Max reqs -> (forall m r, m ∈ U -> r ∈ needs R None m -> r ∈ U) ->
  (exists N : gset Version, forall x, x ∈ N <-> needed R None [main] x) /\
  exists res, result_ok R None [main] res /\ forall out, BuildList [main] R out <-> out = Done res.
Proof using HL HM HS HT HP.
  intros EM HR. assert (MaxLaws (Max R)) by (by rewrite EM). destruct (start_ends R None [main]) as [c0 Hd].
  destruct (buildList_result R None [main] U) with (c0 := c0) as (_ & HNn & Hres); try done.
  - by intros t ->%list_elem_of_singleton.
  - apply NoDup_singleton.
  - intros t v ->%list_elem_of_singleton. by rewrite EM.
Qed.
Lemma needs_in_U m r : m ∈ U -> r ∈ needs reqs None m -> r ∈ U.
Proof using HN HU. intros Hm. rewrite (proj1 (needs_succ reqs U HN m Hm)). by apply HU. Qed.
Lemma override_in_U L m r : (forall x, x ∈ L -> x ∈ U) -> m ∈ U -> r ∈ needs (override main L reqs) None m -> r ∈ U.
Proof using HL HM HN HU HT. intros HLU Hm. rewrite (proj1 (needs_override reqs main U HN HT L m Hm)). case_decide; [apply HLU|by apply HU]. Qed.

Lemma list_length l : result_ok reqs None [main] (inl l) -> zlen l < 2 ^ 62.
Proof using HL HM HN HU HS HT.
  intros Hl. destruct (list_facts reqs main U HM HU HN HT l Hl) as (Hnd & _ & Hh & _).
  assert (Hsub : (list_to_set l : gset Version) ⊆ U).
  { intros m Hm%elem_of_list_to_set. eapply (needed_succ reqs main U); [done..|]. by apply Hh. }
  apply subseteq_size in Hsub. rewrite size_list_to_set in Hsub; [unfold zlen; lia|]. by eapply NoDup_fmap_1.
Qed.
End BuildLists.

(** C7: the minimal requirement list.  Under the conditions of the build list, for
    base paths of modules that are needed and with fuel above the number of modules,
    [Req] has one and the same result for every schedule, without a panic: the error
    of [BuildList], or a list [min], sorted by path, of modules of the build list [l]
    other than the main one.  It has a module for each base path, and with [min] for the
    main module's requirements the build list is [l] again.  When the requirements
    have no cycle ([rank] decreases along them), no module of [min] outside the base
    can be left out: without it the others do not need it. *)
Theorem Req_minimal {error} (reqs : Reqs error) (main : Version) (base : list (list Z)) (U : gset Version) (fuel : nat) (rank : Version -> nat) :
  MaxLaws (Max reqs) ->
  main ∈ U -> (forall m r, m ∈ U -> r ∈ succ reqs m -> r ∈ U) -> Z.of_nat (size U) < 2 ^ 62 -> (size U < fuel)%nat ->
  (forall v, Max reqs (Path main) (Vers main) v = Vers main) -> (forall m, m ∈ U -> Path m <> []) ->
  (forall m, m ∈ U -> Vers m = none -> Required reqs m = ([], None)) ->
  (forall p, p ∈ base -> p <> Path main /\ exists m, needed reqs None [main] m /\ Vers m <> none /\ Path m = p) ->
  exists res, (forall out, Req fuel main base reqs out <-> out = Done res) /\
    match res with
    | inr (inl e) => forall out, BuildList [main] reqs out <-> out = Done (inr e)
    | inr (inr _) => False
    | inl min =>
        StronglySorted path_lt min /\ (forall p, p ∈ base -> exists m, m ∈ min /\ Path m = p) /\
        exists l, (forall out, BuildList [main] reqs out <-> out = Done (inl l)) /\
          (forall m, m ∈ min -> m ∈ l /\ m <> main) /\
          (forall out, BuildList [main] (override main min reqs) out <-> out = Done (inl l)) /\
          (ranked reqs main U rank -> forall m, m ∈ min -> Path m ∉ base ->
             ~ needed (override main (filter (fun x => x <> m) min) reqs) None [main] m)
    end.
Proof.
  intros HL HM HU HS Hfuel HT HP HN Hbase.
  destruct (main_build_list reqs main U HM HS HT HP reqs eq_refl (needs_in_U reqs U HU HN)) as ([N HNn] & res & Hres & Hb).
  assert (HNU : (size N < fuel)%nat).
  { assert (size N <= size U)%nat; [|lia]. apply subseteq_size. intros x Hx%HNn. by eapply (needed_succ reqs main U). }
  destruct res as [l|e].
  2: { exists (inr (inl e)). split; [|done]. intros out. split; [intros (b & ->%Hb & ->); done|]. intros ->. exists (Done (inr e)). split; [by apply Hb|done]. }
  assert (Hbl : forall p, p ∈ base -> p <> Path main /\ exists m, m ∈ l /\ Path m = p).
  { intros p Hp. destruct (Hbase p Hp) as (Hne & m & Hm & Hv & <-). split; [done|].
    destruct (list_facts reqs main U HM HU HN HT l Hres) as (_ & _ & _ & Hall & _). destruct (Hall m Hm Hv) as (m' & ? & ?). by exists m'. }
  destruct (Req_from_spec reqs main U HM HU HN HT l Hres N HNn fuel HNU rank base Hbl (list_length reqs main U HM HU HS HT HN l Hres))
    as (min & E & Hs & HMin).
  exists (inl min). split.
  { intros out. split.
    - intros (b & ->%Hb & ->). cbn [obind]. by rewrite E.
    - intros ->. exists (Done (inl l)). split; [by apply Hb|]. cbn [obind]. by rewrite E. }
  assert (HminU : forall x, x ∈ min -> x ∈ U).
  { intros x Hx. eapply (needed_succ reqs main U HM HU HN), list_needed; [done..|]. by apply (mi_list _ _ _ _ _ _ _ HMin). }
  split; [done|]. split; [apply (mi_base _ _ _ _ _ _ _ HMin)|]. exists l. split; [done|]. split; [apply (mi_list _ _ _ _ _ _ _ HMin)|]. split.
  - destruct (main_build_list reqs main U HM HS HT HP (override main min reqs) eq_refl) as (_ & res' & Hres' & Hb').
    { intros m r. by apply override_in_U. }
    by rewrite (override_list reqs main U HM HU HN HT l Hres rank base Hbl min res' HMin Hres') in Hb'.
  - intros Hrk m Hm Hmb Hn. apply (needed_override reqs main U HM HU HN HT) in Hn.
    + destruct Hn as [->|(x & [Hxm Hx]%list_elem_of_filter & Hr)]; [by apply (mi_list _ _ _ _ _ _ _ HMin) in Hm as [_ ?]|].
      by apply (mi_needed _ _ _ _ _ _ _ HMin Hrk m x).
    + intros x [_ Hx]%list_elem_of_filter. by apply HminU.
Qed.

Definition paper_rank (m : Version) : nat :=
  if decide (Path m = bytes "A") then 3 else if decide (Path m = bytes "E") then 0 else if decide (Path m = bytes "D") then 1 else 2.
Lemma paper_needs_C : needed paper None [paper_main] (mv "C" "v2").
Proof.
  exists ([paper_main] ++ [mv "C" "v2"]). eapply rpath_step; [apply rpath_root, list_elem_of_here|].
  apply (bool_decide_eq_true_1 (mv "C" "v2" ∈ needs paper None paper_main)). vm_compute. reflexivity.
Qed.
Lemma paper_ranked : ranked paper paper_main (list_to_set paper_modules) paper_rank.
Proof.
  intros m r Hm _ Hr _. revert m Hm r Hr. apply (paper_all (fun m => forall r, r ∈ succ paper m -> (paper_rank r < paper_rank m)%nat)).
  assert (H : forall m, forallb (fun r => paper_rank r <? paper_rank m)%nat (succ paper m) = true -> forall r, r ∈ succ paper m -> (paper_rank r < paper_rank m)%nat).
  { intros m H r Hr. rewrite forallb_forall in H. apply Nat.ltb_lt, H. by apply list_elem_of_In. }
  unfold paper_modules. repeat (apply Forall_cons; split); [..|by apply Forall_nil]; apply H; vm_compute; reflexivity.
Qed.

Lemma Req_minimal_witness :
  exists res, (forall out, Req 9 paper_main [bytes "C"] paper out <-> out = Done res) /\
    match res with
    | inr (inl e) => forall out, BuildList [paper_main] paper out <-> out = Done (inr e)
    | inr (inr _) => False
    | inl min =>
        exists l, (forall out, BuildList [paper_main] paper out <-> out = Done (inl l)) /\
          (forall out, BuildList [paper_main] (override paper_main min paper) out <-> out = Done (inl l)) /\
          (forall m, m ∈ min -> Path m ∉ [bytes "C"] ->
             ~ needed (override paper_main (filter (fun x => x <> m) min) paper) None [paper_main] m)
    end.
Proof.
  destruct (Req_minimal paper paper_main [bytes "C"] (list_to_set paper_modules) 9 paper_rank) as (res & Hr & H).
  - exact str_max_laws.
  - by apply elem_of_list_to_set, list_elem_of_here.
  - exact paper_closed.
  - vm_compute. reflexivity.
  - apply Nat.ltb_lt. vm_compute. reflexivity.
  - apply paper_main_max.
  - apply paper_all. unfold paper_modules. by repeat (apply Forall_cons; split).
  - apply (paper_all (fun m => Vers m = none -> Required paper m = ([], None))). unfold paper_modules. by repeat (apply Forall_cons; split).
  - intros p ->%list_elem_of_singleton. split; [done|]. exists (mv "C" "v2"). split; [exact paper_needs_C|done].
  - exists res. split; [exact Hr|]. destruct res as [min|[e|e]]; [|exact H|exact H].
    destruct H as (_ & _ & l & H1 & _ & H2 & H3). exists l. split; [exact H1|]. split; [exact H2|]. exact (H3 paper_ranked).
Defined.
