(* ===== verification/SemverTheorems.v ===== *)
(** * golang.org/x/mod/semver: the order of versions

    A valid version is [version M m p ids] once it is in canonical form; [Compare] is the
    precedence of semver.org on these, which the list of identifiers of a
    prerelease has by [lex].  With [Gover] it makes [ModCompare] a total preorder. *)

From stdpp Require Import list.
From S2P Require Import Prelude.
From S2P Require Import Slice.
From S2P Require Import Text.
From S2P Require Import StrconvFormat.
From S2P Require Import Gover.
From S2P Require Import GoverTheorems.
From S2P Require Semver.
From S2P Require ModGover.

Notation isNum := Semver.isNum.

(** ** The specification *)

(** Lists in lexicographic order. *)
Fixpoint lex {T} (c : T -> T -> Z) (l l' : list T) : Z :=
  match l, l' with
  | [], [] => 0
  | [], _ => -1
  | _, [] => 1
  | x :: l, y :: l' => if negb (c x y =? 0) then c x y else lex c l l'
  end.
#[export] Instance lex_comparison {T} (c : T -> T -> Z) : Comparison c -> Comparison (lex c).
Proof.
  intros H. split.
  - intros l. induction l as [|x l IH]; intros [|y l']; cbn; auto.
    destruct (cmp_range (c := c) x y) as [E|[E|E]]; rewrite E; cbn; auto.
  - intros l. induction l as [|x l IH]; intros [|y l']; cbn; try done. rewrite (cmp_sym (c := c) x y), IH.
    destruct (Z.eqb_spec (c x y) 0), (Z.eqb_spec (- c x y) 0); cbn; lia.
  - intros l. induction l as [|x l IH]; intros [|y l'] [|z l'']; cbn; try lia. specialize (IH l' l'').
    pose proof (cmp_trans (c := c) x y z). pose proof (cmp_trans (c := c) z x y). pose proof (cmp_trans (c := c) y z x).
    pose proof (cmp_sym (c := c) x y). pose proof (cmp_sym (c := c) y z). pose proof (cmp_sym (c := c) x z).
    destruct (Z.eqb_spec (c x y) 0), (Z.eqb_spec (c y z) 0), (Z.eqb_spec (c x z) 0); cbn; lia.
Qed.

(** Identifiers: numbers by value and below the others, which have the order of strings. *)
Definition ident_cmp (x y : list Z) : Z :=
  then_by (fun x y => Z.sgn (x.1.1 - y.1.1)) (then_by (fun x y => Z.sgn (x.1.2 - y.1.2)) (fun x y => str_Compare x.2 y.2))
    (if isNum x then (0, value 10 x, []) else (1, 0, x)) (if isNum y then (0, value 10 y, []) else (1, 0, y)).
#[export] Instance ident_comparison : Comparison ident_cmp.
Proof.
  unfold ident_cmp. apply (on_comparison (fun x => if isNum x then (0, value 10 x, []) else (1, 0, x))).
  apply then_by_comparison; [apply (sgn_comparison (fun x : Z * Z * list Z => x.1.1))|].
  apply then_by_comparison; [apply (sgn_comparison (fun x : Z * Z * list Z => x.1.2))|]. apply (on_comparison snd), _.
Qed.

(** Prereleases: lists of identifiers, the empty one above all. *)
Definition pre_cmp : list (list Z) -> list (list Z) -> Z :=
  then_by (fun x y => Z.sgn (match x with [] => 1 | _ => 0 end - match y with [] => 1 | _ => 0 end)) (lex ident_cmp).
#[export] Instance pre_comparison : Comparison pre_cmp.
Proof. apply then_by_comparison; [apply (sgn_comparison (fun x : list (list Z) => match x with [] => 1 | _ => 0 end))|apply _]. Qed.

(** The identifiers joined by dots; versions. *)
Fixpoint join (ids : list (list Z)) : list Z :=
  match ids with
  | [] => []
  | [d] => d
  | d :: ids => d ++ chr "." :: join ids
  end.
Definition pre_string (ids : list (list Z)) : list Z := match ids with [] => [] | _ => chr "-" :: join ids end.
Definition version (M m p : list Z) (ids : list (list Z)) : list Z :=
  bytes "v" ++ M ++ bytes "." ++ m ++ bytes "." ++ p ++ pre_string ids.
Definition ident (d : list Z) : Prop := d <> [] /\ Forall (fun c => Semver.isIdentChar c = true) d /\ Semver.isBadNum d = false.
Definition number (d : list Z) : Prop := decimal d /\ d <> [].
Record well_formed (M m p : list Z) (ids : list (list Z)) : Prop := {
  wf_M : number M; wf_m : number m; wf_p : number p; wf_ids : Forall ident ids }.

(** ** Numbers and identifiers *)

Lemma parseInt_cutInt v : Semver.parseInt v = cutInt v.
Proof.
  destruct v as [|c v]; [done|]. unfold Semver.parseInt, cutInt, Semver.failed. cbn [digits_len drop first_is]. unfold is_digit.
  rewrite (Z.leb_antisym (chr "9") c), (Z.leb_antisym c (chr "0")).
  destruct (c <? chr "0"); [done|]. destruct (chr "9" <? c); [done|]. done.
Qed.
Lemma compareInt_CmpInt x y : Semver.compareInt x y = CmpInt x y.
Proof. unfold Semver.compareInt, CmpInt. repeat case_match; done. Qed.
Lemma number_value x y : number x -> number y -> CmpInt x y = Z.sgn (value 10 x - value 10 y).
Proof. intros [Hx Hxn] [Hy Hyn]. rewrite CmpInt_value by done. unfold rank. by destruct x, y. Qed.
Lemma parseInt_app n r : number n -> no_digit r -> Semver.parseInt (n ++ r) = (n, r, true).
Proof. intros [Hd Hn] Hr. rewrite parseInt_cutInt. by apply cutInt_app. Qed.
Lemma parseInt_spec x n r : Semver.parseInt x = (n, r, true) -> x = n ++ r /\ number n /\ no_digit r.
Proof. rewrite parseInt_cutInt. intros (Hd & -> & Hn & Hr)%cutInt_spec. done. Qed.

Lemma isNum_digits d : isNum d = true <-> Forall digit d.
Proof.
  unfold isNum. destruct (digits_len_split d) as (n & r & -> & Hn & Hr & E). rewrite E, Nat.eqb_eq, length_app. split.
  - intros H. destruct r; [by rewrite app_nil_r|cbn in H; lia].
  - intros [_ H]%Forall_app. destruct r as [|c r]; [cbn; lia|]. apply Forall_inv in H. by destruct (Hr c r eq_refl).
Qed.
Lemma ident_number d : ident d -> isNum d = true -> number d.
Proof.
  intros (Hne & _ & Hb) Hd. split; [|done]. split; [by apply isNum_digits|]. intros c t -> Ht ->. unfold Semver.isBadNum, isNum in *.
  apply Nat.eqb_eq in Hd. rewrite Hd, Nat.eqb_refl in Hb. destruct t; [done|]. cbn in Hb. done.
Qed.

(** ** The comparison of two identifiers in the loop of [comparePrerelease] *)

Definition loop_cmp (dx dy : list Z) : Z :=
  let ix := isNum dx in
  let iy := isNum dy in
  if negb (Bool.eqb ix iy) then (if ix then -1 else 1)
  else if ix && (zlen dx <? zlen dy) then -1
  else if ix && (zlen dx >? zlen dy) then 1
  else if str_ltb dx dy then -1 else 1.
Lemma loop_cmp_ident dx dy : ident dx -> ident dy -> dx <> dy -> loop_cmp dx dy = ident_cmp dx dy /\ ident_cmp dx dy <> 0.
Proof.
  intros Hx Hy Hne. unfold loop_cmp, ident_cmp, then_by. destruct (isNum dx) eqn:Ex, (isNum dy) eqn:Ey; cbn; try done.
  - pose proof (number_value dx dy (ident_number _ Hx Ex) (ident_number _ Hy Ey)) as E. rewrite <- E.
    assert (CmpInt dx dy <> 0) as H0 by (by rewrite CmpInt_zero). replace (negb (CmpInt dx dy =? 0)) with true by (symmetry; apply negb_true_iff; lia).
    split; [|done]. unfold CmpInt, str_eqb. by rewrite bool_decide_false.
  - unfold str_Compare. destruct (str_ltb dx dy) eqn:E1; [done|]. destruct (str_ltb dy dx) eqn:E2; [done|].
    by rewrite (str_ltb_total _ _ E1 E2) in Hne.
Qed.

(** ** Prereleases and build metadata *)

#[local] Notation slice := Semver.slice.
#[local] Notation ident_char c := (Semver.isIdentChar c = true).

Lemma ident_char_not c : ident_char c -> c <> chr "." /\ c <> chr "+".
Proof. intros H. split; intros ->; by vm_compute in H. Qed.
Lemma join_cons d ids : ids <> [] -> join (d :: ids) = d ++ chr "." :: join ids.
Proof. by destruct ids. Qed.
Lemma slice_refl i v : slice i i v = [].
Proof. unfold Semver.slice. apply drop_ge. rewrite length_take. lia. Qed.
Lemma slice_app i j k v : (i <= j)%nat -> (j <= k)%nat -> slice i k v = slice i j v ++ slice j k v.
Proof.
  intros H1 H2. unfold Semver.slice. replace (take j v) with (take j (take k v)) by (rewrite take_take; f_equal; lia).
  rewrite <- (take_drop (j - i) (drop i (take k v))), drop_drop, skipn_firstn_comm. f_equal.
  - replace (take j (take k v)) with (take (i + (j - i)) (take k v)) by (f_equal; lia). by rewrite <- take_drop_commute, skipn_firstn_comm.
  - f_equal. lia.
Qed.
Lemma slice_snoc i j v c rest : (i <= j)%nat -> drop j v = c :: rest -> slice i (S j) v = slice i j v ++ [c].
Proof.
  intros H E. rewrite (slice_app i j (S j)) by lia. f_equal. unfold Semver.slice.
  assert (Hj : v !! j = Some c) by (rewrite <- (Nat.add_0_r j), <- lookup_drop, E; done).
  rewrite (take_S_r _ _ _ Hj), drop_app_le; [rewrite drop_ge; [done|]|]; rewrite length_take; apply lookup_lt_Some in Hj; lia.
Qed.

(** What the loop has passed when it ends: identifiers, the last one [v[s:j]]. *)
Lemma identifiers_spec stop bad v rest : forall i start j s, drop i v = rest -> (start <= i <= length v)%nat ->
  Forall (fun c => ident_char c) (slice start i v) -> Semver.identifiers stop bad v rest i start = Some (j, s) ->
  (i <= j <= length v)%nat /\ (s <= j)%nat /\ (drop j v = [] \/ exists c t, drop j v = c :: t /\ stop c = true) /\
  exists ids, slice start j v = join (ids ++ [slice s j v]) /\ Forall (fun c => ident_char c) (slice s j v) /\
    Forall (fun d => d <> [] /\ Forall (fun c => ident_char c) d /\ bad d = false) ids.
Proof.
  induction rest as [|c rest IH]; intros i start j s Ev Hi Hc; cbn [Semver.identifiers].
  { intros [= <- <-]. split; [lia|]. split; [lia|]. split; [by left|]. by exists []. }
  assert (Hlen : (i < length v)%nat) by (apply (f_equal length) in Ev; rewrite length_drop in Ev; cbn in Ev; lia).
  assert (Ev' : drop (S i) v = rest) by (by rewrite <- (Nat.add_1_r i), <- drop_drop, Ev).
  destruct (stop c) eqn:Es.
  { intros [= <- <-]. split; [lia|]. split; [lia|]. split; [right; by exists c, rest|]. by exists []. }
  destruct (negb (Semver.isIdentChar c) && negb (c =? chr ".")) eqn:Eb; [done|]. destruct (Z.eqb_spec c (chr ".")) as [->|Hdot].
  - destruct (_ || _) eqn:Ed; [done|]. apply orb_false_iff in Ed as [Ed Hbad]. intros E.
    destruct (IH (S i) (S i) j s Ev' ltac:(lia) ltac:(by rewrite slice_refl; constructor) E) as (H1 & H2 & H3 & ids & H4 & H5 & H6).
    split; [lia|]. split; [done|]. split; [done|]. exists (slice start i v :: ids). split; [|split; [done|constructor; [|done]]].
    + cbn [app]. rewrite join_cons by (by destruct ids). rewrite <- H4, (slice_app start (S i) j) by lia. rewrite (slice_snoc start i v (chr ".") rest) by (done || lia).
      by rewrite <- app_assoc.
    + split; [|done]. apply Nat.eqb_neq in Ed. intros E0. apply (f_equal length) in E0. unfold Semver.slice in E0.
      rewrite length_drop, length_take in E0. cbn in E0. lia.
  - rewrite andb_true_r in Eb. intros E.
    destruct (IH (S i) start j s Ev' ltac:(lia)) as (H1 & H2 & H3); [|done|split; [lia|done]].
    rewrite (slice_snoc start i v c rest) by (done || lia). apply Forall_app. split; [done|]. constructor; [|done]. by apply negb_false_iff in Eb.
Qed.

(** The loop passes a list of identifiers. *)
Lemma identifiers_run stop bad w d t : forall cur, (forall c, ident_char c -> stop c = false) -> Forall (fun c => ident_char c) d ->
  Semver.identifiers stop bad (w ++ cur ++ d ++ t) (d ++ t) (length w + length cur) (length w) =
  Semver.identifiers stop bad (w ++ cur ++ d ++ t) t (length w + length cur + length d) (length w).
Proof.
  induction d as [|c d IH]; intros cur Hstop Hd; [by rewrite Nat.add_0_r|]. apply Forall_cons in Hd as [Hc Hd].
  cbn [app Semver.identifiers]. rewrite Hstop, Hc by done. cbn [negb andb]. destruct (Z.eqb_spec c (chr ".")) as [E|_]; [by apply ident_char_not in Hc as [? _]|].
  specialize (IH (cur ++ [c]) Hstop Hd). rewrite <- app_assoc, length_app in IH. cbn [app length] in IH.
  replace (S (length w + length cur)) with (length w + (length cur + 1))%nat by lia. rewrite IH. f_equal. cbn. lia.
Qed.
Lemma slice_mid w d t : slice (length w) (length w + length d) (w ++ d ++ t) = d.
Proof.
  unfold Semver.slice. rewrite app_assoc, take_app_le by (rewrite length_app; lia). rewrite take_ge by (rewrite length_app; lia). by rewrite drop_app_length.
Qed.
Lemma identifiers_join stop bad ids : forall w r, (forall c, ident_char c -> stop c = false) -> stop (chr ".") = false -> ids <> [] ->
  Forall (fun d => d <> [] /\ Forall (fun c => ident_char c) d /\ bad d = false) ids -> (r = [] \/ exists c t, r = c :: t /\ stop c = true) ->
  exists s, Semver.identifiers stop bad (w ++ join ids ++ r) (join ids ++ r) (length w) (length w) = Some ((length w + length (join ids))%nat, s) /\
    (s < length w + length (join ids))%nat /\ bad (slice s (length w + length (join ids)) (w ++ join ids ++ r)) = false.
Proof.
  induction ids as [|d ids IH]; intros w r Hstop Hdot Hne Hids Hr; [done|]. apply Forall_cons in Hids as [(Hd & Hc & Hb) Hids].
  pose proof (identifiers_run stop bad w d) as Hrun. destruct ids as [|d' ids].
  - exists (length w). cbn [join]. specialize (Hrun r [] Hstop Hc). cbn [app length] in Hrun. rewrite !Nat.add_0_r in Hrun. rewrite Hrun, slice_mid.
    split; [|split; [destruct d; [done|cbn; lia]|done]]. destruct Hr as [->|(c & t & -> & Es)]; [done|]. cbn. by rewrite Es.
  - rewrite join_cons by done. set (ids' := d' :: ids) in *. specialize (Hrun (chr "." :: join ids' ++ r) [] Hstop Hc). cbn [app length] in Hrun.
    rewrite !Nat.add_0_r in Hrun. rewrite <- !app_assoc. cbn [app]. rewrite Hrun. cbn [Semver.identifiers]. rewrite Hdot.
    change (negb (chr "." =? chr ".")) with false. rewrite andb_false_r. change (chr "." =? chr ".") with true. cbn iota.
    rewrite slice_mid, Hb, (proj2 (Nat.eqb_neq _ _)) by (destruct d; [done|cbn; lia]). cbn [orb].
    destruct (IH (w ++ d ++ [chr "."]) r Hstop Hdot ltac:(done) Hids Hr) as (s & E & Hs & Hbs). rewrite !length_app, <- !app_assoc in *. cbn [app length] in *.
    exists s. replace (length w + (length d + S (length (join ids'))))%nat with (length w + (length d + 1) + length (join ids'))%nat by lia.
    replace (S (length w + length d)) with (length w + (length d + 1))%nat by lia. done.
Qed.

#[local] Notation plus := (fun c => c =? chr "+").
Definition ends_pre (r : list Z) : Prop := r = [] \/ exists t, r = chr "+" :: t.
Lemma pre_string_cons ids : ids <> [] -> pre_string ids = chr "-" :: join ids.
Proof. by destruct ids. Qed.
Lemma first_is_spec c v : first_is c v = true <-> exists t, v = chr c :: t.
Proof.
  destruct v as [|a v]; cbn; [split; [done|by intros [? ?]]|]. rewrite Z.eqb_eq. split; [intros ->; by exists v|by intros [t [= -> _]]].
Qed.
Lemma parsePrerelease_spec v pre r : Semver.parsePrerelease v = (pre, r, true) ->
  v = pre ++ r /\ ends_pre r /\ exists ids, ids <> [] /\ pre = pre_string ids /\ Forall ident ids.
Proof.
  unfold Semver.parsePrerelease. destruct (first_is "-" v) eqn:Ef; [|done]. apply first_is_spec in Ef as [t ->]. cbn [negb].
  destruct (Semver.identifiers _ _ _ _ _ _) as [[j s]|] eqn:E; [|done].
  destruct (_ || _) eqn:Ed; [done|]. apply orb_false_iff in Ed as [Ed Hbad]. intros [= <- <-].
  destruct (identifiers_spec plus Semver.isBadNum (chr "-" :: t) (drop 1 (chr "-" :: t)) 1 1 j s) as (H1 & H2 & H3 & ids & H4 & H5 & H6); try done.
  { cbn. lia. }
  split; [by rewrite take_drop|]. split.
  { destruct H3 as [->|(c & u & -> & Ec)]; [by left|right]. apply Z.eqb_eq in Ec as ->. by exists u. }
  exists (ids ++ [slice s j (chr "-" :: t)]). split; [by destruct ids|]. split.
  - rewrite pre_string_cons by (by destruct ids). rewrite <- H4. unfold Semver.slice. destruct j; [lia|]. done.
  - apply Forall_app. split; [done|]. constructor; [|done]. split; [|done]. intros E0. apply (f_equal length) in E0. unfold Semver.slice in E0.
    rewrite length_drop, length_take in E0. apply Nat.eqb_neq in Ed. cbn [length] in *. lia.
Qed.
Lemma parsePrerelease_app ids r : ids <> [] -> Forall ident ids -> ends_pre r -> Semver.parsePrerelease (pre_string ids ++ r) = (pre_string ids, r, true).
Proof.
  intros Hne Hids Hr. rewrite pre_string_cons by done. unfold Semver.parsePrerelease.
  destruct (identifiers_join plus Semver.isBadNum ids [chr "-"] r) as (s & E & Hs & Hbad); try done.
  { intros c Hc. apply Z.eqb_neq. by apply ident_char_not in Hc as [_ ?]. }
  { destruct Hr as [->|[t ->]]; [by left|right]. by exists (chr "+"), t. }
  cbn [app length] in *. change (first_is "-" (chr "-" :: join ids ++ r)) with true. cbn [negb drop]. rewrite drop_0, E, Hbad.
  rewrite (proj2 (Nat.eqb_neq _ _)) by lia. cbn. by rewrite take_app_length, drop_app_length.
Qed.
Lemma parseBuild_spec v b r : Semver.parseBuild v = (b, r, true) -> v = b ++ r /\ b <> [] /\ ends_pre v.
Proof.
  unfold Semver.parseBuild. destruct (first_is "+" v) eqn:Ef; [|done]. apply first_is_spec in Ef as [t ->]. cbn [negb].
  destruct (Semver.identifiers _ _ _ _ _ _) as [[j s]|] eqn:E; [|done].
  destruct (_ =? _)%nat eqn:Ed; [done|]. intros [= <- <-]. apply identifiers_spec in E as (H1 & _); [|done|cbn; lia|rewrite slice_refl; constructor].
  split; [by rewrite take_drop|]. split; [by destruct j; [lia|]|]. right. by exists t.
Qed.

(** ** Versions *)

(** What [parse] finds. *)
Record parsed_ok (v : list Z) (p : Semver.parsed) (ids : list (list Z)) : Prop := {
  po_wf : well_formed (Semver.major p) (Semver.minor p) (Semver.patch p) ids;
  po_pre : Semver.prerelease p = pre_string ids;
  po_v : v ++ Semver.short p = version (Semver.major p) (Semver.minor p) (Semver.patch p) ids ++ Semver.build p;
  po_short : Semver.short p <> [] -> Semver.build p = [];
}.
Lemma number_0 : number (bytes "0").
Proof. split; [apply decimal_0|done]. Qed.
Lemma parse_spec v p : Semver.parse v = Some p -> exists ids, parsed_ok v p ids.
Proof.
  unfold Semver.parse. destruct (first_is "v" v) eqn:Ef; [|done]. apply first_is_spec in Ef as [t ->]. cbn [negb drop]. rewrite drop_0.
  destruct (Semver.parseInt t) as [[M t1] []] eqn:E1; cbn [negb]; [|done]. apply parseInt_spec in E1 as (-> & HM & _). unfold str_eqb.
  case_bool_decide as D1; [intros [= <-]; subst; exists []; split; cbn|].
  { split; try done; apply number_0. } { done. } { unfold version. cbn. by rewrite !app_nil_r. } { done. }
  destruct (first_is "." t1) eqn:Ef; [|done]. apply first_is_spec in Ef as [t2 ->]. cbn [negb drop]. rewrite drop_0.
  destruct (Semver.parseInt t2) as [[m t3] []] eqn:E2; cbn [negb]; [|done]. apply parseInt_spec in E2 as (-> & Hm & _).
  case_bool_decide as D2; [intros [= <-]; subst; exists []; split; cbn|].
  { split; try done; apply number_0. } { done. } { unfold version. cbn. by rewrite !app_nil_r, <- !app_assoc. } { done. }
  destruct (first_is "." t3) eqn:Ef; [|done]. apply first_is_spec in Ef as [t4 ->]. cbn [negb drop]. rewrite drop_0.
  destruct (Semver.parseInt t4) as [[q t5] []] eqn:E3; cbn [negb]; [|done]. apply parseInt_spec in E3 as (-> & Hq & _).
  assert (Hpre : forall pre t6, (if first_is "-" t5 then Semver.parsePrerelease t5 else ([], t5, true)) = (pre, t6, true) ->
    t5 = pre ++ t6 /\ exists ids, pre = pre_string ids /\ Forall ident ids).
  { intros pre t6. destruct (first_is "-" t5); [|intros [= <- <-]; split; [done|by exists []]].
    intros (-> & _ & ids & _ & -> & ?)%parsePrerelease_spec. split; [done|by exists ids]. }
  destruct (if first_is "-" t5 then _ else _) as [[pre t6] []]; cbn [negb]; [|done]. destruct (Hpre pre t6 eq_refl) as (-> & ids & -> & Hids).
  assert (Hbld : forall b t7, (if first_is "+" t6 then Semver.parseBuild t6 else ([], t6, true)) = (b, t7, true) -> t6 = b ++ t7).
  { intros b t7. destruct (first_is "+" t6); [by intros (-> & _)%parseBuild_spec|by intros [= <- <-]]. }
  destruct (if first_is "+" t6 then _ else _) as [[b t7] []]; cbn [negb]; [|done]. rewrite (Hbld b t7 eq_refl).
  case_bool_decide as D3; [|done]. intros [= <-]. subst. exists ids. split; cbn; try done.
  unfold version. rewrite !app_nil_r. by do 3 (rewrite <- ?app_assoc; cbn [app bytes]).
Qed.
Lemma dot_not_digit t : no_digit (chr "." :: t).
Proof. intros c u [= <- _]. unfold digit. by vm_compute; intros [? ?]. Qed.
Lemma pre_string_no_digit ids : no_digit (pre_string ids).
Proof. destruct ids as [|d ids]; [done|]. intros c u [= <- _]. unfold digit. by vm_compute; intros [? ?]. Qed.
Lemma parse_version M m p ids : well_formed M m p ids ->
  Semver.parse (version M m p ids) = Some (Semver.Parsed M m p [] (pre_string ids) []).
Proof.
  intros [HM Hm Hp Hids]. unfold version, Semver.parse. cbn [bytes app]. change (list_ascii_of_string "v") with ["v"%char]. cbn [map app].
  change (first_is "v" (chr "v" :: _)) with true. cbn [negb drop]. rewrite drop_0, (parseInt_app M) by (done || apply dot_not_digit). cbn [negb str_eqb].
  change (str_eqb (chr "." :: _) []) with false. change (first_is "." (chr "." :: _)) with true. cbn [negb drop]. rewrite drop_0.
  rewrite (parseInt_app m) by (done || apply dot_not_digit). cbn [negb].
  change (str_eqb (chr "." :: _) []) with false. change (first_is "." (chr "." :: _)) with true. cbn [negb drop]. rewrite drop_0.
  rewrite (parseInt_app p) by (done || apply pre_string_no_digit). cbn [negb]. destruct ids as [|d ids].
  - done.
  - change (first_is "-" (pre_string (d :: ids))) with true. cbn iota. rewrite <- (app_nil_r (pre_string (d :: ids))).
    rewrite parsePrerelease_app by (done || by left). cbn [negb first_is]. rewrite app_nil_r. done.
Qed.
Lemma Canonical_spec v p ids : Semver.parse v = Some p -> parsed_ok v p ids ->
  Semver.Canonical v = version (Semver.major p) (Semver.minor p) (Semver.patch p) ids.
Proof.
  intros E [_ _ Hv Hs]. unfold Semver.Canonical. rewrite E. unfold str_eqb. case_bool_decide as Hb; cbn [negb].
  - rewrite Hb, app_nil_r in Hv. case_bool_decide as Hsh; cbn [negb]; [|done]. by rewrite <- Hv, Hsh, app_nil_r.
  - destruct (decide (Semver.short p = [])) as [Hsh|Hsh]; [|by apply Hs in Hsh]. rewrite Hsh, app_nil_r in Hv. rewrite Hv at 1 2.
    rewrite length_app. replace (_ + _ - _)%nat with (length (version (Semver.major p) (Semver.minor p) (Semver.patch p) ids)) by lia.
    apply take_app_length.
Qed.

(** ** Precedence *)

(** The identifiers after a separator. *)
Definition after (c : Z) (ids : list (list Z)) : list Z := match ids with [] => [] | _ => c :: join ids end.
Lemma nextIdent_join d ids : ident d -> Semver.nextIdent (join (d :: ids)) = (d, after (chr ".") ids).
Proof.
  intros (_ & Hc & _). assert (H : forall t, t = [] \/ (exists u, t = chr "." :: u) -> Semver.ident_len (d ++ t) = length d).
  { intros t Ht. induction Hc as [|c d Hc _ IH]; [by destruct Ht as [->|[u ->]]|]. cbn. rewrite IH.
    destruct (Z.eqb_spec c (chr ".")); [by apply ident_char_not in Hc as [? _]|done]. }
  assert (E : join (d :: ids) = d ++ after (chr ".") ids) by (destruct ids; [by rewrite app_nil_r|done]).
  unfold Semver.nextIdent. rewrite E, H by (destruct ids; [by left|right; by eexists]). by rewrite take_app_length, drop_app_length.
Qed.
Lemma after_inj c ids : forall c' ids', Forall ident ids -> Forall ident ids' -> after c ids = after c' ids' -> ids = ids'.
Proof.
  revert c. induction ids as [|d ids IH]; intros c c' [|d' ids'] H H' E; try done. apply Forall_cons in H as [Hd H], H' as [Hd' H'].
  change (c :: join (d :: ids) = c' :: join (d' :: ids')) in E. assert (E2 : join (d :: ids) = join (d' :: ids')) by congruence.
  clear E. rename E2 into E. apply (f_equal Semver.nextIdent) in E. rewrite !nextIdent_join in E by done. assert (d = d') as -> by congruence. f_equal. eapply IH; [done|done|]. by injection E.
Qed.
Lemma pre_string_after ids : pre_string ids = after (chr "-") ids.
Proof. done. Qed.

Lemma compare_idents_lex ids : forall fuel c c' ids', (length ids < fuel)%nat -> Forall ident ids -> Forall ident ids' -> ids <> ids' ->
  Semver.compare_idents fuel (after c ids) (after c' ids') = lex ident_cmp ids ids' /\ lex ident_cmp ids ids' <> 0.
Proof.
  induction ids as [|d ids IH]; intros [|fuel] c c' ids' Hf H H' Hne; cbn [length] in Hf; try lia.
  { destruct ids' as [|d' ids']; [done|]. cbn. done. }
  destruct ids' as [|d' ids']; [done|]. apply Forall_cons in H as [Hd H], H' as [Hd' H'].
  cbn [after Semver.compare_idents]. unfold str_eqb at 1 2. rewrite !bool_decide_false by done. cbn [negb andb drop]. rewrite !drop_0, !nextIdent_join by done.
  unfold str_eqb at 1. cbn [lex]. case_bool_decide as Ed.
  - subst d'. rewrite (cmp_refl ident_cmp). cbn [Z.eqb negb]. apply IH; [lia|done|done|congruence].
  - destruct (loop_cmp_ident d d' Hd Hd' Ed) as [E H0]. rewrite (proj2 (Z.eqb_neq (ident_cmp d d') 0)) by done. cbn [negb]. split; [|done]. rewrite <- E. done.
Qed.
Lemma comparePrerelease_spec ids ids' : Forall ident ids -> Forall ident ids' ->
  Semver.comparePrerelease (pre_string ids) (pre_string ids') = pre_cmp ids ids' /\ (pre_cmp ids ids' = 0 <-> ids = ids').
Proof.
  intros H H'. unfold Semver.comparePrerelease, str_eqb. destruct (decide (ids = ids')) as [->|Hne].
  { rewrite bool_decide_true by done. rewrite (cmp_refl pre_cmp). done. }
  rewrite bool_decide_false by (intros E; apply Hne; by eapply after_inj). unfold pre_cmp, then_by.
  destruct ids as [|d ids], ids' as [|d' ids']; try done.
  rewrite !bool_decide_false by done. destruct (compare_idents_lex (d :: ids) (S (length (pre_string (d :: ids)))) (chr "-") (chr "-") (d' :: ids')) as [E H0]; try done.
  { assert (Hl : forall l, Forall ident l -> (length l <= length (join l))%nat); [|specialize (Hl _ H); cbn [pre_string length] in *; lia].
    intros l Hl. clear -Hl. induction Hl as [|x l (Hx & _) Hl IH]; [done|]. destruct l as [|y l]; [destruct x; [done|cbn; lia]|].
    rewrite join_cons, length_app by done. cbn [length] in *. lia. }
Qed.

(** Versions by their numbers, and then by their prereleases. *)
Definition key : Type := list Z * list Z * list Z * list (list Z).
Definition precedence : key -> key -> Z :=
  then_by (fun x y => Z.sgn (value 10 x.1.1.1 - value 10 y.1.1.1))
    (then_by (fun x y => Z.sgn (value 10 x.1.1.2 - value 10 y.1.1.2))
       (then_by (fun x y => Z.sgn (value 10 x.1.2 - value 10 y.1.2)) (fun x y => pre_cmp x.2 y.2))).
#[export] Instance precedence_comparison : Comparison precedence.
Proof.
  apply then_by_comparison; [apply (sgn_comparison (fun x : key => value 10 x.1.1.1))|].
  apply then_by_comparison; [apply (sgn_comparison (fun x : key => value 10 x.1.1.2))|].
  apply then_by_comparison; [apply (sgn_comparison (fun x : key => value 10 x.1.2))|]. apply (on_comparison snd), _.
Qed.

Lemma Compare_precedence v w p q ids ids' : Semver.parse v = Some p -> parsed_ok v p ids -> Semver.parse w = Some q -> parsed_ok w q ids' ->
  Semver.Compare v w = precedence (Semver.major p, Semver.minor p, Semver.patch p, ids) (Semver.major q, Semver.minor q, Semver.patch q, ids') /\
  (Semver.Compare v w = 0 <-> Semver.Canonical v = Semver.Canonical w).
Proof.
  intros Ep Hp Eq Hq. pose proof (Canonical_spec v p ids Ep Hp) as Cv. pose proof (Canonical_spec w q ids' Eq Hq) as Cw.
  destruct Hp as [Wp Pp _ _], Hq as [Wq Pq _ _]. pose proof Wp as [HM Hm Hq Hi]. pose proof Wq as [HM' Hm' Hq' Hi'].
  unfold Semver.Compare. rewrite Ep, Eq, !compareInt_CmpInt, Pp, Pq. destruct (comparePrerelease_spec ids ids' Hi Hi') as [-> Hz].
  unfold precedence, then_by. cbn [fst snd]. rewrite !number_value by done. split; [done|].
  assert (Hinj : Semver.Canonical v = Semver.Canonical w <-> Semver.major p = Semver.major q /\ Semver.minor p = Semver.minor q /\
    Semver.patch p = Semver.patch q /\ ids = ids').
  { rewrite Cv, Cw. split; [|by intros (-> & -> & -> & ->)]. intros E. apply (f_equal Semver.parse) in E. rewrite !parse_version in E by done.
    injection E as -> -> -> E. split_and!; try done. by eapply after_inj. }
  rewrite Hinj, <- Hz, <- !CmpInt_zero, !number_value by done.
  generalize (Z.sgn (value 10 (Semver.major p) - value 10 (Semver.major q))) (Z.sgn (value 10 (Semver.minor p) - value 10 (Semver.minor q)))
    (Z.sgn (value 10 (Semver.patch p) - value 10 (Semver.patch q))). intros a b c.
  destruct (Z.eqb_spec a 0), (Z.eqb_spec b 0), (Z.eqb_spec c 0); cbn [negb]; tauto.
Qed.

#[export] Instance semver_comparison : Comparison Semver.Compare.
Proof.
  assert (Hr : forall v w, (Semver.parse v = None /\ Semver.parse w = None /\ Semver.Compare v w = 0) \/
    (Semver.parse v = None /\ Semver.parse w <> None /\ Semver.Compare v w = -1) \/ (Semver.parse v <> None /\ Semver.parse w = None /\ Semver.Compare v w = 1) \/
    (Semver.parse v <> None /\ Semver.parse w <> None)).
  { intros v w. unfold Semver.Compare. destruct (Semver.parse v), (Semver.parse w); naive_solver. }
  assert (Hk : forall v, Semver.parse v <> None -> exists p ids, Semver.parse v = Some p /\ parsed_ok v p ids).
  { intros v. destruct (Semver.parse v) as [p|] eqn:E; [|done]. intros _. destruct (parse_spec v p E) as [ids H]. by exists p, ids. }
  split.
  - intros v w. destruct (Hr v w) as [(_ & _ & ->)|[(_ & _ & ->)|[(_ & _ & ->)|(H1 & H2)]]]; auto.
    destruct (Hk v H1) as (p & i & E1 & P1), (Hk w H2) as (q & j & E2 & P2). rewrite (proj1 (Compare_precedence v w p q i j E1 P1 E2 P2)). apply cmp_range.
  - intros v w. destruct (Hr v w) as [(H1 & H2 & ->)|[(H1 & H2 & ->)|[(H1 & H2 & ->)|(H1 & H2)]]];
      destruct (Hr w v) as [(? & ? & E)|[(? & ? & E)|[(? & ? & E)|(? & ?)]]]; try done.
    destruct (Hk v H1) as (p & i & E1 & P1), (Hk w H2) as (q & j & E2 & P2).
    rewrite (proj1 (Compare_precedence v w p q i j E1 P1 E2 P2)), (proj1 (Compare_precedence w v q p j i E2 P2 E1 P1)). apply cmp_sym.
  - intros v w u Hvw Hwu. destruct (Hr v u) as [(H1 & H2 & ->)|[(H1 & H2 & ->)|[(H1 & H2 & E)|(H1 & H3)]]]; [lia|lia| |].
    + destruct (Hr w u) as [(? & ? & E')|[(? & ? & E')|[(? & ? & E')|(? & ?)]]]; try done; [|lia].
      destruct (Hr v w) as [(? & ? & E'')|[(? & ? & E'')|[(? & ? & E'')|(? & ?)]]]; try done; lia.
    + destruct (Hr v w) as [(? & ? & ?)|[(? & ? & ?)|[(? & ? & ?)|(_ & H2)]]]; [done|done|lia|].
      destruct (Hk v H1) as (p & i & E1 & P1), (Hk w H2) as (q & j & E2 & P2), (Hk u H3) as (r & k & E3 & P3).
      rewrite (proj1 (Compare_precedence v w p q i j E1 P1 E2 P2)) in Hvw. rewrite (proj1 (Compare_precedence w u q r j k E2 P2 E3 P3)) in Hwu.
      rewrite (proj1 (Compare_precedence v u p r i k E1 P1 E3 P3)). by eapply cmp_trans.
Qed.

Lemma mod_comparison path : Comparison (ModGover.ModCompare path).
Proof.
  unfold ModGover.ModCompare. destruct (str_eqb path (bytes "go")); [apply Compare_comparison|].
  destruct (str_eqb path (bytes "toolchain")); [|apply semver_comparison]. apply (on_comparison ModGover.maybeToolchainVersion), Compare_comparison.
Qed.

(** ** The theorem *)

Lemma version_parsed M m p ids : well_formed M m p ids ->
  parsed_ok (version M m p ids) (Semver.Parsed M m p [] (pre_string ids) []) ids.
Proof. by split. Qed.
Lemma Canonical_version M m p ids : well_formed M m p ids -> Semver.Canonical (version M m p ids) = version M m p ids.
Proof. intros H. by rewrite (Canonical_spec _ _ ids (parse_version M m p ids H) (version_parsed M m p ids H)). Qed.
Lemma valid_version v : Semver.IsValid v = true ->
  exists M m p ids, well_formed M m p ids /\ Semver.Canonical v = version M m p ids /\ Semver.Compare v (version M m p ids) = 0.
Proof.
  unfold Semver.IsValid. destruct (Semver.parse v) as [p|] eqn:E; [|done]. intros _. destruct (parse_spec v p E) as [ids H].
  pose proof (po_wf _ _ _ H) as Hw. exists (Semver.major p), (Semver.minor p), (Semver.patch p), ids. split; [done|].
  rewrite (Canonical_spec v p ids E H). split; [done|].
  apply (proj2 (Compare_precedence v _ p _ ids ids E H (parse_version _ _ _ _ Hw) (version_parsed _ _ _ _ Hw))).
  by rewrite (Canonical_spec v p ids E H), Canonical_version.
Qed.
Lemma Canonical_invalid v : Semver.IsValid v = false -> Semver.Canonical v = [].
Proof. unfold Semver.IsValid, Semver.Canonical. by destruct (Semver.parse v). Qed.
Lemma Compare_invalid v w : Semver.IsValid v = false -> Semver.Compare v w = if Semver.IsValid w then -1 else 0.
Proof. unfold Semver.IsValid, Semver.Compare. destruct (Semver.parse v); [done|]. by destruct (Semver.parse w). Qed.
Lemma Compare_Canonical v : Semver.Compare v (Semver.Canonical v) = 0.
Proof.
  destruct (Semver.IsValid v) eqn:E.
  - destruct (valid_version v E) as (M & m & p & ids & _ & -> & H). done.
  - by rewrite Canonical_invalid, Compare_invalid.
Qed.
Lemma Compare_tie v w : Semver.Compare v w = 0 <-> Semver.Canonical v = Semver.Canonical w.
Proof.
  assert (Hne : forall v, Semver.IsValid v = true -> Semver.Canonical v <> []).
  { intros x Hx. by destruct (valid_version x Hx) as (M & m & p & ids & _ & -> & _). }
  destruct (Semver.IsValid v) eqn:Ev, (Semver.IsValid w) eqn:Ew.
  - unfold Semver.IsValid in *. destruct (Semver.parse v) as [p|] eqn:Ep, (Semver.parse w) as [q|] eqn:Eq; try done.
    destruct (parse_spec v p Ep) as [ids Hp], (parse_spec w q Eq) as [ids' Hq]. eapply Compare_precedence; done.
  - rewrite (cmp_sym (c := Semver.Compare) w v), Compare_invalid, Ev, (Canonical_invalid w) by done. split; [done|]. intros H. by apply Hne in Ev.
  - rewrite Compare_invalid, Ew, (Canonical_invalid v) by done. split; [done|]. intros H. by apply Hne in Ew.
  - by rewrite Compare_invalid, Ew, !Canonical_invalid.
Qed.
Lemma Compare_versions M m p ids M' m' p' ids' : well_formed M m p ids -> well_formed M' m' p' ids' ->
  Semver.Compare (version M m p ids) (version M' m' p' ids') = precedence (M, m, p, ids) (M', m', p', ids').
Proof.
  intros H H'. apply (proj1 (Compare_precedence _ _ _ _ ids ids' (parse_version _ _ _ _ H) (version_parsed _ _ _ _ H)
    (parse_version _ _ _ _ H') (version_parsed _ _ _ _ H'))).
Qed.
Lemma version_parts M m p ids : well_formed M m p ids ->
  Semver.Major (version M m p ids) = bytes "v" ++ M /\ Semver.MajorMinor (version M m p ids) = bytes "v" ++ M ++ bytes "." ++ m /\
  Semver.Prerelease (version M m p ids) = pre_string ids /\ Semver.Build (version M m p ids) = [].
Proof.
  intros H. unfold Semver.Major, Semver.MajorMinor, Semver.Prerelease, Semver.Build. rewrite parse_version by done. cbn [Semver.major Semver.minor Semver.prerelease Semver.build].
  unfold version. split; [|split; [|done]].
  - rewrite app_assoc. change (1 + length M)%nat with (length (bytes "v") + length M)%nat. rewrite <- length_app. apply take_app_length.
  - set (r := bytes "." ++ p ++ pre_string ids). replace (bytes "v" ++ M ++ bytes "." ++ m ++ r) with ((bytes "v" ++ M) ++ bytes "." ++ m ++ r) by (by rewrite <- app_assoc).
    replace (1 + length M)%nat with (length (bytes "v" ++ M)) by (by rewrite length_app).
    rewrite drop_app_length. change (first_is "." (bytes "." ++ m ++ r)) with true.
    replace ((bytes "v" ++ M) ++ bytes "." ++ m ++ r) with (((bytes "v" ++ M) ++ bytes ".") ++ m ++ r) by (by rewrite <- app_assoc).
    replace (length (bytes "v" ++ M) + 1)%nat with (length ((bytes "v" ++ M) ++ bytes ".")) by (rewrite !length_app; done).
    rewrite slice_mid. unfold str_eqb. rewrite bool_decide_true by done. rewrite (app_assoc _ m r), <- length_app, (proj2 (Nat.leb_le _ _)) by (rewrite (length_app _ r); lia).
    cbn [andb]. rewrite take_app_length. by rewrite <- !app_assoc.
Qed.
Lemma Max_upper v w : Semver.Compare v (Semver.Max v w) <= 0 /\ Semver.Compare w (Semver.Max v w) <= 0.
Proof.
  unfold Semver.Max. pose proof (Compare_Canonical v) as Hv. pose proof (Compare_Canonical w) as Hw.
  rewrite Z.gtb_ltb. destruct (Z.ltb_spec 0 (Semver.Compare (Semver.Canonical v) (Semver.Canonical w))) as [Hc|Hc].
  - split; [lia|]. apply (cmp_trans (c := Semver.Compare) w (Semver.Canonical w)); [lia|]. rewrite (cmp_sym (c := Semver.Compare) (Semver.Canonical v)). lia.
  - split; [|lia]. apply (cmp_trans (c := Semver.Compare) v (Semver.Canonical v)); lia.
Qed.

(** C40: semantic versions.  [Compare] is a total preorder on all strings, with the
    invalid ones below the others and with ties between the strings of the same
    canonical form, and so is [ModCompare] for every module path; [Max] is above
    both arguments.  A valid string has a canonical form [version M m p ids] made of three
    decimals and the identifiers of the prerelease, which is its own canonical form
    and from which [Major], [MajorMinor] and [Prerelease] take the parts; on these
    [Compare] is the precedence of semver.org: the numbers by value, a prerelease below its
    release, and prereleases by their identifiers in lexicographic order. *)
Theorem semver_ordered :
  Comparison Semver.Compare /\ (forall path, Comparison (ModGover.ModCompare path)) /\
  (forall v w, Semver.IsValid v = false -> Semver.IsValid w = true -> Semver.Compare v w = -1) /\
  (forall v w, Semver.Compare v w = 0 <-> Semver.Canonical v = Semver.Canonical w) /\
  (forall v w, Semver.Compare v (Semver.Max v w) <= 0 /\ Semver.Compare w (Semver.Max v w) <= 0) /\
  (forall v, Semver.IsValid v = true -> exists M m p ids, well_formed M m p ids /\ Semver.Canonical v = version M m p ids) /\
  (forall M m p ids, well_formed M m p ids ->
     Semver.IsValid (version M m p ids) = true /\ Semver.Canonical (version M m p ids) = version M m p ids /\
     Semver.Major (version M m p ids) = bytes "v" ++ M /\ Semver.MajorMinor (version M m p ids) = bytes "v" ++ M ++ bytes "." ++ m /\
     Semver.Prerelease (version M m p ids) = pre_string ids) /\
  (forall M m p ids M' m' p' ids', well_formed M m p ids -> well_formed M' m' p' ids' ->
     Semver.Compare (version M m p ids) (version M' m' p' ids') = precedence (M, m, p, ids) (M', m', p', ids')).
Proof.
  split_and!; [apply _|apply mod_comparison| |apply Compare_tie|apply Max_upper| | |apply Compare_versions].
  - intros v w Hv Hw. by rewrite Compare_invalid, Hw.
  - intros v (M & m & p & ids & ? & ? & _)%valid_version. by exists M, m, p, ids.
  - intros M m p ids H. destruct (version_parts M m p ids H) as (? & ? & ? & _). split_and!; [|by apply Canonical_version|done..].
    unfold Semver.IsValid. by rewrite parse_version.
Qed.
Lemma semver_ordered_witness :
  Semver.Compare (bytes "v1.2.3-rc.9") (bytes "v1.2.3-rc.10") = -1 /\
  Semver.Compare (version (bytes "1") (bytes "2") (bytes "3") [bytes "rc"; bytes "9"]) (version (bytes "1") (bytes "2") (bytes "3") [bytes "rc"; bytes "10"]) = -1.
Proof.
  destruct semver_ordered as (_ & _ & _ & _ & _ & _ & _ & H). split; [by vm_compute|].
  assert (Hd : forall c, digit c -> number [c]) by (intros c Hc; split; [split; [by constructor|by intros a t [= _ <-]]|done]).
  assert (Hi : forall d, (negb (str_eqb d []) && forallb Semver.isIdentChar d && negb (Semver.isBadNum d))%bool = true -> ident d).
  { intros d [[H1 H2]%andb_prop H3%negb_true_iff]%andb_prop. split; [by destruct d|]. split; [|exact H3]. rewrite forallb_forall in H2.
    apply Forall_forall. intros c Hc. apply H2. by apply list_elem_of_In. }
  rewrite H; [by vm_compute|..]; (split; [by apply Hd|by apply Hd|by apply Hd|]); apply Forall_cons; (split; [apply Hi; vm_compute; reflexivity|]);
    apply Forall_cons; (split; [apply Hi; vm_compute; reflexivity|by constructor]).
Defined.
