(* ===== verification/MvsDowngrade.v ===== *)
(** * cmd/go/internal/mvs: downgrades

    [Downgrade] of [src/src/cmd/go/internal/mvs/mvs.go]: its closures [exclude] and
    [add], the search for a lower version of every module, and the two build lists
    at its end; and the theorem on its result. *)

From stdpp Require Import gmap relations.
From S2P Require Import Prelude.
From S2P Require Import Slice.
From S2P Require Import Text.
From S2P Require Import Sort.
From S2P Require Import ModGover.
From S2P Require Import MvsGraph.
From S2P Require Import MvsGraphInv.
From S2P Require Import MvsSearch.
From S2P Require Import ParWork.
From S2P Require Import Mvs.
From S2P Require Import MvsTheorems.
From S2P Require Import MvsReq.

Section Downgrade.
Context {error : Type}.

(** The maps of the closures. *)
Record visited : Type := MkVisited { added : gset Version; rdeps : gmap Version (list Version); excluded : gset Version }.
Definition set_added (m : Version) (s : visited) : visited := MkVisited ({[m]} ∪ added s) (rdeps s) (excluded s).
Definition add_rdep (r m : Version) (s : visited) : visited :=
  MkVisited (added s) (<[r := default [] (rdeps s !! r) ++ [m]]> (rdeps s)) (excluded s).
Definition set_excluded (e : gset Version) (s : visited) : visited := MkVisited (added s) (rdeps s) e.

Definition downgrade_max (reqs : Reqs error) (ls downgrade : list Version) : gmap (list Z) (list Z) :=
  foldl (fun max d =>
           match max !! Path d with
           | Some v => if str_eqb (Max reqs (Path d) v (Vers d)) (Vers d) then max else <[Path d := Vers d]> max
           | None => <[Path d := Vers d]> max
           end) (max_of ls) downgrade.

Fixpoint exclude (fuel : nat) (m : Version) : M visited unit :=
  match fuel with
  | O => mnofuel
  | S fuel =>
      s <- mget ;;
      if decide (m ∈ excluded s) then mret tt
      else
        mput (set_excluded ({[m]} ∪ excluded s) s) ;;
        foldr (fun p k => exclude fuel p ;; k) (mret tt) (default [] (rdeps s !! m))
  end.

Section Add.
Variables (fuel0 : nat) (reqs : Reqs error) (max : gmap (list Z) (list Z)).
(** [v, ok := max[m.Path]; ok && reqs.Max(m.Path, m.Version, v) != v] *)
Definition over_max (m : Version) : bool :=
  match max !! Path m with Some v => negb (str_eqb (Max reqs (Path m) (Vers m) v) v) | None => false end.
(** The loop over the requirements of [m]. *)
Fixpoint add_list (add : Version -> M visited unit) (m : Version) (l : list Version) : M visited unit :=
  match l with
  | [] => mret tt
  | r :: l =>
      add r ;;
      s <- mget ;;
      if decide (r ∈ excluded s) then exclude fuel0 m
      else (mput (add_rdep r m s) ;; add_list add m l)
  end.
Fixpoint add (fuel : nat) (m : Version) : M visited unit :=
  match fuel with
  | O => mnofuel
  | S fuel =>
      s <- mget ;;
      if decide (m ∈ added s) then mret tt
      else
        mput (set_added m s) ;;
        if over_max m then exclude fuel0 m
        else
          match Required reqs m with
          | (_, Some _) => exclude fuel0 m
          | (ls, None) => add_list (add fuel) m ls
          end
  end.

(** [for excluded[r] { ... }]; [None] is [continue List]. *)
Definition lower (Previous : Version -> Version * option error) (r : Version) : M visited (option Version + error) :=
  loop fuel0
    (fun r =>
       s <- mget ;;
       if decide (r ∈ excluded s) then
         match Previous r with
         | (_, Some err) => break (inr err)
         | (p, None) =>
             let v := default [] (max !! Path r) in
             let p := if negb (str_eqb (Max reqs (Path r) v (Vers r)) v) && negb (str_eqb (Max reqs (Path r) (Vers p) v) (Vers p))
                      then MkVersion (Path p) v else p in
             if str_eqb (Vers p) none then break (inl None) else (add fuel0 p ;; continue p)
         end
       else break (inl (Some r))) r.
(** The loop [List], from a list [downgraded] on. *)
Fixpoint lower_all (Previous : Version -> Version * option error) (downgraded ls : list Version) : M visited (list Version + error) :=
  match ls with
  | [] => mret (inl downgraded)
  | r :: ls =>
      add fuel0 r ;;
      x <- lower Previous r ;;
      match x with
      | inr err => mret (inr err)
      | inl None => lower_all Previous downgraded ls
      | inl (Some r) => lower_all Previous (downgraded ++ [r]) ls
      end
  end.
End Add.

(** The versions of the modules [ls] in the build list [actual]. *)
Definition actual_versions (actual ls : list Version) : list Version :=
  omap (fun m => v ← max_of actual !! Path m; Some (MkVersion (Path m) v)) ls.

Definition Downgrade (fuel : nat) (target : Version) (reqs : Reqs error) (Previous : Version -> Version * option error) (downgrade : list Version)
    (out : outcome (list Version + (error + BuildListError error))) : Prop :=
  let wrap (b : outcome (list Version + BuildListError error)) := obind b (fun x => Done (match x with inl l => inl l | inr e => inr (inr e) end)) in
  exists b, BuildList [target] reqs b /\
    match b with
    | Done (inl (_ :: ls)) =>
        match result (lower_all fuel reqs (downgrade_max reqs ls downgrade) Previous [target] ls) (MkVisited ∅ ∅ ∅) with
        | Done (inl downgraded) =>
            exists b', BuildList [target] (override target downgraded reqs) b' /\
              match b' with
              | Done (inl actual) => exists b'', BuildList [target] (override target (actual_versions actual ls) reqs) b'' /\ out = wrap b''
              | _ => out = wrap b'
              end
        | Done (inr err) => out = Done (inr (inl err))
        | Panic e => out = Panic e
        | NoFuel => out = NoFuel
        end
    | Done (inl []) => out = Panic IndexOutOfRange
    | _ => out = wrap b
    end.
End Downgrade.

(** ** An example: the dependency on D of the paper's build list is lowered *)

Definition paper_previous (m : Version) : Version * option unit :=
  (if decide (m = mv "D" "v4") then mv "D" "v3" else if decide (m = mv "E" "v2") then mv "E" "v1" else MkVersion (Path m) none, None).
Example paper_lower :
  let ls := [mv "B" "v2"; mv "C" "v2"; mv "D" "v4"; mv "E" "v2"] in
  result (lower_all 9 paper (downgrade_max paper ls [mv "D" "v3"]) paper_previous [paper_main] ls) (MkVisited ∅ ∅ ∅)
  = Done (inl [paper_main; mv "B" "v2"; mv "D" "v3"; mv "E" "v2"]).
Proof. by vm_compute. Qed.

(** ** The closures *)

Section Closures.
Context {error : Type} (reqs : Reqs error) (max : gmap (list Z) (list Z)) (U : gset Version) (fuel0 : nat).
Implicit Types (m r p x y : Version) (s : visited).
#[local] Notation succ := (succ reqs).
Hypotheses (HU : forall m r, m ∈ U -> r ∈ succ m -> r ∈ U) (Hfuel : (size U < fuel0)%nat).

(** [m] itself is to be excluded; it requires [r], as far as [add] looks; it reaches
    a module that is to be excluded. *)
Definition bad0 m : Prop := over_max reqs max m = true \/ (Required reqs m).2 <> None.
Definition edge_ m r : Prop := ~ bad0 m /\ r ∈ succ m.
Definition bad m : Prop := exists x, rtc edge_ m x /\ bad0 x.
Lemma bad_step m r : edge_ m r -> bad r -> bad m.
Proof. intros He (x & Hx & Hb). exists x. split; [by eapply rtc_l|done]. Qed.
Lemma not_bad m : ~ bad m -> over_max reqs max m = false /\ (Required reqs m).2 = None /\ forall r, r ∈ succ m -> ~ bad r.
Proof.
  intros Hb. assert (H0 : ~ bad0 m) by (intros H; apply Hb; exists m; split; [apply rtc_refl|done]). split_and!.
  - destruct (over_max reqs max m) eqn:E; [|done]. destruct H0. by left.
  - destruct ((Required reqs m).2) eqn:E; [|done]. destruct H0. right. by rewrite E.
  - intros r Hr Hbr. apply Hb. by apply (bad_step m r).
Qed.

Definition rdeps_of s r : list Version := default [] (rdeps s !! r).

(** [stack] has the modules whose requirements are being added. *)
Record DInv (stack : gset Version) s : Prop := {
  di_added x : x ∈ added s -> x ∈ U;
  di_rdeps r p : p ∈ rdeps_of s r -> edge_ p r /\ r ∈ added s /\ p ∈ added s;
  di_closed r p : r ∈ excluded s -> p ∈ rdeps_of s r -> p ∈ excluded s;
  di_bad x : x ∈ excluded s -> x ∈ added s /\ bad x;
  di_done m : m ∈ added s -> m ∉ excluded s -> m ∉ stack -> ~ bad0 m /\ forall r, r ∈ succ m -> m ∈ rdeps_of s r;
}.
Definition grows s s' : Prop :=
  added s ⊆ added s' /\ excluded s ⊆ excluded s' /\ forall r p, p ∈ rdeps_of s r -> p ∈ rdeps_of s' r.
Lemma grows_trans s s' s'' : grows s s' -> grows s' s'' -> grows s s''.
Proof. intros (A1 & A2 & A3) (B1 & B2 & B3). split_and!; [set_solver|set_solver|auto]. Qed.

(** [exclude] is the second walk of [Req], over [rdeps]. *)
Definition walked {A} s (o : outcome (A * gset Version)) : outcome (A * visited) :=
  match o with Done (a, e) => Done (a, set_excluded e s) | Panic x => Panic x | NoFuel => NoFuel end.
Lemma exclude_walk n : forall m s, exclude n m s = walked s (walk_have n (rdeps s) m (excluded s)).
Proof.
  induction n as [|n IH]; intros m s; [done|].
  assert (Hl : forall l s, foldr (fun p k => exclude n p ;; k) (mret tt) l s =
    walked s (foldr (fun p k => walk_have n (rdeps s) p ;; k) (mret tt) l (excluded s))).
  { unfold mbind. induction l as [|p l IHl]; intros s'; [by destruct s'|]. cbn [foldr]. rewrite IH.
    destruct (walk_have n (rdeps s') p (excluded s')) as [[[] e]| |]; [|done..]. cbn [walked]. rewrite IHl. cbn [rdeps excluded set_excluded].
    match goal with |- context [foldr ?a ?b ?c ?d] => by destruct (foldr a b c d) as [[[] ?]| |] end. }
  unfold mbind in Hl.
  cbn [exclude walk_have]. unfold mbind, mget. case_decide; [by destruct s|]. unfold mput. rewrite Hl. cbn [rdeps excluded set_excluded].
  match goal with |- context [foldr ?a ?b ?c ?d] => by destruct (foldr a b c d) as [[[] ?]| |] end.
Qed.

(** A bad module that has been added is excluded, and all that depend on it. *)
Lemma exclude_DInv stack m s : DInv ({[m]} ∪ stack) s -> m ∈ added s -> bad m ->
  exists s', exclude fuel0 m s = Done (tt, s') /\ DInv stack s' /\ m ∈ excluded s' /\ grows s s' /\ added s' = added s.
Proof.
  intros [H1 H2 H3 H4 H5] Hm Hb. rewrite exclude_walk.
  assert (Hc : forall r p, r ∈ added s -> cedge (rdeps s) r p -> p ∈ added s) by (intros r p _ Hp; by apply (H2 r)).
  destruct (walk_have_spec (rdeps s) (added s) Hc fuel0 m (excluded s) Hm) as (e & -> & S1 & M1 & N1).
  { assert (size (added s ∖ excluded s) <= size U)%nat; [apply subseteq_size; set_solver|lia]. }
  assert (He : forall x, x ∈ e -> x ∈ added s /\ bad x).
  { intros x Hx. destruct (decide (x ∈ excluded s)) as [?|Hn]; [by apply H4|]. destruct (N1 x Hx Hn) as ((y & ->%list_elem_of_singleton & Hr) & _).
    clear - Hr H2 Hm Hb. induction Hr as [x|x y z Hxy _ IH]; [done|]. apply H2 in Hxy as (He & _ & Hy). apply IH; [done|].
    by eapply bad_step. }
  eexists. split; [done|]. split; [|split; [apply M1; set_solver|split; [by split_and!|done]]]. split; cbn; try done.
  - intros r p Hr Hp. destruct (decide (r ∈ excluded s)) as [Hd|Hd]; [apply S1; by eapply H3|]. by apply (N1 r Hr Hd).
  - intros x Hx Hxe Hxs. apply H5; [done|set_solver|]. assert (x <> m); [|set_solver]. intros ->. apply Hxe, M1. set_solver.
Qed.

Definition add_ok n (add_ : Version -> M visited unit) : Prop :=
  forall stack m s, DInv stack s -> m ∈ U -> (size (U ∖ added s) < n)%nat ->
    exists s', add_ m s = Done (tt, s') /\ DInv stack s' /\ m ∈ added s' /\ grows s s'.

Lemma rdeps_of_add r m s x : rdeps_of (add_rdep r m s) x = if decide (x = r) then rdeps_of s r ++ [m] else rdeps_of s x.
Proof.
  unfold rdeps_of, add_rdep. cbn. case_decide as E; [subst; by rewrite lookup_insert_eq|by rewrite lookup_insert_ne].
Qed.
Lemma DInv_rdep stack r m s : DInv stack s -> edge_ m r -> r ∈ added s -> m ∈ added s -> r ∉ excluded s ->
  DInv stack (add_rdep r m s) /\ grows s (add_rdep r m s) /\ m ∈ rdeps_of (add_rdep r m s) r.
Proof.
  intros [H1 H2 H3 H4 H5] He Hr Hm Hx.
  assert (Hg : forall x p, p ∈ rdeps_of s x -> p ∈ rdeps_of (add_rdep r m s) x).
  { intros x p Hp. rewrite rdeps_of_add. case_decide as E; [subst; set_solver|done]. }
  split; [split; cbn; try done|split; [by split_and!|]].
  - intros x p. rewrite rdeps_of_add. case_decide as E; [|apply H2]. subst. intros [Hp| ->%list_elem_of_singleton]%elem_of_app; [by apply H2|done].
  - intros x p Hxe. rewrite rdeps_of_add. case_decide as E; [by subst|by apply H3].
  - intros x Hxa Hxe Hxs. destruct (H5 x Hxa Hxe Hxs) as [? Hd]. split; [done|]. intros y Hy. by apply Hg, Hd.
  - rewrite rdeps_of_add. rewrite decide_True by done. set_solver.
Qed.
Lemma add_list_spec n add_ : add_ok n add_ -> forall m l2 l1 stack s, succ m = l1 ++ l2 -> m ∈ U -> ~ bad0 m -> DInv ({[m]} ∪ stack) s ->
  m ∈ added s -> (size (U ∖ added s) < n)%nat -> (forall r, r ∈ l1 -> m ∈ rdeps_of s r) ->
  exists s', add_list fuel0 add_ m l2 s = Done (tt, s') /\ DInv stack s' /\ grows s s'.
Proof.
  intros Ha m. induction l2 as [|r l2 IH]; intros l1 stack s El Hm Hb HD Hma Hn Hl1.
  { exists s. split; [done|]. split; [|by split_and!]. destruct HD as [H1 H2 H3 H4 H5]. split; try done. intros x Hx Hxe Hxs.
    destruct (decide (x = m)) as [->|Hne]; [|apply H5; [done|done|set_solver]]. split; [done|]. rewrite El, app_nil_r. done. }
  assert (Hr : r ∈ succ m) by (rewrite El; set_solver). assert (He : edge_ m r) by done.
  destruct (Ha _ r s HD (HU m r Hm Hr) Hn) as (s1 & E1 & D1 & Hr1 & G1). cbn [add_list]. unfold mbind at 1. rewrite E1. unfold mbind at 1, mget.
  assert (Hm1 : m ∈ added s1) by (destruct G1; set_solver). case_decide as Hx.
  - destruct (exclude_DInv stack m s1 D1 Hm1) as (s2 & E2 & D2 & _ & G2 & _).
    { apply (bad_step m r); [done|]. by apply (di_bad _ _ D1). }
    exists s2. split; [done|]. split; [done|by eapply grows_trans].
  - destruct (DInv_rdep _ r m s1 D1 He Hr1 Hm1 Hx) as (D2 & G2 & Hin). unfold mbind, mput.
    destruct (IH (l1 ++ [r]) stack (add_rdep r m s1)) as (s3 & E3 & D3 & G3); try done.
    + by rewrite <- app_assoc.
    + cbn. assert (size (U ∖ added s1) <= size (U ∖ added s))%nat; [|lia]. apply subseteq_size. destruct G1. set_solver.
    + intros x [Hx1| ->%list_elem_of_singleton]%elem_of_app; [|done]. by apply G2, G1, Hl1.
    + exists s3. split; [done|]. split; [done|]. eapply grows_trans; [|done]. by eapply grows_trans.
Qed.
Lemma add_spec n : add_ok n (add fuel0 reqs max n).
Proof.
  induction n as [|n IH]; intros stack m s HD Hm Hn; [lia|]. cbn [add]. unfold mbind at 1, mget. case_decide as Ha.
  { exists s. split; [done|]. split; [done|]. split; [done|by split_and!]. }
  unfold mbind at 1, mput. set (s1 := set_added m s). assert (G1 : grows s s1) by (split_and!; [set_solver|done|done]).
  assert (Hm1 : m ∈ added s1) by (cbn; set_solver). assert (D1 : DInv ({[m]} ∪ stack) s1).
  { destruct HD as [H1 H2 H3 H4 H5]. split; cbn.
    - intros x [->%elem_of_singleton|Hx]%elem_of_union; [done|by apply H1].
    - intros r p Hp. destruct (H2 r p Hp) as (? & ? & ?). split_and!; [done|set_solver|set_solver].
    - done.
    - intros x Hx. destruct (H4 x Hx). split; [set_solver|done].
    - intros x Hx Hxe Hxs. apply H5; [set_solver|done|set_solver]. }
  assert (Hex : bad0 m -> exists s', exclude fuel0 m s1 = Done (tt, s') /\ DInv stack s' /\ m ∈ added s' /\ grows s s').
  { intros Hb. destruct (exclude_DInv stack m s1 D1 Hm1) as (s2 & E2 & D2 & _ & G2 & Ea); [exists m; split; [apply rtc_refl|done]|].
    exists s2. split; [done|]. split; [done|]. split; [by rewrite Ea|by eapply grows_trans]. }
  destruct (over_max reqs max m) eqn:Eo; [apply Hex; by left|].
  destruct (Required reqs m) as [l [e|]] eqn:Er; [apply Hex; right; by rewrite Er|].
  destruct (add_list_spec n (add fuel0 reqs max n) IH m l [] stack s1) as (s2 & E2 & D2 & G2); try done.
  - unfold succ, MvsReq.succ. by rewrite Er.
  - intros [H|H]; [by rewrite Eo in H|by rewrite Er in H].
  - cbn. assert (size (U ∖ ({[m]} ∪ added s)) < size (U ∖ added s))%nat; [|lia]. apply subset_size. set_solver.
  - set_solver.
  - exists s2. split; [done|]. split; [done|]. split; [destruct G2; set_solver|by eapply grows_trans].
Qed.

Lemma start_DInv : DInv ∅ (MkVisited ∅ ∅ ∅).
Proof using. clear. split; cbn; set_solver. Qed.

(** Between the calls of [add]: it excludes exactly the bad modules. *)
Lemma added_good s m : DInv ∅ s -> m ∈ added s -> m ∉ excluded s -> ~ bad m.
Proof.
  intros [H1 H2 H3 H4 H5] Hm Hx (x & Hr & Hb). revert Hm Hx Hb. induction Hr as [x|x y z [Hb Hy] _ IH]; intros Hm Hx Hz.
  - by destruct (H5 x Hm Hx ltac:(set_solver)).
  - destruct (H5 x Hm Hx ltac:(set_solver)) as [_ Hd]. specialize (Hd y Hy). apply IH; [by apply (H2 y x)|by intros Hye; apply Hx, (H3 y)|done].
Qed.
Lemma add_top r s : DInv ∅ s -> r ∈ U -> exists s', add fuel0 reqs max fuel0 r s = Done (tt, s') /\ DInv ∅ s' /\ (r ∈ excluded s' <-> bad r).
Proof.
  intros HD Hr. destruct (add_spec fuel0 ∅ r s HD Hr) as (s' & E & HD' & Hra & _).
  { assert (size (U ∖ added s) <= size U)%nat; [apply subseteq_size; set_solver|lia]. }
  exists s'. split; [done|]. split; [done|]. split; [by intros Hx; apply (di_bad _ _ HD')|]. intros Hb.
  destruct (decide (r ∈ excluded s')) as [?|Hx]; [done|]. by destruct (added_good s' r HD' Hra Hx).
Qed.

(** ** The search for lower versions *)

Context `{HL : !MaxLaws (Max reqs)} (Previous : Version -> Version * option error).
Definition below p m : Prop := Path p = Path m /\ Vers p <> Vers m /\ Max reqs (Path m) (Vers p) (Vers m) = Vers m.
#[local] Instance below_dec p m : Decision (below p m).
Proof. unfold below. apply _. Defined.
Hypotheses (HMv : forall m v, m ∈ U -> max !! Path m = Some v -> MkVersion (Path m) v ∈ U).
Hypotheses (HPv : forall m p, m ∈ U -> Previous m = (p, None) -> Path p = Path m /\ (Vers p = none \/ p ∈ U /\ below p m)).

Definition lower_versions m : gset Version := filter (fun x => below x m) U.
Lemma version_below_trans x y z : below x y -> below y z -> below x z.
Proof.
  intros (E1 & N1 & M1) (E2 & N2 & M2). rewrite E2 in M1. assert (M3 : Max reqs (Path z) (Vers x) (Vers z) = Vers z).
  { by rewrite <- M2 at 1; rewrite max_assoc, M1. }
  split_and!; [congruence| |done]. intros E. rewrite E in M1. rewrite max_comm in M2. congruence.
Qed.
Lemma lower_versions_size x m : below x m -> x ∈ U -> (size (lower_versions x) < size (lower_versions m))%nat.
Proof.
  intros Hx HxU. apply subset_size. split.
  - intros y [Hy HyU]%elem_of_filter. apply elem_of_filter. split; [by eapply version_below_trans|done].
  - intros H. assert (x ∈ lower_versions x) as [(_ & ? & _) _]%elem_of_filter; [|done]. apply H, elem_of_filter. done.
Qed.

(** The version that is tried next. *)
Definition next_lower r p v : Version :=
  if negb (str_eqb (Max reqs (Path r) v (Vers r)) v) && negb (str_eqb (Max reqs (Path r) (Vers p) v) (Vers p)) then MkVersion (Path p) v else p.
Lemma next_lower_ok r p v : r ∈ U -> max !! Path r = Some v -> Previous r = (p, None) ->
  Path (next_lower r p v) = Path r /\ (Vers (next_lower r p v) = none \/ next_lower r p v ∈ U /\ below (next_lower r p v) r).
Proof.
  intros Hr Hv Hp. destruct (HPv r p Hr Hp) as [Ep Hor]. unfold next_lower, str_eqb. case_bool_decide as E1; [done|]. case_bool_decide as E2; [done|].
  cbn [negb andb Path Vers]. rewrite Ep. split; [done|]. right. split; [by apply HMv|]. split; [done|]. cbn [Vers]. split.
  - intros E. apply E1. rewrite E. by destruct (max_pick (mx := Max reqs) (Path r) (Vers r) (Vers r)).
  - by destruct (max_pick (mx := Max reqs) (Path r) v (Vers r)).
Qed.

Definition lowered r (res : option Version + error) : Prop :=
  match res with
  | inl (Some r') => r' ∈ U /\ ~ bad r' /\ Path r' = Path r
  | inl None => bad r
  | inr e => bad r /\ exists x, x ∈ U /\ Path x = Path r /\ (Previous x).2 = Some e
  end /\ (~ bad r -> res = inl (Some r)).
Lemma lower_spec r s v : DInv ∅ s -> r ∈ U -> (r ∈ excluded s <-> bad r) -> max !! Path r = Some v ->
  exists res s', lower fuel0 reqs max Previous r s = Done (res, s') /\ DInv ∅ s' /\ lowered r res.
Proof.
  assert (Hsize : (size (lower_versions r) < fuel0)%nat).
  { assert (size (lower_versions r) <= size U)%nat; [apply subseteq_size; intros x [_ ?]%elem_of_filter; done|lia]. }
  unfold lower. match goal with |- context [loop fuel0 ?b] => set (body := b) end.
  assert (Hl : forall n r s, (size (lower_versions r) < n)%nat -> DInv ∅ s -> r ∈ U -> (r ∈ excluded s <-> bad r) -> max !! Path r = Some v ->
    exists res s', loop n body r s = Done (res, s') /\ DInv ∅ s' /\ lowered r res); [clear r s Hsize|by apply Hl].
  induction n as [|n IH]; intros r s Hn HD Hr Hx Hv; [lia|]. cbn [loop]. unfold mbind at 1. unfold body at 1. unfold mbind at 1, mget. case_decide as Hd.
  2: { exists (inl (Some r)), s. split; [done|]. split; [done|]. assert (~ bad r) by (by rewrite <- Hx). by split; [split_and!|]. }
  apply Hx in Hd. destruct (Previous r) as [p [e|]] eqn:Ep.
  { exists (inr e), s. split; [done|]. split; [done|]. split; [|done]. split; [done|]. exists r. by rewrite Ep. }
  rewrite Hv. unfold from_option, id. fold (next_lower r p v). destruct (next_lower_ok r p v Hr Hv Ep) as [Epath Hor].
  unfold str_eqb. case_bool_decide as En.
  { exists (inl None), s. split; [done|]. split; [done|]. by split. }
  destruct Hor as [?|[HpU Hbelow]]; [done|]. destruct (add_top (next_lower r p v) s HD HpU) as (s1 & E1 & D1 & Hx1). unfold mbind at 1. rewrite E1.
  unfold continue, mret. destruct (IH (next_lower r p v) s1) as (res & s2 & E2 & D2 & Hres & _); try done.
  - pose proof (lower_versions_size _ _ Hbelow HpU). lia.
  - by rewrite Epath.
  - exists res, s2. split; [exact E2|]. split; [done|]. split; [|done]. destruct res as [[r'|]|e].
    + by rewrite Epath in Hres.
    + done.
    + destruct Hres as (_ & x & HxU & Hp & Hxe). split; [done|]. exists x. by rewrite Hp.
Qed.

Definition lowered_all (downgraded ls : list Version) (res : list Version + error) : Prop :=
  match res with
  | inl l => exists new, l = downgraded ++ new /\ (forall x, x ∈ new -> x ∈ U /\ ~ bad x) /\ (forall m, m ∈ ls -> ~ bad m -> m ∈ new)
  | inr e => exists m x, m ∈ ls /\ bad m /\ x ∈ U /\ Path x = Path m /\ (Previous x).2 = Some e
  end.
Lemma lower_all_spec ls : forall downgraded s, DInv ∅ s -> (forall m, m ∈ ls -> m ∈ U /\ is_Some (max !! Path m)) ->
  exists res s', lower_all fuel0 reqs max Previous downgraded ls s = Done (res, s') /\ lowered_all downgraded ls res.
Proof.
  induction ls as [|r ls IH]; intros dg s HD Hls.
  { exists (inl dg), s. split; [done|]. exists []. rewrite app_nil_r. split_and!; set_solver. }
  destruct (Hls r) as (Hr & v & Hv); [set_solver|]. destruct (add_top r s HD Hr) as (s1 & E1 & D1 & Hx1).
  destruct (lower_spec r s1 v D1 Hr Hx1 Hv) as (res & s2 & E2 & D2 & Hres & Hkeep).
  cbn [lower_all]. unfold mbind. rewrite E1, E2.
  assert (Hls' : forall m, m ∈ ls -> m ∈ U /\ is_Some (max !! Path m)) by (intros m Hm; apply Hls; set_solver).
  destruct res as [[r'|]|e].
  - destruct (IH (dg ++ [r']) s2 D2 Hls') as (res & s3 & E3 & H3). exists res, s3. split; [done|]. destruct res as [l|e].
    + destruct H3 as (new & -> & H3 & H4). exists (r' :: new). rewrite <- app_assoc. split; [done|]. split.
      * intros x [->|Hx]%elem_of_cons; [by destruct Hres as (? & ? & _)|by apply H3].
      * intros m [->|Hm]%elem_of_cons Hb; [|set_solver]. specialize (Hkeep Hb). injection Hkeep as ->. set_solver.
    + destruct H3 as (m & x & Hm & ?). exists m, x. split; [set_solver|done].
  - destruct (IH dg s2 D2 Hls') as (res & s3 & E3 & H3). exists res, s3. split; [done|]. destruct res as [l|e].
    + destruct H3 as (new & -> & H3 & H4). exists new. split; [done|]. split; [done|].
      intros m [->|Hm]%elem_of_cons Hb; [by apply Hkeep in Hb|by apply H4].
    + destruct H3 as (m & x & Hm & ?). exists m, x. split; [set_solver|done].
  - exists (inr e), s2. split; [done|]. destruct Hres as (Hb & x & ? & ? & ?). exists r, x. split; [set_solver|done].
Qed.
End Closures.

(** ** The versions asked for *)

Section Bounds.
Context {error : Type} (reqs : Reqs error) `{HL : !MaxLaws (Max reqs)}.
Implicit Types (m d : Version) (l ds : list Version) (max : gmap (list Z) (list Z)).
#[local] Notation le p v w := (Max reqs p v w = w).

Lemma max_le_trans p v w x : le p v w -> le p w x -> le p v x.
Proof. intros H1 H2. by rewrite <- H2 at 1; rewrite max_assoc, H1. Qed.
Lemma max_le_refl p v : le p v v.
Proof. by destruct (max_pick (mx := Max reqs) p v v). Qed.
Definition step_max max d : gmap (list Z) (list Z) :=
  match max !! Path d with
  | Some v => if str_eqb (Max reqs (Path d) v (Vers d)) (Vers d) then max else <[Path d := Vers d]> max
  | None => <[Path d := Vers d]> max
  end.
(** One step lowers the version of the path of [d] to that of [d], and no other. *)
Lemma step_max_spec max d :
  (exists v, step_max max d !! Path d = Some v /\ le (Path d) v (Vers d)) /\
  (forall p v, max !! p = Some v -> exists v', step_max max d !! p = Some v' /\ le p v' v) /\
  (forall p v, step_max max d !! p = Some v -> max !! p = Some v \/ MkVersion p v = d).
Proof.
  assert (Hd : MkVersion (Path d) (Vers d) = d) by (by destruct d). unfold step_max. destruct (max !! Path d) as [v|] eqn:E.
  - unfold str_eqb. case_bool_decide as Hle.
    + split; [by exists v|]. split; [|by left]. intros p w Hw. exists w. split; [done|apply max_le_refl].
    + split; [exists (Vers d); rewrite lookup_insert_eq; split; [done|apply max_le_refl]|]. split.
      * intros p w Hw. destruct (decide (p = Path d)) as [->|Hne].
        -- rewrite lookup_insert_eq. exists (Vers d). split; [done|]. rewrite E in Hw. injection Hw as <-. rewrite max_comm.
           by destruct (max_pick (mx := Max reqs) (Path d) v (Vers d)).
        -- rewrite lookup_insert_ne by done. exists w. split; [done|apply max_le_refl].
      * intros p w. destruct (decide (p = Path d)) as [->|Hne]; [rewrite lookup_insert_eq; intros [= <-]; by right|rewrite lookup_insert_ne; auto].
  - split; [exists (Vers d); rewrite lookup_insert_eq; split; [done|apply max_le_refl]|]. split.
    + intros p w Hw. rewrite lookup_insert_ne by congruence. exists w. split; [done|apply max_le_refl].
    + intros p w. destruct (decide (p = Path d)) as [->|Hne]; [rewrite lookup_insert_eq; intros [= <-]; by right|rewrite lookup_insert_ne; auto].
Qed.
Lemma downgrade_max_spec ds : forall max,
  let max' := foldl step_max max ds in
  (forall d, d ∈ ds -> exists v, max' !! Path d = Some v /\ le (Path d) v (Vers d)) /\
  (forall p v, max !! p = Some v -> exists v', max' !! p = Some v' /\ le p v' v) /\
  (forall p v, max' !! p = Some v -> max !! p = Some v \/ MkVersion p v ∈ ds).
Proof.
  induction ds as [|d ds IH]; intros max; cbn.
  { split; [set_solver|]. split; [|auto]. intros p v Hv. exists v. split; [done|apply max_le_refl]. }
  destruct (IH (step_max max d)) as (H1 & H2 & H3), (step_max_spec max d) as ((v & Hv & Hle) & H5 & H6). split_and!.
  - intros x [->|Hx]%elem_of_cons; [|by apply H1]. destruct (H2 _ _ Hv) as (v' & ? & ?). exists v'. split; [done|by eapply max_le_trans].
  - intros p w Hw. destruct (H5 p w Hw) as (w1 & Hw1 & ?). destruct (H2 _ _ Hw1) as (w2 & ? & ?). exists w2. split; [done|by eapply max_le_trans].
  - intros p w [Hw|Hw]%H3; [|right; set_solver]. apply H6 in Hw as [?|<-]; [by left|right; set_solver].
Qed.
(** What [over_max] tests. *)
Lemma within_max l ds m : NoDup (map Path l) -> over_max reqs (downgrade_max reqs l ds) m = false ->
  (forall d, d ∈ ds -> Path d = Path m -> le (Path m) (Vers m) (Vers d)) /\
  (forall x, x ∈ l -> Path x = Path m -> le (Path m) (Vers m) (Vers x)).
Proof.
  intros Hnd. unfold over_max. destruct (downgrade_max_spec ds (max_of l)) as (H1 & H2 & _).
  change (foldl step_max (max_of l) ds) with (downgrade_max reqs l ds) in *. intros Ho. split.
  - intros d Hd Ep. destruct (H1 d Hd) as (v & Ev & Hle). rewrite Ep in *. rewrite Ev in Ho. apply negb_false_iff in Ho. unfold str_eqb in Ho.
    apply bool_decide_eq_true in Ho. by eapply max_le_trans.
  - intros x Hx Ep. assert (Ex : max_of l !! Path x = Some (Vers x)) by (apply max_of_lookup; [done|by destruct x]).
    destruct (H2 _ _ Ex) as (v & Ev & Hle). rewrite Ep in *. rewrite Ev in Ho. apply negb_false_iff in Ho. unfold str_eqb in Ho.
    apply bool_decide_eq_true in Ho. by eapply max_le_trans.
Qed.
End Bounds.

(** ** The build lists at the end *)

Section Good.
Context {error : Type} (reqs : Reqs error) `{HL : !MaxLaws (Max reqs)} (target : Version) (U : gset Version) (mx : gmap (list Z) (list Z)).
Hypotheses (HM : target ∈ U) (HU : forall m r, m ∈ U -> r ∈ succ reqs m -> r ∈ U) (HS : Z.of_nat (size U) < 2 ^ 62).
Hypotheses (HT : forall v, Max reqs (Path target) (Vers target) v = Vers target) (HP : forall m, m ∈ U -> Path m <> []).
Hypothesis (HN : forall m, m ∈ U -> Vers m = none -> Required reqs m = ([], None)).
Implicit Types (m x : Version) (l L : list Version).

Definition good m : Prop := m ∈ U /\ ~ bad reqs mx m.
Lemma good_step x m : good x -> rtc (requires_ reqs target) x m -> good m.
Proof using HU. intros Hx Hr. induction Hr as [|x y z [_ Hy] _ IH]; [done|]. destruct Hx as [HxU Hb]. apply IH. split; [by eapply HU|]. by apply (not_bad _ _ _ Hb). Qed.
Lemma good_needed L m : (forall x, x ∈ L -> x = target \/ good x) -> needed (override target L reqs) None [target] m -> m = target \/ good m.
Proof using HL HM HN HT HU.
  intros HG Hn. assert (HLU : forall x, x ∈ L -> x ∈ U) by (intros x [->|[? _]]%HG; done).
  apply (needed_override reqs target U HM HU HN HT L m HLU) in Hn as [->|(x & Hx & Hr)]; [by left|].
  destruct (HG x Hx) as [->|Hg]; [|right; by eapply good_step]. left. inversion Hr as [|? y ? [Hne _] _]; [done|by destruct Hne].
Qed.

(** The build list when the target's requirements are [L]. *)
Definition good_list L l : Prop :=
  (forall m, m ∈ l -> highest (override target L reqs) None [target] m) /\
  (forall m, m ∈ l -> m = target \/ (good m /\ forall r, r ∈ succ reqs m -> Vers r <> none ->
     exists r', r' ∈ l /\ Path r' = Path r /\ Max reqs (Path r) (Vers r) (Vers r') = Vers r')) /\
  (forall m, highest (override target L reqs) None [target] m -> Path m <> Path target -> m ∈ l) /\ NoDup (map Path l).
Lemma good_build L : (forall x, x ∈ L -> x = target \/ good x) ->
  exists l, (forall out, BuildList [target] (override target L reqs) out <-> out = Done (inl l)) /\ good_list L l.
Proof using HL HM HN HT HU HS HP.
  intros HG. assert (HLU : forall x, x ∈ L -> x ∈ U) by (intros x [->|[? _]]%HG; done).
  destruct (main_build_list reqs target U HM HS HT HP (override target L reqs) eq_refl) as (_ & res & Hres & Hb).
  { intros m r. by apply override_in_U. }
  assert (Hnf : forall m, needed (override target L reqs) None [target] m -> fails (override target L reqs) None m = None).
  { intros m Hn. assert (m ∈ U) as HmU by (by destruct (good_needed L m HG Hn) as [->|[? _]]).
    rewrite (proj2 (needs_override reqs target U HN HT L m HmU)). case_decide as Hd; [done|].
    destruct (good_needed L m HG Hn) as [?|[_ Hb']]; [done|]. by apply not_bad in Hb' as (_ & ? & _). }
  destruct res as [l|e].
  2: { destruct Hres as (p & m & Hp & Hf & _). rewrite Hnf in Hf; [done|]. by exists p. }
  exists l. split; [done|]. destruct Hres as (_ & rest & -> & Hs & Hin & Hmet).
  assert (Hht : highest (override target L reqs) None [target] target).
  { split; [exists [target]; constructor; set_solver|]. split; [by apply (main_version reqs)|]. intros m' _ _. rewrite max_comm. apply HT. }
  assert (Hh : forall m, m ∈ [target] ++ rest -> highest (override target L reqs) None [target] m).
  { intros m [->%list_elem_of_singleton|Hm]%elem_of_app; [done|by apply Hin]. }
  split; [done|]. split; [|split].
  - intros m Hm. pose proof (Hh m Hm) as (Hn & _). destruct (decide (m = target)) as [?|Hne]; [by left|right].
    destruct (good_needed L m HG Hn) as [?|Hg]; [done|]. split; [done|]. intros r Hr Hv.
    assert (Hnr : needed (override target L reqs) None [target] r).
    { destruct Hn as [l Hl]. exists (l ++ [r]). eapply rpath_step; [done|]. rewrite (proj1 (needs_override reqs target U HN HT L m (proj1 Hg))).
      by rewrite decide_False. }
    destruct (Hmet r Hnr Hv) as (r' & ? & ? & ?). by exists r'.
  - intros m Hm Hp. apply elem_of_app. right. apply Hin. split; [done|]. by intros t ->%list_elem_of_singleton.
  - cbn. apply NoDup_cons. split; [|by apply sorted_paths_NoDup].
    rewrite list_elem_of_fmap. intros (x & Ex & [_ Hx]%Hin). apply (Hx target); [set_solver|done].
Qed.
Lemma good_highest L m : (forall x, x ∈ L -> x = target \/ good x) -> m ∈ L -> Vers m <> none -> Path m <> Path target ->
  (forall x, good x -> Path x = Path m -> Max reqs (Path m) (Vers x) (Vers m) = Vers m) -> highest (override target L reqs) None [target] m.
Proof using HL HM HN HT HU.
  intros HG Hm Hv Hp Hmax. assert (HLU : forall x, x ∈ L -> x ∈ U) by (intros x [->|[? _]]%HG; done). split; [|split; [done|]].
  - apply (needed_override reqs target U HM HU HN HT L m HLU). right. exists m. split; [done|apply rtc_refl].
  - intros x Hx Ep. destruct (good_needed L x HG Hx) as [->|Hg]; [by destruct Hp|]. by apply Hmax.
Qed.
End Good.

(** ** The result *)

Section Result.
Context {error : Type} (reqs : Reqs error) `{HL : !MaxLaws (Max reqs)} (Previous : Version -> Version * option error) (target : Version) (downgrade : list Version) (U : gset Version) (fuel : nat).
Hypotheses (HM : target ∈ U) (HU : forall m r, m ∈ U -> r ∈ succ reqs m -> r ∈ U) (HS : Z.of_nat (size U) < 2 ^ 62) (Hfuel : (size U < fuel)%nat).
Hypotheses (HT : forall v, Max reqs (Path target) (Vers target) v = Vers target) (HP : forall m, m ∈ U -> Path m <> []).
Hypothesis (HN : forall m, m ∈ U -> Vers m = none -> Required reqs m = ([], None)).
Hypothesis (HD : forall d, d ∈ downgrade -> d ∈ U).
Hypothesis (HPv : forall m p, m ∈ U -> Previous m = (p, None) -> Path p = Path m /\ (Vers p = none \/ p ∈ U /\ below reqs p m)).
Context (ls : list Version) (Hls : result_ok reqs None [target] (inl (target :: ls))).
Implicit Types (m x d : Version) (l : list Version).
#[local] Notation mx := (downgrade_max reqs ls downgrade).

Lemma original_facts : NoDup (map Path ls) /\ forall m, m ∈ ls -> m ∈ U /\ Vers m <> none /\ Path m <> Path target /\ is_Some (mx !! Path m).
Proof using Type*.
  destruct (list_facts reqs target U HM HU HN HT _ Hls) as (Hnd & _ & Hh & _). cbn in Hnd. apply NoDup_cons in Hnd as [Hp Hnd].
  split; [done|]. intros m Hm. destruct (Hh m ltac:(set_solver)) as (Hn & Hv & _). split; [by eapply (needed_succ reqs target U)|]. split; [done|].
  split; [intros E; apply Hp; rewrite <- E; by apply list_elem_of_fmap_2|].
  destruct (downgrade_max_spec reqs downgrade (max_of ls)) as (_ & H2 & _).
  destruct (H2 (Path m) (Vers m)) as (v & E & _); [apply max_of_lookup; [done|by destruct m]|]. by exists v.
Qed.
Lemma max_in_U m v : m ∈ U -> mx !! Path m = Some v -> MkVersion (Path m) v ∈ U.
Proof using Type*.
  intros _ Hv. destruct original_facts as [Hnd Hf]. destruct (downgrade_max_spec reqs downgrade (max_of ls)) as (_ & _ & H3).
  destruct (H3 _ _ Hv) as [E|E]; [|by apply HD]. apply max_of_lookup in E; [|done]. by apply Hf.
Qed.
Lemma actual_spec l x : NoDup (map Path l) -> x ∈ actual_versions l ls <-> x ∈ l /\ exists m, m ∈ ls /\ Path m = Path x.
Proof.
  intros Hnd. unfold actual_versions. rewrite list_elem_of_omap. split.
  - intros (m & Hm & (v & E & [= <-])%bind_Some). apply max_of_lookup in E; [|done]. split; [done|]. by exists m.
  - intros (Hx & m & Hm & Ep). exists m. split; [done|]. rewrite Ep. apply bind_Some. exists (Vers x).
    split; [apply max_of_lookup; [done|]|]; by destruct x.
Qed.

(** What [Downgrade] promises of its list. *)
Definition lowers_to l : Prop :=
  target ∈ l /\ NoDup (map Path l) /\
  (forall m, m ∈ l -> m <> target ->
     (forall d, d ∈ downgrade -> Path d = Path m -> Max reqs (Path m) (Vers m) (Vers d) = Vers d) /\
     (forall x, x ∈ ls -> Path x = Path m -> Max reqs (Path m) (Vers m) (Vers x) = Vers x) /\
     (forall r, r ∈ succ reqs m -> Vers r <> none ->
        exists r', r' ∈ l /\ Path r' = Path r /\ Max reqs (Path r) (Vers r) (Vers r') = Vers r')) /\
  (forall m, m ∈ ls -> ~ bad reqs mx m -> m ∈ l).
Lemma kept L l m : (forall x, x ∈ L -> x = target \/ good reqs U mx x) -> good_list reqs target U mx L l -> m ∈ ls -> m ∈ L -> m ∈ l.
Proof using Type*.
  intros HG (_ & _ & Hin & _) Hm HmL. destruct original_facts as [Hnd Hf]. destruct (Hf m Hm) as (HmU & Hv & Hp & _).
  apply Hin; [|done]. apply (good_highest reqs target U mx HM HU HT HN); try done. intros x [_ Hb] Ep. apply not_bad in Hb as (Ho & _).
  apply (within_max reqs ls downgrade x Hnd) in Ho as [_ Hw]. rewrite <- Ep. by apply Hw.
Qed.
Lemma final_lists new : (forall x, x ∈ new -> x ∈ U /\ ~ bad reqs mx x) -> (forall m, m ∈ ls -> ~ bad reqs mx m -> m ∈ new) ->
  exists l1 l2, (forall out, BuildList [target] (override target ([target] ++ new) reqs) out <-> out = Done (inl l1)) /\
    (forall out, BuildList [target] (override target (actual_versions l1 ls) reqs) out <-> out = Done (inl l2)) /\ lowers_to l2.
Proof using Type*.
  intros Hnew Hkeep. destruct original_facts as [Hnd Hf].
  assert (HG1 : forall x, x ∈ [target] ++ new -> x = target \/ good reqs U mx x).
  { intros x [->%list_elem_of_singleton|Hx]%elem_of_app; [by left|right; by apply Hnew]. }
  destruct (good_build reqs target U mx HM HU HS HT HP HN _ HG1) as (l1 & B1 & G1). pose proof G1 as (_ & Hg1 & _ & Hnd1).
  assert (HG2 : forall x, x ∈ actual_versions l1 ls -> x = target \/ good reqs U mx x).
  { intros x [Hx _]%actual_spec; [|done]. destruct (Hg1 x Hx) as [?|[? _]]; [by left|by right]. }
  destruct (good_build reqs target U mx HM HU HS HT HP HN _ HG2) as (l2 & B2 & G2). exists l1, l2. split; [done|]. split; [done|].
  pose proof G2 as (Hh2 & Hg2 & Hin2 & Hnd2). split; [|split; [done|split]].
  - pose proof (proj2 (B2 (Done (inl l2))) eq_refl) as Hb. destruct (main_build_list reqs target U HM HS HT HP (override target (actual_versions l1 ls) reqs) eq_refl) as (_ & res & Hres & Hb').
    { intros m r. apply override_in_U; try done. by intros x [->|[? _]]%HG2. }
    apply Hb' in Hb. injection Hb as <-. destruct Hres as (_ & rest & -> & _). set_solver.
  - intros m Hm Hne. destruct (Hg2 m Hm) as [?|[[_ Hb] Hr]]; [done|]. apply not_bad in Hb as (Ho & _).
    apply (within_max reqs ls downgrade m Hnd) in Ho as [Hw1 Hw2]. split_and!; [by intros d Hd Ed; apply Hw1|by intros x Hx Ex; apply Hw2|done].
  - intros m Hm Hb. apply (kept (actual_versions l1 ls)); [done|done|done|]. apply actual_spec; [done|]. split; [|by exists m].
    apply (kept ([target] ++ new)); [done|done|done|]. apply elem_of_app. right. by apply Hkeep.
Qed.
End Result.

(** C6: downgrades.  Under the conditions of the build list, when [Previous] returns
    a lower version of the module or "none", and with fuel above the number of
    modules, [Downgrade] has one and the same result for every schedule, without
    a panic: the error of the build list; or the first error of [Previous] met below a module
    of that list; or a list that contains the target, in which every other module is
    neither above a version asked for nor above its version in the build list, all of
    whose requirements are met, and which keeps every module of the
    build list that reaches no module above these bounds and none whose
    requirements cannot be loaded. *)
Theorem Downgrade_lowers {error} (reqs : Reqs error) (Previous : Version -> Version * option error) (target : Version) (downgrade : list Version)
    (U : gset Version) (fuel : nat) :
  MaxLaws (Max reqs) ->
  target ∈ U -> (forall m r, m ∈ U -> r ∈ succ reqs m -> r ∈ U) -> Z.of_nat (size U) < 2 ^ 62 -> (size U < fuel)%nat ->
  (forall v, Max reqs (Path target) (Vers target) v = Vers target) -> (forall m, m ∈ U -> Path m <> []) ->
  (forall m, m ∈ U -> Vers m = none -> Required reqs m = ([], None)) ->
  (forall d, d ∈ downgrade -> d ∈ U) ->
  (forall m p, m ∈ U -> Previous m = (p, None) -> Path p = Path m /\ (Vers p = none \/ p ∈ U /\ below reqs p m)) ->
  exists res0 res, (forall out, BuildList [target] reqs out <-> out = Done res0) /\
    (forall out, Downgrade fuel target reqs Previous downgrade out <-> out = Done res) /\
    match res0, res with
    | inr e, _ => res = inr (inr e)
    | inl (_ :: ls), inl l => lowers_to reqs target downgrade ls l
    | inl (_ :: ls), inr (inl e) =>
        exists m x, m ∈ ls /\ bad reqs (downgrade_max reqs ls downgrade) m /\ x ∈ U /\ Path x = Path m /\ (Previous x).2 = Some e
    | _, _ => False
    end.
Proof.
  intros HL HM HU HS Hfuel HT HP HN HD HPv.
  destruct (main_build_list reqs target U HM HS HT HP reqs eq_refl (needs_in_U reqs U HU HN)) as (_ & res0 & Hres & Hb).
  exists res0. destruct res0 as [l0|e].
  2: { exists (inr (inr e)). split; [done|]. split; [|done]. intros out. split; [intros (b & ->%Hb & ->); done|]. intros ->. exists (Done (inr e)). split; [by apply Hb|done]. }
  assert (exists ls, l0 = target :: ls) as [ls ->] by (destruct Hres as (_ & rest & -> & _); by exists rest).
  destruct (original_facts reqs Previous target downgrade U fuel HM HU HS Hfuel HT HP HN HD HPv ls Hres) as [Hnd Hf].
  destruct (lower_all_spec reqs (downgrade_max reqs ls downgrade) U fuel HU Hfuel Previous
    (max_in_U reqs Previous target downgrade U fuel HM HU HS Hfuel HT HP HN HD HPv ls Hres) HPv ls [target] (MkVisited ∅ ∅ ∅)) as (res & s' & E & Hall).
  { apply start_DInv. } { intros m Hm. by destruct (Hf m Hm) as (? & _ & _ & ?). }
  destruct res as [dg|e].
  - destruct Hall as (new & -> & Hnew & Hkeep).
    destruct (final_lists reqs Previous target downgrade U fuel HM HU HS Hfuel HT HP HN HD HPv ls Hres new Hnew Hkeep) as (l1 & l2 & B1 & B2 & Hl2).
    exists (inl l2). split; [done|]. split; [|done]. intros out. unfold Downgrade. split.
    + intros (b & ->%Hb & Ho). unfold result in Ho. rewrite E in Ho. destruct Ho as (b1 & ->%B1 & b2 & ->%B2 & ->). done.
    + intros ->. exists (Done (inl (target :: ls))). split; [by apply Hb|]. unfold result. rewrite E. exists (Done (inl l1)). split; [by apply B1|].
      exists (Done (inl l2)). split; [by apply B2|done].
  - exists (inr (inl e)). split; [done|]. split; [|done]. intros out. unfold Downgrade. split.
    + intros (b & ->%Hb & Ho). unfold result in Ho. by rewrite E in Ho.
    + intros ->. exists (Done (inl (target :: ls))). split; [by apply Hb|]. unfold result. by rewrite E.
Qed.

Lemma Downgrade_lowers_witness :
  exists res0 res, (forall out, BuildList [paper_main] paper out <-> out = Done res0) /\
    (forall out, Downgrade 9 paper_main paper paper_previous [mv "D" "v3"] out <-> out = Done res) /\
    match res0, res with
    | inr e, _ => res = inr (inr e)
    | inl (_ :: ls), inl l => lowers_to paper paper_main [mv "D" "v3"] ls l
    | inl (_ :: ls), inr (inl e) => exists m x, m ∈ ls /\ Path x = Path m /\ (paper_previous x).2 = Some e
    | _, _ => False
    end.
Proof.
  destruct (Downgrade_lowers paper paper_previous paper_main [mv "D" "v3"] (list_to_set paper_modules) 9) as (res0 & res & H1 & H2 & H3).
  - exact str_max_laws.
  - by apply elem_of_list_to_set, list_elem_of_here.
  - exact paper_closed.
  - vm_compute. reflexivity.
  - apply Nat.ltb_lt. vm_compute. reflexivity.
  - apply paper_main_max.
  - apply paper_all. unfold paper_modules. by repeat (apply Forall_cons; split).
  - apply (paper_all (fun m => Vers m = none -> Required paper m = ([], None))). unfold paper_modules. by repeat (apply Forall_cons; split).
  - intros d ->%list_elem_of_singleton. apply elem_of_list_to_set. do 3 apply list_elem_of_further. apply list_elem_of_here.
  - intros m p _ [= <-]. case_decide; [subst; split; [done|right; split; [|by vm_compute]]|case_decide; [subst; split; [done|right; split; [|by vm_compute]]|by split; [|left]]];
      apply elem_of_list_to_set.
    + do 3 apply list_elem_of_further. apply list_elem_of_here.
    + do 5 apply list_elem_of_further. apply list_elem_of_here.
  - exists res0, res. split; [exact H1|]. split; [exact H2|]. destruct res0 as [[|t ls]|e]; [exact H3| |exact H3].
    destruct res as [l|[e|e]]; [exact H3| |exact H3]. destruct H3 as (m & x & Hm & _ & _ & Hx & He). exists m, x. by split.
Defined.
